(* ===== verification/_CoqProject ===== *)
-Q . S2P
Prelude.v
Event.v
EventStore.v
Registry.v
Net.v
Authority.v
Blob.v
FileBlob.v
FileBlobSpec.v
Delivery.v
Stores.v
Utf8.v
Sqlite.v
SqliteLog.v
SqliteState.v
SqliteDelivery.v
SqliteSpec.v
SqliteStores.v
Json.v
JsonFlat.v
Manifest.v
Router.v
RouterLoops.v
RouterSpec.v
OriginAuthority.v
Agent.v
AgentSpec.v
Host.v
Imports.v
Instance.v
HostSpec.v
InstanceSpec.v
AgentDeliver.v
AgentDeliverSpec.v
AgentDeliverSample.v
HostSample.v
Plugin.v
Memory.v
MemorySpec.v
MemorySample.v
CognitionText.v
Compaction.v
CognitionData.v
CognitionBase.v
Cognition.v
CognitionSpec.v
CognitionTurn.v
CognitionEvents.v
CognitionResults.v
CognitionSafety.v
CognitionRun.v
CognitionSample.v
Scheduler.v
SchedulerSpec.v
SchedulerReplay.v
SchedulerSample.v
HttpData.v
HttpPolicy.v
HttpPolicySpec.v
HttpBody.v
HttpHost.v
HttpHostSpec.v
HttpSse.v
HttpStored.v
HttpSample.v
Text.v
Mime.v
MimeSpec.v
MimeHeaders.v
Calendar.v
Email.v
EmailSpec.v
Wire.v
Imap.v
Smtp.v
SmtpSpec.v
ImapFrame.v
ImapFetch.v
ImapSpec.v
EmailSample.v
