(* ===== verification/Prelude.v ===== *)
(** * Pluribus: a verification of the host and its plugins

    Pluribus is a runtime for agents made of WebAssembly components.  The host
    keeps one append-only log of events per agent, decides which component may
    do what, and delivers committed events to the components that subscribe to
    them.  A component proposes events; the host validates them, commits them
    together with the component's state and its cursor, and routes requests to
    providers under the authority of the observation that caused them.

    ** The parts and how they interact

    The core crate ([src/crates/pluribus-core]) defines the data (events,
    authorities, deliveries, blobs) and the traits of the stores.  The SQLite
    store ([src/crates/pluribus-store-sqlite]) implements the log, the
    component state, the delivery cursors and the credentials over one
    database; the file store ([src/crates/pluribus-store-fs]) keeps blobs.  The
    router ([src/crates/pluribus-cognition/src/dispatch.rs]) reads and writes
    the log through the trait [EventStore]: it polls events for components,
    gates capability requests with [Authority::decide] and a constraint policy,
    admits attempts, and ends requests that were cancelled or lost.  The origin
    resolver ([src/crates/pluribus-cognition/src/authority.rs]) walks the
    causal chain of an event through the same trait and issues the authority
    the router then decides with.  The agent loop
    ([src/crates/pluribus-cognition/src/agent.rs]) drives the router: it gates
    new requests, follows the health of components in the log, installs and
    removes components, and delivers to them, in its own pass or in worker
    tasks.  The component runtime ([src/crates/pluribus-runtime-wasm]) is what
    a delivery goes to: an instance with its lifecycle, and the imports through
    which its program reaches the stores.  The HTTP host
    ([src/crates/pluribus-host-http]) sends a component's requests under its
    grant.  The plugins are components: the scheduler
    ([src/plugins/scheduler]), the memory ([src/plugins/memory]), the reasoning
    engine ([src/plugins/rlm/cognition]) and the email connector
    ([src/plugins/email]).

    ** Files

    Foundations:
    - [Prelude]: results and the [?] operator, machine integers (u32, u64, i64
      with their checked, saturating and truncating conversions, decimal
      printing and parsing), strings, sorting and list lemmas, the tactics
      [res_inv] and friends, the hint database [pluribus].
    - [Utf8]: strings as sequences of Unicode scalar values; [Text]: the
      methods of [str] over them.
    - [Json]: [serde_json] values and accessors; [JsonFlat]: a codec for the
      examples.

    The core and its stores:
    - [Event]: [identity.rs], [event.rs] and the reference checks of [blob.rs];
      [Registry]: [registry.rs]; [Net]: [net.rs]; [Authority]: [authority.rs];
      [Blob]: [InMemoryBlobStore] of [blob.rs]; [Delivery]: [state.rs],
      [delivery.rs] and [secret.rs].
    - [EventStore], [Stores]: the traits of the stores as classes, with the
      laws of their documentation ([EventStoreLaws], [AgentStoreLaws]).
    - [Sqlite]: [pluribus-store-sqlite/src/lib.rs], statement by statement;
      [SqliteLog], [SqliteState], [SqliteDelivery]: its lemmas; [SqliteSpec]:
      its theorems and the instance of [EventStoreLaws]; [SqliteStores]: the
      instance of [AgentStoreLaws].
    - [FileBlob]: [pluribus-store-fs/src/lib.rs] over a file system whose calls
      may fail; [FileBlobSpec]: its theorems.
    - [Manifest]: [pluribus-plugin-package/src/manifest.rs].

    Dispatch and the agent:
    - [Router]: [dispatch.rs], one definition per method; [RouterLoops]: a
      weakest precondition for its monad and its loops over pages;
      [RouterSpec]: its theorems, on every store with [EventStoreLaws].
    - [OriginAuthority]: [pluribus-cognition/src/authority.rs].
    - [Agent]: the gate, health, installation and removal of [agent.rs];
      [AgentSpec]: its theorems, on every resolver with
      [AuthorityResolverLaws].
    - [AgentDeliver]: a pass, a delivery, the workers and what follows a
      failure, over component instances as the interface [Lifecycle];
      [AgentDeliverSpec], [AgentDeliverSample].

    The component runtime:
    - [Host]: [HostState]; [Imports]: one definition per import, and the
      programs a component can be; [Instance]: [InstanceCore] and its
      lifecycle; [HostSpec], [InstanceSpec], [HostSample].
    - [HttpData]: [pluribus-core/src/http.rs] and the limits of the HTTP host;
      [HttpPolicy]: how a response is opened; [HttpBody]: how a body is stored
      or framed; [HttpHost]: the service and its streams; [HttpPolicySpec],
      [HttpHostSpec], [HttpSse], [HttpStored], [HttpSample].

    The plugins:
    - [Plugin]: programs over the imports and the loop of the SDK.
    - [Scheduler], with [SchedulerSpec], [SchedulerReplay], [SchedulerSample].
    - [Memory], with [MemorySpec], [MemorySample].
    - [CognitionText], [Compaction], [CognitionData], [CognitionBase],
      [Cognition]: the reasoning engine; [CognitionSpec] (the invariant and its
      weakest precondition), [CognitionTurn], [CognitionEvents],
      [CognitionResults] (each handler keeps it), [CognitionSafety],
      [CognitionRun] (deliveries: [load] of [view.rs], events, and what
      [record_changes] of [lib.rs] writes back), [CognitionSample].
    - [Mime]: [plugins/email/src/mime.rs]; [Email]: the composition of
      [send.rs]; [MimeSpec], [MimeHeaders], [Calendar], [EmailSpec].
    - [Wire]: the IMAP framing of [wire.rs] over a socket; [Imap]: the commands
      and responses of [imap.rs]; [Smtp]: [smtp.rs] and the submission of
      [send.rs]; [ImapFrame], [ImapFetch], [ImapSpec], [SmtpSpec],
      [EmailSample].

    A file named [...Sample] instantiates the parameters of its component by
    concrete functions and applies the theorems to concrete runs.

    ** State, errors and failures

    A fallible Rust function returns a [result].  A call of the SQLite store is
    a function of a [World]: the tables, the metadata source, and a count of
    the statements run.  Every statement, BEGIN and COMMIT included, may fail
    as the parameter [io_error] decides from that count, so the theorems hold
    for every pattern of failures; theorems that promise success assume
    [no_io_errors].  The file store does the same with its system calls
    ([fs_error]), and a failing write may have written part of its bytes.  The
    router runs on an [RState]: the store, the projection behind its lock, the
    process-wide claim counter and the number of clock reads; its outcome is a
    value, an error, or [OutOfFuel], and [wp] never admits the last.  A
    component is any program over the imports, cut off by a trap wherever the
    engine stops it.  Workers of the agent are spawned, run and collected in
    separate steps, so that passes and tasks interleave; the worker of an HTTP
    stream moves between any two looks of the service at its channel.  Where
    the code can panic (the reasoning engine, the reading of a message, an
    address without a host) the model returns [None], and the theorems say
    where that is excluded.

    ** What the theorems show

    - The log ([SqliteSpec]): the invariant over all call sequences, [append]
      as a refinement of the append-only log, idempotence, totality, the round
      trip of rows, and [read] and [query] as exact filters of the log.
      Component state and deliveries: [apply] and [scan] against an abstract
      namespace; [commit] atomic, total and effective once; [discard].
    - Blobs ([Blob], [FileBlobSpec]): while no system call fails the file
      store answers as the in-memory store, and its objects stay whatever
      fails.
    - Decisions ([Authority], [Registry], [OriginAuthority]): when a capability
      is allowed or refused and why, what a plugin may propose, where an
      authority comes from, that untrusted senders get nothing and replies stay
      in their conversation.
    - Dispatch ([RouterSpec]): polling is exact but for timer events whose
      request the store fails to read, the recorded decision is the one
      enforced, an attempt is admitted at most once, and cancelled,
      interrupted and orphaned requests end.
    - The agent ([AgentSpec], [AgentDeliverSpec]): a gated request is settled,
      health is the fold of the log's health events, a component runs in one
      place at a time and within the limits, a request runs only after it was
      admitted, and what a failure does.
    - Components ([HostSpec], [InstanceSpec]): whatever program runs, its
      effects and its reads stay inside its grants; a delivery commits all or
      nothing; a rebuild replays each own event once.
    - HTTP ([HttpPolicySpec], [HttpHostSpec], [HttpSse], [HttpStored]): only
      granted requests to public addresses are sent, credentials stay on their
      origin, a stream that was answered no error arrives whole, server-sent
      events come back but for empty data lines at their start, and a response
      is stored whole or not at all.  [Net] compares the test of public
      addresses with the registries' ranges and names the two it leaves out.
    - The scheduler: conversations manage their own schedules, occurrences do
      not repeat, and the private state is a projection of the log: its
      program runs against a host whose calls may fail and whose stream grows
      between them, is stopped anywhere and loses its state, and what
      [refresh] finds settled is the replay of the log (for idempotency keys
      that are not taken and plain JSON payloads).  The memory: the stored
      keys are what the log of accepted changes says, and [recall] is its
      reference.
    - The reasoning engine: over deliveries that load a part of what is stored
      and write it back, no event it relies on ([acceptable]) makes it panic,
      the stored sessions stay well formed, calls, budgets, the children of a
      job and depth stay bounded, and a child reads only inside its parent's
      window.
    - Email: no value of a request becomes a header of its own, reading is
      bounded, quoted-printable text and the calendar are right; a fetched
      message arrives byte by byte whatever pieces it comes in, a search skips
      nothing, and whatever server and socket do a submission sends each step
      only after a whole reply accepted the one before.
    - Some lemmas and examples describe behaviour the code does not mean to
      have: [query_upper_bound_overflow], [recorded_decision_stands],
      [file_double_fault], [background_output_race], [trap_refuses_lifecycle],
      [idempotency_key_unscoped], [error_drops_frames], [empty_data_lost],
      [unread_timer_left_out], [ipv6_test_ranges_public],
      [orphan_report_panics], [five_queries_run], [subject_panics], [escaped_word_kept],
      [domain_case_kept] and [bare_newline_hangs].

    ** Parameters

    Code outside the repository is a parameter: SQLite's failures and its
    full-text matcher (class [Sqlite]), the file system ([FileSystem]),
    Unicode's alphanumeric table ([UnicodeTables]), the text codec, pointers
    and number printing of serde_json ([SerdeJson], with [json_roundtrip] as
    its hypothesis), the derived decoders ([HostCodec], [SchedulerLibs] with
    the calendar crates, [MemoryLibs], [CognitionLibs], [SummaryDecoder], with
    round trips as hypotheses where a theorem needs them), the SHA-256 function
    (a theorem about the memory assumes that the finitely many identifiers that
    occur in the run it speaks of do not collide, one about blobs that the
    contents it compares do not), the event metadata source ([EventMetadataSource]), the process id
    and clocks ([Process], [SystemClock], [Surroundings]), the constraint
    policy, the instantiation of a Wasm component ([Runtime], [Lifecycle]), the
    emergency stop ([StopSignal]), the url and reqwest crates ([HttpLib]), the
    network ([Network], with [NetworkLaws]), the progress of a stream's worker
    ([Worker]), the base64 crate ([Base64], with its alphabet as
    [Base64Laws]) and the sockets of a component ([Transport]).  The samples instantiate each of them.

    ** Bounds and fuel

    Integers keep their width: sequences are i64 columns read as u64, revisions
    and checkpoints are u64 printed in decimal (20 digits suffice), limits are
    usize taken as 64 bits on the host and as 32 bits in the reasoning plugin,
    which is compiled for wasm32.  Loops over pages take fuel; a page that is
    full moves past at least one event, so fuel above the length of the log is
    enough, and each theorem says so.  The queue of the reasoning engine runs
    with as much fuel as it has entries, and [engine_never_panics] shows that
    it ends.  Redirects recurse on those that remain, the walk through a
    message on the depth that remains, and scans of texts are structural.  A
    reply of SMTP ends within its ceiling of bytes, the parser of a FETCH
    response within two turns a byte where it ends at all
    ([parse_fetch_ends]), and a command of IMAP within as many reads as the
    answer has pieces.  The days of a date are unbounded integers where the
    code has i64, which the caller's milliseconds keep far from its ends; the
    depth of the native stack under nested lists of a FETCH response is not
    bounded in the model.  The limit of 4096 on an origin chain is the code's own.

    ** What is not modelled

    Locks and the interleaving inside one operation of a store or the router
    (each runs to its end; interleaving of routers is expressed as operations
    on successive states of the store); opening, migrating and copying
    databases; the Wasm engine and the package loader; stream sockets, terminals
    and processes; the command line; logging; the source loop and the
    observations of the email plugin, the other connectors, the model providers
    and the shell, which are mostly calls of network protocols.  Of the
    reasoning plugin the bytes of its records, records over their size bound,
    the replay of its checkpoints, reads of history and the interpreter of
    cells are not modelled; the ids a batch names are arbitrary; and the
    theorems about the engine speak of the events [acceptable] describes:
    observations with plain ids, objects for payloads and no job before they
    are received, no cells of routers, and no failed call or resource report
    about a session of an ended job ([orphan_report_panics] is what happens
    otherwise). *)
From stdpp Require Import base tactics option list numbers strings sorting gmap.
From Stdlib Require Import ZArith NArith Lia Ascii.

(** ** Results: the shape of every fallible Rust function *)

(** [std::result::Result<A, E>]. *)
Inductive result (A E : Type) : Type :=
| Ok (value : A)
| Err (error : E).
Arguments Ok {A E} value.
Arguments Err {A E} error.

Declare Scope rust_scope.
Delimit Scope rust_scope with rust.

(** The [?] operator: an error returns early. *)
Definition result_bind {A B E} (m : result A E) (k : A → result B E) : result B E :=
  match m with
  | Ok a => k a
  | Err e => Err e
  end.

Notation "'let?' x := m 'in' k" := (result_bind m (fun x => k))
  (at level 10, x pattern, m at level 100, k at level 200) : rust_scope.
Notation "'try!' m ; k" := (result_bind m (fun _ => k))
  (at level 10, m at level 100, k at level 200) : rust_scope.
Open Scope rust_scope.

Definition map_err {A E F} (f : E → F) (m : result A E) : result A F :=
  match m with
  | Ok a => Ok a
  | Err e => Err (f e)
  end.

Definition ok_or {A E} (o : option A) (e : E) : result A E :=
  match o with
  | Some a => Ok a
  | None => Err e
  end.

Definition result_ok {A E} (m : result A E) : option A :=
  match m with
  | Ok a => Some a
  | Err _ => None
  end.

Definition result_map {A B E} (f : A → B) (m : result A E) : result B E :=
  match m with
  | Ok a => Ok (f a)
  | Err e => Err e
  end.

Definition is_ok {A E} (m : result A E) : bool :=
  match m with
  | Ok _ => true
  | Err _ => false
  end.

(** A loop whose body may return early with an error. *)
Fixpoint try_fold {S A E} (f : S → A → result S E) (s : S) (l : list A) : result S E :=
  match l with
  | [] => Ok s
  | x :: l => let? s' := f s x in try_fold f s' l
  end.

Fixpoint try_for_each {A E} (f : A → result unit E) (l : list A) : result unit E :=
  match l with
  | [] => Ok tt
  | x :: l => try! f x; try_for_each f l
  end.

(** ** Options *)

Definition is_some_and {A} (o : option A) (p : A → bool) : bool :=
  match o with
  | Some a => p a
  | None => false
  end.

Definition is_none_or {A} (o : option A) (p : A → bool) : bool :=
  match o with
  | Some a => p a
  | None => true
  end.

Definition opt_is_some {A} (o : option A) : bool :=
  match o with
  | Some _ => true
  | None => false
  end.

(** [o.map_or(d, f)]. *)
Definition map_or {A B} (o : option A) (d : B) (f : A → B) : B :=
  match o with
  | Some a => f a
  | None => d
  end.

(** ** Machine integers *)

(** Unsigned integers ([u64], [u32], [usize], on a 64-bit target) are values
    of [N]; signed ones ([i64]) are values of [Z].  A type's range is a
    predicate and every operation that can leave it says what Rust does. *)
Definition u64_max : N := 18446744073709551615.
Definition i64_max : Z := 9223372036854775807.
Definition i64_min : Z := -9223372036854775808.
Definition u32_max : N := 4294967295.

Definition u64_range (n : N) : Prop := (n ≤ u64_max)%N.
Definition i64_range (z : Z) : Prop := (i64_min ≤ z ≤ i64_max)%Z.

Definition checked_add_u64 (a b : N) : option N :=
  if (a + b <=? u64_max)%N then Some (a + b)%N else None.

Definition saturating_add_u64 (a b : N) : N := N.min (a + b) u64_max.

(** [i64::saturating_add]. *)
Definition saturating_add_i64 (a b : Z) : Z := Z.max i64_min (Z.min (a + b) i64_max).

(** [i64::try_from(n)] for a [u64] or a [usize]. *)
Definition i64_try_from (n : N) : option Z :=
  if (Z.of_N n <=? i64_max)%Z then Some (Z.of_N n) else None.

(** [u64::try_from(z)] for an [i64]. *)
Definition u64_try_from (z : Z) : option N :=
  if (0 <=? z)%Z then Some (Z.to_N z) else None.

(** [v.len()] of a [Vec] or a slice. *)
Definition len {A} (l : list A) : N := N.of_nat (length l).

(** ** Strings: the UTF-8 bytes of a Rust [str] *)

Definition str_is_empty (s : string) : bool :=
  match s with
  | EmptyString => true
  | _ => false
  end.

Definition str_len (s : string) : N := N.of_nat (String.length s).

(** [s.strip_prefix(p)]. *)
Fixpoint strip_prefix (p s : string) : option string :=
  match p, s with
  | EmptyString, _ => Some s
  | String a p, String b s => if (a =? b)%char then strip_prefix p s else None
  | String _ _, EmptyString => None
  end.

(** [s.starts_with(p)]. *)
Definition starts_with (p s : string) : bool := opt_is_some (strip_prefix p s).

(** [s.strip_suffix(p)]. *)
Fixpoint strip_suffix (p s : string) : option string :=
  if String.eqb p s then Some EmptyString
  else match s with
       | EmptyString => None
       | String a s => String a <$> strip_suffix p s
       end.

(** [s.contains(c)] for an ASCII character. *)
Fixpoint str_contains (c : ascii) (s : string) : bool :=
  match s with
  | EmptyString => false
  | String a s => (a =? c)%char || str_contains c s
  end.

(** [l.contains(&s)] on strings. *)
Definition str_mem (s : string) (l : list string) : bool := existsb (String.eqb s) l.

(** ** Decimal numbers as text *)

Definition digit_char (d : N) : ascii := ascii_of_N (48 + d).

(** [char::to_digit(10)]. *)
Definition to_digit (c : ascii) : option N :=
  let n := N_of_ascii c in
  if ((48 <=? n) && (n <=? 57))%N then Some (n - 48)%N else None.

Fixpoint digits_go (fuel : nat) (n : N) (acc : string) : string :=
  match fuel with
  | O => acc
  | S fuel =>
      let acc' := String (digit_char (n mod 10)) acc in
      if (n <? 10)%N then acc' else digits_go fuel (n / 10) acc'
  end.

(** [n.to_string()] for a [u64]; twenty digits hold every one of them. *)
Definition u64_to_string (n : N) : string := digits_go 20 n "".

(** [z.to_string()] for an [i64]. *)
Definition i64_to_string (z : Z) : string :=
  if (z <? 0)%Z then String "-" (u64_to_string (Z.to_N (- z))) else u64_to_string (Z.to_N z).

(** The [Display] of [std::num::ParseIntError]. *)
Definition empty_int_message : string := "cannot parse integer from empty string".
Definition invalid_digit_message : string := "invalid digit found in string".
Definition pos_overflow_message : string := "number too large to fit in target type".

Fixpoint parse_digits (acc : N) (s : string) : result N string :=
  match s with
  | EmptyString => Ok acc
  | String c s =>
      match to_digit c with
      | None => Err invalid_digit_message
      | Some d =>
          if (acc * 10 + d <=? u64_max)%N then parse_digits (acc * 10 + d) s
          else Err pos_overflow_message
      end
  end.

(** [s.parse::<u64>()]. *)
Definition parse_u64 (s : string) : result N string :=
  match s with
  | EmptyString => Err empty_int_message
  | String c rest =>
      if (c =? "+")%char && negb (str_is_empty rest) then parse_digits 0 rest
      else parse_digits 0 s
  end.

(** ** Decision procedures *)

#[export] Instance byte_eq_dec : EqDecision Byte.byte := Byte.byte_eq_dec.

#[export] Instance result_eq_dec {A E} `{EqDecision A, EqDecision E} : EqDecision (result A E).
Proof. solve_decision. Defined.

(** ** Automation *)

Create HintDb pluribus discriminated.
Create Rewrite HintDb pluribus_simpl.

Lemma result_bind_ok {A B E} (m : result A E) (k : A → result B E) b :
  result_bind m k = Ok b ↔ ∃ a, m = Ok a ∧ k a = Ok b.
Proof. destruct m; naive_solver. Qed.

Lemma result_bind_err {A B E} (m : result A E) (k : A → result B E) e :
  result_bind m k = Err e ↔ m = Err e ∨ ∃ a, m = Ok a ∧ k a = Err e.
Proof. destruct m; naive_solver. Qed.

Lemma map_err_ok {A E F} (f : E → F) (m : result A E) a :
  map_err f m = Ok a ↔ m = Ok a.
Proof. destruct m; naive_solver. Qed.

Lemma ok_or_ok {A E} (o : option A) (e : E) a : ok_or o e = Ok a ↔ o = Some a.
Proof. destruct o; naive_solver. Qed.

(** Turns every hypothesis that says a sequence of fallible steps succeeded
    into one equation per step. *)
Ltac res_inv :=
  repeat match goal with
    | H : result_bind _ _ = Ok _ |- _ =>
        apply result_bind_ok in H; destruct H as (? & ? & H)
    | H : map_err _ _ = Ok _ |- _ => apply map_err_ok in H
    | H : ok_or _ _ = Ok _ |- _ => apply ok_or_ok in H
    | H : Ok _ = Ok _ |- _ => injection H as H; try subst
    | H : Err _ = Ok _ |- _ => discriminate H
    | H : Ok _ = Err _ |- _ => discriminate H
    | H : unit |- _ => destruct H
    end.

(** Splits a boolean guard and gives its two cases as propositions. *)
Ltac bool_cases :=
  repeat match goal with
    | H : _ && _ = true |- _ => apply andb_true_iff in H as [? ?]
    | H : _ || _ = false |- _ => apply orb_false_iff in H as [? ?]
    | H : negb _ = true |- _ => apply negb_true_iff in H
    | H : negb _ = false |- _ => apply negb_false_iff in H
    | H : String.eqb _ _ = true |- _ => apply String.eqb_eq in H
    | H : String.eqb _ _ = false |- _ => apply String.eqb_neq in H
    | H : bool_decide _ = true |- _ => apply bool_decide_eq_true in H
    | H : bool_decide _ = false |- _ => apply bool_decide_eq_false in H
    | H : (_ <=? _)%N = true |- _ => apply N.leb_le in H
    | H : (_ <=? _)%N = false |- _ => apply N.leb_gt in H
    | H : (_ <? _)%N = true |- _ => apply N.ltb_lt in H
    | H : (_ <? _)%N = false |- _ => apply N.ltb_ge in H
    | H : (_ =? _)%N = true |- _ => apply N.eqb_eq in H
    | H : (_ =? _)%N = false |- _ => apply N.eqb_neq in H
    | H : (_ <=? _)%Z = true |- _ => apply Z.leb_le in H
    | H : (_ <=? _)%Z = false |- _ => apply Z.leb_gt in H
    | H : (_ <? _)%Z = true |- _ => apply Z.ltb_lt in H
    | H : (_ <? _)%Z = false |- _ => apply Z.ltb_ge in H
    | H : (_ =? _)%Z = true |- _ => apply Z.eqb_eq in H
    | H : (_ =? _)%Z = false |- _ => apply Z.eqb_neq in H
    end.

(** ** Shared lemmas *)

(** *** Decimal text *)

Lemma to_digit_char d : (d < 10)%N → to_digit (digit_char d) = Some d.
Proof.
  intros Hd. unfold to_digit, digit_char.
  rewrite N_ascii_embedding by lia.
  case_match eqn:E; [f_equal; lia|].
  exfalso. apply andb_false_iff in E as [E|E]; bool_cases; lia.
Qed.

Lemma digit_char_not_plus d : (d < 10)%N → (digit_char d =? "+")%char = false.
Proof.
  intros Hd. apply Ascii.eqb_neq. intros E.
  pose proof (to_digit_char d Hd) as H. rewrite E in H. discriminate H.
Qed.

Lemma parse_digits_go fuel : ∀ n acc,
  (n < 10 ^ N.of_nat fuel)%N → u64_range n →
  parse_digits 0 (digits_go fuel n acc) = parse_digits n acc.
Proof.
  unfold u64_range. induction fuel as [|fuel IH]; intros n acc Hf Hr.
  { replace n with 0%N by (simpl in Hf; lia). done. }
  simpl digits_go. destruct (n <? 10)%N eqn:Hn; bool_cases.
  - cbn [parse_digits]. rewrite N.mod_small, to_digit_char by done.
    replace (0 * 10 + n)%N with n by lia. by rewrite (proj2 (N.leb_le _ _) Hr).
  - rewrite IH.
    + cbn [parse_digits]. rewrite to_digit_char by (apply N.mod_lt; lia).
      pose proof (N.div_mod' n 10). replace (n / 10 * 10 + n mod 10)%N with n by lia.
      by rewrite (proj2 (N.leb_le _ _) Hr).
    + rewrite Nat2N.inj_succ, N.pow_succ_r' in Hf. apply N.Div0.div_lt_upper_bound. lia.
    + zify. Z.to_euclidean_division_equations. lia.
Qed.

Lemma digits_go_head fuel : ∀ n acc,
  ∃ d rest, (d < 10)%N ∧ digits_go (S fuel) n acc = String (digit_char d) rest.
Proof.
  induction fuel as [|fuel IH]; intros n acc; simpl.
  - exists (n mod 10)%N, acc. split; [apply N.mod_lt; lia | by destruct (n <? 10)%N].
  - destruct (n <? 10)%N.
    + eexists _, _. split; [apply N.mod_lt|]; done.
    + apply IH.
Qed.

(** Parsing the decimal text of a [u64] gives it back. *)
Lemma parse_u64_to_string n : u64_range n → parse_u64 (u64_to_string n) = Ok n.
Proof.
  intros Hn. unfold parse_u64, u64_to_string.
  destruct (digits_go_head 19 n "") as (d & rest & Hd & E). rewrite E.
  rewrite digit_char_not_plus by done. cbn [andb]. rewrite <- E.
  apply parse_digits_go; [|done]. unfold u64_range, u64_max in Hn. simpl. lia.
Qed.

Lemma len_app {A} (a b : list A) : len (a ++ b) = (len a + len b)%N.
Proof. unfold len. rewrite length_app. lia. Qed.

Lemma len_snoc {A} (l : list A) x : len (l ++ [x]) = (len l + 1)%N.
Proof. by rewrite len_app. Qed.

Lemma u64_to_string_inj a b : u64_range a → u64_range b → u64_to_string a = u64_to_string b → a = b.
Proof.
  intros Ha Hb E. apply (f_equal parse_u64) in E. rewrite !parse_u64_to_string in E by done.
  congruence.
Qed.

Lemma i64_to_string_inj a b : i64_range a → i64_range b → i64_to_string a = i64_to_string b → a = b.
Proof.
  assert (∀ n m, u64_to_string n ≠ String "-" m) as Hminus.
  { intros n m. unfold u64_to_string. destruct (digits_go_head 19 n "") as (d & rest & Hd & ->).
    intros [= E _]. apply (f_equal to_digit) in E. rewrite to_digit_char in E by done. done. }
  unfold i64_range, i64_min, i64_max, i64_to_string. intros Ha Hb.
  destruct (Z.ltb_spec a 0), (Z.ltb_spec b 0); intros E.
  - injection E as E. apply u64_to_string_inj in E; unfold u64_range, u64_max; lia.
  - by destruct (Hminus (Z.to_N b) (u64_to_string (Z.to_N (- a)))).
  - by destruct (Hminus (Z.to_N a) (u64_to_string (Z.to_N (- b)))).
  - apply u64_to_string_inj in E; unfold u64_range, u64_max; lia.
Qed.


(** *** Strings *)

Lemma append_empty_l s : String.append "" s = s.
Proof. reflexivity. Qed.

Lemma append_cons a s t : String.append (String a s) t = String a (String.append s t).
Proof. reflexivity. Qed.

#[export] Hint Rewrite append_empty_l append_cons : pluribus_simpl.

Lemma append_empty_r s : String.append s "" = s.
Proof. induction s; autorewrite with pluribus_simpl; congruence. Qed.

Lemma append_assoc a b c :
  String.append a (String.append b c) = String.append (String.append a b) c.
Proof. induction a; autorewrite with pluribus_simpl; congruence. Qed.

Lemma append_inj_l a b c : String.append a b = String.append a c → b = c.
Proof. induction a; autorewrite with pluribus_simpl; [done|]. intros [= H]. auto. Qed.

Lemma length_append a b :
  String.length (String.append a b) = String.length a + String.length b.
Proof. induction a; autorewrite with pluribus_simpl; simpl; congruence. Qed.

Lemma strip_prefix_spec p s r : strip_prefix p s = Some r ↔ s = String.append p r.
Proof.
  revert s. induction p as [|a p IH]; intros [|b s]; simpl;
    autorewrite with pluribus_simpl; try (split; congruence).
  destruct (a =? b)%char eqn:E.
  - apply Ascii.eqb_eq in E as ->. rewrite IH. naive_solver.
  - apply Ascii.eqb_neq in E. naive_solver.
Qed.

Lemma starts_with_spec p s : starts_with p s = true ↔ ∃ r, s = String.append p r.
Proof.
  unfold starts_with. destruct (strip_prefix p s) as [r|] eqn:E; simpl.
  - apply strip_prefix_spec in E. naive_solver.
  - split; [done|]. intros [r Hr%strip_prefix_spec]. congruence.
Qed.

Lemma strip_suffix_spec p s r : strip_suffix p s = Some r ↔ s = String.append r p.
Proof.
  revert r. induction s as [|a s IH]; intros r; cbn [strip_suffix].
  - destruct (String.eqb p "") eqn:E; bool_cases.
    + subst. destruct r; autorewrite with pluribus_simpl; naive_solver.
    + split; [done|]. destruct r; autorewrite with pluribus_simpl; congruence.
  - destruct (String.eqb p (String a s)) eqn:E; bool_cases.
    + subst. split; [intros [= <-]; by rewrite append_empty_l|].
      intros Hr. destruct r as [|c r]; [done|].
      exfalso. apply (f_equal String.length) in Hr. rewrite length_append in Hr.
      simpl in Hr. lia.
    + rewrite fmap_Some. setoid_rewrite IH. split.
      * by intros (r' & -> & ->).
      * destruct r as [|c r]; autorewrite with pluribus_simpl; [congruence|].
        intros [= -> ->]. eauto.
Qed.

Lemma is_none_or_spec {A} (o : option A) p : is_none_or o p = true ↔ ∀ a, o = Some a → p a = true.
Proof. destruct o; naive_solver. Qed.

Lemma str_mem_spec s l : str_mem s l = true ↔ s ∈ l.
Proof.
  unfold str_mem. rewrite existsb_exists. setoid_rewrite String.eqb_eq.
  rewrite list_elem_of_In. naive_solver.
Qed.

(** *** Machine integers *)

Lemma i64_try_from_spec n z :
  i64_try_from n = Some z ↔ z = Z.of_N n ∧ (Z.of_N n ≤ i64_max)%Z.
Proof. unfold i64_try_from. case_match; bool_cases; split; intros; destruct_and?; simplify_eq; lia || auto. Qed.

Lemma u64_try_from_spec z n : u64_try_from z = Some n ↔ (0 ≤ z)%Z ∧ n = Z.to_N z.
Proof. unfold u64_try_from. case_match; bool_cases; split; intros; destruct_and?; simplify_eq; lia || auto. Qed.

Lemma checked_add_u64_spec a b c :
  checked_add_u64 a b = Some c ↔ c = (a + b)%N ∧ (a + b ≤ u64_max)%N.
Proof. unfold checked_add_u64. case_match; bool_cases; split; intros; destruct_and?; simplify_eq; lia || auto. Qed.

(** *** Loops that may fail *)

Lemma try_for_each_ok {A E} (f : A → result unit E) l :
  try_for_each f l = Ok tt ↔ ∀ x, x ∈ l → f x = Ok tt.
Proof.
  induction l as [|x l IH]; simpl.
  - split; [|done]. intros _ x Hx. inversion Hx.
  - rewrite result_bind_ok. split.
    + intros ([] & Hx & Hl) y [->|Hy]%elem_of_cons; [done|]. by apply IH.
    + intros H. exists tt. split; [apply H; by left|]. apply IH. intros y Hy. apply H. by right.
Qed.

(** ** Filtered lists *)

Lemma filter_sorted {A} (R : relation A) (P : A → Prop) `{∀ x, Decision (P x)} l :
  StronglySorted R l → StronglySorted R (filter P l).
Proof.
  induction 1 as [|x l Hl IH Hx]; [constructor|]. rewrite filter_cons.
  case_decide; [|done]. constructor; [done|]. rewrite Forall_forall in Hx |- *.
  intros y [_ Hy]%list_elem_of_filter. by apply Hx.
Qed.

Lemma Forall_filter_keep {A} (P Q : A → Prop) `{∀ x, Decision (Q x)} l :
  Forall P l → Forall P (filter Q l).
Proof. rewrite !Forall_forall. intros Hl x [_ Hx]%list_elem_of_filter. by apply Hl. Qed.

Lemma filter_none {A} (P : A → Prop) `{∀ x, Decision (P x)} l :
  (∀ x, x ∈ l → ¬ P x) → filter P l = [].
Proof.
  intros Hl. induction l as [|x l IH]; [done|]. rewrite filter_cons.
  rewrite decide_False by (apply Hl; left). apply IH. intros y Hy. apply Hl. by right.
Qed.

Lemma filter_elem_iff {A} (P Q : A → Prop) `{∀ x, Decision (P x), ∀ x, Decision (Q x)} (l : list A) :
  (∀ x, x ∈ l → P x ↔ Q x) → filter P l = filter Q l.
Proof.
  intros Hl. induction l as [|x l IH]; [done|]. rewrite !filter_cons, IH.
  - assert (P x ↔ Q x) by (apply Hl; left). repeat case_decide; tauto.
  - intros y Hy. apply Hl. by right.
Qed.

Lemma keep_all {A} (p : A → bool) (l : list A) :
  (∀ x, x ∈ l → p x = true) → List.filter p l = l.
Proof.
  induction l as [|x l IH]; intros H; simpl; [done|]. rewrite (H x) by (by left).
  f_equal. apply IH. intros y Hy. apply H. by right.
Qed.

Lemma filter_all {A} (P : A → Prop) `{∀ x, Decision (P x)} (l : list A) :
  (∀ x, x ∈ l → P x) → filter P l = l.
Proof.
  intros Hl. induction l as [|x l IH]; [done|]. rewrite filter_cons.
  rewrite decide_True by (apply Hl; left). f_equal. apply IH. intros y Hy. apply Hl. by right.
Qed.

Lemma filter_true_cons {A} (p : A → bool) x l :
  filter (λ x, p x = true) (x :: l)
  = if p x then x :: filter (λ x, p x = true) l else filter (λ x, p x = true) l.
Proof. rewrite filter_cons. by destruct (p x). Qed.

Lemma nodup_omap_inj {A B} (f : A → option B) (l : list A) x y b :
  NoDup (omap f l) → x ∈ l → y ∈ l → f x = Some b → f y = Some b → x = y.
Proof.
  induction l as [|a l IH]; [by intros _ ?%not_elem_of_nil|]. csimpl.
  intros Hnd Hx Hy Hfx Hfy.
  apply elem_of_cons in Hx as [->|Hx], Hy as [->|Hy]; try done.
  - rewrite Hfx, NoDup_cons, list_elem_of_omap in Hnd. naive_solver.
  - rewrite Hfy, NoDup_cons, list_elem_of_omap in Hnd. naive_solver.
  - apply IH; try done. destruct (f a); [by apply NoDup_cons in Hnd as [_ ?]|done].
Qed.

(** *** Pairs *)

Lemma pair_of_fst {A B} (p : A * B) a : p.1 = a → p = (a, p.2).
Proof. destruct p. by intros <-. Qed.
