(* ===== verification/Event.v ===== *)
(** Identities, blob references, events and event queries:
    [pluribus-core/src/identity.rs], [event.rs], and the reference checks of
    [blob.rs] that event validation calls.

    The newtypes around [String] ([EventId], [StreamId], [AuthorityId],
    [PrincipalId]) are their underlying string; a [Vec<u8>] is a list of
    bytes. *)
From stdpp Require Import base tactics option list strings countable.
From Stdlib Require Import ZArith NArith Lia Ascii.
From S2P Require Import Prelude.

Abbreviation EventId := string (only parsing).
Abbreviation StreamId := string (only parsing).
Abbreviation AuthorityId := string (only parsing).
Abbreviation bytes := (list Byte.byte) (only parsing).

(** ** Identities *)

Inductive PrincipalKind : Type :=
| Human
| Agent
| Node
| Component
| External.

Record PrincipalRef : Type := mkPrincipalRef {
  principal_kind : PrincipalKind;
  principal_id : string;
}.

(** ** Blob references *)

Record BlobRef : Type := mkBlobRef {
  algorithm : string;
  digest : string;
  blob_size : N;
  media_type : string;
}.

Definition SHA256_ALGORITHM : string := "sha256".

Inductive BlobError : Type :=
| BlobNotFound
| BlobConflict (expected_offset actual_offset : N)
| BlobInvalid (message : string)
| BlobResourceExhausted (message : string)
| BlobCorrupt (message : string)
| BlobStorage (message : string).

(** [impl Display for BlobError]. *)
Definition blob_error_to_string (e : BlobError) : string :=
  match e with
  | BlobNotFound => "blob or upload not found"
  | BlobConflict expected actual =>
      "blob offset conflict: expected " +:+ u64_to_string expected
        +:+ ", got " +:+ u64_to_string actual
  | BlobInvalid message => "invalid blob operation: " +:+ message
  | BlobResourceExhausted message => "blob resource exhausted: " +:+ message
  | BlobCorrupt message => "corrupt blob: " +:+ message
  | BlobStorage message => "blob storage failed: " +:+ message
  end.

Fixpoint str_forall (p : ascii → bool) (s : string) : bool :=
  match s with
  | EmptyString => true
  | String c s => p c && str_forall p s
  end.

(** [u8::is_ascii_digit], [(b'a'..=b'f').contains], [is_ascii],
    [u8::is_ascii_control]. *)
Definition is_ascii_digit (c : ascii) : bool :=
  let n := N_of_ascii c in ((48 <=? n) && (n <=? 57))%N.
Definition is_hex_letter (c : ascii) : bool :=
  let n := N_of_ascii c in ((97 <=? n) && (n <=? 102))%N.
Definition is_ascii_byte (c : ascii) : bool := (N_of_ascii c <=? 127)%N.
Definition is_ascii_control (c : ascii) : bool :=
  let n := N_of_ascii c in ((n <=? 31) || (n =? 127))%N.

Definition validate_media_type (media_type : string) : result unit BlobError :=
  if str_is_empty media_type
     || negb (str_forall is_ascii_byte media_type)
     || negb (str_forall (λ c, negb (is_ascii_control c)) media_type)
  then Err (BlobInvalid "media type must be non-empty ASCII")
  else Ok tt.

Definition validate_blob_ref (blob : BlobRef) : result unit BlobError :=
  if negb (String.eqb (algorithm blob) SHA256_ALGORITHM)
  then Err (BlobInvalid "unsupported digest algorithm")
  else if negb (str_len (digest blob) =? 64)%N
          || negb (str_forall (λ c, is_ascii_digit c || is_hex_letter c) (digest blob))
  then Err (BlobInvalid "SHA-256 digest must be 64 lowercase hexadecimal characters")
  else validate_media_type (media_type blob).

(** ** Events *)

Inductive StreamKind : Type :=
| StreamAgent
| StreamNode.

Inductive EventPayload : Type :=
| CanonicalJson (payload_bytes : bytes)
| Blob (payload_blob : BlobRef).

(** An event before the store assigns ordering and identity. *)
Record AppendRequest : Type := mkAppendRequest {
  stream_id : StreamId;
  stream_kind : StreamKind;
  observed_at_ms : option Z;
  event_type : string;
  payload_schema : string;
  payload : EventPayload;
  actor : PrincipalRef;
  authority_id : option AuthorityId;
  activity_id : option string;
  correlation_id : option string;
  causation_id : option EventId;
  deduplication_key : option string;
}.

Inductive AppendError : Type :=
| InvalidEvent (message : string)
| AppendStorage (message : string).

(** [impl Display for AppendError]. *)
Definition append_error_to_string (e : AppendError) : string :=
  match e with
  | InvalidEvent message => "invalid event: " +:+ message
  | AppendStorage message => "event storage failed: " +:+ message
  end.

(** [AppendRequest::validate]. *)
Definition validate (r : AppendRequest) : result unit AppendError :=
  if str_is_empty (stream_id r) then Err (InvalidEvent "stream ID is empty")
  else if str_is_empty (event_type r) then Err (InvalidEvent "event type is empty")
  else if str_is_empty (payload_schema r) then Err (InvalidEvent "payload schema is empty")
  else if is_some_and (deduplication_key r) str_is_empty
       then Err (InvalidEvent "deduplication key is empty")
  else match payload r with
       | Blob blob =>
           map_err (λ error, InvalidEvent (blob_error_to_string error)) (validate_blob_ref blob)
       | CanonicalJson _ => Ok tt
       end.

Record CommittedEvent : Type := mkCommittedEvent {
  schema : string;
  event_id : EventId;
  sequence : N;
  recorded_at_ms : Z;
  request : AppendRequest;
}.

(** [CommittedEvent::SCHEMA]. *)
Definition COMMITTED_EVENT_SCHEMA : string := "pluribus.event/1".

(** ** Queries *)

Record EventQuery : Type := mkEventQuery {
  after_sequence : option N;
  before_sequence : option N;
  event_types : list string;
  text_query : option string;
  descending : bool;
  q_correlation_id : option string;
  q_activity_id : option string;
  recorded_from_ms : option Z;
  recorded_to_ms : option Z;
}.

(** [EventQuery::default()]. *)
Definition default_query : EventQuery := {|
  after_sequence := None; before_sequence := None; event_types := [];
  text_query := None; descending := false; q_correlation_id := None;
  q_activity_id := None; recorded_from_ms := None; recorded_to_ms := None;
|}.

(** [EventQuery { after_sequence: Some(after), event_types, ..default() }]. *)
Definition types_after (after : N) (types : list string) : EventQuery := {|
  after_sequence := Some after; before_sequence := None; event_types := types;
  text_query := None; descending := false; q_correlation_id := None;
  q_activity_id := None; recorded_from_ms := None; recorded_to_ms := None;
|}.

(** [EventQuery::matches]: the metadata predicates. *)
Definition matches (q : EventQuery) (e : CommittedEvent) : bool :=
  if is_some_and (after_sequence q) (λ after, sequence e <=? after)%N then false
  else if is_some_and (before_sequence q) (λ before, before <=? sequence e)%N then false
  else if negb (bool_decide (event_types q = []))
          && negb (existsb (λ t, String.eqb t (event_type (request e))) (event_types q))
  then false
  else if opt_is_some (q_correlation_id q)
          && negb (bool_decide (q_correlation_id q = correlation_id (request e)))
  then false
  else if opt_is_some (q_activity_id q)
          && negb (bool_decide (q_activity_id q = activity_id (request e)))
  then false
  else if is_some_and (recorded_from_ms q) (λ from, recorded_at_ms e <? from)%Z then false
  else if is_some_and (recorded_to_ms q) (λ to, to <? recorded_at_ms e)%Z then false
  else true.

(** ** Decidable equality *)

#[export] Instance principal_kind_eq_dec : EqDecision PrincipalKind.
Proof. solve_decision. Defined.
#[export] Instance principal_ref_eq_dec : EqDecision PrincipalRef.
Proof. solve_decision. Defined.
#[export] Instance stream_kind_eq_dec : EqDecision StreamKind.
Proof. solve_decision. Defined.
#[export] Instance blob_ref_eq_dec : EqDecision BlobRef.
Proof. solve_decision. Defined.
#[export] Instance blob_ref_countable : Countable BlobRef.
Proof.
  refine (inj_countable' (λ b, (algorithm b, digest b, blob_size b, media_type b))
    (λ p, mkBlobRef p.1.1.1 p.1.1.2 p.1.2 p.2) _). by intros [].
Defined.
#[export] Instance event_payload_eq_dec : EqDecision EventPayload.
Proof. solve_decision. Defined.
#[export] Instance append_request_eq_dec : EqDecision AppendRequest.
Proof. solve_decision. Defined.
#[export] Instance committed_event_eq_dec : EqDecision CommittedEvent.
Proof. solve_decision. Defined.

(** ** Lemmas *)

Lemma str_is_empty_spec s : str_is_empty s = true ↔ s = "".
Proof. destruct s; naive_solver. Qed.

Lemma str_is_empty_false s : str_is_empty s = false ↔ s ≠ "".
Proof. destruct s; naive_solver. Qed.

(** What a request must satisfy to enter a log. *)
Definition valid_request (r : AppendRequest) : Prop :=
  stream_id r ≠ "" ∧ event_type r ≠ "" ∧ payload_schema r ≠ "" ∧
  deduplication_key r ≠ Some "" ∧
  match payload r with
  | Blob blob => validate_blob_ref blob = Ok tt
  | CanonicalJson _ => True
  end.

Lemma validate_ok_iff r : validate r = Ok tt ↔ valid_request r.
Proof.
  unfold validate, valid_request.
  destruct (stream_id r), (event_type r), (payload_schema r); simpl;
    try (split; [discriminate|naive_solver]).
  destruct (deduplication_key r) as [[]|]; simpl;
    try (split; [discriminate|naive_solver]);
    destruct (payload r); rewrite ?map_err_ok; naive_solver.
Qed.

Lemma if_false_else (b c : bool) : (if b then false else c) = negb b && c.
Proof. by destruct b. Qed.

Lemma is_some_and_false {A} (o : option A) p :
  negb (is_some_and o p) = true ↔ ∀ a, o = Some a → p a = false.
Proof. destruct o; simpl; rewrite ?negb_true_iff; naive_solver. Qed.

Lemma opt_filter_spec {A} `{EqDecision A} (o c : option A) :
  negb (opt_is_some o && negb (bool_decide (o = c))) = true ↔ (o ≠ None → c = o).
Proof.
  rewrite negb_true_iff, andb_false_iff, negb_false_iff, bool_decide_eq_true.
  destruct o; naive_solver.
Qed.

Lemma matches_spec q e :
  matches q e = true ↔
  (∀ after, after_sequence q = Some after → (after < sequence e)%N) ∧
  (∀ before, before_sequence q = Some before → (sequence e < before)%N) ∧
  (event_types q ≠ [] → event_type (request e) ∈ event_types q) ∧
  (q_correlation_id q ≠ None → correlation_id (request e) = q_correlation_id q) ∧
  (q_activity_id q ≠ None → activity_id (request e) = q_activity_id q) ∧
  (∀ from, recorded_from_ms q = Some from → (from ≤ recorded_at_ms e)%Z) ∧
  (∀ to, recorded_to_ms q = Some to → (recorded_at_ms e ≤ to)%Z).
Proof.
  unfold matches. rewrite !if_false_else, !andb_true_iff, !is_some_and_false, !opt_filter_spec.
  setoid_rewrite N.leb_gt. setoid_rewrite Z.ltb_ge.
  rewrite negb_true_iff, andb_false_iff, !negb_false_iff, bool_decide_eq_true, existsb_exists.
  setoid_rewrite String.eqb_eq. setoid_rewrite <- list_elem_of_In.
  destruct (decide (event_types q = [])); naive_solver.
Qed.
