(* ===== verification/EventStore.v ===== *)
(** The trait [EventStore] of [pluribus-core/src/event.rs] as an interface:
    the append-only log it stands for, its four operations, and the laws its
    documentation states, against which the components above it are verified.
    [SqliteSpec] shows that the SQLite store discharges them. *)
From stdpp Require Import base tactics option list strings sorting.
From Stdlib Require Import ZArith NArith Lia.
From S2P Require Import Prelude Event.

(** ** The abstract log *)

(** Events of a log in one stream. *)
Definition in_stream (log : list CommittedEvent) (s : StreamId) : list CommittedEvent :=
  filter (λ e, stream_id (request e) = s) log.

(** What the store promises of its log. *)
Record log_invariant (log : list CommittedEvent) : Prop := {
  inv_ids : NoDup (event_id <$> log);
  inv_gapless : ∀ s i e, in_stream log s !! i = Some e → sequence e = N.of_nat (S i);
  inv_valid : Forall (λ e, valid_request (request e)) log;
  inv_dedup : ∀ s, NoDup (omap (λ e, deduplication_key (request e)) (in_stream log s));
  inv_kind : ∀ e e', e ∈ log → e' ∈ log → stream_id (request e) = stream_id (request e') →
    stream_kind (request e) = stream_kind (request e');
}.

(** One append on a log: the event that already carries the key answers the
    request, or a new event with the stream's next sequence ends the log. *)
Inductive log_append (log : list CommittedEvent) (r : AppendRequest)
    : CommittedEvent → list CommittedEvent → Prop :=
| log_duplicate e key :
    e ∈ log → stream_id (request e) = stream_id r →
    deduplication_key r = Some key → deduplication_key (request e) = Some key →
    log_append log r e log
| log_extend e :
    request e = r → event_id e ∉ event_id <$> log →
    sequence e = N.of_nat (S (length (in_stream log (stream_id r)))) →
    (∀ e' key, e' ∈ log → stream_id (request e') = stream_id r →
       deduplication_key r = Some key → deduplication_key (request e') ≠ Some key) →
    log_append log r e (log ++ [e]).

(** The values a [BlobRef] of the right Rust type holds. *)
Definition request_typed (r : AppendRequest) : Prop :=
  match payload r with
  | Blob blob => u64_range (blob_size blob)
  | CanonicalJson _ => True
  end.

(** ** The interface *)

(** The operations, on whatever [W] the implementation keeps. *)
Class EventStore (W : Type) : Type := {
  es_append : AppendRequest → W → result CommittedEvent AppendError * W;
  es_read : StreamId → N → N → W → result (list CommittedEvent) AppendError * W;
  es_get : EventId → W → result (option CommittedEvent) AppendError * W;
  es_query : StreamId → EventQuery → N → W → result (list CommittedEvent) AppendError * W;
}.

(** Events of a log after a sequence. *)
Definition log_after (log : list CommittedEvent) (s : StreamId) (after : N) : list CommittedEvent :=
  filter (λ e, (after < sequence e)%N) (in_stream log s).

(** The metadata part of a query, oldest first, on a log. *)
Definition log_query (log : list CommittedEvent) (s : StreamId) (q : EventQuery)
    : list CommittedEvent :=
  filter (λ e, matches q e = true) (in_stream log s).

(** A query without full text, in ascending order and within SQLite's range. *)
Definition plain_query (q : EventQuery) : Prop :=
  text_query q = None ∧ descending q = false ∧ before_sequence q = None.

Class EventStoreLaws (W : Type) {ES : EventStore W} : Type := {
  es_inv : W → Prop;
  es_log : W → list CommittedEvent;
  es_log_invariant : ∀ w, es_inv w → log_invariant (es_log w);
  es_append_ok : ∀ r w e w', es_inv w → request_typed r → es_append r w = (Ok e, w') →
    es_inv w' ∧ log_append (es_log w) r e (es_log w');
  es_append_err : ∀ r w err w', es_inv w → request_typed r → es_append r w = (Err err, w') →
    es_inv w' ∧ es_log w' = es_log w;
  es_read_state : ∀ s after limit w r w', es_inv w → es_read s after limit w = (r, w') →
    es_inv w' ∧ es_log w' = es_log w;
  es_read_ok : ∀ s after limit w es w', es_inv w → es_read s after limit w = (Ok es, w') →
    es = take (N.to_nat limit) (log_after (es_log w) s after);
  es_get_state : ∀ id w r w', es_inv w → es_get id w = (r, w') → es_inv w' ∧ es_log w' = es_log w;
  es_get_ok : ∀ id w o w', es_inv w → es_get id w = (Ok o, w') →
    o = find (λ e, String.eqb (event_id e) id) (es_log w);
  es_query_state : ∀ s q limit w r w', es_inv w → es_query s q limit w = (r, w') →
    es_inv w' ∧ es_log w' = es_log w;
  es_query_ok : ∀ s q limit w es w', es_inv w → plain_query q → es_query s q limit w = (Ok es, w') →
    es = take (N.to_nat limit) (log_query (es_log w) s q);
}.

(** ** Streams are in sequence order *)

Definition seq_lt (a b : CommittedEvent) : Prop := (sequence a < sequence b)%N.

Lemma consecutive_sorted (l : list CommittedEvent) k :
  (∀ i e, l !! i = Some e → sequence e = N.of_nat (k + i)) → StronglySorted seq_lt l.
Proof.
  revert k. induction l as [|x l IH]; intros k H; [constructor|].
  constructor.
  - apply (IH (S k)). intros i e Hi. rewrite (H (S i) e Hi). f_equal. lia.
  - apply Forall_forall. intros y [i Hi]%list_elem_of_lookup. unfold seq_lt.
    rewrite (H 0 x eq_refl), (H (S i) y Hi). lia.
Qed.

Lemma in_stream_sorted log s : log_invariant log → StronglySorted seq_lt (in_stream log s).
Proof.
  intros Hl. apply (consecutive_sorted _ 1). intros i e Hi. by rewrite (inv_gapless _ Hl _ _ _ Hi).
Qed.

(** ** Reading a sorted log in pages *)

Definition newer (l : list CommittedEvent) (after : N) : list CommittedEvent :=
  filter (λ e, (after < sequence e)%N) l.

Lemma sorted_split l n e :
  StronglySorted seq_lt l → last (take n l) = Some e →
  (∀ x, x ∈ take n l → (sequence x ≤ sequence e)%N) ∧
  (∀ x, x ∈ drop n l → (sequence e < sequence x)%N).
Proof.
  intros Hl He. rewrite <- (take_drop n l) in Hl. apply StronglySorted_app in Hl as (H & Ht & _).
  split.
  - intros x Hx. apply last_Some in He as [l' He]. rewrite He in Ht, Hx.
    apply StronglySorted_app in Ht as (Hlt & _ & _).
    apply elem_of_app in Hx as [Hx| ->%list_elem_of_singleton]; [|done].
    assert (seq_lt x e) as Hxe by (apply Hlt; [done|by left]). unfold seq_lt in Hxe. lia.
  - intros x Hx. apply H; [by apply last_Some_elem_of|done].
Qed.

(** The page after the last event of a page is the rest. *)
Lemma newer_next l after n e :
  StronglySorted seq_lt l → last (take n (newer l after)) = Some e →
  newer l (sequence e) = drop n (newer l after).
Proof.
  intros Hl He. assert (StronglySorted seq_lt (newer l after)) as Hn by by apply filter_sorted.
  destruct (sorted_split _ _ _ Hn He) as [Hle Hgt].
  assert (e ∈ newer l after) as Hin.
  { rewrite <- (take_drop n (newer l after)). apply elem_of_app. left. by apply last_Some_elem_of. }
  unfold newer in Hin. apply list_elem_of_filter in Hin as [Hafter _].
  assert (newer l (sequence e) = newer (newer l after) (sequence e)) as ->.
  { unfold newer. rewrite list_filter_filter. apply list_filter_iff. intros x. lia. }
  rewrite <- (take_drop n (newer l after)) at 1. unfold newer at 1. rewrite filter_app.
  rewrite filter_none by (intros x Hx; specialize (Hle x Hx); lia). simpl.
  by apply filter_all.
Qed.

Lemma newer_page_length l after n e :
  last (take n (newer l after)) = Some e → 
  length (drop n (newer l after)) < length (newer l after).
Proof.
  intros He. rewrite length_drop. destruct n; [done|]. destruct (newer l after); [done|]. simpl. lia.
Qed.

Lemma newer_empty_page l after n :
  0 < n → last (take n (newer l after)) = None → newer l after = [].
Proof. intros Hn He%last_None. destruct n; [lia|]. by destruct (newer l after). Qed.

Lemma newer_0 log s : log_invariant log → newer (in_stream log s) 0 = in_stream log s.
Proof.
  intros Hl. apply filter_all. intros x [i Hi]%list_elem_of_lookup.
  rewrite (inv_gapless _ Hl _ _ _ Hi). lia.
Qed.

(** ** What an append leaves *)

Lemma in_stream_elem log s e : e ∈ in_stream log s ↔ e ∈ log ∧ stream_id (request e) = s.
Proof. unfold in_stream. rewrite list_elem_of_filter. naive_solver. Qed.

(** One event per stream and deduplication key. *)
Lemma key_unique log e e' key :
  log_invariant log → e ∈ log → e' ∈ log → stream_id (request e) = stream_id (request e') →
  deduplication_key (request e) = Some key → deduplication_key (request e') = Some key → e = e'.
Proof.
  intros Hl He He' Hs Hk Hk'.
  eapply (nodup_omap_inj _ _ _ _ key (inv_dedup _ Hl (stream_id (request e')))); try done;
    by apply in_stream_elem.
Qed.

Lemma log_append_prefix log r e log' : log_append log r e log' → log `prefix_of` log'.
Proof. by intros []; [|eexists]. Qed.

Lemma log_append_elem log r e log' : log_append log r e log' → e ∈ log'.
Proof. intros []; [done|]. apply elem_of_app. right. by apply list_elem_of_singleton. Qed.

Lemma log_append_stream log r e log' :
  log_append log r e log' → stream_id (request e) = stream_id r.
Proof. intros []; [done|congruence]. Qed.

Lemma log_append_key log r e log' key :
  log_append log r e log' → deduplication_key r = Some key →
  deduplication_key (request e) = Some key.
Proof. intros [] ?; congruence. Qed.

(** No event of the stream carries the key. *)
Definition key_free (log : list CommittedEvent) (s : StreamId) (key : string) : Prop :=
  ∀ e, e ∈ log → stream_id (request e) = s → deduplication_key (request e) ≠ Some key.

Lemma log_append_fresh log r e log' key :
  log_append log r e log' → deduplication_key r = Some key → key_free log (stream_id r) key →
  request e = r ∧ log' = log ++ [e].
Proof.
  intros [e0 key' Hin Hs Hk Hke|e0 Hr _ _ _] Hkey Hfree; [|done].
  exfalso. apply (Hfree e0 Hin Hs). congruence.
Qed.

(** ** Events by type *)

(** Events of a stream with one of the given types. *)
Definition of_types (log : list CommittedEvent) (s : StreamId) (ts : list string)
    : list CommittedEvent :=
  filter (λ e, event_type (request e) ∈ ts) (in_stream log s).

Lemma of_types_sorted log s ts :
  log_invariant log → StronglySorted seq_lt (of_types log s ts).
Proof. intros Hl. by apply filter_sorted, in_stream_sorted. Qed.

Lemma of_types_elem log s ts e :
  e ∈ of_types log s ts ↔ e ∈ log ∧ stream_id (request e) = s ∧ event_type (request e) ∈ ts.
Proof. unfold of_types, in_stream. rewrite !list_elem_of_filter. naive_solver. Qed.

Lemma of_types_length log s ts : length (of_types log s ts) ≤ length log.
Proof. unfold of_types, in_stream. by rewrite !length_filter. Qed.

(** Sequences start at 1, so paging from 0 reads everything. *)
Lemma newer_all log s ts : log_invariant log → newer (of_types log s ts) 0 = of_types log s ts.
Proof.
  intros Hl. unfold newer, of_types. rewrite list_filter_filter. apply filter_elem_iff.
  intros x Hx. rewrite <- (newer_0 _ _ Hl) in Hx. unfold newer in Hx.
  apply list_elem_of_filter in Hx as [? _]. naive_solver.
Qed.

Lemma log_query_types_after log s after ts :
  ts ≠ [] → log_query log s (types_after after ts) = newer (of_types log s ts) after.
Proof.
  intros Hts. unfold log_query, newer, of_types. rewrite list_filter_filter.
  apply list_filter_iff. intros e. rewrite matches_spec. simpl. naive_solver.
Qed.

Lemma of_types_app log log' s ts :
  of_types (log ++ log') s ts = of_types log s ts ++ of_types log' s ts.
Proof. unfold of_types, in_stream. by rewrite !filter_app. Qed.
