(* ===== verification/Registry.v ===== *)
(** The closed vocabulary of event types: [pluribus-core/src/registry.rs].

    [EventTypeRegistry::core] is the table the host builds at start-up; the
    theorems about [authorize] say exactly which proposals of a plugin pass. *)
From stdpp Require Import base tactics option list strings gmap.
From Stdlib Require Import Ascii.
From S2P Require Import Prelude Event.

Definition RESERVED_EVENT_TYPES : list string := [
  "component.failed"; "component.backoff"; "component.recovered";
  "cognition.resource-exhausted"; "operator.job-control";
  "operator.attempt-reconciled"; "observation.received"; "policy.decision";
  "credential.enrollment.requested"; "activity.attempted"; "activity.unknown";
  "capability.denied"; "capability.timed-out"; "capability.cancelled";
  "stream.closed"; "agent.failed"].

Definition PLUGIN_EVENT_TYPES : list string := [
  "credential.enrollment.started"; "http.request.received";
  "http.response.requested"; "capability.requested"; "model.requested";
  "capability.output"; "capability.completed"; "capability.failed";
  "model.stream"; "model.completed"; "model.failed"; "cognition.checkpoint";
  "cognition.job-updated"; "cognition.observation-associated";
  "cognition.cancel-requested"; "cognition.completed"; "cognition.failed";
  "memory.remembered"; "memory.superseded"; "memory.forgotten";
  "code.close-requested"; "code.closed"; "code.evaluate-requested";
  "code.yielded"; "code.resumed"; "code.completed"; "code.failed";
  "timer.set"; "timer.cancel"; "timer.fired"; "schedule.updated"].

(** The payload schemas [EventTypeRegistry::core] pins. *)
Definition PINNED_SCHEMAS : list (string * string) := [
  ("operator.job-control", "pluribus.operator-job-control/1");
  ("operator.attempt-reconciled", "pluribus.operator-attempt-reconciled/1");
  ("component.backoff", "pluribus.component-health/1");
  ("component.recovered", "pluribus.component-health/1");
  ("cognition.resource-exhausted", "pluribus.cognition-resource-exhausted/1");
  ("activity.attempted", "pluribus.activity-attempt/1");
  ("activity.unknown", "pluribus.activity-attempt/1");
  ("cognition.checkpoint", "pluribus.cognition-checkpoint/1");
  ("cognition.job-updated", "pluribus.job/1");
  ("cognition.observation-associated", "pluribus.observation-association/1");
  ("cognition.cancel-requested", "pluribus.cognition-cancel/1")].

Inductive Ownership : Type :=
| Core
| Plugin.

Record EventTypeDeclaration : Type := mkDeclaration {
  ownership : Ownership;
  declared_schema : option string;
}.

Record EventTypeRegistry : Type := mkRegistry {
  types : gmap string EventTypeDeclaration;
}.

Inductive RegistryError : Type :=
| Unknown (event_type : string)
| Reserved (event_type : string)
| NotGranted (event_type : string)
| SchemaMismatch (event_type expected actual : string).

(** [impl Display for RegistryError]. *)
Definition registry_error_to_string (e : RegistryError) : string :=
  match e with
  | Unknown t => "unknown event type: " +:+ t
  | Reserved t => "event type is core-owned: " +:+ t
  | NotGranted t => "instance may not emit " +:+ t
  | SchemaMismatch t expected actual =>
      "event type " +:+ t +:+ " carries schema " +:+ expected
        +:+ ", proposal used " +:+ actual
  end.

#[export] Instance ownership_eq_dec : EqDecision Ownership.
Proof. solve_decision. Defined.
#[export] Instance registry_error_eq_dec : EqDecision RegistryError.
Proof. solve_decision. Defined.

(** The three loops of [EventTypeRegistry::core]. *)
Definition insert_types (o : Ownership) (names : list string)
    (m : gmap string EventTypeDeclaration) : gmap string EventTypeDeclaration :=
  fold_left (λ m name, <[name := mkDeclaration o None]> m) names m.

Definition pin_schema (m : gmap string EventTypeDeclaration) (p : string * string)
    : gmap string EventTypeDeclaration :=
  match m !! p.1 with
  | Some d => <[p.1 := mkDeclaration (ownership d) (Some p.2)]> m
  | None => m
  end.

(** [EventTypeRegistry::core]. *)
Definition core : EventTypeRegistry :=
  let types := insert_types Core RESERVED_EVENT_TYPES ∅ in
  let types := insert_types Plugin PLUGIN_EVENT_TYPES types in
  mkRegistry (fold_left pin_schema PINNED_SCHEMAS types).

(** [EventTypeRegistry::validate]. *)
Definition registry_validate (reg : EventTypeRegistry) (r : AppendRequest)
    : result unit RegistryError :=
  let? declaration := ok_or (types reg !! event_type r) (Unknown (event_type r)) in
  match declared_schema declaration with
  | Some schema =>
      if negb (String.eqb schema (payload_schema r))
      then Err (SchemaMismatch (event_type r) schema (payload_schema r))
      else Ok tt
  | None => Ok tt
  end.

(** [matches_pattern]. *)
Definition matches_pattern (pattern event_type : string) : bool :=
  if String.eqb pattern "*" then true
  else match strip_suffix ".*" pattern with
       | Some prefix =>
           is_some_and (strip_prefix prefix event_type) (λ rest, starts_with "." rest)
       | None => String.eqb pattern event_type
       end.

(** [EventTypeRegistry::authorize]. *)
Definition authorize (reg : EventTypeRegistry) (r : AppendRequest) (granted : list string)
    : result unit RegistryError :=
  try! registry_validate reg r;
  let? declaration := ok_or (types reg !! event_type r) (Unknown (event_type r)) in
  let connector_observation :=
    String.eqb (event_type r) "observation.received"
    && existsb (λ t, String.eqb t "observation.received") granted in
  if bool_decide (ownership declaration = Core) && negb connector_observation
  then Err (Reserved (event_type r))
  else if negb (existsb (λ pattern, matches_pattern pattern (event_type r)) granted)
  then Err (NotGranted (event_type r))
  else Ok tt.

(** ** The vocabulary *)

(** The registry as a function of the type's name. *)
Definition declared (t : string) : option EventTypeDeclaration :=
  let pinned := snd <$> find (λ p, String.eqb p.1 t) PINNED_SCHEMAS in
  if str_mem t PLUGIN_EVENT_TYPES then Some (mkDeclaration Plugin pinned)
  else if str_mem t RESERVED_EVENT_TYPES then Some (mkDeclaration Core pinned)
  else None.

Lemma insert_types_lookup o names m t :
  insert_types o names m !! t =
    if str_mem t names then Some (mkDeclaration o None) else m !! t.
Proof.
  unfold insert_types. revert m. induction names as [|n names IH]; intros m; simpl; [done|].
  rewrite IH. unfold str_mem at 2. simpl. fold (str_mem t names).
  destruct (str_mem t names); [by rewrite orb_true_r|]. rewrite orb_false_r.
  destruct (String.eqb t n) eqn:E; bool_cases; by simplify_map_eq.
Qed.

Lemma pin_schema_other m p t : p.1 ≠ t → pin_schema m p !! t = m !! t.
Proof. intros Hne. unfold pin_schema. case_match; [by rewrite lookup_insert_ne|done]. Qed.

Lemma pin_schema_lookup m p :
  pin_schema m p !! p.1 = (λ d, mkDeclaration (ownership d) (Some p.2)) <$> m !! p.1.
Proof. unfold pin_schema. destruct (m !! p.1) eqn:E; by simplify_map_eq. Qed.

Lemma pin_schemas_lookup ps m t :
  NoDup ps.*1 →
  fold_left pin_schema ps m !! t =
    match find (λ p, String.eqb p.1 t) ps with
    | Some p => (λ d, mkDeclaration (ownership d) (Some p.2)) <$> m !! t
    | None => m !! t
    end.
Proof.
  revert m. induction ps as [|p ps IH]; intros m; simpl; [done|].
  rewrite NoDup_cons. intros [Hp Hps]. rewrite IH by done.
  destruct (String.eqb p.1 t) eqn:E; bool_cases; [|by rewrite pin_schema_other].
  subst. replace (find _ ps) with (@None (string * string)); [apply pin_schema_lookup|].
  symmetry. destruct (find _ ps) as [p'|] eqn:F; [|done]. exfalso. apply Hp.
  apply find_some in F as [Hin Heq]. bool_cases. rewrite <- Heq.
  apply list_elem_of_fmap. exists p'. split; [done|]. by apply list_elem_of_In.
Qed.

(** The table [core] builds, looked up: plugin types first, because a name in
    both lists would be inserted twice, then the reserved ones. *)
Lemma core_lookup t : types core !! t = declared t.
Proof.
  unfold core. cbn [types]. rewrite pin_schemas_lookup.
  2: { apply (bool_decide_unpack _). vm_compute. exact I. }
  rewrite !insert_types_lookup, lookup_empty. unfold declared.
  generalize (find (λ p, String.eqb p.1 t) PINNED_SCHEMAS) as o.
  generalize (str_mem t PLUGIN_EVENT_TYPES) (str_mem t RESERVED_EVENT_TYPES).
  by intros [] [] [].
Qed.

(** No name is both reserved and plugin-emittable: the second loop of [core]
    never takes a reserved type away from the core. *)
Lemma reserved_plugin_disjoint t :
  t ∈ RESERVED_EVENT_TYPES → t ∈ PLUGIN_EVENT_TYPES → False.
Proof.
  assert (Forall (λ t, t ∉ PLUGIN_EVENT_TYPES) RESERVED_EVENT_TYPES) as H.
  { apply (bool_decide_unpack _). vm_compute. exact I. }
  rewrite Forall_forall in H. intros ? ?. by eapply H.
Qed.

(** ** Patterns *)

Lemma matches_pattern_spec pattern t :
  matches_pattern pattern t = true ↔
  pattern = "*" ∨
  (∃ prefix rest, pattern = prefix +:+ ".*" ∧ t = prefix +:+ "." +:+ rest) ∨
  (pattern = t ∧ ∀ prefix, pattern ≠ prefix +:+ ".*").
Proof.
  unfold matches_pattern. destruct (String.eqb pattern "*") eqn:Es; bool_cases; [naive_solver|].
  destruct (strip_suffix ".*" pattern) as [prefix|] eqn:Ep.
  - pose proof (proj1 (strip_suffix_spec _ _ _) Ep) as ->.
    split.
    + intros H. right; left. unfold is_some_and in H.
      destruct (strip_prefix prefix t) as [rest|] eqn:Et; [|done].
      apply strip_prefix_spec in Et as ->. apply starts_with_spec in H as [r ->].
      eauto.
    + intros [?|[(p & rest & Hp & ->)|[_ H]]]; [done| |by destruct (H prefix)].
      apply strip_suffix_spec in Hp. rewrite Ep in Hp. injection Hp as ->.
      rewrite (proj2 (strip_prefix_spec _ _ _) eq_refl). simpl.
      apply starts_with_spec. eauto.
  - assert (∀ prefix, pattern ≠ prefix +:+ ".*") as Hno.
    { intros p Hp%strip_suffix_spec. congruence. }
    rewrite String.eqb_eq. naive_solver.
Qed.

(** ** Authorization *)

Lemma pinned_find t s :
  snd <$> find (λ p, String.eqb p.1 t) PINNED_SCHEMAS = Some s ↔ (t, s) ∈ PINNED_SCHEMAS.
Proof.
  assert (NoDup PINNED_SCHEMAS.*1) as Hnd.
  { apply (bool_decide_unpack _). vm_compute. exact I. }
  revert Hnd. generalize PINNED_SCHEMAS as ps. induction ps as [|[k v] ps IH]; simpl.
  { intros _. rewrite elem_of_nil. naive_solver. }
  rewrite NoDup_cons, elem_of_cons. intros [Hk Hnd]. specialize (IH Hnd).
  destruct (String.eqb k t) eqn:E; bool_cases; [|rewrite IH; naive_solver].
  subst. simpl. split; [naive_solver|]. intros [[= ->]|Hin]; [done|].
  exfalso. apply Hk. apply list_elem_of_fmap. by exists (t, s).
Qed.

Definition schema_conforms (r : AppendRequest) : Prop :=
  ∀ s, (event_type r, s) ∈ PINNED_SCHEMAS → payload_schema r = s.

Definition known_type (t : string) : Prop :=
  t ∈ RESERVED_EVENT_TYPES ∨ t ∈ PLUGIN_EVENT_TYPES.

Lemma declared_schema_conforms r d :
  declared (event_type r) = Some d →
  declared_schema d = None ∨ declared_schema d = Some (payload_schema r) ↔ schema_conforms r.
Proof.
  intros Hd. unfold schema_conforms. setoid_rewrite <- pinned_find.
  unfold declared in Hd. destruct (snd <$> _) as [s|].
  all: destruct (str_mem (event_type r) PLUGIN_EVENT_TYPES),
    (str_mem (event_type r) RESERVED_EVENT_TYPES); naive_solver.
Qed.

Lemma declared_known t : is_Some (declared t) ↔ known_type t.
Proof.
  unfold declared, known_type. rewrite <- !str_mem_spec.
  destruct (str_mem t PLUGIN_EVENT_TYPES), (str_mem t RESERVED_EVENT_TYPES);
    rewrite ?is_Some_alt; naive_solver.
Qed.

Lemma declared_ownership t d :
  declared t = Some d → (ownership d = Plugin ↔ t ∈ PLUGIN_EVENT_TYPES).
Proof.
  unfold declared. rewrite <- str_mem_spec.
  destruct (str_mem t PLUGIN_EVENT_TYPES), (str_mem t RESERVED_EVENT_TYPES); naive_solver.
Qed.

Lemma registry_validate_core r :
  registry_validate core r = Ok tt ↔ known_type (event_type r) ∧ schema_conforms r.
Proof.
  unfold registry_validate. rewrite core_lookup, result_bind_ok.
  setoid_rewrite ok_or_ok. rewrite <- declared_known. split.
  - intros (d & Hd & H). split; [by rewrite Hd|].
    apply (declared_schema_conforms r d Hd).
    destruct (declared_schema d) as [s|]; [right|by left].
    destruct (String.eqb s (payload_schema r)) eqn:E; bool_cases; naive_solver.
  - intros [[d Hd] Hs]. exists d. split; [done|].
    apply (declared_schema_conforms r d Hd) in Hs as [->| ->]; [done|].
    by rewrite String.eqb_refl.
Qed.

Definition granted_exactly (granted : list string) (t : string) : bool :=
  existsb (λ g, String.eqb g t) granted.

Lemma granted_exactly_spec granted t : granted_exactly granted t = true ↔ t ∈ granted.
Proof.
  unfold granted_exactly. rewrite existsb_exists. setoid_rewrite String.eqb_eq.
  rewrite list_elem_of_In. naive_solver.
Qed.

(** A plugin's proposal passes [EventTypeRegistry::authorize] on the
    core vocabulary exactly when its type is plugin-emittable and matched by a
    granted pattern, or is [observation.received] and granted by that exact
    name; and its payload schema is the pinned one where one is pinned.  In
    particular no wildcard lets a plugin emit a core-owned type. *)
Theorem authorize_core_iff (r : AppendRequest) (granted : list string) :
  authorize core r granted = Ok tt ↔
  schema_conforms r ∧
  ((event_type r ∈ PLUGIN_EVENT_TYPES ∧
    ∃ p, p ∈ granted ∧ matches_pattern p (event_type r) = true) ∨
   (event_type r = "observation.received" ∧ "observation.received" ∈ granted)).
Proof.
  unfold authorize. rewrite core_lookup, result_bind_ok.
  fold (granted_exactly granted "observation.received").
  assert (existsb (λ p, matches_pattern p (event_type r)) granted = true ↔
          ∃ p, p ∈ granted ∧ matches_pattern p (event_type r) = true) as Hpat.
  { rewrite existsb_exists. by setoid_rewrite list_elem_of_In. }
  split.
  - intros ([] & Hv & H). apply registry_validate_core in Hv as [_ Hs]. split; [done|].
    apply result_bind_ok in H as (x & Hd & H). apply ok_or_ok in Hd.
    destruct (bool_decide (ownership x = Core)) eqn:Eo; bool_cases.
    + destruct (String.eqb (event_type r) _) eqn:Et,
        (granted_exactly granted "observation.received") eqn:Eg; simpl in H; try done.
      bool_cases. right. split; [done|]. by apply granted_exactly_spec.
    + left. split.
      * eapply declared_ownership; [done|]. by destruct (ownership x).
      * apply Hpat. simpl in H. by case_match; bool_cases.
  - intros [Hs H]. exists tt.
    assert (known_type (event_type r)) as Hk.
    { destruct H as [[H _]|[-> _]]; [by right|left].
      apply str_mem_spec. vm_compute. done. }
    split; [by apply registry_validate_core|].
    apply declared_known in Hk as [d Hd]. rewrite Hd. simpl.
    destruct H as [[Hp Hm]|[He Hg]].
    + rewrite (proj2 (declared_ownership _ _ Hd) Hp). simpl. by rewrite (proj2 Hpat Hm).
    + apply granted_exactly_spec in Hg as Hg'. rewrite He, Hg', String.eqb_refl, andb_false_r.
      rewrite <- He. rewrite (proj2 Hpat); [done|]. exists (event_type r).
      rewrite He. split; [done|]. vm_compute. done.
Qed.
