(* ===== verification/Net.v ===== *)
(** The destination address policy shared by every network transport:
    [pluribus-core/src/net.rs].

    The predicates are translated octet by octet; the theorems compare them
    with a table of CIDR blocks over the address read as one number.  The
    table is the one of the address registries for the kinds of range the
    documentation of [is_public_address] names, so the comparison shows the
    two blocks the code leaves out. *)
From stdpp Require Import base tactics list numbers.
From Stdlib Require Import NArith Lia.
From S2P Require Import Prelude.

Local Open Scope N_scope.

(** [Ipv4Addr], by its octets. *)
Record Ipv4Addr : Type := mkIpv4 { octet_a : N; octet_b : N; octet_c : N; octet_d : N }.

(** [Ipv6Addr], by its eight 16-bit segments. *)
Record Ipv6Addr : Type := mkIpv6 {
  seg0 : N; seg1 : N; seg2 : N; seg3 : N; seg4 : N; seg5 : N; seg6 : N; seg7 : N }.

Inductive IpAddr : Type :=
| V4 (address : Ipv4Addr)
| V6 (address : Ipv6Addr).

Definition wf_v4 (x : Ipv4Addr) : Prop :=
  octet_a x < 256 ∧ octet_b x < 256 ∧ octet_c x < 256 ∧ octet_d x < 256.
Definition wf_v6 (x : Ipv6Addr) : Prop :=
  seg0 x < 65536 ∧ seg1 x < 65536 ∧ seg2 x < 65536 ∧ seg3 x < 65536 ∧
  seg4 x < 65536 ∧ seg5 x < 65536 ∧ seg6 x < 65536 ∧ seg7 x < 65536.
Definition wf_ip (x : IpAddr) : Prop :=
  match x with V4 x => wf_v4 x | V6 x => wf_v6 x end.

(** The [std::net::Ipv4Addr] predicates the policy calls. *)
Definition v4_is_private (x : Ipv4Addr) : bool :=
  (octet_a x =? 10)
  || ((octet_a x =? 172) && (16 <=? octet_b x) && (octet_b x <=? 31))
  || ((octet_a x =? 192) && (octet_b x =? 168)).
Definition v4_is_loopback (x : Ipv4Addr) : bool := octet_a x =? 127.
Definition v4_is_link_local (x : Ipv4Addr) : bool := (octet_a x =? 169) && (octet_b x =? 254).
Definition v4_is_multicast (x : Ipv4Addr) : bool := (224 <=? octet_a x) && (octet_a x <=? 239).
Definition v4_is_unspecified (x : Ipv4Addr) : bool :=
  (octet_a x =? 0) && (octet_b x =? 0) && (octet_c x =? 0) && (octet_d x =? 0).
Definition v4_is_broadcast (x : Ipv4Addr) : bool :=
  (octet_a x =? 255) && (octet_b x =? 255) && (octet_c x =? 255) && (octet_d x =? 255).

Definition is_public_v4 (x : Ipv4Addr) : bool :=
  let a := octet_a x in
  let b := octet_b x in
  let c := octet_c x in
  negb (v4_is_private x
        || v4_is_loopback x
        || v4_is_link_local x
        || v4_is_multicast x
        || v4_is_unspecified x
        || v4_is_broadcast x
        || (a =? 0)
        || (240 <=? a)
        || ((a =? 100) && ((64 <=? b) && (b <=? 127)))
        || ((a =? 192) && (b =? 0) && (c =? 0))
        || ((a =? 192) && (b =? 0) && (c =? 2))
        || ((a =? 198) && ((b =? 18) || (b =? 19)))
        || ((a =? 198) && (b =? 51) && (c =? 100))
        || ((a =? 203) && (b =? 0) && (c =? 113))).

(** The [std::net::Ipv6Addr] predicates the policy calls. *)
Definition v6_high_zero (x : Ipv6Addr) : bool :=
  (seg0 x =? 0) && (seg1 x =? 0) && (seg2 x =? 0) && (seg3 x =? 0) && (seg4 x =? 0).
Definition to_ipv4_mapped (x : Ipv6Addr) : option Ipv4Addr :=
  if v6_high_zero x && (seg5 x =? 65535)
  then Some (mkIpv4 (seg6 x / 256) (seg6 x mod 256) (seg7 x / 256) (seg7 x mod 256))
  else None.
Definition v6_is_loopback (x : Ipv6Addr) : bool :=
  v6_high_zero x && (seg5 x =? 0) && (seg6 x =? 0) && (seg7 x =? 1).
Definition v6_is_unspecified (x : Ipv6Addr) : bool :=
  v6_high_zero x && (seg5 x =? 0) && (seg6 x =? 0) && (seg7 x =? 0).
Definition v6_is_multicast (x : Ipv6Addr) : bool := N.land (seg0 x) 65280 =? 65280.

Definition is_public_v6 (x : Ipv6Addr) : bool :=
  match to_ipv4_mapped x with
  | Some mapped => is_public_v4 mapped
  | None =>
      negb (v6_is_loopback x
            || v6_is_unspecified x
            || v6_is_multicast x
            || (N.land (seg0 x) 0xfe00 =? 0xfc00)
            || (N.land (seg0 x) 0xffc0 =? 0xfe80)
            || ((seg0 x =? 0x2001) && (seg1 x =? 0x0db8)))
  end.

Definition is_public_address (x : IpAddr) : bool :=
  match x with
  | V4 x => is_public_v4 x
  | V6 x => is_public_v6 x
  end.

(** ** The reference: CIDR blocks *)

(** A block of an address family of [w] bits: its first address and its
    prefix length. *)
Definition in_block (w n : N) (block : N * N) : bool :=
  (block.1 <=? n) && (n <? block.1 + 2 ^ (w - block.2)).

Definition v4_number (x : Ipv4Addr) : N :=
  octet_a x * 2 ^ 24 + octet_b x * 2 ^ 16 + octet_c x * 2 ^ 8 + octet_d x.

Definition v4_block (a b c : N) (prefix : N) : N * N := (v4_number (mkIpv4 a b c 0), prefix).

(** The kinds of range the documentation of [is_public_address] calls not
    public, and those that are reserved for another reason. *)
Inductive range_kind : Type :=
| Loopback | Private | LinkLocal | Multicast | Documentation | Benchmarking | Reserved.

(** The special-purpose IPv4 ranges (RFC 6890 and RFC 5737): this network,
    private, shared, loopback, link-local, protocol assignments, the three
    documentation networks, benchmarking, multicast, and class E with the
    broadcast address. *)
Definition v4_ranges : list (range_kind * (N * N)) := [
  (Reserved, v4_block 0 0 0 8); (Private, v4_block 10 0 0 8); (Reserved, v4_block 100 64 0 10);
  (Loopback, v4_block 127 0 0 8); (LinkLocal, v4_block 169 254 0 16); (Private, v4_block 172 16 0 12);
  (Reserved, v4_block 192 0 0 24); (Documentation, v4_block 192 0 2 24); (Private, v4_block 192 168 0 16);
  (Benchmarking, v4_block 198 18 0 15); (Documentation, v4_block 198 51 100 24);
  (Documentation, v4_block 203 0 113 24); (Multicast, v4_block 224 0 0 4); (Reserved, v4_block 240 0 0 4)].

Definition v6_number (x : Ipv6Addr) : N :=
  seg0 x * 2 ^ 112 + seg1 x * 2 ^ 96 + seg2 x * 2 ^ 80 + seg3 x * 2 ^ 64 +
  seg4 x * 2 ^ 48 + seg5 x * 2 ^ 32 + seg6 x * 2 ^ 16 + seg7 x.

(** The IPv6 ranges of the same kinds: [::/128], [::1/128], unique local
    [fc00::/7] (RFC 4193), link-local [fe80::/10], multicast [ff00::/8] (RFC
    4291), documentation [2001:db8::/32] (RFC 3849) and [3fff::/20] (RFC
    9637), benchmarking [2001:2::/48] (RFC 5180). *)
Definition v6_ranges : list (range_kind * (N * N)) := [
  (Reserved, (0, 128)); (Loopback, (1, 128)); (Private, (0xfc00 * 2 ^ 112, 7));
  (LinkLocal, (0xfe80 * 2 ^ 112, 10)); (Multicast, (0xff00 * 2 ^ 112, 8));
  (Documentation, (0x2001 * 2 ^ 112 + 0x0db8 * 2 ^ 96, 32));
  (Documentation, (0x3fff * 2 ^ 112, 20)); (Benchmarking, (0x2001 * 2 ^ 112 + 0x0002 * 2 ^ 96, 48))].

(** [::ffff:0:0/96]. *)
Definition v4_mapped_block : N * N := (0xffff * 2 ^ 32, 96).

Definition in_ranges (w n : N) (ranges : list (range_kind * (N * N))) : bool :=
  existsb (λ r, in_block w n r.2) ranges.

(** In none of the ranges, an IPv4-mapped address being judged as the IPv4
    address it carries. *)
Definition public_reference (x : IpAddr) : bool :=
  match x with
  | V4 x => negb (in_ranges 32 (v4_number x) v4_ranges)
  | V6 x =>
      let n := v6_number x in
      if in_block 128 n v4_mapped_block then negb (in_ranges 32 (n mod 2 ^ 32) v4_ranges)
      else negb (in_ranges 128 n v6_ranges)
  end.

(** The ranges the code does not test for: [3fff::/20] and [2001:2::/48]. *)
Definition untested_ranges : list (range_kind * (N * N)) := drop 6 v6_ranges.
Definition untested (x : IpAddr) : bool :=
  match x with V4 _ => false | V6 x => in_ranges 128 (v6_number x) untested_ranges end.

Lemma bool_eq_iff (a b : bool) : (a = true ↔ b = true) → a = b.
Proof. destruct a, b; naive_solver. Qed.

Lemma in_block_true w n block :
  in_block w n block = true ↔ block.1 ≤ n < block.1 + 2 ^ (w - block.2).
Proof. unfold in_block. rewrite andb_true_iff, N.leb_le, N.ltb_lt. done. Qed.

Ltac solve_block :=
  rewrite in_block_true; unfold v4_block, v4_number, v6_number;
  cbn [octet_a octet_b octet_c octet_d fst snd];
  repeat match goal with |- context [2 ^ ?e] =>
    let v := eval vm_compute in (2 ^ e) in change (2 ^ e) with v end;
  lia.

Section v4_blocks.
Context (x : Ipv4Addr) (Hwf : wf_v4 x).
Abbreviation n := (v4_number x).
Abbreviation a := (octet_a x).
Abbreviation b := (octet_b x).
Abbreviation c := (octet_c x).

Lemma block_8 k : k < 256 → in_block 32 n (v4_block k 0 0 8) = true ↔ a = k.
Proof using Hwf. intros Hk. destruct Hwf as (? & ? & ? & ?). solve_block. Qed.

Lemma block_16 k l :
  k < 256 → l < 256 → in_block 32 n (v4_block k l 0 16) = true ↔ a = k ∧ b = l.
Proof using Hwf. intros Hk Hl. destruct Hwf as (? & ? & ? & ?). solve_block. Qed.

Lemma block_24 k l m :
  k < 256 → l < 256 → m < 256 →
  in_block 32 n (v4_block k l m 24) = true ↔ a = k ∧ b = l ∧ c = m.
Proof using Hwf. intros Hk Hl Hm. destruct Hwf as (? & ? & ? & ?). solve_block. Qed.

Lemma block_100_64 : in_block 32 n (v4_block 100 64 0 10) = true ↔ a = 100 ∧ 64 ≤ b ∧ b ≤ 127.
Proof using Hwf. destruct Hwf as (? & ? & ? & ?). solve_block. Qed.

Lemma block_172_16 : in_block 32 n (v4_block 172 16 0 12) = true ↔ a = 172 ∧ 16 ≤ b ∧ b ≤ 31.
Proof using Hwf. destruct Hwf as (? & ? & ? & ?). solve_block. Qed.

Lemma block_198_18 : in_block 32 n (v4_block 198 18 0 15) = true ↔ a = 198 ∧ (b = 18 ∨ b = 19).
Proof using Hwf. destruct Hwf as (? & ? & ? & ?). solve_block. Qed.

Lemma block_224 : in_block 32 n (v4_block 224 0 0 4) = true ↔ 224 ≤ a ∧ a ≤ 239.
Proof using Hwf. destruct Hwf as (? & ? & ? & ?). solve_block. Qed.

Lemma block_240 : in_block 32 n (v4_block 240 0 0 4) = true ↔ 240 ≤ a.
Proof using Hwf. destruct Hwf as (? & ? & ? & ?). solve_block. Qed.

Lemma is_public_v4_blocks :
  is_public_v4 x = negb (in_ranges 32 n v4_ranges).
Proof using Hwf.
  unfold is_public_v4. f_equal. apply bool_eq_iff.
  unfold v4_is_private, v4_is_loopback, v4_is_link_local, v4_is_multicast,
    v4_is_unspecified, v4_is_broadcast, in_ranges, v4_ranges. cbn [existsb snd].
  rewrite !orb_true_iff, !block_8, !block_16, !block_24, block_100_64, block_172_16,
    block_198_18, block_224, block_240 by done.
  rewrite !andb_true_iff, !orb_true_iff, !N.eqb_eq, !N.leb_le.
  assert (a = 255 → 240 ≤ a) by lia. assert (false = true ↔ False) as -> by done.
  clear Hwf. tauto.
Qed.
End v4_blocks.

(** The masks of [is_public_v6] select prefixes of the first segment. *)
Lemma land_prefix s k j :
  k ≤ 16 → j < 2 ^ k → s < 65536 →
  N.land s (N.shiftl (N.ones k) (16 - k)) = N.shiftl j (16 - k) ↔
  j * 2 ^ (16 - k) ≤ s < (j + 1) * 2 ^ (16 - k).
Proof.
  intros Hk Hj Hs. set (m := 16 - k).
  assert (N.land s (N.shiftl (N.ones k) m) = N.shiftl (N.shiftr s m) m) as ->.
  { apply N.bits_inj. intros i. rewrite N.land_spec.
    destruct (N.lt_ge_cases i m) as [Hi|Hi].
    - rewrite !N.shiftl_spec_low by done. by rewrite andb_false_r.
    - rewrite !N.shiftl_spec_high', N.shiftr_spec' by done.
      replace (i - m + m) with i by lia.
      destruct (N.lt_ge_cases (i - m) k) as [Hik|Hik].
      + by rewrite N.ones_spec_low, andb_true_r.
      + rewrite N.ones_spec_high, andb_false_r by done. symmetry.
        destruct (decide (s = 0)) as [->|]; [apply N.bits_0|].
        apply N.bits_above_log2. apply N.log2_lt_pow2; [lia|].
        eapply N.lt_le_trans; [exact Hs|]. change 65536 with (2 ^ 16).
        apply N.pow_le_mono_r; lia. }
  rewrite !N.shiftl_mul_pow2, N.shiftr_div_pow2.
  assert (2 ^ m ≠ 0) as Hm by (apply N.pow_nonzero; lia).
  rewrite N.mul_cancel_r by done.
  clear Hj Hs. revert Hm. generalize (2 ^ m) as p. intros p Hm.
  pose proof (N.div_mod s p Hm). pose proof (N.mod_lt s p Hm).
  generalize dependent (s / p). generalize dependent (s mod p). intros r Hr q Hq.
  split; [intros ->; nia|]. intros [H1 H2]. nia.
Qed.

Lemma land_ff00 s : s < 65536 → N.land s 65280 = 65280 ↔ 65280 ≤ s < 65536.
Proof. intros H. exact (land_prefix s 8 255 ltac:(done) ltac:(done) H). Qed.
Lemma land_fe00 s : s < 65536 → N.land s 0xfe00 = 0xfc00 ↔ 0xfc00 ≤ s < 0xfe00.
Proof. intros H. exact (land_prefix s 7 126 ltac:(done) ltac:(done) H). Qed.
Lemma land_ffc0 s : s < 65536 → N.land s 0xffc0 = 0xfe80 ↔ 0xfe80 ≤ s < 0xfec0.
Proof. intros H. exact (land_prefix s 10 1018 ltac:(done) ltac:(done) H). Qed.

Section v6_blocks.
Context (x : Ipv6Addr) (Hwf : wf_v6 x).

Lemma v6_high_zero_spec :
  v6_high_zero x = true ↔ seg0 x = 0 ∧ seg1 x = 0 ∧ seg2 x = 0 ∧ seg3 x = 0 ∧ seg4 x = 0.
Proof. unfold v6_high_zero. rewrite !andb_true_iff, !N.eqb_eq. tauto. Qed.

Lemma mapped_block :
  in_block 128 (v6_number x) v4_mapped_block = (v6_high_zero x && (seg5 x =? 65535)).
Proof using Hwf.
  apply bool_eq_iff. rewrite andb_true_iff, N.eqb_eq, v6_high_zero_spec.
  destruct Hwf as (? & ? & ? & ? & ? & ? & ? & ?). unfold v4_mapped_block. solve_block.
Qed.

Lemma first_segment_block lo hi k :
  2 ^ (128 - k) = (hi - lo) * 2 ^ 112 → lo ≤ hi →
  in_block 128 (v6_number x) (lo * 2 ^ 112, k) = true ↔ lo ≤ seg0 x < hi.
Proof using Hwf.
  intros Hk Hle. rewrite in_block_true. cbn [fst snd]. rewrite Hk.
  destruct Hwf as (? & ? & ? & ? & ? & ? & ? & ?). unfold v6_number.
  repeat match goal with |- context [2 ^ ?e] =>
    let v := eval vm_compute in (2 ^ e) in change (2 ^ e) with v end. nia.
Qed.

Lemma untested_block k lo :
  in_block 128 (v6_number x) (lo, k) = true →
  (lo, k) = (0x3fff * 2 ^ 112, 20) ∨ (lo, k) = (0x2001 * 2 ^ 112 + 0x0002 * 2 ^ 96, 48) →
  seg0 x = 0x3fff ∨ seg0 x = 0x2001 ∧ seg1 x = 2.
Proof using Hwf.
  destruct Hwf as (? & ? & ? & ? & ? & ? & ? & ?).
  intros Hb [E|E]; injection E as -> ->; revert Hb; solve_block.
Qed.

(** The untested ranges are apart from those that are tested. *)
Lemma untested_apart : untested (V6 x) = true →
  in_block 128 (v6_number x) v4_mapped_block = false ∧ in_ranges 128 (v6_number x) (take 6 v6_ranges) = false.
Proof using Hwf.
  intros Hu. assert (seg0 x = 0x3fff ∨ seg0 x = 0x2001 ∧ seg1 x = 2) as Hs.
  { unfold untested, in_ranges, untested_ranges, v6_ranges in Hu. cbn [drop existsb snd] in Hu.
    rewrite orb_false_r, orb_true_iff in Hu. destruct Hu as [Hu|Hu]; eapply untested_block; eauto. }
  destruct Hwf as (? & ? & ? & ? & ? & ? & ? & ?). split.
  - apply not_true_iff_false. unfold v4_mapped_block. solve_block.
  - apply not_true_iff_false. unfold in_ranges, v6_ranges. cbn [take existsb snd]. rewrite !orb_true_iff.
    intros Hr. repeat destruct Hr as [Hr|Hr]; try done; revert Hr; solve_block.
Qed.

Lemma is_public_v6_tested : is_public_v6 x =
  let n := v6_number x in
  if in_block 128 n v4_mapped_block then negb (in_ranges 32 (n mod 2 ^ 32) v4_ranges)
  else negb (in_ranges 128 n (take 6 v6_ranges)).
Proof using Hwf.
  unfold is_public_v6, to_ipv4_mapped. cbv zeta. rewrite mapped_block.
  pose proof Hwf as (? & ? & ? & ? & ? & ? & ? & ?).
  destruct (v6_high_zero x && (seg5 x =? 65535)) eqn:Em.
  - rewrite is_public_v4_blocks.
    2: { unfold wf_v4. cbn [octet_a octet_b octet_c octet_d]. split_and!;
         (apply N.Div0.div_lt_upper_bound || apply N.mod_lt); lia. }
    f_equal. f_equal. f_equal.
    bool_cases. apply v6_high_zero_spec in H7 as (E0 & E1 & E2 & E3 & E4).
    unfold v6_number, v4_number. cbn [octet_a octet_b octet_c octet_d].
    rewrite E0, E1, E2, E3, E4, H8.
    pose proof (N.div_mod' (seg6 x) 256). pose proof (N.div_mod' (seg7 x) 256).
    change (2 ^ 24) with 16777216. change (2 ^ 16) with 65536. change (2 ^ 8) with 256.
    change (2 ^ 32) with 4294967296.
    rewrite !N.mul_0_l, !N.add_0_l.
    replace (65535 * 4294967296 + _ + _) with (seg6 x * 65536 + seg7 x + 65535 * 4294967296) by lia.
    rewrite N.Div0.mod_add, (N.mod_small (_ + seg7 x)); lia.
  - f_equal. apply bool_eq_iff. unfold in_ranges, v6_ranges. cbn [take existsb snd].
    rewrite !orb_true_iff, !andb_true_iff.
    rewrite (first_segment_block 0xfc00 0xfe00 7) by done.
    rewrite (first_segment_block 0xfe80 0xfec0 10) by done.
    rewrite (first_segment_block 0xff00 65536 8) by done.
    unfold v6_is_loopback, v6_is_unspecified, v6_is_multicast.
    rewrite !andb_true_iff, !N.eqb_eq, v6_high_zero_spec, land_ff00, land_fe00, land_ffc0 by done.
    assert (in_block 128 (v6_number x) (0, 128) = true ↔ v6_number x = 0) as -> by solve_block.
    assert (in_block 128 (v6_number x) (1, 128) = true ↔ v6_number x = 1) as -> by solve_block.
    assert (in_block 128 (v6_number x) (0x2001 * 2 ^ 112 + 0x0db8 * 2 ^ 96, 32) = true ↔
            seg0 x = 0x2001 ∧ seg1 x = 0x0db8) as -> by solve_block.
    assert (v6_number x = 0 ↔ seg0 x = 0 ∧ seg1 x = 0 ∧ seg2 x = 0 ∧ seg3 x = 0 ∧
            seg4 x = 0 ∧ seg5 x = 0 ∧ seg6 x = 0 ∧ seg7 x = 0) as -> by (unfold v6_number; lia).
    assert (v6_number x = 1 ↔ seg0 x = 0 ∧ seg1 x = 0 ∧ seg2 x = 0 ∧ seg3 x = 0 ∧
            seg4 x = 0 ∧ seg5 x = 0 ∧ seg6 x = 0 ∧ seg7 x = 1) as -> by (unfold v6_number; lia).
    assert (false = true ↔ False) as -> by done. clear. tauto.
Qed.

Lemma is_public_v6_blocks : is_public_v6 x = public_reference (V6 x) || untested (V6 x).
Proof using Hwf.
  rewrite is_public_v6_tested. cbn [public_reference]. cbv zeta.
  assert (in_ranges 128 (v6_number x) v6_ranges
    = in_ranges 128 (v6_number x) (take 6 v6_ranges) || untested (V6 x)) as ->.
  { unfold untested, untested_ranges, in_ranges. by rewrite <- existsb_app, take_drop. }
  destruct (untested (V6 x)) eqn:Hu; [|by rewrite !orb_false_r].
  destruct (untested_apart Hu) as [-> ->]. done.
Qed.
End v6_blocks.



(** The IPv6 documentation and benchmarking ranges the code leaves out are
    public to it, and the other documentation range is not. *)
Theorem ipv6_test_ranges_public :
  is_public_address (V6 (mkIpv6 0x3fff 0 0 0 0 0 0 1)) = true ∧
  is_public_address (V6 (mkIpv6 0x2001 2 0 0 0 0 0 1)) = true ∧
  is_public_address (V6 (mkIpv6 0x2001 0xdb8 0 0 0 0 0 1)) = false.
Proof. done. Qed.
