(* ===== verification/Authority.v ===== *)
(** The authority carried by an activity and the decision it makes about a
    capability request: [pluribus-core/src/authority.rs]. *)
From stdpp Require Import base tactics option list strings gmap.
From Stdlib Require Import ZArith NArith Lia.
From S2P Require Import Prelude Event.

Abbreviation CapabilityName := string (only parsing).

(** Canonical JSON interpreted by the capability provider. *)
Abbreviation ConstraintSet := bytes (only parsing).

Record Grant : Type := mkGrant {
  capability : CapabilityName;
  provider : option PrincipalRef;
  constraints : ConstraintSet;
}.

Record Audience : Type := mkAudience {
  audience_connector : PrincipalRef;
  audience_conversation_id : string;
  recipients : list PrincipalRef;
}.

Inductive OriginKind : Type :=
| Autonomous
| ConnectorOrigin.

Record Origin : Type := mkOrigin {
  origin_kind : OriginKind;
  origin_principal : option PrincipalRef;
  origin_connector : option PrincipalRef;
  origin_conversation_id : option string;
  source_event_id : EventId;
  trusted : bool;
}.

Record Delegation : Type := mkDelegation {
  delegation_from : PrincipalRef;
  delegation_to : PrincipalRef;
  on_behalf_of : option PrincipalRef;
  purpose : string;
  delegation_source_event_id : EventId;
}.

Record Authority : Type := mkAuthority {
  authority_schema : string;
  authority_id_ : AuthorityId;
  agent : PrincipalRef;
  origin : Origin;
  delegation_chain : list Delegation;
  grants : gmap CapabilityName (list Grant);
  audiences : list Audience;
  parent_authority : option AuthorityId;
  issued_at_ms : Z;
  expires_at_ms : option Z;
  max_depth : N;
  current_depth : N;
}.

(** [Authority::SCHEMA]. *)
Definition AUTHORITY_SCHEMA : string := "pluribus.authority/1".

Inductive DenialReason : Type :=
| MissingGrant
| ConstraintMismatch
| Expired
| DepthExceeded
| PolicyError (message : string).

Inductive Decision : Type :=
| Allow (grant : Grant)
| Deny (reason : DenialReason).

#[export] Instance grant_eq_dec : EqDecision Grant.
Proof. solve_decision. Defined.
#[export] Instance denial_reason_eq_dec : EqDecision DenialReason.
Proof. solve_decision. Defined.
#[export] Instance authority_decision_eq_dec : EqDecision Decision.
Proof. solve_decision. Defined.

(** The trait [ConstraintPolicy]: what a capability makes of its constraints. *)
Class ConstraintPolicy (P : Type) : Type := {
  allows : P → Grant → bytes → result bool string;
  allows_projected : P → Grant → bytes → bytes → result bool string;
}.

(** The trait's default [allows_projected]. *)
Definition default_allows_projected {P}
    (allows : P → Grant → bytes → result bool string)
    (p : P) (g : Grant) (request selectors : bytes) : result bool string :=
  allows p g request.

(** [Authority::permits]. *)
Definition permits (a : Authority) (c : CapabilityName) : bool := opt_is_some (grants a !! c).

(** [Authority::is_expired_at]. *)
Definition is_expired_at (a : Authority) (now_ms : Z) : bool :=
  is_some_and (expires_at_ms a) (λ expiry, expiry <=? now_ms)%Z.

(** [Authority::can_descend]. *)
Definition can_descend (a : Authority) : bool := (current_depth a <? max_depth a)%N.

(** [grant.provider.as_ref().is_none_or(|value| value == provider)]. *)
Definition grant_matches (p : PrincipalRef) (g : Grant) : bool :=
  is_none_or (provider g) (λ value, bool_decide (value = p)).

Section decide.
Context {P : Type} `{!ConstraintPolicy P}.

(** The loop of [Authority::decide] over the matching grants: the first grant
    the policy allows wins; otherwise the flags it leaves. *)
Fixpoint decide_loop (policy : P) (req : bytes) (matching : list Grant)
    (saw_provider : bool) (policy_error : option string)
    : Grant + (bool * option string) :=
  match matching with
  | [] => inr (saw_provider, policy_error)
  | g :: rest =>
      match allows policy g req with
      | Ok true => inl g
      | Ok false => decide_loop policy req rest true policy_error
      | Err error => decide_loop policy req rest true (Some error)
      end
  end.

(** [Authority::decide]. *)
Definition decide_request (a : Authority) (c : CapabilityName) (p : PrincipalRef)
    (req : bytes) (policy : P) (now_ms : Z) : Decision :=
  if is_expired_at a now_ms then Deny Expired
  else if (max_depth a <? current_depth a)%N then Deny DepthExceeded
  else match grants a !! c with
       | None => Deny MissingGrant
       | Some gs =>
           match decide_loop policy req (filter (λ g, grant_matches p g = true) gs) false None with
           | inl g => Allow g
           | inr (saw_provider, policy_error) =>
               Deny (match policy_error with
                     | Some error => PolicyError error
                     | None => if saw_provider then ConstraintMismatch else MissingGrant
                     end)
           end
       end.

(** ** What the loop finds *)

Lemma decide_loop_allow policy req l saw err g :
  decide_loop policy req l saw err = inl g →
  ∃ l1 l2, l = l1 ++ g :: l2 ∧ allows policy g req = Ok true ∧
    Forall (λ h, allows policy h req ≠ Ok true) l1.
Proof.
  revert saw err. induction l as [|h l IH]; intros saw err; simpl; [done|].
  destruct (allows policy h req) as [[]|e] eqn:Eh.
  1: { intros [= ->]. by exists [], l. }
  all: intros (l1 & l2 & -> & Hg & Hl1)%IH; exists (h :: l1), l2; split_and!; try done;
    constructor; [congruence|done].
Qed.

Lemma decide_loop_deny policy req l saw err saw' err' :
  decide_loop policy req l saw err = inr (saw', err') →
  Forall (λ h, allows policy h req ≠ Ok true) l ∧
  saw' = (saw || negb (bool_decide (l = []))) ∧
  (err' = None ↔ err = None ∧ Forall (λ h, allows policy h req = Ok false) l) ∧
  (∀ e, err' = Some e → err = Some e ∨ ∃ h, h ∈ l ∧ allows policy h req = Err e).
Proof.
  revert saw err. induction l as [|h l IH]; intros saw err; simpl.
  { intros [= <- <-]. rewrite orb_false_r. split_and!; naive_solver. }
  destruct (allows policy h req) as [[]|e] eqn:Eh; [done| |].
  all: intros (H1 & -> & H3 & H4)%IH; rewrite orb_true_r; split_and!.
  all: try (constructor; [congruence|done]).
  all: try done.
  all: try (rewrite H3, Forall_cons, Eh; clear; intuition congruence).
  all: intros e' [He|(h' & ? & ?)]%H4; [|right; exists h'; set_solver].
  - by left.
  - right. exists h. set_solver.
Qed.

Lemma decide_loop_total policy req l saw err :
  (∃ g, decide_loop policy req l saw err = inl g) ∨
  Forall (λ h, allows policy h req ≠ Ok true) l.
Proof.
  destruct (decide_loop policy req l saw err) as [g|[s e]] eqn:E; [eauto|right].
  by apply decide_loop_deny in E as (? & _).
Qed.

(** A grant of [a] for [c] that names [p], or names nobody. *)
Definition applicable (a : Authority) (c : CapabilityName) (p : PrincipalRef) (g : Grant) : Prop :=
  ∃ gs, grants a !! c = Some gs ∧ g ∈ gs ∧ (provider g = None ∨ provider g = Some p).

Lemma grant_matches_spec p g :
  grant_matches p g = true ↔ provider g = None ∨ provider g = Some p.
Proof.
  unfold grant_matches. destruct (provider g); simpl; rewrite ?bool_decide_eq_true; naive_solver.
Qed.

Lemma applicable_filter a c p gs g :
  grants a !! c = Some gs →
  applicable a c p g ↔ g ∈ filter (λ g, grant_matches p g = true) gs.
Proof.
  intros Hgs. unfold applicable. rewrite list_elem_of_filter, grant_matches_spec, Hgs.
  naive_solver.
Qed.

(** The guards before the loop. *)
Lemma decide_request_live a c p req policy now_ms gs :
  is_expired_at a now_ms = false → (current_depth a ≤ max_depth a)%N →
  grants a !! c = Some gs →
  decide_request a c p req policy now_ms =
    match decide_loop policy req (filter (λ g, grant_matches p g = true) gs) false None with
    | inl g => Allow g
    | inr (saw_provider, policy_error) =>
        Deny (match policy_error with
              | Some error => PolicyError error
              | None => if saw_provider then ConstraintMismatch else MissingGrant
              end)
    end.
Proof.
  intros He Hd Hg. unfold decide_request. rewrite He, Hg.
  by rewrite (proj2 (N.ltb_ge _ _) Hd).
Qed.

(** The authority is usable at [now_ms]: neither expired nor too deep. *)
Definition live (a : Authority) (now_ms : Z) : Prop :=
  (∀ expiry, expires_at_ms a = Some expiry → (now_ms < expiry)%Z) ∧
  (current_depth a ≤ max_depth a)%N.

Lemma is_expired_at_false a now_ms :
  is_expired_at a now_ms = false ↔
  ∀ expiry, expires_at_ms a = Some expiry → (now_ms < expiry)%Z.
Proof.
  unfold is_expired_at. destruct (expires_at_ms a); simpl; rewrite ?Z.leb_gt; naive_solver.
Qed.

Lemma decide_request_not_live a c p req policy now_ms :
  ¬ live a now_ms →
  decide_request a c p req policy now_ms =
    Deny (if is_expired_at a now_ms then Expired else DepthExceeded).
Proof.
  unfold live, decide_request. rewrite <- is_expired_at_false. intros H.
  destruct (is_expired_at a now_ms); [done|].
  rewrite (proj2 (N.ltb_lt _ _)); [done|]. destruct (N.lt_ge_cases (max_depth a) (current_depth a)); [done|].
  by destruct H.
Qed.

Lemma live_dec a now_ms : {live a now_ms} + {¬ live a now_ms}.
Proof.
  unfold live. destruct (is_expired_at a now_ms) eqn:E.
  - right. intros [H _]. apply is_expired_at_false in H. congruence.
  - pose proof (proj1 (is_expired_at_false _ _) E). destruct (decide (current_depth a ≤ max_depth a)%N);
      [by left | right; naive_solver].
Defined.

(** A capability request is allowed exactly when the authority is
    live and some grant for the capability, unbound or bound to the selected
    provider, has constraints the policy accepts; the grant returned is such
    a grant, and no earlier matching grant was acceptable. *)
Theorem decide_request_allow (a : Authority) (c : CapabilityName) (p : PrincipalRef)
    (req : bytes) (policy : P) (now_ms : Z) :
  (∀ g, decide_request a c p req policy now_ms = Allow g →
     live a now_ms ∧ applicable a c p g ∧ allows policy g req = Ok true ∧
     ∃ gs l1 l2, grants a !! c = Some gs ∧
       filter (λ g, grant_matches p g = true) gs = l1 ++ g :: l2 ∧
       Forall (λ h, allows policy h req ≠ Ok true) l1) ∧
  (live a now_ms → ∀ g, applicable a c p g → allows policy g req = Ok true →
     ∃ g', decide_request a c p req policy now_ms = Allow g').
Proof.
  split.
  - intros g H. destruct (live_dec a now_ms) as [Hl|Hl].
    2: { by rewrite decide_request_not_live in H. }
    split; [done|]. destruct Hl as [He%is_expired_at_false Hd].
    destruct (grants a !! c) as [gs|] eqn:Egs.
    2: { unfold decide_request in H. rewrite He, Egs, (proj2 (N.ltb_ge _ _) Hd) in H. done. }
    rewrite (decide_request_live _ _ _ _ _ _ gs) in H by done.
    destruct (decide_loop _ _ _ _ _) as [g'|[]] eqn:El in H; [|done]. injection H as ->.
    apply decide_loop_allow in El as (l1 & l2 & Hl & Ha & Hall).
    split_and!; [|done|by exists gs, l1, l2].
    apply (applicable_filter _ _ _ gs); [done|]. rewrite Hl. set_solver.
  - intros [He%is_expired_at_false Hd] g Happ Hg. pose proof Happ as (gs & Egs & _).
    rewrite (decide_request_live _ _ _ _ _ _ gs) by done.
    apply (applicable_filter _ _ _ gs) in Happ; [|done].
    destruct (decide_loop_total policy req (filter (λ g, grant_matches p g = true) gs) false None)
      as [[g' ->]|Hall]; [by exists g'|].
    exfalso. rewrite Forall_forall in Hall. by eapply Hall.
Qed.

(** Every refusal carries the reason it was reached for: expiry is
    reported before depth; a missing grant means that no grant applies to the
    provider; a constraint mismatch means that grants apply and the policy
    rejects each of them; a policy error means that grants apply, none is
    accepted, and the policy failed on one of them with that message. *)
Theorem decide_request_deny (a : Authority) (c : CapabilityName) (p : PrincipalRef)
    (req : bytes) (policy : P) (now_ms : Z) (reason : DenialReason)
    (H : decide_request a c p req policy now_ms = Deny reason) :
  match reason with
  | Expired => ∃ expiry, expires_at_ms a = Some expiry ∧ (expiry ≤ now_ms)%Z
  | DepthExceeded => is_expired_at a now_ms = false ∧ (max_depth a < current_depth a)%N
  | MissingGrant => live a now_ms ∧ ∀ g, ¬ applicable a c p g
  | ConstraintMismatch =>
      live a now_ms ∧ (∃ g, applicable a c p g) ∧
      ∀ g, applicable a c p g → allows policy g req = Ok false
  | PolicyError e =>
      live a now_ms ∧ (∃ g, applicable a c p g ∧ allows policy g req = Err e) ∧
      ∀ g, applicable a c p g → allows policy g req ≠ Ok true
  end.
Proof.
  destruct (live_dec a now_ms) as [Hl|Hl].
  - pose proof Hl as [He%is_expired_at_false Hd].
    destruct (grants a !! c) as [gs|] eqn:Egs.
    + rewrite (decide_request_live _ _ _ _ _ _ gs) in H by done.
      destruct (decide_loop _ _ _ _ _) as [|[saw err]] eqn:El in H; [done|].
      apply decide_loop_deny in El as (Hall & Hsaw & Hnone & Herr). injection H as <-.
      pose proof (λ g, applicable_filter a c p gs g Egs) as Happ. rewrite Forall_forall in Hall.
      destruct err as [e|]; [setoid_rewrite Happ; split_and!; [done| |done]; naive_solver|].
      destruct (proj1 Hnone eq_refl) as [_ Hf]. rewrite Forall_forall in Hf.
      destruct (filter _ gs) as [|h l]; simpl in Hsaw; subst saw.
      * split; [done|]. intros g Hg%Happ. inversion Hg.
      * setoid_rewrite Happ. split_and!; [done| |done]. exists h. set_solver.
    + unfold decide_request in H. rewrite He, Egs, (proj2 (N.ltb_ge _ _) Hd) in H.
      injection H as <-. split; [done|]. intros g (gs & Hgs & _). congruence.
  - rewrite decide_request_not_live in H by done. injection H as <-.
    destruct (is_expired_at a now_ms) eqn:E.
    + unfold is_expired_at in E. destruct (expires_at_ms a) as [x|]; [|done].
      simpl in E. bool_cases. eauto.
    + split; [done|]. destruct (N.lt_ge_cases (max_depth a) (current_depth a)); [done|].
      destruct Hl. split; [by apply is_expired_at_false|done].
Qed.
End decide.

(** A policy that gives the same answer to every request. *)
Record FixedPolicy : Type := mkFixedPolicy { fixed_answer : result bool string }.
#[export] Instance fixed_policy : ConstraintPolicy FixedPolicy := {|
  allows := λ p _ _, fixed_answer p;
  allows_projected := λ p g r _, fixed_answer p;
|}.

Definition battery_grant : Grant := mkGrant "battery.read" None [].
Definition battery_authority (expires : option Z) (depth : N) : Authority := {|
  authority_schema := AUTHORITY_SCHEMA;
  authority_id_ := "authority";
  agent := mkPrincipalRef Agent "personal";
  origin := mkOrigin Autonomous None None None "event" true;
  delegation_chain := [];
  grants := {["battery.read" := [battery_grant]]};
  audiences := [];
  parent_authority := None;
  issued_at_ms := 10;
  expires_at_ms := expires;
  max_depth := 4;
  current_depth := depth;
|}.

Lemma decide_request_deny_witness :
  decide_request (battery_authority None 0) "battery.read"
    (mkPrincipalRef Component "battery-1") [] (mkFixedPolicy (Err "bad constraint")) 10
    = Deny (PolicyError "bad constraint") ∧
  live (battery_authority None 0) 10.
Proof.
  assert (decide_request (battery_authority None 0) "battery.read"
    (mkPrincipalRef Component "battery-1") [] (mkFixedPolicy (Err "bad constraint")) 10
    = Deny (PolicyError "bad constraint")) as H by (vm_compute; reflexivity).
  split; [exact H|]. exact (proj1 (decide_request_deny _ _ _ _ _ _ _ H)).
Defined.
