(* ===== verification/Blob.v ===== *)
(** The in-memory content-addressed blob store:
    [InMemoryBlobStore] of [pluribus-core/src/blob.rs].

    The SHA-256 function of the [sha2] crate is a parameter; a claim that
    needs two stored contents not to collide says so.  Every operation runs
    under one lock, so an operation is a function of the store; a poisoned
    lock (a panic in another thread) is not modelled. *)
From stdpp Require Import base tactics option list strings gmap.
From Stdlib Require Import ZArith NArith Lia Ascii.
From S2P Require Import Prelude Event.

Record BlobChunk : Type := mkBlobChunk { chunk_bytes : bytes; eof : bool }.

Record MemoryUpload : Type := mkMemoryUpload {
  upload_media_type : string;
  expected_size : option N;
  upload_bytes : bytes;
  previous_write : option (N * bytes);
}.

Record MemoryBlobs : Type := mkMemoryBlobs {
  next_upload : N;
  uploads : gmap string MemoryUpload;
  blobs : gmap string bytes;
}.

(** [MemoryBlobs::default()]. *)
Definition empty_blobs : MemoryBlobs := mkMemoryBlobs 0 ∅ ∅.

(** [{byte:02x}]. *)
Definition hex_char (d : N) : ascii :=
  if (d <? 10)%N then ascii_of_N (48 + d) else ascii_of_N (87 + d).
Definition hex_byte (b : Byte.byte) : string :=
  String (hex_char (Byte.to_N b / 16)) (String (hex_char (Byte.to_N b mod 16)) "").

(** [u64::try_from(bytes.len())]. *)
Definition u64_of_len (b : bytes) : option N :=
  if (len b <=? u64_max)%N then Some (len b) else None.

(** [bytes[start..end]]. *)
Definition slice (b : bytes) (start stop : N) : bytes :=
  take (N.to_nat (stop - start)) (drop (N.to_nat start) b).

Section store.
Context (sha256 : bytes → bytes) (max_blob_bytes : N).

(** [sha256_hex]. *)
Definition sha256_hex (b : bytes) : string :=
  fold_left (λ output byte, output +:+ hex_byte byte) (sha256 b) "".

Definition upload_id (n : N) : string := "memory-upload-" +:+ u64_to_string n.

(** [InMemoryBlobStore::begin_put]. *)
Definition begin_put (media_type : string) (expected : option N) (s : MemoryBlobs)
    : result string BlobError * MemoryBlobs :=
  match validate_media_type media_type with
  | Err e => (Err e, s)
  | Ok _ =>
      if is_some_and expected (λ size, max_blob_bytes <? size)%N
      then (Err (BlobResourceExhausted "expected size exceeds blob limit"), s)
      else match checked_add_u64 (next_upload s) 1 with
           | None => (Err (BlobStorage "upload identifier exhausted"), s)
           | Some next =>
               let id := upload_id next in
               (Ok id,
                mkMemoryBlobs next
                  (<[id := mkMemoryUpload media_type expected [] None]> (uploads s))
                  (blobs s))
           end
  end.

(** [InMemoryBlobStore::write]. *)
Definition write (id : string) (offset : N) (b : bytes) (s : MemoryBlobs)
    : result N BlobError * MemoryBlobs :=
  match uploads s !! id with
  | None => (Err BlobNotFound, s)
  | Some upload =>
      match u64_of_len (upload_bytes upload) with
      | None => (Err (BlobResourceExhausted "blob size exceeds u64"), s)
      | Some current =>
          if negb (offset =? current)%N then
            if is_some_and (previous_write upload)
                 (λ '(previous_offset, previous),
                    (previous_offset =? offset)%N && bool_decide (previous = b))
            then (Ok current, s)
            else (Err (BlobConflict current offset), s)
          else
            match u64_of_len b with
            | None => (Err (BlobResourceExhausted "chunk size exceeds u64"), s)
            | Some length =>
                match checked_add_u64 current length with
                | None => (Err (BlobResourceExhausted "blob size exceeds u64"), s)
                | Some next =>
                    if (max_blob_bytes <? next)%N
                       || is_some_and (expected_size upload) (λ size, size <? next)%N
                    then (Err (BlobResourceExhausted
                            "write exceeds declared or configured blob size"), s)
                    else
                      (Ok next,
                       mkMemoryBlobs (next_upload s)
                         (<[id := mkMemoryUpload (upload_media_type upload)
                                    (expected_size upload) (upload_bytes upload ++ b)
                                    (Some (offset, b))]> (uploads s))
                         (blobs s))
                end
            end
      end
  end.

(** [InMemoryBlobStore::finish_put]: the upload is consumed even when the
    size it declared is not met. *)
Definition finish_put (id : string) (s : MemoryBlobs)
    : result BlobRef BlobError * MemoryBlobs :=
  match uploads s !! id with
  | None => (Err BlobNotFound, s)
  | Some upload =>
      let s1 := mkMemoryBlobs (next_upload s) (delete id (uploads s)) (blobs s) in
      match u64_of_len (upload_bytes upload) with
      | None => (Err (BlobResourceExhausted "blob size exceeds u64"), s1)
      | Some size =>
          if is_some_and (expected_size upload) (λ expected, negb (expected =? size)%N)
          then (Err (BlobInvalid ("expected "
                  +:+ u64_to_string (default 0%N (expected_size upload))
                  +:+ " bytes, received " +:+ u64_to_string size)), s1)
          else
            let digest := sha256_hex (upload_bytes upload) in
            (Ok (mkBlobRef SHA256_ALGORITHM digest size (upload_media_type upload)),
             mkMemoryBlobs (next_upload s1) (uploads s1)
               (match blobs s !! digest with
                | Some _ => blobs s
                | None => <[digest := upload_bytes upload]> (blobs s)
                end))
      end
  end.

(** [InMemoryBlobStore::abort_put]. *)
Definition abort_put (id : string) (s : MemoryBlobs) : result unit BlobError * MemoryBlobs :=
  (Ok tt, mkMemoryBlobs (next_upload s) (delete id (uploads s)) (blobs s)).

(** [InMemoryBlobStore::read]; [usize] is 64 bits wide, so the offset always
    converts. *)
Definition read (blob : BlobRef) (offset max_bytes : N) (s : MemoryBlobs)
    : result BlobChunk BlobError :=
  try! validate_blob_ref blob;
  let? b := ok_or (blobs s !! digest blob) BlobNotFound in
  let? actual_size := ok_or (u64_of_len b) (BlobCorrupt "stored size exceeds u64") in
  if negb (actual_size =? blob_size blob)%N
     || negb (String.eqb (sha256_hex b) (digest blob))
  then Err (BlobCorrupt "reference does not match stored bytes")
  else if (len b <? offset)%N then Err (BlobInvalid "offset exceeds blob size")
  else
    let stop := N.min (saturating_add_u64 offset max_bytes) (len b) in
    Ok (mkBlobChunk (slice b offset stop) (stop =? len b)%N).

(** A client's upload: the chunks in order, each at the offset the previous
    write returned. *)
Fixpoint write_chunks (id : string) (offset : N) (chunks : list bytes) (s : MemoryBlobs)
    : result N BlobError * MemoryBlobs :=
  match chunks with
  | [] => (Ok offset, s)
  | b :: chunks =>
      match write id offset b s with
      | (Ok next, s') => write_chunks id next chunks s'
      | (Err e, s') => (Err e, s')
      end
  end.

(** ** The invariant *)

(** An upload keeps a valid media type, stays within its limits, and its
    replay record is its last chunk. *)
Definition wf_upload (u : MemoryUpload) : Prop :=
  validate_media_type (upload_media_type u) = Ok tt ∧
  (len (upload_bytes u) ≤ max_blob_bytes)%N ∧
  (len (upload_bytes u) ≤ u64_max)%N ∧
  (∀ size, expected_size u = Some size → (len (upload_bytes u) ≤ size ≤ max_blob_bytes)%N) ∧
  match previous_write u with
  | None => upload_bytes u = []
  | Some (offset, b) => ∃ before, upload_bytes u = before ++ b ∧ offset = len before
  end.

Definition wf_blobs (s : MemoryBlobs) : Prop :=
  (next_upload s ≤ u64_max)%N ∧
  map_Forall (λ _ u, wf_upload u) (uploads s) ∧
  (∀ id, is_Some (uploads s !! id) → ∃ k, (k ≤ next_upload s)%N ∧ id = upload_id k) ∧
  map_Forall (λ d b, d = sha256_hex b ∧ (len b ≤ max_blob_bytes)%N ∧ (len b ≤ u64_max)%N)
    (blobs s).

Inductive operation : Type :=
| OpBegin (media_type : string) (expected : option N)
| OpWrite (id : string) (offset : N) (b : bytes)
| OpFinish (id : string)
| OpAbort (id : string).

Definition run_operation (o : operation) (s : MemoryBlobs) : MemoryBlobs :=
  match o with
  | OpBegin media_type expected => snd (begin_put media_type expected s)
  | OpWrite id offset b => snd (write id offset b s)
  | OpFinish id => snd (finish_put id s)
  | OpAbort id => snd (abort_put id s)
  end.

(** ** Lemmas *)

Lemma u64_of_len_spec b n : u64_of_len b = Some n ↔ n = len b ∧ (len b ≤ u64_max)%N.
Proof. unfold u64_of_len. case_match; bool_cases; split; intros; destruct_and?; simplify_eq; lia || auto. Qed.

Lemma u64_of_len_ok b : (len b ≤ u64_max)%N → u64_of_len b = Some (len b).
Proof. intros. by apply u64_of_len_spec. Qed.

(** What a successful write did: it appended at the current end, or it
    repeated the last chunk. *)
Lemma write_ok id offset b s n s' :
  write id offset b s = (Ok n, s') →
  ∃ u, uploads s !! id = Some u ∧
  ((offset ≠ len (upload_bytes u) ∧ previous_write u = Some (offset, b) ∧
    n = len (upload_bytes u) ∧ s' = s) ∨
   (offset = len (upload_bytes u) ∧ n = (offset + len b)%N ∧
    (n ≤ max_blob_bytes)%N ∧ (n ≤ u64_max)%N ∧
    (∀ size, expected_size u = Some size → (n ≤ size)%N) ∧
    s' = mkMemoryBlobs (next_upload s)
           (<[id := mkMemoryUpload (upload_media_type u) (expected_size u)
                      (upload_bytes u ++ b) (Some (offset, b))]> (uploads s)) (blobs s))).
Proof.
  unfold write. destruct (uploads s !! id) as [u|]; [|done].
  destruct (u64_of_len (upload_bytes u)) as [current|] eqn:Ec; [|done].
  apply u64_of_len_spec in Ec as [-> Hlen].
  intros H. exists u. split; [done|].
  destruct (offset =? len (upload_bytes u))%N eqn:Eo; cbn [negb] in H; bool_cases.
  - destruct (u64_of_len b) as [l|] eqn:El; [|done]. apply u64_of_len_spec in El as [-> _].
    destruct (checked_add_u64 _ _) as [next|] eqn:En in H; [|done].
    apply checked_add_u64_spec in En as [-> Hn].
    destruct (_ || _) eqn:Eg in H; [done|]. injection H as <- <-.
    apply orb_false_iff in Eg as [Eg1 Eg2]. bool_cases. right. split_and!; [lia|lia|lia|lia| |by subst].
    intros size Hs. rewrite Hs in Eg2. simpl in Eg2. bool_cases. lia.
  - destruct (previous_write u) as [[po pb]|]; simpl in H; [|done].
    destruct (_ && _) eqn:Eg in H; [|done]. injection H as <- <-. bool_cases. subst. by left.
Qed.

Lemma write_err id offset b s e s' : write id offset b s = (Err e, s') → s' = s.
Proof. unfold write. intros H. repeat case_match; by simplify_eq. Qed.

Lemma finish_put_shape id s r s' :
  finish_put id s = (r, s') →
  (uploads s !! id = None ∧ s' = s) ∨
  ∃ u, uploads s !! id = Some u ∧ next_upload s' = next_upload s ∧
    uploads s' = delete id (uploads s) ∧
    (blobs s' = blobs s ∨
     blobs s' = <[sha256_hex (upload_bytes u) := upload_bytes u]> (blobs s)).
Proof.
  unfold finish_put. intros H. destruct (uploads s !! id) as [u|] eqn:Eu; [|left; by simplify_eq].
  right. exists u. repeat case_match; simplify_eq/=; split_and!; auto.
Qed.

Lemma upload_ids_mono s k id (m : gmap string MemoryUpload) :
  wf_blobs s → (next_upload s ≤ k)%N →
  (∀ id, is_Some (m !! id) → is_Some (uploads s !! id)) →
  is_Some (m !! id) → ∃ k', (k' ≤ k)%N ∧ id = upload_id k'.
Proof. intros (_ & _ & Hids & _) Hk Hm (k' & ? & ->)%Hm%Hids. exists k'. split; [lia|done]. Qed.

Lemma run_operation_wf o s : wf_blobs s → wf_blobs (run_operation o s).
Proof.
  intros Hwf. pose proof Hwf as (Hnext & Hup & Hids & Hbl). destruct o; simpl.
  - unfold begin_put. destruct (validate_media_type _) as [[]|] eqn:Em; [|done].
    destruct (is_some_and _ _) eqn:Ex; [done|].
    destruct (checked_add_u64 _ _) as [k|] eqn:Ek; [|done].
    apply checked_add_u64_spec in Ek as [-> Hk]. simpl. split_and!; [done| | |done].
    + apply map_Forall_insert_2; [|done]. split_and!; simpl; [done|unfold len; simpl; lia..| |done].
      intros size ->. simpl in Ex. bool_cases. unfold len. simpl. lia.
    + simpl. intros id [<- |Hid]%lookup_insert_is_Some'; [by exists (next_upload s + 1)%N|].
      eapply upload_ids_mono; [done| |done..]. lia.
  - destruct (write id offset b s) as [[n|e] s'] eqn:Ew; simpl; [|by apply write_err in Ew as ->].
    apply write_ok in Ew as (u & Hu & [(_ & _ & _ & ->)|(-> & -> & H1 & H2 & H3 & ->)]); [done|].
    split_and!; simpl; [done| | |done].
    + apply map_Forall_insert_2; [|done]. pose proof (Hup _ _ Hu) as (Hm & _ & _ & Hs & _).
      unfold wf_upload. cbn [upload_media_type upload_bytes expected_size previous_write].
      rewrite len_app. split_and!; [done..| |by eauto]. intros size Hsz. specialize (Hs _ Hsz).
      specialize (H3 _ Hsz). lia.
    + intros id' [<- |Hid]%lookup_insert_is_Some'; [apply Hids; eauto|].
      eapply upload_ids_mono; [done| |done..]. lia.
  - destruct (finish_put id s) as [r s'] eqn:Ef. simpl.
    apply finish_put_shape in Ef as [[_ ->]|(u & Hu & E1 & E2 & E3)]; [done|].
    unfold wf_blobs. rewrite E1, E2. split_and!; [done|by apply map_Forall_delete| |].
    + intros id' Hid. eapply upload_ids_mono; [done|lia| |done].
      intros ? [_ ?]%lookup_delete_is_Some. done.
    + pose proof (Hup _ _ Hu) as (_ & ? & ? & _).
      destruct E3 as [-> | ->]; [done|by apply map_Forall_insert_2].
  - split_and!; simpl; [done|by apply map_Forall_delete| |done].
    intros id' Hid. eapply upload_ids_mono; [done|lia| |done].
    intros ? [_ ?]%lookup_delete_is_Some. done.
Qed.

Lemma empty_blobs_wf : wf_blobs empty_blobs.
Proof.
  split_and!; simpl; try done; try apply map_Forall_empty.
  intros id [u Hu]. by rewrite lookup_empty in Hu.
Qed.

(** Whatever sequence of uploads, writes, commits and aborts ran from the
    empty store, every upload is within the declared and configured size and
    its replay record is its last chunk, upload identifiers are the ones
    handed out, and every blob is stored under the digest of its bytes. *)
Theorem blob_store_invariant (ops : list operation) :
  wf_blobs (fold_left (λ s o, run_operation o s) ops empty_blobs).
Proof.
  pose proof empty_blobs_wf as Hwf. revert Hwf. generalize empty_blobs as s. induction ops as [|o ops IH]; intros s Hwf; [done|].
  apply IH. by apply run_operation_wf.
Qed.

(** Writing the chunks of an open upload one after the other appends their
    concatenation. *)
Lemma write_chunks_ok id chunks : ∀ u s,
  uploads s !! id = Some u →
  (len (upload_bytes u ++ concat chunks) ≤ max_blob_bytes)%N →
  (len (upload_bytes u ++ concat chunks) ≤ u64_max)%N →
  (∀ size, expected_size u = Some size → len (upload_bytes u ++ concat chunks) ≤ size)%N →
  ∃ s' u', write_chunks id (len (upload_bytes u)) chunks s =
      (Ok (len (upload_bytes u ++ concat chunks)), s') ∧
    uploads s' !! id = Some u' ∧ upload_bytes u' = upload_bytes u ++ concat chunks ∧
    upload_media_type u' = upload_media_type u ∧ expected_size u' = expected_size u ∧
    blobs s' = blobs s.
Proof.
  induction chunks as [|b chunks IH]; intros u s Hu Hmax Hu64 Hexp.
  { exists s, u. simpl. rewrite app_nil_r. split_and!; done. }
  cbn [write_chunks concat] in *.
  set (u1 := mkMemoryUpload (upload_media_type u) (expected_size u) (upload_bytes u ++ b)
               (Some (len (upload_bytes u), b))).
  set (s1 := mkMemoryBlobs (next_upload s) (<[id := u1]> (uploads s)) (blobs s)).
  assert (write id (len (upload_bytes u)) b s = (Ok (len (upload_bytes u1)), s1)) as ->.
  { subst u1 s1. rewrite !len_app in Hmax, Hu64. unfold write. rewrite Hu, u64_of_len_ok by lia.
    rewrite N.eqb_refl. cbn [negb]. rewrite u64_of_len_ok by lia. unfold checked_add_u64.
    rewrite (proj2 (N.leb_le _ _)) by lia. rewrite (proj2 (N.ltb_ge _ _)) by lia.
    assert (is_some_and (expected_size u) (λ size, size <? len (upload_bytes u) + len b)%N = false)
      as ->. { destruct (expected_size u) as [size|]; simpl; [|done].
               apply N.ltb_ge. specialize (Hexp _ eq_refl). rewrite !len_app in Hexp. lia. }
    simpl. by rewrite len_app. }
  destruct (IH u1 s1) as (s' & u' & E & Hl & Hb & Hm & He & Hbl); subst s1 u1; cbn in *.
  { by simplify_map_eq. }
  1,2: by rewrite <- app_assoc. { intros size Hs. rewrite <- app_assoc. by apply Hexp. }
  exists s', u'. rewrite app_assoc. split_and!; [done|done|done|done|done|done].
Qed.

Lemma hex_byte_valid b :
  str_forall (λ c, is_ascii_digit c || is_hex_letter c) (hex_byte b) = true.
Proof. destruct b; vm_compute; reflexivity. Qed.

Lemma str_forall_app p a b : str_forall p (a +:+ b) = str_forall p a && str_forall p b.
Proof.
  induction a as [|c a IH]; autorewrite with pluribus_simpl; simpl; [done|].
  by rewrite IH, andb_assoc.
Qed.

Lemma hex_fold_valid l acc :
  str_forall (λ c, is_ascii_digit c || is_hex_letter c) acc = true →
  let out := fold_left (λ output byte, output +:+ hex_byte byte) l acc in
  str_forall (λ c, is_ascii_digit c || is_hex_letter c) out = true ∧
  String.length out = String.length acc + 2 * length l.
Proof.
  revert acc. induction l as [|b l IH]; intros acc Hacc; simpl; [split; [done|lia]|].
  destruct (IH (acc +:+ hex_byte b)) as [H1 H2].
  { by rewrite str_forall_app, Hacc, hex_byte_valid. }
  split; [done|]. rewrite H2, length_append. simpl. lia.
Qed.

Section digest.
Context (Hsha : ∀ b, length (sha256 b) = 32).

Lemma finished_ref_valid b size mt :
  validate_media_type mt = Ok tt →
  validate_blob_ref (mkBlobRef SHA256_ALGORITHM (sha256_hex b) size mt) = Ok tt.
Proof using Hsha.
  intros Hmt. unfold validate_blob_ref. cbn [algorithm digest media_type].
  rewrite String.eqb_refl. cbn [negb]. unfold sha256_hex.
  destruct (hex_fold_valid (sha256 b) "" eq_refl) as [H1 H2].
  rewrite H1. unfold str_len. rewrite H2, Hsha. done.
Qed.

(** Round trip of an upload: a valid media type and content within the
    limits, sent in any chunks, is committed, and reading the returned
    reference at any offset gives exactly that range of the content, with
    [eof] set exactly when the range reaches its end. *)
Theorem put_read_roundtrip (s : MemoryBlobs) (mt : string) (expected : option N)
    (chunks : list bytes) (offset max_bytes : N)
    (Hmt : validate_media_type mt = Ok tt)
    (Hsize : (len (concat chunks) ≤ N.min max_blob_bytes u64_max)%N)
    (Hexpected : expected = None ∨ expected = Some (len (concat chunks)))
    (Hid : (next_upload s < u64_max)%N)
    (Hcollision : ∀ b, blobs s !! sha256_hex (concat chunks) = Some b → b = concat chunks)
    (Hoffset : (offset ≤ len (concat chunks))%N) :
  ∃ id s1 s2 ref s3,
    begin_put mt expected s = (Ok id, s1) ∧
    write_chunks id 0 chunks s1 = (Ok (len (concat chunks)), s2) ∧
    finish_put id s2 = (Ok ref, s3) ∧
    read ref offset max_bytes s3 =
      Ok (mkBlobChunk
            (take (N.to_nat max_bytes) (drop (N.to_nat offset) (concat chunks)))
            (len (concat chunks) <=? offset + max_bytes)%N).
Proof using Hsha.
  set (content := concat chunks) in *.
  set (id := upload_id (next_upload s + 1)).
  set (u := mkMemoryUpload mt expected [] None).
  set (s1 := mkMemoryBlobs (next_upload s + 1) (<[id := u]> (uploads s)) (blobs s)).
  assert (begin_put mt expected s = (Ok id, s1)) as Hbegin.
  { unfold begin_put. rewrite Hmt.
    assert (is_some_and expected (λ size, max_blob_bytes <? size)%N = false) as ->.
    { destruct Hexpected as [-> | ->]; simpl; [done|]. apply N.ltb_ge. lia. }
    unfold checked_add_u64. by rewrite (proj2 (N.leb_le _ _)) by lia. }
  destruct (write_chunks_ok id chunks u s1) as (s2 & u2 & Hw & Hl & Hb & Hm & He & Hbl).
  { subst s1. simpl. by simplify_map_eq. }
  1,2: simpl; fold content; lia. { simpl. fold content. intros size Hs. destruct Hexpected as [-> | ->]; simplify_eq; lia. }
  simpl in Hb, Hw. fold content in Hb, Hw.
  eexists id, s1, s2, _, _. split; [done|]. split; [done|]. unfold finish_put.
  rewrite Hl, Hb, u64_of_len_ok by lia. rewrite Hm, He, Hbl. cbn [upload_media_type expected_size u].
  assert (is_some_and expected (λ e, negb (e =? len content)%N) = false) as ->.
  { destruct Hexpected as [-> | ->]; simpl; [done|]. by rewrite N.eqb_refl. }
  split; [done|]. unfold read. rewrite finished_ref_valid by done.
  cbn [result_bind digest blobs].
  assert ((match blobs s1 !! sha256_hex content with
           | Some _ => blobs s1
           | None => <[sha256_hex content := content]> (blobs s1)
           end) !! sha256_hex content = Some content) as ->.
  { subst s1. simpl. destruct (blobs s !! sha256_hex content) as [b|] eqn:E;
      [by rewrite E, (Hcollision b) | by simplify_map_eq]. }
  cbn [ok_or result_bind]. rewrite u64_of_len_ok by lia. cbn [ok_or result_bind blob_size].
  rewrite N.eqb_refl, String.eqb_refl. cbn [negb orb].
  rewrite (proj2 (N.ltb_ge _ _)) by lia. unfold saturating_add_u64, slice. f_equal. f_equal.
  - destruct (N.le_gt_cases (offset + max_bytes) (len content)) as [Hle|Hgt].
    + do 2 f_equal. lia.
    + rewrite !take_ge; [done|..]; rewrite length_drop; unfold len in *; lia.
  - apply eq_iff_eq_true. rewrite N.eqb_eq, N.leb_le. lia.
Qed.
End digest.
End store.

Definition zero_digest (b : bytes) : bytes := replicate 32 Byte.x00.

Lemma put_read_roundtrip_witness :
  ∃ id s1 s2 ref s3,
    begin_put 16 "text/plain" (Some 3%N) empty_blobs = (Ok id, s1) ∧
    write_chunks 16 id 0 [[Byte.x61]; [Byte.x62; Byte.x63]] s1 = (Ok 3%N, s2) ∧
    finish_put zero_digest id s2 = (Ok ref, s3) ∧
    read zero_digest ref 1 1 s3 = Ok (mkBlobChunk [Byte.x62] false).
Proof.
  apply (put_read_roundtrip zero_digest 16 (λ _, eq_refl) empty_blobs "text/plain" (Some 3%N)
           [[Byte.x61]; [Byte.x62; Byte.x63]] 1 1).
  - reflexivity.
  - vm_compute. discriminate.
  - right. reflexivity.
  - vm_compute. reflexivity.
  - intros b Hb. vm_compute in Hb. discriminate Hb.
  - vm_compute. discriminate.
Defined.
