(* ===== verification/FileBlob.v ===== *)
(** The durable blob store: [pluribus-store-fs/src/lib.rs].

    The disk is the part of the state that survives: object files by digest.
    A temporary file has its bytes and its position.  Every system call may
    fail, as [fs_error] decides from the number of calls made, and a failing
    write may have written part of its bytes.  Locks are not modelled: each
    operation runs to its end, as the code makes an admitted write do. *)
From stdpp Require Import base tactics countable option list strings gmap.
From Stdlib Require Import ZArith NArith Lia Ascii.
From S2P Require Import Prelude Event Blob.

(** The operating system: which call fails, and how much of a failing write
    reached the file. *)
Class FileSystem : Type := {
  fs_error : nat → option string;
  fs_partial : nat → N;
}.

(** No call fails. *)
Definition no_fs_errors `{FileSystem} : Prop := ∀ n, fs_error n = None.

Record PreviousWrite : Type := mkPreviousWrite {
  pw_offset : N;
  pw_length : N;
  pw_digest : bytes;
}.

Record FileUpload : Type := mkFileUpload {
  fu_content : bytes;
  fu_position : N;
  fu_media_type : string;
  fu_expected_size : option N;
  fu_size : N;
  fu_previous_write : option PreviousWrite;
}.

Record FileBlobStore : Type := mkFileBlobStore {
  fb_next_upload : N;
  fb_uploads : gmap string FileUpload;
  fb_objects : gmap string bytes;
  fb_verified : gset BlobRef;
  fb_calls : nat;
}.

#[export] Instance previous_write_eq_dec : EqDecision PreviousWrite.
Proof. solve_decision. Defined.

(** ** Files *)

(** [set_len]. *)
Definition truncate (size : N) (content : bytes) : bytes :=
  take (N.to_nat size) (content ++ replicate (N.to_nat size - length content) Byte.x00).

(** Bytes written at a position; a gap reads as zeros. *)
Definition write_at (position : N) (b content : bytes) : bytes :=
  truncate position content ++ b ++ drop (N.to_nat position + length b) content.

Section store.
Context (sha256 : bytes → bytes) (max_blob_bytes : N) {FS : FileSystem}.

(** A system call: its error, or nothing. *)
Definition syscall (s : FileBlobStore) : result unit BlobError * FileBlobStore :=
  (match fs_error (fb_calls s) with
   | Some message => Err (BlobStorage message)
   | None => Ok tt
   end,
   mkFileBlobStore (fb_next_upload s) (fb_uploads s) (fb_objects s) (fb_verified s)
     (S (fb_calls s))).

Definition FM (A : Type) : Type := FileBlobStore → result A BlobError * FileBlobStore.
Definition fm_ret {A} (a : A) : FM A := λ s, (Ok a, s).
Definition fm_fail {A} (e : BlobError) : FM A := λ s, (Err e, s).
Definition fm_bind {A B} (m : FM A) (k : A → FM B) : FM B := λ s,
  match m s with
  | (Ok a, s') => k a s'
  | (Err e, s') => (Err e, s')
  end.
Notation "'let^' x := m 'in' k" := (fm_bind m (fun x => k))
  (at level 10, x pattern, m at level 100, k at level 200).
Notation "'do^' m ; k" := (fm_bind m (fun _ => k))
  (at level 10, m at level 100, k at level 200).

Definition set_fb_uploads (f : gmap string FileUpload → gmap string FileUpload)
    (s : FileBlobStore) : FileBlobStore :=
  mkFileBlobStore (fb_next_upload s) (f (fb_uploads s)) (fb_objects s) (fb_verified s) (fb_calls s).

(** [FileBlobStore::open]: the objects on the disk stay, the uploads and the
    cache of verified references start empty. *)
Definition open (disk : gmap string bytes) (calls : nat) : result unit BlobError * FileBlobStore :=
  (do^ syscall; do^ syscall; syscall) (mkFileBlobStore 0 ∅ disk ∅ calls).

Definition file_upload_id (n : N) : string := "file-upload-" +:+ u64_to_string n.

(** [BlobStore::begin_put]. *)
Definition file_begin_put (media_type : string) (expected : option N) : FM string := λ s,
  match validate_media_type media_type with
  | Err e => (Err e, s)
  | Ok _ =>
      if is_some_and expected (λ size, max_blob_bytes <? size)%N
      then (Err (BlobResourceExhausted "expected size exceeds blob limit"), s)
      else
        (do^ syscall;
         λ s, match checked_add_u64 (fb_next_upload s) 1 with
              | None => (Err (BlobStorage "upload identifier exhausted"), s)
              | Some next =>
                  let id := file_upload_id next in
                  (Ok id,
                   mkFileBlobStore next
                     (<[id := mkFileUpload [] 0 media_type expected 0 None]> (fb_uploads s))
                     (fb_objects s) (fb_verified s) (fb_calls s))
              end) s
  end.

(** The state of the temporary file while it is written. *)
Definition put_upload (id : string) (u : FileUpload) : FM unit := λ s,
  (Ok tt, set_fb_uploads <[id := u]> s).
Definition set_file (content : bytes) (position : N) (u : FileUpload) : FileUpload :=
  mkFileUpload content position (fu_media_type u) (fu_expected_size u) (fu_size u)
    (fu_previous_write u).

(** [write_all] then [flush], on the file of the upload: whether they
    succeeded, with the file as they left it. *)
Definition write_file (u : FileUpload) (b : bytes) (s : FileBlobStore)
    : result unit BlobError * FileUpload * FileBlobStore :=
  let '(r, s1) := syscall s in
  match r with
  | Err e =>
      let part := take (N.to_nat (fs_partial (fb_calls s))) b in
      (Err e, set_file (write_at (fu_position u) part (fu_content u))
                (fu_position u + len part) u, s1)
  | Ok _ =>
      let u1 := set_file (write_at (fu_position u) b (fu_content u)) (fu_position u + len b) u in
      let '(r, s2) := syscall s1 in (r, u1, s2)
  end.

(** [FileUpload::write]. *)
Definition upload_write (id : string) (u : FileUpload) (offset : N) (b : bytes) : FM N := λ s,
  let dig := sha256 b in
  if negb (offset =? fu_size u)%N then
    if is_some_and (fu_previous_write u) (λ previous,
         (pw_offset previous =? offset)%N && (pw_length previous =? len b)%N
         && bool_decide (pw_digest previous = dig))
    then (Ok (fu_size u), s)
    else (Err (BlobConflict (fu_size u) offset), s)
  else match u64_of_len b with
  | None => (Err (BlobStorage "out of range integral type conversion attempted"), s)
  | Some length =>
      match checked_add_u64 (fu_size u) length with
      | None => (Err (BlobResourceExhausted "blob size exceeds u64"), s)
      | Some next =>
          if (max_blob_bytes <? next)%N
             || is_some_and (fu_expected_size u) (λ size, size <? next)%N
          then (Err (BlobResourceExhausted "write exceeds declared or configured blob size"), s)
          else
            let '(r, u1, s1) := write_file u b s in
            match r with
            | Err e =>
                (do^ put_upload id u1;
                 do^ syscall;
                 let u2 := set_file (truncate (fu_size u) (fu_content u1)) (fu_position u1) u1 in
                 do^ put_upload id u2;
                 do^ syscall;
                 do^ put_upload id (set_file (fu_content u2) (fu_size u) u2);
                 fm_fail e) s1
            | Ok _ =>
                (do^ put_upload id
                       (mkFileUpload (fu_content u1) (fu_position u1) (fu_media_type u1)
                          (fu_expected_size u1) next
                          (Some (mkPreviousWrite offset (len b) dig)));
                 fm_ret next) s1
            end
      end
  end.

(** [BlobStore::write]. *)
Definition file_write (id : string) (offset : N) (b : bytes) : FM N := λ s,
  match fb_uploads s !! id with
  | None => (Err BlobNotFound, s)
  | Some u => upload_write id u offset b s
  end.

(** [hash_file]: the reads are one call. *)
Definition hash_file (content : bytes) : FM string :=
  do^ syscall;
  do^ syscall;
  fm_ret (sha256_hex sha256 content).

Definition add_verified (blob : BlobRef) : FM unit := λ s,
  (Ok tt, mkFileBlobStore (fb_next_upload s) (fb_uploads s) (fb_objects s)
            ({[blob]} ∪ fb_verified s) (fb_calls s)).

(** [verify_file]. *)
Definition verify_file (blob : BlobRef) : FM unit := λ s,
  if bool_decide (blob ∈ fb_verified s) then (Ok tt, s)
  else match fb_objects s !! digest blob with
  | None => (Err BlobNotFound, s)
  | Some content =>
      (do^ syscall;
       do^ syscall;
       let^ matches_ :=
         (if negb (len content =? blob_size blob)%N then fm_ret false
          else let^ hash := hash_file content in fm_ret (String.eqb hash (digest blob))) in
       if negb matches_ then fm_fail (BlobCorrupt "reference does not match stored bytes")
       else add_verified blob) s
  end.

(** [persist_noclobber]: whether the file was published, or was there. *)
Definition persist_noclobber (dig : string) (content : bytes) : FM bool := λ s,
  match syscall s with
  | (Err e, s1) => (Err e, s1)
  | (Ok _, s1) =>
      match fb_objects s1 !! dig with
      | Some _ => (Ok false, s1)
      | None => (Ok true, mkFileBlobStore (fb_next_upload s1) (fb_uploads s1)
                            (<[dig := content]> (fb_objects s1)) (fb_verified s1) (fb_calls s1))
      end
  end.

(** [BlobStore::finish_put]. *)
Definition file_finish_put (id : string) : FM BlobRef := λ s,
  match fb_uploads s !! id with
  | None => (Err BlobNotFound, s)
  | Some u =>
      let s := set_fb_uploads (delete id) s in
      if is_some_and (fu_expected_size u) (λ expected, negb (expected =? fu_size u)%N)
      then (Err (BlobInvalid ("expected "
              +:+ u64_to_string (default 0%N (fu_expected_size u))
              +:+ " bytes, received " +:+ u64_to_string (fu_size u))), s)
      else
        (do^ syscall;
         do^ syscall;
         let^ dig := hash_file (fu_content u) in
         let blob := mkBlobRef SHA256_ALGORITHM dig (fu_size u) (fu_media_type u) in
         do^ syscall;
         do^ syscall;
         do^ syscall;
         let^ published := persist_noclobber dig (fu_content u) in
         do^ (if published then fm_ret tt else verify_file blob);
         do^ add_verified blob;
         fm_ret blob) s
  end.

(** [BlobStore::abort_put]: the temporary file is dropped. *)
Definition file_abort_put (id : string) : FM unit := λ s,
  (Ok tt, set_fb_uploads (delete id) s).

(** [BlobStore::read]. *)
Definition file_read (blob : BlobRef) (offset max_bytes : N) : FM BlobChunk := λ s,
  match validate_blob_ref blob with
  | Err e => (Err e, s)
  | Ok _ =>
      if (blob_size blob <? offset)%N then (Err (BlobInvalid "offset exceeds blob size"), s)
      else
        (do^ verify_file blob;
         λ s, match fb_objects s !! digest blob with
              | None => (Err (BlobStorage "No such file or directory (os error 2)"), s)
              | Some content =>
                  (do^ syscall;
                   do^ syscall;
                   do^ syscall;
                   let limit := N.min max_bytes (blob_size blob - offset) in
                   let b := slice content offset (offset + limit) in
                   fm_ret (mkBlobChunk b (offset + len b =? blob_size blob)%N)) s
              end) s
  end.
End store.
