(* ===== verification/FileBlobSpec.v ===== *)
(** What the durable blob store promises: it answers as the in-memory store
    when no system call fails, its objects are named by their content and are
    kept whatever fails, and what one failed write leaves behind. *)
From stdpp Require Import base tactics countable option list strings gmap.
From Stdlib Require Import ZArith NArith Lia Ascii.
From S2P Require Import Prelude Event Blob FileBlob.

(** A client's request; an upload is named by the number it was given. *)
Inductive blob_request : Type :=
| RBegin (media_type : string) (expected : option N)
| RWrite (k : N) (offset : N) (b : bytes)
| RFinish (k : N)
| RAbort (k : N)
| RRead (blob : BlobRef) (offset max_bytes : N)
| RReopen.

Inductive blob_answer : Type :=
| ABegin (r : result string BlobError)
| AWrite (r : result N BlobError)
| AFinish (r : result BlobRef BlobError)
| ADone (r : result unit BlobError)
| ARead (r : result BlobChunk BlobError).

Section spec.
Context (sha256 : bytes → bytes) (max_blob_bytes : N).

(** The abstract store: the in-memory one, whose blobs survive a restart. *)
Definition memory_step (q : blob_request) (m : MemoryBlobs) : blob_answer * MemoryBlobs :=
  match q with
  | RBegin mt expected => let '(r, m') := begin_put max_blob_bytes mt expected m in (ABegin r, m')
  | RWrite k offset b =>
      let '(r, m') := write max_blob_bytes (upload_id k) offset b m in (AWrite r, m')
  | RFinish k => let '(r, m') := finish_put sha256 (upload_id k) m in (AFinish r, m')
  | RAbort k => let '(r, m') := abort_put (upload_id k) m in (ADone r, m')
  | RRead blob offset max_bytes => (ARead (read sha256 blob offset max_bytes m), m)
  | RReopen => (ADone (Ok tt), mkMemoryBlobs 0 ∅ (blobs m))
  end.

Definition file_step `{FileSystem} (q : blob_request) (s : FileBlobStore)
    : blob_answer * FileBlobStore :=
  match q with
  | RBegin mt expected =>
      let '(r, s') := file_begin_put max_blob_bytes mt expected s in (ABegin r, s')
  | RWrite k offset b =>
      let '(r, s') := file_write sha256 max_blob_bytes (file_upload_id k) offset b s in (AWrite r, s')
  | RFinish k => let '(r, s') := file_finish_put sha256 (file_upload_id k) s in (AFinish r, s')
  | RAbort k => let '(r, s') := file_abort_put (file_upload_id k) s in (ADone r, s')
  | RRead blob offset max_bytes =>
      let '(r, s') := file_read sha256 blob offset max_bytes s in (ARead r, s')
  | RReopen => let '(r, s') := open (fb_objects s) (fb_calls s) in (ADone r, s')
  end.

Fixpoint memory_run (qs : list blob_request) (m : MemoryBlobs) : list blob_answer :=
  match qs with
  | [] => []
  | q :: qs => let '(a, m') := memory_step q m in a :: memory_run qs m'
  end.
Fixpoint file_run `{FileSystem} (qs : list blob_request) (s : FileBlobStore)
    : list blob_answer * FileBlobStore :=
  match qs with
  | [] => ([], s)
  | q :: qs =>
      let '(a, s') := file_step q s in
      let '(rest, s'') := file_run qs s' in (a :: rest, s'')
  end.

(** ** The refinement relation *)

Record upload_match (m : MemoryUpload) (f : FileUpload) : Prop := {
  um_content : fu_content f = upload_bytes m;
  um_position : fu_position f = len (upload_bytes m);
  um_size : fu_size f = len (upload_bytes m);
  um_media_type : fu_media_type f = upload_media_type m;
  um_expected : fu_expected_size f = expected_size m;
  um_previous : option_Forall2 (λ (p : N * bytes) w,
      pw_offset w = p.1 ∧ pw_length w = len p.2 ∧ pw_digest w = sha256 p.2)
    (previous_write m) (fu_previous_write f);
}.

(** Every cached reference names an object of its size. *)
Definition verified_ok (s : FileBlobStore) : Prop :=
  ∀ blob, blob ∈ fb_verified s →
    ∃ c, fb_objects s !! digest blob = Some c ∧ len c = blob_size blob.

Record refines (m : MemoryBlobs) (s : FileBlobStore) : Prop := {
  rf_wf : wf_blobs sha256 max_blob_bytes m;
  rf_next : fb_next_upload s = next_upload m;
  rf_uploads : ∀ k, option_Forall2 upload_match
    (uploads m !! upload_id k) (fb_uploads s !! file_upload_id k);
  rf_objects : fb_objects s = blobs m;
  rf_verified : verified_ok s;
}.

(** What the file store answers to a read past the end of the reference. *)
Definition past_end : BlobError := BlobInvalid "offset exceeds blob size".

(** Equal answers, errors included, with two exceptions: an upload's name
    carries the store's own prefix; and the file store refuses a read past the
    end of a valid reference before it looks for the object, where the
    in-memory store says first that there is none or that it is another. *)
Definition answers_match (q : blob_request) (a b : blob_answer) : Prop :=
  match q, a, b with
  | RBegin _ _, ABegin (Ok i), ABegin (Ok j) => ∃ k, i = upload_id k ∧ j = file_upload_id k
  | RRead blob offset _, ARead (Err e), ARead (Err e') =>
      if match validate_blob_ref blob with Ok _ => (blob_size blob <? offset)%N | Err _ => false end
      then e' = past_end ∧
           e ∈ [BlobNotFound; BlobCorrupt "reference does not match stored bytes"; past_end]
      else e' = e
  | _, _, _ => a = b
  end.

(** The values of the code's machine types. *)
Definition request_typed (q : blob_request) : Prop :=
  match q with
  | RWrite _ _ b => (len b ≤ u64_max)%N
  | RRead _ _ max_bytes => (max_bytes ≤ u64_max)%N
  | _ => True
  end.

(** The request compares no two contents that collide. *)
Definition collision_free (q : blob_request) (m : MemoryBlobs) : Prop :=
  match q with
  | RWrite k _ b => ∀ u o previous, uploads m !! upload_id k = Some u →
      previous_write u = Some (o, previous) → sha256 previous = sha256 b → previous = b
  | RFinish k => ∀ u c, uploads m !! upload_id k = Some u →
      blobs m !! sha256_hex sha256 (upload_bytes u) = Some c → c = upload_bytes u
  | _ => True
  end.
Fixpoint run_collision_free (qs : list blob_request) (m : MemoryBlobs) : Prop :=
  match qs with
  | [] => True
  | q :: qs => collision_free q m ∧ run_collision_free qs (snd (memory_step q m))
  end.
End spec.

(** ** Lemmas *)

Lemma upload_names k j : file_upload_id k = file_upload_id j ↔ upload_id k = upload_id j.
Proof.
  unfold file_upload_id, upload_id. split; intros H%append_inj_l; by rewrite H.
Qed.

Lemma truncate_exact size (c : bytes) : len c = size → truncate size c = c.
Proof.
  intros <-. unfold truncate, len. rewrite Nat2N.id, Nat.sub_diag. simpl.
  rewrite app_nil_r. by apply firstn_all.
Qed.

(** Writing at the end of a file appends; cutting it back undoes it. *)
Lemma write_at_end position (b c : bytes) : len c = position → write_at position b c = c ++ b.
Proof.
  intros Hl. unfold write_at. rewrite truncate_exact by done.
  rewrite drop_ge; [by rewrite app_nil_r|]. unfold len in Hl. lia.
Qed.
Lemma truncate_app size (c b : bytes) : len c = size → truncate size (c ++ b) = c.
Proof.
  intros <-. unfold truncate, len. rewrite Nat2N.id, <- app_assoc. by apply take_app_length.
Qed.

Lemma fm_bind_ok {A B} (m : FM A) (k : A → FM B) s a s' :
  m s = (Ok a, s') → fm_bind m k s = k a s'.
Proof. unfold fm_bind. by intros ->. Qed.
Lemma fm_bind_err {A B} (m : FM A) (k : A → FM B) s e s' :
  m s = (Err e, s') → fm_bind m k s = (Err e, s').
Proof. unfold fm_bind. by intros ->. Qed.

Section noerrors.
Context (sha256 : bytes → bytes) (max_blob_bytes : N) `{FS : FileSystem}.
Context (Hok : no_fs_errors).

Definition calls_on (n : nat) (s : FileBlobStore) : FileBlobStore :=
  mkFileBlobStore (fb_next_upload s) (fb_uploads s) (fb_objects s) (fb_verified s) (fb_calls s + n).

Lemma syscall_ok s : syscall s = (Ok tt, calls_on 1 s).
Proof using Hok.
  unfold syscall, calls_on. rewrite (Hok (fb_calls s)). do 2 f_equal. lia.
Qed.

Lemma syscall_then {A} (k : FM A) s : fm_bind syscall (λ _, k) s = k (calls_on 1 s).
Proof using Hok. unfold fm_bind. by rewrite syscall_ok. Qed.

Lemma read_ranges (c : bytes) offset max_bytes :
  (offset ≤ len c)%N → (len c ≤ u64_max)%N →
  mkBlobChunk (slice c offset (N.min (saturating_add_u64 offset max_bytes) (len c)))
    (N.min (saturating_add_u64 offset max_bytes) (len c) =? len c)%N =
  mkBlobChunk (slice c offset (offset + N.min max_bytes (len c - offset)))
    (offset + len (slice c offset (offset + N.min max_bytes (len c - offset))) =? len c)%N.
Proof.
  intros Ho Hc. unfold saturating_add_u64.
  assert (N.min (N.min (offset + max_bytes) u64_max) (len c)
          = (offset + N.min max_bytes (len c - offset))%N) as -> by lia.
  f_equal. f_equal. unfold slice, len in *. rewrite length_take, length_drop. lia.
Qed.

#[local] Abbreviation refines := (refines sha256 max_blob_bytes).

Lemma refines_calls m s n : refines m s → refines m (calls_on n s).
Proof. intros []. by split. Qed.

(** An update of one upload on both sides. *)
Lemma refines_uploads m s k m' s' (mu : option MemoryUpload) (fu : option FileUpload) :
  refines m s → wf_blobs sha256 max_blob_bytes m' →
  fb_next_upload s' = next_upload m' → fb_objects s' = blobs m' → verified_ok s' →
  uploads m' = partial_alter (λ _, mu) (upload_id k) (uploads m) →
  fb_uploads s' = partial_alter (λ _, fu) (file_upload_id k) (fb_uploads s) →
  option_Forall2 (upload_match sha256) mu fu →
  refines m' s'.
Proof.
  intros R Hwf Hn Ho Hv Hm Hs Hu. split; try done. intros j. rewrite Hm, Hs.
  destruct (decide (upload_id k = upload_id j)) as [E|E].
  - pose proof (proj2 (upload_names k j) E) as E'. rewrite <- E, <- E'.
    by rewrite !lookup_partial_alter_eq.
  - rewrite !lookup_partial_alter_ne; [apply (rf_uploads _ _ _ _ R)|..];
      by rewrite ?upload_names.
Qed.

Lemma memory_step_wf q m :
  wf_blobs sha256 max_blob_bytes m →
  wf_blobs sha256 max_blob_bytes (snd (memory_step sha256 max_blob_bytes q m)).
Proof.
  intros Hwf. pose proof (λ o, run_operation_wf sha256 max_blob_bytes o m Hwf) as Hop.
  destruct q; simpl.
  - specialize (Hop (OpBegin media_type expected)). simpl in Hop. by destruct begin_put.
  - specialize (Hop (OpWrite (upload_id k) offset b)). simpl in Hop. by destruct write.
  - specialize (Hop (OpFinish (upload_id k))). simpl in Hop. by destruct finish_put.
  - apply (Hop (OpAbort (upload_id k))).
  - done.
  - destruct Hwf as (H1 & H2 & H3 & H4). split_and!; simpl; [lia|apply map_Forall_empty| |done].
    intros id [u Hu]. by rewrite lookup_empty in Hu.
Qed.

Definition step_refines (q : blob_request) (m : MemoryBlobs) (s : FileBlobStore) : Prop :=
  answers_match q (fst (memory_step sha256 max_blob_bytes q m))
                (fst (file_step sha256 max_blob_bytes q s)) ∧
  refines (snd (memory_step sha256 max_blob_bytes q m))
          (snd (file_step sha256 max_blob_bytes q s)).

Lemma begin_refines mt expected m s : refines m s → step_refines (RBegin mt expected) m s.
Proof using Hok.
  intros R. pose proof (memory_step_wf (RBegin mt expected) m (rf_wf _ _ _ _ R)) as Hwf.
  unfold step_refines. revert Hwf. simpl. unfold begin_put, file_begin_put.
  destruct (validate_media_type mt) as [[]|e]; [|by split].
  destruct (is_some_and _ _); [by split|]. rewrite syscall_then.
  simpl. rewrite (rf_next _ _ _ _ R).
  destruct (checked_add_u64 _ _) as [next|] eqn:En; [|split; [done|by apply refines_calls]].
  intros Hwf. split; [by exists next|]. simpl in *.
  eapply (refines_uploads m s next); [done|done|done|apply (rf_objects _ _ _ _ R)
    |apply (rf_verified _ _ _ _ R)|done..|]. constructor. split; try done. constructor.
Qed.

Lemma write_refines k offset b m s :
  (max_blob_bytes ≤ u64_max)%N →
  refines m s → request_typed (RWrite k offset b) → collision_free sha256 (RWrite k offset b) m →
  step_refines (RWrite k offset b) m s.
Proof using Hok.
  intros Hmax R Ht Hc. pose proof (memory_step_wf (RWrite k offset b) m (rf_wf _ _ _ _ R)) as Hwf.
  unfold step_refines. revert Hwf. simpl in *. unfold write, file_write.
  pose proof (rf_uploads _ _ _ _ R k) as Hu. inversion Hu as [u f Hm E1 E2|E1 E2]; [|by split].
  symmetry in E1, E2. pose proof (rf_wf _ _ _ _ R) as (_ & Hup & _).
  pose proof (Hup _ _ E1) as (_ & _ & Hlen & _). clear Hup.
  rewrite u64_of_len_ok by done. unfold upload_write. destruct Hm as [Mc Mp Ms Mm Me Mw].
  rewrite Ms. destruct (offset =? _)%N eqn:Eo; cbn [negb].
  - apply N.eqb_eq in Eo as ->. rewrite u64_of_len_ok by done.
    destruct (checked_add_u64 _ _) as [next|] eqn:En; [|by split].
    apply checked_add_u64_spec in En as [-> Hn]. rewrite Me.
    destruct (_ || _); [by split|]. unfold write_file. rewrite !syscall_ok.
    intros Hwf. split; [done|]. simpl in Hwf.
    eapply (refines_uploads m s k); [done|done|apply (rf_next _ _ _ _ R)|apply (rf_objects _ _ _ _ R)
      |apply (rf_verified _ _ _ _ R)|done..|]. constructor.
    split; simpl; [|rewrite len_app; lia..|done|done|by constructor].
    rewrite Mc. apply write_at_end. by rewrite Mp.
  - intros _. assert (is_some_and (previous_write u)
      (λ '(po, p), (po =? offset)%N && bool_decide (p = b)) =
      is_some_and (fu_previous_write f) (λ p, (pw_offset p =? offset)%N &&
        (pw_length p =? len b)%N && bool_decide (pw_digest p = sha256 b))) as ->.
    { inversion Mw as [[po p] w (W1 & W2 & W3) Ep Ew|Ep Ew]; simpl; [|done].
      rewrite W1, W2, W3. simpl. apply eq_iff_eq_true. rewrite !andb_true_iff, !N.eqb_eq, !bool_decide_eq_true.
      split; [by intros [-> ->]|intros [[-> _] E]; split; [done|]].
      by eapply (Hc u). }
    destruct (is_some_and _ _); by split.
Qed.

(** The same store, but for its cache and the calls made. *)
Definition same_content (s s' : FileBlobStore) : Prop :=
  fb_next_upload s' = fb_next_upload s ∧ fb_uploads s' = fb_uploads s ∧
  fb_objects s' = fb_objects s.

Lemma refines_same m s s' : refines m s → same_content s s' → verified_ok s' → refines m s'.
Proof.
  intros [] (E1 & E2 & E3) Hv. split; [done|congruence| |congruence|done]. by rewrite E2.
Qed.

Lemma verified_ok_add s blob c :
  verified_ok s → fb_objects s !! digest blob = Some c → len c = blob_size blob →
  verified_ok (snd (add_verified blob s)).
Proof.
  intros Hv Hc Hl b. simpl. rewrite elem_of_union, elem_of_singleton.
  intros [-> |Hb]; [by exists c|by apply Hv].
Qed.

(** Verifying a reference to an object that is named by its content is the
    comparison of the sizes. *)
Lemma verify_file_spec s blob c :
  verified_ok s → fb_objects s !! digest blob = Some c → digest blob = sha256_hex sha256 c →
  ∃ s', same_content s s' ∧ verified_ok s' ∧
    verify_file sha256 blob s =
      (if (len c =? blob_size blob)%N then Ok tt
       else Err (BlobCorrupt "reference does not match stored bytes"), s').
Proof using Hok.
  intros Hv Hc Hd. unfold verify_file. case_bool_decide as Hin.
  { exists s. split_and!; try done. destruct (Hv _ Hin) as (c' & Hc' & Hl).
    rewrite Hc in Hc'. injection Hc' as <-. by rewrite Hl, N.eqb_refl. }
  rewrite Hc, !syscall_then. destruct (_ =? _)%N eqn:El; cbn [negb].
  - apply N.eqb_eq in El. unfold hash_file. unfold fm_bind at 1 2. rewrite !syscall_then.
    unfold fm_ret. rewrite <- Hd, String.eqb_refl. eexists. split; [|split; [|done]]; [done|].
    by eapply verified_ok_add.
  - eexists. split; [|split; [|done]]; done.
Qed.

Lemma verify_file_missing s blob :
  verified_ok s → fb_objects s !! digest blob = None →
  verify_file sha256 blob s = (Err BlobNotFound, s).
Proof.
  intros Hv Hc. unfold verify_file. rewrite Hc. case_bool_decide as Hin; [|done].
  destruct (Hv _ Hin) as (c & E & _). congruence.
Qed.

Lemma hash_file_ok c s : hash_file sha256 c s = (Ok (sha256_hex sha256 c), calls_on 1 (calls_on 1 s)).
Proof using Hok. unfold hash_file. by rewrite !syscall_then. Qed.

Lemma persist_noclobber_ok d c s :
  persist_noclobber d c s =
    match fb_objects s !! d with
    | Some _ => (Ok false, calls_on 1 s)
    | None => (Ok true, mkFileBlobStore (fb_next_upload s) (fb_uploads s)
                          (<[d := c]> (fb_objects s)) (fb_verified s) (fb_calls s + 1))
    end.
Proof using Hok. unfold persist_noclobber. by rewrite syscall_ok. Qed.

(** Publishing a file under the digest of its content. *)
Lemma publish_ok d c blob s :
  verified_ok s → digest blob = sha256_hex sha256 c → blob_size blob = len c →
  d = sha256_hex sha256 c →
  (∀ c', fb_objects s !! d = Some c' → c' = c) →
  ∃ s', fm_bind (persist_noclobber d c) (λ published,
          fm_bind (if published then fm_ret tt else verify_file sha256 blob) (λ _,
          fm_bind (add_verified blob) (λ _, fm_ret blob))) s = (Ok blob, s') ∧
    fb_next_upload s' = fb_next_upload s ∧ fb_uploads s' = fb_uploads s ∧
    fb_objects s' = match fb_objects s !! d with
                    | Some _ => fb_objects s
                    | None => <[d := c]> (fb_objects s)
                    end ∧ verified_ok s'.
Proof using Hok.
  intros Hv Hd Hl -> Hc. unfold fm_bind at 1. rewrite persist_noclobber_ok.
  destruct (fb_objects s !! _) as [c'|] eqn:E.
  - rewrite <- (Hc c' eq_refl) in *. rewrite <- Hd in E.
    destruct (verify_file_spec (calls_on 1 s) blob c' Hv E Hd) as (s' & (H1 & H2 & H3) & Hv' & Hver).
    rewrite Hl, N.eqb_refl in Hver. rewrite (fm_bind_ok _ _ _ _ _ Hver).
    eexists. split; [done|]. split_and!; [done..|]. eapply verified_ok_add; [done|by rewrite H3|done].
  - eexists. split; [done|]. split_and!; [done..|].
    eapply verified_ok_add; [|by simpl; rewrite Hd; simplify_map_eq|done].
    intros b Hb. destruct (Hv b Hb) as (cb & Hcb & ?). exists cb. split; [|done]. simpl.
    rewrite lookup_insert_ne; [done|]. intros Eq. rewrite Eq in E. congruence.
Qed.

(** An upload removed on both sides. *)
Lemma refines_removed m s k m' s' :
  refines m s → wf_blobs sha256 max_blob_bytes m' →
  next_upload m' = next_upload m → uploads m' = delete (upload_id k) (uploads m) →
  fb_next_upload s' = fb_next_upload s →
  fb_uploads s' = delete (file_upload_id k) (fb_uploads s) →
  fb_objects s' = blobs m' → verified_ok s' → refines m' s'.
Proof.
  intros R W E1 E2 E3 E4 E5 V. apply (refines_uploads m s k m' s' None None); try done.
  - rewrite E1, E3. apply R.
  - constructor.
Qed.

Lemma finish_refines k m s :
  refines m s → collision_free sha256 (RFinish k) m → step_refines (RFinish k) m s.
Proof using Hok.
  intros R Hc. pose proof (memory_step_wf (RFinish k) m (rf_wf _ _ _ _ R)) as Hwf.
  unfold step_refines. revert Hwf. simpl in *. unfold finish_put, file_finish_put.
  pose proof (rf_uploads _ _ _ _ R k) as Hu. inversion Hu as [u f Hm E1 E2|E1 E2]; [|by split].
  symmetry in E1, E2. pose proof (rf_wf _ _ _ _ R) as (_ & Hup & _ & Hobj).
  pose proof (Hup _ _ E1) as (_ & _ & Hlen & _). rewrite u64_of_len_ok by done.
  destruct Hm as [Mc Mp Ms Mm Me Mw]. rewrite Me, Ms.
  destruct (is_some_and _ _).
  { intros Hwf. split; [done|]. simpl. by apply (refines_removed m s k); try apply R. }
  rewrite !syscall_then, (fm_bind_ok _ _ _ _ _ (hash_file_ok _ _)), !syscall_then.
  rewrite Mc, Mm. set (d := sha256_hex sha256 (upload_bytes u)) in *.
  match goal with |- context [fm_bind (persist_noclobber _ _) _ ?st] =>
    edestruct (publish_ok d (upload_bytes u) (mkBlobRef SHA256_ALGORITHM d (len (upload_bytes u))
      (upload_media_type u)) st) as (s' & -> & H1 & H2 & H3 & H4) end;
    [apply (rf_verified _ _ _ _ R)|done|done|done|..].
  { simpl. rewrite (rf_objects _ _ _ _ R). intros c. by apply Hc. }
  intros Hwf. split; [done|]. apply (refines_removed m s k); try done; cbn [snd].
  rewrite H3. simpl. by rewrite (rf_objects _ _ _ _ R).
Qed.

Lemma abort_refines k m s : refines m s → step_refines (RAbort k) m s.
Proof.
  intros R. split; [done|]. pose proof (memory_step_wf (RAbort k) m (rf_wf _ _ _ _ R)) as Hwf.
  simpl in *. eapply (refines_uploads m s k _ _ None None); [done|done|..]; try done.
  - apply (rf_next _ _ _ _ R).
  - apply (rf_objects _ _ _ _ R).
  - apply (rf_verified _ _ _ _ R).
  - constructor.
Qed.

Lemma reopen_refines m s : refines m s → step_refines RReopen m s.
Proof using Hok.
  intros R. unfold step_refines. simpl. unfold open. rewrite !syscall_then, syscall_ok.
  split; [done|]. split; simpl.
  - apply (memory_step_wf RReopen m (rf_wf _ _ _ _ R)).
  - done.
  - intros k. rewrite !lookup_empty. constructor.
  - apply (rf_objects _ _ _ _ R).
  - intros b Hb. set_solver.
Qed.

Lemma read_refines blob offset max_bytes m s :
  request_typed (RRead blob offset max_bytes) →
  refines m s → step_refines (RRead blob offset max_bytes) m s.
Proof using Hok.
  intros Ht R. unfold step_refines. cbn [memory_step file_step request_typed] in *. unfold read, file_read.
  destruct (validate_blob_ref blob) as [[]|e] eqn:Eval; [|by split; [cbn; rewrite ?Eval|]].
  cbn [result_bind]. pose proof (rf_verified _ _ _ _ R) as Hv.
  pose proof (rf_wf _ _ _ _ R) as (_ & _ & _ & Hobj).
  destruct (blob_size blob <? offset)%N eqn:Eo.
  { split; [|done]. cbn. rewrite ?Eval, ?Eo. destruct (blobs m !! _) as [c|] eqn:Ec; simpl; [|split; [done|set_solver]].
    destruct (Hobj _ _ Ec) as (_ & _ & Hc). rewrite u64_of_len_ok by done. simpl.
    destruct (_ || _) eqn:Eg; [split; [done|set_solver]|]. apply orb_false_iff in Eg as [Eg _].
    apply negb_false_iff, N.eqb_eq in Eg. rewrite Eg, Eo. split; [done|]. set_solver. }
  assert (∀ r r', r = r' → answers_match (RRead blob offset max_bytes) (ARead r) (ARead r')) as Hsame.
  { intros [c|e] ? <-; [done|]. cbn. by rewrite ?Eval, ?Eo. }
  apply N.ltb_ge in Eo.
  destruct (blobs m !! digest blob) as [c|] eqn:Ec.
  2: { rewrite (fm_bind_err _ _ _ _ _ (verify_file_missing s blob Hv
         (eq_trans (f_equal (lookup _) (rf_objects _ _ _ _ R)) Ec))). split; [by apply Hsame|done]. }
  destruct (Hobj _ _ Ec) as (Hd & _ & Hc). rewrite <- (rf_objects _ _ _ _ R) in Ec.
  destruct (verify_file_spec s blob c Hv Ec Hd) as (s' & Hs' & Hv' & Hver).
  pose proof (refines_same _ _ _ R Hs' Hv') as R'.
  cbn [ok_or result_bind]. rewrite u64_of_len_ok by done. cbn [ok_or result_bind].
  rewrite <- Hd, String.eqb_refl, orb_false_r.
  destruct (len c =? blob_size blob)%N eqn:El; cbn [negb];
    [|by rewrite (fm_bind_err _ _ _ _ _ Hver); split; [apply Hsame|]].
  apply N.eqb_eq in El. rewrite (proj2 (N.ltb_ge _ _)) by lia.
  rewrite (fm_bind_ok _ _ _ _ _ Hver). pose proof Hs' as (_ & _ & Ho).
  rewrite Ho, Ec, !syscall_then. split; [|by do 3 apply (refines_calls _ _ 1)].
  cbn [fst fm_ret]. apply Hsame. rewrite <- El, read_ranges by lia. done.
Qed.

Lemma step_refines_all q m s :
  (max_blob_bytes ≤ u64_max)%N → request_typed q → collision_free sha256 q m →
  refines m s → step_refines q m s.
Proof using Hok.
  intros. destruct q.
  - by apply begin_refines.
  - by apply write_refines.
  - by apply finish_refines.
  - by apply abort_refines.
  - by apply read_refines.
  - by apply reopen_refines.
Qed.
End noerrors.

(** ** The refinement *)

Section refinement.
Context (sha256 : bytes → bytes) (max_blob_bytes : N) `{FS : FileSystem}.

Lemma run_refines qs : ∀ m s,
  no_fs_errors → (max_blob_bytes ≤ u64_max)%N →
  Forall request_typed qs → run_collision_free sha256 max_blob_bytes qs m →
  refines sha256 max_blob_bytes m s →
  Forall3 answers_match qs (memory_run sha256 max_blob_bytes qs m)
                        (fst (file_run sha256 max_blob_bytes qs s)).
Proof.
  induction qs as [|q qs IH]; intros m s Hok Hmax Ht Hc R; [constructor|].
  apply Forall_cons in Ht as [Hq Ht]. destruct Hc as [Hc1 Hc].
  destruct (step_refines_all sha256 max_blob_bytes Hok q m s Hmax Hq Hc1 R) as [Ha R'].
  cbn [memory_run file_run]. destruct (memory_step _ _ q m) as [a m'] eqn:Em.
  destruct (file_step _ _ q s) as [b s'] eqn:Es. cbn [fst snd] in *.
  specialize (IH m' s' Hok Hmax Ht Hc R'). destruct (file_run _ _ qs s') as [rest s''].
  by constructor.
Qed.

(** (C14) The durable store refines the in-memory one.  When no system call
    fails and no two contents the store compares collide, a store opened on
    an empty disk answers any sequence of uploads, writes, commits, aborts,
    reads and reopenings as the in-memory store whose blobs survive a
    restart does: same sizes, conflicts, limits, references, bytes and errors,
    but for the names of uploads and for the error of a read past the end of a
    valid reference, where the file store always says that the offset exceeds
    the blob and the in-memory store may say that the blob is missing or that
    the reference does not match. *)
Theorem file_store_refines_memory (qs : list blob_request)
    (Hok : no_fs_errors) (Hmax : (max_blob_bytes ≤ u64_max)%N)
    (Htyped : Forall request_typed qs)
    (Hcollision : run_collision_free sha256 max_blob_bytes qs empty_blobs) :
  Forall3 answers_match qs (memory_run sha256 max_blob_bytes qs empty_blobs)
    (fst (file_run sha256 max_blob_bytes qs (snd (open ∅ 0)))).
Proof.
  apply run_refines; try done. unfold open. rewrite !(syscall_then Hok), (syscall_ok Hok).
  split; simpl; try done.
  - apply (empty_blobs_wf sha256 max_blob_bytes).
  - intros k. rewrite !lookup_empty. constructor.
Qed.
End refinement.

(** ** Faults *)

Section faults.
Context (sha256 : bytes → bytes) (max_blob_bytes : N) `{FS : FileSystem}.

(** From [s], [m] reaches a state with the invariant [I], keeps every object
    there is, and its result, if it has one, satisfies [Q]. *)
Definition wp {A} (I : FileBlobStore → Prop) (m : FM A) (s : FileBlobStore)
    (Q : A → FileBlobStore → Prop) : Prop :=
  I (snd (m s)) ∧ fb_objects s ⊆ fb_objects (snd (m s)) ∧
  ∀ a, fst (m s) = Ok a → Q a (snd (m s)).

Lemma fwp_ret {A} I (a : A) s (Q : A → FileBlobStore → Prop) : I s → Q a s → wp I (fm_ret a) s Q.
Proof. intros. split_and!; [done..|]. by intros ? [= <-]. Qed.

Lemma wp_fail {A} I e s (Q : A → FileBlobStore → Prop) : I s → wp I (fm_fail e) s Q.
Proof. done. Qed.

Lemma wp_eq {A} I (m m' : FM A) s (Q : A → FileBlobStore → Prop) :
  m s = m' s → wp I m' s Q → wp I m s Q.
Proof. unfold wp. by intros ->. Qed.

Lemma fwp_bind {A B} I (m : FM A) (k : A → FM B) s Q R :
  wp I m s Q →
  (∀ a s', I s' → fb_objects s ⊆ fb_objects s' → Q a s' → wp I (k a) s' R) →
  wp I (fm_bind m k) s R.
Proof.
  intros (H1 & H2 & H3) Hk. unfold wp, fm_bind.
  destruct (m s) as [[a|e] s']; simpl in *; [|split_and!; done].
  destruct (Hk a s' H1 H2 (H3 a eq_refl)) as (H4 & H5 & H6).
  split_and!; [done|by etrans|done].
Qed.

(** The invariant of the disk: every object is named by its content. *)
Definition objects_honest (s : FileBlobStore) : Prop :=
  map_Forall (λ d c, d = sha256_hex sha256 c) (fb_objects s).

(** The temporary file holds the accepted bytes, and its position is at
    their end. *)
Definition upload_ok (u : FileUpload) : Prop :=
  len (fu_content u) = fu_size u ∧ fu_position u = fu_size u.

(** The invariant of a store whose failed writes were undone. *)
Definition store_ok (s : FileBlobStore) : Prop :=
  objects_honest s ∧ verified_ok s ∧ map_Forall (λ _ u, upload_ok u) (fb_uploads s).

(** A reference that names an object of its digest and size. *)
Definition ref_honest (blob : BlobRef) (s : FileBlobStore) : Prop :=
  ∃ c, fb_objects s !! digest blob = Some c ∧ len c = blob_size blob ∧
    digest blob = sha256_hex sha256 c.

(** What holds of both invariants; [G] says whether sizes are right too. *)
Record disk_invariant (G : Prop) (I : FileBlobStore → Prop) : Prop := {
  di_honest : ∀ s, I s → objects_honest s;
  di_calls : ∀ s n, I s → I (mkFileBlobStore (fb_next_upload s) (fb_uploads s) (fb_objects s)
                              (fb_verified s) n);
  di_publish : ∀ s c, I s → fb_objects s !! sha256_hex sha256 c = None →
    I (mkFileBlobStore (fb_next_upload s) (fb_uploads s)
         (<[sha256_hex sha256 c := c]> (fb_objects s)) (fb_verified s) (fb_calls s));
  di_upload : ∀ s id u, G → I s → fb_uploads s !! id = Some u → upload_ok u;
  di_cache : ∀ s, G → I s → verified_ok s;
  di_verified : ∀ s blob, I s → (G → ref_honest blob s) → I (snd (add_verified blob s));
  di_delete : ∀ s id, I s → I (set_fb_uploads (delete id) s);
  di_fresh : ∀ s id k mt e, I s → I (mkFileBlobStore k
    (<[id := mkFileUpload [] 0 mt e 0 None]> (fb_uploads s)) (fb_objects s) (fb_verified s)
    (fb_calls s));
  di_reopen : ∀ s n, I s → I (mkFileBlobStore 0 ∅ (fb_objects s) ∅ n);
}.

Lemma honest_invariant : disk_invariant False objects_honest.
Proof.
  split; try done. intros s c Hs Hc. by apply map_Forall_insert_2.
Qed.

Lemma store_ok_invariant : disk_invariant True store_ok.
Proof.
  split.
  - by intros s (? & _).
  - done.
  - intros s c (H1 & H2 & H3) Hc. split_and!; [by apply map_Forall_insert_2| |done].
    intros b Hb. destruct (H2 b Hb) as (c' & Hc' & ?). exists c'. split; [|done]. simpl.
    rewrite lookup_insert_ne; [done|]. intros Eq. rewrite Eq in Hc. congruence.
  - intros s id u _ (_ & _ & H3) Hu. by apply (H3 id).
  - by intros s _ (_ & H2 & _).
  - intros s blob (H1 & H2 & H3) Hb. destruct (Hb Logic.I) as (c & Hc & Hl & _). split_and!; [done| |done].
    by eapply verified_ok_add.
  - intros s id (H1 & H2 & H3). split_and!; [done|done|]. by apply map_Forall_delete.
  - intros s id k mt e (H1 & H2 & H3). split_and!; [done|done|]. by apply map_Forall_insert_2.
  - intros s n (H1 & H2 & H3). split_and!; [done| |apply map_Forall_empty].
    intros b Hb. set_solver.
Qed.

Section invariant.
Context (G : Prop) (I : FileBlobStore → Prop) (HI : disk_invariant G I).

Lemma wp_syscall s : I s → wp I syscall s (λ _ _, True).
Proof using HI. intros Hs. split_and!; [|done|done]. by apply (di_calls G I HI). Qed.

Lemma wp_syscall_then {A} (k : FM A) s Q :
  I s → (∀ s', I s' → fb_objects s ⊆ fb_objects s' → wp I k s' Q) → wp I (fm_bind syscall (λ _, k)) s Q.
Proof using HI. intros Hs Hk. eapply fwp_bind; [by apply wp_syscall|]. intros _ s' H1 H2 _. by apply Hk. Qed.

Ltac wp_call :=
  lazymatch goal with
  | Hs : I ?s |- wp I _ ?s _ =>
      let s' := fresh in let Hs' := fresh in
      apply wp_syscall_then; [exact Hs|]; intros s' Hs' _; clear s Hs; rename s' into s, Hs' into Hs
  end.

Lemma wp_hash c s : I s → wp I (hash_file sha256 c) s (λ d _, d = sha256_hex sha256 c).
Proof using HI.
  intros Hs. unfold hash_file. apply wp_syscall_then; [done|intros s1 H1 _].
  apply wp_syscall_then; [done|intros s2 H2 _]. by apply fwp_ret.
Qed.

(** A verified reference names an object of its size. *)
Lemma wp_verify blob s :
  I s → wp I (verify_file sha256 blob) s (λ _ s', G → ref_honest blob s').
Proof using HI.
  intros Hs. destruct (decide (blob ∈ fb_verified s)) as [Hin|Hin].
  { apply (wp_eq I _ (fm_ret tt)).
    { unfold verify_file. by rewrite bool_decide_true. }
    apply fwp_ret; [done|]. intros HG. destruct (di_cache G I HI s HG Hs _ Hin) as (c & Hc & Hl).
    exists c. split_and!; [done..|]. by apply (di_honest G I HI s Hs). }
  destruct (fb_objects s !! digest blob) as [c|] eqn:Ec.
  2: { apply (wp_eq I _ (fm_fail BlobNotFound)); [|by apply wp_fail].
       unfold verify_file. by rewrite bool_decide_false, Ec. }
  eapply wp_eq. { unfold verify_file. rewrite bool_decide_false, Ec by done. reflexivity. }
  apply wp_syscall_then; [done|]. intros s1 H1 O1.
  apply wp_syscall_then; [done|]. intros s2 H2 O2.
  eapply (fwp_bind I _ _ _ (λ b _, b = true → len c = blob_size blob ∧ digest blob = sha256_hex sha256 c)).
  - destruct (len c =? blob_size blob)%N eqn:El; cbn [negb]; [|by apply fwp_ret].
    eapply fwp_bind; [by apply wp_hash|]. intros ? s3 H3 _ ->. apply fwp_ret; [done|].
    intros ->%String.eqb_eq. split; [by apply N.eqb_eq|done].
  - intros b s3 H3 O3 Hb. destruct b; cbn [negb]; [|by apply wp_fail].
    destruct (Hb eq_refl) as [Hl Hd].
    assert (fb_objects s3 !! digest blob = Some c) as Hc3.
    { eapply lookup_weaken; [done|]. by etrans; [|etrans]. }
    split_and!; [|done|].
    + apply (di_verified G I HI); [done|]. intros _. by exists c.
    + intros _ _ _. by exists c.
Qed.

Lemma wp_persist c s :
  I s → wp I (persist_noclobber (sha256_hex sha256 c) c) s (λ published s',
    published = true → fb_objects s' !! sha256_hex sha256 c = Some c).
Proof using HI.
  intros Hs. unfold wp, persist_noclobber. pose proof (wp_syscall s Hs) as (H1 & _ & _).
  unfold syscall in *. destruct (fs_error _); simpl in *; [done|].
  destruct (fb_objects s !! _) eqn:Ec; simpl.
  - split_and!; [done..|]. by intros ? [= <-].
  - split_and!.
    + by apply (di_publish G I HI (mkFileBlobStore _ _ _ _ _)).
    + by apply insert_subseteq.
    + intros ? _ _. by simplify_map_eq.
Qed.

Lemma wp_finish id s :
  I s → wp I (file_finish_put sha256 id) s (λ blob s', G → ref_honest blob s').
Proof using HI.
  intros Hs. destruct (fb_uploads s !! id) as [u|] eqn:Eu.
  2: { apply (wp_eq I _ (fm_fail BlobNotFound)); [|by apply wp_fail].
       unfold file_finish_put. by rewrite Eu. }
  pose proof (λ HG, di_upload G I HI s id u HG Hs Eu) as Hu.
  pose proof (di_delete G I HI s id Hs) as Hs'.
  unfold wp, file_finish_put. rewrite Eu.
  change (fb_objects s) with (fb_objects (set_fb_uploads (delete id) s)).
  revert Hs'. generalize (set_fb_uploads (delete id) s). clear s Hs Eu. intros s Hs.
  destruct (is_some_and _ _); [by split_and!|].
  match goal with |- I (?m s).2 ∧ _ => change (wp I m s (λ blob s', G → ref_honest blob s')) end.
  do 2 wp_call.
  eapply fwp_bind; [by apply wp_hash|]. intros ? s' Hs' _ ->; clear s Hs; rename s' into s, Hs' into Hs.
  do 3 wp_call.
  eapply fwp_bind; [by apply wp_persist|]. intros published s' Hs' _ Hp; clear s Hs; rename s' into s, Hs' into Hs.
  set (blob := mkBlobRef _ _ _ _). apply (fwp_bind I _ _ _ (λ _ s', G → ref_honest blob s')).
  - destruct published; [|by apply wp_verify]. apply fwp_ret; [done|]. intros HG.
    exists (fu_content u). split_and!; [by apply Hp|by apply Hu|done].
  - intros _ s' Hs' _ Hr. split_and!; [by apply (di_verified G I HI)|done|].
    intros ? [= <-] HG. by apply Hr.
Qed.

Lemma fwp_read blob offset max_bytes s :
  I s → wp I (file_read sha256 blob offset max_bytes) s (λ _ _, True).
Proof using HI.
  intros Hs. unfold wp, file_read. destruct (validate_blob_ref blob) as [?|?]; [|done].
  destruct (_ <? _)%N; [done|].
  match goal with |- I (?m s).2 ∧ _ => change (wp I m s (λ _ _, True)) end.
  eapply fwp_bind; [by apply wp_verify|]. intros _ s' Hs' _ _; clear s Hs; rename s' into s, Hs' into Hs.
  unfold wp. destruct (fb_objects s !! _); [|done].
  match goal with |- I (?m s).2 ∧ _ => change (wp I m s (λ _ _, True)) end.
  do 3 wp_call. by apply fwp_ret.
Qed.

Lemma wp_begin mt expected s :
  I s → wp I (file_begin_put max_blob_bytes mt expected) s (λ _ _, True).
Proof using HI.
  intros Hs. unfold wp, file_begin_put. destruct (validate_media_type mt); [|done].
  destruct (is_some_and _ _); [done|].
  match goal with |- I (?m s).2 ∧ _ => change (wp I m s (λ _ _, True)) end.
  wp_call. unfold wp.
  destruct (checked_add_u64 _ _); [|done]. split_and!; [|done|done]. by apply (di_fresh G I HI).
Qed.

Lemma wp_open s : I s → wp I (λ s, open (fb_objects s) (fb_calls s)) s (λ _ _, True).
Proof using HI.
  intros Hs. pose proof (di_reopen G I HI s (fb_calls s) Hs) as Hs'.
  assert (∀ t, I t → wp I (fm_bind syscall (λ _, fm_bind syscall (λ _, syscall))) t (λ _ _, True))
    as Ht; [|exact (Ht _ Hs')].
  clear s Hs Hs'. intros s Hs. do 2 wp_call. by apply wp_syscall.
Qed.

Lemma wp_step q s :
  I s →
  (∀ id offset b, wp I (file_write sha256 max_blob_bytes id offset b) s (λ _ _, True)) →
  I (snd (file_step sha256 max_blob_bytes q s)) ∧
  fb_objects s ⊆ fb_objects (snd (file_step sha256 max_blob_bytes q s)) ∧
  ∀ blob, fst (file_step sha256 max_blob_bytes q s) = AFinish (Ok blob) →
    G → ref_honest blob (snd (file_step sha256 max_blob_bytes q s)).
Proof using HI.
  intros Hs Hw. destruct q; simpl.
  - destruct (wp_begin media_type expected s Hs) as (H1 & H2 & _).
    by destruct file_begin_put; split_and!.
  - destruct (Hw (file_upload_id k) offset b) as (H1 & H2 & _). by destruct file_write; split_and!.
  - destruct (wp_finish (file_upload_id k) s Hs) as (H1 & H2 & H3).
    destruct file_finish_put; split_and!; [done..|]. intros blob [= ->]. by apply H3.
  - split_and!; [by apply (di_delete G I HI)|done|done].
  - destruct (fwp_read blob offset max_bytes s Hs) as (H1 & H2 & _). by destruct file_read; split_and!.
  - destruct (wp_open s Hs) as (H1 & H2 & _). by destruct open; split_and!.
Qed.

(** An invariant every write keeps holds along a run, and the references
    the run handed out stay honest. *)
Lemma wp_run qs : ∀ s,
  (∀ s, I s → ∀ id offset b, wp I (file_write sha256 max_blob_bytes id offset b) s (λ _ _, True)) →
  I s →
  let '(answers, s') := file_run sha256 max_blob_bytes qs s in
  I s' ∧ fb_objects s ⊆ fb_objects s' ∧
  (G → ∀ blob, AFinish (Ok blob) ∈ answers → ref_honest blob s').
Proof using HI.
  induction qs as [|q qs IH]; intros s Hw Hs; simpl.
  { split_and!; [done..|]. intros _ blob Hb. by apply elem_of_nil in Hb. }
  destruct (wp_step q s Hs (Hw s Hs)) as (H1 & H2 & H3).
  destruct (file_step _ _ q s) as [a s1]. simpl in *. specialize (IH s1 Hw H1).
  destruct (file_run _ _ qs s1) as [rest s2]. destruct IH as (H4 & H5 & H6).
  split_and!; [done|by etrans|]. intros HG blob [Hb|Hb]%elem_of_cons; [|by apply H6].
  destruct (H3 blob (eq_sym Hb) HG) as (c & Hc & Hl & Hd). exists c.
  split_and!; [|done|done]. by eapply lookup_weaken.
Qed.
End invariant.

(** A write that fails is undone when the calls that undo it succeed. *)
Definition faults_isolated : Prop := ∀ n, fs_error n ≠ None →
  fs_error (S n) = None ∧ fs_error (S (S n)) = None.

Lemma write_any id offset b s :
  objects_honest s → wp objects_honest (file_write sha256 max_blob_bytes id offset b) s (λ _ _, True).
Proof.
  intros Hs. assert (fb_objects (snd (file_write sha256 max_blob_bytes id offset b s)) = fb_objects s)
    as E. { unfold file_write, upload_write, write_file, syscall, fm_bind.
            repeat (simpl; case_match); by simplify_eq/=. }
  unfold wp, objects_honest. by rewrite E.
Qed.

Definition bump (s : FileBlobStore) : FileBlobStore :=
  mkFileBlobStore (fb_next_upload s) (fb_uploads s) (fb_objects s) (fb_verified s) (S (fb_calls s)).
Lemma syscall_fails s e :
  fs_error (fb_calls s) = Some e → syscall s = (Err (BlobStorage e), bump s).
Proof. unfold syscall. by intros ->. Qed.
Lemma syscall_succeeds s : fs_error (fb_calls s) = None → syscall s = (Ok tt, bump s).
Proof. unfold syscall. by intros ->. Qed.

(** The recovery of a failed write restores the temporary file. *)
Lemma undo_write id u x p e s :
  upload_ok u → fb_uploads s !! id = Some u →
  fs_error (fb_calls s) = None → fs_error (S (fb_calls s)) = None →
  let u1 := set_file (fu_content u ++ x) p u in
  let u2 := set_file (truncate (fu_size u) (fu_content u1)) (fu_position u1) u1 in
  ∃ calls, fm_bind (put_upload id u1) (λ _, fm_bind syscall (λ _,
    fm_bind (put_upload id u2) (λ _, fm_bind syscall (λ _,
    fm_bind (put_upload id (set_file (fu_content u2) (fu_size u) u2)) (λ _,
    @fm_fail N e))))) s =
  (Err e, mkFileBlobStore (fb_next_upload s) (fb_uploads s) (fb_objects s) (fb_verified s) calls).
Proof.
  intros [Hl Hp] Hu E1 E2. cbn zeta. cbn [set_file fu_content fu_position].
  rewrite truncate_app by done.
  assert (set_file (fu_content u) (fu_size u) (set_file (fu_content u) p (set_file (fu_content u ++ x) p u))
          = u) as -> by (destruct u; unfold set_file; simpl in *; congruence).
  unfold fm_bind, put_upload, syscall. simpl. rewrite E1. simpl. rewrite E2. simpl.
  eexists. unfold fm_fail, set_fb_uploads. simpl. rewrite !insert_insert_eq, insert_id by done. done.
Qed.

Lemma write_isolated id offset b s :
  faults_isolated → store_ok s →
  wp store_ok (file_write sha256 max_blob_bytes id offset b) s (λ _ _, True) ∧
  ∀ e, fst (file_write sha256 max_blob_bytes id offset b s) = Err e →
    fb_uploads (snd (file_write sha256 max_blob_bytes id offset b s)) = fb_uploads s.
Proof.
  intros Hf Hs. pose proof Hs as (H1 & H2 & H3). unfold wp, file_write.
  destruct (fb_uploads s !! id) as [u|] eqn:Eu; [|done].
  pose proof (H3 _ _ Eu) as Hu. pose proof Hu as [Hl Hp]. unfold upload_write.
  destruct (negb _). { destruct (is_some_and _ _); by split_and!. }
  destruct (u64_of_len b) as [l|] eqn:El; [|done]. apply u64_of_len_spec in El as [-> _].
  destruct (checked_add_u64 _ _) as [next|] eqn:En; [|done].
  apply checked_add_u64_spec in En as [-> _].
  destruct (_ || _); [done|]. unfold write_file. rewrite !write_at_end by congruence.
  destruct (fs_error (fb_calls s)) as [e|] eqn:E0.
  - rewrite (syscall_fails _ _ E0). destruct (Hf (fb_calls s)) as [E1 E2]; [by rewrite E0|].
    match goal with |- context [fm_bind (put_upload id ?u1) ?k ?st] =>
      destruct (undo_write id u (take (N.to_nat (fs_partial (fb_calls s))) b)
        (fu_position u + len (take (N.to_nat (fs_partial (fb_calls s))) b)) (BlobStorage e) st
        Hu Eu E1 E2) as [calls ->] end.
    by split_and!.
  - rewrite (syscall_succeeds _ E0). destruct (fs_error (S (fb_calls s))) as [e|] eqn:E1.
    + rewrite (syscall_fails (bump s) e E1). destruct (Hf (S (fb_calls s))) as [E2 E3]; [by rewrite E1|].
      match goal with |- context [fm_bind (put_upload id ?u1) ?k ?st] =>
        destruct (undo_write id u b (fu_position u + len b) (BlobStorage e) st Hu Eu E2 E3)
          as [calls ->] end.
      by split_and!.
    + rewrite (syscall_succeeds (bump s) E1). split_and!; [|done..]. split_and!; [done|done|]. simpl.
      apply map_Forall_insert_2; [|done]. split; simpl; rewrite ?len_app; lia.
Qed.

Lemma empty_store_ok : store_ok (mkFileBlobStore 0 ∅ ∅ ∅ 0).
Proof.
  split_and!.
  - intros d c Hc. simpl in Hc. by rewrite lookup_empty in Hc.
  - intros b Hb. by apply not_elem_of_empty in Hb.
  - intros id u Hu. simpl in Hu. by rewrite lookup_empty in Hu.
Qed.
End faults.

(** The objects on the disk are safe from any fault.  Whatever system
    calls fail, and however much of a failing write reached a file, after any
    sequence of uploads, writes, commits, aborts, reads and reopenings every
    object is stored under the digest of its bytes, and an object that was
    there is there unchanged. *)
Theorem file_objects_durable (sha256 : bytes → bytes) (max_blob_bytes : N) `{FS : FileSystem}
    (qs : list blob_request) (s : FileBlobStore) (Hs : objects_honest sha256 s) :
  let '(answers, s') := file_run sha256 max_blob_bytes qs s in
  objects_honest sha256 s' ∧ fb_objects s ⊆ fb_objects s'.
Proof.
  pose proof (wp_run sha256 max_blob_bytes False (objects_honest sha256) (honest_invariant sha256) qs s
    (λ s H id offset b, write_any sha256 max_blob_bytes id offset b s H) Hs) as Hrun.
  destruct (file_run _ _ qs s) as [answers s']. by destruct Hrun as (H1 & H2 & _).
Qed.

(** One fault at a time loses nothing.  When the two calls after a
    failing call succeed, a failed write leaves every upload as it was, and
    every reference a commit returned names, at the end of any run, an object
    of its digest and size. *)
Theorem file_faults_isolated (sha256 : bytes → bytes) (max_blob_bytes : N) `{FS : FileSystem}
    (qs : list blob_request) (id : string) (offset : N) (b : bytes) (Hf : faults_isolated) :
  let '(answers, s) := file_run sha256 max_blob_bytes qs (snd (open ∅ 0)) in
  (∀ blob, AFinish (Ok blob) ∈ answers → ref_honest sha256 blob s) ∧
  (∀ e s', file_write sha256 max_blob_bytes id offset b s = (Err e, s') →
     fb_uploads s' = fb_uploads s).
Proof.
  assert (store_ok sha256 (snd (open ∅ 0))) as H0.
  { refine (proj1 (wp_open sha256 True (store_ok sha256) (store_ok_invariant sha256)
      (mkFileBlobStore 0 ∅ ∅ ∅ 0) _)).
    apply empty_store_ok. }
  pose proof (wp_run sha256 max_blob_bytes True (store_ok sha256) (store_ok_invariant sha256) qs _
    (λ s H id offset b, proj1 (write_isolated sha256 max_blob_bytes id offset b s Hf H)) H0) as Hrun.
  destruct (file_run _ _ qs _) as [answers s]. destruct Hrun as (H1 & _ & H3).
  split; [by apply H3|]. intros e s' Hw.
  destruct (write_isolated sha256 max_blob_bytes id offset b s Hf H1) as [_ H2].
  rewrite Hw in H2. by apply (H2 e).
Qed.

(** ** Concrete runs *)

(** A toy digest: the length of the bytes, in 32 bytes. *)
Definition length_digest (b : bytes) : bytes :=
  replicate 31 Byte.x00 ++ [default Byte.x00 (Byte.of_N (len b))].

Definition reliable : FileSystem := {| fs_error := λ _, None; fs_partial := λ _, 0%N |}.
(** The calls in [bad] fail, having written one byte. *)
Definition failing (bad : list nat) : FileSystem :=
  {| fs_error := λ n, if bool_decide (n ∈ bad) then Some "disk full" else None;
     fs_partial := λ _, 1%N |}.

Definition hello : bytes := [Byte.x68; Byte.x65; Byte.x6c; Byte.x6c; Byte.x6f].
Definition hello_ref : BlobRef :=
  mkBlobRef SHA256_ALGORITHM (sha256_hex length_digest hello) 5 "text/plain".

Definition sample_requests : list blob_request :=
  [RBegin "text/plain" (Some 5%N); RWrite 1 0 hello; RWrite 1 0 hello; RWrite 1 3 hello; RFinish 1;
   RReopen; RRead hello_ref 1 3; RBegin "text/plain" None; RWrite 1 0 hello; RFinish 1;
   RRead hello_ref 6 1; RAbort 1].

Lemma file_store_refines_memory_witness :
  Forall3 answers_match sample_requests (memory_run length_digest 16 sample_requests empty_blobs)
    (fst (@file_run length_digest 16 reliable sample_requests (snd (@open reliable ∅ 0)))).
Proof.
  apply (@file_store_refines_memory length_digest 16 reliable).
  - intros n. reflexivity.
  - vm_compute. discriminate.
  - repeat constructor; vm_compute; discriminate.
  - cbn [run_collision_free sample_requests]. split_and!; try exact Logic.I.
    all: lazymatch goal with
    | |- collision_free _ (RWrite _ _ _) _ =>
        intros u o previous Hu Hp _; vm_compute in Hu; injection Hu as <-; vm_compute in Hp;
        (discriminate Hp || injection Hp as <- <-; reflexivity)
    | |- collision_free _ (RFinish _) _ =>
        intros u c Hu Hc; vm_compute in Hu; injection Hu as <-; vm_compute in Hc;
        (discriminate Hc || injection Hc as <-; reflexivity)
    end.
Defined.

Lemma file_objects_durable_witness :
  objects_honest length_digest
    (snd (@file_run length_digest 16 (failing [4; 5; 9]) sample_requests
            (mkFileBlobStore 0 ∅ ∅ ∅ 0))).
Proof.
  pose proof (@file_objects_durable length_digest 16 (failing [4; 5; 9]) sample_requests
    (mkFileBlobStore 0 ∅ ∅ ∅ 0) (proj1 (empty_store_ok length_digest))) as H.
  destruct (file_run _ _ _ _). exact (proj1 H).
Defined.

(** The write fails after one byte, is undone, and succeeds when repeated. *)
Definition retry_requests : list blob_request :=
  [RBegin "text/plain" None; RWrite 1 0 hello; RWrite 1 0 hello; RFinish 1].

Lemma file_faults_isolated_witness :
  fst (@file_run length_digest 16 (failing [4]) retry_requests (snd (@open (failing [4]) ∅ 0))) =
    [ABegin (Ok "file-upload-1"); AWrite (Err (BlobStorage "disk full")); AWrite (Ok 5%N);
     AFinish (Ok hello_ref)] ∧
  ref_honest length_digest hello_ref
    (snd (@file_run length_digest 16 (failing [4]) retry_requests (snd (@open (failing [4]) ∅ 0)))).
Proof.
  split; [vm_compute; reflexivity|].
  assert (@faults_isolated (failing [4])) as Hf.
  { intros n Hn. simpl in *. case_bool_decide as E; [|done].
    apply list_elem_of_singleton in E as ->. split; reflexivity. }
  pose proof (@file_faults_isolated length_digest 16 (failing [4]) retry_requests "" 0 [] Hf) as H.
  destruct (file_run _ _ _ _) as [answers s] eqn:E. destruct H as [H _]. apply H.
  assert (answers = fst (@file_run length_digest 16 (failing [4]) retry_requests
    (snd (@open (failing [4]) ∅ 0)))) as -> by (by rewrite E).
  vm_compute. do 3 right. by left.
Defined.

(** Two faults in a row do lose: when a write fails after writing a byte
    and cutting the file back fails too, the byte stays and the size does
    not count it, so the repeated write is accepted, and the commit returns
    a reference whose size is not the length of the object it publishes.
    The running store reads the wrong bytes under it; the store opened again
    calls it corrupt. *)
Theorem file_double_fault :
  ∃ (fs : FileSystem) blob,
    let run := @file_run length_digest 16 fs in
    let s := snd (run retry_requests (snd (@open fs ∅ 0))) in
    fst (run retry_requests (snd (@open fs ∅ 0))) =
      [ABegin (Ok "file-upload-1"); AWrite (Err (BlobStorage "disk full")); AWrite (Ok 5%N);
       AFinish (Ok blob)] ∧
    blob_size blob = 5%N ∧
    fb_objects s !! digest blob = Some (Byte.x68 :: hello) ∧
    fst (run [RRead blob 0 5; RReopen; RRead blob 0 5] s) =
      [ARead (Ok (mkBlobChunk (Byte.x68 :: take 4 hello) true)); ADone (Ok tt);
       ARead (Err (BlobCorrupt "reference does not match stored bytes"))].
Proof.
  exists (failing [4; 5]),
    (mkBlobRef SHA256_ALGORITHM (sha256_hex length_digest (Byte.x68 :: hello)) 5 "text/plain").
  cbn zeta. split_and!; vm_compute; reflexivity.
Qed.
