(* ===== verification/Delivery.v ===== *)
(** State mutations, delivery commits and credentials as the core defines
    them: [pluribus-core/src/state.rs], [delivery.rs], [secret.rs]. *)
From stdpp Require Import base tactics option list strings sorting gmap.
From Stdlib Require Import ZArith NArith Lia.
From S2P Require Import Prelude Event.

Abbreviation StateNamespace := string (only parsing).
Abbreviation SecretHandle := string (only parsing).

(** ** Component state *)

Record StateEntry : Type := mkStateEntry { entry_key : string; entry_value : bytes }.

Record StateSnapshot : Type := mkStateSnapshot {
  snapshot_revision : N;
  snapshot_value : option bytes;
}.

Record StatePage : Type := mkStatePage {
  entries : list StateEntry;
  next_key : option string;
  page_revision : N;
}.

Inductive StateMutation : Type :=
| Set_ (key : string) (value : bytes)
| Delete (key : string).

Inductive StateError : Type :=
| StateConflict (expected actual : N)
| StateInvalid (message : string)
| StateStorage (message : string).

(** [impl Display for StateError]. *)
Definition state_error_to_string (e : StateError) : string :=
  match e with
  | StateConflict expected actual =>
      "state revision conflict: expected " +:+ u64_to_string expected
        +:+ ", actual " +:+ u64_to_string actual
  | StateInvalid message => "invalid state operation: " +:+ message
  | StateStorage message => "state storage failed: " +:+ message
  end.

(** ** Deliveries *)

Record CursorKey : Type := mkCursorKey {
  cursor_stream_id : StreamId;
  cursor_namespace : StateNamespace;
}.

(** One atomic unit of work: proposed events, state mutations, and the cursor
    advance that records the delivery as handled. *)
Record DeliveryCommit : Type := mkDeliveryCommit {
  cursor : CursorKey;
  expected_checkpoint : N;
  checkpoint : option N;
  mutations : list StateMutation;
  events : list AppendRequest;
}.

Record DeliveryReceipt : Type := mkDeliveryReceipt {
  receipt_events : list CommittedEvent;
  receipt_checkpoint : N;
  receipt_revision : N;
}.

Inductive DeliveryError : Type :=
| DeliveryConflict (expected actual : N)
| Regressed (from to : N)
| DeliveryInvalid (message : string)
| DeliveryAppend (error : AppendError)
| DeliveryState (error : StateError)
| DeliveryStorage (message : string).

(** [impl Display for DeliveryError]. *)
Definition delivery_error_to_string (e : DeliveryError) : string :=
  match e with
  | DeliveryConflict expected actual =>
      "delivery checkpoint conflict: expected " +:+ u64_to_string expected
        +:+ ", actual " +:+ u64_to_string actual
  | Regressed from to =>
      "delivery checkpoint regressed: " +:+ u64_to_string from +:+ " to " +:+ u64_to_string to
  | DeliveryInvalid message => "invalid delivery: " +:+ message
  | DeliveryAppend error => append_error_to_string error
  | DeliveryState error => state_error_to_string error
  | DeliveryStorage message => "delivery storage failed: " +:+ message
  end.

(** [Vec::dedup]: drops an element equal to the one before it. *)
Fixpoint dedup (l : list string) : list string :=
  match l with
  | x :: ((y :: _) as rest) => if String.eqb x y then dedup rest else x :: dedup rest
  | _ => l
  end.

(** The check of one proposed event inside [DeliveryCommit::validate]. *)
Definition validate_delivery_event (c : CursorKey) (event : AppendRequest)
    : result unit DeliveryError :=
  if negb (String.eqb (stream_id event) (cursor_stream_id c))
  then Err (DeliveryInvalid "event targets another stream")
  else map_err DeliveryAppend (validate event).

(** [DeliveryCommit::validate]. *)
Definition delivery_validate (c : DeliveryCommit) : result unit DeliveryError :=
  if str_is_empty (cursor_stream_id (cursor c))
  then Err (DeliveryInvalid "stream ID is empty")
  else if str_is_empty (cursor_namespace (cursor c))
  then Err (DeliveryInvalid "namespace is empty")
  else if is_some_and (checkpoint c) (λ k, k <? expected_checkpoint c)%N
  then Err (Regressed (expected_checkpoint c) (default 0%N (checkpoint c)))
  else
    try! try_for_each (validate_delivery_event (cursor c)) (events c);
    let keys := omap deduplication_key (events c) in
    let total := length keys in
    let sorted := merge_sort String.le keys in
    if negb (length (dedup sorted) =? total)
    then Err (DeliveryInvalid "batch repeats a deduplication key")
    else Ok tt.

(** ** Credentials *)

Inductive SecretError : Type :=
| SecretNotFound
| SecretPermissionDenied
| SecretInvalid (message : string)
| SecretStorage (message : string).

(** [InMemoryCredentialStore]: the state behind its lock. *)
Abbreviation CredentialMap := (gmap (SecretHandle * string) bytes) (only parsing).

(** [InMemoryCredentialStore::read_plugin_credential]. *)
Definition read_plugin_credential (handle : SecretHandle) (provider : string)
    (s : CredentialMap) : option bytes := s !! (handle, provider).

(** [InMemoryCredentialStore::replace_plugin_credential]: compare and swap. *)
Definition replace_plugin_credential (handle : SecretHandle) (provider : string)
    (expected : option bytes) (value : bytes) (s : CredentialMap) : bool * CredentialMap :=
  if negb (bool_decide (s !! (handle, provider) = expected))
  then (false, s)
  else (true, <[(handle, provider) := value]> s).

#[export] Instance cursor_key_eq_dec : EqDecision CursorKey.
Proof. solve_decision. Defined.
#[export] Instance cursor_key_countable : Countable CursorKey.
Proof.
  refine (inj_countable' (λ c, (cursor_stream_id c, cursor_namespace c))
    (λ p, mkCursorKey p.1 p.2) _). by intros [].
Defined.
#[export] Instance state_mutation_eq_dec : EqDecision StateMutation.
Proof. solve_decision. Defined.
#[export] Instance append_error_eq_dec : EqDecision AppendError.
Proof. solve_decision. Defined.
#[export] Instance state_error_eq_dec : EqDecision StateError.
Proof. solve_decision. Defined.
#[export] Instance delivery_error_eq_dec : EqDecision DeliveryError.
Proof. solve_decision. Defined.

(** ** Lemmas *)

Lemma dedup_length l : length (dedup l) ≤ length l.
Proof.
  induction l as [|x l IH]; [done|]. destruct l as [|y l]; [done|].
  change (dedup (x :: y :: l)) with
    (if String.eqb x y then dedup (y :: l) else x :: dedup (y :: l)).
  destruct (String.eqb x y); simpl in *; lia.
Qed.

(** On a sorted list [dedup] keeps the length exactly when nothing repeats. *)
Lemma dedup_length_nodup l :
  StronglySorted String.le l → length (dedup l) = length l ↔ NoDup l.
Proof.
  induction l as [|x l IH]; intros Hs; [split; [constructor|done]|].
  apply StronglySorted_cons in Hs as [Hx Hs]. specialize (IH Hs).
  destruct l as [|y l].
  { split; [|done]. intros _. repeat constructor. set_solver. }
  change (dedup (x :: y :: l)) with
    (if String.eqb x y then dedup (y :: l) else x :: dedup (y :: l)).
  rewrite NoDup_cons. destruct (String.eqb x y) eqn:E; bool_cases.
  - subst. pose proof (dedup_length (y :: l)). split; [simpl in *; lia|].
    intros [Hy _]. set_solver.
  - cbn [length]. rewrite (inj_iff S), IH. split; [|naive_solver].
    intros Hnd. split; [|done]. intros Hin. apply elem_of_cons in Hin as [|Hin]; [done|].
    apply StronglySorted_cons in Hs as [Hy _]. rewrite Forall_forall in Hx, Hy.
    apply E. apply (anti_symm String.le); [apply Hx; set_solver | by apply Hy].
Qed.

Lemma sorted_dedup_spec keys :
  (length (dedup (merge_sort String.le keys)) =? length keys)%nat = true ↔ NoDup keys.
Proof.
  rewrite Nat.eqb_eq, <- (Permutation_length (merge_sort_Permutation String.le keys)).
  rewrite dedup_length_nodup by (apply StronglySorted_merge_sort; apply _).
  by rewrite merge_sort_Permutation.
Qed.

(** A delivery passes [DeliveryCommit::validate] exactly when its cursor
    is named, does not move backwards, every event is valid and targets the
    cursor's stream, and no deduplication key occurs twice in the batch. *)
Theorem delivery_validate_iff (c : DeliveryCommit) :
  delivery_validate c = Ok tt ↔
  cursor_stream_id (cursor c) ≠ "" ∧ cursor_namespace (cursor c) ≠ "" ∧
  (∀ k, checkpoint c = Some k → expected_checkpoint c ≤ k)%N ∧
  (∀ e, e ∈ events c → stream_id e = cursor_stream_id (cursor c) ∧ valid_request e) ∧
  NoDup (omap deduplication_key (events c)).
Proof.
  unfold delivery_validate.
  destruct (str_is_empty (cursor_stream_id (cursor c))) eqn:Es.
  { apply str_is_empty_spec in Es. naive_solver. }
  destruct (str_is_empty (cursor_namespace (cursor c))) eqn:En.
  { apply str_is_empty_spec in En. naive_solver. }
  apply str_is_empty_false in Es, En.
  assert (is_some_and (checkpoint c) (λ k, k <? expected_checkpoint c)%N = false ↔
          ∀ k, checkpoint c = Some k → (expected_checkpoint c ≤ k)%N) as Hk.
  { destruct (checkpoint c); simpl; rewrite ?N.ltb_ge; naive_solver. }
  destruct (is_some_and _ _) eqn:Ec.
  { split; [done|]. intros (_ & _ & H & _). by apply Hk in H. }
  rewrite result_bind_ok. setoid_rewrite <- sorted_dedup_spec.
  assert (try_for_each (validate_delivery_event (cursor c)) (events c) = Ok tt ↔
    ∀ e, e ∈ events c → stream_id e = cursor_stream_id (cursor c) ∧ valid_request e) as He.
  { rewrite try_for_each_ok. unfold validate_delivery_event.
    setoid_rewrite <- validate_ok_iff.
    split; intros H e Hin; specialize (H e Hin);
      destruct (String.eqb_spec (stream_id e) (cursor_stream_id (cursor c))); simpl in *;
      rewrite ?map_err_ok in *; naive_solver. }
  split.
  - intros ([] & Hev & H). split_and!; [done|done|by apply Hk|by apply He|].
    destruct (_ =? _)%nat; [done|]. done.
  - intros (_ & _ & _ & Hev & Hnd). exists tt. split; [by apply He|]. by rewrite Hnd.
Qed.
