(* ===== verification/Stores.v ===== *)
(** The other traits of the core as interfaces: [StateStore], [DeliveryStore],
    [PluginCredentialStore] and [BlobStore] ([pluribus-core/src/state.rs],
    [delivery.rs], [secret.rs], [blob.rs]), and the laws their documentation
    states for the three kinds of data one agent's database holds: the log,
    the namespaces and the cursors.  [SqliteStores] discharges them. *)
From stdpp Require Import base tactics option list strings sorting gmap.
From Stdlib Require Import ZArith NArith Lia.
From S2P Require Import Prelude Event EventStore Blob Delivery.

(** ** The traits *)

Class StateStore (W : Type) : Type := {
  ss_get : StateNamespace → string → W → result StateSnapshot StateError * W;
  ss_scan : StateNamespace → string → option string → N → W → result StatePage StateError * W;
}.

Class DeliveryStore (W : Type) : Type := {
  ds_commit : DeliveryCommit → W → result DeliveryReceipt DeliveryError * W;
  ds_checkpoint : CursorKey → W → result N DeliveryError * W;
}.

Class CredentialStore (W : Type) : Type := {
  cs_read : SecretHandle → string → W → result (option bytes) SecretError * W;
  cs_replace : SecretHandle → string → option bytes → bytes → W → result bool SecretError * W;
}.

Class BlobStore (B : Type) : Type := {
  bs_begin_put : string → option N → B → result string BlobError * B;
  bs_write : string → N → bytes → B → result N BlobError * B;
  bs_finish_put : string → B → result BlobRef BlobError * B;
  bs_abort_put : string → B → result unit BlobError * B;
  bs_read : BlobRef → N → N → B → result BlobChunk BlobError * B;
}.

(** ** What a commit means *)

(** One mutation of a namespace. *)
Definition mutate (m : StateMutation) (s : gmap string bytes) : gmap string bytes :=
  match m with
  | Set_ key value => <[key := value]> s
  | Delete key => delete key s
  end.

(** The Rust types of a delivery's numbers. *)
Definition delivery_typed (c : DeliveryCommit) : Prop :=
  (∀ k, checkpoint c = Some k → u64_range k) ∧ Forall request_typed (events c).

(** A batch of appends on a log. *)
Inductive log_appends : list CommittedEvent → list AppendRequest → list CommittedEvent →
    list CommittedEvent → Prop :=
| log_appends_nil log : log_appends log [] [] log
| log_appends_cons log r e log1 rs es log2 :
    log_append log r e log1 → log_appends log1 rs es log2 →
    log_appends log (r :: rs) (e :: es) log2.

Lemma log_appends_prefix log rs es log' : log_appends log rs es log' → log `prefix_of` log'.
Proof.
  induction 1 as [|log r e log1 rs es log2 H _ IH]; [done|].
  etrans; [by eapply log_append_prefix|done].
Qed.

(** ** The laws of one database *)

(** What one database holds beside the log. *)
Class AgentStoreView (W : Type) : Type := {
  st_state : W → StateNamespace → gmap string bytes;
  st_cursor : W → CursorKey → N;
  st_credentials : W → SecretHandle → string → option bytes;
}.

Definition same_view {W} `{AgentStoreView W} (w w' : W) : Prop :=
  st_state w' = st_state w ∧ st_cursor w' = st_cursor w ∧ st_credentials w' = st_credentials w.

(** Nothing a client could observe has changed. *)
Definition unchanged {W} `{EL : EventStoreLaws W} `{AgentStoreView W} (w w' : W) : Prop :=
  es_inv w' ∧ es_log w' = es_log w ∧ same_view w w'.

(** What an accepted commit does to the log, the namespaces and the cursors. *)
Record commit_effect {W} `{EL : EventStoreLaws W} `{AgentStoreView W}
    (c : DeliveryCommit) (w : W) (rc : DeliveryReceipt) (w' : W) : Prop := {
  ce_inv : es_inv w';
  ce_expected : st_cursor w (cursor c) = expected_checkpoint c;
  ce_forward : (expected_checkpoint c ≤ receipt_checkpoint rc)%N;
  ce_receipt : receipt_checkpoint rc = default (expected_checkpoint c) (checkpoint c);
  ce_cursor : st_cursor w' (cursor c) = receipt_checkpoint rc;
  ce_other_cursors : ∀ k, k ≠ cursor c → st_cursor w' k = st_cursor w k;
  ce_log : log_appends (es_log w) (events c) (receipt_events rc) (es_log w');
  ce_state : st_state w' (cursor_namespace (cursor c))
    = foldl (flip mutate) (st_state w (cursor_namespace (cursor c))) (mutations c);
  ce_other_state : ∀ ns, ns ≠ cursor_namespace (cursor c) → st_state w' ns = st_state w ns;
  ce_credentials : st_credentials w' = st_credentials w;
}.

Class AgentStoreLaws (W : Type) {ES : EventStore W} {EL : EventStoreLaws W}
    {SS : StateStore W} {DS : DeliveryStore W} {CS : CredentialStore W}
    {AV : AgentStoreView W} : Prop := {
  st_append : ∀ r w res w', es_inv w → es_append r w = (res, w') → same_view w w';
  st_event_get : ∀ id w res w', es_inv w → es_get id w = (res, w') → same_view w w';
  st_event_query : ∀ s q limit w res w', es_inv w → es_query s q limit w = (res, w') →
    same_view w w';
  st_query_sound : ∀ s q limit w es w', es_inv w → es_query s q limit w = (Ok es, w') →
    ∀ e, e ∈ es → e ∈ in_stream (es_log w) s;
  st_get_keeps : ∀ ns key w res w', es_inv w → ss_get ns key w = (res, w') → unchanged w w';
  st_get_ok : ∀ ns key w snapshot w', es_inv w → ss_get ns key w = (Ok snapshot, w') →
    snapshot_value snapshot = st_state w ns !! key;
  st_scan_keeps : ∀ ns prefix after limit w res w', es_inv w →
    ss_scan ns prefix after limit w = (res, w') → unchanged w w';
  st_checkpoint_keeps : ∀ c w res w', es_inv w → ds_checkpoint c w = (res, w') → unchanged w w';
  st_checkpoint_ok : ∀ c w k w', es_inv w → ds_checkpoint c w = (Ok k, w') → k = st_cursor w c;
  st_read_credential : ∀ h p w res w', es_inv w → cs_read h p w = (res, w') → unchanged w w';
  st_read_credential_ok : ∀ h p w v w', es_inv w → cs_read h p w = (Ok v, w') →
    v = st_credentials w h p;
  st_replace_credential : ∀ h p expected value w res w', es_inv w →
    cs_replace h p expected value w = (res, w') →
    es_inv w' ∧ es_log w' = es_log w ∧ st_state w' = st_state w ∧ st_cursor w' = st_cursor w ∧
    ∀ h' p', (h', p') ≠ (h, p) → st_credentials w' h' p' = st_credentials w h' p';
  st_commit_ok : ∀ c w rc w', es_inv w → delivery_typed c → ds_commit c w = (Ok rc, w') →
    commit_effect c w rc w';
  st_commit_err : ∀ c w e w', es_inv w → delivery_typed c → ds_commit c w = (Err e, w') →
    unchanged w w';
}.

(** ** The in-memory blob store *)

#[export] Instance memory_blob_store (sha256 : bytes → bytes) (max_blob_bytes : N)
    : BlobStore MemoryBlobs := {|
  bs_begin_put := begin_put max_blob_bytes;
  bs_write := write max_blob_bytes;
  bs_finish_put := finish_put sha256;
  bs_abort_put := abort_put;
  bs_read blob offset max_bytes s := (read sha256 blob offset max_bytes s, s);
|}.
