(* ===== verification/Utf8.v ===== *)
(** UTF-8 text as the code uses it through the Rust standard library:
    [String::from_utf8_lossy], [str::chars] and [char::is_alphanumeric].

    A [char] is its code point.  Decoding replaces each maximal ill-formed
    prefix by U+FFFD; on well-formed text it is the inverse of encoding, which
    [decode_encode] proves. *)
From stdpp Require Import base tactics option list strings numbers.
From Stdlib Require Import NArith Lia Ascii.
From S2P Require Import Prelude Event.

Local Open Scope N_scope.

Definition REPLACEMENT : N := 0xFFFD.

(** [(lo..=hi).contains(&b)]. *)
Definition between (lo b hi : N) : bool := (lo <=? b) && (b <=? hi).
Definition continuation (b : N) : bool := between 0x80 b 0xBF.

(** The second byte a three- or four-byte sequence allows. *)
Definition second_of_three (b0 b1 : N) : bool :=
  if b0 =? 0xE0 then between 0xA0 b1 0xBF
  else if b0 =? 0xED then between 0x80 b1 0x9F
  else continuation b1.
Definition second_of_four (b0 b1 : N) : bool :=
  if b0 =? 0xF0 then between 0x90 b1 0xBF
  else if b0 =? 0xF4 then between 0x80 b1 0x8F
  else continuation b1.

(** The characters of [String::from_utf8_lossy(bytes)]. *)
Fixpoint decode_lossy (l : list N) : list N :=
  match l with
  | [] => []
  | b0 :: r0 =>
      if b0 <? 0x80 then b0 :: decode_lossy r0
      else if between 0xC2 b0 0xDF then
        match r0 with
        | b1 :: r1 =>
            if continuation b1
            then (b0 mod 32) * 64 + b1 mod 64 :: decode_lossy r1
            else REPLACEMENT :: decode_lossy r0
        | [] => [REPLACEMENT]
        end
      else if between 0xE0 b0 0xEF then
        match r0 with
        | b1 :: r1 =>
            if second_of_three b0 b1 then
              match r1 with
              | b2 :: r2 =>
                  if continuation b2
                  then (b0 mod 16) * 4096 + (b1 mod 64) * 64 + b2 mod 64 :: decode_lossy r2
                  else REPLACEMENT :: decode_lossy r1
              | [] => [REPLACEMENT]
              end
            else REPLACEMENT :: decode_lossy r0
        | [] => [REPLACEMENT]
        end
      else if between 0xF0 b0 0xF4 then
        match r0 with
        | b1 :: r1 =>
            if second_of_four b0 b1 then
              match r1 with
              | b2 :: r2 =>
                  if continuation b2 then
                    match r2 with
                    | b3 :: r3 =>
                        if continuation b3
                        then (b0 mod 8) * 262144 + (b1 mod 64) * 4096 + (b2 mod 64) * 64
                               + b3 mod 64 :: decode_lossy r3
                        else REPLACEMENT :: decode_lossy r2
                    | [] => [REPLACEMENT]
                    end
                  else REPLACEMENT :: decode_lossy r1
              | [] => [REPLACEMENT]
              end
            else REPLACEMENT :: decode_lossy r0
        | [] => [REPLACEMENT]
        end
      else REPLACEMENT :: decode_lossy r0
  end.

(** [char::encode_utf8]. *)
Definition encode_char (c : N) : list N :=
  if c <? 0x80 then [c]
  else if c <? 0x800 then [0xC0 + c / 64; 0x80 + c mod 64]
  else if c <? 0x10000 then [0xE0 + c / 4096; 0x80 + (c / 64) mod 64; 0x80 + c mod 64]
  else [0xF0 + c / 262144; 0x80 + (c / 4096) mod 64; 0x80 + (c / 64) mod 64; 0x80 + c mod 64].

(** A Unicode scalar value. *)
Definition is_scalar (c : N) : bool := (c <? 0xD800) || between 0xE000 c 0x10FFFF.

(** The bytes of a [str], and a [String] from its characters. *)
Fixpoint str_bytes (s : string) : list N :=
  match s with
  | EmptyString => []
  | String a s => N_of_ascii a :: str_bytes s
  end.
Fixpoint str_of_bytes (l : list N) : string :=
  match l with
  | [] => EmptyString
  | b :: l => String (ascii_of_N b) (str_of_bytes l)
  end.
Definition str_of_chars (cs : list N) : string := str_of_bytes (flat_map encode_char cs).

(** [s.chars()]. *)
Definition chars (s : string) : list N := decode_lossy (str_bytes s).

(** [String::from_utf8_lossy(bytes).chars()]. *)
Definition lossy_chars (b : bytes) : list N := decode_lossy (Byte.to_N <$> b).

(** [s.chars().take(n).collect::<String>()]. *)
Definition take_chars (n : nat) (s : string) : string := str_of_chars (take n (chars s)).

(** The Unicode tables of the standard library above ASCII. *)
Class UnicodeTables : Type := { unicode_alphanumeric : N → bool }.

(** [char::is_alphanumeric]. *)
Definition is_alphanumeric `{UnicodeTables} (c : N) : bool :=
  if c <? 0x80 then between 48 c 57 || between 65 c 90 || between 97 c 122
  else unicode_alphanumeric c.

(** [char::is_whitespace]. *)
Definition is_whitespace (c : N) : bool :=
  between 9 c 13 || (c =? 32) || (c =? 133) || (c =? 160) || (c =? 5760)
  || between 8192 c 8202 || (c =? 8232) || (c =? 8233) || (c =? 8239) || (c =? 8287)
  || (c =? 12288).

(** [str::split_whitespace] on a list of characters. *)
Fixpoint words_go (word : list N) (cs : list N) : list (list N) :=
  match cs with
  | [] => match word with [] => [] | _ => [word] end
  | c :: cs =>
      if is_whitespace c then match word with [] => words_go [] cs | _ => word :: words_go [] cs end
      else words_go (word ++ [c]) cs
  end.
Definition split_whitespace (cs : list N) : list (list N) := words_go [] cs.

(** [s.trim().is_empty()]. *)
Definition trim_is_empty (s : string) : bool := forallb is_whitespace (chars s).

(** ** Decoding inverts encoding *)

Lemma between_true lo b hi : lo ≤ b → b ≤ hi → between lo b hi = true.
Proof. intros. unfold between. rewrite andb_true_iff, !N.leb_le. done. Qed.

Lemma between_false lo b hi : b < lo ∨ hi < b → between lo b hi = false.
Proof. intros. unfold between. rewrite andb_false_iff, !N.leb_gt. lia. Qed.

Ltac divmods := zify; Z.to_euclidean_division_equations; lia.

(** One step of the decoder on a well-formed sequence of each length. *)
Lemma decode_two b0 b1 r :
  (b0 <? 0x80) = false → between 0xC2 b0 0xDF = true → continuation b1 = true →
  decode_lossy (b0 :: b1 :: r) = (b0 mod 32) * 64 + b1 mod 64 :: decode_lossy r.
Proof. intros H1 H2 H3. cbn [decode_lossy]. by rewrite H1, H2, H3. Qed.

Lemma decode_three b0 b1 b2 r :
  (b0 <? 0x80) = false → between 0xC2 b0 0xDF = false → between 0xE0 b0 0xEF = true →
  second_of_three b0 b1 = true → continuation b2 = true →
  decode_lossy (b0 :: b1 :: b2 :: r) =
    (b0 mod 16) * 4096 + (b1 mod 64) * 64 + b2 mod 64 :: decode_lossy r.
Proof. intros H1 H2 H3 H4 H5. cbn [decode_lossy]. by rewrite H1, H2, H3, H4, H5. Qed.

Lemma decode_four b0 b1 b2 b3 r :
  (b0 <? 0x80) = false → between 0xC2 b0 0xDF = false → between 0xE0 b0 0xEF = false →
  between 0xF0 b0 0xF4 = true →
  second_of_four b0 b1 = true → continuation b2 = true → continuation b3 = true →
  decode_lossy (b0 :: b1 :: b2 :: b3 :: r) =
    (b0 mod 8) * 262144 + (b1 mod 64) * 4096 + (b2 mod 64) * 64 + b3 mod 64 :: decode_lossy r.
Proof.
  intros H1 H2 H3 H4 H5 H6 H7. cbn [decode_lossy]. by rewrite H1, H2, H3, H4, H5, H6, H7.
Qed.

(** Decides a range test on the lead byte. *)
Ltac range_test :=
  match goal with
  | |- between _ _ _ = true => apply between_true; divmods
  | |- between _ _ _ = false => apply between_false; divmods
  | |- (_ <? _) = false => apply N.ltb_ge; divmods
  end.

Lemma continuation_low x : continuation (0x80 + x mod 64) = true.
Proof. apply between_true; divmods. Qed.

Lemma low_six x : (0x80 + x mod 64) mod 64 = x mod 64.
Proof. change 0x80 with (2 * 64). by rewrite N.add_comm, N.Div0.mod_add, N.Div0.mod_mod. Qed.

Lemma decode_encode_two c rest :
  0x80 ≤ c → c < 0x800 → decode_lossy (encode_char c ++ rest) = c :: decode_lossy rest.
Proof.
  intros H1 H2. unfold encode_char.
  rewrite (proj2 (N.ltb_ge c 0x80)), (proj2 (N.ltb_lt c 0x800)) by done.
  cbn [app]. rewrite decode_two by (range_test || apply continuation_low).
  rewrite low_six. f_equal. divmods.
Qed.

Lemma decode_encode_three c rest :
  0x800 ≤ c → c < 0x10000 → is_scalar c = true →
  decode_lossy (encode_char c ++ rest) = c :: decode_lossy rest.
Proof.
  intros H1 H2 Hs. unfold encode_char.
  rewrite (proj2 (N.ltb_ge c 0x80)), (proj2 (N.ltb_ge c 0x800)), (proj2 (N.ltb_lt c 0x10000)) by lia.
  cbn [app].
  assert (second_of_three (0xE0 + c / 4096) (0x80 + (c / 64) mod 64) = true) as H3.
  { unfold second_of_three, is_scalar in *. apply orb_true_iff in Hs.
    destruct (0xE0 + c / 4096 =? 0xE0) eqn:E0; [|destruct (0xE0 + c / 4096 =? 0xED) eqn:E1];
      bool_cases; [| |apply continuation_low].
    - apply between_true; divmods.
    - apply between_true; [divmods|]. destruct Hs as [Hs|Hs]; [bool_cases; divmods|].
      unfold between in Hs. bool_cases. divmods. }
  clear Hs. rewrite decode_three by (done || range_test || apply continuation_low).
  rewrite !low_six. f_equal. divmods.
Qed.

Lemma decode_encode_four c rest :
  0x10000 ≤ c → c ≤ 0x10FFFF → decode_lossy (encode_char c ++ rest) = c :: decode_lossy rest.
Proof.
  intros H1 H2. unfold encode_char.
  rewrite (proj2 (N.ltb_ge c 0x80)), (proj2 (N.ltb_ge c 0x800)), (proj2 (N.ltb_ge c 0x10000)) by lia.
  cbn [app].
  assert (second_of_four (0xF0 + c / 262144) (0x80 + (c / 4096) mod 64) = true) as H3.
  { unfold second_of_four.
    destruct (0xF0 + c / 262144 =? 0xF0) eqn:E0; [|destruct (0xF0 + c / 262144 =? 0xF4) eqn:E1];
      bool_cases; [apply between_true; divmods..|apply continuation_low]. }
  rewrite decode_four by (done || range_test || apply continuation_low).
  rewrite !low_six. f_equal. divmods.
Qed.

Lemma decode_encode_char c rest :
  is_scalar c = true → decode_lossy (encode_char c ++ rest) = c :: decode_lossy rest.
Proof.
  intros Hs. destruct (N.lt_ge_cases c 0x80) as [H0|H0].
  { unfold encode_char. rewrite (proj2 (N.ltb_lt c 0x80)) by done. cbn [app decode_lossy].
    by rewrite (proj2 (N.ltb_lt c 0x80)). }
  destruct (N.lt_ge_cases c 0x800); [by apply decode_encode_two|].
  destruct (N.lt_ge_cases c 0x10000); [by apply decode_encode_three|].
  apply decode_encode_four; [done|]. unfold is_scalar, between in Hs.
  apply orb_true_iff in Hs as [Hs|Hs]; bool_cases; lia.
Qed.

Lemma decode_encode cs :
  Forall (λ c, is_scalar c = true) cs → decode_lossy (flat_map encode_char cs) = cs.
Proof.
  induction 1 as [|c cs Hc _ IH]; simpl; [done|]. by rewrite decode_encode_char, IH.
Qed.
