(* ===== verification/Sqlite.v ===== *)
(** The SQLite store: [pluribus-store-sqlite/src/lib.rs].

    The database is a record of its tables.  A SQL statement is a function on
    that record; every statement may also fail with an I/O error, which the
    parameter [io_error] decides from the number of statements run so far, so
    a theorem about a call holds for every pattern of failures.  A
    transaction whose body fails, or whose COMMIT fails, leaves the tables as
    they were at BEGIN (rusqlite rolls a dropped transaction back); the event
    metadata source is not part of the database and keeps what it handed out.
    The store runs its calls one at a time on the connection's thread, so a
    call is a function of the world. *)
From stdpp Require Import base tactics option list strings sorting gmap.
From Stdlib Require Import ZArith NArith Lia Ascii.
From S2P Require Import Prelude Event Delivery Utf8.

(** The trait [EventMetadataSource]: identifiers and the clock. *)
Class EventMetadataSource (M : Type) : Type := {
  next_event_id : M → EventId * M;
  now_ms : M → Z * M;
}.

(** ** Rows and tables *)

Record EventRow : Type := mkEventRow {
  col_schema : string;
  col_event_id : string;
  col_stream_id : string;
  col_stream_kind : Z;
  col_sequence : Z;
  col_recorded_at_ms : Z;
  col_observed_at_ms : option Z;
  col_event_type : string;
  col_payload_schema : string;
  col_payload_kind : Z;
  col_payload_json : option bytes;
  col_blob_digest : option string;
  col_blob_size : option string;
  col_blob_media_type : option string;
  col_actor_kind : Z;
  col_actor_id : string;
  col_authority_id : option string;
  col_activity_id : option string;
  col_correlation_id : option string;
  col_causation_id : option string;
  col_deduplication_key : option string;
}.

(** A row of the [event_search] index. *)
Record SearchRow : Type := mkSearchRow {
  search_event_id : string;
  search_stream_id : string;
  search_event_type : string;
  search_payload_text : string;
}.

(** [streams] holds a stream's kind and next sequence; [events] and
    [event_search] are in row order; revisions and checkpoints are decimal
    text, as in the schema. *)
Record Database : Type := mkDatabase {
  t_streams : gmap string (Z * Z);
  t_events : list EventRow;
  t_event_search : list SearchRow;
  t_namespaces : gmap string string;
  t_state : gmap (string * string) bytes;
  t_cursors : gmap (string * string) string;
  t_credentials : gmap (string * string) bytes;
}.

(** The tables a fresh database is created with, all empty. *)
Definition empty_database : Database := mkDatabase ∅ [] [] ∅ ∅ ∅ ∅.

Record World (M : Type) : Type := mkWorld {
  db : Database;
  meta : M;
  clock : nat;
}.
Arguments mkWorld {M} db meta clock.
Arguments db {M} _.
Arguments meta {M} _.
Arguments clock {M} _.

Definition set_db {M} (d : Database) (w : World M) : World M := mkWorld d (meta w) (clock w).
Definition set_meta {M} (m : M) (w : World M) : World M := mkWorld (db w) m (clock w).
Definition tick {M} (w : World M) : World M := mkWorld (db w) (meta w) (S (clock w)).

(** The column a conversion failed on and why: what [corrupt] and
    [corrupt_message] put into a [rusqlite::Error]. *)
Inductive RowError : Type :=
| Corrupt (column : N) (message : string).

(** What the code relies on of the libraries below it: I/O failures, the text
    of a conversion error, and the FTS5 matcher applied to a query and the two
    indexed columns. *)
Class Sqlite : Type := {
  io_error : nat → option string;
  row_error_to_string : RowError → string;
  fts_match : string → string → string → bool;
}.

(** ** Statements and transactions *)

Section monad.
Context {M : Type} {SQ : Sqlite}.

Definition Tx (E A : Type) : Type := World M → result A E * World M.

Definition tx_ret {E A} (a : A) : Tx E A := λ w, (Ok a, w).
Definition tx_fail {E A} (e : E) : Tx E A := λ w, (Err e, w).
Definition tx_lift {E A} (r : result A E) : Tx E A := λ w, (r, w).
Definition tx_bind {E A B} (m : Tx E A) (k : A → Tx E B) : Tx E B := λ w,
  match m w with
  | (Ok a, w') => k a w'
  | (Err e, w') => (Err e, w')
  end.
Definition tx_map_err {E F A} (f : E → F) (m : Tx E A) : Tx F A := λ w,
  match m w with
  | (Ok a, w') => (Ok a, w')
  | (Err e, w') => (Err (f e), w')
  end.

(** Runs one SQL statement; [wrap] is the error the call site maps to. *)
Definition exec {E A} (wrap : string → E) (f : Database → result (A * Database) string)
    : Tx E A := λ w,
  match io_error (clock w) with
  | Some message => (Err (wrap message), tick w)
  | None =>
      match f (db w) with
      | Ok (a, d) => (Ok a, set_db d (tick w))
      | Err message => (Err (wrap message), tick w)
      end
  end.

(** A statement that only reads. *)
Definition select {E A} (wrap : string → E) (f : Database → result A string) : Tx E A :=
  exec wrap (λ d, let? a := f d in Ok (a, d)).

(** A statement that writes and cannot violate a constraint. *)
Definition update {E} (wrap : string → E) (f : Database → Database) : Tx E unit :=
  exec wrap (λ d, Ok (tt, f d)).

(** BEGIN, the body, COMMIT. *)
Definition transaction {E A} (wrap : string → E) (body : Tx E A) : Tx E A := λ w,
  match update wrap id w with
  | (Err e, w1) => (Err e, w1)
  | (Ok _, w1) =>
      match body w1 with
      | (Err e, w2) => (Err e, set_db (db w) w2)
      | (Ok a, w2) =>
          match update wrap id w2 with
          | (Ok _, w3) => (Ok a, w3)
          | (Err e, w3) => (Err e, set_db (db w) w3)
          end
      end
  end.
End monad.
Arguments Tx M E A : clear implicits.

Notation "'let*' x := m 'in' k" := (tx_bind m (fun x => k))
  (at level 10, x pattern, m at level 100, k at level 200) : rust_scope.
Notation "'do*' m ; k" := (tx_bind m (fun _ => k))
  (at level 10, m at level 100, k at level 200) : rust_scope.

(** ** Encoding *)

Definition encode_stream_kind (k : StreamKind) : Z :=
  match k with
  | StreamAgent => 0
  | StreamNode => 1
  end.

Definition decode_stream_kind (value : Z) : result StreamKind RowError :=
  if (value =? 0)%Z then Ok StreamAgent
  else if (value =? 1)%Z then Ok StreamNode
  else Err (Corrupt 3 ("stream kind " +:+ i64_to_string value)).

Definition encode_principal_kind (k : PrincipalKind) : Z :=
  match k with
  | Human => 0
  | Agent => 1
  | Node => 2
  | Component => 3
  | External => 4
  end.

Definition decode_principal_kind (value : Z) : result PrincipalKind RowError :=
  if (value =? 0)%Z then Ok Human
  else if (value =? 1)%Z then Ok Agent
  else if (value =? 2)%Z then Ok Node
  else if (value =? 3)%Z then Ok Component
  else if (value =? 4)%Z then Ok External
  else Err (Corrupt 14 ("principal kind " +:+ i64_to_string value)).

Record EncodedPayload : Type := mkEncodedPayload {
  enc_kind : Z;
  enc_json : option bytes;
  enc_digest : option string;
  enc_size : option string;
  enc_media_type : option string;
}.

Definition encode_payload (p : EventPayload) : EncodedPayload :=
  match p with
  | CanonicalJson b => mkEncodedPayload 0 (Some b) None None None
  | Blob blob =>
      mkEncodedPayload 1 None (Some (digest blob)) (Some (u64_to_string (blob_size blob)))
        (Some (media_type blob))
  end.

Definition required {A} (value : option A) (column : N) (name : string) : result A RowError :=
  ok_or value (Corrupt column ("missing " +:+ name)).

(** [decode_event]. *)
Definition decode_event (row : EventRow) : result CommittedEvent RowError :=
  let? payload :=
    (if (col_payload_kind row =? 0)%Z then
       let? json := required (col_payload_json row) 10 "payload JSON" in
       Ok (CanonicalJson json)
     else if (col_payload_kind row =? 1)%Z then
       let? text := required (col_blob_size row) 12 "blob size" in
       let? size := map_err (Corrupt 12) (parse_u64 text) in
       let? digest := required (col_blob_digest row) 11 "blob digest" in
       let? media_type := required (col_blob_media_type row) 13 "blob media type" in
       Ok (Blob (mkBlobRef SHA256_ALGORITHM digest size media_type))
     else Err (Corrupt 9 ("payload kind " +:+ i64_to_string (col_payload_kind row)))) in
  let? sequence :=
    ok_or (u64_try_from (col_sequence row))
      (Corrupt 4 "out of range integral type conversion attempted") in
  let? stream_kind := decode_stream_kind (col_stream_kind row) in
  let? actor_kind := decode_principal_kind (col_actor_kind row) in
  Ok {|
    schema := col_schema row;
    event_id := col_event_id row;
    sequence := sequence;
    recorded_at_ms := col_recorded_at_ms row;
    request := {|
      stream_id := col_stream_id row;
      stream_kind := stream_kind;
      observed_at_ms := col_observed_at_ms row;
      event_type := col_event_type row;
      payload_schema := col_payload_schema row;
      payload := payload;
      actor := mkPrincipalRef actor_kind (col_actor_id row);
      authority_id := col_authority_id row;
      activity_id := col_activity_id row;
      correlation_id := col_correlation_id row;
      causation_id := col_causation_id row;
      deduplication_key := col_deduplication_key row;
    |};
  |}.

(** The parameters [insert_event] binds to the INSERT. *)
Definition event_row (r : AppendRequest) (id : EventId) (seq recorded : Z) : EventRow :=
  let p := encode_payload (payload r) in {|
    col_schema := COMMITTED_EVENT_SCHEMA;
    col_event_id := id;
    col_stream_id := stream_id r;
    col_stream_kind := encode_stream_kind (stream_kind r);
    col_sequence := seq;
    col_recorded_at_ms := recorded;
    col_observed_at_ms := observed_at_ms r;
    col_event_type := event_type r;
    col_payload_schema := payload_schema r;
    col_payload_kind := enc_kind p;
    col_payload_json := enc_json p;
    col_blob_digest := enc_digest p;
    col_blob_size := enc_size p;
    col_blob_media_type := enc_media_type p;
    col_actor_kind := encode_principal_kind (principal_kind (actor r));
    col_actor_id := principal_id (actor r);
    col_authority_id := authority_id r;
    col_activity_id := activity_id r;
    col_correlation_id := correlation_id r;
    col_causation_id := causation_id r;
    col_deduplication_key := deduplication_key r;
  |}.

(** [searchable_payload_text]. *)
Definition searchable_payload_text (r : AppendRequest) : string :=
  if String.eqb (event_type r) "cognition.checkpoint"
     || String.eqb (event_type r) "cognition.job-updated"
  then ""
  else match payload r with
       | CanonicalJson b => str_of_chars (take (N.to_nat 8192) (lossy_chars b))
       | Blob _ => ""
       end.

(** ** Table constraints of the schema *)

Definition same_key (a b : option string) : bool :=
  match a, b with
  | Some x, Some y => String.eqb x y
  | _, _ => false
  end.

(** The CHECK clauses of [events]. *)
Definition row_checks (r : EventRow) : bool :=
  ((col_stream_kind r =? 0) || (col_stream_kind r =? 1))%Z
  && (0 <? col_sequence r)%Z
  && negb (str_is_empty (col_event_type r))
  && negb (str_is_empty (col_payload_schema r))
  && ((0 <=? col_actor_kind r) && (col_actor_kind r <=? 4))%Z
  && negb (is_some_and (col_deduplication_key r) str_is_empty)
  && (((col_payload_kind r =? 0)%Z && opt_is_some (col_payload_json r)
       && negb (opt_is_some (col_blob_digest r)) && negb (opt_is_some (col_blob_size r))
       && negb (opt_is_some (col_blob_media_type r)))
      || ((col_payload_kind r =? 1)%Z && negb (opt_is_some (col_payload_json r))
          && opt_is_some (col_blob_digest r) && opt_is_some (col_blob_size r)
          && opt_is_some (col_blob_media_type r))).

(** PRIMARY KEY and the two UNIQUE clauses of [events] against a stored row. *)
Definition row_conflict (new old : EventRow) : bool :=
  String.eqb (col_event_id new) (col_event_id old)
  || (String.eqb (col_stream_id new) (col_stream_id old)
      && ((col_sequence new =? col_sequence old)%Z
          || same_key (col_deduplication_key new) (col_deduplication_key old))).

(** INSERT INTO events. *)
Definition insert_row (r : EventRow) (d : Database) : result (unit * Database) string :=
  if negb (row_checks r) then Err "CHECK constraint failed"
  else if existsb (row_conflict r) (t_events d) then Err "UNIQUE constraint failed"
  else if negb (opt_is_some (t_streams d !! col_stream_id r))
  then Err "FOREIGN KEY constraint failed"
  else Ok (tt, mkDatabase (t_streams d) (t_events d ++ [r]) (t_event_search d)
                 (t_namespaces d) (t_state d) (t_cursors d) (t_credentials d)).

Definition set_streams (f : gmap string (Z * Z) → gmap string (Z * Z)) (d : Database) : Database :=
  mkDatabase (f (t_streams d)) (t_events d) (t_event_search d) (t_namespaces d) (t_state d)
    (t_cursors d) (t_credentials d).
Definition set_search (f : list SearchRow → list SearchRow) (d : Database) : Database :=
  mkDatabase (t_streams d) (t_events d) (f (t_event_search d)) (t_namespaces d) (t_state d)
    (t_cursors d) (t_credentials d).
Definition set_namespaces (f : gmap string string → gmap string string) (d : Database) : Database :=
  mkDatabase (t_streams d) (t_events d) (t_event_search d) (f (t_namespaces d)) (t_state d)
    (t_cursors d) (t_credentials d).
Definition set_state (f : gmap (string * string) bytes → gmap (string * string) bytes)
    (d : Database) : Database :=
  mkDatabase (t_streams d) (t_events d) (t_event_search d) (t_namespaces d) (f (t_state d))
    (t_cursors d) (t_credentials d).
Definition set_cursors (f : gmap (string * string) string → gmap (string * string) string)
    (d : Database) : Database :=
  mkDatabase (t_streams d) (t_events d) (t_event_search d) (t_namespaces d) (t_state d)
    (f (t_cursors d)) (t_credentials d).
Definition set_credentials (f : gmap (string * string) bytes → gmap (string * string) bytes)
    (d : Database) : Database :=
  mkDatabase (t_streams d) (t_events d) (t_event_search d) (t_namespaces d) (t_state d)
    (t_cursors d) (f (t_credentials d)).

(** INSERT ... ON CONFLICT DO NOTHING. *)
Definition insert_or_nothing {K V} `{Countable K} (k : K) (v : V) (m : gmap K V) : gmap K V :=
  match m !! k with
  | Some _ => m
  | None => <[k := v]> m
  end.

(** ** Search queries *)

Definition QUOTE : ascii := ascii_of_N 34.

(** The loop of [literal_search_query] over the characters: the finished
    tokens and the token being read. *)
Fixpoint tokenize `{UnicodeTables} (input : list N) (tokens : list (list N)) (token : list N)
    : list (list N) :=
  match input with
  | [] => if bool_decide (token = []) then tokens else tokens ++ [token]
  | c :: input =>
      if is_alphanumeric c || (c =? 95)%N then tokenize input tokens (token ++ [c])
      else if bool_decide (token = []) then tokenize input tokens token
      else tokenize input (tokens ++ [token]) []
  end.

(** [token.replace] of a double quote by two. *)
Definition double_quotes (token : list N) : list N :=
  flat_map (λ c, if (c =? 34)%N then [34; 34]%N else [c]) token.

Definition quoted (token : list N) : string :=
  String QUOTE (str_of_chars (double_quotes token)) +:+ String QUOTE "".

(** [tokens.join(" AND ")]. *)
Fixpoint join (sep : string) (l : list string) : string :=
  match l with
  | [] => ""
  | [s] => s
  | s :: l => s +:+ sep +:+ join sep l
  end.

(** [literal_search_query]. *)
Definition literal_search_query `{UnicodeTables} (input : string) : option string :=
  let tokens := tokenize (chars input) [] [] in
  if bool_decide (tokens = []) then None
  else Some (join " AND " (quoted <$> tokens)).

(** ORDER BY sequence ASC and DESC. *)
Definition seq_le (a b : EventRow) : Prop := (col_sequence a ≤ col_sequence b)%Z.
#[export] Instance seq_le_dec : RelDecision seq_le.
Proof. intros a b. unfold seq_le. apply _. Defined.
Definition order_ascending (rows : list EventRow) : list EventRow := merge_sort seq_le rows.
Definition order_descending (rows : list EventRow) : list EventRow :=
  merge_sort (flip seq_le) rows.

(** ** The store's calls *)

Section store.
Context {M : Type} `{MS : !EventMetadataSource M} {SQ : Sqlite} {UT : UnicodeTables}.

(** [storage], [delivery_storage], [state_storage], [secret_storage] are the
    error constructors the statements below are given. *)

Definition decode_row (row : EventRow) : result CommittedEvent string :=
  map_err row_error_to_string (decode_event row).

(** [rows.collect::<rusqlite::Result<Vec<_>>>()]. *)
Fixpoint decode_rows (rows : list EventRow) : result (list CommittedEvent) string :=
  match rows with
  | [] => Ok []
  | row :: rows =>
      let? e := decode_row row in
      let? es := decode_rows rows in
      Ok (e :: es)
  end.

(** [query_row(...).optional()]: the first row, decoded. *)
Definition first_event (p : EventRow → bool) (d : Database)
    : result (option CommittedEvent) string :=
  match find p (t_events d) with
  | None => Ok None
  | Some row => let? e := decode_row row in Ok (Some e)
  end.

(** [i64::try_from(limit).unwrap_or(i64::MAX)], then LIMIT. *)
Definition sql_limit (limit : N) : nat := Z.to_nat (default i64_max (i64_try_from limit)).

(** [insert_event]: the row, its search entry, the stream's counter. *)
Definition insert_event (r : AppendRequest) (id : EventId) (seq recorded : Z)
    : Tx M AppendError unit :=
  do* exec AppendStorage (insert_row (event_row r id seq recorded));
  do* update AppendStorage
        (set_search (λ l, l ++ [mkSearchRow id (stream_id r) (event_type r)
                                  (searchable_payload_text r)]));
  update AppendStorage
    (set_streams (alter (λ '(kind, _), (kind, seq + 1)%Z) (stream_id r))).

(** The deduplication lookup of [append_in]. *)
Definition find_duplicate (r : AppendRequest) : Tx M AppendError (option CommittedEvent) :=
  match deduplication_key r with
  | Some key =>
      select AppendStorage
        (first_event (λ row, String.eqb (col_stream_id row) (stream_id r)
                             && same_key (col_deduplication_key row) (Some key)))
  | None => tx_ret None
  end.

Definition fresh_event_id : Tx M AppendError EventId :=
  λ w, let '(id, m) := next_event_id (meta w) in (Ok id, set_meta m w).
Definition read_clock : Tx M AppendError Z :=
  λ w, let '(t, m) := now_ms (meta w) in (Ok t, set_meta m w).

(** The stream's row, created at sequence 1 if absent, and the checks on it. *)
Definition claim_sequence (r : AppendRequest) : Tx M AppendError Z :=
  let kind := encode_stream_kind (stream_kind r) in
  do* update AppendStorage (set_streams (insert_or_nothing (stream_id r) (kind, 1%Z)));
  let* (stored_kind, seq) :=
    select AppendStorage
      (λ d, ok_or (t_streams d !! stream_id r) "Query returned no rows") in
  if negb (stored_kind =? kind)%Z
  then tx_fail (InvalidEvent ("stream kind changed for " +:+ stream_id r))
  else if (seq <=? 0)%Z || (seq =? i64_max)%Z
  then tx_fail (AppendStorage "stream sequence exhausted")
  else tx_ret seq.

(** A fresh identifier, the collision test, the clock, the rows, the event. *)
Definition insert_new (r : AppendRequest) (seq : Z) : Tx M AppendError CommittedEvent :=
  let* id := fresh_event_id in
  let* collision :=
    select AppendStorage
      (λ d, Ok (existsb (λ row, String.eqb (col_event_id row) id) (t_events d))) in
  if (collision : bool)
  then tx_fail (AppendStorage ("event ID collision: " +:+ id))
  else
    let* recorded := read_clock in
    do* insert_event r id seq recorded;
    let* sequence :=
      tx_lift (ok_or (u64_try_from seq) (AppendStorage "negative stream sequence")) in
    tx_ret (mkCommittedEvent COMMITTED_EVENT_SCHEMA id sequence recorded r).

(** [SqliteEventStore::append_in]. *)
Definition append_in (r : AppendRequest) : Tx M AppendError CommittedEvent :=
  do* tx_lift (validate r);
  let* existing := find_duplicate r in
  match existing with
  | Some event => tx_ret event
  | None =>
      let* seq := claim_sequence r in
      insert_new r seq
  end.

(** [EventStore::append]. *)
Definition append (r : AppendRequest) : Tx M AppendError CommittedEvent :=
  transaction AppendStorage (append_in r).

(** [EventStore::read]. *)
Definition read (stream : StreamId) (after : N) (limit : N)
    : Tx M AppendError (list CommittedEvent) :=
  match i64_try_from after with
  | None => tx_ret []
  | Some after =>
      select AppendStorage (λ d,
        decode_rows (take (sql_limit limit) (order_ascending
          (filter (λ row, String.eqb (col_stream_id row) stream
                          && (after <? col_sequence row)%Z = true) (t_events d)))))
  end.

(** [EventStore::get]. *)
Definition get (id : EventId) : Tx M AppendError (option CommittedEvent) :=
  select AppendStorage (first_event (λ row, String.eqb (col_event_id row) id)).

(** The WHERE clause [EventStore::query] assembles; [None] is its early
    return of an empty page. *)
Definition sql_bound (bound : option N) : option (option Z) :=
  match bound with
  | None => Some None
  | Some n => match i64_try_from n with
              | None => None
              | Some z => Some (Some z)
              end
  end.

Definition sql_text (text : option string) : option (option string) :=
  match text with
  | None => Some None
  | Some t => match literal_search_query t with
              | None => None
              | Some q => Some (Some q)
              end
  end.

Definition in_search (d : Database) (q : string) (row : EventRow) : bool :=
  existsb (λ s, String.eqb (search_event_id s) (col_event_id row)
                && fts_match q (search_event_type s) (search_payload_text s)) (t_event_search d).

Definition where_clause (d : Database) (stream : StreamId) (q : EventQuery)
    (after before : option Z) (text : option string) (row : EventRow) : bool :=
  String.eqb (col_stream_id row) stream
  && is_none_or after (λ a, a <? col_sequence row)%Z
  && is_none_or before (λ b, col_sequence row <? b)%Z
  && (bool_decide (event_types q = []) || str_mem (col_event_type row) (event_types q))
  && is_none_or (q_correlation_id q) (λ c, same_key (col_correlation_id row) (Some c))
  && is_none_or (q_activity_id q) (λ a, same_key (col_activity_id row) (Some a))
  && is_none_or (recorded_from_ms q) (λ from, from <=? col_recorded_at_ms row)%Z
  && is_none_or (recorded_to_ms q) (λ to, col_recorded_at_ms row <=? to)%Z
  && is_none_or text (λ t, in_search d t row).

(** [EventStore::query]. *)
Definition query (stream : StreamId) (q : EventQuery) (limit : N)
    : Tx M AppendError (list CommittedEvent) :=
  match sql_bound (after_sequence q), sql_bound (before_sequence q), sql_text (text_query q) with
  | Some after, Some before, Some text =>
      select AppendStorage (λ d,
        let rows := filter (λ row, where_clause d stream q after before text row = true)
                      (t_events d) in
        let ordered := if descending q then order_descending rows else order_ascending rows in
        decode_rows (take (sql_limit limit) ordered))
  | _, _, _ => tx_ret []
  end.

(** *** Component state *)

(** [state_revision]. *)
Definition state_revision {E} (of_state : StateError → E) (namespace : StateNamespace)
    : Tx M E N :=
  let* text := select (λ m, of_state (StateStorage m))
                 (λ d, Ok (default "0" (t_namespaces d !! namespace))) in
  tx_lift (map_err (λ e, of_state (StateStorage ("invalid state revision: " +:+ e)))
             (parse_u64 text)).

(** [StateStore::get]. *)
Definition state_get (namespace : StateNamespace) (key : string) : Tx M StateError StateSnapshot :=
  transaction StateStorage (
    let* revision := state_revision id namespace in
    let* value := select StateStorage (λ d, Ok (t_state d !! (namespace, key))) in
    tx_ret (mkStateSnapshot revision value)).

(** SQL [length(text)]: the characters before the first NUL. *)
Fixpoint until_nul (cs : list N) : list N :=
  match cs with
  | [] => []
  | c :: cs => if (c =? 0)%N then [] else c :: until_nul cs
  end.

(** [substr(key, 1, length(prefix)) = prefix]. *)
Definition sql_has_prefix (prefix key : string) : bool :=
  bool_decide (take (length (until_nul (chars prefix))) (chars key) = chars prefix).

Definition entry_le (a b : StateEntry) : Prop := String.le (entry_key a) (entry_key b).
#[export] Instance entry_le_dec : RelDecision entry_le.
Proof. intros a b. unfold entry_le. apply _. Defined.

(** SELECT key, value ... ORDER BY key, without its LIMIT. *)
Definition state_rows (d : Database) (namespace : StateNamespace) (prefix : string)
    (after_key : option string) : list StateEntry :=
  merge_sort entry_le
    (omap (λ '((ns, key), value),
       if String.eqb ns namespace
          && sql_has_prefix prefix key
          && is_none_or after_key (λ after, negb (bool_decide (String.le key after)))
       then Some (mkStateEntry key value) else None)
     (map_to_list (t_state d))).

(** [StateStore::scan]: one entry more than the limit is read, to know
    whether another page follows. *)
Definition state_scan (namespace : StateNamespace) (prefix : string)
    (after_key : option string) (limit : N) : Tx M StateError StatePage :=
  transaction StateStorage (
    let* revision := state_revision id namespace in
    let* rows := select StateStorage (λ d,
      Ok (take (sql_limit (saturating_add_u64 limit 1))
            (state_rows d namespace prefix after_key))) in
    let has_more := (limit <? len rows)%N in
    let entries := take (N.to_nat limit) rows in
    tx_ret (mkStatePage entries
              (if has_more then entry_key <$> last entries else None) revision)).

(** One mutation: the upsert or the DELETE. *)
Definition apply_mutation (namespace : StateNamespace) (m : StateMutation) (d : Database)
    : result (unit * Database) string :=
  match m with
  | Set_ key value =>
      if negb (opt_is_some (t_namespaces d !! namespace))
      then Err "FOREIGN KEY constraint failed"
      else Ok (tt, set_state <[(namespace, key) := value]> d)
  | Delete key => Ok (tt, set_state (delete (namespace, key)) d)
  end.

Fixpoint apply_mutations {E} (wrap : string → E) (namespace : StateNamespace)
    (ms : list StateMutation) : Tx M E unit :=
  match ms with
  | [] => tx_ret tt
  | m :: ms =>
      do* exec wrap (apply_mutation namespace m);
      apply_mutations wrap namespace ms
  end.

(** UPDATE component_state_namespaces SET revision. *)
Definition store_revision {E} (wrap : string → E) (namespace : StateNamespace) (revision : N)
    : Tx M E unit :=
  update wrap (set_namespaces (alter (λ _, u64_to_string revision) namespace)).

(** [StateStore::apply]. *)
Definition state_apply (namespace : StateNamespace) (expected_revision : N)
    (ms : list StateMutation) : Tx M StateError N :=
  transaction StateStorage (
    do* update StateStorage (set_namespaces (insert_or_nothing namespace "0"));
    let* actual_revision := state_revision id namespace in
    if negb (actual_revision =? expected_revision)%N
    then tx_fail (StateConflict expected_revision actual_revision)
    else if bool_decide (ms = []) then tx_ret actual_revision
    else
      do* apply_mutations StateStorage namespace ms;
      let* revision := tx_lift (ok_or (checked_add_u64 actual_revision 1)
                                  (StateStorage "state revision exhausted")) in
      do* store_revision StateStorage namespace revision;
      tx_ret revision).

(** *** Deliveries *)

(** [read_checkpoint]. *)
Definition read_checkpoint (c : CursorKey) : Tx M DeliveryError N :=
  let* text := select DeliveryStorage (λ d,
    Ok (default "0" (t_cursors d !! (cursor_stream_id c, cursor_namespace c)))) in
  tx_lift (map_err (λ e, DeliveryStorage ("invalid delivery checkpoint: " +:+ e))
             (parse_u64 text)).

(** The mutations and the revision of [DeliveryStore::commit]. *)
Definition commit_state (namespace : StateNamespace) (ms : list StateMutation)
    : Tx M DeliveryError N :=
  do* update DeliveryStorage (set_namespaces (insert_or_nothing namespace "0"));
  let* revision := state_revision DeliveryState namespace in
  if bool_decide (ms = []) then tx_ret revision
  else
    do* apply_mutations DeliveryStorage namespace ms;
    let* revision := tx_lift (ok_or (checked_add_u64 revision 1)
                                (DeliveryStorage "state revision exhausted")) in
    do* store_revision DeliveryStorage namespace revision;
    tx_ret revision.

(** The loop over the proposed events. *)
Fixpoint append_all (rs : list AppendRequest) : Tx M DeliveryError (list CommittedEvent) :=
  match rs with
  | [] => tx_ret []
  | r :: rs =>
      let* e := tx_map_err DeliveryAppend (append_in r) in
      let* es := append_all rs in
      tx_ret (e :: es)
  end.

Definition store_checkpoint (c : CursorKey) (k : N) : Tx M DeliveryError unit :=
  update DeliveryStorage
    (set_cursors <[(cursor_stream_id c, cursor_namespace c) := u64_to_string k]>).

(** [DeliveryStore::commit]. *)
Definition commit (c : DeliveryCommit) : Tx M DeliveryError DeliveryReceipt :=
  do* tx_lift (delivery_validate c);
  transaction DeliveryStorage (
    let* stored := read_checkpoint (cursor c) in
    if negb (stored =? expected_checkpoint c)%N
    then tx_fail (DeliveryConflict (expected_checkpoint c) stored)
    else
      let* revision := commit_state (cursor_namespace (cursor c)) (mutations c) in
      let* committed := append_all (events c) in
      let new_checkpoint := default stored (checkpoint c) in
      do* (if opt_is_some (checkpoint c) then store_checkpoint (cursor c) new_checkpoint
           else tx_ret tt);
      tx_ret (mkDeliveryReceipt committed new_checkpoint revision)).

(** [DeliveryStore::checkpoint]. *)
Definition get_checkpoint (c : CursorKey) : Tx M DeliveryError N := read_checkpoint c.

(** [DeliveryStore::discard]; the namespace row goes after the state rows
    that refer to it. *)
Definition discard (c : CursorKey) : Tx M DeliveryError unit :=
  transaction DeliveryStorage (
    do* update DeliveryStorage
          (set_state (filter (λ '((ns, _), _), ns ≠ cursor_namespace c)));
    do* update DeliveryStorage (set_namespaces (delete (cursor_namespace c)));
    update DeliveryStorage (set_cursors (delete (cursor_stream_id c, cursor_namespace c)))).

(** *** Credentials *)

(** [PluginCredentialStore::read_plugin_credential]. *)
Definition sqlite_read_credential (handle : SecretHandle) (provider : string)
    : Tx M SecretError (option bytes) :=
  select SecretStorage (λ d, Ok (t_credentials d !! (handle, provider))).

(** UPDATE ... AND value = ?4, and INSERT OR IGNORE: the rows changed. *)
Definition credential_update (handle : SecretHandle) (provider : string)
    (expected : option bytes) (value : bytes) (d : Database) : N * Database :=
  match expected with
  | Some previous =>
      if bool_decide (t_credentials d !! (handle, provider) = Some previous)
      then (1%N, set_credentials <[(handle, provider) := value]> d)
      else (0%N, d)
  | None =>
      match t_credentials d !! (handle, provider) with
      | Some _ => (0%N, d)
      | None => (1%N, set_credentials <[(handle, provider) := value]> d)
      end
  end.

(** [PluginCredentialStore::replace_plugin_credential]. *)
Definition sqlite_replace_credential (handle : SecretHandle) (provider : string)
    (expected : option bytes) (value : bytes) : Tx M SecretError bool :=
  let* changed := exec SecretStorage (λ d, Ok (credential_update handle provider expected value d)) in
  tx_ret (changed =? 1)%N.
End store.
