(* ===== verification/SqliteLog.v ===== *)
(** The event log inside the SQLite tables: the row codec, the database
    invariant, and what appending, reading, fetching and querying do to the
    log it represents. *)
From stdpp Require Import base tactics option list strings sorting gmap.
From Stdlib Require Import ZArith NArith Lia Ascii.
From S2P Require Import Prelude Event EventStore Delivery Utf8 Sqlite.

(** ** Monad lemmas *)

Section monad.
Context {M : Type} {SQ : Sqlite}.
Implicit Types (w : World M).

Lemma tx_bind_ok {E A B} (m : Tx M E A) (k : A → Tx M E B) w b w' :
  tx_bind m k w = (Ok b, w') ↔ ∃ a w1, m w = (Ok a, w1) ∧ k a w1 = (Ok b, w').
Proof. unfold tx_bind. destruct (m w) as [[a|e] w1]; naive_solver. Qed.

Lemma tx_map_err_ok {E F A} (f : E → F) (m : Tx M E A) w a w' :
  tx_map_err f m w = (Ok a, w') ↔ m w = (Ok a, w').
Proof. unfold tx_map_err. destruct (m w) as [[|] ?]; naive_solver. Qed.

Lemma tx_lift_ok {E A} (r : result A E) w a w' :
  tx_lift r w = (Ok a, w') ↔ r = Ok a ∧ w' = w.
Proof. unfold tx_lift. naive_solver. Qed.

Lemma tx_ret_ok {E A} (x : A) w a w' :
  tx_ret (E := E) x w = (Ok a, w') ↔ a = x ∧ w' = w.
Proof. unfold tx_ret. naive_solver. Qed.

Lemma exec_ok {E A} (wrap : string → E) f w (a : A) w' :
  exec wrap f w = (Ok a, w') →
  ∃ d, f (db w) = Ok (a, d) ∧ w' = set_db d (tick w).
Proof. unfold exec. intros H. repeat case_match; simplify_eq; eauto. Qed.

Lemma exec_err {E A} (wrap : string → E) (f : Database → result (A * Database) string) w e w' :
  exec wrap f w = (Err e, w') → db w' = db w.
Proof. unfold exec. intros H. repeat case_match; by simplify_eq. Qed.

Lemma select_ok {E A} (wrap : string → E) f w (a : A) w' :
  select wrap f w = (Ok a, w') → f (db w) = Ok a ∧ w' = tick w.
Proof. intros (d & H & ->)%exec_ok. res_inv. simplify_eq. by destruct w. Qed.

Lemma select_db {E A} (wrap : string → E) (f : Database → result A string) w r w' :
  select wrap f w = (r, w') → db w' = db w.
Proof. destruct r; [by intros [_ ->]%select_ok | apply exec_err]. Qed.

Lemma update_ok {E} (wrap : string → E) f w w' :
  update wrap f w = (Ok tt, w') → w' = set_db (f (db w)) (tick w).
Proof. intros (d & H & ->)%exec_ok. by simplify_eq. Qed.

(** Success commits the body's tables; failure restores the old ones. *)
Lemma transaction_ok {E A} (wrap : string → E) (body : Tx M E A) w a w' :
  transaction wrap body w = (Ok a, w') →
  ∃ w2, body (tick w) = (Ok a, w2) ∧ w' = tick w2.
Proof.
  unfold transaction. destruct (update wrap id w) as [[[]|] w1] eqn:E1; [|done].
  apply update_ok in E1 as ->. destruct (body _) as [[b|] w2] eqn:E2; [|done].
  destruct (update wrap id w2) as [[[]|] w3] eqn:E3; [|done].
  apply update_ok in E3 as ->. intros [= <- <-]. exists w2.
  destruct w, w2. done.
Qed.

Lemma transaction_err {E A} (wrap : string → E) (body : Tx M E A) w e w' :
  transaction wrap body w = (Err e, w') → db w' = db w.
Proof.
  unfold transaction. destruct (update wrap id w) as [[[]|] w1] eqn:E1.
  - destruct (body w1) as [[b|] w2]; [|by intros [= _ <-]].
    destruct (update wrap id w2) as [[[]|] w3]; [done|by intros [= _ <-]].
  - intros [= _ <-]. by apply exec_err in E1.
Qed.

(** Without I/O errors a statement runs. *)
Definition no_io_errors : Prop := ∀ n, io_error n = None.

Lemma exec_run {E A} (wrap : string → E) f w (a : A) d :
  no_io_errors → f (db w) = Ok (a, d) → exec wrap f w = (Ok a, set_db d (tick w)).
Proof. intros Hio Hf. unfold exec. by rewrite Hio, Hf. Qed.

Lemma select_run {E A} (wrap : string → E) f w (a : A) :
  no_io_errors → f (db w) = Ok a → select wrap f w = (Ok a, tick w).
Proof.
  intros Hio Hf. unfold select. erewrite exec_run; [|done|by rewrite Hf]. by destruct w.
Qed.

Lemma update_run {E} (wrap : string → E) f w :
  no_io_errors → update wrap f w = (Ok tt, set_db (f (db w)) (tick w)).
Proof. intros Hio. by apply exec_run. Qed.

Lemma transaction_run {E A} (wrap : string → E) (body : Tx M E A) w :
  no_io_errors →
  transaction wrap body w =
    match body (tick w) with
    | (Ok a, w2) => (Ok a, tick w2)
    | (Err e, w2) => (Err e, set_db (db w) w2)
    end.
Proof.
  intros Hio. unfold transaction. rewrite (update_run wrap id w Hio).
  replace (set_db (id (db w)) (tick w)) with (tick w) by by destruct w.
  destruct (body (tick w)) as [[a|e] w2]; [|done].
  rewrite (update_run wrap id w2 Hio). by destruct w2.
Qed.
End monad.

(** Splits a successful run into the runs of its steps. *)
Ltac tx_inv :=
  repeat match goal with
    | H : tx_bind _ _ _ = (Ok _, _) |- _ =>
        apply tx_bind_ok in H; destruct H as (? & ? & ? & H)
    | H : tx_map_err _ _ _ = (Ok _, _) |- _ => apply tx_map_err_ok in H
    | H : tx_lift _ _ = (Ok _, _) |- _ => apply tx_lift_ok in H; destruct H as [H ?]; subst
    | H : tx_ret _ _ = (Ok _, _) |- _ => apply tx_ret_ok in H; destruct H as [? ?]; subst
    | H : tx_fail _ _ = (Ok _, _) |- _ => discriminate H
    | H : select _ _ _ = (Ok _, _) |- _ => apply select_ok in H; destruct H as [H ?]; subst
    | H : update _ _ _ = (Ok _, _) |- _ => apply update_ok in H; subst
    | H : unit |- _ => destruct H
    end.

(** ** The row codec *)

(** The row a committed event is stored as. *)
Definition row_of (e : CommittedEvent) : EventRow :=
  event_row (request e) (event_id e) (Z.of_N (sequence e)) (recorded_at_ms e).

Definition search_row (e : CommittedEvent) : SearchRow :=
  mkSearchRow (event_id e) (stream_id (request e)) (event_type (request e))
    (searchable_payload_text (request e)).

Definition wf_event (e : CommittedEvent) : Prop :=
  schema e = COMMITTED_EVENT_SCHEMA ∧ valid_request (request e) ∧ request_typed (request e) ∧
  (1 ≤ sequence e)%N.

Lemma decode_encode_stream_kind k : decode_stream_kind (encode_stream_kind k) = Ok k.
Proof. by destruct k. Qed.

Lemma decode_encode_principal_kind k : decode_principal_kind (encode_principal_kind k) = Ok k.
Proof. by destruct k. Qed.

Lemma encode_stream_kind_inj k k' : encode_stream_kind k = encode_stream_kind k' → k = k'.
Proof. by destruct k, k'. Qed.

Lemma blob_ref_algorithm b : validate_blob_ref b = Ok tt → algorithm b = SHA256_ALGORITHM.
Proof.
  unfold validate_blob_ref. intros H.
  destruct (String.eqb (algorithm b) SHA256_ALGORITHM) eqn:E; [by bool_cases|done].
Qed.

Lemma decode_row_of e : wf_event e → decode_event (row_of e) = Ok e.
Proof.
  intros (Hs & Hv & Ht & _). destruct e as [sc id sq rec r]. cbn in Hs, Hv, Ht. subst sc.
  unfold decode_event, row_of, event_row. cbn -[parse_u64 u64_to_string].
  unfold u64_try_from. rewrite (proj2 (Z.leb_le 0 (Z.of_N sq))) by lia. cbn [ok_or].
  rewrite N2Z.id, decode_encode_stream_kind, decode_encode_principal_kind.
  destruct r as [st k ob ty ps p a au ac co ca de]. cbn in *. destruct a as [ak ai]. cbn.
  unfold valid_request, request_typed in *. cbn in Hv, Ht.
  destruct p as [b|[al di si mt]]; cbn -[parse_u64 u64_to_string]; [done|].
  rewrite parse_u64_to_string by done. cbn.
  destruct Hv as (_ & _ & _ & _ & Hv). apply blob_ref_algorithm in Hv. cbn in Hv. by rewrite Hv.
Qed.

(** ** The log a database represents *)

Definition event_log (d : Database) : list CommittedEvent :=
  omap (λ row, result_ok (decode_event row)) (t_events d).

Definition stream_log (d : Database) (s : StreamId) : list CommittedEvent :=
  filter (λ e, stream_id (request e) = s) (event_log d).

(** The sequence the next event of a stream gets. *)
Definition next_sequence (d : Database) (s : StreamId) : Z := default 1%Z (snd <$> t_streams d !! s).

(** The database invariant. *)
Record wf_db (d : Database) : Prop := {
  wf_rows : t_events d = row_of <$> event_log d;
  wf_events : Forall wf_event (event_log d);
  wf_ids : NoDup (event_id <$> event_log d);
  wf_gapless : ∀ s i e, stream_log d s !! i = Some e → sequence e = N.of_nat (S i);
  wf_counter : ∀ s, next_sequence d s = Z.of_nat (S (length (stream_log d s)));
  wf_counter_max : ∀ s, (next_sequence d s ≤ i64_max)%Z;
  wf_kinds : ∀ s k n, t_streams d !! s = Some (k, n) → (k = 0%Z ∨ k = 1%Z) ∧
    Forall (λ e, encode_stream_kind (stream_kind (request e)) = k) (stream_log d s);
  wf_streams : ∀ s, stream_log d s ≠ [] → is_Some (t_streams d !! s);
  wf_dedup : ∀ s, NoDup (omap (λ e, deduplication_key (request e)) (stream_log d s));
  wf_search : t_event_search d = search_row <$> event_log d;
  wf_namespaces : ∀ ns t, t_namespaces d !! ns = Some t → ∃ n, u64_range n ∧ t = u64_to_string n;
  wf_state : ∀ ns k v, t_state d !! (ns, k) = Some v → is_Some (t_namespaces d !! ns);
  wf_cursors : ∀ c t, t_cursors d !! c = Some t → ∃ n, u64_range n ∧ t = u64_to_string n;
}.

Lemma empty_database_wf : wf_db empty_database.
Proof.
  split; simpl; try done.
  - constructor.
  - intros. constructor.
Qed.

Lemma omap_decode_rows es :
  Forall wf_event es → omap (λ row, result_ok (decode_event row)) (row_of <$> es) = es.
Proof.
  induction 1 as [|e es He _ IH]; csimpl; [done|]. rewrite decode_row_of by done. csimpl.
  by rewrite IH.
Qed.

Lemma event_log_rows d es :
  Forall wf_event es → t_events d = row_of <$> es → event_log d = es.
Proof. intros Hes Hd. unfold event_log. by rewrite Hd, omap_decode_rows. Qed.

Lemma stream_log_elem d s e :
  e ∈ stream_log d s ↔ e ∈ event_log d ∧ stream_id (request e) = s.
Proof. unfold stream_log. rewrite list_elem_of_filter. naive_solver. Qed.

Lemma event_log_stream d e :
  e ∈ event_log d ↔ e ∈ stream_log d (stream_id (request e)).
Proof. rewrite stream_log_elem. naive_solver. Qed.

(** ** Appending *)

(** The database after committing [e]. *)
Definition appended (d : Database) (e : CommittedEvent) : Database :=
  mkDatabase
    (<[stream_id (request e) :=
         (encode_stream_kind (stream_kind (request e)), (Z.of_N (sequence e) + 1)%Z)]> (t_streams d))
    (t_events d ++ [row_of e]) (t_event_search d ++ [search_row e])
    (t_namespaces d) (t_state d) (t_cursors d) (t_credentials d).

(** What [append_in] has checked when it inserts [e]. *)
Record appendable (d : Database) (e : CommittedEvent) : Prop := {
  app_schema : schema e = COMMITTED_EVENT_SCHEMA;
  app_valid : valid_request (request e);
  app_fresh : event_id e ∉ event_id <$> event_log d;
  app_sequence : sequence e = N.of_nat (S (length (stream_log d (stream_id (request e)))));
  app_max : (Z.of_N (sequence e) < i64_max)%Z;
  app_kind : ∀ k n, t_streams d !! stream_id (request e) = Some (k, n) →
    k = encode_stream_kind (stream_kind (request e));
  app_dedup : ∀ key, deduplication_key (request e) = Some key →
    key ∉ omap (λ e, deduplication_key (request e)) (stream_log d (stream_id (request e)));
}.

Lemma appended_event_log d e :
  wf_db d → appendable d e → request_typed (request e) →
  event_log (appended d e) = event_log d ++ [e].
Proof.
  intros Hd He Ht. apply event_log_rows.
  - apply Forall_app. split; [apply (wf_events _ Hd)|]. constructor; [|done].
    destruct He. split_and!; try done. lia.
  - simpl. by rewrite (wf_rows _ Hd), fmap_app.
Qed.

Lemma appended_stream_log d e s :
  wf_db d → appendable d e → request_typed (request e) →
  stream_log (appended d e) s =
    stream_log d s ++ (if decide (stream_id (request e) = s) then [e] else []).
Proof.
  intros Hd He Ht. unfold stream_log. rewrite appended_event_log by done.
  by rewrite filter_app, filter_cons, filter_nil.
Qed.

Lemma appended_next_sequence d e s :
  next_sequence (appended d e) s =
    if decide (stream_id (request e) = s) then (Z.of_N (sequence e) + 1)%Z else next_sequence d s.
Proof.
  unfold next_sequence. simpl. rewrite lookup_insert. by case_decide.
Qed.

Lemma appended_wf d e :
  wf_db d → appendable d e → request_typed (request e) → wf_db (appended d e).
Proof.
  intros Hd He Ht. pose proof (appended_event_log d e Hd He Ht) as Hlog.
  pose proof (λ s, appended_stream_log d e s Hd He Ht) as Hs.
  split; try done; try (by destruct Hd).
  - rewrite Hlog. simpl. by rewrite (wf_rows _ Hd), fmap_app.
  - rewrite Hlog. apply Forall_app. split; [apply (wf_events _ Hd)|]. constructor; [|done].
    destruct He. split_and!; try done. lia.
  - rewrite Hlog, fmap_app. simpl. apply NoDup_app. split_and!; [apply (wf_ids _ Hd)| |].
    + intros x Hx ->%list_elem_of_singleton. by apply (app_fresh _ _ He).
    + apply NoDup_singleton.
  - intros s i x. rewrite Hs. rewrite lookup_app_Some. intros [Hx|[Hi Hx]].
    + by apply (wf_gapless _ Hd) in Hx.
    + case_decide as Hse; [|done]. apply list_lookup_singleton_Some in Hx as [Hi' <-].
      rewrite (app_sequence _ _ He), Hse. f_equal. lia.
  - intros s. rewrite Hs, appended_next_sequence, length_app. pose proof (wf_counter _ Hd s).
    case_decide as Hse; simpl; [|lia]. rewrite (app_sequence _ _ He), Hse. lia.
  - intros s. rewrite appended_next_sequence. pose proof (app_max _ _ He).
    pose proof (wf_counter_max _ Hd s). case_decide; lia.
  - intros s k n. simpl. rewrite Hs, lookup_insert. case_decide as Hse.
    + intros [= <- <-]. split; [destruct (stream_kind _); auto|].
      apply Forall_app. split; [|by repeat constructor].
      destruct (t_streams d !! s) as [[k' n']|] eqn:Ek.
      * pose proof (wf_kinds _ Hd s k' n' Ek) as [_ Hk]. subst s.
        by rewrite <- (app_kind _ _ He k' n' Ek).
      * destruct (stream_log d s) eqn:El; [constructor|].
        exfalso. destruct (wf_streams _ Hd s) as [? ?]; [by rewrite El|congruence].
    + rewrite app_nil_r. apply (wf_kinds _ Hd).
  - intros s. simpl. rewrite Hs, lookup_insert. case_decide; [eauto|].
    rewrite app_nil_r. apply (wf_streams _ Hd).
  - intros s. rewrite Hs, omap_app. case_decide as Hse.
    2: { simpl. rewrite app_nil_r. apply (wf_dedup _ Hd). }
    csimpl. destruct (deduplication_key (request e)) as [key|] eqn:Ek.
    2: { rewrite app_nil_r. apply (wf_dedup _ Hd). }
    apply NoDup_app. split_and!; [apply (wf_dedup _ Hd)| |apply NoDup_singleton].
    intros x Hx ->%list_elem_of_singleton. subst s. by apply (app_dedup _ _ He key).
  - rewrite Hlog, fmap_app. simpl. by rewrite (wf_search _ Hd).
Qed.

Section append.
Context {M : Type} `{MS : !EventMetadataSource M} {SQ : Sqlite} {UT : UnicodeTables}.
Implicit Types (w : World M).

Lemma find_fmap {A B} (f : A → B) (p : B → bool) (l : list A) :
  find p (f <$> l) = f <$> find (λ x, p (f x)) l.
Proof. induction l as [|x l IH]; csimpl; [done|]. by destruct (p (f x)). Qed.

Lemma first_event_wf d p :
  wf_db d → first_event p d = Ok (find (λ e, p (row_of e)) (event_log d)).
Proof.
  intros Hd. unfold first_event. rewrite (wf_rows _ Hd), find_fmap.
  destruct (find (λ e, p (row_of e)) (event_log d)) as [e|] eqn:E; simpl; [|done].
  unfold decode_row. rewrite decode_row_of; [done|].
  pose proof (wf_events _ Hd) as Hw. rewrite Forall_forall in Hw. apply Hw.
  apply find_some in E as [E _]. by apply list_elem_of_In.
Qed.

(** An event of the request's stream that carries its deduplication key. *)
Definition duplicate_of (r : AppendRequest) (e : CommittedEvent) : bool :=
  String.eqb (stream_id (request e)) (stream_id r)
  && same_key (deduplication_key (request e)) (deduplication_key r).

Lemma same_key_spec a b : same_key a b = true ↔ ∃ k, a = Some k ∧ b = Some k.
Proof.
  destruct a, b; simpl; rewrite ?String.eqb_eq; naive_solver.
Qed.

Lemma duplicate_of_spec r e :
  duplicate_of r e = true ↔
  stream_id (request e) = stream_id r ∧
  ∃ key, deduplication_key r = Some key ∧ deduplication_key (request e) = Some key.
Proof.
  unfold duplicate_of. rewrite andb_true_iff, String.eqb_eq, same_key_spec. naive_solver.
Qed.

Lemma duplicate_rows r key d :
  wf_db d → deduplication_key r = Some key →
  first_event (λ row, String.eqb (col_stream_id row) (stream_id r)
                      && same_key (col_deduplication_key row) (Some key)) d
  = Ok (find (duplicate_of r) (event_log d)).
Proof. intros Hd Hk. rewrite first_event_wf by done. unfold duplicate_of. by rewrite Hk. Qed.

Lemma no_key_no_duplicate r l : deduplication_key r = None → find (duplicate_of r) l = None.
Proof.
  intros Hk. destruct (find _ _) as [e|] eqn:E; [|done]. apply find_some in E as [_ E].
  apply duplicate_of_spec in E. naive_solver.
Qed.

Lemma find_duplicate_ok r w o w' :
  wf_db (db w) → find_duplicate r w = (Ok o, w') →
  o = find (duplicate_of r) (event_log (db w)) ∧ db w' = db w ∧ meta w' = meta w.
Proof.
  intros Hd. unfold find_duplicate. destruct (deduplication_key r) as [key|] eqn:Ek.
  - intros [H ->]%select_ok. rewrite (duplicate_rows r key) in H by done. by injection H as <-.
  - intros [-> ->]%tx_ret_ok. by rewrite no_key_no_duplicate.
Qed.

Lemma find_duplicate_run r w :
  no_io_errors → wf_db (db w) →
  ∃ w', find_duplicate r w = (Ok (find (duplicate_of r) (event_log (db w))), w') ∧
    db w' = db w ∧ meta w' = meta w.
Proof.
  intros Hio Hd. unfold find_duplicate. destruct (deduplication_key r) as [key|] eqn:Ek.
  - eexists. erewrite select_run; [|done|by rewrite (duplicate_rows r key)]. done.
  - exists w. by rewrite no_key_no_duplicate.
Qed.

Lemma no_duplicate_key r d :
  find (duplicate_of r) (event_log d) = None →
  ∀ key, deduplication_key r = Some key →
  key ∉ omap (λ e, deduplication_key (request e)) (stream_log d (stream_id r)).
Proof.
  intros Hf key Hk (e & [Hin Hs]%stream_log_elem & He)%list_elem_of_omap.
  pose proof (find_none _ _ Hf e (proj1 (list_elem_of_In _ _) Hin)) as Hn.
  assert (duplicate_of r e = true) by (apply duplicate_of_spec; eauto). congruence.
Qed.

Lemma insert_row_ok r d d' :
  insert_row r d = Ok (tt, d') →
  d' = mkDatabase (t_streams d) (t_events d ++ [r]) (t_event_search d)
         (t_namespaces d) (t_state d) (t_cursors d) (t_credentials d).
Proof. unfold insert_row. intros H. repeat case_match; by simplify_eq. Qed.

Lemma insert_event_ok r id seq recorded w w' :
  insert_event r id seq recorded w = (Ok tt, w') →
  db w' = mkDatabase (alter (λ '(kind, _), (kind, seq + 1)%Z) (stream_id r) (t_streams (db w)))
            (t_events (db w) ++ [event_row r id seq recorded])
            (t_event_search (db w) ++
               [mkSearchRow id (stream_id r) (event_type r) (searchable_payload_text r)])
            (t_namespaces (db w)) (t_state (db w)) (t_cursors (db w)) (t_credentials (db w)).
Proof.
  unfold insert_event. intros H. tx_inv.
  apply exec_ok in H0 as (d & Hd%insert_row_ok & ->). by subst.
Qed.

(** The database once the stream's row exists. *)
Definition with_stream (d : Database) (r : AppendRequest) : Database :=
  set_streams (insert_or_nothing (stream_id r) (encode_stream_kind (stream_kind r), 1%Z)) d.

Definition kind_unchanged (d : Database) (r : AppendRequest) : Prop :=
  ∀ k n, t_streams d !! stream_id r = Some (k, n) → k = encode_stream_kind (stream_kind r).

Lemma with_stream_lookup d r :
  t_streams (with_stream d r) !! stream_id r =
    Some (default (encode_stream_kind (stream_kind r)) (fst <$> t_streams d !! stream_id r),
          next_sequence d (stream_id r)).
Proof.
  unfold with_stream, next_sequence. cbn. unfold insert_or_nothing.
  destruct (t_streams d !! stream_id r) as [[k n]|] eqn:E; by simplify_map_eq.
Qed.

Lemma claim_sequence_ok r w seq w' :
  claim_sequence r w = (Ok seq, w') →
  seq = next_sequence (db w) (stream_id r) ∧ kind_unchanged (db w) r ∧
  (0 < seq)%Z ∧ seq ≠ i64_max ∧ db w' = with_stream (db w) r.
Proof.
  intros H. unfold claim_sequence in H.
  apply tx_bind_ok in H as ([] & w2 & ->%update_ok & H).
  apply tx_bind_ok in H as ([stored_kind n] & w3 & [Hrow%ok_or_ok ->]%select_ok & H).
  cbn [db set_db tick] in Hrow. fold (with_stream (db w) r) in Hrow.
  rewrite with_stream_lookup in Hrow. injection Hrow as Hk Hn.
  destruct (stored_kind =? _)%Z eqn:Ek in H; [|done]. bool_cases. cbn [negb] in H.
  destruct ((n <=? 0)%Z || _) eqn:Es in H; [done|]. apply orb_false_iff in Es as [Es1 Es2].
  bool_cases. apply tx_ret_ok in H as [-> ->]. split_and!; try done.
  intros k m Hkm. rewrite Hkm in Hk. simpl in Hk. congruence.
Qed.

Lemma claim_sequence_run r w :
  no_io_errors → kind_unchanged (db w) r →
  (0 < next_sequence (db w) (stream_id r) < i64_max)%Z →
  ∃ w', claim_sequence r w = (Ok (next_sequence (db w) (stream_id r)), w') ∧
    db w' = with_stream (db w) r ∧ meta w' = meta w.
Proof.
  intros Hio Hk Hn. unfold claim_sequence. unfold tx_bind at 1. rewrite update_run by done.
  unfold tx_bind at 1. fold (with_stream (db w) r).
  erewrite select_run; [|done|cbn [db set_db tick]; by rewrite with_stream_lookup].
  assert (default (encode_stream_kind (stream_kind r)) (fst <$> t_streams (db w) !! stream_id r)
          = encode_stream_kind (stream_kind r)) as ->.
  { destruct (t_streams (db w) !! stream_id r) as [[k n]|] eqn:E; [|done]. by apply (Hk k n). }
  rewrite Z.eqb_refl. cbn [negb].
  rewrite (proj2 (Z.leb_gt _ 0)), (proj2 (Z.eqb_neq _ i64_max)) by lia.
  eexists. split; [reflexivity|done].
Qed.

Lemma insert_new_ok r seq w e w' :
  (0 < seq)%Z → insert_new r seq w = (Ok e, w') →
  schema e = COMMITTED_EVENT_SCHEMA ∧ request e = r ∧ Z.of_N (sequence e) = seq ∧
  (∀ row, row ∈ t_events (db w) → col_event_id row ≠ event_id e) ∧
  db w' = mkDatabase (alter (λ '(kind, _), (kind, seq + 1)%Z) (stream_id r) (t_streams (db w)))
            (t_events (db w) ++ [row_of e]) (t_event_search (db w) ++ [search_row e])
            (t_namespaces (db w)) (t_state (db w)) (t_cursors (db w)) (t_credentials (db w)).
Proof.
  intros Hpos H. unfold insert_new in H.
  apply tx_bind_ok in H as (id & w4 & Hid & H). unfold fresh_event_id in Hid.
  destruct (next_event_id _) as [id' m] eqn:Eid in Hid. injection Hid as -> <-.
  apply tx_bind_ok in H as (collision & w5 & [Hcol ->]%select_ok & H).
  injection Hcol as <-. cbn [db set_meta] in H.
  destruct (existsb _ (t_events (db w))) eqn:Ec in H; [done|].
  apply tx_bind_ok in H as (t & w6 & Ht & H). unfold read_clock in Ht.
  destruct (now_ms _) as [t' m'] eqn:Et in Ht. injection Ht as -> <-.
  apply tx_bind_ok in H as ([] & w7 & Hins%insert_event_ok & H).
  apply tx_bind_ok in H as (sq & w8 & [Hsq ->]%tx_lift_ok & [-> ->]%tx_ret_ok).
  apply ok_or_ok, u64_try_from_spec in Hsq as [_ ->].
  assert (Z.of_N (Z.to_N seq) = seq) as Hto by lia.
  split_and!; try done.
  - intros row Hrow Heq. apply not_true_iff_false in Ec. apply Ec. apply existsb_exists.
    exists row. split; [by apply list_elem_of_In|]. cbn in Heq. by apply String.eqb_eq.
  - rewrite Hins. unfold row_of, search_row. cbn. by rewrite Hto.
Qed.

(** The outcome of [append_in], read off the log: the event that already has
    the key, or a new event at the end of its stream. *)
Definition append_outcome (d : Database) (r : AppendRequest) (e : CommittedEvent) (d' : Database)
    : Prop :=
  valid_request r ∧
  ((e ∈ stream_log d (stream_id r) ∧ duplicate_of r e = true ∧ d' = d) ∨
   (request e = r ∧ find (duplicate_of r) (event_log d) = None ∧
    appendable d e ∧ d' = appended d e)).

(** The stream's row after an insert is the one [appended] writes. *)
Lemma with_stream_counter d r seq :
  kind_unchanged d r →
  alter (λ '(kind, _), (kind, seq)) (stream_id r) (t_streams (with_stream d r)) =
  <[stream_id r := (encode_stream_kind (stream_kind r), seq)]> (t_streams d).
Proof.
  intros Hk. apply map_eq. intros s. unfold with_stream, insert_or_nothing. cbn.
  destruct (t_streams d !! stream_id r) as [[k n]|] eqn:E.
  - rewrite (Hk k n E) in E.
    by destruct (decide (stream_id r = s)) as [<-|]; simplify_map_eq.
  - by destruct (decide (stream_id r = s)) as [<-|]; simplify_map_eq.
Qed.

Lemma append_in_ok r w e w' :
  wf_db (db w) → append_in r w = (Ok e, w') → append_outcome (db w) r e (db w').
Proof.
  intros Hd H. unfold append_in in H.
  apply tx_bind_ok in H as ([] & w0 & [Hv ->]%tx_lift_ok & H).
  apply validate_ok_iff in Hv. split; [done|].
  apply tx_bind_ok in H as (o & w1 & Hdup & H).
  apply find_duplicate_ok in Hdup as (-> & Hdb & Hmeta); [|done].
  destruct (find (duplicate_of r) (event_log (db w))) as [dup|] eqn:Ef.
  { apply tx_ret_ok in H as [-> ->]. left. apply find_some in Ef as [Hin Hdup].
    split_and!; [|done|done]. apply duplicate_of_spec in Hdup as [Hs _].
    apply stream_log_elem. split; [by apply list_elem_of_In|done]. }
  right. apply tx_bind_ok in H as (seq & w2 & Hc%claim_sequence_ok & Hi).
  rewrite Hdb in Hc. destruct Hc as (Hseq & Hk & Hpos & Hmax & Hdb2).
  apply insert_new_ok in Hi as (Hs & Hr & Hsq & Hid & Hdb3); [|done]. rewrite Hdb2 in Hid, Hdb3.
  pose proof (wf_counter _ Hd (stream_id r)) as Hc.
  pose proof (wf_counter_max _ Hd (stream_id r)) as Hcm.
  split_and!; [done|done| |].
  - split; rewrite ?Hr; try done; [|lia|lia|by apply no_duplicate_key].
    intros (e' & He & Hin)%list_elem_of_fmap. apply (Hid (row_of e')); [|done].
    cbn. rewrite (wf_rows _ Hd). apply list_elem_of_fmap. eauto.
  - rewrite Hdb3. unfold appended. rewrite Hr, Hsq. f_equal. by apply with_stream_counter.
Qed.

(** Appending keeps the database invariant and grows the log by the new
    event, if it is new. *)
Lemma append_outcome_wf d r e d' :
  wf_db d → request_typed r → append_outcome d r e d' → wf_db d'.
Proof.
  intros Hd Ht (_ & [(_ & _ & ->)|(<- & _ & He & ->)]); [done|]. by apply appended_wf.
Qed.

(** The schema's constraints never stop an insert [append_in] reaches. *)
Lemma row_checks_of e :
  valid_request (request e) → (1 ≤ sequence e)%N → row_checks (row_of e) = true.
Proof.
  intros (_ & Ht & Hp & Hk & _) Hs. unfold row_checks, row_of, event_row. cbn.
  rewrite (proj2 (str_is_empty_false _) Ht), (proj2 (str_is_empty_false _) Hp).
  rewrite (proj2 (Z.ltb_lt 0 (Z.of_N (sequence e)))) by lia.
  assert (is_some_and (deduplication_key (request e)) str_is_empty = false) as ->.
  { destruct (deduplication_key (request e)) as [[]|]; done. }
  by destruct (stream_kind (request e)), (principal_kind (actor (request e))),
    (payload (request e)).
Qed.

Lemma row_conflict_of d e old :
  wf_db d → appendable d e → old ∈ t_events d → row_conflict (row_of e) old = false.
Proof.
  intros Hd He Hold. rewrite (wf_rows _ Hd) in Hold.
  apply list_elem_of_fmap in Hold as (e' & -> & Hin). unfold row_conflict. cbn.
  apply orb_false_iff. split.
  { apply String.eqb_neq. intros Heq. apply (app_fresh _ _ He). rewrite Heq.
    apply list_elem_of_fmap. eauto. }
  destruct (String.eqb_spec (stream_id (request e)) (stream_id (request e'))) as [Hs|]; [|done].
  assert (e' ∈ stream_log d (stream_id (request e))) as Hin' by (by apply stream_log_elem).
  simpl. apply orb_false_iff. split.
  - apply Z.eqb_neq. apply list_elem_of_lookup in Hin' as [i Hi].
    pose proof (wf_gapless _ Hd _ _ _ Hi). apply lookup_lt_Some in Hi.
    pose proof (app_sequence _ _ He). lia.
  - apply not_true_iff_false. intros (key & Hk & Hk')%same_key_spec.
    apply (app_dedup _ _ He key Hk). apply list_elem_of_omap. eauto.
Qed.

Lemma insert_event_run e w :
  no_io_errors → (1 ≤ sequence e)%N → valid_request (request e) →
  (∀ old, old ∈ t_events (db w) → row_conflict (row_of e) old = false) →
  is_Some (t_streams (db w) !! stream_id (request e)) →
  ∃ w', insert_event (request e) (event_id e) (Z.of_N (sequence e)) (recorded_at_ms e) w
        = (Ok tt, w').
Proof.
  intros Hio Hseq Hv Hc [x Hx]. unfold insert_event. unfold tx_bind at 1.
  erewrite exec_run; [|done|].
  2: { unfold insert_row. fold (row_of e). rewrite row_checks_of by done.
       assert (existsb (row_conflict (row_of e)) (t_events (db w)) = false) as ->.
       { apply not_true_iff_false. intros (old & Hin & Hold)%existsb_exists.
         rewrite Hc in Hold; [done|]. by apply list_elem_of_In. }
       cbn. rewrite Hx. done. }
  unfold tx_bind. rewrite !update_run by done. eauto.
Qed.

(** When [append] must succeed: a valid request, the stream's kind unchanged,
    a sequence left, and a fresh identifier. *)
Record append_ready (d : Database) (m : M) (r : AppendRequest) : Prop := {
  ready_valid : valid_request r;
  ready_kind : kind_unchanged d r;
  ready_max : (next_sequence d (stream_id r) < i64_max)%Z;
  ready_fresh : (next_event_id m).1 ∉ event_id <$> event_log d;
}.

Lemma insert_new_run r w d m :
  no_io_errors → wf_db d → append_ready d m r →
  find (duplicate_of r) (event_log d) = None →
  db w = with_stream d r → meta w = m →
  ∃ e w', insert_new r (next_sequence d (stream_id r)) w = (Ok e, w').
Proof.
  intros Hio Hd [Hv Hk Hmax Hfresh] Hf Hdb Hm. unfold insert_new.
  set (seq := next_sequence d (stream_id r)) in *.
  pose proof (wf_counter _ Hd (stream_id r)) as Hc. fold seq in Hc.
  unfold tx_bind at 1, fresh_event_id. rewrite Hm.
  destruct (next_event_id m) as [id m1] eqn:Eid. cbn in Hfresh.
  unfold tx_bind at 1. erewrite select_run; [|done|reflexivity]. cbn [db set_meta].
  assert (existsb (λ row, String.eqb (col_event_id row) id) (t_events (db w)) = false) as ->.
  { apply not_true_iff_false. rewrite Hdb. cbn. rewrite (wf_rows _ Hd).
    intros (old & (e & -> & Hin)%list_elem_of_In%list_elem_of_fmap & Hold)%existsb_exists.
    cbn in Hold. bool_cases. apply Hfresh. rewrite <- Hold. apply list_elem_of_fmap. eauto. }
  unfold tx_bind at 1, read_clock. destruct (now_ms _) as [t m2] eqn:Et.
  set (e := mkCommittedEvent COMMITTED_EVENT_SCHEMA id (Z.to_N seq) t r).
  assert (appendable d e) as Happ.
  { split; cbn; try done; [lia|lia|]. by apply no_duplicate_key. }
  assert (Z.of_N (sequence e) = seq) as Hse by (cbn; lia).
  match goal with |- context [tx_bind _ _ ?w0] => set (w2 := w0) end.
  destruct (insert_event_run e w2) as [w' Hw']; [done|lia|done| | |].
  { intros old. subst w2. cbn. rewrite Hdb. cbn. by apply row_conflict_of. }
  { subst w2. cbn. rewrite Hdb, with_stream_lookup. eauto. }
  rewrite Hse in Hw'. unfold tx_bind at 1. cbn in Hw'. rewrite Hw'.
  unfold tx_bind, tx_lift, u64_try_from. rewrite (proj2 (Z.leb_le 0 seq)) by lia. cbn. eauto.
Qed.

Lemma append_in_run r w :
  no_io_errors → wf_db (db w) → append_ready (db w) (meta w) r →
  ∃ e w', append_in r w = (Ok e, w').
Proof.
  intros Hio Hd Hr. unfold append_in. unfold tx_bind at 1, tx_lift.
  rewrite (proj2 (validate_ok_iff r) (ready_valid _ _ _ Hr)).
  destruct (find_duplicate_run r w Hio Hd) as (w1 & E1 & Hdb & Hm). unfold tx_bind at 1.
  rewrite E1. destruct (find (duplicate_of r) (event_log (db w))) as [e|] eqn:Ef; [by eexists _, _|].
  pose proof (wf_counter _ Hd (stream_id r)). pose proof (ready_max _ _ _ Hr).
  destruct (claim_sequence_run r w1) as (w2 & E2 & Hdb2 & Hm2); rewrite ?Hdb.
  1-3: done || apply (ready_kind _ _ _ Hr) || lia.
  unfold tx_bind at 1. rewrite E2. rewrite Hdb in *.
  eapply insert_new_run; try done. by rewrite Hm2, Hm.
Qed.

Lemma append_run r w :
  no_io_errors → wf_db (db w) → append_ready (db w) (meta w) r →
  ∃ e w', append r w = (Ok e, w').
Proof.
  intros Hio Hd Hr. unfold append. rewrite transaction_run by done.
  destruct (append_in_run r (tick w)) as (e & w' & ->); eauto.
Qed.

Lemma append_duplicate_run r w e :
  no_io_errors → wf_db (db w) → valid_request r →
  find (duplicate_of r) (event_log (db w)) = Some e →
  ∃ w', append r w = (Ok e, w') ∧ db w' = db w.
Proof.
  intros Hio Hd Hv Hf. unfold append. rewrite transaction_run by done.
  unfold append_in. unfold tx_bind at 1, tx_lift. rewrite (proj2 (validate_ok_iff r) Hv).
  destruct (find_duplicate_run r (tick w) Hio Hd) as (w1 & E1 & Hdb & Hm).
  unfold tx_bind. rewrite E1. cbn [db tick] in *. rewrite Hf. eexists. by split.
Qed.

Lemma append_ok r w e w' :
  wf_db (db w) → append r w = (Ok e, w') → append_outcome (db w) r e (db w').
Proof. intros Hd (w2 & H & ->)%transaction_ok. by apply append_in_ok in H. Qed.

Lemma append_err r w err w' : append r w = (Err err, w') → db w' = db w.
Proof. apply transaction_err. Qed.
End append.

(** ** Reading *)

Lemma stream_log_sorted d s : wf_db d → StronglySorted seq_lt (stream_log d s).
Proof.
  intros Hd. apply (consecutive_sorted _ 1). intros i e Hi.
  by rewrite (wf_gapless _ Hd _ _ _ Hi).
Qed.

Lemma sorted_rows_unique l l' :
  StronglySorted seq_lt l →
  StronglySorted seq_le (row_of <$> l) ∧ StronglySorted (flip seq_le) (row_of <$> reverse l) ∧
  (∀ a b, a ∈ row_of <$> l → b ∈ l' → l' ≡ₚ row_of <$> l →
     seq_le a b → seq_le b a → a = b).
Proof.
  intros Hl. split_and!.
  - induction Hl as [|x l Hl IH Hx]; csimpl; constructor; [done|].
    apply Forall_fmap. eapply Forall_impl; [done|]. unfold seq_lt, seq_le. intros y Hy. cbn. lia.
  - induction Hl as [|x l Hl IH Hx]; [constructor|]. rewrite reverse_cons, fmap_app.
    apply StronglySorted_app_2; [|done|by repeat constructor].
    intros a b (y & -> & Hy)%list_elem_of_fmap ->%list_elem_of_singleton.
    rewrite Forall_forall in Hx. specialize (Hx y). rewrite elem_of_reverse in Hy.
    specialize (Hx Hy). unfold flip, seq_le, seq_lt in *. cbn. lia.
  - intros a b Ha Hb Hp Hab Hba. rewrite Hp in Hb.
    apply list_elem_of_fmap in Ha as (x & -> & Hx), Hb as (y & -> & Hy).
    unfold seq_le in *. cbn in Hab, Hba. f_equal.
    apply list_elem_of_lookup in Hx as [i Hi], Hy as [j Hj].
    assert (sequence x = sequence y) as Heq by lia. clear Hab Hba Hp.
    revert i j Hi Hj. induction Hl as [|z l Hl IH Hz]; intros [|i] [|j] Hi Hj; simplify_eq/=; try done.
    + rewrite Forall_forall in Hz. apply list_elem_of_lookup_2, Hz in Hj. unfold seq_lt in Hj. lia.
    + rewrite Forall_forall in Hz. apply list_elem_of_lookup_2, Hz in Hi. unfold seq_lt in Hi. lia.
    + by eapply IH.
Qed.

Lemma order_ascending_rows l :
  StronglySorted seq_lt l → order_ascending (row_of <$> l) = row_of <$> l.
Proof.
  intros Hl. unfold order_ascending.
  destruct (sorted_rows_unique l (merge_sort seq_le (row_of <$> l)) Hl) as (Hasc & _ & Hanti).
  symmetry. apply (StronglySorted_unique_strong seq_le); [|done| |].
  - intros a b Ha Hb. apply Hanti; [done|done|apply merge_sort_Permutation].
  - apply Sorted_StronglySorted; [|apply Sorted_merge_sort]; unfold seq_le.
    + intros ???; lia.
    + intros ??; lia.
  - symmetry. apply merge_sort_Permutation.
Qed.

Lemma order_descending_rows l :
  StronglySorted seq_lt l → order_descending (row_of <$> l) = row_of <$> reverse l.
Proof.
  intros Hl. unfold order_descending.
  set (out := merge_sort (flip seq_le) (row_of <$> l)).
  assert (out ≡ₚ row_of <$> l) as Hp by apply merge_sort_Permutation.
  destruct (sorted_rows_unique l out Hl) as (_ & Hdesc & Hanti).
  symmetry. apply (StronglySorted_unique_strong (flip seq_le)); [|done| |].
  - intros a b Ha Hb Hab Hba. apply Hanti; try done.
    revert Ha. rewrite !list_elem_of_fmap. by setoid_rewrite elem_of_reverse.
  - apply Sorted_StronglySorted; [|apply Sorted_merge_sort]; unfold flip, seq_le.
    + intros ???; lia.
    + intros ??; lia.
  - by rewrite Hp, reverse_Permutation.
Qed.

Section reading.
Context {M : Type} `{MS : !EventMetadataSource M} {SQ : Sqlite} {UT : UnicodeTables}.
Implicit Types (w : World M).

Lemma decode_rows_of l : Forall wf_event l → decode_rows (row_of <$> l) = Ok l.
Proof.
  induction 1 as [|e l He _ IH]; csimpl; [done|]. unfold decode_row.
  rewrite decode_row_of by done. simpl. by rewrite IH.
Qed.

Lemma stream_log_wf d s : wf_db d → Forall wf_event (stream_log d s).
Proof. intros Hd. apply Forall_filter_keep, (wf_events _ Hd). Qed.

(** No stream is longer than SQLite's largest LIMIT. *)
Lemma stream_log_length d s : wf_db d → (Z.of_nat (length (stream_log d s)) < i64_max)%Z.
Proof.
  intros Hd. pose proof (wf_counter _ Hd s). pose proof (wf_counter_max _ Hd s). lia.
Qed.

Lemma take_sql_limit {A} (limit : N) (l : list A) :
  (Z.of_nat (length l) < i64_max)%Z → take (sql_limit limit) l = take (N.to_nat limit) l.
Proof.
  intros Hl. unfold sql_limit, i64_try_from.
  destruct (Z.leb_spec (Z.of_N limit) i64_max) as [H|H]; simpl.
  - f_equal. lia.
  - rewrite !take_ge; [done|lia|lia].
Qed.

Lemma filter_rows (p : EventRow → bool) (l : list CommittedEvent) :
  filter (λ row, p row = true) (row_of <$> l) = row_of <$> filter (λ e, p (row_of e) = true) l.
Proof.
  induction l as [|e l IH]; csimpl; [done|]. rewrite !filter_cons, IH. by case_decide.
Qed.

(** The rows of one stream that satisfy [q], as SELECT sees them. *)
Lemma filter_stream_rows d s (q : EventRow → bool) p :
  wf_db d → (∀ row, p row = String.eqb (col_stream_id row) s && q row) →
  filter (λ row, p row = true) (t_events d)
  = row_of <$> filter (λ e, q (row_of e) = true) (stream_log d s).
Proof.
  intros Hd Hp. rewrite (wf_rows _ Hd), filter_rows. f_equal. unfold stream_log.
  rewrite list_filter_filter. apply list_filter_iff. intros e. rewrite Hp.
  cbn [row_of event_row col_stream_id]. rewrite andb_true_iff, String.eqb_eq. naive_solver.
Qed.

Lemma selected_rows d s P `{∀ e : CommittedEvent, Decision (P e)} limit (desc : bool) :
  wf_db d →
  let l := filter P (stream_log d s) in
  decode_rows (take (sql_limit limit)
    (if desc then order_descending (row_of <$> l) else order_ascending (row_of <$> l)))
  = Ok (take (N.to_nat limit) (if desc then reverse l else l)).
Proof.
  intros Hd l.
  assert (StronglySorted seq_lt l) as Hl by by apply filter_sorted, stream_log_sorted.
  assert (Forall wf_event l) as Hw by by apply Forall_filter_keep, stream_log_wf.
  pose proof (stream_log_length d s Hd) as Hn.
  assert (length l ≤ length (stream_log d s)) as Hle by apply length_filter.
  rewrite order_ascending_rows, order_descending_rows by done.
  replace (if desc then row_of <$> reverse l else row_of <$> l)
    with (row_of <$> (if desc then reverse l else l)) by by destruct desc.
  rewrite <- fmap_take, decode_rows_of.
  - f_equal. apply take_sql_limit. destruct desc; rewrite ?length_reverse; lia.
  - apply Forall_take. destruct desc; [|done]. by apply Forall_reverse.
Qed.

(** *** [read] *)

Definition read_spec (d : Database) (s : StreamId) (after limit : N) : list CommittedEvent :=
  take (N.to_nat limit) (filter (λ e, (after < sequence e)%N) (stream_log d s)).

Lemma read_select d s after limit :
  wf_db d → (Z.of_N after ≤ i64_max)%Z →
  decode_rows (take (sql_limit limit) (order_ascending
    (filter (λ row, String.eqb (col_stream_id row) s
                    && (Z.of_N after <? col_sequence row)%Z = true) (t_events d))))
  = Ok (read_spec d s after limit).
Proof.
  intros Hd Ha. rewrite (filter_stream_rows d s (λ row, (Z.of_N after <? col_sequence row)%Z)) by done.
  rewrite (selected_rows d s _ limit false Hd). unfold read_spec. do 2 f_equal.
  apply list_filter_iff. intros e. cbn. rewrite Z.ltb_lt. lia.
Qed.

Lemma stream_log_sequence_max d s e :
  wf_db d → e ∈ stream_log d s → (Z.of_N (sequence e) < i64_max)%Z.
Proof.
  intros Hd [i Hi]%list_elem_of_lookup. rewrite (wf_gapless _ Hd _ _ _ Hi).
  apply lookup_lt_Some in Hi. pose proof (stream_log_length d s Hd). lia.
Qed.

Lemma read_past_end d s after limit :
  wf_db d → (i64_max < Z.of_N after)%Z → read_spec d s after limit = [].
Proof.
  intros Hd Ha. unfold read_spec. rewrite filter_none; [by rewrite take_nil|].
  intros e He. pose proof (stream_log_sequence_max d s e Hd He). lia.
Qed.

Lemma read_ok s after limit w es w' :
  wf_db (db w) → read s after limit w = (Ok es, w') →
  es = read_spec (db w) s after limit ∧ db w' = db w.
Proof.
  intros Hd. unfold read, i64_try_from.
  destruct (Z.leb_spec (Z.of_N after) i64_max) as [H|H]; intros Hr; tx_inv.
  - rewrite read_select in Hr by done. by simplify_eq.
  - by rewrite read_past_end.
Qed.

Lemma read_run s after limit w :
  no_io_errors → wf_db (db w) →
  ∃ w', read s after limit w = (Ok (read_spec (db w) s after limit), w') ∧ db w' = db w.
Proof.
  intros Hio Hd. unfold read, i64_try_from.
  destruct (Z.leb_spec (Z.of_N after) i64_max) as [H|H].
  - exists (tick w). split; [apply select_run; [done|by apply read_select]|done].
  - rewrite read_past_end by done. by eexists.
Qed.

Lemma read_db s after limit w r w' : read s after limit w = (r, w') → db w' = db w.
Proof. unfold read. case_match; [apply select_db|by intros [= _ <-]]. Qed.

(** *** [get] *)

Definition get_spec (d : Database) (id : EventId) : option CommittedEvent :=
  find (λ e, String.eqb (event_id e) id) (event_log d).

Lemma get_ok id w e w' :
  wf_db (db w) → get id w = (Ok e, w') → e = get_spec (db w) id ∧ db w' = db w.
Proof. intros Hd. unfold get. intros H. tx_inv. rewrite first_event_wf in H by done. by simplify_eq. Qed.

Lemma get_run id w :
  no_io_errors → wf_db (db w) →
  ∃ w', get id w = (Ok (get_spec (db w) id), w') ∧ db w' = db w.
Proof.
  intros Hio Hd. exists (tick w). split; [|done]. apply select_run; [done|].
  by rewrite first_event_wf.
Qed.

Lemma get_spec_in d id e : get_spec d id = Some e → e ∈ event_log d ∧ event_id e = id.
Proof. unfold get_spec. intros [H ?]%find_some. bool_cases. by rewrite list_elem_of_In. Qed.

Lemma get_spec_unique d e : wf_db d → e ∈ event_log d → get_spec d (event_id e) = Some e.
Proof.
  intros Hd He. destruct (get_spec d (event_id e)) as [e'|] eqn:E.
  - apply get_spec_in in E as [Hin Hid]. f_equal.
    apply list_elem_of_lookup in He as [i Hi], Hin as [j Hj].
    assert (i = j) as ->; [|congruence].
    eapply (NoDup_lookup _ _ _ (event_id e) (wf_ids _ Hd)); rewrite list_lookup_fmap.
    + by rewrite Hi.
    + rewrite Hj. simpl. by rewrite Hid.
  - exfalso. apply list_elem_of_In in He. pose proof (find_none _ _ E e He) as Hn. cbn in Hn.
    by rewrite String.eqb_refl in Hn.
Qed.
(** *** [query] *)

(** The full-text part of a query on an event. *)
Definition text_matches (text : option string) (e : CommittedEvent) : bool :=
  match text with
  | None => true
  | Some input =>
      match literal_search_query input with
      | None => false
      | Some q => fts_match q (event_type (request e)) (searchable_payload_text (request e))
      end
  end.

Definition query_spec (d : Database) (s : StreamId) (q : EventQuery) (limit : N)
    : list CommittedEvent :=
  let l := filter (λ e, matches q e && text_matches (text_query q) e = true) (stream_log d s) in
  take (N.to_nat limit) (if descending q then reverse l else l).

Lemma in_search_spec d q e :
  wf_db d → e ∈ event_log d →
  in_search d q (row_of e) = fts_match q (event_type (request e)) (searchable_payload_text (request e)).
Proof.
  intros Hd He. unfold in_search. rewrite (wf_search _ Hd). apply eq_true_iff_eq.
  rewrite existsb_exists. split.
  - intros (? & (e' & -> & He')%list_elem_of_In%list_elem_of_fmap & H). cbn in H.
    apply andb_true_iff in H as [Hid%String.eqb_eq H]. apply get_spec_unique in He, He'; try done.
    rewrite Hid in He'. congruence.
  - intros H. exists (search_row e). split.
    + apply list_elem_of_In, list_elem_of_fmap. eauto.
    + cbn. by rewrite String.eqb_refl.
Qed.

Lemma same_key_some a k : same_key a (Some k) = true ↔ a = Some k.
Proof. destruct a; simpl; rewrite ?String.eqb_eq; naive_solver. Qed.

Lemma opt_key_spec (o c : option string) : (∀ k, o = Some k → c = Some k) ↔ (o ≠ None → c = o).
Proof. destruct o; naive_solver. Qed.

Lemma opt_bound_spec (o : option N) (P : Z → Prop) :
  (∀ z, Z.of_N <$> o = Some z → P z) ↔ (∀ n, o = Some n → P (Z.of_N n)).
Proof. destruct o; naive_solver. Qed.

Lemma where_clause_spec d s q text e :
  wf_db d → e ∈ stream_log d s → sql_text (text_query q) = Some text →
  where_clause d s q (Z.of_N <$> after_sequence q) (Z.of_N <$> before_sequence q) text (row_of e)
  = matches q e && text_matches (text_query q) e.
Proof.
  intros Hd [He Hs]%stream_log_elem Ht. apply eq_true_iff_eq.
  rewrite (andb_true_iff (matches q e)), matches_spec.
  unfold where_clause. rewrite !andb_true_iff.
  assert (is_none_or text (λ t, in_search d t (row_of e)) = text_matches (text_query q) e) as ->.
  { unfold sql_text in Ht. destruct (text_query q) as [t|]; [|by simplify_eq].
    unfold text_matches. destruct (literal_search_query t) as [lit|]; simplify_eq. cbn.
    by apply in_search_spec. }
  cbn [row_of event_row col_stream_id col_sequence col_event_type col_correlation_id
       col_activity_id col_recorded_at_ms].
  rewrite String.eqb_eq, orb_true_iff, bool_decide_eq_true, str_mem_spec.
  rewrite !is_none_or_spec, !opt_bound_spec. setoid_rewrite same_key_some.
  setoid_rewrite Z.ltb_lt. setoid_rewrite Z.leb_le. setoid_rewrite <- N2Z.inj_lt.
  rewrite !opt_key_spec.
  assert (event_types q = [] ∨ event_type (request e) ∈ event_types q
          ↔ (event_types q ≠ [] → event_type (request e) ∈ event_types q)) as ->.
  { destruct (decide (event_types q = [])); naive_solver. }
  tauto.
Qed.
Lemma sql_bound_some o b : sql_bound o = Some b → b = Z.of_N <$> o.
Proof. unfold sql_bound, i64_try_from. repeat case_match; naive_solver. Qed.

Lemma sql_bound_none o : sql_bound o = None ↔ ∃ n, o = Some n ∧ (i64_max < Z.of_N n)%Z.
Proof.
  unfold sql_bound, i64_try_from. destruct o as [n|]; [|naive_solver].
  destruct (Z.leb_spec (Z.of_N n) i64_max); naive_solver lia.
Qed.

(** The calls that return early because nothing can match. *)
Lemma query_spec_nil d s q limit :
  (∀ e, e ∈ stream_log d s → matches q e && text_matches (text_query q) e = false) →
  query_spec d s q limit = [].
Proof.
  intros Hl. unfold query_spec. rewrite filter_none.
  - by destruct (descending q), (N.to_nat limit).
  - intros e He. by rewrite Hl.
Qed.

Lemma query_spec_after d s q limit n :
  wf_db d → after_sequence q = Some n → (i64_max < Z.of_N n)%Z → query_spec d s q limit = [].
Proof.
  intros Hd Hn Hmax. apply query_spec_nil. intros e He.
  apply andb_false_intro1, not_true_iff_false. intros (Hafter & _)%matches_spec. specialize (Hafter n Hn).
  pose proof (stream_log_sequence_max d s e Hd He). lia.
Qed.

Lemma query_spec_text d s q limit :
  sql_text (text_query q) = None → query_spec d s q limit = [].
Proof.
  intros Ht. apply query_spec_nil. intros e He. unfold sql_text in Ht.
  destruct (text_query q) as [t|]; [|done]. simpl. destruct (literal_search_query t); [done|].
  by rewrite andb_false_r.
Qed.

Definition before_in_range (q : EventQuery) : Prop :=
  ∀ n, before_sequence q = Some n → (Z.of_N n ≤ i64_max)%Z.

Lemma query_select d s q limit after before text :
  wf_db d →
  sql_bound (after_sequence q) = Some after → sql_bound (before_sequence q) = Some before →
  sql_text (text_query q) = Some text →
  decode_rows (take (sql_limit limit)
    (let rows := filter (λ row, where_clause d s q after before text row = true) (t_events d) in
     if descending q then order_descending rows else order_ascending rows))
  = Ok (query_spec d s q limit).
Proof.
  intros Hd ->%sql_bound_some ->%sql_bound_some Ht. cbv zeta.
  set (wc := where_clause d s q (Z.of_N <$> after_sequence q) (Z.of_N <$> before_sequence q) text).
  rewrite (filter_stream_rows d s wc wc) by
    (try done; intros row; unfold wc, where_clause; by destruct (String.eqb _ _)).
  rewrite (selected_rows d s _ limit (descending q) Hd). unfold query_spec.
  replace (filter (λ e, wc (row_of e) = true) (stream_log d s))
    with (filter (λ e, matches q e && text_matches (text_query q) e = true) (stream_log d s)); [done|].
  apply filter_elem_iff. intros e He. unfold wc. by rewrite where_clause_spec.
Qed.

Lemma query_run s q limit w :
  no_io_errors → wf_db (db w) → before_in_range q →
  ∃ w', query s q limit w = (Ok (query_spec (db w) s q limit), w') ∧ db w' = db w.
Proof.
  intros Hio Hd Hb. unfold query.
  destruct (sql_bound (after_sequence q)) as [a|] eqn:Ea.
  2: { apply sql_bound_none in Ea as (n & Hn & Hmax). exists w.
       by rewrite (query_spec_after _ _ _ _ n). }
  destruct (sql_bound (before_sequence q)) as [b|] eqn:Eb.
  2: { apply sql_bound_none in Eb as (n & Hn & Hmax). specialize (Hb n Hn). lia. }
  destruct (sql_text (text_query q)) as [t|] eqn:Et.
  2: { exists w. by rewrite query_spec_text. }
  exists (tick w). split; [|done]. apply select_run; [done|]. by apply query_select.
Qed.

Lemma query_ok s q limit w es w' :
  wf_db (db w) → before_in_range q → query s q limit w = (Ok es, w') →
  es = query_spec (db w) s q limit ∧ db w' = db w.
Proof.
  intros Hd Hb. unfold query.
  destruct (sql_bound (after_sequence q)) as [a|] eqn:Ea.
  2: { apply sql_bound_none in Ea as (n & Hn & Hmax). intros [= <- <-].
       by rewrite (query_spec_after _ _ _ _ n). }
  destruct (sql_bound (before_sequence q)) as [b|] eqn:Eb.
  2: { apply sql_bound_none in Eb as (n & Hn & Hmax). specialize (Hb n Hn). lia. }
  destruct (sql_text (text_query q)) as [t|] eqn:Et.
  2: { intros [= <- <-]. by rewrite query_spec_text. }
  intros H. tx_inv. pose proof (query_select (db w) s q limit a b t Hd Ea Eb Et) as Hs.
  cbv zeta in Hs, H. rewrite Hs in H. by simplify_eq.
Qed.

(** An upper bound that does not fit an [i64] empties the page, whatever the
    log holds. *)
Lemma query_before_overflow s q limit n w :
  before_sequence q = Some n → (i64_max < Z.of_N n)%Z → query s q limit w = (Ok [], w).
Proof.
  intros Hn Hmax. unfold query.
  rewrite (proj2 (sql_bound_none (before_sequence q))) by eauto.
  by destruct (sql_bound (after_sequence q)).
Qed.

Lemma query_db s q limit w r w' : query s q limit w = (r, w') → db w' = db w.
Proof. unfold query. repeat case_match; (apply select_db || by intros [= _ <-]). Qed.
End reading.
