(* ===== verification/SqliteState.v ===== *)
(** Component state, delivery cursors and credentials inside the SQLite
    tables: what each namespace, cursor and credential of a database stands
    for, and what the store's calls do to it. *)
From stdpp Require Import base tactics option list strings sorting gmap.
From Stdlib Require Import ZArith NArith Lia Ascii.
From S2P Require Import Prelude Event EventStore Delivery Stores Utf8 Sqlite SqliteLog.

(** ** The abstract contents *)

(** A component's namespace: its revision and its entries. *)
Record Namespace : Type := mkNamespace {
  ns_revision : N;
  ns_entries : gmap string bytes;
}.

Definition revision_of (d : Database) (ns : StateNamespace) : N :=
  default 0%N (result_ok (parse_u64 (default "0" (t_namespaces d !! ns)))).

Definition entries_of (d : Database) (ns : StateNamespace) : gmap string bytes :=
  default ∅ (map_curry (M1 := gmap string) (M2 := gmap string) (t_state d) !! ns).

Definition namespace_of (d : Database) (ns : StateNamespace) : Namespace :=
  mkNamespace (revision_of d ns) (entries_of d ns).

Definition checkpoint_of (d : Database) (c : CursorKey) : N :=
  default 0%N (result_ok (parse_u64 (default "0" (t_cursors d !! (cursor_stream_id c, cursor_namespace c))))).

(** What compare-and-apply promises on one namespace. *)
Definition apply_spec (expected : N) (ms : list StateMutation) (n : Namespace)
    : result (N * Namespace) StateError :=
  if negb (ns_revision n =? expected)%N then Err (StateConflict expected (ns_revision n))
  else if bool_decide (ms = []) then Ok (ns_revision n, n)
  else
    let? revision := ok_or (checked_add_u64 (ns_revision n) 1)
                       (StateStorage "state revision exhausted") in
    Ok (revision, mkNamespace revision (foldl (flip mutate) (ns_entries n) ms)).

(** Everything but the namespaces is the same. *)
Definition same_log (d d' : Database) : Prop :=
  t_streams d' = t_streams d ∧ t_events d' = t_events d ∧ t_event_search d' = t_event_search d.

Lemma entries_lookup d ns k : entries_of d ns !! k = t_state d !! (ns, k).
Proof.
  unfold entries_of.
  rewrite <- (lookup_map_curry (M1 := gmap string) (M2 := gmap string) (t_state d)).
  by destruct (map_curry (t_state d) !! ns); rewrite ?lookup_empty.
Qed.

Lemma entries_insert d ns k v ns' :
  entries_of (set_state <[(ns, k) := v]> d) ns' =
    if decide (ns' = ns) then <[k := v]> (entries_of d ns') else entries_of d ns'.
Proof.
  apply map_eq. intros k'. rewrite entries_lookup. simpl. case_decide as H.
  - subst. destruct (decide (k' = k)) as [->|]; [by rewrite !lookup_insert_eq|].
    rewrite !lookup_insert_ne by congruence. by rewrite entries_lookup.
  - rewrite lookup_insert_ne by congruence. by rewrite entries_lookup.
Qed.

Lemma entries_delete d ns k ns' :
  entries_of (set_state (delete (ns, k)) d) ns' =
    if decide (ns' = ns) then delete k (entries_of d ns') else entries_of d ns'.
Proof.
  apply map_eq. intros k'. rewrite entries_lookup. simpl. case_decide as H.
  - subst. destruct (decide (k' = k)) as [->|]; [by rewrite !lookup_delete_eq|].
    rewrite !lookup_delete_ne by congruence. by rewrite entries_lookup.
  - rewrite lookup_delete_ne by congruence. by rewrite entries_lookup.
Qed.

Lemma u64_range_0 : u64_range 0.
Proof. done. Qed.

(** Text columns that hold a number parse to it. *)
Lemma numeric_column {K} `{Countable K} (t : gmap K string) k :
  (∀ k v, t !! k = Some v → ∃ n, u64_range n ∧ v = u64_to_string n) →
  ∃ n, u64_range n ∧ default "0" (t !! k) = u64_to_string n.
Proof.
  intros Ht. destruct (t !! k) as [v|] eqn:E; [eauto|]. by exists 0%N.
Qed.

Lemma revision_parse d ns :
  wf_db d → u64_range (revision_of d ns) ∧
  parse_u64 (default "0" (t_namespaces d !! ns)) = Ok (revision_of d ns).
Proof.
  intros Hd. unfold revision_of.
  destruct (numeric_column (t_namespaces d) ns (wf_namespaces _ Hd)) as (n & Hn & ->).
  by rewrite parse_u64_to_string.
Qed.

Lemma checkpoint_parse d c :
  wf_db d → u64_range (checkpoint_of d c) ∧
  parse_u64 (default "0" (t_cursors d !! (cursor_stream_id c, cursor_namespace c)))
  = Ok (checkpoint_of d c).
Proof.
  intros Hd. unfold checkpoint_of.
  destruct (numeric_column (t_cursors d) (cursor_stream_id c, cursor_namespace c) (wf_cursors _ Hd))
    as (n & Hn & ->).
  by rewrite parse_u64_to_string.
Qed.

(** ** The tables after a batch of mutations *)

Definition with_namespace (ns : StateNamespace) (d : Database) : Database :=
  set_namespaces (insert_or_nothing ns "0") d.

Definition mutate_db (ns : StateNamespace) (m : StateMutation) (d : Database) : Database :=
  match m with
  | Set_ key value => set_state <[(ns, key) := value]> d
  | Delete key => set_state (delete (ns, key)) d
  end.

Definition with_revision (ns : StateNamespace) (n : N) (d : Database) : Database :=
  set_namespaces (alter (λ _, u64_to_string n) ns) d.

(** The database [apply] and [commit] leave when the revision check passes. *)
Definition applied (ns : StateNamespace) (ms : list StateMutation) (d : Database) : Database :=
  if bool_decide (ms = []) then with_namespace ns d
  else with_revision ns (revision_of d ns + 1)
         (foldl (flip (mutate_db ns)) (with_namespace ns d) ms).

Lemma with_namespace_lookup ns d ns' :
  t_namespaces (with_namespace ns d) !! ns' =
    if decide (ns' = ns) then Some (default "0" (t_namespaces d !! ns)) else t_namespaces d !! ns'.
Proof.
  unfold with_namespace, insert_or_nothing. simpl. case_decide as H.
  - subst. by destruct (t_namespaces d !! ns) eqn:E; simplify_map_eq.
  - destruct (t_namespaces d !! ns); [done|]. by simplify_map_eq.
Qed.

Lemma revision_with_namespace ns d ns' : revision_of (with_namespace ns d) ns' = revision_of d ns'.
Proof. unfold revision_of. rewrite with_namespace_lookup. case_decide; by subst. Qed.

Lemma foldl_mutate_tables ns ms d :
  let d' := foldl (flip (mutate_db ns)) d ms in
  same_log d d' ∧ t_namespaces d' = t_namespaces d ∧ t_cursors d' = t_cursors d ∧
  t_credentials d' = t_credentials d.
Proof.
  revert d. induction ms as [|m ms IH]; intros d; [done|]. simpl in *.
  destruct (IH (mutate_db ns m d)) as ((H1 & H2 & H3) & H4 & H5 & H6).
  rewrite H4, H5, H6. unfold same_log. rewrite H1, H2, H3. by destruct m.
Qed.

Lemma foldl_mutate_entries ns ms d ns' :
  entries_of (foldl (flip (mutate_db ns)) d ms) ns' =
    if decide (ns' = ns) then foldl (flip mutate) (entries_of d ns') ms else entries_of d ns'.
Proof.
  revert d. induction ms as [|m ms IH]; intros d; simpl; [by case_decide|].
  rewrite IH. destruct m; simpl; unfold flip at 2; simpl;
    rewrite ?entries_insert, ?entries_delete; by case_decide.
Qed.

Lemma applied_tables ns ms d :
  same_log d (applied ns ms d) ∧ t_cursors (applied ns ms d) = t_cursors d ∧
  t_credentials (applied ns ms d) = t_credentials d.
Proof.
  unfold applied. case_bool_decide; [done|].
  destruct (foldl_mutate_tables ns ms (with_namespace ns d)) as ((H1 & H2 & H3) & _ & H5 & H6).
  unfold same_log. simpl. rewrite H1, H2, H3, H5, H6. done.
Qed.

Lemma applied_namespaces_lookup ns ms d ns' :
  t_namespaces (applied ns ms d) !! ns' =
    if decide (ns' = ns) then
      Some (if bool_decide (ms = []) then default "0" (t_namespaces d !! ns)
            else u64_to_string (revision_of d ns + 1))
    else t_namespaces d !! ns'.
Proof.
  unfold applied. destruct (bool_decide (ms = [])); [apply with_namespace_lookup|]. simpl.
  destruct (foldl_mutate_tables ns ms (with_namespace ns d)) as (_ & -> & _).
  case_decide as H.
  - subst. by rewrite lookup_alter_eq, with_namespace_lookup, decide_True.
  - rewrite lookup_alter_ne by done. by rewrite with_namespace_lookup, decide_False.
Qed.

(** The namespace itself moves as the contract says, every other one is left
    alone. *)
Lemma applied_namespace ns ms d :
  u64_range (revision_of d ns + 1) ∨ ms = [] →
  namespace_of (applied ns ms d) ns =
    if bool_decide (ms = []) then namespace_of d ns
    else mkNamespace (revision_of d ns + 1) (foldl (flip mutate) (entries_of d ns) ms).
Proof.
  intros Hr. unfold namespace_of at 1. unfold revision_of at 1.
  rewrite applied_namespaces_lookup, decide_True by done. unfold applied.
  case_bool_decide as Hms; [by destruct ms|]. destruct Hr as [Hr|]; [|done]. simpl.
  rewrite parse_u64_to_string by done. simpl. f_equal.
  change (entries_of (foldl (flip (mutate_db ns)) (with_namespace ns d) ms) ns =
          foldl (flip mutate) (entries_of d ns) ms).
  by rewrite foldl_mutate_entries, decide_True.
Qed.

Lemma applied_namespace_ne ns ms d ns' :
  ns' ≠ ns → namespace_of (applied ns ms d) ns' = namespace_of d ns'.
Proof.
  intros Hne. unfold namespace_of, revision_of.
  rewrite applied_namespaces_lookup, decide_False by done. f_equal.
  unfold applied. case_bool_decide; [done|].
  change (entries_of (foldl (flip (mutate_db ns)) (with_namespace ns d) ms) ns' = entries_of d ns').
  by rewrite foldl_mutate_entries, decide_False.
Qed.

(** The part of the invariant the log does not see. *)
Lemma wf_db_tables d d' :
  wf_db d → same_log d d' →
  (∀ ns t, t_namespaces d' !! ns = Some t → ∃ n, u64_range n ∧ t = u64_to_string n) →
  (∀ ns k v, t_state d' !! (ns, k) = Some v → is_Some (t_namespaces d' !! ns)) →
  (∀ c t, t_cursors d' !! c = Some t → ∃ n, u64_range n ∧ t = u64_to_string n) →
  wf_db d'.
Proof.
  intros [] (Hs & He & Hi) Hn Hst Hc.
  destruct d as [ts te ti tn tst tc tcr], d' as [ts' te' ti' tn' tst' tc' tcr'].
  simpl in *. subst. by split.
Qed.

Lemma same_log_event_log d d' : same_log d d' → event_log d' = event_log d.
Proof. intros (_ & H & _). unfold event_log. by rewrite H. Qed.

Lemma applied_wf ns ms d :
  wf_db d → u64_range (revision_of d ns + 1) ∨ ms = [] → wf_db (applied ns ms d).
Proof.
  intros Hd Hr. destruct (applied_tables ns ms d) as (Hl & Hc & _).
  apply (wf_db_tables d); [done|done| | |by rewrite Hc; apply (wf_cursors _ Hd)].
  - intros ns' t. rewrite applied_namespaces_lookup. case_decide; [|apply (wf_namespaces _ Hd)].
    intros [= <-]. case_bool_decide; [apply (numeric_column _ ns), (wf_namespaces _ Hd)|].
    destruct Hr; [eauto|done].
  - intros ns' k v. rewrite applied_namespaces_lookup. case_decide as Hns; [eauto|].
    intros Hv. rewrite <- entries_lookup in Hv.
    pose proof (applied_namespace_ne ns ms d ns' Hns) as [= _ He]. rewrite He, entries_lookup in Hv.
    by apply (wf_state _ Hd) in Hv.
Qed.

(** ** The calls *)

Section calls.
Context {M : Type} `{MS : !EventMetadataSource M} {SQ : Sqlite} {UT : UnicodeTables}.
Implicit Types (w : World M).

Lemma state_revision_ok {E} (f : StateError → E) ns w n w' :
  wf_db (db w) → state_revision f ns w = (Ok n, w') → n = revision_of (db w) ns ∧ w' = tick w.
Proof.
  intros Hd H. unfold state_revision in H. tx_inv. simplify_eq.
  rewrite (proj2 (revision_parse _ ns Hd)) in H. by simplify_eq/=.
Qed.

Lemma state_revision_run {E} (f : StateError → E) ns w :
  no_io_errors → wf_db (db w) → state_revision f ns w = (Ok (revision_of (db w) ns), tick w).
Proof.
  intros Hio Hd. unfold state_revision. unfold tx_bind. erewrite select_run; [|done|reflexivity].
  unfold tx_lift. by rewrite (proj2 (revision_parse _ ns Hd)).
Qed.

Lemma apply_mutation_ok ns m d d' : apply_mutation ns m d = Ok (tt, d') → d' = mutate_db ns m d.
Proof. unfold apply_mutation. intros H. repeat case_match; by simplify_eq. Qed.

Lemma apply_mutations_ok {E} (wrap : string → E) ns ms w w' :
  apply_mutations wrap ns ms w = (Ok tt, w') →
  db w' = foldl (flip (mutate_db ns)) (db w) ms.
Proof.
  revert w. induction ms as [|m ms IH]; intros w H; simpl in H; tx_inv; [done|].
  apply exec_ok in H0 as (d & ->%apply_mutation_ok & ->). by apply IH in H.
Qed.

Lemma apply_mutations_run {E} (wrap : string → E) ns ms w :
  no_io_errors → is_Some (t_namespaces (db w) !! ns) →
  ∃ w', apply_mutations wrap ns ms w = (Ok tt, w') ∧
    db w' = foldl (flip (mutate_db ns)) (db w) ms ∧ meta w' = meta w.
Proof.
  intros Hio. revert w. induction ms as [|m ms IH]; intros w [t Ht]; [by exists w|]. simpl.
  unfold tx_bind. erewrite (exec_run _ _ _ tt (mutate_db ns m (db w))); [|done|].
  2: { destruct m; simpl; by rewrite ?Ht. }
  destruct (IH (set_db (mutate_db ns m (db w)) (tick w))) as (w' & -> & Hdb & Hm); [|by exists w'].
  simpl. destruct m; simpl; eauto.
Qed.

Lemma next_revision n rev :
  checked_add_u64 n 1 = Some rev → rev = (n + 1)%N ∧ u64_range (n + 1).
Proof. by intros [-> ?]%checked_add_u64_spec. Qed.

(** [state_apply] keeps the contract under any I/O failures. *)
Lemma state_apply_ok ns expected ms w rev w' :
  wf_db (db w) → state_apply ns expected ms w = (Ok rev, w') →
  revision_of (db w) ns = expected ∧ (u64_range (expected + 1) ∨ ms = []) ∧
  rev = (if bool_decide (ms = []) then expected else expected + 1)%N ∧
  db w' = applied ns ms (db w).
Proof.
  intros Hd (w2 & H & ->)%transaction_ok. cbn [db tick].
  assert (wf_db (with_namespace ns (db w))) as Hd1 by (apply (applied_wf ns []); auto).
  unfold applied. tx_inv.
  match goal with Hr : state_revision _ _ _ = _ |- _ => apply state_revision_ok in Hr as [-> ->] end;
    [|done].
  cbn [db tick set_db] in *. fold (with_namespace ns (db w)) in H.
  rewrite revision_with_namespace in H.
  destruct (N.eqb_spec (revision_of (db w) ns) expected) as [<-|]; [|done]. cbn [negb] in H.
  case_bool_decide; [tx_inv; by split_and!; auto|].
  apply tx_bind_ok in H as ([] & w3 & Hm%apply_mutations_ok & H).
  apply tx_bind_ok in H as (r' & w4 & [Hr' ->]%tx_lift_ok & H).
  destruct (checked_add_u64 _ 1) as [r|] eqn:Er; [|done].
  apply next_revision in Er as [-> Hr]. simplify_eq/=. unfold store_revision in H.
  tx_inv. split_and!; [done|by left|done|]. cbn. by rewrite Hm.
Qed.

Lemma state_apply_run ns expected ms w :
  no_io_errors → wf_db (db w) →
  ∃ w', state_apply ns expected ms w =
    (result_map fst (apply_spec expected ms (namespace_of (db w) ns)), w') ∧
    db w' = if is_ok (apply_spec expected ms (namespace_of (db w) ns))
            then applied ns ms (db w) else db w.
Proof.
  intros Hio Hd. unfold state_apply. rewrite transaction_run by done.
  assert (wf_db (with_namespace ns (db w))) as Hd1 by (apply (applied_wf ns []); auto).
  unfold tx_bind at 1. rewrite update_run by done. unfold tx_bind at 1.
  rewrite state_revision_run by done. cbn [db tick set_db].
  fold (with_namespace ns (db w)). rewrite revision_with_namespace. unfold apply_spec, applied. simpl.
  destruct (negb (revision_of (db w) ns =? expected)%N); [by eexists|].
  case_bool_decide; [by eexists|]. unfold tx_bind at 1.
  match goal with |- context [apply_mutations _ _ _ ?w0] =>
    destruct (apply_mutations_run StateStorage ns ms w0) as (w1 & -> & Hdb & _) end; [done| |].
  { cbn [db set_db tick]. rewrite with_namespace_lookup, decide_True by done. eauto. }
  cbn [db set_db tick] in Hdb. unfold tx_bind, tx_lift.
  destruct (checked_add_u64 _ 1) as [r|] eqn:Er; [|by eexists].
  apply next_revision in Er as [-> _]. simpl. unfold store_revision.
  rewrite update_run by done. eexists. split; [done|]. cbn. by rewrite Hdb.
Qed.
(** *** [get] and [scan] *)

Lemma state_get_run ns key w :
  no_io_errors → wf_db (db w) →
  ∃ w', state_get ns key w =
    (Ok (mkStateSnapshot (revision_of (db w) ns) (entries_of (db w) ns !! key)), w') ∧
    db w' = db w.
Proof.
  intros Hio Hd. unfold state_get. rewrite transaction_run by done.
  unfold tx_bind at 1. rewrite state_revision_run by done.
  unfold tx_bind at 1. erewrite select_run; [|done|reflexivity].
  eexists. split; [by rewrite entries_lookup|done].
Qed.

Definition key_lt (a b : StateEntry) : Prop :=
  String.le (entry_key a) (entry_key b) ∧ entry_key a ≠ entry_key b.

Definition in_range (prefix : string) (after : option string) (key : string) : Prop :=
  sql_has_prefix prefix key = true ∧ (∀ a, after = Some a → ¬ String.le key a).

Lemma state_rows_elem d ns prefix after e :
  e ∈ state_rows d ns prefix after ↔
  entries_of d ns !! entry_key e = Some (entry_value e) ∧ in_range prefix after (entry_key e).
Proof.
  unfold state_rows. rewrite merge_sort_Permutation, list_elem_of_omap, entries_lookup.
  split.
  - intros ([[ns' key] value] & Hin%elem_of_map_to_list & Hc).
    destruct (String.eqb_spec ns' ns) as [->|]; [|done]. simpl in Hc.
    case_match eqn:Hb; simplify_eq/=. apply andb_true_iff in Hb as [? Ha].
    split; [done|split; [done|]]. intros a ->. simpl in Ha. by case_bool_decide.
  - intros (Hin & Hp & Ha). exists ((ns, entry_key e), entry_value e).
    rewrite elem_of_map_to_list. split; [done|]. rewrite String.eqb_refl, Hp. simpl.
    destruct e, after as [a|]; simpl; [|done]. case_bool_decide as Hle; [|done].
    exfalso. by eapply Ha.
Qed.

Lemma scanned_keys_nodup ns (p : string → bool) (l : list ((string * string) * bytes)) :
  NoDup l.*1 →
  NoDup (entry_key <$> omap (λ '((ns', key), value),
    if String.eqb ns' ns && p key then Some (mkStateEntry key value) else None) l).
Proof.
  induction l as [|[[ns' key] value] l IH]; [constructor|].
  rewrite fmap_cons, NoDup_cons. intros [Hnin Hl]. csimpl.
  destruct (String.eqb_spec ns' ns) as [->|]; [|by apply IH]. simpl.
  destruct (p key); [|by apply IH]. csimpl. apply NoDup_cons. split; [|by apply IH].
  intros (e & -> & ([[ns' key'] v] & Hin & He)%list_elem_of_omap)%list_elem_of_fmap.
  destruct (String.eqb_spec ns' ns) as [->|]; [|done]. simpl in He. case_match; simplify_eq/=.
  apply Hnin, list_elem_of_fmap. by exists (ns, key', v).
Qed.

Lemma sorted_strict (l : list StateEntry) :
  StronglySorted entry_le l → NoDup (entry_key <$> l) → StronglySorted key_lt l.
Proof.
  induction 1 as [|e l Hl IH He]; [constructor|].
  rewrite fmap_cons, NoDup_cons. intros [Hn Hnd].
  constructor; [by apply IH|]. rewrite Forall_forall in He |- *. intros x Hx. split; [by apply He|].
  intros Heq. apply Hn. rewrite Heq. by apply list_elem_of_fmap_2.
Qed.

#[export] Instance entry_le_total : Total entry_le.
Proof. intros a b. apply (total String.le). Qed.
#[export] Instance entry_le_trans : Transitive entry_le.
Proof. intros a b c. unfold entry_le. apply (transitivity (R := String.le)). Qed.

Lemma state_rows_sorted d ns prefix after :
  StronglySorted key_lt (state_rows d ns prefix after).
Proof.
  apply sorted_strict; [apply StronglySorted_merge_sort; apply _|].
  unfold state_rows. rewrite merge_sort_Permutation.
  erewrite list_omap_ext; [apply (scanned_keys_nodup ns (λ key, sql_has_prefix prefix key
      && is_none_or after (λ a, negb (bool_decide (String.le key a))))), NoDup_fst_map_to_list|].
  apply Forall_Forall2_diag, Forall_forall. intros [[ns' key] v] _. by rewrite andb_assoc.
Qed.
#[export] Instance key_lt_antisymm : AntiSymm (=) key_lt.
Proof. intros a b [Hab Hne] [Hba _]. destruct Hne. by apply (anti_symm String.le). Qed.

Lemma key_lt_nodup l : StronglySorted key_lt l → NoDup l.
Proof.
  induction 1 as [|e l Hl IH He]; constructor; [|done]. rewrite Forall_forall in He.
  intros [_ Hne]%He. done.
Qed.

Lemma sorted_entries_unique l l' :
  StronglySorted key_lt l → StronglySorted key_lt l' → (∀ e, e ∈ l ↔ e ∈ l') → l = l'.
Proof.
  intros Hl Hl' He. apply (StronglySorted_unique key_lt); [done|done|].
  apply NoDup_Permutation; [by apply key_lt_nodup|by apply key_lt_nodup|done].
Qed.

Lemma sorted_drop_lt n l e x :
  StronglySorted key_lt l → last (take n l) = Some e → x ∈ drop n l → key_lt e x.
Proof.
  intros Hl He Hx. rewrite <- (take_drop n l) in Hl. apply StronglySorted_app in Hl as (H & _ & _).
  apply H; [|done]. by apply last_Some_elem_of.
Qed.

Lemma sorted_take_le n l e x :
  StronglySorted key_lt l → last (take n l) = Some e → x ∈ take n l → entry_le x e.
Proof.
  intros Hl He Hx. rewrite <- (take_drop n l) in Hl. apply StronglySorted_app in Hl as (_ & H & _).
  apply last_Some in He as [l' He]. rewrite He in H, Hx. apply StronglySorted_app in H as (H & _ & _).
  apply elem_of_app in Hx as [Hx| ->%list_elem_of_singleton]; [|unfold entry_le; reflexivity].
  apply H; [done|by left].
Qed.

(** A page that starts after the last key of the previous one continues where
    it stopped. *)
Lemma state_rows_next d ns prefix after n e :
  last (take n (state_rows d ns prefix after)) = Some e →
  state_rows d ns prefix (Some (entry_key e)) = drop n (state_rows d ns prefix after).
Proof.
  set (rows := state_rows d ns prefix after). intros He.
  assert (StronglySorted key_lt rows) as Hs by apply state_rows_sorted.
  assert (e ∈ rows) as Hin.
  { rewrite <- (take_drop n rows). apply elem_of_app. left. by apply last_Some_elem_of. }
  apply state_rows_elem in Hin as (_ & _ & Hafter).
  apply sorted_entries_unique; [apply state_rows_sorted| |].
  { apply (StronglySorted_app_1_r _ (take n rows)). by rewrite take_drop. }
  intros x. rewrite state_rows_elem. unfold in_range. split.
  - intros (Hx & Hp & Hgt). specialize (Hgt _ eq_refl).
    assert (x ∈ rows) as Hr.
    { apply state_rows_elem. split; [done|split; [done|]]. intros a Ha Hle. specialize (Hafter a Ha).
      apply Hgt. trans a; [done|]. by destruct (total String.le (entry_key e) a). }
    rewrite <- (take_drop n rows) in Hr. apply elem_of_app in Hr as [Hr|]; [|done].
    destruct Hgt. by eapply sorted_take_le.
  - intros Hx. assert (key_lt e x) as [Hle Hne] by by eapply sorted_drop_lt.
    assert (x ∈ rows) as (? & ? & _)%state_rows_elem by (rewrite <- (take_drop n rows); set_solver).
    split_and!; [done|done|]. intros a [= <-] Hle'. apply Hne. by apply (anti_symm String.le).
Qed.

Definition scan_spec (d : Database) (ns : StateNamespace) (prefix : string)
    (after : option string) (limit : N) : StatePage :=
  let rows := state_rows d ns prefix after in
  let page := take (N.to_nat limit) rows in
  mkStatePage page
    (if (limit <? len rows)%N then entry_key <$> last page else None) (revision_of d ns).

Lemma state_scan_run ns prefix after limit w :
  no_io_errors → wf_db (db w) → (Z.of_N limit < i64_max)%Z →
  ∃ w', state_scan ns prefix after limit w = (Ok (scan_spec (db w) ns prefix after limit), w') ∧
    db w' = db w.
Proof.
  intros Hio Hd Hl. unfold state_scan. rewrite transaction_run by done.
  unfold tx_bind at 1. rewrite state_revision_run by done.
  unfold tx_bind at 1. erewrite select_run; [|done|reflexivity].
  exists (tick (tick (tick (tick w)))). split; [|done]. unfold tx_ret, scan_spec. cbn [db tick].
  set (rows := state_rows (db w) ns prefix after).
  assert (sql_limit (saturating_add_u64 limit 1) = S (N.to_nat limit)) as ->.
  { unfold sql_limit, saturating_add_u64, i64_try_from, i64_max, u64_max in *.
    rewrite N.min_l by lia. rewrite (proj2 (Z.leb_le _ _)) by lia. simpl. lia. }
  rewrite take_take, Nat.min_l by lia.
  assert ((limit <? len (take (S (N.to_nat limit)) rows)) = (limit <? len rows))%N as ->; [unfold len|done].
  rewrite length_take. apply eq_true_iff_eq. rewrite !N.ltb_lt. lia.
Qed.

(** A client that follows [next_key] until there is none. *)
Fixpoint scan_all (fuel : nat) (ns : StateNamespace) (prefix : string) (after : option string)
    (limit : N) : Tx M StateError (list StateEntry) :=
  match fuel with
  | O => tx_ret []
  | S fuel =>
      let* page := state_scan ns prefix after limit in
      match next_key page with
      | None => tx_ret (entries page)
      | Some key =>
          let* rest := scan_all fuel ns prefix (Some key) limit in
          tx_ret (entries page ++ rest)
      end
  end.

Lemma scan_all_run fuel ns prefix after limit w :
  no_io_errors → wf_db (db w) → (0 < limit)%N → (Z.of_N limit < i64_max)%Z →
  length (state_rows (db w) ns prefix after) < fuel →
  ∃ w', scan_all fuel ns prefix after limit w = (Ok (state_rows (db w) ns prefix after), w') ∧
    db w' = db w.
Proof.
  intros Hio Hd Hpos Hmax. revert after w Hd.
  induction fuel as [|fuel IH]; intros after w Hd Hf; [lia|]. simpl.
  destruct (state_scan_run ns prefix after limit w) as (w1 & E1 & Hdb); try done.
  unfold tx_bind at 1. rewrite E1. unfold scan_spec. cbn [next_key entries].
  set (rows := state_rows (db w) ns prefix after) in *.
  destruct (N.ltb_spec limit (len rows)) as [Hlt|Hge]; unfold len in *.
  2: { exists w1. split; [|done]. simpl. unfold tx_ret. by rewrite take_ge by lia. }
  destruct (last (take (N.to_nat limit) rows)) as [e|] eqn:He.
  2: { apply last_None, (f_equal length) in He. rewrite length_take in He. simpl in He. lia. }
  simpl. pose proof (state_rows_next _ _ _ _ _ _ He) as Hn.
  destruct (IH (Some (entry_key e)) w1) as (w2 & E2 & Hdb2).
  { by rewrite Hdb. }
  { rewrite Hdb, Hn, length_drop. fold rows. lia. }
  exists w2. unfold tx_bind. rewrite E2. unfold tx_ret. rewrite Hdb, Hn, Hdb2, Hdb.
  by rewrite take_drop.
Qed.
End calls.
