(* ===== verification/SqliteDelivery.v ===== *)
(** Delivery commits of the SQLite store: the state mutations, the proposed
    events and the cursor of one delivery take effect together or not at all. *)
From stdpp Require Import base tactics option list strings sorting gmap.
From Stdlib Require Import ZArith NArith Lia Ascii.
From S2P Require Import Prelude Event EventStore Delivery Stores Utf8 Sqlite SqliteLog SqliteState.

(** ** What a batch of appends does to a database *)

Inductive appends : Database → list AppendRequest → list CommittedEvent → Database → Prop :=
| appends_nil d : appends d [] [] d
| appends_cons d r e d1 rs es d2 :
    append_outcome d r e d1 → appends d1 rs es d2 → appends d (r :: rs) (e :: es) d2.

Lemma append_outcome_tables d r e d' :
  append_outcome d r e d' →
  t_namespaces d' = t_namespaces d ∧ t_state d' = t_state d ∧ t_cursors d' = t_cursors d ∧
  t_credentials d' = t_credentials d.
Proof. by intros (_ & [(_ & _ & ->)|(_ & _ & _ & ->)]). Qed.

Lemma appends_tables d rs es d' :
  appends d rs es d' →
  t_namespaces d' = t_namespaces d ∧ t_state d' = t_state d ∧ t_cursors d' = t_cursors d ∧
  t_credentials d' = t_credentials d.
Proof.
  induction 1 as [|d r e d1 rs es d2 H _ IH]; [done|]. apply append_outcome_tables in H.
  destruct_and?. split_and!; congruence.
Qed.

Lemma appends_wf d rs es d' :
  wf_db d → Forall request_typed rs → appends d rs es d' → wf_db d'.
Proof.
  intros Hd Ht H. induction H as [|d r e d1 rs es d2 H _ IH]; [done|].
  apply Forall_cons in Ht as [Hr Ht]. apply IH; [|done]. by eapply append_outcome_wf.
Qed.

(** Appending only extends the log; the events it answers with are in it. *)
Lemma append_outcome_log d r e d' :
  wf_db d → request_typed r → append_outcome d r e d' →
  event_log d `prefix_of` event_log d' ∧ e ∈ event_log d' ∧
  (request e = r ∨ duplicate_of r e = true).
Proof.
  intros Hd Ht (_ & [(Hin & Hdup & ->)|(Hr & _ & He & ->)]).
  - apply stream_log_elem in Hin as [Hin _]. by split_and!; auto.
  - subst r. rewrite appended_event_log by done. split_and!; [by eexists|set_solver|by left].
Qed.

Lemma appends_log d rs es d' :
  wf_db d → Forall request_typed rs → appends d rs es d' →
  event_log d `prefix_of` event_log d' ∧
  Forall2 (λ r e, e ∈ event_log d' ∧ (request e = r ∨ duplicate_of r e = true)) rs es.
Proof.
  intros Hd Ht H. induction H as [|d r e d1 rs es d2 H _ IH]; [by split|].
  apply Forall_cons in Ht as [Hr Ht].
  assert (wf_db d1) as Hd1 by by eapply append_outcome_wf.
  apply append_outcome_log in H as (Hp & Hin & Hor); [|done|done].
  destruct (IH Hd1 Ht) as [Hp' Hall]. split; [by trans (event_log d1)|].
  constructor; [|done]. split; [|done]. destruct Hp' as [l ->]. set_solver.
Qed.

(** Events of other streams are not touched by a batch for one stream. *)
Lemma appends_other_stream d rs es d' s :
  wf_db d → Forall request_typed rs → Forall (λ r, stream_id r ≠ s) rs → appends d rs es d' →
  stream_log d' s = stream_log d s.
Proof.
  intros Hd Ht Hs H. induction H as [|d r e d1 rs es d2 H _ IH]; [done|].
  apply Forall_cons in Ht as [Hr Ht], Hs as [Hne Hs].
  assert (wf_db d1) as Hd1 by by eapply append_outcome_wf.
  rewrite IH by done. destruct H as (_ & [(_ & _ & ->)|(<- & _ & He & ->)]); [done|].
  by rewrite appended_stream_log, decide_False, app_nil_r.
Qed.

Definition with_checkpoint (c : CursorKey) (k : N) (d : Database) : Database :=
  set_cursors <[(cursor_stream_id c, cursor_namespace c) := u64_to_string k]> d.

Lemma with_checkpoint_of c k d c' :
  u64_range k →
  checkpoint_of (with_checkpoint c k d) c' = if decide (c' = c) then k else checkpoint_of d c'.
Proof.
  intros Hk. unfold checkpoint_of. simpl. case_decide as Hc.
  - subst. rewrite lookup_insert_eq. simpl. by rewrite parse_u64_to_string.
  - rewrite lookup_insert_ne; [done|]. destruct c, c'. naive_solver.
Qed.

Lemma with_checkpoint_wf c k d : u64_range k → wf_db d → wf_db (with_checkpoint c k d).
Proof.
  intros Hk Hd. apply (wf_db_tables d); [done|done|apply (wf_namespaces _ Hd)|apply (wf_state _ Hd)|].
  intros c' t. simpl. rewrite lookup_insert. case_decide; [|apply (wf_cursors _ Hd)].
  intros [= <-]. eauto.
Qed.

(** The database a successful commit leaves. *)
Definition committed (c : DeliveryCommit) (d : Database) (es : list CommittedEvent)
    (d' : Database) : Prop :=
  ∃ d1, appends (applied (cursor_namespace (cursor c)) (mutations c) d) (events c) es d1 ∧
    d' = match checkpoint c with
         | Some k => with_checkpoint (cursor c) k d1
         | None => d1
         end.

Section commit.
Context {M : Type} `{MS : !EventMetadataSource M} {SQ : Sqlite} {UT : UnicodeTables}.
Implicit Types (w : World M).

Lemma read_checkpoint_ok c w n w' :
  wf_db (db w) → read_checkpoint c w = (Ok n, w') → n = checkpoint_of (db w) c ∧ w' = tick w.
Proof.
  intros Hd H. unfold read_checkpoint in H. tx_inv. simplify_eq.
  rewrite (proj2 (checkpoint_parse _ c Hd)) in H. by simplify_eq/=.
Qed.

Lemma read_checkpoint_run c w :
  no_io_errors → wf_db (db w) → read_checkpoint c w = (Ok (checkpoint_of (db w) c), tick w).
Proof.
  intros Hio Hd. unfold read_checkpoint, tx_bind. erewrite select_run; [|done|reflexivity].
  unfold tx_lift. by rewrite (proj2 (checkpoint_parse _ c Hd)).
Qed.

Lemma commit_state_ok ns ms w rev w' :
  wf_db (db w) → commit_state ns ms w = (Ok rev, w') →
  (u64_range (revision_of (db w) ns + 1) ∨ ms = []) ∧
  rev = (if bool_decide (ms = []) then revision_of (db w) ns else revision_of (db w) ns + 1)%N ∧
  db w' = applied ns ms (db w).
Proof.
  intros Hd H. unfold applied.
  assert (wf_db (with_namespace ns (db w))) as Hd1 by (apply (applied_wf ns []); auto).
  apply tx_bind_ok in H as ([] & w1 & ->%update_ok & H).
  apply tx_bind_ok in H as (n & w2 & [-> ->]%state_revision_ok & H); [|done].
  cbn [db tick set_db] in *. fold (with_namespace ns (db w)) in H.
  rewrite revision_with_namespace in H.
  case_bool_decide; [tx_inv; by split_and!; auto|].
  apply tx_bind_ok in H as ([] & w3 & Hm%apply_mutations_ok & H).
  apply tx_bind_ok in H as (r' & w4 & [Hr' ->]%tx_lift_ok & H).
  destruct (checked_add_u64 _ 1) as [r|] eqn:Er; [|done].
  apply next_revision in Er as [-> Hr]. simplify_eq/=. unfold store_revision in H.
  tx_inv. split_and!; [by left|done|]. cbn. by rewrite Hm.
Qed.

Lemma append_all_ok rs w es w' :
  wf_db (db w) → Forall request_typed rs → append_all rs w = (Ok es, w') →
  appends (db w) rs es (db w').
Proof.
  revert w es. induction rs as [|r rs IH]; intros w es Hd Ht H; simpl in H.
  { tx_inv. constructor. }
  apply Forall_cons in Ht as [Hr Ht].
  apply tx_bind_ok in H as (e & w1 & He%tx_map_err_ok & H).
  apply append_in_ok in He; [|done].
  apply tx_bind_ok in H as (es' & w2 & Hes & H). apply tx_ret_ok in H as [-> ->].
  econstructor; [done|]. apply IH; [|done|done]. by eapply append_outcome_wf.
Qed.

Lemma commit_ok c w rc w' :
  wf_db (db w) → delivery_typed c → commit c w = (Ok rc, w') →
  delivery_validate c = Ok tt ∧
  checkpoint_of (db w) (cursor c) = expected_checkpoint c ∧
  (u64_range (revision_of (db w) (cursor_namespace (cursor c)) + 1) ∨ mutations c = []) ∧
  committed c (db w) (receipt_events rc) (db w') ∧
  receipt_checkpoint rc = default (expected_checkpoint c) (checkpoint c) ∧
  receipt_revision rc = revision_of (db w') (cursor_namespace (cursor c)).
Proof.
  intros Hd [Hk Ht] H. apply tx_bind_ok in H as ([] & w0 & [Hv ->]%tx_lift_ok & H).
  apply transaction_ok in H as (w1 & H & ->).
  apply tx_bind_ok in H as (stored & w2 & [-> ->]%read_checkpoint_ok & H); [|done].
  cbn [db tick] in H. destruct (N.eqb_spec (checkpoint_of (db w) (cursor c)) (expected_checkpoint c))
    as [Hexp|]; [|done]. cbn [negb] in H.
  apply tx_bind_ok in H as (rev & w3 & (Hr & -> & Hdb3)%commit_state_ok & H); [|done].
  cbn [db tick] in *. set (ns := cursor_namespace (cursor c)) in *.
  apply tx_bind_ok in H as (es & w4 & Hes & H).
  apply append_all_ok in Hes; [|rewrite Hdb3; by apply applied_wf|done]. rewrite Hdb3 in Hes.
  apply tx_bind_ok in H as ([] & w5 & Hc & H). apply tx_ret_ok in H as [-> ->].
  cbn [receipt_events receipt_checkpoint receipt_revision db tick].
  assert (db w5 = match checkpoint c with
                  | Some k => with_checkpoint (cursor c) k (db w4)
                  | None => db w4 end) as Hdb5.
  { destruct (checkpoint c); simpl in Hc; [by apply update_ok in Hc as ->|by apply tx_ret_ok in Hc as [_ ->]]. }
  split_and!; try done; [by exists (db w4)|by rewrite Hexp|].
  pose proof (applied_namespace ns (mutations c) (db w) Hr) as Hn.
  assert (revision_of (db w5) ns = revision_of (applied ns (mutations c) (db w)) ns) as ->.
  { apply appends_tables in Hes as (Hn' & _). unfold revision_of.
    rewrite Hdb5. destruct (checkpoint c); simpl; by rewrite Hn'. }
  unfold namespace_of in Hn. case_bool_decide; by injection Hn as -> _.
Qed.

Lemma committed_wf c d es d' :
  wf_db d → delivery_typed c →
  u64_range (revision_of d (cursor_namespace (cursor c)) + 1) ∨ mutations c = [] →
  committed c d es d' → wf_db d'.
Proof.
  intros Hd [Hk Ht] Hr (d1 & Ha & ->). apply appends_wf in Ha; [|by apply applied_wf|done].
  destruct (checkpoint c) as [k|] eqn:Ek; [|done]. apply with_checkpoint_wf; [by apply Hk|done].
Qed.
(** *** Progress *)

(** A metadata source that never hands out an identifier twice: [fresh m] are
    the identifiers it may still hand out. *)
Record fresh_source (fresh : M → EventId → Prop) : Prop := {
  fresh_next : ∀ m, fresh m (next_event_id m).1;
  fresh_shrink : ∀ m id, fresh (next_event_id m).2 id → fresh m id ∧ id ≠ (next_event_id m).1;
  fresh_clock : ∀ m id, fresh (now_ms m).2 id → fresh m id;
}.

Definition log_old (fresh : M → EventId → Prop) w : Prop :=
  ∀ e, e ∈ event_log (db w) → ¬ fresh (meta w) (event_id e).

Lemma exec_meta {E A} (wrap : string → E) (f : Database → result (A * Database) string) w r w' :
  exec wrap f w = (r, w') → meta w' = meta w.
Proof. unfold exec. intros H. repeat case_match; by simplify_eq. Qed.

Lemma insert_new_meta r seq w e w' :
  insert_new r seq w = (Ok e, w') →
  event_id e = (next_event_id (meta w)).1 ∧
  meta w' = (now_ms (next_event_id (meta w)).2).2.
Proof.
  intros H. apply tx_bind_ok in H as (id & w1 & Hid & H). unfold fresh_event_id in Hid.
  destruct (next_event_id (meta w)) as [id' m]. injection Hid as -> <-.
  apply tx_bind_ok in H as (col & w2 & [_ ->]%select_ok & H). destruct col; [done|].
  apply tx_bind_ok in H as (t & w3 & Ht & H). unfold read_clock in Ht. cbn [meta tick set_meta] in Ht.
  cbn [fst snd]. destruct (now_ms m) as [t' m']. injection Ht as -> <-.
  apply tx_bind_ok in H as ([] & w4 & Hi & H). unfold insert_event in Hi.
  apply tx_bind_ok in Hi as ([] & w5 & H1%exec_meta & Hi).
  apply tx_bind_ok in Hi as ([] & w6 & H2%exec_meta & H3%exec_meta).
  tx_inv. split; [done|]. by rewrite H3, H2, H1.
Qed.

Lemma claim_sequence_meta r w seq w' : claim_sequence r w = (Ok seq, w') → meta w' = meta w.
Proof.
  intros H. apply tx_bind_ok in H as ([] & w1 & H1%exec_meta & H).
  apply tx_bind_ok in H as ([k n] & w2 & H2%exec_meta & H).
  repeat case_match; tx_inv; by rewrite ?H2, ?H1.
Qed.

Lemma append_in_old fresh r w e w' :
  fresh_source fresh → wf_db (db w) → request_typed r → log_old fresh w →
  append_in r w = (Ok e, w') → log_old fresh w'.
Proof.
  intros Hf Hd Ht Hold H. pose proof (append_in_ok r w e w' Hd H) as Hout.
  apply tx_bind_ok in H as ([] & w0 & [Hv ->]%tx_lift_ok & H).
  apply tx_bind_ok in H as (o & w1 & (-> & Hdb & Hmeta)%find_duplicate_ok & H); [|done].
  destruct (find _ _) eqn:Ef.
  { apply tx_ret_ok in H as [-> ->]. unfold log_old. by rewrite Hdb, Hmeta. }
  apply tx_bind_ok in H as (seq & w2 & Hc%claim_sequence_meta & [Hid Hm]%insert_new_meta).
  rewrite Hc, Hmeta in Hid, Hm. destruct Hout as (_ & [(Hin & Hdup & Heq)|(Hr & _ & He & Heq)]).
  { exfalso. apply stream_log_elem in Hin as [Hin _]. apply list_elem_of_In in Hin.
    by rewrite (find_none _ _ Ef e Hin) in Hdup. }
  subst r. intros x. rewrite Heq, appended_event_log by done. rewrite Hm.
  intros [Hx| ->%list_elem_of_singleton]%elem_of_app Hfr;
    apply (fresh_clock _ Hf), (fresh_shrink _ Hf) in Hfr as [Hfr Hne].
  - by apply (Hold x).
  - done.
Qed.

(** When every event of a batch for stream [s] must be accepted. *)
Record batch_ready (s : StreamId) (d : Database) (rs : list AppendRequest) : Prop := {
  batch_valid : Forall valid_request rs;
  batch_stream : Forall (λ r, stream_id r = s) rs;
  batch_kind : Forall (kind_unchanged d) rs;
  batch_same_kind : ∀ r r', r ∈ rs → r' ∈ rs → stream_kind r = stream_kind r';
  batch_max : (next_sequence d s + Z.of_nat (length rs) ≤ i64_max)%Z;
}.

Lemma batch_ready_tail s d r rs e d' :
  wf_db d → request_typed r → batch_ready s d (r :: rs) → append_outcome d r e d' →
  batch_ready s d' rs.
Proof.
  intros Hd Ht [Hv Hs Hk Hsame Hmax] Hout.
  apply Forall_cons in Hv as [_ Hv], Hs as [Hr Hs], Hk as [Hkr Hk]. simpl in Hmax.
  destruct Hout as (_ & [(_ & _ & ->)|(Heq & _ & He & ->)]).
  { split; try done; [set_solver|lia]. }
  subst r. split; try done.
  - rewrite Forall_forall in Hk, Hs |- *. intros r Hin k n. simpl.
    rewrite (Hs r Hin), <- Hr, lookup_insert_eq. intros [= <- _].
    f_equal. apply Hsame; set_solver.
  - set_solver.
  - rewrite appended_next_sequence, decide_True by done.
    pose proof (wf_counter _ Hd s). pose proof (app_sequence _ _ He). rewrite Hr in *. lia.
Qed.

Lemma append_all_run fresh s rs w :
  no_io_errors → fresh_source fresh → wf_db (db w) → Forall request_typed rs → log_old fresh w →
  batch_ready s (db w) rs → ∃ es w', append_all rs w = (Ok es, w').
Proof.
  intros Hio Hf. revert w. induction rs as [|r rs IH]; intros w Hd Ht Hold Hb; [by eexists _, _|].
  apply Forall_cons in Ht as [Hr Ht]. destruct (append_in_run r w Hio Hd) as (e & w1 & He).
  { pose proof Hb as [Hv Hs Hk _ Hmax].
    apply Forall_cons in Hv as [Hv _], Hs as [Hs _], Hk as [Hk _]. simpl in Hmax.
    split; [done|done|rewrite Hs; lia|]. intros (x & Hx & Hin)%list_elem_of_fmap.
    apply (Hold x Hin). rewrite <- Hx. apply (fresh_next _ Hf). }
  pose proof (append_in_ok _ _ _ _ Hd He) as Hout.
  destruct (IH w1) as (es & w2 & Hes).
  - by eapply append_outcome_wf.
  - done.
  - by eapply append_in_old.
  - by eapply batch_ready_tail.
  - simpl. unfold tx_bind, tx_map_err. rewrite He, Hes. by eexists _, _.
Qed.
Lemma commit_state_run ns ms w :
  no_io_errors → wf_db (db w) → u64_range (revision_of (db w) ns + 1) →
  ∃ rev w', commit_state ns ms w = (Ok rev, w') ∧ meta w' = meta w.
Proof.
  intros Hio Hd Hr. unfold commit_state.
  assert (wf_db (with_namespace ns (db w))) as Hd1 by (apply (applied_wf ns []); auto).
  unfold tx_bind at 1. rewrite update_run by done. unfold tx_bind at 1.
  rewrite state_revision_run by done. cbn [db tick set_db].
  fold (with_namespace ns (db w)). rewrite revision_with_namespace.
  case_bool_decide; [by eexists _, _|]. unfold tx_bind at 1.
  match goal with |- context [apply_mutations _ _ _ ?w0] =>
    destruct (apply_mutations_run DeliveryStorage ns ms w0) as (w1 & -> & Hdb & Hm) end; [done| |].
  { cbn [db set_db tick]. rewrite with_namespace_lookup, decide_True by done. eauto. }
  unfold tx_bind, tx_lift. rewrite (proj2 (checked_add_u64_spec _ _ _) (conj eq_refl Hr)).
  simpl. unfold store_revision. rewrite update_run by done. by eexists _, _.
Qed.

Lemma batch_ready_log s d d' rs :
  t_streams d' = t_streams d → batch_ready s d rs → batch_ready s d' rs.
Proof.
  intros Hs []. split; try done.
  - eapply Forall_impl; [done|]. intros r. unfold kind_unchanged. by rewrite Hs.
  - unfold next_sequence. by rewrite Hs.
Qed.

Lemma commit_run fresh c w :
  no_io_errors → fresh_source fresh → wf_db (db w) → log_old fresh w → delivery_typed c →
  delivery_validate c = Ok tt → checkpoint_of (db w) (cursor c) = expected_checkpoint c →
  u64_range (revision_of (db w) (cursor_namespace (cursor c)) + 1) →
  batch_ready (cursor_stream_id (cursor c)) (db w) (events c) →
  ∃ rc w', commit c w = (Ok rc, w').
Proof.
  intros Hio Hf Hd Hold [Hk Ht] Hv Hexp Hr Hb. unfold commit. unfold tx_bind at 1, tx_lift.
  rewrite Hv, transaction_run by done. unfold tx_bind at 1. rewrite read_checkpoint_run by done.
  cbn [db tick]. rewrite Hexp, N.eqb_refl. cbn [negb].
  destruct (commit_state_run (cursor_namespace (cursor c)) (mutations c) (tick (tick w)))
    as (rev & w1 & E1 & Hm1); [done..|]. unfold tx_bind at 1. rewrite E1.
  apply commit_state_ok in E1 as (_ & _ & Hdb1); [|done]. cbn [db tick meta] in *.
  destruct (applied_tables (cursor_namespace (cursor c)) (mutations c) (db w)) as (Hl & _).
  destruct (append_all_run fresh (cursor_stream_id (cursor c)) (events c) w1) as (es & w2 & E2); try done.
  { rewrite Hdb1. apply applied_wf; auto. }
  { intros e. rewrite Hdb1, (same_log_event_log (db w)), Hm1 by done. apply Hold. }
  { rewrite Hdb1. apply (batch_ready_log _ (db w)); [by destruct Hl|done]. }
  unfold tx_bind at 1. rewrite E2. unfold tx_bind.
  destruct (checkpoint c); simpl; [unfold store_checkpoint; rewrite update_run by done|]; by eexists _, _.
Qed.

Lemma commit_conflict c w :
  no_io_errors → wf_db (db w) → delivery_validate c = Ok tt →
  checkpoint_of (db w) (cursor c) ≠ expected_checkpoint c →
  ∃ w', commit c w =
    (Err (DeliveryConflict (expected_checkpoint c) (checkpoint_of (db w) (cursor c))), w') ∧
    db w' = db w.
Proof.
  intros Hio Hd Hv Hne. unfold commit. unfold tx_bind at 1, tx_lift. rewrite Hv.
  rewrite transaction_run by done. unfold tx_bind at 1. rewrite read_checkpoint_run by done.
  cbn [db tick]. rewrite (proj2 (N.eqb_neq _ _) Hne). by eexists.
Qed.

Lemma commit_err c w e w' : commit c w = (Err e, w') → db w' = db w.
Proof.
  unfold commit, tx_bind, tx_lift. destruct (delivery_validate c) as [[]|]; [|by intros [= _ <-]].
  apply transaction_err.
Qed.

(** *** [discard] *)

Lemma discard_ok c w w' :
  wf_db (db w) → discard c w = (Ok tt, w') →
  wf_db (db w') ∧ same_log (db w) (db w') ∧
  namespace_of (db w') (cursor_namespace c) = mkNamespace 0 ∅ ∧
  checkpoint_of (db w') c = 0%N ∧
  (∀ ns, ns ≠ cursor_namespace c → namespace_of (db w') ns = namespace_of (db w) ns) ∧
  (∀ c', c' ≠ c → checkpoint_of (db w') c' = checkpoint_of (db w) c').
Proof.
  intros Hd (w2 & H & ->)%transaction_ok. tx_inv. cbn [db set_db tick].
  set (d' := set_cursors _ _).
  assert (∀ ns k, t_state d' !! (ns, k) =
    if decide (ns = cursor_namespace c) then None else t_state (db w) !! (ns, k)) as Hst.
  { intros ns k. simpl. case_decide.
    - apply map_lookup_filter_None. right. naive_solver.
    - rewrite map_lookup_filter. destruct (t_state (db w) !! (ns, k)); [|done]. simpl.
      by rewrite option_guard_True. }
  split_and!; [|done| | | |].
  - apply (wf_db_tables (db w)); [done|done| | |].
    + intros ns t. simpl. rewrite lookup_delete_Some. intros [_ ?]. by apply (wf_namespaces _ Hd ns).
    + intros ns k v. rewrite Hst. simpl. case_decide; [done|]. intros Hv%(wf_state _ Hd).
      by rewrite lookup_delete_ne.
    + intros c' t. simpl. rewrite lookup_delete_Some. intros [_ ?]. by apply (wf_cursors _ Hd c').
  - unfold namespace_of, revision_of. simpl. rewrite lookup_delete_eq. simpl. f_equal.
    apply map_eq. intros k. rewrite entries_lookup, Hst, decide_True by done. by rewrite lookup_empty.
  - unfold checkpoint_of. simpl. by rewrite lookup_delete_eq.
  - intros ns Hns. unfold namespace_of, revision_of. simpl. rewrite lookup_delete_ne by done. f_equal.
    apply map_eq. intros k. by rewrite !entries_lookup, Hst, decide_False.
  - intros c' Hc. unfold checkpoint_of. simpl. rewrite lookup_delete_ne; [done|].
    destruct c, c'. naive_solver.
Qed.
End commit.
