(* ===== verification/SqliteSpec.v ===== *)
(** The contract of the SQLite store: an append-only log per stream, one
    namespace of state and one cursor per component, kept by every call under
    any pattern of I/O failures. *)
From stdpp Require Import base tactics option list strings sorting gmap.
From Stdlib Require Import ZArith NArith Lia Ascii.
From S2P Require Import Prelude Event EventStore Delivery Stores Utf8 Sqlite SqliteLog SqliteState SqliteDelivery.

(** ** The log a database represents keeps the abstract invariant *)

Lemma wf_db_invariant d : wf_db d → log_invariant (event_log d).
Proof.
  intros Hd. split.
  - apply (wf_ids _ Hd).
  - apply (wf_gapless _ Hd).
  - eapply Forall_impl; [apply (wf_events _ Hd)|]. by intros e (_ & ? & _).
  - apply (wf_dedup _ Hd).
  - intros e e' He He' Hs. apply event_log_stream in He, He'. rewrite <- Hs in He'.
    destruct (wf_streams _ Hd (stream_id (request e))) as [[k n] Hk].
    { intros Hnil. rewrite Hnil in He. by apply not_elem_of_nil in He. }
    apply (wf_kinds _ Hd) in Hk as [_ Hk]. rewrite Forall_forall in Hk.
    apply encode_stream_kind_inj. by rewrite (Hk e He), (Hk e' He').
Qed.

Lemma append_outcome_log_append d r e d' :
  wf_db d → request_typed r → append_outcome d r e d' →
  log_append (event_log d) r e (event_log d').
Proof.
  intros Hd Ht (_ & [(Hin & Hdup & ->)|(Hr & Hnone & He & ->)]).
  - apply stream_log_elem in Hin as [Hin Hs].
    apply duplicate_of_spec in Hdup as (_ & key & ? & ?). by eapply log_duplicate.
  - subst r. rewrite appended_event_log by done. constructor; [done|apply (app_fresh _ _ He)| |].
    + apply (app_sequence _ _ He).
    + intros e' key Hin Hs Hk Hk'. apply (app_dedup _ _ He key Hk). apply list_elem_of_omap.
      exists e'. split; [by apply stream_log_elem|done].
Qed.

(** ** Every call of the store *)

Inductive Call : Type :=
| CallAppend (r : AppendRequest)
| CallRead (s : StreamId) (after limit : N)
| CallGet (id : EventId)
| CallQuery (s : StreamId) (q : EventQuery) (limit : N)
| CallStateGet (ns : StateNamespace) (key : string)
| CallStateScan (ns : StateNamespace) (prefix : string) (after : option string) (limit : N)
| CallStateApply (ns : StateNamespace) (expected : N) (ms : list StateMutation)
| CallCommit (c : DeliveryCommit)
| CallCheckpoint (c : CursorKey)
| CallDiscard (c : CursorKey)
| CallReadCredential (handle : SecretHandle) (provider : string)
| CallReplaceCredential (handle : SecretHandle) (provider : string)
    (expected : option bytes) (value : bytes).

(** The arguments have the values their Rust types allow. *)
Definition call_typed (c : Call) : Prop :=
  match c with
  | CallAppend r => request_typed r
  | CallCommit c => delivery_typed c
  | _ => True
  end.

Section calls.
Context {M : Type} `{MS : !EventMetadataSource M} {SQ : Sqlite} {UT : UnicodeTables}.
Implicit Types (w : World M).

Definition run_call (c : Call) (w : World M) : World M :=
  match c with
  | CallAppend r => (append r w).2
  | CallRead s after limit => (read s after limit w).2
  | CallGet id => (get id w).2
  | CallQuery s q limit => (query s q limit w).2
  | CallStateGet ns key => (state_get ns key w).2
  | CallStateScan ns prefix after limit => (state_scan ns prefix after limit w).2
  | CallStateApply ns expected ms => (state_apply ns expected ms w).2
  | CallCommit c => (commit c w).2
  | CallCheckpoint c => (get_checkpoint c w).2
  | CallDiscard c => (discard c w).2
  | CallReadCredential h p => (sqlite_read_credential h p w).2
  | CallReplaceCredential h p e v => (sqlite_replace_credential h p e v w).2
  end.

(** The worlds a store opened on an empty database can reach. *)
Inductive reachable : World M → Prop :=
| reach_open m n : reachable (mkWorld empty_database m n)
| reach_call c w : reachable w → call_typed c → reachable (run_call c w).

Lemma tx_bind_db {E A B} (m : Tx M E A) (k : A → Tx M E B) w :
  (∀ r w', m w = (r, w') → db w' = db w) →
  (∀ a w1, db (k a w1).2 = db w1) →
  db (tx_bind m k w).2 = db w.
Proof.
  intros Hm Hk. unfold tx_bind. destruct (m w) as [[a|e] w1] eqn:Em; simpl.
  - rewrite Hk. by eapply Hm.
  - by eapply Hm.
Qed.

Lemma transaction_db {E A} (wrap : string → E) (body : Tx M E A) w :
  (∀ w, db (body w).2 = db w) → db (transaction wrap body w).2 = db w.
Proof.
  intros Hb. destruct (transaction wrap body w) as [[a|e] w'] eqn:Et; simpl.
  - apply transaction_ok in Et as (w2 & E2 & ->). simpl. specialize (Hb (tick w)).
    by rewrite E2 in Hb.
  - by apply transaction_err in Et.
Qed.

Lemma state_revision_db {E} (f : StateError → E) ns w r w' :
  state_revision f ns w = (r, w') → db w' = db w.
Proof.
  intros H. replace w' with (state_revision f ns w).2 by by rewrite H. unfold state_revision.
  apply tx_bind_db; [apply select_db|done].
Qed.

Lemma run_read_only c w :
  match c with
  | CallRead _ _ _ | CallGet _ | CallQuery _ _ _ | CallStateGet _ _ | CallStateScan _ _ _ _
  | CallCheckpoint _ | CallReadCredential _ _ => db (run_call c w) = db w
  | _ => True
  end.
Proof.
  destruct c; simpl; try done.
  - eapply read_db. apply surjective_pairing.
  - eapply select_db. apply surjective_pairing.
  - eapply query_db. apply surjective_pairing.
  - apply transaction_db. intros w0. apply tx_bind_db; [apply state_revision_db|]. intros n w1.
    apply tx_bind_db; [apply select_db|done].
  - apply transaction_db. intros w0. apply tx_bind_db; [apply state_revision_db|]. intros n w1.
    apply tx_bind_db; [apply select_db|done].
  - apply tx_bind_db; [apply select_db|done].
  - eapply select_db. apply surjective_pairing.
Qed.

Lemma replace_credential_wf h p e v w :
  wf_db (db w) → wf_db (db (sqlite_replace_credential h p e v w).2) ∧
  same_log (db w) (db (sqlite_replace_credential h p e v w).2).
Proof.
  intros Hd. unfold sqlite_replace_credential, tx_bind.
  destruct (exec _ _ w) as [[n|err] w1] eqn:E; simpl.
  - apply exec_ok in E as (d & [= Hn] & ->). simpl. unfold credential_update in Hn.
    repeat case_match; simplify_eq; split; try done; by destruct Hd.
  - by apply exec_err in E as ->.
Qed.

(** One call keeps the invariant and only extends the log. *)
Lemma run_call_wf c w :
  wf_db (db w) → call_typed c →
  wf_db (db (run_call c w)) ∧ event_log (db w) `prefix_of` event_log (db (run_call c w)).
Proof.
  intros Hd Ht. pose proof (run_read_only c w) as Hro.
  destruct c; simpl in Ht; try (rewrite Hro; done); clear Hro; simpl.
  - destruct (append r w) as [[e|e] w'] eqn:E; simpl; [|by apply append_err in E as ->].
    apply append_ok in E; [|done]. split; [by eapply append_outcome_wf|].
    by apply append_outcome_log in E as [? _].
  - destruct (state_apply ns expected ms w) as [[n|e] w'] eqn:E; simpl;
      [|by apply transaction_err in E as ->].
    apply state_apply_ok in E as (Hrev & Hr & _ & ->); [|done]. rewrite <- Hrev in Hr.
    split; [by apply applied_wf|]. destruct (applied_tables ns ms (db w)) as [Hl _].
    by rewrite (same_log_event_log _ _ Hl).
  - destruct (commit c w) as [[rc|e] w'] eqn:E; simpl; [|by apply commit_err in E as ->].
    apply commit_ok in E as (_ & _ & Hr & Hc & _); [|done|done].
    split; [by eapply committed_wf|]. destruct Hc as (d1 & Ha & ->).
    apply appends_log in Ha as [Hp _]; [|by apply applied_wf|by destruct Ht].
    destruct (applied_tables (cursor_namespace (cursor c)) (mutations c) (db w)) as [Hl _].
    rewrite (same_log_event_log _ _ Hl) in Hp. by destruct (checkpoint c).
  - destruct (discard c w) as [[[]|e] w'] eqn:E; simpl; [|by apply transaction_err in E as ->].
    apply discard_ok in E as (? & Hl & _); [|done]. by rewrite (same_log_event_log _ _ Hl).
  - destruct (replace_credential_wf handle provider expected value w Hd) as [? Hl].
    by rewrite (same_log_event_log _ _ Hl).
Qed.

Lemma reachable_wf w : reachable w → wf_db (db w).
Proof.
  induction 1 as [|c w _ IH Ht]; [apply empty_database_wf|]. by apply run_call_wf.
Qed.
(** (C5) Whatever calls are made and whichever statements fail, the log keeps
    its invariant (identifiers unique, sequences of a stream exactly 1, 2, 3,
    ..., every request valid, no deduplication key twice in a stream, one kind
    per stream), and the next call only extends it. *)
Theorem store_invariant (w : World M) (c : Call) :
  reachable w → call_typed c →
  log_invariant (event_log (db w)) ∧
  event_log (db w) `prefix_of` event_log (db (run_call c w)).
Proof.
  intros Hw%reachable_wf Hc. split; [by apply wf_db_invariant|by apply run_call_wf].
Qed.

(** (C8) [append] refines the append-only log: on success the answer is the
    event that already carries the request's deduplication key, or a new event
    at the end of the log with the stream's next sequence; on any failure the
    database is untouched. *)
Theorem append_refines (r : AppendRequest) (w w' : World M) (res : result CommittedEvent AppendError) :
  reachable w → request_typed r → append r w = (res, w') →
  match res with
  | Ok e => valid_request r ∧ log_append (event_log (db w)) r e (event_log (db w'))
  | Err _ => db w' = db w
  end.
Proof.
  intros Hw%reachable_wf Ht. destruct res as [e|err]; [|apply append_err].
  intros H%append_ok; [|done]. split; [apply H|by apply append_outcome_log_append].
Qed.

(** Without I/O failures [append] succeeds on every valid request whose
    stream kind is unchanged, while the stream has a sequence left and the
    identifier source does not repeat itself. *)
Theorem append_total (r : AppendRequest) (w : World M) :
  no_io_errors → reachable w → append_ready (db w) (meta w) r →
  ∃ e w', append r w = (Ok e, w').
Proof. intros Hio Hw%reachable_wf Hr. by apply append_run. Qed.

Lemma duplicate_unique d r e :
  wf_db d → e ∈ event_log d → duplicate_of r e = true → find (duplicate_of r) (event_log d) = Some e.
Proof.
  intros Hd He Hdup. destruct (find (duplicate_of r) (event_log d)) as [e'|] eqn:Ef.
  - apply find_some in Ef as [He'%list_elem_of_In Hdup']. f_equal.
    apply duplicate_of_spec in Hdup as (Hs & key & Hk & Hke), Hdup' as (Hs' & key' & Hk' & Hke').
    rewrite Hk in Hk'. injection Hk' as <-.
    eapply (nodup_omap_inj _ _ _ _ key (wf_dedup _ Hd (stream_id r)));
      [by apply stream_log_elem|by apply stream_log_elem|done|done].
  - apply list_elem_of_In in He. by rewrite (find_none _ _ Ef e He) in Hdup.
Qed.

(** Retrying a request that carries a deduplication key returns the event
    the first attempt committed and changes nothing. *)
Theorem append_idempotent (r : AppendRequest) (key : string) (w w' : World M) (e : CommittedEvent) :
  no_io_errors → reachable w → request_typed r → deduplication_key r = Some key →
  append r w = (Ok e, w') →
  ∃ w'', append r w' = (Ok e, w'') ∧ db w'' = db w'.
Proof.
  intros Hio Hw%reachable_wf Ht Hk H. apply append_ok in H; [|done].
  assert (wf_db (db w')) as Hw' by by eapply append_outcome_wf.
  apply append_duplicate_run; [done|done|apply H|].
  pose proof (append_outcome_log _ _ _ _ Hw Ht H) as (_ & Hin & Hor).
  apply duplicate_unique; [done|done|]. destruct Hor as [<-|]; [|done].
  apply duplicate_of_spec. eauto.
Qed.

(** [read] returns the first [limit] events of the stream after the given
    sequence, in order, for every value of its 64-bit arguments. *)
Theorem read_exact (s : StreamId) (after limit : N) (w : World M) :
  no_io_errors → reachable w →
  ∃ w', read s after limit w =
    (Ok (take (N.to_nat limit)
           (filter (λ e, (after < sequence e)%N) (in_stream (event_log (db w)) s))), w') ∧
    db w' = db w.
Proof. intros Hio Hw%reachable_wf. by apply read_run. Qed.

(** An event that [append] returned is what [get] finds under its
    identifier: the row codec loses nothing. *)
Theorem append_get_roundtrip (r : AppendRequest) (w w' : World M) (e : CommittedEvent) :
  no_io_errors → reachable w → request_typed r → append r w = (Ok e, w') →
  ∃ w'', get (event_id e) w' = (Ok (Some e), w'') ∧ db w'' = db w'.
Proof.
  intros Hio Hw%reachable_wf Ht H. apply append_ok in H; [|done].
  assert (wf_db (db w')) as Hw' by by eapply append_outcome_wf.
  apply append_outcome_log in H as (_ & Hin & _); [|done|done].
  rewrite <- (get_spec_unique _ _ Hw' Hin). by apply get_run.
Qed.

(** [query] returns the first [limit] events of the stream that
    [EventQuery::matches] accepts and the full-text index finds, oldest or
    newest first, when the upper bound on the sequence fits an [i64]. *)
Theorem query_exact (s : StreamId) (q : EventQuery) (limit : N) (w : World M) :
  no_io_errors → reachable w → before_in_range q →
  ∃ w', query s q limit w =
    (Ok (let found := filter (λ e, matches q e && text_matches (text_query q) e = true)
                        (in_stream (event_log (db w)) s) in
         take (N.to_nat limit) (if descending q then reverse found else found)), w') ∧
    db w' = db w.
Proof. intros Hio Hw%reachable_wf Hb. by apply query_run. Qed.

(** An upper bound above [i64::MAX] makes [query] return an empty page
    whatever the log holds, although [EventQuery::matches] accepts every event
    below the bound. *)
Theorem query_upper_bound_overflow (s : StreamId) (limit n : N) (w : World M) (e : CommittedEvent) :
  reachable w → e ∈ in_stream (event_log (db w)) s → (i64_max < Z.of_N n)%Z →
  let q := mkEventQuery None (Some n) [] None false None None None None in
  matches q e = true ∧ query s q limit w = (Ok [], w).
Proof.
  intros Hw%reachable_wf He Hn q. split; [|by apply (query_before_overflow s q limit n)].
  apply matches_spec. pose proof (stream_log_sequence_max _ _ _ Hw He).
  split_and!; try done. intros before [= <-]. lia.
Qed.
(** *** State, deliveries and credentials *)

(** [StateStore::apply] is the compare-and-apply of the contract on its
    namespace: a stale revision is refused with both revisions, an accepted
    batch is applied in order and moves the revision by one, and no other
    namespace nor the log changes. *)
Theorem state_apply_refines (ns : StateNamespace) (expected : N) (ms : list StateMutation)
    (w : World M) :
  no_io_errors → reachable w →
  ∃ w', let out := apply_spec expected ms (namespace_of (db w) ns) in
    state_apply ns expected ms w = (result_map fst out, w') ∧
    namespace_of (db w') ns = default (namespace_of (db w) ns) (snd <$> result_ok out) ∧
    (∀ ns', ns' ≠ ns → namespace_of (db w') ns' = namespace_of (db w) ns') ∧
    event_log (db w') = event_log (db w).
Proof.
  intros Hio Hw%reachable_wf.
  destruct (state_apply_run ns expected ms w Hio Hw) as (w' & Hrun & Hdb).
  exists w'. split; [done|]. rewrite Hdb. unfold apply_spec in *. cbn [ns_revision namespace_of] in *.
  destruct (N.eqb_spec (revision_of (db w) ns) expected) as [<-|]; [|done]. cbn [negb] in *.
  destruct (applied_tables ns ms (db w)) as [Hl _]. apply same_log_event_log in Hl.
  pose proof (applied_namespace_ne ns ms (db w)) as Hne.
  pose proof (applied_namespace ns ms (db w)) as Happ.
  case_bool_decide; [by split_and!; auto|].
  destruct (checked_add_u64 (revision_of (db w) ns) 1) as [rev|] eqn:Er; [|done].
  apply next_revision in Er as [-> Hr]. by split_and!; auto.
Qed.

(** A client that follows [next_key] collects every entry of the
    namespace with the prefix exactly once, in key order. *)
Theorem scan_collects (ns : StateNamespace) (prefix : string) (limit : N) (w : World M) :
  no_io_errors → reachable w → (0 < limit)%N → (Z.of_N limit < i64_max)%Z →
  ∃ found, StronglySorted key_lt found ∧
    (∀ k v, mkStateEntry k v ∈ found ↔
       entries_of (db w) ns !! k = Some v ∧ sql_has_prefix prefix k = true) ∧
    ∀ fuel, length found < fuel →
    ∃ w', scan_all fuel ns prefix None limit w = (Ok found, w') ∧ db w' = db w.
Proof.
  intros Hio Hw%reachable_wf Hpos Hmax. exists (state_rows (db w) ns prefix None).
  split_and!; [apply state_rows_sorted| |].
  - intros k v. rewrite state_rows_elem. unfold in_range. simpl. naive_solver.
  - intros fuel Hf. by apply scan_all_run.
Qed.

Lemma appends_log_appends d rs es d' :
  wf_db d → Forall request_typed rs → appends d rs es d' →
  log_appends (event_log d) rs es (event_log d').
Proof.
  intros Hd Ht H. induction H as [|d r e d1 rs es d2 H _ IH]; [constructor|].
  apply Forall_cons in Ht as [Hr Ht].
  econstructor; [by apply append_outcome_log_append|]. apply IH; [|done].
  by eapply append_outcome_wf.
Qed.

(** What one accepted delivery does to everything the store holds. *)
Record delivered (c : DeliveryCommit) (d : Database) (rc : DeliveryReceipt) (d' : Database)
    : Prop := {
  del_expected : checkpoint_of d (cursor c) = expected_checkpoint c;
  del_monotone : (expected_checkpoint c ≤ receipt_checkpoint rc)%N;
  del_checkpoint : checkpoint_of d' (cursor c) = receipt_checkpoint rc ∧
    receipt_checkpoint rc = default (expected_checkpoint c) (checkpoint c);
  del_events : log_appends (event_log d) (events c) (receipt_events rc) (event_log d');
  del_state : apply_spec (revision_of d (cursor_namespace (cursor c))) (mutations c)
      (namespace_of d (cursor_namespace (cursor c)))
    = Ok (receipt_revision rc, namespace_of d' (cursor_namespace (cursor c)));
  del_other_cursors : ∀ k, k ≠ cursor c → checkpoint_of d' k = checkpoint_of d k;
  del_other_state : ∀ ns, ns ≠ cursor_namespace (cursor c) → namespace_of d' ns = namespace_of d ns;
}.

Lemma committed_tables c d es d' :
  committed c d es d' →
  t_namespaces d' = t_namespaces (applied (cursor_namespace (cursor c)) (mutations c) d) ∧
  t_state d' = t_state (applied (cursor_namespace (cursor c)) (mutations c) d).
Proof.
  intros (d1 & (H1 & H2 & _)%appends_tables & ->). by destruct (checkpoint c).
Qed.

Lemma committed_namespace c d es d' ns :
  committed c d es d' →
  namespace_of d' ns = namespace_of (applied (cursor_namespace (cursor c)) (mutations c) d) ns.
Proof.
  intros [Hn Hs]%committed_tables. unfold namespace_of, revision_of, entries_of. by rewrite Hn, Hs.
Qed.

Lemma committed_checkpoint c d es d' k :
  delivery_typed c → committed c d es d' →
  checkpoint_of d' k = if decide (k = cursor c) then default (checkpoint_of d k) (checkpoint c)
                       else checkpoint_of d k.
Proof.
  intros [Hk _] (d1 & (_ & _ & Hc & _)%appends_tables & ->).
  destruct (applied_tables (cursor_namespace (cursor c)) (mutations c) d) as (_ & Hc' & _).
  assert (∀ k, checkpoint_of d1 k = checkpoint_of d k) as Hd1.
  { intros ?. unfold checkpoint_of. by rewrite Hc, Hc'. }
  destruct (checkpoint c) as [n|] eqn:En; simpl.
  - rewrite with_checkpoint_of by by apply Hk. by rewrite Hd1.
  - rewrite Hd1. by case_decide.
Qed.

Lemma committed_log c d es d' :
  wf_db d → delivery_typed c →
  u64_range (revision_of d (cursor_namespace (cursor c)) + 1) ∨ mutations c = [] →
  committed c d es d' → log_appends (event_log d) (events c) es (event_log d').
Proof.
  intros Hd [_ Ht] Hr (d1 & Ha & ->).
  destruct (applied_tables (cursor_namespace (cursor c)) (mutations c) d) as (Hl & _).
  rewrite <- (same_log_event_log _ _ Hl).
  apply appends_log_appends in Ha; [|by apply applied_wf|done]. by destruct (checkpoint c).
Qed.

Lemma commit_delivered c w rc w' :
  wf_db (db w) → delivery_typed c → commit c w = (Ok rc, w') → delivered c (db w) rc (db w').
Proof.
  intros Hw Ht H. apply commit_ok in H as (Hv & Hexp & Hr & Hc & Hrc & Hrev); [|done|done].
  pose proof (λ k, committed_checkpoint _ _ _ _ k Ht Hc) as Hk.
  pose proof (λ ns, committed_namespace _ _ _ _ ns Hc) as Hns.
  split; [done| |split| | | |]; try done.
  - rewrite Hrc. unfold delivery_validate in Hv.
    destruct (str_is_empty _) in Hv; [done|]. destruct (str_is_empty _) in Hv; [done|].
    destruct (is_some_and _ _) eqn:Ek in Hv; [done|].
    destruct (checkpoint c) as [k|]; simpl in *; [by apply N.ltb_ge in Ek|done].
  - rewrite Hk, decide_True by done. by rewrite Hexp, Hrc.
  - by apply committed_log.
  - rewrite Hns, applied_namespace by done. unfold apply_spec. cbn [ns_revision namespace_of].
    rewrite N.eqb_refl. cbn [negb]. rewrite Hrev.
    change (revision_of (db w') ?ns) with (ns_revision (namespace_of (db w') ns)).
    rewrite Hns, applied_namespace by done. case_bool_decide; [done|].
    destruct Hr as [Hr|]; [|done].
    by rewrite (proj2 (checked_add_u64_spec _ _ _) (conj eq_refl Hr)).
  - intros k Hne. by rewrite Hk, decide_False.
  - intros ns Hne. by rewrite Hns, applied_namespace_ne.
Qed.

(** (C1) [DeliveryStore::commit] is atomic: an accepted delivery applies its
    mutations, appends all its events and moves its cursor forward, and
    touches no other namespace or cursor; a refused or failed one, at whatever
    statement, leaves the database as it was. *)
Theorem commit_atomic (c : DeliveryCommit) (w w' : World M)
    (res : result DeliveryReceipt DeliveryError) :
  reachable w → delivery_typed c → commit c w = (res, w') →
  match res with
  | Ok rc => delivered c (db w) rc (db w')
  | Err _ => db w' = db w
  end.
Proof.
  intros Hw%reachable_wf Ht. destruct res; [by apply commit_delivered|apply commit_err].
Qed.

(** A delivery that passes validation and expects the stored checkpoint
    is accepted when no statement fails, the stream has room and the kind of
    the stream is kept: nothing else can refuse it. *)
Theorem commit_total (fresh : M → EventId → Prop) (c : DeliveryCommit) (w : World M) :
  no_io_errors → fresh_source fresh → reachable w → log_old fresh w → delivery_typed c →
  delivery_validate c = Ok tt → checkpoint_of (db w) (cursor c) = expected_checkpoint c →
  u64_range (revision_of (db w) (cursor_namespace (cursor c)) + 1) →
  batch_ready (cursor_stream_id (cursor c)) (db w) (events c) →
  ∃ rc w', commit c w = (Ok rc, w').
Proof. intros Hio Hf Hw%reachable_wf. by apply commit_run. Qed.

(** A delivery takes effect at most once: committing it again after it
    moved the cursor is refused with a conflict and changes nothing. *)
Theorem commit_exactly_once (c : DeliveryCommit) (k : N) (w w' : World M) (rc : DeliveryReceipt) :
  no_io_errors → reachable w → delivery_typed c →
  checkpoint c = Some k → (expected_checkpoint c < k)%N → commit c w = (Ok rc, w') →
  ∃ w'', commit c w' = (Err (DeliveryConflict (expected_checkpoint c) k), w'') ∧ db w'' = db w'.
Proof.
  intros Hio Hw%reachable_wf Ht Hk Hlt H.
  apply commit_ok in H as (Hv & Hexp & Hr & Hc & _); [|done|done].
  assert (wf_db (db w')) as Hw' by by eapply committed_wf.
  assert (checkpoint_of (db w') (cursor c) = k) as Hck.
  { rewrite (committed_checkpoint _ _ _ _ _ Ht Hc), decide_True, Hk by done. done. }
  subst k. apply commit_conflict; [done|done|done|lia].
Qed.

(** [discard] resets one component: its namespace is empty at revision 0
    and its cursor at 0, every other namespace and cursor and the whole log
    are kept. *)
Theorem discard_resets (c : CursorKey) (w w' : World M) :
  reachable w → discard c w = (Ok tt, w') →
  namespace_of (db w') (cursor_namespace c) = mkNamespace 0 ∅ ∧ checkpoint_of (db w') c = 0%N ∧
  (∀ ns, ns ≠ cursor_namespace c → namespace_of (db w') ns = namespace_of (db w) ns) ∧
  (∀ c', c' ≠ c → checkpoint_of (db w') c' = checkpoint_of (db w) c') ∧
  event_log (db w') = event_log (db w).
Proof.
  intros Hw%reachable_wf H. apply discard_ok in H as (_ & Hl & H1 & H2 & H3 & H4); [|done].
  split_and!; try done. by apply same_log_event_log.
Qed.

(** The SQLite credential table implements the same compare-and-swap as
    the in-memory store: same answer, same contents, nothing else touched. *)
Theorem replace_credential_refines (h : SecretHandle) (p : string) (expected : option bytes)
    (value : bytes) (w : World M) :
  no_io_errors →
  let out := replace_plugin_credential h p expected value (t_credentials (db w)) in
  ∃ w', sqlite_replace_credential h p expected value w = (Ok out.1, w') ∧
    db w' = set_credentials (λ _, out.2) (db w) ∧
    ∃ w'', sqlite_read_credential h p w' = (Ok (read_plugin_credential h p out.2), w'').
Proof.
  intros Hio out. unfold sqlite_replace_credential, tx_bind.
  destruct (credential_update h p expected value (db w)) as [n d] eqn:Eu.
  erewrite exec_run; [|done|by rewrite Eu]. eexists. split.
  - unfold tx_ret. f_equal. f_equal. subst out. unfold credential_update in Eu.
    unfold replace_plugin_credential.
    destruct expected as [prev|]; repeat case_match; simplify_eq; try done;
      repeat case_bool_decide; simplify_eq; done.
  - subst out. unfold credential_update in Eu. unfold replace_plugin_credential.
    split; [|eexists; apply select_run; [done|]].
    all: destruct (db w) as [ts te ti tn tst tc tcr]; cbn in *.
    all: destruct expected as [prev|]; repeat case_match; simplify_eq/=; repeat case_bool_decide;
      simplify_eq/=; try done; congruence.
Qed.
End calls.

(** ** The SQLite store implements the interface *)

Section sqlite.
Context {M : Type} `{MS : !EventMetadataSource M} {SQ : Sqlite} {UT : UnicodeTables}.

#[export] Instance sqlite_event_store : EventStore (World M) := {|
  es_append := append;
  es_read := read;
  es_get := get;
  es_query := query;
|}.

Lemma query_plain d s q limit :
  plain_query q →
  query_spec d s q limit = take (N.to_nat limit) (log_query (event_log d) s q).
Proof.
  intros (Ht & Hdesc & _). unfold query_spec, log_query. rewrite Hdesc, Ht. cbn [text_matches].
  f_equal. apply list_filter_iff. intros e. by rewrite andb_true_r.
Qed.

Lemma event_log_append r w res w' :
  wf_db (db w) → request_typed r → append r w = (res, w') →
  wf_db (db w') ∧
  match res with
  | Ok e => log_append (event_log (db w)) r e (event_log (db w'))
  | Err _ => event_log (db w') = event_log (db w)
  end.
Proof.
  intros Hw Ht. destruct res as [e|err]; intros H.
  - apply append_ok in H; [|done].
    split; [by eapply append_outcome_wf|by apply append_outcome_log_append].
  - apply append_err in H. by rewrite H.
Qed.

#[export] Instance sqlite_event_store_laws : EventStoreLaws (World M).
Proof.
  refine {| es_inv w := wf_db (db w); es_log w := event_log (db w) |}.
  - intros w. apply wf_db_invariant.
  - intros r w e w' Hw Ht H. by apply event_log_append in H.
  - intros r w e w' Hw Ht H. by apply event_log_append in H.
  - intros s after limit w r w' Hw H. apply read_db in H. by rewrite H.
  - intros s after limit w es w' Hw H. by apply read_ok in H as [-> _].
  - intros id w r w' Hw H. apply select_db in H. by rewrite H.
  - intros id w o w' Hw H. by apply get_ok in H as [-> _].
  - intros s q limit w r w' Hw H. apply query_db in H. by rewrite H.
  - intros s q limit w es w' Hw Hq H. apply query_ok in H as [-> _]; [|done|].
    + by apply query_plain.
    + destruct Hq as (_ & _ & Hb). intros n. by rewrite Hb.
Defined.
End sqlite.

(** ** Search text *)

(** The pieces of a text between the characters that are no part of a word,
    as [str::split] gives them. *)
Fixpoint pieces (word : N → bool) (cs : list N) : list (list N) :=
  match cs with
  | [] => [[]]
  | c :: cs =>
      if word c then
        match pieces word cs with
        | [] => [[c]]
        | p :: ps => (c :: p) :: ps
        end
      else [] :: pieces word cs
  end.

Definition words (word : N → bool) (cs : list N) : list (list N) :=
  filter (λ p, p ≠ []) (pieces word cs).

Section search.
Context {UT : UnicodeTables}.

Definition word_char (c : N) : bool := is_alphanumeric c || (c =? 95)%N.

Lemma pieces_nonempty word cs : pieces word cs ≠ [].
Proof. destruct cs as [|c cs]; [done|]. simpl. by repeat case_match. Qed.

Lemma tokenize_pieces cs tokens token :
  tokenize cs tokens token =
    tokens ++ filter (λ p, p ≠ [])
      (match pieces word_char cs with
       | [] => [token]
       | p :: ps => (token ++ p) :: ps
       end).
Proof.
  revert tokens token. induction cs as [|c cs IH]; intros tokens token.
  - simpl. rewrite app_nil_r, filter_cons, filter_nil. case_bool_decide as Ht; subst.
    + by rewrite decide_False, app_nil_r by auto.
    + by rewrite decide_True.
  - simpl. fold (word_char c). pose proof (pieces_nonempty word_char cs) as Hne.
    destruct (word_char c).
    + rewrite IH. destruct (pieces word_char cs) as [|p ps]; [done|]. by rewrite <- app_assoc.
    + destruct (pieces word_char cs) as [|p ps] eqn:Ep; [done|]. rewrite app_nil_r.
      case_bool_decide as Ht; rewrite IH; subst; simpl; rewrite (filter_cons _ _ (p :: ps)).
      * by rewrite decide_False by auto.
      * rewrite decide_True by done. by rewrite <- app_assoc.
Qed.

Lemma tokenize_words cs : tokenize cs [] [] = words word_char cs.
Proof.
  rewrite tokenize_pieces. unfold words. pose proof (pieces_nonempty word_char cs).
  by destruct (pieces word_char cs).
Qed.

Lemma pieces_word word cs : Forall (Forall (λ c, word c = true)) (pieces word cs).
Proof.
  induction cs as [|c cs IH]; simpl; [by repeat constructor|].
  destruct (word c) eqn:E; [|by repeat constructor].
  destruct (pieces word cs) as [|p ps]; [by repeat constructor|].
  apply Forall_cons in IH as [Hp Hps]. by repeat constructor.
Qed.

Lemma double_quotes_word token :
  Forall (λ c, word_char c = true) token → double_quotes token = token.
Proof.
  induction 1 as [|c token Hc _ IH]; [done|]. simpl. rewrite IH.
  destruct (N.eqb_spec c 34) as [->|]; [|done]. by vm_compute in Hc.
Qed.

(** [literal_search_query] turns any text into a conjunction of quoted
    words: the quoted strings are exactly the words of the text, so no
    character of the input reaches the index as query syntax, and a text
    without a word gives no query. *)
Theorem literal_search_query_words (input : string) :
  literal_search_query input =
    match words word_char (chars input) with
    | [] => None
    | ws => Some (join " AND "
              ((λ p, String QUOTE (str_of_chars p) +:+ String QUOTE "") <$> ws))
    end.
Proof.
  unfold literal_search_query. rewrite tokenize_words.
  assert (Forall (Forall (λ c, word_char c = true)) (words word_char (chars input))) as Hw.
  { unfold words. apply Forall_filter_keep, pieces_word. }
  destruct (words word_char (chars input)) as [|t ts]; [done|].
  rewrite bool_decide_false by done. do 2 f_equal. revert Hw. generalize (t :: ts).
  intros l. induction 1 as [|p l Hp _ IH]; [done|]. rewrite !fmap_cons, IH. unfold quoted at 1.
  by rewrite double_quotes_word.
Qed.
End search.

(** ** A concrete store *)

Module Sample.

Fixpoint tally (n : nat) : string :=
  match n with
  | O => ""
  | S n => String "x" (tally n)
  end.

(** Identifiers count up; the clock stands still. *)
#[export] Instance source : EventMetadataSource nat := {|
  next_event_id n := (tally n, S n);
  now_ms n := (1000%Z, n);
|}.

#[export] Instance sqlite : Sqlite := {|
  io_error _ := None;
  row_error_to_string '(Corrupt _ message) := message;
  fts_match _ _ _ := true;
|}.

#[export] Instance tables : UnicodeTables := {| unicode_alphanumeric _ := false |}.

Definition request_in (s : StreamId) (key : option string) : AppendRequest :=
  mkAppendRequest s StreamAgent None "message.received" "message" (CanonicalJson [])
    (mkPrincipalRef Human "human") None None None None key.

Definition keyed : AppendRequest := request_in "agent" (Some "k").
Definition plain : AppendRequest := request_in "agent" None.

Definition w0 : World nat := mkWorld empty_database 0 0.
Definition w1 : World nat := run_call (CallAppend keyed) w0.
Definition e1 : CommittedEvent := mkCommittedEvent COMMITTED_EVENT_SCHEMA "" 1 1000 keyed.

Definition delivery : DeliveryCommit :=
  mkDeliveryCommit (mkCursorKey "agent" "component") 0 (Some 1%N)
    [Set_ "key" []; Delete "other"] [plain].

Lemma no_failures : no_io_errors.
Proof. done. Qed.

Lemma w0_reachable : reachable w0.
Proof. apply reach_open. Qed.

Lemma w1_reachable : reachable w1.
Proof. by apply reach_call; [apply reach_open|]. Qed.

Lemma tally_inj n n' : tally n = tally n' → n = n'.
Proof. revert n'. induction n as [|n IH]; intros [|n'] [=]; auto. Qed.

Definition later (m : nat) (id : EventId) : Prop := ∃ n, m ≤ n ∧ id = tally n.

Lemma later_fresh : fresh_source later.
Proof.
  split; cbn.
  - intros m. by exists m.
  - intros m id (n & Hn & ->). split; [exists n; split; [lia|done]|].
    intros ->%tally_inj. lia.
  - done.
Qed.

Lemma w1_log : event_log (db w1) = [e1].
Proof. by vm_compute. Qed.

Lemma w1_old : log_old later w1.
Proof.
  intros e. rewrite w1_log. intros ->%list_elem_of_singleton (n & Hn & Heq).
  change (meta w1) with 1 in Hn. destruct n; [lia|done].
Qed.

Lemma delivery_is_typed : delivery_typed delivery.
Proof. split; [by intros k [= <-]|by repeat constructor]. Qed.

Lemma delivery_ready : batch_ready "agent" (db w1) [plain].
Proof.
  split.
  - by repeat constructor.
  - by repeat constructor.
  - constructor; [|done]. intros k n. vm_compute. congruence.
  - set_solver.
  - by vm_compute.
Qed.
End Sample.
Import Sample.

Lemma store_invariant_witness :
  log_invariant (event_log (db w1)) ∧
  event_log (db w1) `prefix_of` event_log (db (run_call (CallCommit delivery) w1)).
Proof.
  apply (store_invariant w1 (CallCommit delivery)); [apply w1_reachable|apply delivery_is_typed].
Defined.

Lemma append_refines_witness :
  valid_request keyed ∧ log_append (event_log (db w0)) keyed e1 (event_log (db w1)).
Proof.
  apply (append_refines keyed w0 w1 (Ok e1)); [apply w0_reachable|exact I|by vm_compute].
Defined.

Lemma append_total_witness : ∃ e w', append plain w1 = (Ok e, w').
Proof.
  apply (append_total plain w1); [apply no_failures|apply w1_reachable|]. split.
  - by repeat split.
  - intros k n. vm_compute. congruence.
  - by vm_compute.
  - rewrite w1_log. cbn. set_solver.
Defined.

Lemma append_idempotent_witness : ∃ w'', append keyed w1 = (Ok e1, w'') ∧ db w'' = db w1.
Proof.
  apply (append_idempotent keyed "k" w0 w1 e1);
    [apply no_failures|apply w0_reachable|exact I|reflexivity|by vm_compute].
Defined.

Lemma read_exact_witness : ∃ w', read "agent" 0 10 w1 = (Ok [e1], w') ∧ db w' = db w1.
Proof.
  destruct (read_exact "agent" 0 10 w1 no_failures w1_reachable) as (w' & Hr & Hdb).
  exists w'. split; [|exact Hdb]. rewrite Hr. by vm_compute.
Defined.

Lemma append_get_roundtrip_witness : ∃ w'', get "" w1 = (Ok (Some e1), w'') ∧ db w'' = db w1.
Proof.
  apply (append_get_roundtrip keyed w0 w1 e1);
    [apply no_failures|apply w0_reachable|exact I|by vm_compute].
Defined.

Lemma query_exact_witness :
  ∃ w', query "agent" default_query 10 w1 = (Ok [e1], w') ∧ db w' = db w1.
Proof.
  destruct (query_exact "agent" default_query 10 w1 no_failures w1_reachable) as (w' & Hr & Hdb);
    [done|]. exists w'. split; [|exact Hdb]. rewrite Hr. by vm_compute.
Defined.

Lemma query_upper_bound_overflow_witness :
  let q := mkEventQuery None (Some u64_max) [] None false None None None None in
  matches q e1 = true ∧ query "agent" q 10 w1 = (Ok [], w1).
Proof.
  apply (query_upper_bound_overflow "agent" 10 u64_max w1 e1); [apply w1_reachable| |done].
  rewrite w1_log. by left.
Defined.

Lemma state_apply_refines_witness :
  ∃ w', state_apply "ns" 0 [Set_ "a" []] w1 = (Ok 1%N, w') ∧
    namespace_of (db w') "ns" = mkNamespace 1 {["a" := []]}.
Proof.
  destruct (state_apply_refines "ns" 0 [Set_ "a" []] w1 no_failures w1_reachable)
    as (w' & Hr & Hns & _). exists w'. split; [rewrite Hr|rewrite Hns]; by vm_compute.
Defined.

Lemma scan_collects_witness :
  ∃ found, StronglySorted key_lt found ∧
    (∀ k v, mkStateEntry k v ∈ found ↔
       entries_of (db w1) "ns" !! k = Some v ∧ sql_has_prefix "" k = true) ∧
    ∀ fuel, length found < fuel →
    ∃ w', scan_all fuel "ns" "" None 10 w1 = (Ok found, w') ∧ db w' = db w1.
Proof.
  apply (scan_collects "ns" "" 10 w1); [apply no_failures|apply w1_reachable|lia|by vm_compute].
Defined.

Lemma commit_atomic_witness :
  match (commit delivery w1).1 with
  | Ok rc => delivered delivery (db w1) rc (db (commit delivery w1).2)
  | Err _ => False
  end.
Proof.
  pose proof (commit_atomic delivery w1 (commit delivery w1).2 (commit delivery w1).1
    w1_reachable delivery_is_typed (surjective_pairing _)) as H.
  destruct (commit delivery w1) as [[rc|e] w'] eqn:E; [exact H|].
  exfalso. vm_compute in E. discriminate E.
Defined.

Lemma commit_total_witness : ∃ rc w', commit delivery w1 = (Ok rc, w').
Proof.
  apply (commit_total later delivery w1);
    [apply no_failures|apply later_fresh|apply w1_reachable|apply w1_old|apply delivery_is_typed
    |by vm_compute|by vm_compute|by vm_compute|apply delivery_ready].
Defined.

Lemma commit_exactly_once_witness :
  ∃ w'', commit delivery (run_call (CallCommit delivery) w1)
    = (Err (DeliveryConflict 0 1), w'') ∧ db w'' = db (run_call (CallCommit delivery) w1).
Proof.
  destruct (commit delivery w1) as [[rc|e] w'] eqn:E; [|exfalso; vm_compute in E; discriminate E].
  replace (run_call (CallCommit delivery) w1) with w' by (unfold run_call; by rewrite E).
  apply (commit_exactly_once delivery 1 w1 w' rc);
    [apply no_failures|apply w1_reachable|apply delivery_is_typed|reflexivity|by vm_compute|exact E].
Defined.

Lemma discard_resets_witness :
  let w := run_call (CallCommit delivery) w1 in
  let w' := (discard (cursor delivery) w).2 in
  checkpoint_of (db w) (cursor delivery) = 1%N ∧
  checkpoint_of (db w') (cursor delivery) = 0%N.
Proof.
  intros w w'. split; [by vm_compute|].
  apply (discard_resets (cursor delivery) w w'); [|by vm_compute].
  apply reach_call; [apply w1_reachable|apply delivery_is_typed].
Defined.

Lemma replace_credential_refines_witness :
  ∃ w', sqlite_replace_credential "h" "p" None [] w1 = (Ok true, w').
Proof.
  destruct (replace_credential_refines "h" "p" None [] w1 no_failures) as (w' & Hr & _).
  exists w'. rewrite Hr. by vm_compute.
Defined.
