(* ===== verification/SqliteStores.v ===== *)
(** The SQLite store discharges the laws of [Stores]: its namespaces, cursors
    and credentials are what the tables stand for. *)
From stdpp Require Import base tactics option list strings sorting gmap.
From Stdlib Require Import ZArith NArith Lia.
From S2P Require Import Prelude Event EventStore Delivery Stores Utf8 Sqlite SqliteLog SqliteState SqliteDelivery SqliteSpec.

Section stores.
Context {M : Type} `{MS : !EventMetadataSource M} {SQ : Sqlite} {UT : UnicodeTables}.
Implicit Types (w : World M).

#[export] Instance sqlite_state_store : StateStore (World M) := {|
  ss_get := state_get;
  ss_scan := state_scan;
|}.

#[export] Instance sqlite_delivery_store : DeliveryStore (World M) := {|
  ds_commit := commit;
  ds_checkpoint := get_checkpoint;
|}.

#[export] Instance sqlite_credential_store : CredentialStore (World M) := {|
  cs_read := sqlite_read_credential;
  cs_replace := sqlite_replace_credential;
|}.

#[export] Instance sqlite_view : AgentStoreView (World M) := {|
  st_state w := entries_of (db w);
  st_cursor w := checkpoint_of (db w);
  st_credentials w := λ h p, t_credentials (db w) !! (h, p);
|}.

Lemma view_db w w' : db w' = db w → same_view w w'.
Proof. intros H. unfold same_view. simpl. by rewrite H. Qed.

Lemma unchanged_db w w' : wf_db (db w) → db w' = db w → unchanged w w'.
Proof. intros Hw H. split; [|split; [|by apply view_db]]; simpl; by rewrite H. Qed.

(** The calls that only read. *)
Lemma read_only_db (c : Call) w :
  match c with
  | CallRead _ _ _ | CallGet _ | CallQuery _ _ _ | CallStateGet _ _ | CallStateScan _ _ _ _
  | CallCheckpoint _ | CallReadCredential _ _ =>
      wf_db (db w) → unchanged w (run_call c w)
  | _ => True
  end.
Proof. pose proof (run_read_only c w). by destruct c; try done; intros ?; apply unchanged_db. Qed.

(** The view depends on three tables only. *)
Lemma view_tables w w' :
  t_state (db w') = t_state (db w) → t_cursors (db w') = t_cursors (db w) →
  t_credentials (db w') = t_credentials (db w) → same_view w w'.
Proof.
  intros Hs Hc Hcr. split_and!.
  - exact (f_equal (λ t ns, default ∅ (map_curry (M1 := gmap string) t !! ns)) Hs).
  - exact (f_equal (λ t c, default 0%N (result_ok (parse_u64 (default "0"
      (t !! (cursor_stream_id c, cursor_namespace c)))))) Hc).
  - exact (f_equal (λ t h p, t !! (h, p)) Hcr).
Qed.

Lemma append_view r w res w' : wf_db (db w) → append r w = (res, w') → same_view w w'.
Proof.
  intros Hw H. destruct res as [e|e]; [|by apply view_db; eapply append_err].
  apply append_ok, append_outcome_tables in H; [|done]. destruct H as (_ & Hs & Hc & Hcr).
  by apply view_tables.
Qed.

Lemma query_spec_elem d s q limit e : e ∈ query_spec d s q limit → e ∈ in_stream (event_log d) s.
Proof.
  unfold query_spec. intros H. assert (e ∈ filter (λ e, matches q e && text_matches (text_query q) e = true)
    (stream_log d s)) as Hf.
  { destruct (descending q); [apply elem_of_reverse|]; by eapply (subseteq_take (N.to_nat limit)). }
  by apply list_elem_of_filter in Hf as [_ ?].
Qed.

Lemma sql_bound_range n b : sql_bound (Some n) = Some b → (Z.of_N n ≤ i64_max)%Z.
Proof.
  unfold sql_bound. destruct (i64_try_from n) eqn:E; [|done]. by apply i64_try_from_spec in E as [_ ?].
Qed.

Lemma query_sound s q limit w es w' :
  wf_db (db w) → query s q limit w = (Ok es, w') →
  ∀ e, e ∈ es → e ∈ in_stream (event_log (db w)) s.
Proof.
  intros Hw H e He. destruct (before_sequence q) as [n|] eqn:Hb.
  - destruct (sql_bound (before_sequence q)) as [b|] eqn:Eb.
    + apply query_ok in H as [-> _]; [|done|].
      * by apply query_spec_elem in He.
      * intros n' Hn'. rewrite Hb in Hn', Eb. simplify_eq. by apply sql_bound_range in Eb.
    + unfold query in H. rewrite Eb in H.
      destruct (sql_bound (after_sequence q)); injection H as <- _; by apply not_elem_of_nil in He.
  - apply query_ok in H as [-> _]; [|done|by intros n'; rewrite Hb].
    by apply query_spec_elem in He.
Qed.

Lemma state_get_value ns key w snapshot w' :
  state_get ns key w = (Ok snapshot, w') → snapshot_value snapshot = entries_of (db w) ns !! key.
Proof.
  intros H. rewrite entries_lookup. apply transaction_ok in H as (w1 & H & _).
  apply tx_bind_ok in H as (n & w2 & Hr%state_revision_db & H).
  apply tx_bind_ok in H as (v & w3 & Hs & H). apply select_ok in Hs as [Hs _].
  injection Hs as <-. injection H as <- _. simpl. by rewrite Hr.
Qed.

Lemma checkpoint_value c w k w' : get_checkpoint c w = (Ok k, w') → wf_db (db w) →
  k = checkpoint_of (db w) c.
Proof. intros H Hw. by apply read_checkpoint_ok in H as [-> _]. Qed.

Lemma replace_credential_others h p expected value w :
  ∀ h' p', (h', p') ≠ (h, p) →
  t_credentials (db (sqlite_replace_credential h p expected value w).2) !! (h', p')
    = t_credentials (db w) !! (h', p').
Proof.
  intros h' p' Hne. unfold sqlite_replace_credential, tx_bind.
  destruct (exec _ _ w) as [[n|err] w1] eqn:E; simpl.
  - apply exec_ok in E as (d & [= Hn] & ->). simpl. unfold credential_update in Hn.
    repeat case_match; simplify_eq; simpl; by rewrite ?lookup_insert_ne by congruence.
  - by apply exec_err in E as ->.
Qed.

Lemma replace_credential_tables h p expected value w :
  let d' := db (sqlite_replace_credential h p expected value w).2 in
  t_state d' = t_state (db w) ∧ t_cursors d' = t_cursors (db w).
Proof.
  unfold sqlite_replace_credential, tx_bind.
  destruct (exec _ _ w) as [[n|err] w1] eqn:E; simpl.
  - apply exec_ok in E as (d & [= Hn] & ->). simpl. unfold credential_update in Hn.
    by repeat case_match; simplify_eq.
  - by apply exec_err in E as ->.
Qed.

Lemma committed_credentials c d es d' :
  committed c d es d' → t_credentials d' = t_credentials d.
Proof.
  intros (d1 & (_ & _ & _ & Hcr)%appends_tables & ->).
  destruct (applied_tables (cursor_namespace (cursor c)) (mutations c) d) as (_ & _ & Ha).
  destruct (checkpoint c); simpl; congruence.
Qed.

Lemma apply_spec_entries expected ms n rev n' :
  apply_spec expected ms n = Ok (rev, n') →
  ns_entries n' = foldl (flip mutate) (ns_entries n) ms.
Proof.
  unfold apply_spec. intros H. destruct (negb _); [done|].
  case_bool_decide as Hms; [by simplify_eq|]. res_inv. by simplify_eq.
Qed.

Lemma commit_has_effect c w rc w' :
  wf_db (db w) → delivery_typed c → commit c w = (Ok rc, w') → commit_effect c w rc w'.
Proof.
  intros Hw Ht H. pose proof (commit_delivered _ _ _ _ Hw Ht H) as [H1 H2 [H3 H3'] H4 H5 H6 H7].
  apply commit_ok in H as (_ & _ & Hr & Hc & _); [|done|done].
  split; try done; simpl.
  - by eapply committed_wf.
  - by apply apply_spec_entries in H5.
  - intros ns Hne. apply (f_equal ns_entries (H7 ns Hne)).
  - exact (f_equal (λ t h p, t !! (h, p)) (committed_credentials _ _ _ _ Hc)).
Qed.

#[export] Instance sqlite_agent_store_laws : AgentStoreLaws (World M).
Proof.
  split.
  - intros r w res w' Hw. by apply append_view.
  - intros id w res w' Hw H. apply (read_only_db (CallGet id)) in Hw. simpl in Hw, H.
    rewrite H in Hw. apply Hw.
  - intros s q limit w res w' Hw H. apply (read_only_db (CallQuery s q limit)) in Hw.
    simpl in Hw, H. rewrite H in Hw. apply Hw.
  - intros s q limit w es w'. apply query_sound.
  - intros ns key w res w' Hw H. apply (read_only_db (CallStateGet ns key)) in Hw.
    simpl in Hw, H. by rewrite H in Hw.
  - intros ns key w snapshot w' _. apply state_get_value.
  - intros ns prefix after limit w res w' Hw H.
    apply (read_only_db (CallStateScan ns prefix after limit)) in Hw. simpl in Hw, H.
    by rewrite H in Hw.
  - intros c w res w' Hw H. apply (read_only_db (CallCheckpoint c)) in Hw. simpl in Hw, H.
    by rewrite H in Hw.
  - intros c w k w' Hw H. by eapply checkpoint_value.
  - intros h p w res w' Hw H. apply (read_only_db (CallReadCredential h p)) in Hw.
    simpl in Hw, H. by rewrite H in Hw.
  - intros h p w v w' _ H. simpl in H. apply select_ok in H as [H _]. by injection H as <-.
  - intros h p expected value w res w' Hw H. simpl in H. 
    pose proof (replace_credential_wf h p expected value w Hw) as [Hw' Hl].
    pose proof (replace_credential_tables h p expected value w) as [Hs Hc].
    pose proof (replace_credential_others h p expected value w) as Ho. rewrite H in *.
    split_and!; [done|by apply same_log_event_log| | |done].
    + exact (f_equal (λ t ns, default ∅ (map_curry (M1 := gmap string) t !! ns)) Hs).
    + exact (f_equal (λ t c, default 0%N (result_ok (parse_u64 (default "0"
        (t !! (cursor_stream_id c, cursor_namespace c)))))) Hc).
  - intros c w rc w'. apply commit_has_effect.
  - intros c w e w' Hw _ H. apply commit_err in H. by apply unchanged_db.
Qed.
End stores.
