(* ===== verification/Json.v ===== *)
(** The part of [serde_json] the sources use: the value type with its field
    accessors, and the library's algorithms (the text codec, pointers, the
    printing of numbers) as a parameter.  An object is a [BTreeMap] (the
    [preserve_order] feature is off): a list of fields in key order. *)
From stdpp Require Import base tactics option list strings countable sorting.
From Stdlib Require Import ZArith NArith Lia Ascii.
From S2P Require Import Prelude Event.

(** [serde_json::Number]; a finite [f64] by its bits. *)
Inductive Number : Type :=
| PosInt (n : N)
| NegInt (z : Z)
| Float (bits : N).

Inductive Value : Type :=
| Null
| Bool (b : bool)
| Num (n : Number)
| Str (s : string)
| Array (l : list Value)
| Object (fields : list (string * Value)).

(** ** Values as trees, which makes their equality decidable *)

Definition leaf : Type := (bool + N) + (Z + string).

Fixpoint to_tree (v : Value) : gen_tree leaf :=
  match v with
  | Null => GenNode 0 []
  | Bool b => GenLeaf (inl (inl b))
  | Num (PosInt n) => GenNode 1 [GenLeaf (inl (inr n))]
  | Num (NegInt z) => GenNode 2 [GenLeaf (inr (inl z))]
  | Num (Float bits) => GenNode 3 [GenLeaf (inl (inr bits))]
  | Str s => GenLeaf (inr (inr s))
  | Array l => GenNode 4 (to_tree <$> l)
  | Object m => GenNode 5 ((λ '(k, v), GenNode 6 [GenLeaf (inr (inr k)); to_tree v]) <$> m)
  end.

Fixpoint of_tree (t : gen_tree leaf) : Value :=
  match t with
  | GenLeaf (inl (inl b)) => Bool b
  | GenLeaf (inr (inr s)) => Str s
  | GenNode 1 [GenLeaf (inl (inr n))] => Num (PosInt n)
  | GenNode 2 [GenLeaf (inr (inl z))] => Num (NegInt z)
  | GenNode 3 [GenLeaf (inl (inr bits))] => Num (Float bits)
  | GenNode 4 l => Array (of_tree <$> l)
  | GenNode 5 l =>
      Object ((λ t, match t with
                    | GenNode 6 [GenLeaf (inr (inr k)); t] => (k, of_tree t)
                    | _ => ("", Null)
                    end) <$> l)
  | _ => Null
  end.

Lemma of_to_tree : ∀ v, of_tree (to_tree v) = v.
Proof.
  fix IH 1. intros [| b | [] | s | l | m]; simpl; try done.
  - f_equal. induction l as [|v l IHl]; csimpl; [done|]. by rewrite IH, IHl.
  - f_equal. induction m as [|[k v] m IHm]; csimpl; [done|]. by rewrite IH, IHm.
Qed.

#[export] Instance value_eq_dec : EqDecision Value.
Proof.
  intros a b. destruct (decide (to_tree a = to_tree b)) as [H|H].
  - left. by rewrite <- (of_to_tree a), <- (of_to_tree b), H.
  - right. congruence.
Defined.

(** Induction with the hypothesis on every item and field. *)
Lemma value_induction (P : Value → Prop) :
  P Null → (∀ b, P (Bool b)) → (∀ n, P (Num n)) → (∀ s, P (Str s)) →
  (∀ l, (∀ v, v ∈ l → P v) → P (Array l)) →
  (∀ m, (∀ k v, (k, v) ∈ m → P v) → P (Object m)) → ∀ v, P v.
Proof.
  intros Hnull Hbool Hnum Hstr Harr Hobj. fix IH 1.
  intros [|b|n|s|l|m]; [exact Hnull|apply Hbool|apply Hnum|apply Hstr|apply Harr|apply Hobj].
  - induction l as [|x l IHl]; intros v Hv; [destruct (not_elem_of_nil _ Hv)|].
    apply elem_of_cons in Hv as [->|Hv]; [apply IH|exact (IHl v Hv)].
  - induction m as [|[k' x] m IHm]; intros k v Hv; [destruct (not_elem_of_nil _ Hv)|].
    apply elem_of_cons in Hv as [Hv|Hv]; [|exact (IHm k v Hv)].
    injection Hv as -> ->. apply IH.
Qed.

(** Zero compares equal to minus zero. *)
Definition canonical_number (n : Number) : Number :=
  match n with
  | Float bits => Float (if (bits =? 2 ^ 63)%N then 0 else bits)
  | other => other
  end.

Fixpoint canonical (v : Value) : Value :=
  match v with
  | Num n => Num (canonical_number n)
  | Array l => Array (canonical <$> l)
  | Object m => Object ((λ '(k, v), (k, canonical v)) <$> m)
  | other => other
  end.

(** [impl PartialEq for Value]. *)
Definition value_eqb (a b : Value) : bool := bool_decide (canonical a = canonical b).

(** The library's own code, which the components are given: the codec, the
    text of a value and of a number, and lookup by JSON pointer. *)
Class SerdeJson : Type := {
  from_slice : bytes → result Value string;
  to_vec : Value → result bytes string;
  to_string : Value → string;
  number_to_string : Number → string;
  pointer : Value → string → option Value;
}.

(** ** Maps *)

(** [BTreeMap] with string keys, here and for [Map]: [insert]. *)
Fixpoint map_insert {V} (key : string) (v : V) (m : list (string * V)) : list (string * V) :=
  match m with
  | [] => [(key, v)]
  | (k, old) :: rest =>
      if String.eqb key k then (k, v) :: rest
      else if bool_decide (String.le key k) then (key, v) :: m
      else (k, old) :: map_insert key v rest
  end.

(** [Map::get]. *)
Fixpoint map_get {V} (key : string) (m : list (string * V)) : option V :=
  match m with
  | [] => None
  | (k, v) :: rest => if String.eqb key k then Some v else map_get key rest
  end.

(** [Map::remove]. *)
Fixpoint map_remove {V} (key : string) (m : list (string * V)) : list (string * V) :=
  match m with
  | [] => []
  | (k, v) :: rest => if String.eqb key k then rest else (k, v) :: map_remove key rest
  end.

(** [json!({ ... })]. *)
Definition object (fields : list (string * Value)) : Value :=
  Object (foldl (λ m '(k, v), map_insert k v m) [] fields).

(** ** Accessors *)

(** [Value::get] with a string index. *)
Definition value_get (v : Value) (key : string) : option Value :=
  match v with
  | Object m => map_get key m
  | _ => None
  end.

(** [v[key]]: [Null] when there is no such field. *)
Definition value_index (v : Value) (key : string) : Value := default Null (value_get v key).

(** [v[key] = x] on an object. *)
Definition value_set (v : Value) (key : string) (x : Value) : Value :=
  match v with
  | Object m => Object (map_insert key x m)
  | Null => Object [(key, x)]
  | other => other
  end.

Definition as_str (v : Value) : option string :=
  match v with
  | Str s => Some s
  | _ => None
  end.

Definition as_i64 (v : Value) : option Z :=
  match v with
  | Num (PosInt n) => i64_try_from n
  | Num (NegInt z) => Some z
  | _ => None
  end.

Definition as_u64 (v : Value) : option N :=
  match v with
  | Num (PosInt n) => Some n
  | _ => None
  end.

Definition as_bool (v : Value) : option bool :=
  match v with
  | Bool b => Some b
  | _ => None
  end.

Definition as_array (v : Value) : option (list Value) :=
  match v with
  | Array l => Some l
  | _ => None
  end.

Definition as_object (v : Value) : option (list (string * Value)) :=
  match v with
  | Object m => Some m
  | _ => None
  end.

(** [Value::String] of an optional string, as [json!] serializes it. *)
Definition opt_str (o : option string) : Value :=
  match o with
  | Some s => Str s
  | None => Null
  end.

Definition num_u64 (n : N) : Value := Num (PosInt n).
Definition num_i64 (z : Z) : Value :=
  if (0 <=? z)%Z then Num (PosInt (Z.to_N z)) else Num (NegInt z).
Definition opt_num_i64 (o : option Z) : Value :=
  match o with
  | Some z => num_i64 z
  | None => Null
  end.
Definition opt_num_u64 (o : option N) : Value :=
  match o with
  | Some n => num_u64 n
  | None => Null
  end.

(** ** What the codec guarantees *)

Definition max_list (l : list nat) : nat := foldr Nat.max 0 l.

Fixpoint depth (v : Value) : nat :=
  match v with
  | Array l => S (max_list (depth <$> l))
  | Object m => S (max_list ((λ '(_, v), depth v) <$> m))
  | _ => 0
  end.

(** Integers only, each in the range of its variant. *)
Fixpoint integral (v : Value) : bool :=
  match v with
  | Num (PosInt n) => (n <=? u64_max)%N
  | Num (NegInt z) => (i64_min <=? z)%Z && (z <? 0)%Z
  | Num (Float _) => false
  | Array l => forallb integral l
  | Object m => forallb (λ '(_, v), integral v) m
  | _ => true
  end.

(** Fields in key order, each key once. *)
Definition key_above {V} (k : string) (m : list (string * V)) : bool :=
  match m with
  | [] => true
  | (k', _) :: _ => bool_decide (String.le k k') && negb (String.eqb k k')
  end.
Fixpoint fields_sorted {V} (m : list (string * V)) : bool :=
  match m with
  | [] => true
  | (k, _) :: rest => key_above k rest && fields_sorted rest
  end.
Fixpoint ordered (v : Value) : bool :=
  match v with
  | Array l => forallb ordered l
  | Object m => fields_sorted m && forallb (λ '(_, v), ordered v) m
  | _ => true
  end.

(** Values the text format carries exactly: within the parser's recursion
    limit of 128 and without floats. *)
Definition plain (v : Value) : bool :=
  (depth v <? 128)%nat && integral v && ordered v.

(** [from_slice(&to_vec(&v)?) == v]. *)
Definition json_roundtrip `{SerdeJson} : Prop :=
  ∀ v, plain v = true → ∃ b, to_vec v = Ok b ∧ from_slice b = Ok v.

(** ** Lemmas *)

Lemma map_get_insert {V} key (v : V) m key' :
  map_get key' (map_insert key v m) = if String.eqb key' key then Some v else map_get key' m.
Proof.
  induction m as [|[k old] m IH]; simpl; [done|].
  destruct (String.eqb_spec key k) as [->|Hne]; simpl.
  - by destruct (String.eqb_spec key' k).
  - case_bool_decide; simpl; [done|]. rewrite IH.
    destruct (String.eqb_spec key' k) as [->|]; [|done].
    by rewrite (proj2 (String.eqb_neq k key)) by congruence.
Qed.

(** The last value given for a key is the field's value. *)
Fixpoint last_field (key : string) (fields : list (string * Value)) (acc : option Value)
    : option Value :=
  match fields with
  | [] => acc
  | (k, v) :: rest => last_field key rest (if String.eqb key k then Some v else acc)
  end.

Lemma object_get fields key : value_get (object fields) key = last_field key fields None.
Proof.
  unfold object, value_get. change (@None Value) with (map_get (V := Value) key []) at 1.
  generalize (@nil (string * Value)) as m.
  induction fields as [|[k v] fields IH]; intros m; simpl; [done|].
  rewrite IH, map_get_insert. done.
Qed.

Lemma key_above_insert {V} k key (v : V) m :
  key_above k m = true → bool_decide (String.le k key) && negb (String.eqb k key) = true →
  key_above k (map_insert key v m) = true.
Proof.
  intros Hm Hk. destruct m as [|[k' old] m]; simpl in *; [done|].
  destruct (String.eqb key k') eqn:E; simpl; [done|].
  by destruct (bool_decide (String.le key k')).
Qed.

Lemma fields_sorted_insert {V} key (v : V) m :
  fields_sorted m = true → fields_sorted (map_insert key v m) = true.
Proof.
  induction m as [|[k old] m IH]; simpl; [done|]. intros [Hk Hm]%andb_true_iff.
  destruct (String.eqb_spec key k) as [->|Hne]; simpl; [by rewrite Hk|].
  case_bool_decide as Hle; simpl.
  - rewrite bool_decide_true by done. by rewrite (proj2 (String.eqb_neq key k) Hne), Hk, Hm.
  - rewrite IH by done. rewrite andb_true_r. apply key_above_insert; [done|].
    destruct (total String.le key k); [done|]. rewrite bool_decide_true by done.
    by rewrite (proj2 (String.eqb_neq k key)) by congruence.
Qed.

(** The order of a map's keys. *)
Definition before (a b : string) : Prop := String.le a b ∧ a ≠ b.

Lemma before_spec a b : bool_decide (String.le a b) && negb (String.eqb a b) = true ↔ before a b.
Proof.
  unfold before. rewrite andb_true_iff, negb_true_iff, bool_decide_eq_true, String.eqb_neq. done.
Qed.

#[export] Instance before_trans : Transitive before.
Proof.
  intros a b c [H1 H2] [H3 H4]. split; [by trans b|]. intros ->.
  by destruct H4; apply (anti_symm String.le).
Qed.

Lemma fields_sorted_strongly {V} (m : list (string * V)) :
  fields_sorted m = true → StronglySorted before m.*1.
Proof.
  intros H. apply Sorted_StronglySorted; [exact before_trans|].
  induction m as [|[k v] m IH]; csimpl; [constructor|]. simpl in H.
  apply andb_true_iff in H as [Hk Hm]. constructor; [by apply IH|].
  destruct m as [|[k' v'] m]; csimpl; constructor. by apply before_spec.
Qed.

Lemma fields_sorted_nodup {V} (m : list (string * V)) : fields_sorted m = true → NoDup m.*1.
Proof.
  intros H%fields_sorted_strongly. induction H as [|k l _ IH Hk]; constructor; [|done].
  intros Hin. rewrite Forall_forall in Hk. by destruct (Hk k Hin).
Qed.

Lemma key_above_remove {V} k key (m : list (string * V)) :
  key_above k m = true → fields_sorted m = true → key_above k (map_remove key m) = true.
Proof.
  destruct m as [|[k1 v1] m]; simpl; [done|]. intros Hk [H1 _]%andb_true_iff.
  destruct (String.eqb key k1); simpl; [|done]. destruct m as [|[k2 v2] m]; simpl in *; [done|].
  apply before_spec in Hk, H1. apply before_spec. by trans k1.
Qed.

Lemma fields_sorted_remove {V} key (m : list (string * V)) :
  fields_sorted m = true → fields_sorted (map_remove key m) = true.
Proof.
  induction m as [|[k v] m IH]; simpl; [done|]. intros [H1 H2]%andb_true_iff.
  destruct (String.eqb key k); simpl; [done|]. by rewrite IH, key_above_remove.
Qed.

Lemma map_get_remove {V} key (m : list (string * V)) key' :
  NoDup m.*1 →
  map_get key' (map_remove key m) = if String.eqb key' key then None else map_get key' m.
Proof.
  intros Hnd. induction m as [|[k v] m IH]; simpl; [by destruct (String.eqb _ _)|].
  apply NoDup_cons in Hnd as [Hk Hnd]. specialize (IH Hnd).
  destruct (String.eqb_spec key k) as [->|Hne]; simpl.
  - destruct (String.eqb_spec key' k) as [->|]; [|done].
    clear IH Hnd. induction m as [|[j w] m IH]; simpl in *; [done|].
    apply not_elem_of_cons in Hk as [Hk Hm]. by rewrite (proj2 (String.eqb_neq _ _)), IH by done.
  - rewrite IH. destruct (String.eqb_spec key' k) as [->|]; [|done].
    by rewrite (proj2 (String.eqb_neq _ _)).
Qed.

Lemma map_get_elem {V} key (v : V) (m : list (string * V)) :
  NoDup m.*1 → map_get key m = Some v ↔ (key, v) ∈ m.
Proof.
  intros Hnd. induction m as [|[k w] m IH]; simpl.
  { split; [done|]. by intros ?%not_elem_of_nil. }
  apply NoDup_cons in Hnd as [Hk Hnd]. rewrite elem_of_cons.
  destruct (String.eqb_spec key k) as [->|Hne].
  - split; [intros [= ->]; by left|]. intros [[= ->]|Hin]; [done|].
    destruct Hk. apply list_elem_of_fmap. by exists (k, v).
  - rewrite (IH Hnd). split; [by right|]. intros [[= ? ?]|]; [by destruct Hne|done].
Qed.

Lemma map_get_filter {V} (P : string * V → bool) key (m : list (string * V)) :
  NoDup m.*1 →
  map_get key (List.filter P m) =
    match map_get key m with
    | Some v => if P (key, v) then Some v else None
    | None => None
    end.
Proof.
  intros Hnd. induction m as [|[k v] m IH]; simpl; [done|].
  apply NoDup_cons in Hnd as [Hk Hnd]. specialize (IH Hnd).
  destruct (String.eqb_spec key k) as [->|Hne].
  - destruct (P (k, v)) eqn:EP; simpl; [by rewrite String.eqb_refl|]. rewrite IH.
    destruct (map_get k m) as [w|] eqn:E; [|done].
    apply map_get_elem in E; [|done]. destruct Hk. apply list_elem_of_fmap. by exists (k, w).
  - destruct (P (k, v)); simpl; [|done]. by rewrite (proj2 (String.eqb_neq _ _)).
Qed.

Lemma forallb_insert (p : Value → bool) key v m :
  p v = true → forallb (λ '(_, v), p v) m = true →
  forallb (λ '(_, v), p v) (map_insert key v m) = true.
Proof.
  intros Hv. induction m as [|[k old] m IH]; simpl; [by rewrite Hv|].
  intros [Ho Hm]%andb_true_iff.
  destruct (String.eqb key k); simpl; [by rewrite Hv|].
  case_bool_decide; simpl; rewrite ?Hv, ?Ho, ?Hm; [done|]. by rewrite IH.
Qed.

Lemma max_list_lt d l : 0 < d → max_list l < d ↔ forallb (λ n, (n <? d)%nat) l = true.
Proof.
  intros Hd. induction l as [|n l IH]; simpl; [done|].
  rewrite andb_true_iff, Nat.ltb_lt, <- IH. lia.
Qed.

(** A field value of [json!] that is carried exactly. *)
Definition plain_field (v : Value) : bool := (depth v <? 127)%nat && (integral v && ordered v).

Lemma forallb_and {A} (p q : A → bool) l :
  forallb (λ x, p x && q x) l = forallb p l && forallb q l.
Proof.
  induction l as [|x l IH]; simpl; [done|]. rewrite IH.
  by destruct (p x), (q x), (forallb p l), (forallb q l).
Qed.

Lemma plain_object_fields m :
  fields_sorted m = true → forallb (λ '(_, v), plain_field v) m = true → plain (Object m) = true.
Proof.
  intros Hs Hm. unfold plain. simpl. rewrite Hs. simpl.
  assert (max_list ((λ '(_, v), depth v) <$> m) < 127) as Hd.
  { apply max_list_lt; [lia|]. clear Hs. induction m as [|[k v] m IH]; [done|]. csimpl.
    simpl in Hm. unfold plain_field in Hm. apply andb_true_iff in Hm as [Hv Hm].
    apply andb_true_iff in Hv as [Hv _]. rewrite Hv. by apply IH. }
  rewrite (proj2 (Nat.ltb_lt _ _)) by lia. simpl. clear Hs Hd.
  induction m as [|[k v] m IH]; [done|]. simpl in *. apply andb_true_iff in Hm as [Hv Hm].
  unfold plain_field in Hv. apply andb_true_iff in Hv as [_ [-> ->]%andb_true_iff]. by apply IH.
Qed.

Lemma object_plain fields :
  forallb (λ '(_, v), plain_field v) fields = true → plain (object fields) = true.
Proof.
  intros Hf. unfold object. apply plain_object_fields.
  - assert (fields_sorted (V := Value) [] = true) as H by done. revert H. generalize (@nil (string * Value)).
    clear Hf. induction fields as [|[k v] fields IH]; intros m Hm; simpl; [done|].
    by apply IH, fields_sorted_insert.
  - assert (forallb (λ '(_, v), plain_field v) (@nil (string * Value)) = true) as H by done. revert H.
    generalize (@nil (string * Value)).
    induction fields as [|[k v] fields IH]; intros m Hm; simpl in *; [done|].
    apply andb_true_iff in Hf as [Hv Hf]. by apply IH, forallb_insert.
Qed.

Lemma plain_field_opt_str o : plain_field (opt_str o) = true.
Proof. by destruct o. Qed.

Lemma plain_field_num_i64 z : (i64_min ≤ z ≤ i64_max)%Z → plain_field (num_i64 z) = true.
Proof.
  intros Hz. unfold num_i64, i64_min, i64_max in *.
  destruct (Z.leb_spec 0 z); unfold plain_field; simpl; rewrite andb_true_r.
  - apply N.leb_le. unfold u64_max. lia.
  - apply andb_true_iff. rewrite Z.leb_le, Z.ltb_lt. unfold i64_min. lia.
Qed.

(** ** A codec with the round trip *)

Module Codec.

Fixpoint pos_bytes (p : positive) : bytes :=
  match p with
  | xH => []
  | xO p => Byte.x00 :: pos_bytes p
  | xI p => Byte.x01 :: pos_bytes p
  end.

Fixpoint pos_of_bytes (b : bytes) : positive :=
  match b with
  | [] => xH
  | Byte.x00 :: b => xO (pos_of_bytes b)
  | _ :: b => xI (pos_of_bytes b)
  end.

Lemma pos_of_pos_bytes p : pos_of_bytes (pos_bytes p) = p.
Proof. induction p; simpl; congruence. Qed.

(** [str::split('/')]. *)
Fixpoint split_slash (s : string) : list string :=
  match s with
  | EmptyString => [""]
  | String c rest =>
      match split_slash rest with
      | [] => [String c ""]
      | t :: ts => if (c =? "/")%char then "" :: t :: ts else String c t :: ts
      end
  end.

(** [token.replace("~1", "/").replace("~0", "~")]. *)
Fixpoint replace_tilde (digit by_ : ascii) (s : string) : string :=
  match s with
  | String a (String b rest as tail) =>
      if (a =? "~")%char && (b =? digit)%char then String by_ (replace_tilde digit by_ rest)
      else String a (replace_tilde digit by_ tail)
  | _ => s
  end.

Definition unescape (token : string) : string :=
  replace_tilde "0" "~" (replace_tilde "1" "/" token).

(** [parse_index]. *)
Definition parse_index (s : string) : option N :=
  match s with
  | String c rest =>
      if (c =? "+")%char || ((c =? "0")%char && negb (str_is_empty rest)) then None
      else result_ok (parse_u64 s)
  | EmptyString => result_ok (parse_u64 s)
  end.

Definition pointer_step (v : option Value) (token : string) : option Value :=
  match v with
  | Some (Object m) => map_get (unescape token) m
  | Some (Array l) => match parse_index (unescape token) with
                      | Some i => l !! N.to_nat i
                      | None => None
                      end
  | _ => None
  end.

(** Lookup by a JSON pointer (RFC 6901). *)
Definition lookup_pointer (v : Value) (path : string) : option Value :=
  match path with
  | EmptyString => Some v
  | String c _ =>
      if negb (c =? "/")%char then None
      else foldl pointer_step (Some v) (tail (split_slash path))
  end.

#[export] Instance codec : SerdeJson := {|
  from_slice b := match decode (pos_of_bytes b) with
                  | Some t => Ok (of_tree t)
                  | None => Err "expected value"
                  end;
  to_vec v := Ok (pos_bytes (encode (to_tree v)));
  to_string v := String.string_of_list_byte (pos_bytes (encode (to_tree v)));
  number_to_string n := match n with
                        | PosInt n => u64_to_string n
                        | NegInt z => i64_to_string z
                        | Float _ => ""
                        end;
  pointer := lookup_pointer;
|}.

Lemma codec_exact v b : to_vec v = Ok b → from_slice b = Ok v.
Proof. intros [= <-]. cbn. by rewrite pos_of_pos_bytes, decode_encode, of_to_tree. Qed.

Lemma codec_roundtrip : json_roundtrip.
Proof. intros v _. eexists. split; [done|]. by apply codec_exact. Qed.

(** Decoders of the scalar fields of derived types. *)
Definition as_int (v : Value) : option Z :=
  match v with
  | Num (PosInt n) => Some (Z.of_N n)
  | Num (NegInt z) => Some z
  | _ => None
  end.

Definition decode_opt {A} (f : Value → option A) (v : Value) : option (option A) :=
  match v with
  | Null => Some None
  | v => Some <$> f v
  end.

Lemma as_int_num z : as_int (num_i64 z) = Some z.
Proof. unfold num_i64. destruct (Z.leb_spec 0 z); simpl; f_equal; lia. Qed.

Lemma decode_opt_int o : decode_opt as_int (opt_num_i64 o) = Some o.
Proof.
  destruct o as [z|]; [|done]. simpl. pose proof (as_int_num z) as H.
  destruct (num_i64 z) as [| |n| | |]; try done. unfold decode_opt. by rewrite H.
Qed.

End Codec.
