(* ===== verification/JsonFlat.v ===== *)
(** A compact codec of JSON values, byte by byte, with which the concrete
    examples of the plugins are evaluated: a tag, then the parts, each
    announced by [x01], and [x00] at the end. *)
From stdpp Require Import base tactics option list strings.
From Stdlib Require Import ZArith NArith Lia Ascii Strings.Byte.
From S2P Require Import Prelude Event Json.

Module Flat.
Fixpoint pos_digits (p : positive) : bytes :=
  match p with
  | xH => [x00]
  | xO p => x01 :: pos_digits p
  | xI p => x02 :: pos_digits p
  end.
Fixpoint str_cells (s : string) : bytes :=
  match s with
  | EmptyString => [x00]
  | String c s => x01 :: byte_of_ascii c :: str_cells s
  end.

Definition number_bytes (n : Number) : bytes :=
  match n with
  | PosInt n => x70 :: pos_digits (N.succ_pos n)
  | NegInt (Z.neg p) => x6d :: pos_digits p
  | NegInt z => x7a :: pos_digits (N.succ_pos (Z.to_N z))
  | Float bits => x64 :: pos_digits (N.succ_pos bits)
  end.

Fixpoint flatten (v : Value) : bytes :=
  match v with
  | Null => [x6e]
  | Bool true => [x74]
  | Bool false => [x66]
  | Num n => number_bytes n
  | Str s => x73 :: str_cells s
  | Array l => x61 :: flat_map (λ v, x01 :: flatten v) l ++ [x00]
  | Object m => x6f :: flat_map (λ '(k, v), x01 :: str_cells k ++ flatten v) m ++ [x00]
  end.

Fixpoint read_pos (b : bytes) : option (positive * bytes) :=
  match b with
  | x00 :: b => Some (xH, b)
  | x01 :: b => '(p, b) ← read_pos b; Some (xO p, b)
  | x02 :: b => '(p, b) ← read_pos b; Some (xI p, b)
  | _ => None
  end.
Fixpoint read_str (b : bytes) : option (string * bytes) :=
  match b with
  | x00 :: b => Some ("", b)
  | x01 :: c :: b => '(s, b) ← read_str b; Some (String (ascii_of_byte c) s, b)
  | _ => None
  end.
Fixpoint read_items {A} (read : bytes → option (A * bytes)) (fuel : nat) (b : bytes)
    : option (list A * bytes) :=
  match fuel, b with
  | S fuel, x01 :: b =>
      '(x, b) ← read b; '(l, b) ← read_items read fuel b; Some (x :: l, b)
  | _, x00 :: b => Some ([], b)
  | _, _ => None
  end.

Fixpoint read_value (fuel : nat) (b : bytes) : option (Value * bytes) :=
  match fuel with
  | O => None
  | S fuel =>
      match b with
      | x6e :: b => Some (Null, b)
      | x74 :: b => Some (Bool true, b)
      | x66 :: b => Some (Bool false, b)
      | x70 :: b => '(p, b) ← read_pos b; Some (Num (PosInt (Pos.pred_N p)), b)
      | x6d :: b => '(p, b) ← read_pos b; Some (Num (NegInt (Z.neg p)), b)
      | x7a :: b => '(p, b) ← read_pos b; Some (Num (NegInt (Z.of_N (Pos.pred_N p))), b)
      | x64 :: b => '(p, b) ← read_pos b; Some (Num (Float (Pos.pred_N p)), b)
      | x73 :: b => '(s, b) ← read_str b; Some (Str s, b)
      | x61 :: b => '(l, b) ← read_items (read_value fuel) fuel b; Some (Array l, b)
      | x6f :: b =>
          '(m, b) ← read_items (λ b, '(k, b) ← read_str b; '(v, b) ← read_value fuel b; Some ((k, v), b))
                      fuel b;
          Some (Object m, b)
      | _ => None
      end
  end.

#[export] Instance flat_codec : SerdeJson := {|
  from_slice b := match read_value (length b) b with
                  | Some (v, []) => Ok v
                  | _ => Err "expected value"
                  end;
  to_vec v := Ok (flatten v);
  to_string v := String.string_of_list_byte (flatten v);
  number_to_string n := match n with
                        | PosInt n => u64_to_string n
                        | NegInt z => i64_to_string z
                        | Float _ => ""
                        end;
  pointer := Codec.lookup_pointer;
|}.

Lemma read_pos_digits p r : read_pos (pos_digits p ++ r) = Some (p, r).
Proof. induction p as [p IH|p IH|]; simpl; by rewrite ?IH. Qed.
Lemma read_str_cells s r : read_str (str_cells s ++ r) = Some (s, r).
Proof. induction s as [|c s IH]; simpl; [done|]. rewrite IH. simpl. by rewrite ascii_of_byte_of_ascii. Qed.
Lemma length_str_cells s : 0 < length (str_cells s).
Proof. destruct s; simpl; lia. Qed.
Lemma length_flatten v : 0 < length (flatten v).
Proof. destruct v as [|[]|[|[]|]| | |]; simpl; lia. Qed.

Lemma read_items_encoded {A} (read : bytes → option (A * bytes)) (f : A → bytes) l fuel r :
  (∀ x r, x ∈ l → read (f x ++ r) = Some (x, r)) → length l ≤ fuel →
  read_items read fuel (flat_map (λ x, x01 :: f x) l ++ x00 :: r) = Some (l, r).
Proof.
  revert fuel. induction l as [|x l IH]; intros fuel Hread Hfuel; [by destruct fuel|].
  destruct fuel as [|fuel]; simpl in *; [lia|].
  rewrite <- (assoc_L (++)), Hread by left. simpl. rewrite IH; [done| |lia]. intros y r' Hy. apply Hread. by right.
Qed.

Lemma length_flat_map_elem {A} (f : A → bytes) l x : x ∈ l → length (f x) < length (flat_map (λ x, x01 :: f x) l).
Proof.
  induction l as [|y l IH]; [by rewrite elem_of_nil|]. intros [->|H]%elem_of_cons; simpl; rewrite length_app; [lia|].
  specialize (IH H). lia.
Qed.
Lemma length_flat_map_ge {A} (f : A → bytes) l : length l ≤ length (flat_map (λ x, x01 :: f x) l).
Proof. induction l as [|y l IH]; simpl; [lia|]. rewrite length_app. lia. Qed.

Lemma read_flatten v fuel r : length (flatten v) ≤ fuel → read_value fuel (flatten v ++ r) = Some (v, r).
Proof.
  revert fuel r. induction v as [|b|n|s|l IH|m IH] using value_induction; intros fuel r Hfuel;
    destruct fuel as [|fuel]; try (pose proof (length_flatten Null); simpl in Hfuel; lia).
  - done.
  - destruct b; simpl in Hfuel; lia.
  - by destruct b.
  - destruct n as [n|[| |]|n]; simpl in Hfuel; lia.
  - destruct n as [n|[|p|p]|n]; cbn -[pos_digits N.succ_pos Z.to_N]; rewrite read_pos_digits;
      cbn -[N.succ_pos Pos.pred_N Z.to_N]; by rewrite ?N.pos_pred_succ.
  - simpl. by rewrite read_str_cells.
  - simpl in *. rewrite length_app in Hfuel. simpl in Hfuel. rewrite <- (assoc_L (++)). cbn [app].
    rewrite (read_items_encoded (read_value fuel) flatten); [done| |].
    + intros x r' Hx. apply IH; [done|]. pose proof (length_flat_map_elem flatten l x Hx). lia.
    + pose proof (length_flat_map_ge flatten l). lia.
  - simpl in *. rewrite length_app in Hfuel. simpl in Hfuel. rewrite <- (assoc_L (++)). cbn [app].
    set (g := λ kv : string * Value, str_cells kv.1 ++ flatten kv.2).
    assert (flat_map (λ '(k, v), x01 :: str_cells k ++ flatten v) m = flat_map (λ kv, x01 :: g kv) m) as E.
    { apply flat_map_ext. by intros [k v]. }
    rewrite E in *. rewrite (read_items_encoded _ g); [done| |].
    + intros [k v] r' Hx. unfold g. simpl. rewrite <- (assoc_L (++)), read_str_cells. simpl.
      rewrite (IH k v Hx); [done|]. pose proof (length_flat_map_elem g m (k, v) Hx) as Hl.
      unfold g in Hl at 1. simpl in Hl. rewrite length_app in Hl. lia.
    + pose proof (length_flat_map_ge g m). lia.
Qed.

Lemma flat_exact v b : to_vec v = Ok b → from_slice b = Ok v.
Proof.
  intros [= <-]. cbn. rewrite <- (app_nil_r (flatten v)) at 2. by rewrite read_flatten.
Qed.
End Flat.
