(* ===== verification/Manifest.v ===== *)
(** Package manifests as the host reads them:
    [pluribus-plugin-package/src/manifest.rs]. *)
From stdpp Require Import base tactics option list strings.
From Stdlib Require Import ZArith NArith Lia.
From S2P Require Import Prelude Event Json.

Record ConstraintPart : Type := mkConstraintPart {
  part_pointer : string;
  part_prefix : string;
  part_optional : bool;
}.

Record ConstraintBinding : Type := mkConstraintBinding {
  parts : list ConstraintPart;
  binding_required : bool;
}.

Inductive Idempotency : Type :=
| Inherent
| Keyed
| NonIdempotent.

(** A [BTreeMap] with string keys is its fields in key order. *)
Record ProvidedCapability : Type := mkProvidedCapability {
  provided_capability : string;
  provided_description : string;
  arguments_schema : string;
  result_schema : string;
  constraints_schema : option string;
  idempotency : Idempotency;
  provided_bindings : list (string * ConstraintBinding);
}.

Record ModelProvider : Type := mkModelProvider { models_pointer : string }.

Record RequestedCapability : Type := mkRequestedCapability {
  requested_name : string;
  requested_required : bool;
  requested_reason : string;
  requested_constraints : Value;
}.

Record CatalogInjection : Type := mkCatalogInjection {
  tools_pointer : string;
  components_pointer : string;
}.

Record ConnectorDeclaration : Type := mkConnectorDeclaration {
  connector_provider : string;
  inherits_origin : bool;
  reply_component : option string;
}.

Record ComponentManifest : Type := mkComponentManifest {
  world : string;
  component_path : string;
  component_digest : string;
  imports : list string;
  component_config_schema : string;
  provides : list ProvidedCapability;
  model_provider : option ModelProvider;
  subscribes : list string;
  emits : list string;
  rebuilds : list string;
  pinned_session : bool;
  requires : list string;
  requested_capabilities : list RequestedCapability;
  catalog_injection : option CatalogInjection;
  connector : option ConnectorDeclaration;
}.

(** [ComponentManifest::subscribes_to_stream]. *)
Definition subscribes_to_stream (m : ComponentManifest) : bool :=
  existsb (λ pattern, String.eqb pattern "*") (subscribes m).

(** [component_id]. *)
Definition component_id (inst component : string) : string :=
  if str_is_empty component then inst else inst +:+ "/" +:+ component.

(** [merge_config]: the fields of [overrides] over those of [defaults]. *)
Fixpoint merge_config (defaults overrides : Value) {struct overrides} : Value :=
  match defaults, overrides with
  | Object base, Object patch =>
      Object ((fix go (base : list (string * Value)) (patch : list (string * Value)) :=
                 match patch with
                 | [] => base
                 | (key, value) :: patch =>
                     go (match map_get key base with
                         | Some existing => map_insert key (merge_config existing value) base
                         | None => map_insert key value base
                         end) patch
                 end) base patch)
  | _, _ => overrides
  end.
