(* ===== verification/Router.v ===== *)
(** The router: [pluribus-cognition/src/dispatch.rs].

    It maps committed events to the instances that handle them, gates requests
    through authority, and records every decision in the log.  Its operations
    run on whatever store implements [EventStore]; a run threads the store, the
    projection behind its lock, and the process-wide claim counter.  A loop
    over pages takes fuel; running out of it is an outcome of its own, so that
    a theorem that promises a result also shows the loop ends. *)
From stdpp Require Import base tactics option list strings gmap.
From Stdlib Require Import ZArith NArith Lia Ascii.
From S2P Require Import Prelude Event EventStore Registry Authority Utf8 Json Manifest.

(** ** Subscriptions *)

Record Subscriptions : Type := mkSubscriptions {
  sub_idempotency : gmap string string;
  whole_stream : bool;
  sub_event_types : list string;
  capabilities : list string;
  models : list string;
  constraint_bindings : gmap string (list (string * ConstraintBinding));
}.

Definition idempotency_name (i : Idempotency) : string :=
  match i with
  | Inherent => "inherent"
  | Keyed => "keyed"
  | NonIdempotent => "non-idempotent"
  end.

(** [Subscriptions::from_manifest]; collecting into a map keeps the last. *)
Definition from_manifest (m : ComponentManifest) (model_ids : list string) : Subscriptions := {|
  sub_idempotency :=
    foldl (λ acc p, <[provided_capability p := idempotency_name (idempotency p)]> acc) ∅ (provides m);
  whole_stream := subscribes_to_stream m;
  sub_event_types := filter (λ pattern, negb (String.eqb pattern "*") = true) (subscribes m);
  capabilities := provided_capability <$> provides m;
  models := model_ids;
  constraint_bindings :=
    foldl (λ acc p, <[provided_capability p := provided_bindings p]> acc) ∅ (provides m);
|}.

Record Registration : Type := mkRegistration {
  instance_id : string;
  subscriptions : Subscriptions;
}.

Inductive Routed : Type :=
| Deliver (to_instance : string)
| NoProvider (why : string)
| Denied (why : string).

#[export] Instance routed_eq_dec : EqDecision Routed.
Proof. solve_decision. Defined.

Inductive RouterError : Type :=
| UnknownInstance (id : string)
| RouterStorage (message : string).

(** [impl Display for RouterError]. *)
Definition router_error_to_string (e : RouterError) : string :=
  match e with
  | UnknownInstance id => "unknown instance: " +:+ id
  | RouterStorage message => "router storage failed: " +:+ message
  end.

(** [denial_reason]. *)
Definition denial_reason (r : DenialReason) : string :=
  match r with
  | MissingGrant => "no grant for this capability"
  | ConstraintMismatch => "constraints reject the request"
  | Expired => "authority expired"
  | DepthExceeded => "recursion depth exhausted"
  | PolicyError message => "policy error: " +:+ message
  end.

(** [DispatchProjection]. *)
Record DispatchProjection : Type := mkProjection {
  through : N;
  results : gmap string EventId;
  jobs : gmap (string * string) (Z * string);
  observations : gmap string (gset string);
}.

Definition empty_projection : DispatchProjection := mkProjection 0 ∅ ∅ ∅.

Section payload.
Context {JS : SerdeJson}.

(** [payload_field]. *)
Definition payload_field (e : CommittedEvent) (field : string) : option string :=
  match payload (request e) with
  | CanonicalJson b =>
      match from_slice b with
      | Ok v => match value_get v field with
                | Some x => as_str x
                | None => None
                end
      | Err _ => None
      end
  | Blob _ => None
  end.

(** [json_number]. *)
Definition json_number (e : CommittedEvent) (field : string) : option Z :=
  match payload (request e) with
  | CanonicalJson b =>
      match from_slice b with
      | Ok v => match value_get v field with
                | Some x => as_i64 x
                | None => None
                end
      | Err _ => None
      end
  | Blob _ => None
  end.

(** [Subscriptions::accepts]. *)
Definition accepts (s : Subscriptions) (e : CommittedEvent) : bool :=
  if whole_stream s then true
  else
    let t := event_type (request e) in
    if existsb (λ pattern, matches_pattern pattern t) (sub_event_types s) then true
    else if String.eqb t "capability.requested" then
      is_some_and (payload_field e "capability") (λ name, existsb (λ owned, String.eqb owned name) (capabilities s))
    else if String.eqb t "model.requested" then
      is_some_and (payload_field e "model") (λ name, existsb (λ owned, String.eqb owned name) (models s))
    else false.
End payload.

(** ** Projected constraints *)

Section projected.
Context {JS : SerdeJson} {P : Type} {CP : ConstraintPolicy P}.

Record ProjectedConstraints : Type := mkProjectedConstraints {
  inner_policy : P;
  bindings : option (list (string * ConstraintBinding));
}.

(** The loop over the parts of one binding: the selector, or [None] where the
    code returns [Ok(false)]. *)
Fixpoint project_parts (request_value : Value) (ps : list ConstraintPart) (selector : string)
    : option string :=
  match ps with
  | [] => Some selector
  | part :: ps =>
      match pointer request_value (part_pointer part) with
      | None => if part_optional part then project_parts request_value ps selector else None
      | Some (Str text) =>
          project_parts request_value ps (selector +:+ part_prefix part +:+ text)
      | Some (Num n) =>
          project_parts request_value ps (selector +:+ part_prefix part +:+ number_to_string n)
      | Some _ => None
      end
  end.

(** The loop over the bindings. *)
Fixpoint project_bindings (granted : list (string * Value)) (request_value : Value)
    (bs : list (string * ConstraintBinding)) (selectors : list (string * Value))
    : option (list (string * Value)) :=
  match bs with
  | [] => Some selectors
  | (key, binding) :: bs =>
      if negb (opt_is_some (map_get key granted)) then
        if binding_required binding then None
        else project_bindings granted request_value bs selectors
      else if bool_decide (parts binding = []) then None
      else match project_parts request_value (parts binding) "" with
           | None => None
           | Some selector =>
               project_bindings granted request_value bs (map_insert key (Str selector) selectors)
           end
  end.

(** [ProjectedConstraints::allows]. *)
Definition projected_allows (p : ProjectedConstraints) (grant : Grant) (req : bytes)
    : result bool string :=
  let? c := from_slice (constraints grant) in
  let? granted := ok_or (as_object c) "constraints must be an object" in
  let? request_value := from_slice req in
  match project_bindings granted request_value (default [] (bindings p)) [] with
  | None => Ok false
  | Some selectors =>
      let? projected := to_vec (Object selectors) in
      allows_projected (inner_policy p) grant req projected
  end.

#[export] Instance projected_policy : ConstraintPolicy ProjectedConstraints := {|
  allows := projected_allows;
  allows_projected := default_allows_projected projected_allows;
|}.
End projected.
Arguments ProjectedConstraints P : clear implicits.

(** ** The router's state and its operations *)

(** The process id and the wall clock in nanoseconds, by the number of times
    it has been read. *)
Class Process : Type := {
  process_id : N;
  wall_nanos : nat → N;
}.

Record Router (P : Type) : Type := mkRouter {
  router_stream : StreamId;
  router_agent : PrincipalRef;
  registrations : list Registration;
  registry : EventTypeRegistry;
  router_constraints : P;
}.
Arguments mkRouter {P} _ _ _ _ _.
Arguments router_stream {P} _.
Arguments router_agent {P} _.
Arguments registrations {P} _.
Arguments registry {P} _.
Arguments router_constraints {P} _.

Record RState (W : Type) : Type := mkRState {
  store : W;
  projection : DispatchProjection;
  claim_counter : N;
  wall_reads : nat;
}.
Arguments mkRState {W} _ _ _ _.
Arguments store {W} _.
Arguments projection {W} _.
Arguments claim_counter {W} _.
Arguments wall_reads {W} _.

Inductive outcome (A : Type) : Type :=
| Return (a : A)
| Fail_ (e : RouterError)
| OutOfFuel.
Arguments Return {A} _.
Arguments Fail_ {A} _.
Arguments OutOfFuel {A}.

Section monad.
Context {W : Type}.

Definition Rt (A : Type) : Type := RState W → outcome A * RState W.

Definition rt_ret {A} (a : A) : Rt A := λ s, (Return a, s).
Definition rt_fail {A} (e : RouterError) : Rt A := λ s, (Fail_ e, s).
Definition rt_fuel {A} : Rt A := λ s, (OutOfFuel, s).
Definition rt_bind {A B} (m : Rt A) (k : A → Rt B) : Rt B := λ s,
  match m s with
  | (Return a, s') => k a s'
  | (Fail_ e, s') => (Fail_ e, s')
  | (OutOfFuel, s') => (OutOfFuel, s')
  end.
Definition rt_lift {A} (r : result A RouterError) : Rt A :=
  match r with
  | Ok a => rt_ret a
  | Err e => rt_fail e
  end.

(** A call of the store whose error is reported as [RouterError::Storage]. *)
Definition rt_store {A} (f : W → result A AppendError * W) : Rt A := λ s,
  let '(r, w) := f (store s) in
  let s' := mkRState w (projection s) (claim_counter s) (wall_reads s) in
  match r with
  | Ok a => (Return a, s')
  | Err e => (Fail_ (RouterStorage (append_error_to_string e)), s')
  end.

(** A call of the store whose error is dropped. *)
Definition rt_store_ok {A} (f : W → result A AppendError * W) : Rt (option A) := λ s,
  let '(r, w) := f (store s) in
  (Return (result_ok r), mkRState w (projection s) (claim_counter s) (wall_reads s)).

Definition rt_projection : Rt DispatchProjection := λ s, (Return (projection s), s).
Definition rt_update (f : DispatchProjection → DispatchProjection) : Rt unit := λ s,
  (Return tt, mkRState (store s) (f (projection s)) (claim_counter s) (wall_reads s)).
End monad.
Arguments Rt W A : clear implicits.

Declare Scope router_scope.
Notation "'let!' x := m 'in' k" := (rt_bind m (fun x => k))
  (at level 10, x pattern, m at level 100, k at level 200) : router_scope.
Notation "'run!' m ; k" := (rt_bind m (fun _ => k))
  (at level 10, m at level 100, k at level 200) : router_scope.
Open Scope router_scope.

(** [Router::register]: a later registration for the same id replaces the
    earlier one. *)
Definition register {P} (reg : Registration) (r : Router P) : Router P :=
  mkRouter (router_stream r) (router_agent r)
    (filter (λ existing, negb (String.eqb (instance_id existing) (instance_id reg)) = true)
       (registrations r) ++ [reg])
    (registry r) (router_constraints r).

(** [Router::unregister]. *)
Definition unregister {P} (id : string) (r : Router P) : Router P :=
  mkRouter (router_stream r) (router_agent r)
    (filter (λ existing, negb (String.eqb (instance_id existing) id) = true) (registrations r))
    (registry r) (router_constraints r).

(** The event types [DispatchProjection::refresh] asks for. *)
Definition PROJECTED_TYPES : list string :=
  ["cognition.checkpoint"; "cognition.job-updated"; "cognition.observation-associated";
   "code.completed"; "code.failed"; "code.yielded"; "model.completed"; "model.failed";
   "capability.completed"; "capability.failed"; "capability.denied"; "capability.timed-out";
   "capability.cancelled"].

(** [EventQuery { after_sequence, event_types, ..default() }]. *)
Definition typed_query (after : N) (ts : list string) : EventQuery :=
  mkEventQuery (Some after) None ts None false None None None None.

Section projection.
Context {JS : SerdeJson}.

(** [DispatchProjection::update_job]. *)
Definition update_job (p : DispatchProjection) (actor id : string) (job : Value)
    : DispatchProjection :=
  mkProjection (through p) (results p)
    (<[(actor, id) := (default (-1)%Z (as_i64 (value_index job "revision")),
                       default "" (as_str (value_index job "status")))]> (jobs p))
    (observations p).

(** [DispatchProjection::update_observation]. *)
Definition update_observation (p : DispatchProjection) (actor id : string) (observation : Value)
    : DispatchProjection :=
  let pending := default ∅ (observations p !! actor) in
  let pending' :=
    if bool_decide (as_str (value_index observation "status") = Some "pending")
    then {[id]} ∪ pending else pending ∖ {[id]} in
  mkProjection (through p) (results p) (jobs p) (<[actor := pending']> (observations p)).

(** [DispatchProjection::update_cognition]. *)
Definition update_cognition (p : DispatchProjection) (e : CommittedEvent)
    : result DispatchProjection RouterError :=
  match payload (request e) with
  | Blob _ => Ok p
  | CanonicalJson b =>
      let? value := map_err RouterStorage (from_slice b) in
      let a := principal_id (actor (request e)) in
      if negb (bool_decide (principal_kind (actor (request e)) = Component)) then Ok p
      else if String.eqb (event_type (request e)) "cognition.job-updated" then
        match as_str (value_index (value_index value "job") "id") with
        | Some id => Ok (update_job p a id (value_index value "job"))
        | None => Ok p
        end
      else if String.eqb (event_type (request e)) "cognition.observation-associated" then
        match as_str (value_index (value_index value "observation") "id") with
        | Some id => Ok (update_observation p a id (value_index value "observation"))
        | None => Ok p
        end
      else Ok p
  end.

(** [entry(key).or_insert(id)]. *)
Definition or_insert (key : string) (id : EventId) (m : gmap string EventId) : gmap string EventId :=
  match m !! key with
  | Some _ => m
  | None => <[key := id]> m
  end.

Definition set_through (n : N) (p : DispatchProjection) : DispatchProjection :=
  mkProjection n (results p) (jobs p) (observations p).
Definition set_results (m : gmap string EventId) (p : DispatchProjection) : DispatchProjection :=
  mkProjection (through p) m (jobs p) (observations p).

(** The body of the loop of [refresh] on one event: the projection it leaves,
    and whether it failed. *)
Definition project_event (p : DispatchProjection) (e : CommittedEvent)
    : DispatchProjection * option RouterError :=
  let p := set_through (sequence e) p in
  let t := event_type (request e) in
  if String.eqb t "cognition.checkpoint" || String.eqb t "cognition.job-updated"
     || String.eqb t "cognition.observation-associated"
  then match update_cognition p e with
       | Ok p' => (p', None)
       | Err error => (p, Some error)
       end
  else
    let m := match causation_id (request e) with
             | Some req => or_insert req (event_id e) (results p)
             | None => results p
             end in
    let m := match payload_field e "requestEventId" with
             | Some req => or_insert req (event_id e) m
             | None => m
             end in
    (set_results m p, None).

(** [deferred_input]. *)
Definition DEFERRED_KEYS : list string :=
  ["provider"; "externalSenderId"; "conversationId"; "jobId"; "sessionId"; "rlmSession";
   "call_id"; "callId"; "requestEventId"; "revision"].

Definition compact_field (value : Value) (compact : list (string * Value)) (key : string)
    : list (string * Value) :=
  match value_get value key with
  | Some (Str text) => map_insert key (Str (take_chars 256 text)) compact
  | Some (Num n) => map_insert key (Num n) compact
  | Some (Bool b) => map_insert key (Bool b) compact
  | _ => compact
  end.

Definition or_else {A} (a b : option A) : option A :=
  match a with
  | Some _ => a
  | None => b
  end.

Definition string_at (o : option Value) : option string :=
  match o with
  | Some v => as_str v
  | None => None
  end.

Definition deferred_message (value : Value) : option (string * string) :=
  or_else
    (pair "text" <$> or_else (string_at (pointer value "/message/text"))
                       (string_at (value_get value "text")))
    (pair "caption" <$> or_else (string_at (pointer value "/message/caption"))
                          (string_at (value_get value "caption"))).

Definition deferred_input (source : CommittedEvent) : Value :=
  let envelope := object
    [("eventId", Str (event_id source)); ("eventType", Str (event_type (request source)));
     ("sequence", num_u64 (sequence source))] in
  match payload (request source) with
  | Blob _ => envelope
  | CanonicalJson b =>
      match from_slice b with
      | Err _ => envelope
      | Ok value =>
          let compact := foldl (compact_field value) [] DEFERRED_KEYS in
          let compact :=
            match deferred_message value with
            | Some (field, message) =>
                map_insert "source"
                  (object [("eventId", Str (event_id source)); ("payloadOmitted", Bool true)])
                  (map_insert "message" (object [(field, Str (take_chars 4096 message))]) compact)
            | None => compact
            end in
          value_set envelope "payload" (Object compact)
      end
  end.
End projection.

Section router.
Context {JS : SerdeJson} {P : Type} {CP : ConstraintPolicy P} {PR : Process}.
Context {W : Type} {ES : EventStore W}.

(** [DispatchProjection::refresh]. *)
Fixpoint project_page (page : list CommittedEvent) : Rt W unit :=
  match page with
  | [] => rt_ret tt
  | e :: page =>
      let! p := rt_projection in
      let '(p', failed) := project_event p e in
      run! rt_update (λ _, p');
      match failed with
      | Some error => rt_fail error
      | None => project_page page
      end
  end.

Fixpoint refresh (fuel : nat) (stream : StreamId) (page_size : N) : Rt W unit :=
  match fuel with
  | O => rt_fuel
  | S fuel =>
      let! p := rt_projection in
      let! page := rt_store (es_query stream (typed_query (through p) PROJECTED_TYPES)
                               (N.max page_size 1)) in
      if bool_decide (page = []) then rt_ret tt
      else run! project_page page; refresh fuel stream page_size
  end.

(** The actor of everything the router records. *)
Definition router_node (r : Router P) : PrincipalRef :=
  mkPrincipalRef Node (principal_id (router_agent r)).

Definition serialize (payload : Value) : Rt W bytes :=
  rt_lift (map_err RouterStorage (to_vec payload)).

Definition validated (r : Router P) (req : AppendRequest) : Rt W unit :=
  rt_lift (map_err (λ e, RouterStorage (registry_error_to_string e))
             (registry_validate (registry r) req)).

(** The request the router appends in answer to [source]. *)
Definition answer (r : Router P) (source : CommittedEvent) (kind schema : string) (b : bytes)
    (key : string) : AppendRequest :=
  mkAppendRequest (router_stream r) StreamAgent None kind schema (CanonicalJson b) (router_node r)
    (authority_id (request source)) (activity_id (request source))
    (correlation_id (request source)) (Some (event_id source)) (Some key).

(** [Router::owns_timer]. *)
Definition owns_timer (r : Router P) (id : string) (e : CommittedEvent) : Rt W bool :=
  if negb (String.eqb (event_type (request e)) "timer.fired") then rt_ret true
  else match payload_field e "requestEventId" with
       | None => rt_ret false
       | Some req =>
           let! found := rt_store_ok (es_get req) in
           rt_ret (match found with
                   | Some (Some set) =>
                       String.eqb (stream_id (request set)) (router_stream r)
                       && String.eqb (event_type (request set)) "timer.set"
                       && String.eqb (principal_id (actor (request set))) id
                   | _ => false
                   end)
       end.

(** [Router::recipients]. *)
Fixpoint recipients_among (r : Router P) (regs : list Registration) (e : CommittedEvent)
    : Rt W (list string) :=
  match regs with
  | [] => rt_ret []
  | reg :: regs =>
      if accepts (subscriptions reg) e then
        let! owned := owns_timer r (instance_id reg) e in
        let! rest := recipients_among r regs e in
        rt_ret (if (owned : bool) then instance_id reg :: rest else rest)
      else recipients_among r regs e
  end.

Definition recipients (r : Router P) (e : CommittedEvent) : Rt W (list string) :=
  recipients_among r (registrations r) e.

(** [Router::poll]: the loop over one page, then the loop over pages. *)
Fixpoint poll_page (r : Router P) (reg : Registration) (limit : N) (page : list CommittedEvent)
    (matched : list CommittedEvent) : Rt W (list CommittedEvent) :=
  match page with
  | [] => rt_ret matched
  | e :: page =>
      if accepts (subscriptions reg) e then
        let! owned := owns_timer r (instance_id reg) e in
        if (owned : bool) then
          let matched := matched ++ [e] in
          if (len matched =? limit)%N then rt_ret matched
          else poll_page r reg limit page matched
        else poll_page r reg limit page matched
      else poll_page r reg limit page matched
  end.

Fixpoint poll_loop (fuel : nat) (r : Router P) (reg : Registration) (wildcard : bool)
    (ts : list string) (limit after : N) (matched : list CommittedEvent)
    : Rt W (list CommittedEvent) :=
  match fuel with
  | O => rt_fuel
  | S fuel =>
      if (len matched <? limit)%N then
        let! page := rt_store (if wildcard then es_read (router_stream r) after limit
                               else es_query (router_stream r) (typed_query after ts) limit) in
        match last page with
        | None => rt_ret matched
        | Some e =>
            let! matched := poll_page r reg limit page matched in
            poll_loop fuel r reg wildcard ts limit (sequence e) matched
        end
      else rt_ret matched
  end.

Definition polled_types (s : Subscriptions) : list string :=
  sub_event_types s
  ++ (if bool_decide (capabilities s = []) then [] else ["capability.requested"])
  ++ (if bool_decide (models s = []) then [] else ["model.requested"]).

Definition has_star (pattern : string) : bool := str_contains "*" pattern.

Definition find_registration (r : Router P) (id : string) : option Registration :=
  find (λ reg, String.eqb (instance_id reg) id) (registrations r).

Definition poll (fuel : nat) (r : Router P) (id : string) (checkpoint limit : N)
    : Rt W (list CommittedEvent) :=
  let! reg := rt_lift (ok_or (find_registration r id) (UnknownInstance id)) in
  let ts := polled_types (subscriptions reg) in
  let wildcard := whole_stream (subscriptions reg) || existsb has_star ts in
  if negb wildcard && bool_decide (ts = []) then rt_ret []
  else poll_loop fuel r reg wildcard ts limit checkpoint [].

(** [Router::append_decision]. *)
Definition decision_payload (e : CommittedEvent) (capability : string) (routed : Routed) : Value :=
  object
    [("capability", Str capability);
     ("allowed", Bool (match routed with Deliver _ => true | _ => false end));
     ("provider", match routed with Deliver id => Str id | _ => Null end);
     ("reason", match routed with
                | Deliver _ => Null
                | NoProvider why | Denied why => Str why
                end);
     ("requestEventId", Str (event_id e))].

Definition append_decision (r : Router P) (e : CommittedEvent) (capability : string)
    (routed : Routed) : Rt W unit :=
  let! b := serialize (decision_payload e capability routed) in
  let req := answer r e "policy.decision" "pluribus.policy-decision/1" b
               ("policy:" +:+ event_id e) in
  run! validated r req;
  run! rt_store (es_append req);
  rt_ret tt.

(** [Router::route_request]. *)
Definition request_arguments (e : CommittedEvent) : Value :=
  match payload (request e) with
  | CanonicalJson b => match from_slice b with
                       | Ok v => value_index v "arguments"
                       | Err _ => Null
                       end
  | Blob _ => Null
  end.

Definition candidates (r : Router P) (capability : string) : list Registration :=
  filter (λ reg, str_mem capability (capabilities (subscriptions reg)) = true) (registrations r).

Definition route_decision (r : Router P) (e : CommittedEvent) (a : Authority)
    (now_ms : Z) (capability : string) : Routed :=
  match candidates r capability with
  | [reg] =>
      let policy := mkProjectedConstraints (router_constraints r)
                      (constraint_bindings (subscriptions reg) !! capability) in
      match decide_request a capability (mkPrincipalRef Component (instance_id reg))
              (String.list_byte_of_string (to_string (request_arguments e))) policy now_ms with
      | Allow _ => Deliver (instance_id reg)
      | Deny reason => Denied (denial_reason reason)
      end
  | [] => NoProvider ("no instance provides " +:+ capability)
  | _ => NoProvider ("multiple providers for " +:+ capability)
  end.

Definition route_request (r : Router P) (e : CommittedEvent) (a : Authority) (now_ms : Z)
    : Rt W Routed :=
  match payload_field e "capability" with
  | None => rt_ret (NoProvider "request has no capability name")
  | Some capability =>
      let routed := route_decision r e a now_ms capability in
      run! append_decision r e capability routed;
      rt_ret routed
  end.

(** [Router::append_denial]. *)
Definition append_denial (r : Router P) (e : CommittedEvent) (why : string)
    : Rt W CommittedEvent :=
  let! b := serialize (object [("requestEventId", Str (event_id e)); ("reason", Str why)]) in
  rt_store (es_append (answer r e "capability.denied" "pluribus.capability-denied/1" b
                         ("denied:" +:+ event_id e))).

(** [Router::append_component_failure]. *)
Definition append_component_failure (r : Router P) (id : string) (batch : list CommittedEvent)
    (why : string) : Rt W CommittedEvent :=
  let last := last batch in
  let! b := serialize (object
    [("instanceId", Str id); ("reason", Str why);
     ("deliveredFrom", opt_num_u64 (sequence <$> head batch));
     ("deliveredThrough", opt_num_u64 (sequence <$> last))]) in
  rt_store (es_append (mkAppendRequest (router_stream r) StreamAgent None "component.failed"
    "pluribus.component-failed/1" (CanonicalJson b) (router_node r)
    (match last with Some e => authority_id (request e) | None => None end)
    (match last with Some e => activity_id (request e) | None => None end)
    (match last with Some e => correlation_id (request e) | None => None end)
    (event_id <$> last)
    ((λ e, "component-failed:" +:+ id +:+ ":" +:+ u64_to_string (sequence e)) <$> last))).

(** [Router::resource_exhaustion_request]. *)
Definition resource_exhaustion_request (r : Router P) (id : string) (source : CommittedEvent)
    (remaining_attempts : N) (resource : Value) (effect_status checkpoint_status : string)
    (job_id session_id : option string) : Rt W AppendRequest :=
  let! b := serialize (object
    [("instanceId", Str id);
     ("requestEventId", Str (event_id source));
     ("inputEventId", Str (event_id source));
     ("input", deferred_input source);
     ("jobId", opt_str (or_else job_id (payload_field source "jobId")));
     ("sessionId", opt_str (or_else session_id (payload_field source "sessionId")));
     ("code", Str "resource-exhausted");
     ("resource", resource);
     ("remainingAttempts", num_u64 remaining_attempts);
     ("effectStatus", Str effect_status);
     ("checkpointStatus", Str checkpoint_status);
     ("deferred", Bool true)]) in
  let req := answer r source "cognition.resource-exhausted"
               "pluribus.cognition-resource-exhausted/1" b
               ("cognition-resource-exhausted:" +:+ id +:+ ":" +:+ event_id source) in
  run! validated r req;
  rt_ret req.

(** [Router::append_resource_exhaustion]. *)
Definition append_resource_exhaustion (r : Router P) (id : string) (source : CommittedEvent)
    (remaining_attempts : N) (resource : Value) (effect_status checkpoint_status : string)
    (job_id session_id : option string) : Rt W CommittedEvent :=
  let! req := resource_exhaustion_request r id source remaining_attempts resource effect_status
                checkpoint_status job_id session_id in
  rt_store (es_append req).

(** [Router::append_health]. *)
Definition append_health (r : Router P) (kind : string) (payload : Value) : Rt W CommittedEvent :=
  let! b := serialize payload in
  rt_store (es_append (mkAppendRequest (router_stream r) StreamAgent None kind
    "pluribus.component-health/1" (CanonicalJson b) (router_node r) None None None None None)).
(** [Router::attempt_event]. *)
Definition attempt_schema (kind : string) : string :=
  if starts_with "activity." kind then "pluribus.activity-attempt/1"
  else "pluribus.activity-failure/1".

Definition attempt_event (r : Router P) (source : CommittedEvent) (kind : string) (payload : Value)
    (key : string) : Rt W CommittedEvent :=
  let! b := serialize payload in
  let req := answer r source kind (attempt_schema kind) b key in
  run! validated r req;
  rt_store (es_append req).

(** [Router::revision_current]: the loop over the whole-stream instances. *)
Fixpoint revision_among (p : DispatchProjection) (regs : list Registration) (job_id : string)
    (revision : Z) : bool :=
  match regs with
  | [] => true
  | reg :: regs =>
      let a := instance_id reg in
      if is_some_and (observations p !! a) (λ pending, negb (bool_decide (pending = ∅))) then false
      else match jobs p !! (a, job_id) with
           | Some (current, status) =>
               (current =? revision)%Z
               && negb (str_mem status ["cancelled"; "waiting-input"])
           | None => revision_among p regs job_id revision
           end
  end.

Definition revision_current (fuel : nat) (r : Router P) (req : CommittedEvent) : Rt W bool :=
  match payload_field req "jobId" with
  | None => rt_ret true
  | Some job_id =>
      match json_number req "revision" with
      | None => rt_ret false
      | Some revision =>
          run! refresh fuel (router_stream r) 1000;
          let! p := rt_projection in
          rt_ret (revision_among p
            (filter (λ reg, whole_stream (subscriptions reg) = true) (registrations r))
            job_id revision)
      end
  end.

(** [Router::expired]. *)
Definition expired_kind (t : string) : option string :=
  if String.eqb t "capability.requested" then Some "capability.timed-out"
  else if String.eqb t "model.requested" then Some "model.failed"
  else if String.eqb t "code.evaluate-requested" then Some "code.failed"
  else None.

Definition expired (r : Router P) (req : CommittedEvent) (now_ms : Z) : Rt W bool :=
  if is_none_or (json_number req "deadlineAtMs") (λ deadline, now_ms <? deadline)%Z
  then rt_ret false
  else match expired_kind (event_type (request req)) with
       | None => rt_ret false
       | Some kind =>
           run! attempt_event r req kind (object
             [("requestEventId", Str (event_id req));
              ("call_id", opt_str (payload_field req "call_id"));
              ("sessionId", opt_str (payload_field req "sessionId"));
              ("code", Str "deadline-exceeded");
              ("reason", Str "request deadline expired before admission")])
             ("expired:" +:+ event_id req);
           rt_ret true
       end.

(** [Router::reject_stale_code]. *)
Definition reject_stale_code (r : Router P) (req : CommittedEvent) : Rt W unit :=
  run! attempt_event r req "code.failed" (object
    [("requestEventId", Str (event_id req));
     ("sessionId", opt_str (payload_field req "sessionId"));
     ("reason", Str "job revision changed before cell admission")])
    ("stale:" +:+ event_id req);
  rt_ret tt.

(** [Router::result_for]. *)
Definition result_for (fuel : nat) (r : Router P) (req : EventId) : Rt W (option CommittedEvent) :=
  run! refresh fuel (router_stream r) 1000;
  let! p := rt_projection in
  match results p !! req with
  | None => rt_ret None
  | Some id => rt_store (es_get id)
  end.

(** [Router::cancel_attempt]. *)
Definition cancelled_kind (t : string) : option string :=
  if String.eqb t "capability.requested" then Some "capability.cancelled"
  else if String.eqb t "model.requested" then Some "model.failed"
  else if String.eqb t "code.evaluate-requested" || String.eqb t "code.resumed"
  then Some "code.failed"
  else None.

Definition cancel_attempt (fuel : nat) (r : Router P) (req : CommittedEvent) : Rt W unit :=
  match cancelled_kind (event_type (request req)) with
  | None => rt_ret tt
  | Some kind =>
      let! existing := result_for fuel r (event_id req) in
      if opt_is_some existing then rt_ret tt
      else
        run! attempt_event r req kind (object
          [("requestEventId", Str (event_id req));
           ("call_id", opt_str (payload_field req "call_id"));
           ("sessionId", opt_str (payload_field req "sessionId"));
           ("code", Str "cancelled"); ("outcome", Str "unknown");
           ("reason", Str
             "activity cancelled; effects may have occurred; reconcile before retrying")])
          ("cancelled:" +:+ event_id req);
        rt_ret tt
  end.

(** [Router::fail_sessions_with_resource]: the scan, the batch, the failures. *)
Definition SESSION_TYPES : list string := ["code.yielded"; "code.completed"; "code.failed"].

Definition session_event (prov : string) (pending : list (string * CommittedEvent))
    (e : CommittedEvent) : list (string * CommittedEvent) :=
  match payload_field e "sessionId" with
  | None => pending
  | Some session =>
      if String.eqb (event_type (request e)) "code.yielded" then
        if String.eqb (principal_id (actor (request e))) prov
        then map_insert session e pending else pending
      else map_remove session pending
  end.

Fixpoint scan_sessions (fuel : nat) (r : Router P) (prov : string) (after : N)
    (pending : list (string * CommittedEvent)) : Rt W (list (string * CommittedEvent)) :=
  match fuel with
  | O => rt_fuel
  | S fuel =>
      let! page := rt_store (es_query (router_stream r) (typed_query after SESSION_TYPES) 100) in
      match last page with
      | None => rt_ret pending
      | Some e =>
          scan_sessions fuel r prov (sequence e) (foldl (session_event prov) pending page)
      end
  end.

Definition batch_session (pending : list (string * CommittedEvent)) (e : CommittedEvent)
    : list (string * CommittedEvent) :=
  if String.eqb (event_type (request e)) "code.evaluate-requested"
     || String.eqb (event_type (request e)) "code.resumed"
  then map_insert (default "default" (payload_field e "sessionId")) e pending
  else pending.

Definition session_failure (session : string) (source : CommittedEvent)
    (resource_error : option Value) : Value :=
  let failure := object
    [("requestEventId", Str (event_id source)); ("sessionId", Str session);
     ("code", Str "outcome-unknown");
     ("reason", Str
       "session was lost after a component trap; reconcile effects before retrying")] in
  match resource_error with
  | Some error =>
      value_set (value_set failure "resourceError" error) "effectStatus" (Str "outcome-unknown")
  | None => failure
  end.

Fixpoint fail_pending (r : Router P) (pending : list (string * CommittedEvent))
    (resource_error : option Value) : Rt W unit :=
  match pending with
  | [] => rt_ret tt
  | (session, source) :: pending =>
      run! attempt_event r source "code.failed" (session_failure session source resource_error)
             ("session-lost:" +:+ event_id source);
      fail_pending r pending resource_error
  end.

Definition fail_sessions_with_resource (fuel : nat) (r : Router P) (prov : string)
    (batch : list CommittedEvent) (resource_error : option Value) : Rt W unit :=
  let! pending := scan_sessions fuel r prov 0 [] in
  fail_pending r (foldl batch_session pending batch) resource_error.

(** [Router::fail_sessions]. *)
Definition fail_sessions (fuel : nat) (r : Router P) (prov : string)
    (batch : list CommittedEvent) : Rt W unit :=
  fail_sessions_with_resource fuel r prov batch None.

(** [Router::admit_attempt]. *)
Definition attempt_key (req : CommittedEvent) : string := "attempt:" +:+ event_id req.

(** The loop: whether an attempt caused by the request is in the log. *)
Fixpoint attempted (fuel : nat) (r : Router P) (req : CommittedEvent) (after : N) : Rt W bool :=
  match fuel with
  | O => rt_fuel
  | S fuel =>
      let! page := rt_store (es_query (router_stream r)
                               (typed_query after ["activity.attempted"]) 100) in
      match last page with
      | None => rt_ret false
      | Some e =>
          if existsb (λ e, bool_decide (causation_id (request e) = Some (event_id req))) page
          then rt_ret true
          else attempted fuel r req (sequence e)
      end
  end.

Definition classification (r : Router P) (req : CommittedEvent) (prov : string) : option string :=
  match find_registration r prov with
  | None => None
  | Some reg =>
      match payload_field req "capability" with
      | None => None
      | Some capability => sub_idempotency (subscriptions reg) !! capability
      end
  end.

(** An attempt is in the log: re-run it when that is harmless, otherwise
    report it as unknown. *)
Definition interrupted_kind (t : string) : string :=
  if String.eqb t "model.requested" then "model.failed"
  else if String.eqb t "code.evaluate-requested" then "code.failed"
  else "capability.failed".

Definition readmit (r : Router P) (req : CommittedEvent) (prov : string) : Rt W bool :=
  if is_some_and (classification r req prov) (λ kind, String.eqb kind "inherent")
  then rt_ret true
  else
    run! attempt_event r req "activity.unknown" (object
      [("requestEventId", Str (event_id req)); ("provider", Str prov);
       ("attemptId", Str (attempt_key req)); ("status", Str "unknown")])
      ("unknown:" +:+ event_id req);
    run! attempt_event r req (interrupted_kind (event_type (request req))) (object
      [("requestEventId", Str (event_id req));
       ("call_id", opt_str (payload_field req "call_id"));
       ("sessionId", opt_str (payload_field req "sessionId"));
       ("code", Str "outcome-unknown");
       ("message", Str
         "admitted attempt has no committed outcome; reconciliation required")])
      ("interrupted:" +:+ event_id req);
    rt_ret false.

(** The claim: process id, wall clock, process-wide counter. *)
Definition u128_to_string (n : N) : string := digits_go 39 n "".

Definition fresh_claim : Rt W string := λ s,
  (Return (u64_to_string process_id +:+ ":" +:+ u128_to_string (wall_nanos (wall_reads s))
           +:+ ":" +:+ u64_to_string (claim_counter s)),
   mkRState (store s) (projection s) ((claim_counter s + 1) mod 2 ^ 64) (S (wall_reads s))).

Definition claim_payload (r : Router P) (req : CommittedEvent) (prov claim : string) : Value :=
  object
    [("admissionClaim", Str claim); ("requestEventId", Str (event_id req));
     ("provider", Str prov); ("attemptId", Str (attempt_key req)); ("status", Str "running");
     ("jobId", opt_str (payload_field req "jobId"));
     ("revision", opt_num_i64 (json_number req "revision"));
     ("idempotency", Str (default "non-idempotent" (classification r req prov)));
     ("idempotencyKey", opt_str (deduplication_key (request req)));
     ("deadlineAtMs", opt_num_i64 (json_number req "deadlineAtMs"));
     ("cancellation", Str "not-requested")].

(** Appends the claim; the admission is ours when the committed event carries
    it. *)
Definition claim_attempt (r : Router P) (req : CommittedEvent) (prov claim : string) : Rt W bool :=
  let! admitted := attempt_event r req "activity.attempted" (claim_payload r req prov claim)
                     (attempt_key req) in
  rt_ret (bool_decide (payload_field admitted "admissionClaim" = Some claim)).

Definition admit_attempt (fuel : nat) (r : Router P) (req : CommittedEvent) (prov : string)
    : Rt W bool :=
  let! seen := attempted fuel r req 0 in
  if (seen : bool) then readmit r req prov
  else
    let! claim := fresh_claim in
    claim_attempt r req prov claim.

(** [Router::authorized_for]. *)
Fixpoint authorized_loop (fuel : nat) (r : Router P) (req : EventId) (prov : string) (after : N)
    : Rt W bool :=
  match fuel with
  | O => rt_fuel
  | S fuel =>
      let! page := rt_store (es_query (router_stream r) (typed_query after ["policy.decision"]) 1000) in
      match last page with
      | None => rt_ret false
      | Some e =>
          match find (λ e, bool_decide (causation_id (request e) = Some req)) page with
          | Some decision =>
              rt_ret (bool_decide (payload_field decision "provider" = Some prov))
          | None => authorized_loop fuel r req prov (sequence e)
          end
      end
  end.

Definition authorized_for (fuel : nat) (r : Router P) (req : EventId) (prov : string) : Rt W bool :=
  authorized_loop fuel r req prov 0.
End router.
