(* ===== verification/RouterLoops.v ===== *)
(** Reasoning about runs of the router: a weakest precondition for its monad,
    what each call of the store contributes, and its loops over pages. *)
From stdpp Require Import base tactics option list strings sorting gmap.
From Stdlib Require Import ZArith NArith Lia Ascii.
From S2P Require Import Prelude Event EventStore Registry Authority Utf8 Json Manifest Router.

Lemma typed_query_plain after ts : plain_query (typed_query after ts).
Proof. done. Qed.

Lemma log_query_typed log s after ts :
  ts ≠ [] → log_query log s (typed_query after ts) = newer (of_types log s ts) after.
Proof.
  intros Hts. unfold log_query, newer, of_types. rewrite list_filter_filter.
  apply list_filter_iff. intros e. rewrite matches_spec. simpl. naive_solver.
Qed.

Section wp.
Context {W : Type} {ES : EventStore W} {EL : EventStoreLaws W}.
Implicit Types (s : RState W).

Definition log_of s : list CommittedEvent := es_log (store s).

(** The run returns a result that satisfies [Q] or fails in a state that
    satisfies [R]; it does not run out of fuel. *)
Definition wp {A} (m : Rt W A) s (Q : A → RState W → Prop) (R : RState W → Prop) : Prop :=
  match m s with
  | (Return a, s') => Q a s'
  | (Fail_ _, s') => R s'
  | (OutOfFuel, _) => False
  end.

Lemma wp_bind {A B} (m : Rt W A) (k : A → Rt W B) s Q R :
  wp m s (λ a s', wp (k a) s' Q R) R → wp (rt_bind m k) s Q R.
Proof. unfold wp, rt_bind. by destruct (m s) as [[] ?]. Qed.

Lemma wp_mono {A} (m : Rt W A) s (Q Q' : A → RState W → Prop) (R R' : RState W → Prop) :
  wp m s Q R → (∀ a s', Q a s' → Q' a s') → (∀ s', R s' → R' s') → wp m s Q' R'.
Proof. unfold wp. destruct (m s) as [[] ?]; auto. Qed.

(** What holds in every state a run may end in. *)
Lemma wp_state {A} (m : Rt W A) s (I : RState W → Prop) (Q : A → RState W → Prop) R :
  wp m s Q R → (∀ a s', Q a s' → I s') → (∀ s', R s' → I s') → I (m s).2.
Proof. unfold wp. destruct (m s) as [[] ?]; simpl; [eauto|eauto|done]. Qed.

Lemma wp_ret {A} (a : A) s (Q : A → RState W → Prop) R : Q a s → wp (rt_ret a) s Q R.
Proof. done. Qed.

Lemma wp_projection s (Q : DispatchProjection → RState W → Prop) R :
  Q (projection s) s → wp rt_projection s Q R.
Proof. done. Qed.

Lemma wp_lift {A} (r : result A RouterError) s (Q : A → RState W → Prop) (R : RState W → Prop) :
  (∀ a, r = Ok a → Q a s) → R s → wp (rt_lift r) s Q R.
Proof. destruct r; intros HQ HR; [by apply HQ|done]. Qed.

(** Only the store moved, and its log did not. *)
Definition kept s s' : Prop :=
  es_inv (store s') ∧ log_of s' = log_of s ∧ projection s' = projection s ∧
  claim_counter s' = claim_counter s ∧ wall_reads s' = wall_reads s.

Lemma kept_refl s : es_inv (store s) → kept s s.
Proof. done. Qed.

Lemma kept_trans s1 s2 s3 : kept s1 s2 → kept s2 s3 → kept s1 s3.
Proof. intros (? & ? & ? & ? & ?) (? & ? & ? & ? & ?). split_and!; congruence. Qed.

Lemma wp_read st after limit s (Q : list CommittedEvent → RState W → Prop) (R : RState W → Prop) :
  es_inv (store s) →
  (∀ s', kept s s' → Q (take (N.to_nat limit) (newer (in_stream (log_of s) st) after)) s') →
  (∀ s', kept s s' → R s') →
  wp (rt_store (es_read st after limit)) s Q R.
Proof.
  intros Hi HQ HR. unfold wp, rt_store. destruct (es_read st after limit (store s)) as [r w] eqn:E.
  pose proof (es_read_state _ _ _ _ _ _ Hi E) as [Hw Hl].
  destruct r as [es|err]; [|by apply HR].
  pose proof (es_read_ok _ _ _ _ _ _ Hi E) as ->. by apply HQ.
Qed.

Lemma wp_query st q limit s (Q : list CommittedEvent → RState W → Prop) (R : RState W → Prop) :
  es_inv (store s) → plain_query q →
  (∀ s', kept s s' → Q (take (N.to_nat limit) (log_query (log_of s) st q)) s') →
  (∀ s', kept s s' → R s') →
  wp (rt_store (es_query st q limit)) s Q R.
Proof.
  intros Hi Hq HQ HR. unfold wp, rt_store. destruct (es_query st q limit (store s)) as [r w] eqn:E.
  pose proof (es_query_state _ _ _ _ _ _ Hi E) as [Hw Hl].
  destruct r as [es|err]; [|by apply HR].
  pose proof (es_query_ok _ _ _ _ _ _ Hi Hq E) as ->. by apply HQ.
Qed.

Definition find_id (log : list CommittedEvent) (id : EventId) : option CommittedEvent :=
  find (λ e, String.eqb (event_id e) id) log.

Lemma wp_get id s (Q : option CommittedEvent → RState W → Prop) (R : RState W → Prop) :
  es_inv (store s) →
  (∀ s', kept s s' → Q (find_id (log_of s) id) s') → (∀ s', kept s s' → R s') →
  wp (rt_store (es_get id)) s Q R.
Proof.
  intros Hi HQ HR. unfold wp, rt_store. destruct (es_get id (store s)) as [r w] eqn:E.
  pose proof (es_get_state _ _ _ _ Hi E) as [Hw Hl].
  destruct r as [o|err]; [|by apply HR].
  pose proof (es_get_ok _ _ _ _ Hi E) as ->. by apply HQ.
Qed.

(** An append moves the log by one [log_append]. *)
Lemma wp_append req s (Q : CommittedEvent → RState W → Prop) (R : RState W → Prop) :
  es_inv (store s) → request_typed req →
  (∀ e s', es_inv (store s') → log_append (log_of s) req e (log_of s') →
     projection s' = projection s → claim_counter s' = claim_counter s →
     wall_reads s' = wall_reads s → Q e s') →
  (∀ s', kept s s' → R s') →
  wp (rt_store (es_append req)) s Q R.
Proof.
  intros Hi Ht HQ HR. unfold wp, rt_store. destruct (es_append req (store s)) as [r w] eqn:E.
  destruct r as [e|err].
  - pose proof (es_append_ok _ _ _ _ Hi Ht E) as [Hw Hl]. by apply HQ.
  - pose proof (es_append_err _ _ _ _ Hi Ht E) as [Hw Hl]. by apply HR.
Qed.
End wp.

Section loops.
Context {JS : SerdeJson} {P : Type} {CP : ConstraintPolicy P} {PR : Process}.
Context {W : Type} {ES : EventStore W} {EL : EventStoreLaws W}.
Implicit Types (s : RState W) (r : Router P).

(** One page of typed events, then the rest: the step shared by the loops. *)
Lemma wp_typed_page {A} st ts limit s after (k : list CommittedEvent → Rt W A) Q R :
  es_inv (store s) → ts ≠ [] → (0 < limit)%N →
  (∀ s', kept s s' → R s') →
  (∀ s', kept s s' → newer (of_types (log_of s) st ts) after = [] → wp (k []) s' Q R) →
  (∀ s' page e, kept s s' → last page = Some e →
     newer (of_types (log_of s) st ts) after
       = page ++ newer (of_types (log_of s) st ts) (sequence e) →
     wp (k page) s' Q R) →
  wp (rt_bind (rt_store (es_query st (typed_query after ts) limit)) k) s Q R.
Proof.
  intros Hi Hts Hlim HR Hnil Hcons. apply wp_bind, wp_query; [done|apply typed_query_plain| |done].
  intros s' Hk. rewrite log_query_typed by done. set (L := of_types (log_of s) st ts) in *.
  assert (StronglySorted seq_lt L) as HL by by apply of_types_sorted, es_log_invariant.
  destruct (last (take (N.to_nat limit) (newer L after))) as [e|] eqn:El.
  - apply (Hcons s' _ e); [done|done|]. rewrite (newer_next _ _ _ _ HL El). by rewrite take_drop.
  - apply newer_empty_page in El; [|lia]. rewrite El, take_nil. by apply Hnil.
Qed.

Lemma page_progress (l page rest : list CommittedEvent) e fuel :
  l = page ++ rest → last page = Some e → length l < S fuel → length rest < fuel.
Proof.
  intros -> He. rewrite length_app. destruct page; [done|]. simpl. lia.
Qed.

(** *** [attempted] *)

Definition caused_by (id : EventId) (e : CommittedEvent) : bool :=
  bool_decide (causation_id (request e) = Some id).

Lemma attempted_wp fuel r req after s Q (R : RState W → Prop) :
  let L := of_types (log_of s) (router_stream r) ["activity.attempted"] in
  es_inv (store s) → length (newer L after) < fuel →
  (∀ s', kept s s' → Q (existsb (caused_by (event_id req)) (newer L after)) s') →
  (∀ s', kept s s' → R s') →
  wp (attempted fuel r req after) s Q R.
Proof.
  revert after s. induction fuel as [|fuel IH]; intros after s L Hi Hf HQ HR; [lia|]. simpl.
  apply wp_typed_page; [done|done|done|done| |].
  - intros s' Hk Hnil. apply wp_ret. fold L in Hnil. specialize (HQ s' Hk). by rewrite Hnil in HQ.
  - intros s' page e Hk He Hpage. fold L in Hpage. rewrite He.
    rewrite Hpage, existsb_app in HQ. destruct (existsb _ page) eqn:Ep.
    + apply wp_ret. by apply HQ.
    + destruct Hk as (Hi' & Hl & Hk). apply IH; rewrite ?Hl; fold L; [done| | |].
      * by eapply page_progress.
      * intros s'' Hk'. apply HQ. eapply kept_trans; [|done]. done.
      * intros s'' Hk'. apply HR. eapply kept_trans; [|done]. done.
Qed.

(** *** [authorized_for] *)

(** The verdict of the first decision about a request. *)
Definition first_verdict (l : list CommittedEvent) (req : EventId) (prov : string) : bool :=
  match find (caused_by req) l with
  | Some decision => bool_decide (payload_field decision "provider" = Some prov)
  | None => false
  end.

Lemma find_app {A} (p : A → bool) l1 l2 :
  find p (l1 ++ l2) = match find p l1 with Some x => Some x | None => find p l2 end.
Proof. induction l1 as [|x l1 IH]; simpl; [done|]. by destruct (p x). Qed.

Lemma authorized_loop_wp fuel r req prov after s Q (R : RState W → Prop) :
  let L := of_types (log_of s) (router_stream r) ["policy.decision"] in
  es_inv (store s) → length (newer L after) < fuel →
  (∀ s', kept s s' → Q (first_verdict (newer L after) req prov) s') →
  (∀ s', kept s s' → R s') →
  wp (authorized_loop fuel r req prov after) s Q R.
Proof.
  revert after s. induction fuel as [|fuel IH]; intros after s L Hi Hf HQ HR; [lia|]. simpl.
  apply wp_typed_page; [done|done|done|done| |].
  - intros s' Hk Hnil. apply wp_ret. fold L in Hnil. specialize (HQ s' Hk). by rewrite Hnil in HQ.
  - intros s' page e Hk He Hpage. fold L in Hpage. rewrite He.
    unfold first_verdict in HQ. rewrite Hpage, find_app in HQ. fold (caused_by req).
    change (λ e, bool_decide (causation_id (request e) = Some req)) with (caused_by req).
    destruct (find _ page) as [d|] eqn:Ep.
    + apply wp_ret. by apply HQ.
    + destruct Hk as (Hi' & Hl & Hk). apply IH; rewrite ?Hl; fold L; [done| | |].
      * by eapply page_progress.
      * intros s'' Hk'. apply HQ. eapply kept_trans; [|done]. done.
      * intros s'' Hk'. apply HR. eapply kept_trans; [|done]. done.
Qed.

(** *** [fail_sessions]: the scan *)

Lemma scan_sessions_wp fuel r prov after pending s Q (R : RState W → Prop) :
  let L := of_types (log_of s) (router_stream r) SESSION_TYPES in
  es_inv (store s) → length (newer L after) < fuel →
  (∀ s', kept s s' → Q (foldl (session_event prov) pending (newer L after)) s') →
  (∀ s', kept s s' → R s') →
  wp (scan_sessions fuel r prov after pending) s Q R.
Proof.
  revert after pending s. induction fuel as [|fuel IH]; intros after pending s L Hi Hf HQ HR; [lia|].
  simpl. apply wp_typed_page; [done|done|done|done| |].
  - intros s' Hk Hnil. apply wp_ret. fold L in Hnil. specialize (HQ s' Hk). by rewrite Hnil in HQ.
  - intros s' page e Hk He Hpage. fold L in Hpage. rewrite He.
    rewrite Hpage, foldl_app in HQ. destruct Hk as (Hi' & Hl & Hk).
    apply IH; rewrite ?Hl; fold L; [done| | |].
    + by eapply page_progress.
    + intros s'' Hk'. apply HQ. eapply kept_trans; [|done]. done.
    + intros s'' Hk'. apply HR. eapply kept_trans; [|done]. done.
Qed.
(** *** [refresh] *)

(** One event on the projection; a payload that does not parse is skipped. *)
Definition project_step (p : DispatchProjection) (e : CommittedEvent) : DispatchProjection :=
  (project_event p e).1.

Lemma update_cognition_through p e p' : update_cognition p e = Ok p' → through p' = through p.
Proof.
  unfold update_cognition. intros H. repeat (case_match; res_inv; simplify_eq/=; try done).
Qed.

Lemma project_step_through p e : through (project_step p e) = sequence e.
Proof.
  unfold project_step, project_event.
  destruct (_ || _ || _); [|by destruct (causation_id _), (payload_field _ _)].
  destruct (update_cognition _ e) as [p'|] eqn:E; [|done].
  by apply update_cognition_through in E.
Qed.

(** Only the projection moved. *)
Definition moved s s' (p : DispatchProjection) : Prop :=
  es_inv (store s') ∧ log_of s' = log_of s ∧ projection s' = p ∧
  claim_counter s' = claim_counter s ∧ wall_reads s' = wall_reads s.

Lemma project_page_wp page s Q (R : RState W → Prop) :
  es_inv (store s) →
  (∀ s', moved s s' (foldl project_step (projection s) page) → Q tt s') →
  (∀ s' pre post, page = pre ++ post →
     moved s s' (foldl project_step (projection s) pre) → R s') →
  wp (project_page page) s Q R.
Proof.
  revert s. induction page as [|e page IH]; intros s Hi HQ HR; simpl; [by apply wp_ret, HQ|].
  apply wp_bind, wp_projection. unfold project_step in HQ, HR. simpl in HQ.
  destruct (project_event (projection s) e) as [p' failed] eqn:E. apply wp_bind.
  cbn [fst] in HQ. unfold wp at 1. cbn [rt_update].
  set (s1 := mkRState (store s) p' (claim_counter s) (wall_reads s)).
  destruct failed as [error|].
  - apply (HR s1 [e] page); [done|]. simpl. by rewrite E.
  - apply IH; [done| |].
    + intros s' Hm. by apply HQ.
    + intros s' pre post -> Hm. apply (HR s' (e :: pre) post); [done|]. simpl. by rewrite E.
Qed.

Lemma foldl_through p page e :
  last page = Some e → through (foldl project_step p page) = sequence e.
Proof.
  intros [l ->]%last_Some. rewrite foldl_app. simpl. apply project_step_through.
Qed.

Lemma refresh_wp fuel st n s Q (R : RState W → Prop) :
  let L := of_types (log_of s) st PROJECTED_TYPES in
  es_inv (store s) → length (newer L (through (projection s))) < fuel →
  (∀ s', moved s s' (foldl project_step (projection s) (newer L (through (projection s)))) → Q tt s') →
  (∀ s' pre post, newer L (through (projection s)) = pre ++ post →
     moved s s' (foldl project_step (projection s) pre) → R s') →
  wp (refresh fuel st n) s Q R.
Proof.
  revert s. induction fuel as [|fuel IH]; intros s L Hi Hf HQ HR; [lia|]. simpl.
  apply wp_bind, wp_projection. apply wp_typed_page; [done|done|lia| | |].
  - intros s' (Hi' & Hl & Hp & Hc & Hw). by eapply (HR s' []).
  - intros s' (Hi' & Hl & Hp & Hc & Hw) Hnil. fold L in Hnil. rewrite bool_decide_true by done.
    apply wp_ret, HQ. by rewrite Hnil.
  - intros s' page e (Hi' & Hl & Hp & Hc & Hw) He Hpage. fold L in Hpage.
    rewrite bool_decide_false by (by intros ->). apply wp_bind.
    apply project_page_wp; [done| |].
    + intros s1 (Hi1 & Hl1 & Hp1 & Hc1 & Hw1). rewrite Hp in Hp1.
      assert (through (projection s1) = sequence e) as Ht by (rewrite Hp1; by apply foldl_through).
      apply IH; rewrite ?Hl1, ?Hl, ?Ht; fold L; [done| | |].
      * by eapply page_progress.
      * intros s2 (Hi2 & Hl2 & Hp2 & Hc2 & Hw2). apply HQ. rewrite Hp1 in Hp2.
        rewrite Hpage, foldl_app. split_and!; congruence.
      * intros s2 pre post Hpp (Hi2 & Hl2 & Hp2 & Hc2 & Hw2). rewrite Hp1 in Hp2.
        apply (HR s2 (page ++ pre) post); [by rewrite Hpage, Hpp, app_assoc|].
        rewrite foldl_app. split_and!; congruence.
    + intros s1 pre post Hpp (Hi1 & Hl1 & Hp1 & Hc1 & Hw1). rewrite Hp in Hp1.
      eapply (HR s1 pre); [by rewrite Hpage, Hpp, <- app_assoc|]. split_and!; congruence.
Qed.
(** *** The projection is a function of the log *)

Definition older (l : list CommittedEvent) (n : N) : list CommittedEvent :=
  filter (λ e, (sequence e ≤ n)%N) l.

Lemma older_newer l n : StronglySorted seq_lt l → older l n ++ newer l n = l.
Proof.
  induction 1 as [|e l Hl IH He]; [done|]. unfold older, newer in *. rewrite !filter_cons.
  rewrite Forall_forall in He. repeat case_decide; simpl; try lia.
  - by rewrite IH.
  - rewrite (filter_none (λ e, (sequence e ≤ n)%N)) in IH |- *; simpl in *; [by f_equal| |];
      intros x Hx; specialize (He x Hx); unfold seq_lt in He; lia.
Qed.

Lemma older_prefix l n pre post e :
  StronglySorted seq_lt l → newer l n = pre ++ post → last pre = Some e →
  older l (sequence e) = older l n ++ pre.
Proof.
  intros Hl Hn He. assert (StronglySorted seq_lt (newer l n)) as Hns by by apply filter_sorted.
  assert (last (take (length pre) (newer l n)) = Some e) as He'.
  { by rewrite Hn, take_app_length. }
  destruct (sorted_split _ _ _ Hns He') as [Hle Hgt]. rewrite Hn, take_app_length in Hle.
  rewrite Hn, drop_app_length in Hgt.
  assert (e ∈ newer l n) as Hin.
  { rewrite Hn. apply elem_of_app. left. by apply last_Some_elem_of. }
  unfold newer in Hin. apply list_elem_of_filter in Hin as [Hlt _].
  rewrite <- (older_newer l n Hl) at 1. rewrite Hn. unfold older at 1. rewrite !filter_app.
  rewrite (filter_none _ post) by (intros x Hx; specialize (Hgt x Hx); lia). rewrite app_nil_r.
  f_equal.
  - unfold older. rewrite list_filter_filter. apply list_filter_iff. intros x. lia.
  - by apply filter_all.
Qed.

(** The projection is the fold of the stream's events up to [through]. *)
Definition projected (log : list CommittedEvent) (st : StreamId) (p : DispatchProjection) : Prop :=
  let L := of_types log st PROJECTED_TYPES in
  p = foldl project_step empty_projection (older L (through p)) ∧
  (through p = 0%N ∨ ∃ e, e ∈ L ∧ sequence e = through p).

Lemma projected_empty log st : log_invariant log → projected log st empty_projection.
Proof.
  intros Hl. split; [|by left]. simpl. unfold older. rewrite filter_none; [done|].
  intros e (He & Hs & _)%of_types_elem Hle. assert (e ∈ in_stream log st) as Hi.
  { unfold in_stream. by apply list_elem_of_filter. }
  apply list_elem_of_lookup in Hi as [i Hi]. rewrite (inv_gapless _ Hl _ _ _ Hi) in Hle. lia.
Qed.

Lemma projected_prefix log st p pre post :
  log_invariant log → projected log st p →
  newer (of_types log st PROJECTED_TYPES) (through p) = pre ++ post →
  projected log st (foldl project_step p pre).
Proof.
  intros Hl [Hp Hthrough] Hn. destruct (last pre) as [e|] eqn:He.
  2: { apply last_None in He as ->. by split. }
  unfold projected. rewrite (foldl_through _ _ _ He). split.
  - rewrite (older_prefix _ (through p) pre post e); [|by apply of_types_sorted|done|done].
    by rewrite foldl_app, <- Hp.
  - right. exists e. split; [|done]. apply last_Some_elem_of in He.
    assert (e ∈ newer (of_types log st PROJECTED_TYPES) (through p)) as Hin by (rewrite Hn; set_solver).
    unfold newer in Hin. by apply list_elem_of_filter in Hin as [_ ?].
Qed.

Lemma in_stream_app l1 l2 st : in_stream (l1 ++ l2) st = in_stream l1 st ++ in_stream l2 st.
Proof. apply filter_app. Qed.

(** It stays right when the log grows. *)
Lemma projected_grow log log' st p :
  log_invariant log → log_invariant log' → log `prefix_of` log' →
  projected log st p → projected log' st p.
Proof.
  intros Hl Hl' [ext ->] [Hp Hthrough]. split.
  - rewrite Hp at 1. f_equal. unfold older, of_types. rewrite in_stream_app, !filter_app.
    rewrite (filter_none _ (filter _ (in_stream ext st))); [by rewrite app_nil_r|].
    intros x [_ Hx]%list_elem_of_filter Hle. apply list_elem_of_lookup in Hx as [i Hi].
    assert (in_stream (log ++ ext) st !! (length (in_stream log st) + i) = Some x) as Hx.
    { rewrite in_stream_app, lookup_app_r by lia. by rewrite Nat.add_comm, Nat.add_sub. }
    apply (inv_gapless _ Hl') in Hx. destruct Hthrough as [Hz|(e & He & Hseq)]; [lia|].
    apply of_types_elem in He as (He & Hs & _).
    assert (e ∈ in_stream log st) as Hin by (unfold in_stream; by apply list_elem_of_filter).
    apply list_elem_of_lookup in Hin as [j Hj]. pose proof (lookup_lt_Some _ _ _ Hj).
    apply (inv_gapless _ Hl) in Hj. lia.
  - destruct Hthrough as [|(e & He & Hseq)]; [by left|]. right. exists e. split; [|done].
    apply of_types_elem in He as (? & ? & ?). apply of_types_elem. set_solver.
Qed.

(** *** [result_for] *)

Definition COGNITION_TYPES : list string :=
  ["cognition.checkpoint"; "cognition.job-updated"; "cognition.observation-associated"].

(** The event ends the request [req]. *)
Definition answers (req : EventId) (e : CommittedEvent) : bool :=
  negb (str_mem (event_type (request e)) COGNITION_TYPES)
  && (caused_by req e || bool_decide (payload_field e "requestEventId" = Some req)).

Lemma or_insert_lookup k id m req :
  or_insert k id m !! req =
    match m !! req with
    | Some x => Some x
    | None => if bool_decide (Some k = Some req) then Some id else None
    end.
Proof.
  unfold or_insert. case_bool_decide as Hk.
  - injection Hk as ->. by destruct (m !! req) eqn:E; simplify_map_eq.
  - destruct (m !! k) eqn:E; [by destruct (m !! req)|].
    rewrite lookup_insert_ne by congruence. by destruct (m !! req).
Qed.

Lemma update_cognition_results p e p' : update_cognition p e = Ok p' → results p' = results p.
Proof.
  unfold update_cognition. intros H. repeat (case_match; res_inv; simplify_eq/=; try done).
Qed.

Lemma project_step_results p e req :
  results (project_step p e) !! req =
    match results p !! req with
    | Some x => Some x
    | None => if answers req e then Some (event_id e) else None
    end.
Proof.
  unfold project_step, project_event, answers, str_mem. cbn [existsb COGNITION_TYPES].
  rewrite orb_false_r, orb_assoc.
  destruct (_ || _ || _); simpl.
  - destruct (update_cognition _ e) as [p'|] eqn:E; simpl.
    + apply update_cognition_results in E. rewrite E. simpl. by destruct (results p !! req).
    + by destruct (results p !! req).
  - unfold caused_by. destruct (causation_id (request e)) as [c|], (payload_field e "requestEventId") as [f|];
      rewrite ?or_insert_lookup; cbn; repeat case_bool_decide; simplify_eq; try done;
      by destruct (results p !! req).
Qed.

Lemma fold_results p l req :
  results (foldl project_step p l) !! req =
    match results p !! req with
    | Some x => Some x
    | None => event_id <$> find (answers req) l
    end.
Proof.
  revert p. induction l as [|e l IH]; intros p; simpl; [by destruct (results p !! req)|].
  rewrite IH, project_step_results.
  destruct (results p !! req); [done|]. by destruct (answers req e).
Qed.

Lemma find_id_unique log e : log_invariant log → e ∈ log → find_id log (event_id e) = Some e.
Proof.
  intros Hl He. unfold find_id. destruct (find _ log) as [e'|] eqn:E.
  - apply find_some in E as [Hin%list_elem_of_In Hid%String.eqb_eq]. f_equal.
    apply list_elem_of_lookup in He as [i Hi], Hin as [j Hj].
    assert (i = j) as ->; [|congruence].
    eapply (NoDup_lookup _ _ _ (event_id e) (inv_ids _ Hl)); rewrite list_lookup_fmap.
    + by rewrite Hi.
    + by rewrite Hj, <- Hid.
  - apply list_elem_of_In in He. pose proof (find_none _ _ E e He) as Hn. cbn in Hn.
    by rewrite String.eqb_refl in Hn.
Qed.

(** The router's view of its stream is right. *)
Definition synced r s : Prop :=
  es_inv (store s) ∧ projected (log_of s) (router_stream r) (projection s).

Lemma refresh_synced fuel r n s Q (R : RState W → Prop) :
  synced r s → length (log_of s) < fuel →
  (∀ s', synced r s' → log_of s' = log_of s →
     projection s' = foldl project_step empty_projection
                       (of_types (log_of s) (router_stream r) PROJECTED_TYPES) → Q tt s') →
  (∀ s', synced r s' → log_of s' = log_of s → R s') →
  wp (refresh fuel (router_stream r) n) s Q R.
Proof.
  intros [Hi Hp] Hf HQ HR. pose proof (es_log_invariant _ Hi) as Hl.
  set (L := of_types (log_of s) (router_stream r) PROJECTED_TYPES) in *.
  assert (∀ pre post s', newer L (through (projection s)) = pre ++ post →
    moved s s' (foldl project_step (projection s) pre) → synced r s') as Hsync.
  { intros pre post s' Hn (Hi' & Hlog & Hp' & _). split; [done|]. rewrite Hlog, Hp'.
    by eapply projected_prefix. }
  apply refresh_wp; [done| | |].
  - eapply Nat.le_lt_trans; [|done]. unfold newer, of_types, in_stream.
    rewrite !length_filter. done.
  - intros s' Hm. apply HQ; [eapply (Hsync _ []); [by rewrite app_nil_r|done]|by destruct Hm as (_ & ? & _)|].
    destruct Hm as (_ & _ & -> & _). destruct Hp as [Hp _]. fold L in Hp. fold L. rewrite Hp at 1.
    rewrite <- foldl_app. by rewrite older_newer by by apply of_types_sorted.
  - intros s' pre post Hn Hm. apply HR; [by eapply Hsync|by destruct Hm as (_ & ? & _)].
Qed.

Lemma result_for_wp fuel r req s Q (R : RState W → Prop) :
  synced r s → length (log_of s) < fuel →
  (∀ s', synced r s' → log_of s' = log_of s →
     Q (find (answers req) (of_types (log_of s) (router_stream r) PROJECTED_TYPES)) s') →
  (∀ s', synced r s' → log_of s' = log_of s → R s') →
  wp (result_for fuel r req) s Q R.
Proof.
  intros Hs Hf HQ HR. apply wp_bind, refresh_synced; [done|done| |done].
  intros s1 Hs1 Hl1 Hp1. apply wp_bind, wp_projection.
  assert (∀ s2, kept s1 s2 → synced r s2 ∧ log_of s2 = log_of s) as Hk.
  { intros s2 (Hi2 & Hl2 & Hp2 & _). destruct Hs1 as [_ Hp]. unfold synced. rewrite Hl2, Hp2. by split. }
  rewrite Hp1, fold_results. cbn [results empty_projection]. rewrite lookup_empty.
  destruct (find (answers req) _) as [e|] eqn:Ef; simpl.
  - apply wp_get; [apply Hs1| |].
    + intros s2 Hk2. destruct (Hk s2 Hk2) as [Hs2 Hl2]. rewrite Hl1.
      rewrite find_id_unique; [by apply HQ|apply es_log_invariant, Hs|].
      apply find_some in Ef as [Hin%list_elem_of_In _]. by apply of_types_elem in Hin as [? _].
    + intros s2 Hk2. destruct (Hk s2 Hk2). by apply HR.
  - apply wp_ret. by apply HQ.
Qed.
(** *** [poll] *)

(** Fetching one event by its identifier does not fail. *)
Definition gets_succeed : Prop := ∀ id (w : W), es_inv w → ∃ o w', es_get id w = (Ok o, w').

(** [owns_timer] on a log. *)
Definition owns (log : list CommittedEvent) r (id : string) (e : CommittedEvent) : bool :=
  if negb (String.eqb (event_type (request e)) "timer.fired") then true
  else match payload_field e "requestEventId" with
       | None => false
       | Some req =>
           match find_id log req with
           | Some set =>
               String.eqb (stream_id (request set)) (router_stream r)
               && String.eqb (event_type (request set)) "timer.set"
               && String.eqb (principal_id (actor (request set))) id
           | None => false
           end
       end.

(** A store with this log may fail to read an event. *)
Definition get_may_fail (log : list CommittedEvent) (id : string) : Prop :=
  ∃ (w : W) e w', es_inv w ∧ es_log w = log ∧ es_get id w = (Err e, w').

(** A timer event whose request could not be read: [owns_timer] takes it for
    an event of another instance. *)
Definition unread_timer (log : list CommittedEvent) (e : CommittedEvent) : Prop :=
  event_type (request e) = "timer.fired" ∧
  ∃ req, payload_field e "requestEventId" = Some req ∧ get_may_fail log req.

Lemma owns_timer_wp r id e s (Q : bool → RState W → Prop) (R : RState W → Prop) :
  es_inv (store s) →
  (∀ s', kept s s' → Q (owns (log_of s) r id e) s') →
  (∀ s', kept s s' → unread_timer (log_of s) e → Q false s') → wp (owns_timer r id e) s Q R.
Proof.
  intros Hi HQ HF. unfold owns_timer, owns in *.
  destruct (String.eqb_spec (event_type (request e)) "timer.fired") as [Ht|]; [|by apply wp_ret, HQ].
  cbn [negb] in *.
  destruct (payload_field e "requestEventId") as [req|] eqn:Ereq; [|by apply wp_ret, HQ].
  apply wp_bind. unfold wp at 1, rt_store_ok. destruct (es_get req (store s)) as [[o|x] w] eqn:Eg; simpl;
    pose proof (es_get_state _ _ _ _ Hi Eg) as [Hw Hl].
  - pose proof (es_get_ok _ _ _ _ Hi Eg) as ->. apply wp_ret, HQ. by split_and!.
  - apply wp_ret, HF; [by split_and!|]. split; [done|]. exists req. split; [done|]. by exists (store s), x, w.
Qed.

Definition wanted (log : list CommittedEvent) r (reg : Registration) (e : CommittedEvent) : bool :=
  accepts (subscriptions reg) e && owns log r (instance_id reg) e.

(** What a poll finds in a list: the wanted events, but for timer events whose
    request could not be read. *)
Inductive found_in (log : list CommittedEvent) r (reg : Registration)
    : list CommittedEvent → list CommittedEvent → Prop :=
| found_nil : found_in log r reg [] []
| found_wanted e l f : wanted log r reg e = true → found_in log r reg l f → found_in log r reg (e :: l) (e :: f)
| found_unwanted e l f : wanted log r reg e = false → found_in log r reg l f → found_in log r reg (e :: l) f
| found_unread e l f : unread_timer log e → found_in log r reg l f → found_in log r reg (e :: l) f.

Lemma found_all log r reg l : found_in log r reg l (filter (λ e, wanted log r reg e = true) l).
Proof.
  induction l as [|e l IH]; [constructor|]. rewrite (filter_true_cons (wanted log r reg)).
  destruct (wanted log r reg e) eqn:E; by constructor.
Qed.

Lemma found_app log r reg l f l' f' :
  found_in log r reg l f → found_in log r reg l' f' → found_in log r reg (l ++ l') (f ++ f').
Proof. induction 1; intros H'; [done|..]; cbn [app]; [apply found_wanted|apply found_unwanted|apply found_unread]; auto. Qed.

(** Leaving out what is not wanted changes nothing. *)
Lemma found_filter log r reg (K : CommittedEvent → Prop) `{!∀ e, base.Decision (K e)} l f :
  (∀ e, wanted log r reg e = true → K e) → found_in log r reg (filter K l) f → found_in log r reg l f.
Proof.
  intros HK. revert f. induction l as [|e l IH]; intros f Hf; [done|]. rewrite filter_cons in Hf.
  case_decide as He.
  - inversion Hf; subst; [apply found_wanted|apply found_unwanted|apply found_unread]; auto.
  - apply found_unwanted; [|by apply IH]. apply not_true_iff_false. auto.
Qed.

Lemma found_exact log r reg l f : gets_succeed → found_in log r reg l f →
  f = filter (λ e, wanted log r reg e = true) l.
Proof.
  intros Hg. induction 1 as [|e l f Hw _ IH|e l f Hw _ IH|e l f Hu _ IH]; [done|..].
  - by rewrite (filter_true_cons (wanted log r reg)), Hw, IH.
  - by rewrite (filter_true_cons (wanted log r reg)), Hw, IH.
  - destruct Hu as (_ & req & _ & w & x & w' & Hi & _ & E). destruct (Hg req w Hi) as (o & w2 & E2). congruence.
Qed.

Lemma poll_page_wp r reg limit page matched s Q (R : RState W → Prop) :
  es_inv (store s) → (len matched < limit)%N →
  (∀ s' f, kept s s' → found_in (log_of s) r reg page f → Q (take (N.to_nat limit) (matched ++ f)) s') →
  wp (poll_page r reg limit page matched) s Q R.
Proof.
  revert matched s Q. induction page as [|e page IH]; intros matched s Q Hi Hlt HQ; simpl.
  { apply wp_ret. specialize (HQ s [] (kept_refl s Hi) (found_nil _ _ _)). rewrite app_nil_r in HQ.
    rewrite take_ge in HQ; [done|]. unfold len in Hlt. lia. }
  destruct (accepts (subscriptions reg) e) eqn:Eacc.
  2: { apply IH; [done|done|]. intros s' f Hk Hf. apply HQ; [done|]. apply found_unwanted; [|done].
       unfold wanted. by rewrite Eacc. }
  apply wp_bind, owns_timer_wp; [done|..]; intros s1 Hk1.
  all: assert (∀ s2, kept s1 s2 → kept s s2) as Hk by (intros s2; by apply kept_trans).
  all: pose proof Hk1 as (Hi1 & Hl1 & _).
  - destruct (owns (log_of s) r (instance_id reg) e) eqn:Eo.
    + assert (wanted (log_of s) r reg e = true) as Hw by (unfold wanted; by rewrite Eacc, Eo).
      destruct (N.eqb_spec (len (matched ++ [e])) limit) as [Hlim|Hne].
      * apply wp_ret. specialize (HQ s1 _ Hk1 (found_wanted _ _ _ _ _ _ Hw (found_all _ _ _ page))).
        change (matched ++ e :: ?l) with (matched ++ [e] ++ l) in HQ. rewrite app_assoc in HQ.
        rewrite take_app_le, take_ge in HQ; [done|unfold len in Hlim; lia..].
      * apply IH; [done|unfold len in *; rewrite length_app in *; simpl in *; lia|].
        intros s2 f Hk2. rewrite Hl1, <- app_assoc. intros Hf. apply HQ; [by apply Hk|]. by apply found_wanted.
    + apply IH; [done|done|]. intros s2 f Hk2. rewrite Hl1. intros Hf. apply HQ; [by apply Hk|].
      apply found_unwanted; [|done]. unfold wanted. by rewrite Eacc, Eo.
  - intros Hu. apply IH; [done|done|]. intros s2 f Hk2. rewrite Hl1. intros Hf. apply HQ; [by apply Hk|].
    by apply found_unread.
Qed.

(** The events a poll reads: all of the stream, or those of the given types. *)
Definition polled (log : list CommittedEvent) r (wildcard : bool) (ts : list string)
    : list CommittedEvent :=
  if wildcard then in_stream log (router_stream r) else of_types log (router_stream r) ts.

Lemma polled_sorted log r wildcard ts :
  log_invariant log → StronglySorted seq_lt (polled log r wildcard ts).
Proof. destruct wildcard; [apply in_stream_sorted|apply of_types_sorted]. Qed.

Lemma take_take_app {A} n (l1 l2 : list A) : take n (take n l1 ++ l2) = take n (l1 ++ l2).
Proof.
  destruct (decide (length l1 < n)) as [H|H].
  - by rewrite (take_ge l1) by lia.
  - rewrite !take_app_le by (rewrite ?length_take; lia). by rewrite take_take, Nat.min_id.
Qed.

Lemma poll_loop_wp fuel r reg wildcard ts limit after matched s Q (R : RState W → Prop) :
  let L := polled (log_of s) r wildcard ts in
  es_inv (store s) → (wildcard = false → ts ≠ []) →
  (len matched ≤ limit)%N → S (length (newer L after)) < fuel →
  (∀ s' f, kept s s' → found_in (log_of s) r reg (newer L after) f → Q (take (N.to_nat limit) (matched ++ f)) s') →
  (∀ s', kept s s' → R s') →
  wp (poll_loop fuel r reg wildcard ts limit after matched) s Q R.
Proof.
  revert after matched s Q R. induction fuel as [|fuel IH]; intros after matched s Q R L Hi Hts Hle Hf HQ HR;
    [lia|]. simpl.
  destruct (N.ltb_spec (len matched) limit) as [Hlt|Hge].
  2: { apply wp_ret. specialize (HQ s _ (kept_refl s Hi) (found_all _ _ _ _)).
       rewrite take_app_le, take_ge in HQ; [done|unfold len in *; lia..]. }
  assert (∀ s', kept s s' → wp (
    match last (take (N.to_nat limit) (newer L after)) with
    | None => rt_ret matched
    | Some e => rt_bind (poll_page r reg limit (take (N.to_nat limit) (newer L after)) matched)
        (λ matched, poll_loop fuel r reg wildcard ts limit (sequence e) matched)
    end) s' Q R) as Hbody.
  { intros s' Hk. destruct (last (take (N.to_nat limit) (newer L after))) as [e|] eqn:He.
    2: { apply newer_empty_page in He; [|lia]. apply wp_ret. rewrite He in HQ.
         specialize (HQ s' [] Hk (found_nil _ _ _)).
         rewrite app_nil_r, take_ge in HQ; [done|unfold len in *; lia]. }
    pose proof Hk as (Hi' & Hl' & _). apply wp_bind, poll_page_wp; [done|done|]. intros s1 f1 Hk1 Hf1.
    pose proof Hk1 as (Hi1 & Hl1 & _). rewrite Hl' in Hf1, Hl1.
    assert (newer L (sequence e) = drop (N.to_nat limit) (newer L after)) as Hn.
    { apply newer_next; [|done]. by apply polled_sorted, es_log_invariant. }
    apply IH; rewrite ?Hl1; fold L; try done.
    - unfold len. rewrite length_take. lia.
    - rewrite Hn. pose proof (newer_page_length _ _ _ _ He). lia.
    - intros s2 f2 Hk2. rewrite Hn, take_take_app, <- app_assoc. intros Hf2. apply HQ.
      + eapply kept_trans; [done|]. by eapply kept_trans.
      + rewrite <- (take_drop (N.to_nat limit) (newer L after)). by apply found_app.
    - intros s2 Hk2. apply HR. eapply kept_trans; [done|]. by eapply kept_trans. }
  apply wp_bind. destruct wildcard.
  - apply wp_read; [done| |done]. intros s' Hk. by apply Hbody.
  - apply wp_query; [done|apply typed_query_plain| |done]. intros s' Hk.
    rewrite log_query_typed by auto. by apply Hbody.
Qed.
End loops.
