(* ===== verification/RouterSpec.v ===== *)
(** What the router promises, on every store that implements [EventStore]:
    deliveries are exactly the subscribed events, an authorization is read
    back from the log as it was decided, an attempt is admitted once, and the
    result of a request is the first event that ends it. *)
From stdpp Require Import base tactics option list strings sorting gmap.
From Stdlib Require Import ZArith NArith Lia Ascii.
From S2P Require Import Prelude Event EventStore Registry Authority Utf8 Sqlite SqliteLog SqliteSpec.
From S2P Require Import Json Manifest Router RouterLoops.

(** ** Subscriptions *)

Lemma contains_append c a b : str_contains c (a +:+ b) = str_contains c a || str_contains c b.
Proof.
  induction a as [|x a IH]; autorewrite with pluribus_simpl; [done|]. simpl. by rewrite IH, orb_assoc.
Qed.

(** A pattern without a star is the event type itself. *)
Lemma matches_pattern_exact pattern t :
  has_star pattern = false → matches_pattern pattern t = true → pattern = t.
Proof.
  unfold has_star, matches_pattern. intros Hs.
  destruct (String.eqb_spec pattern "*") as [->|]; [done|].
  destruct (strip_suffix ".*" pattern) as [prefix|] eqn:E; [|by intros ?%String.eqb_eq].
  apply strip_suffix_spec in E. rewrite E, contains_append, orb_false_iff in Hs. by destruct Hs.
Qed.

Section subscriptions.
Context {JS : SerdeJson}.

(** A narrow subscriber only accepts events of the types it polls. *)
Lemma accepts_polled (sub : Subscriptions) e :
  whole_stream sub = false → existsb has_star (polled_types sub) = false →
  accepts sub e = true → event_type (request e) ∈ polled_types sub.
Proof.
  intros Hw Hs. unfold accepts. rewrite Hw. unfold polled_types in *.
  rewrite !elem_of_app. rewrite existsb_app in Hs. apply orb_false_iff in Hs as [Hs _].
  destruct (existsb (λ pattern, matches_pattern pattern (event_type (request e)))
              (sub_event_types sub)) eqn:Et.
  - intros _. left. apply existsb_exists in Et as (pattern & Hin & Hm).
    assert (has_star pattern = false) as Hp.
    { apply not_true_iff_false. intros Hp. apply not_true_iff_false in Hs. apply Hs.
      apply existsb_exists. eauto. }
    apply matches_pattern_exact in Hm as <-; [|done]. by apply list_elem_of_In.
  - destruct (String.eqb_spec (event_type (request e)) "capability.requested") as [->|].
    + intros Hc. right. left. case_bool_decide as Hn; [|by left].
      rewrite Hn in Hc. by destruct (payload_field e "capability").
    + destruct (String.eqb_spec (event_type (request e)) "model.requested") as [->|]; [|done].
      intros Hc. right. right. case_bool_decide as Hn; [|by left].
      rewrite Hn in Hc. by destruct (payload_field e "model").
Qed.
End subscriptions.

Section spec.
Context {JS : SerdeJson} {P : Type} {CP : ConstraintPolicy P} {PR : Process}.
Context {W : Type} {ES : EventStore W} {EL : EventStoreLaws W}.
Implicit Types (s : RState W) (r : Router P).

(** (C38) [poll] ends and returns the first [limit] events after the
    checkpoint that the instance subscribes to and whose timer it owns, in
    order, but for timer events whose request the store failed to read:
    [owns_timer] takes those for events of another instance.  On a store whose
    reads of single events do not fail it returns exactly those events.  The
    indexed path for narrow subscribers misses nothing. *)
Theorem poll_exact (fuel : nat) (r : Router P) (id : string) (reg : Registration)
    (checkpoint limit : N) (s : RState W) :
  es_inv (store s) → find_registration r id = Some reg →
  S (length (log_of s)) < fuel →
  let events := newer (in_stream (log_of s) (router_stream r)) checkpoint in
  wp (poll fuel r id checkpoint limit) s
    (λ answer s', kept s s' ∧
       ∃ found, found_in (log_of s) r reg events found ∧ answer = take (N.to_nat limit) found ∧
         (gets_succeed → found = filter (λ e, wanted (log_of s) r reg e = true) events))
    (kept s).
Proof.
  intros Hi Hreg Hf events. unfold poll. rewrite Hreg. apply wp_bind. unfold wp at 1. cbn.
  set (ts := polled_types (subscriptions reg)).
  set (star := whole_stream (subscriptions reg) || existsb has_star ts).
  assert (∀ e, star = false → wanted (log_of s) r reg e = true → event_type (request e) ∈ ts) as Hnarrow.
  { intros e [Hw Hs]%orb_false_iff [Ha _]%andb_true_iff. by apply accepts_polled. }
  assert (length (newer (polled (log_of s) r star ts) checkpoint) ≤ length (log_of s)) as Hlen.
  { unfold newer, polled, of_types, in_stream. destruct star; rewrite !length_filter; done. }
  assert (∀ f, found_in (log_of s) r reg (newer (polled (log_of s) r star ts) checkpoint) f →
    found_in (log_of s) r reg events f) as Hall.
  { intros f. unfold polled. destruct star; [done|]. unfold events, of_types, newer.
    intros Hfound. apply (found_filter _ _ _ (λ e, event_type (request e) ∈ ts)); [by auto|].
    erewrite list_filter_filter, list_filter_iff; [by erewrite <- list_filter_filter|]. naive_solver. }
  destruct (negb star && bool_decide (ts = [])) eqn:Eempty.
  - apply andb_true_iff in Eempty as [Hstar%negb_true_iff Hts%bool_decide_eq_true].
    apply wp_ret. split; [by apply kept_refl|]. exists []. rewrite take_nil. split_and!; [|done|].
    + apply (found_filter _ _ _ (λ e, event_type (request e) ∈ ts)); [auto|].
      rewrite Hts, filter_none; [constructor|]. intros ? _. apply not_elem_of_nil.
    + intros _. rewrite filter_none; [done|]. intros e _ Hw. apply Hnarrow in Hw; [|done].
      rewrite Hts in Hw. by apply not_elem_of_nil in Hw.
  - apply poll_loop_wp; [done| |unfold len; simpl; lia|lia| |done].
    + intros Hstar. rewrite Hstar in Eempty. by case_bool_decide.
    + intros s' f Hk Hfound. split; [done|]. exists f. split_and!; [by apply Hall|done|].
      intros Hg. eapply found_exact; [done|]. by apply Hall.
Qed.

(** An event of a timer the instance set is left out when the store fails to
    read the request: the failure is taken for another owner. *)
Theorem unread_timer_left_out (r : Router P) (id req : string) (e : CommittedEvent) s x w' :
  event_type (request e) = "timer.fired" → payload_field e "requestEventId" = Some req →
  es_get req (store s) = (Err x, w') →
  wp (owns_timer r id e) s (λ owned _, owned = false) (λ _, False).
Proof.
  intros Ht Hr Hg. unfold owns_timer. rewrite Ht, Hr. cbn [negb String.eqb]. apply wp_bind.
  unfold wp at 1, rt_store_ok. rewrite Hg. by apply wp_ret.
Qed.

(** *** Appending answers *)

Lemma serialize_wp v s (Q : bytes → RState W → Prop) (R : RState W → Prop) :
  (∀ b, to_vec v = Ok b → Q b s) → R s → wp (serialize v) s Q R.
Proof.
  intros HQ HR. unfold serialize. apply wp_lift; [|done]. intros b Hb. apply HQ.
  by destruct (to_vec v); simplify_eq/=.
Qed.

Lemma validated_wp r req s (Q : unit → RState W → Prop) (R : RState W → Prop) :
  Q tt s → R s → wp (validated r req) s Q R.
Proof. intros HQ HR. unfold validated. apply wp_lift; [|done]. by intros []. Qed.

(** What [attempt_event] and [append_decision] share: an answer is serialized,
    validated and appended. *)
Lemma answer_wp {A} r source kind schema v key s (k : CommittedEvent → Rt W A) Q (R : RState W → Prop) :
  es_inv (store s) →
  (∀ b e s', to_vec v = Ok b → es_inv (store s') →
     log_append (log_of s) (answer r source kind schema b key) e (log_of s') →
     projection s' = projection s → wp (k e) s' Q R) →
  (∀ s', kept s s' → R s') →
  wp (let! b := serialize v in
      run! validated r (answer r source kind schema b key);
      let! e := rt_store (es_append (answer r source kind schema b key)) in
      k e) s Q R.
Proof.
  intros Hi HQ HR. apply wp_bind, serialize_wp; [|by apply HR, kept_refl]. intros b Hb.
  apply wp_bind, validated_wp; [|by apply HR, kept_refl]. apply wp_bind, wp_append; [done|done| |done].
  intros e s' Hi' Hl Hp _ _. by eapply HQ.
Qed.

Lemma wp_ret_bind {A} (m : Rt W A) s Q (R : RState W → Prop) :
  wp (let! a := m in rt_ret a) s Q R → wp m s Q R.
Proof. unfold wp, rt_bind. by destruct (m s) as [[] ?]. Qed.

Lemma attempt_event_wp r source kind v key s Q (R : RState W → Prop) :
  es_inv (store s) →
  (∀ b e s', to_vec v = Ok b → es_inv (store s') →
     log_append (log_of s) (answer r source kind (attempt_schema kind) b key) e (log_of s') →
     projection s' = projection s → Q e s') →
  (∀ s', kept s s' → R s') →
  wp (attempt_event r source kind v key) s Q R.
Proof.
  intros Hi HQ HR. unfold attempt_event.
  pose proof (answer_wp r source kind (attempt_schema kind) v key s rt_ret Q R Hi HQ HR) as H.
  unfold wp, rt_bind in *. destruct (serialize v s) as [[b| |] s1]; [|done|done].
  destruct (validated r _ s1) as [[u| |] s2]; [|done|done].
  by destruct (rt_store _ s2) as [[] ?].
Qed.

Lemma payload_field_answer r source kind schema v key b e field text :
  json_roundtrip → plain v = true → to_vec v = Ok b →
  request e = answer r source kind schema b key →
  value_get v field = text → payload_field e field = match text with Some x => as_str x | None => None end.
Proof.
  intros Hj Hp Hb He Hv. destruct (Hj v Hp) as (b' & Hb' & Hf). rewrite Hb in Hb'.
  injection Hb' as <-. unfold payload_field. rewrite He. cbn. by rewrite Hf, Hv.
Qed.

(** *** Authorization *)

(** [authorized_for] answers from the first decision recorded about the
    request: true exactly when that decision names the provider. *)
Lemma authorized_for_wp fuel r req prov s (Q : bool → RState W → Prop) (R : RState W → Prop) :
  es_inv (store s) → length (log_of s) < fuel →
  (∀ s', kept s s' →
     Q (first_verdict (of_types (log_of s) (router_stream r) ["policy.decision"]) req prov) s') →
  (∀ s', kept s s' → R s') →
  wp (authorized_for fuel r req prov) s Q R.
Proof.
  intros Hi Hf HQ HR. pose proof (es_log_invariant _ Hi) as Hl. unfold authorized_for.
  apply authorized_loop_wp; rewrite ?newer_all by done; [done| |done|done].
  eapply Nat.le_lt_trans; [apply of_types_length|done].
Qed.

Lemma decision_plain e capability routed : plain (decision_payload e capability routed) = true.
Proof. apply object_plain. by destruct routed. Qed.

Lemma decision_provider e capability routed :
  value_get (decision_payload e capability routed) "provider" =
    Some (match routed with Deliver id => Str id | _ => Null end).
Proof. unfold decision_payload. by rewrite object_get. Qed.

Lemma append_decision_wp r e capability routed s (Q : unit → RState W → Prop) (R : RState W → Prop) :
  es_inv (store s) →
  (∀ b d s', to_vec (decision_payload e capability routed) = Ok b → es_inv (store s') →
     log_append (log_of s) (answer r e "policy.decision" "pluribus.policy-decision/1" b
                              ("policy:" +:+ event_id e)) d (log_of s') →
     projection s' = projection s → Q tt s') →
  (∀ s', kept s s' → R s') →
  wp (append_decision r e capability routed) s Q R.
Proof.
  intros Hi HQ HR. unfold append_decision.
  apply (answer_wp r e _ _ _ _ s (λ _, rt_ret tt) Q R Hi); [|done].
  intros b d s' Hb Hi' Hl Hp. by eapply wp_ret, HQ.
Qed.

(** No decision about the event has been recorded. *)
Definition undecided (log : list CommittedEvent) (st : StreamId) (id : EventId) : Prop :=
  key_free log st ("policy:" +:+ id) ∧
  find (caused_by id) (of_types log st ["policy.decision"]) = None.

(** A decision just recorded is the first about its request. *)
Lemma decision_verdict r e schema b key log d prov :
  find (caused_by (event_id e)) (of_types log (router_stream r) ["policy.decision"]) = None →
  request d = answer r e "policy.decision" schema b key →
  first_verdict (of_types (log ++ [d]) (router_stream r) ["policy.decision"]) (event_id e) prov
    = bool_decide (payload_field d "provider" = Some prov).
Proof.
  intros Hnone Hd. unfold first_verdict, of_types. rewrite in_stream_app, filter_app, find_app.
  fold (of_types log (router_stream r) ["policy.decision"]). rewrite Hnone.
  assert (filter (λ x, event_type (request x) ∈ ["policy.decision"])
            (in_stream [d] (router_stream r)) = [d]) as ->.
  { unfold in_stream. rewrite (filter_all _ [d]) by (intros x ->%list_elem_of_singleton; by rewrite Hd).
    apply filter_all. intros x ->%list_elem_of_singleton. rewrite Hd. by left. }
  simpl. unfold caused_by. rewrite Hd. cbn [causation_id answer]. by rewrite bool_decide_true.
Qed.

Lemma route_request_wp r e a now_ms s (Q : Routed → RState W → Prop) (R : RState W → Prop) :
  json_roundtrip → es_inv (store s) →
  undecided (log_of s) (router_stream r) (event_id e) →
  (payload_field e "capability" = None → Q (NoProvider "request has no capability name") s) →
  (∀ c b d s', payload_field e "capability" = Some c → es_inv (store s') →
     projection s' = projection s → log_of s' = log_of s ++ [d] →
     request d = answer r e "policy.decision" "pluribus.policy-decision/1" b
                   ("policy:" +:+ event_id e) →
     (∀ prov, first_verdict (of_types (log_of s') (router_stream r) ["policy.decision"])
                (event_id e) prov = bool_decide (route_decision r e a now_ms c = Deliver prov)) →
     Q (route_decision r e a now_ms c) s') →
  (∀ s', kept s s' → R s') →
  wp (route_request r e a now_ms) s Q R.
Proof.
  intros Hj Hi [Hfree Hnone] HN HQ HR. unfold route_request.
  destruct (payload_field e "capability") as [c|]; [|by apply wp_ret, HN].
  set (routed := route_decision r e a now_ms c). apply wp_bind.
  apply append_decision_wp; [done| |done]. intros b d s1 Hb Hi1 Hl1 Hp1. apply wp_ret.
  apply log_append_fresh with (key := "policy:" +:+ event_id e) in Hl1 as [Hd Hlog]; [|done|done].
  apply (HQ c b d); [done..|]. intros prov. rewrite Hlog, (decision_verdict _ _ _ _ _ _ _ _ Hnone Hd).
  rewrite (payload_field_answer r e _ _ _ _ _ d "provider" _ Hj (decision_plain e c routed) Hb Hd
             (decision_provider e c routed)).
  apply bool_decide_ext. fold routed. destruct routed; simpl; naive_solver.
Qed.

(** (C17) A request that was not decided before (no event of the stream has its
    [policy:] key or decides it) is authorized, once routed, for exactly the
    provider it was routed to: reading the decision back from the log agrees
    with the decision, for every provider and for refusals too.  For a request
    that is gated again see [recorded_decision_stands]. *)
Theorem route_then_authorized (fuel : nat) (r : Router P) (e : CommittedEvent) (a : Authority)
    (now_ms : Z) (c prov : string) (s : RState W) :
  json_roundtrip → es_inv (store s) → payload_field e "capability" = Some c →
  undecided (log_of s) (router_stream r) (event_id e) → S (length (log_of s)) < fuel →
  wp (let! routed := route_request r e a now_ms in
      let! verdict := authorized_for fuel r (event_id e) prov in
      rt_ret (routed, verdict)) s
    (λ out s', out.1 = route_decision r e a now_ms c ∧ out.2 = bool_decide (out.1 = Deliver prov))
    (λ s', log_of s `prefix_of` log_of s').
Proof.
  intros Hj Hi Hc Hu Hf. apply wp_bind, route_request_wp; [done|done|done|congruence| |].
  - intros c' b d s1 Hc' Hi1 _ Hlog _ Hv. assert (c' = c) as -> by congruence. apply wp_bind.
    apply authorized_for_wp; [done|rewrite Hlog, length_app; simpl; lia| |].
    + intros s2 _. apply wp_ret. split; [done|apply Hv].
    + intros s2 (_ & Hl2 & _). rewrite Hl2, Hlog. by eexists.
  - intros s2 (_ & Hl2 & _). by rewrite Hl2.
Qed.

(** A decision is recorded once and is not revised: when the stream
    already holds an event under [policy:<id>] (the decision of an earlier
    pass, or any other event with that key), routing reports the decision it
    computes now, but nothing enters the log and authorization follows what
    was recorded before.  A request that was refused before a restart and is
    allowed after it is reported as delivered and authorized for nobody. *)
Theorem recorded_decision_stands (fuel : nat) (r : Router P) (e x : CommittedEvent) (a : Authority)
    (now_ms : Z) (c prov : string) (s : RState W) :
  es_inv (store s) → payload_field e "capability" = Some c →
  x ∈ log_of s → stream_id (request x) = router_stream r →
  deduplication_key (request x) = Some ("policy:" +:+ event_id e) →
  length (log_of s) < fuel →
  wp (let! routed := route_request r e a now_ms in
      let! verdict := authorized_for fuel r (event_id e) prov in
      rt_ret (routed, verdict)) s
    (λ out s', out.1 = route_decision r e a now_ms c ∧
       out.2 = first_verdict (of_types (log_of s) (router_stream r) ["policy.decision"])
                 (event_id e) prov ∧
       log_of s' = log_of s)
    (λ s', log_of s' = log_of s).
Proof.
  intros Hi Hc Hx Hst Hk Hf. unfold route_request. rewrite Hc. apply wp_bind. apply wp_bind.
  apply append_decision_wp; [done| |by intros s' (_ & -> & _)].
  intros b d s1 Hb Hi1 Hl1 _. apply wp_ret. apply wp_bind.
  assert (log_of s1 = log_of s) as Hlog.
  { destruct Hl1 as [|d Hd _ _ Hdup]; [done|]. exfalso. by eapply (Hdup x). }
  apply authorized_for_wp; rewrite ?Hlog; [done|done| |].
  - intros s2 (_ & Hl2 & _). apply wp_ret. by rewrite Hl2, Hlog.
  - intros s2 (_ & Hl2 & _). by rewrite Hl2, Hlog.
Qed.
(** *** Admission *)

(** A claim that succeeds is in the log under the attempt's key. *)
Lemma claim_attempt_wp r req prov claim s :
  es_inv (store s) →
  wp (claim_attempt r req prov claim) s
    (λ won s', es_inv (store s') ∧ log_of s `prefix_of` log_of s' ∧
       ∃ e, e ∈ log_of s' ∧ stream_id (request e) = router_stream r ∧
         deduplication_key (request e) = Some (attempt_key req) ∧
         won = bool_decide (payload_field e "admissionClaim" = Some claim) ∧
         (key_free (log_of s) (router_stream r) (attempt_key req) →
            log_of s' = log_of s ++ [e] ∧ ∃ b,
            to_vec (claim_payload r req prov claim) = Ok b ∧
            request e = answer r req "activity.attempted" "pluribus.activity-attempt/1" b
                          (attempt_key req)) ∧
         (e ∉ log_of s → event_type (request e) = "activity.attempted" ∧
            causation_id (request e) = Some (event_id req)))
    (kept s).
Proof.
  intros Hi. unfold claim_attempt. apply wp_bind, attempt_event_wp; [done| |done].
  intros b e s' Hb Hi' Hl _. apply wp_ret. split_and!; [done|by eapply log_append_prefix|].
  exists e. split_and!; try done.
  - by eapply log_append_elem.
  - by apply log_append_stream in Hl.
  - by eapply log_append_key.
  - intros Hfree. eapply log_append_fresh in Hl as [Hr Hlog]; [|done|done].
    split; [done|]. by exists b.
  - intros Hnew. destruct Hl as [|e Hr _ _ _]; [done|]. by rewrite Hr.
Qed.

(** Of two claims on the same attempt, made by any two routers of the
    stream with anything happening in between, at most one wins. *)
Theorem claim_at_most_once (r r' : Router P) (req : CommittedEvent) (prov prov' claim claim' : string)
    (s1 s1' s2 : RState W) :
  es_inv (store s1) → es_inv (store s2) → router_stream r' = router_stream r → claim ≠ claim' →
  claim_attempt r req prov claim s1 = (Return true, s1') →
  log_of s1' `prefix_of` log_of s2 →
  (claim_attempt r' req prov' claim' s2).1 ≠ Return true.
Proof.
  intros Hi1 Hi2 Hst Hne H1 Hpre H2.
  pose proof (claim_attempt_wp r req prov claim s1 Hi1) as Hw1.
  pose proof (claim_attempt_wp r' req prov' claim' s2 Hi2) as Hw2.
  unfold wp in Hw1, Hw2. rewrite H1 in Hw1.
  destruct (claim_attempt r' req prov' claim' s2) as [out s2''] eqn:E2. cbn in H2. subst out.
  destruct Hw1 as (_ & _ & e1 & Hin1 & Hst1 & Hk1 & Hwon1 & _).
  destruct Hw2 as (Hi2' & Hpre2 & e2 & Hin2 & Hst2 & Hk2 & Hwon2 & _).
  symmetry in Hwon1, Hwon2. apply bool_decide_eq_true in Hwon1, Hwon2.
  assert (e1 = e2) as ->; [|congruence].
  apply (key_unique (log_of s2'') e1 e2 (attempt_key req)); try done; [by apply es_log_invariant| |congruence].
  destruct Hpre as [l1 Hl1], Hpre2 as [l2 ->]. rewrite Hl1. set_solver.
Qed.

(** The claim a run would draw next. *)
Definition next_claim s : string :=
  u64_to_string process_id +:+ ":" +:+ u128_to_string (wall_nanos (wall_reads s))
  +:+ ":" +:+ u64_to_string (claim_counter s).

(** An attempt at the request is in the log. *)
Definition was_attempted (log : list CommittedEvent) (st : StreamId) (id : EventId) : Prop :=
  existsb (caused_by id) (of_types log st ["activity.attempted"]) = true.

Lemma was_attempted_spec log st id :
  was_attempted log st id ↔ ∃ e, e ∈ log ∧ stream_id (request e) = st ∧
    event_type (request e) = "activity.attempted" ∧ causation_id (request e) = Some id.
Proof.
  unfold was_attempted, caused_by. rewrite existsb_exists. setoid_rewrite <- list_elem_of_In.
  setoid_rewrite of_types_elem. setoid_rewrite bool_decide_eq_true.
  setoid_rewrite list_elem_of_singleton. naive_solver.
Qed.

Lemma attempted_from_start fuel r req s (Q : bool → RState W → Prop) (R : RState W → Prop) :
  es_inv (store s) → length (log_of s) < fuel →
  (∀ s', kept s s' → Q (existsb (caused_by (event_id req))
       (of_types (log_of s) (router_stream r) ["activity.attempted"])) s') →
  (∀ s', kept s s' → R s') → wp (attempted fuel r req 0) s Q R.
Proof.
  intros Hi Hf HQ HR. pose proof (es_log_invariant _ Hi) as Hl.
  apply attempted_wp; rewrite ?newer_all by done; [done| |done|done].
  eapply Nat.le_lt_trans; [apply of_types_length|done].
Qed.

Lemma readmit_wp r req prov s :
  es_inv (store s) →
  wp (readmit r req prov) s
    (λ b s', es_inv (store s') ∧ log_of s `prefix_of` log_of s' ∧
       (b = true → classification r req prov = Some "inherent"))
    (λ s', es_inv (store s') ∧ log_of s `prefix_of` log_of s').
Proof.
  intros Hi. unfold readmit. destruct (classification r req prov) as [k|] eqn:Ec; cbn [is_some_and].
  1: destruct (String.eqb_spec k "inherent") as [->|].
  1: by apply wp_ret.
  all: apply wp_bind, attempt_event_wp; [done| |by intros s' (? & -> & _)].
  all: intros b e s1 _ Hi1 Hl1%log_append_prefix _; apply wp_bind, attempt_event_wp;
    [done| |by intros s' (? & -> & _)].
  all: intros b' e' s2 _ Hi2 Hl2%log_append_prefix _; apply wp_ret; split_and!;
    [done|by trans (log_of s1)|done].
Qed.

(** An admission leaves an attempt in the log. *)
Lemma admit_attempt_wp fuel r req prov s :
  es_inv (store s) → length (log_of s) < fuel →
  (∀ e, e ∈ log_of s → payload_field e "admissionClaim" ≠ Some (next_claim s)) →
  wp (admit_attempt fuel r req prov) s
    (λ b s', es_inv (store s') ∧ log_of s `prefix_of` log_of s' ∧
       (b = true → was_attempted (log_of s') (router_stream r) (event_id req)) ∧
       (b = true → was_attempted (log_of s) (router_stream r) (event_id req) →
          classification r req prov = Some "inherent"))
    (λ s', es_inv (store s') ∧ log_of s `prefix_of` log_of s').
Proof.
  intros Hi Hf Hclaim. unfold admit_attempt. apply wp_bind, attempted_from_start; [done|done| |].
  2: { by intros s' (? & -> & _). }
  intros s1 Hk1. pose proof Hk1 as (Hi1 & Hl1 & _ & Hcc & Hwr). destruct (existsb _ _) eqn:Ea.
  - eapply wp_mono; [by apply readmit_wp| |]; rewrite Hl1.
    + intros b s2 (Hi2 & Hpre & Hb). split_and!; [done|done| |auto]. intros _.
      apply was_attempted_spec in Ea as (e & He & ?). apply was_attempted_spec. exists e.
      split; [|done]. destruct Hpre as [l ->]. set_solver.
    + done.
  - apply wp_bind. unfold wp at 1, fresh_claim. cbn.
    set (s1' := mkRState _ _ _ _). rewrite Hcc, Hwr. fold (next_claim s).
    eapply wp_mono; [by apply claim_attempt_wp| |].
    + change (log_of s1') with (log_of s1). rewrite Hl1.
      intros b s2 (Hi2 & Hpre & e & He & Hst & Hk & -> & _ & Hnew). split_and!; [done|done| |].
      * intros Hwon%bool_decide_eq_true. apply was_attempted_spec. exists e.
        destruct Hnew as [? ?]; [|done]. intros Hin. by apply (Hclaim e Hin).
      * intros _ Hwas. unfold was_attempted in Hwas. congruence.
    + intros s2 (Hi2 & Hl2 & _). change (log_of s1') with (log_of s1) in Hl2. by rewrite Hl2, Hl1.
Qed.

(** (C9) Once an attempt has been admitted it is not admitted again, by any
    router of the stream and after any further events, unless the provider
    declares the capability inherently idempotent. *)
Theorem admit_at_most_once (fuel fuel' : nat) (r r' : Router P) (req : CommittedEvent)
    (prov prov' : string) (s1 s1' s2 : RState W) :
  es_inv (store s1) → es_inv (store s2) → router_stream r' = router_stream r →
  length (log_of s1) < fuel → length (log_of s2) < fuel' →
  (∀ e, e ∈ log_of s1 → payload_field e "admissionClaim" ≠ Some (next_claim s1)) →
  (∀ e, e ∈ log_of s2 → payload_field e "admissionClaim" ≠ Some (next_claim s2)) →
  admit_attempt fuel r req prov s1 = (Return true, s1') →
  log_of s1' `prefix_of` log_of s2 →
  (admit_attempt fuel' r' req prov' s2).1 = Return true →
  classification r' req prov' = Some "inherent".
Proof.
  intros Hi1 Hi2 Hst Hf1 Hf2 Hc1 Hc2 H1 Hpre H2.
  pose proof (admit_attempt_wp fuel r req prov s1 Hi1 Hf1 Hc1) as Hw1.
  pose proof (admit_attempt_wp fuel' r' req prov' s2 Hi2 Hf2 Hc2) as Hw2.
  unfold wp in Hw1, Hw2. rewrite H1 in Hw1.
  destruct (admit_attempt fuel' r' req prov' s2) as [out s2'] eqn:E2. cbn in H2. subst out.
  destruct Hw1 as (_ & _ & Hwas & _). destruct Hw2 as (_ & _ & _ & Hinh).
  apply Hinh; [done|]. rewrite Hst.
  apply was_attempted_spec in Hwas as (e & He & ?); [|done]. apply was_attempted_spec. exists e.
  split; [|done]. destruct Hpre as [l ->]. set_solver.
Qed.
(** The first claim on an attempt wins: when no event of the stream
    carries the attempt's key and no statement fails, the attempt is admitted. *)
Theorem claim_first_wins (r : Router P) (req : CommittedEvent) (prov claim : string) (s : RState W) :
  json_roundtrip → es_inv (store s) → plain (claim_payload r req prov claim) = true →
  key_free (log_of s) (router_stream r) (attempt_key req) →
  wp (claim_attempt r req prov claim) s
    (λ won s', won = true ∧ ∃ e, log_of s' = log_of s ++ [e] ∧
       event_type (request e) = "activity.attempted" ∧ causation_id (request e) = Some (event_id req))
    (kept s).
Proof.
  intros Hj Hi Hp Hfree. eapply wp_mono; [by apply claim_attempt_wp| |done].
  intros won s' (_ & _ & e & _ & _ & _ & -> & Hnew & _).
  destruct (Hnew Hfree) as (Hlog & b & Hb & He). split; [|by exists e; rewrite He].
  apply bool_decide_eq_true.
  erewrite (payload_field_answer r req _ _ _ _ _ e "admissionClaim" _ Hj Hp Hb He); [|done].
  unfold claim_payload. by rewrite object_get.
Qed.

(** *** Results *)

(** [result_for] returns the first event of the log that ends the
    request, through a projection that is kept up to date incrementally: the
    projection stays equal to the fold over the whole log, whatever page size
    and whatever failures interrupt a refresh, and stays right as the log
    grows. *)
Theorem result_for_exact (fuel : nat) (r : Router P) (req : EventId) (s : RState W) :
  synced r s → length (log_of s) < fuel →
  wp (result_for fuel r req) s
    (λ found s', synced r s' ∧ log_of s' = log_of s ∧
       found = find (answers req) (of_types (log_of s) (router_stream r) PROJECTED_TYPES))
    (λ s', synced r s' ∧ log_of s' = log_of s).
Proof. intros Hs Hf. apply result_for_wp; [done|done|by intros|by intros]. Qed.

(** Keys the router uses for a request carry answers to it. *)
Definition keys_honest (log : list CommittedEvent) (st : StreamId) (key : string) (id : EventId)
    : Prop :=
  ∀ e, e ∈ log → stream_id (request e) = st → deduplication_key (request e) = Some key →
  event_type (request e) ∈ PROJECTED_TYPES ∧ answers id e = true.

Definition ended (log : list CommittedEvent) (st : StreamId) (id : EventId) : Prop :=
  is_Some (find (answers id) (of_types log st PROJECTED_TYPES)).

Lemma ended_spec log st id :
  ended log st id ↔ ∃ e, e ∈ log ∧ stream_id (request e) = st ∧
    event_type (request e) ∈ PROJECTED_TYPES ∧ answers id e = true.
Proof.
  unfold ended. split.
  - intros [e [He%list_elem_of_In Ha]%find_some]. apply of_types_elem in He. naive_solver.
  - intros (e & He & Hs & Ht & Ha). destruct (find _ _) eqn:Ef; [done|].
    assert (e ∈ of_types log st PROJECTED_TYPES) as Hin by by apply of_types_elem.
    apply list_elem_of_In in Hin. by rewrite (find_none _ _ Ef e Hin) in Ha.
Qed.

(** An appended answer of a terminal kind ends its request. *)
Lemma answer_ends r source kind schema b key e log log' :
  kind ∈ PROJECTED_TYPES → str_mem kind COGNITION_TYPES = false →
  keys_honest log (router_stream r) key (event_id source) →
  log_append log (answer r source kind schema b key) e log' →
  ended log' (router_stream r) (event_id source).
Proof.
  intros Hk Hc Hh Hl. apply ended_spec. exists e.
  split; [by eapply log_append_elem|]. split; [by apply log_append_stream in Hl|].
  destruct Hl as [e key' Hin Hs Hkey Hke|e He _ _ _].
  - apply Hh; try done. cbn in Hkey. by injection Hkey as <-.
  - rewrite He. split; [done|]. unfold answers, caused_by. rewrite He. cbn [event_type causation_id answer].
    rewrite Hc, bool_decide_true by done. done.
Qed.

Lemma cancelled_kind_terminal t kind :
  cancelled_kind t = Some kind → kind ∈ PROJECTED_TYPES ∧ str_mem kind COGNITION_TYPES = false.
Proof.
  unfold cancelled_kind. intros H. repeat case_match; simplify_eq; (split; [|done]);
    unfold PROJECTED_TYPES; set_solver.
Qed.

Lemma append_denial_wp r e why s (Q : CommittedEvent → RState W → Prop) (R : RState W → Prop) :
  es_inv (store s) →
  keys_honest (log_of s) (router_stream r) ("denied:" +:+ event_id e) (event_id e) →
  (∀ b d s', es_inv (store s') → projection s' = projection s →
     log_append (log_of s) (answer r e "capability.denied" "pluribus.capability-denied/1" b
                              ("denied:" +:+ event_id e)) d (log_of s') →
     ended (log_of s') (router_stream r) (event_id e) → Q d s') →
  (∀ s', kept s s' → R s') →
  wp (append_denial r e why) s Q R.
Proof.
  intros Hi Hh HQ HR. unfold append_denial.
  apply wp_bind, serialize_wp; [|by apply HR, kept_refl]. intros b _.
  apply wp_append; [done|done| |done]. intros d s' Hi' Hl Hp _ _. apply (HQ b d); [done..|].
  eapply answer_ends; [| | |exact Hl]; [by apply (bool_decide_unpack _)|done|done].
Qed.

(** Cancelling a request ends it exactly once: a request that has a
    result is left alone, any other gets a terminal event, so its requester
    never waits for ever. *)
Theorem cancel_ends (fuel : nat) (r : Router P) (req : CommittedEvent) (kind : string) (s : RState W) :
  synced r s → length (log_of s) < fuel →
  cancelled_kind (event_type (request req)) = Some kind →
  keys_honest (log_of s) (router_stream r) ("cancelled:" +:+ event_id req) (event_id req) →
  wp (cancel_attempt fuel r req) s
    (λ _ s', ended (log_of s') (router_stream r) (event_id req) ∧
       (ended (log_of s) (router_stream r) (event_id req) → log_of s' = log_of s))
    (λ s', log_of s' = log_of s).
Proof.
  intros Hs Hf Hk Hh. unfold cancel_attempt. rewrite Hk. apply wp_bind, result_for_wp; [done|done| |by intros].
  intros s1 Hs1 Hl1. destruct (find _ _) as [e|] eqn:Ef; cbn [opt_is_some].
  - apply wp_ret. rewrite Hl1. split; [|done]. unfold ended. rewrite Ef. done.
  - apply wp_bind, attempt_event_wp; [apply Hs1| |].
    + intros b e s2 _ Hi2 Hl2 _. apply wp_ret. destruct (cancelled_kind_terminal _ _ Hk) as [Ht Hc].
      rewrite Hl1 in Hl2. split; [by eapply answer_ends|].
      unfold ended. rewrite Ef. by intros [].
    + intros s2 (_ & Hl2 & _). by rewrite Hl2.
Qed.

(** An attempt that was admitted before and is not inherently idempotent
    is reported, not re-run: the request ends with a failure. *)
Theorem readmission_ends (r : Router P) (req : CommittedEvent) (prov : string) (s : RState W) :
  es_inv (store s) → classification r req prov ≠ Some "inherent" →
  keys_honest (log_of s) (router_stream r) ("interrupted:" +:+ event_id req) (event_id req) →
  wp (readmit r req prov) s
    (λ b s', b = false ∧ ended (log_of s') (router_stream r) (event_id req))
    (λ s', log_of s `prefix_of` log_of s').
Proof.
  intros Hi Hc Hh. unfold readmit.
  assert (is_some_and (classification r req prov) (λ k, String.eqb k "inherent") = false) as ->.
  { destruct (classification r req prov) as [k|]; [|done]. simpl. apply String.eqb_neq. congruence. }
  apply wp_bind, attempt_event_wp; [done| |by intros s' (_ & -> & _)].
  intros b e s1 _ Hi1 Hl1 _. pose proof (log_append_prefix _ _ _ _ Hl1) as Hpre1.
  apply wp_bind, attempt_event_wp; [done| |by intros s' (_ & -> & _)].
  intros b' e' s2 _ Hi2 Hl2 _. apply wp_ret. split; [done|].
  eapply answer_ends; [| | |exact Hl2].
  - apply (bool_decide_unpack _). unfold interrupted_kind. by repeat case_match.
  - unfold interrupted_kind. by repeat case_match.
  - intros x Hx Hst Hk. destruct Hl1 as [|e He _ _ _]; [by apply Hh|].
    apply elem_of_app in Hx as [Hx| ->%list_elem_of_singleton]; [by apply Hh|].
    rewrite He in Hk. cbn in Hk. discriminate Hk.
Qed.
(** *** Lost sessions *)

Lemma fail_pending_wp r pending error s (log0 : list CommittedEvent) :
  es_inv (store s) → log0 `prefix_of` log_of s →
  (∀ session source, (session, source) ∈ pending →
     keys_honest (log_of s) (router_stream r) ("session-lost:" +:+ event_id source) (event_id source)) →
  wp (fail_pending r pending error) s
    (λ _ s', log0 `prefix_of` log_of s' ∧ log_of s `prefix_of` log_of s' ∧
       ∀ session source, (session, source) ∈ pending →
         ended (log_of s') (router_stream r) (event_id source))
    (λ s', log0 `prefix_of` log_of s').
Proof.
  revert s. induction pending as [|[session source] pending IH]; intros s Hi Hpre Hh; simpl.
  { apply wp_ret. split_and!; [done|done|]. intros ?? []%not_elem_of_nil. }
  apply wp_bind, attempt_event_wp; [done| |by intros s' (_ & -> & _)].
  intros b e s1 _ Hi1 Hl1 _. pose proof (log_append_prefix _ _ _ _ Hl1) as Hpre1.
  assert (ended (log_of s1) (router_stream r) (event_id source)) as Hend.
  { eapply answer_ends; [| | |exact Hl1]; [by apply (bool_decide_unpack _)|done|].
    apply (Hh session). by left. }
  eapply wp_mono; [apply IH|..]; [done|by trans (log_of s)| | |done].
  - intros session' source' Hin x Hx Hst Hk.
    destruct Hl1 as [|e He _ _ _]; [by apply (Hh session' source'); [right|..]|].
    apply elem_of_app in Hx as [Hx| ->%list_elem_of_singleton];
      [by apply (Hh session' source'); [right|..]|].
    rewrite He in Hk |- *. cbn in Hk. injection Hk as Hid.
    unfold answers, caused_by. rewrite He. cbn [event_type causation_id answer attempt_schema].
    split; [by apply (bool_decide_unpack _)|].
    rewrite bool_decide_true; [done|]. f_equal. done.
  - intros _ s2 (Hp0 & Hp2 & Hall). split_and!; [done|by trans (log_of s1)|].
    intros session' source' [[= -> ->]|Hin]%elem_of_cons; [|by eapply Hall].
    apply ended_spec in Hend as (x & Hx & ?). apply ended_spec. exists x. split; [|done].
    destruct Hp2 as [l ->]. set_solver.
Qed.

(** The sessions open when [prov] trapped on [batch]: those it yielded last,
    and the cells of the batch. *)
Definition open_sessions (log : list CommittedEvent) (st : StreamId) (prov : string)
    (batch : list CommittedEvent) : list (string * CommittedEvent) :=
  foldl batch_session (foldl (session_event prov) [] (of_types log st SESSION_TYPES)) batch.

(** When a provider traps, every session it had open is ended, so no
    continuation waits for memory that is gone. *)
Theorem fail_sessions_ends (fuel : nat) (r : Router P) (prov : string)
    (batch : list CommittedEvent) (error : option Value) (s : RState W) :
  es_inv (store s) → length (log_of s) < fuel →
  (∀ session source,
     (session, source) ∈ open_sessions (log_of s) (router_stream r) prov batch →
     keys_honest (log_of s) (router_stream r) ("session-lost:" +:+ event_id source) (event_id source)) →
  wp (fail_sessions_with_resource fuel r prov batch error) s
    (λ _ s', ∀ session source,
       (session, source) ∈ open_sessions (log_of s) (router_stream r) prov batch →
       ended (log_of s') (router_stream r) (event_id source))
    (λ s', log_of s `prefix_of` log_of s').
Proof.
  intros Hi Hf Hh. pose proof (es_log_invariant _ Hi) as Hl. unfold fail_sessions_with_resource.
  apply wp_bind, scan_sessions_wp; rewrite ?newer_all by done; [done| | |by intros s' (_ & -> & _)].
  { eapply Nat.le_lt_trans; [apply of_types_length|done]. }
  intros s1 (Hi1 & Hl1 & _). eapply wp_mono;
    [apply (fail_pending_wp _ _ _ _ (log_of s))|..]; rewrite ?Hl1; [done|done|done| |done].
  by intros _ s2 (_ & _ & Hall).
Qed.

(** *** Projected constraints *)

Lemma project_bindings_spec granted v bs sel0 sel :
  project_bindings granted v bs sel0 = Some sel → NoDup bs.*1 →
  (∀ k, k ∉ bs.*1 → map_get k sel = map_get k sel0) ∧
  ∀ k binding, (k, binding) ∈ bs →
    (binding_required binding = true → is_Some (map_get k granted)) ∧
    (is_Some (map_get k granted) →
       parts binding ≠ [] ∧
       ∃ text, project_parts v (parts binding) "" = Some text ∧ map_get k sel = Some (Str text)).
Proof.
  revert sel0. induction bs as [|[k binding] bs IH]; intros sel0 H Hnd; simpl in H.
  { injection H as <-. split; [done|]. intros ?? []%not_elem_of_nil. }
  rewrite fmap_cons, NoDup_cons in Hnd. destruct Hnd as [Hk Hnd].
  destruct (map_get k granted) as [g|] eqn:Eg; simpl in H.
  - case_bool_decide as Hparts; [done|].
    destruct (project_parts v (parts binding) "") as [text|] eqn:Et; [|done].
    apply IH in H as [Hother Hall]; [|done]. split.
    + intros k' Hk'. rewrite fmap_cons, not_elem_of_cons in Hk'. destruct Hk' as [Hne Hk'].
      rewrite Hother, map_get_insert by done. by rewrite (proj2 (String.eqb_neq k' k)).
    + intros k' b' [[= -> ->]|Hin]%elem_of_cons; [|by apply Hall]. rewrite Eg.
      split; [done|]. intros _. split; [done|]. exists text. split; [done|].
      rewrite Hother, map_get_insert by done. by rewrite String.eqb_refl.
  - destruct (binding_required binding) eqn:Er; [done|].
    apply IH in H as [Hother Hall]; [|done]. split.
    + intros k' Hk'. rewrite fmap_cons, not_elem_of_cons in Hk'. by apply Hother, Hk'.
    + intros k' b' [[= -> ->]|Hin]%elem_of_cons; [|by apply Hall]. rewrite Eg, Er.
      split; [done|]. by intros [].
Qed.

(** A grant allows a request only when the inner policy allows it on
    selectors projected from the request itself: every binding the provider
    marks required is constrained by the grant, and every constrained binding
    contributes exactly the text of its parts. *)
Theorem projected_allows_sound (p : ProjectedConstraints P) (g : Grant) (req : bytes) :
  NoDup (default [] (bindings p)).*1 → projected_allows p g req = Ok true →
  ∃ granted v sel b,
    from_slice (constraints g) = Ok (Object granted) ∧ from_slice req = Ok v ∧
    to_vec (Object sel) = Ok b ∧ allows_projected (inner_policy p) g req b = Ok true ∧
    ∀ k binding, (k, binding) ∈ default [] (bindings p) →
      (binding_required binding = true → is_Some (map_get k granted)) ∧
      (is_Some (map_get k granted) → parts binding ≠ [] ∧
         ∃ text, project_parts v (parts binding) "" = Some text ∧ map_get k sel = Some (Str text)).
Proof.
  intros Hnd H. unfold projected_allows in H. res_inv.
  destruct (project_bindings _ _ _ _) as [sel|] eqn:Ep; [|done]. res_inv.
  destruct (project_bindings_spec _ _ _ _ _ Ep Hnd) as [_ Hall].
  match goal with H : as_object ?c = Some _ |- _ => destruct c; simpl in H; simplify_eq end.
  by eexists _, _, _, _.
Qed.
End spec.

(** ** A concrete router on the SQLite store *)

Module RouterSample.
Import Sample Codec.

#[export] Instance process : Process := {| process_id := 1; wall_nanos n := N.of_nat n |}.

Definition tool : Registration :=
  mkRegistration "tool" (mkSubscriptions ∅ false [] ["battery.read"] [] ∅).

Definition router : Router FixedPolicy :=
  mkRouter "agent" (mkPrincipalRef Agent "agent") [tool] core (mkFixedPolicy (Ok true)).

Definition json_bytes (v : Value) : bytes := default [] (result_ok (to_vec v)).

Definition call : AppendRequest :=
  mkAppendRequest "agent" StreamAgent None "capability.requested" "capability"
    (CanonicalJson (json_bytes (object [("capability", Str "battery.read")])))
    (mkPrincipalRef Component "cognition") None None None None None.

Definition open : RState (World nat) := mkRState w0 empty_projection 0 0.
Definition s1 : RState (World nat) :=
  mkRState (run_call (CallAppend call) w0) empty_projection 0 0.
Definition asked : CommittedEvent := mkCommittedEvent COMMITTED_EVENT_SCHEMA "" 1 1000 call.

Lemma s1_inv : es_inv (store s1).
Proof. apply reachable_wf. by apply reach_call; [apply reach_open|]. Qed.

Lemma s1_log : log_of s1 = [asked].
Proof. by vm_compute. Qed.

Lemma asked_capability : payload_field asked "capability" = Some "battery.read".
Proof. by vm_compute. Qed.

Lemma sample_gets : gets_succeed (W := World nat).
Proof.
  intros id w Hw. destruct (get_run id w no_failures Hw) as (w' & Hg & _). by eexists _, _.
Qed.

Lemma s1_synced : synced router s1.
Proof. split; [apply s1_inv|]. apply projected_empty, es_log_invariant, s1_inv. Qed.

(** The event that is free of the keys the router is about to use. *)
Lemma s1_free key : key_free (log_of s1) "agent" key.
Proof. intros e. rewrite s1_log. by intros ->%list_elem_of_singleton. Qed.

Lemma s1_honest key id : keys_honest (log_of s1) "agent" key id.
Proof. intros e. rewrite s1_log. by intros ->%list_elem_of_singleton. Qed.

Lemma s1_unclaimed claim e : e ∈ log_of s1 → payload_field e "admissionClaim" ≠ Some claim.
Proof. rewrite s1_log. intros ->%list_elem_of_singleton. by vm_compute. Qed.

(** The state after the first admission. *)
Definition s2 : RState (World nat) := (admit_attempt 5 router asked "tool" s1).2.

Lemma s1_short : length (log_of s1) < 5.
Proof. rewrite s1_log. simpl. lia. Qed.

Lemma s2_inv : es_inv (store s2).
Proof.
  refine (wp_state _ _ (λ s, es_inv (store s)) _ _
    (admit_attempt_wp 5 router asked "tool" s1 s1_inv s1_short (s1_unclaimed _)) _ _).
  - intros b s H. exact (proj1 H).
  - intros s H. exact (proj1 H).
Qed.

Lemma s2_outcome : (admit_attempt 5 router asked "tool" s1).1 = Return true.
Proof. by vm_compute. Qed.

Lemma s2_won : admit_attempt 5 router asked "tool" s1 = (Return true, s2).
Proof. exact (pair_of_fst _ _ s2_outcome). Qed.

(** The state after a first claim. *)
Definition claimed : RState (World nat) := (claim_attempt router asked "tool" "a" s1).2.

Lemma claimed_inv : es_inv (store claimed).
Proof.
  refine (wp_state _ _ (λ s, es_inv (store s)) _ _
    (claim_attempt_wp router asked "tool" "a" s1 s1_inv) _ _).
  - intros b s H. exact (proj1 H).
  - intros s H. exact (proj1 H).
Qed.

Lemma claimed_outcome : (claim_attempt router asked "tool" "a" s1).1 = Return true.
Proof. by vm_compute. Qed.

Lemma claimed_won : claim_attempt router asked "tool" "a" s1 = (Return true, claimed).
Proof. exact (pair_of_fst _ _ claimed_outcome). Qed.

(** A cell that was being evaluated. *)
Definition cell : CommittedEvent :=
  mkCommittedEvent COMMITTED_EVENT_SCHEMA "cell" 2 1000
    (mkAppendRequest "agent" StreamAgent None "code.evaluate-requested" "code" (CanonicalJson [])
       (mkPrincipalRef Component "cognition") None None None None None).

Lemma cell_sessions : open_sessions (log_of s1) "agent" "repl" [cell] = [("default", cell)].
Proof. by vm_compute. Qed.

(** An authority that allows the call. *)
Definition permissive : Authority := {|
  authority_schema := AUTHORITY_SCHEMA;
  authority_id_ := "authority";
  agent := mkPrincipalRef Agent "agent";
  origin := mkOrigin Autonomous None None None "event" true;
  delegation_chain := [];
  grants := {["battery.read" := [mkGrant "battery.read" None (json_bytes (object []))]]};
  audiences := [];
  parent_authority := None;
  issued_at_ms := 10;
  expires_at_ms := None;
  max_depth := 4;
  current_depth := 0;
|}.

(** A log in which the request was refused before. *)
Definition refusal : AppendRequest :=
  answer router asked "policy.decision" "pluribus.policy-decision/1"
    (json_bytes (decision_payload asked "battery.read" (Denied "no matching grant"))) "policy:".
Definition s3 : RState (World nat) :=
  mkRState (run_call (CallAppend refusal) (store s1)) empty_projection 0 0.
Definition refused : CommittedEvent := mkCommittedEvent COMMITTED_EVENT_SCHEMA "x" 2 1000 refusal.

Lemma s3_log : log_of s3 = [asked; refused].
Proof. by vm_compute. Qed.

Lemma s3_inv : es_inv (store s3).
Proof. apply reachable_wf. apply reach_call; [|done]. by apply reach_call; [apply reach_open|]. Qed.

Lemma s3_allowed : route_decision router asked permissive 10 "battery.read" = Deliver "tool".
Proof. by vm_compute. Qed.

Lemma s3_verdict : first_verdict (of_types (log_of s3) "agent" ["policy.decision"]) "" "tool" = false.
Proof. by vm_compute. Qed.
End RouterSample.
Import Sample Codec RouterSample.

Lemma poll_exact_witness :
  wp (poll 5 router "tool" 0 10) s1
    (λ answer s', kept s1 s' ∧
       ∃ found, found_in (log_of s1) router tool (newer (in_stream (log_of s1) "agent") 0) found ∧
         answer = take (N.to_nat 10) found ∧
         (gets_succeed (W := World nat) → found = filter (λ e, wanted (log_of s1) router tool e = true)
                    (newer (in_stream (log_of s1) "agent") 0)))
    (kept s1) ∧ gets_succeed (W := World nat).
Proof.
  split; [|apply sample_gets].
  apply (poll_exact 5 router "tool" tool 0 10 s1); [apply s1_inv|reflexivity|].
  rewrite s1_log. simpl. lia.
Defined.

Lemma route_then_authorized_witness :
  wp (let! routed := route_request router asked permissive 10 in
      let! verdict := authorized_for 5 router (event_id asked) "tool" in
      rt_ret (routed, verdict)) s1
    (λ out s', out.1 = route_decision router asked permissive 10 "battery.read" ∧
       out.2 = bool_decide (out.1 = Deliver "tool"))
    (λ s', log_of s1 `prefix_of` log_of s').
Proof.
  apply (route_then_authorized 5 router asked permissive 10 "battery.read" "tool" s1);
    [apply codec_roundtrip|apply s1_inv|apply asked_capability| |rewrite s1_log; simpl; lia].
  split; [apply s1_free|by vm_compute].
Defined.

Lemma recorded_decision_stands_witness :
  wp (let! routed := route_request router asked permissive 10 in
      let! verdict := authorized_for 5 router (event_id asked) "tool" in
      rt_ret (routed, verdict)) s3
    (λ out s', out.1 = Deliver "tool" ∧ out.2 = false ∧ log_of s' = log_of s3)
    (λ s', log_of s' = log_of s3).
Proof.
  rewrite <- s3_allowed, <- s3_verdict.
  apply (recorded_decision_stands 5 router asked refused permissive 10 "battery.read" "tool" s3);
    [apply s3_inv|apply asked_capability|rewrite s3_log; set_solver|reflexivity|reflexivity
    |rewrite s3_log; simpl; lia].
Defined.

Lemma claim_at_most_once_witness : (claim_attempt router asked "tool" "b" claimed).1 ≠ Return true.
Proof.
  apply (claim_at_most_once router router asked "tool" "tool" "a" "b" s1 claimed claimed);
    [apply s1_inv|apply claimed_inv|reflexivity|done|apply claimed_won|reflexivity].
Defined.

Lemma admit_at_most_once_witness :
  (admit_attempt 5 router asked "tool" s2).1 ≠ Return true.
Proof.
  intros H. assert (classification router asked "tool" = Some "inherent") as Hc; [|by vm_compute in Hc].
  apply (admit_at_most_once 5 5 router router asked "tool" "tool" s1 s2 s2);
    [apply s1_inv|apply s2_inv|reflexivity|apply s1_short| | | |apply s2_won|reflexivity|exact H].
  - vm_compute. lia.
  - apply s1_unclaimed.
  - apply Forall_forall. apply (bool_decide_unpack _). by vm_compute.
Defined.

Lemma claim_first_wins_witness :
  wp (claim_attempt router asked "tool" "a") s1
    (λ won s', won = true ∧ ∃ e, log_of s' = log_of s1 ++ [e] ∧
       event_type (request e) = "activity.attempted" ∧
       causation_id (request e) = Some (event_id asked))
    (kept s1).
Proof.
  apply (claim_first_wins router asked "tool" "a" s1);
    [apply codec_roundtrip|apply s1_inv|by vm_compute|apply s1_free].
Defined.

Lemma result_for_exact_witness :
  wp (result_for 5 router "") s1
    (λ found s', synced router s' ∧ log_of s' = log_of s1 ∧
       found = find (answers "") (of_types (log_of s1) "agent" PROJECTED_TYPES))
    (λ s', synced router s' ∧ log_of s' = log_of s1).
Proof. apply (result_for_exact 5 router "" s1); [apply s1_synced|apply s1_short]. Defined.

Lemma cancel_ends_witness :
  wp (cancel_attempt 5 router asked) s1
    (λ _ s', ended (log_of s') "agent" (event_id asked) ∧
       (ended (log_of s1) "agent" (event_id asked) → log_of s' = log_of s1))
    (λ s', log_of s' = log_of s1).
Proof.
  apply (cancel_ends 5 router asked "capability.cancelled" s1);
    [apply s1_synced|apply s1_short|reflexivity|apply s1_honest].
Defined.

Lemma readmission_ends_witness :
  wp (readmit router asked "tool") s1
    (λ b s', b = false ∧ ended (log_of s') "agent" (event_id asked))
    (λ s', log_of s1 `prefix_of` log_of s').
Proof.
  apply (readmission_ends router asked "tool" s1); [apply s1_inv|by vm_compute|apply s1_honest].
Defined.

Lemma fail_sessions_ends_witness :
  wp (fail_sessions_with_resource 5 router "repl" [cell] None) s1
    (λ _ s', ∀ session source, (session, source) ∈ [("default", cell)] →
       ended (log_of s') "agent" (event_id source))
    (λ s', log_of s1 `prefix_of` log_of s').
Proof.
  rewrite <- cell_sessions.
  apply (fail_sessions_ends 5 router "repl" [cell] None s1); [apply s1_inv|apply s1_short|].
  intros session source _. apply s1_honest.
Defined.

Lemma projected_allows_sound_witness :
  let p := mkProjectedConstraints (mkFixedPolicy (Ok true))
             (Some [("path", mkConstraintBinding [mkConstraintPart "/path" "file:" false] true)]) in
  let g := mkGrant "files.read" None (json_bytes (object [("path", Str "file:*")])) in
  let req := json_bytes (object [("path", Str "notes")]) in
  ∃ granted v sel b,
    from_slice (constraints g) = Ok (Object granted) ∧ from_slice req = Ok v ∧
    to_vec (Object sel) = Ok b ∧ allows_projected (inner_policy p) g req b = Ok true ∧
    ∀ k binding, (k, binding) ∈ default [] (bindings p) →
      (binding_required binding = true → is_Some (map_get k granted)) ∧
      (is_Some (map_get k granted) → parts binding ≠ [] ∧
         ∃ text, project_parts v (parts binding) "" = Some text ∧ map_get k sel = Some (Str text)).
Proof.
  intros p g req. apply (projected_allows_sound p g req); [|by vm_compute].
  apply (bool_decide_unpack _). by vm_compute.
Defined.
