(* ===== verification/OriginAuthority.v ===== *)
(** Origin-scoped authority: [pluribus-cognition/src/authority.rs].

    The authority of an event is the one its causal chain leads back to: an
    observation a configured connector delivered.  A derived observation keeps
    the origin it names; an untrusted sender gets no grants; a reply is
    confined to the conversation the observation arrived in. *)
From stdpp Require Import base tactics option list strings gmap.
From Stdlib Require Import ZArith NArith Lia Ascii.
From S2P Require Import Prelude Event EventStore Authority Utf8 Sqlite SqliteLog SqliteSpec Json Manifest Router RouterLoops RouterSpec.

Record Connector : Type := mkConnector {
  conn_provider : string;
  conn_inherits_origin : bool;
  ingress : string;
  reply : string;
  reply_capabilities : list CapabilityName;
}.

Record OriginAuthority : Type := mkOriginAuthority {
  oa_agent : PrincipalRef;
  connectors : list Connector;
  oa_grants : gmap CapabilityName (list Grant);
  oa_max_depth : N;
}.

Section authority.
Context {JS : SerdeJson}.

Definition find_connector (oa : OriginAuthority) (e : CommittedEvent) : option Connector :=
  find (λ c, bool_decide (actor (request e) = mkPrincipalRef Component (ingress c))) (connectors oa).

(** [value.get("trusted").is_none_or(|v| v == true)]. *)
Definition is_trusted (v : Value) : bool :=
  is_none_or (value_get v "trusted") (λ x, bool_decide (as_bool x = Some true)).

(** The payload of an observation. *)
Definition observation_value (e : CommittedEvent) : result Value string :=
  match payload (request e) with
  | CanonicalJson b => from_slice b
  | Blob _ => Err "invalid observation"
  end.

(** [serde_json::to_vec(...).unwrap()]. *)
Definition unwrap_vec (v : Value) : result bytes string :=
  map_err (λ _, "called Result::unwrap on an Err value") (to_vec v).

Definition reply_grant (c : Connector) (capability : CapabilityName) (constraint : bytes) : Grant :=
  mkGrant capability (Some (mkPrincipalRef Component (reply c))) constraint.

(** The constraint that confines a reply to its conversation. *)
Definition conversation_constraint (conversation : string) : Value :=
  object [("conversation_ids", Array [Str conversation])].

(** The loop over the reply capabilities. *)
Fixpoint add_reply_grants (c : Connector) (conversation : string)
    (grants : gmap CapabilityName (list Grant)) (caps : list CapabilityName)
    : result (gmap CapabilityName (list Grant)) string :=
  match caps with
  | [] => Ok grants
  | capability :: caps =>
      let? constraint := unwrap_vec (conversation_constraint conversation) in
      add_reply_grants c conversation
        (<[capability := [reply_grant c capability constraint]]> grants) caps
  end.

(** [OriginAuthority::issue]. *)
Definition issue (oa : OriginAuthority) (e : CommittedEvent) : result Authority string :=
  let? c := ok_or (find_connector oa e) "unrecognized observation connector" in
  let? value := observation_value e in
  if negb (bool_decide (as_str (value_index value "provider") = Some (conn_provider c)))
  then Err "unsupported origin"
  else
    let? conversation := ok_or (as_str (value_index value "conversationId")) "missing conversation" in
    let? sender := ok_or (as_str (value_index value "externalSenderId")) "missing sender" in
    let principal := mkPrincipalRef Human (conn_provider c +:+ ":" +:+ sender) in
    let trusted := is_trusted value in
    let? grants :=
      (if trusted then add_reply_grants c conversation (oa_grants oa) (reply_capabilities c)
       else Ok ∅) in
    Ok {|
      authority_schema := AUTHORITY_SCHEMA;
      authority_id_ := "origin:" +:+ event_id e;
      agent := oa_agent oa;
      origin := mkOrigin ConnectorOrigin (Some principal) (Some (actor (request e)))
                  (Some conversation) (event_id e) trusted;
      delegation_chain := [];
      grants := grants;
      audiences :=
        if trusted && negb (str_is_empty (reply c))
        then [mkAudience (mkPrincipalRef Component (reply c)) conversation [principal]] else [];
      parent_authority := None;
      issued_at_ms := recorded_at_ms e;
      expires_at_ms := None;
      max_depth := oa_max_depth oa;
      current_depth := 0;
    |}.

Definition ORIGIN_FIELDS : list string := ["provider"; "externalSenderId"; "conversationId"].

(** The observation differs from what a derived observation claimed. *)
Definition changes_origin (origin : CommittedEvent) (value : Value) (expected_id : string)
    (expected : Value) : bool :=
  negb (String.eqb (event_id origin) expected_id)
  || existsb (λ field, negb (value_eqb (value_index value field) (value_index expected field)))
       ORIGIN_FIELDS
  || negb (Bool.eqb (is_trusted value) (is_trusted expected)).

(** An observation in the chain: the authority it issues, or the claim it
    makes about its own origin. *)
Definition observe (oa : OriginAuthority) (origin : CommittedEvent)
    (inherited : option (string * Value)) : result (Authority + (string * Value)) string :=
  let? c := ok_or (find_connector oa origin) "unrecognized observation connector" in
  let? value := observation_value origin in
  if is_some_and inherited (λ '(id, expected), changes_origin origin value id expected)
  then Err "derived observation changes its origin"
  else if negb (conn_inherits_origin c) then
    let? a := issue oa origin in Ok (inl a)
  else
    let? id := ok_or (as_str (value_index value "originEventId"))
                 "derived observation requires originEventId" in
    Ok (inr (id, value)).

Section resolve.
Context {W : Type} {ES : EventStore W}.

(** [OriginAuthority::resolve]: at most [n] events of the chain are visited. *)
Fixpoint resolve_loop (n : nat) (oa : OriginAuthority) (origin : CommittedEvent)
    (inherited : option (string * Value)) (w : W) : result Authority string * W :=
  match n with
  | O => (Err "origin chain exceeds limit", w)
  | S n =>
      if negb (String.eqb (stream_id (request origin)) (principal_id (oa_agent oa)))
      then (Err "origin belongs to another agent", w)
      else
        match (if String.eqb (event_type (request origin)) "observation.received"
               then result_map (λ out, match out with
                                        | inl a => inl a
                                        | inr claim => inr (Some claim)
                                        end) (observe oa origin inherited)
               else Ok (inr inherited)) with
        | Err error => (Err error, w)
        | Ok (inl a) => (Ok a, w)
        | Ok (inr inherited) =>
            match causation_id (request origin) with
            | None => (Err "request has no observation origin", w)
            | Some cause =>
                let '(found, w) := es_get cause w in
                match found with
                | Err error => (Err (append_error_to_string error), w)
                | Ok None => (Err "origin not found", w)
                | Ok (Some parent) =>
                    if (sequence origin <=? sequence parent)%N
                    then (Err "invalid origin chain", w)
                    else resolve_loop n oa parent inherited w
                end
            end
        end
  end.

Definition ORIGIN_LIMIT : nat := N.to_nat 4096.

Definition resolve (oa : OriginAuthority) (e : CommittedEvent) (w : W)
    : result Authority string * W :=
  resolve_loop ORIGIN_LIMIT oa e None w.
End resolve.

(** [OriginConstraints]: every constrained selector is in its allowlist. *)
Definition origin_allows (g : Grant) (selectors : bytes) : result bool string :=
  let? c := from_slice (constraints g) in
  let? s := from_slice selectors in
  let? m := ok_or (as_object c) "constraints must be an object" in
  Ok (forallb (λ '(key, allowed),
        is_some_and (as_array allowed) (λ values,
          is_some_and (value_get s key) (λ value, existsb (λ x, value_eqb x value) values))) m).

Inductive OriginConstraints : Type := mkOriginConstraints.

#[export] Instance origin_constraints_policy : ConstraintPolicy OriginConstraints := {|
  allows _ := origin_allows;
  allows_projected _ g _ selectors := origin_allows g selectors;
|}.
End authority.

(** ** The chain to the origin *)

(** [o] is reached from [e] by following causes, each earlier in the log. *)
Inductive origin_chain (log : list CommittedEvent) : CommittedEvent → CommittedEvent → Prop :=
| chain_here e : origin_chain log e e
| chain_cause e cause parent o :
    causation_id (request e) = Some cause → find_id log cause = Some parent →
    (sequence parent < sequence e)%N → origin_chain log parent o → origin_chain log e o.

(** Two observations name the same provider, sender and conversation, and the
    same trust. *)
Definition same_origin (v v' : Value) : Prop :=
  (∀ f, f ∈ ORIGIN_FIELDS → canonical (value_index v f) = canonical (value_index v' f)) ∧
  is_trusted v = is_trusted v'.

#[export] Instance same_origin_equiv : Equivalence same_origin.
Proof.
  split.
  - done.
  - intros v v' [H Ht]. split; [|done]. intros f Hf. by rewrite H.
  - intros v1 v2 v3 [H12 T12] [H23 T23]. split; [|congruence]. intros f Hf. by rewrite H12, H23.
Qed.

Lemma changes_origin_false o v id expected :
  changes_origin o v id expected = false → event_id o = id ∧ same_origin v expected.
Proof.
  unfold changes_origin. rewrite !orb_false_iff, !negb_false_iff.
  intros [[Hid%String.eqb_eq Hf] Ht%Bool.eqb_prop]. split; [done|]. split; [|done].
  intros f Hin. apply not_true_iff_false in Hf. unfold value_eqb in Hf.
  destruct (decide (canonical (value_index v f) = canonical (value_index expected f))) as [|Hne]; [done|].
  exfalso. apply Hf, existsb_exists. exists f. split; [by apply list_elem_of_In|].
  by rewrite bool_decide_false.
Qed.

Section sound.
Context {JS : SerdeJson} {W : Type} {ES : EventStore W} {EL : EventStoreLaws W}.

(** An observation of the agent's stream that issues authority itself. *)
Record issues (oa : OriginAuthority) (o : CommittedEvent) (a : Authority) : Prop := {
  iss_type : event_type (request o) = "observation.received";
  iss_stream : stream_id (request o) = principal_id (oa_agent oa);
  iss_connector : ∃ c, find_connector oa o = Some c ∧ conn_inherits_origin c = false;
  iss_authority : issue oa o = Ok a;
}.

Lemma observe_ok oa o inherited out :
  observe oa o inherited = Ok out →
  ∃ c v, find_connector oa o = Some c ∧ observation_value o = Ok v ∧
    (∀ id expected, inherited = Some (id, expected) → same_origin v expected) ∧
    match out with
    | inl a => conn_inherits_origin c = false ∧ issue oa o = Ok a
    | inr (_, v') => v' = v
    end.
Proof.
  unfold observe. intros H. res_inv.
  destruct (is_some_and inherited _) eqn:Ei; [done|].
  match goal with Hc : find_connector oa o = Some ?c, Hv : observation_value o = Ok ?v |- _ =>
    exists c, v end.
  split_and!; [done|done| |].
  - intros id expected ->. simpl in Ei. by apply changes_origin_false in Ei as [_ ?].
  - destruct (negb _) eqn:En; res_inv; simplify_eq/=; [split; [by apply negb_true_iff|done]|done].
Qed.

Lemma resolve_loop_ok n oa e inherited w a w' :
  es_inv w → resolve_loop n oa e inherited w = (Ok a, w') →
  ∃ o v, origin_chain (es_log w) e o ∧ issues oa o a ∧ observation_value o = Ok v ∧
    (∀ id expected, inherited = Some (id, expected) → same_origin v expected) ∧
    (event_type (request e) = "observation.received" →
       ∃ ve, observation_value e = Ok ve ∧ same_origin v ve).
Proof.
  revert e inherited w. induction n as [|n IH]; intros e inherited w Hi H; simpl in H; [done|].
  destruct (String.eqb_spec (stream_id (request e)) (principal_id (oa_agent oa))) as [Hst|]; [|done].
  cbn [negb] in H.
  assert (∀ inherited' id parent w1,
    causation_id (request e) = Some id → es_get id w = (Ok (Some parent), w1) →
    (sequence parent < sequence e)%N → resolve_loop n oa parent inherited' w1 = (Ok a, w') →
    ∃ o v, origin_chain (es_log w) e o ∧ issues oa o a ∧ observation_value o = Ok v ∧
      (∀ id expected, inherited' = Some (id, expected) → same_origin v expected)) as Hstep.
  { intros inherited' id parent w1 Hid Hget Hlt Hr.
    pose proof (es_get_state _ _ _ _ Hi Hget) as [Hi1 Hl1].
    pose proof (es_get_ok _ _ _ _ Hi Hget) as Hfind.
    apply IH in Hr as (o & v & Hch & Hiss & Hv & Hinh & _); [|done]. exists o, v.
    split_and!; try done. rewrite Hl1 in Hch. by eapply chain_cause. }
  destruct (String.eqb_spec (event_type (request e)) "observation.received") as [Hobs|Hobs].
  - destruct (observe oa e inherited) as [[a'|[id claim]]|err] eqn:Eo; simpl in H; [| |done].
    + injection H as <- <-. apply observe_ok in Eo as (c & v & Hc & Hv & Hinh & Hno & Hiss).
      exists e, v. split_and!; [constructor|by split; eauto|done|done|]. intros _. by exists v.
    + apply observe_ok in Eo as (c & v & Hc & Hv & Hinh & ->).
      destruct (causation_id (request e)) as [cause|] eqn:Ec; [|done].
      destruct (es_get cause w) as [[[parent|]|err] w1] eqn:Eg; [|done|done].
      destruct (N.leb_spec (sequence e) (sequence parent)); [done|].
      destruct (Hstep _ _ _ _ eq_refl Eg ltac:(done) H) as (o & vo & Hch & Hiss & Hvo & Hsame).
      specialize (Hsame _ _ eq_refl). exists o, vo. split_and!; try done; [|by eauto].
      intros id' expected Hinh'. etrans; [exact Hsame|]. by eapply Hinh.
  - destruct (causation_id (request e)) as [cause|] eqn:Ec; [|done].
    destruct (es_get cause w) as [[[parent|]|err] w1] eqn:Eg; [|done|done].
    destruct (N.leb_spec (sequence e) (sequence parent)); [done|].
    destruct (Hstep _ _ _ _ eq_refl Eg ltac:(done) H) as (o & vo & Hch & Hiss & Hvo & Hsame).
    exists o, vo. by split_and!.
Qed.

(** (C35) The authority of an event is issued by an observation its causal
    chain leads back to: of the agent's own stream, delivered by a connector
    that may issue authority; and when the event is itself a derived
    observation, the origin has the provider, sender, conversation and trust
    the derived observation claims. *)
Theorem resolve_sound (oa : OriginAuthority) (e : CommittedEvent) (w w' : W) (a : Authority) :
  es_inv w → resolve oa e w = (Ok a, w') →
  ∃ o v, origin_chain (es_log w) e o ∧ issues oa o a ∧ observation_value o = Ok v ∧
    (event_type (request e) = "observation.received" →
       ∃ ve, observation_value e = Ok ve ∧ same_origin v ve).
Proof.
  intros Hi. unfold resolve. generalize ORIGIN_LIMIT as n. intros n H.
  apply resolve_loop_ok in H as (o & v & Hch & Hiss & Hv & _ & He); [|done]. by exists o, v.
Qed.
End sound.

(** ** What an issued authority allows *)

Section allowed.
Context {JS : SerdeJson}.

(** The grants of a trusted origin: the standing ones, with every reply
    capability replaced by one grant for the conversation. *)
Lemma reply_grants_lookup c conversation base m caps cap :
  add_reply_grants c conversation base caps = Ok m →
  m !! cap =
    if bool_decide (cap ∈ caps) then
      (λ b, [reply_grant c cap b]) <$> result_ok (unwrap_vec (conversation_constraint conversation))
    else base !! cap.
Proof.
  revert base. induction caps as [|k caps IH]; intros base H; simpl in H.
  { injection H as <-. by rewrite bool_decide_false by apply not_elem_of_nil. }
  destruct (unwrap_vec (conversation_constraint conversation)) as [b|err]; [|done].
  apply IH in H. rewrite H. simpl. destruct (decide (cap = k)) as [->|Hne].
  - rewrite (bool_decide_true (k ∈ k :: caps)) by by left. rewrite lookup_insert_eq. by case_bool_decide.
  - rewrite lookup_insert_ne by done. rewrite (bool_decide_ext (cap ∈ k :: caps) (cap ∈ caps)); [done|].
    set_solver.
Qed.

Lemma issue_ok oa o a :
  issue oa o = Ok a →
  ∃ c v conversation, find_connector oa o = Some c ∧ observation_value o = Ok v ∧
    as_str (value_index v "conversationId") = Some conversation ∧
    trusted (origin a) = is_trusted v ∧
    (is_trusted v = false → grants a = ∅ ∧ audiences a = []) ∧
    (is_trusted v = true → ∀ cap, grants a !! cap =
       if bool_decide (cap ∈ reply_capabilities c) then
         (λ b, [reply_grant c cap b]) <$>
           result_ok (unwrap_vec (conversation_constraint conversation))
       else oa_grants oa !! cap).
Proof.
  unfold issue. intros H. res_inv. destruct (negb _); [done|]. res_inv. simplify_eq/=.
  match goal with Hc : find_connector oa o = Some ?c, Hv : observation_value o = Ok ?v,
    Hs : as_str (value_index _ "conversationId") = Some ?s |- _ => exists c, v, s end.
  split_and!; try done.
  - intros Ht. rewrite Ht in *. by simplify_eq/=.
  - intros Ht cap. rewrite Ht in *. by eapply reply_grants_lookup.
Qed.

(** An untrusted sender gets nothing: no capability is allowed under the
    authority its observation issues, whatever the request, the provider, the
    policy and the time. *)
Theorem untrusted_denied {P} `{!ConstraintPolicy P} (oa : OriginAuthority) (o : CommittedEvent)
    (a : Authority) (cap : CapabilityName) (p : PrincipalRef) (req : bytes) (policy : P)
    (now_ms : Z) :
  issue oa o = Ok a → trusted (origin a) = false →
  audiences a = [] ∧ ∀ g, decide_request a cap p req policy now_ms ≠ Allow g.
Proof.
  intros (c & v & conv & _ & _ & _ & Htr & Hno & _)%issue_ok Hf. rewrite Hf in Htr.
  destruct (Hno (eq_sym Htr)) as [Hg Ha]. split; [done|]. intros g. unfold decide_request.
  rewrite Hg, lookup_empty. by destruct (is_expired_at a now_ms), (max_depth a <? current_depth a)%N.
Qed.

(** *** Replies *)

Lemma decide_request_granted {P} `{!ConstraintPolicy P} a cap p req (policy : P) now_ms g :
  decide_request a cap p req policy now_ms = Allow g →
  ∃ gs, grants a !! cap = Some gs ∧ g ∈ gs ∧ grant_matches p g = true ∧
    allows policy g req = Ok true.
Proof.
  unfold decide_request. destruct (is_expired_at a now_ms); [done|].
  destruct (max_depth a <? current_depth a)%N; [done|].
  destruct (grants a !! cap) as [gs|]; [|done].
  destruct (decide_loop _ _ _ _ _) as [g'|[saw err]] eqn:El; [|done]. intros [= ->].
  apply decide_loop_allow in El as (l1 & l2 & Hl & Hg & _). exists gs.
  assert (g ∈ filter (λ g, grant_matches p g = true) gs) as [? ?]%list_elem_of_filter
    by (rewrite Hl; set_solver). done.
Qed.

(** Selectors come from the bindings, and are strings. *)
Lemma project_bindings_source granted v bs sel0 sel k x :
  project_bindings granted v bs sel0 = Some sel → map_get k sel = Some x →
  map_get k sel0 = Some x ∨
  ∃ binding text, (k, binding) ∈ bs ∧ project_parts v (parts binding) "" = Some text ∧ x = Str text.
Proof.
  revert sel0. induction bs as [|[k' binding] bs IH]; intros sel0 H Hx; simpl in H.
  { injection H as <-. by left. }
  destruct (negb _).
  { destruct (binding_required binding); [done|].
    destruct (IH _ H Hx) as [|(b & t & ? & ? & ?)]; [by left|]. right. exists b, t. set_solver. }
  case_bool_decide; [done|]. destruct (project_parts v (parts binding) "") as [text|] eqn:Et; [|done].
  destruct (IH _ H Hx) as [Hk|(b & t & ? & ? & ?)].
  - rewrite map_get_insert in Hk. destruct (String.eqb_spec k k') as [->|]; [|by left].
    injection Hk as <-. right. exists binding, text. set_solver.
  - right. exists b, t. set_solver.
Qed.

Lemma project_bindings_plain granted v bs sel0 sel :
  fields_sorted sel0 = true → forallb (λ '(_, v), plain_field v) sel0 = true →
  project_bindings granted v bs sel0 = Some sel → plain (Object sel) = true.
Proof.
  revert sel0. induction bs as [|[k binding] bs IH]; intros sel0 Hs Hp H; simpl in H.
  { injection H as <-. by apply plain_object_fields. }
  destruct (negb _).
  { destruct (binding_required binding); [done|]. by eapply IH. }
  case_bool_decide; [done|]. destruct (project_parts v (parts binding) "") as [text|]; [|done].
  eapply IH; [| |done]; [by apply fields_sorted_insert|by apply forallb_insert].
Qed.

Lemma conversation_plain s : plain (conversation_constraint s) = true.
Proof. by apply object_plain. Qed.

Lemma origin_allows_conversation g b conversation sel bsel :
  json_roundtrip → unwrap_vec (conversation_constraint conversation) = Ok b →
  constraints g = b → plain (Object sel) = true → to_vec (Object sel) = Ok bsel →
  origin_allows g bsel = Ok true → map_get "conversation_ids" sel = Some (Str conversation).
Proof.
  intros Hj Hb Hg Hp Hsel H. unfold origin_allows in H.
  destruct (Hj _ (conversation_plain conversation)) as (b1 & Hb1 & Hf1).
  unfold unwrap_vec in Hb. rewrite Hb1 in Hb. injection Hb as <-.
  destruct (Hj _ Hp) as (b2 & Hb2 & Hf2). rewrite Hsel in Hb2. injection Hb2 as <-.
  rewrite Hg, Hf1, Hf2 in H. cbn in H. injection H as H.
  destruct (map_get "conversation_ids" sel) as [x|]; [|done]. simpl in H.
  rewrite orb_false_r, andb_true_r in H. unfold value_eqb in H. apply bool_decide_eq_true in H.
  destruct x; simpl in H; by simplify_eq.
Qed.

(** (C27) A reply is confined: a capability of the reply component is allowed
    only for that component and only for a request whose projected
    conversation is the one the observation arrived in. *)
Theorem reply_confined (oa : OriginAuthority) (o : CommittedEvent) (a : Authority) (c : Connector)
    (v : Value) (cap : CapabilityName) (p : PrincipalRef) (req : bytes)
    (bs : option (list (string * ConstraintBinding))) (now_ms : Z) (g : Grant) :
  json_roundtrip → issue oa o = Ok a → find_connector oa o = Some c →
  observation_value o = Ok v → cap ∈ reply_capabilities c →
  decide_request a cap p req (mkProjectedConstraints mkOriginConstraints bs) now_ms = Allow g →
  p = mkPrincipalRef Component (reply c) ∧
  ∃ binding rv conversation,
    as_str (value_index v "conversationId") = Some conversation ∧
    ("conversation_ids", binding) ∈ default [] bs ∧ from_slice req = Ok rv ∧
    project_parts rv (parts binding) "" = Some conversation.
Proof.
  intros Hj (c' & v' & conv & Hc & Hv & Hconv & _ & Hno & Hyes)%issue_ok Hc' Hv' Hcap Hd.
  rewrite Hc in Hc'. injection Hc' as <-. rewrite Hv in Hv'. injection Hv' as <-.
  apply decide_request_granted in Hd as (gs & Hgs & Hg & Hm & Hal).
  destruct (is_trusted v').
  2: { destruct (Hno eq_refl) as [Hempty _]. by rewrite Hempty, lookup_empty in Hgs. }
  rewrite (Hyes eq_refl), bool_decide_true in Hgs by done.
  destruct (unwrap_vec _) as [b|] eqn:Eb; [|done]. injection Hgs as <-.
  apply list_elem_of_singleton in Hg as ->. cbn in Hm. apply bool_decide_eq_true in Hm.
  split; [done|]. cbn in Hal. unfold projected_allows in Hal. res_inv.
  destruct (project_bindings _ _ _ _) as [sel|] eqn:Ep; [|done]. res_inv.
  assert (plain (Object sel) = true) as Hplain by by eapply (project_bindings_plain _ _ _ []).
  match goal with Hs : to_vec (Object sel) = Ok _ |- _ => rename Hs into Hsel end.
  pose proof (origin_allows_conversation (reply_grant c' cap b) b conv sel _ Hj Eb eq_refl Hplain Hsel Hal) as Hk.
  destruct (project_bindings_source _ _ _ _ _ _ _ Ep Hk) as [|(binding & text & Hin & Ht & Heq)]; [done|].
  injection Heq as <-. by eexists binding, _, conv.
Qed.
End allowed.

(** ** A concrete connector *)

Module OriginSample.
Import Sample Codec RouterSample.

Definition chat : Connector := mkConnector "chat" false "chat/receive" "chat/send" ["chat.reply"].

Definition origins : OriginAuthority :=
  mkOriginAuthority (mkPrincipalRef Agent "agent") [chat]
    {["battery.read" := [battery_grant]]} 4.

Definition observation (trust : bool) : AppendRequest :=
  mkAppendRequest "agent" StreamAgent None "observation.received" "observation"
    (CanonicalJson (json_bytes (object
      [("provider", Str "chat"); ("conversationId", Str "room"); ("externalSenderId", Str "ann");
       ("trusted", Bool trust)])))
    (mkPrincipalRef Component "chat/receive") None None None None None.

Definition observed (trust : bool) : CommittedEvent :=
  mkCommittedEvent COMMITTED_EVENT_SCHEMA "" 1 1000 (observation trust).

(** A message caused by the observation. *)
Definition caused : AppendRequest :=
  mkAppendRequest "agent" StreamAgent None "message.received" "message" (CanonicalJson [])
    (mkPrincipalRef Component "cognition") None None None (Some "") None.

Definition world2 : World nat :=
  run_call (CallAppend caused) (run_call (CallAppend (observation true)) w0).
Definition effect : CommittedEvent := mkCommittedEvent COMMITTED_EVENT_SCHEMA "x" 2 1000 caused.

Lemma world2_inv : es_inv world2.
Proof. apply reachable_wf. apply reach_call; [|done]. by apply reach_call; [apply reach_open|]. Qed.

Definition issued (trust : bool) : Authority :=
  default (battery_authority None 0) (result_ok (issue origins (observed trust))).

Lemma issued_ok trust : issue origins (observed trust) = Ok (issued trust).
Proof. by destruct trust; vm_compute. Qed.

Lemma effect_resolves : (resolve origins effect world2).1 = Ok (issued true).
Proof. by vm_compute. Qed.

Definition reply_binding : list (string * ConstraintBinding) :=
  [("conversation_ids", mkConstraintBinding [mkConstraintPart "/conversation" "" false] true)].
Definition reply_request : bytes := json_bytes (object [("conversation", Str "room")]).
Definition confined : Grant :=
  reply_grant chat "chat.reply" (json_bytes (conversation_constraint "room")).

Lemma reply_allowed :
  decide_request (issued true) "chat.reply" (mkPrincipalRef Component "chat/send") reply_request
    (mkProjectedConstraints mkOriginConstraints (Some reply_binding)) 10 = Allow confined.
Proof. by vm_compute. Qed.
End OriginSample.
Import Sample Codec RouterSample OriginSample.

Lemma resolve_sound_witness :
  ∃ o v, origin_chain (es_log world2) effect o ∧ issues origins o (issued true) ∧
    observation_value o = Ok v ∧
    (event_type (request effect) = "observation.received" →
       ∃ ve, observation_value effect = Ok ve ∧ same_origin v ve).
Proof.
  apply (resolve_sound origins effect world2 (resolve origins effect world2).2 (issued true));
    [apply world2_inv|]. exact (pair_of_fst _ _ effect_resolves).
Defined.

Lemma untrusted_denied_witness :
  audiences (issued false) = [] ∧
  ∀ g, decide_request (issued false) "battery.read" (mkPrincipalRef Component "tool") []
         (mkFixedPolicy (Ok true)) 10 ≠ Allow g.
Proof.
  apply (untrusted_denied origins (observed false) (issued false)); [apply issued_ok|by vm_compute].
Defined.

Lemma reply_confined_witness :
  mkPrincipalRef Component "chat/send" = mkPrincipalRef Component (reply chat) ∧
  ∃ binding rv conversation,
    as_str (value_index (object
      [("provider", Str "chat"); ("conversationId", Str "room"); ("externalSenderId", Str "ann");
       ("trusted", Bool true)]) "conversationId") = Some conversation ∧
    ("conversation_ids", binding) ∈ default [] (Some reply_binding) ∧
    from_slice reply_request = Ok rv ∧ project_parts rv (parts binding) "" = Some conversation.
Proof.
  apply (reply_confined origins (observed true) (issued true) chat _ "chat.reply"
           (mkPrincipalRef Component "chat/send") reply_request (Some reply_binding) 10 confined);
    [apply codec_roundtrip|apply issued_ok|by vm_compute|by vm_compute|by left|apply reply_allowed].
Defined.
