(* ===== verification/Agent.v ===== *)
(** The agent loop: [pluribus-cognition/src/agent.rs].

    The request gate, the health of components as the log records it, the
    checks before a component is installed, and the guards of a delivery; the
    deliveries themselves are in [AgentDeliver].  An
    operation of the agent runs on the agent's own fields and on the router's
    state; the authority resolver is an interface, and a component instance is
    known by its checkpoint.  A runtime error is kept by its text. *)
From stdpp Require Import base tactics option list strings gmap.
From Stdlib Require Import ZArith NArith Lia Ascii.
From S2P Require Import Prelude Event EventStore Registry Authority Json Manifest Router.

Definition MAX_COGNITION_BATCH : N := 16.

Inductive AgentError : Type :=
| AgentRuntime (text : string)
| AgentRouter (error : RouterError)
| AgentStorage (message : string)
| AgentUnknownInstance (id : string).

Definition agent_error_to_string (e : AgentError) : string :=
  match e with
  | AgentRuntime text => text
  | AgentRouter error => router_error_to_string error
  | AgentStorage message => "agent storage failed: " +:+ message
  | AgentUnknownInstance id => "unknown instance: " +:+ id
  end.

Record Progress : Type := mkProgress {
  requests_gated : N;
  requests_denied : N;
  deliveries : N;
  events_committed : N;
}.

Definition is_idle (p : Progress) : bool :=
  (requests_gated p =? 0)%N && (deliveries p =? 0)%N && (events_committed p =? 0)%N.

(** The trait [AuthorityResolver]. *)
Class AuthorityResolver (R W : Type) : Type := {
  resolve_authority : R → CommittedEvent → W → result Authority string * W;
}.

(** What the agent reads of a [PluginInstance] without running it. *)
Class PluginInstance (I : Type) : Type := {
  instance_checkpoint : I → N;
}.

(** [Agent]: a worker is known by its batch, a cancellation handle by whether
    it was cancelled. *)
Record Agent (P I : Type) : Type := mkAgent {
  ag_router : Router P;
  external : gset string;
  workers : gmap string (list CommittedEvent);
  cancellations : gmap string bool;
  instances : gmap string I;
  ag_stream : StreamId;
  principal : PrincipalRef;
  gated_through : N;
  admission_now_ms : Z;
  ag_batch : N;
  failed : gmap string string;
  backoff : gmap string (N * Z);
  reduced_batches : gset string;
  health_through : N;
}.
Arguments mkAgent {P I} _ _ _ _ _ _ _ _ _ _ _ _ _ _.
Arguments ag_router {P I} _.
Arguments external {P I} _.
Arguments workers {P I} _.
Arguments cancellations {P I} _.
Arguments instances {P I} _.
Arguments ag_stream {P I} _.
Arguments principal {P I} _.
Arguments gated_through {P I} _.
Arguments admission_now_ms {P I} _.
Arguments ag_batch {P I} _.
Arguments failed {P I} _.
Arguments backoff {P I} _.
Arguments reduced_batches {P I} _.
Arguments health_through {P I} _.

Section updates.
Context {P I : Type}.
Implicit Types (a : Agent P I).

(** [Agent::new]. *)
Definition new_agent (r : Router P) (stream : StreamId) (who : PrincipalRef) : Agent P I :=
  mkAgent r ∅ ∅ ∅ ∅ stream who 0 0 100 ∅ ∅ ∅ 0.

(** [Agent::with_batch]. *)
Definition with_batch (n : N) a : Agent P I :=
  mkAgent (ag_router a) (external a) (workers a) (cancellations a) (instances a) (ag_stream a)
    (principal a) (gated_through a) (admission_now_ms a) (N.max n 1) (failed a) (backoff a)
    (reduced_batches a) (health_through a).

Definition set_router (r : Router P) a : Agent P I :=
  mkAgent r (external a) (workers a) (cancellations a) (instances a) (ag_stream a)
    (principal a) (gated_through a) (admission_now_ms a) (ag_batch a) (failed a) (backoff a)
    (reduced_batches a) (health_through a).

Definition set_cancellations (c : gmap string bool) a : Agent P I :=
  mkAgent (ag_router a) (external a) (workers a) c (instances a) (ag_stream a)
    (principal a) (gated_through a) (admission_now_ms a) (ag_batch a) (failed a) (backoff a)
    (reduced_batches a) (health_through a).

Definition set_gated_through (n : N) a : Agent P I :=
  mkAgent (ag_router a) (external a) (workers a) (cancellations a) (instances a) (ag_stream a)
    (principal a) n (admission_now_ms a) (ag_batch a) (failed a) (backoff a)
    (reduced_batches a) (health_through a).

Definition set_health (f : gmap string string) (b : gmap string (N * Z)) (r : gset string) a
    : Agent P I :=
  mkAgent (ag_router a) (external a) (workers a) (cancellations a) (instances a) (ag_stream a)
    (principal a) (gated_through a) (admission_now_ms a) (ag_batch a) f b r (health_through a).

Definition set_health_through (n : N) a : Agent P I :=
  mkAgent (ag_router a) (external a) (workers a) (cancellations a) (instances a) (ag_stream a)
    (principal a) (gated_through a) (admission_now_ms a) (ag_batch a) (failed a) (backoff a)
    (reduced_batches a) n.
End updates.

(** ** Runs of the agent *)

Record AState (P I W : Type) : Type := mkAState {
  agent_of : Agent P I;
  rstate : RState W;
}.
Arguments mkAState {P I W} _ _.
Arguments agent_of {P I W} _.
Arguments rstate {P I W} _.

Inductive agent_outcome (A : Type) : Type :=
| Done (a : A)
| Failed (e : AgentError)
| Exhausted.
Arguments Done {A} _.
Arguments Failed {A} _.
Arguments Exhausted {A}.

Section monad.
Context {P I W : Type}.

Definition At (A : Type) : Type := AState P I W → agent_outcome A * AState P I W.

Definition at_ret {A} (a : A) : At A := λ s, (Done a, s).
Definition at_fail {A} (e : AgentError) : At A := λ s, (Failed e, s).
Definition at_bind {A B} (m : At A) (k : A → At B) : At B := λ s,
  match m s with
  | (Done a, s) => k a s
  | (Failed e, s) => (Failed e, s)
  | (Exhausted, s) => (Exhausted, s)
  end.

(** A call of the router, [.map_err(AgentError::Router)?]. *)
Definition at_router {A} (m : Rt W A) : At A := λ s,
  let '(o, r) := m (rstate s) in
  (match o with
   | Return a => Done a
   | Fail_ e => Failed (AgentRouter e)
   | OutOfFuel => Exhausted
   end, mkAState (agent_of s) r).

(** A call on the store, [.map_err(|e| AgentError::Storage(e.to_string()))?]. *)
Definition at_store {A} (f : W → result A AppendError * W) : At A := λ s,
  let '(res, w) := f (store (rstate s)) in
  (match res with
   | Ok a => Done a
   | Err e => Failed (AgentStorage (append_error_to_string e))
   end,
   mkAState (agent_of s)
     (mkRState w (projection (rstate s)) (claim_counter (rstate s)) (wall_reads (rstate s)))).

(** [self.authority.resolve(event)], whose failure is a value. *)
Definition at_resolve {R} `{!AuthorityResolver R W} (authority : R) (e : CommittedEvent)
    : At (result Authority string) := λ s,
  let '(res, w) := resolve_authority authority e (store (rstate s)) in
  (Done res,
   mkAState (agent_of s)
     (mkRState w (projection (rstate s)) (claim_counter (rstate s)) (wall_reads (rstate s)))).

Definition at_agent : At (Agent P I) := λ s, (Done (agent_of s), s).
Definition at_update (f : Agent P I → Agent P I) : At unit := λ s,
  (Done tt, mkAState (f (agent_of s)) (rstate s)).
End monad.
Arguments At P I W A : clear implicits.

Declare Scope agent_scope.
Notation "'let^' x := m 'in' k" := (at_bind m (fun x => k))
  (at level 10, x pattern, m at level 100, k at level 200) : agent_scope.
Notation "'run^' m ; k" := (at_bind m (fun _ => k))
  (at level 10, m at level 100, k at level 200) : agent_scope.
Open Scope agent_scope.

Section agent.
Context {JS : SerdeJson} {P : Type} {CP : ConstraintPolicy P}.
Context {W : Type} {ES : EventStore W}.
Context {I : Type} {R : Type} {AR : AuthorityResolver R W}.

(** ** The request gate *)

(** Cancelling every worker that handles the named request for the same actor. *)
Definition handles_request (id : string) (who : PrincipalRef) (batch : list CommittedEvent) : bool :=
  existsb (λ r, String.eqb (event_id r) id && bool_decide (actor (request r) = who)) batch.

Definition cancel_workers (e : CommittedEvent) (a : Agent P I) : Agent P I :=
  match payload_field e "requestEventId" with
  | None => a
  | Some id =>
      set_cancellations
        (map_imap (λ worker cancelled,
           Some (cancelled ||
                 is_some_and (workers a !! worker) (handles_request id (actor (request e)))))
           (cancellations a)) a
  end.

(** One refused request: counted as gated and denied. *)
Definition deny (r : Router P) (e : CommittedEvent) (why : string) : At P I W (N * N) :=
  run^ at_router (append_denial r e why);
  at_ret (1%N, 1%N).

(** A request without a result: its authority is resolved and it is routed. *)
Definition gate_request (authority : R) (now_ms : Z) (r : Router P) (e : CommittedEvent)
    : At P I W (N * N) :=
  let^ resolved := at_resolve authority e in
  match resolved with
  | Err why => deny r e why
  | Ok auth =>
      if is_some_and (payload_field e "capability") (starts_with "memory.")
         && (negb (trusted (origin auth)) || negb (current_depth auth =? 0)%N)
      then deny r e "memory requires a trusted root origin"
      else
        let^ routed := at_router (route_request r e auth now_ms) in
        match routed with
        | Deliver _ => at_ret (1%N, 0%N)
        | NoProvider why | Denied why => deny r e why
        end
  end.

(** One event of the gate: how many requests it gated and denied. *)
Definition gate_event (fuel : nat) (authority : R) (now_ms : Z) (e : CommittedEvent)
    : At P I W (N * N) :=
  run^ at_update (λ a, set_gated_through (N.max (gated_through a) (sequence e)) a);
  if String.eqb (event_type (request e)) "cognition.cancel-requested" then
    run^ at_update (cancel_workers e);
    at_ret (0%N, 0%N)
  else if negb (String.eqb (event_type (request e)) "capability.requested") then
    at_ret (0%N, 0%N)
  else
    let^ a := at_agent in
    let^ answered := at_router (result_for fuel (ag_router a) (event_id e)) in
    if opt_is_some answered then at_ret (0%N, 0%N)
    else gate_request authority now_ms (ag_router a) e.

Fixpoint gate_loop (fuel : nat) (authority : R) (now_ms : Z) (es : list CommittedEvent)
    (gated denied : N) : At P I W (N * N) :=
  match es with
  | [] => at_ret (gated, denied)
  | e :: es =>
      let^ (g, d) := gate_event fuel authority now_ms e in
      gate_loop fuel authority now_ms es (gated + g) (denied + d)
  end.

Definition GATED_TYPES : list string := ["capability.requested"; "cognition.cancel-requested"].

(** [Agent::gate_new_requests]. *)
Definition gate_new_requests (fuel : nat) (authority : R) (now_ms : Z) : At P I W (N * N) :=
  let^ a := at_agent in
  let^ es := at_store (es_query (ag_stream a) (typed_query (gated_through a) GATED_TYPES)
                         (ag_batch a)) in
  gate_loop fuel authority now_ms es 0 0.

(** [Agent::drop_answered_requests]. *)
Definition is_request (t : string) : bool :=
  str_mem t ["capability.requested"; "model.requested"; "code.evaluate-requested"].

Fixpoint drop_answered_requests (fuel : nat) (es kept : list CommittedEvent)
    : At P I W (list CommittedEvent) :=
  match es with
  | [] => at_ret kept
  | e :: es =>
      let^ answered :=
        (if is_request (event_type (request e))
         then let^ a := at_agent in
              let^ found := at_router (result_for fuel (ag_router a) (event_id e)) in
              at_ret (opt_is_some found)
         else at_ret false) in
      drop_answered_requests fuel es (if (answered : bool) then kept else kept ++ [e])
  end.

(** [Agent::cancelled_before]: one page, then the loop.  [None] asks for the
    next page. *)
Fixpoint cancel_in_page (req : CommittedEvent) (before : N) (page : list CommittedEvent)
    : option bool :=
  match page with
  | [] => None
  | e :: page =>
      if (before <=? sequence e)%N then Some false
      else if bool_decide (actor (request e) = actor (request req))
              && bool_decide (payload_field e "requestEventId" = Some (event_id req))
      then Some true
      else cancel_in_page req before page
  end.

Fixpoint cancelled_loop (fuel : nat) (req : CommittedEvent) (before after : N) : At P I W bool :=
  match fuel with
  | O => λ s, (Exhausted, s)
  | S fuel =>
      let^ a := at_agent in
      let^ page := at_store (es_query (ag_stream a)
                               (typed_query after ["cognition.cancel-requested"]) 100) in
      match last page with
      | None => at_ret false
      | Some e =>
          match cancel_in_page req before page with
          | Some verdict => at_ret verdict
          | None => cancelled_loop fuel req before (sequence e)
          end
      end
  end.

Definition cancelled_before (fuel : nat) (req : CommittedEvent) (before : N) : At P I W bool :=
  cancelled_loop fuel req before (sequence req).

(** [Agent::observations_delivered]. *)
Fixpoint observations_delivered_to `{!PluginInstance I} (regs : list Registration)
    : At P I W bool :=
  match regs with
  | [] => at_ret true
  | reg :: regs =>
      let^ a := at_agent in
      let checkpoint := match instances a !! instance_id reg with
                        | Some i => instance_checkpoint i
                        | None => 0%N
                        end in
      let^ pending := at_store (es_query (ag_stream a)
                                  (typed_query checkpoint ["observation.received"]) 1) in
      if bool_decide (pending = []) then observations_delivered_to regs else at_ret false
  end.

Definition observations_delivered `{!PluginInstance I} : At P I W bool :=
  let^ a := at_agent in
  observations_delivered_to
    (filter (λ reg, whole_stream (subscriptions reg) = true) (registrations (ag_router a))).

(** ** Health *)

Definition NEWLINE : string := String (ascii_of_N 10) "".

(** The key of a component's backoff for one request. *)
Definition request_key (id req : string) : string := id +:+ NEWLINE +:+ req.

(** Whether the agent or its operator wrote the event. *)
Definition health_author (a : Agent P I) (e : CommittedEvent) : bool :=
  bool_decide (principal_kind (actor (request e)) = Node)
  && str_mem (principal_id (actor (request e)))
       [principal_id (principal a); "operator:" +:+ principal_id (principal a)].

(** What a health event of component [id] does. *)
Definition apply_health (t id : string) (p : Value) (a : Agent P I) : Agent P I :=
  if String.eqb t "component.backoff" then
    let req := as_str (value_index p "requestEventId") in
    let key := match req with Some r => request_key id r | None => id end in
    let failures := N.min (default 1%N (as_u64 (value_index p "failures")))
                      (if opt_is_some req then 3 else 32) in
    set_health (failed a)
      (<[key := (failures, default 0%Z (as_i64 (value_index p "retryAtMs")))]> (backoff a))
      (if opt_is_some req then {[id]} ∪ reduced_batches a else reduced_batches a) a
  else if String.eqb t "component.recovered" then
    match as_array (value_index p "requestEventIds") with
    | Some requests =>
        set_health (delete id (failed a))
          (foldl (λ b r, delete (request_key id r) b) (delete id (backoff a))
             (omap as_str requests))
          (reduced_batches a) a
    | None =>
        set_health (delete id (failed a))
          (filter (λ kv, kv.1 ≠ id ∧ starts_with (id +:+ NEWLINE) kv.1 = false)
             (delete id (backoff a)))
          (reduced_batches a ∖ {[id]}) a
    end
  else if String.eqb t "component.failed" then
    set_health
      (<[id := default "component failed" (as_str (value_index p "reason"))]> (failed a))
      (backoff a) (reduced_batches a) a
  else a.

(** One event of [Agent::refresh_health]: the agent after it, and the error of
    a payload that does not parse. *)
Definition health_event (a : Agent P I) (e : CommittedEvent) : Agent P I * option string :=
  let a := set_health_through (sequence e) a in
  if negb (health_author a e) then (a, None)
  else match payload (request e) with
       | Blob _ => (a, None)
       | CanonicalJson b =>
           match from_slice b with
           | Err error => (a, Some error)
           | Ok p =>
               match as_str (value_index p "instanceId") with
               | None => (a, None)
               | Some id => (apply_health (event_type (request e)) id p a, None)
               end
           end
       end.

Fixpoint health_page (page : list CommittedEvent) : At P I W unit :=
  match page with
  | [] => at_ret tt
  | e :: page =>
      let^ a := at_agent in
      let '(a', error) := health_event a e in
      run^ at_update (λ _, a');
      match error with
      | Some error => at_fail (AgentStorage error)
      | None => health_page page
      end
  end.

Definition HEALTH_TYPES : list string :=
  ["component.backoff"; "component.recovered"; "component.failed"].

(** [Agent::refresh_health]. *)
Fixpoint refresh_health (fuel : nat) : At P I W unit :=
  match fuel with
  | O => λ s, (Exhausted, s)
  | S fuel =>
      let^ a := at_agent in
      let^ page := at_store (es_query (ag_stream a)
                               (typed_query (health_through a) HEALTH_TYPES) (ag_batch a)) in
      if bool_decide (page = []) then at_ret tt
      else
        run^ health_page page;
        refresh_health fuel
  end.

(** [Agent::recovered]. *)
Definition recovered (id : string) (batch : option (list CommittedEvent)) : At P I W unit :=
  let requests := event_id <$> default [] batch in
  let^ a := at_agent in
  if opt_is_some (backoff a !! id)
     || existsb (λ req, opt_is_some (backoff a !! request_key id req)) requests
  then
    run^ at_router (append_health (ag_router a) "component.recovered"
           (object [("instanceId", Str id); ("requestEventIds", Array (Str <$> requests))]));
    at_update (λ a, set_health (failed a)
      (foldl (λ b req, delete (request_key id req) b) (delete id (backoff a)) requests)
      (reduced_batches a) a)
  else at_ret tt.

(** [Agent::mark_resource_restart_failure]. *)
Definition mark_resource_restart_failure (id error : string) : At P I W unit :=
  let^ a := at_agent in
  run^ at_router (append_health (ag_router a) "component.failed"
         (object [("instanceId", Str id); ("reason", Str error);
                  ("code", Str "resource-exhausted"); ("health", Str "unhealthy")]));
  at_update (λ a, set_health (<[id := error]> (failed a)) (backoff a) (reduced_batches a) a).

(** The guard of [Agent::deliver]: a failed component, or one that backs off,
    is not delivered to. *)
Definition withheld (a : Agent P I) (id : string) : bool :=
  opt_is_some (failed a !! id)
  || existsb (λ '(key, (_, until)),
       (String.eqb key id || starts_with (id +:+ NEWLINE) key)
       && (admission_now_ms a <? until)%Z) (map_to_list (backoff a)).
End agent.

(** The delay of [Agent::defer_delivery] after a number of failures. *)
Definition retry_delay (failures : N) : Z :=
  Z.min (Z.shiftl 1000 (Z.of_N (N.min (failures - 1) 6))) 60000.

(** ** Installation *)

(** [Runtime::instantiate], by the component's manifest and instance id. *)
Class Runtime (I : Type) : Type := {
  instantiate : ComponentManifest → string → result I string;
}.

Section install.
Context {P I : Type} {RT : Runtime I}.
Implicit Types (a : Agent P I).

(** Capabilities one component of the agent owns. *)
Definition exclusive_name (name : string) : bool :=
  starts_with "memory." name || starts_with "schedule." name.

Definition provided_by (regs : list Registration) (name : string) : bool :=
  existsb (λ reg, str_mem name (capabilities (subscriptions reg))) regs.

Definition REBUILD_IMPORTS : list string :=
  ["pluribus:plugin/events@3.0.0"; "pluribus:plugin/state@3.0.0"; "pluribus:plugin/runtime@3.0.0"].

(** A type a component may rebuild from. *)
Definition rebuild_type (m : ComponentManifest) (kind : string) : bool :=
  str_mem kind (subscribes m) && str_mem kind (emits m)
  && negb (str_contains "*" kind) && negb (String.eqb kind "capability.requested").

(** The checks of [Agent::stage_component]. *)
Definition stage_check a (m : ComponentManifest) (id : string) (model_ids : list string)
    (regs : list Registration) : result Registration AgentError :=
  if existsb (λ reg, String.eqb (instance_id reg) id) regs
     || opt_is_some (instances a !! id) || opt_is_some (workers a !! id)
  then Err (AgentStorage ("component instance already installed: " +:+ id))
  else
    let subs := from_manifest m model_ids in
    if whole_stream subs && existsb (λ reg, whole_stream (subscriptions reg)) regs
    then Err (AgentStorage "one cognition writer per agent")
    else match find (λ name, exclusive_name name && provided_by regs name) (capabilities subs) with
         | Some name => Err (AgentStorage ("duplicate exclusive provider: " +:+ name))
         | None =>
             if negb (bool_decide (rebuilds m = []))
                && existsb (λ import, negb (str_mem import REBUILD_IMPORTS)) (imports m)
             then Err (AgentStorage "rebuild providers may import only events, state, and runtime")
             else if existsb (λ kind, negb (rebuild_type m kind)) (rebuilds m)
             then Err (AgentStorage "rebuild types must be subscribed mutation emissions")
             else Ok (mkRegistration id subs)
         end.

(** [Agent::stage_component]. *)
Definition stage_component a (m : ComponentManifest) (id : string) (model_ids : list string)
    (regs : list Registration) : result (Registration * I) AgentError :=
  let? reg := stage_check a m id model_ids regs in
  let? i := map_err AgentRuntime (instantiate m id) in
  Ok (reg, i).

(** The loop of [Agent::install_package] over the components of a package,
    each with its manifest and its models. *)
Fixpoint stage_package a (inst : string) (cs : list (string * (ComponentManifest * list string)))
    (regs : list Registration) : result (list (Registration * I)) AgentError :=
  match cs with
  | [] => Ok []
  | (name, (m, model_ids)) :: cs =>
      let? staged := stage_component a m (component_id inst name) model_ids regs in
      let? rest := stage_package a inst cs (regs ++ [staged.1]) in
      Ok (staged :: rest)
  end.

(** [Agent::activate_component]. *)
Definition activate_component a (staged : Registration * I) : Agent P I :=
  let '(reg, i) := staged in
  let id := instance_id reg in
  mkAgent (register reg (ag_router a))
    (if whole_stream (subscriptions reg) then external a else {[id]} ∪ external a)
    (workers a) (<[id := false]> (cancellations a)) (<[id := i]> (instances a)) (ag_stream a)
    (principal a) (gated_through a) (admission_now_ms a) (ag_batch a) (failed a) (backoff a)
    (reduced_batches a) (health_through a).

(** [Agent::remove], of a component whose worker did not panic. *)
Definition remove_component a (id : string) : Agent P I :=
  mkAgent (unregister id (ag_router a)) (external a ∖ {[id]}) (delete id (workers a))
    (delete id (cancellations a)) (delete id (instances a)) (ag_stream a)
    (principal a) (gated_through a) (admission_now_ms a) (ag_batch a) (failed a) (backoff a)
    (reduced_batches a) (health_through a).

(** Installing and removing components.  Recovering the session of a component
    can fail after earlier components of the package were activated, so an
    installation activates a prefix of what it staged. *)
Inductive install_step a : Agent P I → Prop :=
| step_install inst cs staged n :
    stage_package a inst cs (registrations (ag_router a)) = Ok staged →
    install_step a (foldl activate_component a (take n staged))
| step_remove id : install_step a (remove_component a id).
End install.

(** [run_independent]: every item runs; the first error is returned. *)
Definition run_independent {T E} (results : list (T * result unit E)) : result (list T) E :=
  let first_error := foldl (λ err '(_, res),
    match err with
    | Some _ => err
    | None => match res with Ok _ => None | Err e => Some e end
    end) None results in
  match first_error with
  | Some e => Err e
  | None => Ok (results.*1)
  end.
