(* ===== verification/AgentSpec.v ===== *)
(** What the agent loop promises: a request that passes the gate is settled,
    the health of components is the fold of the log's health events, and
    components that must be alone stay alone. *)
From stdpp Require Import base tactics option list strings sorting gmap relations.
From Stdlib Require Import ZArith NArith Lia Ascii.
From S2P Require Import Prelude Event EventStore Registry Authority Utf8 Sqlite SqliteLog SqliteSpec.
From S2P Require Import Json Manifest Router RouterLoops RouterSpec OriginAuthority Agent.

(** ** Installation *)

(** Instance ids are unique, one component writes cognition, and a memory or
    schedule capability has one provider. *)
Record exclusive (regs : list Registration) : Prop := {
  ex_ids : NoDup (instance_id <$> regs);
  ex_writer : ∀ reg reg', reg ∈ regs → reg' ∈ regs →
    whole_stream (subscriptions reg) = true → whole_stream (subscriptions reg') = true → reg = reg';
  ex_names : ∀ name reg reg', exclusive_name name = true → reg ∈ regs → reg' ∈ regs →
    name ∈ capabilities (subscriptions reg) → name ∈ capabilities (subscriptions reg') → reg = reg';
}.

Lemma exclusive_sublist l l' : l `sublist_of` l' → exclusive l' → exclusive l.
Proof.
  intros Hs [Hi Hw Hn]. pose proof (λ x Hx, elem_of_sublist l l' x Hx Hs) as Hin. split.
  - eapply sublist_NoDup; [done|]. by apply fmap_sublist.
  - intros reg reg' H H'. apply Hw; by apply Hin.
  - intros name reg reg' He H H'. apply Hn; [done|by apply Hin..].
Qed.

Lemma provided_by_spec regs name :
  provided_by regs name = true ↔ ∃ reg, reg ∈ regs ∧ name ∈ capabilities (subscriptions reg).
Proof.
  unfold provided_by. rewrite existsb_exists. setoid_rewrite <- list_elem_of_In.
  by setoid_rewrite str_mem_spec.
Qed.

Section install.
Context {P I : Type} {RT : Runtime I}.
Implicit Types (a : Agent P I).

Lemma stage_check_ok a m id models regs reg :
  stage_check a m id models regs = Ok reg → exclusive regs →
  instance_id reg = id ∧ exclusive (regs ++ [reg]).
Proof.
  unfold stage_check. intros H [Hi Hw Hn].
  destruct (existsb _ regs || _ || _) eqn:Eid; [done|].
  destruct (whole_stream _ && _) eqn:Ew; [done|].
  destruct (find _ _) eqn:Ef; [done|]. destruct (negb (bool_decide _) && _) eqn:Er; [done|].
  destruct (existsb _ (rebuilds m)) eqn:Eb; [done|]. injection H as <-. split; [done|].
  apply orb_false_iff in Eid as [[Eid _]%orb_false_iff _].
  assert (∀ reg name, reg ∈ regs → exclusive_name name = true →
    name ∈ capabilities (subscriptions reg) →
    name ∉ capabilities (from_manifest m models)) as Hfree.
  { intros reg name Hr He Hc Hm. apply list_elem_of_In in Hm.
    pose proof (find_none _ _ Ef name Hm) as Hf. cbn in Hf. rewrite He in Hf. cbn in Hf.
    apply not_true_iff_false in Hf. apply Hf, provided_by_spec. by exists reg. }
  assert (∀ reg, reg ∈ regs → whole_stream (subscriptions reg) = true →
    whole_stream (from_manifest m models) = false) as Hone.
  { intros reg Hr Hwh. destruct (whole_stream (from_manifest m models)); [|done]. cbn in Ew.
    apply not_true_iff_false in Ew. exfalso. apply Ew, existsb_exists. exists reg.
    by rewrite <- list_elem_of_In. }
  split.
  - rewrite fmap_app. apply NoDup_app. split_and!; [done| |apply NoDup_singleton].
    intros x (reg & -> & Hr)%list_elem_of_fmap Hid%list_elem_of_singleton.
    apply not_true_iff_false in Eid. apply Eid, existsb_exists. exists reg.
    rewrite <- list_elem_of_In. split; [done|]. by apply String.eqb_eq.
  - intros reg reg' [Hr| ->%list_elem_of_singleton]%elem_of_app
      [Hr'| ->%list_elem_of_singleton]%elem_of_app Hwh Hwh'; cbn in *; try done.
    + by apply Hw.
    + by rewrite (Hone reg) in Hwh'.
    + by rewrite (Hone reg') in Hwh.
  - intros name reg reg' He [Hr| ->%list_elem_of_singleton]%elem_of_app
      [Hr'| ->%list_elem_of_singleton]%elem_of_app Hc Hc'; cbn in *; try done.
    + by apply (Hn name).
    + by destruct (Hfree reg name).
    + by destruct (Hfree reg' name).
Qed.

Lemma stage_package_ok a inst cs regs staged :
  stage_package a inst cs regs = Ok staged → exclusive regs → exclusive (regs ++ staged.*1).
Proof.
  revert regs staged. induction cs as [|[name [m models]] cs IH]; intros regs staged H He; simpl in H.
  { injection H as <-. by rewrite app_nil_r. }
  unfold stage_component in H. res_inv.
  match goal with Hc : stage_check _ _ _ _ _ = Ok ?reg, Hs : stage_package _ _ _ _ = Ok _ |- _ =>
    apply stage_check_ok in Hc as [_ Hc]; [|done]; apply IH in Hs; [|done] end.
  by rewrite fmap_cons, <- app_assoc in *.
Qed.

Lemma register_fresh reg (r : Router P) :
  instance_id reg ∉ instance_id <$> registrations r →
  registrations (register reg r) = registrations r ++ [reg].
Proof.
  intros Hf. simpl. f_equal. apply filter_all. intros x Hx.
  apply negb_true_iff, String.eqb_neq. intros Hid. apply Hf. rewrite <- Hid.
  by apply list_elem_of_fmap_2.
Qed.

Lemma activate_registrations a staged :
  NoDup (instance_id <$> registrations (ag_router a) ++ staged.*1) →
  registrations (ag_router (foldl activate_component a staged))
    = registrations (ag_router a) ++ staged.*1.
Proof.
  revert a. induction staged as [|[reg i] staged IH]; intros a Hnd; [by rewrite app_nil_r|].
  rewrite fmap_cons in Hnd. cbn [fst] in Hnd.
  assert (registrations (ag_router (activate_component a (reg, i)))
    = registrations (ag_router a) ++ [reg]) as Hreg.
  { apply register_fresh. rewrite fmap_app, NoDup_app in Hnd. destruct Hnd as (_ & Hd & _).
    intros Hin. apply (Hd _ Hin). rewrite fmap_cons. by left. }
  change (foldl activate_component a ((reg, i) :: staged))
    with (foldl activate_component (activate_component a (reg, i)) staged).
  rewrite IH, Hreg, <- app_assoc; [done|]. by rewrite Hreg, <- app_assoc.
Qed.

Lemma install_step_exclusive a a' :
  install_step a a' → exclusive (registrations (ag_router a)) →
  exclusive (registrations (ag_router a')).
Proof.
  intros [inst cs staged n H|id] He.
  - apply stage_package_ok in H; [|done].
    assert (exclusive (registrations (ag_router a) ++ (take n staged).*1)) as Ht.
    { eapply exclusive_sublist; [|exact H]. apply sublist_app; [done|].
      rewrite fmap_take. apply sublist_take. }
    rewrite activate_registrations; [done|apply Ht].
  - eapply exclusive_sublist; [|done]. simpl. apply sublist_filter.
Qed.

Lemma nodup_singleton_bound {A} (l : list A) :
  NoDup l → (∀ x y, x ∈ l → y ∈ l → x = y) → length l ≤ 1.
Proof.
  intros Hnd H. destruct l as [|x [|y l]]; simpl; [lia|lia|]. exfalso.
  apply NoDup_cons in Hnd as [Hx _]. apply Hx. rewrite (H x y); set_solver.
Qed.

(** Components that must be alone stay alone: whatever packages are
    installed, even when an installation stops half way, and whatever is
    removed, instance ids are unique, at most one component writes cognition,
    and a memory or schedule capability has at most one provider, so its
    requests are never refused for having several. *)
Theorem install_exclusive (r : Router P) (stream : StreamId) (who : PrincipalRef) (a : Agent P I) :
  registrations r = [] → rtc install_step (new_agent r stream who) a →
  exclusive (registrations (ag_router a)) ∧
  ∀ name, exclusive_name name = true → length (candidates (ag_router a) name) ≤ 1.
Proof.
  intros Hr Hsteps.
  assert (exclusive (registrations (ag_router a))) as He.
  { assert (exclusive (registrations (ag_router (new_agent (I := I) r stream who)))) as H0.
    { simpl. rewrite Hr. split; [constructor|set_solver|set_solver]. }
    revert H0. clear Hr. induction Hsteps as [|x y z Hs _ IH]; [done|]. intros Hx.
    by apply IH, (install_step_exclusive x). }
  split; [done|]. intros name Hname. unfold candidates. apply nodup_singleton_bound.
  - apply NoDup_filter. eapply NoDup_fmap_1, He.
  - intros x y [Hx Hx']%list_elem_of_filter [Hy Hy']%list_elem_of_filter.
    apply str_mem_spec in Hx, Hy. by apply (ex_names _ He name).
Qed.
End install.

(** ** Runs of the agent *)

(** A resolver reads the log and leaves it alone. *)
Class AuthorityResolverLaws (R W : Type) {ES : EventStore W} {EL : EventStoreLaws W}
    {AR : AuthorityResolver R W} : Prop := {
  resolve_reads : ∀ authority e w res w',
    es_inv w → resolve_authority authority e w = (res, w') → es_inv w' ∧ es_log w' = es_log w;
}.

Section origins.
Context {JS : SerdeJson} {W : Type} {ES : EventStore W} {EL : EventStoreLaws W}.

#[export] Instance origin_resolver : AuthorityResolver OriginAuthority W := {|
  resolve_authority oa e w := resolve oa e w;
|}.

Lemma resolve_loop_reads n oa e inherited w res w' :
  es_inv w → resolve_loop n oa e inherited w = (res, w') → es_inv w' ∧ es_log w' = es_log w.
Proof.
  revert e inherited w. induction n as [|n IH]; intros e inherited w Hi H; simpl in H; [by simplify_eq|].
  repeat (case_match; simplify_eq/=; try done).
  all: match goal with Hg : es_get _ _ = (_, _) |- _ =>
         apply es_get_state in Hg as [Hi' Hl]; [|done] end.
  all: first [by split | match goal with Hr : resolve_loop _ _ _ _ _ = _ |- _ =>
         destruct (IH _ _ _ Hi' Hr) as [? Hl']; split; [done|by rewrite Hl', Hl] end].
Qed.

#[export] Instance origin_resolver_laws : AuthorityResolverLaws OriginAuthority W.
Proof. split. intros oa e w res w'. apply resolve_loop_reads. Qed.
End origins.

Section wp.
Context {P I W : Type}.
Implicit Types (s : AState P I W).

(** The run returns a result that satisfies [Q] or fails in a state that
    satisfies [F]; it does not run out of fuel. *)
Definition awp {A} (m : At P I W A) s (Q : A → AState P I W → Prop) (F : AState P I W → Prop)
    : Prop :=
  match m s with
  | (Done a, s') => Q a s'
  | (Failed _, s') => F s'
  | (Exhausted, _) => False
  end.

Lemma awp_bind {A B} (m : At P I W A) (k : A → At P I W B) s Q F :
  awp m s (λ a s', awp (k a) s' Q F) F → awp (at_bind m k) s Q F.
Proof. unfold awp, at_bind. by destruct (m s) as [[] ?]. Qed.

Lemma awp_ret {A} (a : A) s (Q : A → AState P I W → Prop) F : Q a s → awp (at_ret a) s Q F.
Proof. done. Qed.

Lemma awp_agent s (Q : Agent P I → AState P I W → Prop) F : Q (agent_of s) s → awp at_agent s Q F.
Proof. done. Qed.

Lemma awp_update f s (Q : unit → AState P I W → Prop) F :
  Q tt (mkAState (f (agent_of s)) (rstate s)) → awp (at_update f) s Q F.
Proof. done. Qed.

Lemma awp_mono {A} (m : At P I W A) s (Q Q' : A → AState P I W → Prop)
    (F F' : AState P I W → Prop) :
  awp m s Q F → (∀ a s', Q a s' → Q' a s') → (∀ s', F s' → F' s') → awp m s Q' F'.
Proof. unfold awp. destruct (m s) as [[] ?]; auto. Qed.

Lemma awp_router {A} (m : Rt W A) s (Q : A → AState P I W → Prop) (F : AState P I W → Prop) :
  wp m (rstate s) (λ a rs, Q a (mkAState (agent_of s) rs)) (λ rs, F (mkAState (agent_of s) rs)) →
  awp (at_router m) s Q F.
Proof. unfold wp, awp, at_router. by destruct (m (rstate s)) as [[] ?]. Qed.

(** A call on the store is what it is for the router, with another error. *)
Lemma awp_store {A} (f : W → result A AppendError * W) s (Q : A → AState P I W → Prop)
    (F : AState P I W → Prop) :
  wp (rt_store f) (rstate s)
    (λ a rs, Q a (mkAState (agent_of s) rs)) (λ rs, F (mkAState (agent_of s) rs)) →
  awp (at_store f) s Q F.
Proof. unfold wp, awp, rt_store, at_store. by destruct (f (store (rstate s))) as [[] ?]. Qed.

Lemma awp_resolve {R} {ES : EventStore W} {EL : EventStoreLaws W} {AR : AuthorityResolver R W}
    {ARL : AuthorityResolverLaws R W} (authority : R) e s
    (Q : result Authority string → AState P I W → Prop) F :
  es_inv (store (rstate s)) →
  (∀ res rs, kept (rstate s) rs → Q res (mkAState (agent_of s) rs)) →
  awp (at_resolve authority e) s Q F.
Proof.
  intros Hi HQ. unfold awp, at_resolve. destruct (resolve_authority _ _ _) as [res w] eqn:E.
  apply HQ. apply resolve_reads in E as [Hw Hl]; [|done]. by split_and!.
Qed.
End wp.

(** ** The request gate *)

Section gate.
Context {JS : SerdeJson} {P : Type} {CP : ConstraintPolicy P}.
Context {W : Type} {ES : EventStore W} {EL : EventStoreLaws W}.
Context {I : Type} {R : Type} {AR : AuthorityResolver R W} {ARL : AuthorityResolverLaws R W}.
Implicit Types (s : AState P I W) (r : Router P) (log : list CommittedEvent).

(** The request has a terminal event, or a provider may run it. *)
Definition settled log (st : StreamId) (id : EventId) : Prop :=
  ended log st id ∨
  ∃ prov, first_verdict (of_types log st ["policy.decision"]) id prov = true.

(** Nothing was decided about the request, and the key of its denial is not
    taken by an event that does not answer it. *)
Definition gateable log (st : StreamId) (id : EventId) : Prop :=
  undecided log st id ∧ keys_honest log st ("denied:" +:+ id) id.

(** [log'] adds at most [n] events to [log], the gate's events about [id]. *)
Definition touches (n : nat) (id : EventId) log log' : Prop :=
  ∃ ext, log' = log ++ ext ∧ length ext ≤ n ∧ ∀ x, x ∈ ext →
    causation_id (request x) = Some id ∧
    (deduplication_key (request x) = Some ("policy:" +:+ id) ∨
     deduplication_key (request x) = Some ("denied:" +:+ id)).

Lemma touches_refl n id log : touches n id log log.
Proof. exists []. rewrite app_nil_r. split_and!; [done|simpl; lia|set_solver]. Qed.

Lemma touches_trans n m id log1 log2 log3 :
  touches n id log1 log2 → touches m id log2 log3 → touches (n + m) id log1 log3.
Proof.
  intros (x1 & -> & H1 & Hx1) (x2 & -> & H2 & Hx2). exists (x1 ++ x2). rewrite app_assoc, length_app.
  split_and!; [done|lia|]. intros x [?|?]%elem_of_app; auto.
Qed.

Lemma touches_weaken n m id log log' : touches n id log log' → n ≤ m → touches m id log log'.
Proof. intros (ext & -> & Hl & Hx) Hle. exists ext. split_and!; [done|lia|done]. Qed.

Lemma touches_prefix n id log log' : touches n id log log' → log `prefix_of` log'.
Proof. intros (ext & -> & _). by exists ext. Qed.

Lemma answer_touches r e kind schema b key d log log' :
  key = "policy:" +:+ event_id e ∨ key = "denied:" +:+ event_id e →
  log_append log (answer r e kind schema b key) d log' → touches 1 (event_id e) log log'.
Proof.
  intros Hk [|d' Hd _ _ _]; [apply touches_refl|]. exists [d']. split_and!; [done|done|].
  intros x ->%list_elem_of_singleton. rewrite Hd. cbn. naive_solver.
Qed.

(** The gate's events about one request do not concern another. *)
Lemma gateable_touches n id id' log log' st :
  touches n id log log' → id' ≠ id → gateable log st id' → gateable log' st id'.
Proof.
  intros (ext & -> & _ & Hx) Hne [[Hfree Hnone] Hh]. split; [split|].
  - intros x [Hin|Hin]%elem_of_app Hst; [by apply Hfree|].
    apply Hx in Hin as [_ [->| ->]]; intros Hk; by simplify_eq.
  - unfold of_types. rewrite in_stream_app, filter_app, find_app.
    fold (of_types log st ["policy.decision"]). rewrite Hnone.
    destruct (find (caused_by id') (filter _ _)) as [x|] eqn:Ef; [|done]. exfalso.
    apply find_some in Ef as [Hin%list_elem_of_In Hc]. apply bool_decide_eq_true in Hc.
    apply list_elem_of_filter in Hin as [_ [Hin _]%in_stream_elem]. apply Hx in Hin as [Hc' _]. congruence.
  - intros x [Hin|Hin]%elem_of_app Hst Hk; [by apply Hh|].
    apply Hx in Hin as [_ [Hk'|Hk']]; rewrite Hk in Hk'; by simplify_eq/=.
Qed.

Lemma settled_prefix log log' st id : log `prefix_of` log' → settled log st id → settled log' st id.
Proof.
  intros [ext ->] [He|[prov Hv]].
  - left. apply ended_spec in He as (x & Hx & ?). apply ended_spec. exists x. set_solver.
  - right. exists prov. unfold first_verdict, of_types in *.
    rewrite in_stream_app, filter_app, find_app. by destruct (find _ _).
Qed.

Lemma ended_prefix log log' st id : log `prefix_of` log' → ended log st id → ended log' st id.
Proof.
  intros [ext ->] (x & Hx & ?)%ended_spec. apply ended_spec. exists x. set_solver.
Qed.

Lemma synced_grow r (rs rs' : RState W) :
  synced r rs → es_inv (store rs') → projection rs' = projection rs →
  log_of rs `prefix_of` log_of rs' → synced r rs'.
Proof.
  intros [Hi Hp] Hi' Hproj Hpre. split; [done|]. rewrite Hproj.
  apply (projected_grow (log_of rs)); [by apply es_log_invariant|by apply es_log_invariant|done|done].
Qed.

Lemma synced_kept r (rs rs' : RState W) : synced r rs → kept rs rs' → synced r rs'.
Proof. intros Hs (Hi & Hl & Hp & _). eapply synced_grow; [done..|]. by rewrite Hl. Qed.

(** A state the gate leaves while it works on [id]. *)
Definition working (n : nat) r id s s' : Prop :=
  agent_of s' = agent_of s ∧ synced r (rstate s') ∧
  touches n id (log_of (rstate s)) (log_of (rstate s')).

Lemma deny_wp r e why s :
  synced r (rstate s) →
  keys_honest (log_of (rstate s)) (router_stream r) ("denied:" +:+ event_id e) (event_id e) →
  awp (deny (I := I) r e why) s
    (λ _ s', working 1 r (event_id e) s s' ∧
       ended (log_of (rstate s')) (router_stream r) (event_id e))
    (working 1 r (event_id e) s).
Proof.
  intros Hs Hh. apply awp_bind, awp_router, append_denial_wp; [apply Hs|done| |].
  - intros b d rs Hi Hp Hl He. apply awp_ret. split; [|done].
    pose proof (log_append_prefix _ _ _ _ Hl). split_and!; [done|by eapply synced_grow|].
    eapply answer_touches; [|done]. by right.
  - intros rs Hk. split_and!; [done|by eapply synced_kept|].
    destruct Hk as (_ & Hl & _). cbn [rstate]. rewrite Hl. apply touches_refl.
Qed.

Lemma working_trans n m r id s1 s2 s3 :
  working n r id s1 s2 → working m r id s2 s3 → working (n + m) r id s1 s3.
Proof.
  intros (Ha & _ & Ht) (Ha' & Hs' & Ht'). split_and!; [congruence|done|by eapply touches_trans].
Qed.

Lemma working_weaken n m r id s s' : working n r id s s' → n ≤ m → working m r id s s'.
Proof. intros (? & ? & ?) ?. split_and!; [done|done|by eapply touches_weaken]. Qed.

(** A denial after the gate already worked on the request. *)
Lemma deny_after n r e why s s1 :
  n ≤ 1 → working n r (event_id e) s s1 →
  keys_honest (log_of (rstate s1)) (router_stream r) ("denied:" +:+ event_id e) (event_id e) →
  awp (deny (I := I) r e why) s1
    (λ _ s', working 2 r (event_id e) s s' ∧
       settled (log_of (rstate s')) (router_stream r) (event_id e))
    (working 2 r (event_id e) s).
Proof.
  intros Hn Hw Hh. eapply awp_mono; [apply deny_wp; [apply Hw|done]| |].
  - intros _ s2 [Hw2 He]. split; [|by left].
    eapply working_weaken; [by eapply working_trans|lia].
  - intros s2 Hw2. eapply working_weaken; [by eapply working_trans|lia].
Qed.

Lemma keys_honest_decision r e b d log key :
  request d = answer r e "policy.decision" "pluribus.policy-decision/1" b ("policy:" +:+ event_id e) →
  keys_honest log (router_stream r) ("denied:" +:+ key) key →
  keys_honest (log ++ [d]) (router_stream r) ("denied:" +:+ key) key.
Proof.
  intros Hd Hh x [Hx| ->%list_elem_of_singleton]%elem_of_app Hst Hk; [by apply Hh|].
  rewrite Hd in Hk. by cbn in Hk.
Qed.

Lemma gate_request_wp (authority : R) now_ms r e s :
  json_roundtrip → synced r (rstate s) →
  gateable (log_of (rstate s)) (router_stream r) (event_id e) →
  awp (gate_request authority now_ms r e) s
    (λ _ s', working 2 r (event_id e) s s' ∧
       settled (log_of (rstate s')) (router_stream r) (event_id e))
    (working 2 r (event_id e) s).
Proof.
  intros Hj Hs [Hu Hh]. unfold gate_request. apply awp_bind, awp_resolve; [apply Hs|].
  intros res rs1 Hk. set (s1 := mkAState (agent_of s) rs1).
  assert (log_of rs1 = log_of (rstate s)) as Hl1 by apply Hk.
  assert (working 0 r (event_id e) s s1) as Hw1.
  { split_and!; [done|by eapply synced_kept|]. cbn [rstate s1]. rewrite Hl1. apply touches_refl. }
  rewrite <- Hl1 in Hu, Hh.
  destruct res as [auth|why]; [|by apply (deny_after 0 r e _ s s1); [lia|..]].
  destruct (_ && _); [by apply (deny_after 0 r e _ s s1); [lia|..]|].
  apply awp_bind, awp_router, route_request_wp; [done|apply Hw1|done| | |].
  - intros _. by apply (deny_after 0 r e _ s s1); [lia|..].
  - intros c b d rs2 Hc Hi2 Hp2 Hl2 Hd Hv. cbn [rstate agent_of s1] in *.
    assert (working 1 r (event_id e) s (mkAState (agent_of s) rs2)) as Hw2.
    { apply (working_trans 0 1 _ _ _ s1); [done|]. split_and!; [done| |].
      - eapply synced_grow; [apply Hw1|done|done|]. cbn [rstate s1]. rewrite Hl2. by eexists.
      - cbn [rstate s1]. rewrite Hl2. exists [d]. split_and!; [done|done|].
        intros x ->%list_elem_of_singleton. rewrite Hd. by split; [|left]. }
    assert (keys_honest (log_of rs2) (router_stream r) ("denied:" +:+ event_id e) (event_id e)) as Hh2.
    { rewrite Hl2. by eapply keys_honest_decision. }
    destruct (route_decision r e auth now_ms c) as [prov|why|why] eqn:Ed;
      [|by apply (deny_after 1)..].
    apply awp_ret. split; [by apply (working_weaken 1); [|lia]|]. right. exists prov.
    cbn [rstate]. rewrite Hv. by apply bool_decide_eq_true.
  - intros rs2 Hk2. apply (working_weaken 0); [|lia].
    apply (working_trans 0 0 _ _ _ s1); [done|]. split_and!; [done|by eapply synced_kept; [apply Hw1|]|].
    cbn [rstate s1] in *. destruct Hk2 as (_ & Hl2 & _). rewrite Hl2. apply touches_refl.
Qed.

(** What a part of a pass leaves: the router, a right projection, and a log
    that only grew, by at most [n] events. *)
Record passed (n : nat) s s' : Prop := {
  pass_router : ag_router (agent_of s') = ag_router (agent_of s);
  pass_synced : synced (ag_router (agent_of s)) (rstate s');
  pass_prefix : log_of (rstate s) `prefix_of` log_of (rstate s');
  pass_length : length (log_of (rstate s')) ≤ length (log_of (rstate s)) + n;
}.

Lemma passed_trans n m s1 s2 s3 : passed n s1 s2 → passed m s2 s3 → passed (n + m) s1 s3.
Proof.
  intros [Hr1 _ Hp1 Hl1] [Hr2 Hs2 Hp2 Hl2].
  split; [congruence|by rewrite <- Hr1|by trans (log_of (rstate s2))|lia].
Qed.

Lemma passed_weaken n m s s' : passed n s s' → n ≤ m → passed m s s'.
Proof. intros [] ?. split; [done..|lia]. Qed.

Lemma passed_touches n id s s' :
  ag_router (agent_of s') = ag_router (agent_of s) → synced (ag_router (agent_of s)) (rstate s') →
  touches n id (log_of (rstate s)) (log_of (rstate s')) → passed n s s'.
Proof.
  intros Hr Hs Ht. split; [done|done|by eapply touches_prefix|].
  destruct Ht as (ext & -> & Hl & _). rewrite length_app. lia.
Qed.

Lemma cancel_workers_keeps e (a : Agent P I) :
  ag_router (cancel_workers e a) = ag_router a ∧
  gated_through (cancel_workers e a) = gated_through a.
Proof. unfold cancel_workers. by destruct (payload_field e "requestEventId"). Qed.

(** The request of [e], if it is one, can be settled or is. *)
Definition ready log (st : StreamId) (e : CommittedEvent) : Prop :=
  event_type (request e) = "capability.requested" →
  ended log st (event_id e) ∨ gateable log st (event_id e).

Lemma gate_event_wp fuel (authority : R) now_ms e s :
  let st := router_stream (ag_router (agent_of s)) in
  json_roundtrip → synced (ag_router (agent_of s)) (rstate s) →
  length (log_of (rstate s)) < fuel → ready (log_of (rstate s)) st e →
  awp (gate_event fuel authority now_ms e) s
    (λ _ s', passed 2 s s' ∧ touches 2 (event_id e) (log_of (rstate s)) (log_of (rstate s')) ∧
       gated_through (agent_of s') = N.max (gated_through (agent_of s)) (sequence e) ∧
       (event_type (request e) = "capability.requested" →
          settled (log_of (rstate s')) st (event_id e)))
    (passed 2 s).
Proof.
  intros st Hj Hs Hf Hready. unfold gate_event. apply awp_bind, awp_update.
  set (a := set_gated_through _ _).
  assert (∀ rs, synced (ag_router (agent_of s)) rs → log_of rs = log_of (rstate s) →
    passed 2 s (mkAState a rs) ∧ touches 2 (event_id e) (log_of (rstate s)) (log_of rs)) as Hstay.
  { intros rs Hrs Hl. rewrite Hl. split; [|apply touches_refl].
    split; [done|done|cbn [rstate]; by rewrite Hl|cbn [rstate]; rewrite Hl; lia]. }
  destruct (String.eqb_spec (event_type (request e)) "cognition.cancel-requested") as [Ec|_].
  { apply awp_bind, awp_update, awp_ret. rewrite Ec. split_and!; [| | |done].
    - split; [apply (cancel_workers_keeps e a)|done|done|cbn; lia].
    - apply touches_refl.
    - apply (cancel_workers_keeps e a). }
  destruct (String.eqb_spec (event_type (request e)) "capability.requested") as [Er|Hne]; cbn [negb].
  2: { apply awp_ret. destruct (Hstay _ Hs eq_refl). by split_and!. }
  apply awp_bind, awp_agent. cbn [agent_of]. change (ag_router a) with (ag_router (agent_of s)).
  apply awp_bind, awp_router, result_for_wp; [done|done| |].
  2: { intros rs Hrs Hl. by apply Hstay. }
  intros rs Hrs Hl. destruct (Hstay rs Hrs Hl) as [Hp Ht]. cbn [rstate agent_of] in *.
  destruct (find _ _) as [x|] eqn:Ef; cbn [opt_is_some].
  { apply awp_ret. split_and!; [done|done|done|]. intros _. left. cbn [rstate]. rewrite Hl.
    unfold ended, st. by rewrite Ef. }
  destruct (Hready Er) as [He|Hg]; [unfold ended, st in He; rewrite Ef in He; by destruct He|].
  rewrite <- Hl in Hg.
  eapply awp_mono; [apply (gate_request_wp _ _ (ag_router (agent_of s)) e (mkAState a rs)); done| |];
    unfold working; cbn [rstate agent_of]; rewrite Hl.
  - intros _ s2 [(Ha2 & Hs2 & Ht2) Hset]. split_and!; [|done|by rewrite Ha2|done].
    by eapply passed_touches; [rewrite Ha2| |].
  - intros s2 (Ha2 & Hs2 & Ht2). by eapply passed_touches; [rewrite Ha2| |].
Qed.

Lemma gate_loop_wp fuel (authority : R) now_ms es gated denied s :
  let st := router_stream (ag_router (agent_of s)) in
  json_roundtrip → synced (ag_router (agent_of s)) (rstate s) →
  length (log_of (rstate s)) + 2 * length es < fuel →
  NoDup (event_id <$> es) → (∀ e, e ∈ es → ready (log_of (rstate s)) st e) →
  awp (gate_loop fuel authority now_ms es gated denied) s
    (λ _ s', passed (2 * length es) s s' ∧
       gated_through (agent_of s') = foldl N.max (gated_through (agent_of s)) (sequence <$> es) ∧
       ∀ e, e ∈ es → event_type (request e) = "capability.requested" →
         settled (log_of (rstate s')) st (event_id e))
    (passed (2 * length es) s).
Proof.
  revert gated denied s. induction es as [|e es IH]; intros gated denied s st Hj Hs Hf Hnd Hr; simpl.
  { apply awp_ret. split; [by split; [|done|done|cbn; lia]|]. split; [done|].
    intros ? []%not_elem_of_nil. }
  rewrite fmap_cons, NoDup_cons in Hnd. destruct Hnd as [Hne Hnd]. simpl in Hf. apply awp_bind.
  eapply awp_mono; [apply gate_event_wp; [done|done|lia|apply Hr; by left]| |].
  2: { intros s1 Hp. eapply passed_weaken; [done|lia]. }
  intros [g d] s1 (Hp & Ht & Hg & Hset). pose proof Hp as [Hr1 Hs1 Hpre1 Hl1].
  eapply awp_mono; [apply (IH (gated + g)%N (denied + d)%N s1); rewrite ?Hr1|..].
  - done.
  - done.
  - lia.
  - done.
  - intros e' He' Hc. destruct (Hr e' (list_elem_of_further _ _ _ He') Hc) as [Hend|Hgate].
    + left. by eapply ended_prefix.
    + right. eapply gateable_touches; [done| |done]. intros Heq. apply Hne. rewrite <- Heq.
      by apply list_elem_of_fmap_2.
  - intros _ s2 (Hp2 & Hg2 & Hall). split; [eapply passed_weaken; [by eapply passed_trans|lia]|].
    split; [by rewrite Hg2, Hg|].
    intros e' [->|He']%elem_of_cons Hc; [|by rewrite Hr1 in Hall; apply Hall].
    eapply settled_prefix; [apply Hp2|]. by apply Hset.
  - intros s2 Hp2. eapply passed_weaken; [by eapply passed_trans|lia].
Qed.

Lemma foldl_max_sorted (es : list CommittedEvent) (n : N) :
  StronglySorted seq_lt es → (∀ e, e ∈ es → (n < sequence e)%N) →
  foldl N.max n (sequence <$> es) = match last es with Some e => sequence e | None => n end.
Proof.
  intros Hs. revert n. induction Hs as [|e es Hs IH He]; intros n Hn; [done|].
  assert (n < sequence e)%N by (apply Hn; by left). cbn [fmap list_fmap foldl].
  rewrite N.max_r by lia. rewrite IH.
  - rewrite last_cons. by destruct (last es).
  - rewrite Forall_forall in He. intros x Hx. by apply He.
Qed.

(** The requests one pass of the gate looks at. *)
Definition gate_page (a : Agent P I) log : list CommittedEvent :=
  take (N.to_nat (ag_batch a)) (newer (of_types log (ag_stream a) GATED_TYPES) (gated_through a)).

Lemma gate_page_sublist a log : gate_page a log `sublist_of` log.
Proof.
  unfold gate_page, newer, of_types, in_stream. etrans; [apply sublist_take|].
  etrans; [apply sublist_filter|]. etrans; apply sublist_filter.
Qed.

(** (C25) No request is lost at the gate: a pass reads the next requests after
    the ones it gated before, and when it ends each of them that had not been
    decided earlier has a terminal event in the log or is authorized for a
    provider, whatever its authority; the pass moves on to exactly the end of
    what it read. *)
Theorem gate_settles (fuel : nat) (authority : R) (now_ms : Z) (s : AState P I W) :
  let a := agent_of s in let st := router_stream (ag_router a) in
  json_roundtrip → synced (ag_router a) (rstate s) → 3 * length (log_of (rstate s)) < fuel →
  (∀ e, e ∈ gate_page a (log_of (rstate s)) → ready (log_of (rstate s)) st e) →
  awp (gate_new_requests fuel authority now_ms) s
    (λ _ s', log_of (rstate s) `prefix_of` log_of (rstate s') ∧
       gated_through (agent_of s') =
         match last (gate_page a (log_of (rstate s))) with
         | Some e => sequence e
         | None => gated_through a
         end ∧
       ∀ e, e ∈ gate_page a (log_of (rstate s)) →
         event_type (request e) = "capability.requested" →
         settled (log_of (rstate s')) st (event_id e))
    (λ s', log_of (rstate s) `prefix_of` log_of (rstate s')).
Proof.
  intros a st Hj Hs Hf Hr. pose proof (es_log_invariant _ (proj1 Hs)) as Hl.
  pose proof (gate_page_sublist a (log_of (rstate s))) as Hsub.
  unfold gate_new_requests. apply awp_bind, awp_agent, awp_bind, awp_store. fold a.
  apply wp_query; [apply Hs|apply typed_query_plain| | ].
  2: { intros rs (_ & Hl' & _). cbn [rstate]. by rewrite Hl'. }
  intros rs Hk. rewrite log_query_typed by done. fold (gate_page a (log_of (rstate s))).
  assert (log_of rs = log_of (rstate s)) as Hlog by apply Hk.
  eapply awp_mono; [apply (gate_loop_wp _ _ _ _ _ _ (mkAState a rs));
    cbn [rstate agent_of]; rewrite ?Hlog|..].
  - done.
  - by eapply synced_kept.
  - apply sublist_length in Hsub. lia.
  - eapply sublist_NoDup; [apply (inv_ids _ Hl)|]. by apply fmap_sublist.
  - done.
  - intros _ s' (Hp & Hg & Hall). destruct Hp as [_ _ Hp _]. cbn [rstate agent_of] in *.
    rewrite Hlog in Hp. split_and!; [done| |done]. rewrite Hg. apply foldl_max_sorted.
    + eapply StronglySorted_app_1_l. unfold gate_page. rewrite take_drop.
      by apply filter_sorted, of_types_sorted.
    + intros e He. eapply elem_of_sublist in He; [|apply sublist_take].
      unfold newer in He. by apply list_elem_of_filter in He as [? _].
  - intros s' [_ _ Hp _]. cbn [rstate] in Hp. by rewrite Hlog in Hp.
Qed.
End gate.

(** ** Health *)

Section health.
Context {JS : SerdeJson} {P : Type} {W : Type} {ES : EventStore W} {EL : EventStoreLaws W}.
Context {I : Type}.
Implicit Types (s : AState P I W) (a : Agent P I).

Definition health_step a (e : CommittedEvent) : Agent P I := (health_event a e).1.

Lemma apply_health_keeps t id p a :
  health_through (apply_health t id p a) = health_through a ∧
  ag_stream (apply_health t id p a) = ag_stream a ∧ ag_batch (apply_health t id p a) = ag_batch a.
Proof. unfold apply_health. repeat case_match; done. Qed.

Lemma health_step_keeps a e :
  health_through (health_step a e) = sequence e ∧
  ag_stream (health_step a e) = ag_stream a ∧ ag_batch (health_step a e) = ag_batch a.
Proof.
  unfold health_step, health_event. repeat case_match; try done. cbn [fst].
  match goal with |- context [apply_health ?t ?id ?p ?a'] =>
    by destruct (apply_health_keeps t id p a') as (-> & -> & ->) end.
Qed.

Lemma health_fold_keeps es a :
  ag_stream (foldl health_step a es) = ag_stream a ∧
  ag_batch (foldl health_step a es) = ag_batch a ∧
  health_through (foldl health_step a es) =
    match last es with Some e => sequence e | None => health_through a end.
Proof.
  revert a. induction es as [|e es IH]; intros a; [done|]. cbn [foldl].
  destruct (health_step_keeps a e) as (Ht & Hs & Hb), (IH (health_step a e)) as (-> & -> & ->).
  rewrite last_cons. by destruct (last es).
Qed.

Lemma health_page_wp page s (Q : unit → AState P I W → Prop) (F : AState P I W → Prop) :
  Q tt (mkAState (foldl health_step (agent_of s) page) (rstate s)) →
  (∀ pre post, page = pre ++ post →
     F (mkAState (foldl health_step (agent_of s) pre) (rstate s))) →
  awp (health_page page) s Q F.
Proof.
  revert s. induction page as [|e page IH]; intros s HQ HF; [by destruct s|]. simpl.
  apply awp_bind, awp_agent. destruct (health_event (agent_of s) e) as [a' error] eqn:E.
  assert (health_step (agent_of s) e = a') as Ha by (unfold health_step; by rewrite E).
  cbn [foldl] in HQ. rewrite Ha in HQ. apply awp_bind, awp_update. destruct error as [error|].
  - unfold awp. cbn. rewrite <- Ha. by apply (HF [e] page).
  - apply IH; [done|]. intros pre post ->. specialize (HF (e :: pre) post eq_refl).
    cbn [foldl] in HF. by rewrite Ha in HF.
Qed.

(** Health events of the log the agent has not read. *)
Definition unread a (log : list CommittedEvent) : list CommittedEvent :=
  newer (of_types log (ag_stream a) HEALTH_TYPES) (health_through a).

Lemma unread_fold a log pre post :
  log_invariant log → unread a log = pre ++ post →
  unread (foldl health_step a pre) log = post.
Proof.
  intros Hl Hpp. destruct (health_fold_keeps pre a) as (Hs & _ & Ht).
  unfold unread in *. rewrite Hs, Ht. destruct (last pre) as [e|] eqn:He.
  - rewrite (newer_next _ (health_through a) (length pre)).
    + by rewrite Hpp, drop_app_length.
    + by apply of_types_sorted.
    + by rewrite Hpp, take_app_length.
  - by apply last_None in He as ->.
Qed.

(** [refresh_health] ends and brings the agent's view of its components
    up to date: every health event after the last one read is applied once, in
    order, whatever the page size; when a payload does not parse, exactly the
    events up to it have been applied and the next refresh goes on after it. *)
Theorem refresh_health_exact (fuel : nat) (s : AState P I W) :
  let a := agent_of s in let log := log_of (rstate s) in
  es_inv (store (rstate s)) → (0 < ag_batch a)%N → length (unread a log) < fuel →
  awp (refresh_health fuel) s
    (λ _ s', kept (rstate s) (rstate s') ∧ agent_of s' = foldl health_step a (unread a log) ∧
       unread (agent_of s') log = [])
    (λ s', kept (rstate s) (rstate s') ∧ ∃ pre post, unread a log = pre ++ post ∧
       agent_of s' = foldl health_step a pre ∧ unread (agent_of s') log = post).
Proof.
  revert s. induction fuel as [|fuel IH]; intros s a log Hi Hb Hf; [lia|].
  pose proof (es_log_invariant _ Hi : log_invariant log) as Hl. simpl.
  apply awp_bind, awp_agent, awp_bind, awp_store. fold a.
  apply wp_query; [done|apply typed_query_plain| |].
  2: { intros rs Hk. split; [done|]. by exists [], (unread a log). }
  intros rs Hk. rewrite log_query_typed by done. fold log. fold (unread a log).
  assert (log_of rs = log) as Hlog by apply Hk. case_bool_decide as Hnil.
  { apply awp_ret. assert (unread a log = []) as Hu.
    { apply (newer_empty_page _ _ (N.to_nat (ag_batch a))); [lia|]. fold (unread a log). by rewrite Hnil. }
    split; [done|]. by rewrite Hu. }
  set (page := take (N.to_nat (ag_batch a)) (unread a log)) in *.
  set (rest := drop (N.to_nat (ag_batch a)) (unread a log)).
  assert (unread a log = page ++ rest) as Hpp by by unfold page, rest; rewrite take_drop.
  pose proof (unread_fold a log page rest Hl Hpp) as Hrest.
  apply awp_bind, health_page_wp; cbn [rstate agent_of]; fold a.
  - eapply awp_mono; [apply (IH (mkAState (foldl health_step a page) rs))|..];
      cbn [rstate agent_of]; rewrite ?Hlog, ?Hrest.
    + apply Hk.
    + by destruct (health_fold_keeps page a) as (_ & -> & _).
    + rewrite Hpp, length_app in Hf. destruct page; [done|]. simpl in Hf. lia.
    + intros _ s2 (Hk2 & Ha2 & Hu2). split; [by eapply kept_trans|]. split; [|done].
      by rewrite Hpp, foldl_app.
    + intros s2 (Hk2 & pre & post & Hr & Ha2 & Hu2). split; [by eapply kept_trans|].
      exists (page ++ pre), post. rewrite foldl_app, <- app_assoc. by rewrite <- Hr.
  - intros pre post Hp. split; [done|]. exists pre, (post ++ rest).
    assert (unread a log = pre ++ post ++ rest) as Hall by by rewrite Hpp, Hp, <- app_assoc.
    split_and!; [done|done|]. by apply unread_fold.
Qed.
End health.

(** ** A concrete agent *)

Module AgentSample.
Import Sample Codec RouterSample.

(** A resolver that gives the same answer to every event. *)
Record FixedResolver : Type := mkFixedResolver { fixed_authority : result Authority string }.
#[export] Instance fixed_resolver {W} : AuthorityResolver FixedResolver W := {|
  resolve_authority r _ w := (fixed_authority r, w);
|}.
#[export] Instance fixed_resolver_laws {W} `{EventStoreLaws W} : AuthorityResolverLaws FixedResolver W.
Proof. split. intros r e w res w' Hi Heq. by simplify_eq/=. Qed.

(** Components that instantiate to nothing. *)
#[export] Instance unit_runtime : Runtime unit := {| instantiate _ _ := Ok tt |}.

Definition who : PrincipalRef := mkPrincipalRef Event.Agent "agent".
Definition gate_agent : Agent FixedPolicy unit := new_agent router "agent" who.
Definition gate_state : AState FixedPolicy unit (World nat) := mkAState gate_agent s1.

Lemma gate_state_page : gate_page gate_agent (log_of s1) = [asked].
Proof. by vm_compute. Qed.

Lemma asked_gateable : gateable (log_of s1) "agent" (event_id asked).
Proof. split; [split; [apply s1_free|by vm_compute]|apply s1_honest]. Qed.

(** A log that says the tool failed. *)
Definition failure : AppendRequest :=
  mkAppendRequest "agent" StreamAgent None "component.failed" "pluribus.component-failed/1"
    (CanonicalJson (json_bytes (object [("instanceId", Str "tool"); ("reason", Str "trap")])))
    (mkPrincipalRef Node "agent") None None None None None.
Definition health_state : AState FixedPolicy unit (World nat) :=
  mkAState gate_agent (mkRState (run_call (CallAppend failure) w0) empty_projection 0 0).

Lemma health_state_inv : es_inv (store (rstate health_state)).
Proof. apply reachable_wf. by apply reach_call; [apply reach_open|]. Qed.

Lemma health_state_failed :
  failed (foldl health_step gate_agent (unread gate_agent (log_of (rstate health_state)))) !! "tool"
    = Some "trap".
Proof. by vm_compute. Qed.

Lemma health_state_short : length (unread gate_agent (log_of (rstate health_state))) < 5.
Proof. vm_compute. lia. Qed.

(** A package with a memory component and a cognition component. *)
Definition manifest (subscribed provided : list string) : ComponentManifest :=
  mkComponentManifest "plugin" "component.wasm" "" [] ""
    ((λ name, mkProvidedCapability name "" "" "" None NonIdempotent []) <$> provided) None subscribed [] []
    false [] [] None None.
Definition package : list (string * (ComponentManifest * list string)) :=
  [("notes", (manifest ["memory.remembered"] ["memory.search"], []));
   ("writer", (manifest ["*"] [], []))].
Definition empty_router : Router FixedPolicy :=
  mkRouter "agent" who [] core (mkFixedPolicy (Ok true)).
Definition fresh_agent : Agent FixedPolicy unit := new_agent empty_router "agent" who.
Definition staged : list (Registration * unit) :=
  default [] (result_ok (stage_package fresh_agent "main" package [])).
Definition installed : Agent FixedPolicy unit := foldl activate_component fresh_agent (take 2 staged).

Lemma staged_ok : stage_package fresh_agent "main" package [] = Ok staged.
Proof. by vm_compute. Qed.

Lemma installed_ids :
  instance_id <$> registrations (ag_router installed) = ["main/notes"; "main/writer"].
Proof. by vm_compute. Qed.
End AgentSample.
Import Sample Codec RouterSample AgentSample.

Lemma install_exclusive_witness :
  instance_id <$> registrations (ag_router installed) = ["main/notes"; "main/writer"] ∧
  exclusive (registrations (ag_router installed)) ∧
  ∀ name, exclusive_name name = true → length (candidates (ag_router installed) name) ≤ 1.
Proof.
  split; [apply installed_ids|].
  apply (install_exclusive empty_router "agent" who installed); [reflexivity|].
  apply rtc_once. exact (step_install fresh_agent "main" package staged 2 staged_ok).
Defined.

Lemma gate_settles_witness :
  awp (gate_new_requests 5 (mkFixedResolver (Ok permissive)) 10) gate_state
    (λ _ s', log_of s1 `prefix_of` log_of (rstate s') ∧ gated_through (agent_of s') = 1%N ∧
       ∀ e, e ∈ [asked] → event_type (request e) = "capability.requested" →
         settled (log_of (rstate s')) "agent" (event_id e))
    (λ s', log_of s1 `prefix_of` log_of (rstate s')).
Proof.
  change (1%N) with (match last [asked] with Some e => sequence e | None => 0%N end).
  rewrite <- gate_state_page.
  apply (gate_settles 5 (mkFixedResolver (Ok permissive)) 10 gate_state);
    [apply codec_roundtrip|apply s1_synced|cbn [rstate gate_state]; rewrite s1_log; simpl; lia|].
  intros e He _. right. change (e ∈ gate_page gate_agent (log_of s1)) in He.
  rewrite gate_state_page in He. apply list_elem_of_singleton in He as ->. apply asked_gateable.
Defined.

Lemma refresh_health_exact_witness :
  let a := gate_agent in let log := log_of (rstate health_state) in
  failed (foldl health_step a (unread a log)) !! "tool" = Some "trap" ∧
  awp (refresh_health 5) health_state
    (λ _ s', kept (rstate health_state) (rstate s') ∧ agent_of s' = foldl health_step a (unread a log) ∧
       unread (agent_of s') log = [])
    (λ s', kept (rstate health_state) (rstate s') ∧ ∃ pre post, unread a log = pre ++ post ∧
       agent_of s' = foldl health_step a pre ∧ unread (agent_of s') log = post).
Proof.
  intros a log. split; [apply health_state_failed|].
  apply (refresh_health_exact 5 health_state);
    [apply health_state_inv|reflexivity|apply health_state_short].
Defined.
