(* ===== verification/Host.v ===== *)
(** The host side of one component: [HostState] and the host imports of
    [pluribus-runtime-wasm/src/lib.rs].

    A component is a program the host does not trust.  What it can do is call
    the imports below; [Instance] runs any program over them.  The host keeps
    the provenance it stamps on proposals, the grants, the blobs the component
    may read and its open uploads.  The stores are the interfaces of
    [EventStore] and [Stores].  Waking other tasks ([progress.notify_one]) has
    no effect on data; sockets, HTTP and wall-clock budgets are not modelled. *)
From stdpp Require Import base tactics countable option list strings gmap.
From Stdlib Require Import ZArith NArith Lia Ascii.
From S2P Require Import Prelude Event EventStore Registry Blob Delivery Stores Json.

(** ** Limits *)

Definition MAX_MEMORY_BYTES : N := 512 * 1024 * 1024.
Definition MAX_STATE_KEY_BYTES : N := 512.
Definition MAX_STATE_VALUE_BYTES : N := 1024 * 1024.
Definition MAX_STATE_MUTATIONS : N := 256.
Definition MAX_STATE_SCAN_ENTRIES : N := 1000.
Definition MAX_BLOB_CHUNK_BYTES : N := 1024 * 1024.
Definition MAX_EVENT_PAGE : N := 1000.
Definition MAX_OUTCOME_EVENTS : N := 1000.

(** ** Errors *)

(** [types.error-code] and [types.error] of the plugin interface. *)
Inductive ErrorCode : Type :=
| InvalidArgument
| NotFound
| PermissionDenied
| Unsupported
| Conflict
| Unavailable
| ResourceExhausted
| Cancelled
| DeadlineExceeded
| Internal.

Record WitError : Type := mkWitError {
  code : ErrorCode;
  error_message : string;
  retryable : bool;
  details : option bytes;
}.

Definition host_error (c : ErrorCode) (message : string) : WitError :=
  mkWitError c message
    (match c with
     | Unavailable | ResourceExhausted => true
     | _ => false
     end) None.

Definition blob_error (e : BlobError) : WitError :=
  host_error
    (match e with
     | BlobNotFound => NotFound
     | BlobConflict _ _ => Conflict
     | BlobInvalid _ => InvalidArgument
     | BlobResourceExhausted _ => ResourceExhausted
     | BlobCorrupt _ | BlobStorage _ => Internal
     end) (blob_error_to_string e).

Definition state_error (e : StateError) : WitError :=
  match e with
  | StateConflict expected actual =>
      host_error Conflict ("state revision conflict: expected " +:+ u64_to_string expected
        +:+ ", actual " +:+ u64_to_string actual)
  | StateInvalid message => host_error InvalidArgument message
  | StateStorage message => mkWitError Internal message true None
  end.

Definition error_code (c : ErrorCode) : string :=
  match c with
  | InvalidArgument => "invalid-argument"
  | NotFound => "not-found"
  | PermissionDenied => "permission-denied"
  | Unsupported => "unsupported"
  | Conflict => "conflict"
  | Unavailable => "unavailable"
  | ResourceExhausted => "resource-exhausted"
  | Cancelled => "cancelled"
  | DeadlineExceeded => "deadline-exceeded"
  | Internal => "internal"
  end.

Record ResourceExhaustion : Type := mkResourceExhaustion {
  resource : string;
  current_bytes : N;
  requested_bytes : N;
  limit_bytes : N;
  phase : string;
  job_id : option string;
  session_id : option string;
}.

Record RuntimeError : Type := mkRuntimeError {
  message : string;
  trapped : bool;
  resource_exhaustion : option ResourceExhaustion;
}.

(** [RuntimeError::new], [RuntimeError::trap], [RuntimeError::resource_limit]. *)
Definition rt_new (m : string) : RuntimeError := mkRuntimeError m false None.
Definition rt_trap (m : string) : RuntimeError := mkRuntimeError m true None.
Definition rt_resource_limit (r : ResourceExhaustion) (m : string) : RuntimeError :=
  mkRuntimeError m true (Some r).

(** [HostState::resource_error], [resource_error_from_evidence]: what a trap
    reports, given the evidence the limiter recorded. *)
Definition resource_error (evidence : option ResourceExhaustion) (m : string) : RuntimeError :=
  map_or evidence (rt_trap m) (λ e, rt_resource_limit e m).

(** The derived deserializers of the host: a [ResourceExhaustion] and a [u64]
    from JSON text. *)
Class HostCodec : Type := {
  resource_from_slice : bytes → option ResourceExhaustion;
  u64_from_slice : bytes → result N string;
}.

Definition plugin_failure `{HostCodec} (e : WitError) : RuntimeError :=
  let m := error_code (code e) +:+ ": " +:+ error_message e in
  match code e, details e with
  | ResourceExhausted, Some d =>
      match resource_from_slice d with
      | Some r => mkRuntimeError m false (Some r)
      | None => rt_new m
      end
  | _, _ => rt_new m
  end.

(** ** What crosses the interface *)

(** [types.principal], [types.payload] and [types.blob-ref] have the fields of
    [PrincipalRef], [EventPayload] and [BlobRef] and are modelled by them. *)
Record WitEvent : Type := mkWitEvent {
  wit_event_id : string;
  wit_sequence : N;
  wit_recorded_at_ms : Z;
  wit_event_type : string;
  wit_payload_schema : string;
  wit_payload : EventPayload;
  wit_actor : PrincipalRef;
  wit_authority_id : option string;
  wit_activity_id : option string;
  wit_correlation_id : option string;
  wit_causation_id : option string;
}.

Definition wit_event (e : CommittedEvent) : WitEvent := {|
  wit_event_id := event_id e;
  wit_sequence := sequence e;
  wit_recorded_at_ms := recorded_at_ms e;
  wit_event_type := event_type (request e);
  wit_payload_schema := payload_schema (request e);
  wit_payload := payload (request e);
  wit_actor := actor (request e);
  wit_authority_id := authority_id (request e);
  wit_activity_id := activity_id (request e);
  wit_correlation_id := correlation_id (request e);
  wit_causation_id := causation_id (request e);
|}.

(** [value.payload = types::Payload::Json(b"{}")]. *)
Definition empty_object_bytes : bytes := [Byte.x7b; Byte.x7d].
Definition redact (e : WitEvent) : WitEvent := {|
  wit_event_id := wit_event_id e;
  wit_sequence := wit_sequence e;
  wit_recorded_at_ms := wit_recorded_at_ms e;
  wit_event_type := wit_event_type e;
  wit_payload_schema := wit_payload_schema e;
  wit_payload := CanonicalJson empty_object_bytes;
  wit_actor := wit_actor e;
  wit_authority_id := wit_authority_id e;
  wit_activity_id := wit_activity_id e;
  wit_correlation_id := wit_correlation_id e;
  wit_causation_id := wit_causation_id e;
|}.

Record Proposal : Type := mkProposal {
  p_event_type : string;
  p_payload_schema : string;
  p_payload : EventPayload;
  p_idempotency_key : option string;
  p_causation_id : option string;
}.

Inductive Mutation : Type :=
| MutationSet (key : string) (value : bytes)
| MutationDelete (key : string).

Record GuestOutcome : Type := mkGuestOutcome {
  o_events : list Proposal;
  o_mutations : list Mutation;
  o_checkpoint : option N;
}.

Record Filter : Type := mkFilter {
  f_after_sequence : option N;
  f_event_types : list string;
  f_correlation_id : option string;
  f_activity_id : option string;
  f_recorded_from_ms : option Z;
  f_recorded_to_ms : option Z;
  f_text_query : option string;
  f_before_sequence : option N;
  f_conversation_id : option string;
  f_descending : bool;
}.

Record EventPage : Type := mkEventPage {
  page_events : list WitEvent;
  next_sequence : option N;
}.

Record WitStatePage : Type := mkWitStatePage {
  wit_entries : list StateEntry;
  wit_next_key : option string;
}.

(** ** The host's state *)

(** Host-assigned provenance for one delivery. *)
Record Delivery : Type := mkDelivery {
  d_instance_id : string;
  d_agent : PrincipalRef;
  d_actor : PrincipalRef;
  d_authority_id : string;
  d_activity_id : string;
  d_correlation_id : string;
  d_origin_event_id : string;
  d_depth : N;
  d_deadline_at_ms : option Z;
  d_visible_blobs : list BlobRef;
}.

Record CredentialExport : Type := mkCredentialExport {
  x_credential : string;
  x_provider : string;
  x_export : string;
}.

Record CredentialAccess : Type := mkCredentialAccess {
  ca_provider : string;
  ca_handles : gset string;
  ca_exports : gmap string CredentialExport;
}.

(** What one committed delivery produced. *)
Record Outcome : Type := mkOutcome {
  outcome_events : list CommittedEvent;
  outcome_checkpoint : N;
}.

(** [runner::Command], without the reply channel. *)
Inductive Command : Type :=
| Deliver (batch : list CommittedEvent)
| Stop (deadline : Z).

(** [runner::HostRunner]: the inbox, what was sent on the reply channels and
    on the output channel, oldest first, and the delivery not yet answered. *)
Record HostRunner : Type := mkHostRunner {
  active : bool;
  stopping : bool;
  inbox : list Command;
  output : list (result Outcome RuntimeError);
  replies : list (result Outcome RuntimeError);
  runner_checkpoint : N;
  pending : option (list CommittedEvent);
}.

(** [HostRunner::default()]. *)
Definition idle_runner : HostRunner := mkHostRunner false false [] [] [] 0 None.

Record HostState : Type := mkHostState {
  h_credentials : option CredentialAccess;
  h_identity : option string;
  h_model : option string;
  h_memory_limit : N;
  h_evidence : option ResourceExhaustion;
  h_phase : string;
  h_delivery : Delivery;
  h_cancelled : bool;
  h_shutdown : bool;
  h_replaying : bool;
  h_emits : list string;
  h_active_uploads : gset string;
  h_visible_blobs : gset BlobRef;
  h_append_sequence : N;
  h_runner : HostRunner;
  h_emit_call : bool;
}.

(** Updates of one field. *)
Definition set_evidence (e : option ResourceExhaustion) (p : string) (h : HostState) : HostState :=
  mkHostState (h_credentials h) (h_identity h) (h_model h) (h_memory_limit h) e p
    (h_delivery h) (h_cancelled h) (h_shutdown h) (h_replaying h) (h_emits h)
    (h_active_uploads h) (h_visible_blobs h) (h_append_sequence h) (h_runner h) (h_emit_call h).
Definition set_flags (cancelled shutdown : bool) (h : HostState) : HostState :=
  mkHostState (h_credentials h) (h_identity h) (h_model h) (h_memory_limit h) (h_evidence h)
    (h_phase h) (h_delivery h) cancelled shutdown (h_replaying h) (h_emits h)
    (h_active_uploads h) (h_visible_blobs h) (h_append_sequence h) (h_runner h) (h_emit_call h).
Definition set_replaying (r : bool) (h : HostState) : HostState :=
  mkHostState (h_credentials h) (h_identity h) (h_model h) (h_memory_limit h) (h_evidence h)
    (h_phase h) (h_delivery h) (h_cancelled h) (h_shutdown h) r (h_emits h)
    (h_active_uploads h) (h_visible_blobs h) (h_append_sequence h) (h_runner h) (h_emit_call h).
Definition set_uploads (u : gset string) (h : HostState) : HostState :=
  mkHostState (h_credentials h) (h_identity h) (h_model h) (h_memory_limit h) (h_evidence h)
    (h_phase h) (h_delivery h) (h_cancelled h) (h_shutdown h) (h_replaying h) (h_emits h)
    u (h_visible_blobs h) (h_append_sequence h) (h_runner h) (h_emit_call h).
Definition set_visible (v : gset BlobRef) (h : HostState) : HostState :=
  mkHostState (h_credentials h) (h_identity h) (h_model h) (h_memory_limit h) (h_evidence h)
    (h_phase h) (h_delivery h) (h_cancelled h) (h_shutdown h) (h_replaying h) (h_emits h)
    (h_active_uploads h) v (h_append_sequence h) (h_runner h) (h_emit_call h).
Definition set_append_sequence (n : N) (h : HostState) : HostState :=
  mkHostState (h_credentials h) (h_identity h) (h_model h) (h_memory_limit h) (h_evidence h)
    (h_phase h) (h_delivery h) (h_cancelled h) (h_shutdown h) (h_replaying h) (h_emits h)
    (h_active_uploads h) (h_visible_blobs h) n (h_runner h) (h_emit_call h).
Definition set_runner (r : HostRunner) (h : HostState) : HostState :=
  mkHostState (h_credentials h) (h_identity h) (h_model h) (h_memory_limit h) (h_evidence h)
    (h_phase h) (h_delivery h) (h_cancelled h) (h_shutdown h) (h_replaying h) (h_emits h)
    (h_active_uploads h) (h_visible_blobs h) (h_append_sequence h) r (h_emit_call h).
Definition set_emit_call (b : bool) (h : HostState) : HostState :=
  mkHostState (h_credentials h) (h_identity h) (h_model h) (h_memory_limit h) (h_evidence h)
    (h_phase h) (h_delivery h) (h_cancelled h) (h_shutdown h) (h_replaying h) (h_emits h)
    (h_active_uploads h) (h_visible_blobs h) (h_append_sequence h) (h_runner h) b.

(** What the operator granted: [PluginServices], as far as it is modelled. *)
Record PluginServices : Type := mkPluginServices {
  sv_credentials : option CredentialAccess;
  sv_model : option string;
  sv_identity : option string;
  sv_http_grant : option PrincipalRef;
  sv_memory_bytes : option N;
}.

(** [HostState::new]. *)
Definition host_new (memory_bytes : N) (d : Delivery) (granted : PluginServices)
    (emits : list string) : HostState := {|
  h_credentials := sv_credentials granted;
  h_identity := sv_identity granted;
  h_model := sv_model granted;
  h_memory_limit := memory_bytes;
  h_evidence := None;
  h_phase := "startup";
  h_delivery := d;
  h_cancelled := false;
  h_shutdown := false;
  h_replaying := false;
  h_emits := emits;
  h_active_uploads := ∅;
  h_visible_blobs := list_to_set (d_visible_blobs d);
  h_append_sequence := 0;
  h_runner := idle_runner;
  h_emit_call := false;
|}.

(** [CancellationHandle::cancel], [shutdown] and [reset]. *)
Definition cancel (h : HostState) : HostState := set_flags true (h_shutdown h) h.
Definition shutdown (h : HostState) : HostState := set_flags true true h.
Definition reset (h : HostState) : HostState := set_flags false (h_shutdown h) h.

(** [HostState::interrupt_flag] and [HostState::interrupted]: cancellation
    reaches a delivery; a source loop between deliveries ends on shutdown. *)
Definition interrupted (h : HostState) : bool :=
  if active (h_runner h) && negb (opt_is_some (pending (h_runner h)))
  then h_shutdown h else h_cancelled h.

(** [RuntimeLimiter::record] and [memory_growing]: the first growth past the
    limit is the evidence a trap reports. *)
Definition memory_growing (current desired : N) (h : HostState) : HostState :=
  if (h_memory_limit h <? desired)%N && negb (opt_is_some (h_evidence h))
  then set_evidence (Some (mkResourceExhaustion "memory" current desired (h_memory_limit h)
         (h_phase h) None None)) (h_phase h) h
  else h.

(** ** Blob references *)

Section json.
Context {SJ : SerdeJson}.

Definition http_request_visible (e : CommittedEvent) (inst : string) : bool :=
  if negb (String.eqb (event_type (request e)) "http.request.received")
     || String.eqb (principal_id (actor (request e))) inst
  then true
  else match payload (request e) with
       | Blob _ => false
       | CanonicalJson b =>
           is_some_and (result_ok (from_slice b)) (λ v,
             is_some_and (as_str (value_index v "consumer")) (String.eqb inst))
       end.

Definition option_or {A} (a b : option A) : option A :=
  match a with
  | Some _ => a
  | None => b
  end.

Definition blob_ref_from (m : list (string * Value)) : option BlobRef :=
  algorithm ← map_get "algorithm" m ≫= as_str;
  digest ← map_get "digest" m ≫= as_str;
  size ← map_get "size" m ≫= as_u64;
  media_type ← option_or (map_get "media_type" m)
                 (option_or (map_get "media-type" m) (map_get "mediaType" m)) ≫= as_str;
  Some (mkBlobRef algorithm digest size media_type).

Fixpoint collect_blob_refs (v : Value) : list BlobRef :=
  match v with
  | Object m =>
      option_list (blob_ref_from m) ++ concat ((λ '(_, v), collect_blob_refs v) <$> m)
  | Array l => concat (collect_blob_refs <$> l)
  | _ => []
  end.

Definition referenced_blobs (e : CommittedEvent) : list BlobRef :=
  match payload (request e) with
  | Blob blob => [blob]
  | CanonicalJson b =>
      match from_slice b with
      | Ok value => collect_blob_refs value
      | Err _ => []
      end
  end.

Definition same_blob_content (left right : BlobRef) : bool :=
  String.eqb (algorithm left) (algorithm right) && String.eqb (digest left) (digest right)
  && (blob_size left =? blob_size right)%N.

Definition authorize_blob_references (p : EventPayload) (visible : gset BlobRef)
    : result unit RuntimeError :=
  let? found := match p with
                | Blob blob => Ok [blob]
                | CanonicalJson b =>
                    let? value := map_err (λ e, rt_new ("invalid proposal JSON: " +:+ e))
                                    (from_slice b) in
                    Ok (collect_blob_refs value)
                end in
  let found := List.filter (λ blob, is_ok (validate_blob_ref blob)) found in
  if existsb (λ blob, negb (existsb (same_blob_content blob) (elements visible))) found
  then Err (rt_new "proposal references a blob not visible to this delivery")
  else Ok tt.

(** [HostState::reveal_event_blobs]. *)
Definition reveal_event_blobs (es : list CommittedEvent) (h : HostState) : HostState :=
  let seen := List.filter (λ e, http_request_visible e (d_instance_id (h_delivery h))) es in
  let found := concat (referenced_blobs <$> seen) in
  set_visible
    (foldl (λ visible blob, if is_ok (validate_blob_ref blob) then {[blob]} ∪ visible else visible)
       (h_visible_blobs h) found) h.

(** [HostState::ensure_visible_blob]. *)
Definition ensure_visible_blob (blob : BlobRef) (h : HostState) : result unit WitError :=
  try! map_err blob_error (validate_blob_ref blob);
  if bool_decide (blob ∈ h_visible_blobs h) then Ok tt
  else Err (host_error PermissionDenied "blob is not visible to this delivery").

(** [core_blob_ref]. *)
Definition core_blob_ref (blob : BlobRef) : result BlobRef WitError :=
  try! map_err blob_error (validate_blob_ref blob);
  Ok blob.

(** [core_payload]. *)
Definition core_payload (p : EventPayload) : result EventPayload WitError :=
  match p with
  | CanonicalJson b => Ok (CanonicalJson b)
  | Blob blob => result_map Blob (core_blob_ref blob)
  end.

(** ** Proposals *)

(** The instructions and the model the host adds to a model request. *)
Definition inject_identity (identity : string) (messages : list Value)
    : result (list Value) RuntimeError :=
  let content := object [("kind", Str "text"); ("text", Str identity)] in
  let added := object [("role", Str "system"); ("content", Array [content])] in
  match messages with
  | first :: rest =>
      if is_some_and (as_str (value_index first "role")) (String.eqb "system") then
        let? items := ok_or (as_array (value_index first "content"))
                        (rt_new "system message requires content") in
        Ok (value_set first "content" (Array (content :: items)) :: rest)
      else Ok (added :: messages)
  | [] => Ok [added]
  end.

Definition complete_model_request (h : HostState) (b : bytes) : result bytes RuntimeError :=
  let? value := map_err (λ e, rt_new ("invalid model request: " +:+ e)) (from_slice b) in
  let? fields := ok_or (as_object value) (rt_new "model request must be an object") in
  let? fields :=
    if opt_is_some (map_get "model" fields) then Ok fields
    else let? model := ok_or (h_model h) (rt_new "no host model configured") in
         Ok (map_insert "model" (Str model) fields) in
  let? fields :=
    match h_identity h with
    | Some identity =>
        if str_is_empty identity then Ok fields
        else
          let? messages := ok_or (map_get "messages" fields ≫= as_array)
                             (rt_new "model request requires messages") in
          let? messages := inject_identity identity messages in
          Ok (map_insert "messages" (Array messages) fields)
    | None => Ok fields
    end in
  map_err rt_new (to_vec (Object fields)).

(** [HostState::append_request]. *)
Definition append_request (h : HostState) (proposal : Proposal) (causation : option EventId)
    (derived_key : option string) : result AppendRequest RuntimeError :=
  if h_replaying h then Err (rt_new "events cannot be appended during replay")
  else
    let causation_id := option_or (p_causation_id proposal) causation in
    if negb (opt_is_some causation_id) && negb (h_emit_call h)
    then Err (rt_new
      "proposal needs an explicit causation ID when a batch carries several events")
    else
      let? payload := map_err
        (λ e, rt_new ("invalid proposal payload: " +:+ error_message e))
        (core_payload (p_payload proposal)) in
      try! authorize_blob_references payload (h_visible_blobs h);
      let? payload :=
        match payload with
        | CanonicalJson b =>
            if String.eqb (p_event_type proposal) "model.requested"
            then result_map CanonicalJson (complete_model_request h b)
            else Ok payload
        | Blob _ => Ok payload
        end in
      let r := {|
        stream_id := principal_id (d_agent (h_delivery h));
        stream_kind := StreamAgent;
        observed_at_ms := None;
        event_type := p_event_type proposal;
        payload_schema := p_payload_schema proposal;
        payload := payload;
        actor := mkPrincipalRef Component (d_instance_id (h_delivery h));
        authority_id := Some (d_authority_id (h_delivery h));
        activity_id := Some (d_activity_id (h_delivery h));
        correlation_id := Some (d_correlation_id (h_delivery h));
        causation_id := causation_id;
        deduplication_key := option_or (p_idempotency_key proposal) derived_key;
      |} in
      try! map_err (λ e, rt_new (registry_error_to_string e)) (authorize core r (h_emits h));
      Ok r.

Definition event_conversation_id (e : CommittedEvent) : option string :=
  match payload (request e) with
  | Blob _ => None
  | CanonicalJson b =>
      value ← result_ok (from_slice b);
      option_or (as_str (value_index value "conversationId"))
        (as_str (value_index (value_index value "arguments") "conversationId"))
  end.
End json.

(** [convert_mutations]. *)
Definition convert_mutation (m : Mutation) : result StateMutation RuntimeError :=
  match m with
  | MutationSet key value =>
      if (MAX_STATE_KEY_BYTES <? str_len key)%N then Err (rt_new "state key exceeds 512 bytes")
      else if (MAX_STATE_VALUE_BYTES <? len value)%N
      then Err (rt_new "state value exceeds 1 MiB")
      else Ok (Set_ key value)
  | MutationDelete key =>
      if (MAX_STATE_KEY_BYTES <? str_len key)%N then Err (rt_new "state key exceeds 512 bytes")
      else Ok (Delete key)
  end.

Fixpoint try_map {A B E} (f : A → result B E) (l : list A) : result (list B) E :=
  match l with
  | [] => Ok []
  | x :: l => let? y := f x in let? ys := try_map f l in Ok (y :: ys)
  end.

Definition convert_mutations (ms : list Mutation) : result (list StateMutation) RuntimeError :=
  if (MAX_STATE_MUTATIONS <? len ms)%N then Err (rt_new "outcome proposes too many mutations")
  else try_map convert_mutation ms.

Definition validate_state_key (key : string) : result unit WitError :=
  if (MAX_STATE_KEY_BYTES <? str_len key)%N
  then Err (host_error ResourceExhausted "state key exceeds 512 bytes")
  else Ok tt.
