(* ===== verification/Imports.v ===== *)
(** The host imports of [pluribus-runtime-wasm/src/lib.rs]: one definition per
    function of the interfaces [events], [state], [blobs] and [credentials],
    and the programs a component can be: any finite tree of calls, cut off by
    a trap wherever the engine, a deadline or a cancellation stops it. *)
From stdpp Require Import base tactics countable option list strings gmap.
From Stdlib Require Import ZArith NArith Lia Ascii.
From S2P Require Import Prelude Event EventStore Registry Blob Delivery Stores Json Host.

(** ** State passing with errors *)

(** A fallible step on a state. *)
Definition SM (S E A : Type) : Type := S → result A E * S.

Section monad.
Context {S : Type}.
Definition sm_ret {E A} (a : A) : SM S E A := λ s, (Ok a, s).
Definition sm_fail {E A} (e : E) : SM S E A := λ s, (Err e, s).
Definition sm_lift {E A} (r : result A E) : SM S E A := λ s, (r, s).
Definition sm_bind {E A B} (m : SM S E A) (k : A → SM S E B) : SM S E B := λ s,
  match m s with
  | (Ok a, s') => k a s'
  | (Err e, s') => (Err e, s')
  end.
Definition sm_map_err {E F A} (f : E → F) (m : SM S E A) : SM S F A := λ s,
  match m s with
  | (Ok a, s') => (Ok a, s')
  | (Err e, s') => (Err (f e), s')
  end.
(** The outcome as a value, to be inspected. *)
Definition sm_try {E F A} (m : SM S E A) : SM S F (result A E) := λ s,
  let '(r, s') := m s in (Ok r, s').
Definition sm_get {E} : SM S E S := λ s, (Ok s, s).
Definition sm_update {E} (f : S → S) : SM S E unit := λ s, (Ok tt, f s).
End monad.

Notation "'let+' x := m 'in' k" := (sm_bind m (fun x => k))
  (at level 10, x pattern, m at level 100, k at level 200) : rust_scope.
Notation "'do+' m ; k" := (sm_bind m (fun _ => k))
  (at level 10, m at level 100, k at level 200) : rust_scope.

(** ** The world of one component *)

Record HostWorld (W B : Type) : Type := mkHostWorld {
  host : HostState;
  store : W;
  blob_store : B;
  clock_reads : N;
}.
Arguments mkHostWorld {W B} host store blob_store clock_reads.
Arguments host {W B} _.
Arguments store {W B} _.
Arguments blob_store {W B} _.
Arguments clock_reads {W B} _.

(** ** Programs over the imports *)

(** What [runtime.next] answers. *)
Inductive Wake : Type :=
| WakeEvents (events : list WitEvent)
| WakeStop (deadline : Z).

Inductive HostCall : Type :=
| EventsAppend (p : Proposal)
| EventsGet (id : string)
| EventsQuery (f : Filter) (limit : N)
| StateGet (key : string)
| StateScan (prefix : string) (after_key : option string) (limit : N)
| BlobsPut (media_type : string) (b : bytes)
| BlobsOpenWrite (media_type : string) (expected : option N)
| BlobsWrite (handle : string) (offset : N) (b : bytes)
| BlobsFinish (handle : string)
| BlobsResolveVisible (dig : string)
| BlobsRead (blob : BlobRef) (offset max_bytes : N)
| CredentialsResolveExport (binding : string)
| CredentialsGet (handle : string)
| CredentialsCompareAndSwap (handle : string) (expected : option bytes) (value : bytes)
| RuntimeReady (proposals : list Proposal) (ms : list Mutation)
| RuntimeNext
| RuntimeCommit (proposals : list Proposal) (ms : list Mutation) (claimed : option N)
| RuntimeReject (e : WitError)
| MemoryGrowing (current desired : N).

(** What a call answers. *)
Definition answer_of (c : HostCall) : Type :=
  match c with
  | EventsAppend _ | BlobsWrite _ _ _ => result N WitError
  | EventsGet _ => result WitEvent WitError
  | EventsQuery _ _ => result EventPage WitError
  | StateGet _ | CredentialsGet _ => result (option bytes) WitError
  | StateScan _ _ _ => result WitStatePage WitError
  | BlobsPut _ _ | BlobsFinish _ | BlobsResolveVisible _ => result BlobRef WitError
  | BlobsOpenWrite _ _ | CredentialsResolveExport _ => result string WitError
  | BlobsRead _ _ _ => result BlobChunk WitError
  | CredentialsCompareAndSwap _ _ _ => result bool WitError
  | RuntimeReady _ _ | RuntimeCommit _ _ _ | RuntimeReject _ => result unit WitError
  | RuntimeNext => result Wake WitError
  | MemoryGrowing _ _ => unit
  end.

(** A program: it returns, is stopped, or calls the host and goes on with the
    answer. *)
Inductive Guest (A : Type) : Type :=
| Return (a : A)
| Trap (reason : string)
| Call (c : HostCall) (k : answer_of c → Guest A).
Arguments Return {A} a.
Arguments Trap {A} reason.
Arguments Call {A} c k.

(** What a program was answered. *)
Record Answered : Type := mkAnswered { asked : HostCall; answered : answer_of asked }.

(** [SystemTime::now()] since the epoch in milliseconds, at each reading. *)
Class SystemClock : Type := { elapsed_ms : N → N }.

Section imports.
Context {W B : Type} {ES : EventStore W} {SS : StateStore W} {DS : DeliveryStore W}
  {CS : CredentialStore W} {BS : BlobStore B} {SJ : SerdeJson} {HC : HostCodec}
  {SC : SystemClock}.
Abbreviation HW := (HostWorld W B).
Abbreviation Import A := (SM HW WitError A).

Definition set_host (h : HostState) (s : HW) : HW :=
  mkHostWorld h (store s) (blob_store s) (clock_reads s).
Definition on_host {E} (f : HostState → HostState) : SM HW E unit :=
  sm_update (λ s, set_host (f (host s)) s).
Definition the_host {E} : SM HW E HostState := λ s, (Ok (host s), s).

(** A call of the database and of the blob store. *)
Definition on_store {E A} (m : W → result A E * W) : SM HW E A := λ s,
  let '(r, w) := m (store s) in (r, mkHostWorld (host s) w (blob_store s) (clock_reads s)).
Definition on_blobs {E A} (m : B → result A E * B) : SM HW E A := λ s,
  let '(r, b) := m (blob_store s) in (r, mkHostWorld (host s) (store s) b (clock_reads s)).
Definition host_clock {E} : SM HW E N := λ s,
  (Ok (elapsed_ms (clock_reads s)),
   mkHostWorld (host s) (store s) (blob_store s) (clock_reads s + 1)).

(** *** [events] *)

Definition events_append (proposal : Proposal) : Import N :=
  if negb (opt_is_some (p_idempotency_key proposal))
  then sm_fail (host_error InvalidArgument
         "append requires an idempotency key so a redelivery deduplicates")
  else
    do+ on_host (λ h, set_append_sequence (h_append_sequence h + 1) h);
    let+ h := the_host in
    let+ r := sm_lift (map_err (λ e, host_error PermissionDenied (message e))
                (append_request h proposal (Some (d_origin_event_id (h_delivery h))) None)) in
    let+ e := sm_map_err (λ e, host_error Internal ("cannot append: " +:+ append_error_to_string e))
                (on_store (es_append r)) in
    sm_ret (sequence e).

(** An event the component may see: of its agent's stream, and no HTTP request
    that another component answers. *)
Definition event_visible (h : HostState) (e : CommittedEvent) : bool :=
  String.eqb (stream_id (request e)) (principal_id (d_agent (h_delivery h)))
  && http_request_visible e (d_instance_id (h_delivery h)).

Definition events_get (id : string) : Import WitEvent :=
  let+ h := the_host in
  let+ found := sm_map_err
    (λ e, host_error Internal ("cannot read: " +:+ append_error_to_string e))
    (on_store (es_get id)) in
  match found with
  | Some e =>
      if event_visible h e then do+ on_host (reveal_event_blobs [e]); sm_ret (wit_event e)
      else sm_fail (host_error NotFound "no such event")
  | None => sm_fail (host_error NotFound "no such event")
  end.

Definition filter_query (f : Filter) : EventQuery := {|
  after_sequence := f_after_sequence f;
  before_sequence := f_before_sequence f;
  event_types := f_event_types f;
  text_query := f_text_query f;
  descending := f_descending f;
  q_correlation_id := f_correlation_id f;
  q_activity_id := f_activity_id f;
  recorded_from_ms := f_recorded_from_ms f;
  recorded_to_ms := f_recorded_to_ms f;
|}.

Definition searching (f : Filter) : bool :=
  opt_is_some (f_text_query f) || opt_is_some (f_before_sequence f)
  || opt_is_some (f_conversation_id f) || f_descending f.

(** The events of a page of the store that the component gets. *)
Definition select_events (h : HostState) (f : Filter) (requested : N) (es : list CommittedEvent)
    : list CommittedEvent :=
  take (N.to_nat requested)
    (List.filter (λ e, http_request_visible e (d_instance_id (h_delivery h))
       && (negb (searching f)
           || is_none_or (f_conversation_id f) (λ wanted,
                bool_decide (event_conversation_id e = Some wanted)))) es).

Definition resume_at (f : Filter) (selected es : list CommittedEvent) : option N :=
  sequence <$> (if searching f then option_or (last selected) (last es) else last es).

Definition events_query (f : Filter) (limit : N) : Import EventPage :=
  if is_some_and (f_text_query f) (λ q, 4096 <? str_len q)%N
  then sm_fail (host_error InvalidArgument "search text is too long")
  else if (limit =? 0)%N then sm_ret (mkEventPage [] None)
  else
    let requested := N.min limit MAX_EVENT_PAGE in
    let+ h := the_host in
    let+ es := sm_map_err
      (λ e, host_error Internal ("cannot query: " +:+ append_error_to_string e))
      (on_store (es_query (principal_id (d_agent (h_delivery h))) (filter_query f)
         (if searching f then MAX_EVENT_PAGE else requested))) in
    let selected := select_events h f requested es in
    do+ on_host (λ h, foldl (λ h e, reveal_event_blobs [e] h) h selected);
    sm_ret (mkEventPage (wit_event <$> selected) (resume_at f selected es)).

(** *** [state] *)

Definition host_state_get (key : string) : Import (option bytes) :=
  do+ sm_lift (validate_state_key key);
  let+ h := the_host in
  let+ snapshot := sm_map_err state_error
    (on_store (ss_get (d_instance_id (h_delivery h)) key)) in
  sm_ret (snapshot_value snapshot).

Definition host_state_scan (prefix : string) (after_key : option string) (limit : N)
    : Import WitStatePage :=
  do+ sm_lift (validate_state_key prefix);
  do+ sm_lift (map_or after_key (Ok tt) validate_state_key);
  let+ h := the_host in
  let+ page := sm_map_err state_error
    (on_store (ss_scan (d_instance_id (h_delivery h)) prefix after_key
       (N.min limit MAX_STATE_SCAN_ENTRIES))) in
  sm_ret (mkWitStatePage (entries page) (next_key page)).

(** *** [blobs] *)

Definition add_upload {E} (id : string) : SM HW E unit :=
  on_host (λ h, set_uploads ({[id]} ∪ h_active_uploads h) h).
Definition remove_upload {E} (id : string) : SM HW E unit :=
  on_host (λ h, set_uploads (h_active_uploads h ∖ {[id]}) h).
Definition add_visible {E} (blob : BlobRef) : SM HW E unit :=
  on_host (λ h, set_visible ({[blob]} ∪ h_visible_blobs h) h).

Definition blobs_put (media_type : string) (b : bytes) : Import BlobRef :=
  if (MAX_BLOB_CHUNK_BYTES <? len b)%N
  then sm_fail (host_error ResourceExhausted "use open-write for content above 1 MiB")
  else
    let+ upload := sm_map_err blob_error (on_blobs (bs_begin_put media_type (Some (len b)))) in
    do+ add_upload upload;
    let+ result := sm_try (do+ on_blobs (bs_write upload 0 b); on_blobs (bs_finish_put upload)) in
    do+ (if is_ok result then sm_ret tt
         else do+ sm_try (E := BlobError) (on_blobs (bs_abort_put upload)); sm_ret tt);
    do+ remove_upload upload;
    let+ blob := sm_lift (map_err blob_error result) in
    do+ add_visible blob;
    sm_ret blob.

Definition blobs_open_write (media_type : string) (expected : option N) : Import string :=
  let+ upload := sm_map_err blob_error (on_blobs (bs_begin_put media_type expected)) in
  do+ add_upload upload;
  sm_ret upload.

Definition not_ours : WitError :=
  host_error PermissionDenied "upload does not belong to this delivery".

Definition blobs_write (handle : string) (offset : N) (b : bytes) : Import N :=
  if (MAX_BLOB_CHUNK_BYTES <? len b)%N
  then sm_fail (host_error ResourceExhausted "blob chunk exceeds 1 MiB")
  else
    let+ h := the_host in
    if negb (bool_decide (handle ∈ h_active_uploads h)) then sm_fail not_ours
    else sm_map_err blob_error (on_blobs (bs_write handle offset b)).

Definition blobs_finish (handle : string) : Import BlobRef :=
  let+ h := the_host in
  do+ remove_upload handle;
  if negb (bool_decide (handle ∈ h_active_uploads h)) then sm_fail not_ours
  else
    let+ blob := sm_map_err blob_error (on_blobs (bs_finish_put handle)) in
    do+ add_visible blob;
    sm_ret blob.

Definition blobs_resolve_visible (dig : string) : Import BlobRef :=
  if negb (str_len dig =? 64)%N
     || negb (str_forall (λ c, is_ascii_digit c || is_hex_letter c) dig)
  then sm_fail (host_error InvalidArgument "invalid SHA-256 digest")
  else
    let+ h := the_host in
    match List.filter (λ blob, String.eqb (algorithm blob) SHA256_ALGORITHM
                               && String.eqb (digest blob) dig) (elements (h_visible_blobs h)) with
    | [] => sm_fail (host_error PermissionDenied "blob is not visible to this delivery")
    | blob :: rest =>
        if existsb (λ candidate, negb (bool_decide (candidate = blob))) rest
        then sm_fail (host_error InvalidArgument "visible blob digest is ambiguous")
        else sm_ret blob
    end.

Definition blobs_read (blob : BlobRef) (offset max_bytes : N) : Import BlobChunk :=
  let+ blob := sm_lift (core_blob_ref blob) in
  let+ h := the_host in
  do+ sm_lift (ensure_visible_blob blob h);
  sm_map_err blob_error (on_blobs (bs_read blob offset (N.min max_bytes MAX_BLOB_CHUNK_BYTES))).

(** *** [credentials] *)

Definition credential_access (handle : string) (h : HostState) : result CredentialAccess WitError :=
  match h_credentials h with
  | Some access =>
      if bool_decide (handle ∈ ca_handles access) then Ok access
      else Err (host_error PermissionDenied "credential not granted")
  | None => Err (host_error PermissionDenied "credential not granted")
  end.

Definition export_unavailable : WitError :=
  host_error Unavailable "credential export unavailable".
Definition storage_unavailable : WitError :=
  host_error Unavailable "credential storage unavailable".

(** [CredentialAccess::resolve_export]. *)
Definition access_resolve_export (access : CredentialAccess) (binding : string) : Import string :=
  let+ grant := sm_lift (ok_or (ca_exports access !! binding)
                  (host_error PermissionDenied "credential export not granted")) in
  let+ stored := sm_map_err (λ _, export_unavailable)
                   (on_store (cs_read (x_credential grant) (x_provider grant))) in
  let+ b := sm_lift (ok_or stored export_unavailable) in
  let+ doc := sm_lift (map_err (λ _, export_unavailable) (from_slice b)) in
  let export := value_index (value_index doc "exports") (x_export grant) in
  let+ elapsed := host_clock in
  let+ now := sm_lift (ok_or (i64_try_from elapsed) export_unavailable) in
  let+ expires := sm_lift (ok_or (as_i64 (value_index export "expires_at_ms"))
                    export_unavailable) in
  if (expires <=? saturating_add_i64 now 30000)%Z then sm_fail export_unavailable
  else
    match as_str (value_index export "value") with
    | Some v =>
        if negb (str_is_empty v) && negb (str_contains "000" v) then sm_ret v
        else sm_fail export_unavailable
    | None => sm_fail export_unavailable
    end.

Definition credentials_resolve_export (binding : string) : Import string :=
  let+ h := the_host in
  let+ access := sm_lift (ok_or (h_credentials h)
                   (host_error PermissionDenied "credential export not granted")) in
  access_resolve_export access binding.

Definition credentials_get (handle : string) : Import (option bytes) :=
  let+ h := the_host in
  let+ access := sm_lift (credential_access handle h) in
  sm_map_err (λ _, storage_unavailable) (on_store (cs_read handle (ca_provider access))).

Definition credentials_compare_and_swap (handle : string) (expected : option bytes) (value : bytes)
    : Import bool :=
  let+ h := the_host in
  let+ access := sm_lift (credential_access handle h) in
  if (1024 * 1024 <? len value)%N || is_some_and expected (λ v, 1024 * 1024 <? len v)%N
  then sm_fail (host_error InvalidArgument "credential record too large")
  else sm_map_err (λ _, storage_unavailable)
         (on_store (cs_replace handle (ca_provider access) expected value)).

(** *** [runtime]: the source loop ([runner.rs]) *)

Inductive CommitPhase : Type :=
| PhaseInit
| PhaseHandle
| PhaseStop.

Definition derived_key (phase : CommitPhase) (inst : string) (checkpoint ordinal : N) : string :=
  let base := inst +:+ ":" +:+ u64_to_string checkpoint +:+ ":" +:+ u64_to_string ordinal in
  match phase with
  | PhaseHandle => base
  | PhaseInit => base +:+ ":init"
  | PhaseStop => base +:+ ":stop"
  end.

(** The requests of a batch of proposals, in order. *)
Definition append_requests (h : HostState) (phase : CommitPhase) (checkpoint : N)
    (causation : option EventId) (proposals : list Proposal)
    : result (list AppendRequest) RuntimeError :=
  try_map (λ '(ordinal, proposal),
      append_request h proposal causation
        (Some (derived_key phase (d_instance_id (h_delivery h)) checkpoint ordinal)))
    (imap (λ i p, (N.of_nat i, p)) proposals).

Definition cursor_of (d : Delivery) : CursorKey :=
  mkCursorKey (principal_id (d_agent d)) (d_instance_id d).

(** [events[0].event_id] of a batch of one. *)
Definition single_cause (batch : list CommittedEvent) : option EventId :=
  match batch with
  | [e] => Some (event_id e)
  | _ => None
  end.

Definition lowest (default : N) (batch : list CommittedEvent) : N :=
  map_or (head batch) default sequence.
Definition highest (default : N) (batch : list CommittedEvent) : N :=
  map_or (last batch) default sequence.

Definition set_pending (p : option (list CommittedEvent)) (r : HostRunner) : HostRunner :=
  mkHostRunner (active r) (stopping r) (inbox r) (output r) (replies r) (runner_checkpoint r) p.
Definition set_runner_checkpoint (k : N) (r : HostRunner) : HostRunner :=
  mkHostRunner (active r) (stopping r) (inbox r) (output r) (replies r) k (pending r).
Definition set_stopping (r : HostRunner) : HostRunner :=
  mkHostRunner (active r) true (inbox r) (output r) (replies r) (runner_checkpoint r) (pending r).
Definition set_inbox (l : list Command) (r : HostRunner) : HostRunner :=
  mkHostRunner (active r) (stopping r) l (output r) (replies r) (runner_checkpoint r) (pending r).
Definition send_output (o : result Outcome RuntimeError) (r : HostRunner) : HostRunner :=
  mkHostRunner (active r) (stopping r) (inbox r) (output r ++ [o]) (replies r)
    (runner_checkpoint r) (pending r).
Definition send_reply (o : result Outcome RuntimeError) (r : HostRunner) : HostRunner :=
  mkHostRunner (active r) (stopping r) (inbox r) (output r) (replies r ++ [o])
    (runner_checkpoint r) None.
Definition on_runner {E} (f : HostRunner → HostRunner) : SM HW E unit :=
  on_host (λ h, set_runner (f (h_runner h)) h).

(** The guards of [run_commit]: the cause of the batch's proposals. *)
Definition commit_cause (r : HostRunner) (proposals : list Proposal) (checkpoint : option N)
    : result (option EventId) RuntimeError :=
  match pending r with
  | Some batch =>
      let low := lowest 0 batch in
      let high := highest 0 batch in
      if negb (is_some_and checkpoint (λ c, (low <=? c)%N && (c <=? high)%N))
      then Err (rt_new "checkpoint must identify a delivered event")
      else Ok (single_cause batch)
  | None =>
      if opt_is_some checkpoint
      then Err (rt_new "external commit cannot advance delivery checkpoint")
      else if existsb (λ p, is_none_or (p_idempotency_key p) str_is_empty) proposals
      then Err (rt_new "external events require idempotency keys")
      else Ok None
  end.

Definition run_commit (proposals : list Proposal) (ms : list Mutation) (claimed : option N)
    : SM HW RuntimeError Outcome :=
  if (MAX_OUTCOME_EVENTS <? len proposals)%N
  then sm_fail (rt_new "outcome proposes too many events")
  else
    let+ h := the_host in
    let+ cause := sm_lift (commit_cause (h_runner h) proposals claimed) in
    let current := runner_checkpoint (h_runner h) in
    let+ requests := sm_lift (append_requests h PhaseHandle current cause proposals) in
    let+ converted := sm_lift (convert_mutations ms) in
    let+ receipt := sm_map_err
      (λ e, rt_new ("cannot commit source output: " +:+ delivery_error_to_string e))
      (on_store (ds_commit (mkDeliveryCommit (cursor_of (h_delivery h)) current claimed
         converted requests))) in
    do+ on_runner (set_runner_checkpoint (receipt_checkpoint receipt));
    sm_ret (mkOutcome (receipt_events receipt) (receipt_checkpoint receipt)).

Definition stream_denied : WitError :=
  host_error PermissionDenied "local streams require an endpoint grant".

(** [execution::Host::commit]. *)
Definition runtime_commit (proposals : list Proposal) (ms : list Mutation) (claimed : option N)
    : Import unit :=
  let+ h := the_host in
  if negb (active (h_runner h)) || h_replaying h then sm_fail stream_denied
  else if opt_is_some (pending (h_runner h)) && interrupted h
  then sm_fail (host_error Cancelled "call cancelled")
  else
    let+ outcome := sm_map_err (λ e, host_error Internal (message e))
                      (run_commit proposals ms claimed) in
    do+ on_runner (λ r,
      if opt_is_some (pending r) then send_reply (Ok outcome) r
      else if bool_decide (outcome_events outcome = []) then r
      else send_output (Ok outcome) r);
    on_host (set_emit_call true).

(** [execution::Host::reject]. *)
Definition runtime_reject (e : WitError) : Import unit :=
  let+ h := the_host in
  if opt_is_some (pending (h_runner h)) then
    do+ on_runner (send_reply (Err (plugin_failure e)));
    on_host (set_emit_call true)
  else sm_fail (host_error Conflict "no internal delivery").

(** [system_time_ms]. *)
Definition system_time_ms {E} : SM HW E Z :=
  let+ elapsed := host_clock in sm_ret (default i64_max (i64_try_from elapsed)).

(** The batch as the component sees it. *)
Definition wit_batch (h : HostState) (batch : list CommittedEvent) : list WitEvent :=
  (λ e, if http_request_visible e (d_instance_id (h_delivery h)) then wit_event e
        else redact (wit_event e)) <$> batch.

(** [HostWithStore::next]; [None] while the inbox is empty: the call waits. *)
Definition runtime_next : HW → option (result Wake WitError * HW) := λ s,
  let h := host s in
  if h_shutdown h then
    Some ((do+ on_runner set_stopping; let+ now := system_time_ms in sm_ret (WakeStop now)) s)
  else if negb (active (h_runner h)) || stopping (h_runner h) || h_replaying h || interrupted h
  then Some (Err stream_denied, s)
  else if opt_is_some (pending (h_runner h))
  then Some (Err (host_error Conflict "commit or reject delivery before waiting"), s)
  else match inbox (h_runner h) with
       | [] => None
       | Deliver batch :: rest =>
           Some ((do+ on_host (λ h, set_evidence None "delivery" h);
                  do+ on_host (reveal_event_blobs batch);
                  do+ on_runner (λ r, set_pending (Some batch) (set_inbox rest r));
                  do+ on_host (set_emit_call false);
                  sm_ret (WakeEvents (wit_batch h batch))) s)
       | Stop deadline :: rest =>
           Some ((do+ on_host (λ h, set_evidence None "execution" h);
                  do+ on_runner (λ r, set_stopping (set_inbox rest r));
                  sm_ret (WakeStop deadline)) s)
       end.

(** ** Running a program *)

(** One call; [None] when it waits.  [ready] outside of start-up is refused. *)
Definition call (c : HostCall) (s : HW) : option (answer_of c * HW) :=
  match c return option (answer_of c * HW) with
  | EventsAppend p => Some (events_append p s)
  | EventsGet id => Some (events_get id s)
  | EventsQuery f limit => Some (events_query f limit s)
  | StateGet key => Some (host_state_get key s)
  | StateScan prefix after_key limit => Some (host_state_scan prefix after_key limit s)
  | BlobsPut media_type b => Some (blobs_put media_type b s)
  | BlobsOpenWrite media_type expected => Some (blobs_open_write media_type expected s)
  | BlobsWrite handle offset b => Some (blobs_write handle offset b s)
  | BlobsFinish handle => Some (blobs_finish handle s)
  | BlobsResolveVisible dig => Some (blobs_resolve_visible dig s)
  | BlobsRead blob offset max_bytes => Some (blobs_read blob offset max_bytes s)
  | CredentialsResolveExport binding => Some (credentials_resolve_export binding s)
  | CredentialsGet handle => Some (credentials_get handle s)
  | CredentialsCompareAndSwap handle expected value =>
      Some (credentials_compare_and_swap handle expected value s)
  | RuntimeReady _ _ =>
      Some (Err (host_error Conflict "ready is only valid once during startup"), s)
  | RuntimeNext => runtime_next s
  | RuntimeCommit proposals ms claimed => Some (runtime_commit proposals ms claimed s)
  | RuntimeReject e => Some (runtime_reject e s)
  | MemoryGrowing current desired =>
      Some (tt, set_host (memory_growing current desired (host s)) s)
  end.

(** Runs a program; one that waits for ever is stopped at its deadline. *)
Fixpoint run_guest {A} (g : Guest A) (s : HW) : result A string * list Answered * HW :=
  match g with
  | Return a => (Ok a, [], s)
  | Trap reason => (Err reason, [], s)
  | Call c k =>
      match call c s with
      | None => (Err "call deadline exceeded", [], s)
      | Some (a, s') =>
          let '(r, trace, s'') := run_guest (k a) s' in (r, mkAnswered c a :: trace, s'')
      end
  end.
End imports.
