(* ===== verification/Instance.v ===== *)
(** One instantiated component: [InstanceCore] of
    [pluribus-runtime-wasm/src/lib.rs] and its lifecycle.

    The component's exports are arguments: a program per call, so that a
    statement about every program holds for whatever the component's memory
    is.  A replay handler is given the batches it handled before. *)
From stdpp Require Import base tactics countable option list strings gmap.
From Stdlib Require Import ZArith NArith Lia Ascii.
From S2P Require Import Prelude Event EventStore Registry Blob Delivery Stores Json Manifest Host Imports.

Definition ABI_WORLD : string := "pluribus:plugin/plugin@3.0.0".

(** [types.context]. *)
Record Context_ : Type := mkContext {
  cx_instance_id : string;
  cx_agent : PrincipalRef;
  cx_state_checkpoint : N;
  cx_depth : N;
  cx_deadline_at_ms : option Z;
}.

Abbreviation Reply := (result GuestOutcome WitError) (only parsing).

(** The lifecycle's state: [InstanceCore], with the program [run] left
    suspended at [ready] and whether its start-up succeeded. *)
Record InstanceCore (W B : Type) : Type := mkCore {
  c_world : HostWorld W B;
  c_instance_id : string;
  c_cursor : CursorKey;
  c_checkpoint : N;
  c_config : bytes;
  c_interrupted : bool;
  c_run_task : option (Guest (result unit WitError));
  c_run_result : bool;
}.
Arguments mkCore {W B}.
Arguments c_world {W B} _.
Arguments c_instance_id {W B} _.
Arguments c_cursor {W B} _.
Arguments c_checkpoint {W B} _.
Arguments c_config {W B} _.
Arguments c_interrupted {W B} _.
Arguments c_run_task {W B} _.
Arguments c_run_result {W B} _.

(** Loops that take fuel say so when it runs out. *)
Inductive LoopError : Type :=
| Failed (e : RuntimeError)
| OutOfFuel.

Section instance.
Context {W B : Type} {ES : EventStore W} {SS : StateStore W} {DS : DeliveryStore W}
  {CS : CredentialStore W} {BS : BlobStore B} {SJ : SerdeJson} {HC : HostCodec}
  {SC : SystemClock}.
Abbreviation HW := (HostWorld W B).
Abbreviation Core := (InstanceCore W B).
Abbreviation Life A := (SM Core RuntimeError A).

Definition set_world (s : HW) (c : Core) : Core :=
  mkCore s (c_instance_id c) (c_cursor c) (c_checkpoint c) (c_config c) (c_interrupted c)
    (c_run_task c) (c_run_result c).
Definition set_checkpoint (k : N) (c : Core) : Core :=
  mkCore (c_world c) (c_instance_id c) (c_cursor c) k (c_config c) (c_interrupted c)
    (c_run_task c) (c_run_result c).
Definition set_interrupted (b : bool) (c : Core) : Core :=
  mkCore (c_world c) (c_instance_id c) (c_cursor c) (c_checkpoint c) (c_config c) b
    (c_run_task c) (c_run_result c).
Definition set_run (task : option (Guest (result unit WitError))) (started : bool) (c : Core)
    : Core :=
  mkCore (c_world c) (c_instance_id c) (c_cursor c) (c_checkpoint c) (c_config c)
    (c_interrupted c) task started.

(** A step on the world of the instance. *)
Definition in_world {E A} (m : SM HW E A) : SM Core E A := λ c,
  let '(r, s) := m (c_world c) in (r, set_world s c).

(** A program run on the world of the instance. *)
Definition execute {E A} (g : Guest A) : SM Core E (result A string) := λ c,
  let '(r, _, s) := run_guest g (c_world c) in (Ok r, set_world s c).

(** [HostState::release_handles]: the uploads left open are aborted. *)
Definition release_handles {E} : SM HW E unit := λ s,
  let uploads := elements (h_active_uploads (host s)) in
  let s1 := set_host (set_uploads ∅ (host s)) s in
  (Ok tt, mkHostWorld (host s1) (store s1)
            (foldl (λ b id, (bs_abort_put id b).2) (blob_store s1) uploads) (clock_reads s1)).

(** [prepare_call]. *)
Definition prepare_call {E} (phase : string) : SM Core E unit :=
  in_world (on_host (λ h, set_evidence None phase (set_emit_call false h))).

(** [InstanceCore::context]. *)
Definition context (c : Core) : Context_ :=
  let d := h_delivery (host (c_world c)) in
  mkContext (c_instance_id c) (d_agent d) (c_checkpoint c) (d_depth d) (d_deadline_at_ms d).

(** [InstanceCore::begin_lifecycle]. *)
Definition begin_lifecycle : Life unit := λ c,
  if c_interrupted c
  then (Err (rt_trap "interrupted lifecycle requires re-instantiation"), c)
  else (Ok tt, set_interrupted true c).

(** A lifecycle call: the guard, the body, and what it leaves in the flag. *)
Definition lifecycle {E A} (wrap : RuntimeError → E) (still : result A E → bool)
    (body : SM Core E A) : SM Core E A := λ c,
  match begin_lifecycle c with
  | (Err e, c1) => (Err (wrap e), c1)
  | (Ok _, c1) => let '(r, c2) := body c1 in (r, set_interrupted (still r) c2)
  end.

(** [InstanceCore::commit]. *)
Definition instance_commit (outcome : GuestOutcome) (causation : option EventId) (phase : CommitPhase)
    : Life Outcome :=
  do+ in_world release_handles;
  if (MAX_OUTCOME_EVENTS <? len (o_events outcome))%N
  then sm_fail (rt_new "outcome proposes too many events")
  else
    let+ c := sm_get in
    let h := host (c_world c) in
    let+ requests := sm_lift (try_map (λ '(ordinal, proposal),
        append_request h proposal causation
          (Some (derived_key phase (c_instance_id c) (c_checkpoint c) ordinal)))
      (imap (λ i p, (N.of_nat i, p)) (o_events outcome))) in
    let+ mutations := sm_lift (convert_mutations (o_mutations outcome)) in
    let+ receipt := sm_map_err
      (λ e, rt_new ("cannot commit delivery: " +:+ delivery_error_to_string e))
      (in_world (on_store (ds_commit (mkDeliveryCommit (c_cursor c) (c_checkpoint c)
         (o_checkpoint outcome) mutations requests)))) in
    do+ sm_update (set_checkpoint (receipt_checkpoint receipt));
    sm_ret (mkOutcome (receipt_events receipt) (receipt_checkpoint receipt)).

(** The answer of a call of the component: a trap with the evidence on
    record, its own error, or its outcome. *)
Definition guest_answer (label : string) (r : result Reply string) : Life GuestOutcome := λ c,
  match r with
  | Err reason =>
      (Err (resource_error (h_evidence (host (c_world c)))
              (label +:+ " trapped: " +:+ reason)), c)
  | Ok (Err e) => (Err (plugin_failure e), c)
  | Ok (Ok outcome) => (Ok outcome, c)
  end.

Definition returned (r : result Reply string) : bool :=
  match r with
  | Ok (Ok _) => true
  | _ => false
  end.

(** One call of an export: handles do not outlive a call that fails. *)
Definition call_guest (phase label : string) (g : Guest Reply) : Life GuestOutcome :=
  do+ prepare_call phase;
  let+ result := execute g in
  do+ (if returned result then sm_ret tt else in_world release_handles);
  guest_answer label result.

(** [InstanceCore::handle_inner]. *)
Definition handle_inner (handler : Context_ → list WitEvent → Guest Reply)
    (events : list CommittedEvent) : Life Outcome :=
  let+ c := sm_get in
  if bool_decide (events = []) then sm_ret (mkOutcome [] (c_checkpoint c))
  else
    let high := highest (c_checkpoint c) events in
    let low := lowest (c_checkpoint c) events in
    let batch := wit_batch (host (c_world c)) events in
    do+ in_world (on_host (reveal_event_blobs events));
    let+ outcome := call_guest "delivery" "handle" (handler (context c) batch) in
    if is_some_and (o_checkpoint outcome)
         (λ claimed, negb ((low <=? claimed)%N && (claimed <=? high)%N))
    then sm_fail (rt_new ("checkpoint " +:+ u64_to_string (default 0%N (o_checkpoint outcome))
           +:+ " is outside the delivered batch " +:+ u64_to_string low
           +:+ "..=" +:+ u64_to_string high))
    else instance_commit outcome (single_cause events) PhaseHandle.

(** [InstanceCore::handle]. *)
Definition handle (handler : Context_ → list WitEvent → Guest Reply)
    (events : list CommittedEvent) : Life Outcome :=
  lifecycle id (λ r, match r with Err e => trapped e | Ok _ => false end)
    (handle_inner handler events).

(** Start-up: the program runs to its first [ready]. *)
Inductive Startup : Type :=
| ReadyAt (outcome : GuestOutcome) (rest : Guest (result unit WitError))
| FinishedAt (r : result unit WitError)
| StoppedAt (reason : string).

Fixpoint run_to_ready (g : Guest (result unit WitError)) (s : HW) : Startup * HW :=
  match g with
  | Return r => (FinishedAt r, s)
  | Trap reason => (StoppedAt reason, s)
  | Call c k =>
      match c as c' return (answer_of c' → Guest (result unit WitError)) → Startup * HW with
      | RuntimeReady proposals ms => λ k,
          (ReadyAt (mkGuestOutcome proposals ms None) (k (Ok tt)), s)
      | other => λ k,
          match call other s with
          | None => (StoppedAt "call deadline exceeded", s)
          | Some (a, s') => run_to_ready (k a) s'
          end
      end k
  end.

(** [InstanceCore::init_inner]. *)
Definition init_inner (run : Context_ → bytes → Guest (result unit WitError)) : Life Outcome :=
  let+ c := sm_get in
  if opt_is_some (c_run_task c) then sm_fail (rt_new "plugin already initialized")
  else
    do+ prepare_call "startup";
    let+ started := (λ c, let '(r, s) := run_to_ready (run (context c) (c_config c)) (c_world c) in
                          (Ok r, set_world s c)) in
    match started with
    | StoppedAt reason => λ c,
        (Err (resource_error (h_evidence (host (c_world c))) ("run trapped: " +:+ reason)),
         set_run (Some (Trap reason)) false c)
    | FinishedAt (Err e) => λ c, (Err (plugin_failure e), set_run (Some (Return (Err e))) false c)
    | FinishedAt (Ok _) => λ c,
        (Err (rt_trap "run exited before ready"), set_run (Some (Return (Ok tt))) false c)
    | ReadyAt startup rest =>
        do+ sm_update (set_run (Some rest) false);
        let+ c := sm_get in
        let origin := d_origin_event_id (h_delivery (host (c_world c))) in
        let+ outcome := instance_commit startup (Some origin) PhaseInit in
        do+ sm_update (λ c, set_run (c_run_task c) true c);
        sm_ret outcome
    end.

(** [InstanceCore::init]. *)
Definition init (run : Context_ → bytes → Guest (result unit WitError)) : Life Outcome :=
  lifecycle id (λ r, negb (is_ok r)) (init_inner run).

(** [InstanceCore::skip_inner] and [skip_with_events_inner]. *)
Definition skip_with_events_inner (k : N) (host_events : list AppendRequest) : Life Outcome :=
  do+ in_world release_handles;
  let+ c := sm_get in
  let+ receipt := sm_map_err
    (λ e, rt_new ("cannot skip delivery: " +:+ delivery_error_to_string e))
    (in_world (on_store (ds_commit (mkDeliveryCommit (c_cursor c) (c_checkpoint c) (Some k)
       [] host_events)))) in
  do+ sm_update (set_checkpoint (receipt_checkpoint receipt));
  sm_ret (mkOutcome (receipt_events receipt) (receipt_checkpoint receipt)).

Definition skip_inner (k : N) : Life unit :=
  do+ skip_with_events_inner k []; sm_ret tt.

Definition skip (k : N) : Life unit := lifecycle id (λ _, false) (skip_inner k).
Definition skip_with_events (k : N) (host_events : list AppendRequest) : Life Outcome :=
  lifecycle id (λ _, false) (skip_with_events_inner k host_events).

(** [InstanceCore::stop_inner]: the source program is dropped first. *)
Definition stop_inner (stop : Context_ → Z → Guest Reply) (deadline : Z) : Life Outcome :=
  do+ sm_update (λ c, set_run None (c_run_result c) c);
  do+ in_world (on_host reset);
  let+ c := sm_get in
  let+ outcome := call_guest "execution" "stop" (stop (context c) deadline) in
  instance_commit outcome None PhaseStop.

Definition stop (stop : Context_ → Z → Guest Reply) (deadline : Z) : Life Outcome :=
  lifecycle id (λ _, false) (stop_inner stop deadline).

(** ** Rebuilding a projection *)

Definition REBUILD_MARKER : string := "__host/rebuild".

(** [rebuild_page]. *)
Definition rebuild_page (stream : StreamId) (types : list string) (after limit : N)
    : Life (list CommittedEvent) :=
  sm_map_err (λ e, rt_new (append_error_to_string e))
    (in_world (on_store (es_query stream (types_after after types) limit))).

Definition failing {A} (m : Life A) : SM Core LoopError A := sm_map_err Failed m.

(** The marker: the last sequence replayed. *)
Definition read_marker : Life N :=
  let+ c := sm_get in
  let+ snapshot := sm_map_err (λ e, rt_new (state_error_to_string e))
    (in_world (on_store (ss_get (d_instance_id (h_delivery (host (c_world c)))) REBUILD_MARKER))) in
  match snapshot_value snapshot with
  | None => sm_ret 0%N
  | Some v => sm_lift (map_err rt_new (u64_from_slice v))
  end.

(** The last sequence to replay. *)
Fixpoint find_high (fuel : nat) (stream : StreamId) (types : list string) (high : N)
    : SM Core LoopError N :=
  match fuel with
  | O => sm_fail OutOfFuel
  | S fuel =>
      let+ page := failing (rebuild_page stream types high 1000) in
      match last page with
      | None => sm_ret high
      | Some e => find_high fuel stream types (sequence e)
      end
  end.

(** A component's replay handler, given the batches it handled before. *)
Abbreviation Replayer :=
  (list (list WitEvent) → Context_ → list WitEvent → Guest Reply) (only parsing).

(** One replayed batch: the component consumes it and emits nothing. *)
Definition replay_batch (handler : Context_ → list WitEvent → Guest Reply)
    (own : list CommittedEvent) : Life GuestOutcome :=
  let+ c := sm_get in
  do+ prepare_call "restore";
  do+ in_world (on_host (set_replaying true));
  let+ result := execute (handler (context c) (wit_event <$> own)) in
  do+ in_world (on_host (set_replaying false));
  let+ outcome := guest_answer "replay" result in
  if negb (bool_decide (o_events outcome = []))
     || negb (bool_decide (o_checkpoint outcome = sequence <$> last own))
  then sm_fail (rt_new "replay must consume its batch without emitting events")
  else sm_ret outcome.

Fixpoint take_while {A} (p : A → bool) (l : list A) : list A :=
  match l with
  | [] => []
  | x :: l => if p x then x :: take_while p l else []
  end.

(** The events of a page the component itself emitted. *)
Definition own_events (inst : string) (page : list CommittedEvent) : list CommittedEvent :=
  filter (λ e, actor (request e) = mkPrincipalRef Component inst) page.

(** The loop over pages; it returns the batches it replayed. *)
Fixpoint replay_pages (fuel : nat) (handler : Replayer) (stream : StreamId)
    (types : list string) (high after : N) (replayed : list (list CommittedEvent))
    : SM Core LoopError (list (list CommittedEvent)) :=
  match fuel with
  | O => sm_fail OutOfFuel
  | S fuel =>
      if negb (after <? high)%N then sm_ret replayed
      else
        let+ page := failing (rebuild_page stream types after 32) in
        let page := take_while (λ e, sequence e <=? high)%N page in
        match last page with
        | None => sm_ret replayed
        | Some e =>
            let+ c := sm_get in
            let own := own_events (c_instance_id c) page in
            let+ outcome := failing
              (if bool_decide (own = []) then sm_ret (mkGuestOutcome [] [] None)
               else replay_batch (handler (map (map wit_event) replayed)) own) in
            do+ failing (instance_commit
              (mkGuestOutcome (o_events outcome)
                 (o_mutations outcome ++ [MutationSet REBUILD_MARKER
                    (String.list_byte_of_string (u64_to_string (sequence e)))]) None)
              None PhaseHandle);
            replay_pages fuel handler stream types high (sequence e)
              (if bool_decide (own = []) then replayed else replayed ++ [own])
        end
  end.

Definition rebuild_inner (fuel : nat) (handler : Replayer) (types : list string)
    : SM Core LoopError (list (list CommittedEvent)) :=
  if bool_decide (types = []) then sm_ret []
  else
    let+ c := sm_get in
    let stream := principal_id (d_agent (h_delivery (host (c_world c)))) in
    let+ after := failing read_marker in
    let+ high := find_high fuel stream types after in
    replay_pages fuel handler stream types high after [].

(** [InstanceCore::rebuild]. *)
Definition rebuild (fuel : nat) (handler : Replayer) (types : list string)
    : SM Core LoopError (list (list CommittedEvent)) :=
  lifecycle Failed (λ _, false) (rebuild_inner fuel handler types).

(** ** Instantiation *)

(** [Runtime::instantiate] up to the compilation of the component: what it
    refuses, and the memory the instance gets. *)
Definition instantiate_check (default_memory : N) (m : ComponentManifest)
    (validate_config : Value → result unit string) (config : Value) (d : Delivery)
    (services : PluginServices) : result (N * bytes) RuntimeError :=
  if is_some_and (sv_http_grant services)
       (λ p, negb (bool_decide (p = mkPrincipalRef Component (d_instance_id d))))
  then Err (rt_new "host grant belongs to another component instance")
  else if negb (String.eqb (world m) ABI_WORLD)
  then Err (rt_new ("unsupported runtime world: " +:+ world m))
  else
    try! map_err rt_new (validate_config config);
    try! try_for_each (λ blob, map_err
           (λ e, rt_new ("invalid visible blob: " +:+ blob_error_to_string e))
           (validate_blob_ref blob)) (d_visible_blobs d);
    let? config_bytes := map_err (λ e, rt_new ("cannot encode configuration: " +:+ e))
                           (to_vec config) in
    let memory := default default_memory (sv_memory_bytes services) in
    if (MAX_MEMORY_BYTES <? memory)%N
    then Err (rt_new "configured memory exceeds the ABI maximum")
    else Ok (memory, config_bytes).

(** [Runtime::instantiate_recipe], on a component that compiles and links:
    the cursor is read and the host state is fresh. *)
Definition instantiate_recipe (m : ComponentManifest) (d : Delivery) (services : PluginServices)
    (memory : N) (config : bytes) : SM HW RuntimeError Core :=
  let+ k := sm_map_err (λ e, rt_new ("cannot read cursor: " +:+ delivery_error_to_string e))
              (on_store (ds_checkpoint (cursor_of d))) in
  do+ on_host (λ _, set_evidence None "startup" (host_new memory d services (emits m)));
  let+ s := sm_get in
  sm_ret (mkCore s (d_instance_id d) (cursor_of d) k config false None false).
End instance.
