(* ===== verification/HostSpec.v ===== *)
(** Theorems about the host imports: what an accepted proposal carries, and
    that whatever program a component runs, its effects stay inside what it
    was granted. *)
From stdpp Require Import base tactics countable option list strings gmap.
From Stdlib Require Import ZArith NArith Lia Ascii.
From S2P Require Import Prelude Event EventStore Registry Blob Delivery Stores Json Host Imports.

(** ** Blob references in a payload *)

(** [v] occurs in the value. *)
Inductive occurs_in (v : Value) : Value → Prop :=
| occurs_here : occurs_in v v
| occurs_item x l : x ∈ l → occurs_in v x → occurs_in v (Array l)
| occurs_field k x m : (k, x) ∈ m → occurs_in v x → occurs_in v (Object m).

(** A payload names a blob: it is the blob, or its JSON contains an object of
    the shape of a reference. *)
Definition names `{SerdeJson} (p : EventPayload) (b : BlobRef) : Prop :=
  match p with
  | Blob blob => b = blob
  | CanonicalJson text =>
      ∃ v m, from_slice text = Ok v ∧ occurs_in (Object m) v ∧ blob_ref_from m = Some b
  end.

Lemma occurs_in_cons_inv v x :
  occurs_in v x ↔ v = x ∨ match x with
                          | Array l => ∃ y, y ∈ l ∧ occurs_in v y
                          | Object m => ∃ k y, (k, y) ∈ m ∧ occurs_in v y
                          | _ => False
                          end.
Proof.
  split.
  - intros []; [by left|right; eauto|right; eauto].
  - intros [->|H]; [constructor|]. destruct x; try done.
    + destruct H as (y & ? & ?). by econstructor.
    + destruct H as (k & y & ? & ?). by econstructor.
Qed.

Lemma elem_of_concat_fmap {A B} (f : A → list B) (l : list A) b :
  b ∈ concat (f <$> l) ↔ ∃ x, x ∈ l ∧ b ∈ f x.
Proof.
  induction l as [|x l IH]; csimpl.
  - rewrite elem_of_nil. split; [done|]. intros (x & Hx & _). by apply not_elem_of_nil in Hx.
  - rewrite elem_of_app, IH. setoid_rewrite elem_of_cons. naive_solver.
Qed.

Lemma elem_of_option {A} (o : option A) x : x ∈ option_list o ↔ o = Some x.
Proof. destruct o; simpl; rewrite ?list_elem_of_singleton, ?elem_of_nil; naive_solver. Qed.

Lemma collect_blob_refs_spec v b :
  b ∈ collect_blob_refs v ↔ ∃ m, occurs_in (Object m) v ∧ blob_ref_from m = Some b.
Proof.
  induction v as [| |n|s|l IH|m IH] using value_induction; setoid_rewrite occurs_in_cons_inv;
    cbn [collect_blob_refs]; try (rewrite elem_of_nil; naive_solver).
  - rewrite elem_of_concat_fmap. split.
    + intros (x & Hx & Hb). apply (IH x Hx) in Hb. naive_solver.
    + intros (m & [?|(x & Hx & Ho)] & Hm); [done|]. exists x. split; [done|]. apply IH; eauto.
  - rewrite elem_of_app, elem_of_option, elem_of_concat_fmap. split.
    + intros [Hm|([k x] & Hx & Hb)]; [eauto|]. apply (IH k x Hx) in Hb. naive_solver.
    + intros (m' & [[= ->]|(k & x & Hx & Ho)] & Hm); [by left|]. right. exists (k, x).
      split; [done|]. apply (IH k x Hx); eauto.
Qed.

Lemma is_ok_unit {E} (r : result unit E) : is_ok r = true ↔ r = Ok tt.
Proof. destruct r as [[]|]; naive_solver. Qed.

Section payload.
Context {SJ : SerdeJson}.

Lemma referenced_blobs_names e b : b ∈ referenced_blobs e ↔ names (payload (request e)) b.
Proof.
  unfold referenced_blobs, names. destruct (payload (request e)) as [text|blob].
  - destruct (from_slice text) as [v|]; [rewrite collect_blob_refs_spec|rewrite elem_of_nil];
      naive_solver.
  - by rewrite list_elem_of_singleton.
Qed.

(** Every reference of the payload that is one is to visible content. *)
Definition shows_only (visible : gset BlobRef) (p : EventPayload) : Prop :=
  ∀ b, names p b → validate_blob_ref b = Ok tt →
  ∃ b', b' ∈ visible ∧ same_blob_content b b' = true.

Lemma refs_visible (visible : gset BlobRef) (found : list BlobRef) :
  existsb (λ b, negb (existsb (same_blob_content b) (elements visible)))
    (List.filter (λ b, is_ok (validate_blob_ref b)) found) = false ↔
  ∀ b, b ∈ found → validate_blob_ref b = Ok tt →
    ∃ b', b' ∈ visible ∧ same_blob_content b b' = true.
Proof.
  rewrite <- not_true_iff_false, existsb_exists. setoid_rewrite filter_In.
  setoid_rewrite <- list_elem_of_In. setoid_rewrite negb_true_iff.
  setoid_rewrite is_ok_unit. setoid_rewrite <- not_true_iff_false.
  setoid_rewrite existsb_exists. setoid_rewrite <- list_elem_of_In.
  setoid_rewrite elem_of_elements. split.
  - intros H b Hb Hv. apply dec_stable. intros Hn. naive_solver.
  - naive_solver.
Qed.

Lemma authorize_blob_references_ok p visible :
  authorize_blob_references p visible = Ok tt ↔
  (∀ text, p = CanonicalJson text → is_ok (from_slice text) = true) ∧ shows_only visible p.
Proof.
  unfold authorize_blob_references, shows_only, names. destruct p as [text|blob].
  - destruct (from_slice text) as [v|e] eqn:Ev; cbn [map_err result_bind].
    + destruct (existsb _ _) eqn:Ex.
      * split; [done|]. intros [_ H]. rewrite <- not_false_iff_true in Ex. exfalso. apply Ex.
        apply refs_visible. intros b Hb Hv. apply H; [|done]. apply collect_blob_refs_spec in Hb.
        naive_solver.
      * rewrite refs_visible in Ex. split; [|done]. intros _.
        split; [by intros ? [= <-]; rewrite Ev|].
        intros b (v' & m & [= <-] & Ho & Hm) Hv. apply Ex; [|done].
        apply collect_blob_refs_spec. eauto.
    + split; [done|]. intros [H _]. specialize (H text eq_refl). by rewrite Ev in H.
  - cbn [result_bind]. destruct (existsb _ _) eqn:Ex.
    + split; [done|]. intros [_ H]. rewrite <- not_false_iff_true in Ex. exfalso. apply Ex.
      apply refs_visible. intros b ->%list_elem_of_singleton Hv. by apply H.
    + rewrite refs_visible in Ex. split; [|done]. intros _. split; [done|].
      intros b -> Hv. apply Ex; [|done]. by apply list_elem_of_singleton.
Qed.
End payload.

(** ** Proposals *)

#[local] Opaque authorize core.

Section proposals.
Context {SJ : SerdeJson}.

(** The request the host makes of a proposal with this payload. *)
Definition stamp (h : HostState) (p : Proposal) (cause : option EventId) (key : option string)
    (pl : EventPayload) : AppendRequest :=
  let d := h_delivery h in
  mkAppendRequest (principal_id (d_agent d)) StreamAgent None (p_event_type p)
    (p_payload_schema p) pl (mkPrincipalRef Component (d_instance_id d))
    (Some (d_authority_id d)) (Some (d_activity_id d)) (Some (d_correlation_id d))
    (option_or (p_causation_id p) cause) (option_or (p_idempotency_key p) key).

(** The payload the host accepts for a proposal. *)
Definition accepted_payload (h : HostState) (p : Proposal) : result EventPayload RuntimeError :=
  match p_payload p with
  | CanonicalJson b =>
      if String.eqb (p_event_type p) "model.requested"
      then result_map CanonicalJson (complete_model_request h b)
      else Ok (CanonicalJson b)
  | Blob b => Ok (Blob b)
  end.

Definition payload_well_formed (p : EventPayload) : Prop :=
  match p with
  | CanonicalJson text => is_ok (from_slice text) = true
  | Blob b => validate_blob_ref b = Ok tt
  end.

Lemma core_payload_ok p p' :
  core_payload p = Ok p' ↔ p' = p ∧ (∀ b, p = Blob b → validate_blob_ref b = Ok tt).
Proof.
  unfold core_payload, core_blob_ref. destruct p as [text|b]; simpl; [naive_solver|].
  destruct (validate_blob_ref b) as [[]|e] eqn:E; simpl.
  - split; [intros [= <-]; split; [done|by intros ? [= <-]]|]. by intros [-> _].
  - split; [done|]. intros [_ H]. specialize (H b eq_refl). congruence.
Qed.

Lemma append_request_ok h p cause key r :
  append_request h p cause key = Ok r ↔
  h_replaying h = false ∧
  (is_Some (option_or (p_causation_id p) cause) ∨ h_emit_call h = true) ∧
  payload_well_formed (p_payload p) ∧ shows_only (h_visible_blobs h) (p_payload p) ∧
  (∃ pl, accepted_payload h p = Ok pl ∧ r = stamp h p cause key pl) ∧
  authorize core r (h_emits h) = Ok tt.
Proof.
  unfold append_request. destruct (h_replaying h); [by split; [|intros [? _]]|].
  destruct (negb _ && _) eqn:Eg.
  { split; [done|]. intros (_ & Hc & _). exfalso. bool_cases.
    destruct Hc as [[x Hx]|Hc]; [|congruence]. by rewrite Hx in *. }
  assert (is_Some (option_or (p_causation_id p) cause) ∨ h_emit_call h = true) as Hc.
  { destruct (option_or _ _); [eauto|]. simpl in Eg. right. by destruct (h_emit_call h). }
  split.
  - intros H. apply result_bind_ok in H as (pl & Hp%map_err_ok & H).
    apply core_payload_ok in Hp as [-> Hb].
    apply result_bind_ok in H as ([] & [Hj Hs]%authorize_blob_references_ok & H).
    apply result_bind_ok in H as (pl' & Hpl & H).
    apply result_bind_ok in H as ([] & Ha%map_err_ok & Hr). injection Hr as <-.
    split; [reflexivity|]. split; [exact Hc|]. split; [|split; [exact Hs|split; [|exact Ha]]].
    + clear Ha Hpl. destruct (p_payload p); simpl; [by apply Hj|by apply Hb].
    + exists pl'. split; [|reflexivity]. clear Ha. unfold accepted_payload.
      by destruct (p_payload p).
  - intros (_ & _ & Hw & Hs & (pl & Hpl & ->) & Ha).
    assert (core_payload (p_payload p) = Ok (p_payload p)) as ->.
    { clear Ha Hpl. apply core_payload_ok. split; [done|]. intros b Hb. by rewrite Hb in Hw. }
    cbn [map_err result_bind].
    assert (authorize_blob_references (p_payload p) (h_visible_blobs h) = Ok tt) as ->.
    { clear Ha Hpl. apply authorize_blob_references_ok. split; [|done].
      intros text Ht. by rewrite Ht in Hw. }
    cbn [result_bind]. apply result_bind_ok. exists pl.
    split; [clear Ha; unfold accepted_payload in Hpl; by destruct (p_payload p)|].
    change (mkAppendRequest _ _ _ _ _ _ _ _ _ _ _ _) with (stamp h p cause key pl).
    rewrite Ha. reflexivity.
Qed.

(** A proposal is accepted exactly when the instance is not replaying, the
    proposal has a cause (or comes from a source), its payload is well formed,
    every blob it names is visible to the delivery, and its type is granted;
    and the event it becomes carries the host's stream, actor, authority,
    activity and correlation, whatever the component proposed. *)
Theorem proposal_accepted_iff (h : HostState) (p : Proposal) (cause : option EventId)
    (key : option string) (r : AppendRequest) :
  p_event_type p ≠ "model.requested" →
  append_request h p cause key = Ok r ↔
  h_replaying h = false ∧
  (is_Some (option_or (p_causation_id p) cause) ∨ h_emit_call h = true) ∧
  payload_well_formed (p_payload p) ∧ shows_only (h_visible_blobs h) (p_payload p) ∧
  r = stamp h p cause key (p_payload p) ∧ authorize core r (h_emits h) = Ok tt.
Proof.
  intros Hm. rewrite append_request_ok. unfold accepted_payload.
  rewrite (proj2 (String.eqb_neq _ _) Hm).
  assert (∀ pl, match p_payload p with
                | CanonicalJson b => Ok (CanonicalJson b)
                | Blob b => Ok (Blob b)
                end = @Ok _ RuntimeError pl ↔ pl = p_payload p) as Hpl.
  { intros pl. destruct (p_payload p); naive_solver. }
  setoid_rewrite Hpl. clear Hpl. generalize (authorize core r (h_emits h) = Ok tt). intros P.
  naive_solver.
Qed.
End proposals.

(** ** What a component can change *)

(** The fields a component has no influence on. *)
Definition same_grants (h h' : HostState) : Prop :=
  h_delivery h' = h_delivery h ∧ h_emits h' = h_emits h ∧ h_credentials h' = h_credentials h ∧
  h_model h' = h_model h ∧ h_identity h' = h_identity h ∧ h_memory_limit h' = h_memory_limit h.

(** A request with the host's provenance and a granted type. *)
Record own_request (h : HostState) (r : AppendRequest) : Prop := {
  own_stream : stream_id r = principal_id (d_agent (h_delivery h));
  own_actor : actor r = mkPrincipalRef Component (d_instance_id (h_delivery h));
  own_authority : authority_id r = Some (d_authority_id (h_delivery h));
  own_activity : activity_id r = Some (d_activity_id (h_delivery h));
  own_correlation : correlation_id r = Some (d_correlation_id (h_delivery h));
  own_type : authorize core r (h_emits h) = Ok tt;
}.

Lemma own_request_grants h h' r : same_grants h h' → own_request h' r → own_request h r.
Proof. intros (Hd & He & _) []. rewrite Hd, He in *. by split. Qed.

(** The values the Rust types of a call's arguments allow. *)
Definition proposal_typed (p : Proposal) : Prop :=
  match p_payload p with
  | Blob b => u64_range (blob_size b)
  | CanonicalJson _ => True
  end.
Definition claim_typed (k : option N) : Prop := ∀ n, k = Some n → u64_range n.
Definition hostcall_typed (c : HostCall) : Prop :=
  match c with
  | EventsAppend p => proposal_typed p
  | RuntimeReady ps _ => Forall proposal_typed ps
  | RuntimeCommit ps _ claimed => Forall proposal_typed ps ∧ claim_typed claimed
  | _ => True
  end.
Fixpoint guest_typed {A} (ok : A → Prop) (g : Guest A) : Prop :=
  match g with
  | Return a => ok a
  | Trap _ => True
  | Call c k => hostcall_typed c ∧ ∀ a, guest_typed ok (k a)
  end.

Section confinement.
Context {W B : Type} {ES : EventStore W} {EL : EventStoreLaws W} {SS : StateStore W}
  {DS : DeliveryStore W} {CS : CredentialStore W} {AV : AgentStoreView W}
  {AL : AgentStoreLaws W} {BS : BlobStore B} {SJ : SerdeJson} {HC : HostCodec}
  {SC : SystemClock}.
Abbreviation HW := (HostWorld W B).
Implicit Types (s : HW).

(** The log grows by events with this host's provenance only. *)
Definition grows (h : HostState) (log log' : list CommittedEvent) : Prop :=
  ∃ new, log' = log ++ new ∧ Forall (λ e, own_request h (request e)) new.

(** From one world to a later one: every effect is the component's own. *)
Record confined (s s' : HW) : Prop := {
  cf_grants : same_grants (host s) (host s');
  cf_replaying : h_replaying (host s') = h_replaying (host s);
  cf_active : active (h_runner (host s')) = active (h_runner (host s));
  cf_inv : es_inv (store s');
  cf_log : grows (host s) (es_log (store s)) (es_log (store s'));
  cf_state : ∀ ns, ns ≠ d_instance_id (h_delivery (host s)) →
    st_state (store s') ns = st_state (store s) ns;
  cf_cursor : ∀ k, k ≠ cursor_of (h_delivery (host s)) →
    st_cursor (store s') k = st_cursor (store s) k;
  cf_credentials : ∀ h p, st_credentials (store s') h p ≠ st_credentials (store s) h p →
    ∃ access, h_credentials (host s) = Some access ∧ h ∈ ca_handles access ∧
      p = ca_provider access;
}.

(** A step of the component itself: it commits nothing while it is idle or
    replaying, and appends nothing while it is replaying. *)
Record contained (s s' : HW) : Prop := {
  cf_confined : confined s s';
  cf_idle : active (h_runner (host s)) = false ∨ h_replaying (host s) = true →
    st_state (store s') = st_state (store s) ∧ st_cursor (store s') = st_cursor (store s);
  cf_replay : h_replaying (host s) = true → es_log (store s') = es_log (store s);
}.

Lemma same_grants_refl h : same_grants h h.
Proof. by repeat split. Qed.

Lemma same_grants_trans h1 h2 h3 : same_grants h1 h2 → same_grants h2 h3 → same_grants h1 h3.
Proof. unfold same_grants. intros. destruct_and?. split_and!; congruence. Qed.

Lemma grows_refl h log : grows h log log.
Proof. exists []. by rewrite app_nil_r. Qed.

Lemma grows_trans h1 h2 log1 log2 log3 :
  same_grants h1 h2 → grows h1 log1 log2 → grows h2 log2 log3 → grows h1 log1 log3.
Proof.
  intros Hg (n1 & -> & H1) (n2 & -> & H2). exists (n1 ++ n2). rewrite app_assoc. split; [done|].
  apply Forall_app. split; [done|]. eapply Forall_impl; [done|]. intros e He.
  by eapply own_request_grants.
Qed.

Lemma confined_refl s : es_inv (store s) → confined s s.
Proof. intros Hi. split; try done; apply grows_refl. Qed.

Lemma confined_trans s1 s2 s3 : confined s1 s2 → confined s2 s3 → confined s1 s3.
Proof.
  intros H1 H2. pose proof (cf_grants _ _ H1) as Hg. pose proof Hg as (Hd & _ & Hc & _).
  split.
  - by eapply same_grants_trans; [|apply H2].
  - by rewrite (cf_replaying _ _ H2), (cf_replaying _ _ H1).
  - by rewrite (cf_active _ _ H2), (cf_active _ _ H1).
  - apply H2.
  - eapply grows_trans; [done|apply H1|apply H2].
  - intros ns Hn. rewrite (cf_state _ _ H2), (cf_state _ _ H1); [done|done|by rewrite Hd].
  - intros k Hk. rewrite (cf_cursor _ _ H2), (cf_cursor _ _ H1); [done|done|by rewrite Hd].
  - intros h p Hne. destruct (decide (st_credentials (store s2) h p = st_credentials (store s1) h p)).
    + rewrite <- Hc. apply (cf_credentials _ _ H2). congruence.
    + by apply (cf_credentials _ _ H1).
Qed.

Lemma contained_refl s : es_inv (store s) → contained s s.
Proof. intros Hi. split; try done. by apply confined_refl. Qed.

Lemma contained_trans s1 s2 s3 : contained s1 s2 → contained s2 s3 → contained s1 s3.
Proof.
  intros [H1 Hi1 Hr1] [H2 Hi2 Hr2]. split.
  - by eapply confined_trans.
  - intros Hi. destruct (Hi1 Hi) as [<- <-]. apply Hi2.
    by rewrite (cf_active _ _ H1), (cf_replaying _ _ H1).
  - intros Hr. rewrite Hr2, Hr1; [done|done|]. by rewrite (cf_replaying _ _ H1).
Qed.

(** ** Steps that stay contained *)

(** Running the step from this world stays contained. *)
Definition safe {E A} (m : SM HW E A) s : Prop := contained s (m s).2.

Lemma safe_bind {E A A'} (m : SM HW E A) (k : A → SM HW E A') s :
  safe m s → (∀ a s1, m s = (Ok a, s1) → contained s s1 → safe (k a) s1) → safe (sm_bind m k) s.
Proof.
  unfold safe, sm_bind. destruct (m s) as [[a|e] s1]; simpl; [|done].
  intros Hm Hk. eapply contained_trans; [done|]. by apply Hk.
Qed.

Lemma safe_ret {E A} (r : result A E) s : es_inv (store s) → safe (sm_lift r) s.
Proof. apply contained_refl. Qed.

Lemma safe_bind_host {E A} (k : HostState → SM HW E A) s :
  safe (k (host s)) s → safe (sm_bind the_host k) s.
Proof. done. Qed.

Lemma safe_bind_lift {E A A'} (r : result A E) (k : A → SM HW E A') s :
  es_inv (store s) → (∀ a, r = Ok a → safe (k a) s) → safe (sm_bind (sm_lift r) k) s.
Proof.
  intros Hi Hk. unfold safe, sm_bind, sm_lift. destruct r; simpl; [by apply Hk|by apply contained_refl].
Qed.

Lemma safe_map_err {E F A} (f : E → F) (m : SM HW E A) s : safe m s → safe (sm_map_err f m) s.
Proof. unfold safe, sm_map_err. by destruct (m s) as [[] ?]. Qed.

Lemma safe_try {E F A} (m : SM HW E A) s : safe m s → safe (sm_try (F := F) m) s.
Proof. unfold safe, sm_try. by destruct (m s). Qed.

Lemma safe_on_host {E} f s :
  es_inv (store s) → same_grants (host s) (f (host s)) →
  h_replaying (f (host s)) = h_replaying (host s) →
  active (h_runner (f (host s))) = active (h_runner (host s)) → safe (on_host (E := E) f) s.
Proof. intros Hi Hg Hr Ha. split; [split| |]; try done; apply grows_refl. Qed.

Lemma safe_on_blobs {E A} (m : B → result A E * B) s : es_inv (store s) → safe (on_blobs m) s.
Proof.
  intros Hi. unfold safe, on_blobs. destruct (m (blob_store s)).
  split; [split| |]; try done; apply grows_refl.
Qed.

Lemma safe_host_clock {E} s : es_inv (store s) → safe (host_clock (E := E)) s.
Proof. intros Hi. split; [split| |]; try done; apply grows_refl. Qed.

(** A call of the store that changes nothing. *)
Lemma safe_on_store_read {E A} (m : W → result A E * W) s :
  (∀ r w', m (store s) = (r, w') → unchanged (store s) w') → safe (on_store m) s.
Proof.
  intros Hm. unfold safe, on_store. destruct (m (store s)) as [r w'] eqn:E'.
  destruct (Hm _ _ eq_refl) as (Hi & Hl & Hs & Hc & Hcr). simpl.
  split; [split| |]; simpl; rewrite ?Hl, ?Hs, ?Hc, ?Hcr; try done; apply grows_refl.
Qed.

(** *** Appending and committing *)

Lemma log_append_grows h log r e log' :
  log_append log r e log' → own_request h r → grows h log log'.
Proof.
  intros [e0 key|e0 Hr _ _ _] Ho; [apply grows_refl|]. exists [e0]. split; [done|].
  apply Forall_singleton. by rewrite Hr.
Qed.

Lemma log_appends_grows h log rs es log' :
  log_appends log rs es log' → Forall (own_request h) rs → grows h log log'.
Proof.
  induction 1 as [log|log r e log1 rs es log2 H _ IH]; intros Hf; [apply grows_refl|].
  apply Forall_cons in Hf as [Hr Hf]. eapply grows_trans; [apply same_grants_refl| |by apply IH].
  by eapply log_append_grows.
Qed.

Lemma append_request_own h p cause key r :
  append_request h p cause key = Ok r → own_request h r.
Proof. intros (_ & _ & _ & _ & (pl & _ & ->) & Ha)%append_request_ok. by split. Qed.

Lemma append_request_typed h p cause key r :
  proposal_typed p → append_request h p cause key = Ok r → request_typed r.
Proof.
  intros Hp (_ & _ & _ & _ & (pl & Hpl & ->) & Ha)%append_request_ok. clear Ha.
  unfold request_typed, accepted_payload, proposal_typed in *. simpl.
  destruct (p_payload p) as [b|b]; [|by simplify_eq].
  destruct (String.eqb _ _); [|by simplify_eq].
  destruct (complete_model_request h b); by simplify_eq/=.
Qed.

Lemma append_request_live h p cause key r :
  append_request h p cause key = Ok r → h_replaying h = false.
Proof. by intros (? & _)%append_request_ok. Qed.

Lemma safe_append r s :
  es_inv (store s) → own_request (host s) r → request_typed r → h_replaying (host s) = false →
  safe (on_store (es_append r)) s.
Proof.
  intros Hi Ho Ht Hr. unfold safe, on_store. destruct (es_append r (store s)) as [res w'] eqn:E.
  destruct (st_append _ _ _ _ Hi E) as (Hs & Hc & Hcr).
  assert (es_inv w' ∧ grows (host s) (es_log (store s)) (es_log w')) as [Hi' Hg].
  { destruct res as [e|e].
    - apply es_append_ok in E as [? Hl]; [|done|done]. split; [done|]. by eapply log_append_grows.
    - apply es_append_err in E as [? ->]; [|done|done]. split; [done|]. apply grows_refl. }
  simpl. split; [split| |]; simpl; rewrite ?Hs, ?Hc, ?Hcr; try done. congruence.
Qed.

(** A delivery of the component's own cursor. *)
Record own_delivery (h : HostState) (c : DeliveryCommit) : Prop := {
  od_cursor : cursor c = cursor_of (h_delivery h);
  od_events : Forall (own_request h) (events c);
  od_typed : delivery_typed c;
}.

Lemma commit_confined c s :
  es_inv (store s) → own_delivery (host s) c → confined s (on_store (ds_commit c) s).2.
Proof.
  intros Hi [Hc He Ht]. unfold on_store. destruct (ds_commit c (store s)) as [[rc|e] w'] eqn:E; simpl.
  - apply st_commit_ok in E as [Hi' _ _ _ _ Hk Hl _ Hs Hcr]; [|done|done]. rewrite Hc in *.
    split; simpl; rewrite ?Hcr; try done. by eapply log_appends_grows.
  - apply st_commit_err in E as (Hi' & Hl & Hs & Hcu & Hcr); [|done|done].
    split; simpl; rewrite ?Hl, ?Hs, ?Hcu, ?Hcr; try done. apply grows_refl.
Qed.

Lemma try_map_forall {A A' E} (f : A → result A' E) l l' (P : A' → Prop) :
  try_map f l = Ok l' → (∀ x y, x ∈ l → f x = Ok y → P y) → Forall P l'.
Proof.
  revert l'. induction l as [|x l IH]; intros l' H Hf; simpl in H; [by simplify_eq|].
  apply result_bind_ok in H as (y & Hy & H). apply result_bind_ok in H as (ys & Hys & [= <-]).
  constructor; [apply (Hf x); [by left|done]|]. apply IH; [done|]. intros. eapply Hf; [by right|done].
Qed.

Lemma numbered_elem (ps : list Proposal) i p :
  (i, p) ∈ imap (λ i p, (N.of_nat i, p)) ps → p ∈ ps.
Proof.
  intros (j & Hj)%list_elem_of_lookup. rewrite list_lookup_imap in Hj.
  apply fmap_Some in Hj as (p' & Hp & [= -> ->]). by eapply list_elem_of_lookup_2.
Qed.

(** The requests of a batch of typed proposals. *)
Lemma batch_requests_own h cause (key : N → string) ps rs :
  Forall proposal_typed ps →
  try_map (λ '(i, p), append_request h p cause (Some (key i)))
    (imap (λ i p, (N.of_nat i, p)) ps) = Ok rs →
  Forall (own_request h) rs ∧ Forall request_typed rs.
Proof.
  intros Hp H. split; (eapply try_map_forall; [exact H|]); intros [i p] r Hin Hr.
  - by eapply append_request_own.
  - eapply append_request_typed; [|exact Hr]. rewrite Forall_forall in Hp.
    by eapply Hp, numbered_elem.
Qed.

(** *** The imports *)

Lemma contained_inv s s' : contained s s' → es_inv (store s').
Proof. intros H. apply H. Qed.

Lemma safe_on_runner {E} f s :
  es_inv (store s) → active (f (h_runner (host s))) = active (h_runner (host s)) →
  safe (on_runner (E := E) f) s.
Proof. intros. by apply safe_on_host. Qed.

Lemma reveal_grants es h : same_grants h (reveal_event_blobs es h).
Proof. by repeat split. Qed.

Lemma reveal_delivery es h : h_delivery (reveal_event_blobs es h) = h_delivery h.
Proof. done. Qed.

Lemma fold_reveal_host es h :
  let h' := foldl (λ h e, reveal_event_blobs [e] h) h es in
  same_grants h h' ∧ h_replaying h' = h_replaying h ∧ h_runner h' = h_runner h.
Proof.
  revert h. induction es as [|e es IH]; intros h; simpl; [done|].
  destruct (IH (reveal_event_blobs [e] h)) as (Hg & Hr & Hn). split_and!; [|done|done].
  by eapply same_grants_trans; [apply reveal_grants|].
Qed.

(** One step of a safety proof; what is left are the calls of the stores. *)
Ltac safe_step :=
  match goal with
  | |- safe (sm_bind the_host _) _ => apply safe_bind_host
  | |- safe (sm_bind (sm_lift _) _) _ => apply safe_bind_lift; [done|intros ? ?]
  | |- safe (sm_bind _ _) _ =>
      apply safe_bind; [|intros ? ? ? ?; match goal with
        | H : contained _ ?s1 |- safe _ ?s1 => pose proof (contained_inv _ _ H)
        end]
  | |- safe (sm_ret _) _ => by apply safe_ret
  | |- safe (sm_fail _) _ => by apply safe_ret
  | |- safe (sm_lift _) _ => by apply safe_ret
  | |- safe (sm_map_err _ _) _ => apply safe_map_err
  | |- safe (sm_try _) _ => apply safe_try
  | |- safe (on_blobs _) _ => by apply safe_on_blobs
  | |- safe host_clock _ => by apply safe_host_clock
  | |- safe (on_host _) _ => apply safe_on_host; [done|done|done|done]
  | |- safe (add_upload _) _ => unfold add_upload
  | |- safe (remove_upload _) _ => unfold remove_upload
  | |- safe (add_visible _) _ => unfold add_visible
  | |- safe (if ?b then _ else _) _ => destruct b eqn:?
  | |- safe (match ?o with Some _ => _ | None => _ end) _ => destruct o
  | |- safe (match ?l with [] => _ | _ :: _ => _ end) _ => destruct l
  end.
Ltac solve_safe := repeat safe_step.

Lemma events_append_safe p s :
  es_inv (store s) → proposal_typed p → safe (events_append p) s.
Proof.
  intros Hi Hp. unfold events_append. safe_step; [safe_step|]. safe_step; [safe_step|].
  safe_step. safe_step. apply map_err_ok in H2.
  pose proof (append_request_own _ _ _ _ _ H2). pose proof (append_request_live _ _ _ _ _ H2).
  apply append_request_typed in H2; [|exact Hp]. safe_step; [|solve_safe]. safe_step.
  by apply safe_append.
Qed.

Lemma get_unchanged id (w : W) r w' : es_inv w → es_get id w = (r, w') → unchanged w w'.
Proof.
  intros Hi H. destruct (es_get_state _ _ _ _ Hi H) as [? ?].
  split; [done|]. split; [done|]. by eapply st_event_get.
Qed.

Lemma query_unchanged st q limit (w : W) r w' :
  es_inv w → es_query st q limit w = (r, w') → unchanged w w'.
Proof.
  intros Hi H. destruct (es_query_state _ _ _ _ _ _ Hi H) as [? ?].
  split; [done|]. split; [done|]. by eapply st_event_query.
Qed.

Lemma events_get_safe id s : es_inv (store s) → safe (events_get id) s.
Proof.
  intros Hi. unfold events_get. solve_safe.
  apply safe_on_store_read. intros r w'. by apply get_unchanged.
Qed.

Lemma events_query_safe f limit s : es_inv (store s) → safe (events_query f limit) s.
Proof.
  intros Hi. unfold events_query. solve_safe.
  - apply safe_on_store_read. intros r w'. by apply query_unchanged.
  - match goal with |- safe (on_host (λ h, foldl _ h ?es)) ?s1 =>
      destruct (fold_reveal_host es (host s1)) as (Hg & Hr & Hn) end.
    apply safe_on_host; [done|done|done|]. by rewrite Hn.
Qed.

Lemma state_get_safe key s : es_inv (store s) → safe (host_state_get key) s.
Proof.
  intros Hi. unfold host_state_get. solve_safe.
  apply safe_on_store_read. intros r w'. by apply st_get_keeps.
Qed.

Lemma state_scan_safe prefix after limit s :
  es_inv (store s) → safe (host_state_scan prefix after limit) s.
Proof.
  intros Hi. unfold host_state_scan. solve_safe.
  apply safe_on_store_read. intros r w'. by apply st_scan_keeps.
Qed.

Lemma blobs_safe s :
  es_inv (store s) →
  (∀ mt b, safe (blobs_put mt b) s) ∧ (∀ mt n, safe (blobs_open_write mt n) s) ∧
  (∀ id off b, safe (blobs_write id off b) s) ∧ (∀ id, safe (blobs_finish id) s) ∧
  (∀ dig, safe (blobs_resolve_visible dig) s) ∧ (∀ b off n, safe (blobs_read b off n) s).
Proof.
  intros Hi. split_and!; intros.
  - unfold blobs_put. solve_safe.
  - unfold blobs_open_write. solve_safe.
  - unfold blobs_write. solve_safe.
  - unfold blobs_finish. solve_safe.
  - unfold blobs_resolve_visible. solve_safe.
  - unfold blobs_read. solve_safe.
Qed.

Lemma safe_cs_read h p s : es_inv (store s) → safe (on_store (cs_read h p)) s.
Proof. intros Hi. apply safe_on_store_read. intros r w'. by apply st_read_credential. Qed.

Lemma credential_access_ok handle h access :
  credential_access handle h = Ok access → h_credentials h = Some access ∧ handle ∈ ca_handles access.
Proof.
  unfold credential_access. destruct (h_credentials h); [|done]. case_bool_decide; naive_solver.
Qed.

Lemma safe_cs_replace handle access expected value s :
  es_inv (store s) → credential_access handle (host s) = Ok access →
  safe (on_store (cs_replace handle (ca_provider access) expected value)) s.
Proof.
  intros Hi [Ha Hh]%credential_access_ok. unfold safe, on_store.
  destruct (cs_replace _ _ _ _ (store s)) as [r w'] eqn:E.
  destruct (st_replace_credential _ _ _ _ _ _ _ Hi E) as (Hi' & Hl & Hs & Hc & Ho).
  split; [split| |]; simpl; rewrite ?Hl, ?Hs, ?Hc; try done; [apply grows_refl|].
  intros h p Hne. exists access. split; [done|].
  destruct (decide ((h, p) = (handle, ca_provider access))) as [[= -> ->]|Hn]; [done|].
  by rewrite Ho in Hne.
Qed.

Lemma credentials_safe s :
  es_inv (store s) →
  (∀ b, safe (credentials_resolve_export b) s) ∧ (∀ h, safe (credentials_get h) s) ∧
  (∀ h e v, safe (credentials_compare_and_swap h e v) s).
Proof.
  intros Hi. split_and!; intros.
  - unfold credentials_resolve_export, access_resolve_export. solve_safe. by apply safe_cs_read.
  - unfold credentials_get. solve_safe. by apply safe_cs_read.
  - unfold credentials_compare_and_swap. solve_safe. by apply safe_cs_replace.
Qed.

(** A commit of an active source. *)
Lemma safe_commit c s :
  es_inv (store s) → own_delivery (host s) c →
  active (h_runner (host s)) = true → h_replaying (host s) = false →
  safe (on_store (ds_commit c)) s.
Proof.
  intros Hi Ho Ha Hr. pose proof (commit_confined c s Hi Ho) as Hc.
  split; [done| |]; [intros [|]|intros]; congruence.
Qed.

Lemma run_commit_safe ps ms claimed s :
  es_inv (store s) → Forall proposal_typed ps → claim_typed claimed →
  active (h_runner (host s)) = true → h_replaying (host s) = false →
  safe (run_commit ps ms claimed) s.
Proof.
  intros Hi Hp Hk Ha Hr. unfold run_commit. safe_step; [safe_step|]. safe_step. safe_step.
  apply safe_bind_lift; [done|]. intros rs Hrs.
  apply batch_requests_own in Hrs as [Ho Ht]; [|done].
  safe_step. safe_step; [safe_step|safe_step].
  - apply safe_commit; [done| |done|done]. split; [done|done|]. split; [|done]. exact Hk.
  - by apply safe_on_runner.
  - safe_step.
Qed.

Lemma runtime_commit_safe ps ms claimed s :
  es_inv (store s) → Forall proposal_typed ps → claim_typed claimed →
  safe (runtime_commit ps ms claimed) s.
Proof.
  intros Hi Hp Hk. unfold runtime_commit. safe_step. safe_step; [safe_step|]. safe_step; [safe_step|].
  apply orb_false_iff in Heqb as [Ha%negb_false_iff Hr].
  safe_step; [safe_step; by apply run_commit_safe|]. safe_step; [|safe_step].
  apply safe_on_runner; [done|]. by repeat case_match.
Qed.

Lemma runtime_reject_safe e s : es_inv (store s) → safe (runtime_reject e) s.
Proof.
  intros Hi. unfold runtime_reject. safe_step. safe_step; [|safe_step].
  safe_step; [by apply safe_on_runner|safe_step].
Qed.

Lemma safe_some {E A} (m : SM HW E A) r s s' :
  safe m s → Some (m s) = Some (r, s') → contained s s'.
Proof. intros Hm [= Heq]. unfold safe in Hm. by rewrite Heq in Hm. Qed.

Lemma runtime_next_contained s r s' :
  es_inv (store s) → runtime_next s = Some (r, s') → contained s s'.
Proof.
  intros Hi. unfold runtime_next.
  destruct (h_shutdown (host s)).
  { apply safe_some. unfold system_time_ms. safe_step; [by apply safe_on_runner|solve_safe]. }
  destruct (_ || _); [intros [= <- <-]; by apply contained_refl|].
  destruct (opt_is_some _); [intros [= <- <-]; by apply contained_refl|].
  destruct (inbox _) as [|[batch|deadline] rest]; [done| |]; apply safe_some.
  - safe_step; [safe_step|]. safe_step; [safe_step|].
    safe_step; [by apply safe_on_runner|solve_safe].
  - safe_step; [safe_step|]. safe_step; [by apply safe_on_runner|solve_safe].
Qed.

Lemma memory_growing_grants current desired h :
  let h' := memory_growing current desired h in
  same_grants h h' ∧ h_replaying h' = h_replaying h ∧ h_runner h' = h_runner h.
Proof. unfold memory_growing. destruct (_ && _); by repeat split. Qed.

(** Every import stays within the grants. *)
Lemma call_contained c s a s' :
  es_inv (store s) → hostcall_typed c → call c s = Some (a, s') → contained s s'.
Proof.
  intros Hi Ht H.
  destruct (blobs_safe s Hi) as (Hb1 & Hb2 & Hb3 & Hb4 & Hb5 & Hb6).
  destruct (credentials_safe s Hi) as (Hc1 & Hc2 & Hc3).
  destruct c; cbn [call hostcall_typed answer_of] in *; try (eapply safe_some; [|exact H]);
    try (by eauto using events_get_safe, events_query_safe, state_get_safe, state_scan_safe,
      events_append_safe, runtime_reject_safe).
  - by apply contained_refl.
  - by eapply runtime_next_contained.
  - destruct Ht. by apply runtime_commit_safe.
  - injection H as _ <-. destruct (memory_growing_grants current desired (host s)) as (Hg & Hr & Hn).
    apply (safe_on_host (E := unit) (memory_growing current desired)); [done|done|done|].
    by rewrite Hn.
Qed.

Lemma run_guest_contained {A} ok (g : Guest A) s r trace s' :
  es_inv (store s) → guest_typed ok g → run_guest g s = (r, trace, s') → contained s s'.
Proof.
  revert s r trace. induction g as [a|reason|c k IH]; intros s r trace Hi Ht H; simpl in H.
  - injection H as <- <- <-. by apply contained_refl.
  - injection H as <- <- <-. by apply contained_refl.
  - destruct Ht as [Hc Hk]. destruct (call c s) as [[a s1]|] eqn:Ec.
    + apply call_contained in Ec; [|done|done].
      destruct (run_guest (k a) s1) as [[r1 t1] s2] eqn:Eg. injection H as <- <- <-.
      eapply contained_trans; [done|]. eapply IH; [|apply Hk|done]. by eapply contained_inv.
    + injection H as <- <- <-. by apply contained_refl.
Qed.

(** (C2) Whatever program a component runs over the host's imports, and
    wherever it is stopped: the log only grows, every event it adds carries the
    component's own provenance and a type it was granted, no other component's
    state or cursor changes, and no credential changes but the granted ones of
    its own provider. *)
Theorem guest_confined {A} (ok : A → Prop) (g : Guest A) (s : HW)
    (r : result A string) (trace : list Answered) (s' : HW) :
  es_inv (store s) → guest_typed ok g → run_guest g s = (r, trace, s') → confined s s'.
Proof. intros Hi Ht H. apply run_guest_contained with ok g s r trace s' in H; [apply H|done|done]. Qed.

(** ** What a component can read *)

(** The answer handed the component a reference to content it stored. *)
Definition stored (x : Answered) (b : BlobRef) : Prop :=
  match x with
  | mkAnswered c a =>
      match c return answer_of c → Prop with
      | BlobsPut _ _ => λ a, a = Ok b
      | BlobsFinish _ => λ a, a = Ok b
      | _ => λ _, False
      end a
  end.

(** An event of the agent's log that the component may see names the blob. *)
Definition handed (s : HW) (b : BlobRef) : Prop :=
  ∃ e, e ∈ es_log (store s) ∧ event_visible (host s) e = true ∧ names (payload (request e)) b.

(** What the router puts in the inbox are events of the agent's stream. *)
Definition inbox_ok (s : HW) : Prop :=
  ∀ batch e, Deliver batch ∈ inbox (h_runner (host s)) → e ∈ batch →
  e ∈ es_log (store s) ∧ stream_id (request e) = principal_id (d_agent (h_delivery (host s))).

Definition visible_from (s s' : HW) (x : Answered) : Prop :=
  ∀ b, b ∈ h_visible_blobs (host s') → b ∈ h_visible_blobs (host s) ∨ stored x b ∨ handed s' b.

Lemma reveal_visible es h b :
  b ∈ h_visible_blobs (reveal_event_blobs es h) →
  b ∈ h_visible_blobs h ∨
  ∃ e, e ∈ es ∧ http_request_visible e (d_instance_id (h_delivery h)) = true ∧
    names (payload (request e)) b.
Proof.
  unfold reveal_event_blobs. simpl. intros Hb.
  set (found := concat _) in Hb.
  assert (b ∈ h_visible_blobs h ∨ b ∈ found) as [?|Hf]; [|by left|right].
  { revert Hb. generalize found, (h_visible_blobs h). clear. intros found.
    induction found as [|x found IH]; intros v Hb; [by left|]. simpl in Hb. apply IH in Hb.
    rewrite elem_of_cons. destruct (is_ok _); set_solver. }
  subst found. apply elem_of_concat_fmap in Hf as (e & He & Hr). exists e.
  rewrite list_elem_of_In, filter_In, <- list_elem_of_In in He.
  rewrite <- referenced_blobs_names. naive_solver.
Qed.

Lemma fold_reveal_visible es h b :
  b ∈ h_visible_blobs (foldl (λ h e, reveal_event_blobs [e] h) h es) →
  b ∈ h_visible_blobs h ∨
  ∃ e, e ∈ es ∧ http_request_visible e (d_instance_id (h_delivery h)) = true ∧
    names (payload (request e)) b.
Proof.
  revert h. induction es as [|e es IH]; intros h Hb; simpl in Hb; [by left|].
  apply IH in Hb as [Hb|(e' & He & Hv & Hn)].
  - apply reveal_visible in Hb as [?|(e' & ->%list_elem_of_singleton & ?)]; [by left|].
    right. exists e. split; [left|done].
  - right. exists e'. split; [by right|]. done.
Qed.

Lemma select_events_elem h f n es e : e ∈ select_events h f n es → e ∈ es.
Proof.
  unfold select_events. intros He%subseteq_take.
  rewrite list_elem_of_In, filter_In, <- list_elem_of_In in He. naive_solver.
Qed.

#[local] Opaque reveal_event_blobs select_events.

Ltac by_cases :=
  cbv [sm_bind sm_map_err sm_lift sm_ret sm_fail sm_try the_host on_host on_store on_blobs
       sm_update host_clock add_upload remove_upload add_visible on_runner] in *;
  repeat case_match; simplify_eq/=.

(** The imports that leave the visible blobs alone. *)
Lemma call_same_visible c s a s' :
  match c with
  | EventsGet _ | EventsQuery _ _ | BlobsPut _ _ | BlobsFinish _ | RuntimeNext => True
  | _ => call c s = Some (a, s') → h_visible_blobs (host s') = h_visible_blobs (host s)
  end.
Proof.
  destruct c; try done; cbn [call answer_of] in *; intros H; injection H as H.
  - unfold events_append in H. by by_cases.
  - unfold host_state_get in H. by by_cases.
  - unfold host_state_scan in H. by by_cases.
  - unfold blobs_open_write in H. by by_cases.
  - unfold blobs_write in H. by by_cases.
  - unfold blobs_resolve_visible in H. by by_cases.
  - unfold blobs_read in H. by by_cases.
  - unfold credentials_resolve_export, access_resolve_export in H. by by_cases.
  - unfold credentials_get in H. by by_cases.
  - unfold credentials_compare_and_swap in H. by by_cases.
  - by subst.
  - unfold runtime_commit, run_commit in H. by by_cases.
  - unfold runtime_reject in H. by by_cases.
  - subst. simpl. unfold memory_growing. by case_match.
Qed.

Lemma events_get_visible id s a s' :
  es_inv (store s) → events_get id s = (a, s') → visible_from s s' (mkAnswered (EventsGet id) a).
Proof.
  intros Hi H b Hb. unfold events_get in H. by_cases; try by left.
  match goal with H : es_get _ _ = _ |- _ => rename H into Hg end.
  pose proof (es_get_state _ _ _ _ Hi Hg) as [_ Hl]. apply es_get_ok in Hg; [|done].
  symmetry in Hg. apply find_some in Hg as [Hin _]. apply list_elem_of_In in Hin.
  apply reveal_visible in Hb as [?|(e & ->%list_elem_of_singleton & Hv & Hn)]; [by left|].
  right. right. eexists. split; [simpl; by rewrite Hl|done].
Qed.

Lemma events_query_visible f limit s a s' :
  es_inv (store s) → events_query f limit s = (a, s') →
  visible_from s s' (mkAnswered (EventsQuery f limit) a).
Proof.
  intros Hi H b Hb. unfold events_query in H.
  set (n := if searching f then _ else _) in H. clearbody n. by_cases; try by left.
  match goal with H : es_query _ _ _ _ = _ |- _ => rename H into Hq end.
  pose proof (es_query_state _ _ _ _ _ _ Hi Hq) as [_ Hl].
  apply fold_reveal_visible in Hb as [?|(e & He & Hv & Hn)]; [by left|]. right. right. exists e.
  apply select_events_elem in He. eapply st_query_sound in He; [|done|done]. apply in_stream_elem in He as [He Hs].
  match goal with |- context [foldl _ (host s) ?l] =>
    destruct (fold_reveal_host l (host s)) as [(Hd & _) _] end.
  split; [simpl; by rewrite Hl|]. split; [|done]. unfold event_visible. simpl. rewrite Hd.
  by rewrite Hs, String.eqb_refl, Hv.
Qed.

Lemma runtime_next_visible s a s' :
  inbox_ok s → runtime_next s = Some (a, s') → visible_from s s' (mkAnswered RuntimeNext a).
Proof.
  intros Hin H b Hb. unfold runtime_next in H. unfold system_time_ms in H.
  by_cases; try by left.
  match goal with H : inbox _ = Deliver ?batch :: _ |- _ =>
    apply reveal_visible in Hb as [?|(e & He & Hv & Hn)]; [by left|];
    destruct (Hin batch e) as [Hlog Hs]; [rewrite H; by left|done|] end.
  right. right. exists e. simpl in *. split; [done|]. split; [|done].
  unfold event_visible. simpl. rewrite reveal_delivery. simpl.
  by rewrite Hs, String.eqb_refl, Hv.
Qed.

Lemma call_visible c s a s' :
  es_inv (store s) → inbox_ok s → call c s = Some (a, s') → visible_from s s' (mkAnswered c a).
Proof.
  intros Hi Hin H. pose proof (call_same_visible c s a s') as Hs.
  destruct c; cbn [call answer_of] in *; try (intros x Hx; left; by rewrite <- Hs).
  - injection H as H. by eapply events_get_visible.
  - injection H as H. by eapply events_query_visible.
  - injection H as H. intros x Hx. unfold blobs_put in H. by_cases; try (by left);
      apply elem_of_union in Hx as [->%elem_of_singleton|Hx]; by auto.
  - injection H as H. intros x Hx. unfold blobs_finish in H. by_cases; try (by left);
      apply elem_of_union in Hx as [->%elem_of_singleton|Hx]; by auto.
  - by eapply runtime_next_visible.
Qed.

(** The inbox is only consumed. *)
Lemma call_inbox c s a s' :
  call c s = Some (a, s') → inbox (h_runner (host s')) ⊆ inbox (h_runner (host s)).
Proof.
  destruct c; cbn [call answer_of] in *; intros H; injection H as H || idtac.
  - unfold events_append in H. by by_cases.
  - unfold events_get in H. by by_cases.
  - unfold events_query in H. set (n := if searching f then _ else _) in H. clearbody n.
    by_cases; try done. match goal with |- context [foldl _ (host s) ?l] =>
      destruct (fold_reveal_host l (host s)) as (_ & _ & Hn) end. by rewrite Hn.
  - unfold host_state_get in H. by by_cases.
  - unfold host_state_scan in H. by by_cases.
  - unfold blobs_put in H. by by_cases.
  - unfold blobs_open_write in H. by by_cases.
  - unfold blobs_write in H. by by_cases.
  - unfold blobs_finish in H. by by_cases.
  - unfold blobs_resolve_visible in H. by by_cases.
  - unfold blobs_read in H. by by_cases.
  - unfold credentials_resolve_export, access_resolve_export in H. by by_cases.
  - unfold credentials_get in H. by by_cases.
  - unfold credentials_compare_and_swap in H. by by_cases.
  - by subst.
  - unfold runtime_next, system_time_ms in H. by_cases; set_solver.
  - unfold runtime_commit, run_commit in H. by by_cases.
  - unfold runtime_reject in H. by by_cases.
  - subst. simpl. unfold memory_growing. by case_match.
Qed.

(** The answer gave the component content of a blob. *)
Definition read_content (x : Answered) (b : BlobRef) : Prop :=
  match x with
  | mkAnswered c a =>
      match c return answer_of c → Prop with
      | BlobsRead b' _ _ => λ a, b' = b ∧ is_ok a = true
      | _ => λ _, False
      end a
  end.

Lemma read_needs_visible c s a s' b :
  call c s = Some (a, s') → read_content (mkAnswered c a) b → b ∈ h_visible_blobs (host s).
Proof.
  destruct c; try done. cbn [call answer_of read_content]. intros [= H] [<- Hok].
  unfold blobs_read, core_blob_ref, ensure_visible_blob in H. cbv [sm_bind sm_lift the_host] in H.
  destruct (validate_blob_ref _); [|by simplify_eq/=]. cbn [map_err result_bind] in H.
  case_bool_decide; [done|]. destruct (validate_blob_ref blob); by simplify_eq/=.
Qed.

Lemma inbox_ok_later s s' :
  contained s s' → inbox (h_runner (host s')) ⊆ inbox (h_runner (host s)) →
  inbox_ok s → inbox_ok s'.
Proof.
  intros [Hc _ _] Hsub Hin batch e Hb He. destruct (Hin batch e (Hsub _ Hb) He) as [Hl Hs].
  destruct (cf_log _ _ Hc) as (new & -> & _). destruct (cf_grants _ _ Hc) as [-> _].
  split; [|done]. apply elem_of_app. by left.
Qed.

Lemma handed_later s s' b : contained s s' → handed s b → handed s' b.
Proof.
  intros [Hc _ _] (e & He & Hv & Hn). exists e.
  destruct (cf_log _ _ Hc) as (new & -> & _). destruct (cf_grants _ _ Hc) as [Hd _].
  unfold event_visible in *. rewrite Hd. split; [|done]. apply elem_of_app. by left.
Qed.

(** (C28) A component reads a blob only if its delivery made the blob visible,
    it stored the content itself earlier in the same run, or an event of its
    agent's log that it may see names the blob. *)
Theorem guest_reads_confined {A} (ok : A → Prop) (g : Guest A) (s : HW)
    (r : result A string) (trace : list Answered) (s' : HW) :
  es_inv (store s) → inbox_ok s → guest_typed ok g → run_guest g s = (r, trace, s') →
  ∀ i x b, trace !! i = Some x → read_content x b →
    b ∈ h_visible_blobs (host s) ∨ (∃ y, y ∈ take i trace ∧ stored y b) ∨ handed s' b.
Proof.
  revert s r trace. induction g as [a|reason|c k IH]; intros s r trace Hi Hin Ht H; simpl in H.
  - by injection H as <- <- <-.
  - by injection H as <- <- <-.
  - destruct Ht as [Hc Hk]. destruct (call c s) as [[a s1]|] eqn:Ec; [|by injection H as <- <- <-].
    destruct (run_guest (k a) s1) as [[r1 t1] s2] eqn:Eg. injection H as <- <- <-.
    pose proof (call_contained _ _ _ _ Hi Hc Ec) as H1. pose proof (contained_inv _ _ H1) as Hi1.
    pose proof (run_guest_contained _ _ _ _ _ _ Hi1 (Hk a) Eg) as H2.
    assert (inbox_ok s1) as Hin1 by (eapply inbox_ok_later; [done|by eapply call_inbox|done]).
    intros [|i] x b Hx Hr; simpl in Hx.
    + simplify_eq. left. by eapply read_needs_visible.
    + destruct (IH a s1 r1 t1 Hi1 Hin1 (Hk a) Eg i x b Hx Hr) as [Hv|[(y & Hy & Hs)|Hh]].
      * apply (call_visible _ _ _ _ Hi Hin Ec) in Hv as [Hv|[Hs|Hh]]; [by left| |].
        -- right. left. exists (mkAnswered c a). split; [by left|done].
        -- right. right. by eapply handed_later.
      * right. left. exists y. split; [by right|done].
      * by right; right.
Qed.

(** ** Deduplication keys *)

(** [types.wit] says that a proposal's key is scoped to its instance; the
    host uses it as it is.  A key under which any component, or the host
    itself, recorded an event of the agent's stream makes the proposal vanish:
    the call answers with that event and nothing is appended. *)
Theorem idempotency_key_unscoped (p : Proposal) (key : string) (e : CommittedEvent)
    (s s' : HW) (n : N) :
  es_inv (store s) → proposal_typed p → p_idempotency_key p = Some key →
  e ∈ es_log (store s) → stream_id (request e) = principal_id (d_agent (h_delivery (host s))) →
  deduplication_key (request e) = Some key → events_append p s = (Ok n, s') →
  n = sequence e ∧ es_log (store s') = es_log (store s).
Proof.
  intros Hi Hp Hkey He Hs Hek H. unfold events_append in H. rewrite Hkey in H. cbn [opt_is_some negb] in H.
  cbv [sm_bind on_host sm_update the_host sm_lift sm_map_err] in H.
  destruct (append_request _ _ _ _) as [r|] eqn:Er; [|done]. cbn [map_err] in H.
  pose proof (append_request_own _ _ _ _ _ Er) as [Hrs _ _ _ _ _].
  assert (deduplication_key r = Some key) as Hrk.
  { apply append_request_ok in Er as (_ & _ & _ & _ & (pl & _ & ->) & _). simpl. by rewrite Hkey. }
  apply append_request_typed in Er; [|done]. unfold on_store in H. simpl in H, Hrs.
  destruct (es_append r (store s)) as [[e'|] w'] eqn:Ea; [|done]. injection H as <- <-. simpl.
  apply es_append_ok in Ea as [_ Ha]; [|done|done]. pose proof (es_log_invariant _ Hi) as Hl.
  inversion Ha as [e0 key' Hin Hst Hk1 Hk2|e0 _ _ _ Hfree]; subst.
  - split; [|done]. f_equal. eapply (key_unique (es_log (store s)) e' e key); try done; congruence.
  - exfalso. eapply Hfree; [done| |done|done]. by rewrite Hs.
Qed.
End confinement.
