(* ===== verification/InstanceSpec.v ===== *)
(** Theorems about the lifecycle of an instance: a delivery commits all of its
    outcome or none of it, the cursor stays inside the delivered batch, and a
    rebuild replays each of the component's own events once. *)
From stdpp Require Import base tactics countable option list strings sorting gmap.
From Stdlib Require Import ZArith NArith Lia Ascii.
From S2P Require Import Prelude Event EventStore Registry Blob Delivery Stores Json Manifest Host Imports HostSpec Instance.

#[local] Opaque authorize core reveal_event_blobs.

(** Typed outcomes of a component. *)
Definition outcome_typed (o : GuestOutcome) : Prop :=
  Forall proposal_typed (o_events o) ∧ claim_typed (o_checkpoint o).
Definition reply_typed (r : result GuestOutcome WitError) : Prop :=
  ∀ o, r = Ok o → outcome_typed o.

Section instance.
Context {W B : Type} {ES : EventStore W} {EL : EventStoreLaws W} {SS : StateStore W}
  {DS : DeliveryStore W} {CS : CredentialStore W} {AV : AgentStoreView W}
  {AL : AgentStoreLaws W} {BS : BlobStore B} {SJ : SerdeJson} {HC : HostCodec}
  {SC : SystemClock}.
Abbreviation HW := (HostWorld W B).
Abbreviation Core := (InstanceCore W B).
Implicit Types (c : Core).

(** ** The invariant of an idle instance *)

Record wf_core c : Prop := {
  wc_inv : es_inv (store (c_world c));
  wc_cursor : c_cursor c = cursor_of (h_delivery (host (c_world c)));
  wc_instance : c_instance_id c = d_instance_id (h_delivery (host (c_world c)));
  wc_idle : active (h_runner (host (c_world c))) = false;
  wc_live : h_replaying (host (c_world c)) = false;
  wc_checkpoint : st_cursor (store (c_world c)) (c_cursor c) = c_checkpoint c;
}.

Definition same_core c c' : Prop :=
  c_instance_id c' = c_instance_id c ∧ c_cursor c' = c_cursor c ∧ c_config c' = c_config c.

(** Neither the component's state nor any cursor has changed. *)
Definition uncommitted c c' : Prop :=
  st_state (store (c_world c')) = st_state (store (c_world c)) ∧
  st_cursor (store (c_world c')) = st_cursor (store (c_world c)) ∧
  c_checkpoint c' = c_checkpoint c.

Lemma wf_core_step c c' :
  wf_core c → same_core c c' → confined (c_world c) (c_world c') → uncommitted c c' → wf_core c'.
Proof.
  intros [H1 H2 H3 H4 H5 H6] (Hi & Hc & _) Hcf (_ & Hk & Hck).
  destruct (cf_grants _ _ Hcf) as [Hd _]. split.
  - apply Hcf.
  - by rewrite Hc, Hd.
  - by rewrite Hi, Hd.
  - by rewrite (cf_active _ _ Hcf).
  - by rewrite (cf_replaying _ _ Hcf).
  - by rewrite Hk, Hc, Hck.
Qed.

(** One step of the lifecycle before its commit. *)
Record prelude c c' : Prop := {
  pr_same : same_core c c';
  pr_confined : confined (c_world c) (c_world c');
  pr_uncommitted : uncommitted c c';
  pr_wf : wf_core c';
}.

Lemma prelude_refl c : wf_core c → prelude c c.
Proof. intros H. split; try done. by apply confined_refl, H. Qed.

Lemma prelude_trans c1 c2 c3 : prelude c1 c2 → prelude c2 c3 → prelude c1 c3.
Proof.
  intros [(H1 & H2 & H3) Hc (H4 & H5 & H6) Hw] [(H1' & H2' & H3') Hc' (H4' & H5' & H6') Hw'].
  split; [split_and!; congruence|by eapply confined_trans|split_and!; congruence|done].
Qed.

Lemma prelude_make c c' :
  wf_core c → same_core c c' → c_checkpoint c' = c_checkpoint c →
  contained (c_world c) (c_world c') → prelude c c'.
Proof.
  intros Hw Hs Hk Hc. assert (uncommitted c c') as Hu.
  { unfold uncommitted. destruct (cf_idle _ _ Hc) as [-> ->]; [left; apply Hw|]. done. }
  split; [done|apply Hc|done|]. eapply wf_core_step; [done|done|apply Hc|done].
Qed.

(** ** Steps on the world of the instance *)

Lemma in_world_prelude {E A} (m : SM HW E A) c :
  wf_core c → safe m (c_world c) → prelude c (in_world m c).2.
Proof.
  intros Hw Hm. unfold in_world, safe in *. destruct (m (c_world c)) as [r s].
  by apply prelude_make.
Qed.

Lemma release_handles_safe {E} (s : HW) : es_inv (store s) → safe (release_handles (E := E)) s.
Proof. intros Hi. split; [split| |]; simpl; try done; apply grows_refl. Qed.

Lemma prepare_call_prelude {E} p c : wf_core c → prelude c (prepare_call (E := E) p c).2.
Proof. intros Hw. apply in_world_prelude; [done|]. apply safe_on_host; try done. apply Hw. Qed.

Lemma run_guest_ok {A} ok (g : Guest A) (s : HW) a trace s' :
  guest_typed ok g → run_guest g s = (Ok a, trace, s') → ok a.
Proof.
  revert s trace. induction g as [a'|reason|cl k IH]; intros s trace Ht H; simpl in H.
  - by simplify_eq.
  - done.
  - destruct (call cl s) as [[b s1]|]; [|done].
    destruct (run_guest (k b) s1) as [[r1 t1] s2] eqn:Eg. simplify_eq.
    eapply IH; [by apply Ht|done].
Qed.

Lemma execute_prelude {E A} ok (g : Guest A) c :
  wf_core c → guest_typed ok g →
  ∃ r c', execute (E := E) g c = (Ok r, c') ∧ prelude c c' ∧ ∀ a, r = Ok a → ok a.
Proof.
  intros Hw Hg. unfold execute. destruct (run_guest g (c_world c)) as [[r tr] s] eqn:Eg.
  exists r, (set_world s c). split; [done|]. split.
  - apply prelude_make; [done|done|done|]. eapply run_guest_contained; [apply Hw|done|done].
  - intros a ->. by eapply run_guest_ok.
Qed.

(** ** The commit *)

(** What a successful commit of an outcome does: its mutations are applied in
    order, and the requests its proposals are turned into are appended. *)
Record committed (o : GuestOutcome) (cause : option EventId) (phase : CommitPhase) c (out : Outcome) c'
    : Prop := {
  cm_checkpoint : outcome_checkpoint out = c_checkpoint c' ∧
    c_checkpoint c' = default (c_checkpoint c) (o_checkpoint o);
  cm_forward : (c_checkpoint c ≤ c_checkpoint c')%N;
  cm_state : ∃ ms, convert_mutations (o_mutations o) = Ok ms ∧
    st_state (store (c_world c')) (c_instance_id c)
      = foldl (flip mutate) (st_state (store (c_world c)) (c_instance_id c)) ms;
  cm_log : ∃ rs, append_requests (set_uploads ∅ (host (c_world c))) phase (c_checkpoint c) cause (o_events o) = Ok rs ∧
    log_appends (es_log (store (c_world c))) rs (outcome_events out) (es_log (store (c_world c')));
}.

Lemma sm_bind_inv {S E A A'} (m : SM S E A) (k : A → SM S E A') s r s' :
  sm_bind m k s = (r, s') →
  (∃ a s1, m s = (Ok a, s1) ∧ k a s1 = (r, s')) ∨ (∃ e, m s = (Err e, s') ∧ r = Err e).
Proof. unfold sm_bind. destruct (m s) as [[a|e] s1]; intros H; simplify_eq; eauto. Qed.

(** Committing a delivery for the instance's own cursor. *)
Lemma store_commit_spec (f : DeliveryError → RuntimeError) claimed ms rs c res c' :
  wf_core c → Forall (own_request (host (c_world c))) rs → Forall request_typed rs →
  claim_typed claimed →
  (let+ receipt := sm_map_err f (in_world (on_store (ds_commit (mkDeliveryCommit (c_cursor c)
     (c_checkpoint c) claimed ms rs)))) in
   do+ sm_update (set_checkpoint (receipt_checkpoint receipt));
   sm_ret (mkOutcome (receipt_events receipt) (receipt_checkpoint receipt))) c = (res, c') →
  same_core c c' ∧ confined (c_world c) (c_world c') ∧ wf_core c' ∧
  match res with
  | Ok out => outcome_checkpoint out = c_checkpoint c' ∧
      c_checkpoint c' = default (c_checkpoint c) claimed ∧ (c_checkpoint c ≤ c_checkpoint c')%N ∧
      st_state (store (c_world c')) (c_instance_id c)
        = foldl (flip mutate) (st_state (store (c_world c)) (c_instance_id c)) ms ∧
      log_appends (es_log (store (c_world c))) rs (outcome_events out) (es_log (store (c_world c')))
  | Err _ => uncommitted c c' ∧ es_log (store (c_world c')) = es_log (store (c_world c))
  end.
Proof.
  intros Hw Ho Ht Hk. set (d := mkDeliveryCommit _ _ _ _ _).
  assert (own_delivery (host (c_world c)) d) as Hod by (split; [apply Hw|done|by split]).
  pose proof (commit_confined d (c_world c) (wc_inv _ Hw) Hod) as Hcf.
  unfold sm_bind, sm_map_err, in_world, on_store in *.
  destruct (ds_commit d (store (c_world c))) as [[rc|e] w'] eqn:Ed; cbn in Hcf |- *; intros H;
    injection H as <- <-.
  - apply st_commit_ok in Ed as [Hi Hexp Hfw Hrc Hcu Hoc Hl Hs Hos _]; [|apply Hw|apply Hod].
    split; [by split_and!|]. split; [exact Hcf|]. cbn in *. rewrite wc_instance by done.
    pose proof (wc_cursor _ Hw) as Hcur. split.
    + destruct Hw. by split.
    + split_and!; try done. by rewrite Hcur in Hs.
  - apply st_commit_err in Ed as (Hi & Hl & Hs & Hcu & _); [|apply Hw|apply Hod].
    assert (uncommitted c (set_world (mkHostWorld (host (c_world c)) w'
      (blob_store (c_world c)) (clock_reads (c_world c))) c)) as Hu by by split_and!.
    split; [by split_and!|]. split; [exact Hcf|]. split; [|by split].
    by eapply wf_core_step; [| |exact Hcf|].
Qed.

(** A refused outcome changes nothing the stores hold. *)
Definition rejected c c' : Prop :=
  uncommitted c c' ∧ es_log (store (c_world c')) = es_log (store (c_world c)).

Lemma release_step {E} c :
  wf_core c → ∃ c1, in_world (release_handles (E := E)) c = (Ok tt, c1) ∧ prelude c c1 ∧
    host (c_world c1) = set_uploads ∅ (host (c_world c)) ∧
    store (c_world c1) = store (c_world c).
Proof.
  intros Hw. eexists. split; [reflexivity|]. split; [|done].
  apply (in_world_prelude (E := E) release_handles); [done|]. apply release_handles_safe, Hw.
Qed.

Lemma commit_spec o cause phase c res c' :
  wf_core c → outcome_typed o → instance_commit o cause phase c = (res, c') →
  same_core c c' ∧ confined (c_world c) (c_world c') ∧ wf_core c' ∧
  match res with
  | Ok out => committed o cause phase c out c'
  | Err _ => rejected c c'
  end.
Proof.
  intros Hw [Hp Hk] H. unfold instance_commit in H.
  destruct (release_step (E := RuntimeError) c Hw) as (c1 & Er & [Hs Hcf Hu Hw1] & Hhost & Hst).
  assert (rejected c c1) as Hrej by (split; [done|by rewrite Hst]).
  unfold sm_bind at 1 in H. rewrite Er in H.
  destruct (_ <? _)%N; [injection H as <- <-; done|].
  change (sm_bind sm_get ?k c1) with (k c1 c1) in H. cbv beta zeta in H.
  apply sm_bind_inv in H as [(rs & c2 & Hrs & H)|(e & [= He <-] & ->)]; [|done].
  injection Hrs as Hrs <-. pose proof Hrs as Hreq.
  apply batch_requests_own in Hrs as [Ho Ht]; [|done].
  apply sm_bind_inv in H as [(ms & c2 & Hms & H)|(e & [= He <-] & ->)]; [|done].
  injection Hms as Hms <-. apply store_commit_spec in H as (Hs' & Hcf' & Hw' & H); try done.
  destruct Hs as (Hi1 & Hc1 & Hg1), Hs' as (Hi2 & Hc2 & Hg2), Hu as (Hus & Huk & Huc).
  split; [split_and!; congruence|]. split; [by eapply confined_trans|]. split; [done|].
  rewrite Hst in *. destruct res as [out|e].
  - destruct H as (H1 & H2 & H3 & H4 & H5). rewrite Huc, Hi1 in *. split; try done.
    + by exists ms.
    + exists rs. split; [|done]. unfold append_requests. rewrite <- Hhost, <- (wc_instance _ Hw1), Hi1. exact Hreq.
  - destruct H as [(H1 & H2 & H3) H4]. split; [|done]. rewrite Hst in *. split_and!; congruence.
Qed.

(** ** Deliveries *)

Lemma log_appends_elem log rs es log' e : log_appends log rs es log' → e ∈ es → e ∈ log'.
Proof.
  induction 1 as [|log r e0 log1 rs es log2 H Hl IH]; intros He.
  - by apply not_elem_of_nil in He.
  - apply elem_of_cons in He as [->|He]; [|by apply IH].
    apply log_append_elem in H. apply log_appends_prefix in Hl as [new ->].
    apply elem_of_app. by left.
Qed.

(** The call of an export, whatever it answers. *)
Lemma call_guest_spec p label (g : Guest (result GuestOutcome WitError)) c res c' :
  wf_core c → guest_typed reply_typed g → call_guest p label g c = (res, c') →
  prelude c c' ∧ ∀ o, res = Ok o → outcome_typed o.
Proof.
  intros Hw Hg H. unfold call_guest in H. unfold sm_bind at 1 in H.
  pose proof (prepare_call_prelude (E := RuntimeError) p c Hw) as H1.
  destruct (prepare_call p c) as [r1 c1] eqn:E1. cbn [snd] in H1. destruct r1; [|by injection E1].
  unfold sm_bind at 1 in H.
  destruct (execute_prelude (E := RuntimeError) reply_typed g c1 (pr_wf _ _ H1) Hg)
    as (r & c2 & Ex & H2 & Hr). rewrite Ex in H.
  assert (prelude c c2) as H3 by by eapply prelude_trans.
  assert (∃ c3, prelude c c3 ∧ guest_answer label r c3 = (res, c')) as (c3 & H4 & Ha).
  { unfold sm_bind in H. destruct (returned r); [by exists c2|].
    destruct (release_step (E := RuntimeError) c2 (pr_wf _ _ H2)) as (c3 & E3 & H4 & _ & _).
    rewrite E3 in H. exists c3. split; [by eapply prelude_trans|done]. }
  unfold guest_answer in Ha. destruct r as [[o|e]|reason]; injection Ha as <- <-; split; try done.
  intros o' [= <-]. by apply (Hr _ eq_refl).
Qed.

Lemma lowest_default k es : es ≠ [] → lowest k es = lowest 0 es.
Proof. by destruct es. Qed.

Lemma highest_default k es : es ≠ [] → highest k es = highest 0 es.
Proof. unfold highest. destruct (last es) eqn:E; [done|]. by apply last_None in E. Qed.

(** The world a handler is called in: the blobs of the batch are visible and
    the call's records are reset. *)
Definition called_world (p : string) (es : list CommittedEvent) c : HW :=
  set_host (set_evidence None p (set_emit_call false (reveal_event_blobs es (host (c_world c))))) (c_world c).

(** An export that returns an outcome returned it in the world it was called
    in. *)
Lemma call_guest_returned p label (g : Guest (result GuestOutcome WitError)) c o c' :
  call_guest p label g c = (Ok o, c') →
  ∃ trace, run_guest g (set_host (set_evidence None p (set_emit_call false (host (c_world c)))) (c_world c))
    = (Ok (Ok o), trace, c_world c').
Proof.
  unfold call_guest, sm_bind at 1, prepare_call, in_world, on_host, sm_update. cbn.
  unfold sm_bind at 1, execute. cbn.
  destruct (run_guest g _) as [[r trace] s2]. unfold sm_bind.
  destruct r as [[o'|e]|reason]; cbn [returned]; [|by cbn..].
  intros [= <- <-]. by exists trace.
Qed.

(** What a delivery that succeeds does: nothing for an empty batch, and else
    the commit of the outcome the handler returned. *)
Definition delivered (handler : Context_ → list WitEvent → Guest (result GuestOutcome WitError))
    (es : list CommittedEvent) c (out : Outcome) c' : Prop :=
  if bool_decide (es = []) then
    outcome_events out = [] ∧ c_world c' = c_world c ∧ c_checkpoint c' = c_checkpoint c
  else
    ∃ o trace w,
      run_guest (handler (context c) (wit_batch (host (c_world c)) es)) (called_world "delivery" es c)
        = (Ok (Ok o), trace, w) ∧
      c_checkpoint c' = default (c_checkpoint c) (o_checkpoint o) ∧
      (∃ ms, convert_mutations (o_mutations o) = Ok ms ∧
        st_state (store (c_world c')) (c_instance_id c)
          = foldl (flip mutate) (st_state (store (c_world c)) (c_instance_id c)) ms) ∧
      (∃ rs, append_requests (set_uploads ∅ (host w)) PhaseHandle (c_checkpoint c) (single_cause es) (o_events o)
          = Ok rs ∧
        log_appends (es_log (store w)) rs (outcome_events out) (es_log (store (c_world c')))).

Lemma handle_inner_spec handler es c res c' :
  wf_core c → (∀ cx batch, guest_typed reply_typed (handler cx batch)) →
  handle_inner handler es c = (res, c') →
  same_core c c' ∧ confined (c_world c) (c_world c') ∧ wf_core c' ∧
  match res with
  | Ok out => outcome_checkpoint out = c_checkpoint c' ∧ (c_checkpoint c ≤ c_checkpoint c')%N ∧
      (c_checkpoint c' = c_checkpoint c ∨
       lowest 0 es ≤ c_checkpoint c' ≤ highest 0 es)%N ∧
      (∀ e, e ∈ outcome_events out → e ∈ es_log (store (c_world c'))) ∧ delivered handler es c out c'
  | Err _ => uncommitted c c'
  end.
Proof.
  intros Hw Hh H. unfold handle_inner in H.
  change (sm_bind sm_get ?k c) with (k c c) in H. cbv beta in H. unfold delivered.
  case_bool_decide as Hes.
  { injection H as <- <-. split; [done|]. split; [by apply confined_refl, Hw|]. split; [done|].
    split_and!; [done|done|by left| |done..]. intros e He. by apply not_elem_of_nil in He. }
  cbv zeta in H. unfold sm_bind at 1 in H.
  pose proof (in_world_prelude (E := RuntimeError) (on_host (reveal_event_blobs es)) c Hw) as H1.
  destruct (in_world (on_host (reveal_event_blobs es)) c) as [r1 c1] eqn:E1. cbn [snd] in H1.
  destruct r1; [|by injection E1]. specialize (H1 ltac:(apply safe_on_host; try done; apply Hw)).
  apply sm_bind_inv in H as [(o & c2 & Hg & H)|(e & Hg & ->)].
  2: { apply call_guest_spec in Hg as [H2 _]; [|apply H1|apply Hh].
       destruct (prelude_trans _ _ _ H1 H2) as [? ? ? ?]. done. }
  pose proof (call_guest_returned _ _ _ _ _ _ Hg) as [trace Hrun].
  assert (c1 = set_world (set_host (reveal_event_blobs es (host (c_world c))) (c_world c)) c) as Ec1
    by by injection E1.
  apply call_guest_spec in Hg as [H2 Ho]; [|apply H1|apply Hh]. specialize (Ho o eq_refl).
  destruct (prelude_trans _ _ _ H1 H2) as [Hs Hcf Hu Hw2].
  destruct (is_some_and _ _) eqn:Ek; [by injection H as <- <-|].
  apply commit_spec in H as (Hs' & Hcf' & Hw' & H); [|done|done].
  destruct Hs as (? & ? & ?), Hs' as (? & ? & ?), Hu as (Hu1 & Hu2 & Hu3).
  split; [split_and!; congruence|]. split; [by eapply confined_trans|]. split; [done|].
  destruct res as [out|e].
  - destruct H as [[Hc1 Hc2] Hf Hst (rs & Hrs & Hl)]. rewrite Hu3 in *.
    split_and!; [done|done| |by intros e; apply log_appends_elem with (1 := Hl)|].
    2: { rewrite Ec1 in Hrun. exists o, trace, (c_world c2). split_and!; [exact Hrun|done| |by exists rs].
         destruct Hst as (ms & Hms & Hst). exists ms. split; [done|]. congruence. }
    rewrite Hc2. destruct (o_checkpoint o) as [k|]; [right|by left]. simpl in *.
    apply negb_false_iff, andb_true_iff in Ek as [?%N.leb_le ?%N.leb_le].
    by rewrite <- (lowest_default (c_checkpoint c)), <- (highest_default (c_checkpoint c)).
  - destruct H as [(? & ? & ?) _]. split_and!; congruence.
Qed.

(** (C13) A delivery is a transaction of the component's own cursor.  When it
    succeeds, the outcome the handler returned for the batch is committed: its
    mutations are applied to the component's state in order, its proposals are
    turned into requests with their cause and derived keys and appended to the
    log as it stands after the handler's own calls, the events of the answer
    are those of the log, and the checkpoint is the one the outcome claims,
    inside the delivered batch, or the old one.  A handler that fails, traps
    or is refused changes neither state nor cursor, and only a trap leaves the
    instance unusable.  Whatever the handler did on the way stays confined to
    its grants.  The instance is one that is well formed and not interrupted,
    and the handler sends what the interface's types admit. *)
Theorem handle_transactional (handler : Context_ → list WitEvent → Guest (result GuestOutcome WitError))
    (es : list CommittedEvent) (c : Core) (res : result Outcome RuntimeError) (c' : Core) :
  wf_core c → c_interrupted c = false →
  (∀ cx batch, guest_typed reply_typed (handler cx batch)) → handle handler es c = (res, c') →
  confined (c_world c) (c_world c') ∧ wf_core c' ∧
  match res with
  | Ok out => c_interrupted c' = false ∧
      outcome_checkpoint out = c_checkpoint c' ∧ (c_checkpoint c ≤ c_checkpoint c')%N ∧
      (c_checkpoint c' = c_checkpoint c ∨ lowest 0 es ≤ c_checkpoint c' ≤ highest 0 es)%N ∧
      (∀ e, e ∈ outcome_events out → e ∈ es_log (store (c_world c'))) ∧ delivered handler es c out c'
  | Err e => c_interrupted c' = trapped e ∧ uncommitted c c'
  end.
Proof.
  intros Hw Hi Hh H. unfold handle, lifecycle, begin_lifecycle in H. rewrite Hi in H.
  destruct (handle_inner handler es (set_interrupted true c)) as [r c2] eqn:E.
  apply handle_inner_spec in E as (_ & Hcf & Hw2 & E); [|by destruct Hw; split|done].
  injection H as <- <-. split; [done|]. split; [by destruct Hw2; split|]. by destruct r.
Qed.

(** After a trap the instance refuses every lifecycle call, [skip]
    included, and changes nothing, until it is instantiated again. *)
Theorem trap_refuses_lifecycle
    (handler : Context_ → list WitEvent → Guest (result GuestOutcome WitError))
    (es : list CommittedEvent) (c c' : Core) (e : RuntimeError) :
  handle handler es c = (Err e, c') → trapped e = true →
  let refusal := rt_trap "interrupted lifecycle requires re-instantiation" in
  (∀ h es', handle h es' c' = (Err refusal, c')) ∧ (∀ k, skip k c' = (Err refusal, c')) ∧
  (∀ k rs, skip_with_events k rs c' = (Err refusal, c')) ∧
  (∀ st deadline, stop st deadline c' = (Err refusal, c')) ∧
  (∀ run, init run c' = (Err refusal, c')) ∧
  (∀ fuel h types, rebuild fuel h types c' = (Err (Failed refusal), c')).
Proof.
  intros H He refusal. assert (c_interrupted c' = true) as Hi.
  { unfold handle, lifecycle, begin_lifecycle in H. destruct (c_interrupted c) eqn:Ei; [by simplify_eq|].
    destruct (handle_inner _ _ _) as [r c2]. injection H as -> <-. done. }
  unfold handle, skip, skip_with_events, stop, init, rebuild, lifecycle, begin_lifecycle.
  by rewrite Hi.
Qed.

(** ** Rebuilding *)

(** A step that leaves the log as it is. *)
Definition still c c' : Prop :=
  prelude c c' ∧ es_log (store (c_world c')) = es_log (store (c_world c)).

Lemma still_refl c : wf_core c → still c c.
Proof. intros Hw. split; [by apply prelude_refl|done]. Qed.

Lemma still_trans c1 c2 c3 : still c1 c2 → still c2 c3 → still c1 c3.
Proof. intros [H1 E1] [H2 E2]. split; [by eapply prelude_trans|congruence]. Qed.

Lemma store_read_still {E F A} (f : E → F) (m : W → result A E * W) c res c' :
  wf_core c →
  (∀ r w', m (store (c_world c)) = (r, w') → unchanged (store (c_world c)) w') →
  sm_map_err f (in_world (on_store m)) c = (res, c') →
  still c c' ∧ ∀ a, res = Ok a → ∃ w', m (store (c_world c)) = (Ok a, w').
Proof.
  intros Hw Hm H. pose proof (in_world_prelude (on_store m) c Hw (safe_on_store_read m _ Hm)) as Hp.
  unfold sm_map_err, in_world, on_store in *.
  destruct (m (store (c_world c))) as [r w'] eqn:E'. destruct (Hm _ _ eq_refl) as (_ & Hl & _).
  destruct r as [a|e]; injection H as <- <-; (split; [by split|]); intros a' Ha; simplify_eq; eauto.
Qed.

Lemma rebuild_page_spec stream types after limit c res c' :
  wf_core c → types ≠ [] → rebuild_page stream types after limit c = (res, c') →
  still c c' ∧ ∀ page, res = Ok page →
    page = take (N.to_nat limit) (newer (of_types (es_log (store (c_world c))) stream types) after).
Proof.
  intros Hw Ht H. apply store_read_still in H as [Hs Hp]; [|done|].
  - split; [done|]. intros page [w' Hq]%Hp. apply es_query_ok in Hq as ->; [|apply Hw|done].
    by rewrite log_query_types_after.
  - intros r w'. apply query_unchanged, Hw.
Qed.

Lemma failing_inv {A} (m : SM Core RuntimeError A) c res c' :
  failing m c = (res, c') →
  ∃ r, m c = (r, c') ∧ res = map_err Failed r.
Proof. unfold failing, sm_map_err. destruct (m c) as [[a|e] c1]; intros [= <- <-]; eauto. Qed.

Lemma highest_next l after n e :
  StronglySorted seq_lt l → last (take n (newer l after)) = Some e →
  highest after (newer l after) = highest (sequence e) (newer l (sequence e)).
Proof.
  intros Hl He. rewrite (newer_next l after n e Hl He).
  rewrite <- (take_drop n (newer l after)) at 1. unfold highest. rewrite last_app.
  destruct (last (drop n (newer l after))); [done|]. simpl. by rewrite He.
Qed.

Lemma find_high_spec fuel stream types high c res c' :
  wf_core c → types ≠ [] →
  length (newer (of_types (es_log (store (c_world c))) stream types) high) < fuel →
  find_high fuel stream types high c = (res, c') →
  still c c' ∧
  match res with
  | Ok h => h = highest high (newer (of_types (es_log (store (c_world c))) stream types) high)
  | Err (Failed _) => True
  | Err OutOfFuel => False
  end.
Proof.
  revert high c. induction fuel as [|fuel IH]; intros high c Hw Ht Hf H; [lia|]. cbn [find_high] in H.
  assert (StronglySorted seq_lt (of_types (es_log (store (c_world c))) stream types)) as Hl
    by apply of_types_sorted, es_log_invariant, Hw.
  apply sm_bind_inv in H as [(page & c1 & Hp & H)|(e & Hp & ->)];
    apply failing_inv in Hp as (r & Hp & Er); apply rebuild_page_spec in Hp as [Hs Hpage]; try done.
  2: { split; [done|]. by destruct r; simplify_eq/=. }
  destruct r as [page'|]; [|done]. injection Er as ->. specialize (Hpage _ eq_refl).
  rewrite Hpage in H. change (N.to_nat 1000) with 1000 in *.
  destruct (last (take 1000 _)) as [e|] eqn:El.
  - destruct Hs as [Hs Elog]. apply IH in H as [Hs2 H]; [|apply Hs|done|].
    + rewrite Elog in H. split; [by eapply still_trans; [split|]|]. destruct res as [h|[]]; try done.
      by rewrite H, (highest_next _ _ _ _ Hl El).
    + rewrite Elog, (newer_next _ _ _ _ Hl El). pose proof (newer_page_length _ _ _ _ El). lia.
  - injection H as <- <-. split; [done|]. apply newer_empty_page in El; [|lia]. by rewrite El.
Qed.

(** A replay under the flag that forbids appends and commits. *)
Lemma replay_contained (s s' : HW) :
  h_replaying (host s) = false →
  contained (set_host (set_replaying true (host s)) s) s' →
  contained s (set_host (set_replaying false (host s')) s') ∧
  es_log (store s') = es_log (store s).
Proof.
  intros Hr [Hc Hi Hl]. simpl in *. specialize (Hi (or_intror eq_refl)). specialize (Hl eq_refl).
  split; [|done]. destruct Hc as [Hg _ Ha Hinv _ Hs Hk Hcr]. destruct Hi as [Hi1 Hi2].
  split; [split| |]; simpl; rewrite ?Hl, ?Hi1, ?Hi2; try done. apply grows_refl.
Qed.

Lemma replay_batch_spec handler own c res c' :
  wf_core c → (∀ cx batch, guest_typed reply_typed (handler cx batch)) →
  replay_batch handler own c = (res, c') →
  still c c' ∧ ∀ o, res = Ok o → o_events o = [].
Proof.
  intros Hw Hh H. unfold replay_batch in H.
  change (sm_bind sm_get ?k c) with (k c c) in H. cbv beta in H. unfold sm_bind at 1 in H.
  pose proof (prepare_call_prelude (E := RuntimeError) "restore" c Hw) as H1.
  destruct (prepare_call "restore" c) as [r1 c1] eqn:E1. cbn [snd] in H1.
  assert (es_log (store (c_world c1)) = es_log (store (c_world c))) as Hl1 by by injection E1 as <- <-.
  destruct r1; [|by injection E1].
  unfold sm_bind, execute, in_world at 1, on_host at 1, sm_update in H. cbn [c_world set_world] in H.
  destruct (run_guest _ _) as [[r tr] s'] eqn:Eg. cbn in H.
  apply (run_guest_contained reply_typed) in Eg; [|apply (pr_wf _ _ H1)|apply Hh].
  apply replay_contained in Eg as [Hct Hlog]; [|apply (pr_wf _ _ H1)].
  set (c2 := set_world (set_host (set_replaying false (host s')) s') c1).
  assert (still c c2) as Hst.
  { eapply still_trans; [by split|]. split; [|done].
    apply prelude_make; [apply H1|by split_and!|done|done]. }
  change (set_world _ _) with c2 in H.
  destruct (guest_answer "replay" r c2) as [[o|e] c3] eqn:Ea.
  - assert (c3 = c2) as -> by (unfold guest_answer in Ea; by repeat case_match; simplify_eq).
    destruct (negb _ || _) eqn:En; [by injection H as <- <-|]. injection H as <- <-.
    split; [done|]. intros o' [= <-]. apply orb_false_iff in En as [En _].
    by apply negb_false_iff, bool_decide_eq_true in En.
  - assert (c3 = c2) as -> by (unfold guest_answer in Ea; by repeat case_match; simplify_eq).
    by injection H as <- <-.
Qed.

(** The marker stands for a sequence. *)
Definition marker_at c (m : N) : Prop :=
  match st_state (store (c_world c)) (c_instance_id c) !! REBUILD_MARKER with
  | None => m = 0%N
  | Some v => u64_from_slice v = Ok m
  end.

Lemma try_map_app {A A' E} (f : A → result A' E) l1 l2 l :
  try_map f (l1 ++ l2) = Ok l → ∃ l1' l2', try_map f l1 = Ok l1' ∧ try_map f l2 = Ok l2' ∧ l = l1' ++ l2'.
Proof.
  revert l. induction l1 as [|x l1 IH]; intros l H; simpl in *; [eauto|].
  apply result_bind_ok in H as (y & -> & H). apply result_bind_ok in H as (ys & Hys & [= <-]).
  apply IH in Hys as (l1' & l2' & -> & H2 & ->). eexists _, _. done.
Qed.

(** The host's own mutation comes last and sets the marker. *)
Lemma marker_mutation ms value ms' st :
  convert_mutations (ms ++ [MutationSet REBUILD_MARKER value]) = Ok ms' →
  foldl (flip mutate) st ms' !! REBUILD_MARKER = Some value.
Proof.
  unfold convert_mutations. destruct (_ <? _)%N; [done|].
  intros (l1 & l2 & _ & H2 & ->)%try_map_app. cbn [try_map convert_mutation] in H2.
  repeat case_match; try done. simplify_eq/=. rewrite foldl_app. simpl. by rewrite lookup_insert_eq.
Qed.

Lemma take_while_all {A} (p : A → bool) l : (∀ x, x ∈ l → p x = true) → take_while p l = l.
Proof.
  induction l as [|x l IH]; intros H; simpl; [done|]. rewrite H by by left. f_equal. apply IH.
  intros y Hy. apply H. by right.
Qed.

Lemma log_appends_none log es log' : log_appends log [] es log' → log' = log.
Proof. by inversion 1. Qed.

(** What a rebuild leaves: the log and the cursors. *)
Record rebuilt c c' : Prop := {
  rb_same : same_core c c';
  rb_confined : confined (c_world c) (c_world c');
  rb_wf : wf_core c';
  rb_log : es_log (store (c_world c')) = es_log (store (c_world c));
  rb_cursor : ∀ k, st_cursor (store (c_world c')) k = st_cursor (store (c_world c)) k;
  rb_checkpoint : c_checkpoint c' = c_checkpoint c;
}.

Lemma rebuilt_still c c' : still c c' → rebuilt c c'.
Proof. intros [[Hs Hc (H1 & H2 & H3) Hw] Hl]. split; try done. by rewrite H2. Qed.

Lemma rebuilt_trans c1 c2 c3 : rebuilt c1 c2 → rebuilt c2 c3 → rebuilt c1 c3.
Proof.
  intros [(? & ? & ?) ? ? ? Hk ?] [(? & ? & ?) ? ? ? Hk' ?].
  split; [split_and!; congruence|by eapply confined_trans|done|congruence| |congruence].
  intros k. by rewrite Hk', Hk.
Qed.

Lemma marker_same c c' m :
  c_instance_id c' = c_instance_id c →
  st_state (store (c_world c')) = st_state (store (c_world c)) → marker_at c m → marker_at c' m.
Proof. intros Hi Hs. unfold marker_at. by rewrite Hi, Hs. Qed.

Lemma marker_still c c' m : still c c' → marker_at c m → marker_at c' m.
Proof. intros [[(Hi & _) _ (Hs & _) _] _]. by apply marker_same. Qed.

Lemma highest_app k page e rest :
  last page = Some e → highest k (page ++ rest) = highest (sequence e) rest.
Proof. intros He. unfold highest. rewrite last_app. destruct (last rest); [done|]. by rewrite He. Qed.

Lemma own_events_app inst l1 l2 : own_events inst (l1 ++ l2) = own_events inst l1 ++ own_events inst l2.
Proof. apply filter_app. Qed.

Section codec.
Context (Hcodec : ∀ n, u64_range n →
  u64_from_slice (String.list_byte_of_string (u64_to_string n)) = Ok n).

(** The commit that ends a page. *)
Lemma page_commit ms k c res c' :
  wf_core c → u64_range k →
  instance_commit (mkGuestOutcome [] (ms ++ [MutationSet REBUILD_MARKER
    (String.list_byte_of_string (u64_to_string k))]) None) None PhaseHandle c = (res, c') →
  rebuilt c c' ∧
  match res with
  | Ok _ => marker_at c' k
  | Err _ => ∀ m, marker_at c m → marker_at c' m
  end.
Proof.
  intros Hw Hk H. apply commit_spec in H as (Hs & Hcf & Hw' & H); [|done|by split].
  destruct res as [out|e].
  - destruct H as [[_ Hck] _ (ms' & Hms & Hst) (rs & Hrs & Hl)]. simpl in *.
    injection Hrs as <-. apply log_appends_none in Hl. split.
    + split; try done. intros k'. destruct (decide (k' = c_cursor c)) as [->|Hne].
      * rewrite (wc_checkpoint _ Hw). destruct Hs as (_ & <- & _). by rewrite (wc_checkpoint _ Hw').
      * apply (cf_cursor _ _ Hcf). by rewrite <- (wc_cursor _ Hw).
    + unfold marker_at. destruct Hs as (-> & _). rewrite Hst.
      apply marker_mutation with (st := st_state (store (c_world c)) (c_instance_id c)) in Hms.
      rewrite Hms. by apply Hcodec.
  - destruct H as [(Hst & Hcu & Hck) Hl]. split; [split; try done; by rewrite Hcu|]. intros m.
    destruct Hs as (Hi & _). by apply marker_same.
Qed.

Lemma replay_step_inv {A A' A''} (m : SM Core LoopError A) (k : A → SM Core LoopError A')
    (k' : SM Core LoopError A'') c r c' :
  (let+ a := m in do+ k a; k') c = (r, c') →
  (∃ u c1, (let+ a := m in k a) c = (Ok u, c1) ∧ k' c1 = (r, c')) ∨
  (∃ e, (let+ a := m in k a) c = (Err e, c') ∧ r = Err e).
Proof.
  unfold sm_bind. destruct (m c) as [[a|e] c1]; [|intros [= <- <-]; eauto].
  destruct (k a c1) as [[u|e] c2]; [|intros [= <- <-]; eauto]. eauto.
Qed.

(** One page: its own events are replayed and the marker moves to its end. *)
Lemma replay_page handler own k c res c' :
  wf_core c → (∀ cx batch, guest_typed reply_typed (handler cx batch)) → u64_range k →
  (let+ o := failing (if bool_decide (own = []) then sm_ret (mkGuestOutcome [] [] None)
                      else replay_batch handler own) in
   failing (instance_commit (mkGuestOutcome (o_events o) (o_mutations o ++ [MutationSet REBUILD_MARKER
     (String.list_byte_of_string (u64_to_string k))]) None) None PhaseHandle)) c = (res, c') →
  rebuilt c c' ∧
  match res with
  | Ok _ => marker_at c' k
  | Err (Failed _) => ∀ m, marker_at c m → marker_at c' m
  | Err OutOfFuel => False
  end.
Proof.
  intros Hw Hh Hk H. apply sm_bind_inv in H as [(o & c1 & Ho & H)|(e & Ho & ->)];
    apply failing_inv in Ho as (r & Ho & Er).
  - destruct r as [o'|]; [|done]. injection Er as <-.
    assert (still c c1 ∧ o_events o = []) as [Hs He].
    { case_bool_decide; [injection Ho as <- <-; split; [by apply still_refl|done]|].
      apply replay_batch_spec in Ho as [? Ho]; [|done|done]. eauto. }
    rewrite He in H. apply failing_inv in H as (r & H & ->).
    apply page_commit in H as [Hrb H]; [|apply Hs|done].
    split; [by eapply rebuilt_trans; [apply rebuilt_still|]|]. destruct r; [done|].
    intros m Hm. by eapply H, marker_still.
  - case_bool_decide; [injection Ho as <- <-; done|].
    apply replay_batch_spec in Ho as [Hs _]; [|done|done]. split; [by apply rebuilt_still|].
    destruct r; simplify_eq/=. intros m. by apply marker_still.
Qed.

Lemma replay_pages_spec fuel handler stream types high after replayed c res c' :
  wf_core c → types ≠ [] → (∀ h cx batch, guest_typed reply_typed (handler h cx batch)) →
  (∀ e, e ∈ of_types (es_log (store (c_world c))) stream types →
     (sequence e ≤ high)%N ∧ u64_range (sequence e)) →
  marker_at c after →
  length (newer (of_types (es_log (store (c_world c))) stream types) after) < fuel →
  replay_pages fuel handler stream types high after replayed c = (res, c') →
  rebuilt c c' ∧
  let rest := newer (of_types (es_log (store (c_world c))) stream types) after in
  match res with
  | Ok batches => concat batches = concat replayed ++ own_events (c_instance_id c) rest ∧
      marker_at c' (highest after rest)
  | Err (Failed _) => ∃ k, marker_at c' (highest after (take k rest))
  | Err OutOfFuel => False
  end.
Proof.
  revert after replayed c. induction fuel as [|fuel IH]; intros after replayed c Hw Ht Hh Hhigh Hm Hf H;
    [lia|]. cbn [replay_pages] in H.
  assert (StronglySorted seq_lt (of_types (es_log (store (c_world c))) stream types)) as Hl
    by apply of_types_sorted, es_log_invariant, Hw.
  set (L := of_types _ _ _) in *.
  destruct (after <? high)%N eqn:Ea; cbn [negb] in H.
  2: { apply N.ltb_ge in Ea. assert (newer L after = []) as ->.
       { apply filter_none. intros e He. destruct (Hhigh e He). lia. }
       injection H as <- <-. split; [by apply rebuilt_still, still_refl|]. cbn. by rewrite app_nil_r. }
  apply sm_bind_inv in H as [(page & c1 & Hp & H)|(e & Hp & ->)];
    apply failing_inv in Hp as (r & Hp & Er); apply rebuild_page_spec in Hp as [Hs Hpage]; try done.
  2: { split; [by apply rebuilt_still|]. destruct r; simplify_eq/=. exists 0. by eapply marker_still. }
  destruct r as [page'|]; [|done]. injection Er as <-. specialize (Hpage _ eq_refl). fold L in Hpage.
  rewrite take_while_all in H.
  2: { intros x Hx. rewrite Hpage in Hx. apply subseteq_take in Hx. unfold newer in Hx.
       apply list_elem_of_filter in Hx as [_ Hx]. apply N.leb_le, (Hhigh x Hx). }
  change (N.to_nat 32) with 32 in Hpage. destruct (last page) as [e|] eqn:El.
  2: { rewrite Hpage in El. apply newer_empty_page in El; [|lia]. rewrite El.
       injection H as <- <-. split; [by apply rebuilt_still|]. cbn. rewrite app_nil_r.
       split; [done|]. by eapply marker_still. }
  change (sm_bind sm_get ?k c1) with (k c1 c1) in H. cbv beta zeta in H.
  assert (e ∈ L) as He.
  { apply last_Some_elem_of in El. rewrite Hpage in El. apply subseteq_take in El.
    by apply list_elem_of_filter in El as [_ ?]. }
  pose proof (newer_next L after 32 e Hl ltac:(by rewrite <- Hpage)) as Hnext.
  pose proof (newer_page_length L after 32 e ltac:(by rewrite <- Hpage)) as Hlen.
  assert (newer L after = page ++ newer L (sequence e)) as Hsplit
    by by rewrite Hpage, Hnext, take_drop.
  apply replay_step_inv in H as [(u & c2 & Hpg & H)|(err & Hpg & ->)];
    (apply replay_page in Hpg as [Hrb Hmk]; [|apply Hs|apply Hh|apply (Hhigh e He)]);
    apply (rebuilt_trans _ _ _ (rebuilt_still _ _ Hs)) in Hrb.
  2: { split; [done|]. cbn. destruct err; [|done]. exists 0. by eapply Hmk, marker_still. }
  pose proof (rb_log _ _ Hrb) as Hlog.
  apply IH in H; [|apply Hrb|done|done|by rewrite Hlog|done|rewrite Hlog; fold L; rewrite Hnext; lia].
  rewrite Hlog in H. fold L in H. destruct H as [Hrb2 H], (rb_same _ _ Hrb) as (Hid & _).
  split; [by eapply rebuilt_trans|]. cbv zeta in *. rewrite Hsplit, (highest_app _ _ e) by done.
  destruct Hs as [[(Hid1 & _) _ _ _] _]. destruct res as [bs|[err|]]; [|destruct H as [k H]|done].
  - destruct H as [Hb Hmk2]. split; [|done]. rewrite Hb, own_events_app, Hid, Hid1.
    destruct (decide (own_events (c_instance_id c) page = [])) as [Hown|Hown].
    + by rewrite bool_decide_true, Hown.
    + rewrite bool_decide_false, concat_app by done. simpl. by rewrite app_nil_r, app_assoc.
  - exists (length page + k). rewrite take_app_add. by rewrite (highest_app _ _ e).
Qed.

Lemma read_marker_spec c res c' m :
  wf_core c → marker_at c m → read_marker c = (res, c') →
  still c c' ∧ ∀ k, res = Ok k → k = m.
Proof.
  intros Hw Hm H. unfold read_marker in H.
  change (sm_bind sm_get ?k c) with (k c c) in H. cbv beta in H.
  apply sm_bind_inv in H as [(snap & c1 & Hg & H)|(e & Hg & ->)];
    (apply store_read_still in Hg as [Hs Hv]; [|done|intros r w'; apply st_get_keeps, Hw]).
  2: by split.
  destruct (Hv _ eq_refl) as [w' Hget]. apply st_get_ok in Hget; [|apply Hw].
  rewrite <- (wc_instance _ Hw) in Hget. unfold marker_at in Hm. rewrite <- Hget in Hm.
  destruct (snapshot_value snap) as [v|]; [rewrite Hm in H|]; injection H as <- <-;
    (split; [done|]); intros k [= <-]; done.
Qed.

Lemma highest_bound l m e :
  StronglySorted seq_lt l → e ∈ l → (sequence e ≤ highest m (newer l m))%N.
Proof.
  intros Hl He. assert (StronglySorted seq_lt (newer l m)) as Hn by by apply filter_sorted.
  destruct (last (newer l m)) as [x|] eqn:Ex; unfold highest; rewrite Ex; simpl.
  - assert (x ∈ newer l m) as Hx by by apply last_Some_elem_of.
    unfold newer in Hx. apply list_elem_of_filter in Hx as [Hx _].
    destruct (N.le_gt_cases (sequence e) m); [lia|].
    destruct (sorted_split (newer l m) (length (newer l m)) x Hn) as [Hle _];
      [by rewrite firstn_all|]. apply Hle. rewrite firstn_all. by apply list_elem_of_filter.
  - apply last_None in Ex. destruct (N.le_gt_cases (sequence e) m); [done|].
    assert (e ∈ newer l m) as Hin by by apply list_elem_of_filter.
    rewrite Ex in Hin. by apply not_elem_of_nil in Hin.
Qed.

Lemma sequence_bound log stream ts e :
  log_invariant log → e ∈ of_types log stream ts → (sequence e ≤ len log)%N.
Proof.
  intros Hl He. unfold of_types in He. apply list_elem_of_filter in He as [_ [i Hi]%list_elem_of_lookup].
  rewrite (inv_gapless _ Hl _ _ _ Hi). apply lookup_lt_Some in Hi. unfold len, in_stream in *.
  pose proof (length_filter (λ e, stream_id (request e) = stream) log). lia.
Qed.

Lemma rebuild_inner_spec fuel handler types m c res c' :
  let stream := principal_id (d_agent (h_delivery (host (c_world c)))) in
  let rest := newer (of_types (es_log (store (c_world c))) stream types) m in
  wf_core c → types ≠ [] → (∀ h cx batch, guest_typed reply_typed (handler h cx batch)) →
  u64_range (len (es_log (store (c_world c)))) → marker_at c m →
  length (es_log (store (c_world c))) < fuel →
  rebuild_inner fuel handler types c = (res, c') →
  rebuilt c c' ∧
  match res with
  | Ok batches => concat batches = own_events (c_instance_id c) rest ∧ marker_at c' (highest m rest)
  | Err (Failed _) => ∃ k, marker_at c' (highest m (take k rest))
  | Err OutOfFuel => False
  end.
Proof.
  intros stream rest Hw Ht Hh Hlen Hm Hf E. unfold rebuild_inner in E.
  assert (length rest < fuel) as Hrest.
  { eapply Nat.le_lt_trans; [|exact Hf]. unfold rest, newer. etrans; [apply length_filter|].
    apply of_types_length. }
  pose proof (es_log_invariant _ (wc_inv _ Hw)) as Hinv.
  rewrite bool_decide_false in E by done.
  change (sm_bind sm_get ?k c) with (k c c) in E. cbv beta zeta in E. fold stream in E.
  apply sm_bind_inv in E as [(after & c1 & Hr & E)|(e & Hr & ->)];
    apply failing_inv in Hr as (r0 & Hr & Er); apply (read_marker_spec _ _ _ m) in Hr as [Hs Hk]; try done.
  2: { split; [by apply rebuilt_still|]. destruct r0; simplify_eq/=. exists 0.
       by eapply marker_still. }
  destruct r0 as [after'|]; [|done]. injection Er as <-. rewrite (Hk _ eq_refl) in E.
  pose proof (proj2 Hs) as Hlog. apply sm_bind_inv in E as [(high & c2 & Hhi & E)|(e & Hhi & ->)];
    (apply find_high_spec in Hhi as [Hs2 Hhigh]; [|apply Hs|done|by rewrite Hlog]);
    apply (still_trans _ _ _ Hs) in Hs2.
  2: { split; [by apply rebuilt_still|]. destruct e; [|done]. exists 0. by eapply marker_still. }
  rewrite Hlog in Hhigh. fold rest in Hhigh. pose proof (proj2 Hs2) as Hlog2.
  apply replay_pages_spec in E; [|apply Hs2|done|done| |by eapply marker_still|by rewrite Hlog2].
  - destruct E as [Hrb E]. split; [by eapply rebuilt_trans; [apply rebuilt_still|]|].
    cbv zeta in E. rewrite Hlog2 in E. fold rest in E. destruct Hs2 as [[(Hid & _) _ _ _] _].
    by rewrite Hid in E.
  - rewrite Hlog2. intros e He. split.
    + rewrite Hhigh. apply highest_bound; [by apply of_types_sorted|done].
    + apply sequence_bound in He; [|done]. unfold u64_range in *. lia.
Qed.

(** (C26) A rebuild replays each of the component's own events of the given
    types after the marker exactly once and in order: the batches it hands over
    make up that list, the marker moves to the last event it passed, so a
    second rebuild starts after it, and a failure leaves the marker at the end
    of a page that was committed.  It always ends, appends nothing to the log
    and moves no delivery cursor. *)
Theorem rebuild_exactly_once (fuel : nat)
    (handler : list (list WitEvent) → Context_ → list WitEvent → Guest (result GuestOutcome WitError))
    (types : list string) (m : N) (c : Core)
    (res : result (list (list CommittedEvent)) LoopError) (c' : Core) :
  let stream := principal_id (d_agent (h_delivery (host (c_world c)))) in
  let rest := newer (of_types (es_log (store (c_world c))) stream types) m in
  wf_core c → c_interrupted c = false → types ≠ [] →
  (∀ h cx batch, guest_typed reply_typed (handler h cx batch)) →
  u64_range (len (es_log (store (c_world c)))) → marker_at c m →
  length (es_log (store (c_world c))) < fuel →
  rebuild fuel handler types c = (res, c') →
  rebuilt c c' ∧ c_interrupted c' = false ∧
  match res with
  | Ok batches => concat batches = own_events (c_instance_id c) rest ∧
      marker_at c' (highest m rest)
  | Err (Failed _) => ∃ k, marker_at c' (highest m (take k rest))
  | Err OutOfFuel => False
  end.
Proof.
  intros stream rest Hw Hi Ht Hh Hlen Hm Hf H. unfold rebuild, lifecycle, begin_lifecycle in H.
  rewrite Hi in H. destruct (rebuild_inner _ _ _ _) as [r c2] eqn:E. injection H as <- <-.
  apply (rebuild_inner_spec fuel handler types m) in E as [[H1 H2 H3 H4 H5 H6] E];
    [|by destruct Hw; split|done|done|done|done|done].
  split; [|split; [done|exact E]].
  split; [exact H1|exact H2|by destruct H3; split|exact H4|exact H5|exact H6].
Qed.
End codec.
End instance.
