(* ===== verification/AgentDeliver.v ===== *)
(** Deliveries of the agent loop ([pluribus-cognition/src/agent.rs]): one pass,
    one delivery, the workers, and what follows a failure.

    A component instance is an interface, [Lifecycle]: the operations of
    [PluginInstance] the agent calls.  A delivery to an external component
    runs in a task of its own: [spawn_worker] starts it, [run_worker] is the
    moment it runs, and [collect_workers] takes its result.  The emergency
    stop is read from [stop_signal], one value for each reading. *)
From stdpp Require Import base tactics countable option list strings sorting gmap.
From Stdlib Require Import ZArith NArith Lia Ascii.
From S2P Require Import Prelude Event EventStore Registry Authority Json Manifest Host Router Agent.

(** The trait of instances, over the stores they commit to. *)
Class Lifecycle (I W : Type) : Type := {
  lc_pinned_session : I → bool;
  lc_requires_reinstantiation : I → bool;
  lc_has_background_output : I → bool * I;
  lc_background_output : I → result Outcome RuntimeError * I;
  lc_handle : list CommittedEvent → I → W → result Outcome RuntimeError * I * W;
  lc_skip : N → I → W → result unit RuntimeError * I * W;
  lc_skip_with_events : N → list AppendRequest → I → W → result unit RuntimeError * I * W;
  lc_restart : I → W → result I RuntimeError * W;
  lc_init : I → W → result unit RuntimeError * I * W;
  lc_start : I → I;
}.

(** The task of a worker. *)
Inductive Job (I : Type) : Type :=
| Handling (i : I) (batch : list CommittedEvent)
| Flushing (i : I)
| Finished (i : I) (r : result Outcome RuntimeError).
Arguments Handling {I} i batch.
Arguments Flushing {I} i.
Arguments Finished {I} i r.

(** The emergency stop, at each reading. *)
Class StopSignal : Type := { stopped_at : N → bool }.

Record DState (P I W : Type) : Type := mkDState {
  base_state : AState P I W;
  jobs : gmap string (Job I);
  stop_reads : N;
}.
Arguments mkDState {P I W} _ _ _.
Arguments base_state {P I W} _.
Arguments jobs {P I W} _.
Arguments stop_reads {P I W} _.

Section monad.
Context {P I W : Type}.

Definition Dt (A : Type) : Type := DState P I W → agent_outcome A * DState P I W.

Definition dt_ret {A} (a : A) : Dt A := λ s, (Done a, s).
Definition dt_fail {A} (e : AgentError) : Dt A := λ s, (Failed e, s).
Definition dt_bind {A B} (m : Dt A) (k : A → Dt B) : Dt B := λ s,
  match m s with
  | (Done a, s) => k a s
  | (Failed e, s) => (Failed e, s)
  | (Exhausted, s) => (Exhausted, s)
  end.
(** The result of a fallible part, to be inspected. *)
Definition dt_try {A} (m : Dt A) : Dt (result A AgentError) := λ s,
  match m s with
  | (Done a, s) => (Done (Ok a), s)
  | (Failed e, s) => (Done (Err e), s)
  | (Exhausted, s) => (Exhausted, s)
  end.
Definition dt_agent {A} (m : At P I W A) : Dt A := λ s,
  let '(o, b) := m (base_state s) in (o, mkDState b (jobs s) (stop_reads s)).
Definition dt_router {A} (f : Router P → Rt W A) : Dt A :=
  dt_agent (at_bind at_agent (λ a, at_router (f (ag_router a)))).
Definition dt_get : Dt (Agent P I) := dt_agent at_agent.
Definition dt_update (f : Agent P I → Agent P I) : Dt unit := dt_agent (at_update f).
Definition dt_jobs (f : gmap string (Job I) → gmap string (Job I)) : Dt unit := λ s,
  (Done tt, mkDState (base_state s) (f (jobs s)) (stop_reads s)).

(** [self.stopped.load(Ordering::Acquire)]. *)
Definition dt_stopped `{StopSignal} : Dt bool := λ s,
  (Done (stopped_at (stop_reads s)), mkDState (base_state s) (jobs s) (stop_reads s + 1)).

Definition set_store (w : W) (s : DState P I W) : DState P I W :=
  let r := rstate (base_state s) in
  mkDState (mkAState (agent_of (base_state s)) (mkRState w (projection r) (claim_counter r)
    (wall_reads r))) (jobs s) (stop_reads s).
(** A call that commits. *)
Definition dt_world {A} (f : W → A * W) : Dt A := λ s,
  let '(a, w) := f (store (rstate (base_state s))) in (Done a, set_store w s).
End monad.
Arguments Dt P I W A : clear implicits.

Declare Scope delivery_scope.
Notation "'let@' x := m 'in' k" := (dt_bind m (fun x => k))
  (at level 10, x pattern, m at level 100, k at level 200) : delivery_scope.
Notation "'run@' m ; k" := (dt_bind m (fun _ => k))
  (at level 10, m at level 100, k at level 200) : delivery_scope.
Open Scope delivery_scope.

Section updates.
Context {P I : Type}.
Implicit Types (a : Agent P I).

Definition set_instances (f : gmap string I → gmap string I) a : Agent P I :=
  mkAgent (ag_router a) (external a) (workers a) (cancellations a) (f (instances a)) (ag_stream a)
    (principal a) (gated_through a) (admission_now_ms a) (ag_batch a) (failed a) (backoff a)
    (reduced_batches a) (health_through a).

Definition set_workers (f : gmap string (list CommittedEvent) → gmap string (list CommittedEvent)) a
    : Agent P I :=
  mkAgent (ag_router a) (external a) (f (workers a)) (cancellations a) (instances a) (ag_stream a)
    (principal a) (gated_through a) (admission_now_ms a) (ag_batch a) (failed a) (backoff a)
    (reduced_batches a) (health_through a).

Definition set_now (now_ms : Z) a : Agent P I :=
  mkAgent (ag_router a) (external a) (workers a) (cancellations a) (instances a) (ag_stream a)
    (principal a) (gated_through a) now_ms (ag_batch a) (failed a) (backoff a)
    (reduced_batches a) (health_through a).

Definition on_failed (f : gmap string string → gmap string string) a : Agent P I :=
  set_health (f (failed a)) (backoff a) (reduced_batches a) a.
Definition on_backoff (f : gmap string (N * Z) → gmap string (N * Z)) a : Agent P I :=
  set_health (failed a) (f (backoff a)) (reduced_batches a) a.
Definition on_reduced (f : gset string → gset string) a : Agent P I :=
  set_health (failed a) (backoff a) (f (reduced_batches a)) a.

(** A fresh instance in the place of another, with its cancellation handle. *)
Definition install_fresh (id : string) (i : I) a : Agent P I :=
  set_instances <[id := i]> (set_cancellations (<[id := false]> (cancellations a)) a).
End updates.

(** The keys of a [BTreeMap], in order. *)
Definition map_keys {V} (m : gmap string V) : list string :=
  merge_sort String.le (map_to_list m).*1.

Definition opt_field (key : string) (o : option string) : list (string * Value) :=
  match o with
  | Some s => [(key, Str s)]
  | None => []
  end.

(** [serde_json::to_value(resource)]. *)
Definition resource_to_value (r : ResourceExhaustion) : Value :=
  object ([("resource", Str (resource r)); ("currentBytes", num_u64 (current_bytes r));
           ("requestedBytes", num_u64 (requested_bytes r)); ("limitBytes", num_u64 (limit_bytes r));
           ("phase", Str (phase r))]
          ++ opt_field "job_id" (job_id r) ++ opt_field "session_id" (session_id r)).

(** The resource as [defer_delivery] reports it. *)
Definition resource_report (r : ResourceExhaustion) : Value :=
  object [("resource", Str (resource r)); ("currentBytes", num_u64 (current_bytes r));
          ("requestedBytes", num_u64 (requested_bytes r)); ("limitBytes", num_u64 (limit_bytes r));
          ("phase", Str (phase r))].

Section deliver.
Context {JS : SerdeJson} {P : Type} {CP : ConstraintPolicy P} {PR : Process}.
Context {W : Type} {ES : EventStore W}.
Context {I : Type} {PI : PluginInstance I} {LC : Lifecycle I W} {SS : StopSignal}.
Context {R : Type} {AR : AuthorityResolver R W}.
Abbreviation D A := (Dt P I W A).

(** ** Instances *)

Definition runtime_failed {A} (r : result A RuntimeError) : D A :=
  match r with
  | Ok a => dt_ret a
  | Err e => dt_fail (AgentRuntime (message e))
  end.

(** An operation on an instance in its place. *)
Definition with_instance {A} (id : string) (f : I → W → result A RuntimeError * I * W)
    : D (result A RuntimeError) :=
  let@ a := dt_get in
  match instances a !! id with
  | None => dt_fail (AgentUnknownInstance id)
  | Some i =>
      let@ (r, i') := dt_world (f i) in
      run@ dt_update (set_instances <[id := i']>);
      dt_ret r
  end.

Definition skip_to (id : string) (checkpoint : N) : D unit :=
  let@ r := with_instance id (lc_skip checkpoint) in runtime_failed r.

(** [self.instances.remove(id).ok_or_else(...)?]. *)
Definition take_instance (id : string) : D I :=
  let@ a := dt_get in
  match instances a !! id with
  | None => dt_fail (AgentUnknownInstance id)
  | Some i => run@ dt_update (set_instances (delete id)); dt_ret i
  end.

(** [restart], [init], [skip] and [start]. *)
Definition fresh_instance (old : I) (checkpoint : N) : D (result I RuntimeError) :=
  dt_world (λ w,
    match lc_restart old w with
    | (Err e, w) => (Err e, w)
    | (Ok i, w) =>
        match lc_init i w with
        | (Err e, _, w) => (Err e, w)
        | (Ok _, i, w) =>
            match lc_skip checkpoint i w with
            | (Err e, _, w) => (Err e, w)
            | (Ok _, i, w) => (Ok (lc_start i), w)
            end
        end
    end).

(** The last sequence of a batch. *)
Definition batch_end (default : N) (batch : list CommittedEvent) : N :=
  match last batch with
  | Some e => sequence e
  | None => default
  end.

(** ** After a failure *)

Definition effect_status (t : string) : string :=
  if is_request t then "outcome-unknown" else "not-started".

(** The number of failures a delivery that failed again has. *)
Definition failure_count (a : Agent P I) (key : string) (resource : bool) : N :=
  match backoff a !! key with
  | None => 1
  | Some (n, _) => N.min (N.min (n + 1) u32_max) (if resource then 3 else 32)
  end.

(** The end of [Agent::defer_delivery]: the component backs off. *)
Definition back_off (id key : string) (failures : N) (req : option string) (error : RuntimeError)
    : D unit :=
  let@ a := dt_get in
  let retry_at := saturating_add_i64 (admission_now_ms a) (retry_delay failures) in
  run@ dt_router (λ r, append_health r "component.backoff"
    (object [("instanceId", Str id); ("requestEventId", opt_str req);
             ("phase", opt_str (phase <$> resource_exhaustion error));
             ("reason", Str (message error)); ("failures", num_u64 failures);
             ("retryAtMs", num_i64 retry_at)]));
  dt_update (on_backoff <[key := (failures, retry_at)]>).

(** [Agent::defer_delivery]. *)
Definition defer_delivery (id : string) (batch : list CommittedEvent) (error : RuntimeError)
    : D unit :=
  let resource := resource_exhaustion error in
  let req := if opt_is_some resource then event_id <$> head batch else None in
  let key := match req with Some r => request_key id r | None => id end in
  let@ a := dt_get in
  let failures := failure_count a key (opt_is_some resource) in
  run@ (if opt_is_some resource then dt_update (on_reduced (union {[id]})) else dt_ret tt);
  if opt_is_some resource && bool_decide (batch = []) && (3 <=? failures)%N then
    run@ dt_agent (mark_resource_restart_failure id (message error));
    dt_update (on_backoff (delete key))
  else
    match resource, batch with
    | Some res, [source] =>
        if (3 <=? failures)%N then
          let@ deferred := dt_router (λ r, resource_exhaustion_request r id source 0
            (resource_report res) (effect_status (event_type (request source)))
            "deferred-before-cursor" (job_id res) (session_id res)) in
          let@ r := with_instance id (lc_skip_with_events (sequence source) [deferred]) in
          run@ runtime_failed r;
          dt_update (on_backoff (delete key))
        else back_off id key failures req error
    | _, _ => back_off id key failures req error
    end.

(** [Agent::restart_after_resource]. *)
Definition restart_after_resource (fuel : nat) (id : string) (batch : list CommittedEvent)
    (resource : option ResourceExhaustion) : D unit :=
  let@ old := take_instance id in
  let checkpoint := if lc_pinned_session old then batch_end (instance_checkpoint old) batch
                    else instance_checkpoint old in
  run@ (if lc_pinned_session old
        then dt_router (λ r, fail_sessions_with_resource fuel r id batch
                               (resource_to_value <$> resource))
        else dt_ret tt);
  let@ fresh := fresh_instance old checkpoint in
  let@ i := runtime_failed fresh in
  dt_update (install_fresh id i).

(** A failed delivery of an exhausted component: restart it, then defer. *)
Definition restart_and_defer (fuel : nat) (id : string) (batch : list CommittedEvent)
    (error : RuntimeError) : D unit :=
  let@ restarted := dt_try (restart_after_resource fuel id batch (resource_exhaustion error)) in
  match restarted with
  | Err restart => dt_agent (mark_resource_restart_failure id (agent_error_to_string restart))
  | Ok _ => defer_delivery id batch error
  end.

Fixpoint for_each {A} (f : A → D unit) (l : list A) : D unit :=
  match l with
  | [] => dt_ret tt
  | x :: l => run@ f x; for_each f l
  end.

(** [Agent::cancel_worker]. *)
Definition cancel_worker (fuel : nat) (id : string) (batch : list CommittedEvent) : D unit :=
  run@ for_each (λ req, dt_router (λ r, cancel_attempt fuel r req)) batch;
  let@ old := take_instance id in
  run@ (if lc_pinned_session old then dt_router (λ r, fail_sessions fuel r id []) else dt_ret tt);
  let@ fresh := fresh_instance old (batch_end (instance_checkpoint old) batch) in
  let@ i := runtime_failed fresh in
  run@ dt_update (install_fresh id i);
  dt_agent (recovered id None).

(** [Agent::quarantine]: the admission of what the component was handling. *)
Definition admit_unanswered (fuel : nat) (id : string) (req : CommittedEvent) : D unit :=
  if is_request (event_type (Event.request req)) then
    let@ found := dt_router (λ r, result_for fuel r (event_id req)) in
    if opt_is_some found then dt_ret tt
    else run@ dt_router (λ r, admit_attempt fuel r req id); dt_ret tt
  else dt_ret tt.

(** Withdrawing a component for good. *)
Definition withdraw (id : string) (checkpoint : N) (reason : string) (instance : option I) : D unit :=
  run@ dt_update (λ a, set_router (unregister id (ag_router a)) a);
  run@ dt_update (on_failed <[id := reason]>);
  match instance with
  | Some i =>
      if lc_requires_reinstantiation i then dt_ret tt
      else let@ r := dt_world (λ w, let '(r, _, w) := lc_skip checkpoint i w in (r, w)) in
           runtime_failed r
  | None => dt_ret tt
  end.

Definition quarantine (fuel : nat) (id : string) (checkpoint : N) (batch : list CommittedEvent)
    (error : RuntimeError) : D unit :=
  let reason := message error in
  let@ a := dt_get in
  run@ (if is_some_and (instances a !! id) lc_pinned_session then dt_ret tt
        else for_each (admit_unanswered fuel id) batch);
  let@ a := dt_get in
  let instance := instances a !! id in
  run@ dt_update (set_instances (delete id));
  run@ dt_router (λ r, append_component_failure r id batch reason);
  match instance with
  | Some old =>
      if lc_pinned_session old then
        run@ dt_router (λ r, fail_sessions fuel r id batch);
        let@ restarted := fresh_instance old checkpoint in
        match restarted with
        | Ok fresh =>
            run@ dt_update (install_fresh id fresh);
            run@ dt_router (λ r, append_health r "component.recovered"
                                   (object [("instanceId", Str id)]));
            run@ dt_update (on_failed (delete id));
            dt_update (on_backoff (delete id))
        | Err _ => withdraw id checkpoint reason instance
        end
      else withdraw id checkpoint reason instance
  | None => withdraw id checkpoint reason instance
  end.

(** What follows the result of a delivery that was not cancelled. *)
Definition settle (fuel : nat) (id : string) (checkpoint : N) (batch : list CommittedEvent)
    (r : result Outcome RuntimeError) : D (option N) :=
  match r with
  | Ok outcome =>
      run@ dt_agent (recovered id (Some batch));
      dt_ret (Some (len (outcome_events outcome)))
  | Err error =>
      run@ (if opt_is_some (resource_exhaustion error) then restart_and_defer fuel id batch error
            else if trapped error then quarantine fuel id checkpoint batch error
            else defer_delivery id batch error);
      dt_ret None
  end.

(** ** One delivery *)

Definition delivery_limit (a : Agent P I) (id : string) (cognition : bool) : N :=
  if bool_decide (id ∈ reduced_batches a) || bool_decide (id ∈ external a) then 1
  else if cognition then N.min (ag_batch a) MAX_COGNITION_BATCH
  else ag_batch a.

Fixpoint keep_authorized (fuel : nat) (id : string) (es kept : list CommittedEvent)
    : D (list CommittedEvent) :=
  match es with
  | [] => dt_ret kept
  | e :: es =>
      let@ ok := (if String.eqb (event_type (Event.request e)) "capability.requested"
                  then dt_router (λ r, authorized_for fuel r (event_id e) id)
                  else dt_ret true) in
      keep_authorized fuel id es (if (ok : bool) then kept ++ [e] else kept)
  end.

(** What the loop of [Agent::deliver] found: nothing, output the component
    produced by itself, or a batch and the checkpoint it ends at. *)
Inductive Found : Type :=
| NothingPending
| BackgroundOutput
| Batch (batch : list CommittedEvent) (checkpoint : N).

Fixpoint find_batch (fuel : nat) (id : string) (cognition : bool) (checkpoint : N) : D Found :=
  match fuel with
  | O => λ s, (Exhausted, s)
  | S fuel =>
      let@ a := dt_get in
      let@ pending := dt_router (λ r, poll fuel r id checkpoint (delivery_limit a id cognition)) in
      match last pending with
      | None =>
          match instances a !! id with
          | None => dt_fail (AgentUnknownInstance id)
          | Some i =>
              let '(output, i) := lc_has_background_output i in
              run@ dt_update (set_instances <[id := i]>);
              if (output : bool) then dt_ret BackgroundOutput
              else run@ dt_agent (recovered id (Some [])); dt_ret NothingPending
          end
      | Some e =>
          if cognition then dt_ret (Batch pending (sequence e))
          else
            let@ authorized := keep_authorized fuel id pending [] in
            let@ kept := dt_agent (drop_answered_requests fuel authorized []) in
            if bool_decide (kept = []) then find_batch fuel id cognition (sequence e)
            else dt_ret (Batch kept (sequence e))
      end
  end.

(** [tokio::spawn]: the instance moves into the worker. *)
Definition spawn_worker (id : string) (batch : list CommittedEvent) (job : I → Job I) : D (option N) :=
  let@ i := take_instance id in
  run@ dt_jobs <[id := job i]>;
  run@ dt_update (set_workers <[id := batch]>);
  dt_ret (Some 0%N).

Definition requests_of (t : string) (batch : list CommittedEvent) : bool :=
  existsb (λ e, String.eqb (event_type (Event.request e)) t) batch.
Definition workers_with (t : string) (a : Agent P I) : nat :=
  length (List.filter (requests_of t) (map_to_list (workers a)).*2).

(** A request that is not handled any more: its event is skipped. *)
Definition refused (id : string) (checkpoint : N) : D (option (option N)) :=
  run@ skip_to id checkpoint; dt_ret (Some (Some 0%N)).

(** The checks right before one external request is handled; [None] goes on. *)
Definition admit_request (fuel : nat) (authority : R) (id : string) (checkpoint : N)
    (req : CommittedEvent) : D (option (option N)) :=
  let t := event_type (Event.request req) in
  let@ a := dt_get in
  let@ late := dt_router (λ r, expired r req (admission_now_ms a)) in
  if (late : bool) then refused id checkpoint
  else
    let@ stale := (if String.eqb t "code.evaluate-requested"
                   then let@ current := dt_router (λ r, revision_current fuel r req) in
                        dt_ret (negb current)
                   else dt_ret false) in
    if (stale : bool) then
      run@ dt_router (λ r, reject_stale_code r req); refused id checkpoint
    else
      let@ forbidden :=
        (if String.eqb t "capability.requested" then
           let@ resolved := dt_agent (at_resolve authority req) in
           let@ permitted :=
             match resolved with
             | Err _ => dt_ret false
             | Ok auth =>
                 let@ routed := dt_try (dt_router (λ r, route_request r req auth (admission_now_ms a))) in
                 dt_ret (match routed with
                         | Ok (Deliver prov) => String.eqb prov id
                         | _ => false
                         end)
             end in
           if negb permitted then dt_ret true
           else let@ current := dt_router (λ r, revision_current fuel r req) in
                dt_ret (negb current)
         else dt_ret false) in
      if (forbidden : bool) then
        run@ dt_router (λ r, append_denial r req "authority or job revision changed before admission");
        refused id checkpoint
      else if is_request t then
        let@ admitted := dt_router (λ r, admit_attempt fuel r req id) in
        if (admitted : bool) then dt_ret None else refused id checkpoint
      else dt_ret None.

Fixpoint admit_batch (fuel : nat) (authority : R) (id : string) (checkpoint : N)
    (batch : list CommittedEvent) : D (option (option N)) :=
  match batch with
  | [] => dt_ret None
  | req :: batch =>
      let@ stop := admit_request fuel authority id checkpoint req in
      match stop with
      | Some r => dt_ret (Some r)
      | None => admit_batch fuel authority id checkpoint batch
      end
  end.

(** A delivery to an external component. *)
Definition deliver_external (fuel : nat) (authority : R) (id : string) (checkpoint : N)
    (batch : list CommittedEvent) : D (option N) :=
  let@ a := dt_get in
  if requests_of "capability.requested" batch && (4 <=? workers_with "capability.requested" a)%nat
  then dt_ret None
  else if requests_of "model.requested" batch && (5 <=? workers_with "model.requested" a)%nat
  then dt_ret None
  else
    let@ behind := (if requests_of "capability.requested" batch
                       || requests_of "code.evaluate-requested" batch
                    then let@ seen := dt_agent observations_delivered in dt_ret (negb seen)
                    else dt_ret false) in
    if (behind : bool) then dt_ret None
    else
      let@ stop := admit_batch fuel authority id checkpoint batch in
      match stop with
      | Some r => dt_ret r
      | None =>
          let@ stopped := dt_stopped in
          if (stopped : bool) then dt_ret None
          else spawn_worker id batch (λ i, Handling i batch)
      end.

(** [Agent::deliver]. *)
Definition deliver (fuel : nat) (authority : R) (id : string) : D (option N) :=
  let@ a := dt_get in
  if withheld a id then dt_ret None
  else match instances a !! id with
  | None => dt_fail (AgentUnknownInstance id)
  | Some i =>
      let cognition := existsb (λ reg, String.eqb (instance_id reg) id
        && whole_stream (subscriptions reg)) (registrations (ag_router a)) in
      let@ found := find_batch fuel id cognition (instance_checkpoint i) in
      match found with
      | NothingPending => dt_ret None
      | BackgroundOutput => spawn_worker id [] Flushing
      | Batch batch checkpoint =>
          let@ stopped := dt_stopped in
          if (stopped : bool) then dt_ret None
          else
            let@ a := dt_get in
            if bool_decide (id ∈ external a)
            then deliver_external fuel authority id checkpoint batch
            else
              let@ handled := with_instance id (lc_handle batch) in
              settle fuel id checkpoint batch handled
      end
  end.

(** ** Workers *)

(** The moment a worker's task runs. *)
Definition run_worker (id : string) : D unit := λ s,
  match jobs s !! id with
  | Some (Handling i batch) =>
      (let@ (r, i') := dt_world (lc_handle batch i) in
       dt_jobs <[id := Finished i' r]>) s
  | Some (Flushing i) =>
      let '(r, i') := lc_background_output i in dt_jobs <[id := Finished i' r]> s
  | _ => (Done tt, s)
  end.

Definition is_finished (j : option (Job I)) : bool :=
  match j with
  | Some (Finished _ _) => true
  | _ => false
  end.

Definition add_events (n : N) (p : Progress) : Progress :=
  mkProgress (requests_gated p) (requests_denied p) (deliveries p) (events_committed p + n).
Definition add_delivery (n : N) (p : Progress) : Progress :=
  mkProgress (requests_gated p) (requests_denied p) (deliveries p + 1) (events_committed p + n).

(** One finished worker. *)
Definition collect_worker (fuel : nat) (id : string) (progress : Progress) : D Progress :=
  run@ run_worker id;
  let@ a := dt_get in
  let batch := default [] (workers a !! id) in
  let@ job := (λ s, (Done (jobs s !! id), s)) in
  match job with
  | Some (Finished i r) =>
      run@ dt_jobs (delete id);
      run@ dt_update (λ a, set_instances <[id := i]> (set_workers (delete id) a));
      match r with
      | Ok outcome =>
          let@ stopped := dt_stopped in
          run@ (if (stopped : bool) then dt_ret tt
                else dt_update (λ a, set_cancellations (alter (λ _, false) id (cancellations a)) a));
          run@ dt_agent (recovered id (Some batch));
          dt_ret (add_events (len (outcome_events outcome)) progress)
      | Err error =>
          let@ a := dt_get in
          run@ (if default false (cancellations a !! id) then cancel_worker fuel id batch
                else run@ settle fuel id (batch_end (instance_checkpoint i) batch) batch (Err error);
                     dt_ret tt);
          dt_ret progress
      end
  | _ => dt_ret progress
  end.

Fixpoint collect_ready (fuel : nat) (ids : list string) (progress : Progress) : D Progress :=
  match ids with
  | [] => dt_ret progress
  | id :: ids =>
      let@ progress := collect_worker fuel id progress in
      collect_ready fuel ids progress
  end.

(** [Agent::collect_workers]. *)
Definition collect_workers (fuel : nat) (progress : Progress) (wait : bool) : D Progress := λ s,
  let ready := List.filter (λ id, wait || is_finished (jobs s !! id))
                 (map_keys (workers (agent_of (base_state s)))) in
  collect_ready fuel ready progress s.

(** ** One pass *)

Fixpoint deliver_each (fuel : nat) (authority : R) (ids : list string) (progress : Progress)
    : D Progress :=
  match ids with
  | [] => dt_ret progress
  | id :: ids =>
      let@ committed := deliver fuel authority id in
      deliver_each fuel authority ids
        (match committed with Some n => add_delivery n progress | None => progress end)
  end.

Fixpoint deliver_providers (fuel : nat) (authority : R) (cognition ids : list string)
    (progress : Progress) : D Progress :=
  match ids with
  | [] => dt_ret progress
  | id :: ids =>
      let@ stopped := dt_stopped in
      if (stopped : bool) then dt_ret progress
      else
        let@ a := dt_get in
        if str_mem id cognition || opt_is_some (workers a !! id)
        then deliver_providers fuel authority cognition ids progress
        else
          let@ committed := deliver fuel authority id in
          deliver_providers fuel authority cognition ids
            (match committed with Some n => add_delivery n progress | None => progress end)
  end.

(** [Agent::instance_ids]. *)
Definition instance_ids (a : Agent P I) : list string :=
  map_keys (instances a) ++ map_keys (workers a).

(** [Agent::tick]. *)
Definition tick (fuel : nat) (authority : R) (now_ms : Z) : D Progress :=
  run@ dt_update (set_now now_ms);
  run@ dt_agent (refresh_health fuel);
  let@ progress := collect_workers fuel (mkProgress 0 0 0 0) false in
  let@ stopped := dt_stopped in
  if (stopped : bool) then dt_ret progress
  else
    let@ a := dt_get in
    let cognition := instance_id <$>
      List.filter (λ reg, whole_stream (subscriptions reg)) (registrations (ag_router a)) in
    let@ progress := deliver_each fuel authority cognition progress in
    let@ (gated, denied) := dt_agent (gate_new_requests fuel authority now_ms) in
    let progress := mkProgress gated denied (deliveries progress) (events_committed progress) in
    let@ a := dt_get in
    deliver_providers fuel authority cognition (instance_ids a) progress.

(** [Agent::tick_wait]. *)
Definition tick_wait (fuel : nat) (authority : R) (now_ms : Z) : D Progress :=
  let@ progress := tick fuel authority now_ms in
  collect_workers fuel progress true.
End deliver.
