(* ===== verification/AgentDeliverSpec.v ===== *)
(** Deliveries of the agent: a component runs in one place at a time, no more
    requests run at once than the limits allow, a request runs only after it
    was admitted, and what a failure does. *)
From stdpp Require Import base tactics countable option list strings sorting gmap.
From Stdlib Require Import ZArith NArith Lia Ascii.
From S2P Require Import Prelude Event EventStore Registry Authority Json Manifest Host Router RouterLoops RouterSpec Agent AgentDeliver.

(** ** Frames *)

Section frames.
Context {P I W : Type}.
Abbreviation D A := (Dt P I W A).
Implicit Types (s : DState P I W).

Definition agent_at s : Agent P I := agent_of (base_state s).

(** Beside the instance of [id], no instance, worker or job has changed. *)
Definition same_but (id : string) s s' : Prop :=
  jobs s' = jobs s ∧ workers (agent_at s') = workers (agent_at s) ∧
  ∀ id', id' ≠ id → instances (agent_at s') !! id' = instances (agent_at s) !! id'.

(** Whatever [m] returns, it leaves the rest as it is. *)
Definition confined {A} (id : string) (m : D A) : Prop := ∀ s, same_but id s (m s).2.

Lemma same_but_refl id s : same_but id s s.
Proof. by split_and!. Qed.
Lemma same_but_trans id s1 s2 s3 : same_but id s1 s2 → same_but id s2 s3 → same_but id s1 s3.
Proof.
  intros (H1 & H2 & H3) (H4 & H5 & H6). split_and!; [congruence|congruence|].
  intros id' Hid. by rewrite H6, H3.
Qed.

Lemma confined_ret {A} id (a : A) : confined id (dt_ret a).
Proof. intros s. apply same_but_refl. Qed.
Lemma confined_fail {A} id e : confined id (dt_fail (A := A) e).
Proof. intros s. apply same_but_refl. Qed.
Lemma confined_fuel {A} id : confined id (λ s, (Exhausted (A := A), s)).
Proof. intros s. apply same_but_refl. Qed.
Lemma confined_bind {A B} id (m : D A) (k : A → D B) :
  confined id m → (∀ a, confined id (k a)) → confined id (dt_bind m k).
Proof.
  intros Hm Hk s. specialize (Hm s). unfold dt_bind. destruct (m s) as [[a|e|] s1]; simpl in *;
    [|done|done]. eapply same_but_trans; [exact Hm|apply Hk].
Qed.
Lemma confined_try {A} id (m : D A) : confined id m → confined id (dt_try m).
Proof. intros Hm s. specialize (Hm s). unfold dt_try. by destruct (m s) as [[] ?]. Qed.
Lemma confined_world {A} id (f : W → A * W) : confined id (dt_world f).
Proof. intros s. unfold dt_world. by destruct (f _). Qed.
Lemma confined_stopped `{StopSignal} id : confined id dt_stopped.
Proof. intros s. by split_and!. Qed.
Lemma confined_get id : confined id dt_get.
Proof. intros s. by split_and!. Qed.
Lemma confined_match {A} id (b : bool) (m n : D A) :
  confined id m → confined id n → confined id (if b then m else n).
Proof. by destruct b. Qed.

(** An update that touches at most one instance. *)
Lemma confined_update id (f : Agent P I → Agent P I) :
  (∀ a, workers (f a) = workers a ∧ ∀ id', id' ≠ id → instances (f a) !! id' = instances a !! id') →
  confined id (dt_update f).
Proof. intros Hf s. destruct (Hf (agent_at s)) as [H1 H2]. by split_and!. Qed.

Lemma confined_put id i : confined id (dt_update (set_instances (P := P) (I := I) <[id := i]>)).
Proof. apply confined_update. intros a. split; [done|]. intros. simpl. by rewrite lookup_insert_ne. Qed.
Lemma confined_remove id : confined id (dt_update (set_instances (P := P) (I := I) (delete id))).
Proof. apply confined_update. intros a. split; [done|]. intros. simpl. by rewrite lookup_delete_ne. Qed.
Lemma confined_fresh id i : confined id (dt_update (install_fresh (P := P) (I := I) id i)).
Proof. apply confined_update. intros a. split; [done|]. intros. simpl. by rewrite lookup_insert_ne. Qed.
Lemma confined_health id f b r :
  confined id (dt_update (λ a : Agent P I, set_health (f a) (b a) (r a) a)).
Proof. by apply confined_update. Qed.

(** *** Calls that change no instance at all *)

Definition quiet {A} (m : At P I W A) : Prop := ∀ st : AState P I W,
  workers (agent_of (m st).2) = workers (agent_of st) ∧
  instances (agent_of (m st).2) = instances (agent_of st).

Lemma quiet_confined {A} id (m : At P I W A) : quiet m → confined id (dt_agent m).
Proof.
  intros Hm s. specialize (Hm (base_state s)). unfold dt_agent.
  destruct (m (base_state s)) as [o b]. simpl in Hm. destruct Hm as [H1 H2]. unfold same_but, agent_at. simpl.
  split_and!; [done|done|]. intros id' _. by rewrite H2.
Qed.
Lemma quiet_ret {A} (a : A) : quiet (at_ret a).
Proof. done. Qed.
Lemma quiet_fail {A} e : quiet (at_fail (A := A) e).
Proof. done. Qed.
Lemma quiet_fuel {A} : quiet (λ st : AState P I W, (Exhausted (A := A), st)).
Proof. done. Qed.
Lemma quiet_bind {A B} (m : At P I W A) (k : A → At P I W B) :
  quiet m → (∀ a, quiet (k a)) → quiet (at_bind m k).
Proof.
  intros Hm Hk s. specialize (Hm s). unfold at_bind. destruct (m s) as [[a|e|] s1]; simpl in *;
    [|done|done]. destruct (Hk a s1) as [H1 H2], Hm as [H3 H4]. by rewrite H1, H2.
Qed.
Lemma quiet_router {A} (m : Rt W A) : quiet (at_router m).
Proof. intros s. unfold at_router. by destruct (m (rstate s)). Qed.
Lemma quiet_store {A} (f : W → result A AppendError * W) : quiet (at_store f).
Proof. intros s. unfold at_store. by destruct (f _). Qed.
Lemma quiet_agent : quiet at_agent.
Proof. done. Qed.
Lemma quiet_resolve {R} `{!AuthorityResolver R W} (authority : R) e : quiet (at_resolve authority e).
Proof. intros s. unfold at_resolve. by destruct (resolve_authority _ _ _). Qed.
Lemma quiet_update (f : Agent P I → Agent P I) :
  (∀ a, workers (f a) = workers a ∧ instances (f a) = instances a) → quiet (at_update f).
Proof. intros Hf s. apply Hf. Qed.
Lemma confined_router {A} id (f : Router P → Rt W A) : confined id (dt_router f).
Proof. apply quiet_confined, quiet_bind; [done|]. intros a. apply quiet_router. Qed.
End frames.

Create HintDb frames discriminated.
#[export] Hint Resolve confined_ret confined_fail confined_fuel confined_try confined_world
  confined_stopped confined_get confined_put confined_remove confined_fresh confined_health
  confined_router quiet_confined quiet_ret quiet_fail quiet_fuel quiet_router quiet_store quiet_agent
  quiet_resolve : frames.

(** Goes through a program's structure. *)
Ltac frames :=
  repeat first
    [ match goal with |- ∀ _, _ => intro end
    | solve [eauto 3 with frames]
    | apply confined_bind
    | apply quiet_bind
    | apply quiet_confined
    | apply confined_try
    | case_match ].

Section deliveries.
Context {JS : SerdeJson} {P : Type} {CP : ConstraintPolicy P} {PR : Process}.
Context {W : Type} {ES : EventStore W}.
Context {I : Type} {PI : PluginInstance I} {LC : Lifecycle I W} {SS : StopSignal}.
Context {R : Type} {AR : AuthorityResolver R W}.
Implicit Types (s : DState P I W).
Abbreviation D A := (Dt P I W A).

(** *** The calls of the agent that deliveries make *)

Lemma recovered_quiet id batch : quiet (recovered (P := P) (I := I) (W := W) id batch).
Proof. unfold recovered. frames. Qed.
Lemma mark_quiet id error : quiet (mark_resource_restart_failure (P := P) (I := I) (W := W) id error).
Proof. unfold mark_resource_restart_failure. frames. Qed.
Lemma drop_answered_quiet fuel es kept : quiet (drop_answered_requests (P := P) (I := I) (W := W) fuel es kept).
Proof. revert kept. induction es as [|e es IH]; intros kept; simpl; frames; apply IH. Qed.
Lemma observations_quiet : quiet (observations_delivered (P := P) (I := I) (W := W)).
Proof.
  unfold observations_delivered. frames. generalize (filter (λ reg, whole_stream (subscriptions reg) = true)
    (registrations (ag_router a))). intros regs. induction regs as [|reg regs IH]; simpl; frames; apply IH.
Qed.
Hint Resolve recovered_quiet mark_quiet drop_answered_quiet observations_quiet : frames.

(** *** After a failure, only the instance at hand changes *)

Lemma runtime_failed_confined {A} id (r : result A RuntimeError) :
  confined id (runtime_failed (P := P) (I := I) (W := W) r).
Proof. unfold runtime_failed. frames. Qed.
Lemma with_instance_confined {A} id (f : I → W → result A RuntimeError * I * W) :
  confined id (with_instance (P := P) id f).
Proof. unfold with_instance. frames. Qed.
Lemma take_confined id : confined id (take_instance (P := P) (I := I) (W := W) id).
Proof. unfold take_instance. frames. Qed.
Lemma fresh_confined id old checkpoint : confined id (fresh_instance (P := P) (W := W) old checkpoint).
Proof. apply confined_world. Qed.
Hint Resolve runtime_failed_confined with_instance_confined take_confined fresh_confined : frames.

Lemma skip_confined id checkpoint : confined id (skip_to (P := P) (I := I) (W := W) id checkpoint).
Proof. unfold skip_to. frames. Qed.
Lemma back_off_confined id key n req e : confined id (back_off (P := P) (I := I) (W := W) id key n req e).
Proof. unfold back_off. frames. Qed.
Lemma for_each_confined {A} id (f : A → D unit) l : (∀ x, confined id (f x)) → confined id (for_each f l).
Proof. intros Hf. induction l as [|x l IH]; simpl; frames; auto. Qed.
Hint Resolve skip_confined back_off_confined for_each_confined : frames.

Lemma defer_confined id batch e : confined id (defer_delivery (P := P) (I := I) (W := W) id batch e).
Proof. unfold defer_delivery. frames. Qed.
Lemma restart_confined fuel id batch res :
  confined id (restart_after_resource (P := P) (I := I) (W := W) fuel id batch res).
Proof. unfold restart_after_resource. frames. Qed.
Hint Resolve defer_confined restart_confined : frames.
Lemma restart_and_defer_confined fuel id batch e :
  confined id (restart_and_defer (P := P) (I := I) (W := W) fuel id batch e).
Proof. unfold restart_and_defer. frames. Qed.
Lemma cancel_worker_confined fuel id batch :
  confined id (cancel_worker (P := P) (I := I) (W := W) fuel id batch).
Proof. unfold cancel_worker. frames. Qed.
Lemma withdraw_confined id checkpoint reason i :
  confined id (withdraw (P := P) (I := I) (W := W) id checkpoint reason i).
Proof. unfold withdraw. frames; by apply confined_update. Qed.
Lemma admit_unanswered_confined fuel id req :
  confined id (admit_unanswered (P := P) (I := I) (W := W) fuel id req).
Proof. unfold admit_unanswered. frames. Qed.
Hint Resolve restart_and_defer_confined cancel_worker_confined withdraw_confined
  admit_unanswered_confined : frames.
Lemma quarantine_confined fuel id checkpoint batch e :
  confined id (quarantine (P := P) (I := I) (W := W) fuel id checkpoint batch e).
Proof. unfold quarantine. frames. Qed.
Hint Resolve quarantine_confined : frames.
Lemma settle_confined fuel id checkpoint batch r :
  confined id (settle (P := P) (I := I) (W := W) fuel id checkpoint batch r).
Proof. unfold settle. frames. Qed.
Hint Resolve settle_confined : frames.

(** *** Finding and admitting a batch *)

Lemma keep_authorized_confined fuel id id' es kept :
  confined id (keep_authorized (P := P) (I := I) (W := W) fuel id' es kept).
Proof. revert kept. induction es as [|e es IH]; intros kept; simpl; frames; apply IH. Qed.
Hint Resolve keep_authorized_confined : frames.
Lemma find_batch_confined fuel id cognition checkpoint :
  confined id (find_batch (P := P) (I := I) (W := W) fuel id cognition checkpoint).
Proof.
  revert checkpoint. induction fuel as [|fuel IH]; intros checkpoint; simpl; frames; apply IH.
Qed.
Lemma refused_confined id checkpoint : confined id (refused (P := P) (I := I) (W := W) id checkpoint).
Proof. unfold refused. frames. Qed.
Hint Resolve find_batch_confined refused_confined : frames.
Lemma admit_request_confined fuel (authority : R) id checkpoint req :
  confined id (admit_request (P := P) (I := I) (W := W) fuel authority id checkpoint req).
Proof. unfold admit_request. frames. Qed.
Hint Resolve admit_request_confined : frames.
Lemma admit_batch_confined fuel (authority : R) id checkpoint batch :
  confined id (admit_batch (P := P) (I := I) (W := W) fuel authority id checkpoint batch).
Proof. induction batch as [|req batch IH]; simpl; frames. Qed.
Hint Resolve admit_batch_confined : frames.

(** ** The invariant of workers *)

(** A component is in one place: with the agent or in the worker that runs
    it.  At most four workers run capability requests and five run model
    requests. *)
Record workers_ok s : Prop := {
  wo_jobs : ∀ id, is_Some (jobs s !! id) ↔ is_Some (workers (agent_at s) !! id);
  wo_apart : ∀ id, is_Some (instances (agent_at s) !! id) → jobs s !! id = None;
  wo_capabilities : workers_with "capability.requested" (agent_at s) ≤ 4;
  wo_models : workers_with "model.requested" (agent_at s) ≤ 5;
}.

Lemma same_but_ok id s s' : workers_ok s → jobs s !! id = None → same_but id s s' → workers_ok s'.
Proof.
  intros [H1 H2 H3 H4] Hid (E1 & E2 & E3). split.
  - intros x. rewrite E1, E2. apply H1.
  - intros x Hx. rewrite E1. destruct (decide (x = id)) as [->|Hne]; [done|].
    apply H2. by rewrite <- E3.
  - unfold workers_with. rewrite E2. apply H3.
  - unfold workers_with. rewrite E2. apply H4.
Qed.

Lemma same_but_jobs id s s' : same_but id s s' → jobs s !! id = None → jobs s' !! id = None.
Proof. intros (-> & _). done. Qed.

Lemma filter_length_le {A} (f : A → bool) l k :
  l ≡ₚ k → length (List.filter f l) = length (List.filter f k).
Proof.
  induction 1 as [|x l k _ IH|x y l|l k j _ IH1 _ IH2]; simpl; [done| |by destruct (f x), (f y)|lia].
  destruct (f x); simpl; lia.
Qed.

(** The workers after one more, or one less. *)
Lemma workers_with_insert t (a a' : Agent P I) id batch :
  workers a !! id = None → workers a' = <[id := batch]> (workers a) →
  workers_with t a' = (if requests_of t batch then 1 else 0) + workers_with t a.
Proof.
  intros Hid E. unfold workers_with. rewrite E.
  rewrite (filter_length_le _ _ ((batch :: (map_to_list (workers a)).*2))).
  - simpl. destruct (requests_of t batch); simpl; lia.
  - by rewrite map_to_list_insert.
Qed.

Lemma workers_with_delete t (a a' : Agent P I) id :
  workers a' = delete id (workers a) → workers_with t a' ≤ workers_with t a.
Proof.
  intros E. destruct (workers a !! id) as [batch|] eqn:Hid.
  - pose proof (workers_with_insert t a' a id batch) as H. rewrite H; [lia| |].
    + rewrite E. apply lookup_delete_eq.
    + rewrite E. by rewrite insert_delete_eq, insert_id.
  - unfold workers_with. rewrite E, delete_id by done. lia.
Qed.

(** [m] keeps the invariant. *)
Definition keeps_ok {A} (m : D A) : Prop := ∀ s, workers_ok s → workers_ok (m s).2.

Lemma confined_keeps {A} id (m : D A) s :
  confined id m → workers_ok s → jobs s !! id = None →
  workers_ok (m s).2 ∧ jobs (m s).2 !! id = None.
Proof.
  intros Hm Hs Hid. split; [by eapply same_but_ok|by eapply same_but_jobs].
Qed.

Lemma quiet_keeps {A} (m : At P I W A) : quiet m → keeps_ok (dt_agent m).
Proof.
  intros Hm s Hs. specialize (Hm (base_state s)). unfold dt_agent.
  destruct (m (base_state s)) as [o b]. simpl in Hm. destruct Hm as [E1 E2]. simpl.
  destruct Hs as [H1 H2 H3 H4]. split; unfold agent_at, workers_with in *; simpl; rewrite ?E1, ?E2; done.
Qed.

Lemma keeps_bind {A B} (m : D A) (k : A → D B) :
  keeps_ok m → (∀ a, keeps_ok (k a)) → keeps_ok (dt_bind m k).
Proof.
  intros Hm Hk s Hs. specialize (Hm s Hs). unfold dt_bind.
  destruct (m s) as [[a|e|] s1]; simpl in *; [by apply Hk|done|done].
Qed.

(** Handing the instance to a worker of its own. *)
Lemma spawn_keeps id batch job s :
  workers_ok s →
  (requests_of "capability.requested" batch = true →
     workers_with "capability.requested" (agent_at s) < 4) →
  (requests_of "model.requested" batch = true → workers_with "model.requested" (agent_at s) < 5) →
  workers_ok (spawn_worker (P := P) (W := W) id batch job s).2.
Proof.
  intros Hs H4 H5. pose proof Hs as [H1 H2 H3 H3']. unfold spawn_worker, take_instance, dt_bind, dt_get, dt_agent, at_agent.
  simpl. fold (agent_at s). destruct (instances (agent_at s) !! id) as [i|] eqn:Ei; [|by destruct s as [[]]].
  simpl. assert (jobs s !! id = None) as Hj by (by apply H2).
  assert (workers (agent_at s) !! id = None) as Hw.
  { apply eq_None_not_Some. intros Hx%H1. rewrite Hj in Hx. by destruct Hx. }
  split; unfold agent_at in *; simpl in *.
  - intros x. rewrite !lookup_insert. case_decide; [split; by eauto|apply H1].
  - intros x. rewrite lookup_delete, lookup_insert. case_decide; [by intros []|apply H2].
  - erewrite workers_with_insert; [|exact Hw|reflexivity].
    change (workers_with "capability.requested" (set_instances (delete id) (agent_of (base_state s))))
      with (workers_with "capability.requested" (agent_of (base_state s))).
    destruct (requests_of "capability.requested" batch); [specialize (H4 eq_refl)|]; lia.
  - erewrite workers_with_insert; [|exact Hw|reflexivity].
    change (workers_with "model.requested" (set_instances (delete id) (agent_of (base_state s))))
      with (workers_with "model.requested" (agent_of (base_state s))).
    destruct (requests_of "model.requested" batch); [specialize (H5 eq_refl)|]; lia.
Qed.

(** *** A delivery *)

(** A part that is confined to [id], then the rest. *)
Lemma confined_then {A B} id (m : D A) (k : A → D B) s :
  confined id m → workers_ok s → jobs s !! id = None →
  (∀ a s', m s = (Done a, s') → workers_ok s' → jobs s' !! id = None →
     workers (agent_at s') = workers (agent_at s) → workers_ok (k a s').2) →
  workers_ok (dt_bind m k s).2.
Proof.
  intros Hm Hs Hid Hk. destruct (confined_keeps id m s Hm Hs Hid) as [H1 H2].
  pose proof (Hm s) as (_ & H3 & _).
  unfold dt_bind. destruct (m s) as [[a|e|] s1] eqn:E; simpl in *; [by apply Hk|done|done].
Qed.

Lemma deliver_external_keeps fuel (authority : R) id checkpoint batch s :
  workers_ok s → jobs s !! id = None →
  workers_ok (deliver_external (P := P) (I := I) (W := W) fuel authority id checkpoint batch s).2.
Proof.
  intros Hs Hid. unfold deliver_external. eapply confined_then; [apply confined_get|done|done|].
  intros a s1 Ea Hs1 Hid1 Hw1. assert (a = agent_at s1) as ->.
  { unfold dt_get, dt_agent, at_agent in Ea. injection Ea as <- <-. done. }
  destruct (_ && _) eqn:E4; [done|]. destruct (_ && _) eqn:E5 in |- *; [done|].
  eapply (confined_then id); [frames|done|done|]. intros behind s2 _ Hs2 Hid2 Hw2.
  destruct behind; [done|]. eapply (confined_then id); [frames|done|done|].
  intros stop s3 _ Hs3 Hid3 Hw3. destruct stop as [r|]; [done|].
  eapply (confined_then id); [apply confined_stopped|done|done|].
  intros stopped s4 _ Hs4 Hid4 Hw4. destruct stopped; [done|].
  assert (∀ t, workers_with t (agent_at s4) = workers_with t (agent_at s1)) as Ew.
  { intros t. unfold workers_with. by rewrite Hw4, Hw3, Hw2. }
  apply spawn_keeps; [done| |]; intros Hb; rewrite Ew.
  - rewrite Hb in E4. by apply Nat.leb_gt in E4.
  - rewrite Hb in E5. by apply Nat.leb_gt in E5.
Qed.

Lemma deliver_keeps fuel (authority : R) id :
  keeps_ok (deliver (P := P) (I := I) (W := W) fuel authority id).
Proof.
  intros s Hs. unfold deliver. unfold dt_bind at 1. simpl. fold (agent_at s).
  replace (mkDState (base_state s) (jobs s) (stop_reads s)) with s by (by destruct s).
  destruct (withheld _ id); [done|]. destruct (instances (agent_at s) !! id) as [i|] eqn:Ei; [|done].
  assert (jobs s !! id = None) as Hid by (by apply Hs).
  eapply (confined_then id); [frames|done|done|]. intros found s1 _ Hs1 Hid1 _.
  destruct found as [| |batch checkpoint]; [done|by apply spawn_keeps|].
  eapply (confined_then id); [apply confined_stopped|done|done|]. intros stopped s2 _ Hs2 Hid2 _.
  destruct stopped; [done|].
  eapply (confined_then id); [apply confined_get|done|done|]. intros a s3 _ Hs3 Hid3 _.
  destruct (bool_decide _); [by apply deliver_external_keeps|].
  apply (confined_keeps id); [frames|done|done].
Qed.

(** *** Workers *)

Lemma run_worker_keeps id : keeps_ok (run_worker (P := P) (I := I) (W := W) id).
Proof.
  intros s [H1 H2 H3 H4]. unfold run_worker. destruct (jobs s !! id) as [[i batch|i|i r]|] eqn:Ej; [| |done|done].
  - unfold dt_bind, dt_world. destruct (lc_handle batch i _) as [[r i'] w]. simpl.
    split; unfold agent_at in *; simpl; [| |done|done]; intros x.
    + rewrite lookup_insert. case_decide as E; [|apply H1]. subst. rewrite <- H1, Ej. split; by eauto.
    + rewrite lookup_insert. case_decide as E; [|apply H2]. subst. intros Hx%H2. congruence.
  - destruct (lc_background_output i) as [r i']. simpl.
    split; unfold agent_at in *; simpl; [| |done|done]; intros x.
    + rewrite lookup_insert. case_decide as E; [|apply H1]. subst. rewrite <- H1, Ej. split; by eauto.
    + rewrite lookup_insert. case_decide as E; [|apply H2]. subst. intros Hx%H2. congruence.
Qed.

(** The instance comes back, and its worker is gone. *)
Lemma returned_ok s id i :
  workers_ok s →
  let s' := mkDState (mkAState (set_instances <[id := i]> (set_workers (delete id) (agent_at s)))
              (rstate (base_state s))) (delete id (jobs s)) (stop_reads s) in
  workers_ok s' ∧ jobs s' !! id = None.
Proof.
  intros [H1 H2 H3 H4]. cbn zeta. split; [|apply lookup_delete_eq].
  split; unfold agent_at in *; simpl.
  - intros x. rewrite !lookup_delete. case_decide; [by split|apply H1].
  - intros x. rewrite lookup_insert, lookup_delete. case_decide; [done|apply H2].
  - etrans; [|exact H3]. by apply (workers_with_delete _ _ _ id).
  - etrans; [|exact H4]. by apply (workers_with_delete _ _ _ id).
Qed.

Lemma collect_worker_keeps fuel id progress :
  keeps_ok (collect_worker (P := P) (I := I) (W := W) fuel id progress).
Proof.
  apply keeps_bind; [apply run_worker_keeps|]. intros _ s Hs.
  unfold dt_bind at 1. simpl. fold (agent_at s).
  unfold dt_bind at 1. simpl. destruct (jobs s !! id) as [[| |i r]|]; [by destruct s|by destruct s| |by destruct s].
  destruct (returned_ok s id i Hs) as [Hs' Hid']. unfold dt_bind at 1. simpl. unfold dt_bind at 1.
  simpl. fold (agent_at s). revert Hs' Hid'.
  match goal with |- workers_ok ?x → _ => generalize x end.
  generalize (default [] (workers (agent_at s) !! id)). clear s Hs. intros batch s Hs Hid.
  destruct r as [outcome|error].
  - refine (proj1 (confined_keeps id _ s _ Hs Hid)). frames.
  - refine (proj1 (confined_keeps id _ s _ Hs Hid)). frames.
Qed.

Lemma keeps_ret {A} (a : A) : keeps_ok (dt_ret a).
Proof. by intros s Hs. Qed.
Lemma keeps_quiet_bind {A B} (m : At P I W A) (k : A → D B) :
  quiet m → (∀ a, keeps_ok (k a)) → keeps_ok (dt_bind (dt_agent m) k).
Proof. intros Hm. apply keeps_bind. by apply quiet_keeps. Qed.
Lemma keeps_stopped : keeps_ok dt_stopped.
Proof. intros s [H1 H2 H3 H4]. by split. Qed.

Lemma collect_ready_keeps fuel ids progress :
  keeps_ok (collect_ready (P := P) (I := I) (W := W) fuel ids progress).
Proof.
  revert progress. induction ids as [|id ids IH]; intros progress; simpl; [apply keeps_ret|].
  apply keeps_bind; [apply collect_worker_keeps|]. intros. apply IH.
Qed.
Lemma collect_workers_keeps fuel progress wait :
  keeps_ok (collect_workers (P := P) (I := I) (W := W) fuel progress wait).
Proof. intros s Hs. unfold collect_workers. by apply collect_ready_keeps. Qed.

Lemma deliver_each_keeps fuel (authority : R) ids progress :
  keeps_ok (deliver_each (P := P) (I := I) (W := W) fuel authority ids progress).
Proof.
  revert progress. induction ids as [|id ids IH]; intros progress; simpl; [apply keeps_ret|].
  apply keeps_bind; [apply deliver_keeps|]. intros. apply IH.
Qed.

Lemma deliver_providers_keeps fuel (authority : R) cognition ids progress :
  keeps_ok (deliver_providers (P := P) (I := I) (W := W) fuel authority cognition ids progress).
Proof.
  revert progress. induction ids as [|id ids IH]; intros progress; simpl; [apply keeps_ret|].
  apply keeps_bind; [apply keeps_stopped|]. intros []; [apply keeps_ret|].
  apply keeps_quiet_bind; [by intros st|]. intros a. destruct (_ || _); [apply IH|].
  apply keeps_bind; [apply deliver_keeps|]. intros. apply IH.
Qed.

Lemma apply_health_instances t id p (a : Agent P I) :
  workers (apply_health t id p a) = workers a ∧ instances (apply_health t id p a) = instances a.
Proof. unfold apply_health. repeat case_match; done. Qed.

Lemma health_event_instances (a : Agent P I) e :
  workers (health_event a e).1 = workers a ∧ instances (health_event a e).1 = instances a.
Proof.
  unfold health_event. repeat case_match; try done. cbn [fst].
  match goal with |- context [apply_health ?t ?id ?p ?a'] =>
    by destruct (apply_health_instances t id p a') as (-> & ->) end.
Qed.

Lemma health_page_quiet page : quiet (health_page (P := P) (I := I) (W := W) page).
Proof.
  induction page as [|e page IH]; [by intros st|]. intros st. cbn [health_page].
  pose proof (health_event_instances (agent_of st) e) as [H1 H2].
  unfold at_bind, at_agent, at_update.
  destruct (health_event (agent_of st) e) as [a' error]. simpl in *.
  destruct error as [error|]; simpl; [by split|]. destruct (IH (mkAState a' (rstate st))) as [H3 H4].
  simpl in *. by rewrite H3, H4.
Qed.
Hint Resolve health_page_quiet : frames.
Lemma refresh_health_quiet fuel : quiet (refresh_health (P := P) (I := I) (W := W) fuel).
Proof. induction fuel as [|fuel IH]; simpl; frames; apply IH. Qed.

Lemma cancel_workers_quiet e : quiet (at_update (W := W) (cancel_workers (P := P) (I := I) e)).
Proof. apply quiet_update. intros a. unfold cancel_workers. by case_match. Qed.
Hint Resolve cancel_workers_quiet : frames.
Lemma gate_request_quiet (authority : R) now_ms r e :
  quiet (gate_request (P := P) (I := I) (W := W) authority now_ms r e).
Proof. unfold gate_request, deny. frames. Qed.
Hint Resolve gate_request_quiet : frames.
Lemma gate_loop_quiet fuel (authority : R) now_ms es gated denied :
  quiet (gate_loop (P := P) (I := I) (W := W) fuel authority now_ms es gated denied).
Proof.
  revert gated denied. induction es as [|e es IH]; intros gated denied; simpl; [apply quiet_ret|].
  apply quiet_bind; [unfold gate_event; frames|]. intros []. apply IH.
Qed.
Lemma gate_quiet fuel (authority : R) now_ms :
  quiet (gate_new_requests (P := P) (I := I) (W := W) fuel authority now_ms).
Proof. unfold gate_new_requests. frames. apply gate_loop_quiet. Qed.

Lemma tick_keeps fuel (authority : R) now_ms :
  keeps_ok (tick (P := P) (I := I) (W := W) fuel authority now_ms).
Proof.
  unfold tick. apply keeps_quiet_bind; [by intros st|]. intros _.
  apply keeps_quiet_bind; [apply refresh_health_quiet|]. intros _.
  apply keeps_bind; [apply collect_workers_keeps|]. intros progress.
  apply keeps_bind; [apply keeps_stopped|]. intros []; [apply keeps_ret|].
  apply keeps_quiet_bind; [by intros st|]. intros a.
  apply keeps_bind; [apply deliver_each_keeps|]. intros progress'.
  apply keeps_quiet_bind; [apply gate_quiet|]. intros [gated denied].
  apply keeps_quiet_bind; [by intros st|]. intros a'. apply deliver_providers_keeps.
Qed.

(** What happens to a running agent: a pass, a pass that waits for its
    workers, or the task of a worker runs, at any moment in between. *)
Inductive agent_step (fuel : nat) (authority : R) s : DState P I W → Prop :=
| step_tick now_ms : agent_step fuel authority s (tick fuel authority now_ms s).2
| step_tick_wait now_ms : agent_step fuel authority s (tick_wait fuel authority now_ms s).2
| step_worker id : agent_step fuel authority s (run_worker id s).2.

(** (C4) A component runs in one place.  Starting from an agent without
    workers, however passes and the tasks of workers interleave, and
    whatever fails or errors on the way, every instance is either with the
    agent or in the one worker that runs it, and never more than four
    capability requests and five model requests run at once. *)
Theorem one_task_per_component (fuel : nat) (authority : R) (s s' : DState P I W)
    (Hjobs : jobs s = ∅) (Hworkers : workers (agent_at s) = ∅)
    (Hrun : rtc (agent_step fuel authority) s s') :
  (∀ id, is_Some (jobs s' !! id) ↔ is_Some (workers (agent_at s') !! id)) ∧
  (∀ id, is_Some (instances (agent_at s') !! id) → jobs s' !! id = None) ∧
  workers_with "capability.requested" (agent_at s') ≤ 4 ∧
  workers_with "model.requested" (agent_at s') ≤ 5.
Proof.
  assert (workers_ok s) as Hs.
  { split; unfold workers_with; rewrite ?Hjobs, ?Hworkers, ?map_to_list_empty; simpl; try lia;
      intros id; by rewrite !lookup_empty. }
  assert (workers_ok s') as [H1 H2 H3 H4]; [|done]. revert Hs. clear Hjobs Hworkers.
  induction Hrun as [s|s s1 s' Hstep _ IH]; [done|]. intros Hs. apply IH. destruct Hstep.
  - by apply tick_keeps.
  - refine (keeps_bind _ _ (tick_keeps _ _ _) _ s Hs). intros. apply collect_workers_keeps.
  - by apply run_worker_keeps.
Qed.

(** ** Admission *)

Lemma dt_bind_done {A B} (m : D A) (k : A → D B) s b s' :
  dt_bind m k s = (Done b, s') → ∃ a s1, m s = (Done a, s1) ∧ k a s1 = (Done b, s').
Proof. unfold dt_bind. destruct (m s) as [[a|e|] s1]; [|done|done]. eauto. Qed.

(** A call that leaves the agent as it is. *)
Definition reads_agent s s' : Prop := agent_at s' = agent_at s ∧ jobs s' = jobs s.

Lemma dt_router_done {A} (f : Router P → Rt W A) s a s' :
  dt_router f s = (Done a, s') →
  f (ag_router (agent_at s)) (rstate (base_state s)) = (Return a, rstate (base_state s')) ∧
  reads_agent s s'.
Proof.
  unfold dt_router, dt_agent, at_bind, at_agent, at_router, reads_agent, agent_at.
  destruct (f _ _) as [[x|e|] rs] eqn:E; intros H; simplify_eq/=. done.
Qed.

Lemma dt_resolve_done (authority : R) req s a s' :
  dt_agent (at_resolve authority req) s = (Done a, s') → reads_agent s s'.
Proof.
  unfold dt_agent, at_resolve. destruct (resolve_authority _ _ _). simpl. intros H. by simplify_eq/=.
Qed.

Lemma dt_get_done s a s' : dt_get s = (Done a, s') → a = agent_at s ∧ s' = s.
Proof. unfold dt_get, dt_agent, at_agent. intros H. simplify_eq/=. by destruct s. Qed.

Lemma reads_trans s1 s2 s3 : reads_agent s1 s2 → reads_agent s2 s3 → reads_agent s1 s3.
Proof. intros [H1 H2] [H3 H4]. split; congruence. Qed.

(** A refusal stops the delivery. *)
Lemma refused_done id checkpoint s r s' :
  refused (P := P) (I := I) (W := W) id checkpoint s = (Done r, s') → r = Some (Some 0%N).
Proof. unfold refused. intros ([] & s1 & _ & H)%dt_bind_done. unfold dt_ret in H. by simplify_eq. Qed.

(** The provider the log allows now, by an authority resolved now. *)
Definition allowed_now (authority : R) (req : CommittedEvent) (id : string) (a : Agent P I) : Prop :=
  ∃ auth s1 s2 rs1 rs2,
    dt_agent (P := P) (I := I) (at_resolve authority req) s1 = (Done (Ok auth), s2) ∧
    route_request (ag_router a) req auth (admission_now_ms a) rs1 = (Return (Deliver id), rs2).

Lemma permission_done fuel (authority : R) id req s s' :
  (let@ resolved := dt_agent (at_resolve authority req) in
   let@ permitted :=
     match resolved with
     | Err _ => dt_ret false
     | Ok auth =>
         let@ routed := dt_try (dt_router (λ r, route_request r req auth
                                  (admission_now_ms (agent_at s)))) in
         dt_ret (match routed with
                 | Ok (Deliver prov) => String.eqb prov id
                 | _ => false
                 end)
     end in
   if negb permitted then dt_ret true
   else let@ current := dt_router (λ r, revision_current fuel r req) in
        dt_ret (negb current)) s = (Done false, s') →
  reads_agent s s' ∧ allowed_now authority req id (agent_at s).
Proof.
  intros (resolved & s1 & E1 & H)%dt_bind_done. apply dt_bind_done in H as (permitted & s2 & E2 & H).
  pose proof (dt_resolve_done _ _ _ _ _ E1) as R1.
  destruct permitted; cbn [negb] in H; [|unfold dt_ret in H; by simplify_eq].
  apply dt_bind_done in H as (current & s3 & E3 & H). unfold dt_ret in H. simplify_eq.
  apply dt_router_done in E3 as [_ R3].
  destruct resolved as [auth|e]; [|unfold dt_ret in E2; by simplify_eq].
  apply dt_bind_done in E2 as (routed & s4 & E4 & E2). unfold dt_ret in E2.
  destruct routed as [[prov| |]|]; simplify_eq. destruct (String.eqb_spec prov id) as [->|]; simplify_eq.
  unfold dt_try in E4. destruct (dt_router _ s1) as [[x|e|] s5] eqn:E5; simplify_eq.
  apply dt_router_done in E5 as [E5 R5]. split; [by do 2 (eapply reads_trans; [done|])|].
  exists auth, s, s1, (rstate (base_state s1)), (rstate (base_state s2)). split; [done|].
  destruct R1 as [Ha _]. by rewrite Ha in E5.
Qed.

Lemma admit_request_done fuel (authority : R) id checkpoint req s s' :
  admit_request (P := P) (I := I) (W := W) fuel authority id checkpoint req s = (Done None, s') →
  is_request (event_type (request req)) = true →
  reads_agent s s' ∧
  (∃ rs, admit_attempt fuel (ag_router (agent_at s)) req id rs = (Return true, rstate (base_state s'))) ∧
  (event_type (request req) = "capability.requested" → allowed_now authority req id (agent_at s)).
Proof.
  unfold admit_request. intros (a & s0 & [-> ->]%dt_get_done & H)%dt_bind_done Hreq.
  apply dt_bind_done in H as (late & s1 & [_ R1]%dt_router_done & H).
  destruct late; [by apply refused_done in H|].
  apply dt_bind_done in H as (stale & s2 & E2 & H).
  assert (reads_agent s1 s2) as R2.
  { destruct (String.eqb _ _) in E2; [|unfold dt_ret in E2; by simplify_eq].
    apply dt_bind_done in E2 as (? & ? & [_ ?]%dt_router_done & E2). unfold dt_ret in E2. by simplify_eq. }
  destruct stale; [by apply dt_bind_done in H as (? & ? & _ & H%refused_done)|].
  pose proof (reads_trans _ _ _ R1 R2) as R12. clear R1 R2 E2.
  apply dt_bind_done in H as (forbidden & s3 & E3 & H).
  destruct forbidden; [by apply dt_bind_done in H as (? & ? & _ & H%refused_done)|].
  rewrite Hreq in H. apply dt_bind_done in H as (admitted & s4 & [E4 R4]%dt_router_done & H).
  destruct admitted; [|by apply refused_done in H]. unfold dt_ret in H. simplify_eq.
  assert (reads_agent s2 s3 ∧ (event_type (request req) = "capability.requested" →
    allowed_now authority req id (agent_at s))) as [R3 Hallowed].
  { destruct R12 as [Ha _]. rewrite <- Ha in E3 |- *.
    destruct (String.eqb_spec (event_type (request req)) "capability.requested") as [Et|Hne].
    - apply permission_done in E3 as [? ?]. done.
    - unfold dt_ret in E3. simplify_eq. by split. }
  split_and!; [by do 2 (eapply reads_trans; [done|])| |done].
  exists (rstate (base_state s3)). rewrite <- E4. f_equal.
  destruct (reads_trans _ _ _ R12 R3) as [-> _]. done.
Qed.

Lemma observations_done s a s' :
  dt_agent (observations_delivered (P := P) (I := I) (W := W)) s = (Done a, s') → reads_agent s s'.
Proof.
  assert (∀ regs st, agent_of (observations_delivered_to (P := P) (I := I) (W := W) regs st).2 = agent_of st)
    as Hkeep.
  { induction regs as [|reg regs IH]; intros st; [done|]. cbn [observations_delivered_to].
    unfold at_bind, at_agent, at_store. destruct (es_query _ _ _ _) as [[l|e] w]; simpl; [|done].
    destruct (bool_decide _); [by rewrite IH|done]. }
  unfold dt_agent, observations_delivered, at_bind, at_agent.
  match goal with |- context [observations_delivered_to ?regs ?st] =>
    pose proof (Hkeep regs st) as H; destruct (observations_delivered_to regs st) as [o b] end.
  simpl in H. intros E. simplify_eq/=. by split.
Qed.

(** (C16) A request runs only after it was admitted.  When a delivery hands a
    request to a worker, the last thing the router did is to admit an
    attempt of this component at it, which [admit_attempt] does at most
    once; and a capability request was, after the wait in the queue, still
    allowed: its authority was resolved again and routes it to this
    component. *)
Theorem worker_admitted (fuel : nat) (authority : R) (id : string) (checkpoint : N)
    (req : CommittedEvent) (s s' : DState P I W)
    (Hrequest : is_request (event_type (request req)) = true)
    (Hidle : jobs s !! id = None)
    (Hdeliver : deliver_external fuel authority id checkpoint [req] s = (Done (Some 0%N), s'))
    (Hworker : is_Some (jobs s' !! id)) :
  (∃ rs, admit_attempt fuel (ag_router (agent_at s)) req id rs = (Return true, rstate (base_state s'))) ∧
  (event_type (request req) = "capability.requested" → allowed_now authority req id (agent_at s)) ∧
  workers (agent_at s') !! id = Some [req].
Proof.
  unfold deliver_external in Hdeliver.
  apply dt_bind_done in Hdeliver as (a & s0 & [-> ->]%dt_get_done & H).
  destruct (_ && _) in H; [done|]. destruct (_ && _) in H; [done|].
  apply dt_bind_done in H as (behind & s1 & E1 & H).
  destruct behind; [unfold dt_ret in H; by simplify_eq|].
  assert (reads_agent s s1) as [A1 J1].
  { destruct (_ || _) in E1; [|unfold dt_ret in E1; by simplify_eq].
    apply dt_bind_done in E1 as (seen & s2 & E2 & E1). unfold dt_ret in E1. simplify_eq.
    by eapply observations_done. }
  apply dt_bind_done in H as (stop & s2 & E2 & H). cbn [admit_batch] in E2.
  apply dt_bind_done in E2 as (stop' & s3 & E3 & E2).
  destruct stop' as [r|].
  { unfold dt_ret in E2. simplify_eq. unfold dt_ret in H. simplify_eq.
    destruct Hworker as [j Hj]. pose proof (admit_request_confined fuel authority id checkpoint req s1)
      as (J3 & _). rewrite E3 in J3. simpl in J3. congruence. }
  unfold dt_ret in E2. simplify_eq.
  destruct (admit_request_done _ _ _ _ _ _ _ E3 Hrequest) as ([A3 J3] & (rs & Hadmit) & Hallowed).
  rewrite A1 in Hadmit, Hallowed.
  apply dt_bind_done in H as (stopped & s4 & E4 & H). unfold dt_stopped in E4. simplify_eq.
  destruct (stopped_at _); [unfold dt_ret in H; by simplify_eq|].
  unfold spawn_worker in H. apply dt_bind_done in H as (i & s5 & E5 & H).
  unfold take_instance in E5. apply dt_bind_done in E5 as (a & s6 & [-> ->]%dt_get_done & E5).
  unfold agent_at in E5 at 1. simpl in E5. destruct (instances _ !! id) as [i'|]; [|done].
  unfold dt_bind, dt_update, dt_agent, at_update, dt_jobs, dt_ret in E5, H. simplify_eq/=.
  split_and!; [exists rs; exact Hadmit|done|apply lookup_insert_eq].
Qed.

(** ** Failures *)

Definition world_at s : W := store (rstate (base_state s)).

Lemma dt_update_done (f : Agent P I → Agent P I) s a s' :
  dt_update f s = (Done a, s') → agent_at s' = f (agent_at s) ∧ jobs s' = jobs s.
Proof. unfold dt_update, dt_agent, at_update, agent_at. intros H. by simplify_eq/=. Qed.

Lemma for_each_reads {A} (f : A → D unit) l s s' :
  (∀ x s s', f x s = (Done tt, s') → reads_agent s s') →
  for_each f l s = (Done tt, s') → reads_agent s s'.
Proof.
  intros Hf. revert s. induction l as [|x l IH]; intros s; simpl.
  - unfold dt_ret. intros. by simplify_eq.
  - intros ([] & s1 & E & H)%dt_bind_done. eapply reads_trans; [by eapply Hf|by apply IH].
Qed.

Lemma admit_unanswered_reads fuel id req s s' :
  admit_unanswered (P := P) (I := I) (W := W) fuel id req s = (Done tt, s') → reads_agent s s'.
Proof.
  unfold admit_unanswered. destruct (is_request _); [|unfold dt_ret; intros; by simplify_eq].
  intros (found & s1 & [_ R1]%dt_router_done & H)%dt_bind_done. destruct (opt_is_some found).
  - unfold dt_ret in H. by simplify_eq.
  - apply dt_bind_done in H as (b & s2 & [_ R2]%dt_router_done & H). unfold dt_ret in H. simplify_eq.
    by eapply reads_trans.
Qed.

Lemma withdraw_done id checkpoint reason i s s' :
  withdraw (P := P) (I := I) (W := W) id checkpoint reason i s = (Done tt, s') →
  agent_at s' = on_failed <[id := reason]> (set_router (unregister id (ag_router (agent_at s))) (agent_at s)).
Proof.
  unfold withdraw. intros ([] & s1 & [A1 _]%dt_update_done & H)%dt_bind_done.
  apply dt_bind_done in H as ([] & s2 & [A2 _]%dt_update_done & H).
  rewrite A1 in A2. rewrite <- A2. destruct i as [i|]; [|unfold dt_ret in H; by simplify_eq].
  destruct (lc_requires_reinstantiation i); [unfold dt_ret in H; by simplify_eq|].
  apply dt_bind_done in H as (r & s3 & E3 & H). unfold dt_world in E3.
  destruct (lc_skip checkpoint i _) as [[r' i'] w]. simplify_eq/=.
  unfold runtime_failed in H. destruct r; unfold dt_ret in H; by simplify_eq.
Qed.

(** A component that trapped is withdrawn.  Without a pinned session it
    ends the delivery neither with the agent nor registered, marked as
    failed with the trap's text; no later delivery reaches it, and no other
    component or registration has changed. *)
Theorem trap_withdraws (fuel : nat) (id : string) (checkpoint : N) (batch : list CommittedEvent)
    (error : RuntimeError) (s s' : DState P I W)
    (Hplain : ∀ i, instances (agent_at s) !! id = Some i → lc_pinned_session i = false)
    (Hrun : quarantine fuel id checkpoint batch error s = (Done tt, s')) :
  instances (agent_at s') = delete id (instances (agent_at s)) ∧
  failed (agent_at s') = <[id := message error]> (failed (agent_at s)) ∧
  registrations (ag_router (agent_at s')) =
    registrations (unregister id (ag_router (agent_at s))) ∧
  workers (agent_at s') = workers (agent_at s) ∧
  (∀ fuel' (authority : R), deliver fuel' authority id s' = (Done None, s')).
Proof.
  unfold quarantine in Hrun. apply dt_bind_done in Hrun as (a & s0 & [-> ->]%dt_get_done & H).
  apply dt_bind_done in H as ([] & s1 & E1 & H).
  assert (reads_agent s s1) as [A1 _].
  { destruct (is_some_and _ _); [unfold dt_ret in E1; by simplify_eq|].
    eapply for_each_reads; [|done]. intros. by eapply admit_unanswered_reads. }
  apply dt_bind_done in H as (a & s2 & [-> ->]%dt_get_done & H).
  apply dt_bind_done in H as ([] & s3 & [A3 _]%dt_update_done & H).
  apply dt_bind_done in H as (e & s4 & [_ [A4 _]]%dt_router_done & H).
  assert (withdraw id checkpoint (message error) (instances (agent_at s1) !! id) s4 = (Done tt, s')) as Hw.
  { rewrite A1 in H |- *. destruct (instances (agent_at s) !! id) as [i|] eqn:Ei; [|done].
    by rewrite (Hplain i eq_refl) in H. }
  apply withdraw_done in Hw. rewrite A4, A3, A1 in Hw.
  rewrite Hw. split_and!; [done..|]. intros fuel' authority. unfold deliver, dt_bind, dt_get, dt_agent, at_agent.
  fold (agent_at s'). rewrite Hw. unfold withheld at 1. simpl.
  rewrite lookup_insert_eq. simpl. by destruct s'.
Qed.

(** What three exhaustions of the same request lead to: one commit that
    moves the instance past it and records the report. *)
Definition skipped_with_report (id : string) (source : CommittedEvent) s s' : Prop :=
  ∃ i i' deferred,
    instances (agent_at s) !! id = Some i ∧
    lc_skip_with_events (sequence source) [deferred] i (world_at s) = (Ok tt, i', world_at s') ∧
    event_type deferred = "cognition.resource-exhausted" ∧
    deduplication_key deferred =
      Some ("cognition-resource-exhausted:" +:+ id +:+ ":" +:+ event_id source) ∧
    instances (agent_at s') = <[id := i']> (instances (agent_at s)).

Lemma dt_update_world (f : Agent P I → Agent P I) s a s' :
  dt_update f s = (Done a, s') → world_at s' = world_at s.
Proof. unfold dt_update, dt_agent, at_update, world_at. intros H. by simplify_eq/=. Qed.

Lemma exhaustion_request_done (r : Router P) id source n v e c job session (rs rs' : RState W) req :
  resource_exhaustion_request r id source n v e c job session rs = (Return req, rs') →
  rs' = rs ∧ event_type req = "cognition.resource-exhausted" ∧
  deduplication_key req = Some ("cognition-resource-exhausted:" +:+ id +:+ ":" +:+ event_id source).
Proof.
  unfold resource_exhaustion_request, rt_bind, serialize, validated, rt_lift, rt_ret.
  intros H. repeat case_match; simplify_eq; done.
Qed.

Lemma with_instance_done {A} id (f : I → W → result A RuntimeError * I * W) s r s' :
  with_instance id f s = (Done r, s') →
  ∃ i i', instances (agent_at s) !! id = Some i ∧ f i (world_at s) = (r, i', world_at s') ∧
    agent_at s' = set_instances <[id := i']> (agent_at s).
Proof.
  unfold with_instance. intros (a & s1 & [-> ->]%dt_get_done & H)%dt_bind_done.
  destruct (instances (agent_at s) !! id) as [i|]; [|done].
  apply dt_bind_done in H as ([r' i'] & s2 & E & H). unfold dt_world in E.
  fold (world_at s) in E. destruct (f i (world_at s)) as [[r'' i''] w] eqn:Ef.
  assert (r'' = r' ∧ i'' = i' ∧ s2 = set_store w s) as (-> & -> & ->) by (by simplify_eq).
  apply dt_bind_done in H as ([] & s3 & E3 & H). pose proof (dt_update_world _ _ _ _ E3) as W3.
  apply dt_update_done in E3 as [A3 _]. unfold dt_ret in H. simplify_eq.
  exists i, i'. by rewrite W3, A3.
Qed.

Lemma back_off_done id key n req e s s' :
  back_off (P := P) (I := I) (W := W) id key n req e s = (Done tt, s') →
  agent_at s' = on_backoff <[key := (n, saturating_add_i64 (admission_now_ms (agent_at s)) (retry_delay n))]>
                  (agent_at s).
Proof.
  unfold back_off. intros (a & s0 & [-> ->]%dt_get_done & H)%dt_bind_done.
  apply dt_bind_done in H as (x & s1 & [_ [A1 _]]%dt_router_done & H).
  apply dt_update_done in H as [A2 _]. by rewrite A2, A1.
Qed.

(** An exhausted request is retried twice.  When the component that
    handles it runs out of a resource, the first and second time the
    request waits one and two seconds in the component's backoff; the third
    time the component is moved past it, with a report in the log in the
    same commit, and the request's backoff is forgotten: a request that
    always exhausts its component does not block the ones behind it. *)
Theorem exhausted_request_skipped (id : string) (source : CommittedEvent) (error : RuntimeError)
    (res : ResourceExhaustion) (s s' : DState P I W)
    (Hresource : resource_exhaustion error = Some res)
    (Hrun : defer_delivery id [source] error s = (Done tt, s')) :
  let key := request_key id (event_id source) in
  let n := match backoff (agent_at s) !! key with
           | None => 1%N
           | Some (k, _) => N.min (N.min (k + 1) u32_max) 3
           end in
  id ∈ reduced_batches (agent_at s') ∧
  if (n <? 3)%N then
    backoff (agent_at s') !! key =
      Some (n, saturating_add_i64 (admission_now_ms (agent_at s)) (if (n <? 2)%N then 1000 else 2000)) ∧
    instances (agent_at s') = instances (agent_at s)
  else backoff (agent_at s') !! key = None ∧ skipped_with_report id source s s'.
Proof.
  cbn zeta. unfold defer_delivery in Hrun. rewrite Hresource in Hrun. cbn [opt_is_some andb head fmap option_fmap option_map] in Hrun.
  apply dt_bind_done in Hrun as (a & s0 & [-> ->]%dt_get_done & H).
  apply dt_bind_done in H as ([] & s1 & E1 & H). pose proof (dt_update_world _ _ _ _ E1) as W1.
  apply dt_update_done in E1 as [A1 _].
  change (bool_decide ([source] = [])) with false in H. cbn [andb] in H.
  set (n := failure_count _ _ _) in H.
  change (match backoff (agent_at s) !! _ with None => _ | Some _ => _ end) with n.
  rewrite N.leb_antisym in H. destruct (n <? 3)%N eqn:En; cbn [negb] in H.
  - apply back_off_done in H. rewrite H, A1. simpl. split; [set_solver|]. split; [|done].
    rewrite lookup_insert_eq. do 3 f_equal. apply N.ltb_lt in En.
    assert (n ≠ 0)%N as Hn. { subst n. unfold failure_count. destruct (backoff _ !! _) as [[]|]; [|done].
      unfold u32_max. simpl. lia. }
    assert (n = 1 ∨ n = 2)%N as [-> | ->] by lia; done.
  - apply dt_bind_done in H as (deferred & s2 & [E2 [A2 _]]%dt_router_done & H).
    apply exhaustion_request_done in E2 as (W2 & Et & Ek).
    apply dt_bind_done in H as (r & s3 & E3 & H). apply dt_bind_done in H as ([] & s4 & E4 & H).
    assert (s4 = s3 ∧ r = Ok tt) as [-> ->].
    { unfold runtime_failed in E4. destruct r as [[]|]; unfold dt_ret, dt_fail in E4; by simplify_eq. }
    pose proof (dt_update_world _ _ _ _ H) as W5. apply dt_update_done in H as [A5 _].
    apply with_instance_done in E3 as (i & i' & Ei & Es & A3).
    unfold world_at in *. rewrite W2, W1 in Es. rewrite A2, A1 in Ei, A3. rewrite A5, A3. simpl.
    split; [set_solver|]. split; [by rewrite lookup_delete_eq|]. unfold skipped_with_report, world_at.
    exists i, i', deferred. rewrite W5, A5, A3. done.
Qed.

(** A component that a worker holds is not delivered to: it is unknown. *)
Lemma deliver_unknown fuel (authority : R) id s :
  withheld (agent_at s) id = false → instances (agent_at s) !! id = None →
  deliver fuel authority id s = (Failed (AgentUnknownInstance id), s).
Proof.
  intros Hw Hi. unfold deliver, dt_bind, dt_get, dt_agent, at_agent. fold (agent_at s).
  rewrite Hw, Hi. by destruct s.
Qed.

(** A pass can lose a race with a component's own output.  A delivery
    that finds nothing pending but output the component produced by itself
    moves the instance into a worker; until that worker has run and was
    collected, a second delivery to the component fails with an unknown
    instance.  A pass delivers to the components that read the whole stream
    without asking whether a worker holds them, so it fails then. *)
Theorem background_output_race (fuel : nat) (authority : R) (id : string) (s s1 : DState P I W)
    (Hspawn : spawn_worker id [] Flushing s = (Done (Some 0%N), s1))
    (Hhealthy : withheld (agent_at s1) id = false) :
  jobs s1 !! id ≠ None ∧
  (deliver_each fuel authority [id] (mkProgress 0 0 0 0) s1).1 = Failed (AgentUnknownInstance id).
Proof.
  unfold spawn_worker, take_instance in Hspawn.
  apply dt_bind_done in Hspawn as (i & s2 & E2 & H).
  apply dt_bind_done in E2 as (a & s3 & [-> ->]%dt_get_done & E2).
  destruct (instances (agent_at s) !! id) as [j|] eqn:Ei; [|done].
  unfold dt_bind, dt_update, dt_agent, at_update, dt_jobs, dt_ret in E2, H. simplify_eq/=.
  split; [by rewrite lookup_insert_eq|]. unfold dt_bind.
  rewrite deliver_unknown; [done|done|]. simpl. apply lookup_delete_eq.
Qed.
End deliveries.
