(* ===== verification/AgentDeliverSample.v ===== *)
(** The deliveries of an agent on a concrete database: the theorems of
    [AgentDeliverSpec] applied where their hypotheses hold. *)
From stdpp Require Import base tactics countable option list strings sorting gmap.
From Stdlib Require Import ZArith NArith Lia Ascii.
From S2P Require Import Prelude Event EventStore Registry Authority Utf8 Sqlite SqliteLog SqliteState SqliteDelivery SqliteSpec Json Manifest Host Router RouterLoops RouterSpec Agent AgentSpec AgentDeliver AgentDeliverSpec.

Module AgentDeliverSample.
Import Sample Codec RouterSample AgentSample.

(** A component that only counts: its checkpoint, and whether it has output
    of its own. *)
Record Counter : Type := mkCounter { count : N; talks : bool }.

#[export] Instance counter_plugin : PluginInstance Counter := {| instance_checkpoint := count |}.
#[export] Instance counter_lifecycle : Lifecycle Counter (World nat) := {|
  lc_pinned_session _ := false;
  lc_requires_reinstantiation _ := false;
  lc_has_background_output i := (talks i, i);
  lc_background_output i := (Ok (mkOutcome [] (count i)), mkCounter (count i) false);
  lc_handle batch i w :=
    let n := batch_end (count i) batch in
    (Ok (mkOutcome [] n), mkCounter n (talks i), w);
  lc_skip n i w := (Ok tt, mkCounter n (talks i), w);
  lc_skip_with_events n _ i w := (Ok tt, mkCounter n (talks i), w);
  lc_restart i w := (Ok i, w);
  lc_init i w := (Ok tt, i, w);
  lc_start i := i;
|}.
#[export] Instance never_stopped : StopSignal := {| stopped_at _ := false |}.

Definition authority : FixedResolver := mkFixedResolver (Ok permissive).

(** An agent whose external component [tool] has a request to handle. *)
Definition tool_agent (talking : bool) : Agent FixedPolicy Counter :=
  mkAgent router {["tool"]} ∅ {["tool" := false]} {["tool" := mkCounter 0 talking]} "agent" who
    0 10 100 ∅ ∅ ∅ 0.
Definition d0 (talking : bool) : DState FixedPolicy Counter (World nat) :=
  mkDState (mkAState (tool_agent talking) s1) ∅ 0.

(** A pass that hands the request to a worker, and the worker's task. *)
Definition d1 : DState FixedPolicy Counter (World nat) := (tick 8 authority 10 (d0 false)).2.
Definition d2 : DState FixedPolicy Counter (World nat) := (run_worker "tool" d1).2.

Lemma d1_worker : is_finished (jobs d1 !! "tool") = false ∧ opt_is_some (jobs d1 !! "tool") = true ∧
  is_finished (jobs d2 !! "tool") = true.
Proof. by vm_compute. Qed.

(** The delivery alone. *)
Definition handed : DState FixedPolicy Counter (World nat) :=
  (deliver_external 8 authority "tool" 1 [asked] (d0 false)).2.

Lemma handed_outcome : (deliver_external 8 authority "tool" 1 [asked] (d0 false)).1 = Done (Some 0%N).
Proof. by vm_compute. Qed.

Lemma handed_running : opt_is_some (jobs handed !! "tool") = true.
Proof. by vm_compute. Qed.
Lemma handed_worker : is_Some (jobs handed !! "tool").
Proof. pose proof handed_running. by destruct (jobs handed !! "tool"). Qed.

(** The component traps. *)
Definition trap : RuntimeError := rt_trap "trap".
Definition withdrawn : DState FixedPolicy Counter (World nat) :=
  (quarantine 8 "tool" 1 [asked] trap (d0 false)).2.

Lemma withdrawn_outcome : (quarantine 8 "tool" 1 [asked] trap (d0 false)).1 = Done tt.
Proof. by vm_compute. Qed.

(** The component runs out of memory, for the third time at this request. *)
Definition memory : ResourceExhaustion :=
  mkResourceExhaustion "memory" 100 200 150 "handle" None None.
Definition exhausted : RuntimeError := rt_resource_limit memory "out of memory".
Definition tired : DState FixedPolicy Counter (World nat) :=
  (dt_update (on_backoff <[request_key "tool" "" := (2%N, 5%Z)]>) (d0 false)).2.
Definition skipped : DState FixedPolicy Counter (World nat) :=
  (defer_delivery "tool" [asked] exhausted tired).2.

Lemma skipped_outcome : (defer_delivery "tool" [asked] exhausted tired).1 = Done tt.
Proof. by vm_compute. Qed.

(** The component talks: a delivery that finds nothing starts a worker. *)
Definition talked : DState FixedPolicy Counter (World nat) :=
  (spawn_worker "tool" [] Flushing (d0 true)).2.

Lemma talked_outcome : (spawn_worker "tool" [] Flushing (d0 true)).1 = Done (Some 0%N).
Proof. by vm_compute. Qed.
End AgentDeliverSample.
Import Sample Codec RouterSample AgentSample AgentDeliverSample.

Lemma one_task_per_component_witness :
  is_finished (jobs d2 !! "tool") = true ∧
  (∀ id, is_Some (jobs d2 !! id) ↔ is_Some (workers (agent_at d2) !! id)) ∧
  (∀ id, is_Some (instances (agent_at d2) !! id) → jobs d2 !! id = None) ∧
  workers_with "capability.requested" (agent_at d2) ≤ 4 ∧
  workers_with "model.requested" (agent_at d2) ≤ 5.
Proof.
  split; [apply d1_worker|].
  apply (one_task_per_component 8 authority (d0 false) d2); [reflexivity|reflexivity|].
  apply rtc_l with d1; [apply step_tick|]. apply rtc_once, step_worker.
Defined.

Lemma worker_admitted_witness :
  (∃ rs, admit_attempt 8 router asked "tool" rs = (Return true, rstate (base_state handed))) ∧
  ("capability.requested" = "capability.requested" → allowed_now authority asked "tool" (tool_agent false)) ∧
  workers (agent_at handed) !! "tool" = Some [asked].
Proof.
  apply (worker_admitted 8 authority "tool" 1 asked (d0 false) handed);
    [reflexivity|reflexivity|exact (pair_of_fst _ _ handed_outcome)|exact handed_worker].
Defined.

Lemma trap_withdraws_witness :
  instances (agent_at withdrawn) = delete "tool" (instances (tool_agent false)) ∧
  failed (agent_at withdrawn) = <["tool" := "trap"]> ∅ ∧
  registrations (ag_router (agent_at withdrawn)) = registrations (unregister "tool" router) ∧
  workers (agent_at withdrawn) = ∅ ∧
  (∀ fuel' (a : FixedResolver), deliver fuel' a "tool" withdrawn = (Done None, withdrawn)).
Proof.
  apply (trap_withdraws 8 "tool" 1 [asked] trap (d0 false) withdrawn);
    [reflexivity|exact (pair_of_fst _ _ withdrawn_outcome)].
Defined.

Lemma exhausted_request_skipped_witness :
  "tool" ∈ reduced_batches (agent_at skipped) ∧
  backoff (agent_at skipped) !! request_key "tool" "" = None ∧
  skipped_with_report "tool" asked tired skipped.
Proof.
  apply (exhausted_request_skipped "tool" asked exhausted memory tired skipped);
    [reflexivity|exact (pair_of_fst _ _ skipped_outcome)].
Defined.

Lemma background_output_race_witness :
  jobs talked !! "tool" ≠ None ∧
  (deliver_each 8 authority ["tool"] (mkProgress 0 0 0 0) talked).1 = Failed (AgentUnknownInstance "tool").
Proof.
  apply (background_output_race 8 authority "tool" (d0 true) talked);
    [exact (pair_of_fst _ _ talked_outcome)|by vm_compute].
Defined.
