(* ===== verification/HostSample.v ===== *)
(** The host and an instance on a concrete database: the theorems of
    [HostSpec] and [InstanceSpec] applied where their hypotheses hold. *)
From stdpp Require Import base tactics countable option list strings gmap.
From Stdlib Require Import ZArith NArith Lia Ascii.
From S2P Require Import Prelude Event EventStore Registry Blob Delivery Stores Utf8 Sqlite SqliteLog SqliteState SqliteDelivery SqliteSpec SqliteStores Json Manifest Host Imports HostSpec Instance InstanceSpec.

Module HostSample.
Import Sample Codec.

#[export] Instance sample_blobs : BlobStore MemoryBlobs := memory_blob_store zero_digest 1000.
#[export] Instance sample_host_codec : HostCodec := {|
  resource_from_slice _ := None;
  u64_from_slice b := parse_u64 (String.string_of_list_byte b);
|}.
#[export] Instance sample_clock : SystemClock := {| elapsed_ms n := (1000 + n)%N |}.

Lemma codec_reads_u64 n :
  u64_range n → u64_from_slice (String.list_byte_of_string (u64_to_string n)) = Ok n.
Proof.
  intros Hn. unfold u64_from_slice, sample_host_codec. rewrite String.string_of_list_byte_of_string. by apply parse_u64_to_string.
Qed.

Definition provenance : Host.Delivery :=
  mkDelivery "tool" (mkPrincipalRef Agent "agent") (mkPrincipalRef Component "tool")
    "authority" "activity" "correlation" "origin" 0 None [].

Definition host0 : HostState :=
  host_new 1000 provenance (mkPluginServices None None None None None)
    ["capability.output"; "memory.*"].

Definition text : bytes := default [] (result_ok (to_vec Null)).
Definition output_proposal (key : string) : Proposal :=
  mkProposal "capability.output" "output" (CanonicalJson text) (Some key) None.

Definition s0 : HostWorld (World nat) MemoryBlobs := mkHostWorld host0 w1 empty_blobs 0.

(** Appends an event, stores a blob and reads it back. *)
Definition program : Guest unit :=
  Call (EventsAppend (output_proposal "out")) (λ _,
    Call (BlobsPut "text/plain" [Byte.x41]) (λ r,
      match r with
      | Ok b => Call (BlobsRead b 0 10) (λ _, Return tt)
      | Err _ => Return tt
      end)).

Lemma program_typed : guest_typed (λ _, True) program.
Proof. split; [done|]. intros a. split; [done|]. by intros [b|e]. Qed.

Lemma s0_inv : es_inv (store s0).
Proof. apply reachable_wf, w1_reachable. Qed.

Lemma s0_inbox : inbox_ok s0.
Proof. intros batch e H. by apply not_elem_of_nil in H. Qed.

Lemma program_outcome :
  length (es_log (store (run_guest program s0).2)) = 2 ∧
  existsb (λ x, match asked x with BlobsRead _ _ _ => true | _ => false end)
    (run_guest program s0).1.2 = true.
Proof. by vm_compute. Qed.

Definition stored_ref : BlobRef :=
  mkBlobRef "sha256" (sha256_hex zero_digest [Byte.x41]) 1 "text/plain".

Lemma program_reads :
  ∃ x, (run_guest program s0).1.2 !! 2 = Some x ∧ read_content x stored_ref.
Proof. eexists. split; [by vm_compute|]. by vm_compute. Qed.

(** An instance and a handler that records what it saw. *)
Definition c0 : InstanceCore (World nat) MemoryBlobs :=
  mkCore s0 "tool" (cursor_of provenance) 0 [] false None false.

Definition handler (cx : Context_) (batch : list WitEvent) : Guest (result GuestOutcome WitError) :=
  Return (Ok (mkGuestOutcome [] [MutationSet "seen" []] (Some 1%N))).

Lemma handler_typed cx batch : guest_typed reply_typed (handler cx batch).
Proof. intros o [= <-]. split; [done|]. by intros n [= <-]. Qed.

Lemma c0_wf : wf_core c0.
Proof. split; [apply s0_inv| | | | |]; by vm_compute. Qed.

Lemma handle_outcome : (handle handler [e1] c0).1 = Ok (mkOutcome [] 1).
Proof. by vm_compute. Qed.

Definition trapping (cx : Context_) (batch : list WitEvent) : Guest (result GuestOutcome WitError) :=
  Trap "unreachable".

Lemma trap_outcome : (handle trapping [e1] c0).1 = Err (rt_trap "handle trapped: unreachable").
Proof. by vm_compute. Qed.

(** A log with an event of the component itself. *)
Definition remembered : AppendRequest :=
  mkAppendRequest "agent" StreamAgent None "memory.remembered" "memory" (CanonicalJson text)
    (mkPrincipalRef Component "tool") None None None None None.
Definition w2 : World nat := run_call (CallAppend remembered) w1.
Definition e2 : CommittedEvent :=
  mkCommittedEvent COMMITTED_EVENT_SCHEMA "x" 2 1000 remembered.
Definition c2 : InstanceCore (World nat) MemoryBlobs :=
  mkCore (mkHostWorld host0 w2 empty_blobs 0) "tool" (cursor_of provenance) 0 [] false None false.

Definition replayer (before : list (list WitEvent)) (cx : Context_) (batch : list WitEvent)
    : Guest (result GuestOutcome WitError) :=
  Return (Ok (mkGuestOutcome [] [MutationSet "seen" []]
    ((λ e, N.min u64_max (wit_sequence e)) <$> last batch))).

Lemma w2_log : event_log (db w2) = [e1; e2].
Proof. by vm_compute. Qed.

Lemma c2_wf : wf_core c2.
Proof.
  split; [apply reachable_wf, reach_call; [apply w1_reachable|done]| | | | |]; by vm_compute.
Qed.

Lemma rebuild_outcome :
  (rebuild 5 replayer ["memory.remembered"] c2).1 = Ok [[e2]].
Proof. by vm_compute. Qed.
End HostSample.
Import Sample Codec HostSample.

Lemma proposal_accepted_iff_witness :
  append_request host0 (output_proposal "k") (Some "origin") None
    = Ok (stamp host0 (output_proposal "k") (Some "origin") None (CanonicalJson text)) ∧
  append_request host0 (mkProposal "policy.decision" "" (CanonicalJson text) None None)
    (Some "origin") None ≠ Ok (stamp host0 (mkProposal "policy.decision" "" (CanonicalJson text)
      None None) (Some "origin") None (CanonicalJson text)).
Proof.
  split.
  - apply (proposal_accepted_iff host0 (output_proposal "k") (Some "origin") None); [done|].
    split; [done|]. split; [left; by eexists|]. split; [by vm_compute|].
    split; [|split; [done|by vm_compute]].
    intros b (v & m & Hv & Ho & _) _. exfalso. vm_compute in Hv. injection Hv as <-.
    inversion Ho.
  - intros H. apply (proposal_accepted_iff host0) in H; [|done].
    destruct H as (_ & _ & _ & _ & _ & H). by vm_compute in H.
Defined.

Lemma guest_confined_witness : confined s0 (run_guest program s0).2.
Proof.
  apply (guest_confined (λ _, True) program s0 (run_guest program s0).1.1
    (run_guest program s0).1.2); [apply s0_inv|apply program_typed|].
  by destruct (run_guest program s0) as [[] ?].
Defined.

Lemma guest_reads_confined_witness :
  stored_ref ∈ h_visible_blobs (host s0) ∨
  (∃ y, y ∈ take 2 (run_guest program s0).1.2 ∧ stored y stored_ref) ∨
  handed (run_guest program s0).2 stored_ref.
Proof.
  destruct program_reads as (x & Hx & Hr).
  apply (guest_reads_confined (λ _, True) program s0 (run_guest program s0).1.1
    (run_guest program s0).1.2 (run_guest program s0).2 s0_inv s0_inbox program_typed)
    with (x := x); [|done|done].
  by destruct (run_guest program s0) as [[] ?].
Defined.

Lemma idempotency_key_unscoped_witness :
  actor (request e1) ≠ mkPrincipalRef Component "tool" ∧
  events_append (output_proposal "k") s0 = (Ok 1%N, (events_append (output_proposal "k") s0).2) ∧
  es_log (store (events_append (output_proposal "k") s0).2) = es_log (store s0).
Proof.
  assert (events_append (output_proposal "k") s0
    = (Ok 1%N, (events_append (output_proposal "k") s0).2)) as H.
  { apply pair_of_fst. by vm_compute. }
  split; [done|]. split; [exact H|].
  assert (e1 ∈ es_log (store s0)) as He.
  { change (e1 ∈ event_log (db w1)). rewrite w1_log. by left. }
  exact (proj2 (idempotency_key_unscoped (output_proposal "k") "k" e1 s0
    (events_append (output_proposal "k") s0).2 1 s0_inv I eq_refl He eq_refl eq_refl H)).
Defined.

Lemma handle_transactional_witness :
  confined (c_world c0) (c_world (handle handler [e1] c0).2) ∧
  wf_core (handle handler [e1] c0).2 ∧ c_checkpoint (handle handler [e1] c0).2 = 1%N.
Proof.
  destruct (handle_transactional handler [e1] c0 (handle handler [e1] c0).1
    (handle handler [e1] c0).2 c0_wf eq_refl handler_typed (surjective_pairing _))
    as (Hc & Hw & H).
  rewrite handle_outcome in H. destruct H as (_ & Hk & _). split; [done|]. by split.
Defined.

Lemma trap_refuses_lifecycle_witness :
  skip 1 (handle trapping [e1] c0).2
  = (Err (rt_trap "interrupted lifecycle requires re-instantiation"),
     (handle trapping [e1] c0).2).
Proof.
  apply (trap_refuses_lifecycle trapping [e1] c0 (handle trapping [e1] c0).2
    (rt_trap "handle trapped: unreachable")); [|done].
  apply pair_of_fst, trap_outcome.
Defined.

Lemma rebuild_exactly_once_witness :
  concat [[e2]] = own_events "tool" [e2] ∧
  marker_at (rebuild 5 replayer ["memory.remembered"] c2).2 2.
Proof.
  assert (∀ h cx batch, guest_typed reply_typed (replayer h cx batch)) as Ht.
  { intros h cx batch o [= <-]. split; [done|]. intros n Hn. simpl in Hn.
    destruct (last batch); [|done]. injection Hn as <-. unfold u64_range. lia. }
  assert (rebuild 5 replayer ["memory.remembered"] c2
    = (Ok [[e2]], (rebuild 5 replayer ["memory.remembered"] c2).2)) as H.
  { apply pair_of_fst, rebuild_outcome. }
  assert (es_log (store (c_world c2)) = [e1; e2]) as Hl by apply w2_log.
  destruct (rebuild_exactly_once codec_reads_u64 5 replayer ["memory.remembered"] 0 c2
    (Ok [[e2]]) (rebuild 5 replayer ["memory.remembered"] c2).2)
    as (_ & _ & Hb & Hm); [apply c2_wf|done|done|exact Ht|by rewrite Hl|by vm_compute| |exact H|].
  - rewrite Hl. simpl. lia.
  - rewrite Hl in Hm. split; [done|exact Hm].
Defined.
