(* ===== verification/Plugin.v ===== *)
(** Programs of components: how a plugin's code, which calls the host and
    returns early on errors, is written over the imports, and the loop
    [serve] of the SDK ([pluribus-plugin-sdk/src/run.rs]). *)
From stdpp Require Import base tactics option list strings.
From Stdlib Require Import ZArith NArith Lia Ascii.
From S2P Require Import Prelude Event Host Imports Instance.

(** A fallible program. *)
Definition GM (A : Type) : Type := Guest (result A WitError).

Fixpoint guest_bind {A B} (g : Guest A) (k : A → Guest B) : Guest B :=
  match g with
  | Return a => k a
  | Trap reason => Trap reason
  | Call c f => Call c (λ a, guest_bind (f a) k)
  end.

Definition gm_ret {E A} (a : A) : Guest (result A E) := Return (Ok a).
Definition gm_lift {E A} (r : result A E) : Guest (result A E) := Return r.
(** [?]. *)
Definition gm_bind {E A B} (m : Guest (result A E)) (k : A → Guest (result B E))
    : Guest (result B E) :=
  guest_bind m (λ r, match r with
                     | Ok a => k a
                     | Err e => Return (Err e)
                     end).
Notation "'let*' x := m 'in' k" := (gm_bind m (fun x => k))
  (at level 10, x pattern, m at level 100, k at level 200) : rust_scope.
Notation "'do*' m ; k" := (gm_bind m (fun _ => k))
  (at level 10, m at level 100, k at level 200) : rust_scope.

Definition state_get (key : string) : GM (option bytes) := Call (StateGet key) Return.
Definition state_scan (prefix : string) (after : option string) (limit : N) : GM WitStatePage :=
  Call (StateScan prefix after limit) Return.
Definition get_event (id : string) : GM WitEvent := Call (EventsGet id) Return.
Definition query_events (f : Filter) (limit : N) : GM EventPage := Call (EventsQuery f limit) Return.
Definition commit_source (events : list Proposal) (ms : list Mutation) (checkpoint : option N)
    : GM unit := Call (RuntimeCommit events ms checkpoint) Return.

(** A program's failure as a value. *)
Definition gm_try {E F A} (m : Guest (result A E)) : Guest (result (result A E) F) :=
  guest_bind m gm_ret.
Definition gm_map_err {E F A} (f : E → F) (m : Guest (result A E)) : Guest (result A F) :=
  guest_bind m (λ r, Return (map_err f r)).

Definition with_checkpoint (o : GuestOutcome) (context : Context_) : Context_ :=
  match o_checkpoint o with
  | Some k => mkContext (cx_instance_id context) (cx_agent context) k (cx_depth context)
                (cx_deadline_at_ms context)
  | None => context
  end.

(** [serve]: deliveries to a component without a source loop of its own;
    [fuel] bounds their number. *)
Fixpoint serve (fuel : nat) (handle : Context_ → list WitEvent → GM GuestOutcome)
    (context : Context_) : GM unit :=
  match fuel with
  | O => Trap "interrupted"
  | S fuel =>
      let* wake := Call RuntimeNext Return in
      match wake with
      | WakeStop _ => gm_ret tt
      | WakeEvents events =>
          let* r := gm_try (handle context events) in
          match r with
          | Ok outcome =>
              do* commit_source (o_events outcome) (o_mutations outcome) (o_checkpoint outcome);
              serve fuel handle (with_checkpoint outcome context)
          | Err error =>
              do* Call (RuntimeReject error) Return;
              serve fuel handle context
          end
      end
  end.

(** The values a program can return, over all the answers it may get. *)
Fixpoint returns {A} (g : Guest A) (a : A) : Prop :=
  match g with
  | Return x => a = x
  | Trap _ => False
  | Call c k => ∃ ans, returns (k ans) a
  end.

Lemma returns_bind {A B} (g : Guest A) (k : A → Guest B) b :
  returns (guest_bind g k) b → ∃ a, returns g a ∧ returns (k a) b.
Proof.
  induction g as [a|reason|c f IH]; simpl.
  - intros H. by exists a.
  - done.
  - intros (ans & H). destruct (IH ans H) as (a & H1 & H2). exists a. split; [by exists ans|done].
Qed.

(** A program that returns a value got one from its first part. *)
Lemma returns_gm_bind {E A B} (m : Guest (result A E)) (k : A → Guest (result B E)) b :
  returns (gm_bind m k) (Ok b) → ∃ a, returns m (Ok a) ∧ returns (k a) (Ok b).
Proof.
  unfold gm_bind. intros ([a|e] & H1 & H2)%returns_bind; [by exists a|]. simpl in H2. done.
Qed.
