(* ===== verification/Memory.v ===== *)
(** The memory plugin, [plugins/memory/src]: the engine over its key-value
    store ([engine.rs]) and the component that runs it ([component.rs]).

    The trait [Store] is a class of programs over the host's imports.  An
    engine is its configuration, its instance and the map of changes a
    delivery has made so far; an operation reads the changes before the
    store.  SHA-256, lower-casing and the derived decoders of [serde] are
    parameters; serializing a [Value] does not fail. *)
From stdpp Require Import base tactics option list strings sorting.
From Stdlib Require Import ZArith NArith Lia Ascii.
From S2P Require Import Prelude Event Blob Delivery Utf8 Json Host Imports Instance Plugin.

(** ** Data *)

Definition KINDS : list string := ["fact"; "preference"; "belief"; "goal"; "procedure"].

Record Config : Type := mkConfig {
  max_records : N;
  max_content_bytes : N;
  max_sources : N;
  max_result_bytes : N;
  max_results : N;
}.

Definition default_config : Config := mkConfig 10000 4096 16 16384 20.

(** [Config::validate]. *)
Definition config_validate (c : Config) : result unit string :=
  if (max_records c =? 0)%N || (10000 <? max_records c)%N
     || (max_content_bytes c =? 0)%N || (4096 <? max_content_bytes c)%N
     || (max_sources c =? 0)%N || (16 <? max_sources c)%N
     || (max_result_bytes c <? 256)%N || (16384 <? max_result_bytes c)%N
     || (max_results c =? 0)%N || (20 <? max_results c)%N
  then Err "invalid-argument" else Ok tt.

(** [Record]. *)
Record MemoryRecord : Type := mkRecord {
  r_id : string;
  r_kind : string;
  r_content : string;
  r_scope : string;
  r_sources : list string;
  r_basis : string;
  r_created_at_ms : Z;
  r_supersedes : option string;
  r_expires_at_ms : option Z;
}.

Record StoredRecord : Type := mkStored {
  stored_record : MemoryRecord;
  stored_root : string;
  stored_terms : list string;
}.

Record Change : Type := mkChange {
  operation_id : string;
  ch_digest : string;
  ch_receipt : Value;
  ch_record : option StoredRecord;
  forgotten_root : option string;
}.

#[export] Instance memory_record_eq_dec : EqDecision MemoryRecord.
Proof. solve_decision. Defined.
#[export] Instance stored_record_eq_dec : EqDecision StoredRecord.
Proof. solve_decision. Defined.

Definition strs (l : list string) : Value := Array (Str <$> l).

(** The derived [Serialize]. *)
Definition record_to_value (r : MemoryRecord) : Value :=
  object [("id", Str (r_id r)); ("kind", Str (r_kind r)); ("content", Str (r_content r));
          ("scope", Str (r_scope r)); ("sources", strs (r_sources r)); ("basis", Str (r_basis r));
          ("createdAtMs", num_i64 (r_created_at_ms r)); ("supersedes", opt_str (r_supersedes r));
          ("expiresAtMs", opt_num_i64 (r_expires_at_ms r))].
Definition stored_to_value (s : StoredRecord) : Value :=
  object [("record", record_to_value (stored_record s)); ("root", Str (stored_root s));
          ("terms", strs (stored_terms s))].
Definition change_to_value (c : Change) : Value :=
  object [("operationId", Str (operation_id c)); ("digest", Str (ch_digest c));
          ("receipt", ch_receipt c);
          ("record", match ch_record c with Some s => stored_to_value s | None => Null end);
          ("forgottenRoot", opt_str (forgotten_root c))].

(** What the plugin's libraries compute. *)
Class MemoryLibs : Type := {
  memory_sha256 : bytes → bytes;
  to_lowercase : string → string;
  stored_from_value : Value → result StoredRecord string;
  change_from_value : Value → result Change string;
  config_from_slice : bytes → result Config string;
}.

(** ** Text *)

(** [s.split(|c| !c.is_alphanumeric()).filter(|s| !s.is_empty())]. *)
Fixpoint split_words `{UnicodeTables} (cs word : list N) : list string :=
  let flush := if bool_decide (word = []) then [] else [str_of_chars word] in
  match cs with
  | [] => flush
  | c :: cs => if is_alphanumeric c then split_words cs (word ++ [c])
               else flush ++ split_words cs []
  end.

(** Collecting into a [BTreeSet]. *)
Definition btree_set (l : list string) : list string := merge_sort String.le (remove_dups l).

Definition terms `{UnicodeTables} `{MemoryLibs} (text : string) : list string :=
  btree_set (split_words (chars (to_lowercase text)) []).

(** ** Arguments *)

Definition refuse : string := "invalid-argument".

Definition only (value : Value) (fields : list string) : result unit string :=
  let? object := ok_or (as_object value) refuse in
  if existsb (λ k, negb (str_mem k fields)) object.*1 then Err refuse else Ok tt.

Definition bounded_text (max : N) (v : Value) : result string string :=
  match as_str v with
  | Some s => if negb (trim_is_empty s) && (str_len s <=? max)%N then Ok s else Err refuse
  | None => Err refuse
  end.

(** [string]. *)
Definition string_arg (args : Value) (field : string) (max : N) : result string string :=
  bounded_text max (value_index args field).

Definition strings (args : Value) (field : string) (max max_bytes : N)
    : result (list string) string :=
  match as_array (value_index args field) with
  | Some values =>
      if negb (bool_decide (values = [])) && (len values <=? max)%N then
        try_fold (λ result value,
          let? s := bounded_text max_bytes value in
          if str_mem s result then Err refuse else Ok (result ++ [s])) [] values
      else Err refuse
  | None => Err refuse
  end.

Definition number (args : Value) (field : string) (default max : N) : result N string :=
  match value_get args field with
  | None => Ok default
  | Some value =>
      match as_u64 value with
      | Some n => if (0 <? n)%N && (n <=? max)%N then Ok n else Err refuse
      | None => Err refuse
      end
  end.

(** ** Keys *)

Section hash.
Context {SJ : SerdeJson} {ML : MemoryLibs}.

Definition value_bytes (v : Value) : bytes := default [] (result_ok (to_vec v)).
Definition hash (v : Value) : string := sha256_hex memory_sha256 (value_bytes v).
Definition key (prefix id : string) : string := prefix +:+ "/" +:+ hash (Str id).
End hash.

(** ** The engine *)

Definition EM (A : Type) : Type := Guest (result A string).

(** The trait [Store]. *)
Class Store : Type := {
  st_get : string → EM (option Value);
  st_scan : string → option string → N → EM (list (string * Value));
}.

Abbreviation Changes := (list (string * Value)).

Section engine.
Context {SJ : SerdeJson} {UT : UnicodeTables} {ML : MemoryLibs} {ST : Store}.
Context (config : Config) (instance : string).

(** [Engine::get]. *)
Definition engine_get (changes : Changes) (k : string) : EM (option Value) :=
  match map_get k changes with
  | Some v => gm_ret (Some v)
  | None => st_get k
  end.

(** [Engine::record]. *)
Definition engine_record (changes : Changes) (id : string) : EM (option StoredRecord) :=
  let* v := engine_get changes (key "record" id) in
  gm_lift (match v with
           | None => Ok None
           | Some v => map_err (λ _, "storage-error") (result_map Some (stored_from_value v))
           end).

Definition current (changes : Changes) (s : StoredRecord) : EM bool :=
  let* head := engine_get changes (key "head" (stored_root s)) in
  gm_ret (is_some_and head (λ v, value_eqb v (Str (r_id (stored_record s))))).

Definition unexpired (r : MemoryRecord) (now : Z) : bool :=
  is_none_or (r_expires_at_ms r) (λ expiry, now <? expiry)%Z.

(** [Engine::active]. *)
Definition is_active (changes : Changes) (s : StoredRecord) (scope : string) (now : Z) : EM bool :=
  if String.eqb (r_scope (stored_record s)) scope then
    let* c := current changes s in
    gm_ret (c && unexpired (stored_record s) now)
  else gm_ret false.

Definition within (value : Value) (limit : N) : result Value string :=
  let? b := map_err (λ _, "storage-error") (to_vec value) in
  if (limit <? len b)%N then Err "result-too-large" else Ok value.

(** The walk along [supersedes]; [room] is how many ids may still be added
    before there are more than [max_records]. *)
Fixpoint chain (changes : Changes) (room : nat) (next : option string) (ids : list string)
    : EM (list string) :=
  match next with
  | None => gm_ret ids
  | Some id =>
      let* found := engine_record changes id in
      let* s := gm_lift (ok_or found "storage-error") in
      match room with
      | O => gm_lift (Err "storage-error")
      | S room => chain changes room (r_supersedes (stored_record s)) (ids ++ [id])
      end
  end.

Definition forgotten_receipt (ids : list string) : Value := object [("forgottenIds", strs ids)].

Definition engine_count (changes : Changes) : EM N :=
  let* v := engine_get changes "count" in gm_ret (default 0%N (v ≫= as_u64)).

(** [Engine::apply]: the changes after it. *)
Definition apply (changes : Changes) (c : Change) : EM Changes :=
  let op_key := key "operation" (operation_id c) in
  let* existing := engine_get changes op_key in
  match existing with
  | Some v =>
      if bool_decide (as_str (value_index v "digest") = Some (ch_digest c))
         && value_eqb (value_index v "receipt") (ch_receipt c)
      then gm_ret changes
      else gm_lift (Err "operation-conflict")
  | None =>
      let* changes :=
        match ch_record c with
        | None => gm_ret changes
        | Some s =>
            let* n := engine_count changes in
            let changes := map_insert "count" (num_u64 ((n + 1) mod (u64_max + 1))) changes in
            let changes := map_insert (key "record" (r_id (stored_record s))) (stored_to_value s)
                             changes in
            gm_ret (map_insert (key "head" (stored_root s)) (Str (r_id (stored_record s))) changes)
        end in
      let changes :=
        match forgotten_root c with
        | Some root => map_insert (key "head" root) Null changes
        | None => changes
        end in
      gm_ret (map_insert op_key
                (object [("digest", Str (ch_digest c)); ("receipt", ch_receipt c)]) changes)
  end.

(** *** Writes *)

Definition write_fields (operation : string) : list string :=
  if String.eqb operation "forget" then ["scope"; "operationId"; "expectedId"]
  else ["scope"; "operationId"; "kind"; "content"; "sources"; "basis"; "expiresAtMs"]
       ++ (if String.eqb operation "supersede" then ["expectedId"] else []).

(** The record a correction replaces or a removal forgets. *)
Definition expected_head (changes : Changes) (args : Value) (scope : string) : EM StoredRecord :=
  let* id := gm_lift (string_arg args "expectedId" 512) in
  let* found := engine_record changes id in
  let* old := gm_lift (ok_or found "conflict") in
  if negb (String.eqb (r_scope (stored_record old)) scope) then gm_lift (Err "conflict")
  else
    let* c := current changes old in
    if c then gm_ret old else gm_lift (Err "conflict").

Definition expiry_arg (args : Value) (now : Z) : result (option Z) string :=
  match value_get args "expiresAtMs" with
  | None | Some Null => Ok None
  | Some v =>
      match as_i64 v with
      | Some t => if (now <? t)%Z then Ok (Some t) else Err refuse
      | None => Err refuse
      end
  end.

(** [sources.iter().any(|id| !source_readable(id))]. *)
Fixpoint all_readable (readable : string → Guest bool) (sources : list string) : Guest bool :=
  match sources with
  | [] => Return true
  | id :: sources =>
      guest_bind (readable id) (λ ok, if ok then all_readable readable sources else Return false)
  end.

Definition record_id (operation_id : string) : string :=
  "memory:" +:+ hash (Array [Str instance; Str operation_id]).

Definition write_receipt (id : string) (predecessor : option string) : Value :=
  match predecessor with
  | Some previous => object [("id", Str id); ("supersedes", Str previous)]
  | None => object [("id", Str id)]
  end.

(** The new record of [remember] and [supersede]. *)
Definition write_record (changes : Changes) (args : Value) (scope operation_id : string)
    (old : option StoredRecord) (now : Z) (readable : string → Guest bool)
    : EM (Value * StoredRecord) :=
  let* count := engine_count changes in
  if (max_records config <=? count)%N then gm_lift (Err "capacity-exceeded")
  else
    let* kind := gm_lift (string_arg args "kind" 32) in
    if negb (str_mem kind KINDS) then gm_lift (Err refuse)
    else
      let* content := gm_lift (string_arg args "content" (max_content_bytes config)) in
      let* basis := gm_lift (string_arg args "basis" 16) in
      if negb (str_mem basis ["explicit"; "inferred"]) then gm_lift (Err refuse)
      else
        let* sources := gm_lift (strings args "sources" (max_sources config) 256) in
        let* expires := gm_lift (expiry_arg args now) in
        let* ok := guest_bind (all_readable readable sources) gm_ret in
        if negb ok then gm_lift (Err "source-unavailable")
        else
          let id := record_id operation_id in
          let predecessor := (λ s, r_id (stored_record s)) <$> old in
          let* ids := chain changes (N.to_nat (max_records config) - 1) predecessor [id] in
          do* gm_lift (within (forgotten_receipt ids) (max_result_bytes config));
          gm_ret (write_receipt id predecessor,
            mkStored
              (mkRecord id kind content scope sources basis now predecessor expires)
              (match old with Some s => stored_root s | None => id end)
              (terms content)).

(** The writing arm of [Engine::execute]. *)
Definition execute_write (changes : Changes) (operation : string) (args : Value) (scope : string)
    (now : Z) (readable : string → Guest bool) : EM (Value * option Change * Changes) :=
  do* gm_lift (only args (write_fields operation));
  let* operation_id := gm_lift (string_arg args "operationId" 128) in
  let digest := hash (Array [Str operation; args]) in
  let* done := engine_get changes (key "operation" operation_id) in
  match done with
  | Some receipt =>
      if bool_decide (as_str (value_index receipt "digest") = Some digest)
      then gm_ret (value_index receipt "receipt", None, changes)
      else gm_lift (Err "operation-conflict")
  | None =>
      let* old := (if String.eqb operation "remember" then gm_ret None
                   else let* s := expected_head changes args scope in gm_ret (Some s)) in
      let* written :=
        match old, String.eqb operation "forget" with
        | Some s, true =>
            let* ids := chain changes (N.to_nat (max_records config))
                          (Some (r_id (stored_record s))) [] in
            gm_ret (forgotten_receipt ids, None, Some (stored_root s))
        | _, _ =>
            let* (receipt, s) := write_record changes args scope operation_id old now readable in
            gm_ret (receipt, Some s, None)
        end in
      let '(receipt, record, root) := written in
      let* receipt := gm_lift (within receipt (max_result_bytes config)) in
      let change := mkChange operation_id digest receipt record root in
      let* changes := apply changes change in
      gm_ret (receipt, Some change, changes)
  end.

(** *** Reads *)

(** [Engine::read_ids]. *)
Fixpoint read_each (changes : Changes) (scope : string) (now : Z) (ids : list string)
    (records : list MemoryRecord) (unavailable : list string)
    : EM (list MemoryRecord * list string) :=
  match ids with
  | [] => gm_ret (records, unavailable)
  | id :: ids =>
      let* found := engine_record changes id in
      let* ok := (match found with
                  | Some s => is_active changes s scope now
                  | None => gm_ret false
                  end) in
      match found, ok with
      | Some s, true => read_each changes scope now ids (records ++ [stored_record s]) unavailable
      | _, _ => read_each changes scope now ids records (unavailable ++ [id])
      end
  end.

Definition read_ids (changes : Changes) (args : Value) (scope : string) (now : Z) : EM Value :=
  do* gm_lift (only args ["ids"; "scope"]);
  let* ids := gm_lift (strings args "ids" (max_results config) 512) in
  let* (records, unavailable) := read_each changes scope now ids [] [] in
  gm_lift (within (object [("records", Array (record_to_value <$> records));
                           ("unavailableIds", strs unavailable)])
             (max_result_bytes config)).

Abbreviation Candidate := (MemoryRecord * list string)%type.

(** [Engine::candidate]: the candidates after one stored value. *)
Definition candidate (changes : Changes) (value : Value) (query : list string) (scope : string)
    (kinds : list string) (now : Z) (found : list Candidate) : EM (list Candidate) :=
  let* s := gm_lift (map_err (λ _, "storage-error") (stored_from_value value)) in
  let* ok := is_active changes s scope now in
  if negb ok || (negb (bool_decide (kinds = [])) && negb (str_mem (r_kind (stored_record s)) kinds))
  then gm_ret found
  else
    let matched := List.filter (λ t, str_mem t (stored_terms s)) query in
    gm_ret (if bool_decide (matched = []) then found else found ++ [(stored_record s, matched)]).

Fixpoint candidates_of (changes : Changes) (query : list string) (scope : string)
    (kinds : list string) (now : Z) (values : list Value) (found : list Candidate)
    : EM (list Candidate) :=
  match values with
  | [] => gm_ret found
  | v :: values =>
      let* found := candidate changes v query scope kinds now found in
      candidates_of changes query scope kinds now values found
  end.

(** The pages of the store; [fuel] bounds their number. *)
Fixpoint scan_candidates (fuel : nat) (changes : Changes) (query : list string) (scope : string)
    (kinds : list string) (now : Z) (after : option string) (found : list Candidate)
    : EM (list Candidate) :=
  match fuel with
  | O => Trap "interrupted"
  | S fuel =>
      let* page := st_scan "record/" after 100 in
      match last page with
      | None => gm_ret found
      | Some (k, _) =>
          let* found := candidates_of changes query scope kinds now
            ((λ '(k, v), default v (map_get k changes)) <$> page) found in
          scan_candidates fuel changes query scope kinds now (Some k) found
      end
  end.

(** The records of this delivery that the store does not have. *)
Fixpoint new_candidates (changes : Changes) (query : list string) (scope : string)
    (kinds : list string) (now : Z) (rest : Changes) (found : list Candidate)
    : EM (list Candidate) :=
  match rest with
  | [] => gm_ret found
  | (k, v) :: rest =>
      let* found :=
        (if starts_with "record/" k then
           let* stored := st_get k in
           if opt_is_some stored then gm_ret found
           else candidate changes v query scope kinds now found
         else gm_ret found) in
      new_candidates changes query scope kinds now rest found
  end.

(** The order of [sort_by]. *)
Definition ranks (a b : Candidate) : Prop :=
  let '(r, t) := a in let '(r', t') := b in
  length t' < length t ∨
  (length t' = length t ∧
   ((r_created_at_ms r' < r_created_at_ms r)%Z ∨
    (r_created_at_ms r' = r_created_at_ms r ∧ String.le (r_id r) (r_id r')))).
#[export] Instance ranks_dec a b : Decision (ranks a b).
Proof. destruct a as [r t], b as [r' t']. unfold ranks. apply _. Defined.

Definition hit (c : Candidate) : Value :=
  object [("record", record_to_value (c.1)); ("matchedTerms", strs (c.2))].
Definition recall_output (records : list Value) (truncated : bool) (sequence : N) : Value :=
  object [("records", Array records); ("truncated", Bool truncated);
          ("asOfSequence", num_u64 sequence)].

(** The hits that fit in [bytes]. *)
Fixpoint fill (bytes sequence : N) (hits : list Candidate) (records : list Value)
    : result (list Value) string :=
  match hits with
  | [] => Ok records
  | c :: hits =>
      let more := records ++ [hit c] in
      if (bytes <? len (value_bytes (recall_output more true sequence)))%N
      then if bool_decide (records = []) then Err "result-too-large" else Ok records
      else fill bytes sequence hits more
  end.

(** [Engine::recall]. *)
Definition recall (fuel : nat) (changes : Changes) (args : Value) (scope : string) (now : Z)
    (sequence : N) : EM Value :=
  do* gm_lift (only args ["query"; "scope"; "kinds"; "limit"; "maxBytes"]);
  let* text := gm_lift (string_arg args "query" 512) in
  let query := terms text in
  let* limit := gm_lift (number args "limit" (N.min 8 (max_results config)) (max_results config)) in
  let* bytes := gm_lift (number args "maxBytes" (N.min 6000 (max_result_bytes config))
                           (max_result_bytes config)) in
  let* kinds := gm_lift (if opt_is_some (value_get args "kinds")
                         then strings args "kinds" (len KINDS) 32 else Ok []) in
  if existsb (λ k, negb (str_mem k KINDS)) kinds then gm_lift (Err refuse)
  else
    let* found := scan_candidates fuel changes query scope kinds now None [] in
    let* found := new_candidates changes query scope kinds now changes found in
    let sorted := merge_sort ranks found in
    let* records := gm_lift (fill bytes sequence (take (N.to_nat limit) sorted) []) in
    gm_lift (within (recall_output records (len records <? len sorted)%N sequence) bytes).

(** [Engine::execute]: the answer, what changed, and the changes after it. *)
Definition execute (fuel : nat) (changes : Changes) (operation : string) (args : Value) (now : Z)
    (sequence : N) (readable : string → Guest bool) : EM (Value * option Change * Changes) :=
  let* scope := gm_lift (string_arg args "scope" 256) in
  if String.eqb operation "recall" then
    let* v := recall fuel changes args scope now sequence in gm_ret (v, None, changes)
  else if String.eqb operation "get" then
    let* v := read_ids changes args scope now in gm_ret (v, None, changes)
  else if str_mem operation ["remember"; "supersede"; "forget"] then
    execute_write changes operation args scope now readable
  else gm_lift (Err refuse).
End engine.

(** ** The component *)

Section component.
Context {SJ : SerdeJson} {UT : UnicodeTables} {ML : MemoryLibs}.

(** [HostStore::get]. *)
Definition host_get (key : string) : EM (option Value) :=
  let* found := gm_map_err error_message (state_get key) in
  gm_lift (match found with
           | None => Ok None
           | Some b => result_map Some (from_slice b)
           end).

(** [HostStore::scan]. *)
Definition host_scan (prefix : string) (after : option string) (limit : N)
    : EM (list (string * Value)) :=
  let* page := gm_map_err error_message (state_scan prefix after limit) in
  gm_lift (try_map (λ entry, let? v := from_slice (entry_value entry) in
                             Ok (entry_key entry, v)) (wit_entries page)).

(** [HostStore]. *)
#[export] Instance host_store : Store := {| st_get := host_get; st_scan := host_scan |}.

Definition failure (message : string) : WitError := mkWitError Internal message true None.

(** [setup]. *)
Definition setup (config : bytes) : result Config WitError :=
  let? parsed := map_err failure (config_from_slice config) in
  try! map_err failure (config_validate parsed);
  Ok parsed.

Definition memory_payload (e : WitEvent) : result Value WitError :=
  match wit_payload e with
  | CanonicalJson b => map_err failure (from_slice b)
  | Blob _ => Err (failure "JSON required")
  end.

Definition memory_proposal (kind schema : string) (value : Value) (cause : string) : Proposal :=
  {| p_event_type := kind; p_payload_schema := schema;
     p_payload := CanonicalJson (value_bytes value);
     p_idempotency_key := None; p_causation_id := Some cause |}.

Definition CHANGE_TYPES : list string :=
  ["memory.remembered"; "memory.superseded"; "memory.forgotten"].
Definition DOMAIN_CODES : list string :=
  ["invalid-argument"; "source-unavailable"; "unavailable"; "conflict"; "operation-conflict";
   "capacity-exceeded"; "result-too-large"].

Definition change_kind (operation : string) : string :=
  if String.eqb operation "remember" then "remembered"
  else if String.eqb operation "supersede" then "superseded" else "forgotten".

Definition result_schema (operation : string) : string :=
  "dev.pluribus.memory." +:+ operation +:+ ".result/1".

(** What a request adds to the outcome. *)
Definition completed (e : WitEvent) (operation : string) (output : Value) (change : option Change)
    : list Proposal :=
  match change with
  | None => []
  | Some c =>
      [memory_proposal ("memory." +:+ change_kind operation)
         ("dev.pluribus.memory." +:+ change_kind operation +:+ "/1") (change_to_value c)
         (wit_event_id e)]
  end
  ++ [memory_proposal "capability.completed" (result_schema operation)
        (object [("requestEventId", Str (wit_event_id e)); ("output", output)]) (wit_event_id e)].

Definition failed (e : WitEvent) (operation code : string) : Proposal :=
  memory_proposal "capability.failed" (result_schema operation)
    (object [("requestEventId", Str (wit_event_id e)); ("code", Str code); ("message", Str code)])
    (wit_event_id e).

(** The closure [source_readable]. *)
Definition source_readable (before : N) (id : string) : Guest bool :=
  guest_bind (get_event id) (λ r,
    Return (match r with Ok source => wit_sequence source <? before | Err _ => false end)%N).

(** One event of the batch: the changes and the proposals it adds. *)
Definition handle_event (fuel : nat) (config : Config) (context : Context_) (e : WitEvent)
    (changes : Changes) : GM (list Proposal * Changes) :=
  if str_mem (wit_event_type e) CHANGE_TYPES then
    if bool_decide (principal_kind (wit_actor e) = Component)
       && String.eqb (principal_id (wit_actor e)) (cx_instance_id context) then
      let* value := gm_lift (memory_payload e) in
      let* c := gm_lift (map_err failure (change_from_value value)) in
      let* changes := gm_map_err failure (apply changes c) in
      gm_ret ([], changes)
    else gm_ret ([], changes)
  else if negb (String.eqb (wit_event_type e) "capability.requested") then gm_ret ([], changes)
  else
    let* request := gm_lift (memory_payload e) in
    match as_str (value_index request "capability") ≫= strip_prefix "memory." with
    | None => gm_ret ([], changes)
    | Some operation =>
        let* r := gm_try (execute config (cx_instance_id context) fuel changes operation
                            (value_index request "arguments") (wit_recorded_at_ms e)
                            (wit_sequence e) (source_readable (wit_sequence e))) in
        match r with
        | Ok (output, change, changes) => gm_ret (completed e operation output change, changes)
        | Err code =>
            if str_mem code DOMAIN_CODES then gm_ret ([failed e operation code], changes)
            else gm_lift (Err (failure code))
        end
    end.

Fixpoint handle_batch (fuel : nat) (config : Config) (context : Context_) (events : list WitEvent)
    (proposals : list Proposal) (changes : Changes) : GM (list Proposal * Changes) :=
  match events with
  | [] => gm_ret (proposals, changes)
  | e :: events =>
      let* (added, changes) := handle_event fuel config context e changes in
      handle_batch fuel config context events (proposals ++ added) changes
  end.

(** [Guest::handle]. *)
Definition handle (fuel : nat) (config : Config) (context : Context_) (batch : list WitEvent)
    : GM GuestOutcome :=
  let events := take 32 batch in
  let* (proposals, changes) := handle_batch fuel config context events [] [] in
  gm_ret (mkGuestOutcome proposals
    ((λ '(k, v), MutationSet k (value_bytes v)) <$> changes)
    (wit_sequence <$> last events)).

(** [Guest::stop]. *)
Definition stop (context : Context_) (deadline : Z) : GM GuestOutcome :=
  gm_ret (mkGuestOutcome [] [] None).

(** [Guest::run]. *)
Definition run (fuel : nat) (context : Context_) (config : bytes) : GM unit :=
  let* config := gm_lift (setup config) in
  do* Call (RuntimeReady [] []) Return;
  serve fuel (handle fuel config) context.
End component.
