(* ===== verification/MemorySpec.v ===== *)
(** The memory plugin against its contract ([plugins/memory/contract.md]).

    The abstract memory is the history of the changes it accepted, newest
    first: a record, a head and a receipt are what the newest change that
    concerns them says.  The engine's hashed keys represent a history; every
    operation is described by what it does to the history and what it reads
    from it. *)
From stdpp Require Import base tactics countable option list strings sorting gmap.
From Stdlib Require Import ZArith NArith Lia Ascii.
From S2P Require Import Prelude Event Blob Delivery Utf8 Json Host Imports Instance Plugin Memory.

(** ** Running a program that only reads *)

(** The answer to each call, as long as nothing is written. *)
Abbreviation Oracle := (∀ c : HostCall, answer_of c).

Fixpoint run_with {A} (ans : Oracle) (g : Guest A) : result A string :=
  match g with
  | Return a => Ok a
  | Trap reason => Err reason
  | Call c k => run_with ans (k (ans c))
  end.

Lemma run_with_bind {A B} ans (g : Guest A) (k : A → Guest B) :
  run_with ans (guest_bind g k) = result_bind (run_with ans g) (λ a, run_with ans (k a)).
Proof. induction g as [a|r|c f IH]; simpl; [done|done|]. apply IH. Qed.

(** What a fallible program returns; [None] when it is stopped. *)
Definition gives {E A} (ans : Oracle) (g : Guest (result A E)) : option (result A E) :=
  result_ok (run_with ans g).

Lemma gives_bind {E A B} ans (m : Guest (result A E)) (k : A → Guest (result B E)) :
  gives ans (gm_bind m k) =
    match gives ans m with
    | Some (Ok a) => gives ans (k a)
    | Some (Err e) => Some (Err e)
    | None => None
    end.
Proof.
  unfold gives, gm_bind. rewrite run_with_bind.
  destruct (run_with ans m) as [[a|e]|r]; done.
Qed.

Lemma gives_ret {E A} ans (a : A) : gives (E := E) ans (gm_ret a) = Some (Ok a).
Proof. done. Qed.
Lemma gives_lift {E A} ans (r : result A E) : gives ans (gm_lift r) = Some r.
Proof. done. Qed.
Create Rewrite HintDb gives.
#[export] Hint Rewrite @gives_bind @gives_ret @gives_lift : gives.

(** ** Histories *)

Section history.
Implicit Types (h : list Change) (c : Change).

Definition records_of h : list StoredRecord := omap ch_record h.
Definition find_record h (id : string) : option StoredRecord :=
  List.find (λ s, String.eqb (r_id (stored_record s)) id) (records_of h).
Definition find_op h (op : string) : option Change :=
  List.find (λ c, String.eqb (operation_id c) op) h.

(** What a change makes of a root: a new head, or no head any more. *)
Definition touch c (root : string) : option (option string) :=
  match forgotten_root c with
  | Some r => if String.eqb r root then Some None else None
  | None =>
      match ch_record c with
      | Some s => if String.eqb (stored_root s) root then Some (Some (r_id (stored_record s)))
                  else None
      | None => None
      end
  end.
Fixpoint head_of h (root : string) : option (option string) :=
  match h with
  | [] => None
  | c :: h => match touch c root with Some t => Some t | None => head_of h root end
  end.

(** The versions of a root, newest first. *)
Definition versions h (root : string) : list string :=
  (λ s, r_id (stored_record s)) <$>
    List.filter (λ s, String.eqb (stored_root s) root) (records_of h).

(** A record that is neither superseded nor forgotten. *)
Definition is_head h (s : StoredRecord) : bool :=
  bool_decide (head_of h (stored_root s) = Some (Some (r_id (stored_record s)))).
End history.

(** ** The keys of the store *)

Section represented.
Context {SJ : SerdeJson} {UT : UnicodeTables} {ML : MemoryLibs} {ST : Store}.
Context (config : Config) (instance : string).
(** The identifiers that occur: of operations, and of records written or
    named. *)
Context (ids : list string).
Implicit Types (h : list Change) (c : Change) (changes : Changes) (st : gmap string Value).

(** The hashes of the identifiers that occur tell them apart, and so do those
    that make a record's id of its operation's. *)
Definition hashes_distinct : Prop := ∀ a b, a ∈ ids → b ∈ ids →
  (hash (Str a) = hash (Str b) → a = b) ∧
  (hash (Array [Str instance; Str a]) = hash (Array [Str instance; Str b]) → a = b).
(** [from_value(to_value(s)) == s]. *)
Definition memory_codec : Prop := ∀ s,
  stored_terms s = btree_set (stored_terms s) → stored_from_value (stored_to_value s) = Ok s.

Definition op_value c : Value := object [("digest", Str (ch_digest c)); ("receipt", ch_receipt c)].

(** The store as the engine sees it in the middle of a delivery. *)
Definition view st changes (k : string) : option Value :=
  match map_get k changes with Some v => Some v | None => st !! k end.

Record represents (v : string → option Value) h : Prop := {
  rep_record : ∀ id, id ∈ ids → v (key "record" id) = stored_to_value <$> find_record h id;
  rep_head : ∀ root, root ∈ ids → v (key "head" root) = opt_str <$> head_of h root;
  rep_op : ∀ op, op ∈ ids → v (key "operation" op) = op_value <$> find_op h op;
  rep_count : v "count" = if bool_decide (records_of h = []) then None
                          else Some (num_u64 (len (records_of h)));
  rep_keys : ∀ k x, starts_with "record/" k = true → v k = Some x →
    ∃ s, s ∈ records_of h ∧ k = key "record" (r_id (stored_record s));
}.

Lemma key_parts p q id id' : hashes_distinct → id ∈ ids → id' ∈ ids →
  p ∈ ["record"; "head"; "operation"] →
  q ∈ ["record"; "head"; "operation"] → key p id = key q id' ↔ p = q ∧ id = id'.
Proof.
  intros Hh Hi Hi' Hp Hq. split; [|by intros [-> ->]].
  assert (∀ p, key p id = key p id' → id = id') as Hid.
  { intros x. unfold key. intros H%append_inj_l%append_inj_l. exact (proj1 (Hh id id' Hi Hi') H). }
  rewrite !elem_of_cons, elem_of_nil in Hp, Hq.
  destruct Hp as [->|[->|[->|[]]]], Hq as [->|[->|[->|[]]]]; try done;
    intros H; (split; [done|by eapply Hid]).
Qed.

Lemma key_count p id : p ∈ ["record"; "head"; "operation"] → key p id ≠ "count".
Proof. rewrite !elem_of_cons, elem_of_nil. by intros [->|[->|[->|[]]]]. Qed.

(** ** What the engine reads *)

Context (Hhash : hashes_distinct) (Hcodec : memory_codec).
Context (ans : Oracle) (st : gmap string Value).
Context (Hget : ∀ k, gives ans (st_get k) = Some (Ok (st !! k))).

Definition indexed h : Prop := ∀ s, s ∈ records_of h → stored_terms s = btree_set (stored_terms s).

Lemma gives_get changes k : gives ans (engine_get changes k) = Some (Ok (view st changes k)).
Proof. unfold engine_get, view. by destruct (map_get k changes). Qed.

Lemma find_record_elem h id s :
  find_record h id = Some s → s ∈ records_of h ∧ r_id (stored_record s) = id.
Proof.
  unfold find_record. intros [Hs Hid]%List.find_some. apply String.eqb_eq in Hid.
  split; [by apply list_elem_of_In|done].
Qed.

Lemma gives_record changes h id : represents (view st changes) h → indexed h → id ∈ ids →
  gives ans (engine_record changes id) = Some (Ok (find_record h id)).
Proof.
  intros Hr Hi Hid. unfold engine_record. autorewrite with gives. rewrite gives_get, (rep_record _ _ Hr) by done.
  destruct (find_record h id) as [s|] eqn:E; simpl; [|done].
  rewrite Hcodec; [done|]. apply find_record_elem in E as [E _]. by apply Hi.
Qed.

Lemma opt_str_eqb o id : value_eqb (opt_str o) (Str id) = bool_decide (o = Some id).
Proof. destruct o as [x|]; [|done]. apply bool_decide_ext. simpl. split; congruence. Qed.

Lemma gives_current changes h s : represents (view st changes) h → stored_root s ∈ ids →
  gives ans (current changes s) = Some (Ok (is_head h s)).
Proof.
  intros Hr Hroot. unfold current. autorewrite with gives. rewrite gives_get, (rep_head _ _ Hr) by done.
  unfold is_head. destruct (head_of h _) as [o|]; simpl; rewrite gives_ret; [|done].
  rewrite opt_str_eqb. do 2 f_equal. apply bool_decide_ext. split; congruence.
Qed.

(** The record is visible in the scope at the time. *)
Definition visible h (scope : string) (now : Z) (s : StoredRecord) : bool :=
  String.eqb (r_scope (stored_record s)) scope && (is_head h s && unexpired (stored_record s) now).

Lemma gives_active changes h s scope now : represents (view st changes) h → stored_root s ∈ ids →
  gives ans (is_active changes s scope now) = Some (Ok (visible h scope now s)).
Proof.
  intros Hr Hroot. unfold is_active, visible. destruct (String.eqb _ _); [|done].
  autorewrite with gives. by rewrite (gives_current changes h).
Qed.

Lemma gives_count changes h : represents (view st changes) h →
  gives ans (engine_count changes) = Some (Ok (len (records_of h))).
Proof.
  intros Hr. unfold engine_count. autorewrite with gives. rewrite gives_get, (rep_count _ _ Hr).
  case_bool_decide as E; simpl; [by rewrite E|done].
Qed.

(** ** What a change does *)

(** A change writes a record or forgets a root. *)
Definition shaped c : Prop := ch_record c = None ∨ forgotten_root c = None.

Lemma find_record_cons c h id :
  find_record (c :: h) id =
    match ch_record c with
    | Some s => if String.eqb (r_id (stored_record s)) id then Some s else find_record h id
    | None => find_record h id
    end.
Proof. unfold find_record, records_of. simpl. by destruct (ch_record c). Qed.

Lemma records_cons c h :
  records_of (c :: h) = match ch_record c with Some s => s :: records_of h | None => records_of h end.
Proof. done. Qed.

Definition applied changes c h : Changes :=
  let changes :=
    match ch_record c with
    | None => changes
    | Some s =>
        map_insert (key "head" (stored_root s)) (Str (r_id (stored_record s)))
          (map_insert (key "record" (r_id (stored_record s))) (stored_to_value s)
             (map_insert "count" (num_u64 (len (records_of (c :: h)))) changes))
    end in
  let changes :=
    match forgotten_root c with
    | Some root => map_insert (key "head" root) Null changes
    | None => changes
    end in
  map_insert (key "operation" (operation_id c)) (op_value c) changes.

Lemma gives_apply changes c h : represents (view st changes) h → operation_id c ∈ ids →
  find_op h (operation_id c) = None → (ch_record c ≠ None → len (records_of h) < u64_max)%N →
  gives ans (apply changes c) = Some (Ok (applied changes c h)).
Proof.
  intros Hr Hin Hop Hn. unfold apply. autorewrite with gives. rewrite gives_get, (rep_op _ _ Hr), Hop by done.
  cbn [fmap option_fmap option_map]. autorewrite with gives. unfold applied.
  destruct (ch_record c) as [s|] eqn:Es; [|done].
  autorewrite with gives. rewrite (gives_count _ _ Hr). autorewrite with gives.
  rewrite records_cons, Es. specialize (Hn ltac:(done)). rewrite N.mod_small by lia.
  assert (len (s :: records_of h) = len (records_of h) + 1)%N as -> by (unfold len; simpl; lia).
  done.
Qed.

(** A change that is in the history is not applied again. *)
Lemma gives_apply_again changes c h : represents (view st changes) h → operation_id c ∈ ids →
  find_op h (operation_id c) = Some c → gives ans (apply changes c) = Some (Ok changes).
Proof.
  intros Hr Hin Hop. unfold apply. autorewrite with gives. rewrite gives_get, (rep_op _ _ Hr), Hop by done.
  simpl. unfold op_value, value_index. rewrite !object_get. simpl.
  unfold value_eqb. by rewrite !bool_decide_true.
Qed.

Lemma view_insert k v changes k' :
  view st (map_insert k v changes) k' = if String.eqb k' k then Some v else view st changes k'.
Proof. unfold view. rewrite map_get_insert. by destruct (String.eqb k' k). Qed.

Lemma key_eqb p q id id' : id ∈ ids → id' ∈ ids → p ∈ ["record"; "head"; "operation"] →
  q ∈ ["record"; "head"; "operation"] →
  String.eqb (key p id) (key q id') = String.eqb p q && String.eqb id id'.
Proof.
  intros Hi Hi' Hp Hq. pose proof (key_parts p q id id' Hhash Hi Hi' Hp Hq) as H.
  destruct (String.eqb_spec (key p id) (key q id')) as [E|E].
  - apply H in E as [-> ->]. by rewrite !String.eqb_refl.
  - destruct (String.eqb_spec p q), (String.eqb_spec id id'); naive_solver.
Qed.
Lemma key_count_eqb p id : p ∈ ["record"; "head"; "operation"] → String.eqb (key p id) "count" = false.
Proof. intros Hp. by apply String.eqb_neq, key_count. Qed.
Lemma count_key_eqb p id : p ∈ ["record"; "head"; "operation"] → String.eqb "count" (key p id) = false.
Proof. intros Hp. apply String.eqb_neq. intros H. by apply (key_count p id). Qed.

Lemma head_cons c h root :
  head_of (c :: h) root = match touch c root with Some t => Some t | None => head_of h root end.
Proof. done. Qed.

Lemma record_key_head p id : p ∈ ["head"; "operation"] → starts_with "record/" (key p id) = false.
Proof. rewrite !elem_of_cons, elem_of_nil. by intros [->|[->|[]]]. Qed.

(** The identifiers of a change are among those that occur. *)
Definition change_ids c : Prop :=
  operation_id c ∈ ids ∧
  (∀ s, ch_record c = Some s → r_id (stored_record s) ∈ ids ∧ stored_root s ∈ ids) ∧
  (∀ root, forgotten_root c = Some root → root ∈ ids).

Ltac keys := repeat first
  [ rewrite view_insert | rewrite key_eqb by first [done|solve [repeat constructor]]
  | rewrite key_count_eqb by (repeat constructor) | rewrite count_key_eqb by (repeat constructor) ]; simpl.

Lemma applied_represents changes c h : represents (view st changes) h → shaped c → change_ids c →
  represents (view st (applied changes c h)) (c :: h).
Proof.
  intros Hr Hshape (Hop & Hrec & Hroot). unfold applied.
  assert (∀ s, ch_record c = Some s → r_id (stored_record s) ∈ ids) as Hrid by (intros; by apply Hrec).
  assert (∀ s, ch_record c = Some s → stored_root s ∈ ids) as Hrrt by (intros; by apply Hrec). clear Hrec. split.
  - intros id Hin. rewrite find_record_cons.
    destruct (ch_record c) as [s|], (forgotten_root c) as [root|];
      try pose proof (Hrid s eq_refl); try pose proof (Hrrt s eq_refl); try pose proof (Hroot root eq_refl);
      keys; rewrite ?(rep_record _ _ Hr) by done; try done;
      rewrite (String.eqb_sym (r_id _)); by destruct (String.eqb _ _).
  - intros root Hin. rewrite head_cons. unfold touch.
    destruct Hshape as [E|E]; rewrite E;
      [destruct (forgotten_root c) as [x|]; [pose proof (Hroot x eq_refl)|]
      |destruct (ch_record c) as [s|]; [pose proof (Hrid s eq_refl); pose proof (Hrrt s eq_refl)|]];
      keys; rewrite ?(rep_head _ _ Hr) by done; try done; rewrite String.eqb_sym; by destruct (String.eqb _ _).
  - intros op Hin. unfold find_op. simpl. rewrite (String.eqb_sym (operation_id c)).
    destruct (ch_record c) as [s|], (forgotten_root c) as [root|];
      try pose proof (Hrid s eq_refl); try pose proof (Hrrt s eq_refl); try pose proof (Hroot root eq_refl);
      keys; rewrite ?(rep_op _ _ Hr) by done; by destruct (String.eqb _ _).
  - rewrite records_cons. destruct (ch_record c) as [s|], (forgotten_root c) as [root|]; keys;
      rewrite ?(rep_count _ _ Hr); done.
  - intros k x Hk. rewrite records_cons.
    assert (∀ p id, p ∈ ["head"; "operation"] → String.eqb k (key p id) = false) as Hne.
    { intros p id Hp. apply String.eqb_neq. intros ->. by rewrite record_key_head in Hk. }
    assert (String.eqb k "count" = false) as Hc by (apply String.eqb_neq; by intros ->).
    destruct (ch_record c) as [s|], (forgotten_root c) as [root|];
      repeat first [rewrite view_insert|rewrite Hne by (repeat constructor)|rewrite Hc];
      try (destruct (String.eqb_spec k (key "record" (r_id (stored_record s)))) as [->|];
        [intros _; exists s; split; [by left|done]|]);
      intros Hx; destruct (rep_keys _ _ Hr k x Hk Hx) as (s' & Hs & ->); exists s'; split; (done || by right).
Qed.

(** ** Accepted histories *)

Abbreviation rid s := (r_id (stored_record s)).

(** A new record: the first version of its root, or a correction of the
    current one in the same scope. *)
Definition follows h (s : StoredRecord) : Prop :=
  (r_supersedes (stored_record s) = None ∧ stored_root s = rid s) ∨
  ∃ old, old ∈ records_of h ∧ is_head h old = true ∧
    r_supersedes (stored_record s) = Some (rid old) ∧ stored_root s = stored_root old ∧
    r_scope (stored_record s) = r_scope (stored_record old).

(** A change the engine accepts after the history [h]. *)
Inductive accepts h c : Prop :=
| accepts_record s :
    operation_id c ∈ ids → record_id instance (operation_id c) ∈ ids →
    find_op h (operation_id c) = None → ch_record c = Some s → forgotten_root c = None →
    rid s = record_id instance (operation_id c) → stored_terms s = btree_set (stored_terms s) →
    follows h s → (len (records_of h) < max_records config)%N →
    (len (value_bytes (forgotten_receipt (versions (c :: h) (stored_root s))))
      ≤ max_result_bytes config)%N →
    ch_receipt c = write_receipt (rid s) (r_supersedes (stored_record s)) → accepts h c
| accepts_forget old :
    operation_id c ∈ ids → find_op h (operation_id c) = None → ch_record c = None →
    forgotten_root c = Some (stored_root old) → old ∈ records_of h → is_head h old = true →
    ch_receipt c = forgotten_receipt (versions h (stored_root old)) → accepts h c.

Fixpoint accepted h : Prop :=
  match h with
  | [] => True
  | c :: h => accepts h c ∧ accepted h
  end.

Lemma accepts_shaped h c : accepts h c → shaped c.
Proof. intros [s|old]; [by right|by left]. Qed.

Lemma accepts_fresh h c : accepts h c → find_op h (operation_id c) = None.
Proof. by intros []. Qed.

Lemma accepted_indexed h : accepted h → indexed h.
Proof.
  induction h as [|c h IH]; [intros _ s; by rewrite elem_of_nil|]. intros [Hc Hh] s. rewrite records_cons.
  destruct Hc as [s' _ _ _ E _ _ Ht|old _ _ E]; rewrite E; [|by apply IH].
  intros [->|Hs]%elem_of_cons; [done|by apply IH].
Qed.

(** A record's id tells the operation that wrote it. *)
Lemma record_written h s : accepted h → s ∈ records_of h →
  ∃ c, c ∈ h ∧ ch_record c = Some s ∧ rid s = record_id instance (operation_id c).
Proof.
  induction h as [|c h IH]; [intros _; by rewrite elem_of_nil|]. intros [Hc Hh]. rewrite records_cons.
  assert (s ∈ records_of h → ∃ c', c' ∈ c :: h ∧ ch_record c' = Some s ∧
            rid s = record_id instance (operation_id c')) as Hold.
  { intros Hs. destruct (IH Hh Hs) as (c' & Hc' & H). exists c'. split; [by right|done]. }
  destruct Hc as [s' _ _ _ E _ Hid|old _ _ E]; rewrite E; [|done].
  intros [->|Hs]%elem_of_cons; [|by apply Hold]. exists c. split; [by left|done].
Qed.

Lemma record_id_inj a b : a ∈ ids → b ∈ ids → record_id instance a = record_id instance b → a = b.
Proof. intros Ha Hb. unfold record_id. intros H%append_inj_l. exact (proj2 (Hhash a b Ha Hb) H). Qed.

Lemma accepts_op h c : accepts h c → operation_id c ∈ ids.
Proof. by intros []. Qed.

Lemma accepted_ops h c : accepted h → c ∈ h → operation_id c ∈ ids.
Proof.
  induction h as [|c' h IH]; [by rewrite elem_of_nil|]. intros [Hc Hh] [->|Hin]%elem_of_cons; [by eapply accepts_op|by apply IH].
Qed.

(** A record's id and its root's are among the identifiers that occur. *)
Lemma accepted_ids h s : accepted h → s ∈ records_of h → rid s ∈ ids ∧ stored_root s ∈ ids.
Proof.
  revert s. induction h as [|c h IH]; [intros s _; by rewrite elem_of_nil|]. intros s [Hc Hh]. rewrite records_cons.
  destruct Hc as [s' _ Hin _ E _ Hid _ Hfollow|old _ _ E]; rewrite E; [|by apply IH].
  intros [->|Hs]%elem_of_cons; [|by apply IH]. split; [by rewrite Hid|].
  destruct Hfollow as [[_ ->]|(old & Hold & _ & _ & -> & _)]; [by rewrite Hid|]. by apply IH.
Qed.

Lemma accepts_ids h c : accepts h c → accepted h → change_ids c.
Proof.
  intros Hc Hh. assert (accepted (c :: h)) as Hch by done. split; [by eapply accepts_op|]. split.
  - intros s Hs. apply (accepted_ids (c :: h)); [done|]. rewrite records_cons, Hs. by left.
  - intros root Hr. destruct Hc as [s _ _ _ _ E|old _ _ _ E Hold]; [congruence|].
    rewrite E in Hr. injection Hr as <-. by apply (accepted_ids h).
Qed.

Lemma find_op_none h op c : find_op h op = None → c ∈ h → operation_id c ≠ op.
Proof.
  unfold find_op. intros H Hc Eop. eapply List.find_none in H; [|by apply list_elem_of_In].
  by rewrite Eop, String.eqb_refl in H.
Qed.

Lemma fresh_record h op s : accepted h → op ∈ ids → find_op h op = None → s ∈ records_of h →
  rid s ≠ record_id instance op.
Proof.
  intros Hh Hin Hop Hs. destruct (record_written h s Hh Hs) as (c & Hc & _ & ->).
  intros E%record_id_inj; [|by eapply accepted_ops|done]. by apply (find_op_none h op c).
Qed.

Lemma accepted_nodup h : accepted h → NoDup ((λ s, rid s) <$> records_of h).
Proof.
  induction h as [|c h IH]; [constructor|]. intros [Hc Hh]. rewrite records_cons.
  destruct Hc as [s Hin _ Hop E _ Hid|old _ _ E]; rewrite E; [|by apply IH]. csimpl.
  constructor; [|by apply IH]. intros (s' & Heq & Hs')%list_elem_of_fmap.
  apply (fresh_record h (operation_id c) s'); [done..|]. congruence.
Qed.

Lemma find_record_iff h id s : accepted h →
  find_record h id = Some s ↔ s ∈ records_of h ∧ rid s = id.
Proof.
  intros Hh. split; [apply find_record_elem|]. intros [Hs <-].
  pose proof (accepted_nodup h Hh) as Hnd. unfold find_record. revert Hs Hnd.
  induction (records_of h) as [|s' l IH]; [by rewrite elem_of_nil|]. csimpl.
  intros [->|Hs]%elem_of_cons [Hni Hnd]%NoDup_cons; [by rewrite String.eqb_refl|].
  destruct (String.eqb_spec (rid s') (rid s)) as [E|]; [|by apply IH].
  destruct Hni. rewrite E. apply list_elem_of_fmap. by exists s.
Qed.

(** *** Versions *)

Definition of_root h (root : string) : list StoredRecord :=
  List.filter (λ s, String.eqb (stored_root s) root) (records_of h).

Lemma of_root_elem h root s : s ∈ of_root h root ↔ s ∈ records_of h ∧ stored_root s = root.
Proof. unfold of_root. rewrite !list_elem_of_In, List.filter_In, String.eqb_eq. done. Qed.

(** Each version names the one before; the first is the root. *)
Fixpoint linked (root : string) (l : list StoredRecord) : Prop :=
  match l with
  | [] => True
  | s :: rest =>
      match rest with
      | [] => r_supersedes (stored_record s) = None ∧ rid s = root
      | s' :: _ => r_supersedes (stored_record s) = Some (rid s')
      end ∧ linked root rest
  end.

Lemma linked_root root l : linked root l → l ≠ [] → ∃ s, s ∈ l ∧ rid s = root.
Proof.
  induction l as [|s [|s' l] IH]; [done| |]; intros H _.
  - exists s. split; [by left|apply H].
  - destruct H as [_ H]. destruct IH as (x & Hx & E); [done|done|]. exists x. split; [by right|done].
Qed.

Lemma of_root_cons c h root :
  of_root (c :: h) root =
    match ch_record c with
    | Some s => if String.eqb (stored_root s) root then s :: of_root h root else of_root h root
    | None => of_root h root
    end.
Proof. unfold of_root. rewrite records_cons. by destruct (ch_record c). Qed.

Record rooted h (root : string) : Prop := {
  root_linked : linked root (of_root h root);
  root_head : match head_of h root with
              | Some (Some id) => ∃ s rest, of_root h root = s :: rest ∧ rid s = id
              | Some None => of_root h root ≠ []
              | None => of_root h root = []
              end;
  root_scope : ∀ s s', s ∈ of_root h root → s' ∈ of_root h root →
    r_scope (stored_record s) = r_scope (stored_record s');
}.

(** The current record of a root is its newest version. *)
Lemma head_newest h old : accepted h → rooted h (stored_root old) → old ∈ records_of h →
  is_head h old = true → ∃ rest, of_root h (stored_root old) = old :: rest.
Proof.
  intros Hh Hr Hold Hhead. apply bool_decide_eq_true in Hhead.
  pose proof (root_head _ _ Hr) as H. rewrite Hhead in H. destruct H as (s & rest & E & Hid).
  exists rest. rewrite E. f_equal.
  assert (s ∈ records_of h) as Hs by (eapply of_root_elem; rewrite E; by left).
  pose proof (proj2 (find_record_iff h (rid old) s Hh) (conj Hs Hid)) as F1.
  pose proof (proj2 (find_record_iff h (rid old) old Hh) (conj Hold eq_refl)) as F2. congruence.
Qed.

(** No version has a root that is not written yet. *)
Lemma fresh_root h op : accepted h → linked (record_id instance op) (of_root h (record_id instance op)) →
  op ∈ ids → find_op h op = None → of_root h (record_id instance op) = [].
Proof.
  intros Hh Hl Hin Hop. destruct (of_root h _) as [|x l] eqn:E; [done|].
  destruct (linked_root _ _ Hl) as (y & Hy & Ey); [done|]. rewrite <- E in Hy.
  apply of_root_elem in Hy as [Hy _]. by destruct (fresh_record h op y).
Qed.

Lemma accepted_rooted h root : accepted h → rooted h root.
Proof.
  revert root. induction h as [|c h IH]; intros root; [by split; set_solver|]. intros [Hc Hh].
  pose proof (IH root Hh) as [Hl Hd Hs].
  destruct Hc as [s Hin _ Hop Er Ef Hid _ Hfollow _ _ _|old _ Hop Er Ef Hold Hhead _].
  - assert (touch c root = if String.eqb (stored_root s) root then Some (Some (rid s)) else None) as Et.
    { unfold touch. by rewrite Ef, Er. }
    split; rewrite ?head_cons, ?of_root_cons, ?Er, ?Et; destruct (String.eqb_spec (stored_root s) root) as [<-|]; try done.
    + destruct Hfollow as [[Hn Hroot]|(old & Hold & Hhead & Hsup & Hroot & _)].
      * rewrite Hroot, Hid in Hl |- *. by rewrite (fresh_root h (operation_id c) Hh Hl Hin Hop).
      * rewrite Hroot in Hl |- *. destruct (head_newest h old) as (rest & E); [done|by apply IH|done|done|].
        rewrite E in Hl |- *. done.
    + by eexists s, _.
    + destruct Hfollow as [[Hn Hroot]|(old & Hold & Hhead & Hsup & Hroot & Hscope)].
      * intros x y. rewrite Hroot, Hid in Hl |- *.
        rewrite (fresh_root h (operation_id c) Hh Hl Hin Hop). set_solver.
      * assert (∀ x, x ∈ s :: of_root h (stored_root s) →
                  r_scope (stored_record x) = r_scope (stored_record old)) as Hx.
        { intros x [->|Hx]%elem_of_cons; [done|]. apply Hs; [done|]. by apply of_root_elem. }
        intros x y H1 H2. by rewrite (Hx x H1), (Hx y H2).
  - assert (touch c root = if String.eqb (stored_root old) root then Some None else None) as Et.
    { unfold touch. by rewrite Ef. }
    split; rewrite ?head_cons, ?of_root_cons, ?Er, ?Et; try done.
    destruct (String.eqb_spec (stored_root old) root) as [<-|]; [|done].
    intros E. assert (old ∈ of_root h (stored_root old)) as Hin by (by apply of_root_elem).
    rewrite E in Hin. by apply not_elem_of_nil in Hin.
Qed.

Lemma versions_of_root h root : versions h root = (λ s, rid s) <$> of_root h root.
Proof. done. Qed.

(** The walk from a record back to its root. *)
Lemma gives_chain changes h root l walked room :
  represents (view st changes) h → accepted h → linked root l →
  (∀ s, s ∈ l → s ∈ records_of h) → length l ≤ room →
  gives ans (chain changes room ((λ s, rid s) <$> head l) walked) =
    Some (Ok (walked ++ ((λ s, rid s) <$> l))).
Proof.
  intros Hr Hh. revert walked room. induction l as [|s l IH]; intros walked room Hl Hin Hroom.
  { destruct room; csimpl; rewrite gives_ret; by rewrite app_nil_r. }
  assert (find_record h (rid s) = Some s) as Hs.
  { apply find_record_iff; [done|]. split; [apply Hin; by left|done]. }
  destruct room as [|room]; [simpl in Hroom; lia|]. cbn [chain head fmap option_fmap option_map].
  autorewrite with gives.
  rewrite (gives_record _ h) by first [done|by apply accepted_indexed|apply (accepted_ids h); [done|apply Hin; by left]].
  rewrite Hs.
  cbn [ok_or]. rewrite gives_bind, gives_lift.
  replace (r_supersedes (stored_record s)) with ((λ s, rid s) <$> head l).
  - rewrite IH; [|apply Hl|intros x Hx; apply Hin; by right|simpl in Hroom; lia].
    csimpl. by rewrite <- (assoc_L (++)).
  - destruct Hl as [H _]. destruct l as [|s' l]; [by destruct H|done].
Qed.

(** ** Outcomes *)

(** An error the caller is told, not a failure of the storage. *)
Definition domain {A} (r : result A string) : Prop := ∀ e, r = Err e → e ∈ DOMAIN_CODES.
(** A program ends, with a value as [P] says or with a domain error. *)
Definition lands {A} (P : A → Prop) (o : option (result A string)) : Prop :=
  match o with
  | Some (Ok a) => P a
  | Some (Err e) => e ∈ DOMAIN_CODES
  | None => False
  end.

Lemma lands_bind {A B} (m : EM A) (k : A → EM B) P :
  lands (λ a, lands P (gives ans (k a))) (gives ans m) → lands P (gives ans (gm_bind m k)).
Proof. rewrite gives_bind. by destruct (gives ans m) as [[]|]. Qed.

Lemma lands_mono {A} (P Q : A → Prop) o : lands P o → (∀ a, P a → Q a) → lands Q o.
Proof. destruct o as [[]|]; naive_solver. Qed.

Lemma lands_lift {A B} (r : result A string) (k : A → EM B) P :
  domain r → (∀ a, r = Ok a → lands P (gives ans (k a))) →
  lands P (gives ans (gm_bind (gm_lift r) k)).
Proof. intros Hd Hk. apply lands_bind. rewrite gives_lift. destruct r; [by apply Hk|by apply Hd]. Qed.

Lemma lands_some {A B} (m : EM A) (k : A → EM B) a P :
  gives ans m = Some (Ok a) → lands P (gives ans (k a)) → lands P (gives ans (gm_bind m k)).
Proof. intros Hm Hk. apply lands_bind. by rewrite Hm. Qed.

(** Serializing a value does not fail. *)
Context (Hjson : ∀ v, ∃ b, to_vec v = Ok b).

Lemma in_codes e : str_mem e DOMAIN_CODES = true → e ∈ DOMAIN_CODES.
Proof. by rewrite str_mem_spec. Qed.

Lemma domain_ok {A} (a : A) : domain (Ok a).
Proof. done. Qed.
Lemma domain_err {A} e : str_mem e DOMAIN_CODES = true → domain (A := A) (Err e).
Proof. intros H x [= <-]. by apply in_codes. Qed.
Lemma domain_bind {A B} (r : result A string) (k : A → result B string) :
  domain r → (∀ a, domain (k a)) → domain (result_bind r k).
Proof. intros Hr Hk e. destruct r as [a|x]; simpl; [apply Hk|]. intros [= ->]. by apply Hr. Qed.
Lemma domain_if {A} (b : bool) (r r' : result A string) : domain r → domain r' → domain (if b then r else r').
Proof. by destruct b. Qed.
Lemma domain_fold {A B} (f : B → A → result B string) s l :
  (∀ s x, domain (f s x)) → domain (try_fold f s l).
Proof. intros Hf. revert s. induction l as [|x l IH]; intros s; [done|]. by apply domain_bind. Qed.

Lemma only_domain v fields : domain (only v fields).
Proof.
  unfold only. apply domain_bind; [|intros; apply domain_if; [by apply domain_err|done]].
  destruct (as_object v); [done|by apply domain_err].
Qed.
Lemma bounded_text_domain max v : domain (bounded_text max v).
Proof. unfold bounded_text. destruct (as_str v); [apply domain_if; [done|]|]; by apply domain_err. Qed.
Lemma strings_domain args field max max_bytes : domain (strings args field max max_bytes).
Proof.
  unfold strings. destruct (as_array _); [|by apply domain_err]. apply domain_if; [|by apply domain_err].
  apply domain_fold. intros acc v. apply domain_bind; [apply bounded_text_domain|].
  intros x. apply domain_if; [by apply domain_err|done].
Qed.
Lemma number_domain args field d max : domain (number args field d max).
Proof.
  unfold number. destruct (value_get _ _) as [v|]; [|done].
  destruct (as_u64 v); [apply domain_if; [done|]|]; by apply domain_err.
Qed.
Lemma expiry_domain args now : domain (expiry_arg args now).
Proof.
  unfold expiry_arg. destruct (value_get _ _) as [v|]; [|done].
  destruct v; try done; destruct (as_i64 _); try apply domain_if; try done; by apply domain_err.
Qed.
Lemma within_spec v limit :
  within v limit = if (limit <? len (value_bytes v))%N then Err "result-too-large" else Ok v.
Proof. unfold within, value_bytes. destruct (Hjson v) as [b ->]. done. Qed.
Lemma within_domain v limit : domain (within v limit).
Proof. rewrite within_spec. apply domain_if; [by apply domain_err|done]. Qed.

(** ** Writes *)

Lemma btree_set_idem l : btree_set (btree_set l) = btree_set l.
Proof.
  unfold btree_set. assert (NoDup (merge_sort String.le (remove_dups l))) as Hnd.
  { rewrite merge_sort_Permutation. apply NoDup_remove_dups. }
  apply (Sorted_unique String.le); [apply Sorted_merge_sort, _|apply Sorted_merge_sort, _|].
  rewrite merge_sort_Permutation. apply NoDup_Permutation; [apply NoDup_remove_dups|done|].
  intros x. by rewrite elem_of_remove_dups.
Qed.

Lemma accepted_count h : accepted h → (len (records_of h) ≤ max_records config)%N.
Proof.
  induction h as [|c h IH]; [unfold len; simpl; lia|]. intros [Hc Hh]. rewrite records_cons.
  specialize (IH Hh). destruct Hc as [s _ _ _ -> _ _ _ _ Hn _ _|old _ _ -> _ _ _ _]; [|done].
  unfold len in *. simpl. lia.
Qed.

Lemma of_root_length h root : length (of_root h root) ≤ length (records_of h).
Proof.
  unfold of_root. induction (records_of h) as [|s l IH]; simpl; [done|].
  destruct (String.eqb _ _); simpl; lia.
Qed.

(** The record a correction or a removal names. *)
Definition named h (scope : string) (o : option StoredRecord) : Prop :=
  ∀ s, o = Some s → s ∈ records_of h ∧ is_head h s = true ∧ r_scope (stored_record s) = scope.

Lemma predecessors h scope old : accepted h → named h scope old →
  ∃ l root, (λ s, rid s) <$> old = (λ s, rid s) <$> head l ∧ linked root l ∧
    (∀ s, s ∈ l → s ∈ records_of h) ∧ length l ≤ length (records_of h) ∧
    (∀ s, old = Some s → l = of_root h (stored_root s)) ∧ (old = None → l = []).
Proof.
  intros Hh Hn. destruct old as [s|]; [|exists [], ""; split_and!; try done; [set_solver|simpl; lia]].
  destruct (Hn s eq_refl) as (Hs & Hd & _).
  exists (of_root h (stored_root s)), (stored_root s).
  destruct (head_newest h s) as (rest & E); [done|by apply accepted_rooted|done|done|].
  split_and!; [by rewrite E|apply root_linked; by apply accepted_rooted| |apply of_root_length|by intros ? [= ->]|done].
  intros x. by intros [? _]%of_root_elem.
Qed.

Lemma run_readable readable sources : (∀ id, ∃ b, run_with ans (readable id) = Ok b) →
  ∃ b, run_with ans (all_readable readable sources) = Ok b.
Proof.
  intros Hr. induction sources as [|id l IH]; [by exists true|]. cbn [all_readable].
  rewrite run_with_bind. destruct (Hr id) as [b ->]. simpl. destruct b; [done|by exists false].
Qed.

(** What a new record promises: any change that carries it is accepted. *)
Definition new_record h (op : string) (r : Value * StoredRecord) : Prop :=
  let '(receipt, s) := r in
  ∀ digest, accepts h (mkChange op digest receipt (Some s) None).

Lemma lands_write_record changes h args scope op old now readable :
  represents (view st changes) h → accepted h → op ∈ ids → record_id instance op ∈ ids →
  find_op h op = None → named h scope old →
  (∀ id, ∃ b, run_with ans (readable id) = Ok b) →
  lands (new_record h op)
    (gives ans (write_record config instance changes args scope op old now readable)).
Proof.
  intros Hr Hh Hin1 Hin2 Hop Hold Hreadable. unfold write_record.
  eapply lands_some; [by apply (gives_count _ h)|]. destruct (N.leb_spec (max_records config) (len (records_of h))); [by apply in_codes|].
  apply lands_lift; [apply bounded_text_domain|]. intros kind _. destruct (str_mem kind KINDS); [|by apply in_codes].
  apply lands_lift; [apply bounded_text_domain|]. intros content _.
  apply lands_lift; [apply bounded_text_domain|]. intros basis _.
  destruct (str_mem basis ["explicit"; "inferred"]); [|by apply in_codes].
  apply lands_lift; [apply strings_domain|]. intros sources _.
  apply lands_lift; [apply expiry_domain|]. intros expires _. cbn [negb].
  destruct (run_readable readable sources Hreadable) as [ok Eok].
  eapply (lands_some _ _ ok). { unfold gives. rewrite run_with_bind, Eok. done. }
  destruct ok; [|by apply in_codes]. cbn [negb].
  destruct (predecessors h scope old Hh Hold) as (l & root & -> & Hl & Hin & Hlen & Hsome & Hnone).
  assert (length (records_of h) ≤ N.to_nat (max_records config) - 1) by (unfold len in *; lia).
  eapply lands_some; [by eapply (gives_chain _ h root l); [..|lia]|].
  apply lands_lift; [apply within_domain|]. intros v Hv. rewrite within_spec in Hv.
  destruct (N.ltb_spec (max_result_bytes config) (len (value_bytes
    (forgotten_receipt ([record_id instance op] ++ ((λ s, rid s) <$> l)))))) as [|Hfit]; [done|].
  intros digest. eapply accepts_record; try done; simpl.
  - symmetry. apply btree_set_idem.
  - unfold follows. destruct old as [s|].
    + right. exists s. destruct (Hold s eq_refl) as (Hs & Hd & Hsc).
      destruct (head_newest h s Hh (accepted_rooted _ _ Hh) Hs Hd) as (rest & E).
      rewrite (Hsome s eq_refl), E. done.
    + left. by rewrite (Hnone eq_refl).
  - rewrite versions_of_root, of_root_cons. simpl. rewrite String.eqb_refl. csimpl.
    destruct old as [s|]; [by rewrite <- (Hsome s eq_refl)|].
    rewrite (Hnone eq_refl) in Hfit.
    rewrite (fresh_root h op Hh) by (done || by apply root_linked, accepted_rooted). done.
Qed.

Lemma lands_expected changes h args scope : represents (view st changes) h → accepted h →
  (∀ id, string_arg args "expectedId" 512 = Ok id → id ∈ ids) →
  lands (λ s, named h scope (Some s)) (gives ans (expected_head changes args scope)).
Proof.
  intros Hr Hh Hexp. unfold expected_head. apply lands_lift; [apply bounded_text_domain|]. intros id Hid.
  eapply lands_some; [by apply (gives_record _ h); [|apply accepted_indexed|apply Hexp]|].
  apply lands_lift. { destruct (find_record h id); [done|by apply domain_err]. }
  intros old Hfound. destruct (find_record h id) as [s|] eqn:E; [|done]. injection Hfound as ->.
  apply find_record_elem in E as [Hs _].
  destruct (String.eqb_spec (r_scope (stored_record old)) scope) as [Hsc|]; [|by apply in_codes].
  eapply lands_some; [by apply (gives_current _ h); [|apply (accepted_ids h)]|]. destruct (is_head h old) eqn:Hd; [|by apply in_codes].
  by intros x [= <-].
Qed.

(** What a write does to the history: an operation that was done is answered
    with its receipt and nothing changes; a new one is one accepted change. *)
Definition written h changes operation (args : Value)
    (r : Value * option Change * Changes) : Prop :=
  let '(receipt, change, changes') := r in
  match change with
  | None =>
      changes' = changes ∧ ∃ c, find_op h (operation_id c) = Some c ∧
        string_arg args "operationId" 128 = Ok (operation_id c) ∧
        ch_digest c = hash (Array [Str operation; args]) ∧ receipt = ch_receipt c
  | Some c =>
      accepts h c ∧ receipt = ch_receipt c ∧ ch_digest c = hash (Array [Str operation; args]) ∧
      string_arg args "operationId" 128 = Ok (operation_id c) ∧ changes' = applied changes c h
  end.

(** The digest and the change of a write that is not a retry. *)
Definition prepared h (op : string) (w : Value * option StoredRecord * option string)
    : Prop :=
  let '(receipt, record, root) := w in ∀ digest, accepts h (mkChange op digest receipt record root).

Lemma find_op_id h op c : find_op h op = Some c → operation_id c = op.
Proof. unfold find_op. intros [_ H]%List.find_some. by apply String.eqb_eq. Qed.

Lemma lands_prepared changes h operation args scope op now readable old :
  represents (view st changes) h → accepted h → op ∈ ids → record_id instance op ∈ ids →
  find_op h op = None → named h scope old →
  (old = None → String.eqb operation "forget" = false) →
  (∀ id, ∃ b, run_with ans (readable id) = Ok b) →
  lands (prepared h op)
    (gives ans (match old, String.eqb operation "forget" with
     | Some s, true =>
         let* ids := chain changes (N.to_nat (max_records config))
                       (Some (r_id (stored_record s))) [] in
         gm_ret (forgotten_receipt ids, None, Some (stored_root s))
     | _, _ =>
         let* (receipt, s) := write_record config instance changes args scope op old now readable in
         gm_ret (receipt, Some s, None)
     end)).
Proof.
  intros Hr Hh Hin1 Hin2 Hop Hold Hf Hreadable.
  assert (∀ o, named h scope o → lands (prepared h op) (gives ans
     (let* (receipt, s) := write_record config instance changes args scope op o now readable in
      gm_ret (receipt, Some s, None)))) as Hw.
  { intros o Ho. apply lands_bind. eapply lands_mono; [by eapply lands_write_record|]. by intros [receipt s] H. }
  destruct old as [s|]; [|by apply Hw]. destruct (String.eqb operation "forget"); [|by apply Hw].
  destruct (Hold s eq_refl) as (Hs & Hd & _).
  destruct (predecessors h scope (Some s) Hh Hold) as (l & root & E & Hl & Hin & Hlen & Hsome & _).
  cbn [fmap option_fmap option_map] in E. rewrite E. pose proof (accepted_count h Hh).
  eapply lands_some; [eapply (gives_chain _ h root l); [done..|unfold len in *; lia]|].
  intros digest. eapply accepts_forget; try done. simpl. by rewrite (Hsome s eq_refl).
Qed.

(** The identifiers a request names are among those that occur, and so is the
    id of a record that its operation would write. *)
Definition names_ids (args : Value) : Prop :=
  (∀ op, string_arg args "operationId" 128 = Ok op → op ∈ ids ∧ record_id instance op ∈ ids) ∧
  (∀ id, string_arg args "expectedId" 512 = Ok id → id ∈ ids).

Lemma lands_execute_write changes h operation args scope now readable :
  represents (view st changes) h → accepted h → names_ids args → (max_records config ≤ u64_max)%N →
  operation ∈ ["remember"; "supersede"; "forget"] →
  (∀ id, ∃ b, run_with ans (readable id) = Ok b) →
  lands (written h changes operation args)
    (gives ans (execute_write config instance changes operation args scope now readable)).
Proof.
  intros Hr Hh [Hops Hexp] Hmax Ho Hreadable. unfold execute_write.
  apply lands_lift; [apply only_domain|]. intros _ _.
  apply lands_lift; [apply bounded_text_domain|]. intros op Hop_arg.
  destruct (Hops op Hop_arg) as [Hin1 Hin2].
  eapply lands_some; [apply gives_get|]. rewrite (rep_op _ _ Hr) by done.
  destruct (find_op h op) as [c|] eqn:Hop; cbn [fmap option_fmap option_map].
  { unfold op_value, value_index. rewrite !object_get. simpl. case_bool_decide as E; [|by apply in_codes].
    injection E as E. pose proof (find_op_id _ _ _ Hop) as <-. split; [done|]. by exists c. }
  apply lands_bind. eapply (lands_mono (λ old, named h scope old ∧ (old = None → String.eqb operation "forget" = false))).
  { destruct (String.eqb_spec operation "remember") as [->|Hne]; [by split|].
    apply lands_bind. eapply lands_mono; [by apply (lands_expected _ h)|]. by intros s Hs. }
  intros old [Hold Hf]. apply lands_bind. eapply lands_mono; [by eapply (lands_prepared changes h operation)|].
  intros [[receipt record] root] Hprep.
  apply lands_lift; [apply within_domain|]. intros v Hv. rewrite within_spec in Hv.
  destruct (_ <? _)%N; [done|]. injection Hv as <-.
  specialize (Hprep (hash (Array [Str operation; args]))).
  eapply lands_some.
  { apply (gives_apply changes _ h Hr); [done|done|]. intros Hne.
    destruct Hprep as [s _ _ _ E _ _ _ _ Hn|old' _ _ E _ Ho' _]; [lia|done]. }
  done.
Qed.

(** ** Forgetting *)

(** The receipt that would forget a live root fits. *)
Lemma live_fits h root id : accepted h → head_of h root = Some (Some id) →
  (len (value_bytes (forgotten_receipt (versions h root))) ≤ max_result_bytes config)%N.
Proof.
  induction h as [|c h IH]; [done|]. intros [Hc Hh]. rewrite head_cons.
  destruct Hc as [s _ _ _ Er Ef _ _ _ _ Hfit _|old _ _ Er Ef _ _ _].
  - unfold touch. rewrite Ef, Er. destruct (String.eqb_spec (stored_root s) root) as [<-|Hne]; [done|].
    intros Hd. rewrite versions_of_root, of_root_cons, Er, (proj2 (String.eqb_neq _ _) Hne). by apply IH.
  - unfold touch. rewrite Ef. destruct (String.eqb _ _); [done|]. intros Hd.
    rewrite versions_of_root, of_root_cons, Er. by apply IH.
Qed.

Definition forget_args (args : Value) (scope op id : string) : Prop :=
  only args (write_fields "forget") = Ok tt ∧ string_arg args "operationId" 128 = Ok op ∧
  string_arg args "expectedId" 512 = Ok id ∧ string_arg args "scope" 256 = Ok scope.

Lemma gives_forget changes h args scope op s now fuel sequence readable :
  represents (view st changes) h → accepted h → (max_records config ≤ u64_max)%N →
  forget_args args scope op (rid s) → op ∈ ids → find_op h op = None →
  s ∈ records_of h → is_head h s = true → r_scope (stored_record s) = scope →
  let receipt := forgotten_receipt (versions h (stored_root s)) in
  let c := mkChange op (hash (Array [Str "forget"; args])) receipt None (Some (stored_root s)) in
  gives ans (execute config instance fuel changes "forget" args now sequence readable) =
    Some (Ok (receipt, Some c, applied changes c h)).
Proof.
  intros Hr Hh Hmax (Honly & Hop & Hid & Hscope) Hin Hfresh Hs Hd Hsc receipt c.
  destruct (accepted_ids h s Hh Hs) as [Hrid Hroot].
  unfold execute. rewrite Hscope, gives_bind, gives_lift. cbn [String.eqb Ascii.eqb Bool.eqb].
  change (str_mem "forget" _) with true. cbn [andb]. unfold execute_write.
  rewrite Honly, gives_bind, gives_lift, Hop, gives_bind, gives_lift, gives_bind, gives_get.
  rewrite (rep_op _ _ Hr), Hfresh by done. cbn [fmap option_fmap option_map].
  assert (gives ans (expected_head changes args scope) = Some (Ok s)) as Hexp.
  { unfold expected_head. rewrite Hid, gives_bind, gives_lift, gives_bind.
    rewrite (gives_record _ h) by (done || by apply accepted_indexed).
    rewrite (proj2 (find_record_iff h (rid s) s Hh)) by done. cbn [ok_or].
    rewrite gives_bind, gives_lift, Hsc, String.eqb_refl. cbn [negb].
    by rewrite gives_bind, (gives_current _ h), Hd. }
  rewrite gives_bind. change (String.eqb "forget" "remember") with false.
  cbv iota. rewrite gives_bind, Hexp, gives_ret. change (String.eqb "forget" "forget") with true.
  destruct (predecessors h scope (Some s) Hh) as (l & root & E & Hl & Hall & Hlen & Hsome & _).
  { intros x [= <-]. done. }
  cbn [fmap option_fmap option_map] in E. rewrite gives_bind, E, gives_bind.
  pose proof (accepted_count h Hh).
  rewrite (gives_chain _ h root l) by (done || unfold len in *; lia). rewrite gives_ret.
  rewrite (Hsome s eq_refl). change ([] ++ ?x) with x. rewrite <- versions_of_root.
  rewrite gives_bind, gives_lift, within_spec.
  apply bool_decide_eq_true in Hd. pose proof (live_fits h (stored_root s) (rid s) Hh Hd) as Hfit.
  rewrite (proj2 (N.ltb_ge _ _) Hfit). cbv iota beta. fold receipt. fold c.
  by rewrite gives_bind, (gives_apply changes c h Hr).
Qed.

(** After it no version of the root is visible. *)
Lemma forgotten_invisible h c root s scope now : forgotten_root c = Some root →
  stored_root s = root → visible (c :: h) scope now s = false.
Proof.
  intros Hf Hs. unfold visible, is_head. rewrite head_cons. unfold touch. rewrite Hf, Hs, String.eqb_refl.
  simpl. by rewrite andb_false_r.
Qed.

(** ** Reads *)

Definition read_found h scope now (asked : list string) : list MemoryRecord :=
  omap (λ id, match find_record h id with
              | Some s => if visible h scope now s then Some (stored_record s) else None
              | None => None
              end) asked.
Definition read_missing h scope now (asked : list string) : list string :=
  List.filter (λ id, negb (is_some_and (find_record h id) (visible h scope now))) asked.

Lemma gives_read_each changes h scope now asked found missing :
  represents (view st changes) h → accepted h → Forall (λ id, id ∈ ids) asked →
  gives ans (read_each changes scope now asked found missing) =
    Some (Ok (found ++ read_found h scope now asked, missing ++ read_missing h scope now asked)).
Proof.
  intros Hr Hh Hasked. revert found missing. induction Hasked as [|id asked Hin _ IH]; intros found missing; simpl.
  { by rewrite gives_ret, !app_nil_r. }
  rewrite gives_bind, (gives_record _ h) by (done || by apply accepted_indexed).
  unfold read_found, read_missing. csimpl.
  destruct (find_record h id) as [s|] eqn:Efound; simpl; rewrite gives_bind.
  - rewrite (gives_active _ h) by first [done|apply (accepted_ids h); [done|by eapply find_record_elem]]. destruct (visible h scope now s); rewrite IH; simpl;
      by rewrite <- (assoc_L (++)).
  - rewrite gives_ret, IH. by rewrite <- (assoc_L (++)).
Qed.

(** ** Recall *)

(** The rows of the store with the prefix, after a key, in key order. *)
Definition row_le (a b : string * Value) : Prop := String.le a.1 b.1.
#[export] Instance row_le_dec a b : Decision (row_le a b).
Proof. unfold row_le. apply _. Defined.

Definition after_key (after : option string) (k : string) : bool :=
  is_none_or after (λ a, negb (bool_decide (String.le k a))).
Definition rows (prefix : string) (after : option string) : list (string * Value) :=
  List.filter (λ r, starts_with prefix r.1 && after_key after r.1)
    (merge_sort row_le (map_to_list st)).

Context (Hscan : ∀ prefix after limit,
  gives ans (st_scan prefix after limit) = Some (Ok (take (N.to_nat limit) (rows prefix after)))).

(** A record as a hit of a query. *)
Definition match_of h (query : list string) scope (kinds : list string) now (s : StoredRecord)
    : option (MemoryRecord * list string) :=
  if visible h scope now s && (bool_decide (kinds = []) || str_mem (r_kind (stored_record s)) kinds)
  then
    let matched := List.filter (λ t, str_mem t (stored_terms s)) query in
    if bool_decide (matched = []) then None else Some (stored_record s, matched)
  else None.

(** The hits of a query, best first. *)
Definition hits h query scope kinds now : list (MemoryRecord * list string) :=
  merge_sort ranks (omap (match_of h query scope kinds now) (records_of h)).

Lemma gives_candidate changes h query scope kinds now s found :
  represents (view st changes) h → accepted h → s ∈ records_of h →
  gives ans (candidate changes (stored_to_value s) query scope kinds now found) =
    Some (Ok (found ++ option_list (match_of h query scope kinds now s))).
Proof.
  intros Hr Hh Hs. unfold candidate, match_of.
  rewrite Hcodec by (by apply (accepted_indexed h)). cbn [map_err].
  rewrite gives_bind, gives_lift, gives_bind, (gives_active _ h) by (done || by apply (accepted_ids h)).
  destruct (visible h scope now s); cbn [negb orb andb]; [|by rewrite app_nil_r].
  destruct (bool_decide (kinds = [])); cbn [negb orb andb];
    [|destruct (str_mem _ kinds); cbn [negb]; [|by rewrite app_nil_r]];
    (rewrite gives_ret; case_bool_decide; simpl; by rewrite ?app_nil_r).
Qed.

Lemma gives_candidates changes h query scope kinds now ss found :
  represents (view st changes) h → accepted h → (∀ s, s ∈ ss → s ∈ records_of h) →
  gives ans (candidates_of changes query scope kinds now (stored_to_value <$> ss) found) =
    Some (Ok (found ++ omap (match_of h query scope kinds now) ss)).
Proof.
  intros Hr Hh. revert found. induction ss as [|s ss IH]; intros found Hss; csimpl.
  { by rewrite gives_ret, app_nil_r. }
  rewrite gives_bind, (gives_candidate _ h) by (done || apply Hss; by left).
  rewrite IH by (intros; apply Hss; by right). rewrite <- (assoc_L (++)).
  by destruct (match_of _ _ _ _ _ s).
Qed.

(** *** Pages *)

Lemma filter_after {V} (l : list (string * V)) n k v :
  StronglySorted before l.*1 → l !! n = Some (k, v) →
  List.filter (λ r, negb (bool_decide (String.le r.1 k))) l = drop (S n) l.
Proof.
  revert n. induction l as [|[k0 v0] l IH]; intros n Hl Hn; [done|]. csimpl in Hl.
  apply StronglySorted_cons in Hl as [H0 Hl]. rewrite Forall_forall in H0. destruct n as [|n]; simpl in Hn.
  - injection Hn as -> ->. simpl. rewrite bool_decide_true by reflexivity. simpl.
    rewrite drop_0. apply keep_all. intros [k' v'] Hin. apply negb_true_iff, bool_decide_eq_false. intros Hle.
    destruct (H0 k') as [Hle' Hne]; [apply list_elem_of_fmap; by exists (k', v')|].
    apply Hne. by apply (anti_symm String.le).
  - simpl. assert (before k0 k) as [Hle _].
    { apply H0. apply list_elem_of_fmap. exists (k, v). split; [done|]. by apply list_elem_of_lookup_2 in Hn. }
    rewrite bool_decide_true by done. by apply IH.
Qed.

Lemma sorted_filter_keys {V} (p : string * V → bool) (l : list (string * V)) :
  StronglySorted before l.*1 → StronglySorted before (List.filter p l).*1.
Proof.
  induction l as [|r l IH]; csimpl; [intros _; constructor|]. intros [H0 Hl]%StronglySorted_cons.
  destruct (p r); csimpl; [|by apply IH]. apply StronglySorted_cons. split; [|by apply IH].
  rewrite Forall_forall in H0 |- *. intros k (r' & -> & Hr)%list_elem_of_fmap. apply H0.
  apply list_elem_of_fmap. exists r'. split; [done|]. rewrite list_elem_of_In, List.filter_In in Hr.
  apply list_elem_of_In, Hr.
Qed.

Lemma fields_nodup_sorted {V} (l : list (string * V)) : StronglySorted before l.*1 → NoDup l.*1.
Proof.
  generalize l.*1. induction 1 as [|k l' _ IH Hk]; constructor; [|done].
  intros Hin. by destruct (proj1 (Forall_forall _ _) Hk k Hin).
Qed.

#[export] Instance row_le_total : Total row_le.
Proof. intros a b. apply (total String.le). Qed.
#[export] Instance row_le_trans : Transitive row_le.
Proof. intros a b c. apply (transitivity (R := String.le)). Qed.

Lemma all_rows_sorted : StronglySorted before (merge_sort row_le (map_to_list st)).*1.
Proof.
  assert (NoDup (merge_sort row_le (map_to_list st)).*1) as Hnd.
  { rewrite merge_sort_Permutation. apply NoDup_fst_map_to_list. }
  pose proof (StronglySorted_merge_sort row_le (map_to_list st)) as Hs. revert Hs Hnd.
  generalize (merge_sort row_le (map_to_list st)). intros l. induction l as [|r l IH]; [constructor|].
  csimpl. intros [H0 Hl]%StronglySorted_cons [Hni Hnd]%NoDup_cons. apply StronglySorted_cons.
  split; [|by apply IH]. apply Forall_forall. intros k (r' & -> & Hr)%list_elem_of_fmap.
  split; [exact (proj1 (Forall_forall _ _) H0 r' Hr)|]. intros E. apply Hni. rewrite E. apply list_elem_of_fmap. by exists r'.
Qed.

Lemma rows_elem prefix k v : (k, v) ∈ rows prefix None ↔ starts_with prefix k = true ∧ st !! k = Some v.
Proof.
  unfold rows. rewrite list_elem_of_In, List.filter_In, <- list_elem_of_In, merge_sort_Permutation.
  simpl. rewrite andb_true_r, elem_of_map_to_list. naive_solver.
Qed.

Lemma rows_stored prefix after k v : (k, v) ∈ rows prefix after → st !! k = Some v.
Proof.
  unfold rows. rewrite list_elem_of_In, List.filter_In, <- list_elem_of_In, merge_sort_Permutation.
  rewrite elem_of_map_to_list. by intros [].
Qed.

(** The rows after the last key of a page are the rest. *)
Lemma rows_next prefix after n k v : last (take n (rows prefix after)) = Some (k, v) →
  rows prefix (Some k) = drop n (rows prefix after).
Proof.
  intros Hlast. rewrite last_lookup in Hlast. set (page := take n (rows prefix after)) in *.
  assert (rows prefix after !! pred (length page) = Some (k, v)) as Hk.
  { subst page. rewrite lookup_take in Hlast. by case_decide. }
  assert (k ∈ (rows prefix after).*1) as Hin.
  { apply list_elem_of_fmap. exists (k, v). split; [done|]. by apply list_elem_of_lookup_2 in Hk. }
  pose proof (filter_after _ _ _ _ (sorted_filter_keys _ _ all_rows_sorted) Hk) as Hf.
  assert (rows prefix (Some k) =
          List.filter (λ r, negb (bool_decide (String.le r.1 k))) (rows prefix after)) as ->.
  { assert (after_key after k = true) as Hafter.
    { apply list_elem_of_fmap in Hin as (r & -> & Hr). unfold rows in Hr.
      rewrite list_elem_of_In, List.filter_In in Hr. by apply proj2, andb_true_iff in Hr as [_ ?]. }
    unfold rows. clear -Hafter. induction (merge_sort row_le (map_to_list st)) as [|r l IH]; simpl; [done|].
    destruct (starts_with prefix r.1); simpl; [|done].
    assert (bool_decide (String.le r.1 k) = false → after_key after r.1 = true) as Himp.
    { unfold after_key in *. destruct after as [a|]; [|done]. simpl in *. intros Hrk.
      apply negb_true_iff, bool_decide_eq_false in Hafter. apply bool_decide_eq_false in Hrk.
      apply negb_true_iff, bool_decide_eq_false. intros Hra. destruct (total String.le k a) as [|Hak]; [done|].
      apply Hrk. by trans a. }
    destruct (bool_decide (String.le r.1 k)) eqn:Ek; simpl.
    - destruct (after_key after r.1); simpl; [rewrite Ek|]; done.
    - rewrite (Himp eq_refl). simpl. rewrite Ek. simpl. by f_equal. }
  fold (rows prefix after) in Hf. rewrite Hf. assert (0 < length page) by (destruct page; [done|simpl; lia]).
  rewrite Nat.succ_pred by lia. subst page. rewrite length_take.
  destruct (Nat.min_spec n (length (rows prefix after))) as [[_ ->]|[Hle ->]]; [done|].
  by rewrite !drop_ge.
Qed.

(** The records behind the rows the engine visits. *)
Definition behind changes h (row : string * Value) (s : StoredRecord) : Prop :=
  s ∈ records_of h ∧ row.1 = key "record" (rid s) ∧
  view st changes row.1 = Some (stored_to_value s).

Lemma behind_exists changes h k x : represents (view st changes) h → accepted h →
  starts_with "record/" k = true → view st changes k = Some x →
  ∃ s, s ∈ records_of h ∧ k = key "record" (rid s) ∧ x = stored_to_value s.
Proof.
  intros Hr Hh Hk Hx. destruct (rep_keys _ _ Hr k x Hk Hx) as (s & Hs & ->).
  rewrite (rep_record _ _ Hr), (proj2 (find_record_iff h (rid s) s Hh)) in Hx by (done || by apply (accepted_ids h)).
  injection Hx as <-. by exists s.
Qed.

Lemma rows_behind changes h l : represents (view st changes) h → accepted h →
  (∀ r, r ∈ l → starts_with "record/" r.1 = true ∧ is_Some (view st changes r.1)) →
  ∃ ss, Forall2 (behind changes h) l ss.
Proof.
  intros Hr Hh. induction l as [|r l IH]; intros Hl; [by exists []|].
  destruct IH as [ss Hss]; [intros r' Hr'; apply Hl; by right|].
  destruct (Hl r) as [Hk [x Hx]]; [by left|].
  destruct (behind_exists changes h r.1 x Hr Hh Hk Hx) as (s & Hs & E & ->).
  exists (s :: ss). by constructor.
Qed.

Lemma behind_values changes h l ss : Forall2 (behind changes h) l ss → (∀ r, r ∈ l → st !! r.1 = Some r.2) →
  (λ '(k, v), default v (map_get k changes)) <$> l = stored_to_value <$> ss.
Proof.
  induction 1 as [|[k v] s l ss Hb _ IH]; [done|]. intros Hst. csimpl. rewrite IH by (intros; apply Hst; by right).
  f_equal. destruct Hb as (_ & _ & Hv). unfold view in Hv. simpl in Hv.
  pose proof (Hst (k, v) ltac:(by left)) as E. simpl in E. rewrite E in Hv. by destruct (map_get k changes); simplify_eq/=.
Qed.

Lemma behind_records changes h l ss s : Forall2 (behind changes h) l ss → s ∈ ss → s ∈ records_of h.
Proof. induction 1 as [|r s' l ss Hb _ IH]; [by rewrite elem_of_nil|]. intros [->|]%elem_of_cons; [apply Hb|by apply IH]. Qed.

Lemma behind_keys changes h l ss : Forall2 (behind changes h) l ss → l.*1 = (λ s, key "record" (rid s)) <$> ss.
Proof. induction 1 as [|r s l ss Hb _ IH]; [done|]. csimpl. rewrite IH. by destruct Hb as (_ & -> & _). Qed.

Lemma gives_scan fuel changes h query scope kinds now ss found after :
  represents (view st changes) h → accepted h →
  Forall2 (behind changes h) (rows "record/" after) ss → length ss < fuel →
  gives ans (scan_candidates fuel changes query scope kinds now after found) =
    Some (Ok (found ++ omap (match_of h query scope kinds now) ss)).
Proof.
  intros Hr Hh. revert ss found after.
  induction fuel as [|fuel IH]; intros ss found after Hss Hfuel; [lia|].
  cbn [scan_candidates]. rewrite gives_bind, Hscan. change (N.to_nat 100) with 100.
  destruct (last (take 100 (rows "record/" after))) as [[k v]|] eqn:El.
  - pose proof (rows_next _ _ _ _ _ El) as Hnext.
    rewrite <- (take_drop 100 ss). rewrite omap_app, (assoc_L (++)).
    rewrite gives_bind, (behind_values changes h _ (take 100 ss)).
    + rewrite (gives_candidates _ h); [|done|done|].
      2: { intros s Hs. eapply behind_records; [done|]. rewrite <- (take_drop 100 ss). apply elem_of_app. by left. }
      apply IH; [rewrite Hnext; by apply Forall2_drop|]. rewrite length_drop.
      destruct ss; [|simpl in *; lia]. apply Forall2_nil_inv_r in Hss. by rewrite Hss in El.
    + by apply Forall2_take.
    + intros [k' v'] (i & Hi & _)%elem_of_take. apply list_elem_of_lookup_2 in Hi. by apply rows_stored in Hi.
  - assert (rows "record/" after = []) as E.
    { destruct (rows "record/" after) as [|r l]; [done|]. by apply last_None in El. }
    rewrite E in Hss. apply Forall2_nil_inv_l in Hss as ->. by rewrite gives_ret, app_nil_r.
Qed.

(** The rows of the delivery that the store does not have. *)
Definition is_new (r : string * Value) : bool :=
  starts_with "record/" r.1 && negb (opt_is_some (st !! r.1)).

Lemma gives_new changes h query scope kinds now rest ss found :
  represents (view st changes) h → accepted h →
  (∀ k v, (k, v) ∈ rest → map_get k changes = Some v) →
  Forall2 (behind changes h) (List.filter is_new rest) ss →
  gives ans (new_candidates changes query scope kinds now rest found) =
    Some (Ok (found ++ omap (match_of h query scope kinds now) ss)).
Proof.
  intros Hr Hh. revert ss found. induction rest as [|[k v] rest IH]; intros ss found Hin Hss.
  { apply Forall2_nil_inv_l in Hss as ->. cbn [new_candidates]. by rewrite gives_ret, app_nil_r. }
  cbn [new_candidates]. rewrite gives_bind. simpl in Hss. unfold is_new at 1 in Hss. simpl in Hss.
  assert (∀ k v, (k, v) ∈ rest → map_get k changes = Some v) as Hin' by (intros; apply Hin; by right).
  destruct (starts_with "record/" k); cbn [andb] in Hss; [|rewrite gives_ret; by apply IH].
  rewrite gives_bind, Hget. destruct (st !! k); cbn [opt_is_some negb] in *; [rewrite gives_ret; by apply IH|].
  apply Forall2_cons_inv_l in Hss as (s & ss' & (Hs & Hk & Hv) & Hss & ->). simpl in Hv.
  unfold view in Hv. rewrite (Hin k v) in Hv by (by left). injection Hv as ->.
  rewrite (gives_candidate _ h) by done. rewrite (IH ss') by done. rewrite <- (assoc_L (++)). csimpl.
  by destruct (match_of _ _ _ _ _ s).
Qed.

(** Every record is visited once. *)
Lemma visited changes h ss1 ss2 : represents (view st changes) h → accepted h →
  fields_sorted changes = true →
  Forall2 (behind changes h) (rows "record/" None) ss1 →
  Forall2 (behind changes h) (List.filter is_new changes) ss2 → ss1 ++ ss2 ≡ₚ records_of h.
Proof.
  intros Hr Hh Hsorted H1 H2. pose proof (fields_sorted_nodup _ Hsorted) as Hnd.
  assert (NoDup (records_of h)) as Hndh by (eapply NoDup_fmap_1; by apply accepted_nodup).
  pose proof (behind_keys _ _ _ _ H1) as K1. pose proof (behind_keys _ _ _ _ H2) as K2.
  apply NoDup_Permutation; [|done|].
  - apply (NoDup_fmap_1 (λ s, key "record" (rid s))). rewrite fmap_app, <- K1, <- K2.
    apply NoDup_app. split_and!.
    + apply (fields_nodup_sorted (rows "record/" None)), sorted_filter_keys, all_rows_sorted.
    + intros k ([k1 v1] & -> & Hr1)%list_elem_of_fmap ([k2 v2] & Ek & Hr2)%list_elem_of_fmap. simpl in *. subst k2.
      apply rows_stored in Hr1. rewrite list_elem_of_In, List.filter_In in Hr2. destruct Hr2 as [_ Hr2].
      unfold is_new in Hr2. simpl in Hr2. rewrite Hr1 in Hr2. by rewrite andb_false_r in Hr2.
    + apply (fields_nodup_sorted _), sorted_filter_keys, fields_sorted_strongly, Hsorted.
  - intros s. split.
    + intros [Hs|Hs]%elem_of_app; [by eapply (behind_records _ _ _ ss1)|by eapply (behind_records _ _ _ ss2)].
    + intros Hs. assert (view st changes (key "record" (rid s)) = Some (stored_to_value s)) as Hv.
      { rewrite (rep_record _ _ Hr), (proj2 (find_record_iff h (rid s) s Hh)) by (done || by apply (accepted_ids h)). done. }
      assert (key "record" (rid s) ∈ (λ s, key "record" (rid s)) <$> (ss1 ++ ss2)) as Hk.
      { rewrite fmap_app, <- K1, <- K2, elem_of_app.
        assert (starts_with "record/" (key "record" (rid s)) = true) as Hp by reflexivity.
        destruct (st !! key "record" (rid s)) as [v|] eqn:E; [left|right]; apply list_elem_of_fmap.
        - exists (key "record" (rid s), v). split; [done|]. by apply rows_elem.
        - unfold view in Hv. rewrite E in Hv. destruct (map_get _ changes) as [v|] eqn:Em; [|done].
          exists (key "record" (rid s), v). split; [done|]. rewrite list_elem_of_In, List.filter_In.
          split; [by apply list_elem_of_In, map_get_elem|]. unfold is_new. cbn [fst]. by rewrite Hp, E. }
      apply list_elem_of_fmap in Hk as (s' & Ek & Hs').
      assert (s' ∈ records_of h) as Hs2 by (apply elem_of_app in Hs' as [|]; [by eapply (behind_records _ _ _ ss1)|by eapply (behind_records _ _ _ ss2)]).
      apply (key_parts "record" "record") in Ek as [_ Ek];
        [|done|by apply (accepted_ids h)|by apply (accepted_ids h)|repeat constructor..].
      pose proof (proj2 (find_record_iff h (rid s) s Hh) (conj Hs eq_refl)) as F1.
      pose proof (proj2 (find_record_iff h (rid s) s' Hh) (conj Hs2 (eq_sym Ek))) as F2.
      assert (s = s') as -> by congruence. done.
Qed.

(** *** The order of hits *)

#[export] Instance ranks_total : Total ranks.
Proof.
  intros [r t] [r' t']. unfold ranks. destruct (total String.le (r_id r) (r_id r'));
    destruct (Z.lt_trichotomy (r_created_at_ms r) (r_created_at_ms r')) as [|[]]; lia || tauto || idtac.
  all: destruct (Nat.lt_trichotomy (length t) (length t')) as [|[]]; naive_solver.
Qed.
#[export] Instance ranks_trans : Transitive ranks.
Proof.
  intros [r1 t1] [r2 t2] [r3 t3]. unfold ranks.
  intros [H|[H [H'|[H' H'']]]] [J|[J [J'|[J' J'']]]]; try (left; lia); right; (split; [lia|]);
    try (left; lia). right. split; [lia|by trans (r_id r2)].
Qed.

(** Hits of different records never tie. *)
Lemma ranks_antisym h query scope kinds now a b : accepted h →
  a ∈ omap (match_of h query scope kinds now) (records_of h) →
  b ∈ omap (match_of h query scope kinds now) (records_of h) → ranks a b → ranks b a → a = b.
Proof.
  intros Hh (s & Hs & Ea)%list_elem_of_omap (s' & Hs' & Eb)%list_elem_of_omap Hab Hba.
  assert (r_id a.1 = r_id b.1) as Hid.
  { destruct a, b. unfold ranks in Hab, Hba. simpl.
    destruct Hab as [?|[? [?|[? H1]]]], Hba as [?|[? [?|[? H2]]]]; try lia.
    by apply (anti_symm String.le). }
  assert (∀ x y, match_of h query scope kinds now x = Some y → y.1 = stored_record x) as Hrec.
  { intros x y. unfold match_of. destruct (_ && _); [|done]. case_bool_decide; [done|]. by intros [= <-]. }
  rewrite (Hrec _ _ Ea), (Hrec _ _ Eb) in Hid.
  pose proof (proj2 (find_record_iff h (rid s') s Hh) (conj Hs Hid)) as F1.
  pose proof (proj2 (find_record_iff h (rid s') s' Hh) (conj Hs' eq_refl)) as F2. congruence.
Qed.

Lemma hits_unique h query scope kinds now found : accepted h →
  found ≡ₚ omap (match_of h query scope kinds now) (records_of h) →
  merge_sort ranks found = hits h query scope kinds now.
Proof.
  intros Hh Hp. unfold hits. apply (StronglySorted_unique_strong ranks); [|apply StronglySorted_merge_sort; apply _..|].
  - intros a b. rewrite !merge_sort_Permutation, Hp. intros Ha Hb. by apply (ranks_antisym h query scope kinds now).
  - by rewrite !merge_sort_Permutation.
Qed.

(** The answer of a recall, from the history. *)
Definition recall_reference h (args : Value) scope now (sequence : N) : result Value string :=
  try! only args ["query"; "scope"; "kinds"; "limit"; "maxBytes"];
  let? text := string_arg args "query" 512 in
  let? limit := number args "limit" (N.min 8 (max_results config)) (max_results config) in
  let? bytes := number args "maxBytes" (N.min 6000 (max_result_bytes config))
                  (max_result_bytes config) in
  let? kinds := if opt_is_some (value_get args "kinds")
                then strings args "kinds" (len KINDS) 32 else Ok [] in
  if existsb (λ k, negb (str_mem k KINDS)) kinds then Err refuse
  else
    let ranked := hits h (terms text) scope kinds now in
    let? records := fill bytes sequence (take (N.to_nat limit) ranked) [] in
    within (recall_output records (len records <? len ranked)%N sequence) bytes.

Lemma gives_recall fuel changes h args scope now sequence :
  represents (view st changes) h → accepted h → fields_sorted changes = true →
  length (records_of h) < fuel →
  gives ans (recall config fuel changes args scope now sequence) =
    Some (recall_reference h args scope now sequence).
Proof.
  intros Hr Hh Hsorted Hfuel. unfold recall, recall_reference.
  destruct (only _ _) as [[]|e]; cbn [result_bind]; rewrite gives_bind, gives_lift; [|done].
  destruct (string_arg _ _ _) as [text|e]; cbn [result_bind]; rewrite gives_bind, gives_lift; [|done].
  destruct (number args "limit" _ _) as [limit|e]; cbn [result_bind]; rewrite gives_bind, gives_lift; [|done].
  destruct (number args "maxBytes" _ _) as [bytes|e]; cbn [result_bind]; rewrite gives_bind, gives_lift; [|done].
  destruct (if opt_is_some _ then _ else _) as [kinds|e]; cbn [result_bind]; rewrite gives_bind, gives_lift; [|done].
  destruct (existsb _ kinds); [done|].
  destruct (rows_behind changes h (rows "record/" None) Hr Hh) as [ss1 H1].
  { intros [k v] [Hk Hv]%rows_elem. split; [done|]. unfold view. simpl. rewrite Hv.
    by destruct (map_get k changes). }
  assert (∀ k v, (k, v) ∈ changes → map_get k changes = Some v) as Hin.
  { intros k v. by apply map_get_elem, fields_sorted_nodup. }
  destruct (rows_behind changes h (List.filter is_new changes) Hr Hh) as [ss2 H2].
  { intros [k v] Hkv. rewrite list_elem_of_In, List.filter_In, <- list_elem_of_In in Hkv.
    destruct Hkv as [Hkv [Hk _]%andb_true_iff]. split; [done|]. unfold view. simpl. by rewrite (Hin k v). }
  pose proof (visited changes h ss1 ss2 Hr Hh Hsorted H1 H2) as Hp.
  rewrite gives_bind, (gives_scan fuel changes h _ _ _ _ ss1); [|done..|].
  2: { apply Permutation_length in Hp. rewrite length_app in Hp. lia. }
  rewrite gives_bind, (gives_new changes h _ _ _ _ changes ss2) by done.
  rewrite app_nil_l, <- omap_app.
  rewrite (hits_unique h _ _ _ _ _ Hh) by (by rewrite Hp).
  destruct (fill _ _ _ _) as [records|e]; cbn [result_bind]; by rewrite gives_bind, gives_lift.
Qed.
End represented.

(** ** Runs *)

Section runs.
Context {SJ : SerdeJson} {UT : UnicodeTables} {ML : MemoryLibs} {ST : Store}.
Context (config : Config) (instance : string) (ids : list string).

(** The store answers from the map. *)
Definition reads_map (ans : Oracle) (st : gmap string Value) : Prop :=
  (∀ k, gives ans (st_get k) = Some (Ok (st !! k))) ∧
  (∀ prefix after limit,
     gives ans (st_scan prefix after limit) = Some (Ok (take (N.to_nat limit) (rows st prefix after)))).

(** The committed store, the changes of the delivery in progress, and the
    log of changes, newest first: those still to be delivered to the
    component and those it has. *)
Record MemoryWorld : Type := mkMemoryWorld {
  w_store : gmap string Value;
  w_changes : Changes;
  w_pending : list Change;
  w_known : list Change;
}.
Definition no_memory : MemoryWorld := mkMemoryWorld ∅ [] [] [].

Definition overlay (st : gmap string Value) (changes : Changes) : gmap string Value :=
  foldl (λ st '(k, v), <[k := v]> st) st changes.

Inductive memory_step (w : MemoryWorld) : MemoryWorld → Prop :=
| step_execute ans fuel operation args now sequence readable answer change changes' :
    w_pending w = [] → reads_map ans (w_store w) → names_ids instance ids args →
    (∀ id, ∃ b, run_with ans (readable id) = Ok b) →
    gives ans (execute config instance fuel (w_changes w) operation args now sequence readable)
      = Some (Ok (answer, change, changes')) →
    memory_step w (mkMemoryWorld (w_store w) changes' []
                     (match change with Some c => c :: w_known w | None => w_known w end))
| step_learn ans c pending changes' :
    reads_map ans (w_store w) → w_pending w = pending ++ [c] →
    gives ans (apply (w_changes w) c) = Some (Ok changes') →
    memory_step w (mkMemoryWorld (w_store w) changes' pending (c :: w_known w))
| step_redeliver ans c changes' :
    reads_map ans (w_store w) → c ∈ w_known w →
    gives ans (apply (w_changes w) c) = Some (Ok changes') →
    memory_step w (mkMemoryWorld (w_store w) changes' (w_pending w) (w_known w))
| step_commit :
    memory_step w (mkMemoryWorld (overlay (w_store w) (w_changes w)) [] (w_pending w) (w_known w))
| step_drop :
    memory_step w (mkMemoryWorld ∅ [] (w_pending w ++ w_known w) []).

Record memory_ok (w : MemoryWorld) : Prop := {
  ok_represents : represents ids (view (w_store w) (w_changes w)) (w_known w);
  ok_accepted : accepted config instance ids (w_pending w ++ w_known w);
  ok_sorted : fields_sorted (w_changes w) = true;
}.

Lemma applied_sorted changes c h : fields_sorted changes = true → fields_sorted (applied changes c h) = true.
Proof.
  intros Hs. unfold applied. destruct (ch_record c), (forgotten_root c);
    repeat apply fields_sorted_insert; done.
Qed.

Lemma accepted_app h1 h2 : accepted config instance ids (h1 ++ h2) → accepted config instance ids h2.
Proof. induction h1 as [|c h1 IH]; [done|]. intros [_ H]. by apply IH. Qed.

Lemma known_op h c : accepted config instance ids h → c ∈ h → find_op h (operation_id c) = Some c.
Proof.
  induction h as [|c' h IH]; [by rewrite elem_of_nil|]. intros [Hc Hh]. unfold find_op. simpl.
  intros [->|Hin]%elem_of_cons; [by rewrite String.eqb_refl|].
  destruct (String.eqb_spec (operation_id c') (operation_id c)) as [E|]; [|by apply IH].
  apply accepts_fresh in Hc. by destruct (find_op_none h (operation_id c') c Hc Hin).
Qed.

Lemma overlay_lookup st changes k : fields_sorted changes = true →
  overlay st changes !! k = view st changes k.
Proof.
  intros Hnd%fields_sorted_nodup. unfold overlay, view. revert st.
  induction changes as [|[k' v] changes IH]; intros st; [done|]. csimpl in Hnd.
  apply NoDup_cons in Hnd as [Hni Hnd]. simpl. rewrite IH by done.
  destruct (String.eqb_spec k k') as [->|Hne]; [|by rewrite lookup_insert_ne].
  destruct (map_get k' changes) as [x|] eqn:E; [|by rewrite lookup_insert_eq].
  apply map_get_elem in E; [|done]. destruct Hni. apply list_elem_of_fmap. by exists (k', x).
Qed.

Lemma represents_ext v v' h : (∀ k, v' k = v k) → represents ids v h → represents ids v' h.
Proof. intros E [H1 H2 H3 H4 H5]. split; intros; rewrite ?E in *; eauto. Qed.

Context (Hhash : hashes_distinct instance ids) (Hcodec : memory_codec) (Hjson : ∀ v, ∃ b, to_vec v = Ok b).
Context (Hmax : (max_records config ≤ u64_max)%N).

Lemma execute_kept ans w fuel operation args now sequence readable answer change changes' :
  memory_ok w → w_pending w = [] → reads_map ans (w_store w) → names_ids instance ids args →
  (∀ id, ∃ b, run_with ans (readable id) = Ok b) →
  gives ans (execute config instance fuel (w_changes w) operation args now sequence readable)
    = Some (Ok (answer, change, changes')) →
  match change with
  | None => changes' = w_changes w
  | Some c => accepts config instance ids (w_known w) c ∧ changes' = applied (w_changes w) c (w_known w)
  end.
Proof.
  intros [Hr Ha Hs] Hp [Hget Hscan] Hnames Hreadable. unfold execute. rewrite gives_bind, gives_lift.
  destruct (string_arg args "scope" 256) as [scope|e]; [|done].
  destruct (String.eqb operation "recall").
  { rewrite gives_bind. destruct (gives ans (recall _ _ _ _ _ _ _)) as [[]|]; [|done|done].
    rewrite gives_ret. by intros [= _ <- <-]. }
  destruct (String.eqb operation "get").
  { rewrite gives_bind. destruct (gives ans (read_ids _ _ _ _ _)) as [[]|]; [|done|done].
    rewrite gives_ret. by intros [= _ <- <-]. }
  destruct (str_mem operation _) eqn:Ho; [|done]. rewrite str_mem_spec in Ho. intros Hg. rewrite Hp in Ha.
  pose proof (lands_execute_write config instance ids Hhash Hcodec ans (w_store w) Hget Hjson (w_changes w)
    (w_known w) operation args scope now readable Hr Ha Hnames Hmax Ho Hreadable) as H.
  rewrite Hg in H. destruct change as [c|]; [|by destruct H]. by destruct H as (? & _ & _ & _ & ?).
Qed.

Lemma learn_kept ans w c changes' h : reads_map ans (w_store w) →
  represents ids (view (w_store w) (w_changes w)) h → accepts config instance ids h c →
  gives ans (apply (w_changes w) c) = Some (Ok changes') → changes' = applied (w_changes w) c h.
Proof.
  intros [Hget _] Hr Hc.
  rewrite (gives_apply ids ans (w_store w) Hget _ c h Hr); [congruence|by eapply accepts_op|by eapply accepts_fresh|].
  intros Hne. destruct Hc as [s _ _ _ _ _ _ _ _ Hn|]; [lia|done].
Qed.

Lemma step_ok w w' : memory_ok w → memory_step w w' → memory_ok w'.
Proof.
  intros Hok Hstep. pose proof Hok as [Hr Ha Hs].
  destruct Hstep as [ans fuel operation args now sequence readable answer change changes' Hp Hans Hnames Hreadable Hg
                    |ans c pending changes' Hans Hp Hg|ans c changes' Hans Hin Hg| |].
  - pose proof (execute_kept _ _ _ _ _ _ _ _ _ _ _ Hok Hp Hans Hnames Hreadable Hg) as H. rewrite Hp in Ha.
    destruct change as [c|]; [|subst changes'; by split].
    destruct H as [Hc ->]. split; simpl; [|done|by apply applied_sorted]. destruct Hans as [Hget _].
    eapply applied_represents; [done..|by eapply accepts_shaped|by eapply accepts_ids].
  - rewrite Hp, <- (assoc_L (++)) in Ha. pose proof (accepted_app _ _ Ha) as [Hc Hknown].
    apply (learn_kept ans w c changes' (w_known w)) in Hg as ->; [|done..].
    split; simpl; [|done|by apply applied_sorted]. destruct Hans as [Hget _].
    eapply applied_represents; [done..|by eapply accepts_shaped|by eapply accepts_ids].
  - destruct Hans as [Hget _].
    pose proof (accepted_app _ _ Ha) as Hknown.
    rewrite (gives_apply_again ids ans (w_store w) Hget _ c (w_known w)) in Hg;
      [injection Hg as <-; by split|done|by eapply accepted_ops|]. by apply known_op.
  - split; simpl; [|done|done]. eapply represents_ext; [|done]. intros k.
    unfold view at 1. simpl. by apply overlay_lookup.
  - split; simpl; [|by rewrite app_nil_r|done]. split; done.
Qed.

Lemma reachable_memory w : rtc memory_step no_memory w → memory_ok w.
Proof.
  intros Hw. assert (memory_ok no_memory) as H0 by (split; [by split|done|done]).
  revert H0. induction Hw as [|w1 w2 w3 Hstep _ IH]; [done|]. intros H1. apply IH. by eapply step_ok.
Qed.
End runs.

(** (C6) Memory is the replay of its log.  Whatever happened, requests
    executed, the component's own changes delivered, again or late, state
    committed, or all state lost and replayed, the store holds exactly what
    the changes the component knows say: the records, the current one of each
    root, the receipt of each operation.  Every operation is accepted once;
    a write on a store that has caught up with the log is answered with its
    receipt, done before or now, or with an error of the contract, never with
    a storage failure.  [ids] are the identifiers that the run and the write
    name, and the only ones whose hashes must differ; requests are executed
    only when the component has caught up. *)
Theorem memory_replays_log `{SJ : SerdeJson} `{UT : UnicodeTables} `{ML : MemoryLibs} `{ST : Store}
    (config : Config) (instance : string) (ids : list string) (w : MemoryWorld)
    (Hhash : hashes_distinct instance ids) (Hcodec : memory_codec) (Hjson : ∀ v, ∃ b, to_vec v = Ok b)
    (Hmax : (max_records config ≤ u64_max)%N)
    (Hrun : rtc (memory_step config instance ids) no_memory w) :
  represents ids (view (w_store w) (w_changes w)) (w_known w) ∧
  NoDup (operation_id <$> (w_pending w ++ w_known w)) ∧
  (w_pending w = [] → ∀ ans operation args scope now readable,
     reads_map ans (w_store w) → operation ∈ ["remember"; "supersede"; "forget"] → names_ids instance ids args →
     (∀ id, ∃ b, run_with ans (readable id) = Ok b) →
     lands (written config instance ids (w_known w) (w_changes w) operation args)
       (gives ans (execute_write config instance (w_changes w) operation args scope now readable))).
Proof.
  destruct (reachable_memory config instance ids Hhash Hcodec Hjson Hmax w Hrun) as [Hr Ha Hs].
  split_and!; [done| |].
  - clear -Ha. induction (w_pending w ++ w_known w) as [|c h IH]; [constructor|]. destruct Ha as [Hc Hh].
    csimpl. constructor; [|by apply IH]. intros (c' & E & Hin)%list_elem_of_fmap.
    apply accepts_fresh in Hc. by destruct (find_op_none h (operation_id c) c' Hc Hin).
  - intros Hp ans operation args scope now readable [Hget _] Ho Hnames Hreadable. rewrite Hp in Ha.
    by apply (lands_execute_write config instance ids Hhash Hcodec ans (w_store w) Hget Hjson).
Qed.

(** (C24) Recall is exact.  It answers the records that are current, unexpired,
    in the scope, of the asked kinds and share a term with the query, ranked
    by matched terms, then recency, then id: as many of the first [limit] as
    fit, whole, with [truncated] set exactly when some of the hits are left
    out; in the middle of a delivery it sees the delivery's own writes.  The
    identifiers that occur in the run do not collide under the hash. *)
Theorem recall_exact `{SJ : SerdeJson} `{UT : UnicodeTables} `{ML : MemoryLibs} `{ST : Store}
    (config : Config) (instance : string) (ids : list string) (w : MemoryWorld) (ans : Oracle) (fuel : nat)
    (args : Value) (scope : string) (now : Z) (sequence : N)
    (Hhash : hashes_distinct instance ids) (Hcodec : memory_codec) (Hjson : ∀ v, ∃ b, to_vec v = Ok b)
    (Hmax : (max_records config ≤ u64_max)%N)
    (Hrun : rtc (memory_step config instance ids) no_memory w) (Hans : reads_map ans (w_store w))
    (Hfuel : length (records_of (w_known w)) < fuel) :
  gives ans (recall config fuel (w_changes w) args scope now sequence) =
    Some (recall_reference config (w_known w) args scope now sequence).
Proof.
  destruct (reachable_memory config instance ids Hhash Hcodec Hjson Hmax w Hrun) as [Hr Ha Hs].
  destruct Hans as [Hget Hscan]. apply accepted_app in Ha.
  by eapply (gives_recall config instance ids).
Qed.

(** An accepted memory can be forgotten.  A removal that names the
    current record of its scope succeeds whatever the chain before it, its
    receipt lists every version, newest first, and afterwards no version of
    it is visible in any scope at any time. *)
Theorem forget_succeeds `{SJ : SerdeJson} `{UT : UnicodeTables} `{ML : MemoryLibs} `{ST : Store}
    (config : Config) (instance : string) (ids : list string) (w : MemoryWorld) (ans : Oracle) (fuel : nat)
    (args : Value) (scope op : string) (s : StoredRecord) (now : Z) (sequence : N)
    (readable : string → Guest bool)
    (Hhash : hashes_distinct instance ids) (Hcodec : memory_codec) (Hjson : ∀ v, ∃ b, to_vec v = Ok b)
    (Hmax : (max_records config ≤ u64_max)%N)
    (Hrun : rtc (memory_step config instance ids) no_memory w) (Hcaught_up : w_pending w = [])
    (Hans : reads_map ans (w_store w))
    (Hargs : forget_args args scope op (r_id (stored_record s)))
    (Hnamed : op ∈ ids) (Hnew : find_op (w_known w) op = None) (Hrecord : s ∈ records_of (w_known w))
    (Hcurrent : is_head (w_known w) s = true) (Hscope : r_scope (stored_record s) = scope) :
  let receipt := forgotten_receipt (versions (w_known w) (stored_root s)) in
  let c := mkChange op (hash (Array [Str "forget"; args])) receipt None (Some (stored_root s)) in
  gives ans (execute config instance fuel (w_changes w) "forget" args now sequence readable) =
    Some (Ok (receipt, Some c, applied (w_changes w) c (w_known w))) ∧
  ∀ s' scope' now', stored_root s' = stored_root s → visible (c :: w_known w) scope' now' s' = false.
Proof.
  destruct (reachable_memory config instance ids Hhash Hcodec Hjson Hmax w Hrun) as [Hr Ha Hs].
  destruct Hans as [Hget _]. rewrite Hcaught_up in Ha. intros receipt c. split.
  - by apply (gives_forget config instance ids Hhash Hcodec ans (w_store w) Hget Hjson _ _ _ scope).
  - intros s' scope' now' Hroot. by apply (forgotten_invisible _ _ (stored_root s)).
Qed.
