(* ===== verification/MemorySample.v ===== *)
(** Concrete libraries and a concrete store for the memory plugin, and its
    theorems on a run that remembers, corrects and forgets. *)
From stdpp Require Import base tactics countable option list strings sorting gmap.
From Stdlib Require Import ZArith NArith Lia Ascii.
From S2P Require Import Prelude Event Blob Delivery Utf8 Json JsonFlat Host Imports Instance Plugin Memory MemorySpec.
Import JsonFlat.Flat.

(** ** Libraries *)

Module MemoryLibrary.
Definition decode_strs (v : Value) : option (list string) := as_array v ≫= mapM as_str.

Definition decode_record (v : Value) : option MemoryRecord :=
  id ← as_str (value_index v "id");
  kind ← as_str (value_index v "kind");
  content ← as_str (value_index v "content");
  scope ← as_str (value_index v "scope");
  sources ← decode_strs (value_index v "sources");
  basis ← as_str (value_index v "basis");
  created ← Codec.as_int (value_index v "createdAtMs");
  supersedes ← Codec.decode_opt as_str (value_index v "supersedes");
  expires ← Codec.decode_opt Codec.as_int (value_index v "expiresAtMs");
  Some (mkRecord id kind content scope sources basis created supersedes expires).

Definition decode_stored (v : Value) : option StoredRecord :=
  record ← decode_record (value_index v "record");
  root ← as_str (value_index v "root");
  terms ← decode_strs (value_index v "terms");
  Some (mkStored record root (btree_set terms)).

Definition decode_change (v : Value) : option Change :=
  op ← as_str (value_index v "operationId");
  digest ← as_str (value_index v "digest");
  record ← Codec.decode_opt decode_stored (value_index v "record");
  root ← Codec.decode_opt as_str (value_index v "forgottenRoot");
  Some (mkChange op digest (value_index v "receipt") record root).

(** A digest of 32 bytes: a checksum of 64 bits after 24 zeros. *)
Definition checksum (b : bytes) : N :=
  fold_left (λ acc c, (acc * 257 + Byte.to_N c) mod 2 ^ 64)%N b 7%N.
Definition checksum_bytes (b : bytes) : bytes :=
  replicate 24 Byte.x00
  ++ ((λ i, default Byte.x00 (Byte.of_N (N.shiftr (checksum b) (8 * N.of_nat i) mod 256))) <$> seq 0 8).

#[export] Instance memory_libs : MemoryLibs := {|
  memory_sha256 := checksum_bytes;
  to_lowercase s := s;
  stored_from_value v := ok_or (decode_stored v) "invalid type";
  change_from_value v := ok_or (decode_change v) "invalid type";
  config_from_slice _ := Ok default_config;
|}.
#[export] Instance memory_tables : UnicodeTables := {| unicode_alphanumeric _ := false |}.

Lemma decode_opt_str o : Codec.decode_opt as_str (opt_str o) = Some o.
Proof. by destruct o. Qed.
Lemma decode_strs_to l : decode_strs (strs l) = Some l.
Proof.
  unfold decode_strs, strs. cbn [as_array mbind option_bind]. rewrite mapM_Some.
  induction l as [|s l IH]; [constructor|]. by constructor.
Qed.
Lemma decode_record_to r : decode_record (record_to_value r) = Some r.
Proof.
  unfold decode_record, record_to_value, value_index. rewrite !object_get. cbn -[decode_strs strs Codec.decode_opt Codec.as_int num_i64 opt_num_i64 opt_str].
  rewrite decode_strs_to. cbn -[Codec.decode_opt Codec.as_int num_i64 opt_num_i64 opt_str].
  rewrite Codec.as_int_num, decode_opt_str. cbn -[Codec.decode_opt opt_num_i64]. rewrite Codec.decode_opt_int. by destruct r.
Qed.
Lemma memory_codec_holds : memory_codec.
Proof.
  intros s Hs. cbn [stored_from_value memory_libs]. unfold decode_stored, stored_to_value, value_index.
  rewrite !object_get. cbn -[decode_strs strs decode_record record_to_value]. rewrite decode_record_to. cbn -[decode_strs strs]. rewrite decode_strs_to. cbn. rewrite <- Hs. by destruct s.
Qed.

End MemoryLibrary.
Import MemoryLibrary.

(** ** A store *)

(** The host of a component whose state is the map. *)
Definition unanswered {A} : result A WitError := Err (failure "unavailable").
Definition oracle (st : gmap string Value) : Oracle := λ c,
  match c with
  | StateGet key => Ok (value_bytes <$> st !! key)
  | StateScan prefix after limit =>
      Ok (mkWitStatePage ((λ '(k, v), mkStateEntry k (value_bytes v)) <$>
                            take (N.to_nat limit) (rows st prefix after)) None)
  | EventsAppend _ | EventsGet _ | EventsQuery _ _ | BlobsPut _ _ | BlobsOpenWrite _ _
  | BlobsWrite _ _ _ | BlobsFinish _ | BlobsResolveVisible _ | BlobsRead _ _ _
  | CredentialsResolveExport _ | CredentialsGet _ | CredentialsCompareAndSwap _ _ _
  | RuntimeReady _ _ | RuntimeNext | RuntimeCommit _ _ _ | RuntimeReject _ => unanswered
  | MemoryGrowing _ _ => tt
  end.

Lemma from_value_bytes v : from_slice (value_bytes v) = Ok v.
Proof. by apply flat_exact. Qed.

Lemma oracle_reads st : reads_map (oracle st) st.
Proof.
  split.
  - intros k. unfold gives. cbn -[from_slice value_bytes flat_codec].
    destruct (st !! k) as [v|]; cbn -[from_slice value_bytes flat_codec]; [by rewrite from_value_bytes|done].
  - intros prefix after limit. unfold gives. cbn -[from_slice value_bytes flat_codec try_map take rows]. f_equal.
    induction (take (N.to_nat limit) (rows st prefix after)) as [|[k v] l IH]; [done|].
    cbn -[from_slice value_bytes flat_codec] in *. rewrite from_value_bytes. cbn -[from_slice value_bytes flat_codec].
    by rewrite IH.
Qed.

(** ** A run *)

Definition all_sources (id : string) : Guest bool := Return true.

(** One request, executed by the memory of the instance. *)
Definition request (w : MemoryWorld) (operation : string) (args : Value) : MemoryWorld :=
  match gives (oracle (w_store w))
          (execute default_config "memory" 10 (w_changes w) operation args 1000 1 all_sources) with
  | Some (Ok (_, change, changes)) =>
      mkMemoryWorld (w_store w) changes []
        (match change with Some c => c :: w_known w | None => w_known w end)
  | _ => w
  end.
Definition committed (w : MemoryWorld) : MemoryWorld :=
  mkMemoryWorld (overlay (w_store w) (w_changes w)) [] (w_pending w) (w_known w).

(** The identifiers of the run: three operations and the records of the first
    two. *)
Definition run_ids : list string :=
  ["a"; "b"; "c"; record_id "memory" "a"; record_id "memory" "b"; record_id "memory" "c"].

Lemma run_id (i : nat) x : run_ids !! i = Some x → x ∈ run_ids.
Proof. apply list_elem_of_lookup_2. Qed.

Lemma nodup_images {A B} (f : A → B) l a b : NoDup (f <$> l) → a ∈ l → b ∈ l → f a = f b → a = b.
Proof.
  intros Hnd [i Hi]%list_elem_of_lookup [j Hj]%list_elem_of_lookup E.
  assert (i = j) as <-; [|congruence].
  eapply NoDup_lookup; [exact Hnd|by rewrite list_lookup_fmap, Hi|by rewrite list_lookup_fmap, Hj, E].
Qed.

Lemma run_ids_distinct : hashes_distinct "memory" run_ids.
Proof.
  intros a b Ha Hb. split; intros E.
  - apply (nodup_images (λ x, hash (Str x)) run_ids); [|done..].
    apply (bool_decide_unpack _). vm_compute. exact I.
  - apply (nodup_images (λ x, hash (Array [Str "memory"; Str x])) run_ids); [|done..].
    apply (bool_decide_unpack _). vm_compute. exact I.
Qed.

Lemma names_run args op expected :
  string_arg args "operationId" 128 = Ok op → op ∈ run_ids → record_id "memory" op ∈ run_ids →
  string_arg args "expectedId" 512 = expected → (∀ id, expected = Ok id → id ∈ run_ids) →
  names_ids "memory" run_ids args.
Proof. intros Hop Ho Hr He Hid. split; [|by rewrite He]. intros x Hx. rewrite Hop in Hx. by injection Hx as <-. Qed.

Lemma request_steps w operation args : w_pending w = [] → names_ids "memory" run_ids args →
  rtc (memory_step default_config "memory" run_ids) w (request w operation args).
Proof.
  intros Hp Hn. unfold request. destruct (gives _ _) as [[[[answer change] changes]|]|] eqn:E; [|done|done].
  apply rtc_once. eapply (step_execute _ _ _ _ (oracle (w_store w))); [done|apply oracle_reads|done| |done].
  intros id. by exists true.
Qed.

Definition remember_args : Value :=
  object [("scope", Str "s"); ("operationId", Str "a"); ("kind", Str "fact");
          ("content", Str "green tea"); ("sources", strs ["e"]); ("basis", Str "explicit")].
Definition remembered : MemoryWorld := committed (request no_memory "remember" remember_args).
Definition supersede_args : Value :=
  object [("scope", Str "s"); ("operationId", Str "b"); ("kind", Str "fact");
          ("content", Str "black tea"); ("sources", strs ["e"]); ("basis", Str "explicit");
          ("expectedId", Str (record_id "memory" "a"))].
Definition corrected : MemoryWorld := request remembered "supersede" supersede_args.
Definition forget_b : Value :=
  object [("scope", Str "s"); ("operationId", Str "c"); ("expectedId", Str (record_id "memory" "b"))].

Lemma remember_names : names_ids "memory" run_ids remember_args.
Proof. by eapply (names_run _ "a" (Err _)); [reflexivity|by apply (run_id 0)|by apply (run_id 3)|reflexivity|]. Qed.
Lemma supersede_names : names_ids "memory" run_ids supersede_args.
Proof.
  eapply (names_run _ "b" (Ok (record_id "memory" "a"))); [reflexivity|by apply (run_id 1)|by apply (run_id 4)|vm_compute; reflexivity|].
  intros id [= <-]. by apply (run_id 3).
Qed.
Lemma forget_names : names_ids "memory" run_ids forget_b.
Proof.
  eapply (names_run _ "c" (Ok (record_id "memory" "b"))); [reflexivity|by apply (run_id 2)|by apply (run_id 5)|vm_compute; reflexivity|].
  intros id [= <-]. by apply (run_id 4).
Qed.

Lemma corrected_reachable : rtc (memory_step default_config "memory" run_ids) no_memory corrected.
Proof.
  transitivity (request no_memory "remember" remember_args); [by apply request_steps, remember_names|].
  transitivity remembered; [apply rtc_once, step_commit|].
  apply request_steps; [vm_compute; reflexivity|apply supersede_names].
Qed.

Lemma encodes v : ∃ b, to_vec v = Ok b.
Proof. by eexists. Qed.

Definition second_record : StoredRecord :=
  mkStored (mkRecord (record_id "memory" "b") "fact" "black tea" "s" ["e"] "explicit" 1000
              (Some (record_id "memory" "a")) None)
    (record_id "memory" "a") ["black"; "tea"].
Definition tea_args : Value := object [("scope", Str "s"); ("query", Str "tea?")].

Lemma default_capacity : (max_records default_config ≤ u64_max)%N.
Proof. vm_compute. congruence. Qed.

Lemma memory_replays_log_witness :
  represents run_ids (view (w_store corrected) (w_changes corrected)) (w_known corrected) ∧
  NoDup (operation_id <$> (w_pending corrected ++ w_known corrected)) ∧
  lands (written default_config "memory" run_ids (w_known corrected) (w_changes corrected) "forget" forget_b)
    (gives (oracle (w_store corrected))
       (execute_write default_config "memory" (w_changes corrected) "forget" forget_b "s" 2000 all_sources)).
Proof.
  destruct (memory_replays_log default_config "memory" run_ids corrected run_ids_distinct memory_codec_holds
    encodes default_capacity corrected_reachable) as (H1 & H2 & H3).
  split; [exact H1|]. split; [exact H2|]. apply H3.
  - vm_compute. reflexivity.
  - apply oracle_reads.
  - right. right. left.
  - apply forget_names.
  - intros id. exists true. reflexivity.
Defined.

Lemma corrected_few : length (records_of (w_known corrected)) < 10.
Proof. vm_compute. lia. Qed.
Lemma tea_reference :
  recall_reference default_config (w_known corrected) tea_args "s" 2000 7 =
    Ok (recall_output [hit (stored_record second_record, ["tea"])] false 7).
Proof. vm_compute. reflexivity. Qed.

(** The correction is found by the term it shares with what it corrects. *)
Lemma recall_exact_witness :
  gives (oracle (w_store corrected)) (recall default_config 10 (w_changes corrected) tea_args "s" 2000 7) =
  Some (Ok (recall_output [hit (stored_record second_record, ["tea"])] false 7)).
Proof.
  rewrite <- tea_reference.
  exact (recall_exact default_config "memory" run_ids corrected (oracle (w_store corrected)) 10
    tea_args "s" 2000 7 run_ids_distinct memory_codec_holds
    encodes default_capacity corrected_reachable (oracle_reads _) corrected_few).
Defined.

Lemma corrected_versions :
  versions (w_known corrected) (stored_root second_record) = [record_id "memory" "b"; record_id "memory" "a"].
Proof. vm_compute. reflexivity. Qed.
Lemma corrected_current :
  w_pending corrected = [] ∧ find_op (w_known corrected) "c" = None ∧
  second_record ∈ records_of (w_known corrected) ∧ is_head (w_known corrected) second_record = true.
Proof. split_and!; [vm_compute; reflexivity..|vm_compute; left|vm_compute; reflexivity]. Qed.
Lemma forget_b_args : forget_args forget_b "s" "c" (r_id (stored_record second_record)).
Proof. vm_compute. done. Qed.

(** Forgetting the correction forgets the corrected record too. *)
Lemma forget_succeeds_witness :
  ∃ c, gives (oracle (w_store corrected))
    (execute default_config "memory" 10 (w_changes corrected) "forget" forget_b 2000 7 all_sources) =
    Some (Ok (forgotten_receipt [record_id "memory" "b"; record_id "memory" "a"], Some c,
              applied (w_changes corrected) c (w_known corrected))) ∧
  visible (c :: w_known corrected) "s" 2000 second_record = false.
Proof.
  rewrite <- corrected_versions. destruct corrected_current as (Hp & Hop & Hin & Hhead).
  destruct (forget_succeeds default_config "memory" run_ids corrected (oracle (w_store corrected)) 10 forget_b "s"
    "c" second_record 2000 7 all_sources run_ids_distinct memory_codec_holds encodes
    default_capacity corrected_reachable Hp (oracle_reads _) forget_b_args
    (run_id 2 _ eq_refl) Hop Hin Hhead eq_refl) as [H1 H2].
  eexists. split; [exact H1|]. apply H2. reflexivity.
Defined.
