(* ===== verification/Compaction.v ===== *)
(** The context budget and the working summaries of the reasoning plugin
    ([plugins/rlm/cognition/src/compaction.rs] and [provenance.rs]).

    The plugin is compiled for a 32-bit target: [usize] saturates at 2^32 - 1.
    Decoding a summary with the derived [Deserialize] is a parameter; the
    derived [Serialize] is written out. *)
From stdpp Require Import base tactics option list strings.
From Stdlib Require Import ZArith NArith Lia Ascii.
From S2P Require Import Prelude Utf8 Json CognitionText.

Definition usize_max : N := u32_max.

Definition SOFT_LIMIT : N := 48 * 1024.
Definition HARD_LIMIT : N := 64 * 1024.
Definition DEFAULT_OUTPUT_RESERVE_TOKENS : N := 4096.
Definition DEFAULT_HEADROOM_TOKENS : N := 1024.
Definition MAX_SUMMARY_BYTES : N := 12 * 1024.
Definition MAX_TEXT_BYTES : N := 4096.
Definition MAX_ITEMS : N := 32.
Definition MAX_SOURCES : N := 64.

(** ** The budget *)

Record BudgetConfig : Type := mkBudgetConfig {
  context_tokens : option N;
  output_reserve_tokens : option N;
  headroom_tokens : option N;
}.

Definition saturating_add_usize (a b : N) : N := N.min (a + b) usize_max.
Definition output_reserve (c : BudgetConfig) : N :=
  default DEFAULT_OUTPUT_RESERVE_TOKENS (output_reserve_tokens c).
Definition headroom (c : BudgetConfig) : N := default DEFAULT_HEADROOM_TOKENS (headroom_tokens c).

(** [BudgetConfig::validate]. *)
Definition budget_validate (c : BudgetConfig) : result unit string :=
  if bool_decide (output_reserve_tokens c = Some 0%N) then
    Err "budget outputReserveTokens must be positive"
  else
    match context_tokens c with
    | Some context =>
        if (context =? 0)%N || (context <=? saturating_add_usize (output_reserve c) (headroom c))%N
        then Err "budget contextTokens must exceed outputReserveTokens and headroomTokens"
        else Ok tt
    | None => Ok tt
    end.

Inductive Admission : Type := Continue | Compact | Reject.
#[export] Instance admission_eq_dec : EqDecision Admission.
Proof. solve_decision. Defined.

Definition estimated_tokens (bytes : N) : N := bytes.

(** [context_tokens.checked_sub(..)]. *)
Definition token_budget_ok (request_bytes : N) (c : BudgetConfig) : bool :=
  match context_tokens c with
  | None => true
  | Some context =>
      let reserved := saturating_add_usize (output_reserve c) (headroom c) in
      (reserved <=? context)%N && (estimated_tokens request_bytes <=? context - reserved)%N
  end.

(** The subtractions of [admission] as it makes them; [None] when one wraps. *)
Definition input_budget (c : BudgetConfig) (context : N) : option N :=
  if (output_reserve c <=? context)%N && (headroom c <=? context - output_reserve c)%N
  then Some (context - output_reserve c - headroom c)%N else None.
Definition compact_threshold (budget : N) : N := (budget / 100 * 85 + budget mod 100 * 85 / 100)%N.

(** [None] when a subtraction wraps. *)
Definition admission (request_bytes : N) (c : BudgetConfig) : option Admission :=
  if (HARD_LIMIT <? request_bytes)%N || negb (is_ok (budget_validate c)) then Some Reject
  else
    match context_tokens c with
    | None => Some (if (SOFT_LIMIT <? request_bytes)%N then Compact else Continue)
    | Some context =>
        budget ← input_budget c context;
        Some (if (SOFT_LIMIT <? request_bytes)%N
                 || (compact_threshold budget <=? estimated_tokens request_bytes)%N
              then Compact else Continue)
    end.

(** ** Working summaries *)

Record SourcedFact : Type := mkSourcedFact { fact_content : string; fact_sources : list string }.

Record WorkingSummary : Type := mkWorkingSummary {
  ws_version : N;
  ws_objective : string;
  ws_constraints : list string;
  ws_decisions : list string;
  ws_completed_work : list string;
  ws_unresolved_questions : list string;
  ws_durable_facts : list SourcedFact;
  ws_corrections : list SourcedFact;
  ws_source_ids : list string;
}.

Definition texts (l : list string) : Value := Array (Str <$> l).
Definition fact_to_value (f : SourcedFact) : Value :=
  object [("content", Str (fact_content f)); ("sources", texts (fact_sources f))].
Definition summary_to_value (s : WorkingSummary) : Value :=
  object [("version", num_u64 (ws_version s)); ("objective", Str (ws_objective s));
          ("constraints", texts (ws_constraints s)); ("decisions", texts (ws_decisions s));
          ("completedWork", texts (ws_completed_work s));
          ("unresolvedQuestions", texts (ws_unresolved_questions s));
          ("durableFacts", Array (fact_to_value <$> ws_durable_facts s));
          ("corrections", Array (fact_to_value <$> ws_corrections s));
          ("sourceIds", texts (ws_source_ids s))].

Definition valid_text (text : string) (max : N) : bool :=
  negb (trim_is_empty text) && (str_len text <=? max)%N.
Definition valid_items (items : list string) : bool :=
  (len items <=? MAX_ITEMS)%N && forallb (λ item, valid_text item MAX_TEXT_BYTES) items.
Definition valid_facts (items : list SourcedFact) : bool :=
  (len items <=? MAX_ITEMS)%N
  && forallb (λ item,
       negb (bool_decide (fact_sources item = [])) && (len (fact_sources item) <=? 16)%N
       && forallb (λ s, valid_text s 256) (fact_sources item)
       && valid_text (fact_content item) MAX_TEXT_BYTES) items.

(** What the derived decoder computes. *)
Class SummaryDecoder : Type := { summary_from_value : Value → option WorkingSummary }.

Section summaries.
Context {SJ : SerdeJson} {SD : SummaryDecoder}.

(** [validate]. *)
Definition summary_validate (value : Value) : result WorkingSummary string :=
  let? s := ok_or (summary_from_value value) "working summary must be a structured object" in
  if negb (ws_version s =? 1)%N then Err "working summary version must be 1"
  else if negb (valid_text (ws_objective s) MAX_TEXT_BYTES)
          || negb (valid_items (ws_constraints s)) || negb (valid_items (ws_decisions s))
          || negb (valid_items (ws_completed_work s))
          || negb (valid_items (ws_unresolved_questions s))
          || negb (valid_facts (ws_durable_facts s)) || negb (valid_facts (ws_corrections s))
          || bool_decide (ws_source_ids s = []) || (MAX_SOURCES <? len (ws_source_ids s))%N
          || existsb (λ source, negb (valid_text source 256)) (ws_source_ids s)
  then Err "working summary contains an invalid or oversized field"
  else if existsb (λ fact, existsb (λ source, negb (str_mem source (ws_source_ids s)))
                             (fact_sources fact))
            (ws_durable_facts s ++ ws_corrections s)
  then Err "working summary fact references an unknown source ID"
  else
    let? encoded := map_err (λ _, "working summary is not JSON") (to_vec (summary_to_value s)) in
    if (MAX_SUMMARY_BYTES <? len encoded)%N
    then Err ("working summary is " +:+ u64_to_string (len encoded) +:+ " bytes, over the "
              +:+ u64_to_string MAX_SUMMARY_BYTES +:+ " byte limit")
    else Ok s.

(** [prompt]. *)
Definition compact_prompt (turn : Value) (messages : list Value) (source_ids : list string) : string :=
  to_string (object
    [("kind", Str "working-summary-request"); ("instruction", Str COMPACT_INSTRUCTION);
     ("limits", object [("summaryBytes", num_u64 MAX_SUMMARY_BYTES); ("textBytes", num_u64 MAX_TEXT_BYTES);
                        ("itemsPerList", num_u64 MAX_ITEMS); ("sourceIds", num_u64 MAX_SOURCES);
                        ("sourcesPerFact", num_u64 16); ("sourceIdBytes", num_u64 256)]);
     ("turn", turn); ("sourceIds", texts (take (N.to_nat MAX_SOURCES) source_ids));
     ("history", Array (drop 2 messages))]).

(** [bounded_messages]. *)
Definition bounded_messages (messages : list Value) : option (list Value) :=
  match to_vec (Array messages) with
  | Ok b => if (len b <=? HARD_LIMIT - 4096)%N then Some messages else None
  | Err _ => None
  end.
End summaries.

(** ** Provenance *)

Record SourceEvent : Type := mkSourceEvent { source_sequence : N; source_original : bool }.

(** [provenance::validate]. *)
Fixpoint provenance_validate (source_ids : list string) (events : list (string * SourceEvent))
    (delegated_range : option (N * N)) : result unit string :=
  match source_ids with
  | [] => Ok tt
  | source_id :: source_ids =>
      match map_get source_id events with
      | None => Err "working summary references an inaccessible source event"
      | Some event =>
          if negb (source_original event) then Err "working summary source is not an original event"
          else if is_some_and delegated_range (λ '(after, limit),
                    (source_sequence event <=? after)%N
                    || (saturating_add_u64 after limit <? source_sequence event)%N)
          then Err "working summary source is outside the delegated history range"
          else provenance_validate source_ids events delegated_range
      end
  end.

(** ** Theorems *)

(** The reserves fit the field width, as the decoder guarantees. *)
Definition budget_fits (c : BudgetConfig) : Prop :=
  (default 0 (context_tokens c) ≤ usize_max)%N ∧ (output_reserve c ≤ usize_max)%N ∧
  (headroom c ≤ usize_max)%N.

Lemma compact_threshold_ratio budget : (compact_threshold budget = budget * 85 / 100)%N.
Proof.
  unfold compact_threshold. rewrite (N.div_mod budget 100) at 3 by lia.
  assert (∀ q r, r < 100 → (100 * q + r) * 85 / 100 = q * 85 + r * 85 / 100)%N as H.
  { intros q r Hr. replace ((100 * q + r) * 85)%N with (q * 85 * 100 + r * 85)%N by lia.
    rewrite N.div_add_l by lia. done. }
  rewrite H; [done|]. apply N.mod_lt. lia.
Qed.

(** A configuration that fits never makes the subtraction wrap. *)
Lemma admission_total bytes c : budget_fits c → is_Some (admission bytes c).
Proof.
  intros (Hc & Ho & Hh). unfold admission, budget_validate, input_budget.
  destruct (_ <? _)%N; [done|]. simpl. case_bool_decide; [done|].
  destruct (context_tokens c) as [context|]; simpl in *; [|by destruct (_ <? _)%N].
  destruct (N.eqb_spec context 0); [done|]. simpl.
  destruct (N.leb_spec context (saturating_add_usize (output_reserve c) (headroom c))) as [|H1]; [done|].
  unfold saturating_add_usize in H1. simpl.
  destruct (N.leb_spec (output_reserve c) context); [|lia]. simpl.
  destruct (N.leb_spec (headroom c) (context - output_reserve c)); [done|lia].
Qed.

(** A request admitted without compaction leaves the reserves free. *)
Lemma admission_continue bytes c : admission bytes c = Some Continue →
  (bytes ≤ SOFT_LIMIT)%N ∧
  ∀ context, context_tokens c = Some context →
    (bytes + output_reserve c + headroom c < context)%N.
Proof.
  unfold admission, input_budget. destruct (_ || _); [done|].
  destruct (context_tokens c) as [context|].
  - destruct (N.leb_spec (output_reserve c) context) as [H1|]; [|done].
    destruct (N.leb_spec (headroom c) (context - output_reserve c)) as [H2|]; [|done].
    simpl. destruct (N.ltb_spec SOFT_LIMIT bytes); [done|]. rewrite compact_threshold_ratio.
    unfold estimated_tokens. destruct (N.leb_spec ((context - output_reserve c - headroom c) * 85 / 100) bytes)
      as [|H3]; [done|]. intros _. split; [done|]. intros ? [= <-].
    assert ((context - output_reserve c - headroom c) * 85 / 100 ≤ context - output_reserve c - headroom c)%N;
      [|lia]. apply N.Div0.div_le_upper_bound. lia.
  - destruct (N.ltb_spec SOFT_LIMIT bytes); [done|]. intros _. split; [done|]. done.
Qed.

Lemma provenance_validate_iff ids events range :
  provenance_validate ids events range = Ok tt ↔
  ∀ id, id ∈ ids → ∃ e, map_get id events = Some e ∧ source_original e = true ∧
    ∀ after limit, range = Some (after, limit) →
      (after < source_sequence e ≤ saturating_add_u64 after limit)%N.
Proof.
  induction ids as [|id ids IH]; simpl.
  { split; [|done]. intros _ id. by rewrite elem_of_nil. }
  setoid_rewrite elem_of_cons. destruct (map_get id events) as [e|] eqn:E.
  2: { split; [done|]. intros H. destruct (H id) as (e & He & _); [by left|]. congruence. }
  destruct (source_original e) eqn:Ho; simpl.
  2: { split; [done|]. intros H. destruct (H id) as (e' & He & He' & _); [by left|]. congruence. }
  destruct range as [[after limit]|]; simpl.
  - destruct (N.leb_spec (source_sequence e) after), (N.ltb_spec (saturating_add_u64 after limit) (source_sequence e));
      simpl.
    1-3: split; [done|]; intros H'; destruct (H' id) as (e' & He & _ & Hr); [by left|];
      specialize (Hr _ _ eq_refl); assert (e' = e) as -> by congruence; lia.
    rewrite IH. split; [|by eauto]. intros H' id' [->|Hin]; [|by apply H'].
    exists e. split_and!; [done|done|]. intros ? ? [= <- <-]. lia.
  - rewrite IH. split; [|by eauto]. intros H' id' [->|Hin]; [|by apply H']. by exists e.
Qed.
