(* ===== verification/CognitionData.v ===== *)
(** The data of the reasoning plugin ([plugins/rlm/cognition/src/jobs.rs] and
    [engine.rs]): jobs, observations, tasks and the engine that holds them.

    A [BTreeMap] is the list of its entries in key order.  A setter per
    mutated field stands for the assignments of the code. *)
From stdpp Require Import base tactics option list strings.
From Stdlib Require Import ZArith NArith Ascii.
From S2P Require Import Prelude Utf8 Json Compaction.

(** [jobs::Wake]. *)
Record Wake : Type := mkWake {
  w_token : string;
  w_request : option string;
  w_revision : N;
  w_due_at_ms : Z;
}.
Definition set_w_request (x : option string) (r : Wake) : Wake :=
  mkWake (w_token r) x (w_revision r) (w_due_at_ms r).

(** [jobs::Observation]. *)
Record Observation : Type := mkObservation {
  o_outstanding_question : option string;
  o_id : string;
  o_sequence : N;
  o_value : Value;
  o_status : string;
  o_job : option string;
}.
Definition set_o_outstanding_question (x : option string) (r : Observation) : Observation :=
  mkObservation x (o_id r) (o_sequence r) (o_value r) (o_status r) (o_job r).
Definition set_o_value (x : Value) (r : Observation) : Observation :=
  mkObservation (o_outstanding_question r) (o_id r) (o_sequence r) x (o_status r) (o_job r).
Definition set_o_status (x : string) (r : Observation) : Observation :=
  mkObservation (o_outstanding_question r) (o_id r) (o_sequence r) (o_value r) x (o_job r).
Definition set_o_job (x : option string) (r : Observation) : Observation :=
  mkObservation (o_outstanding_question r) (o_id r) (o_sequence r) (o_value r) (o_status r) x.

(** [jobs::Job]. *)
Record Job : Type := mkJob {
  j_activities : list (string * Value);
  j_id : string;
  j_objective : string;
  j_completion_conditions : Value;
  j_origin : string;
  j_sources : list string;
  j_revision : N;
  j_incorporated_sequence : N;
  j_status : string;
  j_wait_reason : option string;
  j_outstanding_question : option string;
  j_recent_reply : option string;
  j_completed_steps : Value;
  j_next_step : Value;
  j_blockers : Value;
  j_notes : Value;
  j_checkpoint : Value;
  j_checkpoint_version : N;
  j_cycle_started_ms : Z;
  j_retry_count : N;
  j_wake : option Wake;
}.
Definition set_j_activities (x : list (string * Value)) (r : Job) : Job :=
  mkJob x (j_id r) (j_objective r) (j_completion_conditions r) (j_origin r) (j_sources r)
    (j_revision r) (j_incorporated_sequence r) (j_status r) (j_wait_reason r)
    (j_outstanding_question r) (j_recent_reply r) (j_completed_steps r) (j_next_step r)
    (j_blockers r) (j_notes r) (j_checkpoint r) (j_checkpoint_version r) (j_cycle_started_ms r)
    (j_retry_count r) (j_wake r).
Definition set_j_completion_conditions (x : Value) (r : Job) : Job :=
  mkJob (j_activities r) (j_id r) (j_objective r) x (j_origin r) (j_sources r) (j_revision r)
    (j_incorporated_sequence r) (j_status r) (j_wait_reason r) (j_outstanding_question r)
    (j_recent_reply r) (j_completed_steps r) (j_next_step r) (j_blockers r) (j_notes r)
    (j_checkpoint r) (j_checkpoint_version r) (j_cycle_started_ms r) (j_retry_count r) (j_wake
    r).
Definition set_j_sources (x : list string) (r : Job) : Job :=
  mkJob (j_activities r) (j_id r) (j_objective r) (j_completion_conditions r) (j_origin r) x
    (j_revision r) (j_incorporated_sequence r) (j_status r) (j_wait_reason r)
    (j_outstanding_question r) (j_recent_reply r) (j_completed_steps r) (j_next_step r)
    (j_blockers r) (j_notes r) (j_checkpoint r) (j_checkpoint_version r) (j_cycle_started_ms r)
    (j_retry_count r) (j_wake r).
Definition set_j_revision (x : N) (r : Job) : Job :=
  mkJob (j_activities r) (j_id r) (j_objective r) (j_completion_conditions r) (j_origin r)
    (j_sources r) x (j_incorporated_sequence r) (j_status r) (j_wait_reason r)
    (j_outstanding_question r) (j_recent_reply r) (j_completed_steps r) (j_next_step r)
    (j_blockers r) (j_notes r) (j_checkpoint r) (j_checkpoint_version r) (j_cycle_started_ms r)
    (j_retry_count r) (j_wake r).
Definition set_j_incorporated_sequence (x : N) (r : Job) : Job :=
  mkJob (j_activities r) (j_id r) (j_objective r) (j_completion_conditions r) (j_origin r)
    (j_sources r) (j_revision r) x (j_status r) (j_wait_reason r) (j_outstanding_question r)
    (j_recent_reply r) (j_completed_steps r) (j_next_step r) (j_blockers r) (j_notes r)
    (j_checkpoint r) (j_checkpoint_version r) (j_cycle_started_ms r) (j_retry_count r) (j_wake
    r).
Definition set_j_status (x : string) (r : Job) : Job :=
  mkJob (j_activities r) (j_id r) (j_objective r) (j_completion_conditions r) (j_origin r)
    (j_sources r) (j_revision r) (j_incorporated_sequence r) x (j_wait_reason r)
    (j_outstanding_question r) (j_recent_reply r) (j_completed_steps r) (j_next_step r)
    (j_blockers r) (j_notes r) (j_checkpoint r) (j_checkpoint_version r) (j_cycle_started_ms r)
    (j_retry_count r) (j_wake r).
Definition set_j_wait_reason (x : option string) (r : Job) : Job :=
  mkJob (j_activities r) (j_id r) (j_objective r) (j_completion_conditions r) (j_origin r)
    (j_sources r) (j_revision r) (j_incorporated_sequence r) (j_status r) x
    (j_outstanding_question r) (j_recent_reply r) (j_completed_steps r) (j_next_step r)
    (j_blockers r) (j_notes r) (j_checkpoint r) (j_checkpoint_version r) (j_cycle_started_ms r)
    (j_retry_count r) (j_wake r).
Definition set_j_outstanding_question (x : option string) (r : Job) : Job :=
  mkJob (j_activities r) (j_id r) (j_objective r) (j_completion_conditions r) (j_origin r)
    (j_sources r) (j_revision r) (j_incorporated_sequence r) (j_status r) (j_wait_reason r) x
    (j_recent_reply r) (j_completed_steps r) (j_next_step r) (j_blockers r) (j_notes r)
    (j_checkpoint r) (j_checkpoint_version r) (j_cycle_started_ms r) (j_retry_count r) (j_wake
    r).
Definition set_j_recent_reply (x : option string) (r : Job) : Job :=
  mkJob (j_activities r) (j_id r) (j_objective r) (j_completion_conditions r) (j_origin r)
    (j_sources r) (j_revision r) (j_incorporated_sequence r) (j_status r) (j_wait_reason r)
    (j_outstanding_question r) x (j_completed_steps r) (j_next_step r) (j_blockers r) (j_notes
    r) (j_checkpoint r) (j_checkpoint_version r) (j_cycle_started_ms r) (j_retry_count r)
    (j_wake r).
Definition set_j_completed_steps (x : Value) (r : Job) : Job :=
  mkJob (j_activities r) (j_id r) (j_objective r) (j_completion_conditions r) (j_origin r)
    (j_sources r) (j_revision r) (j_incorporated_sequence r) (j_status r) (j_wait_reason r)
    (j_outstanding_question r) (j_recent_reply r) x (j_next_step r) (j_blockers r) (j_notes r)
    (j_checkpoint r) (j_checkpoint_version r) (j_cycle_started_ms r) (j_retry_count r) (j_wake
    r).
Definition set_j_next_step (x : Value) (r : Job) : Job :=
  mkJob (j_activities r) (j_id r) (j_objective r) (j_completion_conditions r) (j_origin r)
    (j_sources r) (j_revision r) (j_incorporated_sequence r) (j_status r) (j_wait_reason r)
    (j_outstanding_question r) (j_recent_reply r) (j_completed_steps r) x (j_blockers r)
    (j_notes r) (j_checkpoint r) (j_checkpoint_version r) (j_cycle_started_ms r) (j_retry_count
    r) (j_wake r).
Definition set_j_blockers (x : Value) (r : Job) : Job :=
  mkJob (j_activities r) (j_id r) (j_objective r) (j_completion_conditions r) (j_origin r)
    (j_sources r) (j_revision r) (j_incorporated_sequence r) (j_status r) (j_wait_reason r)
    (j_outstanding_question r) (j_recent_reply r) (j_completed_steps r) (j_next_step r) x
    (j_notes r) (j_checkpoint r) (j_checkpoint_version r) (j_cycle_started_ms r) (j_retry_count
    r) (j_wake r).
Definition set_j_notes (x : Value) (r : Job) : Job :=
  mkJob (j_activities r) (j_id r) (j_objective r) (j_completion_conditions r) (j_origin r)
    (j_sources r) (j_revision r) (j_incorporated_sequence r) (j_status r) (j_wait_reason r)
    (j_outstanding_question r) (j_recent_reply r) (j_completed_steps r) (j_next_step r)
    (j_blockers r) x (j_checkpoint r) (j_checkpoint_version r) (j_cycle_started_ms r)
    (j_retry_count r) (j_wake r).
Definition set_j_checkpoint (x : Value) (r : Job) : Job :=
  mkJob (j_activities r) (j_id r) (j_objective r) (j_completion_conditions r) (j_origin r)
    (j_sources r) (j_revision r) (j_incorporated_sequence r) (j_status r) (j_wait_reason r)
    (j_outstanding_question r) (j_recent_reply r) (j_completed_steps r) (j_next_step r)
    (j_blockers r) (j_notes r) x (j_checkpoint_version r) (j_cycle_started_ms r) (j_retry_count
    r) (j_wake r).
Definition set_j_cycle_started_ms (x : Z) (r : Job) : Job :=
  mkJob (j_activities r) (j_id r) (j_objective r) (j_completion_conditions r) (j_origin r)
    (j_sources r) (j_revision r) (j_incorporated_sequence r) (j_status r) (j_wait_reason r)
    (j_outstanding_question r) (j_recent_reply r) (j_completed_steps r) (j_next_step r)
    (j_blockers r) (j_notes r) (j_checkpoint r) (j_checkpoint_version r) x (j_retry_count r)
    (j_wake r).
Definition set_j_retry_count (x : N) (r : Job) : Job :=
  mkJob (j_activities r) (j_id r) (j_objective r) (j_completion_conditions r) (j_origin r)
    (j_sources r) (j_revision r) (j_incorporated_sequence r) (j_status r) (j_wait_reason r)
    (j_outstanding_question r) (j_recent_reply r) (j_completed_steps r) (j_next_step r)
    (j_blockers r) (j_notes r) (j_checkpoint r) (j_checkpoint_version r) (j_cycle_started_ms r)
    x (j_wake r).
Definition set_j_wake (x : option Wake) (r : Job) : Job :=
  mkJob (j_activities r) (j_id r) (j_objective r) (j_completion_conditions r) (j_origin r)
    (j_sources r) (j_revision r) (j_incorporated_sequence r) (j_status r) (j_wait_reason r)
    (j_outstanding_question r) (j_recent_reply r) (j_completed_steps r) (j_next_step r)
    (j_blockers r) (j_notes r) (j_checkpoint r) (j_checkpoint_version r) (j_cycle_started_ms r)
    (j_retry_count r) x.

(** [Window]: the events after [after], up to [limit] of them. *)
Record Window : Type := mkWindow { win_after : N; win_limit : N }.

(** [Task]. *)
Record Task : Type := mkTask {
  t_code_request_id : option string;
  t_code_event_id : option string;
  t_resource_failures : N;
  t_cell_started : bool;
  t_control_errors : N;
  t_cell_source : string;
  t_last_cell : option N;
  t_repeated_cells : N;
  t_cell_revision : N;
  t_revision : N;
  t_decision_revision : N;
  t_association : option string;
  t_root : string;
  t_origin : string;
  t_context : Value;
  t_messages : list Value;
  t_parent : option (string * Value);
  t_depth : N;
  t_tool_id : string;
  t_pending : option Value;
  t_yields : N;
  t_window : option Window;
  t_compacting : bool;
  t_compaction_errors : N;
  t_compaction_provenance_error : option string;
  t_checkpoint_provenance_error : option string;
  t_checkpoint_provenance_verified : bool;
}.
Definition set_t_code_request_id (x : option string) (r : Task) : Task :=
  mkTask x (t_code_event_id r) (t_resource_failures r) (t_cell_started r) (t_control_errors r)
    (t_cell_source r) (t_last_cell r) (t_repeated_cells r) (t_cell_revision r) (t_revision r)
    (t_decision_revision r) (t_association r) (t_root r) (t_origin r) (t_context r) (t_messages
    r) (t_parent r) (t_depth r) (t_tool_id r) (t_pending r) (t_yields r) (t_window r)
    (t_compacting r) (t_compaction_errors r) (t_compaction_provenance_error r)
    (t_checkpoint_provenance_error r) (t_checkpoint_provenance_verified r).
Definition set_t_code_event_id (x : option string) (r : Task) : Task :=
  mkTask (t_code_request_id r) x (t_resource_failures r) (t_cell_started r) (t_control_errors r)
    (t_cell_source r) (t_last_cell r) (t_repeated_cells r) (t_cell_revision r) (t_revision r)
    (t_decision_revision r) (t_association r) (t_root r) (t_origin r) (t_context r) (t_messages
    r) (t_parent r) (t_depth r) (t_tool_id r) (t_pending r) (t_yields r) (t_window r)
    (t_compacting r) (t_compaction_errors r) (t_compaction_provenance_error r)
    (t_checkpoint_provenance_error r) (t_checkpoint_provenance_verified r).
Definition set_t_resource_failures (x : N) (r : Task) : Task :=
  mkTask (t_code_request_id r) (t_code_event_id r) x (t_cell_started r) (t_control_errors r)
    (t_cell_source r) (t_last_cell r) (t_repeated_cells r) (t_cell_revision r) (t_revision r)
    (t_decision_revision r) (t_association r) (t_root r) (t_origin r) (t_context r) (t_messages
    r) (t_parent r) (t_depth r) (t_tool_id r) (t_pending r) (t_yields r) (t_window r)
    (t_compacting r) (t_compaction_errors r) (t_compaction_provenance_error r)
    (t_checkpoint_provenance_error r) (t_checkpoint_provenance_verified r).
Definition set_t_cell_started (x : bool) (r : Task) : Task :=
  mkTask (t_code_request_id r) (t_code_event_id r) (t_resource_failures r) x (t_control_errors
    r) (t_cell_source r) (t_last_cell r) (t_repeated_cells r) (t_cell_revision r) (t_revision r)
    (t_decision_revision r) (t_association r) (t_root r) (t_origin r) (t_context r) (t_messages
    r) (t_parent r) (t_depth r) (t_tool_id r) (t_pending r) (t_yields r) (t_window r)
    (t_compacting r) (t_compaction_errors r) (t_compaction_provenance_error r)
    (t_checkpoint_provenance_error r) (t_checkpoint_provenance_verified r).
Definition set_t_control_errors (x : N) (r : Task) : Task :=
  mkTask (t_code_request_id r) (t_code_event_id r) (t_resource_failures r) (t_cell_started r) x
    (t_cell_source r) (t_last_cell r) (t_repeated_cells r) (t_cell_revision r) (t_revision r)
    (t_decision_revision r) (t_association r) (t_root r) (t_origin r) (t_context r) (t_messages
    r) (t_parent r) (t_depth r) (t_tool_id r) (t_pending r) (t_yields r) (t_window r)
    (t_compacting r) (t_compaction_errors r) (t_compaction_provenance_error r)
    (t_checkpoint_provenance_error r) (t_checkpoint_provenance_verified r).
Definition set_t_cell_source (x : string) (r : Task) : Task :=
  mkTask (t_code_request_id r) (t_code_event_id r) (t_resource_failures r) (t_cell_started r)
    (t_control_errors r) x (t_last_cell r) (t_repeated_cells r) (t_cell_revision r) (t_revision
    r) (t_decision_revision r) (t_association r) (t_root r) (t_origin r) (t_context r)
    (t_messages r) (t_parent r) (t_depth r) (t_tool_id r) (t_pending r) (t_yields r) (t_window
    r) (t_compacting r) (t_compaction_errors r) (t_compaction_provenance_error r)
    (t_checkpoint_provenance_error r) (t_checkpoint_provenance_verified r).
Definition set_t_last_cell (x : option N) (r : Task) : Task :=
  mkTask (t_code_request_id r) (t_code_event_id r) (t_resource_failures r) (t_cell_started r)
    (t_control_errors r) (t_cell_source r) x (t_repeated_cells r) (t_cell_revision r)
    (t_revision r) (t_decision_revision r) (t_association r) (t_root r) (t_origin r) (t_context
    r) (t_messages r) (t_parent r) (t_depth r) (t_tool_id r) (t_pending r) (t_yields r)
    (t_window r) (t_compacting r) (t_compaction_errors r) (t_compaction_provenance_error r)
    (t_checkpoint_provenance_error r) (t_checkpoint_provenance_verified r).
Definition set_t_repeated_cells (x : N) (r : Task) : Task :=
  mkTask (t_code_request_id r) (t_code_event_id r) (t_resource_failures r) (t_cell_started r)
    (t_control_errors r) (t_cell_source r) (t_last_cell r) x (t_cell_revision r) (t_revision r)
    (t_decision_revision r) (t_association r) (t_root r) (t_origin r) (t_context r) (t_messages
    r) (t_parent r) (t_depth r) (t_tool_id r) (t_pending r) (t_yields r) (t_window r)
    (t_compacting r) (t_compaction_errors r) (t_compaction_provenance_error r)
    (t_checkpoint_provenance_error r) (t_checkpoint_provenance_verified r).
Definition set_t_cell_revision (x : N) (r : Task) : Task :=
  mkTask (t_code_request_id r) (t_code_event_id r) (t_resource_failures r) (t_cell_started r)
    (t_control_errors r) (t_cell_source r) (t_last_cell r) (t_repeated_cells r) x (t_revision r)
    (t_decision_revision r) (t_association r) (t_root r) (t_origin r) (t_context r) (t_messages
    r) (t_parent r) (t_depth r) (t_tool_id r) (t_pending r) (t_yields r) (t_window r)
    (t_compacting r) (t_compaction_errors r) (t_compaction_provenance_error r)
    (t_checkpoint_provenance_error r) (t_checkpoint_provenance_verified r).
Definition set_t_revision (x : N) (r : Task) : Task :=
  mkTask (t_code_request_id r) (t_code_event_id r) (t_resource_failures r) (t_cell_started r)
    (t_control_errors r) (t_cell_source r) (t_last_cell r) (t_repeated_cells r) (t_cell_revision
    r) x (t_decision_revision r) (t_association r) (t_root r) (t_origin r) (t_context r)
    (t_messages r) (t_parent r) (t_depth r) (t_tool_id r) (t_pending r) (t_yields r) (t_window
    r) (t_compacting r) (t_compaction_errors r) (t_compaction_provenance_error r)
    (t_checkpoint_provenance_error r) (t_checkpoint_provenance_verified r).
Definition set_t_decision_revision (x : N) (r : Task) : Task :=
  mkTask (t_code_request_id r) (t_code_event_id r) (t_resource_failures r) (t_cell_started r)
    (t_control_errors r) (t_cell_source r) (t_last_cell r) (t_repeated_cells r) (t_cell_revision
    r) (t_revision r) x (t_association r) (t_root r) (t_origin r) (t_context r) (t_messages r)
    (t_parent r) (t_depth r) (t_tool_id r) (t_pending r) (t_yields r) (t_window r) (t_compacting
    r) (t_compaction_errors r) (t_compaction_provenance_error r) (t_checkpoint_provenance_error
    r) (t_checkpoint_provenance_verified r).
Definition set_t_association (x : option string) (r : Task) : Task :=
  mkTask (t_code_request_id r) (t_code_event_id r) (t_resource_failures r) (t_cell_started r)
    (t_control_errors r) (t_cell_source r) (t_last_cell r) (t_repeated_cells r) (t_cell_revision
    r) (t_revision r) (t_decision_revision r) x (t_root r) (t_origin r) (t_context r)
    (t_messages r) (t_parent r) (t_depth r) (t_tool_id r) (t_pending r) (t_yields r) (t_window
    r) (t_compacting r) (t_compaction_errors r) (t_compaction_provenance_error r)
    (t_checkpoint_provenance_error r) (t_checkpoint_provenance_verified r).
Definition set_t_context (x : Value) (r : Task) : Task :=
  mkTask (t_code_request_id r) (t_code_event_id r) (t_resource_failures r) (t_cell_started r)
    (t_control_errors r) (t_cell_source r) (t_last_cell r) (t_repeated_cells r) (t_cell_revision
    r) (t_revision r) (t_decision_revision r) (t_association r) (t_root r) (t_origin r) x
    (t_messages r) (t_parent r) (t_depth r) (t_tool_id r) (t_pending r) (t_yields r) (t_window
    r) (t_compacting r) (t_compaction_errors r) (t_compaction_provenance_error r)
    (t_checkpoint_provenance_error r) (t_checkpoint_provenance_verified r).
Definition set_t_messages (x : list Value) (r : Task) : Task :=
  mkTask (t_code_request_id r) (t_code_event_id r) (t_resource_failures r) (t_cell_started r)
    (t_control_errors r) (t_cell_source r) (t_last_cell r) (t_repeated_cells r) (t_cell_revision
    r) (t_revision r) (t_decision_revision r) (t_association r) (t_root r) (t_origin r)
    (t_context r) x (t_parent r) (t_depth r) (t_tool_id r) (t_pending r) (t_yields r) (t_window
    r) (t_compacting r) (t_compaction_errors r) (t_compaction_provenance_error r)
    (t_checkpoint_provenance_error r) (t_checkpoint_provenance_verified r).
Definition set_t_tool_id (x : string) (r : Task) : Task :=
  mkTask (t_code_request_id r) (t_code_event_id r) (t_resource_failures r) (t_cell_started r)
    (t_control_errors r) (t_cell_source r) (t_last_cell r) (t_repeated_cells r) (t_cell_revision
    r) (t_revision r) (t_decision_revision r) (t_association r) (t_root r) (t_origin r)
    (t_context r) (t_messages r) (t_parent r) (t_depth r) x (t_pending r) (t_yields r) (t_window
    r) (t_compacting r) (t_compaction_errors r) (t_compaction_provenance_error r)
    (t_checkpoint_provenance_error r) (t_checkpoint_provenance_verified r).
Definition set_t_pending (x : option Value) (r : Task) : Task :=
  mkTask (t_code_request_id r) (t_code_event_id r) (t_resource_failures r) (t_cell_started r)
    (t_control_errors r) (t_cell_source r) (t_last_cell r) (t_repeated_cells r) (t_cell_revision
    r) (t_revision r) (t_decision_revision r) (t_association r) (t_root r) (t_origin r)
    (t_context r) (t_messages r) (t_parent r) (t_depth r) (t_tool_id r) x (t_yields r) (t_window
    r) (t_compacting r) (t_compaction_errors r) (t_compaction_provenance_error r)
    (t_checkpoint_provenance_error r) (t_checkpoint_provenance_verified r).
Definition set_t_yields (x : N) (r : Task) : Task :=
  mkTask (t_code_request_id r) (t_code_event_id r) (t_resource_failures r) (t_cell_started r)
    (t_control_errors r) (t_cell_source r) (t_last_cell r) (t_repeated_cells r) (t_cell_revision
    r) (t_revision r) (t_decision_revision r) (t_association r) (t_root r) (t_origin r)
    (t_context r) (t_messages r) (t_parent r) (t_depth r) (t_tool_id r) (t_pending r) x
    (t_window r) (t_compacting r) (t_compaction_errors r) (t_compaction_provenance_error r)
    (t_checkpoint_provenance_error r) (t_checkpoint_provenance_verified r).
Definition set_t_window (x : option Window) (r : Task) : Task :=
  mkTask (t_code_request_id r) (t_code_event_id r) (t_resource_failures r) (t_cell_started r)
    (t_control_errors r) (t_cell_source r) (t_last_cell r) (t_repeated_cells r) (t_cell_revision
    r) (t_revision r) (t_decision_revision r) (t_association r) (t_root r) (t_origin r)
    (t_context r) (t_messages r) (t_parent r) (t_depth r) (t_tool_id r) (t_pending r) (t_yields
    r) x (t_compacting r) (t_compaction_errors r) (t_compaction_provenance_error r)
    (t_checkpoint_provenance_error r) (t_checkpoint_provenance_verified r).
Definition set_t_compacting (x : bool) (r : Task) : Task :=
  mkTask (t_code_request_id r) (t_code_event_id r) (t_resource_failures r) (t_cell_started r)
    (t_control_errors r) (t_cell_source r) (t_last_cell r) (t_repeated_cells r) (t_cell_revision
    r) (t_revision r) (t_decision_revision r) (t_association r) (t_root r) (t_origin r)
    (t_context r) (t_messages r) (t_parent r) (t_depth r) (t_tool_id r) (t_pending r) (t_yields
    r) (t_window r) x (t_compaction_errors r) (t_compaction_provenance_error r)
    (t_checkpoint_provenance_error r) (t_checkpoint_provenance_verified r).
Definition set_t_compaction_errors (x : N) (r : Task) : Task :=
  mkTask (t_code_request_id r) (t_code_event_id r) (t_resource_failures r) (t_cell_started r)
    (t_control_errors r) (t_cell_source r) (t_last_cell r) (t_repeated_cells r) (t_cell_revision
    r) (t_revision r) (t_decision_revision r) (t_association r) (t_root r) (t_origin r)
    (t_context r) (t_messages r) (t_parent r) (t_depth r) (t_tool_id r) (t_pending r) (t_yields
    r) (t_window r) (t_compacting r) x (t_compaction_provenance_error r)
    (t_checkpoint_provenance_error r) (t_checkpoint_provenance_verified r).
Definition set_t_compaction_provenance_error (x : option string) (r : Task) : Task :=
  mkTask (t_code_request_id r) (t_code_event_id r) (t_resource_failures r) (t_cell_started r)
    (t_control_errors r) (t_cell_source r) (t_last_cell r) (t_repeated_cells r) (t_cell_revision
    r) (t_revision r) (t_decision_revision r) (t_association r) (t_root r) (t_origin r)
    (t_context r) (t_messages r) (t_parent r) (t_depth r) (t_tool_id r) (t_pending r) (t_yields
    r) (t_window r) (t_compacting r) (t_compaction_errors r) x (t_checkpoint_provenance_error r)
    (t_checkpoint_provenance_verified r).
Definition set_t_checkpoint_provenance_error (x : option string) (r : Task) : Task :=
  mkTask (t_code_request_id r) (t_code_event_id r) (t_resource_failures r) (t_cell_started r)
    (t_control_errors r) (t_cell_source r) (t_last_cell r) (t_repeated_cells r) (t_cell_revision
    r) (t_revision r) (t_decision_revision r) (t_association r) (t_root r) (t_origin r)
    (t_context r) (t_messages r) (t_parent r) (t_depth r) (t_tool_id r) (t_pending r) (t_yields
    r) (t_window r) (t_compacting r) (t_compaction_errors r) (t_compaction_provenance_error r) x
    (t_checkpoint_provenance_verified r).
Definition set_t_checkpoint_provenance_verified (x : bool) (r : Task) : Task :=
  mkTask (t_code_request_id r) (t_code_event_id r) (t_resource_failures r) (t_cell_started r)
    (t_control_errors r) (t_cell_source r) (t_last_cell r) (t_repeated_cells r) (t_cell_revision
    r) (t_revision r) (t_decision_revision r) (t_association r) (t_root r) (t_origin r)
    (t_context r) (t_messages r) (t_parent r) (t_depth r) (t_tool_id r) (t_pending r) (t_yields
    r) (t_window r) (t_compacting r) (t_compaction_errors r) (t_compaction_provenance_error r)
    (t_checkpoint_provenance_error r) x.

(** [Engine]. *)
Record Engine : Type := mkEngine {
  e_routing_jobs : list (string * (Job * Value));
  e_routing_observations : list (string * Observation);
  e_unloaded_observations : list (string * N);
  e_partial : bool;
  e_resource_errors : list (string * Value);
  e_seen_results : list (string * unit);
  e_scheduling : bool;
  e_jobs : list (string * Job);
  e_inbox : list (string * Observation);
  e_queue : list string;
  e_now_ms : Z;
  e_sequence : N;
  e_tasks : list (string * Task);
  e_calls : list (string * string);
  e_budgets : list (string * N);
}.
Definition set_e_routing_jobs (x : list (string * (Job * Value))) (r : Engine) : Engine :=
  mkEngine x (e_routing_observations r) (e_unloaded_observations r) (e_partial r)
    (e_resource_errors r) (e_seen_results r) (e_scheduling r) (e_jobs r) (e_inbox r) (e_queue r)
    (e_now_ms r) (e_sequence r) (e_tasks r) (e_calls r) (e_budgets r).
Definition set_e_routing_observations (x : list (string * Observation)) (r : Engine) : Engine :=
  mkEngine (e_routing_jobs r) x (e_unloaded_observations r) (e_partial r) (e_resource_errors r)
    (e_seen_results r) (e_scheduling r) (e_jobs r) (e_inbox r) (e_queue r) (e_now_ms r)
    (e_sequence r) (e_tasks r) (e_calls r) (e_budgets r).
Definition set_e_unloaded_observations (x : list (string * N)) (r : Engine) : Engine :=
  mkEngine (e_routing_jobs r) (e_routing_observations r) x (e_partial r) (e_resource_errors r)
    (e_seen_results r) (e_scheduling r) (e_jobs r) (e_inbox r) (e_queue r) (e_now_ms r)
    (e_sequence r) (e_tasks r) (e_calls r) (e_budgets r).
Definition set_e_partial (x : bool) (r : Engine) : Engine :=
  mkEngine (e_routing_jobs r) (e_routing_observations r) (e_unloaded_observations r) x
    (e_resource_errors r) (e_seen_results r) (e_scheduling r) (e_jobs r) (e_inbox r) (e_queue r)
    (e_now_ms r) (e_sequence r) (e_tasks r) (e_calls r) (e_budgets r).
Definition set_e_resource_errors (x : list (string * Value)) (r : Engine) : Engine :=
  mkEngine (e_routing_jobs r) (e_routing_observations r) (e_unloaded_observations r) (e_partial
    r) x (e_seen_results r) (e_scheduling r) (e_jobs r) (e_inbox r) (e_queue r) (e_now_ms r)
    (e_sequence r) (e_tasks r) (e_calls r) (e_budgets r).
Definition set_e_seen_results (x : list (string * unit)) (r : Engine) : Engine :=
  mkEngine (e_routing_jobs r) (e_routing_observations r) (e_unloaded_observations r) (e_partial
    r) (e_resource_errors r) x (e_scheduling r) (e_jobs r) (e_inbox r) (e_queue r) (e_now_ms r)
    (e_sequence r) (e_tasks r) (e_calls r) (e_budgets r).
Definition set_e_scheduling (x : bool) (r : Engine) : Engine :=
  mkEngine (e_routing_jobs r) (e_routing_observations r) (e_unloaded_observations r) (e_partial
    r) (e_resource_errors r) (e_seen_results r) x (e_jobs r) (e_inbox r) (e_queue r) (e_now_ms
    r) (e_sequence r) (e_tasks r) (e_calls r) (e_budgets r).
Definition set_e_jobs (x : list (string * Job)) (r : Engine) : Engine :=
  mkEngine (e_routing_jobs r) (e_routing_observations r) (e_unloaded_observations r) (e_partial
    r) (e_resource_errors r) (e_seen_results r) (e_scheduling r) x (e_inbox r) (e_queue r)
    (e_now_ms r) (e_sequence r) (e_tasks r) (e_calls r) (e_budgets r).
Definition set_e_inbox (x : list (string * Observation)) (r : Engine) : Engine :=
  mkEngine (e_routing_jobs r) (e_routing_observations r) (e_unloaded_observations r) (e_partial
    r) (e_resource_errors r) (e_seen_results r) (e_scheduling r) (e_jobs r) x (e_queue r)
    (e_now_ms r) (e_sequence r) (e_tasks r) (e_calls r) (e_budgets r).
Definition set_e_queue (x : list string) (r : Engine) : Engine :=
  mkEngine (e_routing_jobs r) (e_routing_observations r) (e_unloaded_observations r) (e_partial
    r) (e_resource_errors r) (e_seen_results r) (e_scheduling r) (e_jobs r) (e_inbox r) x
    (e_now_ms r) (e_sequence r) (e_tasks r) (e_calls r) (e_budgets r).
Definition set_e_now_ms (x : Z) (r : Engine) : Engine :=
  mkEngine (e_routing_jobs r) (e_routing_observations r) (e_unloaded_observations r) (e_partial
    r) (e_resource_errors r) (e_seen_results r) (e_scheduling r) (e_jobs r) (e_inbox r) (e_queue
    r) x (e_sequence r) (e_tasks r) (e_calls r) (e_budgets r).
Definition set_e_sequence (x : N) (r : Engine) : Engine :=
  mkEngine (e_routing_jobs r) (e_routing_observations r) (e_unloaded_observations r) (e_partial
    r) (e_resource_errors r) (e_seen_results r) (e_scheduling r) (e_jobs r) (e_inbox r) (e_queue
    r) (e_now_ms r) x (e_tasks r) (e_calls r) (e_budgets r).
Definition set_e_tasks (x : list (string * Task)) (r : Engine) : Engine :=
  mkEngine (e_routing_jobs r) (e_routing_observations r) (e_unloaded_observations r) (e_partial
    r) (e_resource_errors r) (e_seen_results r) (e_scheduling r) (e_jobs r) (e_inbox r) (e_queue
    r) (e_now_ms r) (e_sequence r) x (e_calls r) (e_budgets r).
Definition set_e_calls (x : list (string * string)) (r : Engine) : Engine :=
  mkEngine (e_routing_jobs r) (e_routing_observations r) (e_unloaded_observations r) (e_partial
    r) (e_resource_errors r) (e_seen_results r) (e_scheduling r) (e_jobs r) (e_inbox r) (e_queue
    r) (e_now_ms r) (e_sequence r) (e_tasks r) x (e_budgets r).
Definition set_e_budgets (x : list (string * N)) (r : Engine) : Engine :=
  mkEngine (e_routing_jobs r) (e_routing_observations r) (e_unloaded_observations r) (e_partial
    r) (e_resource_errors r) (e_seen_results r) (e_scheduling r) (e_jobs r) (e_inbox r) (e_queue
    r) (e_now_ms r) (e_sequence r) (e_tasks r) (e_calls r) x.

(** [Config]. *)
Record CognitionConfig : Type := mkCognitionConfig {
  cfg_tools : list Value;
  cfg_components : list Value;
  cfg_budget : BudgetConfig;
}.

(** [Draft]. *)
Record Draft : Type := mkDraft { d_kind : string; d_payload : Value; d_cause : string }.

(** [Engine::default()]. *)
Definition engine_default : Engine := mkEngine [] [] [] false [] [] false [] [] [] 0 0 [] [] [].

(** The derived [Serialize]. *)
Definition wake_to_value (w : Wake) : Value :=
  object [("token", Str (w_token w)); ("request", opt_str (w_request w));
          ("revision", num_u64 (w_revision w)); ("due_at_ms", num_i64 (w_due_at_ms w))].
Definition opt_wake (w : option Wake) : Value :=
  match w with
  | Some w => wake_to_value w
  | None => Null
  end.
Definition job_to_value (j : Job) : Value :=
  object [("activities", Object (j_activities j)); ("id", Str (j_id j));
          ("objective", Str (j_objective j));
          ("completion_conditions", j_completion_conditions j); ("origin", Str (j_origin j));
          ("sources", texts (j_sources j)); ("revision", num_u64 (j_revision j));
          ("incorporated_sequence", num_u64 (j_incorporated_sequence j));
          ("status", Str (j_status j)); ("wait_reason", opt_str (j_wait_reason j));
          ("outstanding_question", opt_str (j_outstanding_question j));
          ("recent_reply", opt_str (j_recent_reply j));
          ("completed_steps", j_completed_steps j); ("next_step", j_next_step j);
          ("blockers", j_blockers j); ("notes", j_notes j); ("checkpoint", j_checkpoint j);
          ("checkpoint_version", num_u64 (j_checkpoint_version j));
          ("cycle_started_ms", num_i64 (j_cycle_started_ms j));
          ("retry_count", num_u64 (j_retry_count j)); ("wake", opt_wake (j_wake j))].

(** ** Maps *)

(** [if let Some(x) = m.get_mut(key) { .. }]. *)
Definition map_update {V} (key : string) (f : V → V) (m : list (string * V)) : list (string * V) :=
  match map_get key m with
  | Some v => map_insert key (f v) m
  | None => m
  end.
(** [for x in m.values_mut() { .. }]. *)
Definition map_values {V} (f : V → V) (m : list (string * V)) : list (string * V) :=
  (λ '(k, v), (k, f v)) <$> m.
(** [contains_key]. *)
Definition has_key {V} (key : string) (m : list (string * V)) : bool := opt_is_some (map_get key m).
(** [m.retain(|k, v| ..)]. *)
Definition map_retain {V} (p : string → V → bool) (m : list (string * V)) : list (string * V) :=
  List.filter (λ '(k, v), p k v) m.
