(* ===== verification/CognitionBase.v ===== *)
(** The pure parts of the reasoning plugin's engine
    ([plugins/rlm/cognition/src/engine.rs]): bounded observations, attachments,
    the envelope of a turn, the validation of what a model returns, and the
    messages of a session.  The standard library's hasher and the derived
    decoders are parameters. *)
From stdpp Require Import base tactics option list strings sorting.
From Stdlib Require Import ZArith NArith Lia Ascii.
From S2P Require Import Prelude Event Utf8 Json CognitionText Compaction CognitionData.

(** What the engine's libraries compute: [DefaultHasher] over a cell, its
    revision, the kind of its result and the texts of its fields; the derived
    decoders of a blob reference, a window and a parent. *)
Class CognitionLibs : Type := {
  cell_hash : string → N → string → list string → N;
  blob_from_value : Value → option BlobRef;
  window_from_value : Value → option (option Window);
  parent_from_value : Value → option (option (string * Value));
}.

(** ** Values *)

Notation "v .[ k ]" := (value_index v k) (at level 1, left associativity, format "v .[ k ]").

(** [v == "text"], [v == 1] and [v == true]. *)
Definition is_str (v : Value) (s : string) : bool := bool_decide (as_str v = Some s).
Definition is_int (v : Value) (z : Z) : bool := bool_decide (as_i64 v = Some z).
Definition is_true (v : Value) : bool := bool_decide (as_bool v = Some true).
Definition is_null (v : Value) : bool := match v with Null => true | _ => false end.
Definition is_string (v : Value) : bool := opt_is_some (as_str v).
Definition is_array (v : Value) : bool := opt_is_some (as_array v).
Definition is_object (v : Value) : bool := opt_is_some (as_object v).
Definition str_or_empty (v : Value) : string := default "" (as_str v).

(** [v[key] = x], which panics on a value that is neither an object nor null. *)
Definition index_set (key : string) (x : Value) (v : Value) : option Value :=
  match v with
  | Null | Object _ => Some (value_set v key x)
  | _ => None
  end.
(** [v.as_object_mut().unwrap().remove(key)]. *)
Definition object_remove (key : string) (v : Value) : option Value :=
  match v with
  | Object m => Some (Object (map_remove key m))
  | _ => None
  end.

(** [v["content"].as_array().into_iter().flatten()]. *)
Definition items (v : Value) : list Value := default [] (as_array v).

Fixpoint ends_with (suffix s : string) : bool :=
  String.eqb s suffix || match s with EmptyString => false | String _ s => ends_with suffix s end.
(** [s.contains(needle)]. *)
Fixpoint contains_str (needle s : string) : bool :=
  starts_with needle s || match s with EmptyString => false | String _ s => contains_str needle s end.
(** [s.split('.').next()]. *)
Fixpoint before_dot (s : string) : string :=
  match s with
  | EmptyString => ""
  | String c s => if (c =? ".")%char then "" else String c (before_dot s)
  end.

Definition succ_u64 (n : N) : N := ((n + 1) mod (u64_max + 1))%N.
Definition succ_u32 (n : N) : N := ((n + 1) mod (u32_max + 1))%N.
Definition saturating_sub_i64 (a b : Z) : Z := Z.max i64_min (Z.min (a - b) i64_max).

Section pure.
Context {SJ : SerdeJson} {CL : CognitionLibs}.

(** [serde_json::to_vec(v).len()]. *)
Definition encoded_size (v : Value) : N := len (default [] (result_ok (to_vec v))).

(** [serde_json::to_vec(v).map_or(usize::MAX, |bytes| bytes.len())]. *)
Definition payload_size (v : Value) : N := match to_vec v with Ok b => len b | Err _ => usize_max end.

Definition draft (kind : string) (payload : Value) (cause : string) : Draft := mkDraft kind payload cause.

Definition MAX_CELL_YIELDS : N := 256.
Definition MAX_DEPTH : N := 4.
Definition MAX_CHILD_CONTEXT : N := 64 * 1024.
Definition MAX_TURN_IMAGES : nat := 8.
Definition MAX_IMAGE_BYTES : N := 20 * 1024 * 1024.

(** [jobs::activity_result]. *)
Definition activity_result (event_id : string) (value : Value) : Value :=
  if is_ok (to_vec value) && (encoded_size value <=? 1024)%N then value
  else
    foldl (λ reference field,
        match as_str value.[field] with
        | Some text => if (str_len text <=? 128)%N then value_set reference field (Str text) else reference
        | None => reference
        end)
      (object [("eventId", Str event_id); ("inline", Bool false)]) ["code"; "outcome"].

Definition message_field (value : Value) : string :=
  if is_string value.["message"].["text"] then "text" else "caption".
Definition message_text (value : Value) : string :=
  str_or_empty value.["message"].[message_field value].

(** [key.replace('~', "~0").replace('/', "~1")]. *)
Fixpoint escape_pointer (s : string) : string :=
  match s with
  | EmptyString => ""
  | String c s =>
      (if (c =? "~")%char then "~0" else if (c =? "/")%char then "~1" else String c "")
        +:+ escape_pointer s
  end.

(** One field of a large observation. *)
Definition bounded_field (id : string) (value : Value) (state : list (string * Value) * N)
    (entry : string * Value) : list (string * Value) * N :=
  let '(out, used) := state in
  let '(key, field) := entry in
  let bytes := encoded_size field in
  let source := object [("eventId", Str id); ("jsonPointer", Str ("/" +:+ escape_pointer key));
                        ("bytes", num_u64 bytes); ("payloadOmitted", Bool true)] in
  if (16 * 1024 <? bytes)%N || (48 * 1024 <? used + bytes)%N then
    if String.eqb key "message" then
      (map_insert key (object [("text", Str (take_chars 4096 (message_text value))); ("source", source)])
         out, used)
    else (map_insert key source out, used)
  else (map_insert key field out, (used + bytes)%N).

Definition bounded_observation (id : string) (value : Value) : Value :=
  if (encoded_size value <=? 128 * 1024)%N then value
  else
    match value with
    | Object fields => Object (foldl (bounded_field id value) ([], 0%N) fields).1
    | _ => value
    end.

Definition trigger_input (t : Task) : string :=
  if opt_is_some (value_get (t_context t) "latestObservation") then "latestObservation" else "observation".

(** ** Attachments *)

Inductive MediaTypeSpelling : Type := Snake | Camel | Kebab.
Definition media_type_key (spelling : MediaTypeSpelling) : string :=
  match spelling with
  | Snake => "media_type"
  | Camel => "mediaType"
  | Kebab => "media-type"
  end.
(** [BlobRef::to_json]. *)
Definition blob_to_json (spelling : MediaTypeSpelling) (b : BlobRef) : Value :=
  value_set (object [("algorithm", Str (algorithm b)); ("digest", Str (digest b));
                     ("size", num_u64 (blob_size b))])
    (media_type_key spelling) (Str (media_type b)).

Definition ready_blobs (observation : Value) : list BlobRef :=
  omap (λ item, if is_str item.["status"] "ready" then value_get item "blob" ≫= blob_from_value else None)
    (items observation.["media"]).

Definition image_parts (observation : Value) : list Value :=
  take MAX_TURN_IMAGES (omap (λ blob,
    if starts_with "image/" (media_type blob) && (blob_size blob <=? MAX_IMAGE_BYTES)%N
    then Some (object [("kind", Str "image"); ("blob", blob_to_json Snake blob)]) else None)
    (ready_blobs observation)).

Definition is_lower_hex (c : ascii) : bool :=
  let n := N_of_ascii c in ((48 <=? n) && (n <=? 57) || (97 <=? n) && (n <=? 102))%N.
Fixpoint all_lower_hex (s : string) : bool :=
  match s with
  | EmptyString => true
  | String c s => is_lower_hex c && all_lower_hex s
  end.

Definition attachment_refs (observation : Value) : list Value :=
  take 32 (omap (λ blob,
    if String.eqb (algorithm blob) "sha256" && (str_len (digest blob) =? 64)%N
       && all_lower_hex (digest blob) && negb (str_is_empty (media_type blob))
    then Some (blob_to_json Kebab blob) else None)
    (ready_blobs observation)).

(** ** The turn envelope *)

(** The closure [put]: the envelope and the bytes that remain. *)
Definition put (key : string) (value : Value) (pointer : string) (s : Value * N) : Value * N :=
  let '(envelope, remaining) := s in
  let bytes := str_len (to_string value) in
  if (bytes <=? remaining)%N then (value_set envelope key value, (remaining - bytes)%N)
  else (value_set envelope key (object [("contextPointer", Str pointer); ("bytes", num_u64 bytes)]),
        remaining).
Definition put_field (context : Value) (key : string) (s : Value * N) : Value * N :=
  match value_get context key with
  | Some value => put key value ("/" +:+ key) s
  | None => s
  end.
Definition put_summary (context : Value) (s : Value * N) : Value * N :=
  if is_true context.["workingSummaryProvenance"].["verified"]
  then put_field context "workingSummary" s else s.

Definition job_summary (job : Value) : Value :=
  object [("id", job.["id"]); ("objective", job.["objective"]); ("status", job.["status"]);
          ("revision", job.["revision"]); ("completedSteps", job.["completed_steps"]);
          ("nextStep", job.["next_step"]); ("blockers", job.["blockers"]);
          ("outstandingQuestion", job.["outstanding_question"]);
          ("recentReply", job.["recent_reply"]);
          ("details", object [("contextPointer", Str "/job");
                              ("bytes", num_u64 (str_len (to_string job)))])].

Definition put_routing (c : Value) (s : Value * N) : Value * N :=
  foldl (λ s key, put key c.["routing"].[key] ("/routing/" +:+ key) s) s
    ["observation"; "jobs"; "recentClarifications"].
Definition put_child (c : Value) (s : Value * N) : Value * N :=
  put_summary c (foldl (λ s key, put_field c key s) s ["question"; "context"; "range"; "checkpoint"]).
Definition put_root (t : Task) (s : Value * N) : Value * N :=
  let c := t_context t in
  let input := trigger_input t in
  let field := message_field c.[input] in
  let s := put "message" c.[input].["message"].[field] ("/" +:+ input +:+ "/message/" +:+ field) s in
  let s := put "observationEventId" c.["observationEventId"] "/observationEventId" s in
  let job := c.["job"] in
  let s := put "outstandingQuestion" job.["outstanding_question"] "/job/outstanding_question" s in
  let s := put "components" c.["components"] "/components" s in
  let s := put "tools" c.["tools"] "/tools" s in
  let s := put "job" (job_summary job) "/job" s in
  let s := put "recentConversation" c.["recentConversation"] "/recentConversation" s in
  let s := put_field c "checkpoint" s in
  let s := put_summary c s in
  put "input" c.[input] ("/" +:+ input) s.

Definition turn_context (t : Task) (now_ms : Z) : Value :=
  let c := t_context t in
  let envelope := object
    [("schema", Str "pluribus.turn/1");
     ("role", Str (if opt_is_some (t_association t) then "router"
                   else if opt_is_some (t_parent t) then "child" else "root"));
     ("nowMs", num_i64 now_ms)] in
  let remaining := if opt_is_some (t_association t) then usize_max else (24 * 1024)%N in
  let s := put "trigger" c.["trigger"] "/trigger" (envelope, remaining) in
  let s := put_field c "resourceRecovery" s in
  let s := put_field c "reconciliation" s in
  (if opt_is_some (t_association t) then put_routing c s
   else if opt_is_some (t_parent t) then put_child c s
   else put_root t s).1.

(** ** Validation of what a model returns *)

Definition is_terminal (status : string) : bool := str_mem status ["completed"; "failed"; "cancelled"].

Definition automatically_routable (j : Job) : bool :=
  negb (is_terminal (j_status j)
        || (String.eqb (j_status j) "waiting-input"
            && bool_decide (j_wait_reason j = Some "provider-error"))).

(** [bounded]. *)
Definition bounded_chars (text : string) : string := take_chars 1024 text.

Definition nonblank (v : Value) : bool := is_some_and (as_str v) (λ s, negb (trim_is_empty s)).

Definition validate_association (value : Value) : bool :=
  match value with
  | Object object =>
      if negb (has_key "jobId" object)
         || existsb (λ k, negb (str_mem k ["action"; "jobId"; "question"; "resolvesObservationId"]))
              object.*1
      then false
      else
        let resolved := has_key "resolvesObservationId" object in
        let action := as_str value.["action"] in
        if resolved
           && (negb (is_some_and action (λ a, str_mem a ["new"; "amend"; "cancel"]))
               || negb (nonblank value.["resolvesObservationId"]))
        then false
        else
          let fields := length object - (if resolved then 1 else 0) in
          match action with
          | Some action =>
              if str_mem action ["amend"; "cancel"] then (fields =? 2)%nat && nonblank value.["jobId"]
              else if String.eqb action "new" then (fields =? 2)%nat && is_null value.["jobId"]
              else if String.eqb action "clarify" then
                (fields =? 3)%nat && is_null value.["jobId"] && nonblank value.["question"]
              else false
          | None => false
          end
  | _ => false
  end.

(** The type of one field of a root's decision. *)
Definition control_field (key : string) (value : Value) : bool :=
  if String.eqb key "action" then is_some_and (as_str value) (λ s, str_mem s ["complete"; "wait"; "fail"])
  else if String.eqb key "reply" then is_null value || is_string value
  else if str_mem key ["note"; "nextStep"] then is_string value
  else if String.eqb key "question" then nonblank value
  else if str_mem key ["completedSteps"; "blockers"; "completionConditions"] then is_array value
  else if String.eqb key "waitFor" then is_str value "input"
  else if String.eqb key "dueAtMs" then opt_is_some (as_i64 value)
  else false.

Definition validate_control (value : Value) (child : bool) : result unit string :=
  match value with
  | Object object =>
      if child then
        if (length object =? 1)%nat && is_string value.["result"] then Ok tt
        else Err "Child yield requires only a string result"
      else if existsb (λ '(key, value), negb (control_field key value)) object then
        Err "Invalid yield field or type; follow the yield schema"
      else if negb (Bool.eqb (is_str value.["waitFor"] "input") (has_key "question" object)) then
        Err "Waiting for user input requires a specific question; other decisions forbid question"
      else if (is_str value.["action"] "wait"
               && xorb (has_key "waitFor" object) (has_key "dueAtMs" object))
              || (is_some_and (as_str value.["action"]) (λ a, str_mem a ["complete"; "fail"])
                  && negb (has_key "waitFor" object) && negb (has_key "dueAtMs" object))
      then Ok tt
      else Err "Invalid action or wait target; wait requires exactly one waitFor=input or dueAtMs"
  | _ => Err "yield arguments must be an object"
  end.

(** One part of a message: the calls that are still open. *)
Definition history_item (role : Value) (pending : list string) (item : Value) : option (list string) :=
  if is_str item.["kind"] "tool-call" then
    match as_str item.["call_id"] with
    | Some id =>
        if str_is_empty id || negb (is_str role "assistant") || str_mem id pending then None
        else Some (id :: pending)
    | None => None
    end
  else if is_str item.["kind"] "tool-result" then
    match as_str item.["call_id"] with
    | Some id =>
        if is_str role "tool" && str_mem id pending
        then Some (List.filter (λ x, negb (String.eqb x id)) pending) else None
    | None => None
    end
  else Some pending.
Definition history_message (pending : option (list string)) (message : Value) : option (list string) :=
  pending ← pending;
  if negb (is_str message.["role"] "tool") && negb (bool_decide (pending = [])) then None
  else foldl (λ pending item, pending ≫= λ pending, history_item message.["role"] pending item)
         (Some pending) (items message.["content"]).
Definition valid_tool_history (messages : list Value) : bool :=
  bool_decide (foldl history_message (Some []) messages = Some []).

Definition RESULT_KINDS : list string :=
  ["code.completed"; "code.failed"; "code.yielded"; "capability.completed"; "capability.failed";
   "capability.denied"; "capability.cancelled"; "capability.timed-out"; "cognition.resource-exhausted"].
Definition result_key (kind id : string) (value : Value) : option string :=
  if str_mem kind RESULT_KINDS
  then Some (before_dot kind +:+ ":" +:+ default id (as_str value.["requestEventId"])) else None.

Definition unresolved (activity : Value) : bool :=
  is_str activity.["status"] "activity.unknown"
  || is_str activity.["result"].["code"] "outcome-unknown"
  || is_str activity.["result"].["outcome"] "unknown".
Definition in_progress (activity : Value) : bool :=
  is_str activity.["status"] "queued" || is_str activity.["status"] "running".

(** [resume]. *)
Definition resume (session : string) (id : Value) (r : result Value string) (cause : string) : Draft :=
  let response := match r with
                  | Ok value => object [("id", id); ("value", value)]
                  | Err error => object [("id", id); ("error", Str error)]
                  end in
  draft "code.resumed" (object [("sessionId", Str session); ("response", response)]) cause.

Definition reply_request (observation text : Value) : option Value :=
  provider ← as_str observation.["provider"];
  conversation ← as_str observation.["conversationId"];
  Some (object [("capability", Str (provider +:+ ".reply"));
                ("arguments", object [("conversationId", Str conversation); ("text", text)])]).

Definition conversation_key (value : Value) : string :=
  to_string (Array [value.["provider"]; value.["externalSenderId"]; value.["conversationId"]]).

Definition same_conversation (original value : Value) : bool :=
  value_eqb original.["externalSenderId"] value.["externalSenderId"]
  && value_eqb original.["provider"] value.["provider"]
  && value_eqb original.["conversationId"] value.["conversationId"].

(** The messages of a session. *)
Definition text_message (role text : string) : Value :=
  object [("role", Str role); ("content", Array [object [("kind", Str "text"); ("text", Str text)]])].
Definition tool_result (call_id schema output error : Value) : Value :=
  object [("role", Str "tool");
          ("content", Array [object [("kind", Str "tool-result"); ("call_id", call_id);
                                     ("output_schema", schema); ("output", output); ("error", error)]])].
Definition tool_calls (message : Value) : list Value :=
  List.filter (λ p, is_str p.["kind"] "tool-call") (items message.["content"]).

Definition close_requested (session cause : string) : Draft :=
  draft "code.close-requested" (object [("sessionId", Str session)]) cause.

(** [Engine::close_interrupted_tools]: the calls that are open, in order. *)
Definition open_call (pending : list (string * unit)) (item : Value) : list (string * unit) :=
  match as_str item.["call_id"] with
  | Some id =>
      if is_str item.["kind"] "tool-call" then map_insert id tt pending
      else if is_str item.["kind"] "tool-result" then map_remove id pending
      else pending
  | None => pending
  end.
Definition close_interrupted_tools (reason : string) (t : Task) : Task :=
  let pending := foldl (λ p message, foldl open_call p (items message.["content"])) [] (t_messages t) in
  set_t_messages (t_messages t ++
    ((λ '(id, _), tool_result (Str id) (Str "pluribus.code-result/1")
                    (object [("code", Str "cancelled"); ("outcome", Str "unknown"); ("reason", Str reason)])
                    (Str reason)) <$> pending)) t.
End pure.
