(* ===== verification/Cognition.v ===== *)
(** The engine of the reasoning plugin, [plugins/rlm/cognition/src/engine.rs]:
    a state machine over jobs, observations and model sessions that turns
    one event at a time into drafts of new events.

    An operation is a state transformer that panics on a failed [unwrap], a
    missing index or an assignment to a field of a value that is no object. *)
From stdpp Require Import base tactics option list strings sorting.
From Stdlib Require Import ZArith NArith Lia Ascii.
From S2P Require Import Prelude Event Utf8 Json CognitionText Compaction CognitionData CognitionBase.

(** ** The state *)

(** A step of the engine; [None] when it panics. *)
Definition Eng (A : Type) : Type := Engine → option (A * Engine).
Definition en_ret {A} (a : A) : Eng A := λ e, Some (a, e).
Definition en_panic {A} : Eng A := λ _, None.
Definition en_bind {A B} (m : Eng A) (k : A → Eng B) : Eng B := λ e,
  match m e with
  | Some (a, e) => k a e
  | None => None
  end.
Notation "'let^' x := m 'in' k" := (en_bind m (fun x => k))
  (at level 10, x pattern, m at level 100, k at level 200).
Notation "'do^' m ; k" := (en_bind m (fun _ => k))
  (at level 10, m at level 100, k at level 200).

Definition en_get : Eng Engine := λ e, Some (e, e).
Definition en_update (f : Engine → Engine) : Eng unit := λ e, Some (tt, f e).
(** [o.unwrap()]. *)
Definition en_unwrap {A} (o : option A) : Eng A := λ e, a ← o; Some (a, e).

Definition on_jobs (f : list (string * Job) → list (string * Job)) : Eng unit :=
  en_update (λ e, set_e_jobs (f (e_jobs e)) e).
Definition on_tasks (f : list (string * Task) → list (string * Task)) : Eng unit :=
  en_update (λ e, set_e_tasks (f (e_tasks e)) e).
Definition on_inbox (f : list (string * Observation) → list (string * Observation)) : Eng unit :=
  en_update (λ e, set_e_inbox (f (e_inbox e)) e).
Definition on_calls (f : list (string * string) → list (string * string)) : Eng unit :=
  en_update (λ e, set_e_calls (f (e_calls e)) e).
Definition on_budgets (f : list (string * N) → list (string * N)) : Eng unit :=
  en_update (λ e, set_e_budgets (f (e_budgets e)) e).
Definition on_queue (f : list string → list string) : Eng unit :=
  en_update (λ e, set_e_queue (f (e_queue e)) e).

(** [self.tasks[session]], [self.tasks.get_mut(session).unwrap()] and the
    like. *)
Definition task_at (session : string) : Eng Task :=
  let^ e := en_get in en_unwrap (map_get session (e_tasks e)).
Definition job_at (id : string) : Eng Job :=
  let^ e := en_get in en_unwrap (map_get id (e_jobs e)).
Definition observation_at (id : string) : Eng Observation :=
  let^ e := en_get in en_unwrap (map_get id (e_inbox e)).
Definition task_mut (session : string) (f : Task → Task) : Eng unit :=
  let^ t := task_at session in on_tasks (map_insert session (f t)).
Definition job_mut (id : string) (f : Job → Job) : Eng unit :=
  let^ j := job_at id in on_jobs (map_insert id (f j)).
Definition observation_mut (id : string) (f : Observation → Observation) : Eng unit :=
  let^ o := observation_at id in on_inbox (map_insert id (f o)).
Definition job_if (id : string) (f : Job → Job) : Eng unit := on_jobs (map_update id f).

(** [task.context[key] = value]. *)
Definition context_set (session key : string) (value : Value) : Eng unit :=
  let^ t := task_at session in
  let^ c := en_unwrap (index_set key value (t_context t)) in
  on_tasks (map_insert session (set_t_context c t)).
(** [task.context.as_object_mut().unwrap().remove(key)]. *)
Definition context_remove (session key : string) : Eng unit :=
  let^ t := task_at session in
  let^ c := en_unwrap (object_remove key (t_context t)) in
  on_tasks (map_insert session (set_t_context c t)).
(** [task.messages.push(message)]. *)
Definition push_message (session : string) (message : Value) : Eng unit :=
  task_mut session (λ t, set_t_messages (t_messages t ++ [message]) t).
(** [task.messages[i] = message]. *)
Definition message_set (session : string) (i : nat) (message : Value) : Eng unit :=
  let^ t := task_at session in
  if (i <? length (t_messages t))%nat
  then on_tasks (map_insert session (set_t_messages (<[i := message]> (t_messages t)) t))
  else en_panic.

(** Assignments to every entry of a map, with the drafts they push. *)
Fixpoint map_each {V} (f : string → V → option (V * list Draft)) (m : list (string * V))
    : option (list (string * V) * list Draft) :=
  match m with
  | [] => Some ([], [])
  | (k, v) :: m =>
      '(v, out) ← f k v;
      '(m, rest) ← map_each f m;
      Some ((k, v) :: m, out ++ rest)
  end.
Definition tasks_each (f : string → Task → option (Task * list Draft)) : Eng (list Draft) :=
  let^ e := en_get in
  let^ (m, out) := en_unwrap (map_each f (e_tasks e)) in
  do^ on_tasks (λ _, m);
  en_ret out.

(** ** The engine *)

Section engine.
Context {SJ : SerdeJson} {CL : CognitionLibs} {SD : SummaryDecoder}.
Context (config : CognitionConfig).

Definition origin_value (e : Engine) (job : string) : option Value :=
  match map_get job (e_tasks e) with
  | Some t => Some (t_context t).["observation"]
  | None => snd <$> map_get job (e_routing_jobs e)
  end.
Definition same_origin (e : Engine) (job : string) (value : Value) : bool :=
  is_some_and (origin_value e job) (λ original, same_conversation original value).

(** *** Provenance of summaries *)

Definition compacting_call (call_id : string) (f : Task → Task) : Eng unit :=
  let^ e := en_get in
  match map_get call_id (e_calls e) with
  | Some session => on_tasks (map_update session (λ t, if t_compacting t then f t else t))
  | None => en_ret tt
  end.
Definition set_compaction_provenance_error (call_id error : string) : Eng unit :=
  compacting_call call_id (set_t_compaction_provenance_error (Some error)).
Definition begin_compaction_provenance (call_id : string) : Eng unit :=
  compacting_call call_id (set_t_compaction_provenance_error None).
Definition set_compaction_provenance_verified (call_id : string) : Eng unit :=
  compacting_call call_id (set_t_compaction_provenance_error None).

Definition begin_checkpoint_provenance (session : string) : Eng unit :=
  on_tasks (map_update session (λ t,
    set_t_checkpoint_provenance_verified false (set_t_checkpoint_provenance_error None t))).
Definition set_checkpoint_provenance_error (session error : string) : Eng unit :=
  on_tasks (map_update session (λ t,
    set_t_checkpoint_provenance_error (Some error) (set_t_checkpoint_provenance_verified false t))).
Definition set_checkpoint_provenance_verified (session : string) : Eng unit :=
  on_tasks (map_update session (λ t,
    set_t_checkpoint_provenance_verified true (set_t_checkpoint_provenance_error None t))).

Definition summary_scope (t : Task) : result (option (N * N)) string :=
  if opt_is_some (t_parent t) && negb (opt_is_some (t_window t))
  then Err "working summary has no authorized delegated history range"
  else Ok ((λ w, (win_after w, win_limit w)) <$> t_window t).
Definition checkpoint_scope (e : Engine) (session : string) : option (result (option (N * N)) string) :=
  summary_scope <$> map_get session (e_tasks e).
Definition compaction_scope (e : Engine) (call_id : string) : option (result (option (N * N)) string) :=
  session ← map_get call_id (e_calls e); checkpoint_scope e session.

Definition history_window (e : Engine) (session : string) : option Window :=
  t ← map_get session (e_tasks e);
  if (t_depth t =? 0)%N then Some (mkWindow 0 u32_max) else t_window t.

Definition result_seen (e : Engine) (kind id : string) (value : Value) : bool :=
  is_some_and (result_key kind id value) (λ key, has_key key (e_seen_results e)).

Definition resource_read_limit (e : Engine) (session : string) : N :=
  match t_resource_failures <$> map_get session (e_tasks e) with
  | Some 1%N => 16
  | Some n => if (2 <=? n)%N then 8 else u32_max
  | None => u32_max
  end.

(** *** Ending sessions *)

Definition sleep (session status : string) (due : Z) (cause : string) : Eng (list Draft) :=
  let^ t := task_at session in
  let root := t_root t in
  let^ e := en_get in
  match map_get root (e_jobs e) with
  | None => en_ret []
  | Some j =>
      let token := j_id j +:+ ":" +:+ u64_to_string (j_revision j) +:+ ":" +:+ cause +:+ ":"
                   +:+ i64_to_string due in
      let timer := draft "timer.set"
        (object [("jobId", Str root); ("revision", num_u64 (j_revision j));
                 ("wakeToken", Str token); ("dueAtMs", num_i64 due)]) cause in
      let wake := Some (mkWake token None (j_revision j) due) in
      let reason := if String.eqb status "paused-budget" then "budget" else "scheduled" in
      do^ job_mut root (λ j, set_j_wake wake (set_j_outstanding_question None
            (set_j_wait_reason (Some reason) (set_j_status status j))));
      if String.eqb status "paused-budget" then en_ret [timer]
      else
        do^ task_mut root (close_interrupted_tools
              "cell interrupted by job suspension; reconcile effects before retrying");
        let^ e := en_get in
        let closes := omap (λ '(id, t), if String.eqb (t_root t) root then Some (close_requested id cause)
                                        else None) (e_tasks e) in
        do^ on_tasks (map_retain (λ id t, negb (String.eqb (t_root t) root) || String.eqb id root));
        let^ e := en_get in
        do^ on_queue (List.filter (λ id, has_key id (e_tasks e)));
        do^ task_mut root (λ t, set_t_cell_started false (set_t_pending None t));
        en_ret (timer :: closes)
  end.

(** The reply of a decision: its text, followed by its question. *)
Definition reply_text (value : Value) : option string :=
  let reply := match as_str value.["reply"] with
               | Some s => if str_is_empty s then None else Some s
               | None => None
               end in
  match as_str value.["question"], reply with
  | Some question, Some reply =>
      Some (if contains_str question reply then reply
            else reply +:+ String "010" (String "010" "") +:+ question)
  | Some question, None => Some question
  | None, reply => reply
  end.

(** The fields of a decision that update the job. *)
Definition note_decision (value : Value) (j : Job) : Job :=
  let update key set j := match value_get value key with Some v => set v j | None => j end in
  update "completionConditions" set_j_completion_conditions
    (update "blockers" set_j_blockers
       (update "completedSteps" set_j_completed_steps
          (update "nextStep" set_j_next_step (update "note" set_j_notes j)))).

Definition opt_value (o : option Value) : Value := default Null o.

(** The end of a root session. *)
Definition close_root (session : string) (r : result Value string) (cause : string)
    (replies : list Draft) : Eng (list Draft) :=
  let succeeded := match r with Ok v => negb (is_str v.["action"] "fail") | Err _ => false end in
  do^ job_if session (λ j, set_j_outstanding_question None (set_j_wait_reason None (set_j_wake None
        (set_j_status (if succeeded then "completed" else "failed") j))));
  let^ e := en_get in
  match map_get session (e_tasks e) with
  | None => en_ret []
  | Some t =>
      do^ on_tasks (map_remove session);
      do^ on_budgets (map_remove (t_root t));
      en_ret (draft (if succeeded then "cognition.completed" else "cognition.failed")
                (object [("root", Str (t_root t)); ("result", opt_value (result_ok r));
                         ("error", opt_str (match r with Err e => Some e | Ok _ => None end))]) cause
              :: replies ++ [close_requested session cause])
  end.

Definition finish_root (session : string) (r : result Value string) (cause : string)
    : Eng (list Draft) :=
  match r with
  | Err _ => close_root session r cause []
  | Ok value =>
      let^ t := task_at session in
      let reply := reply_text value in
      let replies :=
        match reply with
        | Some text =>
            match reply_request (t_context t).["observation"] (Str text) with
            | Some request => [draft "capability.requested" request (t_origin t)]
            | None => []
            end
        | None => []
        end in
      do^ job_if session (λ j, note_decision value
            (match reply with Some text => set_j_recent_reply (Some text) j | None => j end));
      if is_str value.["action"] "wait" then
        if is_str value.["waitFor"] "input" then
          do^ job_mut session (λ j, set_j_outstanding_question (as_str value.["question"])
                (set_j_wait_reason (Some "awaiting-user") (set_j_status "waiting-input" j)));
          en_ret replies
        else
          let^ due := en_unwrap (as_i64 value.["dueAtMs"]) in
          let^ out := sleep session "waiting-time" due cause in
          en_ret (out ++ replies)
      else close_root session r cause replies
  end.

Definition finish (session : string) (r : result string string) (cause : string) : Eng (list Draft) :=
  let^ e := en_get in
  let error := match r with Err e => Some e | Ok _ => None end in
  match map_get session (e_tasks e) with
  | None => en_ret []
  | Some t =>
      match t_association t with
      | Some observation =>
          do^ on_tasks (map_remove session);
          do^ on_budgets (map_remove session);
          do^ observation_mut observation (set_o_status "waiting-input");
          en_ret [draft "cognition.failed"
                    (object [("observationEventId", Str observation); ("error", opt_str error)]) cause]
      | None =>
          match t_parent t with
          | None => finish_root session (Err (default "root requires yield" error)) cause
          | Some (parent, id) =>
              do^ on_tasks (map_remove session);
              en_ret [resume parent id (result_map Str r) cause; close_requested session cause]
          end
      end
  end.

Definition stalled (session reason cause : string) : Eng (list Draft) :=
  let^ t := task_at session in
  if opt_is_some (t_parent t) then finish session (Err ("Reasoning stalled: " +:+ reason)) cause
  else finish_root session (Ok (object
    [("action", Str "fail"); ("note", Str reason); ("blockers", texts [reason]);
     ("reply", Str "Reasoning stalled: repeated responses made no progress. This attempt has stopped.")]))
    cause.

Definition RECOVERY_EXHAUSTED : string := "resource recovery exhausted after two retries".
Definition resource_budget_exhausted (session cause : string) : Eng (list Draft) :=
  let^ t := task_at session in
  if opt_is_some (t_parent t) || opt_is_some (t_association t)
  then finish session (Err RECOVERY_EXHAUSTED) cause
  else finish_root session (Ok (object
    [("action", Str "fail"); ("note", Str RECOVERY_EXHAUSTED); ("blockers", texts [RECOVERY_EXHAUSTED]);
     ("reply", Str (String.concat "" ["This task exceeded its resource limit after two recovery attempts. ";
        "It has stopped; Check recorded receipts before repeating any external action."]))])) cause.

(** *** Requesting the model *)

Definition by_recency (a b : Job) : Prop := (j_incorporated_sequence b ≤ j_incorporated_sequence a)%N.
Definition newer (a b : Observation) : Prop := (o_sequence b ≤ o_sequence a)%N.
Definition older (a b : Observation) : Prop := (o_sequence a ≤ o_sequence b)%N.
#[export] Instance by_recency_dec a b : Decision (by_recency a b).
Proof. unfold by_recency. apply _. Defined.
#[export] Instance newer_dec a b : Decision (newer a b).
Proof. unfold newer. apply _. Defined.
#[export] Instance older_dec a b : Decision (older a b).
Proof. unfold older. apply _. Defined.

(** The loaded entries, then those of the routing index that are not loaded. *)
Definition known_jobs (e : Engine) : list Job :=
  (e_jobs e).*2 ++ omap (λ '(id, (j, _)), if has_key id (e_jobs e) then None else Some j) (e_routing_jobs e).
Definition known_observations (e : Engine) : list Observation :=
  (e_inbox e).*2
  ++ omap (λ '(id, o), if has_key id (e_inbox e) then None else Some o) (e_routing_observations e).

Definition routing_candidate (e : Engine) (j : Job) : Value :=
  let recent_user := default "" (id ← last (j_sources j); o ← map_get id (e_inbox e);
                                 Some (message_text (o_value o))) in
  object [("id", Str (j_id j)); ("objective", Str (bounded_chars (j_objective j)));
          ("recentUserMessage", Str (bounded_chars recent_user));
          ("recentReply", opt_str (bounded_chars <$> j_recent_reply j));
          ("waitReason", opt_str (j_wait_reason j));
          ("outstandingQuestion", opt_str (bounded_chars <$> j_outstanding_question j))].
Definition awaits_clarification (o : Observation) : bool :=
  String.eqb (o_status o) "waiting-input" && bool_decide (o_job o = None)
  && opt_is_some (o_outstanding_question o).
Definition clarification (o : Observation) : Value :=
  object [("id", Str (o_id o)); ("message", Str (bounded_chars (message_text (o_value o))));
          ("question", opt_str (bounded_chars <$> o_outstanding_question o))].

Definition routing_jobs (e : Engine) (value : Value) : list Value :=
  routing_candidate e <$> take 12 (merge_sort by_recency
    (List.filter (λ j, automatically_routable j && same_origin e (j_id j) value) (known_jobs e))).
Definition routing_clarifications (e : Engine) (value : Value) : list Value :=
  clarification <$> take 4 (merge_sort newer
    (List.filter (λ o, awaits_clarification o && same_conversation (o_value o) value)
       (known_observations e))).
Definition routing_context (e : Engine) (value : Value) : Value :=
  object [("observation", object [("text", Str (bounded_chars (message_text value)))]);
          ("jobs", Array (routing_jobs e value));
          ("recentClarifications", Array (routing_clarifications e value))].

(** The conversation before the turn of a root. *)
Definition recent_entry (e : Engine) (o : Observation) : Value :=
  let reply :=
    id ← o_job o;
    j ← (match map_get id (e_jobs e) with Some j => Some j | None => fst <$> map_get id (e_routing_jobs e) end);
    if bool_decide (last (j_sources j) = Some (o_id o)) then j_recent_reply j else None in
  object [("eventId", Str (o_id o)); ("message", Str (message_text (o_value o))); ("reply", opt_str reply)].
Definition recent_conversation (e : Engine) (t : Task) : Value :=
  let current := default (t_origin t) (as_str (t_context t).["trigger"].["eventId"]) in
  let observations := merge_sort older
    (List.filter (λ o, negb (String.eqb (o_id o) current) && negb (String.eqb (o_id o) (t_origin t))
                       && same_origin e (t_root t) (o_value o)) (known_observations e)) in
  let unloaded := match origin_value e (t_root t) with
                  | Some origin => default 0%N (map_get (conversation_key origin) (e_unloaded_observations e))
                  | None => 0%N
                  end in
  object [("entries", Array (recent_entry e <$> drop (length observations - 6) observations));
          ("availableCount", num_u64 (len observations + unloaded))].

Definition model_payload (call : string) (messages : list Value) (tools : Value) (root : string)
    (revision : N) : Value :=
  object [("call_id", Str call); ("messages", Array messages); ("tools", tools);
          ("max_output_tokens", num_u64 (output_reserve (cfg_budget config)));
          ("jobId", Str root); ("revision", num_u64 revision)].

Definition COMPACT_SYSTEM : string :=
  "Create a structured working summary. Call compact exactly once; do not execute any other tool.".

(** [source_ids.sort(); source_ids.dedup()]. *)
Definition summary_sources (context : Value) : list string :=
  let ids := option_list (as_str context.["observationEventId"])
             ++ omap as_str (items context.["job"].["sources"]) in
  merge_sort String.le (remove_dups ids).

Definition compaction_request (session call cause : string) : Eng (list Draft) :=
  let^ t := task_at session in
  match bounded_messages (t_messages t) with
  | None => finish session (Err "model history exceeds the hard context ceiling before compaction") cause
  | Some history =>
      let c := t_context t in
      let^ turn := (match value_get c "compactionError" with
                    | Some error => en_unwrap (index_set "compactionError" error c.["turn"])
                    | None => en_ret c.["turn"]
                    end) in
      let messages := [text_message "system" COMPACT_SYSTEM;
                       text_message "user" (compact_prompt turn history (summary_sources c))] in
      if negb (is_ok (to_vec (Array messages))) || (HARD_LIMIT <? encoded_size (Array messages))%N
      then finish session (Err "compaction request exceeds the hard context ceiling") cause
      else
        let payload := model_payload call messages compact_tools (t_root t) (t_revision t) in
        if (HARD_LIMIT <? payload_size payload)%N
        then finish session (Err "compaction request exceeds the hard context ceiling") cause
        else if negb (token_budget_ok (payload_size payload) (cfg_budget config))
        then finish session (Err "compaction request exceeds the configured input token budget") cause
        else
          do^ task_mut session (set_t_compacting true);
          do^ on_calls (map_insert call session);
          en_ret [draft "model.requested" payload (t_origin t)]
  end.

Definition PAUSED_STATUSES : list string :=
  ["waiting-input"; "waiting-time"; "paused-budget"; "completed"; "failed"; "cancelled"].

(** The routing view of an association session. *)
Definition refresh_routing (session : string) : Eng unit :=
  let^ t := task_at session in
  match t_association t with
  | None => en_ret tt
  | Some observation =>
      let^ o := observation_at observation in
      let^ e := en_get in
      do^ context_set session "routing" (routing_context e (o_value o));
      let^ t := task_at session in
      let trigger := (t_context t).["trigger"] in
      if is_str trigger.["kind"] "observation" then
        let^ trigger := en_unwrap (index_set "kind" (Str "routing") trigger) in
        context_set session "trigger" trigger
      else en_ret tt
  end.

(** The context and the first messages of the turn: whether it has images. *)
Definition prepare_turn (session : string) : Eng bool :=
  let^ t := task_at session in
  let^ e := en_get in
  let root := negb (opt_is_some (t_parent t)) && negb (opt_is_some (t_association t)) in
  do^ (if root then context_set session "recentConversation" (recent_conversation e t) else en_ret tt);
  do^ message_set session 0 (text_message "system"
        (if opt_is_some (t_association t) then ASSOCIATION_PROMPT else PROMPT));
  do^ task_mut session (λ t, set_t_decision_revision (t_revision t) t);
  do^ (match map_get (t_root t) (e_jobs e) with
       | Some j =>
           do^ on_jobs (map_insert (t_root t) (set_j_status "running" j));
           context_set session "job" (job_to_value (set_j_status "running" j))
       | None => en_ret tt
       end);
  do^ (if root then context_set session "tools" (Array (cfg_tools config)) else en_ret tt);
  do^ context_set session "components" (Array (cfg_components config));
  let^ t := task_at session in
  let envelope := turn_context t (e_now_ms e) in
  do^ context_set session "turn" envelope;
  let^ t := task_at session in
  let images := if root then image_parts (t_context t).[trigger_input t] else [] in
  do^ message_set session 1 (object [("role", Str "user");
        ("content", Array (object [("kind", Str "text"); ("text", Str (to_string envelope))] :: images))]);
  en_ret (negb (bool_decide (images = []))).

Definition UNMATCHED : string :=
  "Cannot continue: conversation contains an unmatched or misplaced tool result.".

(** The request itself, once the turn is prepared. *)
Definition send_turn (session call cause : string) (vision : bool) : Eng (list Draft) :=
  let^ t := task_at session in
  let messages := t_messages t in
  if (HARD_LIMIT <? encoded_size (Array messages))%N
  then finish session (Err "model context limit") cause
  else
    let^ admitted := en_unwrap (admission (encoded_size (Array messages)) (cfg_budget config)) in
    if bool_decide (admitted = Compact) then compaction_request session call cause
    else if negb (valid_tool_history messages) then
      if negb (opt_is_some (t_parent t)) && negb (opt_is_some (t_association t))
      then finish_root session (Ok (object [("action", Str "fail"); ("reply", Str UNMATCHED)])) cause
      else finish session (Err UNMATCHED) cause
    else
      let tools := if opt_is_some (t_association t) then association_tools
                   else model_tools (opt_is_some (t_parent t)) in
      let payload := model_payload call messages tools (t_root t) (t_revision t) in
      let payload := if vision then value_set payload "required_features" (Array [Str "vision"])
                     else payload in
      let bytes := payload_size payload in
      if (HARD_LIMIT <? bytes)%N then finish session (Err "model context limit") cause
      else
        let^ admitted := en_unwrap (admission bytes (cfg_budget config)) in
        match admitted with
        | Compact => compaction_request session call cause
        | Reject => finish session (Err "model context token budget exhausted") cause
        | Continue =>
            do^ on_calls (map_insert call session);
            en_ret [draft "model.requested" payload (t_origin t)]
        end.

Definition MODEL_BUDGET : N := 32.
Definition CYCLE_MS : Z := 1800000.

(** Admission of a turn that the scheduler may send now. *)
Definition admit_turn (session : string) (t : Task) (cause : string) : Eng (list Draft) :=
  let^ e := en_get in
  let pause := sleep session "paused-budget" (saturating_add_i64 (e_now_ms e) 60000) cause in
  if is_some_and (map_get (t_root t) (e_jobs e))
       (λ j, CYCLE_MS <=? saturating_sub_i64 (e_now_ms e) (j_cycle_started_ms j))%Z
  then
    if opt_is_some (t_parent t) then finish session (Err "model cycle time budget exhausted") cause
    else pause
  else
    let^ used := en_unwrap (map_get (t_root t) (e_budgets e)) in
    if (MODEL_BUDGET <=? used)%N then
      if opt_is_some (t_parent t) then finish session (Err "model call budget exhausted") cause
      else pause
    else
      do^ on_budgets (map_insert (t_root t) (used + 1)%N);
      let started := match map_get (t_root t) (e_jobs e) with
                     | Some j => j_cycle_started_ms j
                     | None => 0%Z
                     end in
      let call := t_root t +:+ ":model:" +:+ i64_to_string started +:+ ":" +:+ u64_to_string (used + 1) in
      do^ on_queue (List.filter (λ id, negb (String.eqb id session)));
      let^ vision := prepare_turn session in
      send_turn session call cause vision.

(** [Engine::request]. *)
Definition request (session cause : string) : Eng (list Draft) :=
  do^ refresh_routing session;
  let^ t := task_at session in
  let^ e := en_get in
  if is_some_and (map_get (t_root t) (e_jobs e)) (λ j, str_mem (j_status j) PAUSED_STATUSES) then en_ret []
  else if (MODEL_BUDGET <=? default 0 (map_get (t_root t) (e_budgets e)))%N && opt_is_some (t_parent t)
  then finish session (Err "model call budget exhausted") cause
  else if existsb (λ '(_, id), String.eqb id session) (e_calls e) then en_ret []
  else if negb (e_scheduling e) || negb (bool_decide (e_calls e = [])) then
    if str_mem session (e_queue e) then en_ret []
    else
      do^ on_queue (λ q, if opt_is_some (t_association t) then session :: q else q ++ [session]);
      en_ret []
  else admit_turn session t cause.

(** *** Starting sessions *)

(** The window a child asks for, within the one its parent has. *)
Definition requested_window (context : Value) : option Window :=
  range ← value_get context "range";
  after ← as_u64 range.["after"];
  limit ← as_u64 range.["limit"];
  if (limit <=? u32_max)%N then Some (mkWindow after limit) else None.
Definition window_end (w : Window) : N := saturating_add_u64 (win_after w) (win_limit w).
Definition clamp_window (allowed requested : Window) : option Window :=
  let after := N.max (win_after requested) (win_after allowed) in
  let stop := N.min (window_end requested) (window_end allowed) in
  if (after <? stop)%N then Some (mkWindow after ((stop - after) mod (u32_max + 1))%N) else None.
Definition window_value (w : option Window) : Value :=
  match w with
  | Some w => object [("after", num_u64 (win_after w)); ("limit", num_u64 (win_limit w))]
  | None => Null
  end.

Definition start (id root origin : string) (context : Value) (parent : option (string * Value)) (depth : N)
    : Eng unit :=
  let^ e := en_get in
  let question := if (depth =? 0)%N then "Inspect context.observation and decide what to do."
                  else default "Inspect context" (as_str context.["question"]) in
  let context := if (depth =? 0)%N
    then object [("observation", context); ("observationEventId", Str origin);
                 ("tools", Array (cfg_tools config))]
    else context in
  let^ context := en_unwrap (index_set "trigger"
    (object [("kind", Str (if (depth =? 0)%N then "observation" else "child-query")); ("eventId", Str origin)])
    context) in
  let window :=
    if (depth =? 0)%N then None
    else requested ← requested_window context;
         '(p, _) ← parent;
         allowed ← history_window e p;
         clamp_window allowed requested in
  let^ context := (if (depth =? 0)%N then en_ret context
                   else en_unwrap (index_set "range" (window_value window) context)) in
  let revision := match map_get root (e_jobs e) with Some j => j_revision j | None => 0%N end in
  on_tasks (map_insert id
    (mkTask None None 0 false 0 "" None 0 revision revision revision None root origin context
       [text_message "system" PROMPT; text_message "user" question]
       parent depth "" None 0 window false 0 None None false)).

Definition first_nonempty (l : list string) : string :=
  default "" (List.find (λ s, negb (str_is_empty s)) l).

Definition create_job (observation cause : string) : Eng (list Draft) :=
  do^ observation_mut observation (λ o, set_o_job (Some observation) (set_o_status "incorporated" o));
  let^ o := observation_at observation in
  let^ e := en_get in
  let value := o_value o in
  let resolved := value.["resolvedClarification"] in
  do^ on_jobs (map_insert observation
        (mkJob [] observation
           (first_nonempty [message_text resolved; message_text value; "Inspect observation"])
           Null observation
           (option_list (as_str resolved.["observationId"]) ++ [observation])
           0 (o_sequence o) "runnable" None None None Null Null Null Null Null 1 (e_now_ms e) 0 None));
  do^ on_budgets (map_insert observation 0%N);
  do^ start observation observation observation value None 0;
  request observation cause.

Definition cancel_requested (request : string) (job_id : string) (revision : N) (cause : string) : Draft :=
  draft "cognition.cancel-requested"
    (object [("requestEventId", Str request); ("jobId", Str job_id); ("revision", num_u64 revision)]) cause.

(** The drafts that withdraw what a job was waiting for. *)
Definition cancel_wake (w : option Wake) (cause : string) : list Draft :=
  match w ≫= w_request with
  | Some request => [draft "timer.cancel" (object [("requestEventId", Str request)]) cause]
  | None => []
  end.
Definition cancel_activities (job_id : string) (revision : N) (j : Job) (cause : string) : list Draft :=
  omap (λ '(request, activity),
          if in_progress activity then Some (cancel_requested request job_id revision cause)
          else None) (j_activities j).

(** A session of an amended job. *)
Definition interrupt_task (job_id : string) (revision : N) (cause : string) (id : string) (t : Task)
    : option (Task * list Draft) :=
  if negb (String.eqb (t_root t) job_id) then Some (t, [])
  else
    let cancel := match t_pending t ≫= λ p, as_str p.["request"] with
                  | Some request => [cancel_requested request job_id revision cause]
                  | None => []
                  end in
    let t := set_t_control_errors 0 (set_t_revision revision t) in
    let t := close_interrupted_tools "task amended; cell interrupted; reconcile effects before retrying" t in
    Some (set_t_cell_started false (set_t_pending None t), cancel ++ [close_requested id cause]).

Definition associate (observation job_id cause : string) : Eng (list Draft) :=
  let^ source := observation_at observation in
  let^ e := en_get in
  match map_get job_id (e_jobs e) with
  | Some j =>
      if negb (same_origin e job_id (o_value source)) then
        do^ observation_mut observation (set_o_status "waiting-input");
        en_ret []
      else if is_terminal (j_status j) then en_ret []
      else
        let cancelled := is_str (o_value source).["intent"] "cancel" in
        let revision := succ_u64 (j_revision j) in
        let j' := set_j_status (if cancelled then "cancelled" else "runnable") (set_j_wake None
          (set_j_incorporated_sequence (o_sequence source)
             (set_j_sources (j_sources j ++ [observation]) (set_j_outstanding_question None
                (set_j_wait_reason None (set_j_revision revision j)))))) in
        do^ on_jobs (map_insert job_id j');
        do^ observation_mut observation (λ o, set_o_job (Some job_id) (set_o_status "incorporated" o));
        let^ closed := tasks_each (interrupt_task job_id revision cause) in
        let out := cancel_wake (j_wake j) cause
          ++ cancel_activities job_id revision j cause ++ closed in
        if cancelled then
          do^ on_tasks (map_retain (λ _ t, negb (String.eqb (t_root t) job_id)));
          let^ e := en_get in
          do^ on_queue (List.filter (λ id, has_key id (e_tasks e)));
          en_ret out
        else
          do^ on_tasks (map_retain (λ id t, negb (String.eqb (t_root t) job_id) || String.eqb id job_id));
          do^ context_set job_id "latestObservation" (o_value source);
          do^ context_set job_id "trigger"
                (object [("kind", Str "amendment"); ("eventId", Str observation); ("revision", num_u64 revision)]);
          do^ push_message job_id (text_message "user"
                ("Incorporated observation " +:+ observation +:+ ": " +:+ to_string (o_value source)));
          let^ e := en_get in
          if existsb (λ '(_, id), String.eqb id job_id) (e_calls e) then en_ret out
          else let^ more := request job_id cause in en_ret (out ++ more)
  | None =>
      do^ observation_mut observation (set_o_status "waiting-input");
      en_ret []
  end.

(** *** Corrections and compaction *)

Definition CONTROL_SCHEMA : Value := Str "pluribus.rlm-control/1".
Definition correct_control (session : string) (calls : list Value) (error cause : string) : Eng (list Draft) :=
  do^ task_mut session (λ t, set_t_control_errors (t_control_errors t + 1) t);
  let^ t := task_at session in
  do^ context_set session "trigger"
        (object [("kind", Str "correction"); ("eventId", Str cause);
                 ("attempt", num_u64 (t_control_errors t)); ("error", Str error)]);
  do^ task_mut session (λ t, set_t_messages (t_messages t ++
        match calls with
        | [] => [text_message "user" error]
        | _ => (λ call, tool_result call.["call_id"] CONTROL_SCHEMA (object [("error", Str error)]) (Str error))
                 <$> calls
        end) t);
  if (3 <=? t_control_errors t)%N then
    if opt_is_some (t_parent t) || opt_is_some (t_association t)
    then finish session (Err "invalid control output after three attempts") cause
    else stalled session "invalid control output after three attempts" cause
  else request session cause.

(** [take()] of the error, the validation of the call, or what is wrong with it. *)
Definition compacted (t : Task) (calls : list Value) : result WorkingSummary string :=
  match t_compaction_provenance_error t with
  | Some error => Err error
  | None =>
      match calls with
      | [call] => if is_str call.["name"] "compact" then summary_validate call.["arguments"]
                  else Err "compaction requires exactly one compact tool call"
      | _ => Err "compaction requires exactly one compact tool call"
      end
  end.

Definition complete_compaction (session : string) (message : Value) (cause : string) : Eng (list Draft) :=
  let^ t := task_at session in
  let outcome := compacted t (tool_calls message) in
  do^ task_mut session (set_t_compaction_provenance_error None);
  match outcome with
  | Ok summary =>
      do^ context_set session "workingSummary" (summary_to_value summary);
      do^ context_set session "workingSummaryProvenance" (object [("verified", Bool true)]);
      do^ context_remove session "compactionError";
      do^ task_mut session (λ t, set_t_messages
            [text_message "system" PROMPT; default (text_message "user" "Continue the task.") (t_messages t !! 1)]
            (set_t_compaction_errors 0 (set_t_compacting false t)));
      request session cause
  | Err error =>
      let retries := N.min (t_compaction_errors t + 1) 255 in
      if (3 <=? retries)%N then
        do^ task_mut session (set_t_compacting false);
        finish session (Err ("semantic compaction failed: " +:+ error)) cause
      else
        do^ task_mut session (λ t, set_t_compacting false (set_t_compaction_errors retries t));
        do^ context_set session "compactionError" (Str error);
        request session cause
  end.

(** *** Observations *)

(** The arm of [observation.received]. *)
Definition receive_observation (id : string) (value : Value) : Eng (list Draft) :=
  let value := bounded_observation id value in
  let^ e := en_get in
  if has_key id (e_inbox e) then en_ret []
  else
    do^ on_inbox (map_insert id (mkObservation None id (e_sequence e) value "pending" None));
    match as_str value.["jobId"] with
    | Some job => associate id job id
    | None =>
        let^ e := en_get in
        let context := routing_context e value in
        if bool_decide (routing_jobs e value = []) && bool_decide (routing_clarifications e value = [])
        then create_job id id
        else
          let session := "associate:" +:+ id in
          do^ on_budgets (map_insert session 0%N);
          do^ start session session id (object []) None 0;
          do^ task_mut session (λ t, set_t_messages
                [text_message "system" ASSOCIATION_PROMPT; text_message "user" (to_string context)]
                (set_t_association (Some id) t));
          request session id
    end.

(** *** Recovery of exhausted resources *)

Definition recovery_status (t : Task) (resource : Value) (input : string * Value) (effect : option Value) : Value :=
  object [("code", Str "resource-exhausted"); ("resource", resource); input;
          ("remainingAttempts", num_u64 (3 - t_resource_failures t));
          ("readLimit", num_u64 (if (t_resource_failures t =? 1)%N then 16 else 8));
          ("effectStatus", Str (default "outcome-unknown" (effect ≫= as_str)));
          ("checkpointStatus", Str (if is_null (t_context t).["checkpoint"] then "missing" else "committed"));
          ("sessionStatus", Str "lost")].

Definition DEFERRED : string := String.concat ""
  ["Processing was deferred after resource exhaustion. Inspect context.resourceRecovery and the ";
   "committed checkpoint. Use smaller reads and reconcile recorded effects before repeating actions."].

(** The session a report is about: the one it names, that of an observation
    that was never committed, or that of the model call. *)
Definition locate_recovery (value : Value) : Eng (option Value) :=
  if is_null value.["sessionId"] && is_null value.["jobId"] then
    let input := value.["input"] in
    if is_str input.["eventType"] "observation.received" then
      match as_str input.["eventId"] with
      | None => en_ret None
      | Some original =>
          let^ e := en_get in
          if has_key original (e_inbox e) then en_ret None
          else
            do^ receive_observation original input.["payload"];
            let^ e := en_get in
            let session := if has_key original (e_tasks e) then original else "associate:" +:+ original in
            let^ value := en_unwrap (index_set "sessionId" (Str session) value) in
            en_ret (Some value)
      end
    else
      let call := match as_str input.["payload"].["call_id"] with
                  | Some call => Some call
                  | None => as_str input.["payload"].["callId"]
                  end in
      let^ e := en_get in
      match call ≫= λ call, map_get call (e_calls e) with
      | Some session =>
          let^ value := en_unwrap (index_set "sessionId" (Str session) value) in
          en_ret (Some value)
      | None => en_ret (Some value)
      end
  else en_ret (Some value).

(** The recovery turn of a session. *)
Definition recover_session (session cause : string) (t : Task) (value : Value) : Eng (list Draft) :=
  let t := set_t_compacting false (set_t_pending None (set_t_cell_started false
             (set_t_resource_failures (N.min (t_resource_failures t + 1) 255) t))) in
  do^ on_tasks (map_insert session t);
  do^ context_set session "resourceRecovery"
        (recovery_status t value.["resource"] ("inputEventId", value.["inputEventId"])
           (value_get value "effectStatus"));
  do^ context_set session "trigger" (object [("kind", Str "resource-recovery"); ("eventId", Str cause)]);
  do^ task_mut session (set_t_messages [text_message "system" PROMPT; text_message "user" DEFERRED]);
  let^ e := en_get in
  let cancelled := omap (λ '(call, id), if String.eqb id session then Some call else None) (e_calls e) in
  do^ on_calls (map_retain (λ _ id, negb (String.eqb id session)));
  if (2 <? t_resource_failures t)%N then resource_budget_exhausted session cause
  else
    do^ job_if (t_root t) (λ j, set_j_blockers (object [("resourceRecovery", value)])
          (set_j_wait_reason None (set_j_status "runnable" j)));
    let^ e := en_get in
    let activities := match map_get (t_root t) (e_jobs e) with Some j => j_activities j | None => [] end in
    let cancels := omap (λ '(request, activity),
        if is_some_and (as_str activity.["callId"]) (λ id, str_mem id cancelled)
        then Some (draft "cognition.cancel-requested" (object [("requestEventId", Str request)]) cause)
        else None) activities in
    let^ more := request session cause in
    en_ret (cancels ++ [close_requested session cause] ++ more).

Definition recover_resource_job (cause : string) (value : Value) : Eng (list Draft) :=
  let^ located := locate_recovery value in
  match located with
  | None => en_ret []
  | Some value =>
      match (match as_str value.["sessionId"] with Some s => Some s | None => as_str value.["jobId"] end) with
      | None => en_ret []
      | Some session =>
          let^ e := en_get in
          match map_get session (e_tasks e) with
          | None => en_ret []
          | Some t =>
              if is_some_and (as_u64 value.["revision"]) (λ revision, negb (revision =? t_revision t)%N)
              then en_ret []
              else recover_session session cause t value
          end
      end
  end.

(** *** Timers *)

Definition timer_set (id : string) (value : Value) : Eng (list Draft) :=
  do^ (match as_str value.["jobId"] with
       | Some job => job_if job (λ j,
           match j_wake j with
           | Some w => if is_str value.["wakeToken"] (w_token w)
                       then set_j_wake (Some (set_w_request (Some id) w)) j else j
           | None => j
           end)
       | None => en_ret tt
       end);
  en_ret [].

Definition wakes (now_ms : Z) (request : string) (j : Job) : bool :=
  is_some_and (j_wake j) (λ w, bool_decide (w_request w = Some request)
    && (w_revision w =? j_revision j)%N && (w_due_at_ms w <=? now_ms)%Z).

Definition timer_fired (id : string) (value : Value) : Eng (list Draft) :=
  let request_id := str_or_empty value.["requestEventId"] in
  let^ e := en_get in
  match List.find (λ '(_, j), wakes (e_now_ms e) request_id j) (e_jobs e) with
  | None => en_ret []
  | Some (job_id, j) =>
      do^ context_set job_id "trigger"
        (object [("kind", Str (if bool_decide (j_wait_reason j = Some "provider-error") then "retry"
                               else "scheduled-wake"));
                 ("eventId", Str id); ("scheduled", opt_wake (j_wake j));
                 ("reason", opt_str (j_wait_reason j)); ("attempt", num_u64 (j_retry_count j));
                 ("nextStep", j_next_step j)]);
      if negb (str_mem (j_status j) ["waiting-time"; "paused-budget"]) then
        do^ on_jobs (map_insert job_id (set_j_wake None j));
        en_ret []
      else
        let j := set_j_wait_reason None (set_j_status "runnable" (set_j_wake None j)) in
        do^ (if (30 * 60 * 1000 <=? saturating_sub_i64 (e_now_ms e) (j_cycle_started_ms j))%Z
                || (MODEL_BUDGET <=? default 0 (map_get job_id (e_budgets e)))%N
             then
               do^ on_jobs (map_insert job_id (set_j_cycle_started_ms (e_now_ms e) j));
               on_budgets (map_insert job_id 0%N)
             else on_jobs (map_insert job_id j));
        request job_id id
  end.

(** *** Model results *)

(** Whether a routing decision is valid; [None] when the observation is gone. *)
Definition association_valid (e : Engine) (observation : string) (calls : list Value) (decision : Value)
    : option bool :=
  if negb ((length calls =? 1)%nat && is_str (default Null (head calls)).["name"] "associate"
           && validate_association decision) then Some false
  else
    resolves ← (match value_get decision "resolvesObservationId" with
                | None => Some true
                | Some reference =>
                    match as_str reference ≫= λ r, map_get r (e_inbox e) with
                    | Some prior =>
                        if awaits_clarification prior then
                          o ← map_get observation (e_inbox e);
                          Some (same_conversation (o_value prior) (o_value o))
                        else Some false
                    | None => Some false
                    end
                end);
    if negb resolves then Some false
    else if is_some_and (as_str decision.["action"]) (λ a, str_mem a ["amend"; "cancel"]) then
      match as_str decision.["jobId"] with
      | Some job =>
          if is_some_and (map_get job (e_jobs e)) automatically_routable then
            o ← map_get observation (e_inbox e);
            Some (same_origin e job (o_value o))
          else Some false
      | None => Some false
      end
    else Some true.

Definition ASSOCIATE_ERROR : string := String.concat ""
  ["Call associate with action and jobId: amend/cancel require an active same-origin job ID; ";
   "new/clarify require null; clarify also requires a specific question"].

(** [inbox.get_mut(id).unwrap().value[key] = x]. *)
Definition observation_set (id key : string) (x : Value) : Eng unit :=
  let^ o := observation_at id in
  let^ v := en_unwrap (index_set key x (o_value o)) in
  on_inbox (map_insert id (set_o_value v o)).

(** The clarification an observation answers. *)
Definition resolve_clarification (observation reference : string) (decision : Value) : Eng unit :=
  let^ prior := observation_at reference in
  let job_id := default observation (as_str decision.["jobId"]) in
  do^ observation_set observation "resolvedClarification"
        (object [("observationId", Str reference); ("message", (o_value prior).["message"]);
                 ("question", opt_str (o_outstanding_question prior))]);
  do^ observation_mut reference (λ o, set_o_outstanding_question None
        (set_o_job (Some job_id) (set_o_status "incorporated" o)));
  let^ e := en_get in
  match map_get job_id (e_jobs e) with
  | Some j =>
      do^ on_jobs (map_insert job_id (set_j_sources (j_sources j ++ [reference]) j));
      push_message job_id (text_message "user"
        ("Resolved earlier request: " +:+ to_string (o_value prior).["message"]))
  | None => en_ret tt
  end.

(** The model's answer to a routing session. *)
Definition route_decision (task_id observation : string) (message : Value) (id : string)
    : Eng (list Draft) :=
  do^ push_message task_id message;
  let calls := tool_calls message in
  let decision := (default Null (head calls)).["arguments"] in
  let^ e := en_get in
  let^ valid := en_unwrap (association_valid e observation calls decision) in
  if negb valid then correct_control task_id calls ASSOCIATE_ERROR id
  else
    do^ on_tasks (map_remove task_id);
    do^ on_budgets (map_remove task_id);
    do^ (match as_str decision.["resolvesObservationId"] with
         | Some reference => resolve_clarification observation reference decision
         | None => en_ret tt
         end);
    let action := default "clarify" (as_str decision.["action"]) in
    if String.eqb action "new" then create_job observation id
    else if str_mem action ["amend"; "cancel"] then
      do^ (if String.eqb action "cancel" then observation_set observation "intent" (Str "cancel")
           else en_ret tt);
      associate observation (str_or_empty decision.["jobId"]) id
    else
      do^ observation_mut observation (λ o, set_o_outstanding_question (as_str decision.["question"])
            (set_o_status "waiting-input" o));
      let^ o := observation_at observation in
      en_ret (match reply_request (o_value o) decision.["question"] with
              | Some request => [draft "capability.requested" request observation]
              | None => []
              end).

(** A failed model call of a session that is not stale. *)
Definition model_failed (task_id : string) (value : Value) (id : string) : Eng (list Draft) :=
  let^ e := en_get in
  let failed := finish task_id (Err "model failed") id in
  match map_get task_id (e_tasks e) with
  | None => failed
  | Some t =>
      match map_get (t_root t) (e_jobs e) with
      | None => failed
      | Some j =>
          if is_str value.["code"] "outcome-unknown" then
            do^ on_jobs (map_insert (t_root t) (set_j_blockers value (set_j_outstanding_question None
                  (set_j_wait_reason (Some "provider-error") (set_j_status "waiting-input" j)))));
            en_ret []
          else if (j_retry_count j <? 5)%N && negb (opt_is_some (t_parent t)) then
            let delay := (60000 * 2 ^ Z.of_N (j_retry_count j))%Z in
            do^ on_jobs (map_insert (t_root t) (set_j_retry_count (j_retry_count j + 1) j));
            let^ out := sleep task_id "waiting-time" (saturating_add_i64 (e_now_ms e) delay) id in
            do^ job_mut (t_root t) (set_j_wait_reason (Some "provider-error"));
            en_ret out
          else failed
      end
  end.

(** A root's or a child's decision to yield. *)
Definition yield_decision (task_id : string) (calls : list Value) (call : Value) (id : string)
    : Eng (list Draft) :=
  let^ t := task_at task_id in
  let child := opt_is_some (t_parent t) in
  let arguments := call.["arguments"] in
  let^ e := en_get in
  match validate_control arguments child with
  | Err error => correct_control task_id calls error id
  | Ok _ =>
      if negb child && is_some_and (as_i64 arguments.["dueAtMs"]) (λ due, due <=? e_now_ms e)%Z
      then correct_control task_id calls
        "Wait requires a future external deadline; use executable JS for available work" id
      else
        do^ task_mut task_id (set_t_control_errors 0);
        if child then
          let^ r := en_unwrap (as_str arguments.["result"]) in
          finish task_id (Ok r) id
        else
          do^ push_message task_id (tool_result call.["call_id"] CONTROL_SCHEMA
                (object [("accepted", Bool true)]) Null);
          finish_root task_id (Ok arguments) id
  end.

Definition UNCHANGED_CELL : string := String.concat ""
  ["The failed cell cannot be retried unchanged. Reduce its working set, use smaller pages, or ";
   "finish with an explanation."].

(** A cell of code to run. *)
Definition run_cell (task_id : string) (calls : list Value) (call : Value) (id : string)
    : Eng (list Draft) :=
  let^ t := task_at task_id in
  match as_str call.["arguments"].["code"] with
  | None => correct_control task_id calls "Use js with code or yield with the declared decision schema" id
  | Some code =>
      if (0 <? t_resource_failures t)%N && negb (t_cell_started t) && String.eqb code (t_cell_source t)
      then correct_control task_id calls UNCHANGED_CELL id
      else
        let t' := set_t_yields 0 (set_t_tool_id (str_or_empty call.["call_id"])
          (set_t_cell_revision (t_revision t) (set_t_cell_started true (set_t_cell_source code
             (set_t_code_event_id None (set_t_code_request_id None (set_t_control_errors 0 t))))))) in
        do^ on_tasks (map_insert task_id t');
        en_ret [draft "code.evaluate-requested"
          (object [("sessionId", Str task_id); ("requiresSession", Bool (t_cell_started t));
                   ("context", t_context t'); ("checkpoint", (t_context t').["checkpoint"]);
                   ("source", call.["arguments"].["code"]); ("jobId", Str (t_root t'));
                   ("revision", num_u64 (t_revision t'))]) id]
  end.

Definition NO_PROGRESS : string := String.concat ""
  ["Return executable JS that advances the task, or call yield with a completed answer, failure, or ";
   "explicit external wait. Empty output and prose plans do not advance work"].

(** The model's answer to a root or a child. *)
Definition model_turn (task_id : string) (message : Value) (id : string) : Eng (list Draft) :=
  do^ push_message task_id message;
  let calls := tool_calls message in
  match calls with
  | [] => correct_control task_id [] NO_PROGRESS id
  | [call] =>
      if is_str call.["name"] "yield" then yield_decision task_id calls call id
      else if is_str call.["name"] "js" then run_cell task_id calls call id
      else correct_control task_id calls "Use js with code or yield with the declared decision schema" id
  | _ => correct_control task_id calls "Call exactly one tool per turn" id
  end.

Definition model_result (kind : string) (value : Value) (id : string) : Eng (list Draft) :=
  let call := match as_str value.["call_id"] with
              | Some call => call
              | None => str_or_empty value.["callId"]
              end in
  let^ e := en_get in
  match map_get call (e_calls e) with
  | None => en_ret []
  | Some task_id =>
      do^ on_calls (map_remove call);
      match map_get task_id (e_tasks e) ≫= t_association with
      | Some observation =>
          if String.eqb kind "model.failed" then finish task_id (Err "association model failed") id
          else route_decision task_id observation value.["message"] id
      | None =>
          let task := map_get task_id (e_tasks e) in
          if is_some_and task (λ t, negb (t_revision t =? t_decision_revision t)%N
               || existsb (λ '(_, o), String.eqb (o_status o) "pending") (e_inbox e))
          then
            do^ push_message task_id (text_message "user" ("Discarded stale proposal: " +:+ to_string value));
            do^ on_queue (λ q, if str_mem task_id q then q else q ++ [task_id]);
            en_ret []
          else if String.eqb kind "model.failed" then model_failed task_id value id
          else if is_some_and task t_compacting then complete_compaction task_id value.["message"] id
          else
            match task with
            | None => en_ret []
            | Some _ => model_turn task_id value.["message"] id
            end
      end
  end.

(** *** Code results *)

(** A cell that exhausted its resources, in the state after it is counted. *)
Definition note_resource_failure (session : string) (value : Value) : Eng Task :=
  do^ task_mut session (λ t, set_t_pending None (set_t_cell_started false
        (set_t_resource_failures (N.min (t_resource_failures t + 1) 255) t)));
  let^ t := task_at session in
  do^ context_set session "resourceRecovery"
        (recovery_status t (default Null (value_get value "resourceError"))
           ("requestEventId", value.["requestEventId"]) (value_get value "effectStatus"));
  task_at session.

(** The checkpoint a cell returned. *)
Definition set_checkpoint (session : string) (checkpoint : Value) : Eng unit :=
  do^ context_set session "checkpoint" checkpoint;
  let^ t := task_at session in
  job_if (t_root t) (set_j_checkpoint checkpoint).

Definition opt_value_eqb (a b : option Value) : bool :=
  match a, b with
  | Some a, Some b => value_eqb a b
  | None, None => true
  | _, _ => false
  end.

(** A changed working summary is accepted only with verified provenance. *)
Definition note_summary (session : string) (verified : bool) (summary : Value) : Eng unit :=
  let^ t := task_at session in
  do^ task_mut session (set_t_checkpoint_provenance_error None);
  match t_checkpoint_provenance_error t, verified, summary_validate summary with
  | Some error, _, _ => context_set session "workingSummaryError" (Str error)
  | None, false, _ =>
      context_set session "workingSummaryError" (Str "working summary provenance was not verified")
  | None, true, Ok summary =>
      do^ context_set session "workingSummary" (summary_to_value summary);
      do^ context_set session "workingSummaryProvenance" (object [("verified", Bool true)]);
      context_remove session "workingSummaryError"
  | None, true, Err error => context_set session "workingSummaryError" (Str error)
  end.

Definition note_checkpoint (session : string) (checkpoint : Value) : Eng unit :=
  let^ t := task_at session in
  let previous := (t_context t).["checkpoint"] in
  do^ context_set session "checkpoint" checkpoint;
  do^ task_mut session (set_t_checkpoint_provenance_verified false);
  let summary := pointer checkpoint "/state/workingSummary" in
  do^ (match summary with
       | Some new =>
           if opt_value_eqb summary (pointer previous "/state/workingSummary") then en_ret tt
           else note_summary session (t_checkpoint_provenance_verified t) new
       | None => en_ret tt
       end);
  job_if (t_root t) (set_j_checkpoint checkpoint).

Definition CELL_FIELDS : list string := ["value"; "error"; "reason"; "log"; "warnings"; "checkpoint"].

(** The result of a cell that is not stale: progress, or a third repetition. *)
Definition cell_finished (session kind : string) (value : Value) (id : string) : Eng (list Draft) :=
  let^ t := task_at session in
  let fingerprint := cell_hash (t_cell_source t) (t_revision t) kind
                       ((λ field, to_string value.[field]) <$> CELL_FIELDS) in
  let repeated := if (t_yields t =? 0)%N && bool_decide (t_last_cell t = Some fingerprint)
                  then (t_repeated_cells t + 1)%N else 1%N in
  do^ task_mut session (λ t, set_t_last_cell (Some fingerprint) (set_t_repeated_cells repeated t));
  if (3 <=? repeated)%N then stalled session "three identical cells without host activity" id
  else
    do^ context_set session "trigger"
          (object [("kind", Str "tool-result"); ("eventId", Str id); ("resultType", Str kind);
                   ("callId", Str (t_tool_id t)); ("resultLocation", Str "latest tool message")]);
    do^ push_message session (tool_result (Str (t_tool_id t)) (Str "pluribus.code-result/1") value Null);
    request session id.

Definition is_resource_failure (kind : string) (value : Value) : bool :=
  String.eqb kind "code.failed"
  && (is_str value.["code"] "resource-exhausted"
      || is_some_and (value_get value "resourceError") is_object).

(** The result of another revision of the job, or of another cell. *)
Definition stale_cell (e : Engine) (t : Task) (value : Value) : bool :=
  is_some_and (request ← as_str value.["requestEventId"];
               j ← map_get (t_root t) (e_jobs e);
               a ← map_get request (j_activities j);
               as_u64 a.["revision"])
    (λ revision, negb (revision =? t_revision t)%N)
  || negb (t_cell_revision t =? t_revision t)%N.
Definition foreign_cell (t : Task) (value : Value) : bool :=
  negb (is_some_and (as_str value.["requestEventId"]) (λ request,
    bool_decide (t_code_request_id t = Some request) || bool_decide (t_code_event_id t = Some request))).

Definition session_lost (value : Value) : bool :=
  is_some_and (as_str value.["reason"]) (contains_str "session was lost")
  || is_str value.["code"] "outcome-unknown".
Definition unsaved_success (kind : string) (value : Value) : bool :=
  String.eqb kind "code.completed" && is_null value.["checkpoint"]
  && is_some_and (as_array value.["warnings"]) (λ warnings, negb (bool_decide (warnings = []))).

Definition code_result (kind : string) (value : Value) (id : string) : Eng (list Draft) :=
  let session := str_or_empty value.["sessionId"] in
  let^ e := en_get in
  match map_get session (e_tasks e) with
  | None => en_ret []
  | Some t =>
      let resource_failure := is_resource_failure kind value in
      if stale_cell e t value || (resource_failure && foreign_cell t value) then en_ret []
      else
        do^ task_mut session (λ t, set_t_code_event_id None (set_t_code_request_id None t));
        let^ exhausted := (if resource_failure then
                             let^ t := note_resource_failure session value in
                             en_ret (2 <? t_resource_failures t)%N
                           else en_ret false) in
        if exhausted then resource_budget_exhausted session id
        else
          do^ (if session_lost value
               then task_mut session (λ t, set_t_pending None (set_t_cell_started false t))
               else en_ret tt);
          let^ t := task_at session in
          do^ (if unsaved_success kind value && is_str (t_context t).["checkpoint"].["mode"] "automatic"
               then set_checkpoint session Null else en_ret tt);
          do^ (match value_get value "checkpoint" with
               | Some checkpoint => if is_null checkpoint then en_ret tt else note_checkpoint session checkpoint
               | None => en_ret tt
               end);
          cell_finished session kind value id
  end.

(** *** Requests of a cell *)

Definition refuse_yield (session : string) (value : Value) (error id : string) : Eng (list Draft) :=
  en_ret [resume session value.["id"] (Err error) id].

(** A child query. *)
Definition query_child (session : string) (t : Task) (value : Value) (id : string) : Eng (list Draft) :=
  let args := value.["args"] in
  let^ e := en_get in
  let size := str_len (to_string args) in
  if negb (nonblank args.["question"])
  then refuse_yield session value "rlm.query requires a focused, nonempty question" id
  else if (4 <=? length (List.filter (λ '(_, t), opt_is_some (t_parent t)) (e_tasks e)))%nat
  then refuse_yield session value "child concurrency limit 4 reached" id
  else if (MAX_DEPTH <=? t_depth t)%N
  then refuse_yield session value ("child depth limit " +:+ u64_to_string MAX_DEPTH
         +:+ " reached; answer without recursing") id
  else if (MAX_CHILD_CONTEXT <? size)%N
  then refuse_yield session value ("child context is " +:+ u64_to_string size +:+ " bytes, over the "
         +:+ u64_to_string MAX_CHILD_CONTEXT +:+ " byte limit; select fewer records") id
  else
    let child := session +:+ ":" +:+ to_string value.["id"] in
    do^ start child (t_root t) (t_origin t) args (Some (session, value.["id"])) (t_depth t + 1);
    request child id.

(** A capability request of a root. *)
Definition invoke_capability (session : string) (t : Task) (value : Value) (id : string)
    : Eng (list Draft) :=
  let args := value.["args"] in
  do^ task_mut session (set_t_pending (Some
        (object [("yield", value.["id"]); ("cause", Str id); ("revision", num_u64 (t_revision t))])));
  en_ret [draft "capability.requested"
    (object [("capability", args.["name"]); ("arguments", args.["arguments"]);
             ("attachments", Array (attachment_refs (t_context t).[trigger_input t]));
             ("rlmSession", Str session); ("rlmYield", value.["id"]); ("jobId", Str (t_root t));
             ("revision", num_u64 (t_revision t))]) (t_origin t)].

Definition code_yielded (value : Value) (id : string) : Eng (list Draft) :=
  let session := str_or_empty value.["sessionId"] in
  let^ e := en_get in
  match map_get session (e_tasks e) with
  | None => en_ret []
  | Some t =>
      if negb (t_cell_revision t =? t_revision t)%N then en_ret []
      else
        let t := set_t_yields (succ_u32 (t_yields t)) t in
        do^ on_tasks (map_insert session t);
        let method := str_or_empty value.["method"] in
        if (MAX_CELL_YIELDS <? t_yields t)%N
        then refuse_yield session value ("cell exceeded " +:+ u64_to_string MAX_CELL_YIELDS
               +:+ " host requests") id
        else if String.eqb method "rlm.query" then query_child session t value id
        else if String.eqb method "capability.invoke" && (t_depth t =? 0)%N
        then invoke_capability session t value id
        else if str_mem method ["history.read"; "history.search"] then en_ret []
        else refuse_yield session value "operation unavailable to this query" id
  end.

(** *** Capability results *)

Definition answers (request : string) (t : Task) : option Value :=
  p ← t_pending t;
  if is_str p.["request"] request then Some p.["yield"] else None.
Definition pending_answer (e : Engine) (request : string) : option (string * Value) :=
  head (omap (λ '(key, t), (λ yielded, (key, yielded)) <$> answers request t) (e_tasks e)).

Definition capability_result (kind : string) (value : Value) (id : string) (cause : option string)
    : Eng (list Draft) :=
  let request := match as_str value.["requestEventId"] with Some r => r | None => default "" cause end in
  let^ e := en_get in
  match pending_answer e request with
  | None => en_ret []
  | Some (session, yielded) =>
      do^ task_mut session (set_t_pending None);
      let^ t := task_at session in
      do^ job_if (t_root t) (λ j, set_j_wait_reason None (set_j_status "runnable" j));
      if is_str value.["code"] "outcome-unknown" then
        do^ job_if (t_root t) (λ j, set_j_blockers (object [("reconciliation", value)])
              (set_j_outstanding_question None (set_j_wait_reason (Some "provider-error")
                 (set_j_status "waiting-input" j))));
        en_ret [close_requested session id]
      else
        en_ret [resume session yielded (if String.eqb kind "capability.completed" then Ok value
                                        else Err (to_string value)) id]
  end.

Definition capability_requested (value : Value) (id : string) : Eng (list Draft) :=
  let^ e := en_get in
  match (session ← as_str value.["rlmSession"]; t ← map_get session (e_tasks e);
         p ← t_pending t; Some (session, t, p)) with
  | Some (session, t, p) =>
      let^ p := en_unwrap (index_set "request" (Str id) p) in
      do^ on_tasks (map_insert session (set_t_pending (Some p) t));
      do^ job_if (t_root t) (set_j_status "waiting-activity");
      en_ret []
  | None => en_ret []
  end.

(** *** Events *)

Definition handle_event (id kind : string) (value : Value) (cause : option string) : Eng (list Draft) :=
  if String.eqb kind "cognition.resource-exhausted" then recover_resource_job id value
  else if String.eqb kind "timer.set" then timer_set id value
  else if String.eqb kind "timer.fired" then timer_fired id value
  else if String.eqb kind "observation.received" then receive_observation id value
  else if str_mem kind ["model.completed"; "model.failed"] then model_result kind value id
  else if str_mem kind ["code.completed"; "code.failed"] then code_result kind value id
  else if String.eqb kind "code.yielded" then code_yielded value id
  else if str_mem kind ["capability.completed"; "capability.failed"; "capability.denied";
                        "capability.timed-out"; "capability.cancelled"]
  then capability_result kind value id cause
  else if String.eqb kind "capability.requested" then capability_requested value id
  else en_ret [].

(** [self.scheduling = true; ..; self.scheduling = false]. *)
Definition scheduled {A} (m : Eng A) : Eng A :=
  do^ en_update (set_e_scheduling true);
  let^ a := m in
  do^ en_update (set_e_scheduling false);
  en_ret a.

(** An operator's decision on a job. *)
Definition control_allowed (e : Engine) (id : string) (j : Job) (value : Value) : bool :=
  let cancel := is_str value.["action"] "cancel" in
  is_int value.["version"] 1 && bool_decide (as_u64 value.["revision"] = Some (j_revision j))
  && (cancel || is_str value.["action"] "resume") && negb (is_terminal (j_status j))
  && (cancel
      || (has_key id (e_tasks e) && negb (existsb (λ '(_, a), unresolved a) (j_activities j))
          && str_mem (j_status j)
               ["waiting-input"; "waiting-time"; "paused-budget"; "waiting-activity"])).

Definition control_task (id : string) (revision : N) (cause : string) (reason : Value) (session : string)
    (t : Task) : option (Task * list Draft) :=
  if String.eqb (t_root t) id then
    c ← index_set "trigger" (object [("kind", Str "operator-resume"); ("eventId", Str cause);
                                     ("reason", reason)]) (t_context t);
    Some (set_t_context c (set_t_control_errors 0 (set_t_cell_started false (set_t_pending None
            (set_t_revision revision t)))), [close_requested session cause])
  else Some (t, []).

Definition operator_control (cause : string) (value : Value) : Eng (list Draft) :=
  let id := str_or_empty value.["jobId"] in
  let^ e := en_get in
  match map_get id (e_jobs e) with
  | None => en_ret []
  | Some j =>
      if negb (control_allowed e id j value) then en_ret []
      else
        let cancel := is_str value.["action"] "cancel" in
        let revision := succ_u64 (j_revision j) in
        do^ on_jobs (map_insert id (set_j_wake None (set_j_outstanding_question None
              (set_j_wait_reason None (set_j_status (if cancel then "cancelled" else "runnable")
                 (set_j_revision revision j))))));
        let^ closed := tasks_each (control_task id revision cause value.["reason"]) in
        let out := cancel_wake (j_wake j) cause ++ cancel_activities id revision j cause ++ closed in
        let^ e := en_get in
        do^ on_calls (map_retain (λ _ session,
              is_none_or (map_get session (e_tasks e)) (λ t, negb (String.eqb (t_root t) id))));
        do^ on_tasks (map_retain (λ session t,
              negb (String.eqb (t_root t) id) || (negb cancel && String.eqb session id)));
        let^ e := en_get in
        do^ on_queue (List.filter (λ session, has_key session (e_tasks e)));
        if cancel then en_ret out
        else let^ more := scheduled (request id cause) in en_ret (out ++ more)
  end.

(** The result of an attempt whose outcome was unknown. *)
Definition reconcile_job (request id : string) (value : Value) (outcome : string) (j : Job) : option (Job * bool) :=
  match map_get request (j_activities j) with
  | Some activity =>
      if unresolved activity then
        a ← index_set "status" (Str ("reconciled." +:+ outcome)) activity;
        a ← index_set "result" (activity_result id value) a;
        a ← index_set "resultId" (Str id) a;
        Some (set_j_blockers Null (set_j_activities (map_insert request a (j_activities j)) j), true)
      else Some (j, false)
  | None => Some (j, false)
  end.
Fixpoint reconcile_jobs (request id : string) (value : Value) (outcome : string) (jobs : list (string * Job))
    : Eng unit :=
  match jobs with
  | [] => en_ret tt
  | (key, j) :: jobs =>
      let^ (j', changed) := en_unwrap (reconcile_job request id value outcome j) in
      do^ (if (changed : bool) then
             do^ on_jobs (map_insert key j');
             let^ e := en_get in
             if has_key (j_id j) (e_tasks e) then context_set (j_id j) "reconciliation" value else en_ret tt
           else en_ret tt);
      reconcile_jobs request id value outcome jobs
  end.
Definition attempt_reconciled (id : string) (value : Value) : Eng (list Draft) :=
  match as_str value.["outcome"] with
  | Some outcome =>
      if is_int value.["version"] 1 && str_mem outcome ["completed"; "failed"] then
        let^ e := en_get in
        do^ reconcile_jobs (str_or_empty value.["requestEventId"]) id value outcome (e_jobs e);
        en_ret []
      else en_ret []
  | None => en_ret []
  end.

(** The wait reason of jobs that were stored without one. *)
Definition default_wait_reason (j : Job) : Job :=
  match j_wait_reason j with
  | Some _ => j
  | None =>
      if String.eqb (j_status j) "waiting-input" then
        set_j_wait_reason (Some (if opt_is_some (j_outstanding_question j) then "awaiting-user"
                                 else "provider-error")) j
      else if str_mem (j_status j) ["waiting-time"; "paused-budget"] then set_j_wait_reason (Some "scheduled") j
      else j
  end.

(** The events of the cell a session is waiting for. *)
Definition note_code_event (id kind : string) (value : Value) : Eng unit :=
  if str_mem kind ["code.evaluate-requested"; "code.yielded"; "code.resumed"] then
    match as_str value.["sessionId"] with
    | Some session => on_tasks (map_update session (λ t,
        if (t_cell_revision t =? t_revision t)%N then
          let t := set_t_code_event_id (Some id) t in
          if String.eqb kind "code.evaluate-requested" then set_t_code_request_id (Some id) t else t
        else t))
    | None => en_ret tt
    end
  else en_ret tt.

Definition new_activity (kind : string) (value : Value) : Value :=
  object [("kind", Str kind); ("revision", value.["revision"]); ("capability", value.["capability"]);
          ("callId", value.["call_id"]); ("sessionId", value.["sessionId"]); ("status", Str "queued")].
Definition settle_activity (request id kind : string) (value : Value) (j : Job) : option (Job * list Draft) :=
  match map_get request (j_activities j) with
  | Some activity =>
      a ← index_set "status" (Str (if String.eqb kind "activity.attempted" then "running" else kind)) activity;
      a ← index_set "result" (activity_result id value) a;
      a ← index_set "resultId" (Str id) a;
      Some (set_j_activities (map_insert request a (j_activities j)) j, [])
  | None => Some (j, [])
  end.
(** The activities of jobs. *)
Definition note_activity (id kind : string) (value : Value) (cause : option string) : Eng unit :=
  if str_mem kind ["model.requested"; "capability.requested"; "code.evaluate-requested"] then
    match as_str value.["jobId"] with
    | Some job => job_if job (λ j, set_j_activities (map_insert id (new_activity kind value) (j_activities j)) j)
    | None => en_ret tt
    end
  else if ends_with ".completed" kind || ends_with ".failed" kind || ends_with ".cancelled" kind
          || ends_with ".denied" kind || str_mem kind ["activity.unknown"; "activity.attempted"] then
    let request := match as_str value.["requestEventId"] with Some r => r | None => default "" cause end in
    let^ e := en_get in
    let^ (jobs, _) := en_unwrap (map_each (λ _, settle_activity request id kind value) (e_jobs e)) in
    on_jobs (λ _, jobs)
  else en_ret tt.

Fixpoint recover_each (id : string) (errors : list (string * Value)) : Eng (list Draft) :=
  match errors with
  | [] => en_ret []
  | (session, resource) :: errors =>
      let^ out := recover_resource_job id
        (object [("sessionId", Str session); ("resource", resource); ("inputEventId", Str id);
                 ("effectStatus", Str "outcome-unknown")]) in
      let^ rest := recover_each id errors in
      en_ret (out ++ rest)
  end.

(** The scheduler: the next session of the queue that can send its request.
    A pass takes a session off the queue, so the length of the queue bounds
    their number. *)
Fixpoint run_queue (fuel : nat) (id : string) : Eng (list Draft) :=
  let^ e := en_get in
  match e_queue e with
  | [] => en_ret []
  | session :: queue =>
      if has_key session (e_tasks e) then
        match fuel with
        | O => en_panic
        | S fuel =>
            do^ on_queue (λ _, queue);
            let^ out := scheduled (request session id) in
            let^ e := en_get in
            if bool_decide (e_calls e = []) then
              let^ rest := run_queue fuel id in en_ret (out ++ rest)
            else en_ret out
        end
      else en_ret []
  end.

Definition with_deadline (now_ms : Z) (d : Draft) : Draft :=
  if str_mem (d_kind d) ["model.requested"; "code.evaluate-requested"; "capability.requested"]
  then mkDraft (d_kind d)
         (value_set (d_payload d) "deadlineAtMs" (num_i64 (saturating_add_i64 now_ms 180000))) (d_cause d)
  else d.

(** [Engine::event]. *)
Definition event (id kind : string) (value : Value) (cause : option string) : Eng (list Draft) :=
  if String.eqb kind "operator.job-control" then operator_control id value
  else if String.eqb kind "operator.attempt-reconciled" then attempt_reconciled id value
  else
    do^ on_jobs (map_values default_wait_reason);
    let^ e := en_get in
    if result_seen e kind id value then en_ret []
    else
      do^ (match result_key kind id value with
           | Some key => en_update (λ e, set_e_seen_results (map_insert key tt (e_seen_results e)) e)
           | None => en_ret tt
           end);
      do^ note_code_event id kind value;
      do^ note_activity id kind value cause;
      let^ e := en_get in
      do^ en_update (set_e_resource_errors []);
      let^ recovered := recover_each id (e_resource_errors e) in
      let^ handled := handle_event id kind value cause in
      let^ e := en_get in
      let^ sent := (if bool_decide (e_calls e = []) then run_queue (length (e_queue e)) id else en_ret []) in
      let^ e := en_get in
      en_ret (with_deadline (e_now_ms e) <$> (recovered ++ handled ++ sent)).

(** *** Loading and retiring *)

Definition queue_resource_error (session : string) (resource : Value) (e : Engine) : Engine :=
  set_e_resource_errors (map_insert session resource (e_resource_errors e)) e.
Definition add_routing_observation (o : Observation) (e : Engine) : Engine :=
  set_e_routing_observations (map_insert (o_id o) o (e_routing_observations e)) e.
Definition add_routing_job (j : Job) (origin : Value) (e : Engine) : Engine :=
  set_e_partial true (set_e_routing_jobs (map_insert (j_id j) (j, origin) (e_routing_jobs e)) e).
Definition set_partial (e : Engine) : Engine := set_e_partial true e.
Definition set_unloaded_observations (counts : list (string * N)) (e : Engine) : Engine :=
  set_e_unloaded_observations counts e.

Definition restore_resource_task (id : string) (summary : Value) : Eng unit :=
  let root := default id (as_str summary.["root"]) in
  let origin := default root (as_str summary.["origin"]) in
  let parent := default None (parent_from_value summary.["parent"]) in
  do^ start id root origin
        (if opt_is_some parent then summary.["context"] else summary.["context"].["observation"]) parent
        (default 0%N (as_u64 summary.["depth"]) mod (u32_max + 1))%N;
  do^ task_mut id (set_t_resource_failures (N.min (default 0%N (as_u64 summary.["resource_failures"])) 255));
  do^ context_set id "checkpoint" summary.["context"].["checkpoint"];
  do^ task_mut id (λ t, set_t_window (default None (window_from_value summary.["window"]))
        (set_t_association (as_str summary.["association"])
           (set_t_cell_revision (default 0%N (as_u64 summary.["cell_revision"]))
              (set_t_revision (default 0%N (as_u64 summary.["revision"])) t))));
  context_set id "range" summary.["window"].

(** The activities and sources a job no longer keeps. *)
Definition KEPT : nat := 64.
Definition trim_activities (j : Job) : Job :=
  let settled := omap (λ '(id, a), if negb (unresolved a) && negb (in_progress a) then Some id else None)
                   (j_activities j) in
  set_j_activities (map_retain (λ id _, negb (str_mem id (take (length settled - KEPT) settled)))
                      (j_activities j)) j.
Definition settled_count (j : Job) : nat :=
  length (List.filter (λ '(_, a), negb (unresolved a) && negb (in_progress a)) (j_activities j)).
Definition forget_observation (source : string) (e : Engine) : Engine :=
  set_e_inbox (map_update source (set_o_value Null) (e_inbox e)) e.

Fixpoint trim_jobs (jobs : list (string * Job)) (trimmed budget : nat) (e : Engine) : Engine :=
  match jobs with
  | [] => e
  | (key, j) :: jobs =>
      let trims := (KEPT <? settled_count j)%nat && (trimmed <? 8)%nat in
      let j := if trims then trim_activities j else j in
      let trimmed := if trims then S trimmed else trimmed in
      let excess := Nat.min (length (j_sources j) - KEPT) budget in
      let dropped := take excess (drop 1 (j_sources j)) in
      let j := set_j_sources (take 1 (j_sources j) ++ drop (S excess) (j_sources j)) j in
      let e := set_e_jobs (map_insert key j (e_jobs e)) e in
      trim_jobs jobs trimmed (budget - excess) (foldr forget_observation e dropped)
  end.

Definition retirable (e : Engine) (j : Job) : bool :=
  is_terminal (j_status j) && negb (existsb (λ '(_, t), String.eqb (t_root t) (j_id j)) (e_tasks e))
  && negb (existsb (λ '(_, a), unresolved a || in_progress a) (j_activities j)).
Definition retires_before (a b : N * string) : Prop :=
  (a.1 < b.1)%N ∨ (a.1 = b.1 ∧ String.le a.2 b.2).
#[export] Instance retires_before_dec a b : Decision (retires_before a b).
Proof. unfold retires_before. apply _. Defined.

Fixpoint forget_orphans (room : nat) (orphan : Observation → bool) (inbox : list (string * Observation))
    : list (string * Observation) :=
  match inbox with
  | [] => []
  | (k, o) :: inbox =>
      match room with
      | O => (k, o) :: inbox
      | S room' =>
          if orphan o then (k, set_o_value Null o) :: forget_orphans room' orphan inbox
          else (k, o) :: forget_orphans room orphan inbox
      end
  end.

Definition retire (e : Engine) : Engine :=
  let loaded := (e_jobs e).*1 in
  let e := trim_jobs (e_jobs e) 0 8 e in
  let retired := merge_sort retires_before
    ((λ j, (j_incorporated_sequence j, j_id j)) <$> List.filter (retirable e) (e_jobs e).*2) in
  let removed := (take (Nat.min (length retired - KEPT) 8) retired).*2 in
  let e := foldl (λ e id, set_e_budgets (map_remove id (e_budgets e))
                            (set_e_jobs (map_remove id (e_jobs e)) e)) e removed in
  let orphan o := negb (is_null (o_value o))
    && is_some_and (o_job o) (λ id, negb (has_key id (e_jobs e)) && (negb (e_partial e) || str_mem id loaded)) in
  set_e_inbox (forget_orphans 8 orphan (e_inbox e)) e.
End engine.
