(* ===== verification/CognitionSpec.v ===== *)
(** The invariant of the reasoning plugin's engine, and that no operation
    panics under it.

    Every session is a root (the session of a job that has not ended), a
    router (it associates one observation) or a child (a query below a root).
    [inv] says what each of them and each job can rely on; [wp] says that a
    step returns and what holds then. *)
From stdpp Require Import base tactics option list strings sorting relations.
From Stdlib Require Import ZArith NArith Lia Ascii.
From S2P Require Import Prelude Event Utf8 Json CognitionText Compaction CognitionData CognitionBase Cognition.

(** ** Maps *)

Section maps.
Context {V : Type}.
Implicit Types (m : list (string * V)) (k : string) (v : V).

Lemma has_key_true k m : has_key k m = true ↔ ∃ v, map_get k m = Some v.
Proof. unfold has_key, opt_is_some. destruct (map_get k m) as [v|]; naive_solver. Qed.
Lemma has_key_false k m : has_key k m = false ↔ map_get k m = None.
Proof. unfold has_key, opt_is_some. by destruct (map_get k m). Qed.

Lemma key_above_ext k m m' : m'.*1 = m.*1 → key_above k m' = key_above k m.
Proof. destruct m as [|[a x] m], m' as [|[b y] m']; csimpl; [done..|]. by intros [= -> _]. Qed.
Lemma fields_sorted_ext m m' : m'.*1 = m.*1 → fields_sorted m' = fields_sorted m.
Proof.
  revert m'. induction m as [|[a x] m IH]; intros [|[b y] m']; csimpl; [done..|]. intros [= -> E].
  by rewrite (IH _ E), (key_above_ext a m m').
Qed.

Lemma map_values_keys (f : V → V) m : (map_values f m).*1 = m.*1.
Proof. induction m as [|[a x] m IH]; csimpl; [done|]. by f_equal. Qed.
Lemma map_get_values (f : V → V) m k : map_get k (map_values f m) = f <$> map_get k m.
Proof. induction m as [|[a x] m IH]; csimpl; [done|]. by destruct (String.eqb k a). Qed.

Lemma map_get_update k (f : V → V) m k' :
  map_get k' (map_update k f m) = if String.eqb k' k then f <$> map_get k m else map_get k' m.
Proof.
  unfold map_update. destruct (map_get k m) as [v|] eqn:E; [by rewrite map_get_insert|].
  destruct (String.eqb_spec k' k) as [->|]; done.
Qed.
Lemma fields_sorted_update k (f : V → V) m : fields_sorted m = true → fields_sorted (map_update k f m) = true.
Proof. unfold map_update. destruct (map_get k m); [apply fields_sorted_insert|done]. Qed.

Lemma map_get_retain (p : string → V → bool) m k : fields_sorted m = true →
  map_get k (map_retain p m) = match map_get k m with Some v => if p k v then Some v else None | None => None end.
Proof. intros H%fields_sorted_nodup. unfold map_retain. by rewrite map_get_filter. Qed.

Lemma key_above_retain (p : string → V → bool) k m : key_above k m = true → fields_sorted m = true →
  key_above k (map_retain p m) = true.
Proof.
  unfold map_retain. revert k. induction m as [|[a x] m IH]; intros k; simpl; [done|].
  intros Hk [Ha Hm]%andb_true_iff. destruct (p a x); simpl; [done|]. apply IH; [|done].
  destruct m as [|[b y] m]; simpl in *; [done|]. apply before_spec in Hk, Ha. apply before_spec. by trans a.
Qed.
Lemma fields_sorted_retain (p : string → V → bool) m : fields_sorted m = true →
  fields_sorted (map_retain p m) = true.
Proof.
  induction m as [|[a x] m IH]; simpl; [done|]. intros [Ha Hm]%andb_true_iff. unfold map_retain. simpl.
  destruct (p a x); simpl; [|by apply IH]. fold (map_retain p m). by rewrite IH, key_above_retain.
Qed.

Lemma map_each_spec (f : string → V → option (V * list Draft)) m :
  (∀ k v, map_get k m = Some v → is_Some (f k v)) → fields_sorted m = true →
  ∃ m' out, map_each f m = Some (m', out) ∧ m'.*1 = m.*1 ∧
    ∀ k, map_get k m' = v ← map_get k m; fst <$> f k v.
Proof.
  intros Hf Hm%fields_sorted_nodup. induction m as [|[a x] m IH]; simpl.
  { by exists [], []. }
  apply NoDup_cons in Hm as [Ha Hm].
  destruct (Hf a x) as [[x' o] Ex]; [simpl; by rewrite String.eqb_refl|]. rewrite Ex. simpl.
  destruct IH as (m' & out & -> & Hk & Hget); [|done|].
  { intros k v Hk. apply Hf. simpl. destruct (String.eqb_spec k a) as [->|]; [|done].
    apply map_get_elem in Hk; [|done]. destruct Ha. apply list_elem_of_fmap. by exists (a, v). }
  simpl. eexists _, _. split; [done|]. split; [by apply (f_equal (cons a)) in Hk|]. intros k. simpl.
  destruct (String.eqb_spec k a) as [->|]; [|done]. simpl. by rewrite Ex.
Qed.

(** How many entries satisfy a predicate. *)
Definition count (p : V → bool) m : nat := length (List.filter (λ '(_, v), p v) m).

Lemma count_mono (p q : V → bool) m : (∀ v, p v = true → q v = true) → count p m ≤ count q m.
Proof.
  intros Hpq. unfold count. induction m as [|[k v] m IH]; simpl; [done|]. specialize (Hpq v).
  destruct (p v), (q v); simpl; naive_solver lia.
Qed.

Lemma count_insert p k v m : count p (map_insert k v m) ≤ count p m + (if p v then 1 else 0).
Proof.
  unfold count. induction m as [|[a x] m IH]; simpl; [destruct (p v); simpl; lia|].
  destruct (String.eqb k a); [simpl; destruct (p v), (p x); simpl; lia|].
  case_bool_decide; simpl; [destruct (p v); simpl; lia|]. destruct (p x); simpl; lia.
Qed.
Lemma count_replace p k v v' m : map_get k m = Some v → fields_sorted m = true → p v' = p v →
  count p (map_insert k v' m) = count p m.
Proof.
  unfold count. induction m as [|[a x] m IH]; simpl; [done|]. intros Hk [Ha Hm]%andb_true_iff Hp.
  destruct (String.eqb_spec k a) as [->|Hne].
  - injection Hk as ->. simpl. rewrite Hp. by destruct (p v).
  - case_bool_decide as Hle; simpl.
    + apply map_get_elem in Hk; [|by apply fields_sorted_nodup].
      assert (before a k) as [H1 H2].
      { assert (StronglySorted before (a :: m.*1)) as Hs.
        { apply (fields_sorted_strongly ((a, x) :: m)). simpl. by rewrite Ha, Hm. }
        inversion_clear Hs as [|? ? _ Hall]. rewrite Forall_forall in Hall. apply Hall.
        apply list_elem_of_fmap. by exists (k, v). }
      destruct H2. by apply (anti_symm String.le).
    + destruct (p x); simpl; by rewrite (IH Hk Hm Hp).
Qed.
Lemma count_retain p (q : string → V → bool) m : count p (map_retain q m) ≤ count p m.
Proof.
  unfold count, map_retain. induction m as [|[a x] m IH]; simpl; [lia|].
  destruct (q a x); simpl; destruct (p x); simpl; lia.
Qed.
Lemma count_remove p k m : count p (map_remove k m) ≤ count p m.
Proof.
  unfold count. induction m as [|[a x] m IH]; simpl; [lia|].
  destruct (String.eqb k a); simpl; destruct (p x); simpl; lia.
Qed.
Lemma length_insert_single k v m : m = [] → length (map_insert k v m) = 1.
Proof. by intros ->. Qed.
Lemma length_remove k m : length (map_remove k m) ≤ length m.
Proof. induction m as [|[a x] m IH]; simpl; [lia|]. destruct (String.eqb k a); simpl; lia. Qed.
Lemma length_retain (p : string → V → bool) m : length (map_retain p m) ≤ length m.
Proof.
  unfold map_retain. induction m as [|[a x] m IH]; simpl; [lia|]. destruct (p a x); simpl; lia.
Qed.
End maps.

(** ** Steps that return *)

Definition wp {A} (m : Eng A) (Q : A → Engine → Prop) (e : Engine) : Prop :=
  match m e with
  | Some (a, e') => Q a e'
  | None => False
  end.

Lemma wpe_bind {A B} (m : Eng A) (k : A → Eng B) Q e : wp (en_bind m k) Q e ↔ wp m (λ a, wp (k a) Q) e.
Proof. unfold wp, en_bind. by destruct (m e) as [[a e']|]. Qed.
Lemma wpe_ret {A} (a : A) Q e : wp (en_ret a) Q e ↔ Q a e.
Proof. done. Qed.
Lemma wpe_get Q e : wp en_get Q e ↔ Q e e.
Proof. done. Qed.
Lemma wp_update f Q e : wp (en_update f) Q e ↔ Q tt (f e).
Proof. done. Qed.
Lemma wp_unwrap {A} (o : option A) Q e : wp (en_unwrap o) Q e ↔ ∃ a, o = Some a ∧ Q a e.
Proof. unfold wp, en_unwrap. destruct o as [a|]; simpl; naive_solver. Qed.
Lemma wpe_mono {A} (m : Eng A) (Q Q' : A → Engine → Prop) e :
  wp m Q e → (∀ a e', Q a e' → Q' a e') → wp m Q' e.
Proof. unfold wp. destruct (m e) as [[a e']|]; eauto. Qed.
Lemma wp_some {A} (m : Eng A) Q e : wp m Q e → ∃ a e', m e = Some (a, e') ∧ Q a e'.
Proof. unfold wp. destruct (m e) as [[a e']|]; naive_solver. Qed.

Lemma wp_task_at s Q e t : map_get s (e_tasks e) = Some t → wp (task_at s) Q e ↔ Q t e.
Proof. intros H. unfold task_at. rewrite wpe_bind, wpe_get, wp_unwrap, H. naive_solver. Qed.
Lemma wp_job_at k Q e j : map_get k (e_jobs e) = Some j → wp (job_at k) Q e ↔ Q j e.
Proof. intros H. unfold job_at. rewrite wpe_bind, wpe_get, wp_unwrap, H. naive_solver. Qed.
Lemma wp_observation_at k Q e o : map_get k (e_inbox e) = Some o → wp (observation_at k) Q e ↔ Q o e.
Proof. intros H. unfold observation_at. rewrite wpe_bind, wpe_get, wp_unwrap, H. naive_solver. Qed.

(** ** The invariant *)

(** An event id that no session id of another kind starts with. *)
Definition plain_id (id : string) : Prop := str_contains ":" id = false ∧ id ≠ "associate".
(** A session id below a root. *)
Definition below (root s : string) : Prop := ∃ r, s = root +:+ ":" +:+ r.
Definition router_of (o : string) : string := "associate:" +:+ o.

Definition ended (j : Job) : bool := is_terminal (j_status j).
Definition is_child (t : Task) : bool := opt_is_some (t_parent t).
(** A query below the root of a job. *)
Definition child_of (root : string) (t : Task) : bool := is_child t && String.eqb (t_root t) root.

(** A delivery works on a part of what is stored: the observations it may
    take in, since neither their job nor their router is stored outside of
    that part, and the ones it has loaded and never drops. *)
Class WorkingSet : Type := mkWorkingSet {
  may_enter : string → Prop;
  must_stay : string → Prop;
}.

Section inv.
Context {WS : WorkingSet}.
Context (ts : list (string * Task)) (js : list (string * Job)) (ib : list (string * Observation))
  (bs : list (string * N)) (cs : list (string * string)).

Definition session_ok (s : string) (t : Task) : Prop :=
  match t_association t, t_parent t with
  | Some o, None =>
      t_root t = s ∧ s = router_of o ∧ t_depth t = 0%N ∧ has_key o ib = true ∧ has_key s bs = true ∧
      has_key o js = false
  | None, None =>
      t_root t = s ∧ t_depth t = 0%N ∧ (∃ j, map_get s js = Some j ∧ ended j = false) ∧ has_key s bs = true
  | None, Some _ =>
      below (t_root t) s ∧ (1 ≤ t_depth t ≤ MAX_DEPTH)%N ∧ t_pending t = None ∧
      ∃ j, map_get (t_root t) js = Some j ∧ (ended j = false → has_key (t_root t) bs = true)
  | Some _, Some _ => False
  end.
Definition task_wf (t : Task) : Prop :=
  is_object (t_context t) = true ∧ 2 ≤ length (t_messages t) ∧
  (∀ p, t_pending t = Some p → is_object p = true).
Definition job_wf (k : string) (j : Job) : Prop :=
  plain_id k ∧ j_id j = k ∧ (∀ r a, (r, a) ∈ j_activities j → is_object a = true) ∧
  (opt_is_some (j_wake j) = true → ended j = false).
Definition root_session (k : string) : Prop :=
  ∃ t, map_get k ts = Some t ∧ t_association t = None ∧ t_parent t = None.
Definition payload_ok (v : Value) : Prop := v = Null ∨ is_object v = true.

Record inv : Prop := {
  inv_tasks_sorted : fields_sorted ts = true;
  inv_jobs_sorted : fields_sorted js = true;
  inv_inbox_sorted : fields_sorted ib = true;
  inv_budgets_sorted : fields_sorted bs = true;
  inv_calls_sorted : fields_sorted cs = true;
  inv_wf : ∀ s t, map_get s ts = Some t → task_wf t;
  inv_session : ∀ s t, map_get s ts = Some t → session_ok s t;
  inv_job : ∀ k j, map_get k js = Some j → job_wf k j;
  inv_root : ∀ k j, map_get k js = Some j → ended j = false → root_session k;
  inv_inbox : ∀ k o, map_get k ib = Some o → plain_id k ∧ payload_ok (o_value o);
  inv_calls : length cs ≤ 1;
  inv_budgets : ∀ k n, map_get k bs = Some n → (n ≤ MODEL_BUDGET)%N;
  inv_children : ∀ r, count (child_of r) ts ≤ 4;
  inv_entered : ∀ k, has_key k js = true → may_enter k;
  inv_routers : ∀ s t o, map_get s ts = Some t → t_association t = Some o → may_enter o;
  inv_stay : ∀ k, must_stay k → has_key k ib = true;
}.
End inv.

Definition Inv {WS : WorkingSet} (e : Engine) : Prop := inv (e_tasks e) (e_jobs e) (e_inbox e) (e_budgets e) (e_calls e).

(** *** Identifiers *)

Lemma str_contains_app c a b : str_contains c (a +:+ b) = str_contains c a || str_contains c b.
Proof. induction a as [|x a IH]; [done|]. rewrite append_cons. simpl. rewrite IH. by rewrite orb_assoc. Qed.
Lemma below_not_plain root s : below root s → ~ plain_id s.
Proof. intros [r ->] [H _]. rewrite !str_contains_app in H. simpl in H. by rewrite orb_true_r in H. Qed.
Lemma router_not_plain o : ~ plain_id (router_of o).
Proof. intros [H _]. unfold router_of in H. by rewrite str_contains_app in H. Qed.
Lemma router_inj o o' : router_of o = router_of o' → o = o'.
Proof. apply append_inj_l. Qed.

(** The part before the first colon. *)
Fixpoint before_colon (s : string) : string :=
  match s with
  | EmptyString => ""
  | String c s => if (c =? ":")%char then "" else String c (before_colon s)
  end.
Lemma before_colon_app a r : str_contains ":" a = false → before_colon (a +:+ ":" +:+ r) = a.
Proof.
  induction a as [|x a IH]; [done|]. rewrite append_cons. simpl. intros [Hx Ha]%orb_false_iff.
  by rewrite Hx, IH.
Qed.
Lemma router_not_below root o : plain_id root → ~ below root (router_of o).
Proof.
  intros [H1 H2] [r E]. apply (f_equal before_colon) in E. rewrite before_colon_app in E by done.
  by destruct H2.
Qed.
Lemma below_trans root s x : below root s → below root (s +:+ ":" +:+ x).
Proof. intros [r ->]. exists (r +:+ ":" +:+ x). by rewrite <- !append_assoc. Qed.

(** *** Small changes *)

(** What a session is does not change. *)
Definition frame (t t' : Task) : Prop :=
  t_association t' = t_association t ∧ t_parent t' = t_parent t ∧ t_root t' = t_root t ∧
  t_depth t' = t_depth t.
Definition kept (t t' : Task) : Prop :=
  frame t t' ∧ task_wf t' ∧ (is_child t' = true → t_pending t' = None).

Lemma session_ok_frame js ib bs s t t' : session_ok js ib bs s t → frame t t' →
  (is_child t' = true → t_pending t' = None) → session_ok js ib bs s t'.
Proof.
  unfold session_ok, is_child. intros H (-> & Hp & -> & ->) Hn. rewrite Hp in *.
  destruct (t_association t), (t_parent t); naive_solver.
Qed.

Section changes.
Context {WS : WorkingSet}.
Context (ts : list (string * Task)) (js : list (string * Job)) (ib : list (string * Observation))
  (bs : list (string * N)) (cs : list (string * string)).
Context (H : inv ts js ib bs cs).

Lemma inv_pending s t : map_get s ts = Some t → is_child t = true → t_pending t = None.
Proof.
  intros Ht Hc. pose proof (inv_session _ _ _ _ _ H _ _ Ht) as Hs. unfold session_ok, is_child in *.
  destruct (t_association t), (t_parent t); naive_solver.
Qed.

Lemma inv_set_task s t t' : map_get s ts = Some t → kept t t' → inv (map_insert s t' ts) js ib bs cs.
Proof.
  intros Ht (Hf & Hwf & Hp). destruct H. split; try done.
  - by apply fields_sorted_insert.
  - intros s' u. rewrite map_get_insert. destruct (String.eqb_spec s' s) as [->|]; [|by eauto].
    by intros [= <-].
  - intros s' u. rewrite map_get_insert. destruct (String.eqb_spec s' s) as [->|]; [|by eauto].
    intros [= <-]. by eapply session_ok_frame; [apply inv_session0|..].
  - intros k j Hj He. destruct (inv_root0 k j Hj He) as (u & Hu & Ha & Hpa).
    unfold root_session. rewrite map_get_insert. destruct (String.eqb_spec k s) as [->|]; [|by exists u].
    assert (u = t) as -> by congruence. exists t'. destruct Hf as (Ea & Ep & _). by rewrite Ea, Ep.
  - intros r. rewrite (count_replace (child_of r) s t); [done|done|done|]. destruct Hf as (_ & Ep & Er & _).
    unfold child_of, is_child. by rewrite Ep, Er.
  - intros s' u o. rewrite map_get_insert. destruct (String.eqb_spec s' s) as [->|]; [|by eauto].
    intros [= <-]. destruct Hf as (-> & _). by eauto.
Qed.

Lemma has_key_replace {V} (m : list (string * V)) k v v' : map_get k m = Some v →
  ∀ r, has_key r (map_insert k v' m) = has_key r m.
Proof.
  intros Hv r. unfold has_key. rewrite map_get_insert. destruct (String.eqb_spec r k) as [->|]; [|done]. by rewrite Hv.
Qed.
Lemma inv_set_job k j j' : map_get k js = Some j → job_wf k j' → ended j' = ended j →
  inv ts (map_insert k j' js) ib bs cs.
Proof.
  intros Hj Hwf He. pose proof (has_key_replace js k j j' Hj) as Hk. destruct H. split; try done.
  - by apply fields_sorted_insert.
  - intros s t Ht. specialize (inv_session0 s t Ht). unfold session_ok in *.
    assert (∀ r P, (∃ x, map_get r js = Some x ∧ (P (ended x) : Prop)) →
      ∃ x, map_get r (map_insert k j' js) = Some x ∧ P (ended x)) as Hex.
    { intros r P (x & Hx & HP). rewrite map_get_insert. destruct (String.eqb_spec r k) as [->|]; [|by exists x].
      exists j'. split; [done|]. rewrite He. congruence. }
    destruct (t_association t), (t_parent t); [done| | |].
    + by rewrite Hk.
    + destruct inv_session0 as (H1 & H2 & H3 & H4). split; [done|]. split; [done|]. split; [done|].
      by apply (Hex (t_root t) (λ b, b = false → has_key (t_root t) bs = true)).
    + destruct inv_session0 as (H1 & H2 & H3 & H4). split; [done|]. split; [done|]. split; [|done].
      by apply (Hex s (λ b, b = false)).
  - intros k' x. rewrite map_get_insert. destruct (String.eqb_spec k' k) as [->|]; [|by eauto].
    by intros [= <-].
  - intros k' x. rewrite map_get_insert. destruct (String.eqb_spec k' k) as [->|]; [|by eauto].
    intros [= <-] Hx. eapply inv_root0; [done|congruence].
  - intros k'. rewrite Hk. by eauto.
Qed.

Lemma has_key_insert {V} k (v : V) m k' : has_key k' m = true → has_key k' (map_insert k v m) = true.
Proof.
  rewrite !has_key_true, map_get_insert. intros [x Hx]. destruct (String.eqb_spec k' k); [|by exists x]. by exists v.
Qed.

Lemma session_ok_mono js' ib' bs' s t : session_ok js ib bs s t →
  (∀ k, has_key k js = false → has_key k js' = false) →
  (∀ k j, map_get k js = Some j → ∃ j', map_get k js' = Some j' ∧ ended j' = ended j) →
  (∀ k, has_key k ib = true → has_key k ib' = true) → (∀ k, has_key k bs = true → has_key k bs' = true) →
  session_ok js' ib' bs' s t.
Proof.
  unfold session_ok. intros Hs Hk Hj Hi Hb. destruct (t_association t), (t_parent t); [done| | |].
  - naive_solver.
  - destruct Hs as (? & ? & ? & j & Ej & He). destruct (Hj _ _ Ej) as (j' & Ej' & E). naive_solver congruence.
  - destruct Hs as (? & ? & (j & Ej & He) & ?). destruct (Hj _ _ Ej) as (j' & Ej' & E). naive_solver congruence.
Qed.

Lemma inv_set_inbox k o : plain_id k → payload_ok (o_value o) → inv ts js (map_insert k o ib) bs cs.
Proof.
  intros Hk Ho. destruct H. split; try done.
  - by apply fields_sorted_insert.
  - intros s t Ht. eapply session_ok_mono; eauto using has_key_insert.
  - intros k' x. rewrite map_get_insert. destruct (String.eqb_spec k' k) as [->|]; [|by eauto]. by intros [= <-].
  - intros k' Hk'. apply has_key_insert. by eauto.
Qed.

Lemma inv_set_budget k n : (n ≤ MODEL_BUDGET)%N → inv ts js ib (map_insert k n bs) cs.
Proof.
  intros Hn. destruct H. split; try done.
  - by apply fields_sorted_insert.
  - intros s t Ht. eapply session_ok_mono; eauto using has_key_insert.
  - intros k' x. rewrite map_get_insert. destruct (String.eqb_spec k' k) as [->|]; [|by eauto]. by intros [= <-].
Qed.

Lemma inv_set_calls cs' : fields_sorted cs' = true → length cs' ≤ 1 → inv ts js ib bs cs'.
Proof. intros ??. destruct H. by split. Qed.

Lemma inv_remove_call k : inv ts js ib bs (map_remove k cs).
Proof.
  apply inv_set_calls; [apply fields_sorted_remove, H|]. pose proof (length_remove k cs). destruct H. lia.
Qed.
Lemma inv_retain_calls p : inv ts js ib bs (map_retain p cs).
Proof.
  apply inv_set_calls; [apply fields_sorted_retain, H|]. pose proof (length_retain p cs). destruct H. lia.
Qed.

(** Sessions that no job that has not ended needs. *)
Lemma inv_retain_tasks p :
  (∀ k j t, map_get k js = Some j → ended j = false → map_get k ts = Some t → p k t = true) →
  inv (map_retain p ts) js ib bs cs.
Proof.
  intros Hp. destruct H. split; try done.
  - by apply fields_sorted_retain.
  - intros s t. rewrite map_get_retain by done. destruct (map_get s ts) as [u|] eqn:E; [|done].
    destruct (p s u); [|done]. intros [= <-]. by eauto.
  - intros s t. rewrite map_get_retain by done. destruct (map_get s ts) as [u|] eqn:E; [|done].
    destruct (p s u); [|done]. intros [= <-]. by eauto.
  - intros k j Hj He. destruct (inv_root0 k j Hj He) as (u & Hu & Hr). exists u.
    rewrite map_get_retain, Hu by done. by rewrite (Hp k j u).
  - intros r. pose proof (count_retain (child_of r) p ts). specialize (inv_children0 r). lia.
  - intros s t o. rewrite map_get_retain by done. destruct (map_get s ts) as [u|] eqn:E; [|done].
    destruct (p s u); [|done]. intros [= <-]. by eauto.
Qed.
Lemma inv_remove_task s : (∀ j, map_get s js = Some j → ended j = true) → inv (map_remove s ts) js ib bs cs.
Proof.
  intros Hs. destruct H. pose proof (fields_sorted_nodup _ inv_tasks_sorted0) as Hnd. split; try done.
  - by apply fields_sorted_remove.
  - intros s' t. rewrite map_get_remove by done. destruct (String.eqb s' s); [done|]. by eauto.
  - intros s' t. rewrite map_get_remove by done. destruct (String.eqb s' s); [done|]. by eauto.
  - intros k j Hj He. destruct (inv_root0 k j Hj He) as (u & Hu & Hr). exists u.
    rewrite map_get_remove by done. destruct (String.eqb_spec k s) as [->|]; [|done].
    rewrite (Hs j Hj) in He. done.
  - intros r. pose proof (count_remove (child_of r) s ts). specialize (inv_children0 r). lia.
  - intros s' t o. rewrite map_get_remove by done. destruct (String.eqb s' s); [done|]. by eauto.
Qed.
(** A budget that no session needs. *)
Lemma inv_remove_budget k :
  (∀ s t, map_get s ts = Some t → t_root t = k → ∃ j, map_get k js = Some j ∧ ended j = true) →
  inv ts js ib (map_remove k bs) cs.
Proof.
  intros Hk. destruct H. pose proof (fields_sorted_nodup _ inv_budgets_sorted0) as Hnd. split; try done.
  - by apply fields_sorted_remove.
  - intros s t Ht. specialize (inv_session0 s t Ht). specialize (Hk s t Ht). unfold session_ok in *.
    assert (∀ r, r ≠ k → has_key r (map_remove k bs) = has_key r bs) as Hb.
    { intros r Hr. unfold has_key. rewrite map_get_remove by done. by rewrite (proj2 (String.eqb_neq _ _)). }
    destruct (t_association t) as [o|], (t_parent t) as [p|]; [done| | |].
    + destruct inv_session0 as (H1 & H2 & H3 & H4 & H5 & H6). split_and!; try done.
      rewrite Hb; [done|]. intros E. destruct Hk as (j & Hj & _); [congruence|].
      destruct (inv_job0 _ _ Hj) as (Hpl & _). rewrite <- E, H2 in Hpl. by apply router_not_plain in Hpl.
    + destruct inv_session0 as (H1 & H2 & H3 & j & Hj & He). split; [done|]. split; [done|]. split; [done|].
      exists j. split; [done|]. intros Hl. rewrite Hb; [by apply He|]. intros E.
      destruct (Hk E) as (j' & Hj' & He'). rewrite E in Hj. congruence.
    + destruct inv_session0 as (H1 & H2 & (j & Hj & He) & H4). split_and!; try done; [by exists j|].
      rewrite Hb; [done|]. intros E. destruct Hk as (j' & Hj' & He'); [congruence|]. congruence.
  - intros k' n. rewrite map_get_remove by done. destruct (String.eqb k' k); [done|]. by eauto.
Qed.
End changes.

(** A change that keeps every session, whether each job has ended, and what
    the scheduler sees. *)
Record mild (e e' : Engine) : Prop := {
  mild_tasks : ∀ s, option_Forall2 frame (map_get s (e_tasks e)) (map_get s (e_tasks e'));
  mild_jobs : ∀ k, option_Forall2 (λ j j', ended j' = ended j) (map_get k (e_jobs e)) (map_get k (e_jobs e'));
  mild_inbox : ∀ k, has_key k (e_inbox e) = true → has_key k (e_inbox e') = true;
  mild_budgets : e_budgets e' = e_budgets e;
  mild_calls : e_calls e' = e_calls e;
  mild_queue : e_queue e' = e_queue e;
  mild_scheduling : e_scheduling e' = e_scheduling e;
  mild_errors : e_resource_errors e' = e_resource_errors e;
}.

#[export] Instance frame_preorder : PreOrder frame.
Proof. split; [by intros t|]. intros t u v (?&?&?&?) (?&?&?&?). unfold frame. naive_solver congruence. Qed.

Lemma option_frame_refl (o : option Task) : option_Forall2 frame o o.
Proof. destruct o; constructor. done. Qed.
Lemma option_ended_refl (o : option Job) : option_Forall2 (λ j j', ended j' = ended j) o o.
Proof. by destruct o; constructor. Qed.
#[export] Hint Resolve option_frame_refl option_ended_refl : core.

Lemma option_rel_trans {A} (R : A → A → Prop) (a b c : option A) : option_Forall2 R a b → option_Forall2 R b c →
  (∀ x y z, R x y → R y z → R x z) → option_Forall2 R a c.
Proof. intros [x y Hxy|] Hbc HR; inversion Hbc; subst; constructor. by eapply HR. Qed.

#[export] Instance mild_preorder : PreOrder mild.
Proof.
  split; [by intros e; split|]. intros a b c H1 H2. split.
  - intros s. eapply option_rel_trans; [by apply H1|by apply H2|]. intros x y z ??. by etrans.
  - intros s. eapply option_rel_trans; [by apply H1|by apply H2|]. simpl. congruence.
  - intros k Hk. by apply H2, H1.
  - rewrite (mild_budgets _ _ H2). apply H1.
  - rewrite (mild_calls _ _ H2). apply H1.
  - rewrite (mild_queue _ _ H2). apply H1.
  - rewrite (mild_scheduling _ _ H2). apply H1.
  - rewrite (mild_errors _ _ H2). apply H1.
Qed.

Lemma mild_task e e' s t : mild e e' → map_get s (e_tasks e) = Some t →
  ∃ t', map_get s (e_tasks e') = Some t' ∧ frame t t'.
Proof. intros H Ht. pose proof (mild_tasks _ _ H s) as Hs. rewrite Ht in Hs. inversion Hs; naive_solver. Qed.
Lemma mild_job e e' k j : mild e e' → map_get k (e_jobs e) = Some j →
  ∃ j', map_get k (e_jobs e') = Some j' ∧ ended j' = ended j.
Proof. intros H Hj. pose proof (mild_jobs _ _ H k) as Hs. rewrite Hj in Hs. inversion Hs; naive_solver. Qed.
Lemma mild_job_none e e' k : mild e e' → map_get k (e_jobs e) = None → map_get k (e_jobs e') = None.
Proof. intros H Hj. pose proof (mild_jobs _ _ H k) as Hs. rewrite Hj in Hs. by inversion Hs. Qed.
Lemma mild_task_back e e' s t' : mild e e' → map_get s (e_tasks e') = Some t' →
  ∃ t, map_get s (e_tasks e) = Some t ∧ frame t t'.
Proof. intros H Ht. pose proof (mild_tasks _ _ H s) as Hs. rewrite Ht in Hs. inversion Hs; naive_solver. Qed.

(** ** Steps on one entry *)

Lemma kept_wf {WS : WorkingSet} e s t : Inv e → map_get s (e_tasks e) = Some t →
  task_wf t ∧ (is_child t = true → t_pending t = None).
Proof. intros H Ht. split; [by eapply inv_wf|by eapply inv_pending]. Qed.
(** A setter that leaves the context, the messages and what is pending. *)
Ltac plain_kept :=
  match goal with
  | Hi : Inv ?e, Ht : map_get ?s (e_tasks ?e) = Some ?t |- kept ?t _ =>
      let Hwf := fresh in let Hp := fresh in
      destruct (kept_wf e s t Hi Ht) as [Hwf Hp]; destruct Hwf as (? & ? & ?);
      split; [by repeat split|]; split; [split_and!; cbn; eauto|cbn; eauto]
  end.

Section working.
Context {WS : WorkingSet}.

Lemma touch_task e s t t' : Inv e → map_get s (e_tasks e) = Some t → kept t t' →
  let e' := set_e_tasks (map_insert s t' (e_tasks e)) e in
  Inv e' ∧ mild e e' ∧ map_get s (e_tasks e') = Some t'.
Proof.
  intros Hi Ht Hk e'. split; [by eapply inv_set_task|]. split.
  - split; try done. intros s'. cbn. rewrite map_get_insert.
    destruct (String.eqb_spec s' s) as [->|]; [|done]. rewrite Ht. constructor. apply Hk.
  - cbn. by rewrite map_get_insert, String.eqb_refl.
Qed.
Lemma touch_job e k j j' : Inv e → map_get k (e_jobs e) = Some j → job_wf k j' → ended j' = ended j →
  let e' := set_e_jobs (map_insert k j' (e_jobs e)) e in
  Inv e' ∧ mild e e' ∧ map_get k (e_jobs e') = Some j'.
Proof.
  intros Hi Hj Hwf He e'. split; [by eapply inv_set_job|]. split.
  - split; try done. intros k'. cbn. rewrite map_get_insert.
    destruct (String.eqb_spec k' k) as [->|]; [|done]. rewrite Hj. by constructor.
  - cbn. by rewrite map_get_insert, String.eqb_refl.
Qed.
Lemma touch_observation e k o : Inv e → plain_id k → payload_ok (o_value o) →
  let e' := set_e_inbox (map_insert k o (e_inbox e)) e in
  Inv e' ∧ mild e e' ∧ map_get k (e_inbox e') = Some o.
Proof.
  intros Hi Hk Ho e'. split; [by apply inv_set_inbox|]. split.
  - split; try done. intros k'. apply has_key_insert.
  - cbn. by rewrite map_get_insert, String.eqb_refl.
Qed.

Lemma wp_task_mut s f Q e t : Inv e → map_get s (e_tasks e) = Some t → kept t (f t) →
  (∀ e', Inv e' → mild e e' → map_get s (e_tasks e') = Some (f t) → Q tt e') → wp (task_mut s f) Q e.
Proof.
  intros Hi Ht Hk HQ. unfold task_mut. rewrite wpe_bind, (wp_task_at _ _ _ _ Ht). unfold on_tasks. rewrite wp_update.
  destruct (touch_task e s t (f t)) as (H1 & H2 & H3); [done..|]. by apply HQ.
Qed.

Lemma wp_context_set s key v Q e t : Inv e → map_get s (e_tasks e) = Some t →
  (∀ e', Inv e' → mild e e' →
     map_get s (e_tasks e') = Some (set_t_context (value_set (t_context t) key v) t) → Q tt e') →
  wp (context_set s key v) Q e.
Proof.
  intros Hi Ht HQ. destruct (kept_wf e s t Hi Ht) as [(Hc & Hm & Hpo) Hp].
  unfold context_set. rewrite wpe_bind, (wp_task_at _ _ _ _ Ht), wpe_bind, wp_unwrap.
  exists (value_set (t_context t) key v). split; [by destruct (t_context t)|]. unfold on_tasks. rewrite wp_update.
  destruct (touch_task e s t (set_t_context (value_set (t_context t) key v) t)) as (H1 & H2 & H3); [done|done| |].
  { split; [by repeat split|]. split; [|done]. split_and!; [|done|done]. cbn. by destruct (t_context t). }
  by apply HQ.
Qed.
Lemma wp_context_remove s key Q e t : Inv e → map_get s (e_tasks e) = Some t →
  (∀ e' t', Inv e' → mild e e' → map_get s (e_tasks e') = Some t' → frame t t' → Q tt e') →
  wp (context_remove s key) Q e.
Proof.
  intros Hi Ht HQ. destruct (kept_wf e s t Hi Ht) as [(Hc & Hm & Hpo) Hp].
  unfold context_remove. rewrite wpe_bind, (wp_task_at _ _ _ _ Ht), wpe_bind, wp_unwrap.
  destruct (t_context t) as [| | | | |m] eqn:E; try done. eexists. split; [done|]. unfold on_tasks. rewrite wp_update.
  destruct (touch_task e s t (set_t_context (Object (map_remove key m)) t)) as (H1 & H2 & H3); [done|done| |].
  { split; [by repeat split|]. split; [|done]. by split_and!. }
  eapply HQ; [done|done|done|by repeat split].
Qed.
Lemma wp_push_message s v Q e t : Inv e → map_get s (e_tasks e) = Some t →
  (∀ e', Inv e' → mild e e' → map_get s (e_tasks e') = Some (set_t_messages (t_messages t ++ [v]) t) → Q tt e') →
  wp (push_message s v) Q e.
Proof.
  intros Hi Ht HQ. destruct (kept_wf e s t Hi Ht) as [(Hc & Hm & Hpo) Hp].
  eapply wp_task_mut; [done|done| |done]. split; [by repeat split|]. split; [|done].
  split_and!; [done| |done]. cbn. rewrite length_app. simpl. lia.
Qed.
Lemma wp_message_set s i v Q e t : Inv e → map_get s (e_tasks e) = Some t → i < 2 →
  (∀ e', Inv e' → mild e e' → map_get s (e_tasks e') = Some (set_t_messages (<[i := v]> (t_messages t)) t) → Q tt e') →
  wp (message_set s i v) Q e.
Proof.
  intros Hi Ht Hlt HQ. destruct (kept_wf e s t Hi Ht) as [(Hc & Hm & Hpo) Hp].
  unfold message_set. rewrite wpe_bind, (wp_task_at _ _ _ _ Ht). rewrite (proj2 (Nat.ltb_lt _ _)) by lia.
  unfold on_tasks. rewrite wp_update.
  destruct (touch_task e s t (set_t_messages (<[i := v]> (t_messages t)) t)) as (H1 & H2 & H3); [done|done| |].
  { split; [by repeat split|]. split; [|done]. split_and!; [done| |done]. cbn. by rewrite length_insert. }
  by apply HQ.
Qed.

(** A job update that leaves its identity and whether it has ended. *)
Definition job_kept (f : Job → Job) : Prop := ∀ k j, job_wf k j → job_wf k (f j) ∧ ended (f j) = ended j.

Lemma wp_job_mut k f Q e j : Inv e → map_get k (e_jobs e) = Some j → job_wf k (f j) → ended (f j) = ended j →
  (∀ e', Inv e' → mild e e' → map_get k (e_jobs e') = Some (f j) → e_tasks e' = e_tasks e → Q tt e') →
  wp (job_mut k f) Q e.
Proof.
  intros Hi Hj Hw He HQ. unfold job_mut. rewrite wpe_bind, (wp_job_at _ _ _ _ Hj). unfold on_jobs. rewrite wp_update.
  destruct (touch_job e k j (f j)) as (H1 & H2 & H3); [done..|]. by apply HQ.
Qed.
Lemma wp_job_if k f Q e : Inv e →
  (∀ j, map_get k (e_jobs e) = Some j → job_wf k j → job_wf k (f j) ∧ ended (f j) = ended j) →
  (∀ e', Inv e' → mild e e' → e_tasks e' = e_tasks e → Q tt e') → wp (job_if k f) Q e.
Proof.
  intros Hi Hf HQ. unfold job_if, on_jobs. rewrite wp_update. unfold map_update.
  destruct (map_get k (e_jobs e)) as [j|] eqn:Hj.
  - destruct (Hf j eq_refl) as [Hw He]; [by eapply inv_job|].
    destruct (touch_job e k j (f j)) as (H1 & H2 & H3); [done..|]. by apply HQ.
  - apply HQ; [by destruct e|by destruct e|by destruct e].
Qed.
Lemma wp_observation_mut k f Q e o : Inv e → map_get k (e_inbox e) = Some o → payload_ok (o_value (f o)) →
  (∀ e', Inv e' → mild e e' → map_get k (e_inbox e') = Some (f o) → e_tasks e' = e_tasks e →
     e_jobs e' = e_jobs e → Q tt e') → wp (observation_mut k f) Q e.
Proof.
  intros Hi Ho Hp HQ. unfold observation_mut. rewrite wpe_bind, (wp_observation_at _ _ _ _ Ho).
  unfold on_inbox. rewrite wp_update.
  destruct (inv_inbox _ _ _ _ _ Hi _ _ Ho) as [Hk _].
  destruct (touch_observation e k (f o)) as (H1 & H2 & H3); [done..|]. by apply HQ.
Qed.

(** ** Ending sessions *)

(** After a step that may end sessions. *)
Definition settled (e e' : Engine) : Prop :=
  Inv e' ∧ e_scheduling e' = e_scheduling e ∧ e_resource_errors e' = e_resource_errors e ∧
  length (e_queue e') ≤ length (e_queue e).
Lemma mild_settled e e' : Inv e' → mild e e' → settled e e'.
Proof.
  intros Hi H. split; [done|]. split; [apply H|]. split; [apply H|]. by rewrite (mild_queue _ _ H).
Qed.
Lemma settled_trans e1 e2 e3 : settled e1 e2 → settled e2 e3 → settled e1 e3.
Proof. intros (?&?&?&?) (?&?&?&?). split_and!; [done|congruence|congruence|lia]. Qed.

Lemma length_filter_le {A} (p : A → bool) l : length (List.filter p l) ≤ length l.
Proof. induction l as [|x l IH]; simpl; [lia|]. destruct (p x); simpl; lia. Qed.

(** A job ends, with its root session at least. *)
Lemma inv_end_job ts ts' js ib bs cs k j j' : inv ts js ib bs cs → map_get k js = Some j → job_wf k j' →
  ended j' = true → fields_sorted ts' = true →
  (∀ s t, map_get s ts' = Some t → map_get s ts = Some t ∧ s ≠ k) →
  (∀ k' x t, k' ≠ k → map_get k' js = Some x → ended x = false → map_get k' ts = Some t → map_get k' ts' = Some t) →
  (∀ r, count (child_of r) ts' ≤ count (child_of r) ts) → inv ts' (map_insert k j' js) ib bs cs.
Proof.
  intros H Hj Hwf He Hsorted Hsub Hroots Hcount. pose proof (has_key_replace js k j j' Hj) as Hk. destruct H. split; try done.
  - by apply fields_sorted_insert.
  - intros s t [Ht _]%Hsub. by eauto.
  - intros s t [Ht Hs]%Hsub. specialize (inv_session0 s t Ht). unfold session_ok in *.
    destruct (t_association t), (t_parent t); [done| | |].
    + by rewrite Hk.
    + destruct inv_session0 as (H1 & H2 & H3 & x & Hx & Hb). split; [done|]. split; [done|]. split; [done|].
      rewrite map_get_insert. destruct (String.eqb_spec (t_root t) k) as [E|]; [|by exists x].
      exists j'. split; [done|]. by rewrite He.
    + destruct inv_session0 as (H1 & H2 & (x & Hx & Hl) & Hb). split; [done|]. split; [done|]. split; [|done].
      rewrite map_get_insert, (proj2 (String.eqb_neq _ _)) by done. by exists x.
  - intros k' x. rewrite map_get_insert. destruct (String.eqb_spec k' k) as [->|]; [|by eauto]. by intros [= <-].
  - intros k' x. rewrite map_get_insert. destruct (String.eqb_spec k' k) as [->|Hne]; [intros [= <-]; by rewrite He|].
    intros Hx Hl. destruct (inv_root0 k' x Hx Hl) as (t & Ht & Hr). exists t. split; [|done]. by eapply Hroots.
  - intros r. specialize (Hcount r). specialize (inv_children0 r). lia.
  - intros k'. rewrite Hk. by eauto.
  - intros s t o [Ht _]%Hsub. by eauto.
Qed.

Lemma job_wf_ended k j j' : job_wf k j → j_id j' = j_id j → j_activities j' = j_activities j → j_wake j' = None →
  job_wf k j'.
Proof. intros (H1 & H2 & H3 & H4) Hid Ha Hw. split; [done|]. rewrite Hid, Ha, Hw. by split. Qed.

(** The ended job's budget goes too. *)
Lemma inv_remove_roots_budget ts js ib bs cs k j : inv ts js ib bs cs → map_get k js = Some j → ended j = true →
  inv ts js ib (map_remove k bs) cs.
Proof. intros H Hj He. apply inv_remove_budget; [done|]. intros s t _ _. by exists j. Qed.

(** A router's budget goes with it. *)
Lemma inv_remove_router ts js ib bs cs s t o : inv ts js ib bs cs → map_get s ts = Some t →
  t_association t = Some o → inv (map_remove s ts) js ib (map_remove s bs) cs.
Proof.
  intros H Ht Ho. pose proof (inv_session _ _ _ _ _ H _ _ Ht) as Hs. unfold session_ok in Hs. rewrite Ho in Hs.
  destruct (t_parent t); [done|]. destruct Hs as (_ & Es & _).
  assert (∀ j, map_get s js = Some j → False) as Hnj.
  { intros j Hj. destruct (inv_job _ _ _ _ _ H _ _ Hj) as [Hpl _]. rewrite Es in Hpl. by apply router_not_plain in Hpl. }
  apply inv_remove_budget.
  - apply inv_remove_task; [done|]. intros j Hj. by destruct (Hnj j).
  - intros s' u. rewrite map_get_remove by (apply fields_sorted_nodup, H).
    destruct (String.eqb_spec s' s) as [->|Hne]; [done|]. intros Hu Hr. exfalso.
    pose proof (inv_session _ _ _ _ _ H _ _ Hu) as Hs'. unfold session_ok in Hs'.
    destruct (t_association u), (t_parent u); [done| | |].
    + destruct Hs' as (E & _). congruence.
    + destruct Hs' as (_ & _ & _ & j & Hj & _). rewrite Hr in Hj. by eapply Hnj.
    + destruct Hs' as (E & _). congruence.
Qed.

(** *** The three kinds of session *)

Section kinds.
Context (e : Engine) (Hi : Inv e) (s : string) (t : Task) (Ht : map_get s (e_tasks e) = Some t).

Lemma root_facts : t_association t = None → t_parent t = None →
  t_root t = s ∧ t_depth t = 0%N ∧ (∃ j, map_get s (e_jobs e) = Some j ∧ ended j = false) ∧
  has_key s (e_budgets e) = true.
Proof.
  intros Ha Hp. pose proof (inv_session _ _ _ _ _ Hi _ _ Ht) as Hs. unfold session_ok in Hs. by rewrite Ha, Hp in Hs.
Qed.
Lemma not_job : ~ plain_id s → map_get s (e_jobs e) = None.
Proof.
  intros Hn. destruct (map_get s (e_jobs e)) as [j|] eqn:Hj; [|done].
  destruct (inv_job _ _ _ _ _ Hi _ _ Hj) as [Hpl _]. done.
Qed.
Lemma router_facts o : t_association t = Some o →
  t_parent t = None ∧ t_root t = s ∧ s = router_of o ∧ t_depth t = 0%N ∧ has_key o (e_inbox e) = true ∧
  has_key s (e_budgets e) = true ∧ has_key o (e_jobs e) = false ∧ map_get s (e_jobs e) = None.
Proof.
  intros Ha. pose proof (inv_session _ _ _ _ _ Hi _ _ Ht) as Hs. unfold session_ok in Hs. rewrite Ha in Hs.
  destruct (t_parent t); [done|]. destruct Hs as (H1 & H2 & H3 & H4 & H5 & H6). split_and!; try done.
  apply not_job. rewrite H2. apply router_not_plain.
Qed.
Lemma child_facts p : t_parent t = Some p →
  t_association t = None ∧ below (t_root t) s ∧ (1 ≤ t_depth t ≤ MAX_DEPTH)%N ∧ t_pending t = None ∧
  map_get s (e_jobs e) = None ∧
  ∃ j, map_get (t_root t) (e_jobs e) = Some j ∧ (ended j = false → has_key (t_root t) (e_budgets e) = true).
Proof.
  intros Hp. pose proof (inv_session _ _ _ _ _ Hi _ _ Ht) as Hs. unfold session_ok in Hs. rewrite Hp in Hs.
  destruct (t_association t); [done|]. destruct Hs as (H1 & H2 & H3 & H4). split_and!; try done; try lia.
  apply not_job. by eapply below_not_plain.
Qed.

(** The job of a session that is not a child is its own. *)
Lemma own_job j : t_parent t = None → map_get (t_root t) (e_jobs e) = Some j →
  t_association t = None ∧ t_root t = s ∧ ended j = false.
Proof.
  intros Hp Hj. destruct (t_association t) as [o|] eqn:Ha.
  - destruct (router_facts o Ha) as (_ & Er & _ & _ & _ & _ & _ & Hn). congruence.
  - destruct (root_facts Ha Hp) as (Er & _ & (j' & Hj' & He) & _). split_and!; [done|done|congruence].
Qed.
(** A session whose job has not ended has a budget. *)
Lemma session_budget : (∀ j, map_get (t_root t) (e_jobs e) = Some j → ended j = false) →
  has_key (t_root t) (e_budgets e) = true.
Proof.
  intros Hl. destruct (t_parent t) as [p|] eqn:Hp.
  - destruct (child_facts p Hp) as (_ & _ & _ & _ & _ & j & Hj & Hb). by apply Hb, Hl.
  - destruct (t_association t) as [o|] eqn:Ha; [by destruct (router_facts o Ha) as (_ & -> & _ & _ & _ & H & _)|].
    by destruct (root_facts Ha Hp) as (-> & _ & _ & H).
Qed.
End kinds.

Lemma live_root e k j t : Inv e → map_get k (e_jobs e) = Some j → ended j = false → map_get k (e_tasks e) = Some t →
  t_root t = k ∧ t_association t = None ∧ t_parent t = None.
Proof.
  intros Hi Hj He Ht. destruct (inv_root _ _ _ _ _ Hi _ _ Hj He) as (t' & Ht' & Ha & Hp).
  assert (t' = t) as -> by congruence. split_and!; [|done|done]. by destruct (root_facts e Hi k t Ht Ha Hp).
Qed.

Lemma kept_close_tools e s t reason : Inv e → map_get s (e_tasks e) = Some t →
  kept t (close_interrupted_tools reason t).
Proof.
  intros Hi Ht. destruct (kept_wf e s t Hi Ht) as [(Hc & Hm & Hpo) Hp].
  split; [by repeat split|]. split; [|done]. split_and!; [done| |done]. cbn. rewrite length_app. lia.
Qed.

(** After a suspension every job is there, ended or not as before. *)
Definition jobs_kept (e e' : Engine) : Prop :=
  ∀ k j, map_get k (e_jobs e) = Some j → ∃ j', map_get k (e_jobs e') = Some j' ∧ ended j' = ended j.

Lemma wp_sleep s status due cause e t : Inv e → map_get s (e_tasks e) = Some t → t_parent t = None →
  is_terminal status = false → wp (sleep s status due cause) (λ _ e', settled e e' ∧ jobs_kept e e') e.
Proof.
  intros Hi Ht Hp Hst. unfold sleep. rewrite wpe_bind, (wp_task_at _ _ _ _ Ht), wpe_bind, wpe_get.
  destruct (map_get (t_root t) (e_jobs e)) as [j|] eqn:Hj.
  2: { split; [by apply mild_settled|]. intros k j Hk. by exists j. }
  destruct (own_job e Hi s t Ht j Hp Hj) as (Ha & Er & He). rewrite Er in *. rewrite wpe_bind.
  destruct (inv_job _ _ _ _ _ Hi _ _ Hj) as (W1 & W2 & W3 & W4).
  eapply wp_job_mut; [done|done|by split_and!|by rewrite He|]. intros e1 Hi1 H1 Hj1 E1.
  destruct (String.eqb status "paused-budget").
  { rewrite wpe_ret. split; [by apply mild_settled|]. intros k x Hk. by apply (mild_job e e1). }
  rewrite wpe_bind. rewrite <- E1 in Ht. eapply wp_task_mut; [done|done|by eapply kept_close_tools|].
  intros e2 Hi2 H2 Ht2. rewrite wpe_bind, wpe_get, wpe_bind. unfold on_tasks at 1. rewrite wp_update.
  rewrite wpe_bind, wpe_get, wpe_bind. unfold on_queue. rewrite wp_update, wpe_bind.
  set (keep := λ (id : string) (t0 : Task), _). set (e3 := set_e_tasks (map_retain keep (e_tasks e2)) e2).
  assert (Inv e3) as Hi3.
  { apply inv_retain_tasks; [done|]. intros k x u Hx Hl Hu. unfold keep.
    destruct (live_root e2 k x u Hi2 Hx Hl Hu) as (-> & _). by destruct (String.eqb k s). }
  assert (map_get s (e_tasks e3) = map_get s (e_tasks e2)) as Es.
  { cbn. rewrite map_get_retain by apply Hi2. rewrite Ht2. unfold keep. by rewrite String.eqb_refl, orb_true_r. }
  set (e4 := set_e_queue _ e3). assert (Inv e4) as Hi4 by done.
  assert (settled e e4) as Hse.
  { split; [done|]. split; [cbn; rewrite (mild_scheduling _ _ H2); apply H1|].
    split; [cbn; rewrite (mild_errors _ _ H2); apply H1|].
    unfold e4. cbn. rewrite length_filter_le, (mild_queue _ _ H2). by rewrite (mild_queue _ _ H1). }
  assert (Ht4 : map_get s (e_tasks e4) = Some (close_interrupted_tools
     "cell interrupted by job suspension; reconcile effects before retrying" t)) by (by rewrite <- Ht2, <- Es).
  eapply wp_task_mut; [done|exact Ht4| |].
  { destruct (kept_wf e4 s _ Hi4 Ht4) as [(Hc & Hm & Hpo) Hpe]. split; [by repeat split|]. split; [|done].
    by split_and!. }
  intros e5 Hi5 H5 Ht5. rewrite wpe_ret. split.
  - eapply settled_trans; [done|]. by apply mild_settled.
  - intros k x Hk. destruct (mild_job _ _ _ _ H1 Hk) as (x1 & Hk1 & E).
    destruct (mild_job _ _ _ _ H2 Hk1) as (x2 & Hk2 & E'). destruct (mild_job e4 e5 k x2 H5 Hk2) as (x3 & Hk3 & E'').
    exists x3. split; [done|]. congruence.
Qed.

Lemma wp_close_root s r cause replies e t : Inv e → map_get s (e_tasks e) = Some t → t_parent t = None →
  wp (close_root s r cause replies) (λ _ e', settled e e') e.
Proof.
  intros Hi Ht Hp. unfold close_root. rewrite wpe_bind. unfold job_if, on_jobs. rewrite wp_update. unfold map_update.
  assert (∀ b : bool, is_terminal (if b then "completed" else "failed") = true) as Hst by (by intros []).
  destruct (map_get s (e_jobs e)) as [j|] eqn:Hj.
  - destruct (t_association t) as [o|] eqn:Ha.
    { destruct (router_facts e Hi s t Ht o Ha) as (_ & _ & _ & _ & _ & _ & _ & Hn). congruence. }
    destruct (root_facts e Hi s t Ht Ha Hp) as (Er & _ & _ & _).
    rewrite wpe_bind, wpe_get. cbn. rewrite Ht, wpe_bind. unfold on_tasks. rewrite wp_update, wpe_bind.
    unfold on_budgets. rewrite wp_update, wpe_ret. cbn. rewrite Er.
    set (j' := set_j_outstanding_question _ _).
    split_and!; [|done|done|done]. eapply inv_remove_roots_budget.
    + eapply (inv_end_job (e_tasks e)); [done|done| |apply Hst|..].
      * eapply job_wf_ended; [by eapply inv_job|done..].
      * apply fields_sorted_remove, Hi.
      * intros s' u. cbn. rewrite map_get_remove by (apply fields_sorted_nodup, Hi).
        by destruct (String.eqb_spec s' s).
      * intros k' x u Hne _ _ Hu. cbn. rewrite map_get_remove by (apply fields_sorted_nodup, Hi).
        by rewrite (proj2 (String.eqb_neq _ _)).
      * intros r'. cbn. apply count_remove.
    + cbn. rewrite map_get_insert, String.eqb_refl. done.
    + apply Hst.
  - rewrite wpe_bind, wpe_get. cbn. rewrite Ht, wpe_bind. unfold on_tasks. rewrite wp_update, wpe_bind.
    unfold on_budgets. rewrite wp_update, wpe_ret. cbn.
    destruct (t_association t) as [o|] eqn:Ha.
    + destruct (router_facts e Hi s t Ht o Ha) as (_ & -> & _).
      split_and!; [|done|done|done]. by eapply inv_remove_router.
    + destruct (root_facts e Hi s t Ht Ha Hp) as (_ & _ & (x & Hx & _) & _). congruence.
Qed.

(** What a decision that suspends a root must say. *)
Definition decision_ok (t : Task) (v : Value) : Prop :=
  is_str v.["action"] "wait" = true →
  t_association t = None ∧ (is_str v.["waitFor"] "input" = false → is_Some (as_i64 v.["dueAtMs"])).

Lemma note_decision_kept v : job_kept (note_decision v).
Proof.
  intros k j (H1 & H2 & H3 & H4). unfold note_decision.
  repeat match goal with |- context [value_get v ?f] => destruct (value_get v f) end; done.
Qed.

Lemma wp_finish_root s r cause e t : Inv e → map_get s (e_tasks e) = Some t → t_parent t = None →
  (∀ v, r = Ok v → decision_ok t v) → wp (finish_root s r cause) (λ _ e', settled e e') e.
Proof.
  intros Hi Ht Hp Hd. unfold finish_root. destruct r as [v|err]; [|by eapply wp_close_root].
  specialize (Hd v eq_refl). rewrite wpe_bind, (wp_task_at _ _ _ _ Ht), wpe_bind.
  eapply wp_job_if; [done| |].
  { intros j Hj Hw. destruct (reply_text v); [|by apply note_decision_kept].
    apply (note_decision_kept v s (set_j_recent_reply _ j)). done. }
  intros e1 Hi1 H1 E1. rewrite <- E1 in Ht. destruct (is_str v.["action"] "wait") eqn:Ew.
  2: { eapply wpe_mono; [by eapply wp_close_root|]. intros out e2 H2. eapply settled_trans; [|exact H2]. by apply mild_settled. }
  destruct (Hd Ew) as [Ha Hdue]. destruct (root_facts e1 Hi1 s t Ht Ha Hp) as (Er & _ & (j & Hj & He) & _).
  destruct (is_str v.["waitFor"] "input").
  - rewrite wpe_bind. destruct (inv_job _ _ _ _ _ Hi1 _ _ Hj) as (W1 & W2 & W3 & W4).
    eapply wp_job_mut; [done|done|by split_and!|by rewrite He|]. intros e2 Hi2 H2 _ _. rewrite wpe_ret.
    apply mild_settled; [done|by etrans].
  - rewrite wpe_bind, wp_unwrap. destruct (Hdue eq_refl) as [due Hv]. exists due. split; [done|]. rewrite wpe_bind.
    eapply wpe_mono; [by eapply wp_sleep|]. intros out e2 [H2 _]. rewrite wpe_ret.
    eapply settled_trans; [|exact H2]. by apply mild_settled.
Qed.

Lemma wpe_finish s r cause e : Inv e → wp (finish s r cause) (λ _ e', settled e e') e.
Proof.
  intros Hi. unfold finish. rewrite wpe_bind, wpe_get. destruct (map_get s (e_tasks e)) as [t|] eqn:Ht.
  2: { by apply mild_settled. }
  destruct (t_association t) as [o|] eqn:Ha.
  - destruct (router_facts e Hi s t Ht o Ha) as (_ & _ & _ & _ & Ho & _). apply has_key_true in Ho as [ob Ho].
    rewrite wpe_bind. unfold on_tasks. rewrite wp_update, wpe_bind. unfold on_budgets. rewrite wp_update, wpe_bind.
    set (e1 := set_e_budgets _ _). assert (Inv e1) as Hi1 by (by eapply inv_remove_router).
    eapply (wp_observation_mut _ _ _ _ ob); [done|done| |].
    { by destruct (inv_inbox _ _ _ _ _ Hi _ _ Ho). }
    intros e2 Hi2 H2 _ _ _. rewrite wpe_ret. eapply (settled_trans _ e1); [by split_and!|by apply mild_settled].
  - destruct (t_parent t) as [[parent id]|] eqn:Hp.
    + destruct (child_facts e Hi s t Ht _ Hp) as (_ & _ & _ & _ & Hn & _).
      rewrite wpe_bind. unfold on_tasks. rewrite wp_update, wpe_ret. split_and!; [|done|done|done].
      apply inv_remove_task; [done|]. intros j Hj. cbn in Hj. congruence.
    + by eapply wp_finish_root.
Qed.
End working.
