(* ===== verification/CognitionTurn.v ===== *)
(** Requests of the reasoning plugin's engine keep the invariant and never
    panic: the preparation of a turn, its admission, compaction, and the
    scheduler's request of one session. *)
From stdpp Require Import base tactics option list strings sorting relations.
From Stdlib Require Import ZArith NArith Lia Ascii.
From S2P Require Import Prelude Event Utf8 Json CognitionText Compaction CognitionData CognitionBase Cognition CognitionSpec.

(** After a step that may also put sessions on the queue. *)
Definition fine {WS : WorkingSet} (e e' : Engine) : Prop :=
  Inv e' ∧ e_scheduling e' = e_scheduling e ∧ e_resource_errors e' = e_resource_errors e.
Lemma settled_fine {WS : WorkingSet} e e' : settled e e' → fine e e'.
Proof. by intros (?&?&?&_). Qed.
Lemma mild_fine {WS : WorkingSet} e e' : Inv e' → mild e e' → fine e e'.
Proof. intros Hi H. by apply settled_fine, mild_settled. Qed.
Lemma fine_trans {WS : WorkingSet} e1 e2 e3 : fine e1 e2 → fine e2 e3 → fine e1 e3.
Proof. intros (?&?&?) (?&?&?). split_and!; [done|congruence..]. Qed.
Create HintDb cognition.
#[export] Hint Resolve settled_fine mild_fine : cognition.

(** Joins the last small change with those before it. *)
Ltac merge :=
  match goal with
  | H1 : mild ?a ?b, H2 : mild ?b ?c |- _ =>
      let H := fresh "Hm" in assert (mild a c) as H by (etrans; [exact H1|exact H2]); clear H1 H2
  end.

Lemma wp_then_mild {WS : WorkingSet} {A} (m : Eng A) e e1 :
  mild e e1 → wp m (λ _ e', settled e1 e') e1 → wp m (λ _ e', settled e e') e1.
Proof.
  intros H1 Hm. eapply wpe_mono; [exact Hm|]. intros a e' H. destruct H as (?&?&?&?). split_and!; [done|..].
  - rewrite <- (mild_scheduling _ _ H1). done.
  - rewrite <- (mild_errors _ _ H1). done.
  - rewrite <- (mild_queue _ _ H1). done.
Qed.

(** ** Values *)

Lemma value_set_object v key x : is_object v = true → is_object (value_set v key x) = true.
Proof. by destruct v. Qed.
Lemma value_index_set v key x : payload_ok v → (value_set v key x).[key] = x.
Proof.
  intros [->|H]; unfold value_index.
  - simpl. by rewrite String.eqb_refl.
  - destruct v as [| | | | |m]; try done. simpl. by rewrite map_get_insert, String.eqb_refl.
Qed.
Lemma index_set_some key x v : payload_ok v → index_set key x v = Some (value_set v key x).
Proof. intros [->|H]; [done|]. by destruct v. Qed.
Lemma indexed_object v k s : is_str v.[k] s = true → is_object v = true.
Proof. unfold is_str, value_index. by destruct v. Qed.

Section turn.
Context {SJ : SerdeJson} {CL : CognitionLibs} {WS : WorkingSet}.

(** The envelope of a turn is an object. *)
Definition envelope_ok (s : Value * N) : Prop := is_object s.1 = true.
Lemma put_ok key v p s : envelope_ok s → envelope_ok (put key v p s).
Proof. destruct s as [envelope n]. unfold put, envelope_ok. simpl. case_match; apply value_set_object. Qed.
Lemma put_field_ok c key s : envelope_ok s → envelope_ok (put_field c key s).
Proof. unfold put_field. destruct (value_get c key); [apply put_ok|done]. Qed.
Lemma put_summary_ok c s : envelope_ok s → envelope_ok (put_summary c s).
Proof. unfold put_summary. case_match; [apply put_field_ok|done]. Qed.
Lemma turn_context_object t now : is_object (turn_context t now) = true.
Proof.
  unfold turn_context, put_routing, put_child, put_root. change (is_object ?s.1 = true) with (envelope_ok s).
  repeat case_match; cbn [foldl]; repeat (apply put_ok || apply put_field_ok || apply put_summary_ok); done.
Qed.

(** *** Preparing a turn *)

Lemma wp_refresh_routing s e t : Inv e → map_get s (e_tasks e) = Some t →
  wp (refresh_routing s) (λ _ e', Inv e' ∧ mild e e') e.
Proof.
  intros Hi Ht. unfold refresh_routing. rewrite wpe_bind, (wp_task_at _ _ _ _ Ht).
  destruct (t_association t) as [o|] eqn:Ha; [|done].
  destruct (router_facts e Hi s t Ht o Ha) as (_ & _ & _ & _ & [ob Ho]%has_key_true & _).
  rewrite wpe_bind, (wp_observation_at _ _ _ _ Ho), wpe_bind, wpe_get, wpe_bind.
  eapply wp_context_set; [done|done|]. intros e1 Hi1 H1 Ht1. rewrite wpe_bind, (wp_task_at _ _ _ _ Ht1).
  case_match eqn:Hk; [|done]. apply indexed_object in Hk. rewrite wpe_bind, wp_unwrap.
  rewrite index_set_some by (by right). eexists. split; [done|].
  eapply wp_context_set; [done|done|]. intros e2 Hi2 H2 Ht2. split; [done|]. by etrans.
Qed.

(** What a prepared turn is: the same session, with an envelope. *)
Definition prepared (s : string) (t : Task) (e e' : Engine) : Prop :=
  Inv e' ∧ mild e e' ∧ ∃ t', map_get s (e_tasks e') = Some t' ∧ frame t t' ∧ is_object (t_context t').["turn"] = true.

(** A write to the context that may be skipped. *)
Lemma wp_context_if (b : bool) s key v Q e t : Inv e → map_get s (e_tasks e) = Some t →
  (∀ e' t', Inv e' → mild e e' → map_get s (e_tasks e') = Some t' → frame t t' → Q tt e') →
  wp (if b then context_set s key v else en_ret tt) Q e.
Proof.
  intros Hi Ht HQ. destruct b; [|by eapply HQ].
  eapply wp_context_set; [done|done|]. intros e1 Hi1 H1 Ht1. by eapply HQ.
Qed.

Context (config : CognitionConfig).

Lemma wp_job_running s t root Q e0 e : Inv e → Inv e0 → mild e0 e → map_get s (e_tasks e) = Some t →
  (∀ j, map_get root (e_jobs e0) = Some j → ended j = false) →
  (∀ e' t', Inv e' → mild e e' → map_get s (e_tasks e') = Some t' → frame t t' → Q tt e') →
  wp (match map_get root (e_jobs e0) with
      | Some j =>
          en_bind (on_jobs (map_insert root (set_j_status "running" j)))
            (λ _, context_set s "job" (job_to_value (set_j_status "running" j)))
      | None => en_ret tt
      end) Q e.
Proof.
  intros Hi Hi0 Hm Ht Hl HQ. destruct (map_get root (e_jobs e0)) as [j|] eqn:Hj; [|by eapply HQ].
  destruct (mild_job _ _ _ _ Hm Hj) as (j' & Hj' & E). specialize (Hl j eq_refl).
  destruct (inv_job _ _ _ _ _ Hi0 _ _ Hj) as (W1 & W2 & W3 & W4).
  rewrite wpe_bind. unfold on_jobs. rewrite wp_update.
  destruct (touch_job e root j' (set_j_status "running" j)) as (Hi1 & H1 & Hj1); [done|done|by split_and!|by rewrite E|].
  eapply wp_context_set; [done|done|]. intros e2 Hi2 H2 Ht2.
  eapply HQ; [done|by etrans|done|by repeat split].
Qed.

Lemma wp_prepare_turn s e t : Inv e → map_get s (e_tasks e) = Some t →
  (∀ j, map_get (t_root t) (e_jobs e) = Some j → ended j = false) →
  wp (prepare_turn config s) (λ _ e', prepared s t e e') e.
Proof.
  intros Hi Ht Hl. unfold prepare_turn. rewrite wpe_bind, (wp_task_at _ _ _ _ Ht), wpe_bind, wpe_get.
  set (root := negb _ && negb _). rewrite wpe_bind. eapply wp_context_if; [done|done|]. intros e1 t1 Hi1 H1 Ht1 F1.
  rewrite wpe_bind. eapply wp_message_set; [done|done|lia|]. intros e2 Hi2 H2 Ht2. merge.
  rewrite wpe_bind. eapply wp_task_mut; [done|done|plain_kept|]. intros e3 Hi3 H3 Ht3. merge.
  rewrite wpe_bind. eapply (wp_job_running _ _ _ _ e); [done|done|done|done|done|]. intros e4 t4 Hi4 H4 Ht4 F4. merge.
  rewrite wpe_bind. eapply wp_context_if; [done|done|]. intros e5 t5 Hi5 H5 Ht5 F5. merge.
  rewrite wpe_bind. eapply wp_context_set; [done|done|]. intros e6 Hi6 H6 Ht6. merge.
  rewrite wpe_bind, (wp_task_at _ _ _ _ Ht6), wpe_bind. eapply wp_context_set; [done|done|].
  intros e7 Hi7 H7 Ht7. merge. rewrite wpe_bind, (wp_task_at _ _ _ _ Ht7), wpe_bind.
  eapply wp_message_set; [done|done|lia|]. intros e8 Hi8 H8 Ht8. merge. rewrite wpe_ret.
  split; [done|]. split; [done|]. eexists. split; [exact Ht8|]. split.
  - assert (frame t t5) as F by (etrans; [exact F1|]; etrans; [|exact F5]; etrans; [|exact F4]; by repeat split).
    etrans; [exact F|]. by repeat split.
  - cbn. rewrite value_index_set; [apply turn_context_object|]. right. apply value_set_object.
    by destruct (inv_wf _ _ _ _ _ Hi5 _ _ Ht5).
Qed.

(** *** Ending a session that makes no progress *)

Lemma wp_stalled s reason cause e t : Inv e → map_get s (e_tasks e) = Some t →
  wp (stalled s reason cause) (λ _ e', settled e e') e.
Proof.
  intros Hi Ht. unfold stalled. rewrite wpe_bind, (wp_task_at _ _ _ _ Ht).
  destruct (t_parent t) eqn:Hp; cbn [opt_is_some]; [by apply wpe_finish|].
  eapply wp_finish_root; [done..|]. intros v [= <-]. by vm_compute.
Qed.

Lemma wp_resource_budget_exhausted s cause e t : Inv e → map_get s (e_tasks e) = Some t →
  wp (resource_budget_exhausted s cause) (λ _ e', settled e e') e.
Proof.
  intros Hi Ht. unfold resource_budget_exhausted. rewrite wpe_bind, (wp_task_at _ _ _ _ Ht).
  destruct (t_parent t) eqn:Hp; cbn [opt_is_some orb]; [by apply wpe_finish|].
  destruct (t_association t); cbn [opt_is_some]; [by apply wpe_finish|].
  eapply wp_finish_root; [done..|]. intros v [= <-]. by vm_compute.
Qed.

(** *** Sending a request *)

(** The one call in flight. *)
Lemma inv_first_call e call s : Inv e → e_calls e = [] → Inv (set_e_calls (map_insert call s (e_calls e)) e).
Proof.
  intros Hi Hc. apply (inv_set_calls _ _ _ _ _ Hi); cbn; by rewrite Hc.
Qed.

Lemma wp_compaction_request s call cause e t : Inv e → map_get s (e_tasks e) = Some t → e_calls e = [] →
  is_object (t_context t).["turn"] = true →
  wp (compaction_request config s call cause) (λ _ e', settled e e') e.
Proof.
  intros Hi Ht Hc Hturn. unfold compaction_request. rewrite wpe_bind, (wp_task_at _ _ _ _ Ht).
  destruct (bounded_messages _); [|by apply wpe_finish]. rewrite wpe_bind.
  assert (∀ Q, (∀ turn, Q turn e) → wp (match value_get (t_context t) "compactionError" with
     | Some error => en_unwrap (index_set "compactionError" error (t_context t).["turn"])
     | None => en_ret (t_context t).["turn"] end) Q e) as Hw.
  { intros Q HQ. case_match; [|apply HQ]. rewrite wp_unwrap, index_set_some by (by right). eauto. }
  apply Hw. clear Hw. intros turn. case_match; [by apply wpe_finish|]. case_match; [by apply wpe_finish|].
  case_match; [by apply wpe_finish|]. rewrite wpe_bind. eapply wp_task_mut; [done|done|plain_kept|].
  intros e1 Hi1 Hmi _. rewrite wpe_bind. unfold on_calls. rewrite wp_update, wpe_ret.
  apply (settled_trans _ e1); [by apply mild_settled|]. split_and!; [|done|done|done].
  apply inv_first_call; [done|]. by rewrite (mild_calls _ _ Hmi).
Qed.

Context (Hfits : budget_fits (cfg_budget config)).

Lemma wp_send_turn s call cause vision e t : Inv e → map_get s (e_tasks e) = Some t → e_calls e = [] →
  is_object (t_context t).["turn"] = true →
  wp (send_turn config s call cause vision) (λ _ e', settled e e') e.
Proof.
  intros Hi Ht Hc Hturn. unfold send_turn. rewrite wpe_bind, (wp_task_at _ _ _ _ Ht).
  case_match; [by apply wpe_finish|]. rewrite wpe_bind, wp_unwrap.
  destruct (admission_total (encoded_size (Array (t_messages t))) _ Hfits) as [adm ->]. eexists. split; [done|].
  case_bool_decide; [by eapply wp_compaction_request|]. case_match.
  { destruct (t_parent t) eqn:Hp; [by apply wpe_finish|]. destruct (t_association t); [by apply wpe_finish|].
    eapply wp_finish_root; [done..|]. intros v [= <-]. by vm_compute. }
  case_match; [by apply wpe_finish|]. rewrite wpe_bind, wp_unwrap.
  match goal with |- context [admission ?n _] => destruct (admission_total n _ Hfits) as [adm' ->] end.
  eexists. split; [done|]. destruct adm'; [|by eapply wp_compaction_request|by apply wpe_finish].
  rewrite wpe_bind. unfold on_calls. rewrite wp_update, wpe_ret. split_and!; [|done|done|done].
  by apply inv_first_call.
Qed.

Lemma wp_admit_turn s cause e t : Inv e → map_get s (e_tasks e) = Some t → e_calls e = [] →
  (∀ j, map_get (t_root t) (e_jobs e) = Some j → ended j = false) →
  wp (admit_turn config s t cause) (λ _ e', settled e e') e.
Proof.
  intros Hi Ht Hc Hl. unfold admit_turn. rewrite wpe_bind, wpe_get.
  assert (t_parent t = None → ∀ due, wp (sleep s "paused-budget" due cause) (λ _ e', settled e e') e) as Hpause.
  { intros Hp due. eapply wpe_mono; [by eapply wp_sleep|]. by intros a e' [H _]. }
  case_match; [destruct (t_parent t) eqn:Hp; [by apply wpe_finish|by apply Hpause]|].
  pose proof (session_budget e Hi s t Ht Hl) as [used Hu]%has_key_true.
  rewrite wpe_bind, wp_unwrap. exists used. split; [done|].
  destruct (N.leb_spec MODEL_BUDGET used); [destruct (t_parent t) eqn:Hp; [by apply wpe_finish|by apply Hpause]|].
  rewrite wpe_bind. unfold on_budgets. rewrite wp_update, wpe_bind. unfold on_queue. rewrite wp_update, wpe_bind.
  set (e1 := set_e_queue _ _). assert (Inv e1) as Hi1 by (apply inv_set_budget; [done|lia]).
  assert (settled e e1) as H1 by (split_and!; [done|done|done|apply length_filter_le]).
  eapply wpe_mono; [by eapply wp_prepare_turn|]. intros vision e2 (Hi2 & H2 & t2 & Ht2 & F2 & Hturn).
  eapply wpe_mono; [eapply wp_send_turn; [done|done|by rewrite (mild_calls _ _ H2)|done]|].
  intros out e3 H3. eapply settled_trans; [exact H1|]. eapply settled_trans; [|exact H3]. by apply mild_settled.
Qed.

(** [Engine::request]: it never panics, and while the scheduler runs and no
    call is in flight the queue does not grow. *)
Lemma wp_request s cause e t : Inv e → map_get s (e_tasks e) = Some t →
  wp (request config s cause) (λ _ e', fine e e' ∧
    (e_scheduling e = true → e_calls e = [] → length (e_queue e') ≤ length (e_queue e))) e.
Proof.
  intros Hi0 Ht0. unfold request. rewrite wpe_bind. eapply wpe_mono; [by eapply wp_refresh_routing|].
  intros _ e1 [Hi H1]. destruct (mild_task _ _ _ _ H1 Ht0) as (t1 & Ht & F).
  assert (∀ e', settled e1 e' → fine e e' ∧
    (e_scheduling e = true → e_calls e = [] → length (e_queue e') ≤ length (e_queue e))) as Hset.
  { intros e' He. assert (settled e e') as (?&?&?&?); [|by split].
    eapply settled_trans; [|exact He]. by apply mild_settled. }
  rewrite wpe_bind, (wp_task_at _ _ _ _ Ht), wpe_bind, wpe_get.
  destruct (is_some_and _ _) eqn:Hpaused; [by apply Hset, mild_settled|].
  case_match; [eapply wpe_mono; [by apply wpe_finish|]; by eauto|].
  case_match; [by apply Hset, mild_settled|].
  destruct (negb (e_scheduling e1) || negb (bool_decide (e_calls e1 = []))) eqn:Hbusy.
  { assert (∀ e', fine e1 e' → fine e e' ∧
      (e_scheduling e = true → e_calls e = [] → length (e_queue e') ≤ length (e_queue e))) as Hb.
    { intros e' He. split; [eapply fine_trans; [|exact He]; by apply mild_fine|].
      rewrite (mild_scheduling _ _ H1), (mild_calls _ _ H1) in Hbusy. intros Hs Hc. rewrite Hs, Hc in Hbusy. done. }
    case_match; [by apply Hb, mild_fine|]. rewrite wpe_bind. unfold on_queue. rewrite wp_update, wpe_ret. by apply Hb. }
  apply orb_false_iff in Hbusy as [_ Hc%negb_false_iff%bool_decide_eq_true].
  eapply wpe_mono; [eapply wp_admit_turn; [done..|]|by eauto].
  intros j Hj. rewrite Hj in Hpaused. simpl in Hpaused. unfold ended.
  unfold is_terminal. revert Hpaused. unfold PAUSED_STATUSES, str_mem. simpl.
  destruct (String.eqb _ "completed"), (String.eqb _ "failed"), (String.eqb _ "cancelled"); simpl;
    rewrite ?orb_true_r; done.
Qed.
End turn.
