(* ===== verification/CognitionEvents.v ===== *)
(** The handlers of the reasoning plugin's engine keep the invariant and never
    panic: observations, model results, cells, capabilities, timers, recovery
    and the operator's decisions. *)
From stdpp Require Import base tactics option list strings sorting relations.
From Stdlib Require Import ZArith NArith Lia Ascii.
From S2P Require Import Prelude Event Utf8 Json CognitionText Compaction CognitionData CognitionBase Cognition CognitionSpec CognitionTurn.

(** Splits on what the step branches on. *)
Ltac branch := match goal with |- wp (match ?x with _ => _ end) _ _ => destruct x eqn:? end.

(** ** Changes to every entry *)

Lemma count_pointwise {V} (p : V → bool) (m m' : list (string * V)) : m'.*1 = m.*1 → NoDup m.*1 →
  (∀ k v v', map_get k m = Some v → map_get k m' = Some v' → p v' = p v) → count p m' = count p m.
Proof.
  revert m'. induction m as [|[a x] m IH]; intros [|[b y] m']; csimpl; [done..|]. intros [= -> E] Hnd Hp.
  apply NoDup_cons in Hnd as [Ha Hnd]. unfold count. simpl.
  assert (p y = p x) as -> by (apply (Hp a); simpl; by rewrite String.eqb_refl).
  assert (count p m' = count p m) as Hc.
  { apply IH; [done|done|]. intros k v v' Hk Hk'. apply (Hp k); simpl.
    - destruct (String.eqb_spec k a) as [->|]; [|done]. destruct Ha. apply list_elem_of_fmap.
      exists (a, v). split; [done|]. by apply map_get_elem.
    - destruct (String.eqb_spec k a) as [->|]; [|done]. destruct Ha. apply list_elem_of_fmap.
      exists (a, v). split; [done|]. by apply map_get_elem. }
  unfold count in Hc. destruct (p x); simpl; by rewrite Hc.
Qed.

Lemma inv_all_tasks {WS : WorkingSet} ts ts' js ib bs cs : inv ts js ib bs cs → ts'.*1 = ts.*1 →
  (∀ s, option_Forall2 kept (map_get s ts) (map_get s ts')) → inv ts' js ib bs cs.
Proof.
  intros H Hk Hp.
  assert (∀ s t', map_get s ts' = Some t' → ∃ t, map_get s ts = Some t ∧ kept t t') as Hback.
  { intros s t' Ht. specialize (Hp s). rewrite Ht in Hp. inversion Hp; naive_solver. }
  destruct H. split; try done.
  - by rewrite (fields_sorted_ext ts).
  - intros s t' (t & _ & _ & Hw & _)%Hback. done.
  - intros s t' (t & Ht & Hf & _ & Hpe)%Hback. by eapply session_ok_frame; [apply inv_session|..].
  - intros k j Hj He. destruct (inv_root k j Hj He) as (t & Ht & Ha & Hpa). specialize (Hp k).
    rewrite Ht in Hp. inversion Hp as [? t' Hkt Eq1 Eq2|]; subst. exists t'. destruct Hkt as ((Ea & Ep & _) & _).
    by rewrite Ea, Ep.
  - intros r. rewrite (count_pointwise (child_of r) ts ts'); [done|done|by apply fields_sorted_nodup|].
    intros s t t' Ht Ht'. specialize (Hp s). rewrite Ht, Ht' in Hp. inversion_clear Hp as [? ? ((_ & E & Er & _) & _)|].
    unfold child_of, is_child. by rewrite E, Er.
  - intros s t' o (t & Ht & (Ea & _) & _)%Hback Ho. rewrite Ea in Ho. by eauto.
Qed.

Lemma inv_all_jobs {WS : WorkingSet} ts js js' ib bs cs : inv ts js ib bs cs → js'.*1 = js.*1 →
  (∀ k, option_Forall2 (λ j j', job_wf k j' ∧ ended j' = ended j) (map_get k js) (map_get k js')) →
  inv ts js' ib bs cs.
Proof.
  intros H Hk Hp.
  assert (∀ k j', map_get k js' = Some j' → ∃ j, map_get k js = Some j ∧ job_wf k j' ∧ ended j' = ended j) as Hback.
  { intros k j' Hj. specialize (Hp k). rewrite Hj in Hp. inversion Hp; naive_solver. }
  assert (∀ k j, map_get k js = Some j → ∃ j', map_get k js' = Some j' ∧ ended j' = ended j) as Hforth.
  { intros k j Hj. specialize (Hp k). rewrite Hj in Hp. inversion Hp; naive_solver. }
  assert (∀ k, has_key k js' = has_key k js) as Hkey.
  { intros k. unfold has_key. specialize (Hp k). by inversion Hp. }
  destruct H. split; try done.
  - by rewrite (fields_sorted_ext js).
  - intros s t Ht. eapply session_ok_mono; [by apply inv_session| |done..]. intros k. by rewrite Hkey.
  - intros k j' (j & _ & Hw & _)%Hback. done.
  - intros k j' (j & Hj & _ & E)%Hback He. eapply inv_root; [done|congruence].
  - intros k. rewrite Hkey. by eauto.
Qed.

Lemma wp_tasks_each {WS : WorkingSet} f Q e js ib bs cs : inv (e_tasks e) js ib bs cs →
  (∀ s t, map_get s (e_tasks e) = Some t → task_wf t → (is_child t = true → t_pending t = None) →
     ∃ t' out, f s t = Some (t', out) ∧ kept t t') →
  (∀ out ts', inv ts' js ib bs cs → mild e (set_e_tasks ts' e) → Q out (set_e_tasks ts' e)) → wp (tasks_each f) Q e.
Proof.
  intros Hi Hf' HQ.
  assert (∀ s t, map_get s (e_tasks e) = Some t → ∃ t' out, f s t = Some (t', out) ∧ kept t t') as Hf.
  { intros s t Ht. apply Hf'; [done|by eapply inv_wf|by eapply inv_pending]. }
  unfold tasks_each. rewrite wpe_bind, wpe_get, wpe_bind, wp_unwrap.
  destruct (map_each_spec f (e_tasks e)) as (ts' & out & -> & Hk & Hget).
  { intros s t Ht. destruct (Hf s t Ht) as (t' & o & -> & _). done. }
  { apply Hi. }
  exists (ts', out). split; [done|]. rewrite wpe_bind. unfold on_tasks. rewrite wp_update, wpe_ret.
  assert (∀ s, option_Forall2 kept (map_get s (e_tasks e)) (map_get s ts')) as Hp.
  { intros s. rewrite Hget. destruct (map_get s (e_tasks e)) as [t|] eqn:Ht; [|constructor].
    destruct (Hf s t Ht) as (t' & o & E & Hkt). simpl. rewrite E. by constructor. }
  apply HQ; [by eapply inv_all_tasks|]. split; try done.
  intros s. specialize (Hp s). cbn. inversion Hp as [? ? Hkt|]; constructor. apply Hkt.
Qed.

(** ** Ending a job with all its sessions *)

Lemma inv_live_root {WS : WorkingSet} ts js ib bs cs k j t : inv ts js ib bs cs → map_get k js = Some j → ended j = false →
  map_get k ts = Some t → t_root t = k.
Proof.
  intros H Hj He Ht. destruct (inv_root _ _ _ _ _ H _ _ Hj He) as (t' & Ht' & Ha & Hp).
  assert (t' = t) as -> by congruence. pose proof (inv_session _ _ _ _ _ H _ _ Ht) as Hs. unfold session_ok in Hs.
  rewrite Ha, Hp in Hs. by destruct Hs.
Qed.

Lemma inv_cancel_job {WS : WorkingSet} ts js ib bs cs k j j' p : inv ts js ib bs cs → map_get k js = Some j → ended j = false →
  job_wf k j' → ended j' = true → (∀ s t, p s t = negb (String.eqb (t_root t) k)) →
  inv (map_retain p ts) (map_insert k j' js) ib bs cs.
Proof.
  intros H Hj He Hw He' Hp. pose proof (inv_tasks_sorted _ _ _ _ _ H) as Hsorted.
  eapply inv_end_job; [done|done|done|done|by apply fields_sorted_retain|..|intros; apply count_retain].
  - intros s t. rewrite map_get_retain by done. destruct (map_get s ts) as [u|] eqn:Hu; [|done]. rewrite Hp.
    destruct (String.eqb_spec (t_root u) k) as [|Hne]; [done|]. intros [= <-]. split; [done|]. intros ->.
    by rewrite (inv_live_root _ _ _ _ _ _ _ _ H Hj He Hu) in Hne.
  - intros k' x t Hne Hx Hl Ht. rewrite map_get_retain, Ht, Hp by done.
    by rewrite (inv_live_root _ _ _ _ _ _ _ _ H Hx Hl Ht), (proj2 (String.eqb_neq _ _)).
Qed.

(** Only the root of a job is kept. *)
Lemma inv_keep_root {WS : WorkingSet} ts js ib bs cs k p : inv ts js ib bs cs →
  (∀ s t, p s t = negb (String.eqb (t_root t) k) || String.eqb s k) → inv (map_retain p ts) js ib bs cs.
Proof.
  intros H Hp. apply inv_retain_tasks; [done|]. intros k' j t Hj He Ht. rewrite Hp.
  rewrite (inv_live_root _ _ _ _ _ _ _ _ H Hj He Ht). by destruct (String.eqb k' k).
Qed.

(** ** New sessions *)

(** What [start] makes. *)
Definition fresh (t : Task) (root : string) (parent : option (string * Value)) (depth : N) : Prop :=
  task_wf t ∧ t_association t = None ∧ t_parent t = parent ∧ t_root t = root ∧ t_depth t = depth ∧
  t_pending t = None.

Section inv_new.
Context {WS : WorkingSet}.
Context (ts : list (string * Task)) (js : list (string * Job)) (ib : list (string * Observation))
  (bs : list (string * N)) (cs : list (string * string)).
Context (H : inv ts js ib bs cs).

(** A session at the key of a job is no child. *)
Lemma plain_session s t : map_get s ts = Some t → plain_id s → t_association t = None ∧ t_parent t = None.
Proof.
  intros Ht Hs. pose proof (inv_session _ _ _ _ _ H _ _ Ht) as Ho. unfold session_ok in Ho.
  destruct (t_association t), (t_parent t); [done| | |done].
  - destruct Ho as (_ & -> & _). by apply router_not_plain in Hs.
  - destruct Ho as (Hb & _). by apply below_not_plain in Hb.
Qed.
Lemma plain_not_child s : plain_id s → ~ ∃ t, map_get s ts = Some t ∧ is_child t = true.
Proof. intros Hs (t & Ht & Hc). apply plain_session in Ht as [_ E]; [|done]. unfold is_child in Hc. by rewrite E in Hc. Qed.

Lemma inv_new_root k t j : job_wf k j → ended j = false → may_enter k → map_get (router_of k) ts = None →
  has_key k bs = true → fresh t k None 0 → inv (map_insert k t ts) (map_insert k j js) ib bs cs.
Proof.
  intros Hw He Hk Hr Hb (Hwf & Ha & Hp & Hroot & Hd & Hpe). pose proof Hw as (Hpl & _). pose proof H as Hinv.
  destruct H. split; try done.
  - by apply fields_sorted_insert.
  - by apply fields_sorted_insert.
  - intros s u. rewrite map_get_insert. destruct (String.eqb_spec s k) as [->|]; [|by eauto]. by intros [= <-].
  - intros s u. rewrite map_get_insert. destruct (String.eqb_spec s k) as [->|Hne].
    { intros [= <-]. unfold session_ok. rewrite Ha, Hp. split_and!; try done. exists j.
      by rewrite map_get_insert, String.eqb_refl. }
    intros Hu. specialize (inv_session s u Hu). unfold session_ok in *.
    destruct (t_association u) as [o|], (t_parent u) as [p|]; [done| | |].
    + destruct inv_session as (H1 & H2 & H3 & H4 & H5 & H6). split_and!; try done.
      apply has_key_false. rewrite map_get_insert. destruct (String.eqb_spec o k) as [->|]; [congruence|].
      by apply has_key_false.
    + destruct inv_session as (H1 & H2 & H3 & x & Hx & Hbx). split_and!; try done; try lia.
      rewrite map_get_insert. destruct (String.eqb_spec (t_root u) k) as [->|]; [by exists j|by exists x].
    + destruct inv_session as (H1 & H2 & H3 & H4). split_and!; try done.
      by rewrite map_get_insert, (proj2 (String.eqb_neq _ _)).
  - intros k' x. rewrite map_get_insert. destruct (String.eqb_spec k' k) as [->|]; [|by eauto]. by intros [= <-].
  - intros k' x. unfold root_session. rewrite !map_get_insert. destruct (String.eqb_spec k' k) as [->|]; [|intros Hx Hl; by apply (inv_root _ _ Hx Hl)].
    intros _ _. by exists t.
  - intros r. pose proof (count_insert (child_of r) k t ts). specialize (inv_children r).
    unfold child_of, is_child in *. rewrite Hp in *. simpl in *. lia.
  - intros k'. unfold has_key. rewrite map_get_insert. destruct (String.eqb_spec k' k) as [->|]; [done|]. apply inv_entered.
  - intros s u o. rewrite map_get_insert. destruct (String.eqb_spec s k) as [->|]; [|by eauto]. intros [= <-]. congruence.
Qed.

(** A router: it sits beside its observation, which has no job yet. *)
Lemma inv_new_router o t : may_enter o → has_key o ib = true → has_key o js = false → has_key (router_of o) bs = true →
  task_wf t → t_association t = Some o → t_parent t = None → t_root t = router_of o → t_depth t = 0%N →
  inv (map_insert (router_of o) t ts) js ib bs cs.
Proof.
  intros Hen Hi Hj Hb Hwf Ha Hp Hr Hd. destruct H. split; try done.
  - by apply fields_sorted_insert.
  - intros s u. rewrite map_get_insert. destruct (String.eqb_spec s (router_of o)) as [->|]; [|by eauto].
    by intros [= <-].
  - intros s u. rewrite map_get_insert. destruct (String.eqb_spec s (router_of o)) as [->|]; [|by eauto].
    intros [= <-]. unfold session_ok. rewrite Ha, Hp. by split_and!.
  - intros k j Hk He. destruct (inv_root k j Hk He) as (u & Hu & Hx). exists u. split; [|done].
    rewrite map_get_insert. destruct (String.eqb_spec k (router_of o)) as [->|]; [|done].
    destruct (inv_job _ _ Hk) as [Hpl _]. by apply router_not_plain in Hpl.
  - intros r. pose proof (count_insert (child_of r) (router_of o) t ts). specialize (inv_children r).
    unfold child_of, is_child in *. rewrite Hp in *. simpl in *. lia.
  - intros s u o'. rewrite map_get_insert. destruct (String.eqb_spec s (router_of o)) as [->|]; [|by eauto].
    intros [= <-]. congruence.
Qed.

(** A child, below a session that is no router. *)
Lemma inv_new_child s u x t parent : map_get s ts = Some u → t_association u = None → count is_child ts < 4 →
  (t_depth u < MAX_DEPTH)%N → fresh t (t_root u) (Some parent) (t_depth u + 1) →
  inv (map_insert (s +:+ ":" +:+ x) t ts) js ib bs cs.
Proof.
  intros Hu Hau Hc Hdu (Hwf & Ha & Hp & Hr & Hd & Hpe). set (k := s +:+ ":" +:+ x).
  assert (below (t_root u) k ∧ ∃ j, map_get (t_root u) js = Some j ∧
    (ended j = false → has_key (t_root u) bs = true)) as [Hb Hj].
  { pose proof (inv_session _ _ _ _ _ H _ _ Hu) as Hs. unfold session_ok in Hs. rewrite Hau in Hs.
    destruct (t_parent u).
    - destruct Hs as (Hb & _ & _ & Hj). split; [by apply below_trans|done].
    - destruct Hs as (-> & _ & (j & Hj & _) & Hb). split; [by exists x|]. by exists j. }
  pose proof (below_not_plain _ _ Hb) as Hnp. destruct H. split; try done.
  - by apply fields_sorted_insert.
  - intros s' v. rewrite map_get_insert. destruct (String.eqb_spec s' k) as [->|]; [|by eauto]. by intros [= <-].
  - intros s' v. rewrite map_get_insert. destruct (String.eqb_spec s' k) as [->|]; [|by eauto].
    intros [= <-]. unfold session_ok. rewrite Ha, Hp, Hr, Hd, Hpe. split_and!; [done|lia|lia|done|done].
  - intros k' y Hy He. destruct (inv_root _ _ Hy He) as (v & Hv & Hx). exists v. split; [|done].
    rewrite map_get_insert. destruct (String.eqb_spec k' k) as [->|]; [|done]. by destruct (inv_job _ _ Hy) as [Hpl _].
  - intros r. pose proof (count_insert (child_of r) k t ts).
    pose proof (count_mono (child_of r) is_child ts (λ v H, proj1 (proj1 (andb_true_iff _ _) H))). destruct (child_of r t); lia.
  - intros s' v o. rewrite map_get_insert. destruct (String.eqb_spec s' k) as [->|]; [|by eauto]. intros [= <-]. congruence.
Qed.
End inv_new.

Lemma map_insert_twice {V} k (v v' : V) m : map_insert k v' (map_insert k v m) = map_insert k v' m.
Proof.
  assert (∀ m', map_insert k v' ((k, v) :: m') = (k, v') :: m') as Hh by (intros; simpl; by rewrite String.eqb_refl).
  induction m as [|[a x] m IH]; [apply Hh|]. simpl. destruct (String.eqb_spec k a) as [->|Hne]; [apply Hh|].
  case_bool_decide; [apply Hh|]. simpl. rewrite (proj2 (String.eqb_neq _ _)) by done.
  rewrite bool_decide_eq_false_2 by done. by rewrite IH.
Qed.

Section handlers.
Context {SJ : SerdeJson} {CL : CognitionLibs} {SD : SummaryDecoder} {WS : WorkingSet}.
Context (config : CognitionConfig) (Hfits : budget_fits (cfg_budget config)).

Lemma wp_start id root origin context parent depth Q e : (depth = 0%N ∨ payload_ok context) →
  (∀ t, fresh t root parent depth → Q tt (set_e_tasks (map_insert id t (e_tasks e)) e)) →
  wp (start config id root origin context parent depth) Q e.
Proof.
  intros Hc HQ. unfold start. rewrite wpe_bind, wpe_get. destruct (N.eqb_spec depth 0) as [->|Hd].
  - rewrite wpe_bind, wp_unwrap, index_set_some by (by right). eexists. split; [done|].
    rewrite wpe_bind, wpe_ret. unfold on_tasks. rewrite wp_update. apply HQ.
    by split_and!; [split_and!; [apply value_set_object|simpl; lia|]|..].
  - destruct Hc as [|Hc]; [done|]. rewrite wpe_bind, wp_unwrap, index_set_some by done. eexists. split; [done|].
    assert (∀ k x, is_object (value_set context k x) = true) as Ho by (destruct Hc as [->|]; [done|by destruct context]).
    rewrite wpe_bind, wp_unwrap, index_set_some by (right; apply Ho). eexists. split; [done|].
    unfold on_tasks. rewrite wp_update. apply HQ.
    by split_and!; [split_and!; [apply value_set_object, Ho|simpl; lia|]|..].
Qed.

(** [Engine::request], as the handlers use it. *)
Lemma wp_request_fine s cause e t : Inv e → map_get s (e_tasks e) = Some t →
  wp (request config s cause) (λ _ e', fine e e') e.
Proof. intros Hi Ht. eapply wpe_mono; [by eapply wp_request|]. by intros out e' [H _]. Qed.

Lemma wp_fine_after {A} (m : Eng A) e e1 : fine e e1 → wp m (λ _ e', fine e1 e') e1 → wp m (λ _ e', fine e e') e1.
Proof. intros H1 Hm. eapply wpe_mono; [exact Hm|]. intros a e' H. by eapply fine_trans. Qed.
(** A request after steps that are fine, and what follows it. *)
Lemma wp_request_then s cause Q e0 e t : fine e0 e → map_get s (e_tasks e) = Some t →
  (∀ out e', fine e0 e' → Q out e') → wp (request config s cause) Q e.
Proof.
  intros Hf Ht HQ. eapply wpe_mono; [eapply wp_request_fine; [apply Hf|done]|].
  intros out e' H. apply HQ. by eapply fine_trans.
Qed.
Lemma wp_settled_fine {A} (m : Eng A) e : wp m (λ _ e', settled e e') e → wp m (λ _ e', fine e e') e.
Proof. intros Hm. eapply wpe_mono; [exact Hm|]. intros a e' H. by apply settled_fine. Qed.

Lemma wp_create_job o cause e ob : Inv e → may_enter o → map_get o (e_inbox e) = Some ob → map_get (router_of o) (e_tasks e) = None →
  wp (create_job config o cause) (λ _ e', fine e e') e.
Proof.
  intros Hi Hen Ho Hr. destruct (inv_inbox _ _ _ _ _ Hi _ _ Ho) as [Hpl Hpay]. unfold create_job. rewrite wpe_bind.
  eapply wp_observation_mut; [done|done|done|]. intros e1 Hi1 H1 Ho1 Et Ej.
  rewrite wpe_bind, (wp_observation_at _ _ _ _ Ho1), wpe_bind, wpe_get, wpe_bind. unfold on_jobs. rewrite wp_update, wpe_bind.
  unfold on_budgets. rewrite wp_update, wpe_bind. set (j := mkJob _ _ _ _ _ _ _ _ _ _ _ _ _ _ _ _ _ _ _ _ _).
  apply wp_start; [by left|]. intros t Ht. set (e2 := set_e_tasks _ _).
  assert (Inv e2) as Hi2.
  { eapply (inv_new_root (e_tasks e1) (e_jobs e1)); [apply inv_set_budget; [done|lia]|..|exact Ht]; [|done|done|by rewrite Et|].
    - split_and!; try done. intros r a Ha. inversion Ha.
    - cbn. apply has_key_true. eexists. by rewrite map_get_insert, String.eqb_refl. }
  apply (wp_fine_after _ e e2). { split_and!; [done|exact (mild_scheduling e e1 H1)|exact (mild_errors e e1 H1)]. }
  apply (wp_request_fine _ _ _ t); [done|]. cbn. by rewrite map_get_insert, String.eqb_refl.
Qed.

Lemma kept_task_refl t : task_wf t → (is_child t = true → t_pending t = None) → kept t t.
Proof. intros Hw Hp. split; [by repeat split|]. by split. Qed.

Lemma interrupt_kept job revision cause s t : task_wf t → (is_child t = true → t_pending t = None) →
  ∃ t' out, interrupt_task job revision cause s t = Some (t', out) ∧ kept t t'.
Proof.
  intros Hw Hp. unfold interrupt_task. case_match; [by eexists _, _; split; [done|apply kept_task_refl]|].
  eexists _, _. split; [done|]. destruct Hw as (Hc & Hm & Hpe). split; [by repeat split|]. split; [|done].
  split_and!; [done| |done]. cbn. rewrite length_app. lia.
Qed.

Lemma wp_associate o job cause e ob : Inv e → map_get o (e_inbox e) = Some ob →
  wp (associate config o job cause) (λ _ e', fine e e') e.
Proof.
  intros Hi Ho. destruct (inv_inbox _ _ _ _ _ Hi _ _ Ho) as [Hpl Hpay]. unfold associate.
  rewrite wpe_bind, (wp_observation_at _ _ _ _ Ho), wpe_bind, wpe_get.
  assert (wp (do^ observation_mut o (set_o_status "waiting-input"); en_ret ([] : list Draft))
            (λ _ e', fine e e') e) as Hrefuse.
  { rewrite wpe_bind. eapply wp_observation_mut; [done|done|done|]. intros. by apply mild_fine. }
  destruct (map_get job (e_jobs e)) as [j|] eqn:Hj; [|done].
  destruct (negb _); [done|]. destruct (is_terminal (j_status j)) eqn:He; [by apply mild_fine|]. clear Hrefuse.
  set (cancelled := is_str _ _). set (j' := set_j_status _ _). rewrite wpe_bind. unfold on_jobs. rewrite wp_update, wpe_bind.
  unfold observation_mut. rewrite wpe_bind, (wp_observation_at o _ _ ob) by done. unfold on_inbox. rewrite wp_update, wpe_bind.
  destruct (inv_job _ _ _ _ _ Hi _ _ Hj) as (W1 & W2 & W3 & W4). assert (job_wf job j') as Hw by by split_and!.
  set (ib' := map_insert o (set_o_job (Some job) (set_o_status "incorporated" ob)) (e_inbox e)).
  assert (inv (e_tasks e) (e_jobs e) ib' (e_budgets e) (e_calls e)) as Hib by (by apply inv_set_inbox).
  eapply wp_tasks_each; [exact Hib|intros; by apply interrupt_kept|]. intros out ts' Hts _.
  set (e3 := set_e_tasks ts' _). destruct cancelled.
  - rewrite wpe_bind. unfold on_tasks. rewrite wp_update, wpe_bind, wpe_get, wpe_bind. unfold on_queue. rewrite wp_update, wpe_ret.
    split_and!; [|done|done]. by eapply inv_cancel_job.
  - rewrite wpe_bind. unfold on_tasks at 1. rewrite wp_update, wpe_bind. set (e4 := set_e_tasks _ e3).
    assert (Inv e4) as Hi4.
    { eapply inv_keep_root; [|done]. eapply inv_set_job; [done|done|done|]. unfold ended. by rewrite He. }
    assert (fine e e4) as H4 by done.
    destruct (inv_root _ _ _ _ _ Hi4 job j') as (t4 & Ht4 & _); [cbn; by rewrite map_get_insert, String.eqb_refl|done|].
    eapply wp_context_set; [done|done|]. intros e5 Hi5 H5 Ht5.
    rewrite wpe_bind. eapply wp_context_set; [done|done|]. intros e6 Hi6 H6 Ht6. merge.
    rewrite wpe_bind. eapply wp_push_message; [done|done|]. intros e7 Hi7 H7 Ht7. merge.
    assert (fine e e7) as H7' by (eapply fine_trans; [exact H4|by apply mild_fine]).
    rewrite wpe_bind, wpe_get. case_match; [done|]. rewrite wpe_bind. by eapply wp_request_then.
Qed.

(** *** Corrections and compaction *)

(** Ends after steps that are fine. *)
Lemma wp_finish_then s r cause e0 e : fine e0 e → wp (finish s r cause) (λ _ e', fine e0 e') e.
Proof. intros Hf. apply wp_fine_after; [done|]. apply wp_settled_fine, wpe_finish, Hf. Qed.

Lemma kept_messages e s t l : Inv e → map_get s (e_tasks e) = Some t → 2 ≤ length l → kept t (set_t_messages l t).
Proof.
  intros Hi Ht Hl. destruct (kept_wf e s t Hi Ht) as [(Hc & Hm & Hpo) Hp].
  split; [by repeat split|]. split; [|done]. by split_and!.
Qed.
Lemma kept_append e s t l : Inv e → map_get s (e_tasks e) = Some t → kept t (set_t_messages (t_messages t ++ l) t).
Proof.
  intros Hi Ht. eapply kept_messages; [done|done|]. destruct (kept_wf e s t Hi Ht) as [(Hc & Hm & Hpo) Hp].
  rewrite length_app. lia.
Qed.

Lemma wp_correct_control s calls error cause e t : Inv e → map_get s (e_tasks e) = Some t →
  wp (correct_control config s calls error cause) (λ _ e', fine e e') e.
Proof.
  intros Hi Ht. unfold correct_control. rewrite wpe_bind. eapply wp_task_mut; [done|done|plain_kept|].
  intros e1 Hi1 H1 Ht1. rewrite wpe_bind, (wp_task_at _ _ _ _ Ht1), wpe_bind.
  eapply wp_context_set; [done|done|]. intros e2 Hi2 H2 Ht2. merge.
  rewrite wpe_bind. eapply wp_task_mut; [done|done|by eapply kept_append|]. intros e3 Hi3 H3 Ht3. merge.
  assert (fine e e3) as Hf by (by apply mild_fine).
  branch; [|by eapply wp_request_then].
  branch; [by apply wp_finish_then|]. apply wp_fine_after; [done|]. by eapply wp_settled_fine, wp_stalled.
Qed.

Lemma wp_complete_compaction s message cause e t : Inv e → map_get s (e_tasks e) = Some t →
  wp (complete_compaction config s message cause) (λ _ e', fine e e') e.
Proof.
  intros Hi Ht. unfold complete_compaction. rewrite wpe_bind, (wp_task_at _ _ _ _ Ht), wpe_bind.
  eapply wp_task_mut; [done|done|plain_kept|]. intros e1 Hi1 H1 Ht1. destruct (compacted _ _) as [summary|error].
  - rewrite wpe_bind. eapply wp_context_set; [done|done|]. intros e2 Hi2 H2 Ht2. merge.
    rewrite wpe_bind. eapply wp_context_set; [done|done|]. intros e3 Hi3 H3 Ht3. merge.
    rewrite wpe_bind. eapply wp_context_remove; [done|done|]. intros e4 t4 Hi4 H4 Ht4 F4. merge.
    rewrite wpe_bind. eapply wp_task_mut; [done|done| |].
    { destruct (kept_wf e4 s t4 Hi4 Ht4) as [(Hc & Hm' & Hpo) Hp]. split; [by repeat split|]. split; [|done].
      split_and!; [done|simpl; lia|done]. }
    intros e5 Hi5 H5 Ht5. merge. eapply wp_request_then; [by apply mild_fine|done|done].
  - branch; rewrite wpe_bind; (eapply wp_task_mut; [done|done|plain_kept|]); intros e2 Hi2 H2 Ht2; merge.
    + by apply wp_finish_then, mild_fine.
    + rewrite wpe_bind. eapply wp_context_set; [done|done|]. intros e3 Hi3 H3 Ht3. merge.
      eapply wp_request_then; [by apply mild_fine|done|done].
Qed.

(** *** Observations *)

Lemma bounded_payload id v : payload_ok v → payload_ok (bounded_observation id v).
Proof. unfold bounded_observation. intros H. case_match; [done|]. destruct v; try done. by right. Qed.

Lemma router_at e o t : Inv e → map_get (router_of o) (e_tasks e) = Some t → t_association t = Some o.
Proof.
  intros Hi Ht. destruct (t_association t) as [o'|] eqn:Ha.
  - destruct (router_facts e Hi _ t Ht o' Ha) as (_ & _ & E & _). by apply router_inj in E as ->.
  - destruct (t_parent t) as [p|] eqn:Hp.
    + destruct (child_facts e Hi _ t Ht _ Hp) as (_ & Hb & _ & _ & _ & x & Hx & _).
      destruct (inv_job _ _ _ _ _ Hi _ _ Hx) as [Hpl _]. by destruct (router_not_below _ _ Hpl Hb).
    + destruct (root_facts e Hi _ t Ht Ha Hp) as (_ & _ & (x & Hx & _) & _).
      destruct (inv_job _ _ _ _ _ Hi _ _ Hx) as [Hpl _]. by apply router_not_plain in Hpl.
Qed.

(** What an observation has to be: its id is plain and its payload an object
    or null, and unless it is known already, it has no job yet and the working
    set may take it in. *)
Definition observable (e : Engine) (id : string) (v : Value) : Prop :=
  plain_id id ∧ payload_ok v ∧ (has_key id (e_inbox e) = true ∨ may_enter id ∧ has_key id (e_jobs e) = false).

Lemma mild_observable e e' id v : mild e e' → observable e id v → observable e' id v.
Proof.
  intros H (Hid & Hv & Hn). split_and!; [done|done|]. destruct Hn as [Hn|[He Hn]]; [left; by eapply mild_inbox|right].
  split; [done|]. apply has_key_false. eapply mild_job_none; [done|by apply has_key_false].
Qed.

Lemma wp_receive_observation id v e : Inv e → observable e id v →
  wp (receive_observation config id v) (λ _ e', fine e e') e.
Proof.
  intros Hi (Hid & Hv%(bounded_payload id) & Hknown). unfold receive_observation. set (w := bounded_observation id v) in *.
  rewrite wpe_bind, wpe_get. destruct (has_key id (e_inbox e)) eqn:Hnew; [by apply mild_fine|].
  destruct Hknown as [|[Hen Hnojob]]; [done|].
  assert (map_get (router_of id) (e_tasks e) = None) as Hrouter.
  { destruct (map_get (router_of id) (e_tasks e)) as [t|] eqn:Ht; [|done].
    destruct (router_facts e Hi _ t Ht id) as (_ & _ & _ & _ & Hk & _); [by eapply router_at|congruence]. }
  rewrite wpe_bind. unfold on_inbox. rewrite wp_update.
  set (ob := mkObservation _ _ _ _ _ _). destruct (touch_observation e id ob) as (Hi1 & H1 & Ho1); [done..|].
  set (e1 := set_e_inbox _ e) in *. assert (fine e e1) as Hf1 by (by apply mild_fine).
  destruct (as_str w.["jobId"]); [by eapply wp_fine_after, wp_associate|]. rewrite wpe_bind, wpe_get.
  branch; [by eapply wp_fine_after, wp_create_job|]. rewrite wpe_bind. unfold on_budgets. rewrite wp_update, wpe_bind.
  apply wp_start; [by left|]. intros t (Hwf & Ha & Hp & Hr & Hd & Hpe). rewrite wpe_bind. unfold task_mut.
  rewrite wpe_bind, (wp_task_at _ _ _ t). 2: { cbn. by rewrite map_get_insert, String.eqb_refl. }
  unfold on_tasks. rewrite wp_update. set (e2 := set_e_tasks _ _). destruct Hwf as (Hc & Hm & Hpo).
  assert (Inv e2) as Hi2.
  { unfold e2, Inv. cbn. rewrite map_insert_twice.
    apply (inv_new_router (e_tasks e1) (e_jobs e1) (e_inbox e1)); [apply inv_set_budget; [done|lia]|..]; try done.
    - apply has_key_true. by exists ob.
    - apply has_key_true. eexists. by rewrite map_get_insert, String.eqb_refl. }
  eapply wp_request_then; [| |done]; [done|]. cbn. by rewrite map_get_insert, String.eqb_refl.
Qed.

(** *** Recovery *)

(** The job of a session, if there is one, has not ended. *)
Definition session_live (e : Engine) (s : string) : Prop :=
  ∀ t j, map_get s (e_tasks e) = Some t → map_get (t_root t) (e_jobs e) = Some j → ended j = false.

Lemma mild_live e e' s : mild e e' → session_live e s → session_live e' s.
Proof.
  intros H Hl t' j' Ht Hj. destruct (mild_task_back _ _ _ _ H Ht) as (t & Ht0 & (_ & _ & E & _)). rewrite E in Hj.
  pose proof (mild_jobs _ _ H (t_root t)) as Hr. rewrite Hj in Hr. inversion Hr as [j ? Ej E1 E2|]; subst.
  rewrite Ej. by eapply Hl.
Qed.
Lemma top_live e s t : Inv e → map_get s (e_tasks e) = Some t → t_parent t = None → session_live e s.
Proof. intros Hi Ht Hp t' j Ht' Hj. assert (t' = t) as -> by congruence. by eapply own_job. Qed.
Lemma pending_top e s t p : Inv e → map_get s (e_tasks e) = Some t → t_pending t = Some p → t_parent t = None.
Proof.
  intros Hi Ht Hp. destruct (t_parent t) eqn:E; [|done]. destruct (child_facts e Hi s t Ht _ E) as (_ & _ & _ & Hn & _).
  congruence.
Qed.
Lemma plain_live e s : Inv e → plain_id s → session_live e s.
Proof.
  intros Hi Hs t j Ht Hj. destruct (plain_session _ _ _ _ _ Hi s t Ht Hs) as [_ Hp]. by eapply top_live.
Qed.
Lemma router_live e o : Inv e → session_live e (router_of o).
Proof.
  intros Hi t j Ht Hj. destruct (t_parent t) as [p|] eqn:Hp; [|by eapply top_live].
  destruct (child_facts e Hi _ t Ht _ Hp) as (_ & Hb & _ & _ & _ & x & Hx & _).
  destruct (inv_job _ _ _ _ _ Hi _ _ Hx) as [Hpl _]. by destruct (router_not_below _ _ Hpl Hb).
Qed.

(** A job that has not ended stays so. *)
Lemma wp_job_live k f Q e : Inv e → (∀ j, map_get k (e_jobs e) = Some j → ended j = false) →
  (∀ j, j_id (f j) = j_id j ∧ j_activities (f j) = j_activities j ∧ ended (f j) = false) →
  (∀ e', Inv e' → mild e e' → e_tasks e' = e_tasks e → Q tt e') → wp (job_if k f) Q e.
Proof.
  intros Hi Hl Hf HQ. apply wp_job_if; [done| |done]. intros j Hj (W1 & W2 & W3 & W4).
  destruct (Hf j) as (Eid & Ea & Ee). rewrite Ee, (Hl j Hj). split; [|done]. split_and!; [done|congruence| |done].
  by rewrite Ea.
Qed.

Lemma wp_recover_session s cause t v e : Inv e → map_get s (e_tasks e) = Some t → session_live e s →
  wp (recover_session config s cause t v) (λ _ e', fine e e') e.
Proof.
  intros Hi Ht Hl. unfold recover_session. set (t1 := set_t_compacting _ _). rewrite wpe_bind. unfold on_tasks.
  rewrite wp_update. destruct (touch_task e s t t1) as (Hi1 & H1 & Ht1); [done|done|plain_kept|].
  { intros p. done. }
  set (e1 := set_e_tasks _ e) in *. rewrite wpe_bind. eapply wp_context_set; [done|done|]. intros e2 Hi2 H2 Ht2. merge.
  rewrite wpe_bind. eapply wp_context_set; [done|done|]. intros e3 Hi3 H3 Ht3. merge.
  rewrite wpe_bind. eapply wp_task_mut; [done|done|eapply kept_messages; [done|done|simpl; lia]|]. intros e4 Hi4 H4 Ht4. merge.
  rewrite wpe_bind, wpe_get, wpe_bind. unfold on_calls. rewrite wp_update. set (e5 := set_e_calls _ e4).
  assert (Inv e5) as Hi5 by (by apply inv_retain_calls).
  assert (fine e e5) as Hf. { split_and!; [done|by apply (mild_scheduling e e4)|by apply (mild_errors e e4)]. }
  branch; [apply wp_fine_after; [done|]; by eapply wp_settled_fine, wp_resource_budget_exhausted|].
  rewrite wpe_bind. apply wp_job_live; [done| |done|].
  { intros j Hj. by eapply (mild_live e e4 s). }
  intros e6 Hi6 H6 E6. rewrite wpe_bind, wpe_get, wpe_bind. change (e_tasks e5) with (e_tasks e4) in E6. rewrite <- E6 in Ht4.
  eapply wp_request_then; [eapply fine_trans; [exact Hf|by apply mild_fine]|done|done].
Qed.

(** What a resource report may be about: sessions of jobs that have not
    ended, and an observation the engine may receive. *)
Definition reportable (e : Engine) (v : Value) : Prop :=
  (∀ s, as_str v.["sessionId"] = Some s ∨ as_str v.["jobId"] = Some s ∨ (∃ call, map_get call (e_calls e) = Some s) →
     session_live e s) ∧
  (∀ o, is_str v.["input"].["eventType"] "observation.received" = true →
     as_str v.["input"].["eventId"] = Some o → observable e o v.["input"].["payload"]).

Lemma mild_reportable e e' v : mild e e' → reportable e v → reportable e' v.
Proof.
  intros H [H1 H2]. split.
  - intros s Hs. eapply mild_live; [done|]. apply H1. by rewrite (mild_calls _ _ H) in Hs.
  - intros o Hk Ho. eapply mild_observable; [done|]. by apply H2.
Qed.

Definition report_session (v : Value) : option string :=
  match as_str v.["sessionId"] with Some s => Some s | None => as_str v.["jobId"] end.

Lemma index_some_object v k x : as_str v.[k] = Some x → is_object v = true.
Proof. unfold value_index. by destruct v. Qed.
Lemma index_inner_object v k : is_object v.[k] = true → is_object v = true.
Proof. unfold value_index. by destruct v. Qed.

Lemma wp_locate_recovery v e : Inv e → reportable e v →
  wp (locate_recovery config v) (λ r e', fine e e' ∧
    ∀ w s, r = Some w → report_session w = Some s → session_live e' s) e.
Proof.
  intros Hi [Hl Ho]. unfold locate_recovery.
  assert (wp (en_ret (Some v)) (λ r e', fine e e' ∧
    ∀ w s, r = Some w → report_session w = Some s → session_live e' s) e) as Hsame.
  { split; [by apply mild_fine|]. intros w s [= <-] Hs. apply Hl. unfold report_session in Hs.
    destruct (as_str v.["sessionId"]); [injection Hs as ->|]; eauto. }
  assert (∀ s e', is_object v = true → fine e e' → session_live e' s →
    wp (let^ value := en_unwrap (index_set "sessionId" (Str s) v) in en_ret (Some value)) (λ r e', fine e e' ∧
    ∀ w s, r = Some w → report_session w = Some s → session_live e' s) e') as Hnamed.
  { intros s e' Hob Hf Hs. rewrite wpe_bind, wp_unwrap, index_set_some by (by right). eexists. split; [done|].
    split; [done|]. intros w s' [= <-]. unfold report_session. rewrite value_index_set by (by right). simpl.
    by intros [= <-]. }
  branch; [|done]. branch.
  - destruct (as_str v.["input"].["eventId"]) as [o|] eqn:Eo; [|by split; [apply mild_fine|]].
    pose proof (Ho o ltac:(done) ltac:(done)) as Hob. assert (plain_id o) as Hpl by apply Hob. rewrite wpe_bind, wpe_get.
    branch; [by split; [apply mild_fine|]|]. rewrite wpe_bind. eapply wpe_mono; [by apply wp_receive_observation|].
    intros out e1 Hf1. rewrite wpe_bind, wpe_get. apply Hnamed; [|done|].
    + eapply index_inner_object, index_some_object, Eo.
    + case_match; [by apply plain_live; [apply Hf1|]|]. apply router_live, Hf1.
  - rewrite wpe_bind, wpe_get. set (call := match as_str v.["input"].["payload"].["call_id"] with Some call => Some call
                                     | None => as_str v.["input"].["payload"].["callId"] end).
    destruct (call ≫= _) as [s|] eqn:Es; [|done]. apply bind_Some in Es as (c & Ec & Hc).
    apply Hnamed; [|by apply mild_fine|by apply Hl; eauto]. unfold call in Ec.
    eapply index_inner_object, index_inner_object. destruct (as_str v.["input"].["payload"].["call_id"]) eqn:E1;
      [by eapply index_some_object|by eapply index_some_object].
Qed.

Lemma wp_recover_resource_job cause v e : Inv e → reportable e v →
  wp (recover_resource_job config cause v) (λ _ e', fine e e') e.
Proof.
  intros Hi Hr. unfold recover_resource_job. rewrite wpe_bind. eapply wpe_mono; [by apply wp_locate_recovery|].
  intros r e1 [Hf1 Hs]. destruct r as [w|]; [|done]. fold (report_session w).
  destruct (report_session w) as [s|] eqn:Es; [|done]. rewrite wpe_bind, wpe_get.
  destruct (map_get s (e_tasks e1)) as [t|] eqn:Ht; [|done]. branch; [done|].
  apply wp_fine_after; [done|]. apply wp_recover_session; [apply Hf1|done|by eapply Hs].
Qed.

(** *** Timers *)

Lemma wp_timer_set id v e : Inv e → wp (timer_set id v) (λ _ e', fine e e') e.
Proof.
  intros Hi. unfold timer_set. rewrite wpe_bind. destruct (as_str v.["jobId"]); [|by apply mild_fine].
  apply wp_job_if; [done| |by intros; apply mild_fine]. intros j Hj Hw. destruct (j_wake j) as [w|] eqn:E; [|done].
  destruct (is_str _ _); [|done]. destruct Hw as (W1 & W2 & W3 & W4). rewrite E in W4. by split_and!.
Qed.

Lemma wp_timer_fired id v e : Inv e → wp (timer_fired config id v) (λ _ e', fine e e') e.
Proof.
  intros Hi. unfold timer_fired. rewrite wpe_bind, wpe_get. destruct (List.find _ _) as [[k j]|] eqn:Hf; [|by apply mild_fine].
  apply List.find_some in Hf as [Hin Hw]. apply list_elem_of_In in Hin. apply map_get_elem in Hin.
  2: { apply fields_sorted_nodup, Hi. }
  pose proof (inv_job _ _ _ _ _ Hi _ _ Hin) as Hwf. pose proof Hwf as (W1 & W2 & W3 & W4).
  assert (ended j = false) as He. { apply W4. unfold wakes in Hw. by destruct (j_wake j). }
  destruct (inv_root _ _ _ _ _ Hi _ _ Hin He) as (t & Ht & Ha & Hp). rewrite wpe_bind.
  eapply wp_context_set; [done|done|]. intros e1 Hi1 H1 Ht1.
  destruct (mild_job _ _ _ _ H1 Hin) as (j1 & Hj1 & E1). branch.
  { rewrite wpe_bind. unfold on_jobs. rewrite wp_update, wpe_ret.
    destruct (touch_job e1 k j1 (set_j_wake None j)) as (Hi2 & H2 & _); [done|done|by split_and!|done|].
    apply mild_fine; [done|by etrans]. }
  assert (∀ j', j_id j' = j_id j → j_activities j' = j_activities j → j_wake j' = None → ended j' = false →
    let e2 := set_e_jobs (map_insert k j' (e_jobs e1)) e1 in Inv e2 ∧ mild e e2) as Hjob.
  { intros j' Eid Ea Ew Ee e2. destruct (touch_job e1 k j1 j') as (Hi2 & H2 & _); [done|done| |congruence|].
    - split_and!; [done|congruence|by rewrite Ea|by rewrite Ew].
    - split; [done|by etrans]. }
  rewrite wpe_bind. branch.
  - rewrite wpe_bind. unfold on_jobs. rewrite wp_update. unfold on_budgets. rewrite wp_update.
    set (j' := set_j_cycle_started_ms _ _). destruct (Hjob j') as [Hi2 H2]; [done..|].
    eapply wp_request_then; [|exact Ht1|done].
    split_and!; [|by apply (mild_scheduling _ _ H2)|by apply (mild_errors _ _ H2)]. apply inv_set_budget; [done|lia].
  - unfold on_jobs. rewrite wp_update. set (j' := set_j_wait_reason _ _). destruct (Hjob j') as [Hi2 H2]; [done..|].
    eapply wp_request_then; [by apply mild_fine|exact Ht1|done].
Qed.
End handlers.
