(* ===== verification/CognitionResults.v ===== *)
(** The results and the cells the reasoning plugin's engine receives keep the
    invariant and never panic: a routing decision, a decision of a root or a
    child, a failed model call; the result of a cell, what it asks for, the
    capabilities it invokes, and the activities of jobs. *)
From stdpp Require Import base tactics option list strings sorting relations.
From Stdlib Require Import ZArith NArith Lia Ascii.
From S2P Require Import Prelude Event Utf8 Json CognitionText Compaction CognitionData CognitionBase Cognition CognitionSpec CognitionTurn CognitionEvents.

Section results.
Context {SJ : SerdeJson} {CL : CognitionLibs} {SD : SummaryDecoder} {WS : WorkingSet}.
Context (config : CognitionConfig) (Hfits : budget_fits (cfg_budget config)).

(** *** Routing decisions *)

Lemma association_valid_total e o ob calls d : map_get o (e_inbox e) = Some ob →
  is_Some (association_valid e o calls d).
Proof.
  intros Ho. unfold association_valid. rewrite Ho. repeat (case_match || case_bool_decide); simpl; try done;
    repeat case_match; done.
Qed.

(** What a valid routing decision refers to is there. *)
Lemma association_valid_true e o calls d : association_valid e o calls d = Some true →
  (∀ r, as_str d.["resolvesObservationId"] = Some r → is_Some (map_get r (e_inbox e))) ∧
  (∀ k, as_str d.["jobId"] = Some k → ∃ j, map_get k (e_jobs e) = Some j ∧ ended j = false) ∧
  validate_association d = true.
Proof.
  unfold association_valid. destruct (negb _) eqn:Hv; [done|]. apply negb_false_iff, andb_true_iff in Hv as [_ Hv].
  intros H. apply bind_Some in H as (resolves & Hres & H). destruct resolves; [|done]. cbn [negb] in H. split_and!; [| |done].
  - intros r Hr. unfold value_index in Hr. destruct (value_get d "resolvesObservationId") as [x|]; [|done].
    simpl in Hr. rewrite Hr in Hres. simpl in Hres. by destruct (map_get r (e_inbox e)).
  - intros k Hk. rewrite Hk in H.
    assert (is_some_and (as_str d.["action"]) (λ a, str_mem a ["amend"; "cancel"]) = true) as Hact.
    { unfold validate_association in Hv. destruct d as [| | | | |m]; try done.
      set (refused := negb _ || existsb _ _) in Hv. destruct refused; [done|]. cbv zeta in Hv.
      set (unresolved := has_key "resolvesObservationId" m && _) in Hv. destruct unresolved; [done|].
      destruct (as_str (Object m).["action"]) as [a|]; [|done].
      change (str_mem a ["amend"; "cancel"] = true). destruct (str_mem a ["amend"; "cancel"]); [done|].
      assert (is_null (Object m).["jobId"] = true) as Hn
        by (repeat case_match; try done; repeat (apply andb_true_iff in Hv as [Hv ?]); done).
      by destruct ((Object m).["jobId"]). }
    rewrite Hact in H. destruct (map_get k (e_jobs e)) as [j|]; [|done]. exists j. split; [done|]. simpl in H.
    unfold automatically_routable, ended in *. by destruct (is_terminal (j_status j)).
Qed.

Lemma wp_observation_set o key x Q e ob : Inv e → map_get o (e_inbox e) = Some ob →
  (∀ e' ob', Inv e' → mild e e' → map_get o (e_inbox e') = Some ob' → e_tasks e' = e_tasks e → e_jobs e' = e_jobs e →
     Q tt e') → wp (observation_set o key x) Q e.
Proof.
  intros Hi Ho HQ. destruct (inv_inbox _ _ _ _ _ Hi _ _ Ho) as [Hpl Hpay]. unfold observation_set.
  rewrite wpe_bind, (wp_observation_at _ _ _ _ Ho), wpe_bind, wp_unwrap, index_set_some by done.
  eexists. split; [done|]. unfold on_inbox. rewrite wp_update.
  destruct (touch_observation e o (set_o_value (value_set (o_value ob) key x) ob)) as (Hi1 & H1 & Ho1); [done|done| |].
  { right. cbn. destruct Hpay as [->|]; [done|]. by apply value_set_object. }
  by eapply HQ.
Qed.

Lemma mild_observation e e' o ob : mild e e' → map_get o (e_inbox e) = Some ob → ∃ ob', map_get o (e_inbox e') = Some ob'.
Proof. intros H Ho. apply has_key_true, (mild_inbox _ _ H), has_key_true. by exists ob. Qed.

Lemma wp_resolve_clarification o r d Q e ob rb : Inv e → map_get o (e_inbox e) = Some ob → map_get r (e_inbox e) = Some rb →
  has_key o (e_jobs e) = false →
  (∀ k, as_str d.["jobId"] = Some k → ∃ j, map_get k (e_jobs e) = Some j ∧ ended j = false) →
  (∀ e', Inv e' → mild e e' → Q tt e') → wp (resolve_clarification o r d) Q e.
Proof.
  intros Hi Ho Hr Hno Hjob HQ. unfold resolve_clarification. rewrite wpe_bind, (wp_observation_at _ _ _ _ Hr), wpe_bind.
  eapply wp_observation_set; [done|done|]. intros e1 ob1 Hi1 H1 Ho1 Et1 Ej1. rewrite wpe_bind.
  destruct (mild_observation _ _ _ _ H1 Hr) as (rb1 & Hr1). destruct (inv_inbox _ _ _ _ _ Hi1 _ _ Hr1) as [_ Hpay].
  eapply wp_observation_mut; [done|done|done|]. intros e2 Hi2 H2 Hr2 Et2 Ej2. merge. rewrite wpe_bind, wpe_get.
  destruct (map_get _ (e_jobs e2)) as [j|] eqn:Hj; [|by apply HQ].
  rewrite Ej2, Ej1 in Hj. destruct (as_str d.["jobId"]) as [k|]; simpl in *.
  2: { apply has_key_false in Hno. congruence. }
  destruct (Hjob k eq_refl) as (j' & Hj' & He). assert (j' = j) as -> by congruence.
  rewrite <- Ej1, <- Ej2 in Hj. destruct (inv_job _ _ _ _ _ Hi2 _ _ Hj) as (W1 & W2 & W3 & W4).
  rewrite wpe_bind. unfold on_jobs. rewrite wp_update.
  destruct (touch_job e2 k j (set_j_sources (j_sources j ++ [r]) j)) as (Hi3 & H3 & Hj3); [done|done|by split_and!|done|].
  destruct (inv_root _ _ _ _ _ Hi3 _ _ Hj3) as (t & Ht & _); [done|].
  eapply wp_push_message; [done|done|]. intros e4 Hi4 H4 _. merge. apply HQ; [done|by etrans].
Qed.

Lemma mild_task_none e e' s : mild e e' → map_get s (e_tasks e) = None → map_get s (e_tasks e') = None.
Proof. intros H Ht. pose proof (mild_tasks _ _ H s) as Hs. rewrite Ht in Hs. by inversion Hs. Qed.

Lemma wp_route_decision s o message id e t : Inv e → map_get s (e_tasks e) = Some t → t_association t = Some o →
  wp (route_decision config s o message id) (λ _ e', fine e e') e.
Proof.
  intros Hi Ht Ha. unfold route_decision. rewrite wpe_bind. eapply wp_push_message; [done|done|]. intros e1 Hi1 H1 Ht1.
  destruct (router_facts e1 Hi1 s _ Ht1 o Ha) as (_ & _ & Es & _ & [ob Ho]%has_key_true & _ & Hno & _).
  set (d := (default Null (head (tool_calls message))).["arguments"]). rewrite wpe_bind, wpe_get, wpe_bind, wp_unwrap.
  destruct (association_valid_total e1 o ob (tool_calls message) d Ho) as [valid Ev]. exists valid. split; [done|].
  destruct valid; cbn [negb]. 2: { eapply wp_fine_after; [by apply mild_fine|]. by eapply wp_correct_control. }
  destruct (association_valid_true _ _ _ _ Ev) as (Hres & Hjob & _). rewrite wpe_bind. unfold on_tasks. rewrite wp_update, wpe_bind.
  unfold on_budgets. rewrite wp_update. set (e2 := set_e_budgets _ _).
  assert (Inv e2) as Hi2 by (by eapply inv_remove_router).
  assert (fine e e2) as Hf2. { split_and!; [done|exact (mild_scheduling _ _ H1)|exact (mild_errors _ _ H1)]. }
  assert (map_get (router_of o) (e_tasks e2) = None) as Hr2.
  { cbn. rewrite Es, map_get_remove by (apply fields_sorted_nodup, Hi1). by rewrite String.eqb_refl. }
  assert (∀ Q, (∀ e', Inv e' → mild e2 e' → Q tt e') → wp (match as_str d.["resolvesObservationId"] with
    | Some reference => resolve_clarification o reference d | None => en_ret tt end) Q e2) as Hclar.
  { intros Q HQ. destruct (as_str d.["resolvesObservationId"]) as [r|]; [|by apply HQ].
    destruct (Hres r eq_refl) as [rb Hr]. by eapply wp_resolve_clarification. }
  rewrite wpe_bind. apply Hclar. clear Hclar. intros e3 Hi3 H3. destruct (mild_observation _ _ _ _ H3 Ho) as (ob3 & Ho3).
  assert (fine e e3) as Hf3 by (eapply fine_trans; [exact Hf2|by apply mild_fine]).
  branch. { eapply wp_fine_after; [done|]. eapply wp_create_job; [done|exact Hi3|exact (inv_routers _ _ _ _ _ Hi _ _ _ Ht Ha)|exact Ho3|]. by eapply mild_task_none. }
  branch.
  - rewrite wpe_bind. branch.
    + eapply wp_observation_set; [done|done|]. intros e4 ob4 Hi4 H4 Ho4 _ _.
      eapply wp_fine_after; [|by eapply wp_associate]. eapply fine_trans; [exact Hf3|by apply mild_fine].
    + eapply wp_fine_after; [done|by eapply wp_associate].
  - rewrite wpe_bind. destruct (inv_inbox _ _ _ _ _ Hi3 _ _ Ho3) as [_ Hpay].
    eapply wp_observation_mut; [done|done|done|]. intros e4 Hi4 H4 Ho4 _ _. rewrite wpe_bind, (wp_observation_at _ _ _ _ Ho4), wpe_ret.
    eapply fine_trans; [exact Hf3|by apply mild_fine].
Qed.

(** *** Failed calls *)

Lemma wp_model_failed s v id e : Inv e → session_live e s → wp (model_failed s v id) (λ _ e', fine e e') e.
Proof.
  intros Hi Hl. unfold model_failed. rewrite wpe_bind, wpe_get.
  assert (wp (finish s (Err "model failed") id) (λ _ e', fine e e') e) as Hfail by (by apply wp_settled_fine, wpe_finish).
  destruct (map_get s (e_tasks e)) as [t|] eqn:Ht; [|done].
  destruct (map_get (t_root t) (e_jobs e)) as [j|] eqn:Hj; [|done]. specialize (Hl t j Ht Hj).
  destruct (inv_job _ _ _ _ _ Hi _ _ Hj) as (W1 & W2 & W3 & W4). branch.
  { rewrite wpe_bind. unfold on_jobs. rewrite wp_update, wpe_ret. set (j' := set_j_blockers _ _).
    destruct (touch_job e (t_root t) j j') as (Hi1 & H1 & _); [done|done|by split_and!|by rewrite Hl|]. by apply mild_fine. }
  destruct (_ && _) eqn:Hretry; [|done]. apply andb_true_iff in Hretry as [_ Hp%negb_true_iff].
  assert (t_parent t = None) as Hparent by (by destruct (t_parent t)).
  rewrite wpe_bind. unfold on_jobs. rewrite wp_update. set (j' := set_j_retry_count _ _).
  destruct (touch_job e (t_root t) j j') as (Hi1 & H1 & Hj1); [done|done|by split_and!|done|].
  rewrite wpe_bind. eapply wpe_mono; [by eapply wp_sleep|]. intros out e2 [Hs2 Hk2]. rewrite wpe_bind.
  destruct (Hk2 _ _ Hj1) as (j2 & Hj2 & E2). pose proof Hs2 as (Hi2 & _).
  destruct (inv_job _ _ _ _ _ Hi2 _ _ Hj2) as (V1 & V2 & V3 & V4).
  eapply wp_job_mut; [done|done|by split_and!|done|]. intros e3 Hi3 H3 _ _. rewrite wpe_ret.
  eapply fine_trans; [exact (mild_fine _ _ Hi1 H1)|]. eapply fine_trans; [exact (settled_fine _ _ Hs2)|by apply mild_fine].
Qed.

(** *** Decisions *)

Lemma map_get_In {V} k (v : V) m : map_get k m = Some v → (k, v) ∈ m.
Proof.
  induction m as [|[a x] m IH]; simpl; [done|]. destruct (String.eqb_spec k a) as [->|]; [intros [= ->]; by left|].
  intros H. right. by apply IH.
Qed.

(** A control decision that passes validation can be carried out. *)
Lemma validate_control_root v t : validate_control v false = Ok tt → t_association t = None → decision_ok t v.
Proof.
  intros Hv Ha Hw. split; [done|]. intros Hi. unfold validate_control in Hv. destruct v as [| | | | |m]; try done.
  destruct (existsb _ m) eqn:Hf; [done|].
  assert (∀ k x, map_get k m = Some x → control_field k x = true) as Hfield.
  { intros k x Hk%map_get_In%list_elem_of_In. destruct (control_field k x) eqn:Hc; [done|].
    assert (existsb (λ '(key, value), negb (control_field key value)) m = true) as Hx; [|congruence].
    apply existsb_exists. exists (k, x). by rewrite Hc. }
  destruct (negb (Bool.eqb _ _)); [done|]. rewrite Hw in Hv. unfold is_str in Hw. apply bool_decide_eq_true in Hw.
  rewrite Hw in Hv. simpl in Hv.
  assert (map_get "waitFor" m = None) as Hn.
  { destruct (map_get "waitFor" m) as [x|] eqn:Hx; [|done]. apply Hfield in Hx as Hc.
    change (control_field "waitFor" x) with (is_str x "input") in Hc. unfold value_index in Hi. simpl in Hi.
    rewrite Hx in Hi. simpl in Hi. congruence. }
  unfold has_key in Hv. rewrite Hn in Hv. simpl in Hv.
  destruct (map_get "dueAtMs" m) as [x|] eqn:Hx; [|done]. apply Hfield in Hx as Hc.
  change (control_field "dueAtMs" x) with (opt_is_some (as_i64 x)) in Hc. unfold value_index. simpl. rewrite Hx. simpl.
  by destruct (as_i64 x).
Qed.
Lemma validate_control_child v : validate_control v true = Ok tt → is_Some (as_str v.["result"]).
Proof.
  unfold validate_control. destruct v as [| | | | |m]; try done. destruct (_ && _) eqn:H; [|done].
  apply andb_true_iff in H as [_ H]. unfold is_string in H. by destruct (as_str _).
Qed.

Lemma wp_yield_decision s calls call id e t : Inv e → map_get s (e_tasks e) = Some t → t_association t = None →
  wp (yield_decision config s calls call id) (λ _ e', fine e e') e.
Proof.
  intros Hi Ht Ha. unfold yield_decision. rewrite wpe_bind, (wp_task_at _ _ _ _ Ht), wpe_bind, wpe_get.
  destruct (validate_control _ _) as [[]|error] eqn:Hv; [|by eapply wp_correct_control].
  branch; [by eapply wp_correct_control|]. rewrite wpe_bind. eapply wp_task_mut; [done|done|plain_kept|].
  intros e1 Hi1 H1 Ht1. assert (fine e e1) as Hf1 by (by apply mild_fine). destruct (t_parent t) eqn:Hp; cbn [opt_is_some] in *.
  - destruct (validate_control_child _ Hv) as [r Hr]. rewrite wpe_bind, wp_unwrap. exists r. split; [done|].
    by apply wp_finish_then.
  - rewrite wpe_bind. eapply wp_push_message; [done|done|]. intros e2 Hi2 H2 Ht2. merge.
    apply (wp_fine_after _ e e2); [by apply mild_fine|]. apply wp_settled_fine. eapply wp_finish_root; [done|done|done|].
    intros v [= <-]. by apply validate_control_root.
Qed.

Lemma wp_run_cell s calls call id e t : Inv e → map_get s (e_tasks e) = Some t →
  wp (run_cell config s calls call id) (λ _ e', fine e e') e.
Proof.
  intros Hi Ht. unfold run_cell. rewrite wpe_bind, (wp_task_at _ _ _ _ Ht).
  destruct (as_str _) as [code|]; [|by eapply wp_correct_control]. branch; [by eapply wp_correct_control|].
  set (t' := set_t_yields _ _). rewrite wpe_bind. unfold on_tasks. rewrite wp_update, wpe_ret.
  destruct (touch_task e s t t') as (Hi1 & H1 & _); [done|done|plain_kept|]. by apply mild_fine.
Qed.

Lemma wp_model_turn s message id e t : Inv e → map_get s (e_tasks e) = Some t → t_association t = None →
  wp (model_turn config s message id) (λ _ e', fine e e') e.
Proof.
  intros Hi Ht Ha. unfold model_turn. rewrite wpe_bind. eapply wp_push_message; [done|done|]. intros e1 Hi1 H1 Ht1.
  apply (wp_fine_after _ e e1); [by apply mild_fine|]. destruct (tool_calls message) as [|call [|]].
  - by eapply wp_correct_control.
  - branch; [by eapply wp_yield_decision|]. branch; [by eapply wp_run_cell|by eapply wp_correct_control].
  - by eapply wp_correct_control.
Qed.

Lemma wp_model_result kind v id e : Inv e →
  (kind = "model.failed" → ∀ call s, map_get call (e_calls e) = Some s → session_live e s) →
  wp (model_result config kind v id) (λ _ e', fine e e') e.
Proof.
  intros Hi Hl. unfold model_result. rewrite wpe_bind, wpe_get. set (call := match as_str v.["call_id"] with Some c => c | None => _ end).
  destruct (map_get call (e_calls e)) as [s|] eqn:Hc; [|by apply mild_fine]. rewrite wpe_bind. unfold on_calls. rewrite wp_update.
  set (e1 := set_e_calls _ e). assert (Inv e1) as Hi1 by (by apply inv_remove_call).
  assert (fine e e1) as Hf1 by done. apply (wp_fine_after _ e e1); [done|]. change (e_tasks e) with (e_tasks e1).
  destruct (map_get s (e_tasks e1)) as [t|] eqn:Ht; cbn [mbind option_bind is_some_and].
  - destruct (t_association t) as [o|] eqn:Ha.
    { branch; [by apply wp_settled_fine, wpe_finish|by eapply wp_route_decision]. }
    branch.
    { rewrite wpe_bind. eapply wp_push_message; [done|done|]. intros e2 Hi2 H2 Ht2. rewrite wpe_bind. unfold on_queue.
      rewrite wp_update, wpe_ret. split_and!; [done|exact (mild_scheduling _ _ H2)|exact (mild_errors _ _ H2)]. }
    destruct (String.eqb_spec kind "model.failed"); [by apply wp_model_failed; [|eapply Hl]|].
    branch; [by eapply wp_complete_compaction|by eapply wp_model_turn].
  - branch; [|by apply mild_fine]. apply wp_model_failed; [done|]. intros t j Ht'. congruence.
Qed.
End results.

(** ** Cells *)

Section cells.
Context {SJ : SerdeJson} {CL : CognitionLibs} {SD : SummaryDecoder} {WS : WorkingSet}.
Context (config : CognitionConfig) (Hfits : budget_fits (cfg_budget config)).

(** A step on one session that changes nothing else of it. *)
Definition touches (s : string) (t : Task) (m : Eng unit) : Prop := ∀ Q e, Inv e → map_get s (e_tasks e) = Some t →
  (∀ e' t', Inv e' → mild e e' → map_get s (e_tasks e') = Some t' → frame t t' → Q tt e') → wp m Q e.

Lemma wp_checkpoint_job k c Q e : Inv e → (∀ e', Inv e' → mild e e' → e_tasks e' = e_tasks e → Q tt e') →
  wp (job_if k (set_j_checkpoint c)) Q e.
Proof. intros Hi HQ. apply wp_job_if; [done| |done]. intros j _ (W1 & W2 & W3 & W4). by split. Qed.

Lemma wp_set_checkpoint s c t : touches s t (set_checkpoint s c).
Proof.
  intros Q e Hi Ht HQ. unfold set_checkpoint. rewrite wpe_bind. eapply wp_context_set; [done|done|].
  intros e1 Hi1 H1 Ht1. rewrite wpe_bind, (wp_task_at _ _ _ _ Ht1). apply wp_checkpoint_job; [done|].
  intros e2 Hi2 H2 Et. merge. rewrite <- Et in Ht1. eapply HQ; [done|done|done|by repeat split].
Qed.

Lemma wp_note_summary s verified summary t : touches s t (note_summary s verified summary).
Proof.
  intros Q e Hi Ht HQ. unfold note_summary. rewrite wpe_bind, (wp_task_at _ _ _ _ Ht), wpe_bind.
  eapply wp_task_mut; [done|done|plain_kept|]. intros e1 Hi1 H1 Ht1.
  assert (∀ key x, wp (context_set s key x) Q e1) as Hset.
  { intros key x. eapply wp_context_set; [done|done|]. intros e2 Hi2 H2 Ht2. merge.
    eapply HQ; [done|done|done|by repeat split]. }
  branch; [done|]. branch; [|done]. branch; [|done].
  rewrite wpe_bind. eapply wp_context_set; [done|done|]. intros e2 Hi2 H2 Ht2. merge.
  rewrite wpe_bind. eapply wp_context_set; [done|done|]. intros e3 Hi3 H3 Ht3. merge.
  eapply wp_context_remove; [done|done|]. intros e4 t4 Hi4 H4 Ht4 F4. merge.
  eapply HQ; [done|done|done|]. etrans; [|exact F4]. by repeat split.
Qed.

Lemma wp_note_checkpoint s c t : touches s t (note_checkpoint s c).
Proof.
  intros Q e Hi Ht HQ. unfold note_checkpoint. rewrite wpe_bind, (wp_task_at _ _ _ _ Ht), wpe_bind.
  eapply wp_context_set; [done|done|]. intros e1 Hi1 H1 Ht1.
  rewrite wpe_bind. eapply wp_task_mut; [done|done|plain_kept|]. intros e2 Hi2 H2 Ht2. merge. rewrite wpe_bind.
  assert (∀ e' t', Inv e' → mild e2 e' → map_get s (e_tasks e') = Some t' → frame t t' →
    wp (job_if (t_root t) (set_j_checkpoint c)) Q e') as Hend.
  { intros e' t' Hi' H' Ht' F'. apply wp_checkpoint_job; [done|]. intros e4 Hi4 H4 Et. rewrite <- Et in Ht'.
    eapply HQ; [done| |exact Ht'|done]. etrans; [|exact H4]. by etrans. }
  branch; [branch|]; [by eapply Hend| |by eapply Hend].
  eapply wp_note_summary; [done|done|]. intros e3 t3 Hi3 H3 Ht3 F3. eapply Hend; [done|done|done|].
  etrans; [|exact F3]. by repeat split.
Qed.

Lemma wp_cell_finished s kind v id e t : Inv e → map_get s (e_tasks e) = Some t →
  wp (cell_finished config s kind v id) (λ _ e', fine e e') e.
Proof.
  intros Hi Ht. unfold cell_finished. rewrite wpe_bind, (wp_task_at _ _ _ _ Ht), wpe_bind.
  eapply wp_task_mut; [done|done|plain_kept|]. intros e1 Hi1 H1 Ht1. branch.
  { apply (wp_fine_after _ e e1); [by apply mild_fine|]. by eapply wp_settled_fine, wp_stalled. }
  rewrite wpe_bind. eapply wp_context_set; [done|done|]. intros e2 Hi2 H2 Ht2. merge.
  rewrite wpe_bind. eapply wp_push_message; [done|done|]. intros e3 Hi3 H3 Ht3. merge.
  eapply wp_request_then; [done|by apply mild_fine|done|done].
Qed.

Lemma kept_no_pending e s t t' : Inv e → map_get s (e_tasks e) = Some t → frame t t' → t_context t' = t_context t →
  t_messages t' = t_messages t → t_pending t' = None → kept t t'.
Proof.
  intros Hi Ht Hf Hc Hm Hp. destruct (kept_wf e s t Hi Ht) as [(Wc & Wm & Wp) _]. split; [done|]. split; [|done].
  split_and!; [by rewrite Hc|by rewrite Hm|by rewrite Hp].
Qed.

Lemma wp_note_resource_failure s v Q e t : Inv e → map_get s (e_tasks e) = Some t →
  (∀ e' t', Inv e' → mild e e' → map_get s (e_tasks e') = Some t' → Q t' e') → wp (note_resource_failure s v) Q e.
Proof.
  intros Hi Ht HQ. unfold note_resource_failure. rewrite wpe_bind. eapply wp_task_mut; [done|done| |].
  { by eapply kept_no_pending. }
  intros e1 Hi1 H1 Ht1. rewrite wpe_bind, (wp_task_at _ _ _ _ Ht1), wpe_bind.
  eapply wp_context_set; [done|done|]. intros e2 Hi2 H2 Ht2. merge. rewrite (wp_task_at _ _ _ _ Ht2). by apply HQ.
Qed.

Lemma wp_code_result kind v id e : Inv e → wp (code_result config kind v id) (λ _ e', fine e e') e.
Proof.
  intros Hi. unfold code_result. rewrite wpe_bind, wpe_get. set (s := str_or_empty _).
  destruct (map_get s (e_tasks e)) as [t|] eqn:Ht; [|by apply mild_fine]. branch; [by apply mild_fine|].
  rewrite wpe_bind. eapply wp_task_mut; [done|done|plain_kept|]. intros e1 Hi1 H1 Ht1. rewrite wpe_bind.
  assert (∀ Q, (∀ b e' t', Inv e' → mild e e' → map_get s (e_tasks e') = Some t' → Q b e') →
    wp (if is_resource_failure kind v
        then let^ t := note_resource_failure s v in en_ret (2 <? t_resource_failures t)%N else en_ret false) Q e1) as Hfail.
  { intros Q HQ. branch; [|by eapply HQ]. rewrite wpe_bind. eapply wp_note_resource_failure; [done|done|].
    intros e2 t2 Hi2 H2 Ht2. merge. by eapply HQ. }
  apply Hfail. clear Hfail. intros exhausted e2 t2 Hi2 H2 Ht2. destruct exhausted.
  { apply (wp_fine_after _ e e2); [by apply mild_fine|]. by eapply wp_settled_fine, wp_resource_budget_exhausted. }
  assert (∀ Q, (∀ e' t', Inv e' → mild e e' → map_get s (e_tasks e') = Some t' → Q tt e') →
    wp (if session_lost v then task_mut s (λ t, set_t_pending None (set_t_cell_started false t)) else en_ret tt) Q e2) as Hlost.
  { intros Q HQ. branch; [|by eapply HQ]. eapply wp_task_mut; [done|done|by eapply kept_no_pending|].
    intros e3 Hi3 H3 Ht3. merge. by eapply HQ. }
  rewrite wpe_bind. apply Hlost. clear Hlost. intros e3 t3 Hi3 H3 Ht3.
  rewrite wpe_bind, (wp_task_at _ _ _ _ Ht3), wpe_bind.
  assert (∀ Q, (∀ e' t', Inv e' → mild e e' → map_get s (e_tasks e') = Some t' → Q tt e') →
    wp (if unsaved_success kind v && is_str (t_context t3).["checkpoint"].["mode"] "automatic"
        then set_checkpoint s Null else en_ret tt) Q e3) as Hnull.
  { intros Q HQ. branch; [|by eapply HQ]. eapply wp_set_checkpoint; [done|done|].
    intros e4 t4 Hi4 H4 Ht4 _. eapply HQ; [done| |done]. by etrans. }
  apply Hnull. clear Hnull. intros e4 t4 Hi4 H4 Ht4. rewrite wpe_bind.
  assert (∀ e' t', Inv e' → mild e e' → map_get s (e_tasks e') = Some t' →
    wp (cell_finished config s kind v id) (λ _ e', fine e e') e') as Hend.
  { intros e' t' Hi' H' Ht'. apply (wp_fine_after _ e e'); [by apply mild_fine|]. by eapply wp_cell_finished. }
  branch; [branch|]; [by eapply Hend| |by eapply Hend].
  eapply wp_note_checkpoint; [done|done|]. intros e5 t5 Hi5 H5 Ht5 _. eapply Hend; [done| |done]. by etrans.
Qed.

(** *** Requests of a cell *)

Lemma nonblank_object v k : nonblank v.[k] = true → is_object v = true.
Proof. unfold nonblank, value_index. by destruct v. Qed.

Lemma count_children e : count is_child (e_tasks e) = length (List.filter (λ '(_, t), opt_is_some (t_parent t)) (e_tasks e)).
Proof. done. Qed.

Lemma wp_query_child s t v id e : Inv e → map_get s (e_tasks e) = Some t → t_association t = None →
  wp (query_child config s t v id) (λ _ e', fine e e') e.
Proof.
  intros Hi Ht Ha. unfold query_child. rewrite wpe_bind, wpe_get.
  destruct (nonblank _) eqn:Hq; cbn [negb]; [|by apply mild_fine].
  destruct (Nat.leb_spec 4 (length (List.filter (λ '(_, t), opt_is_some (t_parent t)) (e_tasks e)))); [by apply mild_fine|].
  destruct (N.leb_spec MAX_DEPTH (t_depth t)); [by apply mild_fine|]. branch; [by apply mild_fine|].
  rewrite wpe_bind. apply wp_start; [right; right; by eapply nonblank_object|]. intros u Hu. set (e1 := set_e_tasks _ e).
  assert (Inv e1) as Hi1 by (eapply inv_new_child; [done|done|done|by rewrite count_children|done|done]).
  eapply wp_request_then; [done|done| |done]. cbn. by rewrite map_get_insert, String.eqb_refl.
Qed.

Lemma wp_invoke_capability s t v id e : Inv e → map_get s (e_tasks e) = Some t → t_depth t = 0%N →
  wp (invoke_capability s t v id) (λ _ e', fine e e') e.
Proof.
  intros Hi Ht Hd. unfold invoke_capability. rewrite wpe_bind. eapply wp_task_mut; [done|done| |by intros; apply mild_fine].
  destruct (kept_wf e s t Hi Ht) as [(Hc & Hm & Hpo) Hp]. split; [by repeat split|]. split.
  - split_and!; [done|done|]. by intros p [= <-].
  - intros Hch. unfold is_child in Hch. cbn in Hch. destruct (t_parent t) as [p|] eqn:E; [|done].
    destruct (child_facts e Hi s t Ht _ E) as (_ & _ & Hdepth & _). lia.
Qed.

Lemma wp_code_yielded v id e : Inv e →
  (∀ t, map_get (str_or_empty v.["sessionId"]) (e_tasks e) = Some t → t_association t = None) →
  wp (code_yielded config v id) (λ _ e', fine e e') e.
Proof.
  intros Hi Hs. unfold code_yielded. rewrite wpe_bind, wpe_get. set (s := str_or_empty _) in *.
  destruct (map_get s (e_tasks e)) as [t|] eqn:Ht; [|by apply mild_fine]. specialize (Hs t eq_refl).
  branch; [by apply mild_fine|]. set (t' := set_t_yields _ t). rewrite wpe_bind. unfold on_tasks. rewrite wp_update.
  destruct (touch_task e s t t') as (Hi1 & H1 & Ht1); [done|done|plain_kept|]. set (e1 := set_e_tasks _ e) in *.
  assert (fine e e1) as Hf1 by (by apply mild_fine). branch; [done|].
  branch; [apply (wp_fine_after _ e e1); [done|]; by eapply wp_query_child|].
  destruct (_ && _) eqn:Hinv; [|by branch]. apply andb_true_iff in Hinv as [_ Hd%N.eqb_eq].
  apply (wp_fine_after _ e e1); [done|]. by eapply wp_invoke_capability.
Qed.

(** *** Capabilities *)

Lemma pending_answer_task e request s y : fields_sorted (e_tasks e) = true → pending_answer e request = Some (s, y) →
  ∃ t p, map_get s (e_tasks e) = Some t ∧ t_pending t = Some p.
Proof.
  unfold pending_answer. intros Hs%fields_sorted_nodup Hh. apply head_Some_elem_of in Hh.
  apply list_elem_of_omap in Hh as ([k t] & Hin & Ha). apply fmap_Some in Ha as (z & Hz & [= -> ->]).
  unfold answers in Hz. apply bind_Some in Hz as (p & Hp & _). exists t, p. split; [|done]. by apply map_get_elem.
Qed.

Lemma wp_capability_result kind v id cause e : Inv e →
  wp (capability_result kind v id cause) (λ _ e', fine e e') e.
Proof.
  intros Hi. unfold capability_result. rewrite wpe_bind, wpe_get. set (r := match as_str v.["requestEventId"] with Some r => r | None => _ end).
  destruct (pending_answer e r) as [[s y]|] eqn:Ha; [|by apply mild_fine].
  destruct (pending_answer_task e r s y) as (t & p & Ht & Hp); [apply Hi|done|]. pose proof (pending_top _ _ _ _ Hi Ht Hp) as Hpar.
  rewrite wpe_bind. eapply wp_task_mut; [done|done|by eapply kept_no_pending|]. intros e1 Hi1 H1 Ht1.
  rewrite wpe_bind, (wp_task_at _ _ _ _ Ht1), wpe_bind.
  apply wp_job_live; [done| |done|]. { intros j Hj. by eapply (top_live e1 s). }
  intros e2 Hi2 H2 E2. merge. branch; [|by apply mild_fine]. rewrite <- E2 in Ht1. rewrite wpe_bind.
  apply wp_job_live; [done| |done|]. { intros j Hj. by eapply (top_live e2 s). }
  intros e3 Hi3 H3 _. merge. by apply mild_fine.
Qed.

Lemma wp_capability_requested v id e : Inv e → wp (capability_requested v id) (λ _ e', fine e e') e.
Proof.
  intros Hi. unfold capability_requested. rewrite wpe_bind, wpe_get. branch; [|by apply mild_fine].
  destruct p as [[s t] p]. match goal with H : _ = Some _ |- _ => rename H into Hx end.
  apply bind_Some in Hx as (s' & _ & (t' & Ht & (p' & Hp & [= -> -> ->])%bind_Some)%bind_Some).
  destruct (kept_wf e s t Hi Ht) as [(Hc & Hm & Hpo) _]. pose proof (pending_top _ _ _ _ Hi Ht Hp) as Hpar.
  rewrite wpe_bind, wp_unwrap, index_set_some by (right; by apply Hpo). eexists. split; [done|].
  set (t' := set_t_pending _ t). rewrite wpe_bind. unfold on_tasks. rewrite wp_update.
  destruct (touch_task e s t t') as (Hi1 & H1 & Ht1); [done|done| |].
  { split; [by repeat split|]. split.
    - split_and!; [done|done|]. intros x [= <-]. apply value_set_object. by apply Hpo.
    - unfold is_child. cbn. by rewrite Hpar. }
  set (e1 := set_e_tasks _ e) in *. rewrite wpe_bind. apply wp_job_live; [done| |done|].
  { intros j Hj. by eapply (top_live e1 s t'). }
  intros e2 Hi2 H2 _. apply mild_fine; [done|]. etrans; [exact H1|exact H2].
Qed.
End cells.
