(* ===== verification/CognitionSafety.v ===== *)
(** The reasoning plugin's engine never panics.

    [event] keeps the invariant for every event it can be given, so every
    engine that events, retirement and the loaders reach satisfies it: one
    model call in flight, bounded budgets, children and depth. *)
From stdpp Require Import base tactics option list strings sorting relations.
From Stdlib Require Import ZArith NArith Lia Ascii.
From S2P Require Import Prelude Event Utf8 Json CognitionText Compaction CognitionData CognitionBase Cognition CognitionSpec CognitionTurn CognitionEvents CognitionResults.

Section safety.
Context {SJ : SerdeJson} {CL : CognitionLibs} {SD : SummaryDecoder} {WS : WorkingSet}.
Context (config : CognitionConfig) (Hfits : budget_fits (cfg_budget config)).

(** *** Notes *)

Lemma wp_note_code_event id kind v Q e : Inv e → (∀ e', Inv e' → mild e e' → Q tt e') →
  wp (note_code_event id kind v) Q e.
Proof.
  intros Hi HQ. unfold note_code_event. branch; [|by apply HQ]. destruct (as_str _) as [s|]; [|by apply HQ].
  unfold on_tasks. rewrite wp_update. unfold map_update.
  destruct (map_get s (e_tasks e)) as [t|] eqn:Ht; [|by apply HQ; destruct e].
  match goal with |- context [map_insert s ?x _] => destruct (touch_task e s t x) as (Hi1 & H1 & _) end;
    [done|done| |by apply HQ].
  destruct (_ =? _)%N; [|by apply kept_task_refl; eapply kept_wf]. destruct (String.eqb _ _); plain_kept.
Qed.

Lemma map_insert_elem {V} k (v : V) m x : x ∈ map_insert k v m → x = (k, v) ∨ x ∈ m.
Proof.
  induction m as [|[a y] m IH]; simpl; [intros H%list_elem_of_singleton; by left|].
  destruct (String.eqb_spec k a) as [->|]; [|case_match].
  - intros [->|Hx]%elem_of_cons; [by left|by right; right].
  - intros [->|Hx]%elem_of_cons; [by left|by right].
  - intros [->|Hx]%elem_of_cons; [right; by left|]. destruct (IH Hx); [by left|by right; right].
Qed.
Lemma job_wf_activity k j r a : job_wf k j → is_object a = true →
  job_wf k (set_j_activities (map_insert r a (j_activities j)) j).
Proof.
  intros (W1 & W2 & W3 & W4) Ha. split_and!; [done|done| |done]. intros r' a' [E|Hin]%map_insert_elem; [congruence|].
  by eapply W3.
Qed.

(** A pass over the jobs that leaves which have ended. *)
Lemma mild_all_jobs e js' : Inv e → js'.*1 = (e_jobs e).*1 →
  (∀ k, option_Forall2 (λ j j', job_wf k j' ∧ ended j' = ended j) (map_get k (e_jobs e)) (map_get k js')) →
  Inv (set_e_jobs js' e) ∧ mild e (set_e_jobs js' e).
Proof.
  intros Hi Hk Hp. split; [by eapply inv_all_jobs|]. split; try done. intros k. specialize (Hp k). cbn.
  by inversion Hp as [? ? [_ E]|]; constructor.
Qed.

Lemma settle_activity_ok r id kind v k j : job_wf k j →
  ∃ j' out, settle_activity r id kind v j = Some (j', out) ∧ job_wf k j' ∧ ended j' = ended j.
Proof.
  intros Hw. unfold settle_activity. destruct (map_get r (j_activities j)) as [a|] eqn:Ha; [|by eexists _, _].
  assert (is_object a = true) as Ho by (destruct Hw as (_ & _ & W & _); by eapply W, map_get_In).
  rewrite index_set_some by (by right). simpl. rewrite index_set_some by (right; by apply value_set_object). simpl.
  rewrite index_set_some by (right; by repeat apply value_set_object). simpl.
  eexists _, _. split; [done|]. split; [|done]. apply job_wf_activity; [done|]. by repeat apply value_set_object.
Qed.

Lemma wp_note_activity id kind v cause Q e : Inv e → (∀ e', Inv e' → mild e e' → Q tt e') →
  wp (note_activity id kind v cause) Q e.
Proof.
  intros Hi HQ. unfold note_activity. branch.
  { destruct (as_str _) as [k|]; [|by apply HQ]. apply wp_job_if; [done| |by auto].
    intros j Hj Hw. split; [|done]. by apply job_wf_activity. }
  branch; [|by apply HQ]. rewrite wpe_bind, wpe_get, wpe_bind, wp_unwrap. set (r := match as_str _ with Some r => r | None => _ end).
  destruct (map_each_spec (λ _, settle_activity r id kind v) (e_jobs e)) as (js' & out & -> & Hk & Hget).
  { intros k j Hj. destruct (settle_activity_ok r id kind v k j) as (j' & o & -> & _); [by eapply inv_job|done]. }
  { apply Hi. }
  exists (js', out). split; [done|]. unfold on_jobs. rewrite wp_update.
  destruct (mild_all_jobs e js') as [Hi1 H1]; [done|done| |by apply HQ].
  intros k. rewrite Hget. destruct (map_get k (e_jobs e)) as [j|] eqn:Hj; [|constructor].
  destruct (settle_activity_ok r id kind v k j) as (j' & o & E & Hw & He); [by eapply inv_job|]. simpl. rewrite E. by constructor.
Qed.

Lemma default_wait_reason_ok k j : job_wf k j → job_wf k (default_wait_reason j) ∧ ended (default_wait_reason j) = ended j.
Proof. intros Hw. unfold default_wait_reason. repeat case_match; done. Qed.

(** *** The operator *)

Lemma wp_reconcile_jobs r id v outcome jobs e0 Q e : Inv e0 → mild e0 e → Inv e →
  (∀ k j, (k, j) ∈ jobs → map_get k (e_jobs e0) = Some j) →
  (∀ e', Inv e' → mild e0 e' → Q tt e') → wp (reconcile_jobs r id v outcome jobs) Q e.
Proof.
  intros Hi0. revert e. induction jobs as [|[k j] jobs IH]; intros e Hm Hi Hin HQ; [by apply HQ|]. cbn [reconcile_jobs].
  assert (map_get k (e_jobs e0) = Some j) as Hj0 by (apply Hin; by left).
  assert (job_wf k j) as Hw by (by eapply (inv_job _ _ _ _ _ Hi0)). destruct (mild_job _ _ _ _ Hm Hj0) as (jc & Hjc & Ec).
  assert (∀ e', Inv e' → mild e0 e' → wp (reconcile_jobs r id v outcome jobs) Q e') as Hrest.
  { intros e' Hi' Hm'. apply IH; [done|done| |done]. intros k' j' H. apply Hin. by right. }
  rewrite wpe_bind, wp_unwrap. unfold reconcile_job. destruct (map_get r (j_activities j)) as [a|] eqn:Ha.
  2: { eexists. split; [done|]. simpl. rewrite wpe_bind, wpe_ret. by apply Hrest. }
  destruct (unresolved a). 2: { eexists. split; [done|]. simpl. rewrite wpe_bind, wpe_ret. by apply Hrest. }
  assert (is_object a = true) as Ho by (destruct Hw as (_ & _ & W & _); by eapply W, map_get_In).
  rewrite index_set_some by (by right). simpl. rewrite index_set_some by (right; by apply value_set_object). simpl.
  rewrite index_set_some by (right; by repeat apply value_set_object). simpl. eexists. split; [done|]. simpl.
  rewrite wpe_bind, wpe_bind. unfold on_jobs. rewrite wp_update. set (j' := set_j_blockers _ _).
  destruct (touch_job e k jc j') as (Hi1 & H1 & _); [done|done| |by rewrite Ec|].
  { apply (job_wf_activity k j r); [done|]. by repeat apply value_set_object. }
  set (e1 := set_e_jobs _ e) in *. rewrite wpe_bind, wpe_get. assert (mild e0 e1) as Hm1 by (by etrans).
  destruct (has_key (j_id j) (e_tasks e1)) eqn:Hk; [|by apply Hrest]. apply has_key_true in Hk as [t Ht].
  eapply wp_context_set; [done|done|]. intros e2 Hi2 H2 _. apply Hrest; [done|by etrans].
Qed.

Lemma wp_attempt_reconciled id v e : Inv e → wp (attempt_reconciled id v) (λ _ e', fine e e') e.
Proof.
  intros Hi. unfold attempt_reconciled. destruct (as_str _) as [outcome|]; [|by apply mild_fine].
  branch; [|by apply mild_fine]. rewrite wpe_bind, wpe_get, wpe_bind.
  eapply (wp_reconcile_jobs _ _ _ _ _ e); [done|done|done| |by intros; apply mild_fine].
  intros k j. by apply map_get_elem, fields_sorted_nodup, Hi.
Qed.

(** A step that the scheduler runs. *)
Lemma wp_scheduled {A} (m : Eng A) Q e : wp m (λ a e', Q a (set_e_scheduling false e')) (set_e_scheduling true e) →
  wp (scheduled m) Q e.
Proof.
  intros Hm. unfold scheduled. rewrite wpe_bind, wp_update, wpe_bind. eapply wpe_mono; [exact Hm|].
  intros a e' H. by rewrite wpe_bind, wp_update, wpe_ret.
Qed.

Lemma wp_scheduled_request s cause e t : Inv e → e_scheduling e = false → map_get s (e_tasks e) = Some t →
  wp (scheduled (request config s cause)) (λ _ e', fine e e' ∧ (e_calls e = [] → length (e_queue e') ≤ length (e_queue e))) e.
Proof.
  intros Hi Hs Ht. apply wp_scheduled. eapply wpe_mono.
  { eapply (wp_request config Hfits s cause (set_e_scheduling true e)); [exact Hi|exact Ht]. }
  intros out e' [(Hi' & _ & He') Hq]. split; [|intros Hc; by apply Hq]. split_and!; [exact Hi'|by rewrite Hs|exact He'].
Qed.

Lemma control_kept job revision cause reason s t : task_wf t → (is_child t = true → t_pending t = None) →
  ∃ t' out, control_task job revision cause reason s t = Some (t', out) ∧ kept t t'.
Proof.
  intros Hw Hp. unfold control_task. destruct (String.eqb _ _).
  2: { eexists _, _. split; [done|]. by apply kept_task_refl. }
  destruct Hw as (Hc & Hm & Hpe). rewrite index_set_some by (by right). eexists _, _. split; [done|].
  split; [by repeat split|]. split; [|done]. split_and!; [by apply value_set_object|done|done].
Qed.

Lemma wp_operator_control cause v e : Inv e → e_scheduling e = false →
  wp (operator_control config cause v) (λ _ e', fine e e') e.
Proof.
  intros Hi Hs. unfold operator_control. set (k := str_or_empty _). rewrite wpe_bind, wpe_get.
  destruct (map_get k (e_jobs e)) as [j|] eqn:Hj; [|by apply mild_fine].
  destruct (control_allowed e k j v) eqn:Hall; cbn [negb]; [|by apply mild_fine].
  set (cancel := is_str v.["action"] "cancel"). set (revision := succ_u64 _). set (j' := set_j_wake _ _).
  assert (ended j = false ∧ (cancel = true ∨ has_key k (e_tasks e) = true)) as [He Hk].
  { unfold control_allowed in Hall. apply andb_true_iff in Hall as [[_ Hl%negb_true_iff]%andb_true_iff Hr].
    split; [done|]. fold cancel in Hr. destruct cancel; [by left|]. right. simpl in Hr.
    by repeat (apply andb_true_iff in Hr as [Hr _]). }
  destruct (inv_job _ _ _ _ _ Hi _ _ Hj) as (W1 & W2 & W3 & W4). assert (job_wf k j') as Hw by by split_and!.
  rewrite wpe_bind. unfold on_jobs. rewrite wp_update, wpe_bind.
  eapply (wp_tasks_each _ _ _ (e_jobs e) (e_inbox e) (e_budgets e) (e_calls e)); [exact Hi|intros; by apply control_kept|].
  intros closed ts' Hts Hm. rewrite wpe_bind, wpe_get, wpe_bind. unfold on_calls. rewrite wp_update, wpe_bind.
  unfold on_tasks. rewrite wp_update, wpe_bind, wpe_get, wpe_bind. unfold on_queue. rewrite wp_update.
  set (e3 := set_e_queue _ _). destruct cancel.
  - rewrite wpe_ret. split_and!; [|done|done]. apply inv_retain_calls. eapply inv_cancel_job; [done..|].
    intros s t. by rewrite orb_false_r.
  - destruct Hk as [|Hk]; [done|].
    assert (Inv e3) as Hi3.
    { apply inv_retain_calls. eapply inv_keep_root; [|done]. eapply inv_set_job; [done|done|done|by rewrite He]. }
    destruct (inv_root _ _ _ _ _ Hi3 k j') as (t & Ht & _); [cbn; by rewrite map_get_insert, String.eqb_refl|done|].
    rewrite wpe_bind. eapply wpe_mono; [by eapply wp_scheduled_request|]. intros out e4 [Hf _].
    eapply fine_trans; [|exact Hf]. done.
Qed.

(** *** Events *)

(** What the engine relies on for an event: observations have plain ids and
    objects for payloads and no job before they are received, routers run no
    cells, and neither a failed model call nor a resource report is about a
    session whose job has ended. *)
Record acceptable (e : Engine) (id kind : string) (v : Value) : Prop := {
  acceptable_observation : kind = "observation.received" → observable e id v;
  acceptable_cell : kind = "code.yielded" →
    ∀ t, map_get (str_or_empty v.["sessionId"]) (e_tasks e) = Some t → t_association t = None;
  acceptable_failure : kind = "model.failed" → ∀ call s, map_get call (e_calls e) = Some s → session_live e s;
  acceptable_report : kind = "cognition.resource-exhausted" → reportable e v;
}.
Lemma mild_acceptable e e' id kind v : mild e e' → acceptable e id kind v → acceptable e' id kind v.
Proof.
  intros H [H1 H2 H3 H4]. split.
  - intros Hk. eapply mild_observable; [done|]. by apply H1.
  - intros Hk t' Ht'. destruct (mild_task_back _ _ _ _ H Ht') as (t & Ht & (Ea & _)). rewrite Ea. by apply H2.
  - intros Hk call s Hc. rewrite (mild_calls _ _ H) in Hc. eapply mild_live; [done|]. by eapply H3.
  - intros Hk. eapply mild_reportable; [done|]. by apply H4.
Qed.

Lemma wp_handle_event id kind v cause e : Inv e → acceptable e id kind v →
  wp (handle_event config id kind v cause) (λ _ e', fine e e') e.
Proof.
  intros Hi [H1 H2 H3 H4]. unfold handle_event.
  destruct (String.eqb_spec kind "cognition.resource-exhausted"); [by apply wp_recover_resource_job; auto|].
  branch; [by apply wp_timer_set|]. branch; [by apply wp_timer_fired|].
  destruct (String.eqb_spec kind "observation.received").
  { by apply wp_receive_observation; auto. }
  branch; [by apply wp_model_result|]. branch; [by apply wp_code_result|].
  destruct (String.eqb_spec kind "code.yielded"); [by apply wp_code_yielded; auto|].
  branch; [by apply wp_capability_result|]. branch; [by apply wp_capability_requested|by apply mild_fine].
Qed.

(** The scheduler takes a session off the queue in every pass. *)
Lemma wp_run_queue fuel id e : Inv e → e_scheduling e = false → e_calls e = [] → length (e_queue e) ≤ fuel →
  wp (run_queue config fuel id) (λ _ e', fine e e') e.
Proof.
  revert e. induction fuel as [|fuel IH]; intros e Hi Hs Hc Hq; cbn [run_queue]; rewrite wpe_bind, wpe_get.
  { destruct (e_queue e) as [|s q]; [by apply mild_fine|]. simpl in Hq. lia. }
  destruct (e_queue e) as [|s q] eqn:Eq; [by apply mild_fine|]. destruct (has_key s (e_tasks e)) eqn:Hk; [|by apply mild_fine].
  apply has_key_true in Hk as [t Ht]. rewrite wpe_bind. unfold on_queue. rewrite wp_update, wpe_bind.
  set (e1 := set_e_queue q e). eapply wpe_mono; [by eapply (wp_scheduled_request _ _ e1)|].
  intros out e2 [Hf2 Hq2]. rewrite wpe_bind, wpe_get. assert (fine e e2) as Hf by done. case_bool_decide as Hc2; [|done].
  rewrite wpe_bind. specialize (Hq2 Hc). simpl in Hq, Hq2. destruct Hf2 as (Hi2 & Hs2 & He2). cbn in Hs2.
  eapply wpe_mono; [apply IH; [done|congruence|done|lia]|]. intros rest e3 H3. rewrite wpe_ret. by eapply fine_trans.
Qed.

Lemma wp_event id kind v cause e : Inv e → e_scheduling e = false → e_resource_errors e = [] →
  acceptable e id kind v → wp (event config id kind v cause) (λ _ e', fine e e') e.
Proof.
  intros Hi Hs He Hacc. unfold event. branch; [by apply wp_operator_control|]. branch; [by apply wp_attempt_reconciled|].
  rewrite wpe_bind. unfold on_jobs. rewrite wp_update.
  destruct (mild_all_jobs e (map_values default_wait_reason (e_jobs e))) as [Hi1 H1]; [done|apply map_values_keys| |].
  { intros k. rewrite map_get_values. destruct (map_get k (e_jobs e)) as [j|] eqn:Hj; constructor.
    apply default_wait_reason_ok. by eapply inv_job. }
  set (e1 := set_e_jobs _ e) in *. rewrite wpe_bind, wpe_get. branch; [by apply mild_fine|]. rewrite wpe_bind.
  assert (∀ Q, (∀ e', Inv e' → mild e e' → Q tt e') → wp (match result_key kind id v with
     | Some key => en_update (λ e, set_e_seen_results (map_insert key tt (e_seen_results e)) e)
     | None => en_ret tt end) Q e1) as Hseen.
  { intros Q HQ. destruct (result_key kind id v); [rewrite wp_update|]; (apply HQ; [done|]); [|done].
    etrans; [exact H1|]. by split. }
  apply Hseen. clear Hseen. intros e2 Hi2 H2. rewrite wpe_bind. apply wp_note_code_event; [done|]. intros e3 Hi3 H3. merge.
  rewrite wpe_bind. apply wp_note_activity; [done|]. intros e4 Hi4 H4. merge. rewrite wpe_bind, wpe_get, wpe_bind, wp_update.
  assert (e_resource_errors e4 = []) as He4 by (by rewrite (mild_errors e e4)). rewrite He4.
  set (e5 := set_e_resource_errors [] e4). cbn [recover_each]. rewrite wpe_bind, wpe_ret, wpe_bind.
  assert (mild e e5) as H5 by (etrans; [done|]; by split). assert (Inv e5) as Hi5 by done.
  eapply wpe_mono; [apply wp_handle_event; [done|by eapply mild_acceptable]|]. intros handled e6 Hf6. rewrite wpe_bind, wpe_get, wpe_bind.
  assert (fine e e6) as Hf by (eapply fine_trans; [by apply (mild_fine e e5)|exact Hf6]).
  assert (∀ sent e7, fine e e7 → wp (let^ e := en_get in
    en_ret (with_deadline (e_now_ms e) <$> ([] ++ handled ++ sent))) (λ _ e', fine e e') e7) as Hend by done.
  destruct Hf as (Hi6 & Hs6 & He6). case_bool_decide as Hc; [|by apply Hend].
  eapply wpe_mono; [apply wp_run_queue; [done|congruence|done|lia]|]. intros sent e7 H7. apply Hend.
  by eapply fine_trans.
Qed.
End safety.

(** ** Retirement *)

(** What retirement leaves as it is. *)
Definition still (e e' : Engine) : Prop :=
  e_tasks e' = e_tasks e ∧ e_calls e' = e_calls e ∧ e_queue e' = e_queue e ∧ e_scheduling e' = e_scheduling e ∧
  e_resource_errors e' = e_resource_errors e.
#[export] Instance still_preorder : PreOrder still.
Proof. split; [done|]. intros a b c (?&?&?&?&?) (?&?&?&?&?). unfold still. by split_and!; congruence. Qed.

Lemma forget_observations {WS : WorkingSet} dropped e : Inv e →
  let e' := foldr forget_observation e dropped in Inv e' ∧ still e e' ∧ e_jobs e' = e_jobs e.
Proof.
  intros Hi. induction dropped as [|s dropped (Hi1 & H1 & Ej)]; cbn [foldr]; [done|].
  unfold forget_observation at 1 3 5. unfold map_update.
  set (e1 := foldr forget_observation e dropped) in *.
  destruct (map_get s (e_inbox e1)) as [o|] eqn:Ho; [|by destruct e1].
  destruct (inv_inbox _ _ _ _ _ Hi1 _ _ Ho) as [Hpl _]. split; [|done]. apply inv_set_inbox; [done|done|by left].
Qed.

Lemma trim_activities_ok k j : job_wf k j → job_wf k (trim_activities j) ∧ ended (trim_activities j) = ended j.
Proof.
  intros (W1 & W2 & W3 & W4). split; [|done]. split_and!; [done|done| |done]. cbn. intros r a Ha.
  apply list_elem_of_In, filter_In in Ha as [Ha _]. eapply W3. by apply list_elem_of_In.
Qed.

Lemma trim_jobs_ok {WS : WorkingSet} jobs trimmed budget e : Inv e → NoDup jobs.*1 →
  (∀ k j, (k, j) ∈ jobs → map_get k (e_jobs e) = Some j) →
  Inv (trim_jobs jobs trimmed budget e) ∧ still e (trim_jobs jobs trimmed budget e).
Proof.
  revert trimmed budget e. induction jobs as [|[k j] jobs IH]; intros trimmed budget e Hi Hnd Hin; [done|].
  apply NoDup_cons in Hnd as [Hk Hnd]. cbn [trim_jobs]. set (trims := _ && _).
  assert (map_get k (e_jobs e) = Some j) as Hj by (apply Hin; by left).
  set (j1 := if trims then trim_activities j else j). set (excess := Nat.min _ _). set (j2 := set_j_sources _ j1).
  assert (job_wf k j2 ∧ ended j2 = ended j) as [Hw2 He2].
  { assert (job_wf k j1 ∧ ended j1 = ended j) as [(W1 & W2 & W3 & W4) He]; [|by split].
    destruct trims; [apply trim_activities_ok|split; [|done]]; by eapply inv_job. }
  destruct (touch_job e k j j2) as (Hi1 & _ & _); [done..|]. set (e1 := set_e_jobs _ e) in *.
  destruct (forget_observations (take excess (drop 1 (j_sources j1))) e1 Hi1) as (Hi2 & H2 & Ej).
  edestruct IH as [Hi3 H3]; [exact Hi2|done| |split; [exact Hi3|]].
  - intros k' j' Hin'. rewrite Ej. cbn. rewrite map_get_insert. destruct (String.eqb_spec k' k) as [->|].
    + destruct Hk. apply list_elem_of_fmap. by exists (k, j').
    + apply Hin. by right.
  - etrans; [|exact H3]. etrans; [|exact H2]. done.
Qed.

(** A job without sessions goes, and its budget. *)
Lemma inv_drop_job {WS : WorkingSet} ts js ib bs cs k : inv ts js ib bs cs → (∀ s t, map_get s ts = Some t → t_root t ≠ k) →
  inv ts (map_remove k js) ib (map_remove k bs) cs.
Proof.
  intros H Hk. assert (inv ts js ib (map_remove k bs) cs) as [].
  { apply inv_remove_budget; [done|]. intros s t Ht E. by destruct (Hk s t Ht). }
  pose proof (fields_sorted_nodup _ inv_jobs_sorted) as Hnd.
  assert (∀ r, r ≠ k → map_get r (map_remove k js) = map_get r js) as Hr.
  { intros r Hne. rewrite map_get_remove by done. by rewrite (proj2 (String.eqb_neq _ _)). }
  assert (∀ r j, map_get r (map_remove k js) = Some j → map_get r js = Some j) as Hb.
  { intros r j. rewrite map_get_remove by done. by destruct (String.eqb r k). }
  split; try done.
  - by apply fields_sorted_remove.
  - intros s t Ht. specialize (inv_session s t Ht). specialize (Hk s t Ht). unfold session_ok in *.
    destruct (t_association t), (t_parent t); [done| | |].
    + destruct inv_session as (H1 & H2 & H3 & H4 & H5 & H6). split_and!; try done.
      apply has_key_false. rewrite map_get_remove by done. case_match; [done|]. by apply has_key_false.
    + by rewrite Hr.
    + destruct inv_session as (H1 & H2). split; [done|]. rewrite H1 in Hk. by rewrite Hr.
  - intros r j Hj%Hb. by eauto.
  - intros r j Hj%Hb. by eauto.
  - intros r [j Hj%Hb]%has_key_true. apply inv_entered, has_key_true. by exists j.
Qed.

Lemma forget_orphans_keys room orphan ib : (forget_orphans room orphan ib).*1 = ib.*1.
Proof. revert room. induction ib as [|[k o] ib IH]; intros [|room]; csimpl; try done. destruct (orphan o); csimpl; by rewrite IH. Qed.
Lemma forget_orphans_get room orphan ib k o : map_get k (forget_orphans room orphan ib) = Some o →
  ∃ o', map_get k ib = Some o' ∧ (o = o' ∨ o = set_o_value Null o').
Proof.
  revert room. induction ib as [|[k' x] ib IH]; intros [|room]; simpl; [done|done|by eauto|].
  destruct (orphan x); simpl; (destruct (String.eqb k k'); [intros [= <-]; by eauto|]); apply IH.
Qed.

Lemma inv_forget_orphans {WS : WorkingSet} e room orphan : Inv e → Inv (set_e_inbox (forget_orphans room orphan (e_inbox e)) e).
Proof.
  intros Hi. pose proof (forget_orphans_keys room orphan (e_inbox e)) as Hk.
  set (ib' := forget_orphans room orphan (e_inbox e)) in *.
  assert (∀ k, has_key k (e_inbox e) = true → has_key k ib' = true) as Hkey.
  { intros k. rewrite !has_key_true. intros [o Ho%map_get_In]. apply (list_elem_of_fmap_2 fst) in Ho. simpl in Ho.
    rewrite <- Hk in Ho. apply list_elem_of_fmap in Ho as ([k' o'] & -> & Hin). exists o'. apply map_get_elem; [|done].
    rewrite Hk. apply fields_sorted_nodup, Hi. }
  unfold Inv. cbn. destruct Hi. split; try done.
  - by rewrite (fields_sorted_ext (e_inbox e)).
  - intros s t Ht. by eapply session_ok_mono; [apply inv_session|..]; eauto.
  - intros k o (o' & Ho' & Hx)%forget_orphans_get. destruct (inv_inbox _ _ Ho') as [Hpl Hpay]. split; [done|].
    destruct Hx as [->| ->]; [done|by left].
  - intros k Hs. by apply Hkey, inv_stay.
Qed.

Lemma retire_ok {WS : WorkingSet} e : Inv e → Inv (retire e) ∧ e_scheduling (retire e) = e_scheduling e ∧
  e_resource_errors (retire e) = e_resource_errors e.
Proof.
  intros Hi. unfold retire.
  destruct (trim_jobs_ok (e_jobs e) 0 8 e) as [Hi1 H1]; [done|apply fields_sorted_nodup, Hi| |].
  { intros k j. by apply map_get_elem, fields_sorted_nodup, Hi. }
  set (e1 := trim_jobs (e_jobs e) 0 8 e) in *. set (retired := merge_sort _ _).
  set (removed := (take _ retired).*2).
  assert (∀ id s t, id ∈ removed → map_get s (e_tasks e1) = Some t → t_root t ≠ id) as Hrem.
  { intros id s t Hid Ht. apply list_elem_of_fmap in Hid as ([n i] & -> & Hin). simpl.
    apply elem_of_take in Hin as (n' & Hin & _). apply list_elem_of_lookup_2 in Hin.
    unfold retired in Hin. rewrite merge_sort_Permutation in Hin.
    apply list_elem_of_fmap in Hin as (j & [= -> ->] & Hf). apply list_elem_of_In, filter_In in Hf as [_ Hret].
    unfold retirable in Hret. apply andb_true_iff in Hret as [[_ Hret]%andb_true_iff _].
    apply negb_true_iff in Hret. intros E. apply map_get_In in Ht.
    assert (existsb (λ '(_, t), String.eqb (t_root t) (j_id j)) (e_tasks e1) = true) as Hx; [|congruence].
    apply existsb_exists. exists (s, t). split; [by apply list_elem_of_In|]. by apply String.eqb_eq. }
  clearbody removed. assert (Inv (foldl (λ e id, set_e_budgets (map_remove id (e_budgets e))
      (set_e_jobs (map_remove id (e_jobs e)) e)) e1 removed) ∧
    still e (foldl (λ e id, set_e_budgets (map_remove id (e_budgets e))
      (set_e_jobs (map_remove id (e_jobs e)) e)) e1 removed)) as [Hi2 H2].
  { clear retired. generalize dependent e1. induction removed as [|id removed IH]; intros e1 Hi1 H1 Hrem; [done|].
    cbn [foldl]. apply IH.
    - apply inv_drop_job; [done|]. intros s t. apply Hrem. by left.
    - etrans; [exact H1|]. done.
    - intros id' s t Hin. apply Hrem. by right. }
  split; [by apply inv_forget_orphans|]. destruct H2 as (_ & _ & _ & ? & ?). done.
Qed.
