(* ===== verification/CognitionRun.v ===== *)
(** Runs of the reasoning plugin: deliveries that load a part of what is
    stored, put events through the engine and write back what changed, and
    what every stored state and every engine they reach can rely on. *)
From stdpp Require Import base tactics option list strings sorting relations.
From Stdlib Require Import ZArith NArith Lia Ascii.
From S2P Require Import Prelude Event Utf8 Json CognitionText Compaction CognitionData CognitionBase Cognition CognitionSpec CognitionTurn CognitionEvents CognitionResults CognitionSafety.

Lemma count_none {V} (p : V → bool) m : fields_sorted m = true →
  (∀ k v, map_get k m = Some v → p v = false) → count p m = 0.
Proof.
  intros Hm%fields_sorted_nodup Hp. unfold count. apply length_zero_iff_nil.
  destruct (List.filter _ m) as [|[k v] l] eqn:E; [done|]. exfalso.
  assert (In (k, v) (List.filter (λ '(_, v), p v) m)) as Hin by (rewrite E; by left).
  apply filter_In in Hin as [Hin Hv]. apply list_elem_of_In, map_get_elem in Hin; [|done].
  rewrite (Hp k v Hin) in Hv. done.
Qed.
Lemma count_some {V} (p : V → bool) m : fields_sorted m = true → 0 < count p m →
  ∃ k v, map_get k m = Some v ∧ p v = true.
Proof.
  intros Hm%fields_sorted_nodup Hp. unfold count in Hp. destruct (List.filter _ m) as [|[k v] l] eqn:E; [simpl in Hp; lia|].
  assert (In (k, v) (List.filter (λ '(_, v), p v) m)) as Hin by (rewrite E; by left).
  apply filter_In in Hin as [Hin Hv]. apply list_elem_of_In, map_get_elem in Hin; [|done]. by exists k, v.
Qed.

(** ** The working set *)

(** What a batch names: the jobs, sessions and observations that its payloads
    and the requests they answer point at, the observations it delivers, and
    the receipts of its results. *)
Record Named : Type := mkNamed {
  n_jobs : list string;
  n_sessions : list string;
  n_observations : list string;
  n_arrived : list string;
  n_results : list string;
}.

Section view.
Context (x : Engine) (n : Named).

(** The sessions a delivery starts from: the first four that wait for a turn,
    those with a model call in flight, and those named. *)
Definition view_queue : list string := List.filter (λ s, has_key s (e_tasks x)) (e_queue x).
Definition view_seeds : list string := take 4 view_queue ++ (e_calls x).*2 ++ n_sessions n.
Definition view_jobs : list string :=
  n_jobs n ++ omap (λ s, t_root <$> map_get s (e_tasks x)) view_seeds.
Definition view_sessions : list string :=
  view_seeds ++ (List.filter (λ '(_, t), str_mem (t_root t) view_jobs) (e_tasks x)).*1.
Definition view_observations : list string :=
  n_observations n ++ n_arrived n ++
  flat_map (λ s, match map_get s (e_tasks x) with
                 | Some t => t_origin t :: option_list (t_association t)
                 | None => []
                 end) view_seeds ++
  flat_map (λ '(_, j), take 8 (j_sources j)) (map_retain (λ k _, str_mem k view_jobs) (e_jobs x)).

(** An observation whose value was forgotten is read only when it arrives
    again. *)
Definition view_inbox (k : string) (o : Observation) : bool :=
  str_mem k view_observations && (negb (is_null (o_value o)) || str_mem k (n_arrived n)).

(** [load]: the engine a delivery works on.  What is stored is an engine whose
    unserialized fields are the defaults.  The ids a batch names are arbitrary
    here; the byte limits, which end a load with an error, and the records over
    their size bound, of which only the index is read, are left out; the
    summaries kept for routing are added by steps below. *)
Definition load_view : Engine :=
  mkEngine [] [] [] true [] (map_retain (λ k _, str_mem k (n_results n)) (e_seen_results x)) false
    (map_retain (λ k _, str_mem k view_jobs) (e_jobs x)) (map_retain view_inbox (e_inbox x)) view_queue
    (e_now_ms x) (e_sequence x) (map_retain (λ s _, str_mem s view_sessions) (e_tasks x)) (e_calls x)
    (map_retain (λ k _, str_mem k view_jobs || str_mem k view_sessions) (e_budgets x)).
End view.

(** [record_changes], applied to one field: the records the delivery holds at
    its end are set, and those it loaded and holds no more are deleted. *)
Definition written {V} (stored before after : list (string * V)) : list (string * V) :=
  foldr (λ '(k, v), map_insert k v) (map_retain (λ k _, negb (has_key k before)) stored) after.
Definition write_back (x before after : Engine) : Engine :=
  mkEngine [] [] [] false [] (written (e_seen_results x) (e_seen_results before) (e_seen_results after)) false
    (written (e_jobs x) (e_jobs before) (e_jobs after)) (written (e_inbox x) (e_inbox before) (e_inbox after))
    (e_queue after) (e_now_ms after) (e_sequence after)
    (written (e_tasks x) (e_tasks before) (e_tasks after)) (written (e_calls x) (e_calls before) (e_calls after))
    (written (e_budgets x) (e_budgets before) (e_budgets after)).

Section written.
Context {V : Type} (stored before : list (string * V)).
Context (Hstored : fields_sorted stored = true).

Lemma written_get after k : map_get k (written stored before after) =
  match map_get k after with Some v => Some v | None => if has_key k before then None else map_get k stored end.
Proof.
  unfold written. induction after as [|[a v] l IH]; simpl.
  - rewrite map_get_retain by done. destruct (map_get k stored), (has_key k before); done.
  - rewrite map_get_insert, IH. by destruct (String.eqb k a).
Qed.

Lemma written_sorted after : fields_sorted (written stored before after) = true.
Proof.
  unfold written. induction after as [|[a v] l IH]; simpl; [by apply fields_sorted_retain|].
  by apply fields_sorted_insert.
Qed.

Lemma written_count p after : count p (written stored before after) ≤
  count p after + count p (map_retain (λ k _, negb (has_key k before)) stored).
Proof.
  unfold written. induction after as [|[a v] l IH]; simpl; [done|].
  etrans; [apply count_insert|]. unfold count in *. simpl. destruct (p v); simpl; lia.
Qed.
End written.

(** ** Steps *)

Section run.
Context {SJ : SerdeJson} {CL : CognitionLibs} {SD : SummaryDecoder}.
Context (config : CognitionConfig).

(** The engine at the time and the position of an event. *)
Definition at_event (now_ms : Z) (sequence : N) (e : Engine) : Engine :=
  set_e_sequence sequence (set_e_now_ms now_ms e).

(** What the plugin notes of the provenance of a summary. *)
Inductive provenance_note : Eng unit → Prop :=
  | note_begin_compaction call : provenance_note (begin_compaction_provenance call)
  | note_compaction_error call error : provenance_note (set_compaction_provenance_error call error)
  | note_compaction_verified call : provenance_note (set_compaction_provenance_verified call)
  | note_begin_checkpoint s : provenance_note (begin_checkpoint_provenance s)
  | note_checkpoint_error s error : provenance_note (set_checkpoint_provenance_error s error)
  | note_checkpoint_verified s : provenance_note (set_checkpoint_provenance_verified s).

Context (Hfits : budget_fits (cfg_budget config)).

Section working.
Context {WS : WorkingSet}.

Inductive cognition_step (e : Engine) : Engine → Prop :=
  | step_event now_ms sequence id kind value cause out e' :
      acceptable e id kind value →
      event config id kind value cause (at_event now_ms sequence e) = Some (out, e') → cognition_step e e'
  | step_note m e' : provenance_note m → m e = Some (tt, e') → cognition_step e e'
  | step_retire : cognition_step e (retire e)
  | step_routing_observation o : cognition_step e (add_routing_observation o e)
  | step_routing_job j origin : cognition_step e (add_routing_job j origin e)
  | step_unloaded counts : cognition_step e (set_unloaded_observations counts e).

(** Between events: the invariant, no scheduler running, nothing to recover. *)
Definition idle (e : Engine) : Prop := Inv e ∧ e_scheduling e = false ∧ e_resource_errors e = [].

Lemma idle_update s (f : Task → Task) e : idle e →
  (∀ t, map_get s (e_tasks e) = Some t → kept t (f t)) → idle (set_e_tasks (map_update s f (e_tasks e)) e).
Proof.
  intros (Hi & Hs & He) Hf. split; [|done]. unfold map_update. destruct (map_get s (e_tasks e)) as [t|] eqn:Ht; [|by destruct e].
  destruct (touch_task e s t (f t)) as (Hi1 & _); [done|done|by apply Hf|done].
Qed.

Lemma compacting_idle call (f : Task → Task) e : idle e → (∀ s t, map_get s (e_tasks e) = Some t → kept t (f t)) →
  ∃ e', compacting_call call f e = Some (tt, e') ∧ idle e'.
Proof.
  intros He Hf. unfold compacting_call, en_bind, en_get. destruct (map_get call (e_calls e)) as [s|]; [|by exists e].
  eexists. split; [done|]. apply idle_update; [done|]. intros t Ht. destruct (t_compacting t); [by eapply Hf|].
  destruct He as [Hi _]. destruct (kept_wf e s t Hi Ht). by apply kept_task_refl.
Qed.

Lemma note_idle m e : provenance_note m → idle e → ∃ e', m e = Some (tt, e') ∧ idle e'.
Proof.
  intros Hm He. destruct He as [Hi Hr]. assert (idle e) as He by done.
  destruct Hm; try (apply compacting_idle; [done|intros s' t Ht; plain_kept]);
    (eexists; split; [done|]; apply idle_update; [done|intros t Ht; plain_kept]).
Qed.

Lemma event_idle now_ms sequence id kind value cause e : idle e → acceptable e id kind value →
  ∃ out e', event config id kind value cause (at_event now_ms sequence e) = Some (out, e') ∧ idle e'.
Proof.
  intros (Hi & Hs & He) Hacc. destruct (wp_some _ _ _ (wp_event config Hfits id kind value cause (at_event now_ms sequence e)
    Hi Hs He (mild_acceptable e (at_event now_ms sequence e) _ _ _ ltac:(by split) Hacc))) as (out & e' & E & Hf).
  exists out, e'. split; [done|]. destruct Hf as (Hi' & Hs' & He'). split; [done|]. cbn in Hs', He'. split; congruence.
Qed.

Lemma steps_idle e e' : rtc cognition_step e e' → idle e → idle e'.
Proof.
  induction 1 as [|e0 e1 e2 Hst _ IH]; [done|]. intros H0. apply IH.
  destruct Hst as [now sequence id kind value cause out e' Hacc Hev|m e' Hm Hst| |o|j origin|counts].
  - destruct (event_idle now sequence id kind value cause e0 H0 Hacc) as (out' & e'' & E & Hx). congruence.
  - destruct (note_idle m e0 Hm H0) as (e'' & E & Hx). congruence.
  - destruct H0 as (Hi & Hs & He). destruct (retire_ok e0 Hi) as (Hi' & E1 & E2). split; [done|]. split; congruence.
  - done.
  - done.
  - done.
Qed.
End working.

(** ** Deliveries *)

(** Of all that is stored nothing is outside. *)
#[local] Instance whole : WorkingSet := mkWorkingSet (λ _, True) (λ _, False).

Section delivery.
Context (x : Engine).

(** What a delivery may take in: what is stored of it is loaded. *)
Definition working (e : Engine) : WorkingSet := mkWorkingSet
  (λ o, (has_key o (e_jobs x) = true → has_key o (e_jobs e) = true) ∧
        (has_key (router_of o) (e_tasks x) = true → has_key (router_of o) (e_tasks e) = true))
  (λ o, has_key o (e_inbox e) = true).

(** Routers are loaded with their observations: no payload names one as a job,
    and the observation has not been forgotten. *)
Definition routers_loaded (e : Engine) : Prop := ∀ s t o,
  map_get s (e_tasks e) = Some t → t_association t = Some o → has_key o (e_inbox e) = true.

(** The engine in the middle of a delivery. *)
Definition delivering (n : Named) (e : Engine) : Prop :=
  routers_loaded (load_view x n) ∧ rtc (@cognition_step (working (load_view x n))) (load_view x n) e.

Inductive delivery : Engine → Prop :=
  | deliver n e : delivering n e → delivery (write_back x (load_view x n) e).

Context (Hx : Inv x) (n : Named).
Abbreviation J := (view_jobs x n).
Abbreviation e := (load_view x n).

Lemma view_session s t : map_get s (e_tasks x) = Some t → str_mem s (view_sessions x n) = str_mem (t_root t) J.
Proof.
  intros Ht. apply eq_true_iff_eq. rewrite !str_mem_spec. unfold view_sessions. rewrite elem_of_app. split.
  - intros [Hs|Hs].
    + apply elem_of_app. right. apply list_elem_of_omap. exists s. by rewrite Ht.
    + apply list_elem_of_fmap in Hs as ([s' t'] & -> & Hin). apply list_elem_of_In, filter_In in Hin as [Hin Hj].
      apply list_elem_of_In, map_get_elem in Hin; [|apply fields_sorted_nodup, Hx].
      simpl in *. assert (t' = t) as -> by congruence. by apply str_mem_spec.
  - intros Hj. right. apply list_elem_of_fmap. exists (s, t). split; [done|]. apply list_elem_of_In, filter_In.
    split; [by apply list_elem_of_In, map_get_In|by apply str_mem_spec].
Qed.

Lemma load_task s t : map_get s (e_tasks e) = Some t ↔ map_get s (e_tasks x) = Some t ∧ str_mem (t_root t) J = true.
Proof.
  cbn. rewrite map_get_retain by apply Hx. destruct (map_get s (e_tasks x)) as [u|] eqn:Hu; [|by split; [|intros [? _]]].
  rewrite (view_session s u Hu). destruct (str_mem (t_root u) J) eqn:E; split; try done.
  - by intros [= <-].
  - by intros [[= <-] _].
  - intros [[= <-] ?]. congruence.
Qed.
Lemma load_job k j : map_get k (e_jobs e) = Some j ↔ map_get k (e_jobs x) = Some j ∧ str_mem k J = true.
Proof.
  cbn. rewrite map_get_retain by apply Hx. destruct (map_get k (e_jobs x)) as [u|] eqn:Hu; [|by split; [|intros [? _]]].
  destruct (str_mem k J) eqn:E; split; try done; by intros [? ?].
Qed.
Lemma load_budget k : str_mem k J = true → has_key k (e_budgets x) = true → has_key k (e_budgets e) = true.
Proof. unfold has_key. intros Hk. cbn. rewrite map_get_retain by apply Hx. rewrite Hk. by destruct (map_get k _). Qed.

Lemma router_stored o t : map_get (router_of o) (e_tasks x) = Some t → has_key o (e_jobs x) = false.
Proof. intros Ht. by destruct (router_facts x Hx _ t Ht o (router_at x o t Hx Ht)) as (_ & _ & _ & _ & _ & _ & ? & _). Qed.

(** The part that is loaded keeps the invariant. *)
Lemma load_inv : routers_loaded e → @Inv (working e) e.
Proof.
  intros Hr. pose proof Hx as []. split; try done.
  - by apply fields_sorted_retain.
  - by apply fields_sorted_retain.
  - by apply fields_sorted_retain.
  - by apply fields_sorted_retain.
  - intros s t [Ht _]%load_task. by eauto.
  - intros s t Hs. pose proof Hs as [Ht Hj]%load_task. pose proof (inv_session s t Ht) as Hok. unfold session_ok in *.
    destruct (t_association t) as [o|] eqn:Ha, (t_parent t); [done| | |].
    + destruct Hok as (E1 & E2 & E3 & E4 & E5 & E6). split_and!; try done; [by eapply Hr| |].
      * apply load_budget; [congruence|done].
      * apply has_key_false. destruct (map_get o (e_jobs e)) as [j|] eqn:Ej; [|done].
        apply load_job in Ej as [Ej _]. apply has_key_false in E6. congruence.
    + destruct Hok as (E1 & E2 & E3 & j & Ej & Eb). split_and!; try done; try lia. exists j.
      split; [by apply load_job|]. intros He. apply load_budget; auto.
    + destruct Hok as (E1 & E2 & (j & Ej & He) & Eb). rewrite E1 in Hj. split_and!; try done; [|by apply load_budget].
      exists j. split; [by apply load_job|done].
  - intros k j [Hj _]%load_job. by eauto.
  - intros k j [Hj Hk]%load_job He. destruct (inv_root k j Hj He) as (t & Ht & Ha & Hp). exists t. split; [|done].
    apply load_task. split; [done|]. by destruct (root_facts x Hx k t Ht Ha Hp) as (-> & _).
  - intros k o. cbn. rewrite map_get_retain by done. destruct (map_get k (e_inbox x)) as [u|] eqn:E; [|done].
    destruct (view_inbox x n k u); [|done]. intros [= <-]. by eauto.
  - intros k m. cbn. rewrite map_get_retain by done. destruct (map_get k (e_budgets x)) as [u|] eqn:E; [|done].
    destruct (_ || _); [|done]. intros [= <-]. by eauto.
  - intros r. etrans; [apply count_retain|done].
  - intros k Hk. split; [done|]. intros [t Ht]%has_key_true. apply router_stored in Ht.
    apply has_key_true in Hk as [j Hj]. apply load_job in Hj as [Hj _]. apply has_key_false in Ht. congruence.
  - intros s t o Hs Ha. pose proof Hs as [Ht _]%load_task.
    destruct (router_facts x Hx s t Ht o Ha) as (_ & _ & -> & _ & _ & _ & Hno & _). split; [congruence|].
    intros _. apply has_key_true. by exists t.
Qed.

(** ** Writing back *)

Section write.
Context (e' : Engine) (He : @Inv (working e) e').
Abbreviation x' := (write_back x e e').

Lemma write_task s : map_get s (e_tasks x') = match map_get s (e_tasks e') with Some t => Some t
  | None => if has_key s (e_tasks e) then None else map_get s (e_tasks x) end.
Proof. apply written_get, Hx. Qed.
Lemma write_job k : map_get k (e_jobs x') = match map_get k (e_jobs e') with Some t => Some t
  | None => if has_key k (e_jobs e) then None else map_get k (e_jobs x) end.
Proof. apply written_get, Hx. Qed.
Lemma write_inbox k : map_get k (e_inbox x') = match map_get k (e_inbox e') with Some t => Some t
  | None => if has_key k (e_inbox e) then None else map_get k (e_inbox x) end.
Proof. apply written_get, Hx. Qed.
Lemma write_keeps k : (has_key k (e_inbox e') = true → has_key k (e_inbox x') = true) ∧
  (has_key k (e_budgets e') = true → has_key k (e_budgets x') = true).
Proof. unfold has_key. cbn. rewrite !written_get by apply Hx. split; by case_match. Qed.

(** A job the delivery holds is loaded if it was stored. *)
Lemma held_job k j : map_get k (e_jobs e') = Some j → has_key k (e_jobs x) = true → str_mem k J = true.
Proof.
  intros Hj Hk. assert (has_key k (e_jobs e') = true) as H1 by (apply has_key_true; by exists j).
  apply (inv_entered _ _ _ _ _ He) in H1 as [H1 _]. apply H1, has_key_true in Hk as [j' Hj']. by apply load_job in Hj' as [_ ?].
Qed.
(** A job that is not loaded stays as it is. *)
Lemma job_outside k j : map_get k (e_jobs x) = Some j → str_mem k J = false → map_get k (e_jobs x') = Some j.
Proof.
  intros Hj Hk. rewrite write_job. destruct (map_get k (e_jobs e')) as [j'|] eqn:Hj'.
  { rewrite (held_job k j' Hj') in Hk; [done|]. apply has_key_true. by exists j. }
  destruct (has_key k (e_jobs e)) eqn:Hl; [|done]. apply has_key_true in Hl as [j' [_ Hl]%load_job]. congruence.
Qed.
Lemma job_held k j : map_get k (e_jobs e') = Some j → map_get k (e_jobs x') = Some j.
Proof. intros Hj. by rewrite write_job, Hj. Qed.
Lemma task_outside s t : map_get s (e_tasks x) = Some t → map_get s (e_tasks e) = None → str_mem (t_root t) J = false.
Proof.
  intros Ht Hn. destruct (str_mem (t_root t) J) eqn:E; [|done].
  assert (map_get s (e_tasks e) = Some t) by by apply load_task. congruence.
Qed.
(** The budget of a top session that is not loaded stays. *)
Lemma budget_outside s t : map_get s (e_tasks x) = Some t → t_root t = s → str_mem s J = false →
  has_key s (e_budgets x) = true → has_key s (e_budgets x') = true.
Proof.
  intros Ht Hr Hs. unfold has_key. cbn. rewrite written_get by apply Hx. destruct (map_get s (e_budgets e')); [done|].
  unfold has_key. cbn. rewrite map_get_retain by apply Hx. destruct (map_get s (e_budgets x)) as [b|]; [|done].
  rewrite Hs, (view_session s t Ht), Hr, Hs. done.
Qed.
(** The observations that are stored stay. *)
Lemma inbox_stays k : has_key k (e_inbox x) = true → has_key k (e_inbox x') = true.
Proof.
  intros Hk. destruct (has_key k (e_inbox e)) eqn:Hl.
  - apply write_keeps, (inv_stay _ _ _ _ _ He), Hl.
  - unfold has_key. rewrite write_inbox, Hl. by case_match.
Qed.

Lemma session_held s t : map_get s (e_tasks e') = Some t → session_ok (e_jobs x') (e_inbox x') (e_budgets x') s t.
Proof.
  intros Ht. pose proof (inv_session _ _ _ _ _ He s t Ht) as Hok. unfold session_ok in *.
  destruct (t_association t) as [o|] eqn:Ha, (t_parent t); [done| | |].
  - destruct Hok as (E1 & E2 & E3 & E4 & E5 & E6). split_and!; try done; [by apply write_keeps..|].
    apply has_key_false. rewrite write_job. apply has_key_false in E6. rewrite E6.
    destruct (inv_routers _ _ _ _ _ He s t o Ht Ha) as [Hen _].
    destruct (has_key o (e_jobs e)) eqn:Hl; [done|]. destruct (map_get o (e_jobs x)) as [j|] eqn:Hj; [|done].
    discriminate Hen. apply has_key_true. by exists j.
  - destruct Hok as (E1 & E2 & E3 & j & Ej & Eb). split_and!; try done; try lia. exists j.
    split; [by apply job_held|]. intros H. by apply write_keeps, Eb.
  - destruct Hok as (E1 & E2 & (j & Ej & Eh) & Eb). split_and!; try done; [|by apply write_keeps].
    exists j. split; [by apply job_held|done].
Qed.

Lemma session_outside s t : map_get s (e_tasks x) = Some t → map_get s (e_tasks e) = None →
  session_ok (e_jobs x') (e_inbox x') (e_budgets x') s t.
Proof.
  intros Ht Hn. pose proof (task_outside s t Ht Hn) as Hj. pose proof (inv_session _ _ _ _ _ Hx s t Ht) as Hok.
  unfold session_ok in *. destruct (t_association t) as [o|] eqn:Ha, (t_parent t) as [p|] eqn:Hp; [done| | |].
  - destruct Hok as (E1 & E2 & E3 & E4 & E5 & E6). rewrite E1 in Hj.
    split_and!; try done; [by apply inbox_stays|by eapply budget_outside|].
    apply has_key_false. rewrite write_job. destruct (map_get o (e_jobs e')) as [j|] eqn:Ej.
    + assert (has_key o (e_jobs e') = true) as H1 by (apply has_key_true; by exists j).
      apply (inv_entered _ _ _ _ _ He) in H1 as [_ H1]. rewrite <- E2 in H1.
      assert (has_key s (e_tasks e) = true) as H2 by (apply H1, has_key_true; by exists t).
      apply has_key_false in Hn. congruence.
    + destruct (has_key o (e_jobs e)); [done|by apply has_key_false].
  - destruct Hok as (E1 & E2 & E3 & j & Ej & Eb). split_and!; try done; try lia. exists j.
    split; [by apply job_outside|]. intros Hl. destruct (inv_root _ _ _ _ _ Hx _ _ Ej Hl) as (u & Hu & Hau & Hpu).
    destruct (root_facts x Hx _ u Hu Hau Hpu) as (Er & _). by eapply budget_outside; eauto.
  - destruct Hok as (E1 & E2 & (j & Ej & El) & Eb). rewrite E1 in Hj. split_and!; try done; [|by eapply budget_outside].
    exists j. split; [by apply job_outside|done].
Qed.

Lemma write_task_back s t : map_get s (e_tasks x') = Some t →
  map_get s (e_tasks e') = Some t ∨ map_get s (e_tasks x) = Some t ∧ map_get s (e_tasks e) = None.
Proof.
  rewrite write_task. destruct (map_get s (e_tasks e')); [by left|]. destruct (has_key s (e_tasks e)) eqn:E; [done|].
  apply has_key_false in E. by right.
Qed.
Lemma write_job_back k j : map_get k (e_jobs x') = Some j →
  map_get k (e_jobs e') = Some j ∨ map_get k (e_jobs x) = Some j ∧ str_mem k J = false.
Proof.
  rewrite write_job. destruct (map_get k (e_jobs e')); [by left|]. destruct (has_key k (e_jobs e)) eqn:E; [done|].
  intros Hj. right. split; [done|]. destruct (str_mem k J) eqn:Hk; [|done]. apply has_key_false in E.
  assert (map_get k (e_jobs e) = Some j) by (by apply load_job). congruence.
Qed.

(** A job that has not ended keeps its root session. *)
Lemma root_outside k j : map_get k (e_jobs x) = Some j → ended j = false → str_mem k J = false → root_session (e_tasks x') k.
Proof.
  intros Hj Hl Hk. destruct (inv_root _ _ _ _ _ Hx k j Hj Hl) as (t & Ht & Ha & Hp).
  destruct (root_facts x Hx k t Ht Ha Hp) as (Er & _). exists t. split; [|done]. rewrite write_task.
  destruct (map_get k (e_tasks e')) as [u|] eqn:Hu.
  - destruct (inv_job _ _ _ _ _ Hx k j Hj) as [Hpl _].
    destruct (@plain_session (working e) _ _ _ _ _ He k u Hu Hpl) as [Hau Hpu].
    destruct (@root_facts (working e) e' He k u Hu Hau Hpu) as (_ & _ & (j' & Hj' & _) & _).
    rewrite (held_job k j' Hj') in Hk; [done|]. apply has_key_true. by exists j.
  - destruct (has_key k (e_tasks e)) eqn:E; [|done]. apply has_key_true in E as [v [Hv Hr]%load_task].
    assert (v = t) as -> by congruence. congruence.
Qed.

(** The queries of one job are all loaded, or none is. *)
Lemma write_children r : count (child_of r) (e_tasks x') ≤ 4.
Proof.
  pose proof (written_count (e_tasks x) (e_tasks e) (child_of r) (e_tasks e')) as Hc.
  set (rest := map_retain _ (e_tasks x)) in Hc.
  assert (∀ s t, map_get s rest = Some t → map_get s (e_tasks x) = Some t ∧ map_get s (e_tasks e) = None) as Hrest.
  { intros s t. unfold rest. rewrite map_get_retain by apply Hx. destruct (map_get s (e_tasks x)); [|done].
    destruct (has_key s (e_tasks e)) eqn:E; [done|]. apply has_key_false in E. by intros [= <-]. }
  assert (fields_sorted rest = true) as Hsorted by (apply fields_sorted_retain, Hx).
  assert (∀ t, child_of r t = true → t_root t = r ∧ ∃ p, t_parent t = Some p) as Hchild.
  { intros t [H1 H2%String.eqb_eq]%andb_true_iff. split; [done|]. unfold is_child in H1. destruct (t_parent t); [by eexists|done]. }
  pose proof (inv_children _ _ _ _ _ He r) as H1. pose proof (inv_children _ _ _ _ _ Hx r) as H2.
  assert (count (child_of r) rest ≤ count (child_of r) (e_tasks x)) as H3 by apply count_retain.
  change (written (e_tasks x) (e_tasks e) (e_tasks e')) with (e_tasks x') in Hc.
  destruct (decide (0 < count (child_of r) (e_tasks e'))) as [Hpos|]; [|lia].
  rewrite (count_none (child_of r) rest) in Hc; [lia|done|]. intros s t [Ht Hn]%Hrest.
  destruct (child_of r t) eqn:Er; [|done]. apply Hchild in Er as [Er [p Hp]]. pose proof (task_outside s t Ht Hn) as Hj.
  destruct (count_some _ _ (inv_tasks_sorted _ _ _ _ _ He) Hpos) as (s' & t' & Ht' & [Er' [p' Hp']]%Hchild).
  destruct (@child_facts (working e) e' He s' t' Ht' _ Hp') as (_ & _ & _ & _ & _ & j' & Hj' & _).
  destruct (child_facts x Hx s t Ht _ Hp) as (_ & _ & _ & _ & _ & j & Hjx & _). rewrite Er' in Hj'. rewrite Er in *.
  rewrite (held_job r j' Hj') in Hj; [done|]. apply has_key_true. by exists j.
Qed.

Lemma write_calls : length (e_calls x') ≤ 1.
Proof.
  pose proof (written_count (e_calls x) (e_calls e) (λ _, true) (e_calls e')) as Hc.
  rewrite (count_none _ (map_retain _ _)) in Hc.
  - pose proof (inv_calls _ _ _ _ _ He) as Hl. unfold count in Hc. cbn.
    assert (∀ m : list (string * string), length (List.filter (λ '(_, _), true) m) = length m) as Hall.
    { induction m as [|[a b] m IH]; simpl; [done|]. by rewrite IH. }
    rewrite !Hall in Hc. cbn in Hc. lia.
  - apply fields_sorted_retain, Hx.
  - intros k v. rewrite map_get_retain by apply Hx. cbn. unfold has_key. by destruct (map_get k (e_calls x)).
Qed.

(** What is written back keeps the invariant. *)
Lemma write_inv : Inv x'.
Proof.
  split; try (apply written_sorted, Hx).
  - intros s t [Ht|[Ht _]]%write_task_back; [exact (inv_wf _ _ _ _ _ He _ _ Ht)|exact (inv_wf _ _ _ _ _ Hx _ _ Ht)].
  - intros s t [Ht|[Ht Hn]]%write_task_back; [by apply session_held|by apply session_outside].
  - intros k j [Hj|[Hj _]]%write_job_back; [exact (inv_job _ _ _ _ _ He _ _ Hj)|exact (inv_job _ _ _ _ _ Hx _ _ Hj)].
  - intros k j [Hj|[Hj Hk]]%write_job_back Hl; [|by eapply root_outside].
    destruct (inv_root _ _ _ _ _ He k j Hj Hl) as (t & Ht & Hr). exists t. by rewrite write_task, Ht.
  - intros k o. rewrite write_inbox. destruct (map_get k (e_inbox e')) as [u|] eqn:E.
    + intros [= <-]. by eapply (inv_inbox _ _ _ _ _ He).
    + destruct (has_key k _); [done|]. apply (inv_inbox _ _ _ _ _ Hx).
  - exact write_calls.
  - intros k m. cbn. rewrite written_get by apply Hx. destruct (map_get k (e_budgets e')) as [u|] eqn:E.
    + intros [= <-]. by eapply (inv_budgets _ _ _ _ _ He).
    + destruct (has_key k _); [done|]. apply (inv_budgets _ _ _ _ _ Hx).
  - exact write_children.
  - done.
  - done.
  - done.
Qed.
End write.

Lemma delivering_idle e' : delivering n e' → @idle (working e) e'.
Proof. intros [Hr Hs]. eapply steps_idle; [exact Hs|]. split; [by apply load_inv|done]. Qed.
End delivery.

(** What deliveries leave stored, one after another. *)
Definition stored_reachable : Engine → Prop := rtc delivery engine_default.

Lemma stored_inv x : stored_reachable x → Inv x.
Proof.
  unfold stored_reachable. intros H. remember engine_default as x0 eqn:E0.
  assert (Inv x0) as H0 by (subst; split; try done; unfold count; simpl; lia). clear E0.
  induction H as [|x0 x1 x2 Hd _ IH]; [done|]. apply IH. destruct Hd as [n e Hd].
  apply write_inv; [done|]. by apply (delivering_idle x0 H0 n e Hd).
Qed.

(** (C3) The engine never panics: after any number of deliveries, each on the
    part of the stored state it loaded, an event the engine relies on returns
    drafts and an engine.  Such an event is an observation with a plain id, an
    object or null for its payload and, unless it is known, no job or router
    outside of what is loaded; code yielded by a session that is no router; a
    failed model call or a resource report about sessions of jobs that have
    not ended; or any other event.  The loads are those in which no record
    exceeds its size bound and a router comes with its observation. *)
Theorem engine_never_panics x n e now_ms sequence id kind value cause : stored_reachable x → delivering x n e →
  @acceptable (working x (load_view x n)) e id kind value →
  is_Some (event config id kind value cause (at_event now_ms sequence e)).
Proof.
  intros Hx Hd Hacc. pose proof (delivering_idle x (stored_inv x Hx) n e Hd) as Hi.
  by destruct (@event_idle (working x (load_view x n)) now_ms sequence id kind value cause e Hi Hacc) as (out & e' & -> & _).
Qed.

(** (C18) What deliveries never exceed, over such events and loads: one model
    call in flight, 32 calls of a session's budget, four queries of a job at
    a time and a depth of four. *)
Theorem cognition_bounded x : stored_reachable x →
  length (e_calls x) ≤ 1 ∧
  (∀ s b, map_get s (e_budgets x) = Some b → (b ≤ 32)%N) ∧
  (∀ j, length (List.filter (λ '(_, t), opt_is_some (t_parent t) && String.eqb (t_root t) j) (e_tasks x)) ≤ 4) ∧
  (∀ s t, map_get s (e_tasks x) = Some t → (t_depth t ≤ 4)%N).
Proof.
  intros Hi%stored_inv. split_and!; [apply Hi|apply Hi|apply (inv_children _ _ _ _ _ Hi)|].
  intros s t Ht. destruct (t_parent t) as [p|] eqn:Hp.
  - by destruct (child_facts x Hi s t Ht p Hp) as (_ & _ & [_ Hd] & _).
  - destruct (t_association t) as [o|] eqn:Ha.
    + destruct (router_facts x Hi s t Ht o Ha) as (_ & _ & _ & -> & _). lia.
    + destruct (root_facts x Hi s t Ht Ha Hp) as (_ & -> & _). lia.
Qed.

(** What one session of an engine is: the root of a job that has not ended,
    the router of an observation, or a query below the root of a job. *)
Inductive session_kind (e : Engine) (s : string) (t : Task) : Prop :=
  | root_kind j : t_root t = s → t_parent t = None → t_association t = None →
      map_get s (e_jobs e) = Some j → is_terminal (j_status j) = false → session_kind e s t
  | router_kind o ob : s = "associate:" +:+ o → t_parent t = None → t_association t = Some o →
      map_get o (e_inbox e) = Some ob → map_get o (e_jobs e) = None → session_kind e s t
  | child_kind p j r : s = t_root t +:+ ":" +:+ r → t_parent t = Some p → t_association t = None →
      map_get (t_root t) (e_jobs e) = Some j → session_kind e s t.

(** (C19) Over such events and loads, every stored session is a root, a router
    or a child, and every stored job that has not ended has its root session
    and a budget. *)
Theorem sessions_well_formed x : stored_reachable x →
  (∀ s t, map_get s (e_tasks x) = Some t → session_kind x s t ∧ is_object (t_context t) = true) ∧
  (∀ k j, map_get k (e_jobs x) = Some j → is_terminal (j_status j) = false →
     ∃ t, map_get k (e_tasks x) = Some t ∧ t_root t = k ∧ t_parent t = None ∧ has_key k (e_budgets x) = true).
Proof.
  intros Hi%stored_inv. split.
  - intros s t Ht. split; [|by destruct (inv_wf _ _ _ _ _ Hi _ _ Ht)]. destruct (t_parent t) as [p|] eqn:Hp.
    + destruct (child_facts x Hi s t Ht p Hp) as (Ha & [r Hb] & _ & _ & _ & j & Hj & _). by eapply child_kind.
    + destruct (t_association t) as [o|] eqn:Ha.
      * destruct (router_facts x Hi s t Ht o Ha) as (_ & _ & Es & _ & [ob Ho]%has_key_true & _ & Hn%has_key_false & _).
        by eapply router_kind.
      * destruct (root_facts x Hi s t Ht Ha Hp) as (Er & _ & (j & Hj & He) & _). by eapply root_kind.
  - intros k j Hj He. destruct (inv_root _ _ _ _ _ Hi _ _ Hj He) as (t & Ht & Ha & Hp).
    destruct (root_facts x Hi k t Ht Ha Hp) as (Er & _ & _ & Hb). by exists t.
Qed.

(** ** Delegated history *)

(** (C33) A child's window lies inside the one its parent may read, and its
    context names exactly that window. *)
Theorem delegated_window_confined id root origin context p y depth e e' : (0 < depth)%N →
  start config id root origin context (Some (p, y)) depth e = Some (tt, e') →
  ∃ t, map_get id (e_tasks e') = Some t ∧ (t_context t).["range"] = window_value (t_window t) ∧
    ∀ w, t_window t = Some w → ∃ allowed, history_window e p = Some allowed ∧
      (0 < win_limit w)%N ∧ (win_after allowed ≤ win_after w)%N ∧ (window_end w ≤ window_end allowed)%N.
Proof.
  intros Hd. unfold start. rewrite (proj2 (N.eqb_neq depth 0)) by lia. unfold en_bind, en_get, en_unwrap.
  destruct (index_set "trigger" _ context) as [c|] eqn:Hc; [|done]. simpl.
  set (window := requested ← requested_window c; _).
  destruct (index_set "range" _ c) as [c'|] eqn:Hc'; [|done]. simpl. intros [= <-]. cbn.
  rewrite map_get_insert, String.eqb_refl. eexists. split; [done|]. cbn. split.
  - assert (payload_ok c) as Hok by (destruct c; try done; [by left|by right]).
    rewrite index_set_some in Hc' by done. injection Hc' as <-. by apply value_index_set.
  - intros w Hw. unfold window in Hw. apply bind_Some in Hw as (requested & Hreq & Hw). simpl in Hw.
    apply bind_Some in Hw as (allowed & Hal & Hw). exists allowed. split; [done|].
    unfold requested_window in Hreq. apply bind_Some in Hreq as (range & _ & Hreq).
    apply bind_Some in Hreq as (a & _ & Hreq). apply bind_Some in Hreq as (l & _ & Hreq).
    destruct (N.leb_spec l u32_max) as [Hl|]; [|done]. injection Hreq as <-.
    unfold clamp_window in Hw. cbn in Hw. destruct (N.ltb_spec (N.max a (win_after allowed))
      (N.min (window_end (mkWindow a l)) (window_end allowed))) as [Hlt|]; [|done]. injection Hw as <-.
    unfold window_end, saturating_add_u64 in *. cbn in *. rewrite N.mod_small by lia. lia.
Qed.
End run.
