(* ===== verification/CognitionSample.v ===== *)
(** A concrete run of the reasoning plugin's engine, with concrete libraries,
    and what its theorems say of it. *)
From stdpp Require Import base tactics option list strings sorting relations.
From Stdlib Require Import ZArith NArith Lia Ascii.
From S2P Require Import Prelude Event Utf8 Json JsonFlat CognitionText Compaction CognitionData CognitionBase Cognition CognitionSpec CognitionTurn CognitionEvents CognitionResults CognitionSafety CognitionRun.
Import JsonFlat.Flat.

Module CognitionLibrary.
#[export] Instance cognition_libs : CognitionLibs := {|
  cell_hash source revision kind fields := str_len (source +:+ kind +:+ String.concat "" fields) + revision;
  blob_from_value _ := None;
  window_from_value v :=
    Some (after ← as_u64 v.["after"]; limit ← as_u64 v.["limit"]; Some (mkWindow after limit));
  parent_from_value _ := Some None;
|}%N.
#[export] Instance summaries : SummaryDecoder := {| summary_from_value _ := None |}.

Definition config : CognitionConfig := mkCognitionConfig [] [] (mkBudgetConfig None None None).
Lemma config_fits : budget_fits (cfg_budget config).
Proof. by vm_compute. Qed.

(** The events whose acceptance is evident. *)
Definition accepted (x e : Engine) (id kind : string) (v : Value) : bool :=
  if String.eqb kind "observation.received"
  then negb (str_contains ":" id) && negb (String.eqb id "associate") && is_object v &&
       negb (has_key id (e_jobs x) || has_key (router_of id) (e_tasks x) || has_key id (e_jobs e))
  else if String.eqb kind "code.yielded"
  then is_none_or (map_get (str_or_empty v.["sessionId"]) (e_tasks e)) (λ t, negb (opt_is_some (t_association t)))
  else negb (str_mem kind ["model.failed"; "cognition.resource-exhausted"]).

(** What one event names. *)
Definition named (id kind : string) (v : Value) : Named :=
  mkNamed (option_list (as_str v.["jobId"])) (option_list (as_str v.["sessionId"]))
    (option_list (as_str v.["resolvesObservationId"]))
    (if String.eqb kind "observation.received" then [id] else []) [].
Definition routers_ok (e : Engine) : bool :=
  forallb (λ '(_, t), match t_association t with Some o => has_key o (e_inbox e) | None => true end) (e_tasks e).

(** Accepted events in turn, one a second, each delivered alone. *)
Fixpoint run (sequence : N) (events : list (string * string * Value)) (x : Engine) : option (list string * Engine) :=
  match events with
  | [] => Some ([], x)
  | (id, kind, value) :: events =>
      let e := load_view x (named id kind value) in
      if accepted x e id kind value && routers_ok e then
        '(out, e') ← event config id kind value None (at_event (1000 * Z.of_N sequence) sequence e);
        '(kinds, x) ← run (sequence + 1) events (write_back x e e');
        Some ((d_kind <$> out) ++ kinds, x)
      else None
  end.

Definition says (call : string) (name : string) (arguments : Value) : Value := object
  [("call_id", Str call);
   ("message", object [("role", Str "assistant");
      ("content", Array [object [("kind", Str "tool-call"); ("call_id", Str "t"); ("name", Str name);
                                 ("arguments", arguments)]])])].

(** A person's message; a cell that starts a query and ends without waiting
    for it; a cell of the query; and the answer. *)
Definition observed : string * string * Value := ("o", "observation.received", object
  [("provider", Str "chat"); ("conversationId", Str "c"); ("message", object [("text", Str "hello")])]).
Definition conversation : list (string * string * Value) :=
  [observed;
   ("e2", "model.completed", says "o:model:1000:1" "js" (object [("code", Str "rlm.query(q)")]));
   ("e3", "code.yielded", object [("sessionId", Str "o"); ("id", Num (PosInt 1)); ("method", Str "rlm.query");
      ("args", object [("question", Str "who?");
                       ("range", object [("after", Num (PosInt 5)); ("limit", Num (PosInt 20))])])]);
   ("e4", "code.completed", object [("sessionId", Str "o"); ("requestEventId", Str "e2x"); ("value", Str "done")]);
   ("e5", "model.completed", says "o:model:1000:2" "js" (object [("code", Str "work()")]));
   ("e6", "model.completed", says "o:model:1000:3" "yield"
      (object [("action", Str "complete"); ("reply", Str "hi")]))].

(** What the plugin reports when a session exceeds its resources. *)
Definition report (session : string) : Value := object [("sessionId", Str session)].
Definition query : string := "o:" +:+ to_string (Num (PosInt 1)).

Lemma accepted_acceptable x n e id kind v : accepted x e id kind v = true →
  @acceptable (working x (load_view x n)) e id kind v.
Proof.
  unfold accepted. intros H. split; intros ->; cbn -[is_object str_contains has_key] in H; try done.
  - apply andb_true_iff in H as [[[H1 H2]%andb_true_iff H3]%andb_true_iff H4].
    apply negb_true_iff in H1, H2, H4. apply orb_false_iff in H4 as [[H4 H5]%orb_false_iff H6].
    split; [split; [done|by apply String.eqb_neq]|]. split; [by right|]. right. split; [|done].
    split; [rewrite H4|rewrite H5]; done.
  - intros t Ht. rewrite Ht in H. simpl in H. by destruct (t_association t).
Qed.
Lemma routers_ok_loaded e : fields_sorted (e_tasks e) = true → routers_ok e = true → routers_loaded e.
Proof.
  intros Hs H s t o Ht Ha. unfold routers_ok in H. rewrite forallb_forall in H.
  specialize (H (s, t) ltac:(by apply list_elem_of_In, map_get_In)). simpl in H. by rewrite Ha in H.
Qed.
Lemma run_delivers sequence events x kinds x' : run sequence events x = Some (kinds, x') →
  stored_reachable config x → stored_reachable config x'.
Proof.
  revert sequence x kinds. induction events as [|[[id kind] v] events IH]; intros sequence x kinds; cbn [run].
  { by intros [= <- <-]. }
  set (n := named id kind v). set (e := load_view x n).
  destruct (accepted x e id kind v && routers_ok e) eqn:Ha; [|done]. apply andb_true_iff in Ha as [Ha Hr].
  intros H Hx. apply bind_Some in H as ([out e'] & Hev & H).
  apply bind_Some in H as ([ks x2] & Hrun & H). injection H as <- <-. eapply IH; [exact Hrun|].
  eapply rtc_r; [exact Hx|]. apply deliver. split.
  - apply routers_ok_loaded; [|exact Hr]. apply fields_sorted_retain, (stored_inv config config_fits x Hx).
  - eapply rtc_once, step_event; [by apply accepted_acceptable|exact Hev].
Qed.

(** After three events: the root, its query, and one call in flight. *)
Lemma query_runs : ∃ kinds x, run 1 (take 3 conversation) engine_default = Some (kinds, x) ∧
  (e_tasks x).*1 = ["o"; query] ∧ length (e_calls x) = 1.
Proof.
  assert (match run 1 (take 3 conversation) engine_default with
          | Some (_, x) => (e_tasks x).*1 = ["o"; query] ∧ length (e_calls x) = 1 | None => False end) as H
    by (vm_compute; done).
  destruct (run 1 (take 3 conversation) engine_default) as [[kinds x]|]; [|done]. by exists kinds, x.
Qed.

(** A root that answers while a query of it still runs leaves the query
    behind; a resource report about the query then panics. *)
Theorem orphan_report_panics : ∃ kinds x, run 1 conversation engine_default = Some (kinds, x) ∧
  event config "e7" "cognition.resource-exhausted" (report query) None
    (at_event 7000 7 (load_view x (named "e7" "cognition.resource-exhausted" (report query)))) = None.
Proof.
  assert (match run 1 conversation engine_default with
          | Some (_, x) => event config "e7" "cognition.resource-exhausted" (report query) None
              (at_event 7000 7 (load_view x (named "e7" "cognition.resource-exhausted" (report query)))) = None
          | None => False end) as H by (vm_compute; done).
  destruct (run 1 conversation engine_default) as [[kinds x]|]; [|done]. by exists kinds, x.
Qed.

(** Two conversations: the queries of the first run cells, so that nothing of
    it is loaded when the second asks. *)
Definition asks (session : string) (n : N) : string * string * Value :=
  ("q", "code.yielded", object [("sessionId", Str session); ("id", Num (PosInt n)); ("method", Str "rlm.query");
     ("args", object [("question", Str "who?")])]).
Definition codes (call : string) : string * string * Value :=
  ("c", "model.completed", says call "js" (object [("code", Str "work()")])).
Definition writes (id : string) : string * string * Value := (id, "observation.received", object
  [("provider", Str "chat"); ("conversationId", Str id); ("message", object [("text", Str "hello")])]).
Definition busy : list (string * string * Value) :=
  [writes "o"; codes "o:model:1000:1"; asks "o" 1; asks "o" 2; asks "o" 3; asks "o" 4;
   codes "o:model:1000:2"; codes "o:model:1000:3"; codes "o:model:1000:4"; codes "o:model:1000:5";
   writes "p"; codes "p:model:11000:1"; asks "p" 1].

(** The limit of four queries counts the loaded ones: a fifth runs beside four
    of another job. *)
Theorem five_queries_run : ∃ x, stored_reachable config x ∧
  length (List.filter (λ '(_, t), opt_is_some (t_parent t)) (e_tasks x)) = 5.
Proof.
  assert (match run 1 busy engine_default with
          | Some (_, x) => length (List.filter (λ '(_, t), opt_is_some (t_parent t)) (e_tasks x)) = 5
          | None => False end) as H by (vm_compute; done).
  destruct (run 1 busy engine_default) as [[kinds x]|] eqn:E; [|destruct H]. exists x. split; [|exact H].
  eapply run_delivers; [exact E|apply rtc_refl].
Qed.

(** ** Witnesses *)

Definition next_named : Named := named "n" "observation.received" (report "x").
Lemma engine_never_panics_witness : ∃ kinds x, run 1 (take 3 conversation) engine_default = Some (kinds, x) ∧
  is_Some (event config "n" "observation.received" (report "x") None (at_event 4000 4 (load_view x next_named))).
Proof.
  assert (match run 1 (take 3 conversation) engine_default with
          | Some (_, x) => accepted x (load_view x next_named) "n" "observation.received" (report "x")
                             && routers_ok (load_view x next_named) = true
          | None => False end) as H by (vm_compute; done).
  destruct (run 1 (take 3 conversation) engine_default) as [[kinds x]|] eqn:E; [|destruct H]. exists kinds, x. split; [reflexivity|].
  apply andb_true_iff in H as [H1 H2].
  assert (stored_reachable config x) as Hx by (eapply run_delivers; [exact E|apply rtc_refl]).
  apply (engine_never_panics config config_fits x next_named (load_view x next_named) 4000 4 "n" "observation.received"
    (report "x") None Hx).
  - split; [|apply rtc_refl]. apply routers_ok_loaded; [|exact H2].
    apply fields_sorted_retain, (stored_inv config config_fits x Hx).
  - by apply accepted_acceptable.
Defined.

Lemma cognition_bounded_witness : ∃ kinds x, run 1 (take 3 conversation) engine_default = Some (kinds, x) ∧
  length (e_calls x) = 1 ∧ length (e_calls x) ≤ 1 ∧ (∀ s t, map_get s (e_tasks x) = Some t → (t_depth t ≤ 4)%N).
Proof.
  destruct query_runs as (kinds & x & Hrun & _ & Hc). exists kinds, x. split; [exact Hrun|].
  destruct (cognition_bounded config config_fits x) as (H1 & _ & _ & H4); [|by split_and!].
  eapply run_delivers; [exact Hrun|apply rtc_refl].
Defined.

Lemma sessions_well_formed_witness : ∃ kinds x, run 1 (take 3 conversation) engine_default = Some (kinds, x) ∧
  (e_tasks x).*1 = ["o"; query] ∧ (∀ s t, map_get s (e_tasks x) = Some t → session_kind x s t).
Proof.
  destruct query_runs as (kinds & x & Hrun & Hk & _). exists kinds, x. split; [exact Hrun|]. split; [exact Hk|].
  destruct (sessions_well_formed config config_fits x) as [H _].
  - eapply run_delivers; [exact Hrun|apply rtc_refl].
  - intros s t Ht. apply (H s t Ht).
Defined.

(** A query below a query that may read fifty records from the tenth on. *)
Definition parent_engine : Engine := set_e_tasks
  [("o:1", mkTask None None 0 false 0 "" None 0 0 0 0 None "o" "o" (object []) [] (Some ("o", Null)) 1 "" None 0
     (Some (mkWindow 10 50)) false 0 None None false)] engine_default.
Definition wanted : Value := object
  [("question", Str "who?"); ("range", object [("after", Num (PosInt 5)); ("limit", Num (PosInt 20))])].
Definition delegated : option (unit * Engine) :=
  start config "o:1:2" "o" "o" wanted (Some ("o:1", Null)) 2 parent_engine.

Lemma delegated_window_confined_witness : ∃ e' t, delegated = Some (tt, e') ∧ map_get "o:1:2" (e_tasks e') = Some t ∧
  t_window t = Some (mkWindow 10 15) ∧ (t_context t).["range"] = window_value (t_window t).
Proof.
  destruct delegated as [[[] e']|] eqn:E; [|discriminate E]. exists e'.
  destruct (delegated_window_confined config "o:1:2" "o" "o" wanted "o:1" Null 2 parent_engine e') as (t & Ht & Hr & _);
    [lia|exact E|]. exists t. split; [reflexivity|]. split; [exact Ht|]. split; [|exact Hr].
  unfold delegated in E. injection E as <-. injection Ht as <-. reflexivity.
Defined.
End CognitionLibrary.
