(* ===== verification/Scheduler.v ===== *)
(** The scheduler plugin, [plugins/scheduler/src]: schedules and their
    occurrences ([schedule.rs]), their management by conversations
    ([management.rs]), timers, and the source loop over the host's imports
    ([component.rs]).

    The calendar ([chrono], [chrono_tz], [croner]), the derived decoders of
    [serde] and the clock of the component are parameters. *)
From stdpp Require Import base tactics option list strings.
From Stdlib Require Import ZArith NArith Lia Ascii.
From S2P Require Import Prelude Event Delivery Utf8 Json Host Imports Instance Plugin.

(** ** Data *)

Inductive Timing : Type :=
| At (at_ : string)
| After (milliseconds : Z)
| Cron (expression timezone : string).

Record Schedule : Type := mkSchedule {
  sc_id : string;
  revision : N;
  sc_name : string;
  prompt : string;
  timing : Timing;
  next_at_ms : option Z;
  last_at_ms : option Z;
  paused : bool;
  error : option string;
  origin_event_id : string;
  origin : Value;
  cause : string;
}.

Record Timer : Type := mkTimer { timer_request : string; owner : string; due : Z }.

#[export] Instance timing_eq_dec : EqDecision Timing.
Proof. solve_decision. Defined.
#[export] Instance schedule_eq_dec : EqDecision Schedule.
Proof. solve_decision. Defined.

Abbreviation Schedules := (list (string * Schedule)).
Abbreviation Timers := (list (string * Timer)).

(** What the plugin's libraries compute. *)
Class SchedulerLibs : Type := {
  Tz : Type;
  CronRule : Type;
  parse_from_rfc3339 : string → result Z string;
  tz_from_str : string → result Tz string;
  cron_from_str : string → result CronRule string;
  timestamp_in_range : Z → bool;
  find_next_occurrence : CronRule → Tz → Z → result Z string;
  timing_from_value : Value → result Timing string;
  schedule_from_value : Value → result (option Schedule) string;
  schedule_from_slice : bytes → result Schedule string;
  schedule_to_vec : Schedule → result bytes string;
  timer_from_slice : bytes → result Timer string;
  timer_to_vec : Timer → result bytes string;
  through_from_slice : bytes → result N string;
  through_to_vec : N → result bytes string;
}.

(** ** Text *)

(** [str::split_whitespace().count()]. *)
Fixpoint count_words (in_word : bool) (cs : list N) : nat :=
  match cs with
  | [] => 0
  | c :: cs =>
      if is_whitespace c then count_words false cs
      else (if in_word then 0 else 1) + count_words true cs
  end.

(** [text] of [management.rs]. *)
Definition text (value : Value) (field : string) (max : N) : result string string :=
  match as_str (value_index value field) with
  | Some s =>
      if negb (trim_is_empty s) && (str_len s <=? max)%N then Ok s
      else Err (field +:+ " must contain 1.." +:+ u64_to_string max +:+ " bytes")
  | None => Err (field +:+ " must contain 1.." +:+ u64_to_string max +:+ " bytes")
  end.

(** ** Machine integers *)

Definition checked_add_i64 (a b : Z) : option Z :=
  if (i64_min <=? a + b)%Z && (a + b <=? i64_max)%Z then Some (a + b)%Z else None.
Definition saturating_sub_i64 (a b : Z) : Z := Z.max i64_min (Z.min (a - b) i64_max).
Definition saturating_mul_i64 (a b : Z) : Z := Z.max i64_min (Z.min (a * b) i64_max).

(** [now_ms], of a reading of the system clock. *)
Definition now_ms (now : Z * N) : Z :=
  let '(seconds, nanoseconds) := now in
  saturating_add_i64 (saturating_mul_i64 seconds 1000) (Z.of_N (nanoseconds / 1000000)).

Section schedule.
Context {SL : SchedulerLibs}.

(** ** [schedule.rs] *)

(** [Timing::next]. *)
Definition timing_next (t : Timing) (now : Z) : result (option Z) string :=
  match t with
  | Cron expression timezone =>
      if negb (count_words false (chars expression) =? 5)%nat
      then Err "cron requires five fields: minute hour day month weekday"
      else
        let? tz := tz_from_str timezone in
        let? cron := cron_from_str expression in
        if negb (timestamp_in_range now) then Err "timestamp out of range"
        else result_map Some (find_next_occurrence cron tz now)
  | _ => Ok None
  end.

(** [Timing::first]. *)
Definition timing_first (t : Timing) (now : Z) : result Z string :=
  match t with
  | Cron _ _ =>
      let? next := timing_next t now in ok_or next "cron has no next occurrence"
  | _ =>
      let? due :=
        match t with
        | At at_ => parse_from_rfc3339 at_
        | After milliseconds =>
            if (0 <? milliseconds)%Z
            then ok_or (checked_add_i64 now milliseconds) "delay exceeds timestamp range"
            else Err "milliseconds must be positive"
        | Cron _ _ => Err ""
        end in
      if (due <=? now)%Z then Err "scheduled time must be in the future" else Ok due
  end.

Definition schedule_key (id : string) : string := "schedule:" +:+ id.

Definition due_now (s : Schedule) (now : Z) : option Z :=
  match next_at_ms s with
  | Some due => if (due <=? now)%Z && negb (paused s) then Some due else None
  | None => None
  end.

Definition occurrence_key (s : Schedule) (due : Z) : string :=
  "schedule:" +:+ sc_id s +:+ ":" +:+ u64_to_string (revision s) +:+ ":" +:+ i64_to_string due.

Definition occurrence_observation (s : Schedule) (due now : Z) : Value :=
  let observation := value_set (origin s) "originEventId" (Str (origin_event_id s)) in
  let observation := value_set observation "message" (object [("text", Str (prompt s))]) in
  value_set observation "schedule"
    (object [("id", Str (sc_id s)); ("name", Str (sc_name s)); ("revision", num_u64 (revision s));
             ("scheduledAtMs", num_i64 due); ("emittedAtMs", num_i64 now)]).

Definition advance (s : Schedule) (due now : Z) : Schedule :=
  let '(next, err) :=
    match timing_next (timing s) now with
    | Ok next => (next, error s)
    | Err e => (None, Some e)
    end in
  mkSchedule (sc_id s) (revision s) (sc_name s) (prompt s) (timing s) next (Some due) (paused s)
    err (origin_event_id s) (origin s) (cause s).

(** [Schedule::occurrence]: the occurrence, and the schedule after it. *)
Definition occurrence (s : Schedule) (now : Z) : option (string * Value) * Schedule :=
  match due_now s now with
  | None => (None, s)
  | Some due =>
      (Some (occurrence_key s due, occurrence_observation s due now), advance s due now)
  end.

Definition owner_fields : list string := ["provider"; "externalSenderId"; "conversationId"].

(** [Schedule::owned_by]. *)
Definition owned_by (s : Schedule) (o : Value) : bool :=
  forallb (λ field, value_eqb (value_index (origin s) field) (value_index o field)) owner_fields.

Definition timing_to_value (t : Timing) : Value :=
  match t with
  | At at_ => object [("kind", Str "at"); ("at", Str at_)]
  | After milliseconds => object [("kind", Str "after"); ("milliseconds", num_i64 milliseconds)]
  | Cron expression timezone =>
      object [("kind", Str "cron"); ("expression", Str expression); ("timezone", Str timezone)]
  end.

(** [json!(schedule)]. *)
Definition schedule_to_value (s : Schedule) : Value :=
  object [("id", Str (sc_id s)); ("revision", num_u64 (revision s)); ("name", Str (sc_name s));
          ("prompt", Str (prompt s)); ("timing", timing_to_value (timing s));
          ("nextAtMs", opt_num_i64 (next_at_ms s)); ("lastAtMs", opt_num_i64 (last_at_ms s));
          ("paused", Bool (paused s)); ("error", opt_str (error s));
          ("originEventId", Str (origin_event_id s)); ("origin", origin s); ("cause", Str (cause s))].

(** ** [management.rs] *)

(** What changed: the schedule of an id, or its removal. *)
Definition Change : Type := option (string * option Schedule).

Definition str_ltb (a b : string) : bool := bool_decide (String.le a b) && negb (String.eqb a b).

(** The page of [schedule.list]: its rows, and where the next one starts. *)
Definition list_page (schedules : Schedules) (args o : Value) : list Schedule * option string :=
  let limit := N.max 1 (N.min (default 50%N (as_u64 (value_index args "limit"))) 100) in
  let after := default "" (as_str (value_index args "after")) in
  let rows := List.filter (λ s, str_ltb after (sc_id s) && owned_by s o) (schedules.*2) in
  let page := take (N.to_nat limit) rows in
  (page, match drop (N.to_nat limit) rows with
         | [] => None
         | _ :: _ => sc_id <$> last page
         end).

(** The part of [manage] that changes one schedule. *)
Definition modify (capability : string) (s : Schedule) (args : Value) (now : Z)
    : result Schedule string :=
  let rebuild name prompt timing next paused error :=
    mkSchedule (sc_id s) (revision s) name prompt timing next (last_at_ms s) paused error
      (origin_event_id s) (origin s) (cause s) in
  if String.eqb capability "schedule.pause" then
    Ok (rebuild (sc_name s) (prompt s) (timing s) (next_at_ms s) true (error s))
  else if String.eqb capability "schedule.resume" then
    if opt_is_some (next_at_ms s)
    then Ok (rebuild (sc_name s) (prompt s) (timing s) (next_at_ms s) false (error s))
    else Err "completed or failed schedule requires a new timing rule"
  else if String.eqb capability "schedule.update" then
    let? name := (if opt_is_some (value_get args "name") then text args "name" 200
                  else Ok (sc_name s)) in
    let? prompt := (if opt_is_some (value_get args "prompt") then text args "prompt" 8192
                    else Ok (prompt s)) in
    match value_get args "timing" with
    | Some v =>
        let? timing := timing_from_value v in
        let? next := timing_first timing now in
        Ok (rebuild name prompt timing (Some next) (paused s) None)
    | None => Ok (rebuild name prompt (timing s) (next_at_ms s) (paused s) (error s))
    end
  else Err "unknown schedule capability".

(** [manage]. *)
Definition manage (schedules : Schedules) (capability : string) (args : Value)
    (request_id origin_id : string) (o : Value) (now : Z)
    : result (Value * Change) string * Schedules :=
  if String.eqb capability "schedule.list" then
    let '(page, next) := list_page schedules args o in
    (Ok (object [("schedules", Array (schedule_to_value <$> page)); ("nextAfter", opt_str next)],
         None), schedules)
  else if String.eqb capability "schedule.create" then
    match (let? name := text args "name" 200 in
           let? prompt := text args "prompt" 8192 in
           let? timing := timing_from_value (value_index args "timing") in
           let? next := timing_first timing now in
           Ok (mkSchedule request_id 1 name prompt timing (Some next) None false None
                 origin_id o request_id)) with
    | Err e => (Err e, schedules)
    | Ok s => (Ok (schedule_to_value s, Some (sc_id s, Some s)),
               map_insert (schedule_key (sc_id s)) s schedules)
    end
  else
    match text args "id" 256 with
    | Err e => (Err e, schedules)
    | Ok id =>
        let key := schedule_key id in
        match map_get key schedules with
        | None => (Err "schedule not found in this conversation", schedules)
        | Some s =>
            if negb (owned_by s o)
            then (Err "schedule not found in this conversation", schedules)
            else if String.eqb capability "schedule.get"
            then (Ok (schedule_to_value s, None), schedules)
            else if String.eqb capability "schedule.delete"
            then (Ok (object [("id", Str id); ("deleted", Bool true)], Some (id, None)),
                  map_remove key schedules)
            else
              match (let? s := modify capability s args now in
                     let? revision := ok_or (checked_add_u64 (revision s) 1) "revision exhausted" in
                     Ok (mkSchedule (sc_id s) revision (sc_name s) (prompt s) (timing s)
                           (next_at_ms s) (last_at_ms s) (paused s) (error s) origin_id o
                           request_id)) with
              | Err e => (Err e, schedules)
              | Ok s => (Ok (schedule_to_value s, Some (id, Some s)), map_insert key s schedules)
              end
        end
    end.
End schedule.

(** ** [component.rs] *)

(** [invalid] and [internal]. *)
Definition invalid (m : string) : WitError := host_error InvalidArgument m.
Definition internal (m : string) : WitError := host_error Internal m.

Definition THROUGH : string := "projection-through".
Definition PAGE : N := 64.
Definition ORIGIN_HOPS : nat := N.to_nat 4096.

Section component.
Context {SL : SchedulerLibs} {SJ : SerdeJson}.

Definition event_payload (e : WitEvent) : result Value WitError :=
  match wit_payload e with
  | CanonicalJson b => map_err invalid (from_slice b)
  | Blob _ => Err (invalid "JSON required")
  end.

Definition proposal (kind : string) (value : Value) (cause : string) (key : option string)
    : result Proposal WitError :=
  let? b := map_err internal (to_vec value) in
  Ok {| p_event_type := kind;
        p_payload_schema := "pluribus." +:+ kind +:+ "/1";
        p_payload := CanonicalJson b;
        p_idempotency_key := key;
        p_causation_id := Some cause |}.

(** [set], of an encoded value. *)
Definition set_entry (key : string) (encoded : result bytes string) : result Mutation WitError :=
  let? b := map_err internal encoded in Ok (MutationSet key b).

Definition schedule_mutation (id : string) (s : option Schedule) : result Mutation WitError :=
  match s with
  | None => Ok (MutationDelete (schedule_key id))
  | Some s => set_entry (schedule_key id) (schedule_to_vec s)
  end.

(** [load]: the pages of a prefix; [fuel] bounds their number. *)
Fixpoint load_from {T} (decode : bytes → result T string) (fuel : nat) (prefix : string)
    (after : option string) (found : list (string * T)) : GM (list (string * T)) :=
  match fuel with
  | O => Trap "interrupted"
  | S fuel =>
      let* page := state_scan prefix after PAGE in
      let* found := gm_lift (try_fold (λ found entry,
        let? v := map_err internal (decode (entry_value entry)) in
        Ok (map_insert (entry_key entry) v found)) found (wit_entries page)) in
      match wit_next_key page with
      | Some key => load_from decode fuel prefix (Some key) found
      | None => gm_ret found
      end
  end.
Definition load {T} (decode : bytes → result T string) (fuel : nat) (prefix : string)
    : GM (list (string * T)) := load_from decode fuel prefix None [].

(** The origin a schedule keeps. *)
Definition origin_value (value : Value) : Value :=
  object [("provider", value_index value "provider");
          ("externalSenderId", value_index value "externalSenderId");
          ("conversationId", value_index value "conversationId");
          ("trusted", default (Bool true) (value_get value "trusted"))].

(** [origin]: the observation a request descends from. *)
Fixpoint find_origin (hops : nat) (e : WitEvent) : GM (string * Value) :=
  match hops with
  | O => gm_lift (Err (invalid "origin chain exceeds limit"))
  | S hops =>
      if String.eqb (wit_event_type e) "observation.received" then
        let* value := gm_lift (event_payload e) in
        do* gm_lift (try_for_each (λ field,
              result_map (λ _, tt) (map_err invalid (text value field 1024))) owner_fields);
        gm_ret (wit_event_id e, origin_value value)
      else
        let* cause := gm_lift (ok_or (wit_causation_id e)
                        (invalid "schedule requires an observation origin")) in
        let* parent := get_event cause in
        if (wit_sequence e <=? wit_sequence parent)%N
        then gm_lift (Err (invalid "invalid origin chain"))
        else find_origin hops parent
  end.
Definition origin_of (request : WitEvent) : GM (string * Value) := find_origin ORIGIN_HOPS request.

(** *** [refresh] *)

Definition timer_key (request : string) : string := "timer:" +:+ request.

(** One event of the page: the timers it leaves, and the mutations it adds. *)
Definition refresh_event (instance_id : string) (st : Timers * list Mutation) (e : WitEvent)
    : result (Timers * list Mutation) WitError :=
  let '(timers, ms) := st in
  let? value := event_payload e in
  let kind := wit_event_type e in
  if String.eqb kind "timer.set" then
    match as_i64 (value_index value "dueAtMs") with
    | Some due =>
        let timer := mkTimer (wit_event_id e) (principal_id (wit_actor e)) due in
        let key := timer_key (wit_event_id e) in
        let? m := set_entry key (timer_to_vec timer) in
        Ok (map_insert key timer timers, ms ++ [m])
    | None => Ok (timers, ms)
    end
  else if String.eqb kind "timer.cancel" || String.eqb kind "timer.fired" then
    match as_str (value_index value "requestEventId") with
    | Some id =>
        let key := timer_key id in
        if String.eqb kind "timer.fired"
           || is_some_and (map_get key timers) (λ t,
                String.eqb (owner t) (principal_id (wit_actor e)))
        then Ok (map_remove key timers, ms ++ [MutationDelete key])
        else Ok (timers, ms)
    | None => Ok (timers, ms)
    end
  else if String.eqb kind "schedule.updated"
          && String.eqb (principal_id (wit_actor e)) instance_id then
    let? id := ok_or (as_str (value_index value "id")) (internal "snapshot missing id") in
    let? s := map_err internal (schedule_from_value (value_index value "schedule")) in
    let? m := schedule_mutation id s in
    Ok (timers, ms ++ [m])
  else Ok (timers, ms).

(** The mutations of a page. *)
Definition refresh_page (instance_id : string) (timers : Timers) (page : list WitEvent)
    : result (list Mutation) WitError :=
  let? st := try_fold (refresh_event instance_id) (timers, []) page in
  let? m := set_entry THROUGH (through_to_vec (default 0%N (wit_sequence <$> last page))) in
  Ok (st.2 ++ [m]).

Definition projected_types : list string :=
  ["timer.set"; "timer.cancel"; "timer.fired"; "schedule.updated"].

Definition refresh_filter (through : N) : Filter :=
  mkFilter (Some through) projected_types None None None None None None None false.

Definition refresh (fuel : nat) (context : Context_) : GM bool :=
  let* stored := state_get THROUGH in
  let* through := gm_lift (match stored with
                           | None => Ok 0%N
                           | Some b => map_err internal (through_from_slice b)
                           end) in
  let* page := query_events (refresh_filter through) PAGE in
  if bool_decide (page_events page = []) then gm_ret false
  else
    let* timers := load timer_from_slice fuel "timer:" in
    let* ms := gm_lift (refresh_page (cx_instance_id context) timers (page_events page)) in
    do* commit_source [] ms None;
    gm_ret true.

(** *** [fire] *)

(** What a pass over the timers and schedules gathers. *)
Record Fired : Type := mkFired {
  fired_output : list Proposal;
  fired_mutations : list Mutation;
  fired_next : Z;
}.

Definition fire_timer (now : Z) (f : Fired) (entry : string * Timer) : result Fired WitError :=
  let '(key, timer) := entry in
  if (due timer <=? now)%Z && (len (fired_output f) <? PAGE)%N then
    let? p := proposal "timer.fired"
      (object [("requestEventId", Str (timer_request timer)); ("dueAtMs", num_i64 (due timer))])
      (timer_request timer) (Some ("timer:" +:+ timer_request timer)) in
    Ok (mkFired (fired_output f ++ [p]) (fired_mutations f ++ [MutationDelete key]) (fired_next f))
  else Ok (mkFired (fired_output f) (fired_mutations f) (Z.min (fired_next f) (due timer))).

Definition receipt_value (id : string) (s : option Schedule) : Value :=
  object [("id", Str id); ("schedule", match s with Some s => schedule_to_value s | None => Null end)].

Definition fire_schedule (now : Z) (f : Fired) (entry : string * Schedule) : result Fired WitError :=
  let s := entry.2 in
  let? st :=
    (if (len (fired_output f) <? PAGE)%N then
       match occurrence s now with
       | (None, s) => Ok (f, s)
       | (Some (key, observation), s) =>
           let? p := proposal "observation.received" observation (cause s) (Some key) in
           let? q := proposal "schedule.updated" (receipt_value (sc_id s) (Some s)) (cause s)
                       (Some (key +:+ ":state")) in
           let? m := schedule_mutation (sc_id s) (Some s) in
           Ok (mkFired (fired_output f ++ [p; q]) (fired_mutations f ++ [m]) (fired_next f), s)
       end
     else Ok (f, s)) in
  let '(f, s) := st in
  Ok (match next_at_ms s with
      | Some due =>
          if paused s then f
          else mkFired (fired_output f) (fired_mutations f) (Z.min (fired_next f) due)
      | None => f
      end).

Definition fire_timers (now : Z) (timers : Timers) : result Fired WitError :=
  try_fold (fire_timer now) (mkFired [] [] (saturating_add_i64 now 1000)) timers.
Definition fire_schedules (now : Z) (f : Fired) (schedules : Schedules) : result Fired WitError :=
  try_fold (fire_schedule now) f schedules.

(** The delay until the next pass. *)
Definition delay (now : Z) (f : Fired) : N :=
  Z.to_N (Z.max 1 (Z.min (saturating_sub_i64 (fired_next f) now) 1000)).

Definition fire (fuel : nat) (now : Z) : GM N :=
  let* timers := load timer_from_slice fuel "timer:" in
  let* f := gm_lift (fire_timers now timers) in
  let* schedules := load schedule_from_slice fuel "schedule:" in
  let* f := gm_lift (fire_schedules now f schedules) in
  do* (if bool_decide (fired_output f = []) then gm_ret tt
       else commit_source (fired_output f) (fired_mutations f) None);
  gm_ret (delay now f).

(** *** [Guest::handle] *)

(** What a request adds to the outcome. *)
Definition answer (e : WitEvent) (r : result (Value * Change) WitError)
    : result (list Proposal * list Mutation) WitError :=
  match r with
  | Ok (value, changed) =>
      let? updated :=
        match changed with
        | None => Ok ([], [])
        | Some (id, s) =>
            let? p := proposal "schedule.updated" (receipt_value id s) (wit_event_id e) None in
            let? m := schedule_mutation id s in
            Ok ([p], [m])
        end in
      let? p := proposal "capability.completed"
        (object [("requestEventId", Str (wit_event_id e)); ("output", value)])
        (wit_event_id e) None in
      Ok (updated.1 ++ [p], updated.2)
  | Err error =>
      let? p := proposal "capability.failed"
        (object [("requestEventId", Str (wit_event_id e)); ("reason", Str (error_message error))])
        (wit_event_id e) None in
      Ok ([p], [])
  end.

(** The capability of a request for this plugin. *)
Definition managed_capability (e : WitEvent) : result (option (string * Value)) WitError :=
  if negb (String.eqb (wit_event_type e) "capability.requested") then Ok None
  else
    let? request := event_payload e in
    Ok (match as_str (value_index request "capability") with
        | Some name =>
            if starts_with "schedule." name then Some (name, value_index request "arguments")
            else None
        | None => None
        end).

Fixpoint handle_events (clock : nat → Z) (schedules : Schedules) (events : list WitEvent)
    (out : GuestOutcome) : GM GuestOutcome :=
  match events with
  | [] => gm_ret out
  | e :: events =>
      let* managed := gm_lift (managed_capability e) in
      match managed with
      | None => handle_events (λ n, clock (S n)) schedules events out
      | Some (capability, args) =>
          let* o := gm_try (origin_of e) in
          let '(r, schedules) :=
            match o with
            | Err error => (Err error, schedules)
            | Ok (origin_id, o) =>
                let '(r, schedules) :=
                  manage schedules capability args (wit_event_id e) origin_id o (clock O) in
                (map_err invalid r, schedules)
            end in
          let* added := gm_lift (answer e r) in
          handle_events (λ n, clock (S n)) schedules events
            (mkGuestOutcome (o_events out ++ added.1) (o_mutations out ++ added.2)
               (o_checkpoint out))
      end
  end.

Definition handle (fuel : nat) (clock : nat → Z) (context : Context_) (events : list WitEvent)
    : GM GuestOutcome :=
  let* schedules := load schedule_from_slice fuel "schedule:" in
  handle_events clock schedules events (mkGuestOutcome [] [] (wit_sequence <$> last events)).

(** [Guest::stop]. *)
Definition stop (context : Context_) (deadline : Z) : GM GuestOutcome :=
  gm_ret (mkGuestOutcome [] [] None).

(** *** [Guest::run] *)

(** What the component reads outside of the host's imports, at the [n]-th
    turn of its loop: the clock, and which of the two futures of [select]
    ended first. *)
Class Surroundings : Type := {
  turn_clock : nat → nat → Z * N;
  woken_by_clock : nat → bool;
}.
Context {SU : Surroundings}.

Fixpoint refresh_until (fuel : nat) (context : Context_) : GM unit :=
  match fuel with
  | O => Trap "interrupted"
  | S fuel =>
      let* more := refresh fuel context in
      if more then refresh_until fuel context else gm_ret tt
  end.

Definition run_turn (fuel turn : nat) (context : Context_) : GM (option Context_) :=
  do* refresh_until fuel context;
  do* fire fuel (now_ms (turn_clock turn 0));
  if woken_by_clock turn then gm_ret (Some context)
  else
    let* wake := Call RuntimeNext Return in
    match wake with
    | WakeStop _ => gm_ret None
    | WakeEvents events =>
        let* r := gm_try (handle fuel (λ n, now_ms (turn_clock turn (S n))) context events) in
        match r with
        | Ok outcome =>
            do* commit_source (o_events outcome) (o_mutations outcome) (o_checkpoint outcome);
            gm_ret (Some (with_checkpoint outcome context))
        | Err error => do* Call (RuntimeReject error) Return; gm_ret (Some context)
        end
    end.

Fixpoint run_loop (fuel turn : nat) (context : Context_) : GM unit :=
  match fuel with
  | O => Trap "interrupted"
  | S fuel =>
      let* next := run_turn fuel turn context in
      match next with
      | None => gm_ret tt
      | Some context => run_loop fuel (S turn) context
      end
  end.

Definition run (fuel : nat) (context : Context_) (config : bytes) : GM unit :=
  do* gm_lift (result_map (λ _, tt) (map_err invalid (from_slice config)));
  do* Call (RuntimeReady [] []) Return;
  run_loop fuel 0 context.
End component.
