(* ===== verification/SchedulerSpec.v ===== *)
(** What the scheduler plugin promises: conversations manage their own
    schedules only, a schedule's occurrences never repeat, pages of schedules
    are complete, a pass stays within the host's limits and does not sleep
    past a deadline, and the private state is the replay of the receipts. *)
From stdpp Require Import base tactics option list strings sorting.
From Stdlib Require Import ZArith NArith Lia Ascii.
From S2P Require Import Prelude Event Delivery Utf8 Json Host Imports Instance Plugin Scheduler.

(** ** Ownership *)

Section isolation.
Context {SL : SchedulerLibs}.

Definition owned (o : Value) (entry : string * Schedule) : bool := owned_by entry.2 o.

Lemma owned_by_origin s o : origin s = o → owned_by s o = true.
Proof.
  intros <-. unfold owned_by. apply forallb_forall. intros field _.
  unfold value_eqb. by apply bool_decide_eq_true.
Qed.

Lemma filter_snd o (P : Schedule → bool) (m : Schedules) :
  List.filter (λ s, P s && owned_by s o) ((List.filter (owned o) m).*2) =
  List.filter (λ s, P s && owned_by s o) (m.*2).
Proof.
  induction m as [|[k s] m IH]; [done|].
  cbn [List.filter]. change (owned o (k, s)) with (owned_by s o).
  destruct (owned_by s o) eqn:E; csimpl; rewrite E, IH; [done|]. by rewrite andb_false_r.
Qed.

Lemma list_page_owned m args o : list_page (List.filter (owned o) m) args o = list_page m args o.
Proof. unfold list_page. by rewrite (filter_snd o (λ s, str_ltb _ (sc_id s)) m). Qed.

(** The answer depends on the requester's schedules alone. *)
Lemma manage_answer m capability args request_id origin_id o now :
  NoDup m.*1 →
  fst (manage (List.filter (owned o) m) capability args request_id origin_id o now) =
  fst (manage m capability args request_id origin_id o now).
Proof.
  intros Hnd. unfold manage. rewrite list_page_owned.
  destruct (String.eqb capability "schedule.list"); [by destruct (list_page _ _ _)|].
  destruct (String.eqb capability "schedule.create"); [by repeat case_match|].
  destruct (text args "id" 256) as [id|e]; [|done]. rewrite map_get_filter by done.
  destruct (map_get _ m) as [s|]; [|done]. unfold owned. simpl.
  destruct (owned_by s o) eqn:E; simpl; [|done]. rewrite E. simpl.
  repeat case_match; done.
Qed.

(** A schedule of someone else, under the key of no new schedule. *)
Lemma manage_keeps m capability args request_id origin_id o now key s :
  NoDup m.*1 → key ≠ schedule_key request_id →
  map_get key m = Some s → owned_by s o = false →
  map_get key (snd (manage m capability args request_id origin_id o now)) = Some s.
Proof.
  intros Hnd Hkey Hs Ho. unfold manage.
  destruct (String.eqb capability "schedule.list"); [by destruct (list_page _ _ _)|].
  destruct (String.eqb capability "schedule.create").
  { case_match; [|done]. match goal with H : _ = Ok ?x |- _ => rename H into E; set (a := x) in * end.
    cbn [snd]. rewrite map_get_insert. assert (sc_id a = request_id) as ->; [|by rewrite (proj2 (String.eqb_neq _ _))].
    unfold result_bind in E. repeat case_match; by simplify_eq/=. }
  destruct (text args "id" 256) as [id|e]; [|done].
  destruct (map_get (schedule_key id) m) as [s'|] eqn:E; [|done].
  destruct (owned_by s' o) eqn:E'; simpl; [|done].
  assert (key ≠ schedule_key id) as Hne by congruence.
  destruct (String.eqb capability "schedule.get"); [done|].
  destruct (String.eqb capability "schedule.delete"); simpl.
  { by rewrite map_get_remove, (proj2 (String.eqb_neq _ _)). }
  case_match; [|done]. cbn [snd]. by rewrite map_get_insert, (proj2 (String.eqb_neq _ _)).
Qed.

Lemma manage_error m capability args request_id origin_id o now e :
  fst (manage m capability args request_id origin_id o now) = Err e →
  snd (manage m capability args request_id origin_id o now) = m.
Proof. unfold manage. intros H. repeat case_match; simplify_eq/=; done. Qed.

(** (C36) Conversations do not see each other's schedules.  What a request of
    one sender in one conversation is answered, errors included, is what it
    would be answered were its own schedules the only ones; the schedules of
    others stay as they are, under every key but that of a schedule the
    request itself creates; and a refused request changes nothing. *)
Theorem manage_isolated (m : Schedules) (capability : string) (args : Value)
    (request_id origin_id : string) (o : Value) (now : Z) (Hkeys : NoDup m.*1) :
  let '(r, m') := manage m capability args request_id origin_id o now in
  r = fst (manage (List.filter (owned o) m) capability args request_id origin_id o now) ∧
  (∀ key s, key ≠ schedule_key request_id → map_get key m = Some s → owned_by s o = false →
     map_get key m' = Some s) ∧
  (∀ e, r = Err e → m' = m).
Proof.
  pose proof (manage_answer m capability args request_id origin_id o now Hkeys) as H1.
  pose proof (λ key s, manage_keeps m capability args request_id origin_id o now key s Hkeys) as H2.
  pose proof (λ e, manage_error m capability args request_id origin_id o now e) as H3.
  destruct (manage m _ _ _ _ _ _) as [r m']. split_and!; [by rewrite H1|done|done].
Qed.
End isolation.

(** ** Occurrences *)

Section occurrences.
Context {SL : SchedulerLibs}.

(** The calendar looks strictly ahead, within the timestamps of an [i64]. *)
Definition calendar_ahead : Prop := ∀ c tz now t,
  find_next_occurrence c tz now = Ok t → (now < t)%Z ∧ i64_range t.

(** The keys of the occurrences at a sequence of clock readings. *)
Fixpoint occurrences (s : Schedule) (nows : list Z) : list string :=
  match nows with
  | [] => []
  | now :: nows =>
      let '(o, s') := occurrence s now in
      match o with
      | Some (key, _) => key :: occurrences s' nows
      | None => occurrences s' nows
      end
  end.

Lemma due_now_spec s now d :
  due_now s now = Some d ↔ next_at_ms s = Some d ∧ (d ≤ now)%Z ∧ paused s = false.
Proof.
  unfold due_now. destruct (next_at_ms s) as [n|]; [|naive_solver].
  destruct (Z.leb_spec n now), (paused s); simpl; split; intros; destruct_and?; simplify_eq;
    split_and?; done || lia.
Qed.

Lemma advance_key s due now d : occurrence_key (advance s due now) d = occurrence_key s d.
Proof. unfold advance. by destruct (timing_next _ _). Qed.

Lemma advance_next s due now d :
  calendar_ahead → next_at_ms (advance s due now) = Some d → (now < d)%Z ∧ i64_range d.
Proof.
  intros Hc. unfold advance. destruct (timing_next (timing s) now) as [n|e] eqn:E; simpl; [|done].
  intros ->. unfold timing_next in E. destruct (timing s) as [| |expression timezone]; [done|done|].
  destruct (negb _); [done|]. destruct (tz_from_str timezone); [|done]. simpl in E.
  destruct (cron_from_str expression); [|done]. simpl in E. destruct (negb _); [done|].
  destruct (find_next_occurrence _ _ _) eqn:Ef; simplify_eq/=. by eapply Hc.
Qed.

Lemma advance_once s due now :
  (∀ e z, timing s ≠ Cron e z) → next_at_ms (advance s due now) = None.
Proof. intros Ht. unfold advance, timing_next. destruct (timing s) eqn:E; [done..|]. by destruct (Ht _ _ eq_refl). Qed.

Lemma occurrences_keys s nows k :
  calendar_ahead → (∀ d, next_at_ms s = Some d → i64_range d) → k ∈ occurrences s nows →
  ∃ d0 d, next_at_ms s = Some d0 ∧ (d0 ≤ d)%Z ∧ i64_range d ∧ k = occurrence_key s d.
Proof.
  intros Hc. revert s. induction nows as [|now nows IH]; intros s Hr Hk; simpl in Hk.
  { by apply not_elem_of_nil in Hk. }
  unfold occurrence in Hk. destruct (due_now s now) as [d0|] eqn:E; [|by apply IH].
  apply due_now_spec in E as (Hn & Hd & _). apply elem_of_cons in Hk as [-> |Hk].
  { exists d0, d0. split_and!; [done|lia|by apply Hr|done]. }
  destruct (IH (advance s d0 now)) as (d1 & d & H1 & H2 & H3 & ->); [|done|].
  { intros d' Hd'. by apply (advance_next s d0 now d' Hc Hd'). }
  apply advance_next in H1 as [H1 _]; [|done]. exists d0, d. rewrite advance_key.
  split_and!; [done|lia|done|done].
Qed.

Lemma occurrences_nodup s nows :
  calendar_ahead → (∀ d, next_at_ms s = Some d → i64_range d) → NoDup (occurrences s nows).
Proof.
  intros Hc. revert s. induction nows as [|now nows IH]; intros s Hr; simpl; [constructor|].
  unfold occurrence. destruct (due_now s now) as [d0|] eqn:E; [|by apply IH].
  apply due_now_spec in E as (Hn & Hd & _).
  assert (∀ d, next_at_ms (advance s d0 now) = Some d → i64_range d) as Hr'.
  { intros d Hd'. by apply (advance_next s d0 now d Hc Hd'). }
  apply NoDup_cons. split; [|by apply IH]. intros Hk.
  apply occurrences_keys in Hk as (d1 & d & H1 & H2 & H3 & Heq); [|done|done].
  rewrite advance_key in Heq. unfold occurrence_key in Heq. do 5 apply append_inj_l in Heq.
  apply i64_to_string_inj in Heq; [|by apply Hr|done].
  apply advance_next in H1 as [H1 _]; [lia|done].
Qed.

Lemma occurrences_fire s nows d :
  next_at_ms s = Some d → paused s = false →
  (occurrences s nows ≠ [] ↔ ∃ now, now ∈ nows ∧ (d ≤ now)%Z).
Proof.
  intros Hn Hp. induction nows as [|now nows IH]; simpl.
  { split; [done|]. by intros (? & ?%not_elem_of_nil & _). }
  unfold occurrence. destruct (due_now s now) as [d0|] eqn:E.
  - apply due_now_spec in E as (H1 & H2 & _). simplify_eq. split; [|done].
    intros _. exists now. split; [by left|done].
  - rewrite IH. split; intros (n & Hin & Hle).
    + exists n. split; [by right|done].
    + apply elem_of_cons in Hin as [-> |Hin]; [|by exists n].
      by rewrite (proj2 (due_now_spec s now d)) in E.
Qed.

(** (C37) A schedule's occurrences.  Whatever the clock reads from one pass to
    the next, going back included, no occurrence key of a revision is
    emitted twice; a one-shot schedule is emitted at most once; and a
    schedule that is not paused is emitted as soon as, and only if, some
    reading has reached its time, however many occurrences were missed. *)
Theorem occurrences_once (s : Schedule) (nows : list Z)
    (Hcalendar : calendar_ahead) (Hrange : ∀ d, next_at_ms s = Some d → i64_range d) :
  NoDup (occurrences s nows) ∧
  ((∀ e z, timing s ≠ Cron e z) → length (occurrences s nows) ≤ 1) ∧
  (∀ d, next_at_ms s = Some d → paused s = false →
     (occurrences s nows ≠ [] ↔ ∃ now, now ∈ nows ∧ (d ≤ now)%Z)).
Proof.
  split_and!; [by apply occurrences_nodup| |intros d; by apply occurrences_fire].
  intros Ht. clear Hrange. induction nows as [|now nows IH]; simpl; [lia|].
  unfold occurrence. destruct (due_now s now) as [d|]; [|done]. simpl.
  assert (occurrences (advance s d now) nows = []) as ->; [|simpl; lia].
  pose proof (advance_once s d now Ht) as Hn. revert Hn. generalize (advance s d now).
  clear. intros s Hs. induction nows as [|now nows IH]; simpl; [done|].
  unfold occurrence, due_now. by rewrite Hs.
Qed.
End occurrences.

(** ** A pass over what is due *)

Section firing.
Context {SL : SchedulerLibs} {SJ : SerdeJson}.

Lemma proposal_shape kind value cause key p :
  proposal kind value cause key = Ok p →
  p_event_type p = kind ∧ p_idempotency_key p = key ∧ p_causation_id p = Some cause ∧
  ∃ b, to_vec value = Ok b ∧ p_payload p = CanonicalJson b.
Proof.
  unfold proposal. destruct (to_vec value) as [b|e]; simpl; [|done]. intros [= <-]. simpl. split_and!; eauto.
Qed.

(** What has been gathered: within the limits, under keys, and waking up no
    later than the horizon. *)
Definition gathered (now : Z) (f : Fired) : Prop :=
  (len (fired_output f) ≤ 65)%N ∧
  (len (fired_mutations f) ≤ len (fired_output f))%N ∧
  Forall (λ p, ∃ c k, p_idempotency_key p = Some (String c k)) (fired_output f) ∧
  (fired_next f ≤ saturating_add_i64 now 1000)%Z.

(** Nothing gathered later moves the next pass later. *)
Definition no_later (f f' : Fired) : Prop := (fired_next f' ≤ fired_next f)%Z.

Lemma fire_timer_gathered now f k t f' :
  gathered now f → fire_timer now f (k, t) = Ok f' →
  gathered now f' ∧ no_later f f' ∧ ((now < due t)%Z → (fired_next f' ≤ due t)%Z).
Proof.
  intros (H1 & H2 & H3 & H4). unfold fire_timer. destruct (_ && _) eqn:E.
  - apply andb_true_iff in E as [Ed%Z.leb_le Ep%N.ltb_lt]. unfold PAGE in Ep.
    destruct (proposal _ _ _ _) as [p|e] eqn:Ep'; [|done]. intros [= <-].
    apply proposal_shape in Ep' as (_ & Hk & _). unfold gathered, no_later. simpl.
    rewrite !len_snoc. split_and!; [lia|lia| |done|done|lia].
    apply Forall_app. split; [done|]. constructor; [|constructor]. rewrite Hk. simpl. eauto.
  - intros [= <-]. unfold gathered, no_later. simpl. split_and!; try done; lia.
Qed.

Lemma fire_schedule_gathered now f k s f' :
  calendar_ahead → gathered now f → fire_schedule now f (k, s) = Ok f' →
  gathered now f' ∧ no_later f f' ∧
  (∀ d, next_at_ms s = Some d → paused s = false → (now < d)%Z → (fired_next f' ≤ d)%Z).
Proof.
  intros Hc Hg. pose proof Hg as (H1 & H2 & H3 & H4).
  assert (∀ g s', gathered now g → no_later f g →
    let h := match next_at_ms s' with
      | Some due => if paused s' then g
                    else mkFired (fired_output g) (fired_mutations g) (Z.min (fired_next g) due)
      | None => g
      end in
    gathered now h ∧ no_later f h ∧
    (∀ d, next_at_ms s' = Some d → paused s' = false → (fired_next h ≤ d)%Z)) as Hend.
  { intros g s' Hg' Hl. cbn zeta. destruct (next_at_ms s') as [d|]; [|by split_and!].
    destruct (paused s'); [by split_and!|]. destruct Hg' as (G1 & G2 & G3 & G4).
    unfold gathered, no_later in *. simpl. split_and!; try done; [lia|lia|].
    intros ? [= <-] _. lia. }
  unfold fire_schedule. simpl. destruct (N.ltb_spec (len (fired_output f)) PAGE) as [Hp|Hp].
  2: { simpl. intros [= <-]. destruct (Hend f s Hg) as (? & ? & Hd); [by unfold no_later|].
       split_and!; [done..|]. intros d Hn Hpa _. by apply Hd. }
  unfold occurrence. destruct (due_now s now) as [d0|] eqn:Edue.
  2: { simpl. intros [= <-]. destruct (Hend f s Hg) as (? & ? & Hd); [by unfold no_later|].
       split_and!; [done..|]. intros d Hn Hpa _. by apply Hd. }
  destruct (proposal "observation.received" _ _ _) as [p|e] eqn:Ep1; [|done]. simpl.
  destruct (proposal "schedule.updated" _ _ _) as [q|e] eqn:Ep2; [|done]. simpl.
  destruct (set_entry _ _) as [m|e]; [|done]. simpl. intros [= <-].
  apply proposal_shape in Ep1 as (_ & K1 & _). apply proposal_shape in Ep2 as (_ & K2 & _).
  edestruct (Hend (mkFired (fired_output f ++ [p; q]) (fired_mutations f ++ [m]) (fired_next f))
    (advance s d0 now)) as (G1 & G2 & _).
  { unfold gathered, PAGE in *. simpl. rewrite len_snoc, len_app. unfold len at 2 5. simpl.
    split_and!; [lia|lia| |done]. apply Forall_app. split; [done|].
    constructor; [rewrite K1; simpl; eauto|]. constructor; [rewrite K2; simpl; eauto|constructor]. }
  { by unfold no_later. }
  split_and!; [exact G1|exact G2|]. apply due_now_spec in Edue as (Hn & Hd & _).
  intros d Hn' _ Hd'. rewrite Hn in Hn'. simplify_eq. lia.
Qed.

Lemma fire_timers_gathered now timers f f' :
  gathered now f → try_fold (fire_timer now) f timers = Ok f' →
  gathered now f' ∧ no_later f f' ∧
  ∀ k t, (k, t) ∈ timers → (now < due t)%Z → (fired_next f' ≤ due t)%Z.
Proof.
  revert f. induction timers as [|[k t] timers IH]; intros f Hg; cbn [try_fold].
  { intros [= <-]. split_and!; [done|by unfold no_later|]. by intros ?? ?%not_elem_of_nil. }
  destruct (fire_timer now f (k, t)) as [f1|e] eqn:E; [|done]. cbn [result_bind]. intros Hf.
  destruct (fire_timer_gathered _ _ _ _ _ Hg E) as (G1 & G2 & G3).
  destruct (IH f1 G1 Hf) as (I1 & I2 & I3). unfold no_later in *. split_and!; [done|lia|].
  intros k' t' [[= -> ->]|Hin]%elem_of_cons Ht; [specialize (G3 Ht); lia|by apply (I3 k')].
Qed.

Lemma fire_schedules_gathered now schedules f f' :
  calendar_ahead → gathered now f → try_fold (fire_schedule now) f schedules = Ok f' →
  gathered now f' ∧ no_later f f' ∧
  ∀ k s d, (k, s) ∈ schedules → next_at_ms s = Some d → paused s = false → (now < d)%Z →
    (fired_next f' ≤ d)%Z.
Proof.
  intros Hc. revert f. induction schedules as [|[k s] schedules IH]; intros f Hg; cbn [try_fold].
  { intros [= <-]. split_and!; [done|by unfold no_later|]. by intros ??? ?%not_elem_of_nil. }
  destruct (fire_schedule now f (k, s)) as [f1|e] eqn:E; [|done]. cbn [result_bind]. intros Hf.
  destruct (fire_schedule_gathered _ _ _ _ _ Hc Hg E) as (G1 & G2 & G3).
  destruct (IH f1 G1 Hf) as (I1 & I2 & I3). unfold no_later in *. split_and!; [done|lia|].
  intros k' s' d [[= -> ->]|Hin]%elem_of_cons H1 H2 H3; [specialize (G3 d H1 H2 H3); lia|].
  by apply (I3 k' s').
Qed.

Lemma delay_before now f d :
  (now < d)%Z → (fired_next f ≤ d)%Z → (Z.of_N (delay now f) ≤ d - now)%Z.
Proof.
  intros. unfold delay, saturating_sub_i64, i64_min, i64_max. lia.
Qed.

(** A pass over timers and schedules is accepted by the host and sleeps
    no longer than it may.  Its commit has at most 65 events and 65
    mutations, under the host's limits of 1000 and 256, and every event
    has a key, so the guard of an external commit lets it through; and the
    delay it returns, between one and 1000 milliseconds, ends at or before
    every deadline that is still ahead. *)
Theorem fire_within_limits (now : Z) (timers : Timers) (schedules : Schedules) (f1 f2 : Fired)
    (r : HostRunner) (Hcalendar : calendar_ahead) (Hidle : pending r = None)
    (Htimers : fire_timers now timers = Ok f1)
    (Hschedules : fire_schedules now f1 schedules = Ok f2) :
  (len (fired_output f2) ≤ 65 < MAX_OUTCOME_EVENTS)%N ∧
  (len (fired_mutations f2) ≤ 65 < MAX_STATE_MUTATIONS)%N ∧
  commit_cause r (fired_output f2) None = Ok None ∧
  (1 ≤ delay now f2 ≤ 1000)%N ∧
  (∀ k t, (k, t) ∈ timers → (now < due t)%Z → (Z.of_N (delay now f2) ≤ due t - now)%Z) ∧
  (∀ k s d, (k, s) ∈ schedules → next_at_ms s = Some d → paused s = false → (now < d)%Z →
     (Z.of_N (delay now f2) ≤ d - now)%Z).
Proof.
  assert (gathered now (mkFired [] [] (saturating_add_i64 now 1000))) as H0.
  { unfold gathered, len. simpl. split_and!; [lia|lia|constructor|lia]. }
  destruct (fire_timers_gathered _ _ _ _ H0 Htimers) as (G1 & _ & T1).
  destruct (fire_schedules_gathered _ _ _ _ Hcalendar G1 Hschedules) as ((F1 & F2 & F3 & _) & L2 & S2).
  split_and!; [lia|done|lia|done| |unfold delay; lia..| |].
  - unfold commit_cause. rewrite Hidle. simpl.
    assert (existsb (λ p, is_none_or (p_idempotency_key p) str_is_empty) (fired_output f2) = false)
      as ->; [|done].
    clear -F3. induction F3 as [|p ps (c & k & Hp) _ IH]; simpl; [done|]. by rewrite Hp, IH.
  - intros k t Hin Ht. apply delay_before; [done|]. specialize (T1 k t Hin Ht).
    unfold no_later in L2. lia.
  - intros k s d Hin Hn Hp Hd. apply delay_before; [done|]. by apply (S2 k s).
Qed.
End firing.
