(* ===== verification/SchedulerReplay.v ===== *)
(** The scheduler's private state is a projection of the log: what the
    receipts and timer events say, however the state was lost or lags. *)
From stdpp Require Import base tactics countable option list strings sorting gmap.
From Stdlib Require Import ZArith NArith Lia Ascii.
From S2P Require Import Prelude Event Delivery Utf8 Json Host Imports Instance Plugin Scheduler SchedulerSpec.

Section replay.
Context {SL : SchedulerLibs} {SJ : SerdeJson} (instance_id : string).

(** ** What the log says *)

(** The receipt an event is. *)
Definition receipt_of (e : WitEvent) : option (string * option Schedule) :=
  if String.eqb (wit_event_type e) "schedule.updated"
     && String.eqb (principal_id (wit_actor e)) instance_id then
    match event_payload e with
    | Ok v =>
        match as_str (value_index v "id"), schedule_from_value (value_index v "schedule") with
        | Some id, Ok s => Some (id, s)
        | _, _ => None
        end
    | Err _ => None
    end
  else None.

Definition encoded (s : option Schedule) : option bytes :=
  s ≫= λ s, result_ok (schedule_to_vec s).

(** The stored schedule of an id, after an event. *)
Definition replay_schedule (id : string) (v : option bytes) (e : WitEvent) : option bytes :=
  match receipt_of e with
  | Some (id', s) => if String.eqb id id' then encoded s else v
  | None => v
  end.

(** The timer of a request, after an event: set by the request, gone when
    fired or when the actor that set it cancels it. *)
Definition replay_timer (r : string) (t : option Timer) (e : WitEvent) : option Timer :=
  match event_payload e with
  | Err _ => t
  | Ok v =>
      if String.eqb (wit_event_type e) "timer.set" then
        match as_i64 (value_index v "dueAtMs") with
        | Some due =>
            if String.eqb r (wit_event_id e)
            then Some (mkTimer (wit_event_id e) (principal_id (wit_actor e)) due) else t
        | None => t
        end
      else if String.eqb (wit_event_type e) "timer.cancel"
              || String.eqb (wit_event_type e) "timer.fired" then
        match as_str (value_index v "requestEventId") with
        | Some id =>
            if String.eqb r id
               && (String.eqb (wit_event_type e) "timer.fired"
                   || is_some_and t (λ t, String.eqb (owner t) (principal_id (wit_actor e))))
            then None else t
        | None => t
        end
      else t
  end.

(** ** The state *)

Definition apply_mutation (st : gmap string bytes) (m : Mutation) : gmap string bytes :=
  match m with
  | MutationSet key v => <[key := v]> st
  | MutationDelete key => delete key st
  end.
Definition apply_mutations (ms : list Mutation) (st : gmap string bytes) : gmap string bytes :=
  foldl apply_mutation st ms.

Definition timer_at (st : gmap string bytes) (r : string) : option Timer :=
  st !! timer_key r ≫= λ b, result_ok (timer_from_slice b).

(** The timers a page is read against are the stored ones. *)
Definition timers_loaded (timers : Timers) (st : gmap string bytes) : Prop :=
  fields_sorted timers = true ∧ ∀ r, map_get (timer_key r) timers = timer_at st r.

(** The codec of timers gives back what it wrote. *)
Definition timer_codec : Prop := ∀ t b, timer_to_vec t = Ok b → timer_from_slice b = Ok t.

(** *** Keys *)

Lemma key_kinds id r : schedule_key id ≠ timer_key r.
Proof. done. Qed.
Lemma schedule_key_inj a b : schedule_key a = schedule_key b → a = b.
Proof. apply append_inj_l. Qed.
Lemma timer_key_inj a b : timer_key a = timer_key b → a = b.
Proof. apply append_inj_l. Qed.
Lemma schedule_key_eqb a b : String.eqb (schedule_key a) (schedule_key b) = String.eqb a b.
Proof.
  destruct (String.eqb_spec a b) as [->|H]; [apply String.eqb_refl|].
  apply String.eqb_neq. by intros ?%schedule_key_inj.
Qed.
Lemma timer_key_eqb a b : String.eqb (timer_key a) (timer_key b) = String.eqb a b.
Proof.
  destruct (String.eqb_spec a b) as [->|H]; [apply String.eqb_refl|].
  apply String.eqb_neq. by intros ?%timer_key_inj.
Qed.

Lemma schedule_mutation_at id s m st id' :
  schedule_mutation id s = Ok m →
  apply_mutation st m !! schedule_key id' =
    if String.eqb id' id then encoded s else st !! schedule_key id'.
Proof.
  unfold schedule_mutation, set_entry, encoded. intros H.
  destruct s as [s|]; [destruct (schedule_to_vec s) as [b|e] eqn:Eb; [|done]|]; simplify_eq/=;
    rewrite ?Eb, ?lookup_insert, ?lookup_delete; case_decide as E;
    try (apply schedule_key_inj in E as ->; by rewrite String.eqb_refl);
    by rewrite (proj2 (String.eqb_neq _ _)) by congruence.
Qed.

Lemma schedule_mutation_timer id s m st r :
  schedule_mutation id s = Ok m → timer_at (apply_mutation st m) r = timer_at st r.
Proof.
  unfold schedule_mutation, set_entry, timer_at. intros H.
  destruct s as [s|]; [destruct (schedule_to_vec s) as [b|e]; [|done]|]; simplify_eq/=;
    (rewrite lookup_insert_ne || rewrite lookup_delete_ne); done.
Qed.

Lemma timer_set_at key t b st r :
  timer_codec → timer_to_vec t = Ok b →
  timer_at (<[timer_key key := b]> st) r = if String.eqb r key then Some t else timer_at st r.
Proof.
  intros Hc Hb. unfold timer_at. rewrite lookup_insert. case_decide as E.
  - apply timer_key_inj in E as ->. rewrite String.eqb_refl. simpl. by rewrite (Hc _ _ Hb).
  - by rewrite (proj2 (String.eqb_neq _ _)) by congruence.
Qed.

Lemma timer_delete_at key st r :
  timer_at (delete (timer_key key) st) r = if String.eqb r key then None else timer_at st r.
Proof.
  unfold timer_at. rewrite lookup_delete. case_decide as E.
  - apply timer_key_inj in E as ->. by rewrite String.eqb_refl.
  - by rewrite (proj2 (String.eqb_neq _ _)) by congruence.
Qed.

(** ** A page *)

(** The mutations [new] do to the state what the event says. *)
Definition replays (st : gmap string bytes) (e : WitEvent) (timers' : Timers) (new : list Mutation)
    : Prop :=
  timers_loaded timers' (apply_mutations new st) ∧
  (∀ id, apply_mutations new st !! schedule_key id = replay_schedule id (st !! schedule_key id) e) ∧
  (∀ r, timer_at (apply_mutations new st) r = replay_timer r (timer_at st r) e).

Lemma replay_schedule_other id v e :
  wit_event_type e ≠ "schedule.updated" → replay_schedule id v e = v.
Proof.
  intros He. unfold replay_schedule, receipt_of. by rewrite (proj2 (String.eqb_neq _ _) He).
Qed.

Lemma replays_nothing st e timers :
  timers_loaded timers st → wit_event_type e ≠ "schedule.updated" →
  (∀ r, replay_timer r (timer_at st r) e = timer_at st r) → replays st e timers [].
Proof.
  intros Hl He Ht. split_and!; [done| |by intros; rewrite Ht].
  intros id. by rewrite replay_schedule_other.
Qed.

Lemma replays_set st e timers v d b :
  timer_codec → timers_loaded timers st → wit_event_type e = "timer.set" →
  event_payload e = Ok v → as_i64 (value_index v "dueAtMs") = Some d →
  let t := mkTimer (wit_event_id e) (principal_id (wit_actor e)) d in
  timer_to_vec t = Ok b →
  replays st e (map_insert (timer_key (wit_event_id e)) t timers)
    [MutationSet (timer_key (wit_event_id e)) b].
Proof.
  intros Hc [Hs Hl] He Hp Hd t Hb. unfold replays. simpl. split_and!.
  - split; [by apply fields_sorted_insert|]. intros r.
    rewrite map_get_insert, timer_key_eqb, (timer_set_at _ t), Hl by done. done.
  - intros id. rewrite replay_schedule_other by (by rewrite He). by rewrite lookup_insert_ne.
  - intros r. rewrite (timer_set_at _ t) by done. unfold replay_timer.
    by rewrite Hp, He, String.eqb_refl, Hd.
Qed.

Lemma replays_delete st e timers id :
  timers_loaded timers st → wit_event_type e ≠ "schedule.updated" →
  (∀ r, replay_timer r (timer_at st r) e = if String.eqb r id then None else timer_at st r) →
  replays st e (map_remove (timer_key id) timers) [MutationDelete (timer_key id)].
Proof.
  intros [Hs Hl] He Ht. unfold replays. simpl. split_and!.
  - split; [by apply fields_sorted_remove|]. intros r.
    by rewrite map_get_remove, timer_key_eqb, timer_delete_at, Hl by by apply fields_sorted_nodup.
  - intros sid. rewrite replay_schedule_other by done. by rewrite lookup_delete_ne.
  - intros r. by rewrite timer_delete_at, Ht.
Qed.

Lemma replays_receipt st e timers v id s m :
  timers_loaded timers st → wit_event_type e = "schedule.updated" →
  principal_id (wit_actor e) = instance_id → event_payload e = Ok v →
  as_str (value_index v "id") = Some id → schedule_from_value (value_index v "schedule") = Ok s →
  schedule_mutation id s = Ok m → replays st e timers [m].
Proof.
  intros [Hs Hl] He Ha Hp Hid Hv Hm. unfold replays. simpl.
  assert (∀ r, timer_at (apply_mutation st m) r = timer_at st r) as Ht
    by (intros r; by eapply schedule_mutation_timer).
  split_and!.
  - split; [done|]. intros r. by rewrite Ht, Hl.
  - intros id'. erewrite schedule_mutation_at by done. unfold replay_schedule, receipt_of.
    by rewrite He, Ha, !String.eqb_refl, Hp, Hid, Hv.
  - intros r. rewrite Ht. unfold replay_timer. by rewrite Hp, He.
Qed.

(** The effect of one event of a page is its replay. *)
Lemma refresh_event_replays timers ms e timers' ms' st :
  timer_codec → timers_loaded timers st →
  refresh_event instance_id (timers, ms) e = Ok (timers', ms') →
  ∃ new, ms' = ms ++ new ∧ replays st e timers' new.
Proof.
  intros Hc Hload. pose proof Hload as [Hs Hl]. unfold refresh_event.
  destruct (event_payload e) as [v|err] eqn:Ep; [|done]. cbn [result_bind].
  destruct (String.eqb_spec (wit_event_type e) "timer.set") as [Et|Hset].
  { destruct (as_i64 _) as [d|] eqn:Ed.
    - unfold set_entry. destruct (timer_to_vec _) as [b|] eqn:Eb; [|done]. intros [= <- <-].
      eexists. split; [done|]. by eapply replays_set.
    - intros [= <- <-]. exists []. rewrite app_nil_r. split; [done|].
      apply replays_nothing; [done|by rewrite Et|]. intros r. unfold replay_timer.
      by rewrite Ep, Et, Ed. }
  destruct (String.eqb (wit_event_type e) "timer.cancel" || String.eqb (wit_event_type e) "timer.fired")
    eqn:Ek.
  { assert (wit_event_type e ≠ "schedule.updated") as Hne.
    { intros E. by rewrite E in Ek. }
    assert (∀ r t, replay_timer r t e = match as_str (value_index v "requestEventId") with
      | Some id => if String.eqb r id && (String.eqb (wit_event_type e) "timer.fired"
                     || is_some_and t (λ t, String.eqb (owner t) (principal_id (wit_actor e))))
                   then None else t
      | None => t end) as Hr.
    { intros r t. unfold replay_timer. by rewrite Ep, (proj2 (String.eqb_neq _ _) Hset), Ek. }
    destruct (as_str _) as [id|] eqn:Eid.
    2: { intros [= <- <-]. exists []. rewrite app_nil_r. split; [done|]. by apply replays_nothing. }
    rewrite Hl. match goal with |- (if ?b then _ else _) = _ → _ => destruct b eqn:Edel end;
      intros [= <- <-].
    - eexists. split; [done|]. apply replays_delete; [done|done|]. intros r. rewrite Hr.
      destruct (String.eqb_spec r id) as [->|]; simpl; [by rewrite Edel|done].
    - exists []. rewrite app_nil_r. split; [done|]. apply replays_nothing; [done|done|].
      intros r. rewrite Hr. destruct (String.eqb_spec r id) as [->|]; simpl; [by rewrite Edel|done]. }
  assert (∀ r t, replay_timer r t e = t) as Hr.
  { intros r t. unfold replay_timer. by rewrite Ep, (proj2 (String.eqb_neq _ _) Hset), Ek. }
  destruct (String.eqb_spec (wit_event_type e) "schedule.updated") as [Eu|Hne]; simpl.
  2: { intros [= <- <-]. exists []. rewrite app_nil_r. split; [done|]. by apply replays_nothing. }
  destruct (String.eqb_spec (principal_id (wit_actor e)) instance_id) as [Ea|Hna].
  - destruct (as_str _) as [id|] eqn:Eid; [|done]. simpl.
    destruct (schedule_from_value _) as [s|] eqn:Es; [|done]. simpl.
    destruct (schedule_mutation id s) as [m|] eqn:Em; [|done]. intros [= <- <-].
    eexists. split; [done|]. by eapply replays_receipt.
  - intros [= <- <-]. exists []. rewrite app_nil_r. split; [done|]. split_and!; [done| |done].
    intros id. unfold replay_schedule, receipt_of.
    by rewrite Eu, (proj2 (String.eqb_neq _ _) Hna), andb_false_r.
Qed.

Lemma refresh_events_replay page timers ms timers' ms' st :
  timer_codec → timers_loaded timers st →
  try_fold (refresh_event instance_id) (timers, ms) page = Ok (timers', ms') →
  ∃ new, ms' = ms ++ new ∧
    (∀ id, apply_mutations new st !! schedule_key id =
       foldl (replay_schedule id) (st !! schedule_key id) page) ∧
    (∀ r, timer_at (apply_mutations new st) r = foldl (replay_timer r) (timer_at st r) page).
Proof.
  intros Hc. revert timers ms st. induction page as [|e page IH]; intros timers ms st Hl; cbn [try_fold].
  { intros [= <- <-]. exists []. by rewrite app_nil_r. }
  destruct (refresh_event instance_id (timers, ms) e) as [[t1 m1]|err] eqn:E; [|done].
  cbn [result_bind]. intros Hf.
  destruct (refresh_event_replays _ _ _ _ _ _ Hc Hl E) as (n1 & -> & L1 & S1 & T1).
  destruct (IH _ _ _ L1 Hf) as (n2 & -> & S2 & T2). exists (n1 ++ n2).
  split; [by rewrite app_assoc|]. unfold apply_mutations in *. rewrite foldl_app.
  split; [intros id; by rewrite S2, S1|intros r; by rewrite T2, T1].
Qed.

(** A page applied to the state is its replay. *)
Lemma refresh_page_replays timers page ms st :
  timer_codec → timers_loaded timers st → refresh_page instance_id timers page = Ok ms →
  (∀ id, apply_mutations ms st !! schedule_key id =
     foldl (replay_schedule id) (st !! schedule_key id) page) ∧
  (∀ r, timer_at (apply_mutations ms st) r = foldl (replay_timer r) (timer_at st r) page).
Proof.
  intros Hc Hl. unfold refresh_page.
  destruct (try_fold _ _ _) as [[t1 m1]|e] eqn:E; [|done]. cbn [result_bind snd].
  unfold set_entry. destruct (through_to_vec _) as [b|e]; [|done]. intros [= <-].
  destruct (refresh_events_replay _ _ _ _ _ _ Hc Hl E) as (new & -> & S & T).
  unfold apply_mutations in *. rewrite foldl_app. simpl. split.
  - intros id. by rewrite lookup_insert_ne, S.
  - intros r. rewrite <- T. unfold timer_at. by rewrite lookup_insert_ne.
Qed.

(** ** Commits *)

(** The event a proposal becomes. *)
Definition committed_as (p : Proposal) (e : WitEvent) : Prop :=
  wit_event_type e = p_event_type p ∧ wit_payload e = p_payload p ∧
  principal_id (wit_actor e) = instance_id.

(** The payload of a fired timer. *)
Definition fired_value (r : string) (d : Z) : Value :=
  object [("requestEventId", Str r); ("dueAtMs", num_i64 d)].

(** An event with the mutations committed for it: the receipt of a schedule
    with its new value, a fired timer with its removal, or an event the
    projection does not read, with none. *)
Inductive paired : Proposal → list Mutation → Prop :=
| paired_receipt p id s b m :
    p_event_type p = "schedule.updated" → p_payload p = CanonicalJson b →
    to_vec (receipt_value id s) = Ok b → schedule_mutation id s = Ok m → paired p [m]
| paired_timer p r d b :
    p_event_type p = "timer.fired" → p_payload p = CanonicalJson b →
    to_vec (fired_value r d) = Ok b →
    paired p [MutationDelete (timer_key r)]
| paired_other p :
    p_event_type p ∉ projected_types → paired p [].

(** The text format carries the receipts and the fired timers exactly: their
    values are plain. *)
Definition carried (ps : list Proposal) : Prop := ∀ p b, p ∈ ps → p_payload p = CanonicalJson b →
  (∀ id s, to_vec (receipt_value id s) = Ok b → plain (receipt_value id s) = true) ∧
  (∀ r d, to_vec (fired_value r d) = Ok b → plain (fired_value r d) = true).

Definition paired_all (ps : list Proposal) (ms : list Mutation) : Prop :=
  ∃ l, l.*1 = ps ∧ concat l.*2 = ms ∧ Forall (λ x, paired x.1 x.2) l.

Definition schedule_codec : Prop :=
  (∀ s, schedule_from_value (schedule_to_value s) = Ok (Some s)) ∧
  schedule_from_value Null = Ok None.

Lemma payload_of v b e :
  json_roundtrip → plain v = true → to_vec v = Ok b → wit_payload e = CanonicalJson b →
  event_payload e = Ok v.
Proof.
  intros Hj Hp Hb He. destruct (Hj v Hp) as (b' & Hb' & Hs). unfold event_payload.
  rewrite He. rewrite Hb in Hb'. simplify_eq. by rewrite Hs.
Qed.

(** The event decides what its mutations touch, whatever was there. *)
Definition overrides (st st' : gmap string bytes) (e : WitEvent) : Prop :=
  (∀ id, st' !! schedule_key id = st !! schedule_key id ∨
     ∀ v v', replay_schedule id v e = replay_schedule id v' e) ∧
  (∀ r, timer_at st' r = timer_at st r ∨ ∀ t t', replay_timer r t e = replay_timer r t' e).

Lemma receipt_read e id s b :
  json_roundtrip → schedule_codec → wit_event_type e = "schedule.updated" →
  principal_id (wit_actor e) = instance_id → wit_payload e = CanonicalJson b →
  to_vec (receipt_value id s) = Ok b → plain (receipt_value id s) = true →
  receipt_of e = Some (id, s).
Proof.
  intros Hj [Hs1 Hs2] Et Ea Ep Hb Hp. unfold receipt_of. rewrite Et, Ea, !String.eqb_refl.
  rewrite (payload_of _ _ _ Hj Hp Hb Ep). simpl. unfold receipt_value, value_index.
  rewrite !object_get. simpl. destruct s as [s|]; [by rewrite Hs1|by rewrite Hs2].
Qed.

Lemma paired_overrides p ms e st :
  json_roundtrip → schedule_codec → paired p ms → carried [p] → committed_as p e →
  overrides st (apply_mutations ms st) e.
Proof.
  intros Hj Hsc Hp Hcar (Et & Epay & Ea).
  destruct Hp as [p id s b m H1 H2 H3 H5|p r d b H1 H2 H3|p H1];
    rewrite ?H1 in Et; rewrite ?H2 in Epay; simpl.
  - assert (plain (receipt_value id s) = true) as H4 by (by eapply (Hcar p b); [left|..]).
    pose proof (receipt_read e id s b Hj Hsc Et Ea Epay H3 H4) as Hr. split.
    + intros id'. rewrite (schedule_mutation_at _ _ _ _ _ H5).
      destruct (String.eqb_spec id' id) as [->|]; [|by left]. right. intros v v'.
      unfold replay_schedule. by rewrite Hr, String.eqb_refl.
    + intros r. left. by eapply schedule_mutation_timer.
  - assert (event_payload e = Ok (fired_value r d)) as Hv.
    { eapply payload_of; [done| |done|done]. by eapply (Hcar p b); [left|..]. }
    split; [intros id; left; by rewrite lookup_delete_ne|].
    intros r'. rewrite timer_delete_at. destruct (String.eqb_spec r' r) as [->|]; [|by left].
    right. intros t t'. unfold replay_timer. rewrite Hv, Et. unfold fired_value, value_index.
    rewrite !object_get. simpl. by rewrite String.eqb_refl.
  - split; intros; by left.
Qed.

Lemma paired_snoc ps ms l :
  paired_all ps ms → Forall (λ x, paired x.1 x.2) l → paired_all (ps ++ l.*1) (ms ++ concat l.*2).
Proof.
  intros (k & <- & <- & Hk) Hl. exists (k ++ l).
  rewrite !fmap_app, concat_app. split_and!; [done..|]. by apply Forall_app.
Qed.

(** *** Of [fire] *)

Definition timers_keyed (timers : Timers) : Prop :=
  Forall (λ '(k, t), k = timer_key (timer_request t)) timers.

Lemma fire_timer_paired now f k t f' :
  k = timer_key (timer_request t) →
  paired_all (fired_output f) (fired_mutations f) → fire_timer now f (k, t) = Ok f' →
  paired_all (fired_output f') (fired_mutations f').
Proof.
  intros -> Hp. unfold fire_timer. destruct (_ && _); [|by intros [= <-]].
  destruct (proposal _ _ _ _) as [p|e] eqn:E; [|done]. intros [= <-].
  apply proposal_shape in E as (E1 & _ & _ & b & E2 & E3). simpl.
  apply (paired_snoc _ _ [(p, [MutationDelete (timer_key (timer_request t))])]); [done|].
  constructor; [|constructor]. by eapply paired_timer.
Qed.

Lemma fire_schedule_paired now f k s f' :
  paired_all (fired_output f) (fired_mutations f) → fire_schedule now f (k, s) = Ok f' →
  paired_all (fired_output f') (fired_mutations f').
Proof.
  intros Hp. unfold fire_schedule. cbn [snd].
  assert (∀ g s' r, paired_all (fired_output g) (fired_mutations g) →
    Ok (match next_at_ms s' with
        | Some due => if paused s' then g
            else mkFired (fired_output g) (fired_mutations g) (Z.min (fired_next g) due)
        | None => g
        end) = @Ok Fired WitError r → paired_all (fired_output r) (fired_mutations r)) as Hend.
  { intros g s' r Hg [= <-]. destruct (next_at_ms s'), (paused s'); done. }
  destruct (_ <? _)%N; [|by apply Hend].
  unfold occurrence. destruct (due_now s now) as [d|]; [|by apply Hend].
  destruct (proposal "observation.received" _ _ _) as [p|e] eqn:E1; [|done]. cbn [result_bind].
  destruct (proposal "schedule.updated" _ _ _) as [q|e] eqn:E2; [|done]. cbn [result_bind].
  destruct (schedule_mutation _ _) as [m|e] eqn:E3; [|done]. cbn [result_bind].
  apply Hend. apply proposal_shape in E1 as (K1 & _). apply proposal_shape in E2 as (K2 & _ & _ & b & B1 & B2).
  apply (paired_snoc _ _ [(p, []); (q, [m])]); [done|]. constructor; [|constructor; [|constructor]].
  - apply paired_other. simpl. rewrite K1. by apply (bool_decide_eq_true_1 (_ ∉ _)).
  - by eapply paired_receipt.
Qed.

Lemma fire_timers_paired now timers f f1 :
  timers_keyed timers → paired_all (fired_output f) (fired_mutations f) →
  try_fold (fire_timer now) f timers = Ok f1 → paired_all (fired_output f1) (fired_mutations f1).
Proof.
  intros Hk. revert f. induction Hk as [|[k t] timers Hk _ IH]; intros f H0; cbn [try_fold].
  - by intros [= <-].
  - destruct (fire_timer now f (k, t)) as [f'|] eqn:E; [|done]. cbn [result_bind].
    apply IH. by eapply fire_timer_paired.
Qed.

Lemma fire_schedules_paired now schedules f f1 :
  paired_all (fired_output f) (fired_mutations f) →
  fire_schedules now f schedules = Ok f1 → paired_all (fired_output f1) (fired_mutations f1).
Proof.
  unfold fire_schedules. revert f.
  induction schedules as [|[k s] schedules IH]; intros f H0; cbn [try_fold].
  - by intros [= <-].
  - destruct (fire_schedule now f (k, s)) as [f'|] eqn:E; [|done]. cbn [result_bind].
    apply IH. by eapply fire_schedule_paired.
Qed.

Lemma fire_paired now timers schedules f1 f2 :
  timers_keyed timers → fire_timers now timers = Ok f1 → fire_schedules now f1 schedules = Ok f2 →
  paired_all (fired_output f2) (fired_mutations f2).
Proof.
  intros Hk Ht. apply fire_schedules_paired. eapply fire_timers_paired; [done| |exact Ht].
  by exists [].
Qed.

(** *** Of [handle] *)

Lemma answer_paired e r ps ms : answer e r = Ok (ps, ms) → paired_all ps ms.
Proof.
  assert (∀ kind v c k p, proposal kind v c k = Ok p → kind ∉ projected_types → paired p []) as Hother.
  { intros kind v c k p (<- & _)%proposal_shape Hk. by apply paired_other. }
  unfold answer. destruct r as [[value changed]|err].
  - destruct changed as [[id s]|]; cbn [result_bind].
    + destruct (proposal "schedule.updated" _ _ _) as [p|] eqn:E1; [|done]. cbn [result_bind].
      destruct (schedule_mutation id s) as [m|] eqn:E2; [|done]. cbn [result_bind].
      destruct (proposal "capability.completed" _ _ _) as [q|] eqn:E3; [|done]. intros [= <- <-].
      exists [(p, [m]); (q, [])]. split_and!; [done..|]. constructor; [|constructor; [|constructor]].
      * apply proposal_shape in E1 as (K1 & _ & _ & b & B1 & B2). by eapply paired_receipt.
      * eapply Hother; [done|]. by apply (bool_decide_eq_true_1 (_ ∉ _)).
    + destruct (proposal "capability.completed" _ _ _) as [q|] eqn:E3; [|done]. intros [= <- <-].
      exists [(q, [])]. split_and!; [done..|]. constructor; [|constructor].
      eapply Hother; [done|]. by apply (bool_decide_eq_true_1 (_ ∉ _)).
  - destruct (proposal "capability.failed" _ _ _) as [q|] eqn:E3; [|done]. intros [= <- <-].
    exists [(q, [])]. split_and!; [done..|]. constructor; [|constructor].
    eapply Hother; [done|]. by apply (bool_decide_eq_true_1 (_ ∉ _)).
Qed.

Lemma paired_all_app ps ms ps' ms' :
  paired_all ps ms → paired_all ps' ms' → paired_all (ps ++ ps') (ms ++ ms').
Proof. intros H (l & <- & <- & Hl). by apply paired_snoc. Qed.

Lemma handle_events_paired events : ∀ clock schedules out out',
  paired_all (o_events out) (o_mutations out) →
  returns (handle_events clock schedules events out) (Ok out') →
  paired_all (o_events out') (o_mutations out').
Proof.
  induction events as [|e events IH]; intros clock schedules out out' Hp; cbn [handle_events].
  { simpl. by intros [= ->]. }
  intros (managed & _ & H)%returns_gm_bind. destruct managed as [[capability args]|]; [|by eapply IH].
  apply returns_gm_bind in H as (o & _ & H). revert H.
  match goal with |- context [let '(_, _) := ?x in _] => destruct x as [r schedules'] end.
  intros (added & Ha & H)%returns_gm_bind. simpl in Ha. eapply IH; [|exact H]. simpl.
  destruct added as [ps ms]. apply paired_all_app; [done|]. simpl. by eapply answer_paired.
Qed.

(** ** The host of the component *)

(** The private state, the agent's stream, and the idempotency keys its events
    bear. *)
Record SchedulerWorld : Type := mkSchedulerWorld {
  sw_state : gmap string bytes;
  sw_log : list WitEvent;
  sw_keys : list string;
}.
Definition empty_world : SchedulerWorld := mkSchedulerWorld ∅ [] [].

#[local] Abbreviation seq_lt := (λ a b : WitEvent, (wit_sequence a < wit_sequence b)%N).

(** New events come after all that is in the log, in order. *)
Definition fresh (w : SchedulerWorld) (es : list WitEvent) : Prop :=
  Forall (λ e, (0 < wit_sequence e)%N ∧
               Forall (λ x, (wit_sequence x < wit_sequence e)%N) (sw_log w)) es ∧
  StronglySorted seq_lt es.

(** Events of others enter the stream. *)
Definition arrives (w w' : SchedulerWorld) : Prop := ∃ es keys, fresh w es ∧
  w' = mkSchedulerWorld (sw_state w) (sw_log w ++ es) (sw_keys w ++ keys).

Definition commit_world (w : SchedulerWorld) (ps : list Proposal) (es : list WitEvent) (ms : list Mutation)
    : SchedulerWorld :=
  mkSchedulerWorld (apply_mutations ms (sw_state w)) (sw_log w ++ es) (sw_keys w ++ omap p_idempotency_key ps).

(** The part of a filter the component uses: a sequence and event types. *)
Definition filter_selects (f : Filter) (e : WitEvent) : bool :=
  (default 0%N (f_after_sequence f) <? wit_sequence e)%N
  && (bool_decide (f_event_types f = []) || str_mem (wit_event_type e) (f_event_types f)).

Definition after_key (after : option string) (k : string) : Prop := ∀ a, after = Some a → ¬ String.le k a.

(** A page of a scan: stored entries with the prefix, and every one of them
    after the key it starts at, up to the key the next page starts at. *)
Record scan_page (st : gmap string bytes) (prefix : string) (after : option string) (page : WitStatePage)
    : Prop := {
  sp_stored : ∀ e, e ∈ wit_entries page →
    st !! entry_key e = Some (entry_value e) ∧ starts_with prefix (entry_key e) = true;
  sp_all : ∀ k v, st !! k = Some v → starts_with prefix k = true → after_key after k →
    (∃ e, e ∈ wit_entries page ∧ entry_key e = k) ∨
    ∃ next, wit_next_key page = Some next ∧ after_key (Some next) k;
}.

(** What the host answers to a call, and what the call does.  Any call may
    fail.  A commit whose proposals bear keys that are taken is left out: the
    store would answer with the earlier events. *)
Definition host_answers (c : HostCall) : SchedulerWorld → answer_of c → SchedulerWorld → Prop :=
  match c with
  | StateGet key => λ w a w', w' = w ∧ (a = Ok (sw_state w !! key) ∨ ∃ e, a = Err e)
  | StateScan prefix after _ => λ w a w', w' = w ∧
      ((∃ page, a = Ok page ∧ scan_page (sw_state w) prefix after page) ∨ ∃ e, a = Err e)
  | EventsQuery f limit => λ w a w', w' = w ∧
      ((∃ page, a = Ok page ∧
          page_events page = take (N.to_nat limit) (List.filter (filter_selects f) (sw_log w))) ∨
       ∃ e, a = Err e)
  | RuntimeCommit ps ms _ => λ w a w',
      (∃ e, a = Err e) ∧ w' = w ∨
      a = Ok tt ∧ ∃ es, Forall2 committed_as ps es ∧ fresh w es ∧ carried ps ∧
        (∀ k, k ∈ omap p_idempotency_key ps → k ∉ sw_keys w) ∧ NoDup (omap p_idempotency_key ps) ∧
        w' = commit_world w ps es ms
  | EventsAppend _ => λ w _ w', arrives w w'
  | _ => λ w _ w', w' = w
  end.

(** *** Running programs *)

(** A program runs to its end, others writing to the stream between its
    calls. *)
Fixpoint runs {A} (g : Guest A) (w : SchedulerWorld) (a : A) (w' : SchedulerWorld) : Prop :=
  match g with
  | Return x => a = x ∧ w' = w
  | Trap _ => False
  | Call c k => ∃ w0 ans w1, arrives w w0 ∧ host_answers c w0 ans w1 ∧ runs (k ans) w1 a w'
  end.

(** A world a program brings about, wherever it is stopped. *)
Fixpoint reaches {A} (g : Guest A) (w w' : SchedulerWorld) : Prop :=
  w' = w ∨
  match g with
  | Call c k => ∃ w0 ans w1, arrives w w0 ∧ host_answers c w0 ans w1 ∧ reaches (k ans) w1 w'
  | _ => False
  end.

(** [I] holds after every call, and [Q] of what is returned. *)
Fixpoint always {A} (I : SchedulerWorld → Prop) (g : Guest A) (w : SchedulerWorld)
    (Q : A → SchedulerWorld → Prop) : Prop :=
  match g with
  | Return a => Q a w
  | Trap _ => True
  | Call c k => ∀ w0 ans w1, arrives w w0 → host_answers c w0 ans w1 → I w1 ∧ always I (k ans) w1 Q
  end.

Lemma always_runs {A} I (g : Guest A) w Q a w' : always I g w Q → runs g w a w' → Q a w'.
Proof.
  revert w. induction g as [x|reason|c k IH]; intros w Ha Hr; simpl in *; [by destruct Hr as [-> ->]|done|].
  destruct Hr as (w0 & ans & w1 & H1 & H2 & H3). eapply IH; [by eapply Ha|done].
Qed.

Lemma always_reaches {A} I (g : Guest A) w Q w' : I w → always I g w Q → reaches g w w' → I w'.
Proof.
  revert w. induction g as [x|reason|c k IH]; intros w Hi Ha Hr; simpl in *;
    (destruct Hr as [->|Hr]; [done|]); [done|done|].
  destruct Hr as (w0 & ans & w1 & H1 & H2 & H3). destruct (Ha w0 ans w1 H1 H2) as [Hi1 Ha1]. by eapply IH.
Qed.

Lemma always_bind {A B} I (g : Guest A) (k : A → Guest B) w Q :
  always I g w (λ a w', always I (k a) w' Q) → always I (guest_bind g k) w Q.
Proof.
  revert w. induction g as [x|reason|c f IH]; intros w Ha; simpl in *; [done|done|].
  intros w0 ans w1 H1 H2. destruct (Ha w0 ans w1 H1 H2) as [Hi Hk]. split; [done|]. by apply IH.
Qed.

Lemma always_mono {A} I (g : Guest A) w (Q R : A → SchedulerWorld → Prop) :
  always I g w Q → (∀ a w', Q a w' → R a w') → always I g w R.
Proof.
  revert w. induction g as [x|reason|c f IH]; intros w Ha HQ; simpl in *; [by apply HQ|done|].
  intros w0 ans w1 H1 H2. destruct (Ha w0 ans w1 H1 H2) as [Hi Hk]. split; [done|]. by apply IH.
Qed.

(** The [?] of a program. *)
Lemma always_gm {A B} I (m : GM A) (k : A → GM B) w Q :
  always I m w (λ r w', match r with Ok a => always I (k a) w' Q | Err e => Q (Err e) w' end) →
  always I (gm_bind m k) w Q.
Proof. intros H. apply always_bind. eapply always_mono; [exact H|]. by intros [a|e] w'. Qed.

(** *** The log *)

(** The events of a log after a sequence. *)
Definition after (t : N) (l : list WitEvent) : list WitEvent :=
  List.filter (λ e, t <? wit_sequence e)%N l.

Lemma after_app t a b : after t (a ++ b) = after t a ++ after t b.
Proof. apply List.filter_app. Qed.

Lemma after_all t l : Forall (λ e, (t < wit_sequence e)%N) l → after t l = l.
Proof. induction 1 as [|e l He _ IH]; [done|]. unfold after in *. simpl. by rewrite (proj2 (N.ltb_lt _ _) He), IH. Qed.

Lemma after_none t l : Forall (λ e, (wit_sequence e ≤ t)%N) l → after t l = [].
Proof. induction 1 as [|e l He _ IH]; [done|]. unfold after in *. simpl. by rewrite (proj2 (N.ltb_ge _ _) He). Qed.

Lemma after_after t t' l : (t ≤ t')%N → after t' (after t l) = after t' l.
Proof.
  intros Ht. unfold after. induction l as [|e l IH]; simpl; [done|].
  destruct (N.ltb_spec t (wit_sequence e)); simpl; rewrite IH; [done|].
  by rewrite (proj2 (N.ltb_ge _ _)) by lia.
Qed.

(** The events the projection reads. *)
Definition is_projected (e : WitEvent) : bool := str_mem (wit_event_type e) projected_types.
Definition projected_of (l : list WitEvent) : list WitEvent := List.filter is_projected l.

Lemma projected_app a b : projected_of (a ++ b) = projected_of a ++ projected_of b.
Proof. apply List.filter_app. Qed.

Lemma projected_after t l : projected_of (after t l) = after t (projected_of l).
Proof.
  unfold projected_of, after. induction l as [|e l IH]; cbn [List.filter]; [done|].
  destruct (t <? wit_sequence e)%N eqn:E1, (is_projected e) eqn:E2; cbn [List.filter]; rewrite ?E1, ?E2, IH; done.
Qed.

Lemma selects_projected t l : List.filter (filter_selects (refresh_filter t)) l = projected_of (after t l).
Proof.
  unfold projected_of, after, filter_selects. induction l as [|e l IH]; [done|]. cbn [List.filter].
  rewrite IH. cbn [refresh_filter f_after_sequence f_event_types default id].
  rewrite bool_decide_false by done. cbn [orb]. fold (is_projected e).
  by destruct (t <? wit_sequence e)%N, (is_projected e) eqn:E; cbn [List.filter andb]; rewrite ?E.
Qed.

Lemma sublist_sorted (f : WitEvent → bool) l : StronglySorted seq_lt l → StronglySorted seq_lt (List.filter f l).
Proof.
  induction 1 as [|x l _ IH Hx]; simpl; [constructor|]. destruct (f x); [|done]. constructor; [done|].
  rewrite Forall_forall in Hx |- *. intros y. rewrite list_elem_of_In, List.filter_In, <- list_elem_of_In.
  intros [Hy _]. by apply Hx.
Qed.

(** What follows the last event of a page. *)
Lemma after_page l a r : StronglySorted seq_lt ((l ++ [a]) ++ r) → after (wit_sequence a) ((l ++ [a]) ++ r) = r.
Proof.
  intros (H1 & H2 & H3)%StronglySorted_app. rewrite after_app, after_none, after_all; [done| |].
  - apply Forall_forall. intros x Hx. apply (H1 a x); [|done]. apply elem_of_app. right. by left.
  - apply StronglySorted_app in H2 as (H4 & _ & _). apply Forall_forall. intros x.
    intros [Hx|Hx%list_elem_of_singleton]%elem_of_app; [|by subst].
    specialize (H4 x a Hx ltac:(by left)). simpl in H4. lia.
Qed.

(** An event of another type says nothing. *)
Lemma replay_other l id r v t :
  foldl (replay_schedule id) v l = foldl (replay_schedule id) v (projected_of l) ∧
  foldl (replay_timer r) t l = foldl (replay_timer r) t (projected_of l).
Proof.
  revert v t. induction l as [|e l IH]; intros v t; [done|]. unfold projected_of in *. cbn [foldl List.filter].
  destruct (is_projected e) eqn:E; [by apply IH|]. unfold is_projected in E.
  assert (∀ k, k ∈ projected_types → String.eqb (wit_event_type e) k = false) as Hne.
  { intros k Hk. apply String.eqb_neq. intros E'. rewrite E' in E. apply not_true_iff_false in E. by rewrite str_mem_spec in E. }
  assert (replay_schedule id v e = v) as ->.
  { apply replay_schedule_other. apply String.eqb_neq, Hne. repeat constructor. }
  assert (replay_timer r t e = t) as ->; [|by apply IH].
  unfold replay_timer. rewrite !Hne by (repeat constructor). by destruct (event_payload e).
Qed.

(** ** The invariant *)

(** The cursor the component stores. *)
Definition through_of (st : gmap string bytes) : option N :=
  match st !! THROUGH with None => Some 0%N | Some b => result_ok (through_from_slice b) end.
Definition through_codec : Prop := ∀ n b, through_to_vec n = Ok b → through_from_slice b = Ok n.

(** Stored timers are under the keys of their requests. *)
Definition timers_stored (st : gmap string bytes) : Prop := ∀ k b,
  st !! k = Some b → starts_with "timer:" k = true →
  ∀ t, timer_from_slice b = Ok t → k = timer_key (timer_request t).

(** The log is in order, and every event has a sequence. *)
Definition log_ordered (w : SchedulerWorld) : Prop :=
  StronglySorted seq_lt (sw_log w) ∧ Forall (λ e, (0 < wit_sequence e)%N) (sw_log w).

(** The stored cursor is [t], and the state, once the events after it are
    replayed on it, is the replay of the whole log. *)
Record projected (t : N) (w : SchedulerWorld) : Prop := {
  pj_through : through_of (sw_state w) = Some t;
  pj_seen : t = 0%N ∨ ∃ e, e ∈ sw_log w ∧ wit_sequence e = t;
  pj_ordered : log_ordered w;
  pj_stored : timers_stored (sw_state w);
  pj_schedules : ∀ id, foldl (replay_schedule id) (sw_state w !! schedule_key id) (after t (sw_log w))
    = foldl (replay_schedule id) None (sw_log w);
  pj_timers : ∀ r, foldl (replay_timer r) (timer_at (sw_state w) r) (after t (sw_log w))
    = foldl (replay_timer r) None (sw_log w);
}.
Definition consistent (w : SchedulerWorld) : Prop := ∃ t, projected t w.

Lemma fresh_after t w es : projected t w → fresh w es → Forall (λ e, (t < wit_sequence e)%N) es.
Proof.
  intros Hp [Hf _]. eapply Forall_impl; [exact Hf|]. intros e [H0 Hl].
  destruct (pj_seen _ _ Hp) as [->|(x & Hx & <-)]; [done|]. rewrite Forall_forall in Hl. by apply Hl.
Qed.

Lemma fresh_ordered w es st keys : log_ordered w → fresh w es → log_ordered (mkSchedulerWorld st (sw_log w ++ es) keys).
Proof.
  intros [H1 H2] [H3 H4]. rewrite Forall_forall in H3. split; simpl.
  - apply StronglySorted_app. split_and!; [|done|done]. intros a b Ha Hb.
    destruct (H3 b Hb) as [_ H5]. rewrite Forall_forall in H5. by apply H5.
  - apply Forall_app. split; [done|]. apply Forall_forall. intros e He. by apply H3.
Qed.

Lemma seen_app t w es : (t = 0%N ∨ ∃ e, e ∈ sw_log w ∧ wit_sequence e = t) →
  t = 0%N ∨ ∃ e, e ∈ sw_log w ++ es ∧ wit_sequence e = t.
Proof. intros [->|(e & He & <-)]; [by left|]. right. exists e. split; [apply elem_of_app; by left|done]. Qed.

Lemma arrives_projected t w w' : projected t w → arrives w w' → projected t w'.
Proof.
  intros Hp (es & keys & Hf & ->). pose proof (fresh_after _ _ _ Hp Hf) as Ha. split; simpl.
  - apply Hp.
  - by apply seen_app, Hp.
  - apply fresh_ordered; [apply Hp|done].
  - apply Hp.
  - intros id. rewrite after_app, (after_all _ es Ha), !foldl_app. by rewrite (pj_schedules _ _ Hp).
  - intros r. rewrite after_app, (after_all _ es Ha), !foldl_app. by rewrite (pj_timers _ _ Hp).
Qed.

Lemma arrives_refl w : arrives w w.
Proof. exists [], []. split; [by split; constructor|]. rewrite !app_nil_r. by destruct w. Qed.

Lemma arrives_trans w1 w2 w3 : arrives w1 w2 → arrives w2 w3 → arrives w1 w3.
Proof.
  intros (es & ks & [F1 S1] & ->) (es' & ks' & [F2 S2] & ->). exists (es ++ es'), (ks ++ ks'). simpl in *.
  rewrite !app_assoc. split; [|done]. rewrite Forall_forall in F2. split.
  - apply Forall_app. split; [done|]. apply Forall_forall. intros e He. destruct (F2 e He) as [H0 Hl].
    split; [done|]. by apply Forall_app in Hl as [Hl _].
  - apply StronglySorted_app. split_and!; [|done|done]. intros a b Ha Hb. destruct (F2 b Hb) as [_ Hl].
    apply Forall_app in Hl as [_ Hl]. rewrite Forall_forall in Hl. by apply Hl.
Qed.

(** Calls that read. *)
Definition is_read (c : HostCall) : bool :=
  match c with EventsAppend _ | RuntimeCommit _ _ _ => false | _ => true end.

Lemma read_keeps c w a w' : is_read c = true → host_answers c w a w' → w' = w.
Proof. by destruct c; simpl; try done; intros _ []. Qed.

Fixpoint reads_only {A} (g : Guest A) : Prop :=
  match g with
  | Call c k => is_read c = true ∧ ∀ a, reads_only (k a)
  | _ => True
  end.

Lemma reads_bind {A B} (g : Guest A) (k : A → Guest B) :
  reads_only g → (∀ a, reads_only (k a)) → reads_only (guest_bind g k).
Proof. induction g as [a|reason|c f IH]; simpl; [auto|done|]. intros [H1 H2] Hk. split; [done|]. intros a. by apply IH. Qed.

Lemma reads_gm {A B} (m : GM A) (k : A → GM B) : reads_only m → (∀ a, reads_only (k a)) → reads_only (gm_bind m k).
Proof. intros Hm Hk. apply reads_bind; [done|]. by intros [a|e]. Qed.

Lemma always_reads {A} (g : Guest A) w Q : consistent w → reads_only g →
  (∀ a w', consistent w' → arrives w w' → returns g a → Q a w') → always consistent g w Q.
Proof.
  revert w Q. induction g as [a|reason|c k IH]; intros w Q Hi Hr HQ; simpl in *.
  - apply HQ; [done|apply arrives_refl|done].
  - done.
  - intros w0 ans w1 Ha Hans. destruct Hr as [Hc Hk]. apply read_keeps in Hans as ->; [|done].
    assert (consistent w0) as Hi0 by (destruct Hi as [t Ht]; exists t; by eapply arrives_projected).
    split; [done|]. apply IH; [done|apply Hk|]. intros a w' Hi' Ha' Hret. apply HQ; [done|by eapply arrives_trans|].
    by exists ans.
Qed.

(** ** Loading *)

Section load.
Context {T : Type} (decode : bytes → result T string) (prefix : string) (st : gmap string bytes).

(** The entries found are stored, and every stored one that is not after
    [after] is found. *)
Record loaded_until (after : option string) (found : list (string * T)) : Prop := {
  lu_sorted : fields_sorted found = true;
  lu_stored : ∀ k v, map_get k found = Some v →
    ∃ b, st !! k = Some b ∧ decode b = Ok v ∧ starts_with prefix k = true;
  lu_all : ∀ k b, st !! k = Some b → starts_with prefix k = true → ¬ after_key after k → is_Some (map_get k found);
}.
(** All of them are found. *)
Definition loaded (found : list (string * T)) : Prop :=
  fields_sorted found = true ∧
  (∀ k v, map_get k found = Some v → ∃ b, st !! k = Some b ∧ decode b = Ok v ∧ starts_with prefix k = true) ∧
  (∀ k b, st !! k = Some b → starts_with prefix k = true → is_Some (map_get k found)).

Definition add_entry (found : list (string * T)) (e : StateEntry) : result (list (string * T)) WitError :=
  let? v := map_err internal (decode (entry_value e)) in Ok (map_insert (entry_key e) v found).

Lemma entries_added es found found' :
  fields_sorted found = true →
  (∀ k v, map_get k found = Some v → ∃ b, st !! k = Some b ∧ decode b = Ok v ∧ starts_with prefix k = true) →
  (∀ e, e ∈ es → st !! entry_key e = Some (entry_value e) ∧ starts_with prefix (entry_key e) = true) →
  try_fold add_entry found es = Ok found' →
  fields_sorted found' = true ∧
  (∀ k v, map_get k found' = Some v → ∃ b, st !! k = Some b ∧ decode b = Ok v ∧ starts_with prefix k = true) ∧
  (∀ k, is_Some (map_get k found) ∨ (∃ e, e ∈ es ∧ entry_key e = k) → is_Some (map_get k found')).
Proof.
  revert found. induction es as [|e es IH]; intros found Hs Hst Hes; cbn [try_fold].
  { intros [= <-]. split_and!; [done|done|]. intros k [H|(x & Hx & _)]; [done|by apply not_elem_of_nil in Hx]. }
  unfold add_entry at 1. destruct (decode (entry_value e)) as [v|err] eqn:Ed; [|done]. cbn [map_err result_bind].
  intros Hf. destruct (Hes e ltac:(by left)) as [He Hp].
  destruct (IH (map_insert (entry_key e) v found)) as (H1 & H2 & H3); [by apply fields_sorted_insert| |by intros; apply Hes; right|done|].
  { intros k x. rewrite map_get_insert. destruct (String.eqb_spec k (entry_key e)) as [->|]; [|by apply Hst].
    intros [= <-]. by exists (entry_value e). }
  split_and!; [done|done|]. intros k Hk. apply H3. rewrite map_get_insert.
  destruct (String.eqb_spec k (entry_key e)) as [->|Hne]; [by left|].
  destruct Hk as [Hk|(x & [->|Hx]%elem_of_cons & <-)]; [by left|done|right; by exists x].
Qed.

Lemma load_always fuel : ∀ after found w Q, consistent w → sw_state w = st → loaded_until after found →
  (∀ r w', consistent w' → arrives w w' → (∀ m, r = Ok m → loaded m) → Q r w') →
  always consistent (load_from decode fuel prefix after found) w Q.
Proof.
  induction fuel as [|fuel IH]; intros after found w Q Hi Hst Hl HQ; [done|]. cbn [load_from].
  apply always_gm. intros w0 ans w1 Ha (-> & Hans).
  assert (consistent w0) as Hi0 by (destruct Hi as [t Ht]; exists t; by eapply arrives_projected).
  split; [done|]. cbn [always]. destruct Hans as [(page & -> & Hpage)|[e ->]]; [|by apply HQ].
  apply always_gm. cbn [always gm_lift].
  assert (sw_state w0 = st) as Hst0 by (destruct Ha as (? & ? & _ & ->); done). rewrite Hst0 in Hpage.
  change (try_fold _ found (wit_entries page)) with (try_fold add_entry found (wit_entries page)).
  destruct (try_fold add_entry found (wit_entries page)) as [found'|e] eqn:Ef; [|by apply HQ].
  destruct (entries_added _ _ _ (lu_sorted _ _ Hl) (lu_stored _ _ Hl) (sp_stored _ _ _ _ Hpage) Ef) as (H1 & H2 & H3).
  assert (∀ k b, st !! k = Some b → starts_with prefix k = true →
    is_Some (map_get k found') ∨ ∃ next, wit_next_key page = Some next ∧ after_key (Some next) k) as Hall.
  { intros k b Hk Hp. assert (after_key after k ∨ ¬ after_key after k) as [Hn|Hn].
    { destruct after as [a|]; [|left; by intros ? [=]].
      destruct (decide (String.le k a)) as [Hle|Hle]; [right|left]; [intros Hn; by apply (Hn a)|by intros ? [= <-]]. }
    - destruct (sp_all _ _ _ _ Hpage k b Hk Hp Hn) as [He|?]; [left; apply H3; by right|by right].
    - left. apply H3. left. by eapply (lu_all _ _ Hl). }
  destruct (wit_next_key page) as [next|] eqn:En.
  - apply IH; [done|done| |].
    + split; [done|done|]. intros k b Hk Hp Hn. destruct (Hall k b Hk Hp) as [?|(x & [= <-] & Hx)]; [done|done].
    + intros r w' Hi' Ha'. apply HQ; [done|]. by eapply arrives_trans.
  - cbn [always gm_ret]. apply HQ; [done|done|]. intros m [= <-]. split_and!; [done|done|].
    intros k b Hk Hp. destruct (Hall k b Hk Hp) as [?|(x & [=] & _)]; done.
Qed.

Lemma load_all fuel w Q : consistent w → sw_state w = st →
  (∀ r w', consistent w' → arrives w w' → (∀ m, r = Ok m → loaded m) → Q r w') →
  always consistent (load decode fuel prefix) w Q.
Proof.
  intros Hi Hst HQ. apply load_always; [done|done| |done]. split; [done|done|].
  intros k b _ _ Hn. destruct Hn. by intros a.
Qed.
End load.

Lemma loaded_timers timers st : loaded timer_from_slice "timer:" st timers →
  timers_loaded timers st ∧ (timers_stored st → timers_keyed timers).
Proof.
  intros (H1 & H2 & H3). split; [split; [done|]|].
  - intros r. unfold timer_at. destruct (map_get (timer_key r) timers) as [t|] eqn:Et.
    + destruct (H2 _ _ Et) as (b & -> & Hb & _). simpl. by rewrite Hb.
    + destruct (st !! timer_key r) as [b|] eqn:Eb; [|done]. destruct (H3 _ _ Eb eq_refl) as [t Ht]. congruence.
  - intros Hst. apply Forall_forall. intros [k t] Hin. apply map_get_elem in Hin; [|by apply fields_sorted_nodup].
    destruct (H2 _ _ Hin) as (b & Hb & Hd & Hp). by eapply Hst.
Qed.

(** ** Commits keep the invariant *)

Lemma schedule_mutation_keeps id s m st : schedule_mutation id s = Ok m →
  through_of (apply_mutation st m) = through_of st ∧ (timers_stored st → timers_stored (apply_mutation st m)).
Proof.
  unfold schedule_mutation, set_entry, through_of. intros H.
  destruct s as [s|]; [destruct (schedule_to_vec s) as [b|e]; [|done]|]; simplify_eq/=.
  - split; [by rewrite lookup_insert_ne|]. intros Hst k x. rewrite lookup_insert. case_decide as E; [|by apply Hst].
    by subst k.
  - split; [by rewrite lookup_delete_ne|]. intros Hst k x. rewrite lookup_delete. case_decide; [done|]. by apply Hst.
Qed.

Lemma timer_delete_keeps r st :
  through_of (delete (timer_key r) st) = through_of st ∧ (timers_stored st → timers_stored (delete (timer_key r) st)).
Proof.
  unfold through_of. split; [by rewrite lookup_delete_ne|]. intros Hst k x. rewrite lookup_delete.
  case_decide; [done|]. by apply Hst.
Qed.

Lemma paired_keeps p ms st : paired p ms →
  through_of (apply_mutations ms st) = through_of st ∧ (timers_stored st → timers_stored (apply_mutations ms st)).
Proof.
  intros [q id s b m _ _ _ Hm|q r d b _ _ _|q _]; simpl; [by eapply schedule_mutation_keeps|apply timer_delete_keeps|done].
Qed.

Lemma commit_one t w p ms e keys :
  json_roundtrip → schedule_codec → projected t w → paired p ms → carried [p] → committed_as p e → fresh w [e] →
  projected t (mkSchedulerWorld (apply_mutations ms (sw_state w)) (sw_log w ++ [e]) keys).
Proof.
  intros Hj Hsc Hw Hp Hcar He Hf. pose proof (fresh_after _ _ _ Hw Hf) as Ha.
  destruct (paired_overrides _ _ _ (sw_state w) Hj Hsc Hp Hcar He) as [Os Ot].
  destruct (paired_keeps _ _ (sw_state w) Hp) as [Kt Ks]. split; simpl.
  - rewrite Kt. apply Hw.
  - by apply seen_app, Hw.
  - apply fresh_ordered; [apply Hw|done].
  - by apply Ks, Hw.
  - intros id. rewrite after_app, (after_all _ [e] Ha), !foldl_app, <- (pj_schedules _ _ Hw id). simpl.
    destruct (Os id) as [->|H]; [done|]. apply H.
  - intros r. rewrite after_app, (after_all _ [e] Ha), !foldl_app, <- (pj_timers _ _ Hw r). simpl.
    destruct (Ot r) as [->|H]; [done|]. apply H.
Qed.

Lemma fresh_tail w e es st keys : fresh w (e :: es) → fresh w [e] ∧ fresh (mkSchedulerWorld st (sw_log w ++ [e]) keys) es.
Proof.
  intros [H1 H2]. apply Forall_cons in H1 as [H0 H1]. apply StronglySorted_cons in H2 as [H3 H2].
  split; [split; [by constructor|by repeat constructor]|]. split; [|done].
  rewrite Forall_forall in H1, H3 |- *. intros x Hx. destruct (H1 x Hx) as [H4 H5].
  split; [done|]. simpl. apply Forall_app. split; [done|]. constructor; [by apply H3|constructor].
Qed.

Lemma commit_all t w ps ms es keys :
  json_roundtrip → schedule_codec → paired_all ps ms → carried ps → Forall2 committed_as ps es →
  fresh w es → projected t w →
  projected t (mkSchedulerWorld (apply_mutations ms (sw_state w)) (sw_log w ++ es) keys).
Proof.
  intros Hj Hsc (l & <- & <- & Hl). revert w es.
  induction Hl as [|[p m] l Hp Hl IH]; intros w es Hcar Hes Hf Hw.
  - inversion Hes; subst. simpl. rewrite app_nil_r. by destruct Hw.
  - inversion Hes as [|? e ? es' He Hes']; subst. simpl in *.
    destruct (fresh_tail w e es' (apply_mutations m (sw_state w)) keys Hf) as [Hf1 Hf2].
    assert (projected t (mkSchedulerWorld (apply_mutations m (sw_state w)) (sw_log w ++ [e]) keys)) as H1.
    { eapply commit_one; try done. intros p' b ->%list_elem_of_singleton. apply Hcar. by left. }
    apply (IH _ es') in H1; [|by intros p' b Hin; apply Hcar; right|done|done]. simpl in H1.
    unfold apply_mutations in *. by rewrite <- app_assoc, <- foldl_app in H1.
Qed.

(** *** Of a page *)

Lemma refresh_event_keeps timers ms e timers' ms' st :
  timer_codec → refresh_event instance_id (timers, ms) e = Ok (timers', ms') →
  timers_stored (apply_mutations ms st) → timers_stored (apply_mutations ms' st).
Proof.
  intros Hc. unfold refresh_event. destruct (event_payload e) as [v|err]; [|done]. cbn [result_bind].
  destruct (String.eqb (wit_event_type e) "timer.set").
  { destruct (as_i64 _) as [d|]; [|by intros [= <- <-]].
    unfold set_entry. destruct (timer_to_vec _) as [b|] eqn:Eb; [|done]. intros [= <- <-] Hst.
    unfold apply_mutations in *. rewrite foldl_app. simpl. intros k x. rewrite lookup_insert.
    case_decide as E; [|by apply Hst]. intros [= <-] _ t Ht. apply Hc in Eb. rewrite Eb in Ht.
    injection Ht as <-. simpl. congruence. }
  destruct (_ || _).
  { destruct (as_str _) as [id|]; [|by intros [= <- <-]].
    match goal with |- (if ?b then _ else _) = _ → _ => destruct b end; intros [= <- <-]; [|done].
    unfold apply_mutations. rewrite foldl_app. apply timer_delete_keeps. }
  destruct (_ && _); [|by intros [= <- <-]].
  destruct (as_str _) as [id|]; [|done]. simpl. destruct (schedule_from_value _) as [sc|]; [|done]. simpl.
  destruct (schedule_mutation id sc) as [m|] eqn:Em; [|done]. intros [= <- <-].
  unfold apply_mutations. rewrite foldl_app. simpl. by eapply schedule_mutation_keeps.
Qed.

Lemma refresh_page_keeps timers page ms st t :
  timer_codec → through_codec → refresh_page instance_id timers page = Ok ms →
  last (wit_sequence <$> page) = Some t → timers_stored st →
  timers_stored (apply_mutations ms st) ∧ through_of (apply_mutations ms st) = Some t.
Proof.
  intros Hc Hth. unfold refresh_page.
  destruct (try_fold _ _ _) as [[t1 m1]|e] eqn:E; [|done]. cbn [result_bind snd].
  unfold set_entry. destruct (through_to_vec _) as [b|e] eqn:Eb; [|done]. intros [= <-] Hlast Hst.
  rewrite fmap_last in Hlast. rewrite Hlast in Eb. simpl in Eb.
  assert (timers_stored (apply_mutations m1 st)) as Hm1.
  { assert (timers_stored (apply_mutations [] st)) as H0 by done. revert E H0. generalize ([] : list Mutation).
    generalize timers. clear -Hc. induction page as [|x page IH]; intros timers ms; cbn [try_fold].
    - by intros [= <- <-].
    - destruct (refresh_event instance_id (timers, ms) x) as [[t2 m2]|] eqn:E; [|done]. cbn [result_bind].
      intros Hf Hst. eapply IH; [exact Hf|]. by eapply refresh_event_keeps. }
  unfold apply_mutations in *. rewrite foldl_app. simpl. split.
  - intros k x. rewrite lookup_insert. case_decide as Ek; [|by apply Hm1]. by subst k.
  - unfold through_of. rewrite lookup_insert_eq. by rewrite (Hth _ _ Eb).
Qed.

(** ** The program *)

(** The state is what the log says. *)
Definition synced (w : SchedulerWorld) : Prop :=
  (∀ id, sw_state w !! schedule_key id = foldl (replay_schedule id) None (sw_log w)) ∧
  (∀ r, timer_at (sw_state w) r = foldl (replay_timer r) None (sw_log w)).

(** The stored cursor has moved. *)
Definition advanced (w w' : SchedulerWorld) : Prop := ∃ t t',
  through_of (sw_state w) = Some t ∧ through_of (sw_state w') = Some t' ∧ (t < t')%N.

Section program.
Context (Htimers : timer_codec) (Hthrough : through_codec) (Hjson : json_roundtrip) (Hreceipts : schedule_codec).

Lemma nothing_pending t w : projected t w → projected_of (after t (sw_log w)) = [] → synced w.
Proof.
  intros Hp Hn. split; intros x.
  - rewrite <- (pj_schedules _ _ Hp x), (proj1 (replay_other _ x x _ None)), Hn. done.
  - rewrite <- (pj_timers _ _ Hp x), (proj2 (replay_other _ x x None _)), Hn. done.
Qed.

(** A page read from the stored cursor, committed when the stream may have
    grown. *)
Lemma page_committed t w0 w timers page ms keys :
  projected t w0 → arrives w0 w → page = take (N.to_nat PAGE) (projected_of (after t (sw_log w0))) → page ≠ [] →
  timers_loaded timers (sw_state w) → refresh_page instance_id timers page = Ok ms →
  ∃ t', (t < t')%N ∧ projected t' (mkSchedulerWorld (apply_mutations ms (sw_state w)) (sw_log w) keys).
Proof.
  intros H0 Ha Hpage Hne Hl Hms. pose proof (arrives_projected _ _ _ H0 Ha) as Hw.
  destruct Ha as (es & ks & Hf & ->). cbn [sw_state sw_log] in *. pose proof (fresh_after _ _ _ H0 Hf) as Hafter.
  assert (∃ rest, projected_of (after t (sw_log w0 ++ es)) = page ++ rest) as [rest Hrest].
  { rewrite after_app, (after_all _ es Hafter), projected_app. subst page.
    exists (drop (N.to_nat PAGE) (projected_of (after t (sw_log w0))) ++ projected_of es). by rewrite app_assoc, take_drop. }
  destruct (exists_last Hne) as (l & a & El). rewrite El in Hrest.
  assert (a ∈ projected_of (after t (sw_log w0 ++ es))) as Hin by (rewrite Hrest; set_solver).
  unfold projected_of, after in Hin. rewrite list_elem_of_In, !List.filter_In, <- list_elem_of_In in Hin.
  destruct Hin as [[Hin Hlt%N.ltb_lt] _]. exists (wit_sequence a). split; [done|].
  destruct (refresh_page_replays _ _ _ _ Htimers Hl Hms) as [Hs Ht].
  destruct (refresh_page_keeps timers page ms (sw_state w0) (wit_sequence a) Htimers Hthrough Hms) as [Kt Kth].
  { rewrite El, fmap_last, last_snoc. done. } { apply H0. }
  assert (projected_of (after (wit_sequence a) (sw_log w0 ++ es)) = rest) as Hnext.
  { rewrite <- (after_after t) by lia. rewrite projected_after, Hrest. apply after_page. rewrite <- Hrest.
    apply sublist_sorted, sublist_sorted, (pj_ordered _ _ Hw). }
  split; cbn [sw_state sw_log].
  - done.
  - right. by exists a.
  - apply Hw.
  - done.
  - intros id. pose proof (pj_schedules _ _ Hw id) as Hold. cbn [sw_state sw_log] in Hold. rewrite <- Hold.
    rewrite (proj1 (replay_other _ id id _ None)), Hnext, Hs.
    rewrite (proj1 (replay_other (after t (sw_log w0 ++ es)) id id _ None)), Hrest, foldl_app. by rewrite El.
  - intros r. pose proof (pj_timers _ _ Hw r) as Hold. cbn [sw_state sw_log] in Hold. rewrite <- Hold.
    rewrite (proj2 (replay_other _ r r None _)), Hnext, Ht.
    rewrite (proj2 (replay_other (after t (sw_log w0 ++ es)) r r None _)), Hrest, foldl_app. by rewrite El.
Qed.

Lemma consistent_arrives w w' : consistent w → arrives w w' → consistent w'.
Proof. intros [t Ht] Ha. exists t. by eapply arrives_projected. Qed.

Lemma refresh_always fuel context w Q : cx_instance_id context = instance_id → consistent w →
  (∀ r w', consistent w' → (r = Ok false → synced w') → (r = Ok true → advanced w w') → Q r w') →
  always consistent (refresh fuel context) w Q.
Proof.
  intros Hcx Hi HQ. unfold refresh. apply always_gm. intros w0 ans w1 Ha0 (-> & Hans).
  pose proof (consistent_arrives _ _ Hi Ha0) as Hi0. split; [done|]. cbn [always].
  destruct Hans as [->|[e ->]]; [|by apply HQ].
  apply always_gm. cbn [always gm_lift]. destruct Hi0 as [t Ht]. pose proof (pj_through _ _ Ht) as Hth.
  assert (match sw_state w0 !! THROUGH with None => Ok 0%N | Some b => map_err internal (through_from_slice b) end
    = Ok t) as ->.
  { unfold through_of in Hth. destruct (sw_state w0 !! THROUGH) as [b|]; [|congruence].
    destruct (through_from_slice b); simplify_eq/=; done. }
  apply always_gm. intros w2 ans w3 Ha2 (-> & Hans).
  pose proof (arrives_projected _ _ _ Ht Ha2) as Ht2. split; [by exists t|]. cbn [always].
  destruct Hans as [(page & -> & Hpage)|[e ->]]; [|by apply HQ; [exists t|..]].
  rewrite selects_projected in Hpage. case_bool_decide as Hempty.
  { cbn [always gm_ret]. apply HQ; [by exists t| |done]. intros _. apply (nothing_pending t); [done|].
    destruct (projected_of (after t (sw_log w2))) as [|x l]; [done|].
    rewrite Hempty in Hpage. by change (N.to_nat PAGE) with 64 in Hpage. }
  apply always_gm. eapply (load_all timer_from_slice "timer:" (sw_state w2)); [by exists t|done|].
  intros r w4 Hi4 Ha4 Hload. destruct r as [timers|e]; [|by apply HQ].
  destruct (loaded_timers timers (sw_state w2) (Hload timers eq_refl)) as [Hl _].
  apply always_gm. cbn [always gm_lift]. rewrite Hcx.
  destruct (refresh_page instance_id timers (page_events page)) as [ms|e] eqn:Ems; [|by apply HQ].
  apply always_gm. intros w5 ans w6 Ha5 Hans. pose proof (arrives_trans _ _ _ Ha4 Ha5) as Ha25.
  destruct Hans as [[[e ->] ->]|(-> & es & Hes & _ & _ & _ & _ & ->)].
  { pose proof (consistent_arrives _ _ Hi4 Ha5) as Hi5. split; [done|]. cbn [always]. by apply HQ. }
  inversion Hes; subst es.
  destruct (page_committed t w2 w5 timers (page_events page) ms (sw_keys w5 ++ []) Ht2 Ha25 Hpage Hempty)
    as (t' & Hlt & Hp'); [by destruct Ha25 as (? & ? & _ & ->)|done|].
  unfold commit_world. rewrite app_nil_r. split; [by exists t'|]. cbn [always gm_ret].
  apply HQ; [by exists t'|done|]. intros _. exists t, t'. split_and!; [|apply Hp'|done].
  by destruct Ha0 as (? & ? & _ & ->).
Qed.

(** A commit of events with their mutations. *)
Lemma commit_always ps ms claimed w (Q : result unit WitError → SchedulerWorld → Prop) :
  paired_all ps ms → consistent w → (∀ r w', consistent w' → Q r w') → always consistent (commit_source ps ms claimed) w Q.
Proof.
  intros Hp Hi HQ w0 ans w1 Ha Hans. pose proof (consistent_arrives _ _ Hi Ha) as Hi0.
  assert (consistent w1) as Hi1; [|split; [done|by apply HQ]].
  destruct Hans as [[_ ->]|(_ & es & Hes & Hf & Hcar & _ & _ & ->)]; [done|].
  destruct Hi0 as [t Ht]. exists t. by eapply commit_all.
Qed.

Lemma fire_always fuel now w (Q : result N WitError → SchedulerWorld → Prop) :
  consistent w → (∀ r w', consistent w' → Q r w') → always consistent (fire fuel now) w Q.
Proof.
  intros Hi HQ. unfold fire. apply always_gm.
  eapply (load_all timer_from_slice "timer:" (sw_state w)); [done|done|].
  intros r w1 Hi1 Ha1 Hload. destruct r as [timers|e]; [|by apply HQ].
  destruct (loaded_timers timers (sw_state w) (Hload timers eq_refl)) as [_ Hkeyed].
  assert (timers_stored (sw_state w)) as Hst by (destruct Hi as [t Ht]; apply Ht).
  apply always_gm. cbn [always gm_lift]. destruct (fire_timers now timers) as [f1|e] eqn:E1; [|by apply HQ].
  apply always_gm. eapply (load_all schedule_from_slice "schedule:" (sw_state w1)); [done|done|].
  intros r w2 Hi2 Ha2 _. destruct r as [schedules|e]; [|by apply HQ].
  apply always_gm. cbn [always gm_lift]. destruct (fire_schedules now f1 schedules) as [f2|e] eqn:E2; [|by apply HQ].
  apply always_gm. case_bool_decide; [by apply HQ|].
  apply commit_always; [by eapply fire_paired; [apply Hkeyed|..]|done|]. intros [u|e] w' Hi'; by apply HQ.
Qed.

Lemma load_reads {T} (decode : bytes → result T string) fuel prefix : reads_only (load decode fuel prefix).
Proof.
  unfold load. generalize (@None string), ([] : list (string * T)).
  induction fuel as [|fuel IH]; intros after found; [done|]. cbn [load_from]. apply reads_gm; [by split|].
  intros page. apply reads_gm; [done|]. intros found'. destruct (wit_next_key page); [apply IH|done].
Qed.

Lemma find_origin_reads hops : ∀ e, reads_only (find_origin hops e).
Proof.
  induction hops as [|hops IH]; intros e; [done|]. cbn [find_origin].
  destruct (String.eqb _ _).
  - apply reads_gm; [done|]. intros v. by apply reads_gm.
  - apply reads_gm; [done|]. intros cause. apply reads_gm; [by split|]. intros parent.
    destruct (_ <=? _)%N; [done|apply IH].
Qed.

Lemma handle_events_reads events : ∀ clock schedules out, reads_only (handle_events clock schedules events out).
Proof.
  induction events as [|e events IH]; intros clock schedules out; [done|]. cbn [handle_events].
  apply reads_gm; [done|]. intros [[capability args]|]; [|apply IH].
  apply reads_gm; [apply reads_bind; [apply find_origin_reads|done]|]. intros o.
  match goal with |- context [let '(_, _) := ?x in _] => destruct x as [r schedules'] end.
  apply reads_gm; [done|]. intros added. apply IH.
Qed.

Lemma handle_reads fuel clock context events : reads_only (handle fuel clock context events).
Proof. unfold handle. apply reads_gm; [apply load_reads|]. intros schedules. apply handle_events_reads. Qed.

Lemma handle_paired fuel clock context events out :
  returns (handle fuel clock context events) (Ok out) → paired_all (o_events out) (o_mutations out).
Proof.
  unfold handle. intros (schedules & _ & H)%returns_gm_bind. eapply handle_events_paired; [|exact H]. by exists [].
Qed.

Section loop.
Context {SU : Surroundings}.

Lemma refresh_until_always fuel context : ∀ w (Q : result unit WitError → SchedulerWorld → Prop),
  cx_instance_id context = instance_id → consistent w → (∀ r w', consistent w' → Q r w') →
  always consistent (refresh_until fuel context) w Q.
Proof.
  induction fuel as [|fuel IH]; intros w Q Hcx Hi HQ; [done|]. cbn [refresh_until]. apply always_gm.
  apply refresh_always; [done|done|]. intros [more|e] w' Hi' _ _; [|by apply HQ]. destruct more; [by apply IH|by apply HQ].
Qed.

Lemma run_turn_always fuel turn context w (Q : result (option Context_) WitError → SchedulerWorld → Prop) :
  cx_instance_id context = instance_id → consistent w →
  (∀ r w', consistent w' → (∀ next, r = Ok (Some next) → cx_instance_id next = instance_id) → Q r w') →
  always consistent (run_turn fuel turn context) w Q.
Proof.
  intros Hcx Hi HQ. unfold run_turn. apply always_gm. apply refresh_until_always; [done|done|].
  intros [u|e] w1 Hi1; [|by apply HQ]. apply always_gm. apply fire_always; [done|].
  intros [d|e] w2 Hi2; [|by apply HQ]. destruct (woken_by_clock turn); [apply HQ; [done|by intros next [= <-]]|].
  apply always_gm. intros w3 ans w4 Ha3 Hans. pose proof (consistent_arrives _ _ Hi2 Ha3) as Hi3.
  simpl in Hans. subst w4. split; [done|]. cbn [always]. destruct ans as [[events|deadline]|e]; [|by apply HQ..].
  apply always_gm. apply always_bind. apply always_reads; [done|apply handle_reads|].
  intros r w5 Hi5 _ Hret. cbn [always gm_ret]. destruct r as [out|e].
  - apply always_gm. apply commit_always; [by eapply handle_paired|done|]. intros [u'|e] w6 Hi6; [|by apply HQ].
    cbn [always gm_ret]. apply HQ; [done|]. intros next [= <-]. unfold with_checkpoint. by destruct (o_checkpoint out).
  - apply always_gm. intros w6 ans w7 Ha6 Hans. simpl in Hans. subst w7.
    pose proof (consistent_arrives _ _ Hi5 Ha6) as Hi6. split; [done|]. cbn [always].
    destruct ans as [u'|e']; (apply HQ; [done|]); [by intros next [= <-]|done].
Qed.

Lemma run_loop_always fuel : ∀ turn context w,
  cx_instance_id context = instance_id → consistent w →
  always consistent (run_loop fuel turn context) w (λ _ w', consistent w').
Proof.
  induction fuel as [|fuel IH]; intros turn context w Hcx Hi; [done|]. cbn [run_loop]. apply always_gm.
  apply run_turn_always; [done|done|]. intros [next|e] w' Hi' Hnext; [|done]. destruct next as [next|]; [|done].
  apply IH; [by apply Hnext|done].
Qed.

Lemma run_always fuel context config w : cx_instance_id context = instance_id → consistent w →
  always consistent (run fuel context config) w (λ _ w', consistent w').
Proof.
  intros Hcx Hi. unfold run. apply always_gm. cbn [always gm_lift].
  destruct (result_map _ _) as [u|e]; [|done]. apply always_gm. intros w1 ans w2 Ha Hans.
  simpl in Hans. subst w2. pose proof (consistent_arrives _ _ Hi Ha) as Hi1. split; [done|]. cbn [always].
  destruct ans as [u'|e]; [|done]. by apply run_loop_always.
Qed.
End loop.

(** ** Runs *)

(** What happens: events of others arrive, the component runs for a while and
    is stopped anywhere, or its private state is lost. *)
Inductive scheduler_step (w : SchedulerWorld) : SchedulerWorld → Prop :=
| step_arrive w' : arrives w w' → scheduler_step w w'
| step_run (SU : Surroundings) fuel context config w' :
    cx_instance_id context = instance_id → reaches (run fuel context config) w w' → scheduler_step w w'
| step_lose : scheduler_step w (mkSchedulerWorld ∅ (sw_log w) (sw_keys w)).

Lemma step_consistent w w' : consistent w → scheduler_step w w' → consistent w'.
Proof.
  intros Hi [w1 Ha|SU fuel context config w1 Hcx Hr|].
  - by eapply consistent_arrives.
  - eapply always_reaches; [exact Hi|by apply run_always|exact Hr].
  - destruct Hi as [t Ht]. exists 0%N. pose proof (pj_ordered _ _ Ht) as [Ho H0]. split; simpl.
    + done.
    + by left.
    + by split.
    + intros k b Hk. by rewrite lookup_empty in Hk.
    + intros id. by rewrite (after_all _ _ H0), lookup_empty.
    + intros r. rewrite (after_all _ _ H0). unfold timer_at. by rewrite lookup_empty.
Qed.

Lemma reachable_consistent w : rtc scheduler_step empty_world w → consistent w.
Proof.
  intros Hw. assert (consistent empty_world) as H0.
  { exists 0%N. split; simpl; try done; [by left|by split; constructor]. }
  revert H0. induction Hw as [|w1 w2 w3 Hstep _ IH]; [done|]. intros H1. apply IH. by eapply step_consistent.
Qed.
End program.
End replay.

(** (C12) The log is the truth.  Let the scheduler's program run, be stopped
    anywhere and be started again any number of times, others write to the
    stream between any two of its calls, any call fail, and the private state
    be lost any number of times.  Whenever [refresh] then reports that it found
    nothing more, the stored schedule of every id is what its last receipt in
    the log says, and the stored timer of every request is what the log's
    timer events leave: set, not fired since, and not cancelled by its owner;
    and whenever it reports that there may be more, the cursor it stores has
    moved forward.  The runs are those in which the idempotency keys of what
    the component commits are not taken yet (the store would keep the earlier
    event), the JSON of the receipts and fired timers is read back exactly
    (plain values), and the decoders of stored timers, receipts and cursor
    give back what was encoded. *)
Theorem scheduler_projection `{SL : SchedulerLibs} `{SJ : SerdeJson} (instance_id : string)
    (w : SchedulerWorld) (fuel : nat) (context : Context_) (more : bool) (w' : SchedulerWorld)
    (Htimers : timer_codec) (Hthrough : through_codec) (Hjson : json_roundtrip) (Hreceipts : schedule_codec)
    (Hreach : rtc (scheduler_step instance_id) empty_world w)
    (Hinstance : cx_instance_id context = instance_id)
    (Hrefresh : runs instance_id (refresh fuel context) w (Ok more) w') :
  if more then advanced w w'
  else
    (∀ id, sw_state w' !! schedule_key id = foldl (replay_schedule instance_id id) None (sw_log w')) ∧
    (∀ r, timer_at (sw_state w') r = foldl (replay_timer r) None (sw_log w')).
Proof.
  pose proof (reachable_consistent instance_id Htimers Hthrough Hjson Hreceipts w Hreach) as Hi.
  pose proof (always_runs instance_id _ _ _ (λ r w', (r = Ok false → synced instance_id w') ∧ (r = Ok true → advanced w w'))
    _ _ (refresh_always instance_id Htimers Hthrough Hjson Hreceipts fuel context w _ Hinstance Hi
      (λ r w' _ H1 H2, conj H1 H2)) Hrefresh) as [H1 H2].
  destruct more; [by apply H2|by apply H1].
Qed.
