(* ===== verification/SchedulerSample.v ===== *)
(** A concrete calendar and codec for the scheduler, and its theorems on
    concrete schedules, requests and runs. *)
From stdpp Require Import base tactics countable option list strings sorting gmap.
From Stdlib Require Import ZArith NArith Lia Ascii.
From S2P Require Import Prelude Event Delivery Utf8 Json Host Imports Instance Plugin Scheduler SchedulerSpec SchedulerReplay.
Import Json.Codec.

(** ** Libraries *)

Definition decode_timing (v : Value) : option Timing :=
  match as_str (value_index v "kind") with
  | Some "at" => At <$> as_str (value_index v "at")
  | Some "after" => After <$> as_int (value_index v "milliseconds")
  | Some "cron" =>
      e ← as_str (value_index v "expression"); z ← as_str (value_index v "timezone");
      Some (Cron e z)
  | _ => None
  end.

Definition decode_schedule (v : Value) : option Schedule :=
  id ← as_str (value_index v "id");
  revision ← as_u64 (value_index v "revision");
  name ← as_str (value_index v "name");
  prompt ← as_str (value_index v "prompt");
  timing ← decode_timing (value_index v "timing");
  next ← decode_opt as_int (value_index v "nextAtMs");
  last ← decode_opt as_int (value_index v "lastAtMs");
  paused ← as_bool (value_index v "paused");
  error ← decode_opt as_str (value_index v "error");
  origin_event ← as_str (value_index v "originEventId");
  cause ← as_str (value_index v "cause");
  Some (mkSchedule id revision name prompt timing next last paused error origin_event
          (value_index v "origin") cause).

Definition timer_to_value (t : Timer) : Value :=
  object [("request", Str (timer_request t)); ("owner", Str (owner t)); ("due", num_i64 (due t))].
Definition decode_timer (v : Value) : option Timer :=
  r ← as_str (value_index v "request"); o ← as_str (value_index v "owner");
  d ← as_int (value_index v "due"); Some (mkTimer r o d).

Definition decoded {A} (f : Value → option A) (r : result Value string) : result A string :=
  let? v := r in ok_or (f v) "invalid type".

(** A calendar with one rule: the start of every minute. *)
Definition next_minute (now : Z) : result Z string :=
  let t := ((now / 60000 + 1) * 60000)%Z in
  if bool_decide (i64_range t) then Ok t else Err "no occurrence".

#[export] Instance sample_libs : SchedulerLibs := {|
  Tz := unit;
  CronRule := unit;
  parse_from_rfc3339 s := if String.eqb s "1970-01-01T00:00:09Z" then Ok 9000%Z else Err "invalid";
  tz_from_str s := if String.eqb s "UTC" then Ok tt else Err "unknown timezone";
  cron_from_str s := Ok tt;
  timestamp_in_range _ := true;
  find_next_occurrence _ _ now := next_minute now;
  timing_from_value v := ok_or (decode_timing v) "invalid timing";
  schedule_from_value v := ok_or (decode_opt decode_schedule v) "invalid type";
  schedule_from_slice b := decoded decode_schedule (from_slice b);
  schedule_to_vec s := to_vec (schedule_to_value s);
  timer_from_slice b := decoded decode_timer (from_slice b);
  timer_to_vec t := to_vec (timer_to_value t);
  through_from_slice b := decoded as_u64 (from_slice b);
  through_to_vec n := to_vec (num_u64 n);
|}.

Lemma decode_timing_to t : decode_timing (timing_to_value t) = Some t.
Proof.
  destruct t; unfold decode_timing, timing_to_value, value_index; rewrite ?object_get; simpl;
    rewrite ?object_get; simpl; [done| |done]. by rewrite as_int_num.
Qed.

Lemma decode_schedule_to s : decode_schedule (schedule_to_value s) = Some s.
Proof.
  unfold decode_schedule, schedule_to_value, value_index. rewrite !object_get. simpl.
  rewrite decode_timing_to, !decode_opt_int. simpl. by destruct s as [????????[]].
Qed.

Lemma sample_schedule_codec : schedule_codec.
Proof.
  split; [|done]. intros s. pose proof (decode_schedule_to s) as H.
  cbn [schedule_from_value sample_libs]. unfold decode_opt.
  destruct (schedule_to_value s) eqn:E; [discriminate E|by rewrite H..].
Qed.

Lemma decode_timer_to t : decode_timer (timer_to_value t) = Some t.
Proof.
  unfold decode_timer, timer_to_value, value_index. rewrite !object_get. simpl.
  rewrite as_int_num. by destruct t.
Qed.

Lemma sample_timer_codec : timer_codec.
Proof.
  intros t b Hb. apply codec_exact in Hb. cbn [timer_from_slice sample_libs].
  unfold decoded. rewrite Hb. cbn [result_bind]. by rewrite decode_timer_to.
Qed.

Lemma sample_calendar_ahead : calendar_ahead.
Proof.
  intros c tz now t. simpl. unfold next_minute. case_bool_decide as H; [|done]. intros [= <-].
  split; [|done]. pose proof (Z.mod_pos_bound now 60000 ltac:(lia)).
  pose proof (Z.div_mod now 60000 ltac:(lia)). lia.
Qed.

(** ** Schedules of two conversations *)

Definition chat (sender : string) : Value :=
  origin_value (object [("provider", Str "cli"); ("externalSenderId", Str sender);
                        ("conversationId", Str "chat")]).

Definition sample_schedule (id sender : string) (t : Timing) (next : Z) : Schedule :=
  mkSchedule id 1 "check" "Check the build" t (Some next) None false None "observation"
    (chat sender) id.

Definition every_minute : Timing := Cron "* * * * *" "UTC".

Definition sample_schedules : Schedules :=
  map_insert (schedule_key "b") (sample_schedule "b" "stranger" every_minute 60000)
    (map_insert (schedule_key "a") (sample_schedule "a" "user" every_minute 60000) []).

(** The user cannot delete the stranger's schedule. *)
Lemma manage_isolated_witness :
  let '(r, m') := manage sample_schedules "schedule.delete" (object [("id", Str "b")])
                    "request" "observation" (chat "user") 1000 in
  r = Err "schedule not found in this conversation" ∧ m' = sample_schedules.
Proof.
  pose proof (manage_isolated sample_schedules "schedule.delete" (object [("id", Str "b")])
    "request" "observation" (chat "user") 1000 (fields_sorted_nodup sample_schedules ltac:(vm_compute; reflexivity))) as H.
  destruct (manage _ _ _ _ _ _ _) as [r m'] eqn:E. destruct H as (H1 & _ & H3).
  assert (r = Err "schedule not found in this conversation") as Hr.
  { rewrite H1. vm_compute. reflexivity. }
  split; [exact Hr|exact (H3 _ Hr)].
Defined.

(** Two missed minutes coalesce, and the clock going back emits nothing. *)
Lemma occurrences_once_witness :
  occurrences (sample_schedule "a" "user" every_minute 60000) [30000; 200000; 100000; 240000]%Z =
    ["schedule:a:1:60000"; "schedule:a:1:240000"] ∧
  NoDup (occurrences (sample_schedule "a" "user" every_minute 60000) [30000; 200000; 100000; 240000]%Z).
Proof.
  split; [vm_compute; reflexivity|].
  refine (proj1 (occurrences_once _ _ sample_calendar_ahead _)).
  intros d [= <-]. vm_compute. split; discriminate.
Defined.

Definition idle_runner : HostRunner := mkHostRunner true false [] [] [] 0 None.

Definition sample_timers : Timers :=
  map_insert (timer_key "t1") (mkTimer "t1" "actor" 500)
    (map_insert (timer_key "t2") (mkTimer "t2" "actor" 1300) []).

Definition fired_sample : Fired :=
  match fire_timers 1000 sample_timers with
  | Ok f => f
  | Err _ => mkFired [] [] 0
  end.
Definition pass_sample : Fired :=
  match fire_schedules 1000 fired_sample sample_schedules with
  | Ok f => f
  | Err _ => mkFired [] [] 0
  end.

(** One timer is due; the next pass comes for the other. *)
Lemma fire_within_limits_witness :
  len (fired_output pass_sample) = 1%N ∧ delay 1000 pass_sample = 300%N ∧
  commit_cause idle_runner (fired_output pass_sample) None = Ok None.
Proof.
  split_and!; [vm_compute; reflexivity|vm_compute; reflexivity|].
  refine (proj1 (proj2 (proj2 (fire_within_limits 1000 sample_timers sample_schedules fired_sample
    pass_sample idle_runner sample_calendar_ahead eq_refl _ _)))).
  - vm_compute. reflexivity.
  - vm_compute. reflexivity.
Defined.

(** ** A state rebuilt after its loss *)

Definition sample_event (n : N) (id kind : string) (v : Value) : WitEvent :=
  mkWitEvent id n 0 kind ("pluribus." +:+ kind +:+ "/1")
    (match to_vec v with Ok b => CanonicalJson b | Err _ => CanonicalJson [] end)
    (mkPrincipalRef Component "scheduler") None None None None.

Definition receipt_a : WitEvent :=
  sample_event 1 "r1" "schedule.updated"
    (receipt_value "a" (Some (sample_schedule "a" "user" every_minute 60000))).
Definition timer_set : WitEvent :=
  sample_event 2 "t1" "timer.set" (object [("dueAtMs", num_i64 500)]).

(** Two events arrive, are projected, the state is lost and projected again. *)
Definition arrived : SchedulerWorld := mkSchedulerWorld ∅ [receipt_a; timer_set] [].
Definition sample_page : list Mutation :=
  match refresh_page "scheduler" [] [receipt_a; timer_set] with
  | Ok ms => ms
  | Err _ => []
  end.
Definition rebuilt : SchedulerWorld := commit_world arrived [] [] sample_page.

Definition scheduler_cx : Context_ := mkContext "scheduler" (mkPrincipalRef Component "scheduler") 0 0 None.
#[local] Instance still_clock : Surroundings :=
  {| turn_clock _ _ := (0%Z, 0%N); woken_by_clock _ := false |}.

Lemma sample_through_codec : through_codec.
Proof.
  intros n b Hb. apply codec_exact in Hb. cbn [through_from_slice sample_libs].
  unfold decoded. by rewrite Hb.
Qed.

(** Nobody writes between two calls. *)
Lemma quiet w : arrives w w.
Proof. exists [], []. split; [by repeat constructor|]. rewrite !app_nil_r. by destruct w. Qed.

Lemma reaches_bind {A B} (g : Guest A) (k : A → Guest B) w w' :
  reaches "scheduler" g w w' → reaches "scheduler" (guest_bind g k) w w'.
Proof.
  revert w. induction g as [x|reason|c f IH]; intros w H; simpl in *; (destruct H as [->|H]; [|try done]).
  - destruct (k x); by left.
  - by left.
  - by left.
  - right. destruct H as (w0 & ans & w1 & H1 & H2 & H3). exists w0, ans, w1. by eauto.
Qed.

(** A first page is stored, by a component that has nothing yet. *)
Lemma refresh_first fuel log ms :
  log ≠ [] → (length log ≤ 64)%nat → List.filter (filter_selects (refresh_filter 0)) log = log →
  refresh_page "scheduler" [] log = Ok ms →
  reaches "scheduler" (refresh (S fuel) scheduler_cx) (mkSchedulerWorld ∅ log [])
    (commit_world (mkSchedulerWorld ∅ log []) [] [] ms).
Proof.
  intros Hne Hlen Hall Hms. set (w := mkSchedulerWorld ∅ log []).
  right. exists w, (Ok None), w. split_and!; [apply quiet|by split; [|left]|].
  right. exists w, (Ok (mkEventPage log None)), w. split_and!; [apply quiet| |].
  { split; [done|left]. eexists. split; [done|]. cbn [page_events sw_log w]. rewrite Hall.
    by rewrite take_ge. }
  cbn. rewrite bool_decide_false by done.
  right. exists w, (Ok (mkWitStatePage [] None)), w. split_and!; [apply quiet| |].
  { split; [done|left]. eexists. split; [done|]. split; cbn; [by intros e ?%elem_of_nil|].
    intros k v Hk. by rewrite lookup_empty in Hk. }
  cbn. rewrite Hms. right. exists w, (Ok tt), (commit_world w [] [] ms). split_and!; [apply quiet| |by left].
  right. split; [done|]. exists []. split_and!; [constructor|by repeat constructor| | |constructor|done].
  - by intros p b ?%elem_of_nil.
  - by intros k ?%elem_of_nil.
Qed.

Lemma sample_page_stored : refresh_page "scheduler" [] [receipt_a; timer_set] = Ok sample_page.
Proof. unfold sample_page. destruct (refresh_page _ _ _) eqn:E; [done|]. vm_compute in E. discriminate E. Qed.

Definition sample_config : bytes := match to_vec (object []) with Ok b => b | Err _ => [] end.

(** The program is started, finds both events and stores what they say; it is
    stopped before its next call. *)
Lemma rebuild_step : scheduler_step "scheduler" arrived rebuilt.
Proof.
  apply (step_run "scheduler" arrived still_clock 3 scheduler_cx sample_config); [done|].
  unfold run. rewrite (codec_exact (object []) sample_config eq_refl). cbn [gm_lift result_map map_err].
  right. exists arrived, (Ok tt), arrived. split_and!; [apply quiet|done|].
  change (reaches "scheduler" (run_loop 3 0 scheduler_cx) arrived rebuilt).
  apply (reaches_bind (run_turn 2 0 scheduler_cx)), (reaches_bind (refresh_until 2 scheduler_cx)),
    (reaches_bind (refresh 1 scheduler_cx)).
  apply refresh_first; [done|simpl; lia|done|exact sample_page_stored].
Qed.

Lemma sample_reach : rtc (scheduler_step "scheduler") empty_world rebuilt.
Proof.
  apply rtc_l with arrived.
  { apply step_arrive. exists [receipt_a; timer_set], []. split; [by repeat constructor|done]. }
  apply rtc_l with rebuilt; [exact rebuild_step|].
  apply rtc_l with arrived; [exact (step_lose "scheduler" rebuilt)|].
  apply rtc_once. exact rebuild_step.
Qed.

(** The next [refresh] finds nothing more. *)
Lemma sample_refresh : runs "scheduler" (refresh 3 scheduler_cx) rebuilt (Ok false) rebuilt.
Proof.
  exists rebuilt, (Ok (sw_state rebuilt !! THROUGH)), rebuilt. split_and!; [apply quiet|by split; [|left]|].
  assert (sw_state rebuilt !! THROUGH = result_ok (through_to_vec 2)) as -> by (vm_compute; reflexivity).
  exists rebuilt, (Ok (mkEventPage [] None)), rebuilt. split_and!; [apply quiet| |by split].
  split; [done|left]. eexists. split; [done|]. vm_compute. reflexivity.
Qed.

Lemma scheduler_projection_witness :
  timer_at (sw_state rebuilt) "t1" = Some (mkTimer "t1" "scheduler" 500) ∧
  sw_state rebuilt !! schedule_key "a" =
    encoded (Some (sample_schedule "a" "user" every_minute 60000)).
Proof.
  destruct (scheduler_projection "scheduler" rebuilt 3 scheduler_cx false rebuilt sample_timer_codec
    sample_through_codec codec_roundtrip sample_schedule_codec sample_reach eq_refl sample_refresh) as [H1 H2].
  split; [rewrite H2|rewrite H1]; vm_compute; reflexivity.
Defined.
