(* ===== verification/HttpData.v ===== *)
(** The HTTP contract of the core, [pluribus-core/src/http.rs], and the parts
    of the HTTP host that only look at their arguments
    ([pluribus-host-http/src/lib.rs]): limits, header classes, the texts and
    kinds of its errors. *)
From stdpp Require Import base tactics option list strings gmap.
From Stdlib Require Import NArith Ascii Lia.
From S2P Require Import Prelude Event Net Utf8 Json.

Local Open Scope N_scope.

(** ** The contract's data *)

Record HttpHeader : Type := mkHttpHeader { header_name : string; header_value : bytes }.

Record HttpRequest : Type := mkHttpRequest {
  req_method : string;
  req_url : string;
  req_headers : list HttpHeader;
  req_body : option BlobRef;
  req_timeout_ms : N;
}.

Record HttpResponse : Type := mkHttpResponse {
  resp_status : N;
  resp_headers : list HttpHeader;
  resp_body : BlobRef;
}.

Record HttpStreamingResponse : Type := mkHttpStreamingResponse {
  streaming_status : N;
  streaming_headers : list HttpHeader;
  streaming_id : string;
}.

Inductive HttpStreamProtocol : Type :=
| Bytes
| ServerSentEvents
| WebSocket.

#[export] Instance http_stream_protocol_eq_dec : EqDecision HttpStreamProtocol.
Proof. solve_decision. Defined.

Record HttpFrame : Type := mkHttpFrame { frame_kind : string; frame_data : bytes }.

Record HttpFramePage : Type := mkHttpFramePage { page_frames : list HttpFrame; page_closed : bool }.

Record HttpGrant : Type := mkHttpGrant {
  component : PrincipalRef;
  origins : list string;
  methods : list string;
  allow_http : bool;
  allow_private_network : bool;
  max_request_bytes : N;
  max_response_bytes : N;
  max_redirects : N;
  max_timeout_ms : N;
}.

Inductive HttpError : Type :=
| HttpInvalid (message : string)
| HttpUnsupported (message : string)
| HttpPermissionDenied (message : string)
| HttpNotFound (message : string)
| HttpResourceExhausted (message : string)
| HttpTimeout
| HttpCancelled
| HttpAuthenticationRequired
| HttpUnavailable (message : string)
| HttpInternal (message : string).

(** [impl Display for HttpError]. *)
Definition http_error_to_string (e : HttpError) : string :=
  match e with
  | HttpInvalid message => "invalid HTTP request: " +:+ message
  | HttpUnsupported message => "unsupported HTTP operation: " +:+ message
  | HttpPermissionDenied message => "HTTP request denied: " +:+ message
  | HttpNotFound message => "HTTP dependency missing: " +:+ message
  | HttpResourceExhausted message => "HTTP resource exhausted: " +:+ message
  | HttpTimeout => "HTTP request timed out"
  | HttpAuthenticationRequired => "HTTP authentication required"
  | HttpCancelled => "HTTP request cancelled"
  | HttpUnavailable message => "HTTP service unavailable: " +:+ message
  | HttpInternal message => "HTTP service failed: " +:+ message
  end.

(** ** The host's limits *)

(** [MAX_TIMEOUT], in nanoseconds. *)
Definition MAX_TIMEOUT : N := 5 * 60 * 1000000000.
Definition MAX_REDIRECTS : N := 5.
Definition MAX_HEADER_BYTES : N := 64 * 1024.
Definition MAX_ERROR_BODY_BYTES : N := 64 * 1024.
Definition MAX_ERROR_DETAIL_CHARS : nat := 512.
Definition TRANSFER_CHUNK_BYTES : N := 64 * 1024.
Definition STREAM_QUEUE_FRAMES : nat := 32.
Definition MAX_STREAM_FRAMES_PER_RECEIVE : N := 256.

(** ** Text of the standard library *)

(** [u8::to_ascii_lowercase], [str::to_ascii_lowercase],
    [str::eq_ignore_ascii_case]. *)
Definition ascii_lower (c : ascii) : ascii :=
  let n := N_of_ascii c in
  if (65 <=? n) && (n <=? 90) then ascii_of_N (n + 32) else c.
Fixpoint to_ascii_lowercase (s : string) : string :=
  match s with
  | EmptyString => EmptyString
  | String c s => String (ascii_lower c) (to_ascii_lowercase s)
  end.
Definition eq_ignore_ascii_case (a b : string) : bool :=
  String.eqb (to_ascii_lowercase a) (to_ascii_lowercase b).

(** [s.contains(pattern)]. *)
Fixpoint contains_text (pattern s : string) : bool :=
  starts_with pattern s
  || match s with EmptyString => false | String _ s => contains_text pattern s end.

(** [char::is_control]: the general category Cc. *)
Definition is_control (c : N) : bool := (c <=? 31) || between 127 c 159.

(** [String::from_utf8]: the bytes are the encoding of what they decode to. *)
Definition from_utf8 (b : bytes) : option string :=
  if bool_decide (flat_map encode_char (lossy_chars b) = (Byte.to_N <$> b))
  then Some (str_of_bytes (Byte.to_N <$> b)) else None.

(** ** Headers *)

Definition HOP_BY_HOP : list string :=
  ["connection"; "keep-alive"; "proxy-authenticate"; "proxy-authorization"; "te"; "trailer";
   "transfer-encoding"; "upgrade"; "host"; "content-length"].
Definition is_hop_by_hop (name : string) : bool := str_mem name HOP_BY_HOP.

Definition CREDENTIAL_HEADERS : list string := ["authorization"; "proxy-authorization"; "cookie"].
Definition is_credential_header (name : string) : bool := str_mem name CREDENTIAL_HEADERS.

(** [header_bytes]; [usize] is 64 bits wide. *)
Definition header_bytes (headers : list HttpHeader) : N :=
  foldl (λ total header,
    saturating_add_u64 (saturating_add_u64 total (str_len (header_name header)))
                       (len (header_value header))) 0 headers.

(** ** Errors *)

Definition blob_error (e : BlobError) : HttpError :=
  match e with
  | BlobNotFound => HttpNotFound "blob"
  | BlobConflict _ _ | BlobInvalid _ => HttpInvalid "blob operation failed"
  | BlobResourceExhausted _ => HttpResourceExhausted "blob store limit"
  | BlobCorrupt _ => HttpInternal "blob is corrupt"
  | BlobStorage _ => HttpUnavailable "blob store failed"
  end.

(** [transport_error], of the error's text. *)
Definition transport_error (message : string) : HttpError :=
  if contains_text "timed out" (to_ascii_lowercase message) then HttpTimeout
  else HttpUnavailable "transport failed".

(** [io_error]: the text of an [io::Error::other]. *)
Definition io_error (e : BlobError) : string := blob_error_to_string e.

Definition safe_error_detail (detail : string) : string :=
  String.concat " " (str_of_chars <$>
    split_whitespace
      (take MAX_ERROR_DETAIL_CHARS
        (List.filter (λ c, negb (is_control c) || is_whitespace c) (chars detail)))).

(** [Iterator::find_map]. *)
Fixpoint find_map {A B} (f : A → option B) (l : list A) : option B :=
  match l with
  | [] => None
  | a :: l => match f a with Some b => Some b | None => find_map f l end
  end.

Definition stream_status_error `{SerdeJson} (status : N) (body : bytes) : HttpError :=
  if (status =? 401) || (status =? 403) then HttpAuthenticationRequired
  else
    let detail :=
      match from_slice body with
      | Ok value =>
          match find_map (λ p, match pointer value p with Some v => as_str v | None => None end)
                  ["/error/message"; "/detail"; "/message"] with
          | Some text =>
              let detail := safe_error_detail text in
              if str_is_empty detail then None else Some detail
          | None => None
          end
      | Err _ => None
      end in
    let suffix := match detail with Some detail => ": " +:+ detail | None => "" end in
    HttpUnavailable ("stream endpoint returned HTTP " +:+ u64_to_string status +:+ suffix).
