(* ===== verification/HttpPolicy.v ===== *)
(** How the HTTP host opens a response under a grant: the checks of a request
    and of every destination, the resolution and pinning of the address, the
    headers and the body that are sent, and the redirects that are followed
    ([prepare_request] to [redirect_target] and [open_response] of
    [pluribus-host-http/src/lib.rs]).

    URLs, header and method syntax are the library's ([HttpLib]); the clock,
    name resolution and the exchange itself are the surroundings ([Network]),
    asked once per step and free to answer anything. *)
From stdpp Require Import base tactics option list strings gmap.
From Stdlib Require Import NArith Ascii Lia.
From S2P Require Import Prelude Event Net Blob Delivery EventStore Stores HttpData.

Local Open Scope N_scope.

(** ** [std::net]: the text of an address *)

(** [char::to_digit(radix)], up to radix 16. *)
Definition digit_of (radix : N) (c : ascii) : option N :=
  let n := N_of_ascii c in
  let d := if (48 <=? n) && (n <=? 57) then Some (n - 48)
           else if (97 <=? n) && (n <=? 102) then Some (n - 87)
           else if (65 <=? n) && (n <=? 70) then Some (n - 55)
           else None in
  match d with
  | Some d => if d <? radix then Some d else None
  | None => None
  end.

(** [Parser::read_number]: the digits read and the input they leave. *)
Fixpoint read_digits (radix limit : N) (max_digits : nat) (acc : N) (count : nat) (s : string)
    : option (N * nat * string) :=
  match s with
  | String c rest =>
      match digit_of radix c with
      | Some d =>
          let acc := acc * radix + d in
          if (limit <? acc) || (max_digits <? S count)%nat then None
          else read_digits radix limit max_digits acc (S count) rest
      | None => Some (acc, count, s)
      end
  | EmptyString => Some (acc, count, s)
  end.
Definition read_number (radix limit : N) (max_digits : nat) (allow_zero_prefix : bool) (s : string)
    : option (N * string) :=
  match read_digits radix limit max_digits 0 0 s with
  | Some (n, count, rest) =>
      if (count =? 0)%nat then None
      else if negb allow_zero_prefix && starts_with "0" s && (1 <? count)%nat then None
      else Some (n, rest)
  | None => None
  end.

(** [Parser::read_separator]. *)
Definition read_separator {A} (sep : string) (index : nat) (read : string → option (A * string))
    (s : string) : option (A * string) :=
  match index with
  | 0%nat => read s
  | _ => match strip_prefix sep s with Some s => read s | None => None end
  end.

(** [Parser::read_ipv4_addr]. *)
Definition read_octet (index : nat) (s : string) : option (N * string) :=
  read_separator "." index (read_number 10 255 3 false) s.
Definition read_ipv4_addr (s : string) : option (Ipv4Addr * string) :=
  match read_octet 0 s with
  | Some (a, s) =>
      match read_octet 1 s with
      | Some (b, s) =>
          match read_octet 2 s with
          | Some (c, s) =>
              match read_octet 3 s with
              | Some (d, s) => Some (mkIpv4 a b c d, s)
              | None => None
              end
          | None => None
          end
      | None => None
      end
  | None => None
  end.

(** [read_groups]: the groups read, whether they end in an IPv4 address, and
    the rest of the input; [left] groups may still follow. *)
Fixpoint read_groups (left index : nat) (s : string) : list N * bool * string :=
  match left with
  | 0%nat => ([], false, s)
  | S left' =>
      match (if (0 <? left')%nat then read_separator ":" index read_ipv4_addr s else None) with
      | Some (x, rest) =>
          ([octet_a x * 256 + octet_b x; octet_c x * 256 + octet_d x], true, rest)
      | None =>
          match read_separator ":" index (read_number 16 65535 4 true) s with
          | Some (g, rest) =>
              let '(gs, v4, rest) := read_groups left' (S index) rest in (g :: gs, v4, rest)
          | None => ([], false, s)
          end
      end
  end.

Definition ipv6_of (groups : list N) : option Ipv6Addr :=
  match groups with
  | [a; b; c; d; e; f; g; h] => Some (mkIpv6 a b c d e f g h)
  | _ => None
  end.

(** [Parser::read_ipv6_addr]. *)
Definition read_ipv6_addr (s : string) : option (Ipv6Addr * string) :=
  let '(head, head_ipv4, rest) := read_groups 8 0 s in
  if (length head =? 8)%nat
  then match ipv6_of head with Some x => Some (x, rest) | None => None end
  else if head_ipv4 then None
  else match strip_prefix "::" rest with
       | Some rest =>
           let '(tail, _, rest) := read_groups (8 - (length head + 1)) 0 rest in
           match ipv6_of (head ++ replicate (8 - length head - length tail) 0 ++ tail) with
           | Some x => Some (x, rest)
           | None => None
           end
       | None => None
       end.

(** [str::parse::<IpAddr>]: the whole text must be an address. *)
Definition parse_ip (s : string) : option IpAddr :=
  match read_ipv4_addr s with
  | Some (x, EmptyString) => Some (V4 x)
  | Some _ => None
  | None => match read_ipv6_addr s with
            | Some (x, EmptyString) => Some (V6 x)
            | _ => None
            end
  end.

(** ** The libraries and the surroundings *)

Class HttpLib : Type := {
  Url : Type;
  url_parse : string → option Url;
  url_join : Url → string → option Url;
  url_username : Url → string;
  url_password : Url → option string;
  url_fragment : Url → option string;
  url_scheme : Url → string;
  url_host_str : Url → option string;
  url_cannot_be_a_base : Url → bool;
  url_origin : Url → string;
  url_port_or_known_default : Url → option N;
  (** [HeaderName::from_bytes], as [as_str] shows the name. *)
  header_name_of : string → option string;
  (** [HeaderValue::from_bytes] accepts the bytes; [HeaderValue::to_str]. *)
  header_value_ok : bytes → bool;
  header_to_str : bytes → option string;
  (** [Method::from_bytes], as [as_str] shows the method. *)
  method_of : string → option string;
}.

Record SocketAddr : Type := mkSocketAddr { socket_ip : IpAddr; socket_port : N }.

(** What [build_client] configures: the pinned host and the deadline.  The
    client follows no redirect and uses no proxy. *)
Record Client : Type := mkClient { client_pin : option (string * SocketAddr); client_timeout : N }.

(** How the stream of a request body ended: at its declared size, with an
    error, or with the transport no longer asking for it. *)
Inductive body_end : Type :=
| BodyComplete
| BodyFailed (message : string)
| BodyUnread.

(** One request put on the wire. *)
Record Sent `{HttpLib} : Type := mkSent {
  sent_client : Client;
  sent_url : Url;
  sent_method : string;
  sent_headers : list (string * bytes);
  sent_blob : option BlobRef;
  sent_pieces : list bytes;
  sent_end : body_end;
}.

(** A response: its head, the chunks its body arrives in, and the error the
    body ends with, when it does. *)
Record Response : Type := mkResponse {
  status : N;
  headers : list (string * bytes);
  content_length : option N;
  chunks : list bytes;
  failure : option string;
}.

Inductive Lookup : Type :=
| LookupPending
| LookupFailed
| Resolved (addresses : list SocketAddr).

(** The surroundings, by the number of the step that asks: the monotonic clock
    in nanoseconds, name resolution under a time limit, whether a TLS client
    can be set up, how often the transport asks for a piece of the body, and
    the exchange. *)
Class Network `{HttpLib} : Type := {
  net_now : nat → N;
  net_lookup : nat → N → string → N → Lookup;
  net_client : nat → bool;
  net_polls : nat → nat;
  net_send : nat → Sent → result Response string;
}.

(** Looking up the text of an address answers that address. *)
Class NetworkLaws `{Network} : Prop := {
  lookup_literal : ∀ k t host port ip l, parse_ip host = Some ip →
    net_lookup k t host port = Resolved l → ∀ a, a ∈ l → socket_ip a = ip;
}.

(** ** The checks *)

(** [Duration::from_millis]. *)
Definition from_millis (ms : N) : N := ms * 1000000.

Definition prepare_request `{HttpLib} (grant : HttpGrant) (request : HttpRequest)
    : result (Url * string * N) HttpError :=
  let? url := ok_or (url_parse (req_url request)) (HttpInvalid "URL is malformed") in
  if negb (str_is_empty (url_username url)) || opt_is_some (url_password url)
     || opt_is_some (url_fragment url)
  then Err (HttpInvalid "URL credentials and fragments are forbidden")
  else
  let? method := ok_or (method_of (req_method request)) (HttpInvalid "method is malformed") in
  let timeout := from_millis (req_timeout_ms request) in
  if (timeout =? 0) || (MAX_TIMEOUT <? timeout) || (max_timeout_ms grant <? req_timeout_ms request)
  then Err (HttpInvalid "timeout exceeds the invocation or host limit")
  else if MAX_REDIRECTS <? max_redirects grant
  then Err (HttpInvalid "redirect grant exceeds hard limit")
  else if MAX_HEADER_BYTES <? header_bytes (req_headers request)
  then Err (HttpResourceExhausted "request headers exceed 64 KiB")
  else if is_some_and (req_body request) (λ body, max_request_bytes grant <? blob_size body)
  then Err (HttpResourceExhausted "request body exceeds grant")
  else Ok (url, method, timeout).

Definition canonical_origin `{HttpLib} (url : Url) : result string HttpError :=
  if negb (opt_is_some (url_host_str url)) || url_cannot_be_a_base url
  then Err (HttpInvalid "URL has no network origin")
  else Ok (url_origin url).

Definition validate_destination `{HttpLib} (grant : HttpGrant) (url : Url) (method : string)
    : result string HttpError :=
  try! (if String.eqb (url_scheme url) "https" then Ok tt
        else if String.eqb (url_scheme url) "http" then
          if allow_http grant then Ok tt
          else Err (HttpPermissionDenied "plaintext HTTP is not granted")
        else Err (HttpInvalid "only HTTP and HTTPS are supported"));
  let? origin := canonical_origin url in
  let origin_allowed := existsb (λ allowed,
    match url_parse allowed with
    | Some url => match canonical_origin url with
                  | Ok allowed => String.eqb allowed origin
                  | Err _ => false
                  end
    | None => false
    end) (origins grant) in
  if negb origin_allowed then Err (HttpPermissionDenied "origin is not granted")
  else if negb (existsb (λ allowed, eq_ignore_ascii_case allowed method) (methods grant))
  then Err (HttpPermissionDenied "method is not granted")
  else Ok origin.

(** [resolve_destination] under [tokio::time::timeout]: [HttpTimeout] when the
    resolver has not answered within the limit. *)
Definition resolve_destination `{Network} (grant : HttpGrant) (url : Url) (step : nat) (limit : N)
    : result (list SocketAddr) HttpError :=
  let? host := ok_or (url_host_str url) (HttpInvalid "URL has no host") in
  let? port := ok_or (url_port_or_known_default url) (HttpInvalid "URL has no port") in
  match net_lookup step limit host port with
  | LookupPending => Err HttpTimeout
  | LookupFailed => Err (HttpUnavailable "DNS resolution failed")
  | Resolved addresses =>
      if (length addresses =? 0)%nat then Err (HttpUnavailable "DNS returned no addresses")
      else if negb (allow_private_network grant)
              && existsb (λ address, negb (is_public_address (socket_ip address))) addresses
      then Err (HttpPermissionDenied "destination resolves to a non-public address")
      else Ok addresses
  end.

(** [build_client]; [resolved[0]] of an empty list panics, which [None] stands
    for. *)
Definition build_client `{Network} (url : Url) (resolved : list SocketAddr) (timeout : N) (step : nat)
    : option (result Client HttpError) :=
  match url_host_str url with
  | None => Some (Err (HttpInvalid "URL has no host"))
  | Some host =>
      let finish pin :=
        Some (if net_client step then Ok (mkClient pin timeout)
              else Err (HttpInternal "cannot initialize HTTP client")) in
      match parse_ip host, resolved with
      | Some _, _ => finish None
      | None, address :: _ => finish (Some (host, address))
      | None, [] => None
      end
  end.

(** Where the client connects: the address in the URL, or the pinned one. *)
Definition connects_to `{HttpLib} (client : Client) (url : Url) : option IpAddr :=
  match url_host_str url with
  | Some host =>
      match parse_ip host with
      | Some ip => Some ip
      | None => match client_pin client with
                | Some (pinned, address) =>
                    if String.eqb pinned host then Some (socket_ip address) else None
                | None => None
                end
      end
  | None => None
  end.

Definition is_redirection (status : N) : bool := (300 <=? status) && (status <? 400).
Definition is_success (status : N) : bool := (200 <=? status) && (status <? 300).

(** [HeaderMap::get]: the first value of the header. *)
Definition get_header (name : string) (headers : list (string * bytes)) : option bytes :=
  snd <$> List.find (λ h, String.eqb (fst h) name) headers.

Definition redirect_target `{HttpLib} (current : Url) (response : Response)
    : result (option Url) HttpError :=
  if negb (is_redirection (status response)) then Ok None
  else match get_header "location" (headers response) with
       | None => Ok None
       | Some location =>
           let? location := ok_or (header_to_str location)
                              (HttpInvalid "redirect location is not UTF-8") in
           let? next := ok_or (url_join current location)
                          (HttpInvalid "redirect location is malformed") in
           Ok (Some next)
       end.

Fixpoint prepare_headers `{HttpLib} (hs : list HttpHeader) (strip_sensitive_headers : bool)
    : result (list (string * bytes)) HttpError :=
  match hs with
  | [] => Ok []
  | header :: hs =>
      let? name := ok_or (header_name_of (header_name header))
                     (HttpInvalid "header name is malformed") in
      if is_hop_by_hop name || (strip_sensitive_headers && is_credential_header name)
      then prepare_headers hs strip_sensitive_headers
      else if header_value_ok (header_value header)
      then let? rest := prepare_headers hs strip_sensitive_headers in
           Ok ((name, header_value header) :: rest)
      else Err (HttpInvalid "header value is malformed")
  end.

(** ** Opening a response *)

(** The state the host works on: the blob store, the number of the next step
    and the requests put on the wire so far. *)
Record Wire `{HttpLib} (B : Type) : Type := mkWire { wire_blobs : B; step : nat; sent : list Sent }.
Arguments mkWire {_ _} _ _ _.
Arguments wire_blobs {_ _} _.
Arguments step {_ _} _.
Arguments sent {_ _} _.

Section open.
Context `{Network} {B : Type} `{BlobStore B}.

(** An operation of the host: [None] when it panics. *)
Definition HM (A : Type) : Type := Wire B → option (result A HttpError) * Wire B.

Definition hm_ret {A} (a : A) : HM A := λ w, (Some (Ok a), w).
Definition hm_lift {A} (r : result A HttpError) : HM A := λ w, (Some r, w).
Definition hm_bind {A C} (m : HM A) (k : A → HM C) : HM C := λ w,
  match m w with
  | (Some (Ok a), w) => k a w
  | (Some (Err e), w) => (Some (Err e), w)
  | (None, w) => (None, w)
  end.
Notation "'let%' x := m 'in' k" := (hm_bind m (λ x, k))
  (at level 10, x pattern, m at level 100, k at level 200).

(** The next answer of the surroundings. *)
Definition ask {A} (f : nat → A) : HM A := λ w,
  (Some (Ok (f (step w))), mkWire (wire_blobs w) (S (step w)) (sent w)).

Definition remaining_time (deadline : N) : HM N :=
  let% now := ask net_now in
  hm_lift (if now <? deadline then Ok (deadline - now) else Err HttpTimeout).

(** The stream of a request body, asked for [polls] pieces. *)
Fixpoint stream_body (polls : nat) (blob : BlobRef) (offset : N) (b : B)
    : list bytes * body_end * B :=
  match polls with
  | 0%nat => ([], BodyUnread, b)
  | S polls =>
      if offset =? blob_size blob then ([], BodyComplete, b)
      else match bs_read blob offset TRANSFER_CHUNK_BYTES b with
           | (Err e, b) => ([], BodyFailed (io_error e), b)
           | (Ok chunk, b) =>
               match checked_add_u64 offset (len (chunk_bytes chunk)) with
               | Some next =>
                   if next <=? blob_size blob then
                     if len (chunk_bytes chunk) =? 0
                     then ([], BodyFailed "blob ended before its declared size", b)
                     else let '(pieces, fin, b) := stream_body polls blob next b in
                          (chunk_bytes chunk :: pieces, fin, b)
                   else ([], BodyFailed "blob exceeds declared size", b)
               | None => ([], BodyFailed "blob exceeds declared size", b)
               end
           end
  end.

(** [builder.send().await]: the body is read from the store as the transport
    asks for it. *)
Definition exchange (client : Client) (url : Url) (method : string) (hs : list (string * bytes))
    (body : option BlobRef) : HM Response := λ w,
  let k := step w in
  let '(pieces, fin, b) :=
    match body with
    | Some blob => stream_body (net_polls k) blob 0 (wire_blobs w)
    | None => ([], BodyComplete, wire_blobs w)
    end in
  let out := mkSent _ client url method hs body pieces fin in
  (Some (map_err transport_error (net_send k out)), mkWire b (S k) (sent w ++ [out])).

Definition connect (url : Url) (resolved : list SocketAddr) (timeout : N) : HM Client := λ w,
  (build_client url resolved timeout (step w), mkWire (wire_blobs w) (S (step w)) (sent w)).

Definition SEE_OTHER : N := 303.
Definition MOVED_PERMANENTLY : N := 301.
Definition FOUND : N := 302.

(** A redirect that is followed with [GET] and without the body. *)
Definition turns_into_get (status : N) (method : string) : bool :=
  (status =? SEE_OTHER)
  || (((status =? MOVED_PERMANENTLY) || (status =? FOUND)) && String.eqb method "POST").

(** The loop of [open_response]; [redirects] is
    [grant.max_redirects - redirect_count]. *)
Fixpoint follow (redirects : nat) (grant : HttpGrant) (request : HttpRequest) (deadline : N)
    (url : Url) (method : string) (body : option BlobRef) (strip_sensitive_headers : bool)
    : HM Response :=
  let% _ := remaining_time deadline in
  let% _ := hm_lift (validate_destination grant url method) in
  let% limit := remaining_time deadline in
  let% answer := ask (λ k, resolve_destination grant url k limit) in
  let% resolved := hm_lift answer in
  let% timeout := remaining_time deadline in
  let% client := connect url resolved timeout in
  let% hs := hm_lift (prepare_headers (req_headers request) strip_sensitive_headers) in
  let% response := exchange client url method hs body in
  let% target := hm_lift (redirect_target url response) in
  match target with
  | None => hm_ret response
  | Some next =>
      match redirects with
      | 0%nat => hm_lift (Err (HttpResourceExhausted "redirect limit exceeded"))
      | S redirects =>
          let% previous_origin := hm_lift (canonical_origin url) in
          let% next_origin := hm_lift (canonical_origin next) in
          let get := turns_into_get (status response) method in
          follow redirects grant request deadline next
            (if get then "GET" else method) (if get then None else body)
            (negb (String.eqb previous_origin next_origin) || strip_sensitive_headers)
      end
  end.

Definition open_response (grant : HttpGrant) (request : HttpRequest) : HM Response :=
  let% prepared := hm_lift (prepare_request grant request) in
  let '(url, method, timeout) := prepared in
  let% now := ask net_now in
  follow (N.to_nat (max_redirects grant)) grant request (now + timeout) url method
    (req_body request) false.
End open.
Arguments HM {_} _ _ : assert.

Notation "'let%' x := m 'in' k" := (hm_bind m (λ x, k))
  (at level 10, x pattern, m at level 100, k at level 200) : rust_scope.
