(* ===== verification/HttpPolicySpec.v ===== *)
(** What the HTTP host puts on the wire for a component: only requests its
    grant allows, to addresses the address policy allows, at most one per
    redirect the grant allows and one more, with the caller's credentials only
    while it stays on the origin the caller named. *)
From stdpp Require Import base tactics option list strings gmap.
From Stdlib Require Import NArith Ascii Lia.
From S2P Require Import Prelude Event Net Blob Delivery EventStore Stores HttpData HttpPolicy.

Local Open Scope N_scope.

(** ** The specification *)

Section spec.
Context `{Network}.

Definition origin_granted (grant : HttpGrant) (url : Url) : Prop :=
  ∃ allowed u origin, allowed ∈ origins grant ∧ url_parse allowed = Some u ∧
    canonical_origin u = Ok origin ∧ canonical_origin url = Ok origin.

Definition method_granted (grant : HttpGrant) (method : string) : Prop :=
  ∃ allowed, allowed ∈ methods grant ∧ to_ascii_lowercase allowed = to_ascii_lowercase method.

Definition scheme_granted (grant : HttpGrant) (url : Url) : Prop :=
  url_scheme url = "https" ∨ url_scheme url = "http" ∧ allow_http grant = true.

(** The connection goes to one address, and to a public one unless the grant
    says otherwise. *)
Definition address_granted (grant : HttpGrant) (s : Sent) : Prop :=
  ∃ ip, connects_to (sent_client s) (sent_url s) = Some ip ∧
    (allow_private_network grant = false → is_public_address ip = true).

(** Every header is one of the caller's, and none is the connection's own. *)
Definition headers_granted (request : HttpRequest) (s : Sent) : Prop :=
  ∀ name value, (name, value) ∈ sent_headers s →
    is_hop_by_hop name = false ∧
    ∃ header, header ∈ req_headers request ∧ header_name_of (header_name header) = Some name ∧
      header_value header = value.

(** The body is the caller's blob or nothing, and no more of it is sent than
    its declared size, which the grant allows. *)
Definition body_granted (grant : HttpGrant) (request : HttpRequest) (s : Sent) : Prop :=
  match sent_blob s with
  | None => sent_pieces s = []
  | Some blob => req_body request = Some blob ∧ blob_size blob ≤ max_request_bytes grant ∧
      len (concat (sent_pieces s)) ≤ blob_size blob ∧
      (sent_end s = BodyComplete → len (concat (sent_pieces s)) = blob_size blob)
  end.

(** The exchange has to be over by the deadline. *)
Definition timed (deadline : N) (s : Sent) : Prop :=
  ∃ k, net_now k + client_timeout (sent_client s) = deadline ∧ 0 < client_timeout (sent_client s).

Record granted (grant : HttpGrant) (request : HttpRequest) (deadline : N) (s : Sent) : Prop := {
  granted_scheme : scheme_granted grant (sent_url s);
  granted_origin : origin_granted grant (sent_url s);
  granted_method : method_granted grant (sent_method s);
  granted_address : address_granted grant s;
  granted_headers : headers_granted request s;
  granted_body : body_granted grant request s;
  granted_time : timed deadline s;
}.

Definition carries_credentials (s : Sent) : Prop :=
  ∃ name value, (name, value) ∈ sent_headers s ∧ is_credential_header name = true.

(** The requests of one call, from the URL of the first; [strip] says that an
    earlier redirect has left its origin. *)
Inductive trail : Url → bool → list Sent → Prop :=
| trail_nil url strip : trail url strip []
| trail_cons url strip s next strip' l :
    sent_url s = url →
    (strip = true → ¬ carries_credentials s) →
    (strip' = false → strip = false ∧ canonical_origin url = canonical_origin next) →
    trail next strip' l → trail url strip (s :: l).

(** ** The checks *)

Lemma validate_destination_ok grant url method origin :
  validate_destination grant url method = Ok origin →
  scheme_granted grant url ∧ origin_granted grant url ∧ method_granted grant method.
Proof.
  unfold validate_destination, scheme_granted. intros Hv.
  apply result_bind_ok in Hv as ([] & Hs & Hv).
  apply result_bind_ok in Hv as (o & Ho & Hv).
  destruct (existsb _ (origins grant)) eqn:Eo; simpl in Hv; [|done].
  destruct (existsb _ (methods grant)) eqn:Em; simpl in Hv; [|done].
  apply existsb_exists in Eo as (a & Ha & Ea). apply existsb_exists in Em as (m & Hm & Em).
  split_and!.
  - destruct (String.eqb_spec (url_scheme url) "https"); [by left|].
    destruct (String.eqb_spec (url_scheme url) "http"); [|done].
    destruct (allow_http grant); [by right|done].
  - destruct (url_parse a) as [u|] eqn:Eu; [|done]. destruct (canonical_origin u) as [o'|] eqn:Eo'; [|done].
    apply String.eqb_eq in Ea as ->. exists a, u, o. by rewrite list_elem_of_In.
  - exists m. rewrite list_elem_of_In. by apply String.eqb_eq in Em.
Qed.

Lemma prepare_headers_ok request strip : ∀ hs out, hs ⊆ req_headers request →
  prepare_headers hs strip = Ok out →
  ∀ name value, (name, value) ∈ out → is_hop_by_hop name = false ∧
    (strip = true → is_credential_header name = false) ∧
    ∃ header, header ∈ req_headers request ∧ header_name_of (header_name header) = Some name ∧
      header_value header = value.
Proof.
  induction hs as [|h hs IH]; intros out Hsub Hp name value Hin; simpl in Hp.
  { injection Hp as <-. by apply not_elem_of_nil in Hin. }
  apply result_bind_ok in Hp as (n & Hn & Hp). apply ok_or_ok in Hn.
  destruct (is_hop_by_hop n || strip && is_credential_header n) eqn:Es.
  { eapply IH; eauto. set_solver. }
  apply orb_false_iff in Es as [Eh Ec]. destruct (header_value_ok _); [|done].
  apply result_bind_ok in Hp as (rest & Hr & [= <-]).
  apply elem_of_cons in Hin as [[= -> ->]|Hin]; [|eapply IH; eauto; set_solver].
  split_and!; [done|by intros ->|]. exists h. set_solver.
Qed.

Lemma resolve_destination_ok grant url k t l : resolve_destination grant url k t = Ok l →
  l ≠ [] ∧ (∃ host port, url_host_str url = Some host ∧ net_lookup k t host port = Resolved l) ∧
  (allow_private_network grant = false → ∀ a, a ∈ l → is_public_address (socket_ip a) = true).
Proof.
  unfold resolve_destination. intros Hr.
  apply result_bind_ok in Hr as (host & Hh & Hr). apply result_bind_ok in Hr as (port & Hp & Hr).
  apply ok_or_ok in Hh. destruct (net_lookup k t host port) as [| |addresses] eqn:El; try done.
  destruct (length addresses =? 0)%nat eqn:En; [done|].
  destruct (negb _ && _) eqn:Ep; [done|]. injection Hr as <-.
  split_and!; [by intros ->|by eauto|]. intros Hpriv a Ha. rewrite Hpriv in Ep. simpl in Ep.
  destruct (is_public_address (socket_ip a)) eqn:Ea; [done|]. exfalso.
  apply not_true_iff_false in Ep. apply Ep, existsb_exists. exists a.
  rewrite <- list_elem_of_In. by rewrite Ea.
Qed.

(** The client connects to an address that was looked up. *)
Lemma build_client_ok `{!NetworkLaws} url l t k host port j t' :
  l ≠ [] → url_host_str url = Some host → net_lookup j t' host port = Resolved l →
  ∃ r, build_client url l t k = Some r ∧ ∀ client, r = Ok client →
    client_timeout client = t ∧ ∃ a, a ∈ l ∧ connects_to client url = Some (socket_ip a).
Proof.
  intros Hne Hh Hl. unfold build_client, connects_to. rewrite Hh.
  destruct l as [|a l]; [done|]. destruct (parse_ip host) as [ip|] eqn:Ei.
  - eexists; split; [done|]. intros client Hc. destruct (net_client k); [|done]. injection Hc as <-.
    split; [done|]. exists a. split; [set_solver|]. f_equal. symmetry.
    eapply lookup_literal; [done..|set_solver].
  - eexists; split; [done|]. intros client Hc. destruct (net_client k); [|done]. injection Hc as <-.
    split; [done|]. exists a. simpl. rewrite String.eqb_refl. split; [set_solver|done].
Qed.
End spec.

(** ** Opening a response *)

Section opening.
Context `{NetworkLaws} {B : Type} `{BlobStore B}.

Lemma stream_body_ok polls blob : ∀ offset (b : B) pieces fin b',
  offset ≤ blob_size blob → stream_body polls blob offset b = (pieces, fin, b') →
  offset + len (concat pieces) ≤ blob_size blob ∧
  (fin = BodyComplete → offset + len (concat pieces) = blob_size blob).
Proof.
  induction polls as [|polls IH]; intros offset b pieces fin b' Hle Hs; simpl in Hs.
  { injection Hs as <- <- _. unfold len. simpl. split; [lia|done]. }
  destruct (N.eqb_spec offset (blob_size blob)) as [->|Hne].
  { injection Hs as <- <- _. unfold len. simpl. lia. }
  destruct (bs_read _ _ _ b) as [[chunk|e] b1]; [|by injection Hs as <- <- _; unfold len; simpl; split; [lia|]].
  destruct (checked_add_u64 _ _) as [next|] eqn:Ea;
    [|by injection Hs as <- <- _; unfold len; simpl; split; [lia|]].
  apply checked_add_u64_spec in Ea as [-> _].
  destruct (N.leb_spec (offset + len (chunk_bytes chunk)) (blob_size blob)) as [Hn|Hn];
    [|by injection Hs as <- <- _; unfold len; simpl; split; [lia|]].
  destruct (len (chunk_bytes chunk) =? 0); [by injection Hs as <- <- _; unfold len; simpl; split; [lia|]|].
  destruct (stream_body polls _ _ b1) as [[ps f] b2] eqn:Er. injection Hs as <- <- _.
  apply IH in Er; [|done]. simpl. rewrite len_app. destruct Er as [? Hc].
  split; [lia|]. intros ->. specialize (Hc eq_refl). lia.
Qed.

(** A part of the loop that neither panics nor puts anything on the wire, with
    what holds of its result. *)
Definition quietly {A} (m : HM B A) (Q : A → Prop) : Prop := ∀ w,
  sent (m w).2 = sent w ∧ ∃ r, (m w).1 = Some r ∧ ∀ a, r = Ok a → Q a.

(** How an operation of the host ends, by the requests it adds. *)
Definition ends {A} (m : HM B A) (w : Wire B) (Q : list Sent → Prop) : Prop :=
  (m w).1 ≠ None ∧ ∃ new, sent (m w).2 = sent w ++ new ∧ Q new.

Lemma quietly_lift {A} (r : result A HttpError) (Q : A → Prop) :
  (∀ a, r = Ok a → Q a) → quietly (hm_lift r) Q.
Proof. intros HQ w. split; [done|]. by exists r. Qed.

Lemma quietly_ask {A} (f : nat → A) (Q : A → Prop) : (∀ k, Q (f k)) → quietly (ask f) Q.
Proof. intros HQ w. split; [done|]. eexists; split; [done|]. by intros a [= <-]. Qed.

Lemma quietly_bind {A C} (m : HM B A) (k : A → HM B C) P Q :
  quietly m P → (∀ a, P a → quietly (k a) Q) → quietly (hm_bind m k) Q.
Proof.
  intros Hm Hk w. destruct (Hm w) as (Hs & r & Hr & HP). unfold hm_bind.
  destruct (m w) as [o w1]. simpl in *. subst o. destruct r as [a|e].
  - destruct (Hk a (HP a eq_refl) w1) as (Hs' & Hrest). by rewrite Hs'.
  - split; [done|]. by exists (Err e).
Qed.

Lemma quietly_remaining deadline :
  quietly (remaining_time deadline) (λ t, 0 < t ∧ ∃ k, net_now k + t = deadline).
Proof.
  eapply quietly_bind with (P := λ now, ∃ k, now = net_now k); [apply quietly_ask; eauto|].
  intros now [k ->]. apply quietly_lift. intros t Ht. destruct (N.ltb_spec (net_now k) deadline); [|done].
  injection Ht as <-. split; [lia|]. exists k. lia.
Qed.

Lemma quietly_connect url l t host port j t' :
  l ≠ [] → url_host_str url = Some host → net_lookup j t' host port = Resolved l →
  quietly (connect url l t) (λ client, client_timeout client = t ∧
    ∃ a, a ∈ l ∧ connects_to client url = Some (socket_ip a)).
Proof.
  intros Hne Hh Hl w. split; [done|]. unfold connect. simpl.
  destruct (build_client_ok url l t (step w) host port j t') as (r & -> & Hr); eauto.
Qed.

Lemma ends_quietly {A C} (m : HM B A) (k : A → HM B C) P w Q :
  quietly m P → Q [] → (∀ a w', P a → ends (k a) w' Q) → ends (hm_bind m k) w Q.
Proof.
  intros Hm Hnil Hk. destruct (Hm w) as (Hs & r & Hr & HP). unfold ends, hm_bind.
  destruct (m w) as [o w1]. simpl in *. subst o. destruct r as [a|e].
  - destruct (Hk a w1 (HP a eq_refl)) as (Hn & new & Hnew & HQ). split; [done|].
    exists new. by rewrite Hnew, Hs.
  - split; [done|]. exists []. by rewrite app_nil_r.
Qed.

Lemma ends_mono {A} (m : HM B A) w (P Q : list Sent → Prop) :
  ends m w P → (∀ new, P new → Q new) → ends m w Q.
Proof. intros (? & new & ? & ?) HQ. split; [done|]. exists new. auto. Qed.

Lemma ends_lift {A} (r : result A HttpError) w (Q : list Sent → Prop) : Q [] → ends (hm_lift r) w Q.
Proof. split; [done|]. exists []. by rewrite app_nil_r. Qed.

(** One exchange adds one request. *)
Lemma ends_exchange {C} client url method hs body (k : Response → HM B C) w
    (Q : list Sent → Prop) :
  (∀ out, sent_client out = client → sent_url out = url → sent_method out = method →
     sent_headers out = hs → sent_blob out = body →
     match body with
     | None => sent_pieces out = []
     | Some blob => len (concat (sent_pieces out)) ≤ blob_size blob ∧
         (sent_end out = BodyComplete → len (concat (sent_pieces out)) = blob_size blob)
     end → Q [out] ∧ (∀ response w', ends (k response) w' (λ new, Q (out :: new)))) →
  ends (hm_bind (exchange client url method hs body) k) w Q.
Proof.
  intros Hout. unfold ends, hm_bind, exchange.
  destruct (match body with Some _ => _ | None => _ end) as [[pieces fin] b] eqn:Eb.
  specialize (Hout (mkSent _ client url method hs body pieces fin) eq_refl eq_refl eq_refl eq_refl eq_refl).
  destruct Hout as [Hone Hk].
  { destruct body as [blob|]; simpl; [|by injection Eb as <- _ _].
    apply stream_body_ok in Eb; [|lia]. by rewrite N.add_0_l in Eb. }
  destruct (net_send _ _) as [response|e]; simpl; [|split; [done|]; by eexists].
  edestruct Hk as (Hn & new & Hnew & HQ). split; [exact Hn|]. exists (mkSent _ client url method hs body pieces fin :: new).
  rewrite Hnew. simpl. by rewrite <- app_assoc.
Qed.

(** What the requests of one call are, from the URL of the first. *)
Definition within (grant : HttpGrant) (request : HttpRequest) (deadline : N) (redirects : nat)
    (url : Url) (strip : bool) (new : list Sent) : Prop :=
  (length new ≤ S redirects)%nat ∧ Forall (granted grant request deadline) new ∧ trail url strip new.

(** A body the loop may hold: the caller's, checked, or none. *)
Definition body_held (grant : HttpGrant) (request : HttpRequest) (body : option BlobRef) : Prop :=
  ∀ blob, body = Some blob → req_body request = Some blob ∧ blob_size blob ≤ max_request_bytes grant.

Lemma body_held_granted grant request s :
  body_held grant request (sent_blob s) →
  match sent_blob s with
  | None => sent_pieces s = []
  | Some blob => len (concat (sent_pieces s)) ≤ blob_size blob ∧
      (sent_end s = BodyComplete → len (concat (sent_pieces s)) = blob_size blob)
  end → body_granted grant request s.
Proof.
  intros Hb Hs. unfold body_granted. destruct (sent_blob s) as [blob|]; [|done].
  destruct (Hb blob eq_refl) as [-> ?]. by destruct Hs.
Qed.

Lemma within_nil grant request deadline redirects url strip :
  within grant request deadline redirects url strip [].
Proof. split_and!; [simpl; lia|done|constructor]. Qed.

Lemma within_one grant request deadline redirects url strip s :
  granted grant request deadline s → sent_url s = url → (strip = true → ¬ carries_credentials s) →
  within grant request deadline redirects url strip [s].
Proof.
  intros Hg Hu Hc. split_and!; [simpl; lia|by constructor|].
  by apply trail_cons with (next := url) (strip' := true); [..|constructor].
Qed.

Lemma follow_within redirects grant request deadline : ∀ url method body strip w,
  body_held grant request body →
  ends (follow redirects grant request deadline url method body strip) w
    (within grant request deadline redirects url strip).
Proof.
  induction redirects as [|redirects IH]; intros url method body strip w Hbody; simpl.
  all: eapply ends_quietly; [apply quietly_remaining|apply within_nil|intros t0 w0 _].
  all: eapply ends_quietly; [apply quietly_lift, validate_destination_ok|apply within_nil|].
  all: intros origin w1 (Hscheme & Horigin & Hmethod).
  all: eapply ends_quietly; [apply quietly_remaining|apply within_nil|intros limit w2 _].
  all: eapply ends_quietly with (P := λ answer, ∃ k, answer = resolve_destination grant url k limit);
    [apply quietly_ask; by eauto|apply within_nil|intros answer w3 [k ->]].
  all: eapply ends_quietly; [apply quietly_lift, resolve_destination_ok|apply within_nil|].
  all: intros resolved w4 (Hne & (host & port & Hhost & Hlook) & Hpub).
  all: eapply ends_quietly; [apply quietly_remaining|apply within_nil|intros t w5 (Ht & Hclock)].
  all: eapply ends_quietly; [eapply quietly_connect; [exact Hne|exact Hhost|exact Hlook]|apply within_nil|].
  all: intros client w6 (<- & a & Ha & Hto).
  all: eapply ends_quietly; [apply quietly_lift; intros hs Hhs;
      exact (prepare_headers_ok request strip _ hs (reflexivity _) Hhs)|apply within_nil|].
  all: intros hs w7 Hhs; apply ends_exchange; intros out <- <- <- <- <- Hout.
  all: assert (granted grant request deadline out) as Hg by
    (split; [done..|exists (socket_ip a); by auto| | |by destruct Hclock as [j Hj]; exists j];
     [intros n v Hin; by destruct (Hhs n v Hin) as (? & _ & ?)|by apply body_held_granted]).
  all: assert (strip = true → ¬ carries_credentials out) as Hcred by
    (intros -> (n & v & Hin & Hn); destruct (Hhs n v Hin) as (_ & Hno & _); rewrite Hno in Hn; done).
  all: split; [by apply within_one|intros response w8].
  all: eapply ends_quietly with (P := λ _, True); [by apply quietly_lift|by apply within_one|].
  all: intros [next|] w9 _; [|by apply ends_lift, within_one].
  { by apply ends_lift, within_one. }
  eapply ends_quietly; [apply quietly_lift; intros o Ho; exact Ho|by apply within_one|intros o w10 Ho].
  eapply ends_quietly; [apply quietly_lift; intros o' Ho'; exact Ho'|by apply within_one|intros o' w11 Ho'].
  eapply ends_mono; [apply IH; intros blob; destruct (turns_into_get _ _); [done|apply Hbody]|].
  intros new (Hlen & Hall & Htrail). split_and!; [simpl; lia|by constructor|].
  eapply trail_cons; [done|exact Hcred| |exact Htrail].
  rewrite orb_false_iff, negb_false_iff, String.eqb_eq. rewrite Ho, Ho'. by intros [-> ->].
Qed.

Lemma prepare_request_ok grant request url method timeout :
  prepare_request grant request = Ok (url, method, timeout) →
  timeout = from_millis (req_timeout_ms request) ∧ max_redirects grant ≤ MAX_REDIRECTS ∧
  url_parse (req_url request) = Some url ∧ body_held grant request (req_body request).
Proof.
  unfold prepare_request. intros Hp.
  apply result_bind_ok in Hp as (u & Hu & Hp). apply ok_or_ok in Hu.
  destruct (_ || _ || _); [done|]. apply result_bind_ok in Hp as (m & Hm & Hp).
  destruct (_ || _ || _); [done|]. destruct (N.ltb_spec MAX_REDIRECTS (max_redirects grant)); [done|].
  destruct (_ <? header_bytes _); [done|]. destruct (is_some_and _ _) eqn:Eb; [done|].
  injection Hp as -> -> <-. split_and!; try done.
  intros blob Hblob. rewrite Hblob in Eb. simpl in Eb. apply N.ltb_ge in Eb. done.
Qed.

(** What one call sends, whatever the surroundings answer. *)
Lemma open_response_within grant request w :
  ends (open_response grant request) w (λ new, new = [] ∨
    max_redirects grant ≤ MAX_REDIRECTS ∧ ∃ url, url_parse (req_url request) = Some url ∧
    within grant request (net_now (step w) + from_millis (req_timeout_ms request))
      (N.to_nat (max_redirects grant)) url false new).
Proof.
  unfold open_response, ends, hm_bind, hm_lift.
  destruct (prepare_request grant request) as [[[url method] timeout]|e] eqn:Ep.
  - apply prepare_request_ok in Ep as (-> & Hmax & Hurl & Hbody). simpl.
    edestruct follow_within as (Hn & new & Hnew & Hw); [exact Hbody|].
    split; [exact Hn|]. exists new. split; [exact Hnew|]. right. eauto.
  - simpl. split; [done|]. exists []. rewrite app_nil_r. by auto.
Qed.

(** Once the trail has left an origin, no later request carries credentials. *)
Lemma trail_stripped url new : trail url true new → Forall (λ s, ¬ carries_credentials s) new.
Proof.
  remember true as strip. intros Ht. induction Ht as [|url strip s next strip' l Hu Hc Hs Ht IH]; [done|].
  subst strip. constructor; [by apply Hc|]. apply IH. destruct strip'; [done|]. by destruct Hs.
Qed.

Lemma trail_credentials new : ∀ url strip i s, trail url strip new →
  new !! i = Some s → carries_credentials s →
  strip = false ∧ ∀ j s', (j ≤ i)%nat → new !! j = Some s' →
    canonical_origin (sent_url s') = canonical_origin url.
Proof.
  induction new as [|s0 new IH]; intros url strip i s Ht Hi Hc; [done|].
  inversion Ht as [|? ? ? next strip' ? Hu Hno Hs Ht']; subst.
  assert (strip = false) as ->.
  { destruct strip; [|done]. exfalso. apply trail_stripped in Ht.
    by eapply (Forall_lookup_1 _ _ _ _ Ht Hi). }
  split; [done|]. intros [|j] s' Hj Hs'; [by injection Hs' as <-|].
  destruct i as [|i]; [lia|]. simpl in Hi, Hs'.
  destruct (IH next strip' i s Ht' Hi Hc) as [-> Hall].
  destruct (Hs eq_refl) as [_ ->]. eapply Hall; [|done]. lia.
Qed.

(** ** What holds of every call *)

(** (C7) Whatever the clock, the resolver and the servers answer, a call of the
    HTTP host does not panic, and every request it puts on the wire is one the
    grant allows: its scheme, origin and method are granted, it connects to a
    public address unless the grant allows private networks, its headers are
    the caller's without the connection's own, its body is the caller's blob
    within the granted size, and it has to finish by the deadline the caller
    set.  At most one request is sent per granted redirect and one more, and
    never more than six. *)
Theorem requests_granted grant request (w : Wire B) :
  let w' := (open_response grant request w).2 in
  (open_response grant request w).1 ≠ None ∧
  ∃ new, sent w' = sent w ++ new ∧
    (length new ≤ 6)%nat ∧ len new ≤ 1 + max_redirects grant ∧
    Forall (granted grant request (net_now (step w) + from_millis (req_timeout_ms request))) new.
Proof.
  destruct (open_response_within grant request w) as (Hn & new & Hnew & Hw).
  split; [exact Hn|]. exists new. split; [exact Hnew|].
  destruct Hw as [->|(Hmax & url & _ & Hlen & Hall & _)]; [unfold len; simpl; split_and!; [lia..|done]|].
  unfold MAX_REDIRECTS in Hmax. unfold len. split_and!; [lia..|done].
Qed.

(** (C10) Credentials stay with the origin the caller named: a request that
    carries an [authorization], [proxy-authorization] or [cookie] header is
    sent to the origin of the caller's URL, and so was every request of the
    call before it; once a redirect has led to another origin, no later
    request of the call carries one, even back on the first origin. *)
Theorem credentials_stay grant request (w : Wire B) new i s :
  sent (open_response grant request w).2 = sent w ++ new →
  new !! i = Some s → carries_credentials s →
  ∃ url, url_parse (req_url request) = Some url ∧
  ∀ j s', (j ≤ i)%nat → new !! j = Some s' →
    canonical_origin (sent_url s') = canonical_origin url.
Proof.
  intros Hnew Hi Hc. destruct (open_response_within grant request w) as (_ & new' & Hnew' & Hw).
  rewrite Hnew in Hnew'. apply app_inv_head in Hnew' as <-.
  destruct Hw as [->|(_ & url & Hurl & _ & _ & Ht)]; [done|].
  exists url. split; [done|]. eapply (trail_credentials new url false i s Ht Hi Hc).
Qed.
End opening.
