(* ===== verification/HttpBody.v ===== *)
(** The bodies of responses in the HTTP host
    ([pluribus-host-http/src/lib.rs]): storing one as a blob
    ([store_response]), the bounded text of an error ([limited_body]), and the
    frames a stream's worker makes of one ([read_bytes], [parse_sse]).

    A body is the chunks it arrives in and the error it ends with, if any.  A
    worker's part is the list of frames it hands to the channel and how it
    ends: a send to the channel only fails once the receiving side is gone,
    and then nothing is observed of the worker. *)
From stdpp Require Import base tactics option list strings gmap.
From Stdlib Require Import NArith Ascii Lia.
From S2P Require Import Prelude Event Net Blob Delivery EventStore Stores Utf8 HttpData HttpPolicy.

Local Open Scope N_scope.

(** ** Storing a response *)

(** The headers a component is shown. *)
Definition shown_headers (response : Response) : list HttpHeader :=
  (λ h, mkHttpHeader h.1 h.2) <$> List.filter (λ h, negb (is_hop_by_hop h.1)) (headers response).

Section store.
Context `{HttpLib} {B : Type} `{BlobStore B}.

(** The loop over [response.chunk()] of [store_response]. *)
Fixpoint write_body (id : string) (offset : N) (body : list bytes) (failure : option string)
    (max_response_bytes : N) (b : B) : result N HttpError * B :=
  match body with
  | [] => match failure with
          | Some message => (Err (transport_error message), b)
          | None => (Ok offset, b)
          end
  | chunk :: body =>
      match checked_add_u64 offset (len chunk) with
      | None => (Err (HttpResourceExhausted "response size overflow"), b)
      | Some next =>
          if max_response_bytes <? next
          then (Err (HttpResourceExhausted "response body exceeds grant"), b)
          else match bs_write id offset chunk b with
               | (Err e, b) => (Err (blob_error e), b)
               | (Ok _, b) => write_body id next body failure max_response_bytes b
               end
      end
  end.

(** [store_response]; the upload is aborted when [ResponseUpload] is dropped,
    on every way out. *)
Definition store_response (response : Response) (max_response_bytes : N) (b : B)
    : result HttpResponse HttpError * B :=
  if is_some_and (content_length response) (λ length, max_response_bytes <? length)
  then (Err (HttpResourceExhausted "response body exceeds grant"), b)
  else if MAX_HEADER_BYTES <? header_bytes (shown_headers response)
  then (Err (HttpResourceExhausted "response headers exceed 64 KiB"), b)
  else
    let media_type := default "application/octet-stream"
      (match get_header "content-type" (headers response) with
       | Some value => header_to_str value
       | None => None
       end) in
    match bs_begin_put media_type (content_length response) b with
    | (Err e, b) => (Err (blob_error e), b)
    | (Ok id, b) =>
        let '(res, b) :=
          match write_body id 0 (chunks response) (failure response) max_response_bytes b with
          | (Err e, b) => (Err e, b)
          | (Ok _, b) =>
              match bs_finish_put id b with
              | (Err e, b) => (Err (blob_error e), b)
              | (Ok body, b) =>
                  (Ok (mkHttpResponse (status response) (shown_headers response) body), b)
              end
          end in
        let '(_, b) := bs_abort_put id b in
        (res, b)
    end.
End store.

(** [limited_body]: the first [maximum] bytes; what follows is not read. *)
Fixpoint limited_go (body : list bytes) (failure : option string) (maximum : N) (acc : bytes)
    : result bytes HttpError :=
  match body with
  | [] => match failure with
          | Some message => Err (transport_error message)
          | None => Ok acc
          end
  | chunk :: body =>
      let remaining := maximum - len acc in
      let acc := acc ++ take (N.to_nat (N.min (len chunk) remaining)) chunk in
      if maximum <=? len acc then Ok acc else limited_go body failure maximum acc
  end.
Definition limited_body (response : Response) (maximum : N) : result bytes HttpError :=
  limited_go (chunks response) (failure response) maximum [].

(** ** Byte streams *)

(** What one poll of the reader takes of a chunk: up to the buffer's size. *)
Fixpoint pieces_go (fuel : nat) (chunk : bytes) : list bytes :=
  match fuel with
  | 0%nat => []
  | S fuel =>
      match chunk with
      | [] => []
      | _ => take (N.to_nat TRANSFER_CHUNK_BYTES) chunk
               :: pieces_go fuel (drop (N.to_nat TRANSFER_CHUNK_BYTES) chunk)
      end
  end.

(** The non-empty reads of a body: [StreamReader] skips empty chunks and never
    reads across two of them. *)
Definition reads (body : list bytes) : list bytes :=
  flat_map (λ chunk, pieces_go (length chunk) chunk) body.

(** The loop of [read_bytes] over the reads, the last of which finds the end
    or the error. *)
Fixpoint read_bytes_go (rs : list bytes) (failure : option string) (maximum_bytes total : N)
    : list HttpFrame * result unit HttpError :=
  match rs with
  | [] => ([], match failure with Some message => Err (transport_error message) | None => Ok tt end)
  | r :: rs =>
      match checked_add_u64 total (len r) with
      | None => ([], Err (HttpResourceExhausted "stream size overflow"))
      | Some total =>
          if maximum_bytes <? total
          then ([], Err (HttpResourceExhausted "stream response exceeds grant"))
          else let '(frames, fin) := read_bytes_go rs failure maximum_bytes total in
               (mkHttpFrame "bytes" r :: frames, fin)
      end
  end.
Definition read_bytes (response : Response) (maximum_bytes : N)
    : list HttpFrame * result unit HttpError :=
  read_bytes_go (reads (chunks response)) (failure response) maximum_bytes 0.

(** ** Server-sent events *)

Definition LF : Byte.byte := Byte.x0a.
Definition CR : Byte.byte := Byte.x0d.
Definition COLON : Byte.byte := Byte.x3a.
Definition SPACE : Byte.byte := Byte.x20.

(** [line.last() == Some(&byte)] then [line.pop()]. *)
Definition pop_byte (byte : Byte.byte) (line : bytes) : bytes :=
  match last line with
  | Some b => if bool_decide (b = byte) then removelast line else line
  | None => line
  end.
Definition trim_line_ending (line : bytes) : bytes := pop_byte CR (pop_byte LF line).

(** [slice.iter().position(..)] as a split: what is before the byte and what
    follows it. *)
Fixpoint split_at_byte (byte : Byte.byte) (line : bytes) : option (bytes * bytes) :=
  match line with
  | [] => None
  | b :: rest =>
      if bool_decide (b = byte) then Some ([], rest)
      else match split_at_byte byte rest with
           | Some (before, after) => Some (b :: before, after)
           | None => None
           end
  end.

Definition sse_field (line expected : bytes) : option bytes :=
  match split_at_byte COLON line with
  | Some (name, value) =>
      if bool_decide (name = expected)
      then Some (match value with
                 | b :: rest => if bool_decide (b = SPACE) then rest else value
                 | [] => value
                 end)
      else None
  | None => None
  end.

(** [read_until(b'\n')] over the whole body: the complete lines, each with its
    line feed, and what follows the last of them. *)
Fixpoint split_lines (body : bytes) : list bytes * bytes :=
  match body with
  | [] => ([], [])
  | b :: rest =>
      let '(lines, tail) := split_lines rest in
      if bool_decide (b = LF) then ([b] :: lines, tail)
      else match lines with
           | line :: lines => ((b :: line) :: lines, tail)
           | [] => ([], b :: tail)
           end
  end.

(** The non-empty reads of a body that ends, or fails after the bytes that
    arrived: an incomplete last line is then lost. *)
Definition sse_reads (response : Response) : list bytes :=
  let '(lines, tail) := split_lines (concat (chunks response)) in
  match failure response, tail with
  | Some _, _ | None, [] => lines
  | None, _ => lines ++ [tail]
  end.

(** [emit_sse_frame]: the frame handed over, when there is one. *)
Definition emit_sse_frame (event : string) (data : bytes) : list HttpFrame :=
  match data with
  | [] => []
  | _ => [mkHttpFrame event data]
  end.

Definition event_field : bytes := [Byte.x65; Byte.x76; Byte.x65; Byte.x6e; Byte.x74].
Definition data_field : bytes := [Byte.x64; Byte.x61; Byte.x74; Byte.x61].

(** [parse_sse] on the reads that are left. *)
Fixpoint parse_sse_go (rs : list bytes) (failure : option string) (maximum_bytes : N)
    (event : string) (data : bytes) (bytes_read : N) : list HttpFrame * result unit HttpError :=
  match rs with
  | [] =>
      match failure with
      | Some message => ([], Err (transport_error message))
      | None => (emit_sse_frame event data, Ok tt)
      end
  | line :: rs =>
      match checked_add_u64 bytes_read (len line) with
      | None => ([], Err (HttpResourceExhausted "stream size overflow"))
      | Some bytes_read =>
          if maximum_bytes <? bytes_read
          then ([], Err (HttpResourceExhausted "stream response exceeds grant"))
          else
            let line := trim_line_ending line in
            match line with
            | [] =>
                let '(frames, fin) :=
                  parse_sse_go rs failure maximum_bytes "message" [] bytes_read in
                (emit_sse_frame event data ++ frames, fin)
            | first :: _ =>
                if bool_decide (first = COLON)
                then parse_sse_go rs failure maximum_bytes event data bytes_read
                else match sse_field line event_field with
                     | Some value =>
                         match from_utf8 value with
                         | Some event => parse_sse_go rs failure maximum_bytes event data bytes_read
                         | None => ([], Err (HttpInvalid "SSE event name is not UTF-8"))
                         end
                     | None =>
                         match sse_field line data_field with
                         | Some value =>
                             parse_sse_go rs failure maximum_bytes event
                               ((match data with [] => [] | _ => data ++ [LF] end) ++ value)
                               bytes_read
                         | None => parse_sse_go rs failure maximum_bytes event data bytes_read
                         end
                     end
            end
      end
  end.
Definition parse_sse (response : Response) (maximum_bytes : N)
    : list HttpFrame * result unit HttpError :=
  parse_sse_go (sse_reads response) (failure response) maximum_bytes "message" [] 0.
