(* ===== verification/HttpHost.v ===== *)
(** The HTTP service a component talks to: [PolicyHttpService] of
    [pluribus-host-http/src/lib.rs], with the registry of its streams and the
    operations of the [HttpService] and [HttpStreamService] traits.

    A stream's worker runs beside the service and hands frames to a channel of
    32 places.  Its progress between two looks at the channel is the number of
    frames the surroundings let it hand over ([wk_moves]); the receiver is
    held for the whole of a [receive], so the operations on one stream follow
    each other.  A poisoned registry lock is not modelled. *)
From stdpp Require Import base tactics option list strings gmap.
From Stdlib Require Import NArith Ascii Lia.
From S2P Require Import Prelude Event Net Blob Delivery EventStore Stores Json HttpData HttpPolicy HttpBody.

Local Open Scope N_scope.

(** ** Streams *)

(** What a worker hands over: a frame, or the error it ends with. *)
Definition Item : Type := result HttpFrame HttpError.

(** [ActiveStream] with its channel: what the worker has still to hand over,
    what is in the channel, whether the worker has returned (and its sender is
    gone), and the [closed] flag. *)
Record ActiveStream : Type := mkActiveStream {
  owner : PrincipalRef;
  pending : list Item;
  queue : list Item;
  finished : bool;
  closed : bool;
}.

(** One step of the worker: [send] waits while the channel is full. *)
Definition worker_step (s : ActiveStream) : ActiveStream :=
  match pending s with
  | [] => mkActiveStream (owner s) [] (queue s) true (closed s)
  | i :: rest =>
      if (length (queue s) <? STREAM_QUEUE_FRAMES)%nat
      then mkActiveStream (owner s) rest (queue s ++ [i]) (finished s) (closed s)
      else s
  end.

Inductive Received : Type :=
| Got (i : Item)
| Empty
| Disconnected.

(** [receiver.try_recv()]. *)
Definition try_recv (s : ActiveStream) : Received * ActiveStream :=
  match queue s with
  | i :: rest => (Got i, mkActiveStream (owner s) (pending s) rest (finished s) (closed s))
  | [] => if finished s then (Disconnected, s) else (Empty, s)
  end.

Definition set_closed (s : ActiveStream) : ActiveStream :=
  mkActiveStream (owner s) (pending s) (queue s) (finished s) true.

(** The worker's progress before each look at the channel, by step. *)
Class Worker : Type := { wk_moves : nat → nat }.

Section receive.
Context `{Worker}.

(** A look at the channel after the worker has run. *)
Definition look (k : nat) (s : ActiveStream) : Received * ActiveStream :=
  try_recv (Nat.iter (wk_moves k) worker_step s).

(** The loop that fills a page with what the channel holds; [room] frames are
    still wanted. *)
Fixpoint fill (room : nat) (frames : list HttpFrame) (k : nat) (s : ActiveStream)
    : result HttpFramePage HttpError * nat * ActiveStream :=
  match room with
  | 0%nat => (Ok (mkHttpFramePage frames (closed s)), k, s)
  | S room =>
      if closed s then (Ok (mkHttpFramePage frames true), k, s)
      else match look k s with
           | (Got (Ok frame), s) => fill room (frames ++ [frame]) (S k) s
           | (Got (Err e), s) => (Err e, S k, s)
           | (Empty, s) => (Ok (mkHttpFramePage frames (closed s)), S k, s)
           | (Disconnected, s) => (Ok (mkHttpFramePage frames true), S k, set_closed s)
           end
  end.

(** [receive] on the stream itself: a first look, a wait when the channel is
    empty (the second look finds what arrived in time, if anything), and the
    rest of the page. *)
Definition receive_from (max_frames : N) (k : nat) (s : ActiveStream)
    : result HttpFramePage HttpError * nat * ActiveStream :=
  if closed s then (Ok (mkHttpFramePage [] true), k, s)
  else
    let '(first, k, s) :=
      match look k s with
      | (Empty, s) => let '(r, s) := look (S k) s in (r, S (S k), s)
      | (r, s) => (r, S k, s)
      end in
    match first with
    | Empty => (Ok (mkHttpFramePage [] false), k, s)
    | Got (Err e) => (Err e, k, s)
    | Got (Ok frame) => fill (N.to_nat max_frames - 1) [frame] k s
    | Disconnected => fill (N.to_nat max_frames) [] k (set_closed s)
    end.
End receive.

(** ** The service *)

Record PolicyHttpService `{HttpLib} (B : Type) : Type := mkPolicyHttpService {
  wire : Wire B;
  streams : gmap string ActiveStream;
  next_stream_id : N;
  looks : nat;
}.
Arguments mkPolicyHttpService {_ _} _ _ _ _.
Arguments wire {_ _} _.
Arguments streams {_ _} _.
Arguments next_stream_id {_ _} _.
Arguments looks {_ _} _.

Section service.
Context `{Network} `{Worker} `{SerdeJson} {B : Type} `{BlobStore B}.

Definition new (b : B) : PolicyHttpService B := mkPolicyHttpService (mkWire b 0 []) ∅ 1 0.

(** [HttpStreamService::with_body_store]: a service of its own. *)
Definition with_body_store (b : B) (_ : PolicyHttpService B) : option (PolicyHttpService B) :=
  Some (new b).

(** An operation of the service: [None] when it panics. *)
Definition SM (A : Type) : Type :=
  PolicyHttpService B → option (result A HttpError) * PolicyHttpService B.

Definition on_wire (w : Wire B) (s : PolicyHttpService B) : PolicyHttpService B :=
  mkPolicyHttpService w (streams s) (next_stream_id s) (looks s).

(** [HttpService::send]. *)
Definition send (grant : HttpGrant) (request : HttpRequest) : SM HttpResponse := λ s,
  match open_response grant request (wire s) with
  | (Some (Ok response), w) =>
      let '(res, b) := store_response response (max_response_bytes grant) (wire_blobs w) in
      (Some res, on_wire (mkWire b (step w) (HttpPolicy.sent w)) s)
  | (Some (Err e), w) => (Some (Err e), on_wire w s)
  | (None, w) => (None, on_wire w s)
  end.

(** What the spawned worker hands over before it returns. *)
Definition worker_items (protocol : HttpStreamProtocol) (response : Response) (maximum_bytes : N)
    : list Item :=
  let '(frames, fin) :=
    if decide (protocol = Bytes) then read_bytes response maximum_bytes
    else parse_sse response maximum_bytes in
  (Ok <$> frames) ++ match fin with Ok _ => [] | Err e => [Err e] end.

Definition stream_name (n : N) : string := "http-stream-" +:+ u64_to_string n.

Definition start_stream (grant : HttpGrant) (protocol : HttpStreamProtocol) (response : Response)
    (s : PolicyHttpService B) : result string HttpError * PolicyHttpService B :=
  if is_some_and (content_length response) (λ length, max_response_bytes grant <? length)
  then (Err (HttpResourceExhausted "stream response exceeds grant"), s)
  else
    let stream_id := stream_name (next_stream_id s) in
    (Ok stream_id,
     mkPolicyHttpService (wire s)
       (<[stream_id := mkActiveStream (component grant)
            (worker_items protocol response (max_response_bytes grant)) [] false false]> (streams s))
       ((next_stream_id s + 1) mod 2 ^ 64) (looks s)).

Definition start_response (grant : HttpGrant) (request : HttpRequest)
    : SM (option HttpStreamingResponse) := λ s,
  match open_response grant request (wire s) with
  | (Some (Ok response), w) =>
      let s := on_wire w s in
      if MAX_HEADER_BYTES <? header_bytes (shown_headers response)
      then (Some (Err (HttpResourceExhausted "response headers exceed 64 KiB")), s)
      else match start_stream grant Bytes response s with
           | (Ok stream_id, s) =>
               (Some (Ok (Some (mkHttpStreamingResponse (status response)
                                  (shown_headers response) stream_id))), s)
           | (Err e, s) => (Some (Err e), s)
           end
  | (Some (Err e), w) => (Some (Err e), on_wire w s)
  | (None, w) => (None, on_wire w s)
  end.

Definition open_stream (grant : HttpGrant) (protocol : HttpStreamProtocol) (request : HttpRequest)
    : SM string := λ s,
  if decide (protocol = WebSocket)
  then (Some (Err (HttpUnsupported "WebSocket transport is not implemented")), s)
  else
    match open_response grant request (wire s) with
    | (Some (Ok response), w) =>
        let s := on_wire w s in
        if negb (is_success (status response)) then
          let body := default [] (result_ok (limited_body response MAX_ERROR_BODY_BYTES)) in
          (Some (Err (stream_status_error (status response) body)), s)
        else let '(res, s) := start_stream grant protocol response s in (Some res, s)
    | (Some (Err e), w) => (Some (Err e), on_wire w s)
    | (None, w) => (None, on_wire w s)
    end.

Definition ensure_stream_owner (stream : ActiveStream) (grant : HttpGrant) : result unit HttpError :=
  if decide (owner stream = component grant) then Ok tt
  else Err (HttpPermissionDenied "stream belongs to another component").

(** The stream of a request, checked. *)
Definition owned_stream (grant : HttpGrant) (stream_id : string) (s : PolicyHttpService B)
    : result ActiveStream HttpError :=
  let? stream := ok_or (streams s !! stream_id) (HttpNotFound "stream") in
  try! ensure_stream_owner stream grant;
  Ok stream.

Definition receive (grant : HttpGrant) (stream_id : string) (max_frames timeout_ms : N)
    : SM HttpFramePage := λ s,
  if (max_frames =? 0) || (MAX_STREAM_FRAMES_PER_RECEIVE <? max_frames)
  then (Some (Err (HttpInvalid ("max frames must be between 1 and "
          +:+ u64_to_string MAX_STREAM_FRAMES_PER_RECEIVE))), s)
  else if max_timeout_ms grant <? timeout_ms
  then (Some (Err (HttpPermissionDenied "stream receive timeout exceeds grant")), s)
  else match owned_stream grant stream_id s with
       | Err e => (Some (Err e), s)
       | Ok stream =>
           let '(res, k, stream) := receive_from max_frames (looks s) stream in
           (Some res, mkPolicyHttpService (wire s) (<[stream_id := stream]> (streams s))
                        (next_stream_id s) k)
       end.

Definition send_frame (grant : HttpGrant) (stream_id : string) (_frame : HttpFrame) : SM unit := λ s,
  match owned_stream grant stream_id s with
  | Err e => (Some (Err e), s)
  | Ok _ => (Some (Err (HttpUnsupported "SSE streams are receive-only")), s)
  end.

Definition close_stream (grant : HttpGrant) (stream_id : string) (s : PolicyHttpService B)
    : PolicyHttpService B :=
  match streams s !! stream_id with
  | Some stream =>
      if decide (owner stream = component grant)
      then mkPolicyHttpService (wire s) (delete stream_id (streams s)) (next_stream_id s) (looks s)
      else s
  | None => s
  end.
End service.
