(* ===== verification/HttpHostSpec.v ===== *)
(** What the HTTP service promises a component: a stream's pages are its body,
    in order and within the grant, and a stream is out of reach of the other
    components. *)
From stdpp Require Import base tactics option list strings gmap.
From Stdlib Require Import NArith Ascii Lia.
From S2P Require Import Prelude Event Net Blob Delivery EventStore Stores Utf8 Json HttpData HttpPolicy HttpPolicySpec HttpBody HttpHost.

Local Open Scope N_scope.

(** ** One stream *)

(** What a stream has still to deliver. *)
Definition backlog (s : ActiveStream) : list Item := queue s ++ pending s.

Record stream_wf (s : ActiveStream) : Prop := {
  wf_queue : (length (queue s) ≤ STREAM_QUEUE_FRAMES)%nat;
  wf_finished : finished s = true → pending s = [];
  wf_closed : closed s = true → backlog s = [] ∧ finished s = true;
}.

(** The same stream, with [gone] no longer to be delivered. *)
Definition delivers (s : ActiveStream) (gone : list Item) (s' : ActiveStream) : Prop :=
  backlog s = gone ++ backlog s' ∧ stream_wf s' ∧ owner s' = owner s.

Lemma delivers_trans s a s1 b s2 : delivers s a s1 → delivers s1 b s2 → delivers s (a ++ b) s2.
Proof.
  intros (Hb & _ & Ho) (Hb' & Hw & Ho'). split_and!; [|done|congruence].
  by rewrite Hb, Hb', app_assoc.
Qed.

Lemma worker_step_delivers s : stream_wf s → delivers s [] (worker_step s) ∧
  closed (worker_step s) = closed s.
Proof.
  intros [Hq Hf Hc]. unfold worker_step, delivers, backlog in *. destruct s as [o p q f c]. simpl in *.
  destruct p as [|i p]; simpl; rewrite ?app_nil_r in *.
  { split_and!; try done. split; unfold backlog; simpl; rewrite ?app_nil_r; naive_solver. }
  destruct (Nat.ltb_spec (length q) STREAM_QUEUE_FRAMES) as [Hl|Hl]; simpl.
  - rewrite <- app_assoc. split_and!; try done. split; unfold backlog; simpl.
    + rewrite length_app. simpl. lia.
    + intros ->. by specialize (Hf eq_refl).
    + intros ->. destruct (Hc eq_refl) as [Hb _]. by destruct q.
  - by split_and!.
Qed.

Lemma worker_moves_deliver n s : stream_wf s → delivers s [] (Nat.iter n worker_step s) ∧
  closed (Nat.iter n worker_step s) = closed s.
Proof.
  intros Hw. induction n as [|n [IH IHc]]; simpl; [done|].
  destruct IH as (Hb & Hw' & Ho). destruct (worker_step_delivers _ Hw') as [Hd Hc].
  split; [|by rewrite Hc]. by apply (delivers_trans s [] (Nat.iter n worker_step s) []).
Qed.

Section stream.
Context `{Worker}.

(** What a look at the channel finds. *)
Lemma look_delivers k s r s' : stream_wf s → closed s = false → look k s = (r, s') →
  closed s' = false ∧
  match r with
  | Got i => delivers s [i] s'
  | Empty => delivers s [] s'
  | Disconnected => delivers s [] s' ∧ backlog s' = [] ∧ finished s' = true
  end.
Proof.
  intros Hw Hc Hl. destruct (worker_moves_deliver (wk_moves k) s Hw) as [(Hb & [Hq Hf Hcl] & Ho) Hc1].
  unfold look, try_recv in Hl. destruct (Nat.iter _ _ s) as [o p q f c]. simpl in *.
  rewrite Hc in Hc1. subst c o. unfold delivers, backlog in *. simpl in *.
  destruct q as [|i q].
  - destruct f; injection Hl as <- <-; simpl in *; split_and!; try done; try (by split).
    by apply Hf.
  - injection Hl as <- <-. simpl in *. split_and!; try done. split; simpl; [lia|done|done].
Qed.

Lemma closed_delivers s : stream_wf s → backlog s = [] → finished s = true →
  delivers s [] (set_closed s).
Proof. intros [Hq Hf Hc] Hb Hfin. split_and!; [done| |done]. by split. Qed.

(** What a page takes from a stream. *)
Definition page_of (s : ActiveStream) (n : nat) (frames : list HttpFrame)
    (res : result HttpFramePage HttpError) (s' : ActiveStream) : Prop :=
  match res with
  | Ok page => ∃ more, page_frames page = frames ++ more ∧ (length more ≤ n)%nat ∧
      page_closed page = closed s' ∧ delivers s (Ok <$> more) s'
  | Err e => ∃ more, delivers s ((Ok <$> more) ++ [Err e]) s'
  end.

Lemma page_more s i n frames res s1 s' : delivers s [Ok i] s1 →
  page_of s1 n (frames ++ [i]) res s' → page_of s (S n) frames res s'.
Proof.
  intros Hd. destruct res as [page|e]; simpl.
  - intros (more & Hf & Hn & Hc & Hd'). exists (i :: more). rewrite Hf, <- app_assoc.
    split_and!; [done|simpl; lia|done|]. by apply (delivers_trans _ [Ok i] s1).
  - intros (more & Hd'). exists (i :: more). by apply (delivers_trans _ [Ok i] s1).
Qed.

Lemma page_stop s s1 n frames c : delivers s [] s1 → closed s1 = c →
  page_of s n frames (Ok (mkHttpFramePage frames c)) s1.
Proof. intros Hd <-. exists []. rewrite app_nil_r. split_and!; simpl; [done|lia|done|done]. Qed.

Lemma delivers_refl s : stream_wf s → delivers s [] s.
Proof. by split. Qed.

Lemma fill_page room : ∀ frames k s res k' s', stream_wf s →
  fill room frames k s = (res, k', s') → page_of s room frames res s'.
Proof.
  induction room as [|room IH]; intros frames k s res k' s' Hw Hf; simpl in Hf.
  { injection Hf as <- _ <-. apply page_stop; [by apply delivers_refl|done]. }
  destruct (closed s) eqn:Ec.
  { injection Hf as <- _ <-. apply page_stop; [by apply delivers_refl|done]. }
  destruct (look k s) as [r s1] eqn:El. apply look_delivers in El as [Hc1 El]; [|done..].
  destruct r as [[frame|e]| |].
  - eapply page_more; [exact El|]. eapply IH; [apply El|exact Hf].
  - injection Hf as <- _ <-. by exists [].
  - injection Hf as <- _ <-. by apply page_stop.
  - injection Hf as <- _ <-. destruct El as (Hd & Hb & Hfin).
    apply page_stop; [|done]. eapply (delivers_trans _ [] s1 []); [done|].
    apply closed_delivers; [apply Hd|done|done].
Qed.

(** A page holds the next frames, at most as many as were asked for. *)
Lemma receive_page n k s res k' s' : stream_wf s → 0 < n →
  receive_from n k s = (res, k', s') → page_of s (N.to_nat n) [] res s'.
Proof.
  intros Hw Hn Hr. unfold receive_from in Hr. destruct (closed s) eqn:Ec.
  { injection Hr as <- _ <-. apply page_stop; [by apply delivers_refl|done]. }
  destruct (look k s) as [r s1] eqn:El. apply look_delivers in El as [Hc1 El]; [|done..].
  assert (∃ r' k2 s2, delivers s match r' with Got i => [i] | _ => [] end s2 ∧ closed s2 = false ∧
    (r' = Disconnected → backlog s2 = [] ∧ finished s2 = true) ∧
    match r' with
    | Empty => (Ok (mkHttpFramePage [] false), k2, s2)
    | Got (Err e) => (Err e, k2, s2)
    | Got (Ok frame) => fill (N.to_nat n - 1) [frame] k2 s2
    | Disconnected => fill (N.to_nat n) [] k2 (set_closed s2)
    end = (res, k', s')) as (r' & k2 & s2 & Hd & Hc2 & Hdis & Hfin).
  { destruct r as [i| |]; [exists (Got i), (S k), s1; by split_and!| |exists Disconnected, (S k), s1; by destruct El as (? & ? & ?)].
    destruct (look (S k) s1) as [r2 s2] eqn:El2. apply look_delivers in El2 as [Hc2 El2]; [|apply El|done].
    exists r2, (S (S k)), s2. split_and!; [|done|by intros ->; naive_solver|done].
    destruct r2 as [i| |]; [by apply (delivers_trans _ [] s1 [i])|by apply (delivers_trans _ [] s1 [])|].
    apply (delivers_trans _ [] s1 []); [done|apply El2]. }
  destruct r' as [[frame|e]| |].
  - replace (N.to_nat n) with (S (N.to_nat n - 1)) by lia. eapply page_more; [exact Hd|].
    eapply fill_page; [apply Hd|exact Hfin].
  - injection Hfin as <- _ <-. by exists [].
  - injection Hfin as <- _ <-. by apply page_stop.
  - destruct (Hdis eq_refl) as [Hb Hf]. assert (delivers s [] (set_closed s2)) as Hd'.
    { apply (delivers_trans _ [] s2 []); [done|]. apply closed_delivers; [apply Hd|done|done]. }
    apply fill_page in Hfin; [|apply Hd']. destruct res as [page|e]; simpl in *.
    + destruct Hfin as (more & Hp & Hl & Hc & Hd2). exists more. split_and!; [done..|].
      by apply (delivers_trans _ [] (set_closed s2)).
    + destruct Hfin as (more & Hd2). exists more. by apply (delivers_trans _ [] (set_closed s2)).
Qed.

Lemma receive_keeps n k s res k' s' : stream_wf s → 0 < n →
  receive_from n k s = (res, k', s') → stream_wf s' ∧ owner s' = owner s.
Proof.
  intros Hw Hn Hr%receive_page; [|done..].
  destruct res as [page|e]; [destruct Hr as (? & _ & _ & _ & Hd)|destruct Hr as (? & Hd)]; apply Hd.
Qed.
End stream.

(** ** What a worker hands over *)

Lemma pieces_concat fuel : ∀ chunk, (length chunk ≤ fuel)%nat → concat (pieces_go fuel chunk) = chunk.
Proof.
  induction fuel as [|fuel IH]; intros chunk Hl; [by destruct chunk; simpl in *; [|lia]|].
  cbn [pieces_go]. destruct chunk as [|b chunk]; [done|]. cbn [concat].
  rewrite IH; [apply take_drop|]. rewrite length_drop. cbn [length] in *.
  assert (0 < TRANSFER_CHUNK_BYTES) by done. lia.
Qed.

Lemma reads_concat body : concat (reads body) = concat body.
Proof.
  induction body as [|chunk body IH]; [done|]. unfold reads in *. simpl.
  rewrite concat_app, pieces_concat by lia. by rewrite IH.
Qed.

(** The frames of a byte stream are its body's bytes, up to the limit; the
    stream ends without an error exactly when the body is whole. *)
Lemma read_bytes_go_spec rs failure maximum : ∀ total frames fin, total ≤ maximum →
  read_bytes_go rs failure maximum total = (frames, fin) →
  concat (frame_data <$> frames) `prefix_of` concat rs ∧
  total + len (concat (frame_data <$> frames)) ≤ maximum ∧
  (fin = Ok tt → failure = None ∧ concat (frame_data <$> frames) = concat rs).
Proof.
  induction rs as [|r rs IH]; intros total frames fin Ht Hr; simpl in Hr.
  { injection Hr as <- <-. simpl. unfold len. split_and!; [done|simpl; lia|by destruct failure]. }
  destruct (checked_add_u64 total (len r)) as [total'|] eqn:Ea.
  2: { injection Hr as <- <-. simpl. split_and!; [apply prefix_nil|unfold len; simpl; lia|done]. }
  apply checked_add_u64_spec in Ea as [-> _].
  destruct (N.ltb_spec maximum (total + len r)) as [Hm|Hm].
  { injection Hr as <- <-. simpl. split_and!; [apply prefix_nil|unfold len; simpl; lia|done]. }
  destruct (read_bytes_go rs failure maximum (total + len r)) as [fs f] eqn:Er. injection Hr as <- <-.
  destruct (IH _ _ _ Hm Er) as (Hp & Hl & Hf). csimpl. rewrite len_app. split_and!.
  - by apply prefix_app.
  - lia.
  - intros ->. destruct (Hf eq_refl) as [-> ->]. done.
Qed.

Lemma read_bytes_spec response maximum frames fin :
  read_bytes response maximum = (frames, fin) →
  concat (frame_data <$> frames) `prefix_of` concat (chunks response) ∧
  len (concat (frame_data <$> frames)) ≤ maximum ∧
  (fin = Ok tt → failure response = None ∧ concat (frame_data <$> frames) = concat (chunks response)).
Proof.
  intros Hr. apply read_bytes_go_spec in Hr; [|lia]. by rewrite reads_concat, N.add_0_l in Hr.
Qed.

(** A worker hands over frames and at most one error, at the end. *)
Definition items_of (frames : list HttpFrame) (fin : result unit HttpError) : list Item :=
  (Ok <$> frames) ++ match fin with Ok _ => [] | Err e => [Err e] end.

Lemma error_last frames fin more e rest :
  items_of frames fin = (Ok <$> more) ++ Err e :: rest → rest = [].
Proof.
  unfold items_of. revert more. induction frames as [|f frames IH]; intros [|m more] He; simpl in *.
  - destruct fin; [done|]. by injection He.
  - destruct fin; done.
  - done.
  - injection He as _ He. by eapply IH.
Qed.

Lemma ok_prefix frames fin more rest :
  items_of frames fin = (Ok <$> more) ++ rest → more `prefix_of` frames.
Proof.
  unfold items_of. revert more. induction frames as [|f frames IH]; intros [|m more] He; simpl in *;
    [apply prefix_nil|by destruct fin|apply prefix_nil|].
  injection He as -> He. by apply prefix_cons, (IH more).
Qed.

Lemma ok_whole frames fin more : items_of frames fin = Ok <$> more → frames = more ∧ fin = Ok tt.
Proof.
  unfold items_of. revert more. induction frames as [|f frames IH]; intros [|m more] He; simpl in *.
  - by destruct fin as [[]|].
  - by destruct fin.
  - done.
  - injection He as -> He. by destruct (IH more He) as [-> ->].
Qed.

(** ** The service *)

Section service.
Context `{Network} `{Worker} `{SerdeJson} {B : Type} `{BlobStore B}.

(** The operations of the service, each under the grant of the component that
    calls. *)
Inductive http_op : Type :=
| OpSend (grant : HttpGrant) (request : HttpRequest)
| OpStart (grant : HttpGrant) (request : HttpRequest)
| OpOpen (grant : HttpGrant) (protocol : HttpStreamProtocol) (request : HttpRequest)
| OpReceive (grant : HttpGrant) (stream_id : string) (max_frames timeout_ms : N)
| OpSendFrame (grant : HttpGrant) (stream_id : string) (frame : HttpFrame)
| OpClose (grant : HttpGrant) (stream_id : string).

Definition caller (op : http_op) : PrincipalRef :=
  match op with
  | OpSend grant _ | OpStart grant _ | OpOpen grant _ _ | OpReceive grant _ _ _
  | OpSendFrame grant _ _ | OpClose grant _ => component grant
  end.

(** What [receive] answered, of an operation that is one. *)
Definition run_op (op : http_op) (s : PolicyHttpService B)
    : option (result HttpFramePage HttpError) * PolicyHttpService B :=
  match op with
  | OpSend grant request => (None, (send grant request s).2)
  | OpStart grant request => (None, (start_response grant request s).2)
  | OpOpen grant protocol request => (None, (open_stream grant protocol request s).2)
  | OpReceive grant stream_id max_frames timeout_ms =>
      receive grant stream_id max_frames timeout_ms s
  | OpSendFrame grant stream_id frame => (None, (send_frame grant stream_id frame s).2)
  | OpClose grant stream_id => (None, close_stream grant stream_id s)
  end.

(** The identifiers in use were given out before, and will not be again. *)
Definition service_wf (s : PolicyHttpService B) : Prop :=
  next_stream_id s ≤ u64_max ∧
  ∀ id st, streams s !! id = Some st → stream_wf st ∧ ∃ n, id = stream_name n ∧ n < next_stream_id s.

Lemma stream_name_inj a b : a ≤ u64_max → b ≤ u64_max → stream_name a = stream_name b → a = b.
Proof. intros Ha Hb Hn. apply append_inj_l in Hn. by apply u64_to_string_inj. Qed.

Lemma fresh_stream s : service_wf s → streams s !! stream_name (next_stream_id s) = None.
Proof.
  intros [Hn Hs]. destruct (streams s !! _) as [st|] eqn:E; [|done].
  apply Hs in E as (_ & n & Hid & Hlt). apply stream_name_inj in Hid; [lia|lia|lia].
Qed.

(** How one operation changes the registry: a new stream of the caller under a
    fresh identifier, progress on one of the caller's own, its removal, or
    nothing; only the second answers with a page. *)
Inductive registry_step (op : http_op) (a : option (result HttpFramePage HttpError))
    (s s' : PolicyHttpService B) : Prop :=
| reg_same : (∀ page, a ≠ Some (Ok page)) →
    streams s' = streams s → next_stream_id s' = next_stream_id s → registry_step op a s s'
| reg_start items : a = None →
    streams s' = <[stream_name (next_stream_id s)
                   := mkActiveStream (caller op) items [] false false]> (streams s) →
    next_stream_id s' = (next_stream_id s + 1) mod 2 ^ 64 → registry_step op a s s'
| reg_receive grant id n t st st' k k' r : op = OpReceive grant id n t → a = Some r →
    streams s !! id = Some st → owner st = component grant →
    receive_from n k st = (r, k', st') → 0 < n →
    streams s' = <[id := st']> (streams s) → next_stream_id s' = next_stream_id s →
    registry_step op a s s'
| reg_close id st : a = None → streams s !! id = Some st → owner st = caller op →
    streams s' = delete id (streams s) → next_stream_id s' = next_stream_id s →
    registry_step op a s s'.

Lemma start_stream_registry op grant protocol response s : caller op = component grant →
  registry_step op None s (start_stream grant protocol response s).2.
Proof.
  intros Hc. unfold start_stream. destruct (is_some_and _ _); [by apply reg_same|].
  eapply reg_start; simpl; by rewrite ?Hc.
Qed.

(** Only the wire's state differs. *)
Lemma registry_wire op a w s s' : registry_step op a (on_wire w s) s' → registry_step op a s s'.
Proof.
  destruct 1; [by apply reg_same|by eapply reg_start|by eapply reg_receive|by eapply reg_close].
Qed.

Lemma owned_stream_ok grant id (s : PolicyHttpService B) st : owned_stream grant id s = Ok st →
  streams s !! id = Some st ∧ owner st = component grant.
Proof.
  unfold owned_stream, ensure_stream_owner. intros Ho.
  apply result_bind_ok in Ho as (st' & Hs & Ho). apply ok_or_ok in Hs.
  apply result_bind_ok in Ho as ([] & Hd & [= ->]). by destruct (decide _).
Qed.

Lemma run_op_registry op (s : PolicyHttpService B) : registry_step op (run_op op s).1 s (run_op op s).2.
Proof.
  destruct op as [grant request|grant request|grant protocol request|grant id n t|grant id f|grant id]; simpl.
  - unfold send. destruct (open_response _ _ _) as [[[response|e]|] w]; [|by apply reg_same..].
    destruct (store_response _ _ _) as [res b]. by apply reg_same.
  - unfold start_response. destruct (open_response _ _ _) as [[[response|e]|] w]; [|by apply reg_same..].
    destruct (_ <? _); [by apply reg_same|]. eapply registry_wire.
    pose proof (start_stream_registry (OpStart grant request) grant Bytes response (on_wire w s) eq_refl) as Hr.
    destruct (start_stream _ _ _ _) as [[id|e] s1]; exact Hr.
  - unfold open_stream. destruct (decide _); [by apply reg_same|].
    destruct (open_response _ _ _) as [[[response|e]|] w]; [|by apply reg_same..].
    destruct (negb _); [by apply reg_same|]. eapply registry_wire.
    pose proof (start_stream_registry (OpOpen grant protocol request) grant protocol response
                  (on_wire w s) eq_refl) as Hr.
    destruct (start_stream _ _ _ _) as [res s1]; exact Hr.
  - unfold receive. destruct (_ || _) eqn:En; [by apply reg_same|].
    destruct (max_timeout_ms grant <? t); [by apply reg_same|].
    destruct (owned_stream grant id s) as [st|e] eqn:Eo; [|by apply reg_same].
    apply owned_stream_ok in Eo as [Hs Ho].
    destruct (receive_from n (looks s) st) as [[r k] st'] eqn:Er.
    apply orb_false_iff in En as [En _]. apply N.eqb_neq in En.
    eapply reg_receive; [done|done|exact Hs|exact Ho|exact Er|lia|done|done].
  - unfold send_frame. destruct (owned_stream _ _ _); by apply reg_same.
  - unfold close_stream. destruct (streams s !! id) as [st|] eqn:Es; [|by apply reg_same].
    destruct (decide _); [by eapply reg_close|by apply reg_same].
Qed.

(** Every operation keeps the registry well formed. *)
Lemma registry_step_wf op a s s' : registry_step op a s s' → service_wf s →
  next_stream_id s < u64_max →
  service_wf s' ∧ next_stream_id s ≤ next_stream_id s' ≤ next_stream_id s + 1.
Proof.
  intros Hr [Hn Hs] Hlt.
  destruct Hr as [_ Hst Hnx|items _ Hst Hnx|grant id n t st st' k k' r _ _ Hid Ho Hrec Hpos Hst Hnx
                 |id st _ Hid Ho Hst Hnx].
  - split; [|lia]. split; [lia|]. rewrite Hst, Hnx. done.
  - rewrite N.mod_small in Hnx by (unfold u64_max in *; lia). split; [|lia]. split; [lia|].
    intros id st. rewrite Hst, Hnx. intros [[<- <-]|[_ Hl]]%lookup_insert_Some.
    + split; [split; simpl; [lia|done..]|]. exists (next_stream_id s). split; [done|lia].
    + destruct (Hs id st Hl) as (? & m & ? & ?). split; [done|]. exists m. split; [done|lia].
  - split; [|lia]. split; [lia|]. intros id' st''. rewrite Hst, Hnx.
    intros [[<- <-]|[_ Hl]]%lookup_insert_Some; [|by apply Hs].
    destruct (Hs id st Hid) as (Hw & Hnm). split; [|done].
    by apply receive_keeps in Hrec as [? _].
  - split; [|lia]. split; [lia|]. intros id' st'. rewrite Hst, Hnx.
    intros [_ Hl]%lookup_delete_Some. by apply Hs.
Qed.

(** ** A stream among the operations of every component *)

(** The operations in order, with what the receives among them answered. *)
Fixpoint run (ops : list http_op) (s : PolicyHttpService B)
    : list (http_op * option (result HttpFramePage HttpError)) * PolicyHttpService B :=
  match ops with
  | [] => ([], s)
  | op :: ops =>
      let '(a, s) := run_op op s in
      let '(log, s) := run ops s in
      ((op, a) :: log, s)
  end.

(** The answers to a component's receives on a stream, and to the receives of
    the others. *)
Definition page_on (p : PrincipalRef → bool) (id : string)
    (x : http_op * option (result HttpFramePage HttpError)) : option (result HttpFramePage HttpError) :=
  match x with
  | (OpReceive grant id' _ _, a) => if p (component grant) && String.eqb id' id then a else None
  | _ => None
  end.
Definition own (c c' : PrincipalRef) : bool := bool_decide (c' = c).
Definition foreign (c c' : PrincipalRef) : bool := negb (own c c').

Definition frames_in (pages : list (result HttpFramePage HttpError)) : list HttpFrame :=
  concat (page_frames <$> omap result_ok pages).

(** Where a stream stands after part of its frames have been delivered:
    [failed] when its owner was answered an error, [seen] when its owner was
    answered that it is closed. *)
Record tracked (c : PrincipalRef) (id : string) (frames : list HttpFrame) (fin : result unit HttpError)
    (delivered : list HttpFrame) (failed seen : bool) (s : PolicyHttpService B) : Prop := {
  tr_wf : service_wf s;
  tr_id : ∃ n, id = stream_name n ∧ n < next_stream_id s;
  tr_prefix : delivered `prefix_of` frames;
  tr_left : ∀ st, streams s !! id = Some st → owner st = c ∧
    (items_of frames fin = (Ok <$> delivered) ++ backlog st ∨ failed = true ∧ backlog st = []);
  tr_seen : seen = true → failed = false → delivered = frames ∧ fin = Ok tt;
}.

(** An operation that is not a receive of the owner leaves the stream as it
    is, or removes it. *)
Lemma tracked_other c id frames fin d failed seen op a s s' :
  tracked c id frames fin d failed seen s → registry_step op a s s' → next_stream_id s < u64_max →
  page_on (own c) id (op, a) = None →
  tracked c id frames fin d failed seen s'.
Proof.
  intros [Hwf (m & Hid & Hm) Hp Hl Hsn] Hr Hlt Hnone.
  destruct (registry_step_wf _ _ _ _ Hr Hwf Hlt) as [Hwf' Hnx].
  split; [done|exists m; split; [done|lia]|done| |done]. intros st Hst.
  destruct Hr as [_ Hs _|items _ Hs _|grant id' n t st1 st' k k' r -> -> Hid' Ho _ _ Hs _|id' st1 _ Hid' Ho Hs _].
  - apply Hl. by rewrite <- Hs.
  - apply Hl. rewrite Hs in Hst. apply lookup_insert_Some in Hst as [[He _]|[_ Hst]]; [|done].
    rewrite Hid in He. apply stream_name_inj in He; [lia|lia|]. destruct Hwf. lia.
  - apply Hl. rewrite Hs in Hst. apply lookup_insert_Some in Hst as [[He _]|[_ Hst]]; [|done].
    subst id'. destruct (Hl st1 Hid') as [Hc _]. simpl in Hnone.
    rewrite String.eqb_refl in Hnone. unfold own in Hnone.
    rewrite bool_decide_true in Hnone by congruence. done.
  - apply Hl. rewrite Hs in Hst. by apply lookup_delete_Some in Hst as [_ Hst].
Qed.

(** A receive of the owner. *)
Lemma tracked_own c id frames fin d failed seen op a s s' r :
  tracked c id frames fin d failed seen s → registry_step op a s s' → next_stream_id s < u64_max →
  page_on (own c) id (op, a) = Some r →
  match r with
  | Ok page => tracked c id frames fin (d ++ page_frames page) failed (page_closed page || seen) s'
  | Err _ => tracked c id frames fin d true seen s'
  end.
Proof.
  intros [Hwf (m & Hid & Hm) Hp Hl Hsn] Hr Hlt Hsome.
  destruct (registry_step_wf _ _ _ _ Hr Hwf Hlt) as [Hwf' Hnx].
  assert (∃ m', id = stream_name m' ∧ m' < next_stream_id s') as Hid' by (exists m; split; [done|lia]).
  destruct op as [| | |grant id1 n1 t1| |]; try done. simpl in Hsome.
  destruct (own c (component grant) && String.eqb id1 id) eqn:Eo; [|done].
  apply andb_true_iff in Eo as [_ Eo]. apply String.eqb_eq in Eo as ->. subst a.
  destruct Hr as [Ha Hs _|items ? _ _|grant' id' n t st st' k k' r' Hop Hr' Hst Ho Hrec Hpos Hs _|id' st ? _ _ _]; try done.
  - destruct r as [page|e]; [by destruct (Ha page)|]. split; try done. rewrite Hs.
    intros st Hst. destruct (Hl st Hst) as [? [?|[_ ?]]]; auto.
  - injection Hop as <- <- <- <-. injection Hr' as <-. destruct (Hl st Hst) as [Hc Hcase].
    assert (stream_wf st) as Hw by (by apply (proj2 Hwf id)).
    pose proof (receive_page n1 k st r k' st' Hw Hpos Hrec) as Hpage. destruct r as [page|e]; simpl in Hpage.
    + destruct Hpage as (more & Hf & _ & Hcl & Hb & Hw' & Ho'). simpl in Hf. rewrite Hf.
      assert (items_of frames fin = (Ok <$> d ++ more) ++ backlog st' ∨ failed = true ∧ backlog st' = [] ∧ more = []) as Hcase'.
      { destruct Hcase as [Hi|[-> Hnil]].
        - left. rewrite Hi, Hb, fmap_app, <- app_assoc. done.
        - right. rewrite Hnil in Hb. symmetry in Hb. apply app_nil in Hb as [Hm0 ->].
          apply fmap_nil_inv in Hm0 as ->. done. }
      split; [done|done| | |].
      * destruct Hcase' as [Hi|(_ & _ & ->)]; [by eapply ok_prefix|by rewrite app_nil_r].
      * rewrite Hs. intros st2 Hst2. rewrite lookup_insert_eq in Hst2. injection Hst2 as <-. split; [congruence|].
        destruct Hcase' as [Hi|(-> & -> & _)]; [by left|by right].
      * intros Hseen ->. destruct Hcase' as [Hi|(? & _)]; [|done].
        apply orb_true_iff in Hseen as [Hseen|Hseen].
        -- rewrite Hcl in Hseen. destruct (wf_closed _ Hw' Hseen) as [Hnil _].
           rewrite Hnil, app_nil_r in Hi. by apply ok_whole in Hi as [-> ->].
        -- destruct (Hsn Hseen eq_refl) as [-> ->]. split; [|done].
           apply ok_prefix in Hi. apply prefix_length in Hi. rewrite length_app in Hi.
           destruct more; [apply app_nil_r|simpl in Hi; lia].
    + destruct Hpage as (more & Hb & Hw' & Ho'). split; try done. rewrite Hs. intros st2 Hst2.
      rewrite lookup_insert_eq in Hst2. injection Hst2 as <-. split; [congruence|]. right. split; [done|].
      destruct Hcase as [Hi|[_ Hnil]].
      * rewrite Hb in Hi. rewrite <- app_assoc, app_assoc, <- fmap_app in Hi. by eapply error_last.
      * rewrite Hb in Hnil. by destruct more.
Qed.

Lemma omap_unfold {X Y} (f : X → option Y) x l :
  omap f (x :: l) = match f x with Some y => y :: omap f l | None => omap f l end.
Proof. done. Qed.

Lemma frames_in_cons r pages :
  frames_in (r :: pages) = match r with Ok page => page_frames page | Err _ => [] end ++ frames_in pages.
Proof. by destruct r. Qed.

(** A whole run, from any point. *)
Lemma tracked_run c id frames fin ops : ∀ d failed seen s log s',
  tracked c id frames fin d failed seen s → next_stream_id s + len ops ≤ u64_max →
  run ops s = (log, s') →
  let pages := omap (page_on (own c) id) log in
  ∃ failed' seen', tracked c id frames fin (d ++ frames_in pages) failed' seen' s' ∧
    (failed' = true → failed = true ∨ ∃ e, Err e ∈ pages) ∧
    ((seen = true ∨ ∃ page, Ok page ∈ pages ∧ page_closed page = true) → seen' = true).
Proof.
  induction ops as [|op ops IH]; intros d failed seen s log s' Ht Hn Hr; simpl in Hr.
  { injection Hr as <- <-. exists failed, seen. unfold frames_in. csimpl. rewrite app_nil_r.
    split_and!; [done|by left|]. intros [?|(page & Hin & _)]; [done|by apply not_elem_of_nil in Hin]. }
  destruct (run_op op s) as [a s1] eqn:Ea. destruct (run ops s1) as [log1 s2] eqn:Er.
  injection Hr as <- <-. pose proof (run_op_registry op s) as Hreg. rewrite Ea in Hreg. simpl in Hreg.
  assert (next_stream_id s < u64_max) as Hlt by (unfold len in Hn; simpl in Hn; lia).
  destruct (registry_step_wf _ _ _ _ Hreg (tr_wf _ _ _ _ _ _ _ _ Ht) Hlt) as [_ Hnx].
  assert (next_stream_id s1 + len ops ≤ u64_max) as Hn1 by (unfold len in *; simpl in Hn; lia).
  cbv zeta. rewrite omap_unfold. destruct (page_on (own c) id (op, a)) as [r|] eqn:Ep.
  2: { eapply IH; [eapply tracked_other; eauto|done|done]. }
  pose proof (tracked_own _ _ _ _ _ _ _ _ _ _ _ r Ht Hreg Hlt Ep) as Ht'. rewrite frames_in_cons.
  destruct r as [page|e]; (edestruct IH as (f' & sn' & Ht2 & Hf & Hs); [exact Ht'|exact Hn1|exact Er|]);
    exists f', sn'; [rewrite app_assoc|]; split_and!; try done.
  - intros Hf'. destruct (Hf Hf') as [?|[e He]]; [by left|]. right. exists e. by right.
  - intros [Hseen|(page' & Hin & Hcl)]; apply Hs; [left; by rewrite Hseen, orb_true_r|].
    apply elem_of_cons in Hin as [[= ->]|Hin]; [left; by rewrite Hcl|eauto].
  - intros _. right. exists e. left.
  - intros [Hseen|(page' & Hin & Hcl)]; apply Hs; [by left|].
    apply elem_of_cons in Hin as [?|Hin]; [done|eauto].
Qed.

(** A stream that has just been started. *)
Lemma tracked_start grant protocol response s id s' frames fin :
  service_wf s → next_stream_id s < u64_max →
  start_stream grant protocol response s = (Ok id, s') →
  (if decide (protocol = Bytes) then read_bytes response (max_response_bytes grant)
   else parse_sse response (max_response_bytes grant)) = (frames, fin) →
  tracked (component grant) id frames fin [] false false s' ∧
  next_stream_id s' = next_stream_id s + 1.
Proof.
  intros [Hn Hs] Hlt Hst Hw. unfold start_stream, worker_items in Hst.
  destruct (is_some_and _ _); [done|]. rewrite Hw in Hst. injection Hst as <- <-.
  assert ((next_stream_id s + 1) mod 2 ^ 64 = next_stream_id s + 1) as Hmod
    by (apply N.mod_small; unfold u64_max in *; lia).
  split; [|done]. split; cbn [streams next_stream_id]; rewrite ?Hmod; [|by exists (next_stream_id s); split; [|lia]|apply prefix_nil| |done].
  - split; cbn [streams next_stream_id]; rewrite ?Hmod; [lia|]. intros id st [[<- <-]|[_ Hl]]%lookup_insert_Some.
    + split; [split; simpl; [lia|done..]|]. exists (next_stream_id s). split; [done|lia].
    + destruct (Hs id st Hl) as (? & m & ? & ?). split; [done|]. exists m. split; [done|lia].
  - intros st Hst. rewrite lookup_insert_eq in Hst. injection Hst as <-. split; [done|]. by left.
Qed.

(** A receive on another component's stream answers an error. *)
Lemma foreign_page c id ops : ∀ s log s' r, service_wf s → next_stream_id s + len ops ≤ u64_max →
  (∃ n, id = stream_name n ∧ n < next_stream_id s) →
  (∀ st, streams s !! id = Some st → owner st = c) →
  run ops s = (log, s') → Some r ∈ (page_on (foreign c) id <$> log) → ∃ e, r = Err e.
Proof.
  induction ops as [|op ops IH]; intros s log s' r Hwf Hn Hid Hown Hr Hin; simpl in Hr.
  { injection Hr as <- <-. by apply not_elem_of_nil in Hin. }
  destruct (run_op op s) as [a s1] eqn:Ea. destruct (run ops s1) as [log1 s2] eqn:Er.
  injection Hr as <- <-. pose proof (run_op_registry op s) as Hreg. rewrite Ea in Hreg. simpl in Hreg.
  assert (next_stream_id s < u64_max) as Hlt by (unfold len in Hn; simpl in Hn; lia).
  destruct (registry_step_wf _ _ _ _ Hreg Hwf Hlt) as [Hwf' Hnx].
  rewrite fmap_cons in Hin. apply elem_of_cons in Hin as [Hin|Hin].
  - destruct op as [| | |grant id1 n1 t1| |]; try done. simpl in Hin.
    destruct (foreign c (component grant) && String.eqb id1 id) eqn:Eo; [|done]. subst a.
    apply andb_true_iff in Eo as [Ef Eo]. apply String.eqb_eq in Eo as ->.
    unfold foreign, own in Ef. apply negb_true_iff, bool_decide_eq_false in Ef.
    destruct Hreg as [Ha _ _|? ? _ _|grant' id' n t st1 st' k k' r' Hop _ Hst Ho _ _ _ _|? ? ? _ _ _]; try done.
    + destruct r as [page|e]; [by destruct (Ha page)|by eauto].
    + injection Hop as <- <- <- <-. destruct Ef. rewrite <- Ho. by apply Hown.
  - eapply (IH s1); [done| | | |exact Er|exact Hin].
    + unfold len in *. simpl in Hn. lia.
    + destruct Hid as (m & ? & ?). exists m. split; [done|lia].
    + intros st1 Hst. destruct Hid as (m & Hid & Hm).
      destruct Hreg as [_ Hs _|items _ Hs _|grant id' n t st2 st' k k' r' -> -> Hid' Ho Hrec Hpos Hs _|id' st2 _ _ _ Hs _];
        rewrite Hs in Hst; [by apply Hown| | |by apply lookup_delete_Some in Hst as [_ Hst]; apply Hown].
      * apply lookup_insert_Some in Hst as [[He _]|[_ Hst]]; [|by apply Hown].
        rewrite Hid in He. apply stream_name_inj in He; [lia|lia|]. destruct Hwf. lia.
      * apply lookup_insert_Some in Hst as [[-> <-]|[_ Hst]]; [|by apply Hown].
        rewrite <- (Hown st2 Hid').
        apply receive_keeps in Hrec as [_ ->]; [done|by apply (proj2 Hwf id)|done].
Qed.

(** (C15) A byte stream is the body it was opened on.  After a stream has been
    started for a component, let every component of the agent call the service
    in any order, the stream's worker running at any pace: what the owner has
    received so far is a prefix of the response's body and within the grant;
    when it has been told that the stream is closed and was never answered an
    error, it has received the whole body and the transport had not failed;
    and a component that does not own the stream is only ever answered
    errors. *)
Theorem byte_stream_exact grant response s id s1 ops log s2
    (Hwf : service_wf s)
    (Hids : next_stream_id s + len ops < u64_max)
    (Hstart : start_stream grant Bytes response s = (Ok id, s1))
    (Hrun : run ops s1 = (log, s2)) :
  let pages := omap (page_on (own (component grant)) id) log in
  let received := concat (frame_data <$> frames_in pages) in
  received `prefix_of` concat (chunks response) ∧
  len received ≤ max_response_bytes grant ∧
  ((∀ e, Err e ∉ pages) → (∃ page, Ok page ∈ pages ∧ page_closed page = true) →
   failure response = None ∧ received = concat (chunks response)) ∧
  (∀ r, Some r ∈ (page_on (foreign (component grant)) id <$> log) → ∃ e, r = Err e).
Proof.
  destruct (read_bytes response (max_response_bytes grant)) as [frames fin] eqn:Er.
  destruct (tracked_start grant Bytes response s id s1 frames fin) as [Ht Hn]; [done|lia|done|done|].
  destruct (read_bytes_spec _ _ _ _ Er) as (Hp & Hl & Hf).
  assert (next_stream_id s1 + len ops ≤ u64_max) as Hn1 by lia.
  destruct (tracked_run _ _ _ _ _ _ _ _ _ _ _ Ht Hn1 Hrun) as (f' & sn' & Ht' & Hfail & Hseen).
  cbv zeta in *. set (pages := omap _ log) in *. destruct (tr_prefix _ _ _ _ _ _ _ _ Ht') as [rest ->].
  rewrite app_nil_l, !fmap_app, !concat_app, !len_app in *. split_and!.
  - etrans; [by apply prefix_app_r|done].
  - lia.
  - intros Hno Hclosed. assert (sn' = true) as -> by auto.
    assert (f' = false) as -> by (destruct f'; [|done]; destruct (Hfail eq_refl) as [?|[e He]]; [done|by destruct (Hno e)]).
    destruct (tr_seen _ _ _ _ _ _ _ _ Ht' eq_refl eq_refl) as [Hd ->].
    destruct (Hf eq_refl) as [-> <-]. split; [done|].
    assert (rest = []) as -> by (apply (app_inv_head (frames_in pages)); by rewrite app_nil_r).
    by rewrite app_nil_r.
  - intros r Hr. eapply (foreign_page (component grant) id ops s1); [apply Ht|lia|apply Ht| |exact Hrun|exact Hr].
    intros st Hst. apply (tr_left _ _ _ _ _ _ _ _ Ht st Hst).
Qed.
End service.
