(* ===== verification/HttpSse.v ===== *)
(** Server-sent events as the HTTP host frames them: parsing what a server
    writes gives back the events, whatever chunks the body arrives in. *)
From stdpp Require Import base tactics option list strings gmap.
From Stdlib Require Import NArith Ascii Lia.
From S2P Require Import Prelude Event Net Blob Delivery EventStore Stores Utf8 HttpData HttpPolicy HttpBody.

Local Open Scope N_scope.

(** ** Writing events *)

(** One event: its name, when it has one, and the lines of its data. *)
Record SseEvent : Type := mkSseEvent { sse_name : option bytes; sse_lines : list bytes }.

(** The lines that write an event, without their endings. *)
Definition written_field (field value : bytes) : bytes := field ++ COLON :: SPACE :: value.
Definition written_lines (e : SseEvent) : list bytes :=
  match sse_name e with Some name => [written_field event_field name] | None => [] end
  ++ (written_field data_field <$> sse_lines e) ++ [[]].
Definition written (eol : bytes) (e : SseEvent) : bytes :=
  concat ((λ line, line ++ eol) <$> written_lines e).

(** The data of an event: its lines, joined. *)
Definition joined (lines : list bytes) : bytes :=
  match lines with
  | [] => []
  | line :: lines => line ++ concat ((λ l, LF :: l) <$> lines)
  end.

(** The lines of an event that are kept: those from the first that is not
    empty. *)
Fixpoint kept_lines (lines : list bytes) : list bytes :=
  match lines with
  | [] => []
  | line :: rest => match line with [] => kept_lines rest | _ => lines end
  end.

Definition event_kind (e : SseEvent) : string :=
  match sse_name e with Some name => str_of_bytes (Byte.to_N <$> name) | None => "message" end.

(** The frames that stand for an event: one with the lines that are kept, or
    none when every line is empty. *)
Definition frames_of (e : SseEvent) : list HttpFrame :=
  match kept_lines (sse_lines e) with
  | [] => []
  | lines => [mkHttpFrame (event_kind e) (joined lines)]
  end.

(** A line that can be written: it has no line feed, and its end is not taken
    for part of the line ending. *)
Definition plain_line (line : bytes) : Prop := (LF ∉ line) ∧ last line ≠ Some CR.

Definition event_wf (e : SseEvent) : Prop :=
  (∀ name, sse_name e = Some name → plain_line name ∧ is_Some (from_utf8 name)) ∧
  Forall plain_line (sse_lines e).

Definition line_ending (eol : bytes) : Prop := eol = [LF] ∨ eol = [CR; LF].

(** ** Lines *)

Lemma pop_snoc b line : pop_byte b (line ++ [b]) = line.
Proof. unfold pop_byte. rewrite last_snoc, bool_decide_true by done. apply removelast_last. Qed.

Lemma pop_other b line : last line ≠ Some b → pop_byte b line = line.
Proof.
  unfold pop_byte. destruct (last line) as [x|]; [|done]. intros Hx.
  rewrite bool_decide_false; [done|congruence].
Qed.

Lemma trim_written eol line : line_ending eol → last line ≠ Some CR →
  trim_line_ending (line ++ eol) = line.
Proof.
  intros [-> | ->] Hl; unfold trim_line_ending.
  - by rewrite pop_snoc, pop_other.
  - replace (line ++ [CR; LF]) with ((line ++ [CR]) ++ [LF]) by by rewrite <- app_assoc.
    by rewrite !pop_snoc.
Qed.

Lemma split_lines_cons line rest : LF ∉ line →
  split_lines (line ++ LF :: rest) = ((line ++ [LF]) :: (split_lines rest).1, (split_lines rest).2).
Proof.
  induction line as [|b line IH]; intros Hl; cbn [split_lines app].
  - destruct (split_lines rest). by rewrite bool_decide_true.
  - rewrite IH by set_solver. rewrite bool_decide_false by set_solver. done.
Qed.

Lemma split_written eol lines : line_ending eol → Forall (λ line, LF ∉ line) lines →
  split_lines (concat ((λ line, line ++ eol) <$> lines)) = ((λ line, line ++ eol) <$> lines, []).
Proof.
  intros He Hl. induction Hl as [|line lines Hno _ IH]; [done|]. csimpl.
  assert (∃ cr, eol = cr ++ [LF] ∧ LF ∉ cr) as (cr & -> & Hcr).
  { destruct He as [-> | ->]; [exists []|exists [CR]]; split; try done; [by apply not_elem_of_nil|].
    by intros ?%list_elem_of_singleton. }
  set (rest := concat _) in *.
  replace ((line ++ cr ++ [LF]) ++ rest) with ((line ++ cr) ++ LF :: rest) by by rewrite <- !app_assoc.
  rewrite split_lines_cons by set_solver. rewrite IH. cbn [fst snd]. by rewrite !app_assoc.
Qed.

(** ** Parsing *)

Section parse.
Context (eol : bytes) (Heol : line_ending eol) (failure : option string) (maximum : N).

(** The limits are not met on the way. *)
Definition room (n : N) (lines : list bytes) : Prop :=
  n + len (concat ((λ line, line ++ eol) <$> lines)) ≤ N.min maximum u64_max.

Lemma room_cons n line lines : room n (line :: lines) →
  n + len (line ++ eol) ≤ N.min maximum u64_max ∧ room (n + len (line ++ eol)) lines.
Proof. unfold room. csimpl. rewrite len_app. lia. Qed.

Abbreviation go lines rs event data n :=
  (parse_sse_go (((λ line, line ++ eol) <$> lines) ++ rs) failure maximum event data n).

Lemma parse_line line lines rs event data n : last line ≠ Some CR → room n (line :: lines) →
  go (line :: lines) rs event data n =
  let n := n + len (line ++ eol) in
  match line with
  | [] =>
      let '(frames, fin) := go lines rs "message" [] n in
      (emit_sse_frame event data ++ frames, fin)
  | first :: _ =>
      if bool_decide (first = COLON) then go lines rs event data n
      else match sse_field line event_field with
           | Some value =>
               match from_utf8 value with
               | Some event => go lines rs event data n
               | None => ([], Err (HttpInvalid "SSE event name is not UTF-8"))
               end
           | None =>
               match sse_field line data_field with
               | Some value =>
                   go lines rs event ((match data with [] => [] | _ => data ++ [LF] end) ++ value) n
               | None => go lines rs event data n
               end
           end
  end.
Proof using Heol.
  intros Hcr [Hn _]%room_cons. rewrite fmap_cons. cbn [parse_sse_go app]. unfold checked_add_u64.
  rewrite (proj2 (N.leb_le _ _)) by lia. rewrite (proj2 (N.ltb_ge _ _)) by lia.
  by rewrite trim_written.
Qed.

Lemma last_written field value b : last (field ++ COLON :: SPACE :: value) = Some b → b ≠ SPACE →
  last value = Some b.
Proof.
  intros Hl Hb. destruct value as [|v value _] using rev_ind.
  - change (field ++ [COLON; SPACE]) with (field ++ [COLON] ++ [SPACE]) in Hl.
    rewrite app_assoc, last_snoc in Hl. congruence.
  - rewrite last_snoc. change (COLON :: SPACE :: value ++ [v]) with ((COLON :: SPACE :: value) ++ [v]) in Hl.
    by rewrite app_assoc, last_snoc in Hl.
Qed.

Lemma written_plain field value : last value ≠ Some CR → last (written_field field value) ≠ Some CR.
Proof. intros Hv Hl. by apply last_written in Hl. Qed.

Lemma parse_data value lines rs event data n : last value ≠ Some CR →
  room n (written_field data_field value :: lines) →
  go (written_field data_field value :: lines) rs event data n =
  go lines rs event ((match data with [] => [] | _ => data ++ [LF] end) ++ value)
    (n + len (written_field data_field value ++ eol)).
Proof using Heol. intros Hv Hr. rewrite parse_line; [reflexivity|by apply written_plain|done]. Qed.

Lemma parse_name name text lines rs event data n : last name ≠ Some CR → from_utf8 name = Some text →
  room n (written_field event_field name :: lines) →
  go (written_field event_field name :: lines) rs event data n =
  go lines rs text data (n + len (written_field event_field name ++ eol)).
Proof using Heol.
  intros Hv Ht Hr. rewrite parse_line; [|by apply written_plain|done].
  trans (match from_utf8 name with
         | Some event => go lines rs event data (n + len (written_field event_field name ++ eol))
         | None => ([], Err (HttpInvalid "SSE event name is not UTF-8"))
         end); [reflexivity|by rewrite Ht].
Qed.

Lemma parse_blank lines rs event data n : room n ([] :: lines) →
  go ([] :: lines) rs event data n =
  let '(frames, fin) := go lines rs "message" [] (n + len eol) in
  (emit_sse_frame event data ++ frames, fin).
Proof using Heol. intros Hr. by rewrite parse_line. Qed.

(** What the data lines leave in the buffer. *)
Definition push_data (data value : bytes) : bytes :=
  (match data with [] => [] | _ => data ++ [LF] end) ++ value.

Lemma parse_more ls : ∀ lines rs event data n, Forall plain_line ls →
  room n ((written_field data_field <$> ls) ++ lines) →
  go ((written_field data_field <$> ls) ++ lines) rs event data n =
  go lines rs event (foldl push_data data ls)
    (n + len (concat ((λ line, line ++ eol) <$> (written_field data_field <$> ls)))).
Proof using Heol.
  induction ls as [|l ls IH]; intros lines rs event data n Hl Hr.
  { csimpl. unfold len. simpl. by rewrite N.add_0_r. }
  apply Forall_cons in Hl as [[_ Hl] Hls].
  rewrite (fmap_cons (written_field data_field)) in *. rewrite <- app_comm_cons in *.
  rewrite parse_data; [|done..]. rewrite !fmap_cons. cbn [concat foldl].
  apply room_cons in Hr as [_ Hr]. rewrite IH; [|done..]. f_equal. rewrite !len_app. lia.
Qed.

Lemma push_joined ls data : data ≠ [] → foldl push_data data ls = data ++ concat ((λ l, LF :: l) <$> ls).
Proof.
  revert data. induction ls as [|l ls IH]; intros data Hd; csimpl; [by rewrite app_nil_r|].
  destruct data as [|d data]; [done|]. rewrite IH by done. unfold push_data. by rewrite <- !app_assoc.
Qed.

Lemma emit_lines kind ls :
  emit_sse_frame kind (foldl push_data [] ls) =
  match kept_lines ls with [] => [] | lines => [mkHttpFrame kind (joined lines)] end.
Proof.
  induction ls as [|l ls IH]; [done|]. cbn [foldl kept_lines]. destruct l as [|b l]; [exact IH|].
  rewrite push_joined by done. done.
Qed.

(** One event. *)
Lemma parse_event e lines rs n : event_wf e → room n (written_lines e ++ lines) →
  go (written_lines e ++ lines) rs "message" [] n =
  let '(frames, fin) := go lines rs "message" [] (n + len (written eol e)) in (frames_of e ++ frames, fin).
Proof using Heol.
  intros (Hname & Hall) Hr. destruct e as [name ls]. cbn [sse_lines sse_name] in *.
  assert (∀ kind n', room n' ((written_field data_field <$> ls) ++ [] :: lines) →
    go ((written_field data_field <$> ls) ++ [] :: lines) rs kind [] n' =
    let '(frames, fin) := go lines rs "message" []
      (n' + len (concat ((λ line, line ++ eol) <$> ((written_field data_field <$> ls) ++ [[]])))) in
    (match kept_lines ls with [] => [] | lines => [mkHttpFrame kind (joined lines)] end ++ frames, fin)) as Hdata.
  { intros kind n' Hr'. rewrite parse_more by done. rewrite parse_blank.
    - rewrite emit_lines.
      match goal with
      | |- (let '(_, _) := parse_sse_go _ _ _ _ _ ?a in _) = (let '(_, _) := parse_sse_go _ _ _ _ _ ?b in _) =>
          replace b with a; [done|]
      end.
      rewrite (fmap_app (λ line0, line0 ++ eol)), concat_app, fmap_cons, fmap_nil. cbn [concat].
      rewrite app_nil_l, app_nil_r, !len_app. lia.
    - unfold room in *. rewrite (fmap_app (λ line0, line0 ++ eol)), concat_app in Hr'. rewrite !len_app in *. lia. }
  unfold written, written_lines, frames_of, event_kind in *. cbn [sse_lines sse_name] in *.
  destruct name as [name|].
  - destruct (Hname name eq_refl) as [[_ Hcr] [text Htext]].
    rewrite <- !app_assoc in *. cbn [app] in *. rewrite parse_name with (text := text); [|done..].
    apply room_cons in Hr as [_ Hr]. rewrite Hdata by done. rewrite (fmap_cons _ (written_field event_field name)).
    cbn [concat]. rewrite (len_app (written_field event_field name ++ eol)), N.add_assoc.
    destruct (go lines rs "message" [] _) as [frames fin].
    unfold from_utf8 in Htext. case_bool_decide; [|done]. by injection Htext as ->.
  - rewrite <- !app_assoc in *. cbn [app] in *. by rewrite Hdata.
Qed.
End parse.

(** ** Round trip *)

Lemma concat_written eol es :
  concat (written eol <$> es) = concat ((λ line, line ++ eol) <$> concat (written_lines <$> es)).
Proof. induction es as [|e es IH]; [done|]. csimpl. by rewrite fmap_app, concat_app, IH. Qed.

Lemma written_line_lf field value : LF ∉ field → LF ∉ value → LF ∉ written_field field value.
Proof.
  intros Hf Hv. unfold written_field. rewrite elem_of_app, !elem_of_cons. by intros [?|[?|[?|?]]].
Qed.

Lemma written_lines_lf e : event_wf e → Forall (λ line, LF ∉ line) (written_lines e).
Proof.
  intros (Hname & Hall). unfold written_lines. rewrite !Forall_app. split_and!.
  - destruct (sse_name e) as [name|]; [|done]. destruct (Hname name eq_refl) as [[Hn _] _].
    constructor; [|done]. apply written_line_lf; [by apply (bool_decide_unpack _)|done].
  - apply Forall_fmap. eapply Forall_impl; [exact Hall|]. intros line [Hl _].
    apply written_line_lf; [by apply (bool_decide_unpack _)|done].
  - constructor; [by apply not_elem_of_nil|done].
Qed.

Lemma all_lines_lf es : Forall event_wf es →
  Forall (λ line, LF ∉ line) (concat (written_lines <$> es)).
Proof.
  induction 1 as [|e es Hw _ IH]; [done|]. csimpl. apply Forall_app.
  split; [by apply written_lines_lf|done].
Qed.

Lemma parse_events eol maximum es : line_ending eol → Forall event_wf es → ∀ n,
  room eol maximum n (concat (written_lines <$> es)) →
  parse_sse_go ((λ line, line ++ eol) <$> concat (written_lines <$> es)) None maximum "message" [] n
  = (flat_map frames_of es, Ok tt).
Proof.
  intros He Hwf. induction Hwf as [|e es Hw _ IH]; intros n Hr; [done|].
  rewrite !fmap_cons in *. cbn [concat] in *.
  pose proof (parse_event eol He None maximum e (concat (written_lines <$> es)) [] n Hw Hr) as Hp.
  rewrite !app_nil_r in Hp. rewrite Hp, IH; [done|].
  unfold room in *. rewrite (fmap_app (λ line, line ++ eol)), concat_app in Hr.
  fold (written eol e) in Hr. rewrite len_app in Hr. lia.
Qed.

(** (C23) Server-sent events come back as they were written, but for empty data
    lines at their start.  Let a server write a sequence of events, each with
    an optional UTF-8 name and any number of data lines (a line has no line
    feed and does not end with a carriage return), with line feeds or carriage
    return and line feed as line endings, and let the body arrive whole, in
    any chunks, and within the grant: the worker hands over, in order and
    without an error, one frame per event that has a data line that is not
    empty, with the event's name ([message] when it has none) and its lines
    from the first that is not empty, joined by line feeds; an event without
    such a line gives no frame. *)
Theorem sse_roundtrip eol es response maximum
    (Heol : line_ending eol)
    (Hevents : Forall event_wf es)
    (Hbody : concat (chunks response) = concat (written eol <$> es))
    (Hends : failure response = None)
    (Hsize : len (concat (chunks response)) ≤ N.min maximum u64_max) :
  parse_sse response maximum = (flat_map frames_of es, Ok tt).
Proof.
  unfold parse_sse, sse_reads. rewrite Hends, Hbody, concat_written.
  rewrite split_written; [|done|].
  - apply parse_events; [done..|]. unfold room. rewrite <- concat_written, <- Hbody. lia.
  - by apply all_lines_lf.
Qed.
