(* ===== verification/HttpStored.v ===== *)
(** Storing a response in the in-memory blob store: what [send] returns is in
    the store, and nothing is left of a response it does not return. *)
From stdpp Require Import base tactics option list strings gmap.
From Stdlib Require Import NArith Ascii Lia.
From S2P Require Import Prelude Event Net Blob Delivery EventStore Stores HttpData HttpPolicy HttpBody.

Local Open Scope N_scope.

Section stored.
Context `{HttpLib} (sha256 : bytes → bytes) (max_blob_bytes : N).
#[local] Existing Instance memory_blob_store.
#[local] Instance store : BlobStore MemoryBlobs := memory_blob_store sha256 max_blob_bytes.

(** The store with other content in one of its uploads. *)
Definition upload_is (id : string) (u : MemoryUpload) (b b' : MemoryBlobs) : Prop :=
  next_upload b' = next_upload b ∧ uploads b' = <[id := u]> (uploads b) ∧ blobs b' = blobs b.

Lemma upload_is_insert id u u' b b1 b2 :
  upload_is id u b b1 → upload_is id u' b1 b2 → upload_is id u' b b2.
Proof.
  intros (Hn & Hu & Hb) (Hn' & Hu' & Hb'). split_and!; [congruence| |congruence].
  by rewrite Hu', Hu, insert_insert_eq.
Qed.

(** The chunks that were written are the upload's content. *)
Lemma write_body_memory id failure maximum body : ∀ u b r b',
  uploads b !! id = Some u → len (upload_bytes u) ≤ maximum →
  write_body id (len (upload_bytes u)) body failure maximum b = (r, b') →
  ∃ u', upload_is id u' b b' ∧ upload_media_type u' = upload_media_type u ∧
    expected_size u' = expected_size u ∧
    (is_ok r = true → failure = None ∧ upload_bytes u' = upload_bytes u ++ concat body ∧
      len (upload_bytes u') ≤ maximum).
Proof.
  assert (∀ b (u : MemoryUpload), uploads b !! id = Some u → upload_is id u b b) as Hsame.
  { intros b u Hu. split_and!; [done| |done]. by rewrite insert_id. }
  induction body as [|chunk body IH]; intros u b r b' Hu Hle Hw; simpl in Hw.
  { exists u. rewrite app_nil_r. destruct failure; injection Hw as <- <-; split_and!; auto; by simpl. }
  destruct (checked_add_u64 _ _) as [next|] eqn:Ea.
  2: { injection Hw as <- <-. exists u. split_and!; auto; by simpl. }
  apply checked_add_u64_spec in Ea as [-> _].
  destruct (N.ltb_spec maximum (len (upload_bytes u) + len chunk)) as [Hm|Hm].
  { injection Hw as <- <-. exists u. split_and!; auto; by simpl. }
  destruct (write max_blob_bytes id (len (upload_bytes u)) chunk b) as [[n|e] b1] eqn:Ew.
  2: { apply write_err in Ew as ->. injection Hw as <- <-. exists u. split_and!; auto; by simpl. }
  apply write_ok in Ew as (u0 & Hu0 & [(Hne & _)|(_ & _ & _ & _ & _ & ->)]); rewrite Hu in Hu0; injection Hu0 as <-; [done|].
  set (u1 := mkMemoryUpload (upload_media_type u) (expected_size u) (upload_bytes u ++ chunk)
    (Some (len (upload_bytes u), chunk))) in *.
  rewrite <- len_app in Hw, Hm. change (upload_bytes u ++ chunk) with (upload_bytes u1) in Hw, Hm.
  apply (IH u1) in Hw as (u' & Hi & Hmt & He & Hok); [|apply lookup_insert_eq|done].
  exists u'. split_and!; [|done|done|].
  { eapply upload_is_insert; [|exact Hi]. by split_and!. }
  intros Hr. destruct (Hok Hr) as (? & Hb & ?).
  split_and!; [done| |done]. rewrite Hb. simpl. by rewrite <- app_assoc.
Qed.

(** A new upload has an identifier that is not in use. *)
Lemma begin_fresh media expected b id b1 : wf_blobs sha256 max_blob_bytes b → next_upload b < u64_max →
  begin_put max_blob_bytes media expected b = (Ok id, b1) →
  b1 = mkMemoryBlobs (next_upload b + 1)
         (<[id := mkMemoryUpload media expected [] None]> (uploads b)) (blobs b) ∧
  uploads b !! id = None.
Proof.
  intros (_ & _ & Hids & _) Hn Hb. unfold begin_put in Hb. destruct (validate_media_type _); [|done].
  destruct (is_some_and _ _); [done|]. destruct (checked_add_u64 _ _) as [next|] eqn:Ec; [|done].
  apply checked_add_u64_spec in Ec as [-> _]. injection Hb as <- <-. split; [done|].
  destruct (uploads b !! _) eqn:Eu; [|done]. destruct (Hids _ ltac:(eauto)) as (k & Hk & Hkid).
  apply append_inj_l, u64_to_string_inj in Hkid; unfold u64_range; lia.
Qed.

(** (C32) Storing a response leaves no upload behind, on any of its ways out.
    A response that is returned has the status of the server's, only headers
    that are not the connection's own, within 64 KiB, and a body that is in the
    store: its size and digest are those of all the bytes that arrived, which
    are within the grant and as many as the server had announced, and the
    transport had not failed.  When an error is returned, no blob was added. *)
Theorem response_stored response maximum b res b'
    (Hwf : wf_blobs sha256 max_blob_bytes b)
    (Hid : next_upload b < u64_max)
    (Hcollision : ∀ c, blobs b !! sha256_hex sha256 (concat (chunks response)) = Some c →
       c = concat (chunks response))
    (Hstore : store_response response maximum b = (res, b')) :
  uploads b' = uploads b ∧
  match res with
  | Ok r =>
      let content := concat (chunks response) in
      resp_status r = status response ∧
      (∀ h, h ∈ resp_headers r → is_hop_by_hop (header_name h) = false) ∧
      header_bytes (resp_headers r) ≤ MAX_HEADER_BYTES ∧
      failure response = None ∧ len content ≤ maximum ∧
      (∀ n, content_length response = Some n → n = len content) ∧
      blob_size (resp_body r) = len content ∧
      digest (resp_body r) = sha256_hex sha256 content ∧
      blobs b' !! digest (resp_body r) = Some content
  | Err _ => blobs b' = blobs b
  end.
Proof.
  unfold store_response in Hstore.
  destruct (is_some_and _ _); [by injection Hstore as <- <-|].
  destruct (N.ltb_spec MAX_HEADER_BYTES (header_bytes (shown_headers response))) as [Hh|Hh];
    [by injection Hstore as <- <-|].
  cbn [bs_begin_put bs_write bs_finish_put bs_abort_put store memory_blob_store] in Hstore.
  destruct (begin_put _ _ _ b) as [[id|e] b1] eqn:Eb; [|by unfold begin_put in Eb; repeat case_match; simplify_eq].
  set (u := mkMemoryUpload (default "application/octet-stream"
     match get_header "content-type" (headers response) with
     | Some value => header_to_str value | None => None end) (content_length response) [] None).
  apply begin_fresh in Eb as [-> Hfresh]; [|done..]. fold u in Hstore.
  destruct (write_body _ _ _ _ _ _) as [r b2] eqn:Ew.
  apply (write_body_memory _ _ _ _ u) in Ew as (u' & (Hn & Hu & Hb) & Hmt & He & Hok);
    [|simpl; apply lookup_insert_eq|unfold len; simpl; lia].
  simpl in Hu, Hb. rewrite insert_insert_eq in Hu.
  destruct r as [n|e].
  2: { unfold abort_put in Hstore. injection Hstore as <- <-. simpl.
       rewrite Hu, delete_insert_id; [by rewrite Hb|done]. }
  destruct (Hok eq_refl) as (Hf & Hbytes & Hlen). simpl in Hbytes.
  destruct (finish_put sha256 id b2) as [[body|e] b3] eqn:Ef.
  all: unfold finish_put in Ef; rewrite Hu, lookup_insert_eq in Ef; rewrite Hb in Ef.
  all: unfold abort_put in Hstore; injection Hstore as <- <-.
  all: destruct (u64_of_len (upload_bytes u')) as [size|] eqn:Esz; [|by simplify_eq/=; rewrite delete_delete_eq, delete_insert_id].
  all: apply u64_of_len_spec in Esz as [-> _]; destruct (is_some_and _ _) eqn:Eexp; simplify_eq/=;
    rewrite ?delete_delete_eq, ?delete_insert_id by done; try done.
  split; [done|]. rewrite Hbytes in *. split_and!; try done.
  - intros h Hin. apply list_elem_of_fmap in Hin as ([name value] & -> & Hin). simpl.
    apply list_elem_of_In, filter_In in Hin as [_ Hin]. by apply negb_true_iff in Hin.
  - intros n' Hn'. rewrite He in Eexp. simpl in Eexp. rewrite Hn' in Eexp. simpl in Eexp.
    by apply negb_false_iff, N.eqb_eq in Eexp.
  - destruct (blobs b !! _) as [c|] eqn:Ec; [rewrite Ec; f_equal; by apply Hcollision|by rewrite lookup_insert_eq].
Qed.
End stored.
