(* ===== verification/HttpSample.v ===== *)
(** A concrete library, network and service for the HTTP host, and its
    theorems at work on them. *)
From stdpp Require Import base tactics option list strings gmap.
From Stdlib Require Import NArith Ascii Lia.
From S2P Require Import Prelude Event Net Blob Delivery EventStore Stores Utf8 Json HttpData HttpPolicy HttpPolicySpec HttpBody HttpHost HttpHostSpec HttpSse HttpStored.

Local Open Scope N_scope.

Module HttpLibrary.

(** ** URLs of the form [https://host/path] *)

Record SampleUrl : Type := mkSampleUrl { sample_host : string; sample_path : string }.

Fixpoint split_slash (s : string) : string * string :=
  match s with
  | EmptyString => ("", "/")
  | String c rest =>
      if ascii_dec c "/" then ("", s)
      else let '(host, path) := split_slash rest in (String c host, path)
  end.

Definition sample_parse (s : string) : option SampleUrl :=
  match strip_prefix "https://" s with
  | Some rest => let '(host, path) := split_slash rest in
                 if str_is_empty host then None else Some (mkSampleUrl host path)
  | None => None
  end.

#[local] Instance sample_lib : HttpLib := {|
  Url := SampleUrl;
  url_parse := sample_parse;
  url_join u s := match sample_parse s with
                  | Some v => Some v
                  | None => Some (mkSampleUrl (sample_host u) s)
                  end;
  url_username _ := "";
  url_password _ := None;
  url_fragment _ := None;
  url_scheme _ := "https";
  url_host_str u := Some (sample_host u);
  url_cannot_be_a_base _ := false;
  url_origin u := "https://" +:+ sample_host u;
  url_port_or_known_default _ := Some 443;
  header_name_of s := Some (to_ascii_lowercase s);
  header_value_ok _ := true;
  header_to_str b := Some (str_of_bytes (Byte.to_N <$> b));
  method_of s := Some s;
|}.

(** ** A network of two servers, the first of which redirects to the second *)

Fixpoint text (s : string) : bytes :=
  match s with
  | EmptyString => []
  | String c rest => match Byte.of_N (N_of_ascii c) with Some b => [b] | None => [] end ++ text rest
  end.

Definition page_response : Response :=
  mkResponse 200 [("content-type", text "text/plain"); ("connection", text "close")] (Some 5)
    [text "hel"; []; text "lo"] None.
Definition moved_response : Response :=
  mkResponse 302 [("location", text "https://b.example/page")] None [] None.

#[local] Instance sample_network : Network := {|
  net_now k := N.of_nat k;
  net_lookup _ _ host port :=
    match parse_ip host with
    | Some ip => Resolved [mkSocketAddr ip port]
    | None => Resolved [mkSocketAddr (V4 (mkIpv4 93 184 216 34)) port]
    end;
  net_client _ := true;
  net_polls _ := 4%nat;
  net_send _ out :=
    if String.eqb (sample_host (sent_url out)) "a.example" then Ok moved_response
    else Ok page_response;
|}.

#[local] Instance sample_network_laws : NetworkLaws.
Proof.
  split. intros k t host port ip l Hip Hl a Ha. simpl in Hl. rewrite Hip in Hl.
  injection Hl as <-. by apply list_elem_of_singleton in Ha as ->.
Qed.

#[local] Instance sample_blobs : BlobStore MemoryBlobs := memory_blob_store zero_digest 1024.

Definition sample_component : PrincipalRef := mkPrincipalRef Component "fetcher".

Definition sample_grant : HttpGrant :=
  mkHttpGrant sample_component ["https://a.example"; "https://b.example"] ["get"; "post"]
    false false 1024 1024 3 60000.

Definition sample_request : HttpRequest :=
  mkHttpRequest "GET" "https://a.example/" [mkHttpHeader "Authorization" (text "secret");
    mkHttpHeader "Connection" (text "close"); mkHttpHeader "Accept" (text "text/plain")] None 1000.

Definition sample_wire : Wire MemoryBlobs := mkWire empty_blobs 0 [].

(** The credential goes to the first server only. *)
Example redirect_drops_credential :
  (λ out, fst <$> sent_headers out) <$> HttpPolicy.sent (open_response sample_grant sample_request sample_wire).2 =
  [["authorization"; "accept"]; ["accept"]].
Proof. vm_compute. reflexivity. Qed.

Lemma requests_granted_witness :
  length (HttpPolicy.sent (open_response sample_grant sample_request sample_wire).2) = 2%nat ∧
  (open_response sample_grant sample_request sample_wire).1 ≠ None ∧
  ∃ new, HttpPolicy.sent (open_response sample_grant sample_request sample_wire).2 = [] ++ new ∧
    (length new ≤ 6)%nat ∧ len new ≤ 1 + max_redirects sample_grant ∧
    Forall (granted sample_grant sample_request (net_now 0 + from_millis 1000)) new.
Proof.
  split; [vm_compute; reflexivity|]. exact (requests_granted sample_grant sample_request sample_wire).
Defined.

Definition first_sent : Sent :=
  mkSent _ (mkClient (Some ("a.example", mkSocketAddr (V4 (mkIpv4 93 184 216 34)) 443)) 999999996)
    (mkSampleUrl "a.example" "/") "GET" [("authorization", text "secret"); ("accept", text "text/plain")]
    None [] BodyComplete.
Definition second_sent : Sent :=
  mkSent _ (mkClient (Some ("b.example", mkSocketAddr (V4 (mkIpv4 93 184 216 34)) 443)) 999999990)
    (mkSampleUrl "b.example" "/page") "GET" [("accept", text "text/plain")] None [] BodyComplete.

Lemma credentials_stay_witness :
  ∃ url, url_parse (req_url sample_request) = Some url ∧
  ∀ j s', (j ≤ 0)%nat → [first_sent; second_sent] !! j = Some s' →
    canonical_origin (sent_url s') = canonical_origin url.
Proof.
  apply (credentials_stay sample_grant sample_request sample_wire [first_sent; second_sent] 0 first_sent).
  - vm_compute. reflexivity.
  - reflexivity.
  - exists "authorization", (text "secret"). split; [left|reflexivity].
Defined.

(** ** A byte stream *)

#[local] Instance sample_worker : Worker := {| wk_moves _ := 1%nat |}.

#[local] Instance sample_json : SerdeJson := {|
  from_slice _ := Err "not read"; to_vec _ := Ok []; to_string _ := "";
  number_to_string _ := ""; pointer _ _ := None |}.

Definition sample_service : PolicyHttpService MemoryBlobs := new empty_blobs.

Definition other_grant : HttpGrant :=
  mkHttpGrant (mkPrincipalRef Component "other") [] [] false false 0 0 0 60000.

Definition sample_ops : list http_op :=
  [OpReceive sample_grant "http-stream-1" 1 10; OpReceive other_grant "http-stream-1" 1 10;
   OpClose other_grant "http-stream-1"; OpReceive sample_grant "http-stream-1" 4 10;
   OpReceive sample_grant "http-stream-1" 4 10].

Definition started_service : PolicyHttpService MemoryBlobs :=
  (start_stream sample_grant Bytes page_response sample_service).2.
Definition sample_log : list (http_op * option (result HttpFramePage HttpError)) :=
  (run sample_ops started_service).1.

(** The owner receives [hel], then [lo] and the end; the other component is
    refused. *)
Example sample_pages :
  omap (page_on (own sample_component) "http-stream-1") sample_log =
  [Ok (mkHttpFramePage [mkHttpFrame "bytes" (text "hel")] false);
   Ok (mkHttpFramePage [mkHttpFrame "bytes" (text "lo")] true);
   Ok (mkHttpFramePage [] true)].
Proof. vm_compute. reflexivity. Qed.

Lemma sample_service_wf : service_wf sample_service.
Proof. split; [vm_compute; discriminate|]. intros id st Hst. unfold sample_service, new in Hst. cbn [streams] in Hst. by rewrite lookup_empty in Hst. Qed.

Lemma byte_stream_exact_witness :
  let pages := omap (page_on (own sample_component) "http-stream-1") sample_log in
  let received := concat (frame_data <$> frames_in pages) in
  received `prefix_of` text "hello" ∧ len received ≤ 1024 ∧
  ((∀ e, Err e ∉ pages) → (∃ page, Ok page ∈ pages ∧ page_closed page = true) →
   failure page_response = None ∧ received = text "hello") ∧
  (∀ r, Some r ∈ (page_on (foreign sample_component) "http-stream-1" <$> sample_log) → ∃ e, r = Err e).
Proof.
  apply (byte_stream_exact sample_grant page_response sample_service "http-stream-1" started_service
    sample_ops sample_log (run sample_ops started_service).2).
  - apply sample_service_wf.
  - vm_compute. reflexivity.
  - vm_compute. reflexivity.
  - apply surjective_pairing.
Defined.

(** A page that meets the worker's error answers it and forgets the frames it
    had already taken; the next page only says that the stream is closed. *)
Example error_drops_frames :
  let s := mkActiveStream sample_component [] [Ok (mkHttpFrame "bytes" (text "a")); Err HttpTimeout] true false in
  let '(r1, k, s1) := receive_from 2 0 s in
  let '(r2, _, _) := receive_from 2 k s1 in
  r1 = Err HttpTimeout ∧ r2 = Ok (mkHttpFramePage [] true).
Proof. vm_compute. split; reflexivity. Qed.

(** ** Server-sent events *)

Definition sample_events : list SseEvent :=
  [mkSseEvent (Some (text "delta")) [text "one"; []; text "two"]; mkSseEvent None [text "end"];
   mkSseEvent None [[]]].

Definition sse_response : Response :=
  mkResponse 200 [] None [text "event: delta"; [LF] ++ text "data: one"; [LF] ++ text "data: "; [LF] ++ text "data: two"; [LF; LF];
    text "data: end"; [LF; LF]; text "data: "; [LF; LF]] None.

Lemma plain_text s : bool_decide (plain_line s) = true → plain_line s.
Proof. apply bool_decide_eq_true_1. Qed.

Lemma sample_events_wf : Forall event_wf sample_events.
Proof.
  assert (∀ l, forallb (λ s, bool_decide (plain_line s)) l = true → Forall plain_line l) as Hl.
  { intros l Hs%Is_true_true_2%forallb_True. eapply Forall_impl; [exact Hs|]. intros s. by intros ?%Is_true_true_1%plain_text. }
  constructor; [split; [|by apply Hl]|constructor; [split; [done|by apply Hl]|constructor; [split; [done|by apply Hl]|constructor]]].
  intros n Hn. injection Hn as <-. split; [apply plain_text; reflexivity|by eexists].
Qed.

Lemma sse_roundtrip_witness :
  parse_sse sse_response 1024 =
  ([mkHttpFrame "delta" (text "one" ++ [LF; LF] ++ text "two"); mkHttpFrame "message" (text "end")], Ok tt).
Proof.
  apply (sse_roundtrip [LF] sample_events sse_response 1024).
  - left. reflexivity.
  - apply sample_events_wf.
  - vm_compute. reflexivity.
  - reflexivity.
  - vm_compute. discriminate.
Defined.

(** An empty data line at the start of an event is lost, and with it the line
    feed after it; an event that has no other is lost whole. *)
Example empty_data_lost :
  parse_sse (mkResponse 200 [] None [text "data:"; [LF] ++ text "data: x"; [LF; LF]] None) 1024
    = ([mkHttpFrame "message" (text "x")], Ok tt) ∧
  parse_sse (mkResponse 200 [] None [text "data:"; [LF; LF]] None) 1024 = ([], Ok tt).
Proof. vm_compute. split; reflexivity. Qed.

Lemma response_stored_witness :
  let '(res, b) := store_response page_response 1024 empty_blobs in
  uploads b = ∅ ∧
  match res with
  | Ok r =>
      let content := text "hello" in
      resp_status r = 200 ∧
      (∀ h, h ∈ resp_headers r → is_hop_by_hop (header_name h) = false) ∧
      header_bytes (resp_headers r) ≤ MAX_HEADER_BYTES ∧
      failure page_response = None ∧ len content ≤ 1024 ∧
      (∀ n, Some 5 = Some n → n = len content) ∧
      blob_size (resp_body r) = len content ∧
      digest (resp_body r) = sha256_hex zero_digest content ∧
      blobs b !! digest (resp_body r) = Some content
  | Err _ => blobs b = ∅
  end.
Proof.
  destruct (store_response page_response 1024 empty_blobs) as [res b] eqn:Es.
  apply (response_stored zero_digest 1024 page_response 1024 empty_blobs res b).
  - apply empty_blobs_wf.
  - vm_compute. reflexivity.
  - intros c Hc. vm_compute in Hc. discriminate Hc.
  - exact Es.
Defined.
End HttpLibrary.
