(* ===== verification/Text.v ===== *)
(** Rust's [str] as the sequence of its characters, with the methods of the
    standard library the email plugin uses.  A position in a [str] is only
    used to cut it where a character starts, so positions count characters;
    lengths count the bytes of the UTF-8 encoding ([byte_len]).  Byte strings
    are lists of numbers below 256. *)
From stdpp Require Import base tactics option list strings.
From Stdlib Require Import NArith Lia.
From S2P Require Import Prelude Utf8.

Local Open Scope N_scope.

Definition str : Type := list N.

(** An ASCII literal. *)
Definition lit (s : string) : str := str_bytes s.

(** [str::as_bytes], [str::len], [str::is_ascii]. *)
Definition as_bytes (s : str) : list N := flat_map encode_char s.
Definition byte_len (s : str) : N := len (as_bytes s).
Definition is_ascii (s : str) : bool := forallb (λ c, c <? 128) s.

(** [starts_with] of a [str] or a slice. *)
Fixpoint starts (p s : list N) : bool :=
  match p, s with
  | [], _ => true
  | a :: p, b :: s => (a =? b) && starts p s
  | _ :: _, [] => false
  end.

(** [find] of a pattern. *)
Fixpoint find_sub (p s : list N) : option nat :=
  if starts p s then Some 0%nat
  else match s with
       | [] => None
       | _ :: s => S <$> find_sub p s
       end.

(** [split] at a character: never empty. *)
Fixpoint split_on (c : N) (s : list N) : list (list N) :=
  match s with
  | [] => [[]]
  | x :: s =>
      if x =? c then [] :: split_on c s
      else match split_on c s with
           | piece :: pieces => (x :: piece) :: pieces
           | [] => [[x]]
           end
  end.

(** [split_once]. *)
Fixpoint split_once (c : N) (s : list N) : option (list N * list N) :=
  match s with
  | [] => None
  | x :: s =>
      if x =? c then Some ([], s)
      else match split_once c s with
           | Some (before, after) => Some (x :: before, after)
           | None => None
           end
  end.

(** [join]. *)
Fixpoint join_with (sep : list N) (pieces : list (list N)) : list N :=
  match pieces with
  | [] => []
  | [piece] => piece
  | piece :: pieces => piece ++ sep ++ join_with sep pieces
  end.

(** [trim_start_matches], [trim_end_matches], [trim_start], [trim_end], [trim]. *)
Fixpoint drop_while (p : N → bool) (s : list N) : list N :=
  match s with
  | [] => []
  | c :: rest => if p c then drop_while p rest else s
  end.
Definition drop_while_end (p : N → bool) (s : list N) : list N := rev (drop_while p (rev s)).
Definition trim_start (s : str) : str := drop_while is_whitespace s.
Definition trim_end (s : str) : str := drop_while_end is_whitespace s.
Definition trim (s : str) : str := trim_end (trim_start s).

Fixpoint take_while (p : N → bool) (s : list N) : list N :=
  match s with
  | [] => []
  | c :: rest => if p c then c :: take_while p rest else []
  end.

(** [strip_suffix] of one character. *)
Definition strip_last (c : N) (s : list N) : list N :=
  match last s with
  | Some x => if x =? c then removelast s else s
  | None => s
  end.

(** [to_ascii_lowercase], [to_ascii_uppercase]. *)
Definition lower (c : N) : N := if between 65 c 90 then c + 32 else c.
Definition upper (c : N) : N := if between 97 c 122 then c - 32 else c.
Definition lowercase (s : list N) : list N := lower <$> s.
Definition uppercase (s : list N) : list N := upper <$> s.

Definition str_eqb (a b : list N) : bool := bool_decide (a = b).

(** [char::is_control], [char::is_ascii]. *)
Definition is_control_char (c : N) : bool := (c <=? 31) || between 127 c 159.

(** [u8::is_ascii_whitespace]. *)
Definition is_ascii_whitespace (b : N) : bool :=
  (b =? 32) || (b =? 9) || (b =? 10) || (b =? 12) || (b =? 13).

(** [String::from_utf8_lossy]. *)
Definition from_utf8_lossy (b : list N) : str := decode_lossy b.

(** The characters used below. *)
Definition LF : N := 10.
Definition CR : N := 13.
Definition TAB : N := 9.
Definition SP : N := 32.
Definition EQUALS : N := 61.
Definition QUESTION : N := 63.
Definition QUOTE : N := 34.
Definition CRLF : list N := [CR; LF].

(** ** Finding a pattern *)

Lemma starts_app p s : starts p (p ++ s) = true.
Proof. induction p as [|c p IH]; simpl; [done|]. by rewrite N.eqb_refl. Qed.

Lemma find_sub_within p a b : is_Some (find_sub p (a ++ p ++ b)).
Proof.
  induction a as [|c a IH]; cbn [app].
  - destruct (p ++ b) eqn:E; cbn [find_sub]; rewrite <- E, starts_app; done.
  - cbn [find_sub]. destruct (starts p _); [done|]. destruct IH as [n ->]. done.
Qed.
