(* ===== verification/Mime.v ===== *)
(** Messages of the email plugin: [plugins/email/src/mime.rs].

    Reading ([parse]) turns a fetched message into its headers, its best text
    body and its attachments; writing ([write]) renders an outgoing one.  A
    slice out of its bounds panics, which [None] stands for.  Loops that move
    an index through a text are scans of it: each position is visited once,
    and positions the code jumps over are skipped by count.  The [base64]
    crate is a parameter. *)
From stdpp Require Import base tactics option list strings.
From Stdlib Require Import ZArith NArith Lia.
From S2P Require Import Prelude Utf8 Text.

Local Open Scope N_scope.

(** [STANDARD.decode], [STANDARD_NO_PAD.decode] and [STANDARD.encode]. *)
Class Base64 : Type := {
  b64_decode : list N → option (list N);
  b64_decode_no_pad : list N → option (list N);
  b64_encode : list N → str;
}.

Definition MAX_BODY_BYTES : N := 256 * 1024.
Definition MAX_PARTS : nat := 64.
Definition MAX_DEPTH : nat := 8.

Record Attachment : Type := mkAttachment {
  file_name : option str;
  media_type : str;
  attachment_bytes : list N;
}.

(** [Headers]: the fields in order, their names in lower case. *)
Definition Headers : Type := list (str * str).

Record Message : Type := mkMessage {
  headers : Headers;
  text : str;
  text_from_html : bool;
  attachments : list Attachment;
}.

(** ** Transfer encodings and character sets *)

Definition hex_digit (c : N) : option N :=
  if between 48 c 57 then Some (c - 48)
  else if between 97 c 102 then Some (c - 87)
  else if between 65 c 70 then Some (c - 55)
  else None.

(** [u8::from_str_radix(pair, 16)] on two bytes: two digits, or a sign and
    one. *)
Definition hex_pair (a b : N) : option N :=
  match hex_digit b with
  | None => None
  | Some low =>
      if a =? 43 then Some low
      else match hex_digit a with
           | Some high => Some (high * 16 + low)
           | None => None
           end
  end.

Fixpoint decode_quoted_printable (body : list N) : list N :=
  match body with
  | [] => []
  | c :: rest =>
      if negb (c =? EQUALS) then c :: decode_quoted_printable rest
      else
        let escape :=
          match rest with
          | a :: ((b :: after) as tail) =>
              match hex_pair a b with
              | Some byte => byte :: decode_quoted_printable after
              | None => c :: decode_quoted_printable rest
              end
          | _ => c :: decode_quoted_printable rest
          end in
        match rest with
        | a :: tail =>
            if a =? LF then decode_quoted_printable tail
            else match tail with
                 | b :: after =>
                     if (a =? CR) && (b =? LF) then decode_quoted_printable after else escape
                 | [] => escape
                 end
        | [] => escape
        end
  end.

Definition decode_transfer `{Base64} (encoding : option str) (body : list N) : list N :=
  let name := lowercase (trim (default (lit "7bit") encoding)) in
  if str_eqb name (lit "base64") then
    let compact := List.filter (λ b, negb (is_ascii_whitespace b)) body in
    match b64_decode compact with
    | Some decoded => decoded
    | None => match b64_decode_no_pad compact with
              | Some decoded => decoded
              | None => body
              end
    end
  else if str_eqb name (lit "quoted-printable") then decode_quoted_printable body
  else body.

(** [char::from(byte)] is the character with the byte's number. *)
Definition decode_text (b : list N) (charset : str) : str :=
  if existsb (str_eqb (lowercase (trim charset)))
       (lit <$> ["iso-8859-1"; "latin1"; "iso8859-1"; "windows-1252"; "us-ascii"; "ascii"])
  then b
  else from_utf8_lossy b.

(** ** Encoded words *)

Inductive encoded : Type :=
| NoWord
| Word (word_text : str) (word_length : nat)
| WordPanics.

(** [splitn(3, '?')] with all three fields present. *)
Definition three_fields (inner : str) : option (str * str * str) :=
  match split_once QUESTION inner with
  | Some (charset, rest) =>
      match split_once QUESTION rest with
      | Some (encoding, payload) => Some (charset, encoding, payload)
      | None => None
      end
  | None => None
  end.

Definition word_bytes `{Base64} (encoding payload : str) : option (list N) :=
  if str_eqb (uppercase encoding) (lit "B") then
    match b64_decode (as_bytes payload) with
    | Some b => Some b
    | None => b64_decode_no_pad (as_bytes payload)
    end
  else if str_eqb (uppercase encoding) (lit "Q") then
    Some (decode_quoted_printable (as_bytes ((λ c, if c =? 95 then SP else c) <$> payload)))
  else None.

(** [encoded_word]; [&tail[2..end - 2]] panics when [end - 2] is below 2. *)
Definition encoded_word `{Base64} (tail : str) : encoded :=
  match find_sub (lit "?=") tail with
  | None => NoWord
  | Some at_ =>
      if (at_ <? 2)%nat then WordPanics
      else
        match three_fields (take (at_ - 2) (drop 2 tail)) with
        | None => NoWord
        | Some (charset, encoding, payload) =>
            if existsb (N.eqb QUESTION) payload then NoWord
            else match word_bytes encoding payload with
                 | Some b => Word (decode_text b charset) (at_ + 2)
                 | None => NoWord
                 end
        end
  end.

(** The loop of [decode_words]: [before] is what precedes the next ["=?"] since
    the last one. *)
Fixpoint decode_words_go `{Base64} (s : str) (skip : nat) (before : str) (previous_was_word : bool)
    : option str :=
  match s with
  | [] => Some before
  | c :: rest =>
      match skip with
      | S skip => decode_words_go rest skip [] previous_was_word
      | 0%nat =>
          if starts (lit "=?") s then
            let shown :=
              if previous_was_word && forallb is_whitespace before then [] else before in
            match encoded_word s with
            | WordPanics => None
            | NoWord => (λ out, shown ++ lit "=?" ++ out) <$> decode_words_go rest 1 [] false
            | Word word_text word_length =>
                (λ out, shown ++ word_text ++ out)
                  <$> decode_words_go rest (word_length - 1) [] true
            end
          else decode_words_go rest 0 (before ++ [c]) previous_was_word
      end
  end.
Definition decode_words `{Base64} (value : str) : option str := decode_words_go value 0 [] false.

(** ** Headers *)

Definition raw (name : str) (hs : Headers) : option str :=
  snd <$> List.find (λ h, str_eqb (fst h) name) hs.

(** [Headers::get]: panics with [decode_words]. *)
Definition get `{Base64} (name : str) (hs : Headers) : option (option str) :=
  match raw name hs with
  | Some value => Some <$> decode_words value
  | None => Some None
  end.

(** [Headers::all]. *)
Definition all `{Base64} (name : str) (hs : Headers) : option (list str) :=
  mapM (λ h, decode_words (snd h)) (List.filter (λ h, str_eqb (fst h) name) hs).

(** [split]: the header block and the body. *)
Fixpoint split (b : list N) : list N * list N :=
  if starts (CRLF ++ CRLF) b then ([], drop 4 b)
  else if starts [LF; LF] b then ([], drop 2 b)
  else match b with
       | [] => ([], [])
       | c :: rest => let '(head, body) := split rest in (c :: head, body)
       end.

(** [fields.last_mut()] extended by a continuation line. *)
Fixpoint extend_last (line : str) (fields : Headers) : Headers :=
  match fields with
  | [] => []
  | [(name, value)] => [(name, value ++ SP :: trim_start line)]
  | field :: fields => field :: extend_last line fields
  end.

Definition header_line (fields : Headers) (line : str) : Headers :=
  let line := strip_last CR line in
  if starts [SP] line || starts [TAB] line then extend_last line fields
  else match split_once 58 line with
       | Some (name, value) => fields ++ [(lowercase (trim name), trim value)]
       | None => fields
       end.

Definition parse_headers (b : list N) : Headers :=
  foldl header_line [] (split_on LF (from_utf8_lossy b)).

(** [parameter]: the scan visits the occurrences of the name from the left;
    [previous] is the character before the position. *)
Fixpoint parameter_go (name : str) (skip : nat) (previous : option N) (s : str) : option str :=
  match s with
  | [] => None
  | c :: rest =>
      match skip with
      | S skip => parameter_go name skip (Some c) rest
      | 0%nat =>
          if starts name (lowercase s) then
            let before_ok :=
              match previous with
              | None => true
              | Some p => (p =? 59) || (p =? SP) || (p =? TAB)
              end in
            match trim_start (drop (length name) s) with
            | e :: value =>
                if before_ok && (e =? EQUALS) then
                  let value := trim_start value in
                  Some (match value with
                        | q :: quoted =>
                            if q =? QUOTE then
                              match split_once QUOTE quoted with
                              | Some (inside, _) => inside
                              | None => quoted
                              end
                            else take_while (λ c, negb ((c =? 59) || (c =? SP) || (c =? TAB))) value
                        | [] => []
                        end)
                else parameter_go name (length name - 1) (Some c) rest
            | [] => parameter_go name (length name - 1) (Some c) rest
            end
          else parameter_go name 0 (Some c) rest
      end
  end.
Definition parameter (header name : str) : option str := parameter_go name 0 None header.

(** ** Multipart bodies *)

Definition trim_crlf (b : list N) : list N :=
  match rev b with
  | x :: y :: rest => if x =? LF then if y =? CR then rev rest else rev (y :: rest) else b
  | [x] => if x =? LF then [] else b
  | [] => b
  end.

(** [skip_line], as the number of bytes it moves. *)
Fixpoint skip_line (b : list N) : nat :=
  match b with
  | [] => 0
  | c :: rest => if c =? LF then 1 else S (skip_line rest)
  end.

(** The loop of [split_multipart]; [part] is what was read since [start]. *)
Fixpoint split_multipart_go (delimiter : list N) (b : list N) (at_line_start : bool) (skip : nat)
    (part : option (list N)) : list (list N) :=
  match b with
  | [] =>
      match part with
      | Some (c :: rest) => [trim_crlf (c :: rest)]
      | _ => []
      end
  | c :: rest =>
      match skip with
      | S skip => split_multipart_go delimiter rest (c =? LF) skip part
      | 0%nat =>
          if at_line_start && starts delimiter b then
            let done := match part with Some p => [trim_crlf p] | None => [] end in
            let after := drop (length delimiter) b in
            if starts (lit "--") after then done
            else done ++ split_multipart_go delimiter rest (c =? LF)
                   (length delimiter + skip_line after - 1) (Some [])
          else split_multipart_go delimiter rest (c =? LF) 0
                 ((λ p, p ++ [c]) <$> part)
      end
  end.
Definition split_multipart (body : list N) (boundary : str) : list (list N) :=
  split_multipart_go (lit "--" ++ as_bytes boundary) body true 0 None.

(** ** HTML *)

(** [collapse]. *)
Fixpoint collapse_go (s : str) (newlines : nat) (spaced : bool) (started : bool) : str :=
  match s with
  | [] => []
  | c :: rest =>
      if c =? LF then collapse_go rest (S newlines) true started
      else if is_whitespace c then collapse_go rest newlines true started
      else (if (0 <? newlines)%nat then (if (1 <? newlines)%nat then [LF; LF] else [LF])
            else if spaced && started then [SP] else [])
           ++ c :: collapse_go rest 0 false true
  end.
Definition collapse (s : str) : str := collapse_go s 0 false false.

Definition line_tags : list str := lit <$> ["<br"; "</p"; "<p>"; "<tr"].

(** The loop of [strip_html]: [skipping] is the tag whose end is looked for. *)
Fixpoint strip_html_go (s : str) (skip : nat) (skipping : option str) (depth : N) : str :=
  match s with
  | [] => []
  | c :: rest =>
      match skip with
      | S skip => strip_html_go rest skip skipping depth
      | 0%nat =>
          let lowered := lowercase s in
          let tag_at (_ : unit) :=
            match find_sub (lit ">") s with
            | Some close =>
                let depth := depth + 1 in
                (if existsb (str_eqb (take 3 lowered)) line_tags then [LF] else [SP])
                ++ (if 100000 <? depth then [] else strip_html_go rest close None depth)
            | None => []
            end in
          match skipping with
          | Some tag =>
              if starts (lit "</" ++ tag) lowered then tag_at tt
              else strip_html_go rest 0 skipping depth
          | None =>
              if negb (c =? 60) then c :: strip_html_go rest 0 None depth
              else if starts (lit "<style") lowered then strip_html_go rest 0 (Some (lit "style")) depth
              else if starts (lit "<script") lowered then strip_html_go rest 0 (Some (lit "script")) depth
              else tag_at tt
          end
      end
  end.
Definition strip_html (html : str) : str := collapse (strip_html_go html 0 None 0).

(** ** Reading *)

(** [truncate_utf8]: the characters that fit whole. *)
Fixpoint truncate_utf8 (s : str) (limit : N) : str :=
  match s with
  | [] => []
  | c :: rest =>
      let size := len (encode_char c) in
      if size <=? limit then c :: truncate_utf8 rest (limit - size) else []
  end.

Section reading.
Context `{Base64}.

(** What a text or an attachment part adds. *)
Definition leaf (hs : Headers) (content_type media : str) (body : list N) (out : Message)
    : option Message :=
  let decoded := decode_transfer (raw (lit "content-transfer-encoding") hs) body in
  let disposition := lowercase (default [] (raw (lit "content-disposition") hs)) in
  let attached := starts (lit "attachment") disposition
    || (negb (starts (lit "text/") media) && negb (starts (lit "multipart/") media)) in
  if attached then
    let name :=
      match parameter (default [] (raw (lit "content-disposition") hs)) (lit "filename") with
      | Some name => Some name
      | None => parameter content_type (lit "name")
      end in
    file ← match name with Some name => Some <$> decode_words name | None => Some None end;
    Some (mkMessage (headers out) (text out) (text_from_html out)
      (attachments out ++
        [mkAttachment file (if str_eqb media [] then lit "application/octet-stream" else media) decoded]))
  else
    let charset := default (lit "utf-8") (parameter content_type (lit "charset")) in
    let t := decode_text decoded charset in
    Some (if str_eqb media (lit "text/html") then
            if str_eqb (text out) [] then mkMessage (headers out) (strip_html t) true (attachments out)
            else out
          else if str_eqb (text out) [] || text_from_html out
          then mkMessage (headers out) t false (attachments out)
          else out).

(** [walk]; [levels] is [MAX_DEPTH + 1 - depth]. *)
Fixpoint walk (levels : nat) (hs : Headers) (body : list N) (budget : nat) (out : Message)
    : option (nat * Message) :=
  match levels, budget with
  | 0%nat, _ | _, 0%nat => Some (budget, out)
  | S levels, S budget =>
      let content_type := default (lit "text/plain") (raw (lit "content-type") hs) in
      let media := lowercase (trim (take_while (λ c, negb (c =? 59)) content_type)) in
      match parameter content_type (lit "boundary") with
      | Some boundary =>
          if starts (lit "multipart/") media then
            foldl (λ state part,
                '(budget, out) ← state;
                let '(part_headers, part_body) := split part in
                walk levels (parse_headers part_headers) part_body budget out)
              (Some (budget, out)) (split_multipart body boundary)
          else (λ out, (budget, out)) <$> leaf hs content_type media body out
      | None => (λ out, (budget, out)) <$> leaf hs content_type media body out
      end
  end.

Definition parse (b : list N) : option Message :=
  let '(head, body) := split b in
  let hs := parse_headers head in
  '(_, out) ← walk (MAX_DEPTH + 1) hs body MAX_PARTS (mkMessage [] [] false []);
  let t := text out in
  Some (mkMessage hs (if MAX_BODY_BYTES <? byte_len t then truncate_utf8 t MAX_BODY_BYTES else t)
          (text_from_html out) (attachments out)).
End reading.

(** ** Writing *)

Record Outgoing : Type := mkOutgoing {
  message_id : str;
  date : str;
  from : str;
  display_name : option str;
  to : list str;
  cc : list str;
  subject : str;
  in_reply_to : option str;
  references : list str;
  out_text : str;
}.

Definition recipients (m : Outgoing) : list str := to m ++ cc m.

Inductive WriteError : Type := HeaderTooLong.

(** The lines of a text, without their endings. *)
Definition text_lines (s : str) : list str := strip_last CR <$> split_on LF s.

Definition is_seven_bit (s : str) : bool :=
  forallb (λ line,
    (byte_len line <=? 78)
    && negb (is_some_and (last line) (λ c, (c =? SP) || (c =? TAB)))
    && forallb (λ b, (b =? TAB) || between 0x20 b 0x7e) (as_bytes line)) (text_lines s).

Definition crlf (s : str) : str := join_with CRLF (text_lines s).

(** [{byte:02X}]. *)
Definition hex_upper (d : N) : N := if d <? 10 then 48 + d else 55 + d.
Definition escape_byte (b : N) : str := [EQUALS; hex_upper (b / 16); hex_upper (b mod 16)].

Definition escaped (last_byte : bool) (b : N) : bool :=
  if (b =? SP) || (b =? TAB) then last_byte
  else if b =? EQUALS then true
  else negb (between 0x21 b 0x7e).

(** [encode_line], from the column it has reached. *)
Fixpoint encode_line_go (b : list N) (column : N) : str :=
  match b with
  | [] => []
  | byte :: rest =>
      let esc := escaped (match rest with [] => true | _ => false end) byte in
      let width := if esc then 3 else 1 in
      let breaks := 75 <? column + width in
      (if breaks then EQUALS :: CRLF else [])
      ++ (if esc then escape_byte byte else [byte])
      ++ encode_line_go rest ((if breaks then 0 else column) + width)
  end.
Definition encode_line (line : str) : str := encode_line_go (as_bytes line) 0.

Definition quoted_printable (s : str) : str := join_with CRLF (encode_line <$> text_lines s).

Section writing.
Context `{Base64}.

Definition encode_word (s : str) : str := lit "=?utf-8?B?" ++ b64_encode (as_bytes s) ++ lit "?=".

(** The words of [encode_header], of at most 45 bytes each. *)
Fixpoint encode_chunks (s : str) (chunk : str) : list str :=
  match s with
  | [] => match chunk with [] => [] | _ => [encode_word chunk] end
  | c :: rest =>
      if 45 <? byte_len chunk + len (encode_char c)
      then encode_word chunk :: encode_chunks rest [c]
      else encode_chunks rest (chunk ++ [c])
  end.

Definition not_newline (c : N) : bool := negb ((c =? CR) || (c =? LF)).

Definition encode_header (value : str) : str :=
  let value := List.filter not_newline value in
  if is_ascii value then value else join_with [SP] (encode_chunks value []).

Definition escape_quoted (name : str) : str :=
  flat_map (λ c, if (c =? QUOTE) || (c =? 92) then [92; c] else [c]) (List.filter not_newline name).

Definition mailbox (display : option str) (address : str) : str :=
  match display with
  | Some name =>
      if forallb is_whitespace name then address
      else if is_ascii name then [QUOTE] ++ escape_quoted name ++ [QUOTE] ++ lit " <" ++ address ++ lit ">"
      else encode_header name ++ lit " <" ++ address ++ lit ">"
  | None => address
  end.

Definition address_list (addresses : list str) : str := join_with (lit ", ") addresses.

Definition angle (id : str) : str :=
  let trimmed := trim (drop_while_end (N.eqb 62) (drop_while (N.eqb 60) (trim id))) in
  lit "<"
  ++ List.filter (λ c, negb (is_whitespace c) && negb ((c =? 60) || (c =? 62) || (c =? CR) || (c =? LF)))
       trimmed
  ++ lit ">".

(** The loop of [fold] over the tokens; [start] is the column after the name
    and its colon. *)
Fixpoint fold_go (start : N) (tokens : list str) (column : N) : result str WriteError :=
  match tokens with
  | [] => Ok CRLF
  | token :: tokens =>
      if (997 <? byte_len token) || ((column =? start) && (998 <? column + 1 + byte_len token))
      then Err HeaderTooLong
      else
        let folds := (78 <? column + 1 + byte_len token) && (start <? column) in
        let? rest := fold_go start tokens ((if folds then 1 else column + 1) + byte_len token) in
        Ok ((if folds then CRLF ++ [SP] else [SP]) ++ token ++ rest)
  end.
Definition fold (name value : str) : result str WriteError :=
  let value := trim value in
  if str_eqb value [] then Ok (name ++ lit ":" ++ CRLF)
  else
    let start := byte_len name + 1 in
    let? rest := fold_go start (split_on SP value) start in
    Ok (name ++ lit ":" ++ rest).

(** [write]. *)
Definition write (m : Outgoing) : result (list N) WriteError :=
  let? date_line := fold (lit "Date") (date m) in
  let? from_line := fold (lit "From") (mailbox (display_name m) (from m)) in
  let? to_line := fold (lit "To") (address_list (to m)) in
  let? cc_line := if bool_decide (cc m = []) then Ok [] else fold (lit "Cc") (address_list (cc m)) in
  let? subject_line := fold (lit "Subject") (encode_header (subject m)) in
  let? id_line := fold (lit "Message-Id") (angle (message_id m)) in
  let? parent_line :=
    match in_reply_to m with
    | Some parent => fold (lit "In-Reply-To") (angle parent)
    | None => Ok []
    end in
  let? chain_line :=
    if bool_decide (references m = []) then Ok []
    else fold (lit "References") (join_with [SP] (angle <$> references m)) in
  let seven_bit := is_seven_bit (out_text m) in
  let out :=
    date_line ++ from_line ++ to_line ++ cc_line ++ subject_line ++ id_line ++ parent_line
    ++ chain_line
    ++ lit "MIME-Version: 1.0" ++ CRLF
    ++ lit "Content-Type: text/plain; charset=" ++ [QUOTE] ++ lit "utf-8" ++ [QUOTE] ++ CRLF
    ++ lit (if seven_bit then "Content-Transfer-Encoding: 7bit"
            else "Content-Transfer-Encoding: quoted-printable") ++ CRLF
    ++ CRLF
    ++ (if seven_bit then crlf (out_text m) else quoted_printable (out_text m)) in
  Ok (as_bytes (if starts [LF; CR] (rev out) then out else out ++ CRLF)).
End writing.

(** ** Addresses and dates *)

Definition valid_address (value : str) : bool :=
  match split_once 64 value with
  | None => false
  | Some (local, domain) =>
      if existsb (N.eqb 64) domain || (320 <? byte_len value) || str_eqb local []
         || (byte_len domain <? 3)
      then false
      else
        negb (existsb (λ c, is_whitespace c || is_control_char c || negb (c <? 128)
                || existsb (N.eqb c) (lit "<>,;:\()" ++ [QUOTE])) value)
        && existsb (N.eqb 46) domain
        && negb (starts [46] domain)
        && negb (starts [46] (rev domain))
  end.

Local Open Scope Z_scope.

(** [civil_from_days], by 64-bit Euclidean division. *)
Definition civil_from_days (days : Z) : Z * Z * Z :=
  let shifted := days + 719468 in
  let era := shifted / 146097 in
  let day_of_era := shifted mod 146097 in
  let year_of_era :=
    (day_of_era - day_of_era / 1460 + day_of_era / 36524 - day_of_era / 146096) / 365 in
  let year := year_of_era + era * 400 in
  let day_of_year := day_of_era - (365 * year_of_era + year_of_era / 4 - year_of_era / 100) in
  let shifted_month := (5 * day_of_year + 2) / 153 in
  let day := day_of_year - (153 * shifted_month + 2) / 5 + 1 in
  let month := if shifted_month <? 10 then shifted_month + 3 else shifted_month - 9 in
  ((if month <=? 2 then year + 1 else year), month, day).

Definition WEEKDAYS : list string := ["Thu"; "Fri"; "Sat"; "Sun"; "Mon"; "Tue"; "Wed"].
Definition MONTHS : list string :=
  ["Jan"; "Feb"; "Mar"; "Apr"; "May"; "Jun"; "Jul"; "Aug"; "Sep"; "Oct"; "Nov"; "Dec"].

(** [{:02}]. *)
Definition two_digits (n : Z) : string :=
  (if n <? 10 then "0" else "") +:+ i64_to_string n.

(** [rfc5322_date]; an index out of a table panics. *)
Definition rfc5322_date (ms : Z) : option str :=
  let days := ms / 86400000 in
  let rest := (ms mod 86400000) / 1000 in
  let '(year, month, day) := civil_from_days days in
  weekday ← WEEKDAYS !! Z.to_nat (days mod 7);
  name ← MONTHS !! Z.to_nat (month - 1);
  Some (lit (weekday +:+ ", " +:+ i64_to_string day +:+ " " +:+ name +:+ " " +:+ i64_to_string year
    +:+ " " +:+ two_digits (rest / 3600) +:+ ":" +:+ two_digits ((rest / 60) mod 60)
    +:+ ":" +:+ two_digits (rest mod 60) +:+ " +0000")).
