(* ===== verification/MimeSpec.v ===== *)
(** Quoted-printable text of the email plugin comes back as it was written and
    fits its lines. *)
From stdpp Require Import base tactics option list strings.
From Stdlib Require Import ZArith NArith Lia.
From S2P Require Import Prelude Utf8 Text Mime.

Local Open Scope N_scope.

(** A [str]: every character is a scalar value. *)
Definition valid (s : str) : Prop := Forall (λ c, is_scalar c = true) s.

(** ** Bytes *)

Lemma encode_ascii c : c < 128 → encode_char c = [c].
Proof. intros Hc. unfold encode_char. by rewrite (proj2 (N.ltb_lt _ _)). Qed.

Lemma as_bytes_ascii s : Forall (λ c, c < 128) s → as_bytes s = s.
Proof.
  induction 1 as [|c s Hc _ IH]; [done|]. unfold as_bytes in *. simpl. by rewrite encode_ascii, IH.
Qed.

Lemma as_bytes_app a b : as_bytes (a ++ b) = as_bytes a ++ as_bytes b.
Proof. apply flat_map_app. Qed.

Lemma encode_bytes c : is_scalar c = true → Forall (λ b, b < 256) (encode_char c).
Proof.
  intros Hs. assert (c < 0x110000) by (unfold is_scalar, between in Hs; apply orb_true_iff in Hs as [Hs|Hs]; bool_cases; lia).
  unfold encode_char. repeat case_match; bool_cases; repeat constructor; try lia; divmods.
Qed.

Lemma valid_bytes s : valid s → Forall (λ b, b < 256) (as_bytes s).
Proof.
  induction 1 as [|c s Hc _ IH]; [constructor|]. unfold as_bytes in *. simpl.
  apply Forall_app. split; [by apply encode_bytes|done].
Qed.

(** ** Quoted-printable *)

Lemma hex_upper_digit d : d < 16 → hex_digit (hex_upper d) = Some d ∧ hex_upper d ≠ 43 ∧
  hex_upper d ≠ LF ∧ hex_upper d ≠ CR ∧ hex_upper d < 128.
Proof.
  intros Hd. unfold hex_upper, hex_digit, between, LF, CR.
  destruct (N.ltb_spec d 10).
  - rewrite (proj2 (N.leb_le 48 _)) by lia. rewrite (proj2 (N.leb_le _ 57)) by lia. simpl.
    split_and!; [f_equal; lia|lia..].
  - rewrite (proj2 (N.leb_le 48 _)) by lia. rewrite (proj2 (N.leb_gt _ 57)) by lia.
    rewrite (proj2 (N.leb_gt 97 _)) by lia. simpl.
    rewrite (proj2 (N.leb_le 65 _)) by lia. rewrite (proj2 (N.leb_le _ 70)) by lia. simpl.
    split_and!; [f_equal; lia|lia..].
Qed.

Lemma decode_escape b rest : b < 256 →
  decode_quoted_printable (escape_byte b ++ rest) = b :: decode_quoted_printable rest.
Proof.
  intros Hb. unfold escape_byte. cbn [app decode_quoted_printable].
  destruct (hex_upper_digit (b / 16)) as (Hh & Hp & Hlf & Hcr & _); [apply N.Div0.div_lt_upper_bound; lia|].
  destruct (hex_upper_digit (b mod 16)) as (Hl & _); [apply N.mod_lt; lia|].
  rewrite N.eqb_refl. cbn [negb]. rewrite (proj2 (N.eqb_neq _ _) Hlf).
  destruct (_ && _) eqn:E.
  - apply andb_true_iff in E as [E _]. by apply N.eqb_eq in E.
  - unfold hex_pair. rewrite Hl, (proj2 (N.eqb_neq _ _) Hp), Hh. f_equal.
    rewrite N.mul_comm. symmetry. apply N.div_mod. lia.
Qed.

Lemma decode_plain b rest : b ≠ EQUALS →
  decode_quoted_printable (b :: rest) = b :: decode_quoted_printable rest.
Proof. intros Hb. cbn [decode_quoted_printable]. by rewrite (proj2 (N.eqb_neq _ _) Hb). Qed.

Lemma decode_soft_break rest :
  decode_quoted_printable (EQUALS :: CRLF ++ rest) = decode_quoted_printable rest.
Proof. reflexivity. Qed.

Lemma not_escaped l b : escaped l b = false → b ≠ EQUALS ∧ b < 128 ∧ b ≠ CR ∧ b ≠ LF.
Proof.
  unfold escaped, between, SP, TAB, EQUALS, CR, LF. intros He.
  destruct (_ || _) eqn:E1; [apply orb_true_iff in E1 as [E1|E1]; bool_cases; lia|].
  destruct (_ =? 61) eqn:E2; [done|]. apply negb_false_iff, andb_true_iff in He as [H1 H2]. bool_cases. lia.
Qed.

Lemma decode_line b : ∀ column rest, Forall (λ b, b < 256) b →
  decode_quoted_printable (encode_line_go b column ++ rest) = b ++ decode_quoted_printable rest.
Proof.
  induction b as [|x b IH]; intros column rest Hb; [done|].
  apply Forall_cons in Hb as [Hx Hb]. cbn [encode_line_go]. rewrite <- !app_assoc.
  set (l := match b with [] => true | _ => false end).
  set (col := _ + _) at 2. clearbody col.
  assert (decode_quoted_printable ((if escaped l x then escape_byte x else [x]) ++ encode_line_go b col ++ rest)
          = (x :: b) ++ decode_quoted_printable rest) as Hd.
  { destruct (escaped l x) eqn:Ee.
    - rewrite decode_escape by done. by rewrite IH.
    - apply not_escaped in Ee as [Ee _]. cbn [app]. rewrite decode_plain by done. by rewrite IH. }
  destruct (75 <? _); exact Hd.
Qed.

Lemma Forall_split_on (P : N → Prop) c s : Forall P s → Forall (Forall P) (split_on c s).
Proof.
  induction 1 as [|x s Hx _ IH]; simpl; [by repeat constructor|].
  destruct (x =? c); [by constructor|].
  destruct (split_on c s) as [|piece pieces]; [by repeat constructor|].
  apply Forall_cons in IH as [Hp Hps]. by repeat constructor.
Qed.

Lemma strip_last_prefix c s : strip_last c s `prefix_of` s.
Proof.
  unfold strip_last. destruct (last s) as [x|] eqn:E; [|done]. destruct (x =? c); [|done].
  apply last_Some in E as [l ->]. rewrite removelast_last. by exists [x].
Qed.

Lemma Forall_text_lines (P : N → Prop) s : Forall P s → Forall (Forall P) (text_lines s).
Proof.
  intros Hs. apply Forall_fmap. eapply Forall_impl; [by apply Forall_split_on|].
  intros line Hl. destruct (strip_last_prefix CR line) as [r Hr]. rewrite Hr in Hl.
  by apply Forall_app in Hl as [? _].
Qed.

Lemma join_cons sep a b l : join_with sep (a :: b :: l) = a ++ sep ++ join_with sep (b :: l).
Proof. done. Qed.

Lemma as_bytes_join sep l : Forall (λ c, c < 128) sep →
  as_bytes (join_with sep l) = join_with sep (as_bytes <$> l).
Proof.
  intros Hs. induction l as [|a [|b l] IH]; [done|done|].
  rewrite !fmap_cons in *. rewrite !join_cons, !as_bytes_app, IH, (as_bytes_ascii sep) by done. done.
Qed.

Lemma Forall_join (P : N → Prop) sep l : Forall P sep → Forall (Forall P) l → Forall P (join_with sep l).
Proof.
  intros Hs. induction 1 as [|a [|b l] Ha _ IH]; [constructor|done|].
  rewrite join_cons, !Forall_app. done.
Qed.

Lemma crlf_ascii : Forall (λ c, c < 128) CRLF.
Proof. repeat constructor; done. Qed.

Lemma encode_line_ascii b : ∀ column, Forall (λ b, b < 256) b →
  Forall (λ c, c < 128) (encode_line_go b column).
Proof.
  induction b as [|x b IH]; intros column Hb; [constructor|]. apply Forall_cons in Hb as [Hx Hb].
  cbn [encode_line_go]. rewrite !Forall_app. split_and!; [| |by apply IH].
  - destruct (75 <? _); repeat constructor; done.
  - destruct (escaped _ x) eqn:Ee.
    + assert (x / 16 < 16) by (apply N.Div0.div_lt_upper_bound; lia).
      assert (x mod 16 < 16) by (apply N.mod_lt; lia).
      constructor; [done|]. constructor; [by apply hex_upper_digit|].
      constructor; [by apply hex_upper_digit|constructor].
    + apply not_escaped in Ee as (_ & ? & _). by repeat constructor.
Qed.

Lemma quoted_ascii s : valid s → Forall (λ c, c < 128) (quoted_printable s).
Proof.
  intros Hs. apply Forall_join; [apply crlf_ascii|]. apply Forall_fmap.
  eapply Forall_impl; [by apply Forall_text_lines|]. intros line Hl.
  by apply encode_line_ascii, valid_bytes.
Qed.

(** The columns of a text: a line feed starts a line, a carriage return takes
    no place. *)
Fixpoint fits (limit column : N) (s : str) : bool :=
  match s with
  | [] => true
  | c :: rest =>
      if c =? LF then fits limit 0 rest
      else if c =? CR then fits limit column rest
      else (column + 1 <=? limit) && fits limit (column + 1) rest
  end.

Lemma fits_plain limit column c rest : c ≠ LF → c ≠ CR → column + 1 ≤ limit →
  fits limit column (c :: rest) = fits limit (column + 1) rest.
Proof.
  intros Hl Hc Hle. cbn [fits]. rewrite (proj2 (N.eqb_neq _ _) Hl), (proj2 (N.eqb_neq _ _) Hc).
  by rewrite (proj2 (N.leb_le _ _)).
Qed.

Lemma encode_line_fits b : ∀ column rest, column ≤ 75 → Forall (λ b, b < 256) b →
  (∀ column, column ≤ 75 → fits 76 column rest = true) →
  fits 76 column (encode_line_go b column ++ rest) = true.
Proof.
  induction b as [|x b IH]; intros column rest Hcol Hb Hrest; [by apply Hrest|].
  apply Forall_cons in Hb as [Hx Hb]. cbn [encode_line_go].
  set (l := match b with [] => true | _ => false end).
  set (width := if escaped l x then 3 else 1) in *.
  assert (∀ col, col + width ≤ 75 →
    fits 76 col (((if escaped l x then escape_byte x else [x]) ++ encode_line_go b (col + width)) ++ rest) = true) as Hgo.
  { intros col Hle. subst width. destruct (escaped l x) eqn:Ee.
    - assert (x / 16 < 16) by (apply N.Div0.div_lt_upper_bound; lia).
      assert (x mod 16 < 16) by (apply N.mod_lt; lia).
      destruct (hex_upper_digit (x / 16)) as (_ & _ & ? & ? & _); [done|].
      destruct (hex_upper_digit (x mod 16)) as (_ & _ & ? & ? & _); [done|].
      unfold escape_byte. cbn [app]. rewrite !fits_plain; try done; try lia.
      replace (col + 1 + 1 + 1) with (col + 3) by lia. by apply IH.
    - apply not_escaped in Ee as (_ & _ & ? & ?). cbn [app].
      rewrite fits_plain; try done; [|lia]. by apply IH. }
  destruct (N.ltb_spec 75 (column + width)) as [Hb'|Hb'].
  - change ((EQUALS :: CRLF) ++ ?r) with (EQUALS :: CR :: LF :: r).
    cbn [app]. rewrite fits_plain; [|done|done|lia]. cbn [fits]. rewrite N.eqb_refl.
    change (CR =? LF) with false. cbn iota. rewrite N.eqb_refl. apply Hgo.
    subst width. destruct (escaped l x); lia.
  - cbn [app]. by apply Hgo.
Qed.

Lemma join_fits ls : Forall (Forall (λ b, b < 256)) (as_bytes <$> ls) → ∀ rest,
  (∀ column, column ≤ 75 → fits 76 column rest = true) →
  fits 76 0 (join_with CRLF (encode_line <$> ls) ++ rest) = true.
Proof.
  intros Hl rest Hrest. revert Hl. induction ls as [|a [|b ls] IH]; intros Hl; [by apply Hrest|..].
  - apply Forall_cons in Hl as [Ha _]. by apply encode_line_fits.
  - rewrite !fmap_cons, join_cons, <- !app_assoc. apply Forall_cons in Hl as [Ha Hl].
    apply encode_line_fits; [done|done|]. intros column Hc. cbn [app CRLF fits].
    change (CR =? LF) with false. rewrite !N.eqb_refl. rewrite !fmap_cons in *. by apply IH.
Qed.

(** What a line shows. *)
Definition visible (line : str) : str := List.filter (λ c, negb (c =? CR)) line.

Lemma fits_lines limit s : ∀ column, fits limit column s = true → column ≤ limit →
  match split_on LF s with
  | first :: rest => column + len (visible first) ≤ limit ∧
      Forall (λ line, len (visible line) ≤ limit) rest
  | [] => False
  end.
Proof.
  induction s as [|c s IH]; intros column Hf Hc; cbn [split_on fits] in *; [by split; [unfold len; simpl; lia|]|].
  destruct (c =? LF) eqn:El.
  - apply IH in Hf; [|lia]. destruct (split_on LF s) as [|first rest]; [done|]. destruct Hf as [H1 H2].
    split; [unfold len; simpl; lia|]. constructor; [lia|done].
  - destruct (c =? CR) eqn:Ec.
    + apply IH in Hf; [|done]. destruct (split_on LF s) as [|first rest]; [done|].
      unfold visible in *. simpl. rewrite Ec. done.
    + apply andb_true_iff in Hf as [Hle Hf]. apply N.leb_le in Hle. apply IH in Hf; [|done].
      destruct (split_on LF s) as [|first rest]; [done|]. destruct Hf as [H1 H2]. split; [|done].
      unfold visible in *. simpl. rewrite Ec. simpl. unfold len in *. simpl. lia.
Qed.

Lemma decode_joined ls : Forall (Forall (λ b, b < 256)) (as_bytes <$> ls) →
  decode_quoted_printable (join_with CRLF (encode_line <$> ls)) = join_with CRLF (as_bytes <$> ls).
Proof.
  induction ls as [|a [|b ls] IH]; intros Hl; [done|..]; apply Forall_cons in Hl as [Ha Hl].
  - change (decode_quoted_printable (encode_line_go (as_bytes a) 0) = as_bytes a).
    rewrite <- (app_nil_r (encode_line_go _ _)), decode_line by done. apply app_nil_r.
  - change (encode_line <$> a :: b :: ls) with (encode_line a :: encode_line b :: (encode_line <$> ls)).
    change (as_bytes <$> a :: b :: ls) with (as_bytes a :: as_bytes b :: (as_bytes <$> ls)).
    rewrite !join_cons. unfold encode_line at 1. rewrite decode_line by done. f_equal.
    cbn [app CRLF]. rewrite decode_plain by done. rewrite decode_plain by done. do 2 f_equal.
    by apply IH.
Qed.

(** (C30) Quoted-printable text comes back as it was written: for every text,
    decoding its encoding gives the bytes of the text with its line endings
    normalised to CRLF, so nothing is lost in transit whatever the text holds,
    and no line of the encoding is longer than the 76 characters the format
    allows. *)
Theorem quoted_printable_roundtrip s (Hs : valid s) :
  decode_quoted_printable (as_bytes (quoted_printable s)) = as_bytes (crlf s) ∧
  Forall (λ line, len (visible line) ≤ 76) (split_on LF (quoted_printable s)).
Proof.
  assert (Forall (Forall (λ b, b < 256)) (as_bytes <$> text_lines s)) as Hl.
  { apply Forall_fmap. eapply Forall_impl; [by apply Forall_text_lines|]. intros line. apply valid_bytes. }
  split.
  - rewrite as_bytes_ascii by by apply quoted_ascii. unfold crlf, quoted_printable.
    rewrite as_bytes_join by apply crlf_ascii. by apply decode_joined.
  - pose proof (fits_lines 76 (quoted_printable s) 0) as Hf. unfold quoted_printable at 1 in Hf.
    rewrite <- (app_nil_r (join_with _ _)) in Hf.
    specialize (Hf (join_fits _ Hl [] (λ _ _, eq_refl)) ltac:(lia)).
    destruct (split_on LF (quoted_printable s)) as [|first rest]; [done|].
    destruct Hf as [H1 H2]. constructor; [lia|done].
Qed.
