(* ===== verification/MimeHeaders.v ===== *)
(** A written message has the headers that were meant and no others: folding a
    header and reading it back, line by line, and the header block as a
    whole. *)
From stdpp Require Import base tactics option list strings.
From Stdlib Require Import ZArith NArith Lia.
From S2P Require Import Prelude Utf8 Text Mime MimeSpec.

Local Open Scope N_scope.

(** No character of a line ending. *)
Definition clean (s : list N) : Prop := Forall (λ c, c ≠ CR ∧ c ≠ LF) s.

(** The same of a [str]. *)
Definition printed (s : str) : Prop := Forall (λ c, is_scalar c = true ∧ c ≠ CR ∧ c ≠ LF) s.

Lemma printed_clean s : printed s → clean s.
Proof. intros Hs. eapply Forall_impl; [exact Hs|]. by intros c (_ & ? & ?). Qed.

Lemma printed_valid s : printed s → valid s.
Proof. intros Hs. eapply Forall_impl; [exact Hs|]. by intros c (? & _ & _). Qed.

(** ** Words *)

Lemma words_space a : ∀ word c b, is_whitespace c = true →
  words_go word (a ++ c :: b) = words_go word a ++ split_whitespace b.
Proof.
  induction a as [|x a IH]; intros word c b Hc; cbn [words_go app].
  - rewrite Hc. by destruct word.
  - destruct (is_whitespace x); [|by apply IH]. destruct word; rewrite IH by done; done.
Qed.

Lemma words_app a c b : is_whitespace c = true →
  split_whitespace (a ++ c :: b) = split_whitespace a ++ split_whitespace b.
Proof. apply words_space. Qed.

Lemma words_cons c b : is_whitespace c = true → split_whitespace (c :: b) = split_whitespace b.
Proof. intros Hc. by apply (words_app [] c b). Qed.

Lemma words_sp b : split_whitespace (SP :: b) = split_whitespace b.
Proof. by apply words_cons. Qed.

Lemma words_trim_start s : split_whitespace (trim_start s) = split_whitespace s.
Proof.
  induction s as [|c s IH]; [done|]. unfold trim_start in *. cbn [drop_while].
  destruct (is_whitespace c) eqn:E; [|done]. by rewrite IH, words_cons.
Qed.

Lemma trim_end_split s : ∃ r, s = trim_end s ++ r ∧ forallb is_whitespace r = true.
Proof.
  unfold trim_end, drop_while_end. induction s as [|c s IH] using rev_ind; [by exists []|].
  rewrite rev_app_distr. cbn [rev app drop_while]. destruct (is_whitespace c) eqn:E.
  - destruct IH as (r & Hr & Hw). exists (r ++ [c]). rewrite forallb_app, Hw. simpl. rewrite E.
    split; [|done]. rewrite app_assoc. by rewrite <- Hr.
  - exists []. rewrite app_nil_r. cbn [rev]. by rewrite rev_involutive.
Qed.

Lemma words_blank r : forallb is_whitespace r = true → split_whitespace r = [].
Proof.
  induction r as [|c r IH]; [done|]. intros [Hc Hr]%andb_true_iff.
  by rewrite words_cons, IH.
Qed.

Lemma words_trim s : split_whitespace (trim s) = split_whitespace s.
Proof.
  unfold trim. rewrite <- (words_trim_start s). destruct (trim_end_split (trim_start s)) as ([|c r] & Hr & Hw).
  - by rewrite app_nil_r in Hr; rewrite <- Hr.
  - apply andb_true_iff in Hw as [Hc Hw]. apply (f_equal split_whitespace) in Hr.
    rewrite words_app, (words_blank r Hw), app_nil_r in Hr by done. done.
Qed.

Lemma words_split s : concat (split_whitespace <$> split_on SP s) = split_whitespace s.
Proof.
  assert (∀ s, split_on SP s ≠ []) as Hne
    by (intros [|c r]; simpl; [done|]; destruct (c =? SP); [done|]; by destruct (split_on SP r)).
  assert (∀ s word, match split_on SP s with
          | first :: rest => words_go word first ++ concat (split_whitespace <$> rest) = words_go word s
          | [] => False
          end) as Hgo.
  { clear s. induction s as [|c s IH]; intros word; cbn [split_on]; [by rewrite app_nil_r|].
    destruct (N.eqb_spec c SP) as [->|Hc].
    - specialize (IH []). destruct (split_on SP s) as [|first rest]; [done|]. csimpl.
      unfold split_whitespace at 1. rewrite IH. by destruct word.
    - destruct (split_on SP s) as [|first rest]; [done|]. cbn [words_go].
      destruct (is_whitespace c); [|apply IH]. specialize (IH []).
      destruct word; [done|]. simpl. by rewrite IH. }
  specialize (Hgo s []). destruct (split_on SP s); [done|]. exact Hgo.
Qed.

(** ** Folding *)

(** A folded header: its first line and its continuation lines. *)
Definition header_lines (name first : str) (more : list str) : list str :=
  (name ++ 58 :: first) :: (cons SP <$> more).
Definition as_lines (lines : list str) : str := concat ((λ line, line ++ CRLF) <$> lines).

Definition folded (name value : str) (lines : list str) : Prop :=
  ∃ first more, lines = header_lines name first more ∧ printed first ∧ Forall printed more ∧
    split_whitespace first ++ concat (split_whitespace <$> more) = split_whitespace value.

Lemma shift_endings (first : str) more :
  first ++ concat ((λ l, CRLF ++ SP :: l) <$> more) ++ CRLF = (first ++ CRLF) ++ as_lines (cons SP <$> more).
Proof.
  revert first. induction more as [|l more IH]; intros first; [by rewrite app_nil_r|]. csimpl.
  unfold as_lines. csimpl. rewrite <- !app_assoc. f_equal. cbn [app CRLF]. do 3 f_equal.
  specialize (IH l). unfold as_lines in IH. rewrite <- app_assoc in IH. exact IH.
Qed.

Lemma fold_go_lines start tokens : ∀ column out, Forall printed tokens →
  fold_go start tokens column = Ok out →
  ∃ first more, out = first ++ concat ((λ l, CRLF ++ SP :: l) <$> more) ++ CRLF ∧
    printed first ∧ Forall printed more ∧ (first = [] ∨ ∃ r, first = SP :: r) ∧
    split_whitespace first ++ concat (split_whitespace <$> more) = concat (split_whitespace <$> tokens).
Proof.
  induction tokens as [|token tokens IH]; intros column out Hc Ho; cbn [fold_go] in Ho.
  { injection Ho as <-. exists [], []. split_and!; [done|constructor|constructor|by left|done]. }
  apply Forall_cons in Hc as [Ht Hc]. destruct (_ || _); [done|].
  apply result_bind_ok in Ho as (rest & Hr & [= <-]).
  apply IH in Hr as (first & more & -> & Hf & Hm & Hshape & Hw); [|done]. csimpl. rewrite <- Hw.
  assert (split_whitespace (token ++ first) = split_whitespace token ++ split_whitespace first) as Ha.
  { destruct Hshape as [->|[r ->]]; [by rewrite !app_nil_r|]. by rewrite words_app, words_sp. }
  assert (printed (token ++ first)) by by apply Forall_app.
  destruct (_ && _).
  - exists [], ((token ++ first) :: more). csimpl. rewrite Ha, <- !app_assoc.
    split_and!; [done|constructor|by constructor|by left|done].
  - exists (SP :: token ++ first), more. rewrite words_sp, Ha, <- !app_assoc.
    split_and!; [simpl; by rewrite <- ?app_assoc|by constructor|done|by right; eexists|done].
Qed.

Lemma Forall_drop_while (P : N → Prop) p s : Forall P s → Forall P (drop_while p s).
Proof. induction 1 as [|c s Hc Hs IH]; simpl; [constructor|]. destruct (p c); [done|by constructor]. Qed.

Lemma Forall_trim (P : N → Prop) s : Forall P s → Forall P (trim s).
Proof.
  intros Hs. unfold trim, trim_end, drop_while_end. apply Forall_rev, Forall_drop_while, Forall_rev.
  by apply Forall_drop_while.
Qed.

(** Folding a value without line endings gives a header with its words. *)
Lemma fold_lines name value out : printed value → fold name value = Ok out →
  ∃ lines, out = as_lines lines ∧ folded name value lines.
Proof.
  intros Hc Hf. unfold fold, str_eqb in Hf. case_bool_decide as Hnil.
  - injection Hf as <-. exists (header_lines name [] []). split.
    + unfold as_lines, header_lines. csimpl. by rewrite app_nil_r, <- app_assoc.
    + exists [], []. split_and!; [done|constructor|constructor|]. by rewrite <- (words_trim value), Hnil.
  - apply result_bind_ok in Hf as (rest & Hr & [= <-]).
    apply fold_go_lines in Hr as (first & more & -> & Hfirst & Hmore & _ & Hw);
      [|by apply Forall_split_on, Forall_trim].
    rewrite words_split, words_trim in Hw. exists (header_lines name first more). split.
    + unfold as_lines, header_lines. csimpl. rewrite shift_endings.
      unfold as_lines. by rewrite <- !app_assoc.
    + by exists first, more.
Qed.

(** ** Reading a header block *)

Lemma clean_bytes s : clean s → clean (as_bytes s).
Proof.
  induction 1 as [|c s [Hcr Hlf] _ IH]; [constructor|]. unfold as_bytes in *. simpl. apply Forall_app.
  split; [|done]. unfold encode_char, CR, LF in *.
  repeat case_match; repeat (apply Forall_cons_2; [split; divmods|]); apply Forall_nil_2.
Qed.

Lemma as_lines_join lines : lines ≠ [] → as_lines lines = join_with CRLF lines ++ CRLF.
Proof.
  induction lines as [|a [|b lines] IH]; [done|by unfold as_lines; csimpl; rewrite app_nil_r|].
  intros _. rewrite join_cons, <- !app_assoc. trans (a ++ CRLF ++ as_lines (b :: lines)).
  - unfold as_lines. csimpl. by rewrite <- !app_assoc.
  - by rewrite IH.
Qed.

Lemma split_on_clean s rest : clean s → split_on LF (s ++ LF :: rest) = s :: split_on LF rest.
Proof.
  induction 1 as [|c s [Hcr Hlf] _ IH]; cbn [split_on app]; [done|].
  by rewrite (proj2 (N.eqb_neq _ _) Hlf), IH.
Qed.

Lemma split_on_none s : clean s → split_on LF s = [s].
Proof.
  induction 1 as [|c s [Hcr Hlf] _ IH]; cbn [split_on app]; [done|].
  by rewrite (proj2 (N.eqb_neq _ _) Hlf), IH.
Qed.

Lemma strip_clean s : clean s → strip_last CR s = s.
Proof.
  intros Hs. unfold strip_last. destruct (last s) as [x|] eqn:E; [|done].
  apply last_Some in E as [l ->]. apply Forall_app in Hs as [_ Hx]. apply Forall_cons in Hx as [[Hx _] _].
  by rewrite (proj2 (N.eqb_neq _ _) Hx).
Qed.

Lemma text_lines_join lines : lines ≠ [] → Forall clean lines →
  text_lines (join_with CRLF lines) = lines.
Proof.
  intros Hne Hc. induction Hc as [|a [|b lines] Ha _ IH]; [done|..].
  - unfold text_lines. cbn [join_with]. rewrite split_on_none by done. csimpl. by rewrite strip_clean.
  - rewrite join_cons. unfold text_lines in *. cbn [app CRLF].
    replace (a ++ CR :: LF :: join_with CRLF (b :: lines)) with ((a ++ [CR]) ++ LF :: join_with CRLF (b :: lines))
      by by rewrite <- app_assoc.
    assert (split_on LF ((a ++ [CR]) ++ LF :: join_with CRLF (b :: lines))
            = (a ++ [CR]) :: split_on LF (join_with CRLF (b :: lines))) as ->.
    { clear IH Hne. induction Ha as [|c s [Hcr Hlf] _ IH]; [done|]. cbn [app split_on].
      by rewrite (proj2 (N.eqb_neq _ _) Hlf), IH. }
    rewrite fmap_cons, IH by done. f_equal. unfold strip_last. rewrite last_snoc. simpl.
    apply removelast_last.
Qed.

(** The header block ends at the first blank line. *)
Lemma split_step x r : starts (CRLF ++ CRLF) (x :: r) = false → starts [LF; LF] (x :: r) = false →
  split (x :: r) = let '(head, body) := split r in (x :: head, body).
Proof. intros H1 H2. cbn [split]. by rewrite H1, H2. Qed.

Lemma split_clean line rest : clean line →
  split (line ++ rest) = let '(head, body) := split rest in (line ++ head, body).
Proof.
  induction 1 as [|x line [Hcr Hlf] _ IH]; [by simpl; destruct (split rest)|]. rewrite <- app_comm_cons.
  rewrite split_step, IH; [by destruct (split rest)|..];
    cbn [starts CRLF app]; by rewrite N.eqb_sym, ?(proj2 (N.eqb_neq _ _) Hcr), ?(proj2 (N.eqb_neq _ _) Hlf).
Qed.

Lemma split_line line c rest : clean line → c ≠ CR → c ≠ LF →
  split (line ++ CRLF ++ c :: rest) =
  let '(head, body) := split (c :: rest) in (line ++ CRLF ++ head, body).
Proof.
  intros Hl Hcr Hlf. rewrite split_clean by done. cbn [app CRLF].
  rewrite split_step; [|cbn [starts CRLF app]; by rewrite (N.eqb_sym CR c), (proj2 (N.eqb_neq _ _) Hcr)|done].
  rewrite split_step; [|done|cbn [starts]; by rewrite (N.eqb_sym LF c), (proj2 (N.eqb_neq _ _) Hlf)].
  by destruct (split (c :: rest)).
Qed.

Lemma split_last line rest : clean line → split (line ++ CRLF ++ CRLF ++ rest) = (line, rest).
Proof. intros Hl. rewrite split_clean by done. simpl. by rewrite app_nil_r. Qed.

Lemma split_block lines rest : lines ≠ [] → Forall (λ line, clean line ∧ line ≠ []) lines →
  split (join_with CRLF lines ++ CRLF ++ CRLF ++ rest) = (join_with CRLF lines, rest).
Proof.
  intros Hne Hl. induction Hl as [|a [|b lines] [Ha _] Hl IH]; [done|by apply split_last|].
  rewrite join_cons, <- !app_assoc. specialize (IH ltac:(done)).
  apply Forall_cons in Hl as [[Hb Hbne] _]. destruct b as [|c b]; [done|].
  apply Forall_cons in Hb as [[Hcr Hlf] _].
  assert (∃ r, join_with CRLF ((c :: b) :: lines) = c :: r) as [r Hr] by (destruct lines; by eexists).
  rewrite Hr in *. rewrite <- app_comm_cons in *. rewrite split_line by done. by rewrite IH.
Qed.

(** One line of the header block, without its ending. *)
Definition field_line (fields : Headers) (line : str) : Headers :=
  if starts [SP] line || starts [TAB] line then extend_last line fields
  else match split_once 58 line with
       | Some (name, value) => fields ++ [(lowercase (trim name), trim value)]
       | None => fields
       end.

Lemma parse_headers_lines b : parse_headers b = foldl field_line [] (text_lines (from_utf8_lossy b)).
Proof.
  unfold parse_headers, text_lines. generalize ([] : Headers).
  induction (split_on LF (from_utf8_lossy b)) as [|l ls IH]; intros fields; [done|]. csimpl. apply IH.
Qed.

(** A header name: visible characters, no colon. *)
Definition good_name (name : str) : bool :=
  forallb (λ c, between 33 c 126) name && negb (str_eqb name []) && negb (existsb (N.eqb 58) name)
  && negb (starts [SP] name) && negb (starts [TAB] name) && str_eqb (trim name) name.

Lemma good_name_printed name : good_name name = true → printed name ∧ name ≠ [].
Proof.
  unfold good_name. rewrite !andb_true_iff. intros [[[[[Hf Hne] _] _] _] _]. split.
  - apply Forall_forall. intros c Hc. apply list_elem_of_In in Hc.
    apply (proj1 (forallb_forall _ _)) with (x := c) in Hf; [|done]. unfold between in Hf.
    apply andb_true_iff in Hf as [? ?]. bool_cases. unfold CR, LF, is_scalar.
    rewrite (proj2 (N.ltb_lt _ _)) by lia. split_and!; [done|lia..].
  - by intros ->.
Qed.

Lemma split_once_name name rest : existsb (N.eqb 58) name = false →
  split_once 58 (name ++ 58 :: rest) = Some (name, rest).
Proof.
  induction name as [|c name IH]; intros Hn; [done|]. cbn [existsb] in Hn.
  apply orb_false_iff in Hn as [Hc Hn]. cbn [app split_once]. rewrite N.eqb_sym, Hc. by rewrite IH.
Qed.

Lemma extend_last_snoc line fields name value :
  extend_last line (fields ++ [(name, value)]) = fields ++ [(name, value ++ SP :: trim_start line)].
Proof.
  induction fields as [|f fields IH]; [done|]. cbn [app extend_last].
  destruct f as [n v]. rewrite IH. by destruct (fields ++ [(name, value)]) eqn:E; [destruct fields|].
Qed.

Lemma read_field name value lines fields : good_name name = true → folded name value lines →
  ∃ v, foldl field_line fields lines = fields ++ [(lowercase name, v)] ∧
    split_whitespace v = split_whitespace value.
Proof.
  intros Hg (first & more & -> & _ & _ & Hw). unfold good_name in Hg.
  apply andb_true_iff in Hg as [Hg Htrim]. apply andb_true_iff in Hg as [Hg Htab].
  apply andb_true_iff in Hg as [Hg Hsp]. apply andb_true_iff in Hg as [Hg Hcolon].
  apply andb_true_iff in Hg as [_ Hne].
  apply bool_decide_eq_true_1 in Htrim. apply negb_true_iff in Hcolon, Hsp, Htab, Hne.
  assert (field_line fields (name ++ 58 :: first) = fields ++ [(lowercase name, trim first)]) as Hfirst.
  { unfold field_line. destruct name as [|c name]; [done|].
    change (starts [SP] ((c :: name) ++ 58 :: first)) with (starts [SP] (c :: name)).
    change (starts [TAB] ((c :: name) ++ 58 :: first)) with (starts [TAB] (c :: name)).
    rewrite Hsp, Htab, split_once_name by done. cbn [orb]. by rewrite Htrim. }
  unfold header_lines. cbn [foldl]. rewrite Hfirst. rewrite <- Hw, <- (words_trim first).
  generalize (trim first) as v. clear. induction more as [|l more IH]; intros v.
  { exists v. csimpl. by rewrite app_nil_r. }
  csimpl. change (field_line ?f (SP :: l)) with (extend_last (SP :: l) f).
  rewrite extend_last_snoc. destruct (IH (v ++ SP :: trim_start (SP :: l))) as (v' & Hv & Hv').
  exists v'. split; [exact Hv|]. rewrite Hv', words_app by done.
  rewrite words_trim_start, words_sp. by rewrite <- app_assoc.
Qed.

(** Several headers. *)
Lemma read_fields fs lss : Forall2 (λ f lines, good_name (fst f) = true ∧ folded (fst f) (snd f) lines) fs lss →
  ∀ fields, ∃ out, foldl field_line fields (concat lss) = fields ++ out ∧
    (λ f, (fst f, split_whitespace (snd f))) <$> out
    = (λ f, (lowercase (fst f), split_whitespace (snd f))) <$> fs.
Proof.
  induction 1 as [|[name value] lines fs lss [Hg Hf] _ IH]; intros fields.
  { exists []. by rewrite app_nil_r. }
  cbn [concat]. rewrite foldl_app. destruct (read_field name value lines fields Hg Hf) as (v & -> & Hv).
  destruct (IH (fields ++ [(lowercase name, v)])) as (out & -> & Hout).
  exists ((lowercase name, v) :: out). csimpl. rewrite Hout, Hv, <- app_assoc. done.
Qed.

(** ** The whole message *)

Section message.
Context `{Base64}.

(** The headers a message is meant to have, with their values. *)
Definition meant (m : Outgoing) : list (str * str) :=
  [(lit "Date", date m)] ++ [(lit "From", mailbox (display_name m) (from m))]
  ++ [(lit "To", address_list (to m))]
  ++ (if bool_decide (cc m = []) then [] else [(lit "Cc", address_list (cc m))])
  ++ [(lit "Subject", encode_header (subject m))] ++ [(lit "Message-Id", angle (message_id m))]
  ++ match in_reply_to m with Some parent => [(lit "In-Reply-To", angle parent)] | None => [] end
  ++ (if bool_decide (references m = []) then []
      else [(lit "References", join_with [SP] (angle <$> references m))])
  ++ [(lit "MIME-Version", lit "1.0")]
  ++ [(lit "Content-Type", lit "text/plain; charset=" ++ [QUOTE] ++ lit "utf-8" ++ [QUOTE])]
  ++ [(lit "Content-Transfer-Encoding",
       lit (if is_seven_bit (out_text m) then "7bit" else "quoted-printable"))].

(** The text a message is meant to have. *)
Definition meant_body (m : Outgoing) : str :=
  if is_seven_bit (out_text m) then crlf (out_text m) else quoted_printable (out_text m).

Definition folds (f : str * str) (lines : list str) : Prop :=
  good_name (fst f) = true ∧ folded (fst f) (snd f) lines.

(** Headers written one after the other. *)
Definition fields_written (fs : list (str * str)) (out : str) : Prop :=
  ∃ lss, Forall2 folds fs lss ∧ out = as_lines (concat lss).

Lemma written_nil : fields_written [] [].
Proof. exists []. by split; [constructor|]. Qed.

Lemma written_app a b x y : fields_written a x → fields_written b y → fields_written (a ++ b) (x ++ y).
Proof.
  intros (la & Ha & ->) (lb & Hb & ->). exists (la ++ lb). split; [by apply Forall2_app|].
  rewrite concat_app. unfold as_lines. by rewrite fmap_app, concat_app.
Qed.

Lemma written_fold name value out : good_name name = true → printed value → fold name value = Ok out →
  fields_written [(name, value)] out.
Proof.
  intros Hn Hv Hf. apply fold_lines in Hf as (lines & -> & Hl); [|done].
  exists [lines]. cbn [concat]. rewrite app_nil_r. split; [|done]. by repeat constructor.
Qed.

(** A header line written as it stands. *)
Lemma written_literal name value : good_name name = true → printed value →
  fields_written [(name, value)] (name ++ lit ": " ++ value ++ CRLF).
Proof.
  intros Hn Hv. exists [header_lines name (SP :: value) []]. split.
  - constructor; [|constructor]. split; [done|]. exists (SP :: value), [].
    split_and!; [done|by constructor|constructor|]. csimpl. by rewrite words_sp, app_nil_r.
  - unfold as_lines, header_lines. csimpl. rewrite !app_nil_r, <- app_assoc. done.
Qed.

(** A header block followed by a blank line and a body is read as such. *)
Lemma read_block fs out body : fields_written fs out → fs ≠ [] →
  ∃ head, split (as_bytes (out ++ CRLF ++ body)) = (head, as_bytes body) ∧
    (λ f, (fst f, split_whitespace (snd f))) <$> parse_headers head
    = (λ f, (lowercase (fst f), split_whitespace (snd f))) <$> fs.
Proof.
  intros (lss & Hf & ->) Hne.
  assert (Forall (λ line, printed line ∧ line ≠ []) (concat lss)) as Hlines.
  { clear Hne. induction Hf as [|[name value] lines fs lss [Hg (first & more & -> & Hp & Hm & _)] _ IH]; [constructor|].
    apply Forall_app. split; [|done].
    apply good_name_printed in Hg as [Hn Hnne]. constructor.
    - split; [|by destruct name]. apply Forall_app. split; [done|]. by constructor.
    - apply Forall_fmap. eapply Forall_impl; [exact Hm|]. intros l Hl. split; [by constructor|done]. }
  assert (concat lss ≠ []) as Hcne.
  { destruct Hf as [|f lines fs lss [_ (first & more & -> & _)] _]; done. }
  exists (as_bytes (join_with CRLF (concat lss))). split.
  - rewrite as_lines_join by done. rewrite <- app_assoc, !as_bytes_app.
    rewrite as_bytes_join by apply crlf_ascii. rewrite (as_bytes_ascii CRLF) by apply crlf_ascii.
    apply split_block; [by destruct (concat lss)|]. apply Forall_fmap.
    eapply Forall_impl; [exact Hlines|]. intros line [Hl Hln]. split; [by apply clean_bytes, printed_clean|].
    destruct line as [|c line]; [done|]. unfold as_bytes, encode_char. simpl. by repeat case_match.
  - rewrite parse_headers_lines. unfold from_utf8_lossy, as_bytes. rewrite decode_encode.
    + rewrite text_lines_join; [|done|].
      * destruct (read_fields fs lss Hf []) as (out & -> & Hout). exact Hout.
      * eapply Forall_impl; [exact Hlines|]. intros line [Hl _]. by apply printed_clean.
    + apply Forall_join; [by repeat constructor|]. eapply Forall_impl; [exact Hlines|].
      intros line [Hl _]. by apply printed_valid.
Qed.

(** *** The values *)

Lemma printed_app a b : printed a → printed b → printed (a ++ b).
Proof. intros. by apply Forall_app. Qed.

Lemma printed_ascii s : forallb (λ c, between 32 c 126) s = true → printed s.
Proof.
  intros Hf. apply Forall_forall. intros c Hc. apply list_elem_of_In in Hc.
  apply (proj1 (forallb_forall _ _)) with (x := c) in Hf; [|done]. unfold between in Hf.
  apply andb_true_iff in Hf as [? ?]. bool_cases. unfold CR, LF, is_scalar.
  rewrite (proj2 (N.ltb_lt _ _)) by lia. split_and!; [done|lia..].
Qed.

Lemma printed_join sep l : printed sep → Forall printed l → printed (join_with sep l).
Proof. apply Forall_join. Qed.

Lemma printed_filter (p : N → bool) s : valid s → (∀ c, p c = true → c ≠ CR ∧ c ≠ LF) →
  printed (List.filter p s).
Proof.
  intros Hs Hp. induction Hs as [|c s Hc _ IH]; simpl; [constructor|].
  destruct (p c) eqn:E; [|done]. constructor; [|done]. destruct (Hp c E). done.
Qed.

Lemma not_newline_spec c : not_newline c = true → c ≠ CR ∧ c ≠ LF.
Proof.
  unfold not_newline. intros [H1 H2]%negb_true_iff%orb_false_iff. by apply N.eqb_neq in H1, H2.
Qed.

Lemma angle_printed id : valid id → printed (angle id).
Proof.
  intros Hv. unfold angle. apply printed_app; [by apply printed_ascii|].
  apply printed_app; [|by apply printed_ascii]. apply printed_filter.
  - apply Forall_trim. unfold drop_while_end.
    apply Forall_rev, Forall_drop_while, Forall_rev, Forall_drop_while. by apply Forall_trim.
  - intros c [_ Hc]%andb_true_iff. apply negb_true_iff in Hc. rewrite !orb_false_iff in Hc.
    destruct Hc as [[_ H1] H2]. by apply N.eqb_neq in H1, H2.
Qed.

(** What is known of the alphabet. *)
Class Base64Laws : Prop := {
  b64_alphabet : ∀ b, Forall (λ c, between 65 c 90 || between 97 c 122 || between 48 c 57
                               || (c =? 43) || (c =? 47) || (c =? 61) = true) (b64_encode b);
}.

Context `{!Base64Laws}.

Lemma encode_word_printed s : printed (encode_word s).
Proof.
  unfold encode_word. apply printed_app; [by apply printed_ascii|].
  apply printed_app; [|by apply printed_ascii]. apply printed_ascii, forallb_forall.
  intros c Hc. pose proof (b64_alphabet (as_bytes s)) as Ha. rewrite Forall_forall in Ha.
  specialize (Ha c (proj2 (list_elem_of_In _ _) Hc)). cbv beta in Ha.
  unfold between in *. rewrite !orb_true_iff, !andb_true_iff, !N.leb_le, !N.eqb_eq in Ha.
  apply andb_true_iff. rewrite !N.leb_le. lia.
Qed.

Lemma encode_header_printed s : valid s → printed (encode_header s).
Proof.
  intros Hs. unfold encode_header. destruct (is_ascii _).
  - apply printed_filter; [done|apply not_newline_spec].
  - apply printed_join; [by apply printed_ascii|]. generalize (List.filter not_newline s) as t, ([] : str) as chunk.
    induction t as [|c t IH]; intros chunk; cbn [encode_chunks].
    + destruct chunk; [constructor|]. constructor; [apply encode_word_printed|constructor].
    + destruct (45 <? _); [|apply IH]. constructor; [apply encode_word_printed|apply IH].
Qed.

Lemma mailbox_printed display address : (∀ name, display = Some name → valid name) → printed address →
  printed (mailbox display address).
Proof.
  intros Hd Ha. destruct display as [name|]; [|done]. specialize (Hd name eq_refl). cbn [mailbox].
  destruct (forallb is_whitespace name); [done|]. destruct (is_ascii name).
  - apply printed_app; [by apply printed_ascii|]. apply printed_app.
    + unfold escape_quoted. pose proof (printed_filter not_newline name Hd not_newline_spec) as Hf.
      induction Hf as [|c s Hc _ IH]; simpl; [constructor|]. apply printed_app; [|done].
      destruct (_ || _); repeat constructor; try done; apply Hc.
    + repeat (apply printed_app; [by apply printed_ascii|]). apply printed_app; [done|by apply printed_ascii].
  - apply printed_app; [by apply encode_header_printed|].
    apply printed_app; [by apply printed_ascii|]. apply printed_app; [done|by apply printed_ascii].
Qed.

Lemma valid_address_printed a : valid_address a = true → printed a.
Proof.
  unfold valid_address. destruct (split_once 64 a) as [[local domain]|]; [|done].
  destruct (_ || _); [done|]. rewrite !andb_true_iff. intros [[[Hc _] _] _].
  apply Forall_forall. intros c Hin. apply list_elem_of_In in Hin. apply negb_true_iff in Hc.
  rewrite <- not_true_iff_false, existsb_exists in Hc.
  destruct (is_whitespace c || is_control_char c || negb (c <? 128)) eqn:E.
  { exfalso. apply Hc. exists c. split; [done|]. by rewrite E. }
  rewrite !orb_false_iff in E. destruct E as [[Hw Hctl] Ha]. apply negb_false_iff, N.ltb_lt in Ha.
  unfold is_control_char in Hctl. apply orb_false_iff in Hctl as [Hctl _]. apply N.leb_gt in Hctl.
  unfold is_scalar, CR, LF. rewrite (proj2 (N.ltb_lt _ _)) by lia. split_and!; [done|lia..].
Qed.

(** *** Writing *)

(** What the writer is given: Unicode strings, a date without line endings,
    addresses that were checked. *)
Record sendable (m : Outgoing) : Prop := {
  sendable_date : printed (date m);
  sendable_from : valid_address (from m) = true;
  sendable_to : Forall (λ a, valid_address a = true) (to m);
  sendable_cc : Forall (λ a, valid_address a = true) (cc m);
  sendable_name : ∀ name, display_name m = Some name → valid name;
  sendable_subject : valid (subject m);
  sendable_id : valid (message_id m);
  sendable_parent : ∀ parent, in_reply_to m = Some parent → valid parent;
  sendable_references : Forall valid (references m);
}.

Lemma address_list_printed l : Forall (λ a, valid_address a = true) l → printed (address_list l).
Proof.
  intros Hl. apply printed_join; [by apply printed_ascii|]. eapply Forall_impl; [exact Hl|].
  apply valid_address_printed.
Qed.

Lemma ok_inj {A E} (x y : A) : @Ok A E x = Ok y → x = y.
Proof. by intros [= ->]. Qed.

Lemma write_fields m b : sendable m → write m = Ok b →
  ∃ out body, fields_written (meant m) out ∧ b = as_bytes (out ++ CRLF ++ body) ∧
    (body = meant_body m ∨ body = meant_body m ++ CRLF).
Proof.
  intros [Hdate Hfrom Hto Hcc Hname Hsubj Hid Hparent Hrefs] Hw. unfold write in Hw.
  apply result_bind_ok in Hw as (l1 & E1 & Hw). apply result_bind_ok in Hw as (l2 & E2 & Hw).
  apply result_bind_ok in Hw as (l3 & E3 & Hw). apply result_bind_ok in Hw as (l4 & E4 & Hw).
  apply result_bind_ok in Hw as (l5 & E5 & Hw). apply result_bind_ok in Hw as (l6 & E6 & Hw).
  apply result_bind_ok in Hw as (l7 & E7 & Hw). apply result_bind_ok in Hw as (l8 & E8 & Hw).
  set (out := l1 ++ l2 ++ l3 ++ l4 ++ l5 ++ l6 ++ l7 ++ l8
    ++ (lit "MIME-Version" ++ lit ": " ++ lit "1.0" ++ CRLF)
    ++ (lit "Content-Type" ++ lit ": "
        ++ (lit "text/plain; charset=" ++ [QUOTE] ++ lit "utf-8" ++ [QUOTE]) ++ CRLF)
    ++ (lit "Content-Transfer-Encoding" ++ lit ": "
        ++ lit (if is_seven_bit (out_text m) then "7bit" else "quoted-printable") ++ CRLF)).
  exists out. cut (fields_written (meant m) out ∧ ∃ body, b = as_bytes (out ++ CRLF ++ body) ∧
    (body = meant_body m ∨ body = meant_body m ++ CRLF)); [by intros (? & body & ?); exists body|]. split.
  - unfold out, meant. repeat apply written_app.
    + by eapply written_fold.
    + eapply written_fold; [done| |done]. apply mailbox_printed; [done|by apply valid_address_printed].
    + eapply written_fold; [done| |done]. by apply address_list_printed.
    + revert E4. destruct (bool_decide (cc m = [])); intros E4; [injection E4 as <-; apply written_nil|].
      eapply written_fold; [done| |done]. by apply address_list_printed.
    + eapply written_fold; [done| |done]. by apply encode_header_printed.
    + eapply written_fold; [done| |done]. by apply angle_printed.
    + destruct (in_reply_to m) as [parent|]; [|injection E7 as <-; apply written_nil].
      eapply written_fold; [done| |done]. by apply angle_printed, Hparent.
    + revert E8. destruct (bool_decide (references m = [])); intros E8; [injection E8 as <-; apply written_nil|].
      eapply written_fold; [done| |done]. apply printed_join; [by apply printed_ascii|].
      apply Forall_fmap. eapply Forall_impl; [exact Hrefs|]. intros id. apply angle_printed.
    + by apply written_literal; [|apply printed_ascii].
    + by apply written_literal; [|apply printed_ascii].
    + apply written_literal; [done|]. by destruct (is_seven_bit _); apply printed_ascii.
  - assert (∀ t, l1 ++ l2 ++ l3 ++ l4 ++ l5 ++ l6 ++ l7 ++ l8
      ++ lit "MIME-Version: 1.0" ++ CRLF
      ++ lit "Content-Type: text/plain; charset=" ++ [QUOTE] ++ lit "utf-8" ++ [QUOTE] ++ CRLF
      ++ lit (if is_seven_bit (out_text m) then "Content-Transfer-Encoding: 7bit"
              else "Content-Transfer-Encoding: quoted-printable") ++ CRLF ++ CRLF ++ t
      = out ++ CRLF ++ t) as Hout.
    { intros t. unfold out. rewrite <- !app_assoc. destruct (is_seven_bit _); reflexivity. }
    rewrite !Hout in Hw. apply ok_inj in Hw as <-. unfold meant_body.
    set (t := if is_seven_bit (out_text m) then _ else _).
    destruct (starts [LF; CR] (rev (out ++ CRLF ++ t))); [by exists t; auto|].
    exists (t ++ CRLF). rewrite <- !app_assoc. auto.
Qed.

Lemma write_reads m b : sendable m → write m = Ok b →
  ∃ head body, split b = (head, as_bytes body) ∧
    (λ f, (fst f, split_whitespace (snd f))) <$> parse_headers head
    = (λ f, (lowercase (fst f), split_whitespace (snd f))) <$> meant m ∧
    (body = meant_body m ∨ body = meant_body m ++ CRLF).
Proof.
  intros Hs Hw. apply write_fields in Hw as (out & body & Hf & -> & Hb); [|done].
  destruct (read_block (meant m) out body Hf) as (head & Hsplit & Hp); [done|].
  by exists head, body.
Qed.
End message.
