(* ===== verification/Calendar.v ===== *)
(** The date of a written message: [civil_from_days] of
    [plugins/email/src/mime.rs] counts days as the Gregorian calendar does. *)
From stdpp Require Import base tactics option list strings.
From Stdlib Require Import ZArith NArith Lia.
From S2P Require Import Prelude Utf8 Text Mime.

Local Open Scope Z_scope.

(** ** The calendar *)

Definition is_leap (year : Z) : bool :=
  (year mod 4 =? 0) && (negb (year mod 100 =? 0) || (year mod 400 =? 0)).

Definition month_length (year month : Z) : Z :=
  if month =? 2 then if is_leap year then 29 else 28
  else if (month =? 4) || (month =? 6) || (month =? 9) || (month =? 11) then 30
  else 31.

Definition is_date (date : Z * Z * Z) : Prop :=
  let '(year, month, day) := date in 1 ≤ month ≤ 12 ∧ 1 ≤ day ≤ month_length year month.

Definition next_day (date : Z * Z * Z) : Z * Z * Z :=
  let '(year, month, day) := date in
  if day <? month_length year month then (year, month, day + 1)
  else if month <? 12 then (year, month + 1, 1)
  else (year + 1, 1, 1).

(** ** Years that start in March *)

(** The days before a year of an era, and the year's length. *)
Definition year_start (y : Z) : Z := 365 * y + y / 4 - y / 100.
Definition year_length (y : Z) : Z := if is_leap (y + 1) then 366 else 365.

(** The year of an era a day falls in, as the code computes it. *)
Definition year_of (doe : Z) : Z := (doe - doe / 1460 + doe / 36524 - doe / 146096) / 365.

(** The month and day of a day of the year, and the date. *)
Definition date_of (era y doy : Z) : Z * Z * Z :=
  let shifted_month := (5 * doy + 2) / 153 in
  let month := if shifted_month <? 10 then shifted_month + 3 else shifted_month - 9 in
  ((if month <=? 2 then y + era * 400 + 1 else y + era * 400), month,
   doy - (153 * shifted_month + 2) / 5 + 1).

Lemma civil_parts n :
  let doe := (n + 719468) mod 146097 in
  civil_from_days n = date_of ((n + 719468) / 146097) (year_of doe) (doe - year_start (year_of doe)).
Proof. reflexivity. Qed.

Lemma leap_cases y : 0 ≤ y < 400 →
  is_leap (y + 1) = true ∧ (y mod 4 = 3 ∧ (y mod 100 ≠ 99 ∨ y = 399)) ∨
  is_leap (y + 1) = false ∧ (y mod 4 ≠ 3 ∨ y mod 100 = 99 ∧ y ≠ 399).
Proof.
  intros Hy. unfold is_leap.
  destruct (Z.eqb_spec ((y + 1) mod 4) 0), (Z.eqb_spec ((y + 1) mod 100) 0), (Z.eqb_spec ((y + 1) mod 400) 0);
    simpl; [left|right|left|left|right..]; (split; [done|]); Z.to_euclidean_division_equations; lia.
Qed.

Lemma year_bounds doe : 0 ≤ doe < 146097 →
  0 ≤ year_of doe < 400 ∧ 0 ≤ doe - year_start (year_of doe) < year_length (year_of doe).
Proof.
  intros Hd. assert (0 ≤ year_of doe < 400) as Hy
    by (unfold year_of; Z.to_euclidean_division_equations; lia).
  split; [done|]. unfold year_length.
  destruct (leap_cases _ Hy) as [[-> Hl]|[-> Hl]];
    unfold year_of, year_start in *; Z.to_euclidean_division_equations; lia.
Qed.

Lemma year_unique y doy : 0 ≤ y < 400 → 0 ≤ doy < year_length y → year_of (year_start y + doy) = y.
Proof.
  intros Hy. unfold year_length. destruct (leap_cases _ Hy) as [[-> Hl]|[-> Hl]]; intros Hd;
    unfold year_of, year_start in *; Z.to_euclidean_division_equations; lia.
Qed.

Lemma next_year_start y : 0 ≤ y < 399 → year_start (y + 1) = year_start y + year_length y.
Proof.
  intros Hy. unfold year_length. destruct (leap_cases y) as [[-> Hl]|[-> Hl]]; [lia| |];
    unfold year_start; Z.to_euclidean_division_equations; lia.
Qed.

Lemma leap_era y era : is_leap (y + era * 400 + 1) = is_leap (y + 1).
Proof.
  unfold is_leap. replace (y + era * 400 + 1) with (y + 1 + (era * 100) * 4) by lia.
  rewrite Z.mod_add by lia. replace (y + 1 + era * 100 * 4) with (y + 1 + (era * 4) * 100) by lia.
  rewrite Z.mod_add by lia. replace (y + 1 + era * 4 * 100) with (y + 1 + era * 400) by lia.
  by rewrite Z.mod_add by lia.
Qed.

(** A month counted from March: its first day of the year, its number, its
    calendar year and its length. *)
Definition first_day (m : Z) : Z := (153 * m + 2) / 5.
Definition month_of (m : Z) : Z := if m <? 10 then m + 3 else m - 9.
Definition calendar_year (era y m : Z) : Z :=
  if month_of m <=? 2 then y + era * 400 + 1 else y + era * 400.
Definition days_in (y m : Z) : Z := if m =? 11 then year_length y - 337 else first_day (m + 1) - first_day m.

Lemma twelve m : 0 ≤ m ≤ 11 → m = 0 ∨ m = 1 ∨ m = 2 ∨ m = 3 ∨ m = 4 ∨ m = 5 ∨ m = 6 ∨ m = 7 ∨ m = 8 ∨
  m = 9 ∨ m = 10 ∨ m = 11.
Proof. lia. Qed.

Lemma month_length_from_march era y m : 0 ≤ m ≤ 11 →
  month_length (calendar_year era y m) (month_of m) = days_in y m ∧ 1 ≤ month_of m ≤ 12.
Proof.
  intros Hm%twelve. destruct Hm as [->|[->|[->|[->|[->|[->|[->|[->|[->|[->|[->| ->]]]]]]]]]]]; try done.
  split; [|done]. unfold month_length, days_in, year_length, calendar_year. simpl.
  rewrite leap_era. by destruct (is_leap (y + 1)).
Qed.

Lemma first_day_le m : m ≤ 10 → first_day (m + 1) ≤ 337.
Proof. intros Hm. unfold first_day. Z.to_euclidean_division_equations; lia. Qed.

Lemma days_in_other y m : m ≠ 11 → days_in y m = first_day (m + 1) - first_day m.
Proof. intros Hne. unfold days_in. by rewrite (proj2 (Z.eqb_neq _ _) Hne). Qed.

Lemma date_at era y m doy : 0 ≤ m ≤ 11 → first_day m ≤ doy → doy < first_day m + days_in y m →
  date_of era y doy = (calendar_year era y m, month_of m, doy - first_day m + 1).
Proof.
  intros Hm Hlo Hhi. unfold date_of. assert ((5 * doy + 2) / 153 = m) as ->; [|done].
  assert (doy < 366) by (unfold days_in, year_length in Hhi; revert Hlo Hhi; destruct (Z.eqb_spec m 11) as [->|];
    [change (first_day 11) with 337; destruct (is_leap _); lia|unfold first_day; Z.to_euclidean_division_equations; lia]).
  unfold days_in in Hhi. destruct (Z.eqb_spec m 11) as [->|]; unfold first_day in *;
    Z.to_euclidean_division_equations; lia.
Qed.

Lemma month_at y doy : 0 ≤ doy < year_length y →
  ∃ m, 0 ≤ m ≤ 11 ∧ first_day m ≤ doy ∧ doy < first_day m + days_in y m.
Proof.
  intros Hd. exists ((5 * doy + 2) / 153). unfold days_in.
  assert (year_length y ≤ 366) by (unfold year_length; destruct (is_leap _); lia).
  destruct (Z.eqb_spec ((5 * doy + 2) / 153) 11) as [E|]; [rewrite E; change (first_day 11) with 337|unfold first_day];
    Z.to_euclidean_division_equations; lia.
Qed.

(** The day after, within a year and at its end. *)
Lemma date_next era y doy : 0 ≤ doy < year_length y →
  is_date (date_of era y doy) ∧
  next_day (date_of era y doy) =
    if doy + 1 <? year_length y then date_of era y (doy + 1) else (y + era * 400 + 1, 3, 1).
Proof.
  intros Hd. destruct (month_at y doy Hd) as (m & Hm & Hlo & Hhi).
  destruct (month_length_from_march era y m Hm) as [Hlen Hmon].
  rewrite (date_at era y m doy) by done. unfold is_date, next_day. rewrite Hlen. split; [lia|].
  destruct (Z.ltb_spec (doy - first_day m + 1) (days_in y m)) as [Hin|Hout].
  - assert (doy + 1 < year_length y) as Hl.
    { destruct (Z.eq_dec m 11) as [->|Hne];
        [change (days_in y 11) with (year_length y - 337) in *; change (first_day 11) with 337 in *; lia|].
      rewrite (days_in_other y m Hne) in *. assert (365 ≤ year_length y) by (unfold year_length; destruct (is_leap _); lia).
      pose proof (first_day_le m ltac:(lia)). lia. }
    rewrite (proj2 (Z.ltb_lt _ _) Hl). rewrite (date_at era y m (doy + 1)) by lia. do 2 f_equal. lia.
  - destruct (Z.eq_dec m 11) as [->|Hne].
    + change (days_in y 11) with (year_length y - 337) in *. change (first_day 11) with 337 in *.
      rewrite (proj2 (Z.ltb_ge (doy + 1) (year_length y))) by lia. done.
    + rewrite (days_in_other y m Hne) in *. assert (doy + 1 = first_day (m + 1)) as Hfirst by lia.
      assert (0 < days_in y (m + 1)) as Hpos.
      { unfold days_in, year_length. destruct (m + 1 =? 11); [destruct (is_leap _); lia|].
        unfold first_day. Z.to_euclidean_division_equations; lia. }
      assert (doy + 1 < year_length y) as Hl.
      { assert (365 ≤ year_length y) by (unfold year_length; destruct (is_leap _); lia).
        pose proof (first_day_le m ltac:(lia)). lia. }
      rewrite (proj2 (Z.ltb_lt _ _) Hl). rewrite (date_at era y (m + 1) (doy + 1)) by lia.
      replace (doy + 1 - first_day (m + 1) + 1) with 1 by lia.
      destruct (twelve m Hm) as [->|[->|[->|[->|[->|[->|[->|[->|[->|[->|[->| ->]]]]]]]]]]]; done.
Qed.

Lemma civil_step n :
  is_date (civil_from_days n) ∧ civil_from_days (n + 1) = next_day (civil_from_days n).
Proof.
  pose proof (civil_parts n) as Hn. pose proof (civil_parts (n + 1)) as Hn'.
  cbv zeta in Hn, Hn'. set (doe := (n + 719468) mod 146097) in *.
  assert (0 ≤ doe < 146097) as Hdoe by (apply Z.mod_pos_bound; lia).
  destruct (year_bounds doe Hdoe) as [Hy Hdoy]. set (y := year_of doe) in *.
  set (era := (n + 719468) / 146097) in *. set (doy := doe - year_start y) in *.
  destruct (date_next era y doy Hdoy) as [Hdate Hnext]. rewrite Hn. split; [done|]. rewrite Hnext, Hn'.
  destruct (Z.eq_dec doe 146096) as [Hlast|Hmore].
  - assert ((n + 1 + 719468) mod 146097 = 0 ∧ (n + 1 + 719468) / 146097 = era + 1) as [-> ->]
      by (subst doe era; Z.to_euclidean_division_equations; lia).
    assert (y = 399) as Hy399 by (subst y; by rewrite Hlast).
    subst doy. rewrite Hlast, Hy399. change (date_of (era + 1) 0 0 = (399 + era * 400 + 1, 3, 1)).
    unfold date_of. simpl. do 2 f_equal. lia.
  - assert ((n + 1 + 719468) mod 146097 = doe + 1 ∧ (n + 1 + 719468) / 146097 = era) as [-> ->]
      by (subst doe era; Z.to_euclidean_division_equations; lia).
    destruct (Z.ltb_spec (doy + 1) (year_length y)) as [Hin|Hout].
    + assert (year_of (doe + 1) = y) as ->.
      { replace (doe + 1) with (year_start y + (doy + 1)) by (subst doy; lia). apply year_unique; lia. }
      f_equal. subst doy. lia.
    + assert (y < 399) as Hy399.
      { destruct (Z.eq_dec y 399) as [E|]; [|lia]. exfalso. subst doy. rewrite E in Hout, Hdoy.
        change (year_length 399) with 366 in *. change (year_start 399) with 145731 in *. lia. }
      assert (doe + 1 = year_start (y + 1)) as E.
      { rewrite next_year_start by lia. subst doy. lia. }
      assert (year_of (doe + 1) = y + 1) as ->.
      { rewrite E, <- (Z.add_0_r (year_start (y + 1))). apply year_unique; [lia|].
        unfold year_length. destruct (is_leap _); lia. }
      replace (doe + 1 - year_start (y + 1)) with 0 by lia. unfold date_of. simpl. do 2 f_equal. lia.
Qed.

(** (C40) The date of a message is right: [civil_from_days] maps day 0 to the
    first of January 1970, every day to a date of the Gregorian calendar, and
    the next day to the next date, for every day before and after; so it is
    the calendar, leap years and centuries included. *)
Theorem civil_from_days_calendar :
  civil_from_days 0 = (1970, 1, 1) ∧
  ∀ n, is_date (civil_from_days n) ∧ civil_from_days (n + 1) = next_day (civil_from_days n).
Proof.
  split; [reflexivity|apply civil_step].
Qed.
