(* ===== verification/Email.v ===== *)
(** Composing a message for a send capability: [plugins/email/src/send.rs].

    The message is built whole before the endpoint is reached; submitting it is
    not modelled.  The strings of a request are those of its JSON value. *)
From stdpp Require Import base tactics option list strings.
From Stdlib Require Import ZArith NArith Lia.
From S2P Require Import Prelude Utf8 Json Text Mime.

Local Open Scope N_scope.

Definition MAX_REFERENCES : nat := 32.

(** The part of [Config] a message takes from. *)
Record Config : Type := mkConfig { config_from : option str; config_display_name : option str }.

(** An [Error] with the code [InvalidArgument]. *)
Inductive SendError : Type := InvalidArgument (message : str).
Definition invalid (message : string) : SendError := InvalidArgument (lit message).

(** A JSON string as its characters. *)
Definition value_str (v : Value) : option str := chars <$> as_str v.

Definition required_string (value : Value) (field : string) : result str SendError :=
  match value_get value field ≫= value_str with
  | Some (c :: s) => Ok (c :: s)
  | _ => Err (invalid (field +:+ " is required"))
  end.

(** [sender]. *)
Definition sender (config : Config) (username : str) : result str SendError :=
  let from := default username (config_from config) in
  if negb (valid_address from)
  then Err (invalid "configured sender is not an address this connector can send from")
  else Ok from.

(** [rsplit('@').next()]. *)
Definition domain_of (address : str) : str := default [] (last (split_on 64 address)).

(** [message_id]. *)
Definition new_message_id (from : str) (now_ms : Z) (nonce : N) : str :=
  lit (i64_to_string now_ms) ++ lit "." ++ lit (u64_to_string nonce) ++ lit ".pluribus@" ++ domain_of from.

Definition address (value : str) : result str SendError :=
  let value := trim value in
  if negb (valid_address value) then Err (InvalidArgument (lit "not a usable address: " ++ value))
  else Ok value.

Fixpoint collect_addresses (field : string) (items : list Value) : result (list str) SendError :=
  match items with
  | [] => Ok []
  | item :: items =>
      let? s := ok_or (value_str item) (invalid (field +:+ " must be an array of addresses")) in
      let? a := address s in
      let? rest := collect_addresses field items in
      Ok (a :: rest)
  end.
Definition addresses (value : option Value) (field : string) : result (list str) SendError :=
  match value with
  | None => Ok []
  | Some (Array items) => collect_addresses field items
  | Some _ => Err (invalid (field +:+ " must be an array of addresses"))
  end.

(** [answered]: a thread that already says [Re:] does not gain a second one. *)
Definition answered (subject : option str) : str :=
  let subject := trim (default [] subject) in
  if str_eqb (lowercase (take 3 subject)) (lit "re:") then subject
  else trim_end (lit "Re: " ++ subject).

(** [references]. *)
Definition reply_references (existing : option Value) (parent : str) : list str :=
  let chain := match existing with Some (Array items) => omap value_str items | _ => [] end in
  let chain := if bool_decide (last chain = Some parent) then chain else chain ++ [parent] in
  if (MAX_REFERENCES <? length chain)%nat
  then take 1 chain ++ drop (length chain - (MAX_REFERENCES - 1)) chain
  else chain.

(** [compose]; [None] when the date panics. *)
Definition compose (capability : string) (arguments : Value) (config : Config) (from : str)
    (now_ms : Z) (nonce : N) : option (result Outgoing SendError) :=
  match required_string arguments "text" with
  | Err e => Some (Err e)
  | Ok body =>
      date ← rfc5322_date now_ms;
      let id := new_message_id from now_ms nonce in
      Some (
        if String.eqb capability "email.reply" then
          try! required_string arguments "conversationId";
          let? parent := required_string arguments "messageId" in
          let? recipient := required_string arguments "to" in
          let? recipient := address recipient in
          Ok (mkOutgoing id date from (config_display_name config) [recipient] []
                (answered (value_get arguments "subject" ≫= value_str)) (Some parent)
                (reply_references (value_get arguments "references") parent) body)
        else if String.eqb capability "email.send-message" then
          let? recipients := addresses (value_get arguments "to") "to" in
          if bool_decide (recipients = []) then Err (invalid "to requires at least one recipient")
          else
            let? copies := addresses (value_get arguments "cc") "cc" in
            Ok (mkOutgoing id date from (config_display_name config) recipients copies
                  (default [] (value_get arguments "subject" ≫= value_str)) None [] body)
        else Err (invalid ("unknown capability: " +:+ capability)))
  end.
