(* ===== verification/EmailSpec.v ===== *)
(** What the email plugin promises about messages: nothing a request supplies
    can become a header of its own in one that is sent; and reading one,
    whatever it holds, is bounded and stops at one kind of input only. *)
From stdpp Require Import base tactics option list strings.
From Stdlib Require Import ZArith NArith Lia Ascii.
From S2P Require Import Prelude Utf8 Json Text Mime MimeSpec MimeHeaders Calendar Email.

Local Open Scope N_scope.

(** ** Strings *)

Lemma scalar_low c : c < 0xD800 → is_scalar c = true.
Proof. intros Hc. unfold is_scalar. by rewrite (proj2 (N.ltb_lt _ _)). Qed.

Lemma scalar_high c : 0xE000 ≤ c ≤ 0x10FFFF → is_scalar c = true.
Proof.
  intros Hc. unfold is_scalar, between. rewrite (proj2 (N.leb_le _ _)), (proj2 (N.leb_le _ _)) by lia.
  apply orb_true_r.
Qed.

Lemma three_scalar b0 b1 b2 : between 0xE0 b0 0xEF = true → second_of_three b0 b1 = true →
  is_scalar ((b0 mod 16) * 4096 + (b1 mod 64) * 64 + b2 mod 64) = true.
Proof.
  unfold second_of_three, continuation, between. rewrite !andb_true_iff, !N.leb_le. intros H0 H1.
  destruct (N.eqb_spec b0 0xE0) as [->|]; [apply scalar_low; divmods|].
  destruct (N.eqb_spec b0 0xED) as [->|]; rewrite !andb_true_iff, !N.leb_le in H1.
  - apply scalar_low. divmods.
  - destruct (N.lt_ge_cases b0 0xED); [apply scalar_low; divmods|apply scalar_high; divmods].
Qed.

Lemma four_scalar b0 b1 b2 b3 : between 0xF0 b0 0xF4 = true → second_of_four b0 b1 = true →
  is_scalar ((b0 mod 8) * 262144 + (b1 mod 64) * 4096 + (b2 mod 64) * 64 + b3 mod 64) = true.
Proof.
  unfold second_of_four, continuation, between. rewrite !andb_true_iff, !N.leb_le. intros H0 H1.
  destruct (N.eqb_spec b0 0xF0) as [->|]; rewrite ?andb_true_iff, ?N.leb_le in H1; [apply scalar_high; divmods|].
  destruct (N.eqb_spec b0 0xF4) as [->|]; rewrite ?andb_true_iff, ?N.leb_le in H1; apply scalar_high; divmods.
Qed.

(** What is decoded is a [str]. *)
Lemma decode_lossy_valid l : valid (decode_lossy l).
Proof.
  assert (is_scalar REPLACEMENT = true) as Hr by done.
  cut (∀ n l, (length l ≤ n)%nat → valid (decode_lossy l)); [by eauto|]. clear l.
  induction n as [|n IH]; intros [|b0 r0] Hl; simpl in Hl; [constructor|lia|constructor|].
  cbn [decode_lossy]. destruct (N.ltb_spec b0 0x80).
  { constructor; [apply scalar_low; lia|apply IH; lia]. }
  destruct (between 0xC2 b0 0xDF).
  { destruct r0 as [|b1 r1]; [by repeat constructor|]. simpl in Hl. destruct (continuation b1);
      (constructor; [|apply IH; simpl; lia]); [apply scalar_low; divmods|done]. }
  destruct (between 0xE0 b0 0xEF) eqn:E3.
  { destruct r0 as [|b1 r1]; [by repeat constructor|]. simpl in Hl.
    destruct (second_of_three b0 b1) eqn:E; [|constructor; [done|apply IH; simpl; lia]].
    destruct r1 as [|b2 r2]; [by repeat constructor|]. simpl in Hl. destruct (continuation b2);
      (constructor; [|apply IH; simpl; lia]); [by apply three_scalar|done]. }
  destruct (between 0xF0 b0 0xF4) eqn:E4; [|constructor; [done|apply IH; lia]].
  destruct r0 as [|b1 r1]; [by repeat constructor|]. simpl in Hl.
  destruct (second_of_four b0 b1) eqn:E; [|constructor; [done|apply IH; simpl; lia]].
  destruct r1 as [|b2 r2]; [by repeat constructor|]. simpl in Hl.
  destruct (continuation b2); [|constructor; [done|apply IH; simpl; lia]].
  destruct r2 as [|b3 r3]; [by repeat constructor|]. simpl in Hl. destruct (continuation b3);
    (constructor; [|apply IH; simpl; lia]); [by apply four_scalar|done].
Qed.

Lemma value_str_valid v s : value_str v = Some s → valid s.
Proof. unfold value_str. destruct (as_str v); [|done]. intros [= <-]. apply decode_lossy_valid. Qed.

(** ** Dates *)

Lemma lit_app a b : lit (a +:+ b) = lit a ++ lit b.
Proof. unfold lit. induction a as [|c a IH]; [done|]. simpl. by rewrite IH. Qed.

Lemma digits_printed fuel : ∀ n acc, printed (lit acc) → printed (lit (digits_go fuel n acc)).
Proof.
  induction fuel as [|fuel IH]; intros n acc Ha; [done|]. cbn [digits_go].
  assert (printed (lit (String (digit_char (n mod 10)) acc))) as Hd.
  { constructor; [|done]. unfold digit_char. assert (n mod 10 < 10) by (apply N.mod_lt; lia).
    set (d := n mod 10) in *. clearbody d. rewrite N_ascii_embedding by lia. unfold CR, LF. split_and!; [apply scalar_low; lia|lia..]. }
  destruct (n <? 10); [done|by apply IH].
Qed.

Lemma i64_printed z : printed (lit (i64_to_string z)).
Proof.
  unfold i64_to_string, u64_to_string. destruct (z <? 0)%Z; [|by apply digits_printed; constructor].
  constructor; [done|]. apply digits_printed. constructor.
Qed.

Lemma two_digits_printed z : printed (lit (two_digits z)).
Proof.
  unfold two_digits. rewrite lit_app. apply printed_app; [|apply i64_printed].
  destruct (z <? 10)%Z; [by apply printed_ascii|constructor].
Qed.

(** A date never panics and has no line ending. *)
Lemma date_printed ms : ∃ d, rfc5322_date ms = Some d ∧ printed d.
Proof.
  unfold rfc5322_date. destruct (civil_step (ms / 86400000)) as [Hd _].
  destruct (civil_from_days _) as [[year month] day]. destruct Hd as [Hm _].
  assert (0 ≤ (ms / 86400000) mod 7 < 7)%Z as Hw by (apply Z.mod_pos_bound; lia).
  destruct (lookup_lt_is_Some_2 WEEKDAYS (Z.to_nat ((ms / 86400000) mod 7))) as [weekday Hweekday]; [simpl; lia|].
  destruct (lookup_lt_is_Some_2 MONTHS (Z.to_nat (month - 1))) as [name Hname]; [simpl; lia|].
  rewrite Hweekday, Hname. eexists. split; [done|].
  assert (∀ l x, Forall (λ s, forallb (λ c, between 32 c 126) (lit s) = true) l → x ∈ l → printed (lit x)) as Hin.
  { intros l x Hl Hx. rewrite Forall_forall in Hl. by apply printed_ascii, Hl. }
  rewrite !lit_app. repeat apply printed_app; try apply i64_printed; try apply two_digits_printed;
    try by apply printed_ascii.
  - eapply Hin; [|by eapply list_elem_of_lookup_2]. by repeat constructor.
  - eapply Hin; [|by eapply list_elem_of_lookup_2]. by repeat constructor.
Qed.

(** ** Composing *)

Lemma address_ok s a : address s = Ok a → valid_address a = true.
Proof. unfold address. destruct (valid_address _) eqn:E; [|done]. by intros [= <-]. Qed.

Lemma sender_ok config username from : sender config username = Ok from → valid_address from = true.
Proof. unfold sender. destruct (valid_address _) eqn:E; [|done]. by intros [= <-]. Qed.

Lemma addresses_ok v field l : addresses v field = Ok l → Forall (λ a, valid_address a = true) l.
Proof.
  unfold addresses. destruct v as [[]|]; try done; [|intros [= <-]; constructor]. revert l.
  match goal with |- context [collect_addresses field ?items] => induction items as [|item items IH] end;
    intros out Ho; cbn [collect_addresses] in Ho; [injection Ho as <-; constructor|].
  apply result_bind_ok in Ho as (s & _ & Ho). apply result_bind_ok in Ho as (a & Ha & Ho).
  apply result_bind_ok in Ho as (rest & Hr & [= <-]).
  constructor; [by eapply address_ok|by apply IH].
Qed.

Lemma printed_is_valid_address a : valid_address a = true → valid a.
Proof. intros Ha. by apply printed_valid, valid_address_printed. Qed.

Lemma Forall_take_drop {A} (P : A → Prop) l i j : Forall P l → Forall P (take i l ++ drop j l).
Proof. intros Hl. apply Forall_app. split; [by apply Forall_take|by apply Forall_drop]. Qed.

Lemma references_valid existing parent : valid parent → Forall valid (reply_references existing parent).
Proof.
  intros Hp. unfold reply_references.
  assert (Forall valid match existing with Some (Array items) => omap value_str items | _ => [] end) as Hc.
  { destruct existing as [[]|]; try constructor. apply Forall_forall. intros s Hs.
    apply list_elem_of_omap in Hs as (v & _ & Hv). by eapply value_str_valid. }
  set (chain := match existing with Some _ => _ | None => _ end) in *.
  set (full := if bool_decide _ then _ else _).
  assert (Forall valid full) as Hf.
  { subst full. case_bool_decide; [done|]. apply Forall_app. split; [done|by repeat constructor]. }
  destruct (_ <? _)%nat; [by apply Forall_take_drop|done].
Qed.

Lemma required_valid v field s : required_string v field = Ok s → valid s.
Proof.
  unfold required_string. destruct (value_get v field) as [w|]; [|done]. simpl.
  destruct (value_str w) as [[|c r]|] eqn:E; try done. intros [= <-]. by eapply value_str_valid.
Qed.

Lemma answered_valid s : (∀ t, s = Some t → valid t) → valid (answered s).
Proof.
  intros Hs. unfold answered. assert (valid (trim (default [] s))) as Ht.
  { apply Forall_trim. destruct s as [t|]; [by apply Hs|constructor]. }
  destruct (str_eqb _ _); [done|]. unfold trim_end, drop_while_end.
  apply Forall_rev, Forall_drop_while, Forall_rev. apply Forall_app. split; [by repeat constructor|done].
Qed.

Lemma new_id_valid from now nonce : valid from → valid (new_message_id from now nonce).
Proof.
  intros Hf. unfold new_message_id, domain_of. unfold u64_to_string.
  assert (∀ s, forallb (λ c, between 32 c 126) (lit s) = true → valid (lit s)) as Hlit
    by (intros; by apply printed_valid, printed_ascii).
  repeat (apply Forall_app; split); [|by apply Hlit| |by apply Hlit|].
  - apply printed_valid, i64_printed.
  - apply printed_valid, digits_printed. constructor.
  - destruct (last (split_on 64 from)) as [d|] eqn:E; [|constructor]. apply last_Some_elem_of in E.
    apply (Forall_split_on _ 64) in Hf. rewrite Forall_forall in Hf. by apply Hf.
Qed.

Lemma compose_sendable capability arguments config from now nonce m :
  valid_address from = true → (∀ name, config_display_name config = Some name → valid name) →
  compose capability arguments config from now nonce = Some (Ok m) →
  sendable m ∧ Forall (λ a, valid_address a = true) (recipients m).
Proof.
  intros Hfrom Hname Hc. unfold compose in Hc.
  destruct (required_string arguments "text") as [body|] eqn:Eb; [|done].
  destruct (date_printed now) as (d & Hd & Hp). rewrite Hd in Hc. simpl in Hc. apply (inj Some) in Hc.
  assert (∀ t, (value_get arguments "subject" ≫= value_str) = Some t → valid t) as Hsubj.
  { intros t. destruct (value_get arguments "subject"); [|done]. apply value_str_valid. }
  assert (valid (new_message_id from now nonce)) as Hid by by apply new_id_valid, printed_is_valid_address.
  destruct (String.eqb capability "email.reply").
  - apply result_bind_ok in Hc as (conv & _ & Hc). apply result_bind_ok in Hc as (parent & Hpar & Hc).
    apply result_bind_ok in Hc as (to0 & _ & Hc). apply result_bind_ok in Hc as (a & Ha & [= <-]).
    apply address_ok in Ha. apply required_valid in Hpar. split; [split|]; simpl; try done.
    + by repeat constructor.
    + by apply answered_valid.
    + by intros p [= <-].
    + by apply references_valid.
    + unfold recipients. simpl. by repeat constructor.
  - destruct (String.eqb capability "email.send-message"); [|done].
    apply result_bind_ok in Hc as (tos & Hto & Hc). case_bool_decide; [done|].
    apply result_bind_ok in Hc as (ccs & Hcc & [= <-]). apply addresses_ok in Hto, Hcc.
    split; [split|]; simpl; try done.
    + destruct (_ ≫= _) as [t|] eqn:E; [by apply Hsubj|constructor].
    + by apply Forall_app.
Qed.

(** (C11) Nothing a request supplies can become a header of its own.  Whatever
    the arguments of a send capability hold, when the message is composed from
    the account's sender and written, reading it back splits it at its own blank
    line: it has exactly the headers that were meant, in their order, each
    with the words of its value, and below them the text, as it stands or
    quoted-printable; and every recipient is a checked address. *)
Theorem no_header_injection `{Base64Laws} capability arguments config username from now nonce m b
    (Hfrom : sender config username = Ok from)
    (Hname : ∀ name, config_display_name config = Some name → valid name)
    (Hcompose : compose capability arguments config from now nonce = Some (Ok m))
    (Hwrite : write m = Ok b) :
  Forall (λ a, valid_address a = true) (recipients m) ∧
  ∃ head body, split b = (head, as_bytes body) ∧
    (λ f, (fst f, split_whitespace (snd f))) <$> parse_headers head
    = (λ f, (lowercase (fst f), split_whitespace (snd f))) <$> meant m ∧
    (body = meant_body m ∨ body = meant_body m ++ CRLF).
Proof.
  apply compose_sendable in Hcompose as [Hs Hr]; [|by eapply sender_ok|done]. split; [done|].
  by apply write_reads.
Qed.

(** ** Parts of a sequence *)

Definition infix (a s : list N) : Prop := ∃ pre post, s = pre ++ a ++ post.

Lemma infix_refl s : infix s s.
Proof. exists [], []. by rewrite app_nil_r. Qed.

#[export] Instance infix_preorder : PreOrder infix.
Proof.
  split; [exact infix_refl|]. intros a b c (p1 & q1 & ->) (p2 & q2 & ->).
  exists (p2 ++ p1), (q1 ++ q2). by rewrite <- !(assoc_L (++)).
Qed.

Lemma infix_pre a s : infix s (a ++ s).
Proof. exists a, []. by rewrite app_nil_r. Qed.

Lemma infix_post a s : infix s (s ++ a).
Proof. by exists [], a. Qed.

Lemma infix_cons c s : infix s (c :: s).
Proof. apply (infix_pre [c]). Qed.

Lemma infix_take n s : infix (take n s) s.
Proof. rewrite <- (take_drop n s) at 2. apply infix_post. Qed.

Lemma infix_drop n s : infix (drop n s) s.
Proof. rewrite <- (take_drop n s) at 2. apply infix_pre. Qed.

Lemma infix_rev a s : infix a s → infix (rev a) (rev s).
Proof. intros (p & q & ->). exists (rev q), (rev p). by rewrite !rev_app_distr, (assoc_L (++)). Qed.

Lemma infix_drop_while p s : infix (drop_while p s) s.
Proof.
  induction s as [|c s IH]; [done|]. cbn [drop_while]. destruct (p c); [|done].
  etrans; [done|apply infix_cons].
Qed.

Lemma infix_trim_start s : infix (trim_start s) s.
Proof. apply infix_drop_while. Qed.

Lemma infix_trim s : infix (trim s) s.
Proof.
  etrans; [|apply infix_trim_start]. unfold trim, trim_end, drop_while_end.
  rewrite <- (rev_involutive (trim_start s)) at 2. apply infix_rev, infix_drop_while.
Qed.

Lemma infix_take_while p s : infix (take_while p s) s.
Proof.
  exists []. cbn [app]. induction s as [|c s [b IH]]; [by exists []|]. cbn [take_while].
  destruct (p c); [|by exists (c :: s)]. exists b. cbn [app]. by rewrite <- IH.
Qed.

Lemma infix_strip_last c s : infix (strip_last c s) s.
Proof. destruct (strip_last_prefix c s) as [k Hk]. exists [], k. exact Hk. Qed.

Lemma split_once_infix c s before after : split_once c s = Some (before, after) →
  infix before s ∧ infix after s.
Proof.
  intros E. cut (s = before ++ c :: after).
  { intros ->. split; [apply infix_post|]. etrans; [apply (infix_cons c)|apply infix_pre]. }
  revert before E. induction s as [|x s IH]; intros before; cbn [split_once]; [done|].
  destruct (N.eqb_spec x c) as [->|]; [by intros [= <- <-]|].
  destruct (split_once c s) as [[before' after']|]; [|done]. intros [= <- <-].
  cbn [app]. by rewrite <- IH.
Qed.

Lemma infix_split_on c s piece : piece ∈ split_on c s → infix piece s.
Proof.
  cut (∃ first rest, split_on c s = first :: rest ∧ first `prefix_of` s ∧ Forall (λ p, infix p s) rest).
  { intros (first & rest & -> & [k ->] & Hr) [->|Hp]%elem_of_cons; [apply infix_post|].
    rewrite Forall_forall in Hr. by apply Hr. }
  induction s as [|x s (first & rest & E & [k Hk] & Hr)]; cbn [split_on]; [by exists [], []|].
  rewrite E. destruct (x =? c).
  - exists [], (first :: rest). split_and!; [done|by exists (x :: s)|]. constructor.
    + rewrite Hk. etrans; [apply infix_post|apply infix_cons].
    + eapply Forall_impl; [exact Hr|]. intros p Hp. etrans; [exact Hp|apply infix_cons].
  - exists (x :: first), rest. split_and!; [done|exists k; by rewrite Hk|].
    eapply Forall_impl; [exact Hr|]. intros p Hp. etrans; [exact Hp|apply infix_cons].
Qed.

Lemma split_infix b : infix (fst (split b)) b ∧ infix (snd (split b)) b.
Proof.
  cut (∃ mid, b = fst (split b) ++ mid ++ snd (split b)).
  { intros [mid Hb]. set (h := fst _) in *. set (t := snd _) in *. clearbody h t. subst b.
    split; [apply infix_post|]. etrans; [apply (infix_pre mid)|apply infix_pre]. }
  induction b as [|c b [mid IH]]; [by exists []|]. cbn [split].
  destruct (starts (CRLF ++ CRLF) _).
  { exists (take 4 (c :: b)). cbn [fst snd app]. by rewrite take_drop. }
  destruct (starts [LF; LF] _).
  { exists (take 2 (c :: b)). cbn [fst snd app]. by rewrite take_drop. }
  exists mid. destruct (split b) as [h t]. simpl in *. by rewrite <- IH.
Qed.

(** ** The mark *)

(** [=?=], a word that ends where it begins. *)
Definition marked (s : list N) : Prop := infix (lit "=?=") s.

Lemma marked_mono a s : infix a s → marked a → marked s.
Proof. intros Hi Hm. unfold marked in *. by etrans. Qed.

Lemma marked_found s : marked s → is_Some (find_sub (lit "=?=") s).
Proof. intros (pre & post & ->). apply find_sub_within. Qed.

(** A mark is on one side of a character it does not have. *)
Lemma marked_cut a x b : x ≠ 61 → x ≠ 63 → marked (a ++ x :: b) → marked a ∨ marked b.
Proof.
  intros H1 H2 (pre & post & E). change (lit "=?=") with [61; 63; 61] in E. revert pre E.
  induction a as [|c a IH]; intros pre E; cbn [app] in E.
  - right. destruct pre as [|y pre]; simplify_eq/=. by exists pre, post.
  - destruct pre as [|y pre].
    + left. destruct a as [|c2 [|c3 a]]; simplify_eq/=. by exists [], a.
    + injection E as -> E. destruct (IH pre E) as [Ha|Hb]; [|by right].
      left. eapply marked_mono; [apply infix_cons|done].
Qed.

Lemma three_high b0 b1 b2 : between 0xE0 b0 0xEF = true → second_of_three b0 b1 = true →
  128 ≤ (b0 mod 16) * 4096 + (b1 mod 64) * 64 + b2 mod 64.
Proof.
  unfold second_of_three, continuation, between. rewrite !andb_true_iff, !N.leb_le. intros H0 H1.
  destruct (N.eqb_spec b0 0xE0) as [->|]; rewrite ?andb_true_iff, ?N.leb_le in H1; divmods.
Qed.

Lemma four_high b0 b1 b2 b3 : between 0xF0 b0 0xF4 = true → second_of_four b0 b1 = true →
  128 ≤ (b0 mod 8) * 262144 + (b1 mod 64) * 4096 + (b2 mod 64) * 64 + b3 mod 64.
Proof.
  unfold second_of_four, continuation, between. rewrite !andb_true_iff, !N.leb_le. intros H0 H1.
  destruct (N.eqb_spec b0 0xF0) as [->|]; rewrite ?andb_true_iff, ?N.leb_le in H1; divmods.
Qed.

(** Decoding consumes bytes from the left, and gives an ASCII character for
    its own byte only. *)
Lemma decode_lossy_uncons l c r : decode_lossy l = c :: r →
  ∃ used l', l = used ++ l' ∧ used ≠ [] ∧ r = decode_lossy l' ∧ (c < 128 → used = [c]).
Proof.
  assert (128 ≤ REPLACEMENT) as Hr by done.
  assert (∀ used l' x, used ≠ [] → 128 ≤ x → l = used ++ l' → x :: decode_lossy l' = c :: r →
    ∃ used l', l = used ++ l' ∧ used ≠ [] ∧ r = decode_lossy l' ∧ (c < 128 → used = [c])) as Hhigh.
  { intros used l' x Hu Hx Hl [= <- <-]. exists used, l'. split_and!; [done..|lia]. }
  destruct l as [|b0 r0]; cbn [decode_lossy]; [done|].
  destruct (N.ltb_spec b0 0x80); [intros [= <- <-]; by exists [b0], r0|].
  destruct (between 0xC2 b0 0xDF) eqn:E2.
  { apply andb_true_iff in E2 as [E2%N.leb_le E2'%N.leb_le].
    destruct r0 as [|b1 r1]; [by apply (Hhigh [b0] [])|].
    destruct (continuation b1); [apply (Hhigh [b0; b1]); try done; divmods|by apply (Hhigh [b0])]. }
  destruct (between 0xE0 b0 0xEF) eqn:E3.
  { destruct r0 as [|b1 r1]; [by apply (Hhigh [b0] [])|].
    destruct (second_of_three b0 b1) eqn:E; [|by apply (Hhigh [b0])].
    destruct r1 as [|b2 r2]; [by apply (Hhigh [b0; b1] [])|].
    destruct (continuation b2); [|by apply (Hhigh [b0; b1])].
    apply (Hhigh [b0; b1; b2]); try done. by apply three_high. }
  destruct (between 0xF0 b0 0xF4) eqn:E4; [|by apply (Hhigh [b0])].
  destruct r0 as [|b1 r1]; [by apply (Hhigh [b0] [])|].
  destruct (second_of_four b0 b1) eqn:E; [|by apply (Hhigh [b0])].
  destruct r1 as [|b2 r2]; [by apply (Hhigh [b0; b1] [])|].
  destruct (continuation b2); [|by apply (Hhigh [b0; b1])].
  destruct r2 as [|b3 r3]; [by apply (Hhigh [b0; b1; b2] [])|].
  destruct (continuation b3); [|by apply (Hhigh [b0; b1; b2])].
  apply (Hhigh [b0; b1; b2; b3]); try done. by apply four_high.
Qed.

Lemma decode_lossy_starts p l post : Forall (λ c, c < 128) p → decode_lossy l = p ++ post →
  ∃ rest, l = p ++ rest.
Proof.
  intros Hp. revert l. induction Hp as [|c p Hc Hp IH]; intros l E; [by exists l|].
  apply decode_lossy_uncons in E as (used & l' & -> & _ & E & Hu). rewrite (Hu Hc).
  symmetry in E. apply IH in E as [rest ->]. by exists rest.
Qed.

Lemma marked_decode l : marked (decode_lossy l) → marked l.
Proof.
  intros (pre & post & E). revert l E. induction pre as [|c pre IH]; intros l E.
  - apply (decode_lossy_starts (lit "=?=")) in E as [rest ->]; [apply infix_post|by repeat constructor].
  - apply decode_lossy_uncons in E as (used & l' & -> & _ & E & _).
    eapply marked_mono; [apply infix_pre|by apply IH].
Qed.

(** ** What the parts of a message are read from *)

Section sources.
Context (G : Prop).

(** A field whose mark is the message's. *)
Definition sourced (f : str * str) : Prop := marked (snd f) → G.

Lemma extend_sourced line fields : (marked line → G) → Forall sourced fields →
  Forall sourced (extend_last line fields).
Proof.
  intros Hl. induction 1 as [|[name value] fields Hf Hfs IH]; cbn [extend_last]; [done|].
  destruct fields as [|f fields]; [|by constructor].
  constructor; [|constructor]. intros [Hm|Hm]%marked_cut; [by apply Hf| |done..].
  apply Hl. eapply marked_mono; [apply infix_trim_start|done].
Qed.

Lemma header_line_sourced fields line : (marked line → G) → Forall sourced fields →
  Forall sourced (header_line fields line).
Proof.
  intros Hl Hf. unfold header_line. set (l := strip_last CR line).
  assert (infix l line) as Hi by apply infix_strip_last. clearbody l.
  destruct (_ || _); [apply extend_sourced; [|done]; intros Hm; by eapply Hl, marked_mono|].
  destruct (split_once 58 l) as [[name value]|] eqn:E; [|done].
  apply split_once_infix in E as [_ E]. apply Forall_app. split; [done|]. constructor; [|constructor].
  intros Hm. apply Hl. eapply marked_mono; [|exact Hm]. cbn [snd].
  etrans; [apply infix_trim|]. by etrans.
Qed.

Lemma parse_headers_sourced b : (marked b → G) → Forall sourced (parse_headers b).
Proof.
  intros Hb. unfold parse_headers, from_utf8_lossy.
  assert (∀ lines fields, Forall (λ line, marked line → G) lines → Forall sourced fields →
    Forall sourced (foldl header_line fields lines)) as Hgo.
  { intros lines fields Hl. revert fields. induction Hl as [|line lines H1 Hl IH]; intros fields Hf; [done|].
    apply IH. by apply header_line_sourced. }
  apply Hgo; [|constructor]. apply Forall_forall. intros line Hline Hm.
  apply Hb, marked_decode. eapply marked_mono; [by eapply infix_split_on|done].
Qed.

Lemma raw_sourced name hs value : Forall sourced hs → raw name hs = Some value → marked value → G.
Proof.
  intros Hs. unfold raw. destruct (List.find (λ h, str_eqb (fst h) name) hs) as [f|] eqn:E; [|done]. intros [= <-].
  apply List.find_some in E as [Hin _]. rewrite Forall_forall in Hs. by apply Hs, list_elem_of_In.
Qed.

Lemma raw_or_sourced name hs d : find_sub (lit "=?=") d = None → Forall sourced hs →
  marked (default d (raw name hs)) → G.
Proof.
  intros Hd Hs. destruct (raw name hs) eqn:E; simpl; [by eapply raw_sourced|].
  intros Hm%marked_found. rewrite Hd in Hm. by destruct Hm.
Qed.

End sources.

(** ** Parameters and parts *)

Lemma parameter_go_infix name s : ∀ skip previous value,
  parameter_go name skip previous s = Some value → infix value s.
Proof.
  induction s as [|c s IH]; intros skip previous value; [done|]. cbn [parameter_go].
  assert (∀ skip previous, parameter_go name skip previous s = Some value → infix value (c :: s)) as Hgo
    by (intros ? ? ?%IH; etrans; [done|apply infix_cons]).
  destruct skip as [|skip]; [|by apply Hgo]. destruct (starts name _); [|by apply Hgo].
  destruct (trim_start (drop (length name) (c :: s))) as [|e rest] eqn:Et; [by apply Hgo|].
  destruct (_ && _); [|by apply Hgo]. intros [= <-].
  transitivity (trim_start rest); [|transitivity rest; [apply infix_trim_start|]; transitivity (e :: rest);
    [apply infix_cons|rewrite <- Et; transitivity (drop (length name) (c :: s)); [apply infix_trim_start|apply infix_drop]]].
  destruct (trim_start rest) as [|q quoted]; [done|]. destruct (q =? QUOTE); [|apply infix_take_while].
  destruct (split_once QUOTE quoted) as [[inside after]|] eqn:E; [|apply infix_cons].
  apply split_once_infix in E as [E _]. etrans; [exact E|apply infix_cons].
Qed.

Lemma trim_crlf_infix b : infix (trim_crlf b) b.
Proof.
  unfold trim_crlf. assert (b = rev (rev b)) as Hb by by rewrite rev_involutive.
  generalize dependent (rev b). intros r ->.
  assert (∀ k, infix (rev (drop k r)) (rev r)) as Hk by (intros; apply infix_rev, infix_drop).
  destruct r as [|x [|y r]]; [done| |].
  - destruct (x =? LF); [apply (Hk 1%nat)|done].
  - destruct (x =? LF); [|done]. destruct (y =? CR); [apply (Hk 2%nat)|apply (Hk 1%nat)].
Qed.

Lemma split_multipart_go_infix delimiter b : ∀ whole start skip part piece,
  match part with Some p => infix (p ++ b) whole | None => infix b whole end →
  (skip = 0%nat ∨ part = Some [] ∨ part = None) →
  piece ∈ split_multipart_go delimiter b start skip part → infix piece whole.
Proof.
  assert (∀ (p b whole : list N), infix (p ++ b) whole → infix (trim_crlf p) whole) as Htrim.
  { intros p b' whole Hp. transitivity p; [apply trim_crlf_infix|].
    transitivity (p ++ b'); [apply infix_post|done]. }
  assert (∀ c (b whole : list N), infix (c :: b) whole → infix b whole) as Hnext
    by (intros c b' whole Hb; etrans; [apply infix_cons|done]).
  induction b as [|c b IH]; intros whole start skip part piece Hp Hs; cbn [split_multipart_go].
  - destruct part as [[|x p]|]; [by intros ?%elem_of_nil| |by intros ?%elem_of_nil].
    intros ->%list_elem_of_singleton. by eapply Htrim.
  - destruct skip as [|skip].
    + destruct (start && starts delimiter (c :: b)).
      * set (done_ := match part with Some p => [trim_crlf p] | None => [] end).
        assert (piece ∈ done_ → infix piece whole) as Hdone.
        { subst done_. destruct part as [p|]; [|by intros ?%elem_of_nil].
          intros ->%list_elem_of_singleton. by eapply Htrim. }
        destruct (starts (lit "--") _); [done|].
        intros [Hd|Hd]%elem_of_app; [by apply Hdone|]. eapply IH; [|by right; left|exact Hd].
        cbn [app]. destruct part as [p|]; [|by eapply Hnext].
        eapply Hnext. etrans; [apply (infix_pre p)|done].
      * apply IH; [|by left]. destruct part as [p|]; simpl; [|by eapply Hnext].
        by rewrite <- (assoc_L (++)).
    + apply IH; [|destruct Hs as [?|Hs]; [done|by right]].
      destruct Hs as [?|[->| ->]]; [done|by eapply Hnext..].
Qed.

Lemma split_multipart_infix body boundary piece : piece ∈ split_multipart body boundary → infix piece body.
Proof. apply split_multipart_go_infix; [done|by left]. Qed.

(** ** Reading *)

Section reading.
Context `{Base64}.

(** The one slice that can be out of bounds. *)
Lemma encoded_word_at s : encoded_word s = WordPanics →
  ∃ n, find_sub (lit "?=") s = Some n ∧ (n < 2)%nat.
Proof.
  unfold encoded_word. destruct (find_sub _ s) as [n|]; [|done]. intros He. exists n. split; [done|].
  destruct (Nat.ltb_spec n 2); [done|]. exfalso.
  destruct (three_fields _) as [[[charset encoding] payload]|]; [|done].
  destruct (existsb _ payload); [done|]. by destruct (word_bytes _ _).
Qed.

Lemma encoded_word_panics s : starts (lit "=?") s = true → encoded_word s = WordPanics →
  ∃ post, s = lit "=?=" ++ post.
Proof.
  intros Hs (n & Hf & Hn)%encoded_word_at. revert Hs Hf.
  change (lit "=?") with [61; 63]. change (lit "=?=") with [61; 63; 61]. change (lit "?=") with [63; 61].
  destruct s as [|a [|b [|c s]]]; cbn [starts]; rewrite ?andb_false_r; try done.
  all: rewrite !andb_true_iff; intros (Ha & Hb & _); apply N.eqb_eq in Ha, Hb; subst a b; try done.
  intros Hf. destruct (N.eqb_spec c 61) as [->|Hc]; [by exists s|]. exfalso.
  cbn [find_sub starts] in Hf. rewrite (proj2 (N.eqb_neq 61 c)) in Hf by done. simpl in Hf. revert Hf.
  case_match; simpl; [intros [= <-]; lia|]. destruct (find_sub _ s); simpl; [intros [= <-]; lia|done].
Qed.

(** A header without the mark is decoded. *)
Lemma decode_words_go_panics s : ∀ skip before word, decode_words_go s skip before word = None → marked s.
Proof.
  induction s as [|c s IH]; intros skip before word; [done|]. cbn [decode_words_go].
  assert (∀ skip before word, decode_words_go s skip before word = None → marked (c :: s)) as Hgo.
  { intros skip' before' word' Hm%IH. eapply marked_mono; [apply infix_cons|done]. }
  destruct skip as [|skip]; [|by apply Hgo].
  destruct (starts (lit "=?") (c :: s)) eqn:Es; [|by apply Hgo].
  destruct (encoded_word (c :: s)) eqn:Ew.
  - destruct (decode_words_go s 1 _ _) eqn:E; [done|]. by eauto.
  - destruct (decode_words_go s _ _ true) eqn:E; [done|]. by eauto.
  - intros _. apply encoded_word_panics in Ew as [post ->]; [|done]. apply infix_post.
Qed.

Lemma decode_words_panics s : decode_words s = None → marked s.
Proof. apply decode_words_go_panics. Qed.

(** ** The bounds of the walk *)

Lemma leaf_bounds (G : Prop) hs media body out : Forall (sourced G) hs →
  match leaf hs (default (lit "text/plain") (raw (lit "content-type") hs)) media body out with
  | Some out' => (length (attachments out') ≤ S (length (attachments out)))%nat
  | None => G
  end.
Proof.
  intros Hs. unfold leaf. set (decoded := decode_transfer _ _). clearbody decoded.
  set (disposition := default [] (raw _ hs)). set (content_type := default (lit "text/plain") _).
  assert (marked disposition → G) as Hd by by apply raw_or_sourced.
  assert (marked content_type → G) as Hc by by apply raw_or_sourced.
  clearbody disposition content_type.
  destruct (_ || _); [|by repeat case_match; simpl; lia].
  assert (∀ x : Attachment, (length (attachments out ++ [x]) ≤ S (length (attachments out)))%nat) as Hl
    by (intros; rewrite length_app; simpl; lia).
  assert (∀ name header value, (marked header → G) → parameter header name = Some value →
    decode_words value = None → G) as Hn.
  { intros name header value Hh Hp%parameter_go_infix Hm%decode_words_panics. by eapply Hh, marked_mono. }
  destruct (parameter disposition _) as [name|] eqn:E1.
  - simpl. destruct (decode_words name) eqn:E; simpl; [apply Hl|by eapply (Hn _ disposition)].
  - destruct (parameter content_type (lit "name")) as [name|] eqn:E2; [|simpl; apply Hl].
    simpl. destruct (decode_words name) eqn:E; simpl; [apply Hl|by eapply (Hn _ content_type)].
Qed.

Definition within (G : Prop) (budget : nat) (out : Message) (state : option (nat * Message)) : Prop :=
  match state with
  | Some (budget', out') =>
      (budget' ≤ budget)%nat ∧
      (length (attachments out') + budget' ≤ length (attachments out) + budget)%nat
  | None => G
  end.

Lemma walk_bounds (G : Prop) levels : ∀ hs body budget out,
  Forall (sourced G) hs → (marked body → G) → within G budget out (walk levels hs body budget out).
Proof.
  induction levels as [|levels IH]; intros hs body budget out Hs Hb; [by simpl; lia|].
  destruct budget as [|budget]; [by simpl; lia|]. cbn [walk].
  set (content_type := default _ _). set (media := lowercase _).
  assert (within G (S budget) out ((λ out, (budget, out)) <$> leaf hs content_type media body out)) as Hleaf.
  { pose proof (leaf_bounds G hs media body out Hs) as Hl. fold content_type in Hl.
    destruct (leaf _ _ _ _ _) as [out'|]; simpl; [lia|done]. }
  destruct (parameter content_type _) as [boundary|]; [|done]. destruct (starts _ media); [|done].
  assert (∀ parts state, Forall (λ part, infix part body) parts → within G (S budget) out state →
    within G (S budget) out (foldl (λ state part,
        '(budget, out) ← state;
        let '(part_headers, part_body) := split part in
        walk levels (parse_headers part_headers) part_body budget out) state parts)) as Hgo.
  { intros parts state Hp. revert state. induction Hp as [|part parts Hpart Hp IHp]; intros state Hst; [done|].
    cbn [foldl]. apply IHp. destruct state as [[budget' out']|]; [|done]. simpl.
    destruct (split_infix part) as [Hh Ht]. destruct (split part) as [ph pb]. simpl in Hh, Ht, Hst.
    assert (∀ x, infix x part → marked x → G) as Hx
      by (intros x Hx Hm; apply Hb; eapply (marked_mono x); [transitivity part; done|done]).
    assert (within G budget' out' (walk levels (parse_headers ph) pb budget' out')) as Hw
      by (apply IH; [apply parse_headers_sourced|]; by apply Hx).
    destruct (walk _ _ _ _ _) as [[budget'' out'']|]; simpl in *; [lia|done]. }
  apply Hgo; [|simpl; lia]. apply Forall_forall. intros part. apply split_multipart_infix.
Qed.

Lemma truncate_bound s : ∀ limit, byte_len (truncate_utf8 s limit) ≤ limit.
Proof.
  induction s as [|c s IH]; intros limit; [apply N.le_0_l|]. cbn [truncate_utf8].
  destruct (N.leb_spec (len (encode_char c)) limit); [|apply N.le_0_l].
  specialize (IH (limit - len (encode_char c))). unfold byte_len, as_bytes, len in *. cbn [flat_map].
  rewrite length_app. lia.
Qed.

(** A header without the mark can be read. *)
Lemma get_sourced (G : Prop) name hs : Forall (sourced G) hs → get name hs = None → G.
Proof.
  intros Hs. unfold get. destruct (raw name hs) as [value|] eqn:E; [|done].
  destruct (decode_words value) eqn:Ed; [done|]. intros _.
  eapply raw_sourced; [done..|]. by apply decode_words_panics.
Qed.

(** (C22) Reading a message is bounded whatever the message holds: it has at
    most 64 attachments and a text of at most 256 KiB, its headers are those of
    the block above the first blank line, and each of them can be asked for.
    The only message whose reading, or the reading of one of whose headers,
    panics is one that has [=?=] in its bytes, a word that ends where it
    begins. *)
Theorem parse_bounded b :
  match parse b with
  | Some m =>
      (length (attachments m) ≤ 64)%nat ∧ byte_len (text m) ≤ 262144 ∧
      headers m = parse_headers (fst (split b)) ∧
      ((∃ name, get name (headers m) = None) → is_Some (find_sub (lit "=?=") b))
  | None => is_Some (find_sub (lit "=?=") b)
  end.
Proof.
  unfold parse. pose proof (split_infix b) as [Hh Ht]. destruct (split b) as [head body]. cbn [fst snd] in *.
  assert (Forall (sourced (marked b)) (parse_headers head)) as Hs
    by (apply parse_headers_sourced; by apply marked_mono).
  pose proof (walk_bounds (marked b) (MAX_DEPTH + 1) (parse_headers head) body MAX_PARTS
    (mkMessage [] [] false []) Hs (marked_mono _ _ Ht)) as Hw.
  destruct (walk _ _ _ _ _) as [[budget out]|]; [|by apply marked_found].
  destruct Hw as [_ Hw]. cbn [mbind option_bind].
  split; [simpl in *; unfold MAX_PARTS in Hw; lia|]. split_and!; [|done|].
  - cbn [text]. destruct (N.ltb_spec MAX_BODY_BYTES (byte_len (text out))); [apply truncate_bound|done].
  - intros [name Hg]. apply marked_found. by eapply get_sourced.
Qed.
End reading.
