(* ===== verification/Wire.v ===== *)
(** IMAP framing of the email plugin: [plugins/email/src/wire.rs].

    A socket is an interface: what the host and the peer do with what is
    sent, and what a read returns.  An operation on a connection is a function
    of the connection and of the surroundings; it ends with a value, with an
    error, or, when a loop was given too little fuel, unfinished.  The plugin
    is compiled for a 32-bit target. *)
From stdpp Require Import base tactics option list strings.
From Stdlib Require Import NArith Lia.
From S2P Require Import Prelude Utf8 Host Text.

Local Open Scope N_scope.

(** ** Errors and numbers *)

Definition failure (c : ErrorCode) (message : string) : WitError :=
  mkWitError c message (match c with Unavailable | DeadlineExceeded => true | _ => false end) None.
Definition unavailable (message : string) : WitError := failure Unavailable message.

Definition usize_max : N := 4294967295.

Definition is_digit (c : N) : bool := between 48 c 57.

(** [parse] of an unsigned integer type with the given maximum. *)
Fixpoint digits_value (max acc : N) (s : list N) : option N :=
  match s with
  | [] => Some acc
  | c :: s =>
      if is_digit c && (acc * 10 + (c - 48) <=? max) then digits_value max (acc * 10 + (c - 48)) s
      else None
  end.
Definition parse_unsigned (max : N) (s : list N) : option N :=
  match s with
  | [] => None
  | [c] => digits_value max 0 [c]
  | c :: rest => digits_value max 0 (if c =? 43 then rest else s)
  end.

(** ** Sockets *)

(** [types.chunk]. *)
Record Chunk : Type := mkChunk { chunk_bytes : list N; chunk_closed : bool }.

(** [Socket::connect], [Socket::send] and [Socket::read] of the SDK; a read has
    a size and a time limit. *)
Class Transport (W : Type) : Type := {
  tr_connect : string → W → result unit WitError * W;
  tr_send : list N → W → result unit WitError * W;
  tr_read : N → option N → W → result Chunk WitError * W;
}.

(** ** Sessions *)

Inductive ending (A : Type) : Type :=
| Value_ (a : A)
| Failure_ (e : WitError)
| Unfinished.
Arguments Value_ {A}.
Arguments Failure_ {A}.
Arguments Unfinished {A}.

Section session.
Context {T W : Type}.

(** An operation of a session of type [T] in surroundings of type [W]. *)
Definition Session_ (A : Type) : Type := T → W → ending A * T * W.

Definition se_ret {A} (a : A) : Session_ A := λ t w, (Value_ a, t, w).
Definition se_fail {A} (e : WitError) : Session_ A := λ t w, (Failure_ e, t, w).
Definition se_unfinished {A} : Session_ A := λ t w, (Unfinished, t, w).
Definition se_bind {A B} (m : Session_ A) (k : A → Session_ B) : Session_ B :=
  λ t w, match m t w with
         | (Value_ a, t, w) => k a t w
         | (Failure_ e, t, w) => (Failure_ e, t, w)
         | (Unfinished, t, w) => (Unfinished, t, w)
         end.
Definition se_lift {A} (r : result A WitError) : Session_ A :=
  match r with Ok a => se_ret a | Err e => se_fail e end.
Definition se_get : Session_ T := λ t w, (Value_ t, t, w).
Definition se_put (t : T) : Session_ unit := λ _ w, (Value_ tt, t, w).
(** A call of the socket. *)
Definition se_call {A} (f : W → result A WitError * W) : Session_ A :=
  λ t w, let '(r, w) := f w in
         match r with Ok a => (Value_ a, t, w) | Err e => (Failure_ e, t, w) end.
End session.

Notation "'let$' x := m 'in' k" := (se_bind m (fun x => k))
  (at level 10, x pattern, m at level 100, k at level 200) : rust_scope.
Notation "'do$' m ; k" := (se_bind m (fun _ => k))
  (at level 10, m at level 100, k at level 200) : rust_scope.
Local Open Scope rust_scope.

(** ** Framing *)

Definition READ_CHUNK : N := 64 * 1024.
Definition MAX_RESPONSE : N := 8 * 1024 * 1024.
Definition MAX_BUFFERED : N := MAX_RESPONSE + 64 * 1024.

Record Framer : Type := mkFramer { buffer : list N; start : nat }.

(** [Response] is its bytes. *)
Definition Response : Type := list N.
Definition response_text (r : Response) : str := from_utf8_lossy r.
Definition is_continuation (r : Response) : bool := starts (lit "+") r.

Definition find_crlf (b : list N) : option nat := find_sub CRLF b.

(** The last position of a byte. *)
Definition rposition (c : N) (b : list N) : option nat :=
  match split_once c (rev b) with
  | Some (after, _) => Some (length b - length after - 1)%nat
  | None => None
  end.

Definition literal_length (line : list N) : option N :=
  match rev line with
  | 125 :: reversed =>
      let line := rev reversed in
      match rposition 123 line with
      | None => None
      | Some open =>
          let digits := strip_last 43 (drop (S open) line) in
          if bool_decide (digits = []) || negb (forallb is_digit digits) then None
          else parse_unsigned usize_max digits
      end
  | _ => None
  end.

Definition push (f : Framer) (b : list N) : result Framer WitError :=
  if MAX_BUFFERED <? len (buffer f) - N.of_nat (start f)
  then Err (failure ResourceExhausted "endpoint response exceeds the buffer ceiling")
  else Ok (mkFramer (drop (start f) (buffer f) ++ b) 0).

(** The loop of [take_response].  Every turn but the last passes a line, so
    one more turn than there are bytes is enough. *)
Fixpoint take_go (fuel : nat) (f : Framer) (cursor : nat) (line : list N)
    : result (option Response) WitError * Framer :=
  match fuel with
  | O => (Ok None, f)
  | S fuel =>
      match find_crlf (drop cursor (buffer f)) with
      | None => (Ok None, f)
      | Some end_ =>
          let text := take end_ (drop cursor (buffer f)) in
          match literal_length text with
          | None =>
              let line := line ++ text in
              let f := mkFramer (buffer f) (cursor + end_ + 2) in
              if MAX_RESPONSE <? len line
              then (Err (failure ResourceExhausted "endpoint response exceeds the response ceiling"), f)
              else (Ok (Some line), f)
          | Some length_ =>
              let body := (cursor + end_ + 2)%nat in
              if MAX_RESPONSE <? N.min (len line + length_) usize_max
              then (Err (failure ResourceExhausted "endpoint literal exceeds the response ceiling"), f)
              else if len (buffer f) <? N.of_nat body + length_ then (Ok None, f)
              else
                take_go fuel f (body + N.to_nat length_)
                  (line ++ text ++ take (N.to_nat length_) (drop body (buffer f)))
          end
      end
  end.
Definition take_response (f : Framer) : result (option Response) WitError * Framer :=
  take_go (S (length (buffer f))) f (start f) [].

(** ** Connections *)

Record Connection : Type := mkConnection { framer : Framer; tag : N; closed : bool }.

Definition connection_new : Connection := mkConnection (mkFramer [] 0) 0 false.

Inductive Status : Type := StatusOk | StatusNo | StatusBad.
Record Completion : Type := mkCompletion { status : Status; untagged : list Response }.

(** [strip_prefix] of a [str]. *)
Definition strip (p s : str) : option str := if starts p s then Some (drop (length p) s) else None.

Definition tagged_status (response : Response) (tag : str) : result (option Status) WitError :=
  match strip tag (response_text response) with
  | None => Ok None
  | Some rest =>
      match strip [SP] rest with
      | None => Ok None
      | Some rest =>
          let word := uppercase (default [] (head (split_on SP rest))) in
          if str_eqb word (lit "OK") then Ok (Some StatusOk)
          else if str_eqb word (lit "NO") then Ok (Some StatusNo)
          else if str_eqb word (lit "BAD") then Ok (Some StatusBad)
          else Err (unavailable "endpoint sent an unknown completion status")
      end
  end.

(** [{:04}]. *)
Definition pad4 (s : str) : str := replicate (4 - length s) 48 ++ s.

Section connection.
Context {W : Type} `{Transport W}.

Definition Conn (A : Type) : Type := Session_ (T := Connection) (W := W) A.

Definition next_tag : Conn str :=
  let$ c := se_get in
  let tag := (tag c + 1) mod 4294967296 in
  do$ se_put (mkConnection (framer c) tag (closed c));
  se_ret (lit "p" ++ pad4 (lit (u64_to_string tag))).

Definition send_line (line : str) : Conn unit := se_call (tr_send (as_bytes line ++ CRLF)).

(** [self.framer.take_response()]. *)
Definition take_next : Conn (option Response) :=
  let$ c := se_get in
  let '(r, f) := take_response (framer c) in
  do$ se_put (mkConnection f (tag c) (closed c));
  se_lift r.

Definition fill (timeout_ms : option N) : Conn bool :=
  let$ chunk := se_call (tr_read READ_CHUNK timeout_ms) in
  let$ c := se_get in
  if chunk_closed chunk then
    do$ se_put (mkConnection (framer c) (tag c) true);
    se_fail (unavailable "endpoint closed the connection")
  else if bool_decide (chunk_bytes chunk = []) then se_ret false
  else
    let$ f := se_lift (push (framer c) (chunk_bytes chunk)) in
    do$ se_put (mkConnection f (tag c) (closed c));
    se_ret true.

(** The loop of [read]. *)
Fixpoint read_loop (fuel : nat) : Conn (option Response) :=
  match fuel with
  | O => se_unfinished
  | S fuel =>
      let$ response := take_next in
      match response with
      | Some response => se_ret (Some response)
      | None =>
          let$ more := fill None in
          if negb more then se_fail (unavailable "endpoint closed mid-response")
          else read_loop fuel
      end
  end.
Definition read (fuel : nat) (timeout_ms : option N) : Conn (option Response) :=
  let$ response := take_next in
  match response with
  | Some response => se_ret (Some response)
  | None =>
      let$ more := fill timeout_ms in
      if negb more then se_ret None else read_loop fuel
  end.

(** [read_until_tagged]; [fuel] bounds the responses, and the reads of each. *)
Fixpoint read_until_tagged_go (reads fuel : nat) (tag : str) (responses : list Response) : Conn Completion :=
  match fuel with
  | O => se_unfinished
  | S fuel =>
      let$ response := read reads None in
      match response with
      | None => se_fail (unavailable "endpoint closed before completing a command")
      | Some response =>
          let$ answer := se_lift (tagged_status response tag) in
          match answer with
          | Some status => se_ret (mkCompletion status responses)
          | None => read_until_tagged_go reads fuel tag (responses ++ [response])
          end
      end
  end.
Definition read_until_tagged (fuel : nat) (tag : str) : Conn Completion :=
  read_until_tagged_go fuel fuel tag [].
End connection.

(** ** Lines *)

Definition no_crlf (b : list N) : Prop := find_crlf b = None.

Lemma no_crlf_cons c b : no_crlf (c :: b) → starts CRLF (c :: b) = false ∧ no_crlf b.
Proof.
  unfold no_crlf, find_crlf. cbn [find_sub]. destruct (starts CRLF (c :: b)); [done|].
  by destruct (find_sub CRLF b).
Qed.

Lemma no_crlf_clean b : Forall (λ c, c ≠ LF) b → no_crlf b.
Proof.
  unfold no_crlf, find_crlf. induction 1 as [|c b Hc Hb IH]; [done|]. cbn [find_sub]. rewrite IH.
  destruct Hb as [|d b Hd _]; cbn [starts CRLF]; [by rewrite andb_false_r|].
  rewrite (proj2 (N.eqb_neq LF d)) by done. by rewrite andb_false_r.
Qed.

(** A line ends at its CRLF. *)
Lemma find_crlf_line l t : no_crlf l → find_crlf (l ++ CRLF ++ t) = Some (length l).
Proof.
  induction l as [|c l IH]; intros Hl; [done|]. apply no_crlf_cons in Hl as [Hs Hl].
  unfold find_crlf in *. cbn [app find_sub]. rewrite (IH Hl).
  replace (starts CRLF (c :: l ++ CRLF ++ t)) with false; [done|]. symmetry.
  destruct l as [|d l]; [|exact Hs]. cbn [app starts CRLF]. by rewrite andb_false_r.
Qed.

Lemma take_line (l t : list N) : take (length l) (l ++ t) = l.
Proof. by rewrite take_app_length. Qed.

Lemma drop_line (l t : list N) : drop (length l + 2) (l ++ CRLF ++ t) = t.
Proof.
  rewrite (assoc_L (++)). rewrite drop_app_ge by (rewrite length_app; simpl; lia).
  rewrite length_app. replace (length l + 2 - (length l + length CRLF))%nat with 0%nat by (simpl; lia). done.
Qed.
