(* ===== verification/Imap.v ===== *)
(** The IMAP commands of the email plugin: [plugins/email/src/imap.rs].

    A command runs on a connection of [Wire].  The parser of a FETCH response
    recurses through nested lists; [fuel] bounds its turns, and [None] says
    that they were not enough. *)
From stdpp Require Import base tactics option list strings sorting.
From Stdlib Require Import NArith Lia.
From S2P Require Import Prelude Utf8 Host Text Wire.

Local Open Scope N_scope.
Local Open Scope rust_scope.

Record Mailbox : Type := mkMailbox { uid_validity : N; uid_next : N; exists_ : N }.

Record Fetched : Type := mkFetched {
  fetched_uid : N;
  internal_date : option str;
  fetched_size : N;
  fetched_bytes : list N;
  truncated : bool;
}.

Record FetchItems : Type := mkFetchItems {
  item_uid : option N;
  item_size : option N;
  item_internal_date : option str;
  item_body : option (list N);
}.

Inductive Token : Type :=
| Atom (s : str)
| Quoted (s : str)
| Literal (b : list N)
| TokenList (items : list Token).

(** [parse::<u64>().ok()]. *)
Definition parse_u64 (s : str) : option N := parse_unsigned u64_max s.
Definition number (n : N) : str := lit (u64_to_string n).

(** ** Values in commands and responses *)

Definition require_ok (completion : Completion) (command : string) : result unit WitError :=
  match status completion with
  | StatusOk => Ok tt
  | StatusNo => Err (unavailable ("endpoint refused " +:+ command))
  | StatusBad => Err (failure Internal ("endpoint rejected " +:+ command +:+ " as malformed"))
  end.

(** [bracketed]. *)
Definition bracketed (text : str) (code : string) : option N :=
  match find_sub (lit "[" ++ lit code ++ [SP]) text with
  | None => None
  | Some at_ =>
      let rest := drop (at_ + length (lit code) + 2) text in
      match split_once 93 rest with
      | Some (value, _) => parse_u64 (trim value)
      | None => None
      end
  end.

(** [quoted]: the two replacements make one pass, as neither's result has the
    other's character. *)
Definition quoted (value : str) : result str WitError :=
  if existsb (λ c, (c =? CR) || (c =? LF) || (c =? 0)) value
  then Err (failure InvalidArgument "value cannot appear in an IMAP command")
  else Ok ([QUOTE] ++ flat_map (λ c, if (c =? 92) || (c =? QUOTE) then [92; c] else [c]) value ++ [QUOTE]).

(** ** FETCH responses *)

Definition skip_spaces (b : list N) : list N := drop_while (N.eqb SP) b.

(** The quoted string after its first quote. *)
Fixpoint parse_quoted (b : list N) (text : str) : result (Token * list N) WitError :=
  match b with
  | [] => Err (unavailable "endpoint sent an unterminated string")
  | c :: rest =>
      if c =? 92 then
        match rest with
        | x :: rest => parse_quoted rest (text ++ [x])
        | [] => Err (unavailable "endpoint sent an unterminated string")
        end
      else if c =? QUOTE then Ok (Quoted text, rest)
      else parse_quoted rest (text ++ [c])
  end.

(** A literal from its brace. *)
Definition parse_literal (b : list N) : result (Token * list N) WitError :=
  match split_once 125 b with
  | None => Err (unavailable "endpoint sent an unterminated literal")
  | Some (marker, rest) =>
      let digits := strip_last 43 (drop 1 marker) in
      match parse_unsigned usize_max digits with
      | None => Err (unavailable "endpoint sent a malformed literal length")
      | Some length_ =>
          if len rest <? length_ then Err (unavailable "endpoint sent a truncated literal")
          else Ok (Literal (take (N.to_nat length_) rest), drop (N.to_nat length_) rest)
      end
  end.

Definition ends_atom (c : N) : bool :=
  (c =? SP) || (c =? 40) || (c =? 41) || (c =? QUOTE) || (c =? 123) || (c =? CR) || (c =? LF).
Definition atom_bytes (b : list N) : list N := take_while (λ c, negb (ends_atom c)) b.
Definition parse_atom (b : list N) : Token * list N :=
  (Atom (from_utf8_lossy (atom_bytes b)), drop (length (atom_bytes b)) b).

Fixpoint parse_token (fuel : nat) (b : list N) : option (result (Token * list N) WitError) :=
  match fuel with
  | O => None
  | S fuel =>
      match skip_spaces b with
      | [] => Some (Err (unavailable "endpoint sent an empty response"))
      | c :: rest =>
          if c =? 40 then parse_items fuel rest []
          else if c =? QUOTE then Some (parse_quoted rest [])
          else if c =? 123 then Some (parse_literal (c :: rest))
          else Some (Ok (parse_atom (c :: rest)))
      end
  end
with parse_items (fuel : nat) (b : list N) (items : list Token)
    : option (result (Token * list N) WitError) :=
  match fuel with
  | O => None
  | S fuel =>
      match skip_spaces b with
      | [] => Some (Err (unavailable "endpoint sent an unterminated list"))
      | c :: rest =>
          if c =? 41 then Some (Ok (TokenList items, rest))
          else
            match parse_token fuel (c :: rest) with
            | Some (Ok (token, rest)) => parse_items fuel rest (items ++ [token])
            | Some (Err e) => Some (Err e)
            | None => None
            end
      end
  end.

(** What one name and its value contribute. *)
Definition read_item (fetched : FetchItems) (name : str) (value : option Token) : FetchItems :=
  let name := uppercase name in
  let body token :=
    if starts (lit "BODY[") name || str_eqb name (lit "RFC822")
    then mkFetchItems (item_uid fetched) (item_size fetched) (item_internal_date fetched)
           (Some (match token with
                  | Literal b => b
                  | Quoted s | Atom s => as_bytes s
                  | TokenList _ => []
                  end))
    else fetched in
  match value with
  | None => fetched
  | Some (Atom s as token) =>
      if str_eqb name (lit "UID")
      then mkFetchItems (parse_u64 s) (item_size fetched) (item_internal_date fetched) (item_body fetched)
      else if str_eqb name (lit "RFC822.SIZE")
      then mkFetchItems (item_uid fetched) (parse_u64 s) (item_internal_date fetched) (item_body fetched)
      else body token
  | Some (Quoted s as token) =>
      if str_eqb name (lit "INTERNALDATE")
      then mkFetchItems (item_uid fetched) (item_size fetched) (Some s) (item_body fetched)
      else body token
  | Some token => body token
  end.

Fixpoint read_items (fetched : FetchItems) (items : list Token) : FetchItems :=
  match items with
  | [] => fetched
  | Atom name :: rest =>
      let fetched := read_item fetched name (head rest) in
      match rest with
      | _ :: rest => read_items fetched rest
      | [] => fetched
      end
  | _ :: rest => read_items fetched rest
  end.

Definition parse_fetch (fuel : nat) (response : Response)
    : option (result (option FetchItems) WitError) :=
  match strip (lit "* ") response with
  | None => Some (Ok None)
  | Some rest =>
      match split_once 40 rest with
      | None => Some (Ok None)
      | Some (before, _) =>
          match find_sub (lit "FETCH") (uppercase (from_utf8_lossy before)) with
          | None => Some (Ok None)
          | Some _ =>
              match parse_token fuel (drop (length before) rest) with
              | None => None
              | Some (Err e) => Some (Err e)
              | Some (Ok (TokenList items, _)) =>
                  Some (Ok (Some (read_items (mkFetchItems None None None None) items)))
              | Some (Ok _) => Some (Ok None)
              end
          end
      end
  end.

(** [filter_map(|response| parse_fetch(response).ok().flatten())] and [find]:
    lazily, the first items with the identifier. *)
Fixpoint find_items (fuel : nat) (uid : N) (responses : list Response) : option (option FetchItems) :=
  match responses with
  | [] => Some None
  | response :: responses =>
      match parse_fetch fuel response with
      | None => None
      | Some (Ok (Some items)) =>
          if bool_decide (item_uid items = Some uid) then Some (Some items)
          else find_items fuel uid responses
      | Some _ => find_items fuel uid responses
      end
  end.

(** ** Searches *)

(** The numbers of a SEARCH response. *)
Definition search_uids (response : Response) : option (list N) :=
  match strip (lit "* SEARCH") (response_text response) with
  | Some rest => Some (omap parse_u64 (split_whitespace rest))
  | None => None
  end.

(** [dedup] of a sorted vector. *)
Fixpoint dedup (l : list N) : list N :=
  match l with
  | x :: ((y :: _) as rest) => if x =? y then dedup rest else x :: dedup rest
  | _ => l
  end.

(** What [search_since] makes of the responses. *)
Definition found_since (after : N) (limit : nat) (responses : list Response) : list N :=
  take limit (dedup (merge_sort N.le
    (List.filter (λ uid, after <? uid) (concat (omap search_uids responses))))).

(** [max]. *)
Definition maximum (l : list N) : option N :=
  match l with [] => None | x :: rest => Some (foldl N.max x rest) end.

(** ** Commands *)

Section commands.
Context {W : Type} `{Transport W}.

Definition greet (fuel : nat) : Conn (W := W) unit :=
  let$ response := read fuel None in
  match response with
  | None => se_fail (unavailable "endpoint sent no greeting")
  | Some response =>
      let text := response_text response in
      if starts (lit "* OK") text then se_ret tt
      else if starts (lit "* PREAUTH") text
      then se_fail (failure PermissionDenied
             "endpoint pre-authenticated a session this connector did not open")
      else se_fail (unavailable ("endpoint refused the session: " +:+ str_of_chars text))
  end.

Definition capabilities (fuel : nat) : Conn (W := W) (list str) :=
  let$ tag := next_tag in
  do$ send_line (tag ++ lit " CAPABILITY");
  let$ completion := read_until_tagged fuel tag in
  do$ se_lift (require_ok completion "CAPABILITY");
  se_ret (concat (omap (λ response,
    (λ list, uppercase <$> split_on SP list) <$> strip (lit "* CAPABILITY ") (response_text response))
    (untagged completion))).

Definition login (fuel : nat) (user password : str) : Conn (W := W) unit :=
  if str_eqb user [] || str_eqb password []
  then se_fail (failure InvalidArgument "credential is missing a username or password")
  else
    let$ tag := next_tag in
    let$ quoted_user := se_lift (quoted user) in
    let$ quoted_password := se_lift (quoted password) in
    do$ send_line (tag ++ lit " LOGIN " ++ quoted_user ++ [SP] ++ quoted_password);
    let$ completion := read_until_tagged fuel tag in
    match status completion with
    | StatusOk => se_ret tt
    | StatusNo | StatusBad => se_fail (failure PermissionDenied "endpoint rejected the credential")
    end.

Definition highest_uid (fuel : nat) : Conn (W := W) N :=
  let$ tag := next_tag in
  do$ send_line (tag ++ lit " UID SEARCH ALL");
  let$ completion := read_until_tagged fuel tag in
  do$ se_lift (require_ok completion "UID SEARCH");
  se_ret (default 0 (maximum (omap (λ response, search_uids response ≫= maximum) (untagged completion)))).

(** What one untagged response says of the mailbox. *)
Definition examined (state : Mailbox) (response : Response) : Mailbox :=
  let text := response_text response in
  let state := match bracketed text "UIDVALIDITY" with
               | Some value => mkMailbox value (uid_next state) (exists_ state)
               | None => state
               end in
  let state := match bracketed text "UIDNEXT" with
               | Some value => mkMailbox (uid_validity state) value (exists_ state)
               | None => state
               end in
  let suffix := lit " EXISTS" in
  match strip (lit "* ") text with
  | Some rest =>
      if starts (rev suffix) (rev rest) then
        match parse_u64 (take (length rest - length suffix) rest) with
        | Some count => mkMailbox (uid_validity state) (uid_next state) count
        | None => state
        end
      else state
  | None => state
  end.

Definition examine (fuel : nat) (mailbox : str) : Conn (W := W) Mailbox :=
  let$ tag := next_tag in
  let$ name := se_lift (quoted mailbox) in
  do$ send_line (tag ++ lit " EXAMINE " ++ name);
  let$ completion := read_until_tagged fuel tag in
  do$ se_lift (require_ok completion "EXAMINE");
  let state := foldl examined (mkMailbox 0 0 0) (untagged completion) in
  if uid_validity state =? 0 then se_fail (unavailable "endpoint reported no UIDVALIDITY")
  else if uid_next state =? 0 then
    let$ highest := highest_uid fuel in
    se_ret (mkMailbox (uid_validity state) (N.min (highest + 1) u64_max) (exists_ state))
  else se_ret state.

Definition search_since (fuel : nat) (after : N) (limit : nat) : Conn (W := W) (list N) :=
  let$ tag := next_tag in
  do$ send_line (tag ++ lit " UID SEARCH UID " ++ number (N.min (after + 1) u64_max) ++ lit ":*");
  let$ completion := read_until_tagged fuel tag in
  do$ se_lift (require_ok completion "UID SEARCH");
  se_ret (found_since after limit (untagged completion)).

(** A command whose answer is the items of one message. *)
Definition fetch_items (fuel : nat) (uid : N) (what : str) : Conn (W := W) (option FetchItems) :=
  let$ tag := next_tag in
  do$ send_line (tag ++ lit " UID FETCH " ++ number uid ++ lit " (" ++ what ++ lit ")");
  let$ completion := read_until_tagged fuel tag in
  do$ se_lift (require_ok completion "UID FETCH");
  match find_items fuel uid (untagged completion) with
  | Some found => se_ret found
  | None => se_unfinished
  end.

Definition fetch (fuel : nat) (uid max_bytes : N) : Conn (W := W) (option Fetched) :=
  let$ found := fetch_items fuel uid (lit "UID RFC822.SIZE") in
  match found ≫= item_size with
  | None => se_ret None
  | Some size =>
      let truncated := max_bytes <? size in
      let$ found := fetch_items fuel uid
        (lit "UID INTERNALDATE BODY.PEEK[" ++ (if truncated then lit "HEADER" else []) ++ lit "]") in
      match found with
      | None => se_ret None
      | Some items =>
          se_ret (Some (mkFetched uid (item_internal_date items) size (default [] (item_body items)) truncated))
      end
  end.

(** The loop of [idle_begin]. *)
Fixpoint idle_loop (reads fuel : nat) (tag : str) : Conn (W := W) str :=
  match fuel with
  | O => se_unfinished
  | S fuel =>
      let$ response := read reads None in
      match response with
      | None => se_fail (unavailable "endpoint closed before accepting IDLE")
      | Some response =>
          if is_continuation response then se_ret tag
          else if starts tag (response_text response) then se_fail (unavailable "endpoint refused IDLE")
          else idle_loop reads fuel tag
      end
  end.
Definition idle_begin (fuel : nat) : Conn (W := W) str :=
  let$ tag := next_tag in
  do$ send_line (tag ++ lit " IDLE");
  idle_loop fuel fuel tag.

Definition idle_end (fuel : nat) (tag : str) : Conn (W := W) unit :=
  do$ send_line (lit "DONE");
  let$ completion := read_until_tagged fuel tag in
  se_lift (require_ok completion "IDLE").
End commands.

Definition announces_arrival (response : Response) : bool :=
  match strip (lit "* ") (response_text response) with
  | None => false
  | Some rest =>
      match split_on SP rest with
      | count :: kind :: _ =>
          bool_decide (is_Some (parse_u64 count))
          && (str_eqb kind (lit "EXISTS") || str_eqb kind (lit "RECENT"))
      | _ => false
      end
  end.
