(* ===== verification/Smtp.v ===== *)
(** SMTP submission of the email plugin: [plugins/email/src/smtp.rs], and the
    submission of [send.rs] over it. *)
From stdpp Require Import base tactics option list strings.
From Stdlib Require Import NArith Lia.
From S2P Require Import Prelude Utf8 Host Text Mime Email Wire.

Local Open Scope N_scope.
Local Open Scope rust_scope.

Definition SMTP_READ_CHUNK : N := 16 * 1024.
Definition REPLY_TIMEOUT_MS : N := 60000.
Definition MAX_REPLY : N := 64 * 1024.

Record Reply : Type := mkReply { reply_code : N; reply_lines : list str }.
Definition reply_text (r : Reply) : str := join_with [SP] (reply_lines r).

(** The state of a [Session] beside its socket. *)
Record Session : Type := mkSession { session_buffer : list N; extensions : list str }.

(** The sum saturates at [usize::MAX], which is above the ceiling. *)
Definition reply_exceeds_limit (current_size line_size : N) : bool :=
  MAX_REPLY <? N.min (N.min (current_size + line_size) usize_max + 2) usize_max.

(** The lines of a byte string, cut at every CRLF. *)
Fixpoint split_crlf (b : list N) : list (list N) :=
  match b with
  | [] => [[]]
  | c :: rest =>
      let longer lines := match lines with line :: lines => (c :: line) :: lines | [] => [[c]] end in
      match rest with
      | d :: after => if (c =? CR) && (d =? LF) then [] :: split_crlf after else longer (split_crlf rest)
      | [] => longer (split_crlf rest)
      end
  end.

Definition stuffed (line : list N) : list N :=
  match line with c :: _ => if c =? 46 then 46 :: line else line | [] => line end.

Definition dot_stuff (message : list N) : list N :=
  let body := if starts [LF; CR] (rev message) then take (length message - 2) message else message in
  flat_map (λ line, stuffed line ++ CRLF) (split_crlf body) ++ lit "." ++ CRLF.

Definition supports_auth (mechanisms requested : str) : bool :=
  existsb (λ mechanism, str_eqb (lowercase mechanism) (lowercase requested)) (split_whitespace mechanisms).

Definition refused (step : string) (reply : Reply) : WitError :=
  let c := reply_code reply in
  failure
    (if between 400 c 499 then Unavailable
     else if existsb (N.eqb c) [530; 534; 535; 538] then PermissionDenied
     else if existsb (N.eqb c) [523; 552] then ResourceExhausted
     else Host.InvalidArgument)
    ("endpoint refused " +:+ step +:+ ": " +:+ u64_to_string c +:+ " "
     +:+ str_of_chars (trim (reply_text reply))).

(** [line.get(..3)] parsed: three digits, or a sign and two. *)
Definition code_of (line : str) : option N :=
  if (length (take 3 line) =? 3)%nat then parse_unsigned 65535 (take 3 line) else None.

(** [line.get(4..)]. *)
Definition text_of (line : str) : str :=
  match drop 3 line with
  | c :: rest => if c <? 128 then rest else []
  | [] => []
  end.

(** The parameters of an extension in one line of the answer to [EHLO]. *)
Definition extension_in (name : str) (line : str) : option str :=
  match strip name line with
  | None => None
  | Some [] => Some []
  | Some (c :: rest) => if c =? SP then Some rest else None
  end.
Fixpoint find_extension (name : str) (lines : list str) : option str :=
  match lines with
  | [] => None
  | line :: lines =>
      match extension_in name line with
      | Some parameters => Some parameters
      | None => find_extension name lines
      end
  end.
Definition extension (s : Session) (name : string) : option str := find_extension (lit name) (extensions s).

Definition size_limit (s : Session) : option N :=
  extension s "SIZE" ≫= λ parameters, parse_unsigned u64_max (trim parameters).

Section smtp.
Context {W : Type} `{Transport W} `{Base64}.

Definition Smtp (A : Type) : Type := Session_ (T := Session) (W := W) A.

Fixpoint read_line (fuel : nat) : Smtp str :=
  match fuel with
  | O => se_unfinished
  | S fuel =>
      let$ s := se_get in
      match find_crlf (session_buffer s) with
      | Some end_ =>
          do$ se_put (mkSession (drop (end_ + 2) (session_buffer s)) (extensions s));
          se_ret (from_utf8_lossy (take end_ (session_buffer s)))
      | None =>
          if MAX_REPLY <? len (session_buffer s)
          then se_fail (failure ResourceExhausted "endpoint reply exceeds the reply ceiling")
          else
            let$ chunk := se_call (tr_read SMTP_READ_CHUNK (Some REPLY_TIMEOUT_MS)) in
            if chunk_closed chunk then se_fail (unavailable "endpoint closed the connection")
            else if bool_decide (chunk_bytes chunk = [])
            then se_fail (failure DeadlineExceeded "endpoint did not answer")
            else
              do$ se_put (mkSession (session_buffer s ++ chunk_bytes chunk) (extensions s));
              read_line fuel
      end
  end.

(** The loop of [read_reply]. *)
Fixpoint read_reply_go (reads fuel : nat) (code : option N) (lines : list str) (size : N) : Smtp Reply :=
  match fuel with
  | O => se_unfinished
  | S fuel =>
      let$ line := read_line reads in
      if reply_exceeds_limit size (byte_len line)
      then se_fail (failure ResourceExhausted "endpoint reply exceeds the reply ceiling")
      else
        let size := N.min (N.min (size + byte_len line) usize_max + 2) usize_max in
        let$ digits := se_lift (ok_or (code_of line) (unavailable "endpoint sent a malformed SMTP reply")) in
        if negb (default digits code =? digits)
        then se_fail (unavailable "endpoint changed code mid-reply")
        else
          let lines := lines ++ [text_of line] in
          if bool_decide (head (drop 3 line) = Some 45)
          then read_reply_go reads fuel (Some digits) lines size
          else se_ret (mkReply digits lines)
  end.
Definition read_reply (fuel : nat) : Smtp Reply := read_reply_go fuel fuel None [] 0.

Definition command (fuel : nat) (line : str) : Smtp Reply :=
  do$ se_call (tr_send (as_bytes line ++ CRLF));
  read_reply fuel.

Definition open (fuel : nat) (client_name : str) : Smtp unit :=
  do$ se_call (tr_connect "smtp");
  do$ se_put (mkSession [] []);
  let$ reply := command fuel (lit "EHLO " ++ client_name) in
  if negb (reply_code reply =? 250) then se_fail (refused "EHLO" reply)
  else
    let$ s := se_get in
    se_put (mkSession (session_buffer s) ((λ line, uppercase (trim line)) <$> reply_lines reply)).

Definition encode (value : str) : str := b64_encode (as_bytes value).

Definition credential_ok (value : str) : bool :=
  negb (existsb (λ c, (c =? 0) || (c =? CR) || (c =? LF)) value).

Definition authenticate (fuel : nat) (user password : str) : Smtp unit :=
  if str_eqb user [] || str_eqb password [] || negb (credential_ok user && credential_ok password)
  then se_fail (failure Host.InvalidArgument "credential cannot appear in an SMTP command")
  else
    let$ s := se_get in
    let mechanisms := default [] (extension s "AUTH") in
    let$ reply :=
      (if supports_auth mechanisms (lit "PLAIN") then
         command fuel (lit "AUTH PLAIN " ++ encode ([0] ++ user ++ [0] ++ password))
       else if supports_auth mechanisms (lit "LOGIN") then
         let$ reply := command fuel (lit "AUTH LOGIN " ++ encode user) in
         if negb (reply_code reply =? 334) then se_fail (refused "AUTH LOGIN" reply)
         else command fuel (encode password)
       else se_fail (failure Unsupported "endpoint offers no password authentication")) in
    if reply_code reply =? 235 then se_ret tt else se_fail (refused "AUTH" reply).

(** [RCPT TO] for every recipient; one refusal ends the submission. *)
Fixpoint name_recipients (fuel : nat) (recipients : list str) : Smtp unit :=
  match recipients with
  | [] => se_ret tt
  | recipient :: recipients =>
      let$ reply := command fuel (lit "RCPT TO:<" ++ recipient ++ lit ">") in
      if negb ((reply_code reply =? 250) || (reply_code reply =? 251)) then se_fail (refused "RCPT TO" reply)
      else name_recipients fuel recipients
  end.

Definition session_submit (fuel : nat) (from : str) (recipients : list str) (message : list N) : Smtp unit :=
  if bool_decide (recipients = []) then se_fail (failure Host.InvalidArgument "no recipients")
  else
    let$ s := se_get in
    if is_some_and (size_limit s) (λ limit, (0 <? limit) && (limit <? len message))
    then se_fail (failure ResourceExhausted "message exceeds the size the endpoint advertised")
    else
      let$ reply := command fuel (lit "MAIL FROM:<" ++ from ++ lit ">") in
      if negb (reply_code reply =? 250) then se_fail (refused "MAIL FROM" reply)
      else
        do$ name_recipients fuel recipients;
        let$ reply := command fuel (lit "DATA") in
        if negb (reply_code reply =? 354) then se_fail (refused "DATA" reply)
        else
          do$ se_call (tr_send (dot_stuff message));
          let$ reply := read_reply fuel in
          if negb (reply_code reply =? 250) then se_fail (refused "the message" reply)
          else se_ret tt.

(** [quit]: neither a refused send nor the reply is a failure. *)
Definition quit (fuel : nat) : Smtp unit :=
  λ s w, let '(sent, w) := tr_send (lit "QUIT" ++ CRLF) w in
         match sent with
         | Err _ => (Value_ tt, s, w)
         | Ok _ =>
             match read_reply fuel s w with
             | (Unfinished, s, w) => (Unfinished, s, w)
             | (_, s, w) => (Value_ tt, s, w)
             end
         end.

(** [submit] of [send.rs]: the session is left with [quit] whatever became of
    the message. *)
Definition submit (fuel : nat) (from : str) (recipients : list str) (message : list N)
    (username password : str) : Smtp unit :=
  do$ open fuel (domain_of from);
  λ s w,
    match (do$ authenticate fuel username password; session_submit fuel from recipients message) s w with
    | (Unfinished, s, w) => (Unfinished, s, w)
    | (outcome, s, w) =>
        match quit fuel s w with
        | (Unfinished, s, w) => (Unfinished, s, w)
        | (_, s, w) => (outcome, s, w)
        end
    end.
End smtp.
