(* ===== verification/SmtpSpec.v ===== *)
(** What SMTP submission promises: the conversation goes no further than the
    server accepts it, it ends, and the message arrives as it was given. *)
From stdpp Require Import base tactics option list strings.
From Stdlib Require Import NArith Lia.
From S2P Require Import Prelude Utf8 Host Text Mime MimeSpec MimeHeaders Email Wire Imap Smtp.

Local Open Scope N_scope.
Local Open Scope rust_scope.

(** ** The message on the wire *)

Definition as_crlf_lines (lines : list (list N)) : list N := flat_map (λ line, line ++ CRLF) lines.

Lemma split_crlf_join b : as_crlf_lines (split_crlf b) = b ++ CRLF.
Proof.
  cut (∀ n b, (length b ≤ n)%nat → as_crlf_lines (split_crlf b) = b ++ CRLF); [by eauto|]. clear b.
  induction n as [|n IH]; intros [|c [|d b]] Hl; simpl in Hl; try done; try lia. cbn [split_crlf].
  destruct ((c =? CR) && (d =? LF)) eqn:E.
  - apply andb_true_iff in E as [->%N.eqb_eq ->%N.eqb_eq]. unfold as_crlf_lines. cbn [flat_map].
    fold (as_crlf_lines (split_crlf b)). rewrite IH by lia. done.
  - specialize (IH (d :: b) ltac:(simpl; lia)). cbn [split_crlf] in IH |- *.
    set (lines := match b with [] => _ | _ => _ end) in *. clearbody lines.
    destruct lines as [|line lines]; [done|]. unfold as_crlf_lines in *. cbn [flat_map app] in *. by rewrite IH.
Qed.

Lemma split_crlf_lines b : Forall no_crlf (split_crlf b).
Proof.
  cut (∀ n b, (length b ≤ n)%nat → Forall no_crlf (split_crlf b) ∧
    ∃ line lines, split_crlf b = line :: lines ∧ head line = (if starts CRLF b then None else head b)).
  { intros H. by eapply H. }
  clear b. induction n as [|n IH]; intros [|c [|d b]] Hl; simpl in Hl; try lia.
  1,2: split; [by constructor; [|constructor]|by eexists _, _].
  - split; [|exists [c], []; split; [done|cbn [starts CRLF]; by rewrite andb_false_r]].
    constructor; [|constructor]. unfold no_crlf, find_crlf. cbn [find_sub starts CRLF].
    by rewrite andb_false_r.
  - cbn [split_crlf]. destruct ((c =? CR) && (d =? LF)) eqn:E.
    + destruct (IH b ltac:(lia)) as [Hb _]. split; [by constructor|]. eexists _, _. split; [done|].
      cbn [starts CRLF]. apply andb_true_iff in E as [->%N.eqb_eq ->%N.eqb_eq]. done.
    + destruct (IH (d :: b) ltac:(simpl; lia)) as [Hb (line & lines & Hs & Hh)].
      change (match b with [] => _ | _ => _ end) with (split_crlf (d :: b)). rewrite Hs in Hb |- *.
      inversion_clear Hb as [|? ? Hline Hlines].
      assert (starts CRLF (c :: d :: b) = false) as Hst.
      { cbn [starts CRLF]. rewrite (N.eqb_sym CR), (N.eqb_sym LF). rewrite andb_true_r. exact E. }
      split; [|eexists _, _; split; [done|by rewrite Hst]]. constructor; [|done].
      unfold no_crlf, find_crlf in *. cbn [find_sub]. rewrite Hline.
      replace (starts CRLF (c :: line)) with false; [done|]. symmetry.
      destruct line as [|x line]; cbn [starts CRLF]; [by rewrite andb_false_r|].
      rewrite (N.eqb_sym CR), (N.eqb_sym LF), andb_true_r.
      destruct (starts CRLF (d :: b)); simpl in Hh; [done|]. by simplify_eq.
Qed.

Definition unstuffed (line : list N) : list N :=
  match line with c :: rest => if c =? 46 then rest else line | [] => line end.

Lemma unstuffed_stuffed line : unstuffed (stuffed line) = line.
Proof.
  destruct line as [|c line]; [done|]. unfold stuffed, unstuffed. destruct (c =? 46) eqn:E; [done|].
  by rewrite E.
Qed.

(** How a server reads the message after [DATA]: lines up to the one with a
    single dot, each without its first dot. *)
Fixpoint receive_data (fuel : nat) (b : list N) : option (list N * list N) :=
  match fuel with
  | O => None
  | S fuel =>
      match find_crlf b with
      | None => None
      | Some end_ =>
          let line := take end_ b in
          let rest := drop (end_ + 2) b in
          if bool_decide (line = [46]) then Some ([], rest)
          else
            '(message, rest) ← receive_data fuel rest;
            Some (unstuffed line ++ CRLF ++ message, rest)
      end
  end.

Lemma no_crlf_stuffed line : no_crlf line → no_crlf (stuffed line).
Proof.
  destruct line as [|c line]; [done|]. unfold stuffed. destruct (N.eqb_spec c 46) as [->|]; [|done].
  intros Hl. unfold no_crlf, find_crlf in *. cbn [find_sub] in *.
  change (starts CRLF (46 :: 46 :: line)) with false. by rewrite Hl.
Qed.

Lemma receive_stuffed lines rest fuel : Forall no_crlf lines → (length lines < fuel)%nat →
  receive_data fuel (flat_map (λ line, stuffed line ++ CRLF) lines ++ lit "." ++ CRLF ++ rest)
  = Some (as_crlf_lines lines, rest).
Proof.
  intros Hl. revert fuel. induction Hl as [|line lines Hline Hl IH]; intros [|fuel] Hf; simpl in Hf; try lia.
  - cbn [receive_data flat_map app]. rewrite (find_crlf_line (lit ".") rest) by done. done.
  - cbn [receive_data flat_map]. rewrite <- !(assoc_L (++)).
    rewrite find_crlf_line by by apply no_crlf_stuffed. rewrite take_line, drop_line.
    rewrite IH by lia. rewrite bool_decide_false.
    + simpl. by rewrite unstuffed_stuffed, <- (assoc_L (++)).
    + unfold stuffed. destruct line as [|c line]; [done|]. destruct (N.eqb_spec c 46); [done|]. congruence.
Qed.

(** A message ends with a CRLF, its own or one that is added. *)
Definition terminated (message : list N) : list N :=
  if starts [LF; CR] (rev message) then message else message ++ CRLF.

Lemma ends_crlf message : starts [LF; CR] (rev message) = true →
  take (length message - 2) message ++ CRLF = message.
Proof.
  intros Hs. assert (∃ r, rev message = LF :: CR :: r) as [r Hr].
  { destruct (rev message) as [|a [|b r]]; cbn [starts] in Hs; rewrite ?andb_false_r in Hs; try done.
    rewrite !andb_true_iff in Hs. destruct Hs as (Ha%N.eqb_eq & Hb%N.eqb_eq & _). subst. by exists r. }
  assert (message = rev r ++ CRLF) as ->.
  { rewrite <- (rev_involutive message), Hr. simpl. by rewrite <- (assoc_L (++)). }
  rewrite length_app. simpl. replace (length (rev r) + 2 - 2)%nat with (length (rev r)) by lia.
  by rewrite take_app_length.
Qed.

Lemma dot_stuff_received message rest : ∃ fuel,
  receive_data fuel (dot_stuff message ++ rest) = Some (terminated message, rest).
Proof.
  unfold dot_stuff, terminated.
  set (body := if starts [LF; CR] (rev message) then take (length message - 2) message else message).
  exists (S (length (split_crlf body))). rewrite <- !(assoc_L (++)).
  rewrite receive_stuffed; [|apply split_crlf_lines|lia]. f_equal. f_equal. rewrite split_crlf_join.
  subst body. destruct (starts [LF; CR] (rev message)) eqn:E; [by apply ends_crlf|done].
Qed.

(** ** The conversation *)

Section conversation.
Context {W : Type} `{Transport W} `{Base64}.

(** The socket with a record of what was sent. *)
#[local] Instance recorded : Transport (list (list N) * W) := {|
  tr_connect endpoint w := let '(r, w') := tr_connect endpoint (snd w) in (r, (fst w, w'));
  tr_send b w := let '(r, w') := tr_send b (snd w) in (r, (fst w ++ [b], w'));
  tr_read size timeout w := let '(r, w') := tr_read size timeout (snd w) in (r, (fst w, w'));
|}.

(** [m] ends, and sends a prefix of [l], all of it when it succeeds. *)
Definition sends {A} (m : Smtp (W := list (list N) * W) A) (l : list (list N)) : Prop :=
  ∀ s log w, ∃ r s' sent w', m s (log, w) = (r, s', (log ++ sent, w')) ∧ r ≠ Unfinished ∧
    sent `prefix_of` l ∧ (∀ a, r = Value_ a → sent = l).

Lemma sends_ret {A} (a : A) : sends (se_ret a) [].
Proof. intros s log w. exists (Value_ a), s, [], w. by rewrite app_nil_r. Qed.

Lemma sends_fail {A} e l : sends (A := A) (se_fail e) l.
Proof.
  intros s log w. exists (Failure_ e), s, [], w. rewrite app_nil_r. split_and!; [done..| |done].
  apply prefix_nil.
Qed.

Lemma sends_bind {A B} (m : Smtp A) (k : A → Smtp B) l1 l2 : sends m l1 → (∀ a, sends (k a) l2) →
  sends (se_bind m k) (l1 ++ l2).
Proof.
  intros Hm Hk s log w. destruct (Hm s log w) as (r & s1 & sent & w1 & E & Hr & Hp & Hv).
  unfold se_bind. rewrite E. destruct r as [a|e|]; [|..|done].
  - destruct (Hk a s1 (log ++ sent) w1) as (r2 & s2 & sent2 & w2 & E2 & Hr2 & Hp2 & Hv2). rewrite E2.
    exists r2, s2, (sent ++ sent2), w2. rewrite (Hv a eq_refl), <- (assoc_L (++)). split_and!; [done..| |].
    + by apply prefix_app.
    + intros b Hb. by rewrite (Hv2 b Hb).
  - exists (Failure_ e), s1, sent, w1. split_and!; [done..| |done]. by apply prefix_app_r.
Qed.

Lemma sends_bind_nil {A B} (m : Smtp A) (k : A → Smtp B) l : sends m [] → (∀ a, sends (k a) l) →
  sends (se_bind m k) l.
Proof. apply (sends_bind m k []). Qed.

Lemma sends_put s : sends (se_put s) [].
Proof. intros s' log w. exists (Value_ tt), s, [], w. by rewrite app_nil_r. Qed.

Lemma sends_get : sends se_get [].
Proof. intros s log w. exists (Value_ s), s, [], w. by rewrite app_nil_r. Qed.

Lemma sends_lift {A} (r : result A WitError) : sends (se_lift r) [].
Proof. destruct r; [apply sends_ret|apply sends_fail]. Qed.

Lemma sends_send b : sends (se_call (tr_send b)) [b].
Proof.
  intros s log w. unfold se_call. simpl. destruct (tr_send b w) as [[[]|e] w'].
  - by exists (Value_ tt), s, [b], w'.
  - by exists (Failure_ e), s, [b], w'.
Qed.

(** ** Replies end *)

Lemma sends_read_line fuel s log w : (1 ≤ fuel)%nat →
  MAX_REPLY + 2 ≤ N.of_nat fuel + len (session_buffer s) →
  ∃ r s' w', read_line fuel s (log, w) = (r, s', (log, w')) ∧ r ≠ Unfinished.
Proof.
  revert s w. induction fuel as [|fuel IH]; intros s w H1 Hf; [lia|]. cbn [read_line].
  unfold se_bind at 1, se_get. destruct (find_crlf (session_buffer s)) as [e|].
  { by eexists _, _, _. }
  destruct (N.ltb_spec MAX_REPLY (len (session_buffer s))) as [Hlen|Hlen]; [by eexists _, _, _|].
  unfold se_bind at 1, se_call. simpl. destruct (tr_read _ _ w) as [[chunk|e] w']; [|by eexists _, _, _].
  destruct (chunk_closed chunk); [by eexists _, _, _|].
  case_bool_decide as Hc; [by eexists _, _, _|]. unfold se_bind, se_put. apply IH; [lia|].
  simpl. rewrite len_app. destruct (chunk_bytes chunk); [done|]. unfold len at 2. simpl length. lia.
Qed.

Context (fuel : nat) (Hfuel : MAX_REPLY + 2 ≤ N.of_nat fuel).

Lemma sends_line : sends (read_line fuel) [].
Proof.
  intros s log w. destruct (sends_read_line fuel s log w) as (r & s' & w' & E & Hr);
    [unfold MAX_REPLY in Hfuel; lia|lia|]. exists r, s', [], w'. by rewrite app_nil_r.
Qed.

Lemma sends_reply_go n : ∀ code lines size, (1 ≤ n)%nat → size ≤ MAX_REPLY →
  MAX_REPLY + 2 ≤ 2 * N.of_nat n + size → sends (read_reply_go fuel n code lines size) [].
Proof.
  induction n as [|n IH]; intros code lines size H1 Hs Hn; [lia|]. cbn [read_reply_go].
  apply sends_bind_nil; [apply sends_line|]. intros line. unfold reply_exceeds_limit.
  destruct (N.ltb_spec MAX_REPLY (N.min (N.min (size + byte_len line) usize_max + 2) usize_max)) as [Hl|Hl];
    [apply sends_fail|].
  apply sends_bind_nil; [apply sends_lift|]. intros digits. destruct (negb _); [apply sends_fail|].
  case_bool_decide; [|apply sends_ret]. unfold usize_max, MAX_REPLY in *. apply IH; lia.
Qed.

Lemma sends_reply : sends (read_reply fuel) [].
Proof. unfold read_reply. apply sends_reply_go; unfold MAX_REPLY in *; lia. Qed.

Lemma sends_command line : sends (command fuel line) [as_bytes line ++ CRLF].
Proof. apply (sends_bind _ _ [_] []); [apply sends_send|intros; apply sends_reply]. Qed.

Definition mail_from (from : str) : str := lit "MAIL FROM:<" ++ from ++ lit ">".
Definition rcpt_to (recipient : str) : str := lit "RCPT TO:<" ++ recipient ++ lit ">".

(** The commands of a submission. *)
Definition commands (from : str) (recipients : list str) : list str :=
  [mail_from from] ++ (rcpt_to <$> recipients) ++ [lit "DATA"].

Lemma sends_recipients recipients :
  sends (name_recipients fuel recipients) ((λ r, as_bytes (rcpt_to r) ++ CRLF) <$> recipients).
Proof.
  induction recipients as [|r recipients IH]; cbn [name_recipients]; [apply sends_ret|].
  apply (sends_bind _ _ [_]); [apply sends_command|]. intros reply. destruct (negb _); [apply sends_fail|done].
Qed.

Lemma sends_submit from recipients message :
  sends (session_submit fuel from recipients message)
    (((λ line, as_bytes line ++ CRLF) <$> commands from recipients) ++ [dot_stuff message]).
Proof.
  unfold session_submit. case_bool_decide; [apply sends_fail|].
  apply sends_bind_nil; [apply sends_get|]. intros s. destruct (is_some_and _ _); [apply sends_fail|].
  unfold commands. rewrite !fmap_app, <- !(assoc_L (++)).
  apply (sends_bind _ _ [_]); [apply sends_command|]. intros r1. destruct (negb _); [apply sends_fail|].
  rewrite <- list_fmap_compose. apply sends_bind; [apply sends_recipients|]. intros _.
  apply (sends_bind _ _ [_]); [apply sends_command|]. intros r2. destruct (negb _); [apply sends_fail|].
  apply (sends_bind _ _ [_] []); [apply sends_send|]. intros _.
  apply sends_bind_nil; [apply sends_reply|]. intros r3. destruct (negb _); [apply sends_fail|apply sends_ret].
Qed.

(** A command for a checked address is one line. *)
Lemma commands_clean from recipients : valid_address from = true →
  Forall (λ a, valid_address a = true) recipients → Forall (λ line, clean (as_bytes line)) (commands from recipients).
Proof.
  assert (∀ a p, forallb (λ c, between 32 c 126) p = true → valid_address a = true →
    clean (as_bytes (p ++ a ++ lit ">"))) as Hc.
  { intros a p Hp Ha. apply clean_bytes, printed_clean. apply printed_app; [by apply printed_ascii|].
    apply printed_app; [by apply valid_address_printed|by apply printed_ascii]. }
  intros Hf Hr. unfold commands. apply Forall_app. split; [constructor; [by apply Hc|constructor]|].
  apply Forall_app. split; [|by repeat constructor].
  apply Forall_fmap. eapply Forall_impl; [exact Hr|]. intros a Ha. by apply Hc.
Qed.

(** (C20) A submission says no more than it should.  Whatever the server
    answers, the conversation ends, and what was sent is a prefix of: the
    sender, every recipient in order, [DATA], and the message; all of it when
    the submission succeeds.  Each command is one line, and a server that
    reads the message to its end mark gets exactly the message, with nothing
    of it left over to be read as commands. *)
Theorem submission_exact from recipients message s w
    (Hfrom : valid_address from = true) (Hrecipients : Forall (λ a, valid_address a = true) recipients) :
  let lines := commands from recipients in
  ∃ outcome s' sent w',
    session_submit fuel from recipients message s ([], w) = (outcome, s', (sent, w')) ∧
    outcome ≠ Unfinished ∧
    sent `prefix_of` ((λ line, as_bytes line ++ CRLF) <$> lines) ++ [dot_stuff message] ∧
    (outcome = Value_ tt → sent = ((λ line, as_bytes line ++ CRLF) <$> lines) ++ [dot_stuff message]) ∧
    Forall (λ line, clean (as_bytes line)) lines ∧
    ∀ rest, ∃ n, receive_data n (dot_stuff message ++ rest) = Some (terminated message, rest).
Proof.
  destruct (sends_submit from recipients message s [] w) as (r & s' & sent & w' & E & Hr & Hp & Hv).
  exists r, s', sent, w'. split_and!; [done..|by apply Hv|by apply commands_clean|apply dot_stuff_received].
Qed.
End conversation.

(** ** What the server's answers decide *)

(** A reply as it stands on the wire, after lines that gave [code] and took
    [size] bytes: lines with one code, all but the last continued with a dash,
    within the ceiling. *)
Inductive reply_wire : option N → N → list N → N → Prop :=
| reply_last code size line digits :
    no_crlf line →
    size + byte_len (from_utf8_lossy line) + 2 ≤ MAX_REPLY →
    code_of (from_utf8_lossy line) = Some digits → default digits code = digits →
    head (drop 3 (from_utf8_lossy line)) ≠ Some 45 →
    reply_wire code size (line ++ CRLF) digits
| reply_continued code size line digits rest :
    no_crlf line →
    size + byte_len (from_utf8_lossy line) + 2 ≤ MAX_REPLY →
    code_of (from_utf8_lossy line) = Some digits → default digits code = digits →
    head (drop 3 (from_utf8_lossy line)) = Some 45 →
    reply_wire (Some digits) (size + byte_len (from_utf8_lossy line) + 2) rest digits →
    reply_wire code size (line ++ CRLF ++ rest) digits.

(** A whole reply with its code. *)
Definition reply_on_wire (b : list N) (code : N) : Prop := reply_wire None 0 b code.

(** The first line of what begins with a reply. *)
Lemma reply_wire_line code size b digits : reply_wire code size b digits →
  ∃ line tail, b = line ++ CRLF ++ tail ∧ no_crlf line ∧
    size + byte_len (from_utf8_lossy line) + 2 ≤ MAX_REPLY ∧
    code_of (from_utf8_lossy line) = Some digits ∧ default digits code = digits ∧
    (head (drop 3 (from_utf8_lossy line)) = Some 45 →
     reply_wire (Some digits) (size + byte_len (from_utf8_lossy line) + 2) tail digits).
Proof.
  intros Hr. inversion Hr as [c z line d ? ? ? ? Hd|c z line d tail ? ? ? ? Hd Ht]; subst.
  - exists line, []. by rewrite app_nil_r.
  - by exists line, tail.
Qed.

Lemma find_crlf_split b e : find_crlf b = Some e →
  ∃ line tail, b = line ++ CRLF ++ tail ∧ no_crlf line ∧ e = length line.
Proof.
  revert e. unfold no_crlf, find_crlf. induction b as [|c b IH]; intros e; [done|]. cbn [find_sub].
  destruct (starts CRLF (c :: b)) eqn:Hs.
  - intros [= <-]. destruct b as [|d b]; cbn [starts CRLF] in Hs; [by rewrite andb_false_r in Hs|].
    rewrite !andb_true_iff in Hs. destruct Hs as (Hc%N.eqb_eq & Hd%N.eqb_eq & _). subst.
    by exists [], b.
  - destruct (find_sub CRLF b) as [n|]; [|done]. intros [= <-].
    destruct (IH n eq_refl) as (line & tail & -> & Hl & ->). exists (c :: line), tail.
    split_and!; [done| |done]. cbn [find_sub]. rewrite Hl.
    destruct line as [|d line]; cbn [starts CRLF app] in *; [by rewrite andb_false_r|by rewrite Hs].
Qed.

(** What is said to the server and what is heard from it. *)
Inductive exchange : Type :=
| Said (b : list N) (r : result unit WitError)
| Heard (r : result Chunk WitError).

(** The bytes a read delivers: none when it fails or finds the connection
    closed. *)
Definition heard_bytes (x : exchange) : list N :=
  match x with
  | Heard (Ok chunk) => if chunk_closed chunk then [] else chunk_bytes chunk
  | _ => []
  end.
Definition heard (t : list exchange) : list N := flat_map heard_bytes t.
Definition is_heard (x : exchange) : Prop := match x with Heard _ => True | Said _ _ => False end.

Lemma heard_app a b : heard (a ++ b) = heard a ++ heard b.
Proof. apply flat_map_app. Qed.

(** A conversation of [steps], each what is said and which codes let it go on,
    from the bytes [unread] to the bytes left unread in the end.  A step is
    over when what is unread begins with a whole reply; the next is begun only
    after a code that the step accepts, and the conversation fails at the
    first step that is not sent, not answered with a reply, or refused. *)
Inductive conversation :
    list (list N * (N → bool)) → list N → list exchange → list N → ending unit → Prop :=
| all_accepted unread : conversation [] unread [] unread (Value_ tt)
| step_accepted b ok steps unread reads reply code rest t left_ outcome :
    Forall is_heard reads → unread ++ heard reads = reply ++ rest → reply_on_wire reply code →
    ok code = true → conversation steps rest t left_ outcome →
    conversation ((b, ok) :: steps) unread (Said b (Ok tt) :: reads ++ t) left_ outcome
| step_refused b ok steps unread reads reply code rest e :
    Forall is_heard reads → unread ++ heard reads = reply ++ rest → reply_on_wire reply code →
    ok code = false →
    conversation ((b, ok) :: steps) unread (Said b (Ok tt) :: reads) rest (Failure_ e)
| step_unanswered b ok steps unread reads left_ e :
    Forall is_heard reads →
    (∀ reply code rest, unread ++ heard reads = reply ++ rest → ¬ reply_on_wire reply code) →
    conversation ((b, ok) :: steps) unread (Said b (Ok tt) :: reads) left_ (Failure_ e)
| step_unsent b ok steps unread e :
    conversation ((b, ok) :: steps) unread [Said b (Err e)] unread (Failure_ e).

Lemma conversation_app a b unread t rest outcome : conversation a unread t rest outcome →
  match outcome with
  | Value_ _ => ∀ t' left_ last, conversation b rest t' left_ last → conversation (a ++ b) unread (t ++ t') left_ last
  | _ => conversation (a ++ b) unread t rest outcome
  end.
Proof.
  induction 1 as [unread|x ok steps unread reads reply code rest t left_ outcome Hh Hb Hr Hok Hc IH
    |x ok steps unread reads reply code rest e Hh Hb Hr Hok|x ok steps unread reads left_ e Hh Hn|x ok steps unread e].
  - done.
  - destruct outcome as [[]|e|]; [|by econstructor..]. intros t' l last Ht. cbn [app]. rewrite <- (assoc_L (++)).
    econstructor; eauto.
  - by econstructor.
  - by econstructor.
  - by econstructor.
Qed.

Section answers.
Context {W : Type} `{Transport W} `{Base64}.

(** The socket with a record of both directions. *)
#[local] Instance overheard : Transport (list exchange * W) := {|
  tr_connect endpoint w := let '(r, w') := tr_connect endpoint (snd w) in (r, (fst w, w'));
  tr_send b w := let '(r, w') := tr_send b (snd w) in (r, (fst w ++ [Said b r], w'));
  tr_read size timeout w := let '(r, w') := tr_read size timeout (snd w) in (r, (fst w ++ [Heard r], w'));
|}.

Lemma line_heard fuel : ∀ s log w, (1 ≤ fuel)%nat → MAX_REPLY + 2 ≤ N.of_nat fuel + len (session_buffer s) →
  ∃ r s' reads w', read_line fuel s (log, w) = (r, s', (log ++ reads, w')) ∧ Forall is_heard reads ∧
    match r with
    | Value_ text => ∃ line, session_buffer s ++ heard reads = line ++ CRLF ++ session_buffer s' ∧
        no_crlf line ∧ text = from_utf8_lossy line
    | Failure_ _ => no_crlf (session_buffer s ++ heard reads)
    | Unfinished => False
    end.
Proof.
  induction fuel as [|fuel IH]; intros s log w H1 Hf; [lia|]. cbn [read_line].
  unfold se_bind at 1, se_get. destruct (find_crlf (session_buffer s)) as [e|] eqn:He.
  { destruct (find_crlf_split _ _ He) as (line & tail & Hb & Hl & ->). eexists _, _, [], w. rewrite !app_nil_r.
    split; [done|]. split; [constructor|]. exists line. cbn [session_buffer]. rewrite Hb, drop_line, take_line.
    by split_and!. }
  destruct (N.ltb_spec MAX_REPLY (len (session_buffer s))) as [Hlen|Hlen].
  { eexists _, _, [], w. rewrite !app_nil_r. by split_and!. }
  unfold se_bind at 1, se_call. simpl. destruct (tr_read _ _ w) as [r w'] eqn:Er.
  assert (∀ r', heard_bytes (Heard r') = [] → no_crlf (session_buffer s ++ heard [Heard r'])) as Hnone.
  { intros r' Hr'. unfold heard. cbn [flat_map]. by rewrite Hr', !app_nil_r. }
  assert (Forall is_heard [Heard r]) as H1h by by repeat constructor.
  destruct r as [chunk|e]; [|eexists _, _, [_], w'; split_and!; [done..|by apply Hnone]].
  destruct (chunk_closed chunk) eqn:Hcl.
  { eexists _, _, [_], w'; split_and!; [done..|]. apply Hnone. cbn [heard_bytes]. by rewrite Hcl. }
  case_bool_decide as Hc.
  { eexists _, _, [_], w'; split_and!; [done..|]. apply Hnone. cbn [heard_bytes]. by rewrite Hcl. }
  unfold se_bind, se_put.
  destruct (IH (mkSession (session_buffer s ++ chunk_bytes chunk) (extensions s)) (log ++ [Heard (Ok chunk)]) w')
    as (r & s' & reads & w2 & E & Hh & Hr).
  { unfold MAX_REPLY in *. lia. }
  { cbn [session_buffer]. rewrite len_app. destruct (chunk_bytes chunk); [done|]. unfold len at 2. simpl length. lia. }
  rewrite E, <- (assoc_L (++)). cbn [app]. exists r, s', (Heard (Ok chunk) :: reads), w2.
  split_and!; [done|by constructor|]. unfold heard in *. cbn [flat_map heard_bytes session_buffer] in *. rewrite Hcl.
  by rewrite (assoc_L (++)).
Qed.

(** The first lines of two readings of the same bytes agree. *)
Lemma line_unique l1 t1 l2 t2 : no_crlf l1 → no_crlf l2 → l1 ++ CRLF ++ t1 = l2 ++ CRLF ++ t2 → l1 = l2 ∧ t1 = t2.
Proof.
  intros H1 H2 E. pose proof (find_crlf_line l1 t1 H1) as F1. rewrite E, find_crlf_line in F1 by done.
  injection F1 as F1. pose proof (f_equal (take (length l1)) E) as E1. rewrite take_line, <- F1, take_line in E1.
  subst. by apply app_inv_head, app_inv_head in E.
Qed.

Lemma reply_wire_unless code size line tail reply digits rest : no_crlf line →
  line ++ CRLF ++ tail = reply ++ rest → reply_wire code size reply digits →
  ∃ tail', reply = line ++ CRLF ++ tail' ∧ tail = tail' ++ rest ∧
    size + byte_len (from_utf8_lossy line) + 2 ≤ MAX_REPLY ∧
    code_of (from_utf8_lossy line) = Some digits ∧ default digits code = digits ∧
    (head (drop 3 (from_utf8_lossy line)) = Some 45 →
     reply_wire (Some digits) (size + byte_len (from_utf8_lossy line) + 2) tail' digits).
Proof.
  intros Hl E Hr. destruct (reply_wire_line _ _ _ _ Hr) as (line' & tail' & -> & Hl' & Hrest).
  rewrite <- !(assoc_L (++)) in E. destruct (line_unique _ _ _ _ Hl Hl' E) as [<- ->]. by exists tail'.
Qed.

Lemma no_reply_unless code size b reply digits rest : no_crlf b → b = reply ++ rest → ¬ reply_wire code size reply digits.
Proof.
  intros Hb -> Hr. destruct (reply_wire_line _ _ _ _ Hr) as (line & tail & -> & Hl & _).
  unfold no_crlf in Hb. rewrite <- !(assoc_L (++)), find_crlf_line in Hb by done. done.
Qed.

Context (fuel : nat) (Hfuel : MAX_REPLY + 2 ≤ N.of_nat fuel).

Lemma reply_heard_go n : ∀ code lines size s log w, (1 ≤ n)%nat → size ≤ MAX_REPLY →
  MAX_REPLY + 2 ≤ 2 * N.of_nat n + size →
  ∃ r s' reads w', read_reply_go fuel n code lines size s (log, w) = (r, s', (log ++ reads, w')) ∧
    Forall is_heard reads ∧
    match r with
    | Value_ reply => ∃ b, session_buffer s ++ heard reads = b ++ session_buffer s' ∧
        reply_wire code size b (reply_code reply)
    | Failure_ _ => ∀ b digits rest, session_buffer s ++ heard reads = b ++ rest → ¬ reply_wire code size b digits
    | Unfinished => False
    end.
Proof.
  induction n as [|n IH]; intros code lines size s log w H1 Hs Hn; [lia|]. cbn [read_reply_go].
  unfold se_bind at 1. destruct (line_heard fuel s log w) as (r & s1 & reads & w1 & -> & Hh & Hr);
    [unfold MAX_REPLY in Hfuel; lia|lia|].
  destruct r as [text|e|]; [|eexists _, _, reads, w1; split_and!; [done..|]; intros b d rest Hb; by eapply no_reply_unless|done].
  destruct Hr as (line & Hb & Hl & ->).
  pose proof (λ reply digits rest E, reply_wire_unless code size line (session_buffer s1) reply digits rest Hl E) as Honly.
  unfold reply_exceeds_limit.
  destruct (N.ltb_spec MAX_REPLY (N.min (N.min (size + byte_len (from_utf8_lossy line)) usize_max + 2) usize_max)) as [Hlim|Hlim].
  { eexists _, _, reads, w1; split_and!; [done..|]. rewrite Hb. intros b d rest E Hr.
    destruct (Honly b d rest E Hr) as (? & _ & _ & Hlim' & _). unfold usize_max, MAX_REPLY in *. lia. }
  assert (size + byte_len (from_utf8_lossy line) + 2 ≤ MAX_REPLY) as Hle by (unfold usize_max, MAX_REPLY in *; lia).
  replace (N.min (N.min (size + byte_len (from_utf8_lossy line)) usize_max + 2) usize_max)
    with (size + byte_len (from_utf8_lossy line) + 2) by (unfold usize_max, MAX_REPLY in *; lia).
  unfold se_bind at 1. destruct (code_of (from_utf8_lossy line)) as [digits|] eqn:Hc; cbn [ok_or se_lift se_ret se_fail].
  2: { eexists _, _, reads, w1; split_and!; [done..|]. rewrite Hb. intros b d rest E Hr.
       by destruct (Honly b d rest E Hr) as (? & _ & _ & _ & Hcode & _). }
  destruct (N.eqb_spec (default digits code) digits) as [Hd|Hd]; cbn [negb].
  2: { eexists _, _, reads, w1; split_and!; [done..|]. rewrite Hb. intros b d rest E Hr.
       destruct (Honly b d rest E Hr) as (? & _ & _ & _ & Hcode & Hd' & _). by simplify_eq. }
  case_bool_decide as Hdash.
  2: { eexists _, s1, reads, w1; split_and!; [done..|]. exists (line ++ CRLF). rewrite Hb, <- (assoc_L (++)).
       split; [done|]. by apply reply_last. }
  destruct (IH (Some digits) (lines ++ [text_of (from_utf8_lossy line)]) (size + byte_len (from_utf8_lossy line) + 2)
    s1 (log ++ reads) w1) as (r & s2 & reads2 & w2 & E & Hh2 & Hr2); [unfold MAX_REPLY in *; lia..|].
  rewrite E, <- (assoc_L (++)). exists r, s2, (reads ++ reads2), w2.
  split_and!; [done|by apply Forall_app|]. rewrite heard_app, (assoc_L (++)), Hb, <- !(assoc_L (++)).
  destruct r as [reply|e|]; [| |done].
  - destruct Hr2 as (b & Hb2 & Hw). exists (line ++ CRLF ++ b). rewrite <- !(assoc_L (++)), Hb2. split; [done|].
    assert (digits = reply_code reply) as Hrc by (destruct (reply_wire_line _ _ _ _ Hw) as (? & ? & _ & _ & _ & _ & Hd' & _); done).
    rewrite <- Hrc in Hw |- *. by apply reply_continued.
  - intros b d rest Eb Hw.
    destruct (reply_wire_unless _ _ _ _ _ _ _ Hl Eb Hw) as (tail & -> & Ht & _ & Hcode & _ & Hk).
    simplify_eq. eapply Hr2; [exact Ht|]. by apply Hk.
Qed.

Lemma reply_heard s log w : ∃ r s' reads w',
  read_reply fuel s (log, w) = (r, s', (log ++ reads, w')) ∧ Forall is_heard reads ∧
  match r with
  | Value_ reply => ∃ b, session_buffer s ++ heard reads = b ++ session_buffer s' ∧ reply_on_wire b (reply_code reply)
  | Failure_ _ => ∀ b digits rest, session_buffer s ++ heard reads = b ++ rest → ¬ reply_on_wire b digits
  | Unfinished => False
  end.
Proof. unfold read_reply. apply reply_heard_go; unfold MAX_REPLY in *; lia. Qed.

(** [m] holds the conversation of [steps]. *)
Definition converses (m : Smtp (W := list exchange * W) unit) (steps : list (list N * (N → bool))) : Prop :=
  ∀ s log w, ∃ outcome s' t w', m s (log, w) = (outcome, s', (log ++ t, w')) ∧
    conversation steps (session_buffer s) t (session_buffer s') outcome.

Lemma converses_ret : converses (se_ret tt) [].
Proof. intros s log w. exists (Value_ tt), s, [], w. rewrite app_nil_r. split; [done|constructor]. Qed.

Lemma converses_bind m k a b : converses m a → converses k b → converses (se_bind m (λ _, k)) (a ++ b).
Proof.
  intros Hm Hk s log w. destruct (Hm s log w) as (r & s1 & t & w1 & E & Hc). unfold se_bind. rewrite E.
  pose proof (conversation_app _ b _ _ _ _ Hc) as Happ. destruct r as [[]|e|].
  - destruct (Hk s1 (log ++ t) w1) as (r2 & s2 & t2 & w2 & E2 & Hc2). rewrite E2, <- (assoc_L (++)).
    exists r2, s2, (t ++ t2), w2. split; [done|]. by apply Happ.
  - by eexists _, s1, t, w1.
  - by eexists _, s1, t, w1.
Qed.

Lemma converses_step b ok (e : Reply → WitError) k steps : converses k steps →
  converses (do$ se_call (tr_send b);
             let$ reply := read_reply fuel in
             if negb (ok (reply_code reply)) then se_fail (e reply) else k) ((b, ok) :: steps).
Proof.
  intros Hk s log w. unfold se_bind at 1, se_call. simpl. destruct (tr_send b w) as [[[]|e'] w1].
  2: { eexists _, s, [_], w1. split; [done|]. apply step_unsent. }
  unfold se_bind. destruct (reply_heard s (log ++ [Said b (Ok tt)]) w1) as (r & s2 & reads & w2 & -> & Hh & Hr).
  rewrite <- (assoc_L (++)). cbn [app]. destruct r as [reply|e'|]; [| |done].
  - destruct Hr as (reply_b & Hb & Hw). destruct (ok (reply_code reply)) eqn:Hok; cbn [negb].
    + destruct (Hk s2 (log ++ Said b (Ok tt) :: reads) w2) as (r3 & s3 & t & w3 & E3 & Hc).
      rewrite E3, <- (assoc_L (++)). eexists _, _, _, _. split; [done|]. by eapply step_accepted.
    + eexists _, _, _, _. split; [done|]. by eapply step_refused.
  - eexists _, _, _, _. split; [done|]. apply step_unanswered; [done|]. intros. by eapply Hr.
Qed.

Lemma converses_ext m m' steps : (∀ s w, m' s w = m s w) → converses m steps → converses m' steps.
Proof. intros E Hm s log w. rewrite E. apply Hm. Qed.

Lemma command_bind {A} line (k : Reply → Smtp A) s (w : list exchange * W) :
  se_bind (command fuel line) k s w
  = (do$ se_call (tr_send (as_bytes line ++ CRLF)); se_bind (read_reply fuel) k) s w.
Proof.
  unfold command, se_bind at 1 2. unfold se_bind at 1, se_call. destruct (tr_send _ w) as [[[]|e] w']; [|done].
  unfold se_bind. by destruct (read_reply fuel s w') as [[[] ?] ?].
Qed.

Lemma converses_command line ok (e : Reply → WitError) k steps : converses k steps →
  converses (let$ reply := command fuel line in
             if negb (ok (reply_code reply)) then se_fail (e reply) else k) ((as_bytes line ++ CRLF, ok) :: steps).
Proof.
  intros Hk. eapply converses_ext; [|by apply (converses_step _ ok e)]. intros s w. apply command_bind.
Qed.

(** The steps of a submission, each with the codes that let it go on. *)
Definition submission_steps (from : str) (recipients : list str) (message : list N)
    : list (list N * (N → bool)) :=
  (as_bytes (mail_from from) ++ CRLF, λ c, c =? 250)
  :: ((λ r, (as_bytes (rcpt_to r) ++ CRLF, λ c, (c =? 250) || (c =? 251))) <$> recipients)
  ++ [(as_bytes (lit "DATA") ++ CRLF, λ c, c =? 354); (dot_stuff message, λ c, c =? 250)].

Lemma converses_recipients recipients :
  converses (name_recipients fuel recipients)
    ((λ r, (as_bytes (rcpt_to r) ++ CRLF, λ c, (c =? 250) || (c =? 251))) <$> recipients).
Proof.
  induction recipients as [|r recipients IH]; [apply converses_ret|].
  cbn [name_recipients fmap list_fmap]. by apply (converses_command _ (λ c, (c =? 250) || (c =? 251))).
Qed.

(** Whether the endpoint advertised a limit that the message is over. *)
Definition over_limit (s : Session) (message : list N) : bool :=
  is_some_and (size_limit s) (λ limit, (0 <? limit) && (limit <? len message)).

(** (C29) A message is sent only to those who agreed to take it, whatever the
    server does: replies of one line or of several, in any chunks, late,
    malformed or over the ceiling, a closed connection, a failing socket.  A
    submission without recipients, or over the advertised limit, says nothing
    and fails.  Any other is the conversation of its steps: each step is said
    once the step before it was answered with a whole reply of a code it
    accepts, so the message is not sent unless the sender, every recipient
    and [DATA] were accepted; the submission succeeds when the message was
    accepted too, and fails at the first step that is refused, that cannot be
    sent, or after which what was heard does not begin with a whole reply. *)
Theorem submission_needs_every_answer from recipients message s w :
  ∃ outcome s' t w',
    session_submit fuel from recipients message s ([], w) = (outcome, s', (t, w')) ∧
    if bool_decide (recipients = []) || over_limit s message
    then t = [] ∧ s' = s ∧ ∃ e, outcome = Failure_ e
    else conversation (submission_steps from recipients message) (session_buffer s) t (session_buffer s') outcome.
Proof.
  unfold session_submit. case_bool_decide as Hr; cbn [orb].
  { eexists _, s, [], w. split_and!; [done..|by eexists]. }
  unfold se_bind at 1, se_get. fold (over_limit s message). destruct (over_limit s message).
  { eexists _, s, [], w. split_and!; [done..|by eexists]. }
  refine (converses_command _ (λ c, c =? 250) (refused "MAIL FROM") _ _ _ s [] w).
  refine (converses_bind _ _ _ _ (converses_recipients recipients) _).
  apply (converses_command _ (λ c, c =? 354)).
  apply (converses_step _ (λ c, c =? 250)), converses_ret.
Qed.
End answers.
