(* ===== verification/ImapFrame.v ===== *)
(** IMAP framing is exact: whatever pieces the bytes of a server's responses
    arrive in, reading gives the responses, each whole and in order. *)
From stdpp Require Import base tactics option list strings.
From Stdlib Require Import NArith Lia.
From S2P Require Import Prelude Utf8 Host Text Wire.

Local Open Scope N_scope.
Local Open Scope rust_scope.

(** ** Responses as a server writes them *)

(** Lines that announce a literal, each with the literal, and a last line. *)
Record Written : Type := mkWritten { parts : list (list N * list N); last_line : list N }.

Definition wire (r : Written) : list N :=
  flat_map (λ p, fst p ++ CRLF ++ snd p) (parts r) ++ last_line r ++ CRLF.

(** The response as the connection hands it on. *)
Definition payload (r : Written) : list N :=
  flat_map (λ p, fst p ++ snd p) (parts r) ++ last_line r.

Definition part_ok (p : list N * list N) : Prop :=
  no_crlf (fst p) ∧ literal_length (fst p) = Some (len (snd p)).

Record written_ok (r : Written) : Prop := {
  ok_parts : Forall part_ok (parts r);
  ok_last : no_crlf (last_line r);
  ok_no_literal : literal_length (last_line r) = None;
  ok_payload : len (payload r) ≤ MAX_RESPONSE;
  ok_wire : len (wire r) ≤ MAX_BUFFERED;
}.

(** ** Taking a response *)

Lemma crlf_at (l t b : list N) cursor : no_crlf l → drop cursor b = l ++ CRLF ++ t →
  find_crlf (drop cursor b) = Some (length l) ∧ take (length l) (drop cursor b) = l ∧
  drop (cursor + length l + 2) b = t.
Proof.
  intros Hl Hb. rewrite Hb, find_crlf_line by done. split; [done|]. split; [apply take_line|].
  rewrite <- Nat.add_assoc, <- drop_drop, Hb. apply drop_line.
Qed.

Lemma take_whole ps last more : ∀ fuel f cursor line, Forall part_ok ps → no_crlf last →
  literal_length last = None → len (line ++ payload (mkWritten ps last)) ≤ MAX_RESPONSE →
  (length ps < fuel)%nat → drop cursor (buffer f) = wire (mkWritten ps last) ++ more →
  take_go fuel f cursor line
  = (Ok (Some (line ++ payload (mkWritten ps last))),
     mkFramer (buffer f) (cursor + length (wire (mkWritten ps last)))).
Proof.
  unfold payload, wire. cbn [parts last_line].
  induction ps as [|[t l] ps IH]; intros fuel f cursor line Hp Hlast Hn Hlen Hf Hb;
    (destruct fuel as [|fuel]; [simpl in Hf; lia|]); cbn [take_go flat_map fst snd app] in *.
  - rewrite <- (assoc_L (++)) in Hb. destruct (crlf_at _ _ _ _ Hlast Hb) as (-> & -> & _). rewrite Hn.
    rewrite (proj2 (N.ltb_ge _ _)) by done. rewrite length_app. do 2 f_equal. simpl. lia.
  - inversion_clear Hp as [|? ? [Ht Hl] Hps]. cbn [fst snd] in Ht, Hl. rewrite <- !(assoc_L (++)) in Hb.
    destruct (crlf_at _ _ _ _ Ht Hb) as (-> & -> & Hd). rewrite Hl.
    rewrite <- !(assoc_L (++)), !len_app in Hlen.
    rewrite (proj2 (N.ltb_ge _ _)) by (unfold usize_max, MAX_RESPONSE in *; lia).
    assert (length (buffer f) = cursor + length t + 2 + length l
      + length (flat_map (λ p, fst p ++ CRLF ++ snd p) ps ++ last ++ CRLF ++ more))%nat as Hlb.
    { assert (cursor + length t + 2 ≤ length (buffer f))%nat as Hc.
      { apply (f_equal length) in Hb. rewrite length_drop, !length_app in Hb. simpl in Hb. lia. }
      apply (f_equal length) in Hd. rewrite length_drop, length_app in Hd. lia. }
    rewrite (proj2 (N.ltb_ge _ _)) by (unfold len; lia).
    unfold len. rewrite Nat2N.id, Hd, take_app_length.
    rewrite (IH fuel f _ (line ++ t ++ l)).
    + rewrite <- !(assoc_L (++)). f_equal. f_equal. rewrite !length_app. simpl. lia.
    + done.
    + done.
    + done.
    + rewrite <- !(assoc_L (++)), !len_app. lia.
    + simpl in Hf. lia.
    + rewrite <- drop_drop, Hd, drop_app_length. by rewrite <- !(assoc_L (++)).
Qed.

Lemma no_crlf_prefix l p : no_crlf l → (length p < length l + 2)%nat → p `prefix_of` l ++ CRLF → no_crlf p.
Proof.
  revert p. induction l as [|c l IH]; intros p Hl Hp [k Hk].
  - destruct p as [|a [|b p]]; simpl in *; [done| |lia]. unfold CRLF in Hk. by injection Hk as <- _.
  - destruct p as [|a p]; [done|]. cbn [app] in Hk. injection Hk as <- Hk.
    apply no_crlf_cons in Hl as [Hs Hl]. simpl in Hp.
    assert (no_crlf p) as Hn by (apply IH; [done|lia|by exists k]).
    unfold no_crlf, find_crlf in *. cbn [find_sub]. rewrite Hn.
    replace (starts CRLF (c :: p)) with false; [done|]. symmetry.
    destruct p as [|b p]; cbn [starts CRLF]; [by rewrite andb_false_r|].
    destruct l as [|d l]; cbn [app] in Hk; injection Hk as <- Hk; [by destruct (CR =? c)|].
    cbn [starts CRLF] in Hs. exact Hs.
Qed.

(** A prefix of what follows a line ends before the line does, or holds it. *)
Lemma line_or_more t rest p k : no_crlf t → t ++ CRLF ++ rest = p ++ k →
  no_crlf p ∨ ∃ q, p = t ++ CRLF ++ q ∧ rest = q ++ k.
Proof.
  intros Ht Hk. rewrite (assoc_L (++)) in Hk. apply app_eq_inv in Hk as [(q & Hq & Hk)|(q & Hq & Hk)].
  - destruct q as [|c q].
    + right. exists []. rewrite app_nil_r in Hq. rewrite app_nil_r. split; [by rewrite Hq|done].
    + left. apply (no_crlf_prefix t); [done| |by exists (c :: q)].
      apply (f_equal length) in Hq. rewrite !length_app in Hq. simpl in Hq. lia.
  - right. exists q. by rewrite <- (assoc_L (++)) in Hq.
Qed.

Lemma take_partial ps last : ∀ fuel f cursor line p k, Forall part_ok ps → no_crlf last →
  len (line ++ payload (mkWritten ps last)) ≤ MAX_RESPONSE →
  drop cursor (buffer f) = p → wire (mkWritten ps last) = p ++ k → k ≠ [] → (cursor ≤ length (buffer f))%nat →
  take_go fuel f cursor line = (Ok None, f).
Proof.
  unfold payload, wire. cbn [parts last_line].
  induction ps as [|[t l] ps IH]; intros fuel f cursor line p k Hp Hlast Hlen Hb Hk Hne Hc;
    (destruct fuel as [|fuel]; [done|]); cbn [take_go flat_map fst snd app] in *; rewrite Hb.
  - assert (no_crlf p) as ->; [|done]. apply (no_crlf_prefix last); [done| |by exists k].
    apply (f_equal length) in Hk. rewrite !length_app in Hk. destruct k; simpl in *; [done|lia].
  - inversion_clear Hp as [|? ? [Ht Hl] Hps]. cbn [fst snd] in Ht, Hl. rewrite <- !(assoc_L (++)) in Hk.
    destruct (line_or_more _ _ _ _ Ht Hk) as [Hn|(q & -> & Hq)]; [by unfold no_crlf in Hn; rewrite Hn|].
    destruct (crlf_at _ _ _ _ Ht Hb) as (Hfind & Htake & Hd). rewrite Hb in Hfind, Htake. rewrite Hfind, Htake, Hl.
    rewrite <- !(assoc_L (++)), !len_app in Hlen.
    rewrite (proj2 (N.ltb_ge _ _)) by (unfold usize_max, MAX_RESPONSE in *; lia).
    assert (length (buffer f) = cursor + length t + 2 + length q)%nat as Hlb.
    { apply (f_equal length) in Hb. rewrite length_drop, !length_app in Hb. simpl in Hb. lia. }
    destruct (N.ltb_spec (len (buffer f)) (N.of_nat (cursor + length t + 2) + len l)) as [Hlt|Hge]; [done|].
    apply app_eq_inv in Hq as [(y & Hx & Hq)|(y & Hx & Hq)].
    1: { assert (length y = 0)%nat as Hz.
         { apply (f_equal length) in Hx. rewrite length_app in Hx. unfold len in Hge. lia. }
         destruct y; [|done]. rewrite app_nil_r in Hx. simpl in Hq. subst q.
         eapply (IH fuel f _ _ [] k); [done|done| | | |done|].
         - unfold len in *. rewrite Nat2N.id, Hd, take_ge by lia. rewrite <- !(assoc_L (++)), !length_app. lia.
         - rewrite <- drop_drop, Hd. unfold len. rewrite Nat2N.id. apply drop_ge. lia.
         - by rewrite Hq.
         - unfold len. lia. }
    subst q. rewrite length_app in Hlb. unfold len in Hge |- *. rewrite Nat2N.id, Hd, take_app_length.
    eapply (IH fuel f _ _ y k); [done|done| | |done|done|lia].
    + unfold len in *. rewrite <- !(assoc_L (++)), !length_app. lia.
    + by rewrite <- drop_drop, Hd, drop_app_length.
Qed.

(** ** Connections *)

(** What was received and not yet taken. *)
Definition unread (f : Framer) : list N := drop (start f) (buffer f).
Definition framer_ok (f : Framer) : Prop := (start f ≤ length (buffer f))%nat.

Lemma parts_short ps last : (length ps ≤ length (wire (mkWritten ps last)))%nat.
Proof.
  unfold wire. cbn [parts last_line]. induction ps as [|[t l] ps IH]; [simpl; lia|].
  cbn [flat_map fst snd length]. rewrite !length_app in IH. rewrite !length_app.
  change (length CRLF) with 2%nat in *. lia.
Qed.

Lemma take_ready f r more : written_ok r → framer_ok f → unread f = wire r ++ more →
  ∃ f', take_response f = (Ok (Some (payload r)), f') ∧ framer_ok f' ∧ unread f' = more.
Proof.
  intros [Hp Hl Hn Hlen _] Hf Hu. destruct r as [ps last]. cbn [parts last_line] in *. unfold take_response, unread in *.
  pose proof (parts_short ps last) as Hs. pose proof (f_equal length Hu) as Hul.
  rewrite length_drop, length_app in Hul. eexists. split; [apply (take_whole ps last more); try done; lia|].
  unfold framer_ok in *. cbn [start buffer]. split; [lia|]. by rewrite <- drop_drop, Hu, drop_app_length.
Qed.

Lemma take_wait f r k : written_ok r → framer_ok f → wire r = unread f ++ k → k ≠ [] →
  take_response f = (Ok None, f).
Proof.
  intros [Hp Hl Hn Hlen _] Hf Hu Hk. destruct r as [ps last]. by eapply (take_partial ps last).
Qed.

Lemma push_ok f b : framer_ok f → len (unread f) ≤ MAX_BUFFERED →
  ∃ f', push f b = Ok f' ∧ framer_ok f' ∧ unread f' = unread f ++ b.
Proof.
  intros Hf Hl. unfold push, unread, framer_ok, len in *. rewrite length_drop in Hl.
  rewrite (proj2 (N.ltb_ge _ _)) by lia. eexists. split; [done|]. split; [simpl; lia|done].
Qed.

(** What the surroundings do, in order: take what is sent, or hand over bytes. *)
Inductive event_ : Type := Sent (b : list N) | Got (b : list N).

Section reading.
Context {W : Type} `{Transport W}.

Inductive serves : W → list event_ → W → Prop :=
| serves_nil w : serves w [] w
| serves_sent w w1 w' b script :
    tr_send b w = (Ok tt, w1) → serves w1 script w' → serves w (Sent b :: script) w'
| serves_got w w1 w' b script :
    b ≠ [] → (∀ size timeout, tr_read size timeout w = (Ok (mkChunk b false), w1)) →
    serves w1 script w' → serves w (Got b :: script) w'.

(** The bytes still to come before [script], in at most [n] pieces. *)
Definition pending (n : nat) (c : Connection) (w : W) (b : list N) (script : list event_) (w' : W) : Prop :=
  ∃ cs, framer_ok (framer c) ∧ unread (framer c) ++ concat cs = b ∧ (length cs ≤ n)%nat ∧
    serves w ((Got <$> cs) ++ script) w'.

Lemma pending_nil n c w script w' : pending n c w [] script w' → serves w script w'.
Proof.
  intros (cs & _ & Hb & _ & Hs). apply app_nil in Hb as [_ Hb]. destruct cs as [|b cs]; [done|].
  inversion Hs; subst. apply app_nil in Hb as [-> _]. done.
Qed.

(** The next response is there, or the next bytes are wanted. *)
Lemma next_or_fill n c w r rest script w' : written_ok r → pending n c w (wire r ++ rest) script w' →
  (∃ c', take_next c w = (Value_ (Some (payload r)), c', w) ∧ pending n c' w rest script w' ∧ tag c' = tag c) ∨
  (∃ n' c' w1, n = S n' ∧ take_next c w = (Value_ None, c, w) ∧
     (∀ timeout, fill timeout c w = (Value_ true, c', w1)) ∧
     pending n' c' w1 (wire r ++ rest) script w' ∧ tag c' = tag c).
Proof.
  intros Hr (cs & Hf & Hb & Hn & Hs). unfold take_next, se_bind, se_get, se_put.
  apply app_eq_inv in Hb as [(k & Hk & Hb)|(k & Hk & Hb)].
  - left. destruct (take_ready (framer c) r k Hr Hf Hk) as (f' & -> & Hf' & Hu). eexists. split; [done|].
    split; [|done]. exists cs. cbn [framer]. by rewrite Hu.
  - destruct k as [|x k].
    { left. rewrite app_nil_r in Hk. destruct (take_ready (framer c) r [] Hr Hf) as (f' & -> & Hf' & Hu);
        [by rewrite app_nil_r|]. eexists. split; [done|]. split; [|done]. exists cs. cbn [framer]. by rewrite Hu. }
    right. rewrite (take_wait (framer c) r (x :: k)) by done. destruct cs as [|b cs]; [done|].
    inversion Hs as [| |? w1 ? ? ? Hb0 Hread Hs1]; subst. simpl in Hn. destruct n as [|n']; [lia|].
    destruct (push_ok (framer c) b Hf) as (f' & Hpush & Hf' & Hu).
    { pose proof (ok_wire r Hr) as Hw. rewrite Hk, len_app in Hw. lia. }
    exists n', (mkConnection f' (tag c) (closed c)), w1. split; [done|]. split; [by destruct c|]. split; [|split].
    + intros timeout. unfold fill, se_bind, se_call, se_get, se_put, se_lift. rewrite Hread. cbn [chunk_closed chunk_bytes].
      rewrite bool_decide_false by done. by rewrite Hpush.
    + exists cs. cbn [framer]. split_and!; [done| |lia|done]. rewrite Hu, <- (assoc_L (++)), Hk, <- (assoc_L (++)).
      f_equal. exact Hb.
    + done.
Qed.

Lemma read_loop_response n : ∀ fuel c w r rest script w', written_ok r →
  pending n c w (wire r ++ rest) script w' → (n < fuel)%nat →
  ∃ c' w1, read_loop fuel c w = (Value_ (Some (payload r)), c', w1) ∧ pending n c' w1 rest script w' ∧ tag c' = tag c.
Proof.
  induction n as [n IH] using lt_wf_ind; intros fuel c w r rest script w' Hr Hp Hf.
  destruct fuel as [|fuel]; [lia|]. cbn [read_loop]. unfold se_bind at 1.
  destruct (next_or_fill _ _ _ _ _ _ _ Hr Hp) as [(c' & -> & Hc' & Ht)|(n' & c' & w1 & -> & -> & Hfill & Hc' & Ht)].
  - by exists c', w.
  - unfold se_bind at 1. rewrite Hfill. simpl. destruct (IH n' ltac:(lia) fuel c' w1 r rest script w') as (c2 & w2 & E & Hp2 & Ht2);
      [done..|lia|]. exists c2, w2. rewrite Ht2, Ht. split_and!; [done| |done].
    destruct Hp2 as (cs & ? & ? & ? & ?). exists cs. split_and!; [done..|lia|done].
Qed.

Lemma read_response n fuel timeout c w r rest script w' : written_ok r →
  pending n c w (wire r ++ rest) script w' → (n < fuel)%nat →
  ∃ c' w1, read fuel timeout c w = (Value_ (Some (payload r)), c', w1) ∧ pending n c' w1 rest script w' ∧ tag c' = tag c.
Proof.
  intros Hr Hp Hf. unfold read, se_bind at 1.
  destruct (next_or_fill _ _ _ _ _ _ _ Hr Hp) as [(c' & -> & Hc' & Ht)|(n' & c' & w1 & -> & -> & Hfill & Hc' & Ht)].
  - by exists c', w.
  - unfold se_bind at 1. rewrite Hfill. simpl. destruct (read_loop_response n' fuel c' w1 r rest script w') as (c2 & w2 & E & Hp2 & Ht2);
      [done..|lia|]. exists c2, w2. rewrite Ht2, Ht. split_and!; [done| |done].
    destruct Hp2 as (cs & ? & ? & ? & ?). exists cs. split_and!; [done..|lia|done].
Qed.

(** A command's answer: untagged responses, then its completion. *)
Lemma read_completion n reads name rs last st rest script w' : (n < reads)%nat →
  Forall (λ r, written_ok r ∧ tagged_status (payload r) name = Ok None) rs →
  written_ok last → tagged_status (payload last) name = Ok (Some st) →
  ∀ fuel before c w, (length rs < fuel)%nat →
  pending n c w (flat_map wire rs ++ wire last ++ rest) script w' →
  ∃ c' w1, read_until_tagged_go reads fuel name before c w
    = (Value_ (mkCompletion st (before ++ (payload <$> rs))), c', w1) ∧
    pending n c' w1 rest script w' ∧ tag c' = tag c.
Proof.
  intros Hn Hrs Hlast Hst. induction Hrs as [|r rs [Hr Hu] Hrs IH]; intros [|fuel] before c w Hf Hp; simpl in Hf; try lia;
    cbn [read_until_tagged_go]; unfold se_bind at 1.
  - destruct (read_response n reads None c w last rest script w' Hlast Hp Hn) as (c' & w1 & -> & Hp' & Ht).
    unfold se_bind, se_lift. rewrite Hst. exists c', w1. by rewrite app_nil_r.
  - cbn [flat_map] in Hp. rewrite <- (assoc_L (++)) in Hp.
    destruct (read_response n reads None c w r _ script w' Hr Hp Hn) as (c' & w1 & -> & Hp' & Ht).
    unfold se_bind at 1, se_lift. rewrite Hu. cbn [se_ret].
    destruct (IH fuel (before ++ [payload r]) c' w1 ltac:(lia) Hp') as (c2 & w2 & E & Hp2 & Ht2).
    exists c2, w2. rewrite Ht2, Ht. split_and!; [|done..]. etrans; [exact E|].
    by rewrite fmap_cons, <- (assoc_L (++)).
Qed.
End reading.
