(* ===== verification/ImapFetch.v ===== *)
(** A fetched message arrives as the server holds it: the FETCH responses a
    server writes are parsed to what was written, through the framing and
    whatever pieces they arrive in; and the parser ends, with one kind of
    exception. *)
From stdpp Require Import base tactics option list strings.
From Stdlib Require Import NArith Lia Ascii.
From S2P Require Import Prelude Utf8 Host Text MimeSpec Wire Imap ImapFrame.

Local Open Scope N_scope.
Local Open Scope rust_scope.

(** ** Numbers *)

Lemma digit_code c d : to_digit c = Some d → is_digit (N_of_ascii c) = true ∧ N_of_ascii c - 48 = d.
Proof.
  unfold to_digit, is_digit, between. destruct ((48 <=? N_of_ascii c) && (N_of_ascii c <=? 57)); [|done].
  by intros [= <-].
Qed.

Lemma parse_digits_ge s : ∀ acc n, parse_digits acc s = Ok n → acc ≤ n.
Proof.
  induction s as [|c s IH]; intros acc n; cbn [parse_digits]; [intros [= ->]; lia|].
  destruct (to_digit c); [|done]. destruct (_ <=? _); [|done]. intros Hn%IH. lia.
Qed.

Lemma digits_value_of max s : ∀ acc n, parse_digits acc s = Ok n → n ≤ max →
  digits_value max acc (lit s) = Some n ∧ Forall (λ c, is_digit c = true) (lit s).
Proof.
  induction s as [|c s IH]; intros acc n; cbn [parse_digits].
  - intros [= ->] _. split; [done|constructor].
  - destruct (to_digit c) as [d|] eqn:Ed; [|done]. destruct (_ <=? _); [|done]. intros Hn Hmax.
    destruct (digit_code c d Ed) as [Hd Hv]. destruct (IH _ _ Hn Hmax) as [IH1 IH2].
    split; [|by constructor]. unfold lit in *. cbn [str_bytes digits_value]. rewrite Hd, Hv.
    apply parse_digits_ge in Hn. rewrite (proj2 (N.leb_le _ _)) by lia. done.
Qed.

Lemma number_parses max n : n ≤ max → max ≤ u64_max → parse_unsigned max (number n) = Some n ∧
  number n ≠ [] ∧ Forall (λ c, is_digit c = true) (number n).
Proof.
  intros Hn Hmax. assert (u64_range n) as Hr by (unfold u64_range in *; lia).
  apply parse_u64_to_string in Hr. unfold number.
  destruct (digits_go_head 19 n "") as (d & r & Hd10 & Hs). unfold u64_to_string in *. rewrite Hs in *.
  unfold Prelude.parse_u64 in Hr. rewrite digit_char_not_plus in Hr by done. cbn [andb] in Hr.
  set (c := digit_char d) in *. clearbody c.
  destruct (digits_value_of max _ _ _ Hr Hn) as [Hv Hd]. split_and!; [|done..].
  unfold lit in *. cbn [str_bytes] in *. unfold parse_unsigned.
  inversion_clear Hd as [|? ? Hc1 _]. rewrite (proj2 (N.eqb_neq (N_of_ascii c) 43)).
  2: { intros E. by rewrite E in Hc1. }
  by destruct (str_bytes r).
Qed.

(** ** Tokens *)

(** What a server writes between the parentheses. *)
Inductive Piece : Type :=
| PAtom (s : str)
| PQuoted (s : str)
| PLiteral (b : list N).

Definition escape (s : str) : str := flat_map (λ c, if (c =? 92) || (c =? QUOTE) then [92; c] else [c]) s.
Definition marker (n : N) : list N := [123] ++ number n ++ [125].

Definition print_piece (p : Piece) : list N :=
  match p with
  | PAtom s => s
  | PQuoted s => [QUOTE] ++ escape s ++ [QUOTE]
  | PLiteral b => marker (len b) ++ b
  end.
Definition token_of (p : Piece) : Token :=
  match p with PAtom s => Atom s | PQuoted s => Quoted s | PLiteral b => Literal b end.

Definition piece_ok (p : Piece) : Prop :=
  match p with
  | PAtom s => s ≠ [] ∧ Forall (λ c, ends_atom c = false ∧ c < 128) s
  | PQuoted s => Forall (λ c, c ≠ LF) s
  | PLiteral b => len b ≤ usize_max
  end.

(** What may follow a piece. *)
Definition delimited (rest : list N) : Prop := ∃ c r, rest = c :: r ∧ ends_atom c = true.

Lemma take_while_all_then (p : N → bool) s rest : Forall (λ c, p c = true) s →
  (∃ c r, rest = c :: r ∧ p c = false) → take_while p (s ++ rest) = s.
Proof.
  intros Hs (c & r & -> & Hc). induction Hs as [|x s Hx _ IH]; cbn [app take_while]; [by rewrite Hc|].
  by rewrite Hx, IH.
Qed.

Lemma decode_ascii s : Forall (λ c, c < 128) s → decode_lossy s = s.
Proof.
  induction 1 as [|c s Hc _ IH]; [done|]. cbn [decode_lossy]. rewrite (proj2 (N.ltb_lt _ _)) by lia. by rewrite IH.
Qed.

Lemma parse_atom_piece s rest : piece_ok (PAtom s) → delimited rest →
  parse_atom (s ++ rest) = (Atom s, rest).
Proof.
  intros [_ Hs] (c & r & -> & Hc). unfold parse_atom, atom_bytes.
  rewrite take_while_all_then.
  - rewrite drop_app_length. unfold from_utf8_lossy. rewrite decode_ascii; [done|].
    eapply Forall_impl; [exact Hs|]. by intros x [_ ?].
  - eapply Forall_impl; [exact Hs|]. intros x [Hx _]. by rewrite Hx.
  - exists c, r. by rewrite Hc.
Qed.

Lemma parse_quoted_piece s rest : ∀ acc, parse_quoted (escape s ++ QUOTE :: rest) acc = Ok (Quoted (acc ++ s), rest).
Proof.
  induction s as [|c s IH]; intros acc; cbn [escape flat_map app].
  - cbn [parse_quoted]. change (QUOTE =? 92) with false. rewrite N.eqb_refl. by rewrite app_nil_r.
  - destruct ((c =? 92) || (c =? QUOTE)) eqn:E.
    + cbn [app parse_quoted]. change (92 =? 92) with true. cbn [andb]. rewrite IH. by rewrite <- (assoc_L (++)).
    + apply orb_false_iff in E as [E1 E2]. cbn [app parse_quoted]. rewrite E1, E2, IH. by rewrite <- (assoc_L (++)).
Qed.

Lemma split_once_app c a b : Forall (λ x, x ≠ c) a → split_once c (a ++ c :: b) = Some (a, b).
Proof.
  induction 1 as [|x a Hx _ IH]; cbn [app split_once]; [by rewrite N.eqb_refl|].
  rewrite (proj2 (N.eqb_neq x c)) by done. by rewrite IH.
Qed.

Lemma digits_not c n : is_digit c = false → n ≤ u64_max → Forall (λ x, x ≠ c) (number n).
Proof.
  intros Hc Hn. destruct (number_parses u64_max n) as (_ & _ & Hd); [done..|].
  eapply Forall_impl; [exact Hd|]. intros x Hx ->. by rewrite Hc in Hx.
Qed.

Lemma strip_last_digits n : n ≤ u64_max → strip_last 43 (number n) = number n.
Proof.
  intros Hn. unfold strip_last. destruct (last (number n)) as [x|] eqn:E; [|done].
  apply last_Some_elem_of in E. pose proof (digits_not 43 n eq_refl Hn) as Hd. rewrite Forall_forall in Hd.
  by rewrite (proj2 (N.eqb_neq x 43)) by by apply Hd.
Qed.

Lemma usize_below : usize_max ≤ u64_max.
Proof. unfold usize_max, u64_max. lia. Qed.

Lemma parse_literal_piece b rest : piece_ok (PLiteral b) →
  parse_literal (marker (len b) ++ b ++ rest) = Ok (Literal b, rest).
Proof.
  intros Hb. cbn [piece_ok] in Hb. pose proof usize_below as Hu. unfold parse_literal, marker.
  rewrite <- !(assoc_L (++)). change ([125] ++ b ++ rest) with (125 :: b ++ rest).
  rewrite (assoc_L (++) [123]). rewrite split_once_app.
  2: { constructor; [done|]. by apply digits_not; [|lia]. }
  change (drop 1 ([123] ++ number (len b))) with (number (len b)). rewrite strip_last_digits by lia.
  destruct (number_parses usize_max (len b) Hb Hu) as [-> _].
  rewrite (proj2 (N.ltb_ge _ _)) by (rewrite len_app; lia).
  unfold len. by rewrite Nat2N.id, take_app_length, drop_app_length.
Qed.

(** The announcement of a literal. *)
Lemma literal_length_marker a n : n ≤ usize_max → literal_length (a ++ marker n) = Some n.
Proof.
  intros Hn. pose proof usize_below as Hu. unfold literal_length, marker.
  replace (rev (a ++ [123] ++ number n ++ [125])) with (125 :: rev (a ++ [123] ++ number n)).
  2: { rewrite !rev_app_distr. simpl. by rewrite <- !(assoc_L (++)). }
  rewrite rev_involutive. unfold rposition. rewrite !rev_app_distr. cbn [rev app]. rewrite <- (assoc_L (++)).
  change ([123] ++ rev a) with (123 :: rev a). rewrite split_once_app.
  2: { apply Forall_rev. by apply digits_not; [|lia]. }
  replace (length (a ++ 123%N :: number n) - length (rev (number n)) - 1)%nat with (length a).
  2: { rewrite length_app, length_rev. simpl. lia. }
  replace (drop (S (length a)) (a ++ 123 :: number n)) with (number n).
  2: { rewrite drop_app_ge by lia. by replace (S (length a) - length a)%nat with 1%nat by lia. }
  rewrite strip_last_digits by lia. destruct (number_parses usize_max n Hn Hu) as (Hp & Hne & Hd).
  rewrite bool_decide_false by done. rewrite (proj2 (forallb_forall _ _)); [done|].
  intros x Hx. rewrite Forall_forall in Hd. by apply Hd, list_elem_of_In.
Qed.

(** ** Lists *)

Lemma skip_spaces_cons c r : c ≠ SP → skip_spaces (c :: r) = c :: r.
Proof. intros Hc. unfold skip_spaces. cbn [drop_while]. by rewrite (proj2 (N.eqb_neq SP c)). Qed.

Lemma parse_items_space fuel b items : parse_items fuel (SP :: b) items = parse_items fuel b items.
Proof. by destruct fuel. Qed.

Lemma parse_items_eq fuel b items : parse_items (S fuel) b items =
  match skip_spaces b with
  | [] => Some (Err (unavailable "endpoint sent an unterminated list"))
  | c :: rest =>
      if c =? 41 then Some (Ok (TokenList items, rest))
      else
        match parse_token fuel (c :: rest) with
        | Some (Ok (token, rest)) => parse_items fuel rest (items ++ [token])
        | Some (Err e) => Some (Err e)
        | None => None
        end
  end.
Proof. done. Qed.

(** The first byte of a piece is no space and closes no list. *)
Lemma piece_head p rest : piece_ok p → ∃ c r, print_piece p ++ rest = c :: r ∧ c ≠ SP ∧ c ≠ 41 ∧ c ≠ 40.
Proof.
  destruct p as [s|s|b]; cbn [piece_ok print_piece].
  - intros [Hne Hs]. destruct Hs as [|c s [Hc _] _]; [done|]. eexists _, _. split; [done|].
    split_and!; intros ->; discriminate Hc.
  - intros _. by eexists QUOTE, _.
  - intros _. by eexists 123, _.
Qed.

Lemma parse_token_piece fuel p rest : piece_ok p → delimited rest →
  parse_token (S fuel) (print_piece p ++ rest) = Some (Ok (token_of p, rest)).
Proof.
  intros Hp Hr. destruct (piece_head p rest Hp) as (c & r & Hc & H1 & _ & H2). cbn [parse_token].
  rewrite Hc, skip_spaces_cons by done. rewrite (proj2 (N.eqb_neq c 40)) by done.
  destruct p as [s|s|b]; cbn [print_piece token_of] in *.
  - pose proof Hp as [Hne Hs]. destruct Hs as [|x s [Hx _] Hs]; [done|]. cbn [app] in Hc. injection Hc as -> Hc.
    unfold ends_atom in Hx. rewrite !orb_false_iff in Hx. destruct Hx as [[[[[_ _] Hq] Hb] _] _].
    rewrite Hq, Hb. rewrite <- Hc. change (c :: s ++ rest) with ((c :: s) ++ rest). by rewrite parse_atom_piece.
  - rewrite <- !(assoc_L (++)) in Hc. injection Hc as <- <-. rewrite N.eqb_refl.
    change ([QUOTE] ++ rest) with (QUOTE :: rest). by rewrite parse_quoted_piece.
  - rewrite <- (assoc_L (++)) in Hc. rewrite <- Hc. unfold marker in Hc. cbn [app] in Hc. injection Hc as <- _.
    change (123 =? QUOTE) with false. rewrite N.eqb_refl. by rewrite parse_literal_piece.
Qed.

Definition spaced (ps : list Piece) : list N := flat_map (λ p, SP :: print_piece p) ps.

Lemma delimited_spaced ps rest : delimited (spaced ps ++ 41 :: rest).
Proof. destruct ps; by eexists _, _. Qed.

Lemma parse_items_pieces ps rest : Forall piece_ok ps → ∀ fuel items, (S (length ps) < fuel)%nat →
  parse_items fuel (spaced ps ++ 41 :: rest) items = Some (Ok (TokenList (items ++ (token_of <$> ps)), rest)).
Proof.
  induction 1 as [|p ps Hp Hps IH]; intros [|[|fuel]] items Hf; simpl in Hf; try lia.
  - cbn [spaced flat_map app parse_items]. rewrite skip_spaces_cons by done. by rewrite app_nil_r.
  - cbn [spaced flat_map]. fold (spaced ps). cbn [app]. rewrite parse_items_space, <- (assoc_L (++)).
    destruct (piece_head p (spaced ps ++ 41 :: rest) Hp) as (c & r & Hc & H1 & H2 & _).
    rewrite parse_items_eq, Hc, skip_spaces_cons by done. rewrite (proj2 (N.eqb_neq c 41)) by done.
    rewrite <- Hc, parse_token_piece by (done || apply delimited_spaced).
    rewrite IH by lia. by rewrite <- (assoc_L (++)).
Qed.

(** ** Responses *)

(** The lines of a list that began with [line]: each literal ends one. *)
Fixpoint write_pieces (line : list N) (ps : list Piece) : list (list N * list N) * list N :=
  match ps with
  | [] => ([], line ++ [41])
  | PLiteral b :: ps =>
      ((line ++ [SP] ++ marker (len b), b) :: fst (write_pieces [] ps), snd (write_pieces [] ps))
  | p :: ps => write_pieces (line ++ [SP] ++ print_piece p) ps
  end.

Definition written_pieces (line : list N) (ps : list Piece) : Written :=
  mkWritten (fst (write_pieces line ps)) (snd (write_pieces line ps)).

Lemma written_payload ps : ∀ line, payload (written_pieces line ps) = line ++ spaced ps ++ [41].
Proof.
  unfold payload, written_pieces. cbn [parts last_line].
  induction ps as [|p ps IH]; intros line; [done|]. cbn [write_pieces spaced flat_map]. fold (spaced ps).
  destruct p as [s|s|b]; [rewrite IH; by rewrite <- !(assoc_L (++))..|].
  cbn [fst snd flat_map]. rewrite <- (assoc_L (++)), IH. cbn [app print_piece]. rewrite <- !(assoc_L (++)). done.
Qed.

Lemma print_no_lf p : piece_ok p → match p with PLiteral _ => True | _ => Forall (λ c, c ≠ LF) (print_piece p) end.
Proof.
  destruct p as [s|s|b]; cbn [piece_ok print_piece]; [| |done].
  - intros [_ Hs]. eapply Forall_impl; [exact Hs|]. intros c [Hc _] ->. discriminate Hc.
  - intros Hs. constructor; [done|]. apply Forall_app. split; [|by repeat constructor].
    unfold escape. induction Hs as [|c s Hc _ IH]; [constructor|]. cbn [flat_map]. apply Forall_app. split; [|done].
    destruct (_ || _); by repeat constructor.
Qed.

Lemma marker_no_lf n : n ≤ usize_max → Forall (λ c, c ≠ LF) (marker n).
Proof.
  intros Hn. pose proof usize_below. unfold marker. repeat (apply Forall_app; split); try by repeat constructor.
  apply digits_not; [done|lia].
Qed.

Lemma literal_length_paren line : literal_length (line ++ [41]) = None.
Proof. unfold literal_length. by rewrite rev_app_distr. Qed.

Lemma written_lines ps : Forall piece_ok ps → ∀ line, Forall (λ c, c ≠ LF) line →
  Forall part_ok (parts (written_pieces line ps)) ∧ no_crlf (last_line (written_pieces line ps)) ∧
  literal_length (last_line (written_pieces line ps)) = None.
Proof.
  unfold written_pieces. cbn [parts last_line].
  induction 1 as [|p ps Hp Hps IH]; intros line Hl; cbn [write_pieces].
  - split; [constructor|]. split; [|apply literal_length_paren]. apply no_crlf_clean, Forall_app.
    split; [done|by repeat constructor].
  - pose proof (print_no_lf p Hp) as Hlf. destruct p as [s|s|b].
    1,2: apply IH; apply Forall_app; split; [done|]; by constructor.
    cbn [fst snd]. destruct (IH [] ltac:(constructor)) as (H1 & H2 & H3). split; [|done]. constructor; [|done].
    cbn [piece_ok] in Hp. split; cbn [fst snd].
    + apply no_crlf_clean, Forall_app. split; [done|]. constructor; [done|]. by apply marker_no_lf.
    + rewrite (assoc_L (++)). by apply literal_length_marker.
Qed.

Lemma wire_length r : len (wire r) = len (payload r) + 2 * len (parts r) + 2.
Proof.
  unfold wire, payload, len. destruct r as [ps last]. cbn [parts last_line]. rewrite !length_app. simpl.
  induction ps as [|[t l] ps IH]; [simpl; lia|]. cbn [flat_map fst snd length]. rewrite !length_app. simpl. lia.
Qed.

(** ** FETCH *)

Inductive Item : Type :=
| ItemUid (n : N)
| ItemSize (n : N)
| ItemDate (s : str)
| ItemBody (header : bool) (b : list N).

Definition section (header : bool) : str := if header then lit "HEADER" else [].

Definition pieces_of (i : Item) : list Piece :=
  match i with
  | ItemUid n => [PAtom (lit "UID"); PAtom (number n)]
  | ItemSize n => [PAtom (lit "RFC822.SIZE"); PAtom (number n)]
  | ItemDate s => [PAtom (lit "INTERNALDATE"); PQuoted s]
  | ItemBody header b => [PAtom (lit "BODY[" ++ section header ++ lit "]"); PLiteral b]
  end.

Definition item_ok (i : Item) : Prop :=
  match i with
  | ItemUid n | ItemSize n => n ≤ u64_max
  | ItemDate s => Forall (λ c, c ≠ LF) s
  | ItemBody _ b => len b ≤ usize_max
  end.

Definition apply_item (f : FetchItems) (i : Item) : FetchItems :=
  match i with
  | ItemUid n => mkFetchItems (Some n) (item_size f) (item_internal_date f) (item_body f)
  | ItemSize n => mkFetchItems (item_uid f) (Some n) (item_internal_date f) (item_body f)
  | ItemDate s => mkFetchItems (item_uid f) (item_size f) (Some s) (item_body f)
  | ItemBody _ b => mkFetchItems (item_uid f) (item_size f) (item_internal_date f) (Some b)
  end.

Definition fetch_line (seq : N) : list N := lit "* " ++ number seq ++ lit " FETCH (UID".

(** The response about one message: its identifier, then the other items. *)
Definition fetch_pieces (uid : N) (items : list Item) : list Piece :=
  PAtom (number uid) :: flat_map pieces_of items.
Definition fetch_response (seq uid : N) (items : list Item) : Written :=
  written_pieces (fetch_line seq) (fetch_pieces uid items).

Lemma number_atom n : n ≤ u64_max → piece_ok (PAtom (number n)).
Proof.
  intros Hn. destruct (number_parses u64_max n) as (_ & Hne & Hd); [done..|]. split; [done|].
  eapply Forall_impl; [exact Hd|]. intros c Hc. unfold is_digit, between in Hc.
  rewrite andb_true_iff, !N.leb_le in Hc. split; [|lia]. unfold ends_atom, SP, QUOTE, CR, LF.
  rewrite !orb_false_iff, !N.eqb_neq. lia.
Qed.

Lemma name_atom s : bool_decide (lit s ≠ []) && forallb (λ c, negb (ends_atom c) && (c <? 128)) (lit s) = true →
  piece_ok (PAtom (lit s)).
Proof.
  rewrite andb_true_iff, bool_decide_eq_true. intros [Hne Hf]. split; [done|]. apply Forall_forall.
  intros c Hc. apply (proj1 (forallb_forall _ _)) with (x := c) in Hf; [|by apply list_elem_of_In].
  apply andb_true_iff in Hf as [H1%negb_true_iff H2%N.ltb_lt]. done.
Qed.

Lemma pieces_ok items : Forall item_ok items → Forall piece_ok (flat_map pieces_of items).
Proof.
  induction 1 as [|i items Hi _ IH]; [constructor|]. cbn [flat_map]. apply Forall_app. split; [|done].
  destruct i as [n|n|s|header b]; cbn [item_ok pieces_of] in *; (constructor; [|constructor; [|constructor]]);
    try done; try (by apply number_atom); try (by apply name_atom).
  destruct header; [by apply (name_atom "BODY[HEADER]")|by apply (name_atom "BODY[]")].
Qed.

Lemma read_items_of items : Forall item_ok items → ∀ f,
  read_items f (token_of <$> flat_map pieces_of items) = foldl apply_item f items.
Proof.
  induction 1 as [|i items Hi _ IH]; intros f; [done|]. cbn [flat_map foldl]. rewrite fmap_app, <- IH.
  destruct i as [n|n|s|header b]; cbn [item_ok pieces_of fmap list_fmap token_of app read_items head] in *.
  1,2: f_equal; unfold read_item; cbn [apply_item].
  - change (str_eqb (uppercase (lit "UID")) (lit "UID")) with true. cbv iota. unfold parse_u64.
    by destruct (number_parses u64_max n Hi) as [-> _].
  - change (str_eqb (uppercase (lit "RFC822.SIZE")) (lit "UID")) with false.
    change (str_eqb (uppercase (lit "RFC822.SIZE")) (lit "RFC822.SIZE")) with true. cbv iota. unfold parse_u64.
    by destruct (number_parses u64_max n Hi) as [-> _].
  - done.
  - by destruct header.
Qed.

Lemma uppercase_digits n : n ≤ u64_max → uppercase (number n) = number n.
Proof.
  intros Hn. destruct (number_parses u64_max n) as (_ & _ & Hd); [done..|]. unfold uppercase.
  induction Hd as [|c s Hc _ IH]; [done|]. rewrite fmap_cons, IH. f_equal. unfold upper.
  unfold is_digit, between in *. rewrite andb_true_iff, !N.leb_le in Hc. by rewrite (proj2 (N.leb_gt _ _)) by lia.
Qed.

Lemma number_ascii n : n ≤ u64_max → Forall (λ c, c < 128) (number n).
Proof. intros Hn. destruct (number_atom n Hn) as [_ Ha]. eapply Forall_impl; [exact Ha|]. by intros c [_ ?]. Qed.

(** What a server writes about a message is what is read. *)
Lemma parse_fetch_response fuel seq uid items : seq ≤ u64_max → uid ≤ u64_max → Forall item_ok items →
  (2 * length items + 5 < fuel)%nat →
  parse_fetch fuel (payload (fetch_response seq uid items))
  = Some (Ok (Some (foldl apply_item (mkFetchItems (Some uid) None None None) items))).
Proof.
  intros Hseq Huid Hi Hf. unfold fetch_response. rewrite written_payload. unfold parse_fetch, fetch_line.
  rewrite <- !(assoc_L (++)). unfold strip. rewrite starts_app, drop_app_length.
  set (tail := spaced (fetch_pieces uid items) ++ [41]).
  replace (number seq ++ lit " FETCH (UID" ++ tail) with ((number seq ++ lit " FETCH ") ++ 40 :: lit "UID" ++ tail)
    by by rewrite <- (assoc_L (++)).
  rewrite split_once_app.
  2: { apply Forall_app. split; [by apply digits_not|by repeat constructor]. }
  unfold from_utf8_lossy. rewrite decode_ascii.
  2: { apply Forall_app. split; [by apply number_ascii|by repeat constructor]. }
  unfold uppercase. rewrite fmap_app. fold (uppercase (number seq)). rewrite uppercase_digits by done.
  change (upper <$> lit " FETCH ") with (lit " " ++ lit "FETCH" ++ lit " "). rewrite (assoc_L (++) (number seq)).
  destruct (find_sub_within (lit "FETCH") (number seq ++ lit " ") (lit " ")) as [k ->].
  rewrite drop_app_length. destruct fuel as [|fuel]; [lia|].
  change (parse_token (S fuel) (40 :: lit "UID" ++ tail)) with (parse_items fuel (lit "UID" ++ tail) []).
  rewrite <- parse_items_space.
  change (SP :: lit "UID" ++ tail) with (spaced (PAtom (lit "UID") :: fetch_pieces uid items) ++ 41 :: []).
  rewrite parse_items_pieces.
  - cbn [app fmap list_fmap token_of fetch_pieces]. do 3 f_equal.
    change (PAtom (lit "UID") :: PAtom (number uid) :: flat_map pieces_of items)
      with (flat_map pieces_of (ItemUid uid :: items)).
    etrans; [apply (read_items_of (ItemUid uid :: items)); by constructor|done].
  - constructor; [by apply name_atom|]. constructor; [by apply number_atom|by apply pieces_ok].
  - unfold fetch_pieces. cbn [length].
    assert (length (flat_map pieces_of items) = 2 * length items)%nat as ->; [|lia].
    clear. induction items as [|i items IH]; [done|]. cbn [flat_map]. rewrite length_app, IH. destruct i; simpl; lia.
Qed.

(** ** Commands *)

Definition tag_name (k : N) : str := lit "p" ++ pad4 (number k).
Definition next (k : N) : N := (k + 1) mod 4294967296.

(** The completion of a command. *)
Definition completed (k : N) : Written := mkWritten [] (tag_name k ++ lit " OK FETCH completed").

Lemma digits_length fuel : ∀ n acc, (String.length (digits_go fuel n acc) ≤ fuel + String.length acc)%nat.
Proof.
  induction fuel as [|fuel IH]; intros n acc; cbn [digits_go]; [lia|].
  destruct (n <? 10); [simpl; lia|]. etrans; [apply IH|]. simpl. lia.
Qed.

Lemma number_length n : (length (number n) ≤ 20)%nat.
Proof.
  unfold number, lit, u64_to_string. pose proof (digits_length 20 n "") as Hl.
  change (String.length "") with 0%nat in Hl.
  assert (∀ s, length (str_bytes s) = String.length s) as ->; [|lia].
  induction s as [|c s IH]; simpl; [done|]. by rewrite IH.
Qed.

Lemma tag_name_ascii k : k < 4294967296 → Forall (λ c, c < 128 ∧ c ≠ LF) (tag_name k) ∧ (length (tag_name k) ≤ 25)%nat.
Proof.
  intros Hk. assert (k ≤ u64_max) as Hu by (unfold u64_max; lia). unfold tag_name, pad4. split.
  - constructor; [done|]. apply Forall_app. split; [by apply Forall_replicate|].
    pose proof (number_ascii k Hu) as H1. pose proof (digits_not LF k eq_refl Hu) as H2.
    by apply Forall_and.
  - pose proof (number_length k). cbn [app length lit str_bytes]. rewrite length_app, length_replicate. simpl. lia.
Qed.

Lemma completed_payload k : payload (completed k) = tag_name k ++ lit " OK FETCH completed".
Proof. done. Qed.

Lemma completed_ok k : k < 4294967296 → written_ok (completed k).
Proof.
  intros Hk. destruct (tag_name_ascii k Hk) as [Ha Hl]. split.
  - constructor.
  - apply no_crlf_clean, Forall_app. split; [|by repeat constructor].
    eapply Forall_impl; [exact Ha|]. by intros c [_ ?].
  - unfold literal_length, completed. cbn [last_line]. by rewrite rev_app_distr.
  - rewrite completed_payload, len_app. unfold len. change (length (lit " OK FETCH completed")) with 19%nat.
    unfold MAX_RESPONSE. lia.
  - rewrite wire_length, completed_payload, len_app. unfold len. cbn [parts completed length].
    change (length (lit " OK FETCH completed")) with 19%nat. unfold MAX_BUFFERED, MAX_RESPONSE. lia.
Qed.

Lemma completed_status k : k < 4294967296 →
  tagged_status (payload (completed k)) (tag_name k) = Ok (Some StatusOk).
Proof.
  intros Hk. destruct (tag_name_ascii k Hk) as [Ha _]. unfold tagged_status, response_text, from_utf8_lossy.
  rewrite completed_payload, decode_ascii.
  2: { apply Forall_app. split; [|by repeat constructor]. eapply Forall_impl; [exact Ha|]. by intros c [? _]. }
  unfold strip at 1. rewrite starts_app, drop_app_length. done.
Qed.

Lemma fetch_untagged seq uid items k : tagged_status (payload (fetch_response seq uid items)) (tag_name k) = Ok None.
Proof. unfold fetch_response. by rewrite written_payload. Qed.

(** The answer to a FETCH fits in a response. *)
Lemma fetch_written seq uid items : seq ≤ u64_max → uid ≤ u64_max → Forall item_ok items →
  len (payload (fetch_response seq uid items)) ≤ MAX_RESPONSE → (length items ≤ 100)%nat →
  written_ok (fetch_response seq uid items).
Proof.
  intros Hs Hu Hi Hl Hn. destruct (written_lines (fetch_pieces uid items)) with (line := fetch_line seq) as (H1 & H2 & H3).
  - constructor; [by apply number_atom|by apply pieces_ok].
  - unfold fetch_line. apply Forall_app. split; [by repeat constructor|]. apply Forall_app.
    split; [by apply digits_not|by repeat constructor].
  - split; [done..|]. rewrite wire_length.
    assert (∀ ps line, length (fst (write_pieces line ps)) ≤ length ps)%nat as Hp.
    { induction ps as [|[s|s|b] ps IH]; intros line; cbn [write_pieces length]; [simpl; lia| | |].
      - specialize (IH (line ++ [SP] ++ print_piece (PAtom s))). lia.
      - specialize (IH (line ++ [SP] ++ print_piece (PQuoted s))). lia.
      - specialize (IH []). cbn [fst length]. lia. }
    specialize (Hp (fetch_pieces uid items) (fetch_line seq)).
    assert (length (fetch_pieces uid items) ≤ 201)%nat as Hlp.
    { unfold fetch_pieces. cbn [length]. assert (length (flat_map pieces_of items) = 2 * length items)%nat as ->; [|lia].
      clear. induction items as [|i items IH]; [done|]. cbn [flat_map]. rewrite length_app, IH. destruct i; simpl; lia. }
    unfold fetch_response, written_pieces in *. cbn [parts]. unfold MAX_BUFFERED, MAX_RESPONSE, len in *. lia.
Qed.

Section fetching.
Context {W : Type} `{Transport W}.

Definition fresh (c : Connection) : Prop := framer_ok (framer c) ∧ unread (framer c) = [].

Definition fetch_command (k uid : N) (what : str) : list N :=
  as_bytes (tag_name k ++ lit " UID FETCH " ++ number uid ++ lit " (" ++ what ++ lit ")") ++ CRLF.

Lemma fetch_items_run fuel seq uid items what cs script c w w' :
  let k := next (tag c) in
  fresh c → seq ≤ u64_max → uid ≤ u64_max → Forall item_ok items → (length items ≤ 100)%nat →
  len (payload (fetch_response seq uid items)) ≤ MAX_RESPONSE →
  item_uid (foldl apply_item (mkFetchItems (Some uid) None None None) items) = Some uid →
  (length cs + 2 * length items + 8 < fuel)%nat →
  concat cs = wire (fetch_response seq uid items) ++ wire (completed k) →
  serves w (Sent (fetch_command k uid what) :: (Got <$> cs) ++ script) w' →
  ∃ c' w1, fetch_items fuel uid what c w
    = (Value_ (Some (foldl apply_item (mkFetchItems (Some uid) None None None) items)), c', w1) ∧
    fresh c' ∧ tag c' = k ∧ serves w1 script w'.
Proof.
  intros k [Hf Hu] Hseq Huid Hi Hn Hlen Hid Hfuel Hcs Hs. inversion Hs as [|? w0 ? ? ? Hsend Hs1|]; subst.
  assert (k < 4294967296) as Hk by (apply N.mod_lt; lia).
  unfold fetch_items, next_tag, send_line. unfold se_bind at 1. unfold se_bind at 1, se_get. unfold se_bind at 1, se_put.
  cbn [se_ret]. fold (next (tag c)). fold (number (next (tag c))). fold (tag_name (next (tag c))). fold k.
  unfold se_bind at 1, se_call. fold (fetch_command k uid what). rewrite Hsend.
  unfold se_bind at 1, read_until_tagged. set (c1 := mkConnection (framer c) k (closed c)).
  destruct (read_completion (length cs) fuel (tag_name k) [fetch_response seq uid items] (completed k) StatusOk
    [] script w') with (fuel := fuel) (before := @nil Response) (c := c1) (w := w0) as (c' & w1 & -> & Hp & Ht).
  - lia.
  - constructor; [|constructor]. split; [by apply fetch_written|apply fetch_untagged].
  - by apply completed_ok.
  - by apply completed_status.
  - simpl. lia.
  - exists cs. split_and!; [done| |done|done]. cbn [framer c1 flat_map]. rewrite Hu, Hcs, !app_nil_r. done.
  - unfold se_bind, se_lift, require_ok. cbn [status untagged app fmap list_fmap find_items se_ret].
    rewrite parse_fetch_response by (done || lia). rewrite bool_decide_true by done.
    exists c', w1. split; [done|]. split; [|split; [by rewrite Ht|by eapply pending_nil]].
    destruct Hp as (cs' & Hf' & Hb & _ & _). by apply app_nil in Hb as [Hb _].
Qed.

(** (C21) A fetched message arrives as the server holds it.  Whatever pieces
    the server's answers arrive in, and whatever bytes the message has, line
    endings and parentheses included, [fetch] asks for the size and then for
    the message, or for its header when it is larger than the ceiling, and
    returns the identifier, date, size and bytes the server wrote. *)
Theorem fetch_exact fuel seq1 seq2 uid size date body max_bytes cs1 cs2 c w w'
    (Hfresh : fresh c) (Hseq1 : seq1 ≤ u64_max) (Hseq2 : seq2 ≤ u64_max) (Huid : uid ≤ u64_max)
    (Hsize : size ≤ u64_max) (Hdate : Forall (λ x, x ≠ LF) date) (Hbody : len body ≤ usize_max) :
  let header := max_bytes <? size in
  let first := fetch_response seq1 uid [ItemSize size] in
  let second := fetch_response seq2 uid [ItemDate date; ItemBody header body] in
  let k1 := next (tag c) in
  let k2 := next k1 in
  len (payload first) ≤ MAX_RESPONSE → len (payload second) ≤ MAX_RESPONSE →
  concat cs1 = wire first ++ wire (completed k1) → concat cs2 = wire second ++ wire (completed k2) →
  serves w ([Sent (fetch_command k1 uid (lit "UID RFC822.SIZE"))] ++ (Got <$> cs1)
    ++ [Sent (fetch_command k2 uid (lit "UID INTERNALDATE BODY.PEEK[" ++ section header ++ lit "]"))]
    ++ (Got <$> cs2)) w' →
  (length cs1 + length cs2 + 20 < fuel)%nat →
  ∃ c', fetch fuel uid max_bytes c w
    = (Value_ (Some (mkFetched uid (Some date) size body header)), c', w').
Proof.
  intros header first second k1 k2 Hl1 Hl2 Hc1 Hc2 Hs Hf. cbn [app] in Hs.
  destruct (fetch_items_run fuel seq1 uid [ItemSize size] (lit "UID RFC822.SIZE") cs1
    (Sent (fetch_command k2 uid (lit "UID INTERNALDATE BODY.PEEK[" ++ section header ++ lit "]")) :: (Got <$> cs2) ++ [])
    c w w') as (c1 & w1 & E1 & Hf1 & Ht1 & Hs1); try done; try (simpl; lia).
  { by constructor; [|constructor]. }
  { by rewrite app_nil_r. }
  destruct (fetch_items_run fuel seq2 uid [ItemDate date; ItemBody header body]
    (lit "UID INTERNALDATE BODY.PEEK[" ++ section header ++ lit "]") cs2 [] c1 w1 w')
    as (c2 & w2 & E2 & _ & _ & Hs2); try done; try (simpl; lia).
  { by constructor; [|constructor; [|constructor]]. }
  { by rewrite Ht1. }
  { by rewrite Ht1. }
  inversion Hs2; subst. exists c2. unfold fetch. unfold se_bind at 1. rewrite E1. cbn [foldl apply_item mbind option_bind item_size].
  unfold se_bind at 1.
  match goal with |- context [fetch_items fuel uid ?what c1 w1] =>
    change what with (lit "UID INTERNALDATE BODY.PEEK[" ++ section header ++ lit "]") end.
  by rewrite E2.
Qed.
End fetching.
