(* ===== verification/ImapSpec.v ===== *)
(** What the IMAP commands promise beside [ImapFetch]: the parser of a FETCH
    response ends unless a bare line ending stands where an item should, a
    search gives the next messages in order, and a value in a command cannot
    end it. *)
From stdpp Require Import base tactics option list strings sorting.
From Stdlib Require Import NArith Lia.
From S2P Require Import Prelude Utf8 Host Text MimeSpec Wire Imap ImapFrame ImapFetch.

Local Open Scope N_scope.
Local Open Scope rust_scope.

(** ** The parser ends *)

Definition stops (c : N) : Prop := c = 41 ∨ c = CR ∨ c = LF.
Definition has_newline (b : list N) : Prop := CR ∈ b ∨ LF ∈ b.

(** What a token leaves is shorter, unless none begins there. *)
Definition advances (b : list N) (r : result (Token * list N) WitError) : Prop :=
  match r with
  | Ok (_, rest) =>
      rest `suffix_of` b ∧
      ((length rest < length b)%nat ∨ ∃ c x, rest = c :: x ∧ stops c ∧ skip_spaces b = rest)
  | Err _ => True
  end.
Definition leaves (b : list N) (r : result (Token * list N) WitError) : Prop :=
  match r with Ok (_, rest) => rest `suffix_of` b | Err _ => True end.

Definition token_decided (b : list N) : Prop :=
  (∃ r, (∀ f, (2 * length b + 1 ≤ f)%nat → parse_token f b = Some r) ∧ advances b r) ∨
  ((∀ f, parse_token f b = None) ∧ has_newline b).
Definition items_decided (b : list N) : Prop := ∀ items,
  (∃ r, (∀ f, (2 * length b + 2 ≤ f)%nat → parse_items f b items = Some r) ∧ leaves b r) ∨
  ((∀ f, parse_items f b items = None) ∧ has_newline b).

Lemma newline_suffix a b : a `suffix_of` b → has_newline a → has_newline b.
Proof. intros [k ->] [Hc|Hc]; [left|right]; apply elem_of_app; by right. Qed.

Lemma drop_while_suffix p b : drop_while p b `suffix_of` b.
Proof.
  induction b as [|c b IH]; [done|]. cbn [drop_while]. destruct (p c); [|done]. by apply suffix_cons_r.
Qed.

Lemma skip_spaces_head b c r : skip_spaces b = c :: r → c ≠ SP ∧ (c :: r) `suffix_of` b.
Proof.
  intros E. split; [|rewrite <- E; apply drop_while_suffix]. intros ->.
  unfold skip_spaces in E. induction b as [|x b IH]; cbn [drop_while] in E; [done|].
  destruct (N.eqb_spec SP x) as [|Hx]; [by apply IH|]. congruence.
Qed.

Lemma parse_quoted_suffix b : ∀ text t rest, parse_quoted b text = Ok (t, rest) → rest `suffix_of` b.
Proof.
  cut (∀ n b text t rest, (length b ≤ n)%nat → parse_quoted b text = Ok (t, rest) → rest `suffix_of` b); [by eauto|].
  clear b. induction n as [|n IH]; intros [|c b] text t rest Hl; simpl in Hl; try lia; try done; cbn [parse_quoted].
  destruct (c =? 92).
  - destruct b as [|x b]; [done|]. intros E. simpl in Hl. apply IH in E; [|lia].
    by apply suffix_cons_r, suffix_cons_r.
  - destruct (c =? QUOTE); [intros [= _ <-]; by apply suffix_cons_r|]. intros E. apply IH in E; [|lia].
    by apply suffix_cons_r.
Qed.

Lemma split_once_suffix c b : ∀ before after, split_once c b = Some (before, after) →
  after `suffix_of` b ∧ (length after < length b)%nat.
Proof.
  induction b as [|x b IH]; intros before after; cbn [split_once]; [done|].
  destruct (x =? c); [intros [= _ <-]; split; [by apply suffix_cons_r|simpl; lia]|].
  destruct (split_once c b) as [[y z]|]; [|done]. intros [= _ <-].
  destruct (IH y z eq_refl) as [H1 H2]. split; [by apply suffix_cons_r|simpl; lia].
Qed.

Lemma drop_suffix (n : nat) (b : list N) : drop n b `suffix_of` b.
Proof. exists (take n b). by rewrite take_drop. Qed.

Lemma parse_literal_advances b : advances b (parse_literal b).
Proof.
  unfold parse_literal. destruct (split_once 125 b) as [[m rest]|] eqn:E; [|done].
  apply split_once_suffix in E as [H1 H2]. destruct (parse_unsigned _ _) as [n|]; [|done].
  destruct (_ <? _); [done|]. cbn [advances]. split; [|left; rewrite length_drop; lia].
  etrans; [apply drop_suffix|done].
Qed.

Lemma parse_atom_advances c r : c ≠ SP → c ≠ 40 → c ≠ QUOTE → c ≠ 123 → advances (c :: r) (Ok (parse_atom (c :: r))).
Proof.
  intros H1 H2 H3 H4. unfold parse_atom, atom_bytes. cbn [advances]. split; [apply drop_suffix|].
  destruct (ends_atom c) eqn:E.
  - right. cbn [take_while]. rewrite E. exists c, r. split_and!; [done| |by apply skip_spaces_cons].
    unfold ends_atom in E. rewrite !orb_true_iff, !N.eqb_eq in E. unfold stops. naive_solver.
  - left. cbn [take_while]. rewrite E. cbn [negb length drop]. rewrite length_drop. lia.
Qed.

(** More fuel gives the same. *)
Lemma parse_mono f :
  (∀ b r f', parse_token f b = Some r → (f ≤ f')%nat → parse_token f' b = Some r) ∧
  (∀ b items r f', parse_items f b items = Some r → (f ≤ f')%nat → parse_items f' b items = Some r).
Proof.
  induction f as [|f [IHt IHi]]; [done|]. split.
  - intros b r [|f'] H1 Hf; [lia|]. cbn [parse_token] in *. destruct (skip_spaces b) as [|c x]; [done|].
    destruct (c =? 40); [|done]. by apply IHi; [|lia].
  - intros b items r [|f'] H1 Hf; [lia|]. rewrite parse_items_eq in *. destruct (skip_spaces b) as [|c x]; [done|].
    destruct (c =? 41); [done|]. destruct (parse_token f (c :: x)) as [res|] eqn:Et; [|done].
    rewrite (IHt _ _ f' Et) by lia. destruct res as [[t rest]|e]; [|done]. by apply IHi; [|lia].
Qed.

Lemma token_step b : (∀ r, (length r < length b)%nat → items_decided r) → token_decided b.
Proof.
  intros IH. unfold token_decided. destruct (skip_spaces b) as [|c r] eqn:E.
  { left. eexists. split; [|shelve]. intros [|f] Hf; [lia|]. cbn [parse_token]. by rewrite E. Unshelve. done. }
  destruct (skip_spaces_head b c r E) as [Hsp Hsuf]. pose proof (suffix_length _ _ Hsuf) as Hlen. simpl in Hlen.
  assert (∀ f, parse_token (S f) b = if c =? 40 then parse_items f r []
    else if c =? QUOTE then Some (parse_quoted r [])
    else if c =? 123 then Some (parse_literal (c :: r)) else Some (Ok (parse_atom (c :: r)))) as Heq
    by (intros f; cbn [parse_token]; by rewrite E).
  assert (r `suffix_of` b) as Hr by (by etrans; [apply suffix_cons_r|exact Hsuf]).
  assert (∀ res, advances (c :: r) res → (∀ f, parse_token (S f) b = Some res) → token_decided b) as Hnow.
  { intros res Hadv Hres. left. exists res. split; [intros [|f] Hf; [lia|apply Hres]|].
    destruct res as [[t rest]|]; [|done]. destruct Hadv as [H1 H2]. split; [by etrans|].
    destruct H2 as [H2|(x & y & H2 & H3 & H4)]; [left; simpl in H2; lia|]. right. exists x, y.
    rewrite skip_spaces_cons in H4 by done. by rewrite E, H4. }
  destruct (N.eqb_spec c 40) as [->|H40].
  - destruct (IH r ltac:(lia) []) as [(res & Hres & Hl)|[Hn Hh]].
    + left. exists res. split; [intros [|f] Hf; [lia|]; rewrite Heq; apply Hres; lia|].
      destruct res as [[t rest]|]; [|done]. split; [by etrans|]. left. apply suffix_length in Hl. lia.
    + right. split; [intros [|f]; [done|by rewrite Heq]|by eapply newline_suffix].
  - destruct (N.eqb_spec c QUOTE) as [->|H34].
    + apply (Hnow (parse_quoted r [])); [|done]. destruct (parse_quoted r []) as [[t rest]|] eqn:Eq; [|done].
      apply parse_quoted_suffix in Eq. split; [by apply suffix_cons_r|]. left. apply suffix_length in Eq. simpl. lia.
    + destruct (N.eqb_spec c 123) as [->|H123].
      * apply (Hnow (parse_literal (123 :: r))); [apply parse_literal_advances|done].
      * apply (Hnow (Ok (parse_atom (c :: r)))); [by apply parse_atom_advances|done].
Qed.

(** A bare line ending where an item should stand is never passed. *)
Lemma newline_stuck c r : c = CR ∨ c = LF → ∀ f items, parse_items f (c :: r) items = None.
Proof.
  intros Hc. induction f as [|f IH]; intros items; [done|]. rewrite parse_items_eq, skip_spaces_cons
    by (intros ->; by destruct Hc).
  rewrite (proj2 (N.eqb_neq c 41)) by (intros ->; by destruct Hc). destruct f as [|f]; [done|].
  assert (parse_token (S f) (c :: r) = Some (Ok (Atom [], c :: r))) as -> by (by destruct Hc as [->| ->]).
  apply IH.
Qed.

Lemma items_step b : (∀ r, (length r ≤ length b)%nat → token_decided r) →
  (∀ r, (length r < length b)%nat → items_decided r) → items_decided b.
Proof.
  intros IHt IHi items. destruct (skip_spaces b) as [|c r] eqn:E.
  { left. eexists. split; [|shelve]. intros [|f] Hf; [lia|]. rewrite parse_items_eq. by rewrite E. Unshelve. done. }
  destruct (skip_spaces_head b c r E) as [Hsp Hsuf]. pose proof (suffix_length _ _ Hsuf) as Hlen. simpl in Hlen.
  assert (∀ f, parse_items (S f) b items = if c =? 41 then Some (Ok (TokenList items, r))
    else match parse_token f (c :: r) with
         | Some (Ok (token, rest)) => parse_items f rest (items ++ [token])
         | Some (Err e) => Some (Err e)
         | None => None
         end) as Heq by (intros f; rewrite parse_items_eq; by rewrite E).
  destruct (N.eqb_spec c 41) as [->|H41].
  { left. exists (Ok (TokenList items, r)). split; [intros [|f] Hf; [lia|apply Heq]|].
    cbn [leaves]. by etrans; [apply suffix_cons_r|exact Hsuf]. }
  destruct (IHt (c :: r) ltac:(simpl; lia)) as [(res & Hres & Hadv)|[Hn Hh]].
  2: { right. split; [intros [|f]; [done|by rewrite Heq, Hn]|by eapply newline_suffix]. }
  simpl length in Hres. destruct res as [[t rest]|e].
  2: { left. exists (Err e). split; [|done]. intros [|f] Hf; [lia|]. rewrite Heq, Hres by lia. done. }
  assert ((∀ f, parse_items f rest (items ++ [t]) = None) → ∀ f, parse_items f b items = None) as Hnone.
  { intros Hn [|f]; [done|]. rewrite Heq. destruct (parse_token f (c :: r)) as [res|] eqn:Et; [|done].
    apply (proj1 (parse_mono f)) with (f' := (f + (2 * S (length r) + 1))%nat) in Et; [|lia].
    rewrite Hres in Et by lia. injection Et as <-. apply Hn. }
  destruct Hadv as [Hrs [Hlt|(x & y & -> & Hx & Hxy)]].
  - simpl in Hlt. destruct (IHi rest ltac:(lia) (items ++ [t])) as [(res & Hres' & Hl)|[Hn Hh]].
    + left. exists res. split; [intros [|f] Hf; [lia|]; rewrite Heq, Hres by lia; apply Hres'; lia|].
      destruct res as [[t' rest']|]; [|done]. cbn [leaves] in *. etrans; [exact Hl|]. by etrans.
    + right. split; [|by eapply newline_suffix; [etrans|]]. apply Hnone. done.
  - rewrite skip_spaces_cons in Hxy by done. injection Hxy as <- <-.
    destruct Hx as [->|Hx]; [done|]. right. split.
    + apply Hnone. intros f. by apply newline_stuck.
    + eapply newline_suffix; [by etrans|]. destruct Hx as [->| ->]; [left|right]; apply elem_of_cons; by left.
Qed.

Lemma parser_decided b : token_decided b ∧ items_decided b.
Proof.
  cut (∀ n b, (length b ≤ n)%nat → token_decided b ∧ items_decided b); [by eauto|]. clear b.
  induction n as [n IH] using lt_wf_ind. intros b Hl.
  assert (∀ r, (length r < length b)%nat → items_decided r) as Hi
    by (intros r Hr; apply (IH (length r)); lia).
  assert (∀ r, (length r ≤ length b)%nat → token_decided r) as Ht.
  { intros r Hr. apply token_step. intros x Hx. apply Hi. lia. }
  split; [by apply Ht|by apply items_step].
Qed.

(** (C34) The parser of a FETCH response ends: with fuel for two turns a byte
    it has its answer, and more changes nothing; unless the response has a
    bare CR or LF, in which case it may be that no fuel is enough and the code
    never returns.  A response without them is always answered. *)
Theorem parse_fetch_ends response :
  (∃ r, ∀ fuel, (2 * length response + 1 ≤ fuel)%nat → parse_fetch fuel response = Some r) ∨
  ((∀ fuel, parse_fetch fuel response = None) ∧ (CR ∈ response ∨ LF ∈ response)).
Proof.
  unfold parse_fetch, strip. destruct (starts (lit "* ") response); [|left; by eexists].
  set (rest := drop (length (lit "* ")) response).
  destruct (split_once 40 rest) as [[before after]|]; [|left; by eexists].
  destruct (find_sub _ _); [|left; by eexists].
  assert (drop (length before) rest `suffix_of` response) as Hs.
  { transitivity rest; apply drop_suffix. }
  pose proof (suffix_length _ _ Hs) as Hl.
  destruct (proj1 (parser_decided (drop (length before) rest))) as [(r & Hr & _)|[Hn Hh]].
  - left. destruct r as [[[] ?]|e]; eexists; intros fuel Hf; by rewrite Hr by lia.
  - right. split; [intros fuel; by rewrite Hn|by eapply newline_suffix].
Qed.

(** ** Values in commands *)

(** A quoted value is read back whole, and has no line ending. *)
Lemma quoted_exact v q : quoted v = Ok q → Forall (λ c, c ≠ CR ∧ c ≠ LF) q ∧
  ∃ tail, q = QUOTE :: tail ∧ ∀ rest, parse_quoted (tail ++ rest) [] = Ok (Quoted v, rest).
Proof.
  unfold quoted. destruct (existsb _ v) eqn:E; [done|]. intros [= <-].
  assert (Forall (λ c, c ≠ CR ∧ c ≠ LF) v) as Hv.
  { apply Forall_forall. intros c Hc. apply list_elem_of_In in Hc.
    assert (((c =? CR) || (c =? LF) || (c =? 0)) = false) as Hf.
    { destruct (_ || _) eqn:Ec; [|done]. rewrite <- E. symmetry. apply existsb_exists. by exists c. }
    rewrite !orb_false_iff, !N.eqb_neq in Hf. naive_solver. }
  split.
  - constructor; [done|]. apply Forall_app. split; [|by repeat constructor].
    induction Hv as [|c v Hc _ IH]; [constructor|]. cbn [flat_map]. apply Forall_app. split; [|apply IH].
    + destruct (_ || _); repeat (constructor; [done|]); constructor.
    + cbn [existsb] in E. by apply orb_false_iff in E as [_ E].
  - eexists. split; [done|]. intros rest. rewrite <- (assoc_L (++)). apply parse_quoted_piece.
Qed.

(** ** Searches *)

#[local] Instance N_le_total : Total N.le.
Proof. intros x y. lia. Qed.
#[local] Instance N_le_trans : Transitive N.le.
Proof. intros x y z. lia. Qed.

Lemma dedup_elem l x : x ∈ dedup l ↔ x ∈ l.
Proof.
  induction l as [|a l IH]; [done|]. cbn [dedup]. destruct l as [|b l]; [done|].
  destruct (N.eqb_spec a b) as [->|]; [rewrite IH, !elem_of_cons; tauto|rewrite elem_of_cons, IH, !elem_of_cons; tauto].
Qed.

Lemma dedup_sorted l : StronglySorted N.le l → StronglySorted N.lt (dedup l).
Proof.
  induction 1 as [|a l Hl IH Ha]; [constructor|]. cbn [dedup]. destruct l as [|b l]; [by repeat constructor|].
  destruct (N.eqb_spec a b) as [->|Hab]; [done|]. constructor; [done|]. apply Forall_forall. intros x Hx.
  rewrite dedup_elem in Hx. inversion_clear Ha as [|? ? Hb _]. inversion_clear Hl as [|? ? Hl' Hbl].
  apply elem_of_cons in Hx as [->|Hx]; [lia|]. rewrite Forall_forall in Hbl. specialize (Hbl x Hx). lia.
Qed.

Lemma take_sorted l n x : StronglySorted N.lt l → x ∈ l →
  x ∈ take n l ∨ (length (take n l) = n ∧ ∀ v, v ∈ take n l → v < x).
Proof.
  intros Hl. revert n. induction Hl as [|a l Hl IH Ha]; intros n Hx; [by apply elem_of_nil in Hx|].
  destruct n as [|n]; [right; split; [done|by intros v ?%elem_of_nil]|]. cbn [take length].
  apply elem_of_cons in Hx as [->|Hx]; [left; by apply elem_of_cons; left|].
  destruct (IH n Hx) as [Hi|[Hn Hv]]; [left; by apply elem_of_cons; right|]. right. split; [by rewrite Hn|].
  intros v [->|Hv']%elem_of_cons; [|by apply Hv]. rewrite Forall_forall in Ha. by apply Ha.
Qed.

Lemma take_strongly l n : StronglySorted N.lt l → StronglySorted N.lt (take n l).
Proof.
  intros Hl. revert n. induction Hl as [|a l Hl IH Ha]; intros [|n]; [constructor..|]. cbn [take].
  constructor; [apply IH|by apply Forall_take].
Qed.

Lemma found_since_exact after limit responses :
  let reported := concat (omap search_uids responses) in
  let uids := found_since after limit responses in
  StronglySorted N.lt uids ∧ (length uids ≤ limit)%nat ∧
  Forall (λ u, after < u ∧ u ∈ reported) uids ∧
  (∀ u, u ∈ reported → after < u → u ∈ uids ∨ (length uids = limit ∧ ∀ v, v ∈ uids → v < u)).
Proof.
  intros reported uids. unfold uids, found_since. fold reported.
  set (above := List.filter (λ uid, after <? uid) reported).
  assert (∀ u, u ∈ dedup (merge_sort N.le above) ↔ u ∈ reported ∧ after < u) as Hin.
  { intros u. rewrite dedup_elem. rewrite (merge_sort_Permutation N.le above). unfold above.
    rewrite !list_elem_of_In, List.filter_In, N.ltb_lt. done. }
  assert (StronglySorted N.lt (dedup (merge_sort N.le above))) as Hs.
  { apply dedup_sorted, StronglySorted_merge_sort; apply _. }
  split_and!.
  - by apply take_strongly.
  - rewrite length_take. lia.
  - apply Forall_take, Forall_forall. intros u Hu. apply Hin in Hu as [? ?]. done.
  - intros u Hr Hu. apply take_sorted; [done|]. by apply Hin.
Qed.

Section searching.
Context {W : Type} `{Transport W}.

(** (C31) A search gives the next messages: when [search_since] returns, the
    identifiers are those the server reported in the answer to this command
    that are above the cursor, strictly ascending, without repetition, at most
    [limit]; and one that is reported and left out is above all that are
    given, of which there are [limit] then, so that a cursor moved to the last
    of them skips none. *)
Theorem search_since_exact fuel after limit c w uids c' w'
    (Hrun : search_since fuel after limit c w = (Value_ uids, c', w')) :
  ∃ tag c1 w1 completion,
    read_until_tagged fuel tag c1 w1 = (Value_ completion, c', w') ∧ status completion = StatusOk ∧
    let reported := concat (omap search_uids (untagged completion)) in
    StronglySorted N.lt uids ∧ (length uids ≤ limit)%nat ∧
    Forall (λ u, after < u ∧ u ∈ reported) uids ∧
    (∀ u, u ∈ reported → after < u → u ∈ uids ∨ (length uids = limit ∧ ∀ v, v ∈ uids → v < u)).
Proof.
  unfold search_since in Hrun. unfold se_bind at 1 in Hrun. unfold next_tag in Hrun.
  unfold se_bind at 1, se_get in Hrun. unfold se_bind at 1, se_put in Hrun. cbn [se_ret] in Hrun.
  unfold se_bind at 1, send_line, se_call in Hrun.
  match type of Hrun with context [tr_send ?b w] => destruct (tr_send b w) as [[[]|e] w0] end; [|done].
  unfold se_bind at 1 in Hrun.
  match type of Hrun with context [read_until_tagged fuel ?t ?c1 w0] =>
    destruct (read_until_tagged fuel t c1 w0) as [[[completion|e|] c2] w2] eqn:E; [|done..]; exists t, c1, w0, completion end.
  unfold se_bind, se_lift, require_ok in Hrun. destruct (status completion); [|done..]. cbn [se_ret] in Hrun.
  injection Hrun as <- <- <-. split; [done|]. split; [done|]. apply found_since_exact.
Qed.
End searching.
