(* ===== verification/EmailSample.v ===== *)
(** A concrete base64 and a scripted server, and the theorems of the email
    plugin at work on messages, fetches, searches and submissions. *)
From stdpp Require Import base tactics option list strings sorting.
From Stdlib Require Import ZArith NArith Lia.
From S2P Require Import Prelude Utf8 Json Text Mime MimeSpec MimeHeaders Calendar Email EmailSpec Host Wire Imap Smtp SmtpSpec ImapFrame ImapFetch ImapSpec.

Local Open Scope N_scope.

Module EmailLibrary.

(** ** Base64 *)

Definition b64_char (n : N) : N :=
  if n <? 26 then 65 + n else if n <? 52 then 71 + n else if n <? 62 then n - 4
  else if n =? 62 then 43 else 47.

Fixpoint sample_encode (b : list N) : str :=
  match b with
  | x :: y :: z :: rest =>
      [b64_char (x / 4 mod 64); b64_char (x mod 4 * 16 + y / 16 mod 16);
       b64_char (y mod 16 * 4 + z / 64 mod 4); b64_char (z mod 64)] ++ sample_encode rest
  | [x; y] =>
      [b64_char (x / 4 mod 64); b64_char (x mod 4 * 16 + y / 16 mod 16); b64_char (y mod 16 * 4); 61]
  | [x] => [b64_char (x / 4 mod 64); b64_char (x mod 4 * 16); 61; 61]
  | [] => []
  end.

Definition b64_value (c : N) : option N :=
  if between 65 c 90 then Some (c - 65) else if between 97 c 122 then Some (c - 71)
  else if between 48 c 57 then Some (c + 4) else if c =? 43 then Some 62
  else if c =? 47 then Some 63 else None.

Fixpoint sample_decode (b : list N) : option (list N) :=
  match b with
  | [] => Some []
  | x :: y :: z :: w :: rest =>
      p ← b64_value x; q ← b64_value y;
      if (z =? 61) && (w =? 61) && bool_decide (rest = []) then Some [p * 4 + q / 16]
      else
        r ← b64_value z;
        if (w =? 61) && bool_decide (rest = []) then Some [p * 4 + q / 16; q mod 16 * 16 + r / 4]
        else
          s ← b64_value w; tail ← sample_decode rest;
          Some ([p * 4 + q / 16; q mod 16 * 16 + r / 4; r mod 4 * 64 + s] ++ tail)
  | _ => None
  end.

#[local] Instance sample_base64 : Base64 := {|
  b64_decode := sample_decode;
  b64_decode_no_pad b := sample_decode (b ++ replicate (N.to_nat ((4 - len b mod 4) mod 4)) 61);
  b64_encode := sample_encode;
|}.

Definition in_alphabet (c : N) : Prop :=
  between 65 c 90 || between 97 c 122 || between 48 c 57 || (c =? 43) || (c =? 47) || (c =? 61) = true.

Lemma b64_char_in n : in_alphabet (b64_char n).
Proof.
  unfold in_alphabet, b64_char, between. rewrite !orb_true_iff, !andb_true_iff, !N.leb_le, !N.eqb_eq.
  destruct (N.ltb_spec n 26); [lia|]. destruct (N.ltb_spec n 52); [lia|].
  destruct (N.ltb_spec n 62); [lia|]. destruct (n =? 62); lia.
Qed.

#[local] Instance sample_laws : Base64Laws.
Proof.
  split. intros b. change (Forall in_alphabet (sample_encode b)).
  cut (∀ n b, (length b ≤ n)%nat → Forall in_alphabet (sample_encode b)); [by eauto|]. clear b.
  assert (in_alphabet 61) as He by done.
  induction n as [|n IH]; intros b Hl; destruct b as [|x [|y [|z rest]]]; simpl in Hl |- *; try lia;
    repeat (constructor; [apply b64_char_in || done|]); try constructor.
  apply IH. lia.
Qed.

(** ** Examples *)

Example date_of_epoch : rfc5322_date 0 = Some (lit "Thu, 1 Jan 1970 00:00:00 +0000").
Proof. reflexivity. Qed.

Example leap_day : civil_from_days 19782 = (2024, 2, 29)%Z.
Proof. reflexivity. Qed.

Definition message_bytes (lines : list string) : list N := join_with CRLF (lit <$> lines).

Example folded_words : get (lit "subject")
    (parse_headers (message_bytes ["Subject: =?utf-8?B?SGVsbG8s?="; " =?utf-8?B?IHdvcmxk?="]))
  = Some (Some (lit "Hello, world")).
Proof. reflexivity. Qed.

(** A subject with [=?=] cannot be read. *)
Example subject_panics :
  get (lit "subject") (parse_headers (message_bytes ["Subject: =?="])) = None.
Proof. reflexivity. Qed.

(** A word whose text begins with an escape is left as it stands: its [?=] is
    taken for the end of the word. *)
Example escaped_word_kept :
  decode_words (lit "=?utf-8?Q?=C3=A9t=C3=A9?=") = Some (lit "=?utf-8?Q?=C3=A9t=C3=A9?=") ∧
  decode_words (lit "=?utf-8?Q?t=C3=A9?=") = Some [116; 233].
Proof. split; reflexivity. Qed.

(** An address keeps the case of its domain. *)
Example domain_case_kept : address (lit "a@Example.ORG") = Ok (lit "a@Example.ORG").
Proof. reflexivity. Qed.

(** ** The theorems at work *)

Definition sample_text : str := lit "caf" ++ [233] ++ lit " = tea " ++ [LF] ++ lit "bye".

Lemma quoted_printable_roundtrip_witness :
  decode_quoted_printable (as_bytes (quoted_printable sample_text)) = as_bytes (crlf sample_text).
Proof. apply quoted_printable_roundtrip. by repeat constructor. Defined.

Definition hostile_arguments : Value := object
  [("to", Array [Str "a@example.org"]);
   ("subject", Str (String (Ascii.ascii_of_N 13) (String (Ascii.ascii_of_N 10) "Bcc: c@example.net")));
   ("text", Str "hello")].
Definition sample_config : Config := mkConfig None (Some (lit "Agent")).
Definition sample_from : str := lit "agent@example.org".

Definition sample_outgoing : Outgoing :=
  mkOutgoing (new_message_id sample_from 0 1) (lit "Thu, 1 Jan 1970 00:00:00 +0000") sample_from
    (Some (lit "Agent")) [lit "a@example.org"] [] (CRLF ++ lit "Bcc: c@example.net") None [] (lit "hello").
Definition sample_written : list N := match write sample_outgoing with Ok b => b | Err _ => [] end.

Lemma no_header_injection_witness : ∃ head body, split sample_written = (head, as_bytes body) ∧
  fst <$> parse_headers head
  = lit <$> ["date"; "from"; "to"; "subject"; "message-id"; "mime-version"; "content-type";
             "content-transfer-encoding"].
Proof.
  destruct (no_header_injection "email.send-message" hostile_arguments sample_config sample_from sample_from 0 1
    sample_outgoing sample_written) as (_ & head & body & Hs & Hh & _).
  - reflexivity.
  - intros name [= <-]. by repeat constructor.
  - reflexivity.
  - vm_compute. reflexivity.
  - exists head, body. split; [exact Hs|]. apply (f_equal (fmap fst)) in Hh.
    rewrite <- !list_fmap_compose in Hh. etrans; [|etrans; [exact Hh|reflexivity]].
    apply list_fmap_ext. done.
Defined.
End EmailLibrary.

Module MailServer.

(** A server that expects what the script says is sent, and answers with what
    the script says is got. *)
#[local] Instance scripted : Transport (list event_) := {|
  tr_connect _ w := (Ok tt, w);
  tr_send b w :=
    match w with
    | Sent expected :: w => if bool_decide (b = expected) then (Ok tt, w) else (Err (unavailable "unexpected"), w)
    | _ => (Err (unavailable "not listening"), w)
    end;
  tr_read _ _ w :=
    match w with
    | Got b :: w => (Ok (mkChunk b false), w)
    | _ => (Ok (mkChunk [] true), w)
    end;
|}.

(** ** A message with a line ending and a parenthesis *)

Definition sample_body : list N := lit "a)" ++ CRLF ++ lit "b".
Definition sample_date : str := lit "1-Jan".
Definition first_answer : list N := wire (fetch_response 1 7 [ItemSize 5]) ++ wire (completed 1).
Definition second_answer : list N :=
  wire (fetch_response 1 7 [ItemDate sample_date; ItemBody false sample_body]) ++ wire (completed 2).
Definition sample_script : list event_ :=
  [Sent (fetch_command 1 7 (lit "UID RFC822.SIZE"));
   Got (take 10 first_answer); Got (drop 10 first_answer);
   Sent (fetch_command 2 7 (lit "UID INTERNALDATE BODY.PEEK[]"));
   Got (take 50 second_answer); Got (drop 50 second_answer)].

Lemma fetch_exact_witness : ∃ c',
  fetch 60 7 100 connection_new sample_script
  = (Value_ (Some (mkFetched 7 (Some sample_date) 5 sample_body false)), c', []).
Proof.
  apply (fetch_exact 60 1 1 7 5 sample_date sample_body 100 [take 10 first_answer; drop 10 first_answer]
    [take 50 second_answer; drop 50 second_answer] connection_new sample_script []).
  - by split; [unfold framer_ok; simpl; lia|].
  - unfold u64_max. lia.
  - unfold u64_max. lia.
  - unfold u64_max. lia.
  - unfold u64_max. lia.
  - repeat (constructor; [done|]). constructor.
  - unfold usize_max. vm_compute. discriminate.
  - vm_compute. discriminate.
  - vm_compute. discriminate.
  - reflexivity.
  - reflexivity.
  - apply (serves_sent _ (tail sample_script)); [reflexivity|].
    do 2 (eapply serves_got; [discriminate|reflexivity|]).
    eapply serves_sent; [reflexivity|].
    do 2 (eapply serves_got; [discriminate|reflexivity|]). apply serves_nil.
  - simpl. lia.
Defined.

(** ** A search *)

Definition search_answer : list N :=
  lit "* SEARCH 9 4 7 4 3" ++ CRLF ++ lit "p0001 OK done" ++ CRLF.
Definition search_script : list event_ :=
  [Sent (as_bytes (lit "p0001 UID SEARCH UID 4:*") ++ CRLF); Got search_answer].

Lemma search_run : ∃ c', search_since 10 3 2 connection_new search_script = (Value_ [4; 7], c', []).
Proof. eexists. vm_compute. reflexivity. Qed.

Lemma search_since_exact_witness : StronglySorted N.lt [4; 7] ∧ (length [4; 7] ≤ 2)%nat.
Proof.
  destruct search_run as [c' Hrun].
  destruct (search_since_exact 10 3 2 connection_new search_script [4; 7] c' [] Hrun)
    as (tag & c1 & w1 & completion & _ & _ & Hs & Hl & _). by split.
Defined.

(** ** A bare line ending *)

(** The parser never returns from a list with a bare line ending. *)
Example bare_newline_hangs fuel : parse_fetch fuel (lit "* 1 FETCH (" ++ [LF] ++ lit ")") = None.
Proof.
  change (parse_fetch fuel (lit "* 1 FETCH (" ++ [LF] ++ lit ")"))
    with (match parse_token fuel (lit "(" ++ [LF] ++ lit ")") with
          | None => None
          | Some (Err e) => Some (Err e)
          | Some (Ok (TokenList items, _)) =>
              Some (Ok (Some (read_items (mkFetchItems None None None None) items)))
          | Some (Ok _) => Some (Ok None)
          end).
  destruct fuel as [|fuel]; [done|].
  change (parse_token (S fuel) (lit "(" ++ [LF] ++ lit ")")) with (parse_items fuel [LF; 41] []).
  by rewrite newline_stuck by by right.
Qed.

(** ** A submission *)

#[local] Existing Instance EmailLibrary.sample_base64.

Definition sample_message : list N := lit "Subject: x" ++ CRLF ++ CRLF ++ lit ".hidden" ++ CRLF.
Definition two_recipients : list str := [lit "b@example.org"; lit "c@example.org"].

Lemma submission_exact_witness : ∃ n,
  receive_data n (dot_stuff sample_message ++ lit "QUIT") = Some (terminated sample_message, lit "QUIT").
Proof.
  destruct (submission_exact (W := list event_) (N.to_nat 65538) ltac:(rewrite N2Nat.id; unfold MAX_REPLY; lia)
    (lit "a@example.org") two_recipients sample_message (mkSession [] []) [])
    as (_ & _ & _ & _ & _ & _ & _ & _ & _ & Hr).
  - reflexivity.
  - constructor; [reflexivity|]. constructor; [reflexivity|constructor].
  - exact (Hr (lit "QUIT")).
Defined.

(** A server that accepts the sender in two lines, sent in two chunks, and
    refuses the second recipient. *)
Definition strict_script : list event_ :=
  [Sent (as_bytes (mail_from (lit "a@example.org")) ++ CRLF); Got (lit "250-well" ++ [CR]);
   Got ([LF] ++ lit "250 ok" ++ CRLF);
   Sent (as_bytes (rcpt_to (lit "b@example.org")) ++ CRLF); Got (lit "251 ok" ++ CRLF);
   Sent (as_bytes (rcpt_to (lit "c@example.org")) ++ CRLF); Got (lit "550 no" ++ CRLF)].

(** What is said to it ends with that recipient. *)
Example strict_run : ∃ e s' t,
  session_submit (H := overheard) 4 (lit "a@example.org") two_recipients sample_message
    (mkSession [] []) ([], strict_script) = (Failure_ e, s', (t, [])) ∧
  omap (λ x, match x with Said b _ => Some b | Heard _ => None end) t
  = [as_bytes (mail_from (lit "a@example.org")) ++ CRLF; as_bytes (rcpt_to (lit "b@example.org")) ++ CRLF;
     as_bytes (rcpt_to (lit "c@example.org")) ++ CRLF].
Proof. eexists _, _, _. split; [vm_compute; reflexivity|reflexivity]. Qed.

Lemma submission_needs_every_answer_witness : ∃ outcome s' t w',
  session_submit (H := overheard) (N.to_nat 65538) (lit "a@example.org") two_recipients sample_message
    (mkSession [] []) ([], strict_script) = (outcome, s', (t, w')) ∧
  conversation (submission_steps (lit "a@example.org") two_recipients sample_message) [] t (session_buffer s') outcome.
Proof.
  exact (submission_needs_every_answer (N.to_nat 65538) ltac:(rewrite N2Nat.id; unfold MAX_REPLY; lia)
    (lit "a@example.org") two_recipients sample_message (mkSession [] []) strict_script).
Defined.
End MailServer.
